(* ===== verification/_CoqProject ===== *)
-Q . S2P
Prelude.v
OpSem.v
Facts.v
Float64.v
Types.v
FnSets.v
TypeLattice.v
Claims.v
IntervalSound.v
Engine.v
EngineSound.v
EngineRun.v
EngineRaise.v
EngineFix.v
EngineSolve.v
Mem.v
Registration.v
RegistrationSound.v
Source.v
Walker.v
WalkerSound.v
Bytecode.v
BytecodeSound.v
Live.v
LiveFlow.v
LiveSound.v
Cfg.v
DomSound.v
DomTreeSound.v
DomExact.v
LoopSound.v
Contexts.v
ContextsSound.v
Builtins.v
SolverState.v
Heap.v
HeapEval.v
Calls.v
Seed.v
EngineExt.v
HeapInv.v
HeapKeep.v
HeapOps.v
SolverKeep.v
ReadSubs.v
Effects.v
EffectJoin.v
EffectFix.v
EffectLoop.v
EffectWalkSound.v
EffectSound.v
Image.v
Strip.v
Ctx.v
Operand.v
Predict.v
SlotSound.v
SlotMeaning.v
OperandSound.v
CtxSound.v
CtxHeight.v
PredictSound.v
Versions.v
VersionRounds.v
VersionTable.v
VersionInv.v
VersionFrozen.v
VersionWalk.v
VersionConsult.v
VersionMeasure.v
VersionProgress.v
VersionTerm.v
Properties.v
SnapshotProperties.v
LoweringProperties.v
ContextProperties.v
ToolProperties.v
EffectProperties.v
VersionProperties.v
HeapProperties.v
