(* ===== verification/Prelude.v ===== *)
(** * NightMonkey: a verification library for the ahead-of-time compiler's core

    NightMonkey compiles the JavaScript held in a snapshot of a SpiderMonkey
    heap to Wasm. This library models the parts of [src/] that decide what the
    compiled code may assume, and proves them correct.

    ** The program

    The pipeline is: the snapshot crate reads the tables a guest registered
    in its memory ([snapshot/src/registration.rs]) and walks the heap from
    them into an object graph ([snapshot/src/walker.rs], the graph in
    [compiler/src/source.rs]); the compiler parses the bytecode of each script
    ([bytecode.rs]); a whole-program analysis ("likelier") turns it into
    constraints over type sets and solves them ([likelier/types.rs],
    [likelier/engine.rs]), over the operator vocabulary of [opsem.rs]; the
    solution is projected to packed claims ([facts.rs]); the lowering
    ([wasm/bbv]) versions every basic block by what it has proven of the frame
    ([ctx.rs]), after a pass that predicts one fact context per program point
    ([predict.rs]), and consults liveness ([live.rs]) and the control-flow
    graph with its dominators and loops ([cfg.rs]).

    ** The files and the code they model

    - [Prelude]: machine integers, lists, sorting, the shared automation.
    - [OpSem], [Facts]: [compiler/src/opsem.rs] and the claim words of
      [compiler/src/facts.rs]. [Float64] is the semantic domain: binary64 as
      the Standard Library specifies it, with the ECMAScript conversions.
      [IntervalSound] relates the two.
    - [Types]: [likelier/types.rs]; [FnSets], [TypeLattice] and [Claims] hold
      its lemmas (function sets, the type-set lattice, the claims).
    - [Engine]: [likelier/engine.rs], one record for the state, one function
      per method; [EngineSound] holds the regions and the order of type sets up
      to them, [EngineRun] the well-formed engines with their potential,
      [EngineRaise] what a raise with all it re-enters does, [EngineFix] and
      [EngineSolve] the driver and whole programs.
    - [Mem], [Registration], [Walker]: [snapshot/src/mem.rs], [layout.rs],
      [registration.rs], [walker.rs]; [Source]: [compiler/src/source.rs].
      [RegistrationSound] and [WalkerSound] hold their lemmas.
    - [Bytecode], [BytecodeSound]: [compiler/src/bytecode.rs].
    - [Live], [LiveFlow], [LiveSound]: [wasm/bbv/live.rs].
    - [Cfg] with [DomSound], [DomTreeSound], [DomExact], [LoopSound]: [wasm/bbv/cfg.rs].
    - [Ctx], [Operand]: [wasm/bbv/ctx.rs], [view.rs], and from [version.rs] and
      [frame.rs] the operands and facts a block enters with and the write-back
      of a guard. [SlotSound], [CtxSound], [CtxHeight]: the order, the joins
      and the heights; [SlotMeaning], [OperandSound]: facts as sets of values.
    - [Predict], [PredictSound]: the table of [wasm/bbv/predict.rs].
    - [Versions]: version discovery in [wasm/bbv/version.rs] (the version
      table, [theta], the continuation seam and its on-ramps, the drain);
      [VersionRounds]: the rounds of [predict.rs] and the ladder of
      [wasm/bbv/mod.rs]. The lowering of a version is their parameter: a
      function from the table, the splices and the replies so far to the next
      edge it asks for, with the guard planner's answer for it.
      [VersionTable], [VersionInv]: the table and its invariant;
      [VersionFrozen], [VersionWalk], [VersionConsult]: a walk that moved
      nothing is repeated by the emitting walk; [VersionMeasure],
      [VersionProgress], [VersionTerm]: every walk, round and retry ends.
    - [Contexts], [ContextsSound]: the name interner of [compiler/src/ids.rs]
      and the call contexts of [likelier/calls.rs].
    - [SolverState], [Heap], [HeapEval], [Calls], [Seed]: the solver of
      [likelier/mod.rs] with its heap model ([heap.rs]) and its call binding
      ([calls.rs]). [SolverState] is [Solver] with all its tables and the monad
      of its methods (a state with failure: [None] is a panic, an index out of
      range or spent fuel); [Heap] the abstractions, classes and field cells
      with their standing links, seeded lazily from the snapshot; [HeapEval]
      and [Calls] the evaluation of the constraints the engine does not know;
      [Seed] the initial state and the phases of [analyze] before the
      emission. [EngineExt] is what any engine operation leaves in place;
      [HeapInv] the invariant and a Hoare logic that preserves it, with the
      links still pending and the allocation-site fields that may change as
      parameters; [HeapKeep], [HeapOps], [SolverKeep] one triple per operation,
      up to the reachable states of an analysis; [ReadSubs] the subscriptions
      of a read.
    - [Builtins], [Effects]: [likelier/builtins.rs] and [likelier/effects.rs],
      with the group ids of [emit.rs]. [EffectJoin], [EffectFix] and [EffectLoop] hold the joins, the worklist over the call graph and its
      result; [EffectWalkSound], [EffectSound] the walk of the
      bytecode, the fold of its call edges, and their composition.
    - [Image], [Strip]:
      [nightmonkey/src/image.rs] and [strip.rs].
    - [Properties], [SnapshotProperties], [LoweringProperties],
      [ContextProperties], [VersionProperties], [HeapProperties],
      [EffectProperties], [ToolProperties]: the theorems the library is for,
      each with an instance at a concrete input.

    A Rust integer is a [Z]; the operations that can leave its width wrap
    explicitly ([wrap_u], [wrap_s]). A [HashMap] is a [gmap], a [Vec] a list,
    an index that may be out of range a lookup. A [Result] whose evaluation
    may also panic is a [res] ([Mem]): a value, an error, a panic, or no fuel
    left, so that no theorem takes a lack of fuel for a result. State is
    passed explicitly; the heap walk and the parser use small monads.

    ** What the theorems show

    - The operators: the interval rules are sound for IEEE arithmetic outside
      one product, which is shown to fail; the result table agrees with the
      independent oracle of the code's own tests; the transfer is monotone.
    - The analysis: the join of type sets computes the componentwise join with
      an exact change flag, the bounded function sets refine capped sets,
      claims cover what was raised. A raise delivers its value and, unless it
      merges regions, keeps every satisfied link satisfied; the driver
      terminates on every program of structural constraints, element views on,
      in a state that satisfies each of them. Arrivals are compared in every
      part of a type set, objects up to the merged regions and the recorded
      absorptions; the flag [unknown] is excepted, since the fast path drops it. Where the code
      departs from its documentation (the change bound, associativity, the
      dropped unknown, the re-entrant raise) the departure is a theorem.
    - The heap of the analysis: at every state of an analysis over constraints
      of every kind the heap is well-formed and only grows; whatever order
      prototypes, sources and names arrive in, every source feeds its class's
      method table; the field of an allocation site changes only by a write
      through a receiver known as that site; a read subscribes to every cell
      its answer came from, statics, accessors, element unions, regions, the prototype chain and its dead end included. One order
      of interning loses a class's inherited methods, which is a theorem too.
    - The snapshot: on a 64-bit host reading a registration never panics, short
      of memory running out, and reads back what the serializer wrote; the heap walk ends in a well-formed graph, an
      error, or exhausted identifiers; the visit of an encoded script makes
      exactly the encoded calls.
    - The lowering's analyses: the liveness queries hold exactly for the slots
      some control path reads before writing; the dominator tree is the
      dominance relation; the loop nest is the natural loops.
    - The lowering's facts: implication of slot facts is sound for inclusion
      of their values, the join is the least upper bound up to the interval,
      the meet of compatible facts is the intersection; operands
      and representations keep their facts true; every arrival implies what
      its program point finally predicts, whatever operations the table runs,
      as long as a prediction set from outside does not strengthen the one it
      replaces; and predictions settle. The source
      of a stack slot is not covered by that contract, and a theorem shows the
      wrong refinement that follows.
    - Version discovery: an arrival enters a version that covers it; the
      translation of a script ends for every lowering that asks for boundedly
      many edges; when the rounds settle, the emitting walk moves nothing, so
      the closure check passes at once and no debug assertion fails.

    - Contexts and names: every reachable call context is a bounded call
      string without repetition, the table stays within its budget, and the
      name interner is a bijection.
    - Effect summaries: the worklist ends, although summaries are compared with
      the order of their writes, and ends in the union of what is reachable;
      an unsaturated summary covers every instruction of every script a call
      can reach over the tables the solver leaves.
    - The tool: an image written back as data segments is the same image; the
      strip keeps exactly the other sections; a section size that wraps the
      position keeps the section walk from ever ending.

    ** Fuel

    - [Cfg.dfs_fuel]: one step per successor entry and one per block, which is
      what the search consumes; [Cfg.dom_fuel] is [n + 3] passes, since a pass
      settles the paths one edge longer and the pass after the last change
      changes nothing ([DomExact]); [Cfg.body_fuel] bounds a backward walk
      by the predecessor entries ([LoopSound]).
    - [Live.live_fuel]: one pass per bit of the table and two more, since every
      pass but the last sets a bit ([LiveFlow]).
    - The engine's raise needs fuel above the state's potential, the regions
      left to merge and the distance of all cells to the top ([EngineRun]); the theorems quantify over every
      fuel from a bound on.
    - [Effects.effect_loop]: the theorem gives a bound from which the fuel
      suffices; every update grows a summary or settles the order of two of
      its writes against its source for the rest of the phase ([EffectFix],
      [EffectLoop]).
    - [VersionRounds.translate_script]: every step of a walk lowers a measure
      (the version ids at points without a prediction, the heights of the
      predictions, the contexts that are not settled, the versions without a
      block, the queue) or leaves it; ids are 32 bits, so the caps bound the
      rounds ([VersionTerm.ROUNDS]) and the retries.
    - The heap model takes one fuel for the engine's raise, for the recursion
      of field cells, homes and snapshot interning, and a number of steps for
      the loop. Its theorems hold for every fuel, of the states the runs that
      return reach; that the runs return is shown at concrete programs and is
      proved in general for the structural constraints only.
    - [Walker.walk] and [Bytecode.visit] take fuel above the number of
      addresses and of bytes; the theorems state that it suffices.

    ** What is not modelled

    The lowerings themselves, the guard planner and the post-passes emit
    through the waffle function builder, and the external tool (its image and its strip apart)
    and the host drive waffle, wizer and wasmtime: third-party code whose
    meaning the model would have to make up. The opcode table and the snapshot's layout numbers are generated from
    the engine's headers and are parameters with the laws the code relies on.
    In the theorem on the driver the constraints that are not structural are
    absent, and the tables the effect summaries read from the solved state are
    their input. The scan that turns bytecode into constraints is the input of
    the heap model: its theorems hold for every list of constraints. The
    projection of the solved state into fact tables is not modelled. Logging, dumps, statistics and
    censuses are output only. The C++ runtime enters only through the layout
    it registers. *)

From Stdlib Require Export ZArith Lia Bool.
From Stdlib Require Import Sorting.Sorted.
From stdpp Require Export base tactics list gmap numbers option.

#[export] Set Default Goal Selector "!".

Declare Scope night_scope.
Delimit Scope night_scope with night.
Open Scope Z_scope.

(** ** Machine integers

    A Rust integer of width [w] is a [Z]; the operations that can leave the
    width wrap explicitly. *)

Definition wrap_u (w z : Z) : Z := z mod 2 ^ w.

Definition wrap_s (w z : Z) : Z :=
  (z + 2 ^ (w - 1)) mod 2 ^ w - 2 ^ (w - 1).

Definition in_u (w z : Z) : Prop := 0 <= z < 2 ^ w.
Definition in_s (w z : Z) : Prop := - 2 ^ (w - 1) <= z < 2 ^ (w - 1).

Definition i64_add (a b : Z) : Z := wrap_s 64 (a + b).
Definition i64_sub (a b : Z) : Z := wrap_s 64 (a - b).
Definition i64_neg (a : Z) : Z := wrap_s 64 (- a).
Definition i64_shl (a k : Z) : Z := wrap_s 64 (Z.shiftl a k).
Definition i64_shr (a k : Z) : Z := Z.shiftr a k.

(** [i64::checked_mul]. *)
Definition i64_checked_mul (a b : Z) : option Z :=
  if ((- 2 ^ 63 <=? a * b) && (a * b <? 2 ^ 63))%bool then Some (a * b) else None.

(** [u64::next_power_of_two], on arguments whose result fits the width. *)
Definition next_power_of_two (x : Z) : Z :=
  if x <=? 1 then 1 else 2 ^ Z.log2_up x.

(** [u16]'s and [u32]'s bitwise complement. *)
Definition not_u (w z : Z) : Z := Z.lxor z (Z.ones w).

Lemma wrap_s_small (w z : Z) : 0 < w -> in_s w z -> wrap_s w z = z.
Proof.
  intros Hw [H1 H2]. unfold wrap_s.
  assert (2 ^ w = 2 * 2 ^ (w - 1)) as E.
  { rewrite <- Z.pow_succ_r by lia. f_equal. lia. }
  rewrite Z.mod_small; lia.
Qed.

Lemma wrap_u_small (w z : Z) : in_u w z -> wrap_u w z = z.
Proof. intros H. apply Z.mod_small. exact H. Qed.

Lemma wrap_u_range (w z : Z) : 0 <= w -> in_u w (wrap_u w z).
Proof. intros Hw. apply Z.mod_pos_bound. lia. Qed.

Lemma wrap_s_range (w z : Z) : 0 < w -> in_s w (wrap_s w z).
Proof.
  intros Hw. unfold wrap_s, in_s.
  assert (2 ^ w = 2 * 2 ^ (w - 1)) as E.
  { rewrite <- Z.pow_succ_r by lia. f_equal. lia. }
  pose proof (Z.mod_pos_bound (z + 2 ^ (w - 1)) (2 ^ w)). lia.
Qed.

Lemma next_power_of_two_ge (x : Z) : x <= next_power_of_two x.
Proof.
  unfold next_power_of_two. destruct (Z.leb_spec x 1) as [H|H]; [lia|].
  apply Z.log2_log2_up_spec. lia.
Qed.

Lemma next_power_of_two_pow (x : Z) :
  exists k, 0 <= k /\ next_power_of_two x = 2 ^ k.
Proof.
  unfold next_power_of_two. destruct (x <=? 1).
  - exists 0. split; [lia|reflexivity].
  - exists (Z.log2_up x). split; [apply Z.log2_up_nonneg|reflexivity].
Qed.

Lemma next_power_of_two_le_pow (x k : Z) :
  0 <= k -> x <= 2 ^ k -> next_power_of_two x <= 2 ^ k.
Proof.
  intros Hk Hx. unfold next_power_of_two.
  destruct (Z.leb_spec x 1) as [H|H].
  - pose proof (Z.pow_pos_nonneg 2 k). lia.
  - apply Z.pow_le_mono_r; [lia|]. apply Z.log2_up_le_pow2; lia.
Qed.

Lemma next_power_of_two_idemp (x : Z) :
  next_power_of_two (next_power_of_two x) = next_power_of_two x.
Proof.
  destruct (next_power_of_two_pow x) as (k & Hk & E). rewrite E.
  apply Z.le_antisymm.
  - apply next_power_of_two_le_pow; lia.
  - apply next_power_of_two_ge.
Qed.

(** ** Byte strings *)

(** [.len()] of a byte string. *)
Definition len (b : list Z) : Z := Z.of_nat (length b).

Lemma len_app (b c : list Z) : len (b ++ c) = len b + len c.
Proof. unfold len. rewrite length_app. lia. Qed.

Lemma len_nonneg (b : list Z) : 0 <= len b.
Proof. unfold len. lia. Qed.

(** ** Bits *)

Lemma land_bound (x y : Z) : 0 <= x -> 0 <= Z.land x y <= x.
Proof.
  intros H. apply Z.ldiff_le; [done|]. apply Z.bits_inj'. intros i _.
  rewrite Z.ldiff_spec, Z.land_spec, Z.bits_0. destruct (Z.testbit x i), (Z.testbit y i); done.
Qed.

Lemma testbit_not_u (w z i : Z) :
  0 <= i < w -> Z.testbit (not_u w z) i = negb (Z.testbit z i).
Proof.
  intros H. unfold not_u. rewrite Z.lxor_spec, Z.ones_spec_low by lia.
  apply xorb_true_r.
Qed.

Lemma testbit_above (w z i : Z) : in_u w z -> 0 <= w <= i -> Z.testbit z i = false.
Proof.
  intros [H1 H2] Hi.
  destruct (decide (z = 0)) as [->|Hz]; [apply Z.bits_0|].
  apply Z.bits_above_log2; [lia|].
  assert (Z.log2 z < w); [|lia].
  apply Z.log2_lt_pow2; lia.
Qed.

(** A field above the bits of [a]. *)
Lemma lor_shift (a b n : Z) : 0 <= n -> in_u n a -> Z.lor a (Z.shiftl b n) = a + 2 ^ n * b.
Proof.
  intros Hn Ha. unfold in_u in Ha. destruct (Z.eq_dec a 0) as [->|Ha0].
  { rewrite Z.lor_0_l, Z.shiftl_mul_pow2 by done. lia. }
  assert (Z.land a (Z.shiftl b n) = 0) as E.
  { apply Z.bits_inj_0. intros i. rewrite Z.land_spec. destruct (Z.ltb_spec i n).
    - rewrite (Z.shiftl_spec_low b n i) by done. apply andb_false_r.
    - rewrite (Z.bits_above_log2 a i); [done|lia|]. apply Z.log2_lt_pow2; [lia|].
      pose proof (Z.pow_le_mono_r 2 n i). lia. }
  rewrite <- Z.lxor_lor, <- Z.add_nocarry_lxor by done. rewrite Z.shiftl_mul_pow2 by done. lia.
Qed.

(** ** Tactics shared by the components *)

(** Case on the innermost boolean test or match of the goal. *)
Ltac case_test :=
  match goal with
  | |- context [if ?b then _ else _] => destruct b eqn:?
  | |- context [match ?x with _ => _ end] => destruct x eqn:?
  end.

(** Turn boolean comparison hypotheses into arithmetic ones. *)
Ltac zify_bool :=
  repeat match goal with
  | H : (_ && _)%bool = true |- _ => apply andb_true_iff in H as [? ?]
  | H : (_ || _)%bool = false |- _ => apply orb_false_iff in H as [? ?]
  | H : negb _ = true |- _ => apply negb_true_iff in H
  | H : negb _ = false |- _ => apply negb_false_iff in H
  | H : (_ <=? _) = true |- _ => apply Z.leb_le in H
  | H : (_ <=? _) = false |- _ => apply Z.leb_gt in H
  | H : (_ <? _) = true |- _ => apply Z.ltb_lt in H
  | H : (_ <? _) = false |- _ => apply Z.ltb_ge in H
  | H : (_ =? _) = true |- _ => apply Z.eqb_eq in H
  | H : (_ =? _) = false |- _ => apply Z.eqb_neq in H
  | H : bool_decide _ = true |- _ => apply bool_decide_eq_true in H
  | H : bool_decide _ = false |- _ => apply bool_decide_eq_false in H
  end.

Create HintDb night.
Create Rewrite HintDb night.
#[export] Hint Resolve wrap_u_range wrap_s_range next_power_of_two_ge : night.
#[export] Hint Rewrite wrap_s_small wrap_u_small using lia : night.

(** ** Sorting

    [sort_unstable] of a list under a total order, [sort_by_key] under a total
    preorder: insertion keeps equal elements in order. *)

Fixpoint insert_sorted {A} (le : A -> A -> bool) (x : A) (l : list A) : list A :=
  match l with
  | [] => [x]
  | y :: l => if le x y then x :: y :: l else y :: insert_sorted le x l
  end.

Definition sort_list {A} (le : A -> A -> bool) (l : list A) : list A := foldr (insert_sorted le) [] l.

Lemma insert_sorted_perm {A} (le : A -> A -> bool) (x : A) (l : list A) : insert_sorted le x l ≡ₚ x :: l.
Proof.
  induction l as [|y l IH]; cbn [insert_sorted]; [done|]. destruct (le x y); [done|].
  rewrite IH. apply Permutation_swap.
Qed.

Lemma sort_list_perm {A} (le : A -> A -> bool) (l : list A) : sort_list le l ≡ₚ l.
Proof.
  induction l as [|x l IH]; [done|]. unfold sort_list in *. cbn [foldr]. by rewrite insert_sorted_perm, IH.
Qed.

Lemma sort_list_elem {A} (le : A -> A -> bool) (l : list A) (x : A) : x ∈ sort_list le l <-> x ∈ l.
Proof. by rewrite sort_list_perm. Qed.

Section SortSorted.
Context {A : Type} (le : A -> A -> bool).
Hypothesis le_total : forall x y, le x y = true \/ le y x = true.
Hypothesis le_trans : forall x y z, le x y = true -> le y z = true -> le x z = true.

Lemma insert_sorted_sorted (x : A) (l : list A) :
  StronglySorted (fun a b => le a b = true) l -> StronglySorted (fun a b => le a b = true) (insert_sorted le x l).
Proof.
  induction 1 as [|y l Hs IH Hy]; cbn [insert_sorted]; [by repeat constructor|].
  destruct (le x y) eqn:E.
  - constructor; [by constructor|]. constructor; [done|]. eapply List.Forall_impl; [|exact Hy]. eauto.
  - constructor; [done|]. apply list.Forall_forall. intros z Hz. rewrite insert_sorted_perm in Hz.
    apply elem_of_cons in Hz as [-> |Hz]; [by destruct (le_total x y) as [?|?]; [congruence|]|].
    exact (proj1 (list.Forall_forall _ _) Hy z Hz).
Qed.

Lemma sort_list_sorted (l : list A) : StronglySorted (fun a b => le a b = true) (sort_list le l).
Proof. induction l as [|x l IH]; cbn; [constructor|by apply insert_sorted_sorted]. Qed.
End SortSorted.
