(* ===== verification/OpSem.v ===== *)
(** * OpSem: the operator vocabulary of [compiler/src/opsem.rs]

    The set of primitive classes [Prims] with its set algebra, the magnitude
    ladder [Range], the typed-array kinds, the result algebra of the numeric
    and string operators ([result]), and the exact-integer interval algebra
    ([iv_add] .. [iv_bitnot]) with its widening and quantising ladders.
    [IntervalSound.v] proves the interval algebra against binary64. *)

From S2P Require Import Prelude.

(** ** Primitive-class sets *)

(** [Prims(u16)]. *)
Record Prims := mkPrims { bits : Z }.

#[export] Instance Prims_eq_dec : EqDecision Prims.
Proof. solve_decision. Defined.

Definition EMPTY : Prims := mkPrims 0.

Definition PRIM_INT32 : Prims := mkPrims (Z.shiftl 1 0).
Definition PRIM_DOUBLE : Prims := mkPrims (Z.shiftl 1 1).
Definition PRIM_STRING : Prims := mkPrims (Z.shiftl 1 2).
Definition PRIM_UNDEFINED : Prims := mkPrims (Z.shiftl 1 3).
Definition PRIM_NULL : Prims := mkPrims (Z.shiftl 1 4).
Definition PRIM_BOOLEAN : Prims := mkPrims (Z.shiftl 1 5).
Definition PRIM_BIGINT : Prims := mkPrims (Z.shiftl 1 6).
Definition PRIM_SYMBOL : Prims := mkPrims (Z.shiftl 1 7).
Definition ALL_PRIMS : Prims := mkPrims 0xff.
Definition NUM : Prims := mkPrims (Z.lor (bits PRIM_INT32) (bits PRIM_DOUBLE)).

Definition from_bits (b : Z) : Prims := mkPrims (Z.land b (bits ALL_PRIMS)).
Definition p_or (a b : Prims) : Prims := mkPrims (Z.lor (bits a) (bits b)).
Definition p_and (a b : Prims) : Prims := mkPrims (Z.land (bits a) (bits b)).
Definition p_sub (a b : Prims) : Prims :=
  mkPrims (Z.land (bits a) (not_u 16 (bits b))).
Definition p_is_empty (a : Prims) : bool := bits a =? 0.
Definition intersects (a b : Prims) : bool := negb (Z.land (bits a) (bits b) =? 0).
Definition subset_of (a b : Prims) : bool :=
  Z.land (bits a) (not_u 16 (bits b)) =? 0.
Definition is_only (a b : Prims) : bool := bits a =? bits b.
Definition is_nonempty_subset_of (a b : Prims) : bool :=
  negb (bits a =? 0) && (Z.land (bits a) (not_u 16 (bits b)) =? 0).

(** Equality of two sets, [==] of the derived [PartialEq]. *)
Definition p_eqb (a b : Prims) : bool := bits a =? bits b.

(** The class with bit [i], and the order in which [viz_parts] lists the
    members of a set. *)
Definition prim_class (i : Z) : Prims := mkPrims (Z.shiftl 1 i).

Inductive PrimName :=
  | N_i32 | N_dbl | N_bool | N_str | N_undef | N_null | N_bigint | N_sym.

Definition viz_parts (p : Prims) : list PrimName :=
  map snd
    (List.filter (fun e => intersects p (fst e))
       [ (PRIM_INT32, N_i32); (PRIM_DOUBLE, N_dbl); (PRIM_BOOLEAN, N_bool);
         (PRIM_STRING, N_str); (PRIM_UNDEFINED, N_undef); (PRIM_NULL, N_null);
         (PRIM_BIGINT, N_bigint); (PRIM_SYMBOL, N_sym) ]).

(** ** The magnitude ladder *)

Inductive Range := R_I32 | R_I53 | R_Top.

#[export] Instance Range_eq_dec : EqDecision Range.
Proof. solve_decision. Defined.

(** The derived [Ord]: declaration order. *)
Definition range_rank (r : Range) : Z :=
  match r with R_I32 => 0 | R_I53 => 1 | R_Top => 2 end.
Definition range_le (a b : Range) : bool := range_rank a <=? range_rank b.
Definition range_max (a b : Range) : Range := if range_le a b then b else a.

(** ** Typed-array kinds *)

Inductive TaKind :=
  | Int8 | Uint8 | Uint8Clamped | Int16 | Uint16 | Int32 | Uint32
  | Float32 | Float64.

#[export] Instance TaKind_eq_dec : EqDecision TaKind.
Proof. solve_decision. Defined.

Definition ta_ALL : list TaKind :=
  [Int8; Uint8; Uint8Clamped; Int16; Uint16; Int32; Uint32; Float32; Float64].

(** [self as u8]: the discriminant. *)
Definition ta_discr (k : TaKind) : Z :=
  match k with
  | Int8 => 0 | Uint8 => 1 | Uint8Clamped => 2 | Int16 => 3 | Uint16 => 4
  | Int32 => 5 | Uint32 => 6 | Float32 => 7 | Float64 => 8
  end.

Definition ta_code (k : TaKind) : Z := ta_discr k + 1.

Definition ta_from_code (code : Z) : option TaKind :=
  match code with
  | 1 => Some Int8 | 2 => Some Uint8 | 3 => Some Uint8Clamped
  | 4 => Some Int16 | 5 => Some Uint16 | 6 => Some Int32 | 7 => Some Uint32
  | 8 => Some Float32 | 9 => Some Float64
  | _ => None
  end.

Definition ta_log2_bytes (k : TaKind) : Z :=
  match k with
  | Int8 | Uint8 | Uint8Clamped => 0
  | Int16 | Uint16 => 1
  | Int32 | Uint32 | Float32 => 2
  | Float64 => 3
  end.

Definition ta_proven_range (k : TaKind) : option (Z * Z) :=
  match k with
  | Int8 => Some (-128, 127)
  | Uint8 | Uint8Clamped => Some (0, 255)
  | Int16 => Some (-32768, 32767)
  | Uint16 => Some (0, 65535)
  | Uint32 => Some (0, Z.shiftl 1 32 - 1)
  | _ => None
  end.

(** ** The result algebra *)

Record Opnd := mkOpnd { o_prims : Prims; o_wild : bool; o_range : Range }.

Inductive NumOp :=
  | Add | Sub | Mul | Div | Mod | Pow | Inc | Dec | Neg | Pos | ToNumeric
  | Ursh | BitAnd | BitOr | BitXor | Lsh | Rsh | BitNot.

#[export] Instance NumOp_eq_dec : EqDecision NumOp.
Proof. solve_decision. Defined.

Definition unary (op : NumOp) : bool :=
  match op with
  | Inc | Dec | Neg | Pos | ToNumeric | BitNot => true
  | _ => false
  end.

Definition def_string (o : Opnd) : bool :=
  negb (o_wild o) && p_eqb (o_prims o) PRIM_STRING.

Definition may_string (o : Opnd) : bool := intersects (o_prims o) PRIM_STRING.

Definition to_number_bits (o : Opnd) : Prims :=
  let m := EMPTY in
  let m := if intersects (o_prims o) (p_or (p_or PRIM_INT32 PRIM_BOOLEAN) PRIM_NULL)
           then p_or m PRIM_INT32 else m in
  let m := if intersects (o_prims o) (p_or PRIM_DOUBLE PRIM_UNDEFINED)
           then p_or m PRIM_DOUBLE else m in
  if intersects (o_prims o) PRIM_STRING || o_wild o then p_or m NUM else m.

Definition add_number_bits (o : Opnd) : Prims :=
  let m := EMPTY in
  let m := if intersects (o_prims o) (p_or (p_or PRIM_INT32 PRIM_BOOLEAN) PRIM_NULL)
           then p_or m PRIM_INT32 else m in
  let m := if intersects (o_prims o) (p_or PRIM_DOUBLE PRIM_UNDEFINED)
           then p_or m PRIM_DOUBLE else m in
  if o_wild o then p_or m NUM else m.

Definition num_part (na nb : Prims) : Prims :=
  if p_is_empty na || p_is_empty nb then EMPTY
  else if p_eqb na PRIM_INT32 && p_eqb nb PRIM_INT32 then PRIM_INT32
  else if p_eqb na PRIM_DOUBLE && p_eqb nb PRIM_DOUBLE then PRIM_DOUBLE
  else NUM.

Definition num_part_noint (na nb : Prims) : Prims :=
  if p_is_empty na || p_is_empty nb then EMPTY
  else if p_eqb na PRIM_DOUBLE && p_eqb nb PRIM_DOUBLE then PRIM_DOUBLE
  else NUM.

Definition coerced_range (o : Opnd) : Range :=
  if intersects (o_prims o) (p_or PRIM_UNDEFINED PRIM_STRING) || o_wild o
  then R_Top else o_range o.

Definition int_range (a : Opnd) (b : option Opnd) : Range :=
  let ra := coerced_range a in
  let rb := match b with Some b => coerced_range b | None => R_I32 end in
  if range_le (range_max ra rb) R_I53 then R_I53 else R_Top.

(** [result]; [None] is the panic of [b.expect("binary op")]. *)
Definition result (op : NumOp) (a : Opnd) (b : option Opnd) : option (Prims * Range) :=
  match op with
  | Add =>
      match b with
      | None => None
      | Some b =>
          if def_string a || def_string b then Some (PRIM_STRING, R_Top)
          else
            let m := num_part (add_number_bits a) (add_number_bits b) in
            let m := if may_string a || may_string b then p_or m PRIM_STRING else m in
            Some (m, int_range a (Some b))
      end
  | Sub | Mul =>
      match b with
      | None => None
      | Some b =>
          Some (num_part (to_number_bits a) (to_number_bits b), int_range a (Some b))
      end
  | Ursh =>
      match b with
      | None => None
      | Some b => Some (num_part (to_number_bits a) (to_number_bits b), R_I53)
      end
  | Mod =>
      match b with
      | None => None
      | Some b =>
          let m := num_part_noint (to_number_bits a) (to_number_bits b) in
          let r := if range_le (coerced_range a) R_I53 && range_le (coerced_range b) R_I53
                   then R_I53 else R_Top in
          Some (m, r)
      end
  | Div | Pow =>
      match b with
      | None => None
      | Some b => Some (num_part_noint (to_number_bits a) (to_number_bits b), R_Top)
      end
  | Inc | Dec | Neg => Some (num_part (to_number_bits a) PRIM_INT32, int_range a None)
  | Pos | ToNumeric => Some (to_number_bits a, coerced_range a)
  | BitAnd | BitOr | BitXor | Lsh | Rsh =>
      match b with
      | None => None
      | Some _ => Some (PRIM_INT32, R_I32)
      end
  | BitNot => Some (PRIM_INT32, R_I32)
  end.

Definition f64_track_result (a_exact_double b_exact_double : bool) : Prims :=
  if a_exact_double && b_exact_double then PRIM_DOUBLE else NUM.

(** ** Intervals *)

Record ValueRange := mkVR { lo : Z; hi : Z }.

#[export] Instance ValueRange_eq_dec : EqDecision ValueRange.
Proof. solve_decision. Defined.

Definition vr_eqb (a b : ValueRange) : bool := (lo a =? lo b) && (hi a =? hi b).

Definition hull (a b : ValueRange) : ValueRange :=
  mkVR (Z.min (lo a) (lo b)) (Z.max (hi a) (hi b)).

(** [Option<(i64, i64, bool)>]: bounds and the may-be-negative-zero flag. *)
Definition Iv : Type := option (Z * Z * bool).

Definition iv_clean (iv : Iv) : option ValueRange :=
  match iv with
  | Some (l, h, false) => Some (mkVR l h)
  | _ => None
  end.

Definition IV_LIM : Z := 2 ^ 53.
Definition I32_LO : Z := - 2 ^ 31.
Definition I32_HI : Z := 2 ^ 31 - 1.
Definition U32_MAX : Z := 2 ^ 32 - 1.
Definition IV_I32 : Iv := Some (I32_LO, I32_HI, false).
Definition IV_WIDEN_JOINS : Z := 3.

Definition widen_lo (l : Z) : option Z :=
  if 0 <=? l then Some 0
  else if I32_LO <=? l then Some I32_LO
  else if - 2 ^ 36 <=? l then Some (- 2 ^ 36)
  else if - 2 ^ 48 <=? l then Some (- 2 ^ 48)
  else None.

Definition widen_hi (h : Z) : option Z :=
  if h <=? 0 then Some 0
  else if h <=? I32_HI then Some I32_HI
  else if h <=? 2 ^ 36 then Some (2 ^ 36)
  else if h <=? 2 ^ 48 then Some (2 ^ 48)
  else None.

Definition hq_mag_up (mag : Z) : Z :=
  if mag <=? 8 then mag else next_power_of_two mag.

Definition hq_lo (l : Z) : option Z :=
  if 0 <=? l then Some 0
  else if I32_LO <=? l then Some (Z.max (- hq_mag_up (Z.abs l)) I32_LO)
  else None.

Definition hq_hi (h : Z) : option Z :=
  if h <=? 0 then Some 0
  else if h <=? I32_HI then Some (Z.min (hq_mag_up (h + 1) - 1) I32_HI)
  else None.

Definition hq (l h : Z) : option (Z * Z) :=
  match hq_lo l, hq_hi h with
  | Some a, Some b => Some (a, b)
  | _, _ => None
  end.

Definition iv_ok (l h : Z) (nz : bool) : Iv :=
  if (l <=? h) && (i64_neg IV_LIM <=? l) && (h <=? IV_LIM) then Some (l, h, nz) else None.

Definition iv_nonneg_i32 (iv : Iv) : bool :=
  match iv with
  | Some (l, h, _) => (0 <=? l) && (h <=? I32_HI)
  | None => false
  end.

Definition iv_const (iv : Iv) : option Z :=
  match iv with
  | Some (l, h, false) => if l =? h then Some l else None
  | _ => None
  end.

Definition iv_add (a b : Iv) : Iv :=
  match a, b with
  | Some (al, ah, an), Some (bl, bh, bn) =>
      iv_ok (i64_add al bl) (i64_add ah bh) (an && bn)
  | _, _ => None
  end.

Definition iv_sub (a b : Iv) : Iv :=
  match a, b with
  | Some (al, ah, an), Some (bl, bh, _) =>
      iv_ok (i64_sub al bh) (i64_sub ah bl) an
  | _, _ => None
  end.

(** The four corner products, folded by the two nested loops; [?] leaves at
    the first overflow. *)
Definition mul_corners (al ah bl bh : Z) : option (Z * Z) :=
  let step acc xy :=
    match acc with
    | None => None
    | Some (l, h) =>
        match i64_checked_mul (fst xy) (snd xy) with
        | None => None
        | Some p => Some (Z.min l p, Z.max h p)
        end
    end in
  fold_left step [(al, bl); (al, bh); (ah, bl); (ah, bh)]
    (Some (2 ^ 63 - 1, - 2 ^ 63)).

Definition iv_mul (a b : Iv) : Iv :=
  match a, b with
  | Some (al, ah, an), Some (bl, bh, bn) =>
      let nz := ((al <=? 0) && (0 <=? ah) && (bl <? 0))
                || ((bl <=? 0) && (0 <=? bh) && (al <? 0))
                || (an && (0 <? bh))
                || (bn && (0 <? ah)) in
      match mul_corners al ah bl bh with
      | None => None
      | Some (l, h) => iv_ok l h nz
      end
  | _, _ => None
  end.

Definition iv_mod (a b : Iv) : Iv :=
  match a, b with
  | Some (al, ah, an), Some (bl, bh, _) =>
      if (al <? 0) || an || ((bl <=? 0) && (0 <=? bh)) then None
      else iv_ok 0 (Z.min (i64_sub (Z.max (Z.abs bl) (Z.abs bh)) 1) ah) false
  | _, _ => None
  end.

Definition iv_neg (a : Iv) : Iv :=
  match a with
  | Some (al, ah, _) =>
      let nz := (al <=? 0) && (0 <=? ah) in
      iv_ok (i64_neg ah) (i64_neg al) nz
  | None => None
  end.

(** [a.unwrap().1], where the caller has tested [iv_nonneg_i32 a]. *)
Definition iv_hi (a : Iv) : Z :=
  match a with Some (_, h, _) => h | None => 0 end.

Definition iv_bitand (a b : Iv) : Iv :=
  match iv_nonneg_i32 a, iv_nonneg_i32 b with
  | true, true => Some (0, Z.min (iv_hi a) (iv_hi b), false)
  | true, false => Some (0, iv_hi a, false)
  | false, true => Some (0, iv_hi b, false)
  | false, false => IV_I32
  end.

Definition iv_bitorxor (a b : Iv) : Iv :=
  if iv_nonneg_i32 a && iv_nonneg_i32 b then
    let m := Z.max (iv_hi a) (iv_hi b) in
    Some (0, Z.min (next_power_of_two (m + 1) - 1) I32_HI, false)
  else IV_I32.

Definition iv_lsh (a b : Iv) : Iv :=
  match iv_const b with
  | Some k =>
      if (0 <=? k) && (k <=? 31) then
        match a with
        | Some (al, ah, _) =>
            if (I32_LO <=? al) && (ah <=? I32_HI) then
              let l := i64_shl al k in
              let h := i64_shl ah k in
              if (I32_LO <=? l) && (h <=? I32_HI) then Some (l, h, false) else IV_I32
            else IV_I32
        | None => IV_I32
        end
      else IV_I32
  | None => IV_I32
  end.

Definition iv_rsh (a b : Iv) : Iv :=
  match iv_const b with
  | Some k =>
      if (0 <=? k) && (k <=? 31) then
        match a with
        | Some (al, ah, _) =>
            if (I32_LO <=? al) && (ah <=? I32_HI)
            then Some (i64_shr al k, i64_shr ah k, false)
            else Some (i64_shr I32_LO k, i64_shr I32_HI k, false)
        | None => Some (i64_shr I32_LO k, i64_shr I32_HI k, false)
        end
      else IV_I32
  | None => IV_I32
  end.

Definition iv_ursh (a b : Iv) : Iv :=
  match iv_const b with
  | Some k =>
      if (0 <=? k) && (k <=? 31) then
        if iv_nonneg_i32 a then
          match a with
          | Some (al, ah, _) => Some (i64_shr al k, i64_shr ah k, false)
          | None => None
          end
        else Some (0, Z.shiftr U32_MAX k, false)
      else Some (0, U32_MAX, false)
  | None => Some (0, U32_MAX, false)
  end.

Definition iv_bitnot (a : Iv) : Iv :=
  match a with
  | Some (al, ah, _) =>
      if (I32_LO <=? al) && (ah <=? I32_HI)
      then Some (i64_sub (i64_neg ah) 1, i64_sub (i64_neg al) 1, false)
      else IV_I32
  | None => IV_I32
  end.

Definition iv_join_recorded (new stored : ValueRange) : option ValueRange :=
  let u := hull new stored in
  let l := if lo stored <=? lo u then Some (lo u) else widen_lo (lo u) in
  let h := if hi u <=? hi stored then Some (hi u) else widen_hi (hi u) in
  match l, h with
  | Some a, Some b => Some (mkVR a b)
  | _, _ => None
  end.

Definition iv_join_tolerant (new stored : option ValueRange) (grow : Z)
    : option ValueRange * Z :=
  match new, stored with
  | Some n, Some st =>
      let u := hull n st in
      if vr_eqb u st then (Some st, grow)
      else if IV_WIDEN_JOINS <=? grow then (iv_join_recorded n st, grow)
      else (Some u, grow + 1)
  | _, _ => (None, 0)
  end.

(** ** The test oracle

    [tests::likely_oracle]: the independently written statement of the
    likely-level transfer that the unit test compares [result] with. *)

Record OracleTs := mkOracleTs {
  ot_prims : Prims; ot_unknown : bool; ot_objworld : bool; ot_range : Range }.

Definition oracle_to_number_bits (ts : OracleTs) : Prims :=
  let m := EMPTY in
  let m := if intersects (ot_prims ts) (p_or (p_or PRIM_INT32 PRIM_BOOLEAN) PRIM_NULL)
           then p_or m PRIM_INT32 else m in
  let m := if intersects (ot_prims ts) (p_or PRIM_DOUBLE PRIM_UNDEFINED)
           then p_or m PRIM_DOUBLE else m in
  if ot_unknown ts || intersects (ot_prims ts) PRIM_STRING || ot_objworld ts
  then p_or m NUM else m.

Definition oracle_add_number_bits (ts : OracleTs) : Prims :=
  let m := EMPTY in
  let m := if intersects (ot_prims ts) (p_or (p_or PRIM_INT32 PRIM_BOOLEAN) PRIM_NULL)
           then p_or m PRIM_INT32 else m in
  let m := if intersects (ot_prims ts) (p_or PRIM_DOUBLE PRIM_UNDEFINED)
           then p_or m PRIM_DOUBLE else m in
  if ot_unknown ts || ot_objworld ts then p_or m NUM else m.

Definition oracle_combine_num (na nb : Prims) : Prims :=
  if p_is_empty na || p_is_empty nb then EMPTY
  else if p_eqb na PRIM_INT32 && p_eqb nb PRIM_INT32 then PRIM_INT32
  else if p_eqb na PRIM_DOUBLE && p_eqb nb PRIM_DOUBLE then PRIM_DOUBLE
  else NUM.

Definition oracle_coerced_range (ts : OracleTs) : Range :=
  if ot_unknown ts || intersects (ot_prims ts) (p_or PRIM_UNDEFINED PRIM_STRING)
     || ot_objworld ts
  then R_Top else ot_range ts.

Definition oracle_int_range (a : OracleTs) (b : option OracleTs) : Range :=
  let r := range_max (match b with Some b => oracle_coerced_range b | None => R_I32 end)
             (oracle_coerced_range a) in
  if range_le r R_I53 then R_I53 else R_Top.

(** [None]: [b.unwrap()] of an absent operand, or the [unreachable!] arm. *)
Definition oracle_arith_transfer (op : NumOp) (a : OracleTs) (b : option OracleTs)
    : option (Prims * Range) :=
  match op with
  | Add =>
      match b with
      | None => None
      | Some b =>
          let res := if intersects (p_or (ot_prims a) (ot_prims b)) PRIM_STRING
                     then p_or EMPTY PRIM_STRING else EMPTY in
          Some (p_or res (oracle_combine_num (oracle_add_number_bits a) (oracle_add_number_bits b)),
                oracle_int_range a (Some b))
      end
  | Sub | Mul =>
      match b with
      | None => None
      | Some b => Some (oracle_combine_num (oracle_to_number_bits a) (oracle_to_number_bits b),
                        oracle_int_range a (Some b))
      end
  | Ursh =>
      match b with
      | None => None
      | Some b => Some (oracle_combine_num (oracle_to_number_bits a) (oracle_to_number_bits b), R_I53)
      end
  | Mod =>
      match b with
      | None => None
      | Some b =>
          let na := oracle_to_number_bits a in
          let nb := oracle_to_number_bits b in
          let m := if p_is_empty na || p_is_empty nb then EMPTY
                   else if p_eqb na PRIM_DOUBLE && p_eqb nb PRIM_DOUBLE
                   then PRIM_DOUBLE else NUM in
          let r := if range_le (oracle_coerced_range a) R_I53
                      && range_le (oracle_coerced_range b) R_I53
                   then R_I53 else R_Top in
          Some (m, r)
      end
  | Div | Pow =>
      match b with
      | None => None
      | Some b =>
          let na := oracle_to_number_bits a in
          let nb := oracle_to_number_bits b in
          let m := if p_is_empty na || p_is_empty nb then EMPTY
                   else if p_eqb na PRIM_DOUBLE && p_eqb nb PRIM_DOUBLE
                   then PRIM_DOUBLE else NUM in
          Some (m, R_Top)
      end
  | Inc | Dec | Neg =>
      Some (oracle_combine_num (oracle_to_number_bits a) PRIM_INT32, oracle_int_range a None)
  | Pos | ToNumeric => Some (oracle_to_number_bits a, oracle_coerced_range a)
  | _ => None
  end.

(** [likely_opnd]: the projection the test feeds to [result]. *)
Definition likely_opnd (ts : OracleTs) : Opnd :=
  mkOpnd (ot_prims ts) (ot_unknown ts || ot_objworld ts) (ot_range ts).

(** ** The set algebra *)

(** Membership of the class with bit [i]. *)
Definition has (p : Prims) (i : Z) : bool := Z.testbit (bits p) i.

(** A set over the eight-class alphabet. *)
Definition p_wf (p : Prims) : Prop := in_u 8 (bits p).

Lemma has_or (a b : Prims) (i : Z) : has (p_or a b) i = has a i || has b i.
Proof. apply Z.lor_spec. Qed.

Lemma has_and (a b : Prims) (i : Z) : has (p_and a b) i = has a i && has b i.
Proof. apply Z.land_spec. Qed.

Lemma has_sub (a b : Prims) (i : Z) :
  0 <= i < 16 -> has (p_sub a b) i = has a i && negb (has b i).
Proof.
  intros Hi. unfold has, p_sub; cbn [bits].
  rewrite Z.land_spec, testbit_not_u by lia. reflexivity.
Qed.

Lemma has_above (p : Prims) (i : Z) : p_wf p -> 8 <= i -> has p i = false.
Proof. intros H Hi. apply (testbit_above 8); [exact H|lia]. Qed.

Lemma has_neg (p : Prims) (i : Z) : i < 0 -> has p i = false.
Proof. intros H. apply Z.testbit_neg_r. exact H. Qed.

Lemma prims_ext (a b : Prims) : (forall i, 0 <= i -> has a i = has b i) -> a = b.
Proof.
  intros H. destruct a as [x], b as [y]. f_equal.
  apply Z.bits_inj'. exact H.
Qed.

Lemma subset_of_spec (a b : Prims) :
  p_wf a -> (subset_of a b = true <-> forall i, has a i = true -> has b i = true).
Proof.
  intros Ha. unfold subset_of. rewrite Z.eqb_eq. split.
  - intros H i Hi. destruct (decide (0 <= i < 8)) as [Hr|Hr].
    + assert (Z.testbit (Z.land (bits a) (not_u 16 (bits b))) i = false) as E
        by (rewrite H; apply Z.bits_0).
      rewrite Z.land_spec, testbit_not_u in E by lia.
      unfold has in *. rewrite Hi in E. simpl in E. destruct (Z.testbit (bits b) i); done.
    + destruct (decide (i < 0)).
      * rewrite has_neg in Hi by lia. discriminate.
      * rewrite has_above in Hi by (auto; lia). discriminate.
  - intros H. apply Z.bits_inj'. intros i Hi. rewrite Z.bits_0, Z.land_spec.
    destruct (Z.testbit (bits a) i) eqn:E; [|done].
    destruct (decide (i < 8)).
    + rewrite testbit_not_u by lia. unfold has in H. rewrite (H i E). done.
    + pose proof (has_above a i Ha) as Hab. unfold has in Hab. rewrite Hab in E by lia. done.
Qed.

Lemma subset_of_refl (a : Prims) : p_wf a -> subset_of a a = true.
Proof. intros H. apply subset_of_spec; auto. Qed.

Lemma subset_of_trans (a b c : Prims) :
  p_wf a -> p_wf b -> subset_of a b = true -> subset_of b c = true -> subset_of a c = true.
Proof.
  intros Ha Hb H1 H2. rewrite subset_of_spec in H1, H2 by done.
  apply subset_of_spec; auto.
Qed.

Lemma intersects_spec (a b : Prims) :
  intersects a b = true <-> exists i, has a i = true /\ has b i = true.
Proof.
  unfold intersects. rewrite negb_true_iff, Z.eqb_neq. split.
  - intros H. destruct (Z.eq_dec (Z.land (bits a) (bits b)) 0) as [|Hn]; [done|].
    destruct (Z_lt_le_dec (Z.land (bits a) (bits b)) 0) as [Hneg|Hpos].
    + apply Z.land_neg in Hneg as [H1 H2].
      pose proof (Z.bits_iff_neg_ex (bits a)) as [Ea _].
      pose proof (Z.bits_iff_neg_ex (bits b)) as [Eb _].
      destruct (Ea H1) as [ka Ka], (Eb H2) as [kb Kb].
      exists (Z.max ka kb + 1). split; [apply Ka|apply Kb]; lia.
    + exists (Z.log2 (Z.land (bits a) (bits b))).
      pose proof (Z.bit_log2 (Z.land (bits a) (bits b)) ltac:(lia)) as E.
      rewrite Z.land_spec in E. apply andb_true_iff in E. exact E.
  - intros (i & H1 & H2) E.
    assert (Z.testbit (Z.land (bits a) (bits b)) i = false) as F
      by (rewrite E; apply Z.bits_0).
    rewrite Z.land_spec in F. unfold has in *. rewrite H1, H2 in F. done.
Qed.

Lemma intersects_or_l (a b c : Prims) :
  intersects (p_or a b) c = intersects a c || intersects b c.
Proof.
  apply eq_iff_eq_true. rewrite orb_true_iff, !intersects_spec.
  setoid_rewrite has_or. setoid_rewrite orb_true_iff. firstorder.
Qed.

Lemma intersects_mono (a a' c : Prims) :
  p_wf a -> subset_of a a' = true -> intersects a c = true -> intersects a' c = true.
Proof.
  intros Ha Hs. rewrite subset_of_spec in Hs by done.
  rewrite !intersects_spec. naive_solver.
Qed.

Lemma p_or_wf (a b : Prims) : p_wf a -> p_wf b -> p_wf (p_or a b).
Proof.
  unfold p_wf, in_u, p_or; cbn [bits]. intros [Ha1 Ha2] [Hb1 Hb2].
  split; [apply Z.lor_nonneg; lia|].
  destruct (decide (Z.lor (bits a) (bits b) = 0)) as [->|Hn]; [lia|].
  apply Z.log2_lt_pow2; [pose proof (Z.lor_nonneg (bits a) (bits b)); lia|].
  rewrite Z.log2_lor by lia.
  apply Z.max_lub_lt.
  - destruct (decide (bits a = 0)) as [->|]; [simpl; lia|]. apply Z.log2_lt_pow2; lia.
  - destruct (decide (bits b = 0)) as [->|]; [simpl; lia|]. apply Z.log2_lt_pow2; lia.
Qed.

Lemma p_or_comm (a b : Prims) : p_or a b = p_or b a.
Proof. unfold p_or. f_equal. apply Z.lor_comm. Qed.
Lemma p_or_assoc (a b c : Prims) : p_or a (p_or b c) = p_or (p_or a b) c.
Proof. unfold p_or. cbn [bits]. f_equal. apply Z.lor_assoc. Qed.
Lemma p_or_idemp (a : Prims) : p_or a a = a.
Proof. destruct a. unfold p_or. cbn [bits]. f_equal. apply Z.lor_diag. Qed.
Lemma p_or_EMPTY (a : Prims) : p_or a EMPTY = a.
Proof. destruct a. unfold p_or. cbn [bits]. f_equal. apply Z.lor_0_r. Qed.

Lemma subset_of_or_eq (a b : Prims) :
  p_wf a -> (subset_of a b = true <-> p_or b a = b).
Proof.
  intros Ha. rewrite subset_of_spec by done. split.
  - intros H. apply prims_ext. intros i Hi. rewrite has_or.
    specialize (H i). destruct (has a i), (has b i); naive_solver.
  - intros H i Hi. rewrite <- H, has_or, Hi. apply orb_true_r.
Qed.

Lemma subset_of_or_r (a b : Prims) : p_wf a -> subset_of a (p_or a b) = true.
Proof. intros Ha. apply subset_of_spec; [done|]. intros i Hi. rewrite has_or, Hi. done. Qed.

(** ** The result algebra *)

(** The numeric coercion masks only take the four values of the ladder. *)
Inductive num_mask : Prims -> Prop :=
  | nm_empty : num_mask EMPTY
  | nm_int : num_mask PRIM_INT32
  | nm_dbl : num_mask PRIM_DOUBLE
  | nm_num : num_mask NUM.

#[export] Hint Constructors num_mask : night.

Lemma to_number_bits_mask (o : Opnd) : num_mask (to_number_bits o).
Proof. unfold to_number_bits. repeat case_test; cbv; constructor. Qed.

Lemma add_number_bits_mask (o : Opnd) : num_mask (add_number_bits o).
Proof. unfold add_number_bits. repeat case_test; cbv; constructor. Qed.

Lemma num_part_mask (a b : Prims) : num_mask (num_part a b).
Proof. unfold num_part. repeat case_test; constructor. Qed.

Lemma num_part_noint_mask (a b : Prims) : num_mask (num_part_noint a b).
Proof. unfold num_part_noint. repeat case_test; constructor. Qed.

#[export] Hint Resolve to_number_bits_mask add_number_bits_mask num_part_mask
  num_part_noint_mask : night.

Lemma num_mask_wf (p : Prims) : num_mask p -> p_wf p.
Proof. intros []; unfold p_wf, in_u; cbv; split; congruence. Qed.
#[export] Hint Resolve num_mask_wf : night.

Lemma oracle_to_number_bits_eq (ts : OracleTs) :
  oracle_to_number_bits ts = to_number_bits (likely_opnd ts).
Proof.
  unfold oracle_to_number_bits, to_number_bits, likely_opnd; cbn [o_prims o_wild].
  destruct (ot_unknown ts), (intersects (ot_prims ts) PRIM_STRING), (ot_objworld ts);
    reflexivity.
Qed.

Lemma oracle_add_number_bits_eq (ts : OracleTs) :
  oracle_add_number_bits ts = add_number_bits (likely_opnd ts).
Proof. reflexivity. Qed.

Lemma oracle_coerced_range_eq (ts : OracleTs) :
  oracle_coerced_range ts = coerced_range (likely_opnd ts).
Proof.
  unfold oracle_coerced_range, coerced_range, likely_opnd; cbn [o_prims o_wild o_range].
  destruct (ot_unknown ts), (ot_objworld ts),
    (intersects (ot_prims ts) (p_or PRIM_UNDEFINED PRIM_STRING)); reflexivity.
Qed.

Lemma range_max_comm (a b : Range) : range_max a b = range_max b a.
Proof. destruct a, b; reflexivity. Qed.

Lemma oracle_int_range_eq (a : OracleTs) (b : option OracleTs) :
  oracle_int_range a b = int_range (likely_opnd a) (likely_opnd <$> b).
Proof.
  unfold oracle_int_range, int_range. rewrite range_max_comm, oracle_coerced_range_eq.
  destruct b; [rewrite oracle_coerced_range_eq|]; reflexivity.
Qed.

Lemma oracle_combine_num_eq (a b : Prims) : oracle_combine_num a b = num_part a b.
Proof. reflexivity. Qed.

(** A definitely-string operand contributes no number to [+]. *)
Lemma def_string_facts (o : Opnd) :
  def_string o = true ->
  add_number_bits o = EMPTY /\ may_string o = true /\ coerced_range o = R_Top.
Proof.
  destruct o as [[b] w r]. unfold def_string; cbn [o_wild o_prims]. intros H.
  apply andb_true_iff in H as [Hw Hp]. apply negb_true_iff in Hw.
  unfold p_eqb in Hp. cbn [bits] in Hp. apply Z.eqb_eq in Hp. subst b w.
  repeat split; reflexivity.
Qed.

Lemma num_part_empty_l (b : Prims) : num_part EMPTY b = EMPTY.
Proof. reflexivity. Qed.

Lemma num_part_empty_r (a : Prims) : num_part a EMPTY = EMPTY.
Proof. unfold num_part. rewrite orb_true_r. reflexivity. Qed.

Lemma int_range_top_l (a : Opnd) (b : option Opnd) :
  coerced_range a = R_Top -> int_range a b = R_Top.
Proof. unfold int_range. intros ->. destruct b as [b|]; [destruct (coerced_range b)|]; reflexivity. Qed.

Lemma int_range_top_r (a b : Opnd) :
  coerced_range b = R_Top -> int_range a (Some b) = R_Top.
Proof. unfold int_range. intros ->. destruct (coerced_range a); reflexivity. Qed.

(** The early return of [Add] is the value its general arm would compute. *)
Lemma result_add_eq (a b : Opnd) :
  result Add a (Some b) =
  Some (p_or (num_part (add_number_bits a) (add_number_bits b))
          (if may_string a || may_string b then PRIM_STRING else EMPTY),
        int_range a (Some b)).
Proof.
  unfold result.
  destruct (def_string a) eqn:Ha; [|destruct (def_string b) eqn:Hb]; simpl orb; cbv iota.
  - apply def_string_facts in Ha as (E1 & E2 & E3).
    rewrite E1, E2, num_part_empty_l, int_range_top_l by done. reflexivity.
  - apply def_string_facts in Hb as (E1 & E2 & E3).
    rewrite E1, E2, orb_true_r, num_part_empty_r, int_range_top_r by done. reflexivity.
  - destruct (may_string a || may_string b); [reflexivity|].
    rewrite p_or_EMPTY. reflexivity.
Qed.

(** The operators the unit test of [opsem.rs] compares with the oracle. *)
Definition oracle_routed (op : NumOp) : bool :=
  match op with BitAnd | BitOr | BitXor | Lsh | Rsh | BitNot => false | _ => true end.

Lemma result_oracle_eq (op : NumOp) (a : OracleTs) (b : option OracleTs) :
  oracle_routed op = true ->
  result op (likely_opnd a) (likely_opnd <$> b) = oracle_arith_transfer op a b.
Proof.
  intros Hop. destruct op; try discriminate Hop; destruct b as [b|];
    unfold oracle_arith_transfer; cbn [fmap option_fmap option_map];
    rewrite ?result_add_eq; unfold result;
    rewrite ?oracle_to_number_bits_eq, ?oracle_add_number_bits_eq,
      ?oracle_combine_num_eq, ?oracle_int_range_eq, ?oracle_coerced_range_eq;
    try reflexivity.
  rewrite p_or_comm, intersects_or_l. unfold may_string, likely_opnd; cbn [o_prims].
  destruct (_ || _); reflexivity.
Qed.

(** The order in which operands grow during the fixpoint. *)
Record opnd_le (a b : Opnd) : Prop := {
  ole_prims : subset_of (o_prims a) (o_prims b) = true;
  ole_wild : implb (o_wild a) (o_wild b) = true;
  ole_range : range_le (o_range a) (o_range b) = true }.

Definition opt_opnd_le (a b : option Opnd) : Prop :=
  match a, b with
  | Some x, Some y => p_wf (o_prims x) /\ opnd_le x y
  | None, None => True
  | _, _ => False
  end.

(** Both components of a result are monotone. *)
Definition res_le (x y : option (Prims * Range)) : Prop :=
  match x, y with
  | Some (m, r), Some (m', r') => subset_of m m' = true /\ range_le r r' = true
  | None, None => True
  | _, _ => False
  end.

Lemma intersects_le (a b : Opnd) (c : Prims) :
  p_wf (o_prims a) -> opnd_le a b ->
  implb (intersects (o_prims a) c) (intersects (o_prims b) c) = true.
Proof.
  intros Ha [H _ _]. destruct (intersects (o_prims a) c) eqn:E; [|done].
  simpl. eapply intersects_mono; eauto.
Qed.

(** Case on every boolean test of the two operands, related by [implb]. *)
Ltac opnd_cases Ha Hle :=
  repeat match goal with
  | |- context [intersects (o_prims ?a) ?c] =>
      lazymatch type of Hle with
      | opnd_le a ?b =>
          generalize (intersects_le a b c Ha Hle);
          destruct (intersects (o_prims a) c), (intersects (o_prims b) c);
          try (intros ?; discriminate); intros _
      end
  end.

Lemma to_number_bits_mono (a b : Opnd) :
  p_wf (o_prims a) -> opnd_le a b ->
  subset_of (to_number_bits a) (to_number_bits b) = true.
Proof.
  intros Ha H. pose proof (ole_wild _ _ H) as Hw. unfold to_number_bits.
  opnd_cases Ha H.
  all: destruct (o_wild a), (o_wild b); try discriminate; reflexivity.
Qed.

Lemma add_number_bits_mono (a b : Opnd) :
  p_wf (o_prims a) -> opnd_le a b ->
  subset_of (add_number_bits a) (add_number_bits b) = true.
Proof.
  intros Ha H. pose proof (ole_wild _ _ H) as Hw. unfold add_number_bits.
  opnd_cases Ha H.
  all: destruct (o_wild a), (o_wild b); try discriminate; reflexivity.
Qed.

Lemma coerced_range_mono (a b : Opnd) :
  p_wf (o_prims a) -> opnd_le a b ->
  range_le (coerced_range a) (coerced_range b) = true.
Proof.
  intros Ha H. pose proof (ole_wild _ _ H) as Hw. pose proof (ole_range _ _ H) as Hr.
  unfold coerced_range. opnd_cases Ha H.
  all: destruct (o_wild a), (o_wild b); try discriminate; simpl;
    destruct (o_range a), (o_range b); try discriminate; reflexivity.
Qed.

Lemma num_part_mono (a a' b b' : Prims) :
  num_mask a -> num_mask a' -> num_mask b -> num_mask b' ->
  subset_of a a' = true -> subset_of b b' = true ->
  subset_of (num_part a b) (num_part a' b') = true.
Proof. intros [] [] [] []; cbv; congruence. Qed.

Lemma num_part_noint_mono (a a' b b' : Prims) :
  num_mask a -> num_mask a' -> num_mask b -> num_mask b' ->
  subset_of a a' = true -> subset_of b b' = true ->
  subset_of (num_part_noint a b) (num_part_noint a' b') = true.
Proof. intros [] [] [] []; cbv; congruence. Qed.

Lemma int_range_mono (a a' : Opnd) (b b' : option Opnd) :
  p_wf (o_prims a) -> opnd_le a a' -> opt_opnd_le b b' ->
  range_le (int_range a b) (int_range a' b') = true.
Proof.
  intros Ha H Hb. pose proof (coerced_range_mono _ _ Ha H) as H1. unfold int_range.
  destruct b as [b|], b' as [b'|]; try (exfalso; exact Hb).
  - destruct Hb as [Wb Hb]. pose proof (coerced_range_mono _ _ Wb Hb) as H2. revert H1 H2.
    destruct (coerced_range a), (coerced_range a'), (coerced_range b), (coerced_range b');
      cbv; congruence.
  - revert H1. destruct (coerced_range a), (coerced_range a'); cbv; congruence.
Qed.

#[export] Hint Resolve to_number_bits_mono add_number_bits_mono coerced_range_mono
  num_part_mono num_part_noint_mono int_range_mono subset_of_refl : night.

Lemma mod_range_mono (a a' b b' : Range) :
  range_le a a' = true -> range_le b b' = true ->
  range_le (if range_le a R_I53 && range_le b R_I53 then R_I53 else R_Top)
    (if range_le a' R_I53 && range_le b' R_I53 then R_I53 else R_Top) = true.
Proof. destruct a, a', b, b'; cbv; congruence. Qed.

Lemma add_mask_mono (m m' : Prims) (s s' : bool) :
  num_mask m -> num_mask m' -> subset_of m m' = true -> implb s s' = true ->
  subset_of (p_or m (if s then PRIM_STRING else EMPTY))
    (p_or m' (if s' then PRIM_STRING else EMPTY)) = true.
Proof. intros [] []; destruct s, s'; cbv; congruence. Qed.

Lemma may_string_mono (a a' b b' : Opnd) :
  p_wf (o_prims a) -> opnd_le a a' -> p_wf (o_prims b) -> opnd_le b b' ->
  implb (may_string a || may_string b) (may_string a' || may_string b') = true.
Proof.
  intros Ha H Hb H'. pose proof (intersects_le a a' PRIM_STRING Ha H) as E1.
  pose proof (intersects_le b b' PRIM_STRING Hb H') as E2. unfold may_string. revert E1 E2.
  destruct (intersects (o_prims a) PRIM_STRING), (intersects (o_prims a') PRIM_STRING),
    (intersects (o_prims b) PRIM_STRING), (intersects (o_prims b') PRIM_STRING); done.
Qed.

#[export] Hint Resolve mod_range_mono add_mask_mono may_string_mono : night.

Lemma result_mono_lemma (op : NumOp) (a a' : Opnd) (b b' : option Opnd) :
  p_wf (o_prims a) -> opnd_le a a' -> opt_opnd_le b b' ->
  res_le (result op a b) (result op a' b').
Proof.
  intros Ha H Hb.
  assert (subset_of PRIM_INT32 PRIM_INT32 = true) as Hi by reflexivity.
  assert (opt_opnd_le None None) as Hnone by exact I.
  destruct b as [b|], b' as [b'|]; try (exfalso; exact Hb).
  - pose proof Hb as [Wb Hb']. destruct op;
      rewrite ?result_add_eq; cbn [result res_le]; (split; [|]); auto 8 with night.
  - destruct op; cbn [result res_le]; try exact I; (split; [|]); auto 8 with night.
Qed.

(** ** The ladders of the interval algebra *)

(** A recorded interval: ordered bounds inside the exact-double domain. *)
Definition vr_wf (r : ValueRange) : Prop := lo r <= hi r.

Definition vr_incl (a b : ValueRange) : Prop := lo b <= lo a /\ hi a <= hi b.

Lemma hull_incl_l (a b : ValueRange) : vr_incl a (hull a b).
Proof. unfold vr_incl, hull; simpl; lia. Qed.
Lemma hull_incl_r (a b : ValueRange) : vr_incl b (hull a b).
Proof. unfold vr_incl, hull; simpl; lia. Qed.
Lemma hull_lub (a b c : ValueRange) : vr_incl a c -> vr_incl b c -> vr_incl (hull a b) c.
Proof. unfold vr_incl, hull; simpl; lia. Qed.
Lemma hull_comm (a b : ValueRange) : hull a b = hull b a.
Proof. unfold hull. rewrite Z.min_comm, Z.max_comm. reflexivity. Qed.
Lemma hull_assoc (a b c : ValueRange) : hull a (hull b c) = hull (hull a b) c.
Proof. unfold hull; cbn [lo hi]. rewrite Z.min_assoc, Z.max_assoc. reflexivity. Qed.
Lemma hull_idemp (a : ValueRange) : hull a a = a.
Proof. destruct a. unfold hull; cbn [lo hi]. rewrite Z.min_id, Z.max_id. reflexivity. Qed.

#[export] Hint Resolve hull_incl_l hull_incl_r : night.

Lemma vr_eqb_eq (a b : ValueRange) : vr_eqb a b = true <-> a = b.
Proof.
  destruct a as [x1 y1], b as [x2 y2]. unfold vr_eqb; cbn [lo hi]. rewrite andb_true_iff, !Z.eqb_eq.
  split; [intros [-> ->]; reflexivity|intros [= -> ->]; auto].
Qed.

Ltac ladder := repeat case_test; simplify_eq; zify_bool; unfold I32_LO, I32_HI in *; try lia.

Lemma widen_lo_le (l w : Z) : widen_lo l = Some w -> w <= l.
Proof. unfold widen_lo. intros H. revert H. ladder; intros [= <-]; lia. Qed.
Lemma widen_hi_ge (h w : Z) : widen_hi h = Some w -> h <= w.
Proof. unfold widen_hi. intros H. revert H. ladder; intros [= <-]; lia. Qed.

(** The position of a bound on its widening ladder: how many rungs are left
    below (above) it. *)
Definition rung_lo (l : Z) : nat :=
  if 0 <=? l then (if l =? 0 then 3 else 4)
  else if I32_LO <=? l then (if l =? I32_LO then 2 else 3)
  else if - 2 ^ 36 <=? l then (if l =? - 2 ^ 36 then 1 else 2)
  else if - 2 ^ 48 <=? l then (if l =? - 2 ^ 48 then 0 else 1)
  else 0.

Definition rung_hi (h : Z) : nat :=
  if h <=? 0 then (if h =? 0 then 3 else 4)
  else if h <=? I32_HI then (if h =? I32_HI then 2 else 3)
  else if h <=? 2 ^ 36 then (if h =? 2 ^ 36 then 1 else 2)
  else if h <=? 2 ^ 48 then (if h =? 2 ^ 48 then 0 else 1)
  else 0.

Lemma rung_lo_max (l : Z) : (rung_lo l <= 4)%nat.
Proof. unfold rung_lo. repeat case_test; lia. Qed.
Lemma rung_hi_max (h : Z) : (rung_hi h <= 4)%nat.
Proof. unfold rung_hi. repeat case_test; lia. Qed.

Lemma widen_lo_rung (l l' w : Z) :
  l' < l -> widen_lo l' = Some w -> (rung_lo w < rung_lo l)%nat.
Proof.
  intros Hl. unfold widen_lo, rung_lo, I32_LO. repeat case_test; intros [= <-]; zify_bool; lia.
Qed.
Lemma widen_hi_rung (h h' w : Z) :
  h < h' -> widen_hi h' = Some w -> (rung_hi w < rung_hi h)%nat.
Proof.
  intros Hl. unfold widen_hi, rung_hi, I32_HI. repeat case_test; intros [= <-]; zify_bool; lia.
Qed.

Definition vr_rungs (r : ValueRange) : nat := (rung_lo (lo r) + rung_hi (hi r))%nat.

(** Once widening, every change of a stored interval climbs a rung. *)
Lemma iv_join_recorded_rungs (n st u : ValueRange) :
  iv_join_recorded n st = Some u -> u = st \/ (vr_rungs u < vr_rungs st)%nat.
Proof.
  unfold iv_join_recorded, vr_rungs, hull. cbn [lo hi]. intros H.
  destruct (Z.leb_spec (lo st) (Z.min (lo n) (lo st))) as [Hl|Hl];
  destruct (Z.leb_spec (Z.max (hi n) (hi st)) (hi st)) as [Hh|Hh].
  - left. injection H as <-. destruct st; cbn [lo hi] in *. f_equal; lia.
  - destruct (widen_hi _) as [w|] eqn:E; [|discriminate]. injection H as <-. right. cbn [lo hi].
    apply widen_hi_rung with (h := hi st) in E; [|lia].
    replace (Z.min (lo n) (lo st)) with (lo st) by lia. lia.
  - destruct (widen_lo _) as [w|] eqn:E; [|discriminate]. injection H as <-. right. cbn [lo hi].
    apply widen_lo_rung with (l := lo st) in E; [|lia].
    replace (Z.max (hi n) (hi st)) with (hi st) by lia. lia.
  - destruct (widen_lo _) as [w|] eqn:E; [|discriminate].
    destruct (widen_hi _) as [w'|] eqn:E'; [|discriminate]. injection H as <-. right. cbn [lo hi].
    apply widen_lo_rung with (l := lo st) in E; [|lia].
    apply widen_hi_rung with (h := hi st) in E'; [|lia]. lia.
Qed.

Lemma iv_join_recorded_incl (n st u : ValueRange) :
  iv_join_recorded n st = Some u -> vr_incl n u /\ vr_incl st u.
Proof.
  unfold iv_join_recorded, hull, vr_incl. cbn [lo hi]. intros H. revert H.
  destruct (_ <=? Z.min _ _); destruct (Z.max _ _ <=? _);
    repeat (match goal with |- context [match ?x with _ => _ end] => destruct x eqn:? end);
    intros [= <-]; cbn [lo hi];
    repeat match goal with
    | H : widen_lo _ = Some _ |- _ => apply widen_lo_le in H
    | H : widen_hi _ = Some _ |- _ => apply widen_hi_ge in H
    | H : Some _ = Some _ |- _ => injection H as <-
    end; lia.
Qed.

(** The sequence of states a stored slot goes through under arrivals [ns]. *)
Definition iv_join_step (s : option ValueRange * Z) (n : option ValueRange)
    : option ValueRange * Z := iv_join_tolerant n (fst s) (snd s).

(** How many arrivals change the stored interval. *)
Fixpoint iv_changes (s : option ValueRange * Z) (ns : list (option ValueRange)) : nat :=
  match ns with
  | [] => 0
  | n :: ns =>
      let s' := iv_join_step s n in
      ((if decide (fst s = fst s') then 0 else 1) + iv_changes s' ns)%nat
  end.

(** What is left of a slot's budget: exact joins, rungs, the loss itself. *)
Definition iv_budget (s : option ValueRange * Z) : nat :=
  match fst s with
  | None => 0
  | Some r => if IV_WIDEN_JOINS <=? snd s then 1 + vr_rungs r
              else 9 + Z.to_nat (IV_WIDEN_JOINS - snd s)
  end.

Lemma vr_rungs_max (r : ValueRange) : (vr_rungs r <= 8)%nat.
Proof. unfold vr_rungs. pose proof (rung_lo_max (lo r)). pose proof (rung_hi_max (hi r)). lia. Qed.

Lemma iv_join_step_budget (s : option ValueRange * Z) (n : option ValueRange) :
  ((if decide (fst s = fst (iv_join_step s n)) then 0 else 1)
    + iv_budget (iv_join_step s n) <= iv_budget s)%nat.
Proof.
  destruct s as [[st|] g], n as [n|]; unfold iv_join_step, iv_budget; cbn -[Nat.add].
  - destruct (vr_eqb _ _) eqn:E.
    { cbn -[Nat.add]. rewrite decide_True by done. lia. }
    destruct (Z.leb_spec IV_WIDEN_JOINS g) as [Hg|Hg]; cbn -[Nat.add].
    + rewrite (proj2 (Z.leb_le IV_WIDEN_JOINS g)) by lia.
      destruct (iv_join_recorded n st) as [u|] eqn:Eu; cbn -[Nat.add]; [|case_decide; lia].
      apply iv_join_recorded_rungs in Eu. case_decide; simplify_eq; destruct Eu; simplify_eq; lia.
    + unfold IV_WIDEN_JOINS in *. pose proof (vr_rungs_max (hull n st)).
      destruct (Z.leb_spec 3 (g + 1)); case_decide; lia.
  - case_decide; destruct (_ <=? _); lia.
  - rewrite decide_True by done. lia.
  - rewrite decide_True by done. lia.
Qed.

Lemma iv_changes_budget (ns : list (option ValueRange)) (s : option ValueRange * Z) :
  (iv_changes s ns <= iv_budget s)%nat.
Proof.
  revert s. induction ns as [|n ns IH]; intros s; [simpl; lia|].
  cbn [iv_changes]. pose proof (IH (iv_join_step s n)).
  pose proof (iv_join_step_budget s n). lia.
Qed.

(** ** The heap ladder *)

Lemma hq_mag_up_ge (m : Z) : m <= hq_mag_up m.
Proof. unfold hq_mag_up. destruct (m <=? 8); [lia|apply next_power_of_two_ge]. Qed.

Lemma hq_mag_up_le_pow (m k : Z) : 0 <= k -> m <= 2 ^ k -> hq_mag_up m <= 2 ^ k.
Proof.
  intros Hk Hm. unfold hq_mag_up. destruct (m <=? 8); [done|].
  by apply next_power_of_two_le_pow.
Qed.

Lemma hq_mag_up_idemp (m : Z) : hq_mag_up (hq_mag_up m) = hq_mag_up m.
Proof.
  unfold hq_mag_up at 2. destruct (Z.leb_spec m 8) as [H|H].
  - unfold hq_mag_up. rewrite (proj2 (Z.leb_le m 8)) by lia. reflexivity.
  - unfold hq_mag_up. rewrite (proj2 (Z.leb_gt m 8)) by lia.
    destruct (Z.leb_spec (next_power_of_two m) 8); [done|]. apply next_power_of_two_idemp.
Qed.

Lemma hq_lo_eq (l : Z) :
  hq_lo l = if 0 <=? l then Some 0
            else if I32_LO <=? l then Some (- hq_mag_up (- l)) else None.
Proof.
  unfold hq_lo. destruct (Z.leb_spec 0 l); [done|].
  destruct (Z.leb_spec I32_LO l); [|done]. f_equal.
  rewrite Z.abs_neq by lia. unfold I32_LO in *.
  pose proof (hq_mag_up_le_pow (- l) 31). lia.
Qed.

Lemma hq_hi_eq (h : Z) :
  hq_hi h = if h <=? 0 then Some 0
            else if h <=? I32_HI then Some (hq_mag_up (h + 1) - 1) else None.
Proof.
  unfold hq_hi. destruct (Z.leb_spec h 0); [done|].
  destruct (Z.leb_spec h I32_HI); [|done]. f_equal. unfold I32_HI in *.
  pose proof (hq_mag_up_le_pow (h + 1) 31). lia.
Qed.

Lemma hq_lo_spec (l a : Z) :
  hq_lo l = Some a -> a <= l /\ I32_LO <= a <= 0 /\ hq_lo a = Some a.
Proof.
  rewrite !hq_lo_eq. destruct (Z.leb_spec 0 l); [intros [= <-]; repeat split; unfold I32_LO; lia|].
  destruct (Z.leb_spec I32_LO l); [|discriminate]. intros [= <-].
  pose proof (hq_mag_up_ge (- l)). unfold I32_LO in *.
  pose proof (hq_mag_up_le_pow (- l) 31 ltac:(lia) ltac:(lia)).
  repeat split; [lia|lia|lia|].
  rewrite (proj2 (Z.leb_gt 0 _)), (proj2 (Z.leb_le _ _)) by lia.
  rewrite Z.opp_involutive, hq_mag_up_idemp. reflexivity.
Qed.

Lemma hq_hi_spec (h b : Z) :
  hq_hi h = Some b -> h <= b /\ 0 <= b <= I32_HI /\ hq_hi b = Some b.
Proof.
  rewrite !hq_hi_eq. destruct (Z.leb_spec h 0); [intros [= <-]; repeat split; unfold I32_HI; lia|].
  destruct (Z.leb_spec h I32_HI); [|discriminate]. intros [= <-].
  pose proof (hq_mag_up_ge (h + 1)). unfold I32_HI in *.
  pose proof (hq_mag_up_le_pow (h + 1) 31 ltac:(lia) ltac:(lia)).
  repeat split; [lia|lia|lia|].
  rewrite (proj2 (Z.leb_gt _ 0)), (proj2 (Z.leb_le _ _)) by lia.
  replace (hq_mag_up (h + 1) - 1 + 1) with (hq_mag_up (h + 1)) by lia.
  rewrite hq_mag_up_idemp. reflexivity.
Qed.

Lemma hq_spec (l h a b : Z) :
  hq l h = Some (a, b) ->
  a <= l /\ h <= b /\ I32_LO <= a <= 0 /\ 0 <= b <= I32_HI /\ hq a b = Some (a, b).
Proof.
  unfold hq. destruct (hq_lo l) as [a'|] eqn:El; [|discriminate].
  destruct (hq_hi h) as [b'|] eqn:Eh; [|discriminate]. intros [= <- <-].
  apply hq_lo_spec in El as (? & ? & ->). apply hq_hi_spec in Eh as (? & ? & ->).
  repeat split; lia || reflexivity.
Qed.

(** The ladder accepts exactly the bounds inside the int32 domain. *)
Lemma hq_None (l h : Z) : hq l h = None <-> l < I32_LO \/ I32_HI < h.
Proof.
  unfold hq. rewrite hq_lo_eq, hq_hi_eq.
  destruct (Z.leb_spec 0 l), (Z.leb_spec h 0), (Z.leb_spec I32_LO l), (Z.leb_spec h I32_HI);
    (split; [intros E; try discriminate E|]); try done; unfold I32_LO, I32_HI in *; lia.
Qed.

