(* ===== verification/Facts.v ===== *)
(** * Facts: the analysis-to-codegen contract of [compiler/src/facts.rs]

    The packed claim word with its accessors, the per-script effect summary,
    and the call-site resolution table with its lookups. *)

From stdpp Require Import strings.
From S2P Require Import Prelude OpSem.

(** ** The claim word *)

(** [Claim(u16)]. *)
Record Claim := mkClaim { claim_bits : Z }.

#[export] Instance Claim_eq_dec : EqDecision Claim.
Proof. solve_decision. Defined.

Definition OBJECT_BIT : Z := Z.shiftl 1 15.
Definition DOUBLE_FIRST_BIT : Z := Z.shiftl 1 14.
Definition TA_SHIFT : Z := 8.
Definition TA_MASK : Z := Z.shiftl 0xF TA_SHIFT.

Definition claim_NONE : Claim := mkClaim 0.
Definition claim_OBJECT : Claim := mkClaim OBJECT_BIT.
Definition of_prims (p : Prims) : Claim := mkClaim (bits p).
Definition claim_from_bits (b : Z) : Claim := mkClaim b.
Definition is_none (c : Claim) : bool := claim_bits c =? 0.
Definition is_object (c : Claim) : bool :=
  Z.land (claim_bits c) (not_u 16 TA_MASK) =? OBJECT_BIT.
Definition ta_kind (c : Claim) : option TaKind :=
  if negb (is_object c) then None
  else ta_from_code (wrap_u 8 (Z.shiftr (Z.land (claim_bits c) TA_MASK) TA_SHIFT)).
Definition object_of_ta (k : TaKind) : Claim :=
  mkClaim (Z.lor OBJECT_BIT (wrap_u 16 (Z.shiftl (ta_code k) TA_SHIFT))).
Definition sans_ta (c : Claim) : Claim :=
  mkClaim (Z.land (claim_bits c) (not_u 16 TA_MASK)).
Definition claim_prims (c : Claim) : Prims := from_bits (claim_bits c).
Definition double_first (c : Claim) : bool :=
  negb (Z.land (claim_bits c) DOUBLE_FIRST_BIT =? 0).
Definition with_double_first (c : Claim) : Claim :=
  mkClaim (Z.lor (claim_bits c) DOUBLE_FIRST_BIT).

(** ** Effect summaries *)

Record EffectSummary := mkEffectSummary {
  top : bool;
  top_why : option string;
  field_writes : list (option (Z * Z) * Z);
  gname_writes : list Z;
  elems_write : bool;
  env_write : bool }.

Definition effect_default : EffectSummary := mkEffectSummary false None [] [] false false.

(** [PartialEq]: the diagnostic reason does not count. *)
Definition effect_eqb (a b : EffectSummary) : bool :=
  Bool.eqb (top a) (top b)
  && bool_decide (field_writes a = field_writes b)
  && bool_decide (gname_writes a = gname_writes b)
  && Bool.eqb (elems_write a) (elems_write b)
  && Bool.eqb (env_write a) (env_write b).

Definition saturate (s : EffectSummary) (why : string) : EffectSummary :=
  if negb (top s)
  then mkEffectSummary true (Some why) (field_writes s) (gname_writes s)
         (elems_write s) (env_write s)
  else s.

Definition is_write_free (s : EffectSummary) : bool :=
  negb (top s)
  && (match field_writes s with [] => true | _ => false end)
  && (match gname_writes s with [] => true | _ => false end)
  && negb (elems_write s) && negb (env_write s).

(** ** Call-site resolution *)

Inductive CallForm := CF_Call | CF_Apply.

#[export] Instance CallForm_eq_dec : EqDecision CallForm.
Proof. solve_decision. Defined.

Inductive CallResolution := CR_Native | CR_Scripted (targets : list Z).

(** A site is a (script, pc) pair. *)
Abbreviation Site := (Z * Z)%type.

Definition scripted_targets (call_sites : gmap Site CallResolution) (site : Site) : list Z :=
  match call_sites !! site with
  | Some (CR_Scripted t) => t
  | _ => []
  end.

Definition is_native_call (call_sites : gmap Site CallResolution) (site : Site) : bool :=
  match call_sites !! site with
  | Some CR_Native => true
  | _ => false
  end.

(** ** The claim word's fields *)

Lemma of_prims_prims (p : Prims) : p_wf p -> claim_prims (of_prims p) = p.
Proof.
  intros [H1 H2]. destruct p as [b]. unfold claim_prims, of_prims, from_bits; cbn [claim_bits bits] in *.
  f_equal. change (bits ALL_PRIMS) with (Z.ones 8). rewrite Z.land_ones by lia. apply Z.mod_small. lia.
Qed.

Lemma of_prims_flags (p : Prims) :
  p_wf p -> is_object (of_prims p) = false /\ double_first (of_prims p) = false.
Proof.
  intros Hp. unfold is_object, double_first, of_prims; cbn [claim_bits]. split.
  - apply Z.eqb_neq. intros E.
    assert (Z.testbit (Z.land (bits p) (not_u 16 TA_MASK)) 15 = true) as F by (rewrite E; reflexivity).
    rewrite Z.land_spec in F. apply andb_true_iff in F as [F _].
    rewrite (testbit_above 8) in F by (auto; lia). done.
  - apply negb_false_iff, Z.eqb_eq. apply Z.bits_inj'. intros i Hi.
    rewrite Z.land_spec, Z.bits_0. destruct (decide (i < 8)).
    + replace (Z.testbit DOUBLE_FIRST_BIT i) with false; [apply andb_false_r|].
      symmetry. change DOUBLE_FIRST_BIT with (2 ^ 14). apply Z.pow2_bits_false. lia.
    + rewrite (testbit_above 8) by (auto; lia). done.
Qed.

Lemma with_double_first_prims (c : Claim) :
  claim_prims (with_double_first c) = claim_prims c
  /\ double_first (with_double_first c) = true.
Proof.
  unfold claim_prims, from_bits, with_double_first, double_first; cbn [claim_bits]. split.
  - f_equal. rewrite Z.land_lor_distr_l. change (Z.land DOUBLE_FIRST_BIT (bits ALL_PRIMS)) with 0.
    apply Z.lor_0_r.
  - apply negb_true_iff, Z.eqb_neq. intros E.
    assert (Z.testbit (Z.land (Z.lor (claim_bits c) DOUBLE_FIRST_BIT) DOUBLE_FIRST_BIT) 14 = false)
      as F by (rewrite E; apply Z.bits_0).
    rewrite Z.land_spec, Z.lor_spec in F.
    change (Z.testbit DOUBLE_FIRST_BIT 14) with true in F.
    rewrite orb_true_r in F. done.
Qed.

(** The typed-array kind survives packing, and stripping it gives the plain
    object claim. *)
Lemma object_of_ta_roundtrip_lemma (k : TaKind) :
  is_object (object_of_ta k) = true /\ ta_kind (object_of_ta k) = Some k
  /\ sans_ta (object_of_ta k) = claim_OBJECT /\ claim_prims (object_of_ta k) = EMPTY
  /\ double_first (object_of_ta k) = false.
Proof. destruct k; vm_compute; auto. Qed.

