(* ===== verification/Float64.v ===== *)
(** * Float64: JavaScript Number arithmetic

    The semantic domain the interval claims of [opsem.rs] are about: binary64
    values and operators as the Standard Library's [SpecFloat] specifies
    them, with the ECMAScript conversions ([ToInt32], [ToUint32]) and the
    remainder on top. The central lemma is that integer arithmetic inside
    [2^53] is exact ([normalize_rep]). *)


From S2P Require Import Prelude.
From Corelib Require Import SpecFloat.


Abbreviation num := spec_float.

(** ** The operators *)

Definition f64_normalize (m e : Z) (s : bool) : num := binary_normalize 53 1024 m e s.
Definition f64_add : num -> num -> num := SFadd 53 1024.
Definition f64_sub : num -> num -> num := SFsub 53 1024.
Definition f64_mul : num -> num -> num := SFmul 53 1024.
Definition f64_div : num -> num -> num := SFdiv 53 1024.
Definition f64_neg : num -> num := SFopp.

(** The double nearest to an integer. *)
Definition of_Z (z : Z) : num := f64_normalize z 0 false.
Definition neg_zero : num := S754_zero true.

(** [f64::from_bits]. *)
Definition f64_of_bits (b : Z) : num :=
  let s := Z.testbit b 63 in
  let e := Z.land (Z.shiftr b 52) 2047 in
  let m := Z.land b (2 ^ 52 - 1) in
  if e =? 2047 then (if m =? 0 then S754_infinity s else S754_nan)
  else if e =? 0 then
    match m with Zpos p => S754_finite s p (-1074) | _ => S754_zero s end
  else match m + 2 ^ 52 with Zpos p => S754_finite s p (e - 1075) | _ => S754_nan end.

(** The signed mantissa. *)
Definition smant (s : bool) (m : positive) : Z := cond_Zopp s (Zpos m).

(** [n % d] (Number::remainder): the sign of a zero result is the dividend's. *)
Definition f64_rem (x y : num) : num :=
  match x, y with
  | S754_nan, _ | _, S754_nan => S754_nan
  | S754_infinity _, _ => S754_nan
  | _, S754_zero _ => S754_nan
  | _, S754_infinity _ => x
  | S754_zero _, _ => x
  | S754_finite sx mx ex, S754_finite sy my ey =>
      let ez := Z.min ex ey in
      let r := Z.rem (cond_Zopp sx (Zpos (fst (shl_align mx ex ez))))
                     (cond_Zopp sy (Zpos (fst (shl_align my ey ez)))) in
      f64_normalize r ez sx
  end.

(** Truncation towards zero; [None] for NaN and the infinities. *)
Definition trunc (x : num) : option Z :=
  match x with
  | S754_zero _ => Some 0
  | S754_finite s m e => Some (cond_Zopp s (Z.shiftl (Zpos m) e))
  | _ => None
  end.

Definition to_int32 (x : num) : Z :=
  match trunc x with Some z => wrap_s 32 z | None => 0 end.
Definition to_uint32 (x : num) : Z :=
  match trunc x with Some z => wrap_u 32 z | None => 0 end.

Definition shift_count (x : num) : Z := to_uint32 x mod 32.

Definition js_bitand (a b : num) : num := of_Z (Z.land (to_int32 a) (to_int32 b)).
Definition js_bitor (a b : num) : num := of_Z (Z.lor (to_int32 a) (to_int32 b)).
Definition js_bitxor (a b : num) : num := of_Z (Z.lxor (to_int32 a) (to_int32 b)).
Definition js_bitnot (a : num) : num := of_Z (Z.lnot (to_int32 a)).
Definition js_lsh (a b : num) : num := of_Z (wrap_s 32 (Z.shiftl (to_int32 a) (shift_count b))).
Definition js_rsh (a b : num) : num := of_Z (Z.shiftr (to_int32 a) (shift_count b)).
Definition js_ursh (a b : num) : num := of_Z (Z.shiftr (to_uint32 a) (shift_count b)).

(** ** Digits and shifts *)

Lemma digits2_pos_log2 (p : positive) : Zpos (digits2_pos p) = Z.log2 (Zpos p) + 1.
Proof.
  induction p as [p IH|p IH|]; [| |reflexivity]; cbn [digits2_pos].
  - rewrite Pos2Z.inj_succ, IH, (Pos2Z.inj_xI p), Z.log2_succ_double by lia. lia.
  - rewrite Pos2Z.inj_succ, IH, (Pos2Z.inj_xO p), Z.log2_double by lia. lia.
Qed.

Lemma iter_xO (m d : positive) : Zpos (Pos.iter xO m d) = Zpos m * 2 ^ Zpos d.
Proof.
  revert m. induction d as [|d IH] using Pos.peano_ind; intros m; [cbn; lia|].
  rewrite Pos.iter_succ, Pos2Z.inj_xO, IH, Pos2Z.inj_succ, Z.pow_succ_r by lia. lia.
Qed.

Lemma iter_pos_iter {A} (f : A -> A) (n : positive) (x : A) :
  iter_pos f n x = Pos.iter f x n.
Proof.
  revert x. induction n as [n IH|n IH|]; intros x; cbn; rewrite ?IH; try reflexivity.
  rewrite <- Pos.iter_swap. f_equal. rewrite Pos.iter_swap. reflexivity.
Qed.

(** Shifting right by as many zeros as the mantissa ends in is exact. *)
Lemma shr_exact (m n : positive) :
  iter_pos shr_1 n (Build_shr_record (Zpos m * 2 ^ Zpos n) false false)
  = Build_shr_record (Zpos m) false false.
Proof.
  rewrite iter_pos_iter. induction n as [|n IH] using Pos.peano_ind.
  - rewrite Z.mul_comm. reflexivity.
  - rewrite Pos.iter_succ_r.
    replace (shr_1 _) with (Build_shr_record (Zpos m * 2 ^ Zpos n) false false); [exact IH|].
    rewrite Pos2Z.inj_succ, Z.pow_succ_r by lia.
    destruct (Zpos m * 2 ^ Zpos n) as [|q|q] eqn:E; [lia| |].
    + replace (Zpos m * (2 * 2 ^ Zpos n)) with (Zpos q~0) by lia. reflexivity.
    + pose proof (Z.pow_pos_nonneg 2 (Zpos n)). lia.
Qed.

Lemma shl_align_spec (m : positive) (e e' : Z) :
  e' <= e -> Zpos (fst (shl_align m e e')) = Zpos m * 2 ^ (e - e') /\ snd (shl_align m e e') = e'.
Proof.
  intros H. unfold shl_align. destruct (e' - e) as [|d|d] eqn:E; cbn [fst snd].
  - replace (e - e') with 0 by lia. split; lia.
  - lia.
  - rewrite iter_xO. split; [do 2 f_equal; lia|reflexivity].
Qed.

(** ** Exact representations *)

(** [m * 2 ^ e] is the integer [z]; exponents are biased to stay in [Z]. *)
Definition K : Z := 2000.
Definition rep (m e z : Z) : Prop := 0 <= e + K /\ m * 2 ^ (e + K) = z * 2 ^ K.

Definition LIM : Z := 2 ^ 53.

Lemma rep_self (z : Z) : rep z 0 z.
Proof. split; [unfold K; lia|reflexivity]. Qed.

Lemma pow_split (a b : Z) : 0 <= a -> 0 <= b -> 2 ^ (a + b) = 2 ^ a * 2 ^ b.
Proof. intros. apply Z.pow_add_r; lia. Qed.

Lemma rep_shl (m e e' z : Z) :
  0 <= e' + K -> e' <= e -> rep m e z -> rep (m * 2 ^ (e - e')) e' z.
Proof.
  intros H1 H2 [H3 H4]. split; [lia|]. rewrite <- H4.
  rewrite <- Z.mul_assoc, <- pow_split by lia. do 2 f_equal. lia.
Qed.

Lemma rep_unique (m m' e z : Z) : rep m e z -> rep m' e z -> m = m'.
Proof.
  intros [H1 H2] [_ H3]. apply (Z.mul_reg_r _ _ (2 ^ (e + K))); [|congruence].
  pose proof (Z.pow_pos_nonneg 2 (e + K)). lia.
Qed.

Lemma rep_value_unique (m e z z' : Z) : rep m e z -> rep m e z' -> z = z'.
Proof.
  intros [_ H2] [_ H3]. apply (Z.mul_reg_r _ _ (2 ^ K)); [|congruence].
  pose proof (Z.pow_pos_nonneg 2 K). unfold K in *. lia.
Qed.

Lemma rep_opp (m e z : Z) : rep m e z -> rep (- m) e (- z).
Proof. intros [H1 H2]. split; [done|]. lia. Qed.

Lemma rep_add (m n e y z : Z) : rep m e y -> rep n e z -> rep (m + n) e (y + z).
Proof. intros [H1 H2] [_ H3]. split; [done|]. lia. Qed.

Lemma rep_mul (m n e f y z : Z) :
  -1000 <= e -> -1000 <= f -> rep m e y -> rep n f z -> rep (m * n) (e + f) (y * z).
Proof.
  intros He Hf [H1 H2] [H3 H4]. unfold rep, K in *. split; [lia|].
  apply (Z.mul_reg_r _ _ (2 ^ 2000)); [apply Z.pow_nonzero; lia|].
  replace (m * n * 2 ^ (e + f + 2000) * 2 ^ 2000)
    with ((m * 2 ^ (e + 2000)) * (n * 2 ^ (f + 2000))).
  - rewrite H2, H4. ring.
  - transitivity (m * n * (2 ^ (e + 2000) * 2 ^ (f + 2000))); [ring|].
    rewrite <- !Z.mul_assoc. do 2 f_equal. rewrite <- !pow_split by lia. f_equal. lia.
Qed.

Lemma rep_zero_iff (m e z : Z) : rep m e z -> m = 0 <-> z = 0.
Proof.
  intros [H1 H2]. pose proof (Z.pow_pos_nonneg 2 (e + K)).
  pose proof (Z.pow_pos_nonneg 2 K). unfold K in *. nia.
Qed.

Lemma rep_pos_iff (m e z : Z) : rep m e z -> 0 < m <-> 0 < z.
Proof.
  intros [H1 H2]. pose proof (Z.pow_pos_nonneg 2 (e + K)).
  pose proof (Z.pow_pos_nonneg 2 K). unfold K in *. nia.
Qed.

Lemma rep_log2 (m : positive) (e z : Z) :
  0 < z -> rep (Zpos m) e z -> Zpos (digits2_pos m) + e = Z.log2 z + 1.
Proof.
  intros Hz [H1 H2]. rewrite digits2_pos_log2.
  assert (Z.log2 (Zpos m * 2 ^ (e + K)) = Z.log2 (z * 2 ^ K)) as E by congruence.
  unfold K in *. rewrite !Z.log2_mul_pow2 in E by lia. lia.
Qed.

(** The canonical mantissa and exponent of a non-zero integer. *)
Definition cexp (z : Z) : Z := Z.log2 z - 52.
Definition cman (z : Z) : Z := Z.shiftl z (- cexp z).

Lemma cexp_range (z : Z) : 0 < z <= LIM -> -52 <= cexp z <= 1.
Proof.
  intros [H1 H2]. unfold cexp, LIM in *. pose proof (Z.log2_nonneg z).
  pose proof (Z.log2_le_mono _ _ H2) as H3. rewrite Z.log2_pow2 in H3 by lia. lia.
Qed.

Lemma cman_rep (z : Z) : 0 < z <= LIM -> rep (cman z) (cexp z) z.
Proof.
  intros H. pose proof (cexp_range z H) as Hc. unfold cman. split; [unfold K; lia|].
  destruct (decide (cexp z <= 0)).
  - rewrite Z.shiftl_mul_pow2, <- Z.mul_assoc, <- pow_split by (unfold K; lia).
    do 2 f_equal. lia.
  - assert (z = LIM) as ->; [|reflexivity].
    unfold cexp in *. assert (Z.log2 z = 53) as E by lia.
    pose proof (Z.log2_spec z). unfold LIM in *. rewrite E in *. lia.
Qed.

Lemma cman_digits (z : Z) :
  0 < z <= LIM -> exists c, cman z = Zpos c /\ Zpos (digits2_pos c) = 53.
Proof.
  intros H. pose proof (cman_rep z H) as Hr.
  assert (0 < cman z) as Hp by (apply (rep_pos_iff _ _ _ Hr); lia).
  destruct (cman z) as [|c|c] eqn:E; [lia| |lia]. exists c. split; [done|].
  pose proof (rep_log2 c (cexp z) z ltac:(lia) Hr). unfold cexp in *. lia.
Qed.

Lemma fexp_normal (d : Z) : -1021 <= d -> fexp 53 1024 d = d - 53.
Proof. unfold fexp, emin. lia. Qed.

(** Rounding an exact representation with at least as fine an exponent. *)
Lemma round_aux_rep (s : bool) (m : positive) (e z : Z) :
  0 < z <= LIM -> rep (Zpos m) e z -> e <= cexp z ->
  binary_round_aux 53 1024 s (Zpos m) e loc_Exact
  = S754_finite s (Z.to_pos (cman z)) (cexp z).
Proof.
  intros Hz Hr He. destruct (cman_digits z Hz) as (c & Ec & Dc).
  pose proof (rep_log2 m e z ltac:(lia) Hr) as Hd. pose proof (cexp_range z Hz) as Hc.
  pose proof (Z.log2_nonneg z) as Hl.
  assert (Zpos m = Zpos c * 2 ^ (cexp z - e)) as Em.
  { eapply rep_unique; [exact Hr|]. rewrite <- Ec.
    apply rep_shl; [apply Hr|done|]. by apply cman_rep. }
  assert (forall l, l = e -> shr_fexp 53 1024 (Zpos m) l loc_Exact
          = (Build_shr_record (Zpos c) false false, cexp z)) as E1.
  { intros l ->. unfold shr_fexp. cbn [Zdigits2 shr_record_of_loc].
    rewrite fexp_normal by lia.
    replace (Zpos (digits2_pos m) + e - 53 - e) with (cexp z - e) by (unfold cexp; lia).
    unfold shr. destruct (cexp z - e) as [|n|n] eqn:En; [| |lia].
    - rewrite Em. f_equal; [|lia]. f_equal. lia.
    - rewrite Em, shr_exact. f_equal. lia. }
  assert (shr_fexp 53 1024 (Zpos c) (cexp z) loc_Exact
          = (Build_shr_record (Zpos c) false false, cexp z)) as E2.
  { unfold shr_fexp. cbn [Zdigits2 shr_record_of_loc]. rewrite fexp_normal by lia.
    replace (Zpos (digits2_pos c) + cexp z - 53 - cexp z) with 0 by lia. reflexivity. }
  unfold binary_round_aux. rewrite (E1 e eq_refl). cbn [shr_m loc_of_shr_record round_nearest_even].
  rewrite E2. cbn [shr_m]. rewrite (proj2 (Z.leb_le _ _)) by lia.
  rewrite Ec. reflexivity.
Qed.

Lemma round_rep (s : bool) (m : positive) (e z : Z) :
  0 < z <= LIM -> rep (Zpos m) e z ->
  binary_round 53 1024 s m e = S754_finite s (Z.to_pos (cman z)) (cexp z).
Proof.
  intros Hz Hr. pose proof (rep_log2 m e z ltac:(lia) Hr) as Hd.
  pose proof (cexp_range z Hz) as Hc. unfold binary_round.
  rewrite fexp_normal by (pose proof (Z.log2_nonneg z); lia).
  replace (Zpos (digits2_pos m) + e - 53) with (cexp z) by (unfold cexp; lia).
  destruct (Z.le_gt_cases (cexp z) e) as [H|H].
  - pose proof (shl_align_spec m e (cexp z) H) as [E1 E2].
    destruct (shl_align m e (cexp z)) as [mz ez]. cbn [fst snd] in *. subst ez.
    apply round_aux_rep; [done| |lia]. rewrite E1.
    apply rep_shl; [unfold K; lia|done|done].
  - unfold shl_align. destruct (cexp z - e) as [|n|n] eqn:E; try lia;
      (apply round_aux_rep; [done|done|lia]).
Qed.

(** Integer results inside the exact domain do not round. *)
Lemma normalize_rep (m e z : Z) (s : bool) :
  Z.abs z <= LIM -> z <> 0 -> rep m e z -> f64_normalize m e s = of_Z z.
Proof.
  intros Hz Hn Hr. unfold of_Z, f64_normalize, binary_normalize.
  pose proof (rep_zero_iff _ _ _ Hr). pose proof (rep_pos_iff _ _ _ Hr).
  destruct m as [|m|m], z as [|z|z]; try lia.
  - rewrite (round_rep _ m e (Zpos z)), (round_rep _ z 0 (Zpos z));
      auto using rep_self; lia.
  - rewrite (round_rep _ m e (Zpos z)), (round_rep _ z 0 (Zpos z));
      auto using rep_self; try lia.
    apply rep_opp in Hr. exact Hr.
Qed.

Lemma of_Z_0 : of_Z 0 = S754_zero false.
Proof. reflexivity. Qed.

Lemma of_Z_finite (z : Z) :
  0 < Z.abs z <= LIM ->
  of_Z z = S754_finite (z <? 0) (Z.to_pos (cman (Z.abs z))) (cexp (Z.abs z)).
Proof.
  intros H. unfold of_Z, f64_normalize, binary_normalize.
  destruct z as [|z|z]; [lia| |];
    rewrite (round_rep _ z 0 (Zpos z)); auto using rep_self; lia.
Qed.

Lemma to_pos_cman (z : Z) : 0 < z <= LIM -> Zpos (Z.to_pos (cman z)) = cman z.
Proof. intros H. destruct (cman_digits z H) as (c & -> & _). reflexivity. Qed.

(** The signed mantissa of [of_Z z] at a common exponent. *)
Lemma of_Z_aligned (z e : Z) :
  0 < Z.abs z <= LIM -> - K <= e <= cexp (Z.abs z) ->
  rep (cond_Zopp (z <? 0) (Zpos (fst (shl_align (Z.to_pos (cman (Z.abs z)))
         (cexp (Z.abs z)) e)))) e z.
Proof.
  intros H He. pose proof (shl_align_spec (Z.to_pos (cman (Z.abs z))) (cexp (Z.abs z)) e) as [E _];
    [lia|]. rewrite E, to_pos_cman by done.
  assert (rep (cman (Z.abs z) * 2 ^ (cexp (Z.abs z) - e)) e (Z.abs z)) as Hr.
  { apply rep_shl; [lia|lia|]. by apply cman_rep. }
  unfold cond_Zopp. destruct (Z.ltb_spec z 0).
  - replace z with (- Z.abs z) at 3 by lia. by apply rep_opp.
  - replace z with (Z.abs z) at 3 by lia. done.
Qed.

(** ** Exactness of the operators on integers *)

Definition small (z : Z) : Prop := Z.abs z <= LIM.

(** An aligned exact sum, difference or remainder normalises to its value. *)
Lemma normalize_any (m e z : Z) :
  small z -> rep m e z -> f64_normalize m e false = of_Z z.
Proof.
  intros Hz Hr. destruct (decide (z = 0)) as [->|Hn].
  - apply (rep_zero_iff _ _ _) in Hr as [_ E]. rewrite (E eq_refl). reflexivity.
  - by apply normalize_rep.
Qed.

Ltac aligned a b Ha Hb :=
  let Ra := fresh "Ra" in let Rb := fresh "Rb" in
  let e := constr:(Z.min (cexp (Z.abs a)) (cexp (Z.abs b))) in
  pose proof (cexp_range (Z.abs a) Ha) as Ra;
  pose proof (cexp_range (Z.abs b) Hb) as Rb;
  pose proof (of_Z_aligned a e Ha ltac:(unfold K; lia));
  pose proof (of_Z_aligned b e Hb ltac:(unfold K; lia)).

Lemma f64_add_exact (a b : Z) :
  small a -> small b -> small (a + b) -> f64_add (of_Z a) (of_Z b) = of_Z (a + b).
Proof.
  unfold small. intros Ha Hb Hs.
  destruct (decide (a = 0)) as [->|Ha0]; [|destruct (decide (b = 0)) as [->|Hb0]].
  - rewrite Z.add_0_l, of_Z_0. destruct (decide (b = 0)) as [->|Hb0]; [reflexivity|].
    rewrite of_Z_finite by lia. reflexivity.
  - rewrite Z.add_0_r, of_Z_0. rewrite of_Z_finite by lia. reflexivity.
  - assert (0 < Z.abs a <= LIM) as Ha' by lia. assert (0 < Z.abs b <= LIM) as Hb' by lia.
    aligned a b Ha' Hb'. rewrite !of_Z_finite by done.
    unfold f64_add, SFadd. apply normalize_any; [done|]. by apply rep_add.
Qed.

Lemma f64_sub_exact (a b : Z) :
  small a -> small b -> small (a - b) -> f64_sub (of_Z a) (of_Z b) = of_Z (a - b).
Proof.
  unfold small. intros Ha Hb Hs.
  destruct (decide (a = 0)) as [->|Ha0]; [|destruct (decide (b = 0)) as [->|Hb0]].
  - rewrite Z.sub_0_l, of_Z_0. destruct (decide (b = 0)) as [->|Hb0]; [reflexivity|].
    rewrite !of_Z_finite by lia. rewrite Z.abs_opp.
    replace (- b <? 0) with (negb (b <? 0)); [reflexivity|].
    destruct (Z.ltb_spec b 0), (Z.ltb_spec (- b) 0); simpl; lia || done.
  - rewrite Z.sub_0_r, of_Z_0. rewrite of_Z_finite by lia. reflexivity.
  - assert (0 < Z.abs a <= LIM) as Ha' by lia. assert (0 < Z.abs b <= LIM) as Hb' by lia.
    aligned a b Ha' Hb'. rewrite !of_Z_finite by done.
    unfold f64_sub, SFsub. apply normalize_any; [done|].
    rewrite <- !Z.add_opp_r. apply rep_add; [done|]. by apply rep_opp.
Qed.

Lemma f64_neg_exact (a : Z) : small a -> a <> 0 -> f64_neg (of_Z a) = of_Z (- a).
Proof.
  unfold small. intros Ha Hn. rewrite !of_Z_finite by lia. rewrite Z.abs_opp.
  unfold f64_neg, SFopp. f_equal.
  destruct (Z.ltb_spec a 0), (Z.ltb_spec (- a) 0); simpl; lia || done.
Qed.

Lemma f64_mul_exact (a b : Z) :
  small a -> small b -> small (a * b) -> a * b <> 0 ->
  f64_mul (of_Z a) (of_Z b) = of_Z (a * b).
Proof.
  unfold small. intros Ha Hb Hs Hn.
  assert (a <> 0 /\ b <> 0) as [Ha0 Hb0] by lia.
  assert (0 < Z.abs a <= LIM) as Ha' by lia. assert (0 < Z.abs b <= LIM) as Hb' by lia.
  assert (0 < Z.abs (a * b) <= LIM) as Hs' by lia.
  pose proof (cexp_range _ Ha') as Ra. pose proof (cexp_range _ Hb') as Rb.
  rewrite !of_Z_finite by done. unfold f64_mul, SFmul.
  rewrite (round_aux_rep _ _ _ (Z.abs (a * b))); [|done| |].
  - f_equal. destruct (Z.ltb_spec a 0), (Z.ltb_spec b 0), (Z.ltb_spec (a * b) 0); simpl; nia || done.
  - rewrite Pos2Z.inj_mul, !to_pos_cman, Z.abs_mul by done.
    apply rep_mul; [lia|lia|by apply cman_rep|by apply cman_rep].
  - unfold cexp in *. rewrite Z.abs_mul.
    pose proof (Z.log2_mul_below (Z.abs a) (Z.abs b)).
    pose proof (Z.log2_mul_above (Z.abs a) (Z.abs b)).
    rewrite Z.abs_mul in Hs'. pose proof (cexp_range _ Hs') as Rs. unfold cexp in Rs. lia.
Qed.

(** A product with a zero factor is a zero with the product of the signs. *)
Lemma f64_mul_zero_l (s : bool) (b : Z) :
  small b -> f64_mul (S754_zero s) (of_Z b) = S754_zero (xorb s (b <? 0)).
Proof.
  intros Hb. destruct (decide (b = 0)) as [->|Hn]; [destruct s; reflexivity|].
  unfold small in *. rewrite of_Z_finite by lia. reflexivity.
Qed.

Lemma f64_mul_zero_r (a : Z) (s : bool) :
  small a -> f64_mul (of_Z a) (S754_zero s) = S754_zero (xorb (a <? 0) s).
Proof.
  intros Ha. destruct (decide (a = 0)) as [->|Hn]; [destruct s; reflexivity|].
  unfold small in *. rewrite of_Z_finite by lia. reflexivity.
Qed.

Lemma rep_rem (m n e y z : Z) :
  z <> 0 -> rep m e y -> rep n e z -> rep (Z.rem m n) e (Z.rem y z).
Proof.
  intros Hz Hy Hn. destruct (decide (n = 0)) as [->|Hn0].
  { apply (rep_zero_iff _ _ _) in Hn as [E _]. rewrite E in Hz by done. done. }
  destruct Hy as [H1 H2], Hn as [_ H3]. split; [done|].
  assert (0 < 2 ^ (e + K)) by (apply Z.pow_pos_nonneg; lia).
  assert (0 < 2 ^ K) by (apply Z.pow_pos_nonneg; unfold K; lia).
  rewrite <- !Z.mul_rem_distr_r by lia. congruence.
Qed.

Lemma f64_rem_exact (a b : Z) :
  small a -> small b -> 0 <= a -> b <> 0 -> f64_rem (of_Z a) (of_Z b) = of_Z (Z.rem a b).
Proof.
  unfold small. intros Ha Hb Hp Hn.
  destruct (decide (a = 0)) as [->|Ha0].
  - rewrite of_Z_0, (of_Z_finite b), Z.rem_0_l by lia. reflexivity.
  - assert (0 < Z.abs a <= LIM) as Ha' by lia. assert (0 < Z.abs b <= LIM) as Hb' by lia.
    aligned a b Ha' Hb'. rewrite (of_Z_finite a), (of_Z_finite b) by done.
    unfold f64_rem. rewrite (proj2 (Z.ltb_ge a 0)) in * by lia.
    apply normalize_any; [|by apply rep_rem].
    unfold small. destruct (Z.rem_bound_pos a (Z.abs b)) as [H1 H2]; [lia|lia|].
    rewrite Z.rem_abs_r in H1, H2 by lia. lia.
Qed.

Lemma trunc_of_Z (z : Z) : small z -> trunc (of_Z z) = Some z.
Proof.
  unfold small. intros Hz. destruct (decide (z = 0)) as [->|Hn]; [reflexivity|].
  assert (0 < Z.abs z <= LIM) as Hz' by lia.
  rewrite of_Z_finite by done. unfold trunc. f_equal. rewrite to_pos_cman by done.
  assert (Z.shiftl (cman (Z.abs z)) (cexp (Z.abs z)) = Z.abs z) as ->.
  { unfold cman. set (c := cexp (Z.abs z)). destruct (Z.le_gt_cases c 0) as [H|H].
    - rewrite <- (Z.shiftr_opp_r _ c), Z.shiftr_shiftl_l, Z.sub_diag by lia. apply Z.shiftl_0_r.
    - pose proof (cexp_range _ Hz'). assert (Z.abs z = LIM) as E.
      { unfold c, cexp in *. assert (Z.log2 (Z.abs z) = 53) as E by lia.
        pose proof (Z.log2_spec (Z.abs z)). unfold LIM in *. rewrite E in *. lia. }
      replace c with 1 by lia. rewrite E. reflexivity. }
  unfold cond_Zopp. destruct (Z.ltb_spec z 0); lia.
Qed.

Lemma to_int32_of_Z (z : Z) : small z -> to_int32 (of_Z z) = wrap_s 32 z.
Proof. intros H. unfold to_int32. rewrite trunc_of_Z by done. reflexivity. Qed.

Lemma to_uint32_of_Z (z : Z) : small z -> to_uint32 (of_Z z) = wrap_u 32 z.
Proof. intros H. unfold to_uint32. rewrite trunc_of_Z by done. reflexivity. Qed.

Lemma to_int32_range (x : num) : in_s 32 (to_int32 x).
Proof.
  unfold to_int32. destruct (trunc x); [by apply wrap_s_range|].
  unfold in_s. lia.
Qed.

Lemma to_uint32_range (x : num) : in_u 32 (to_uint32 x).
Proof.
  unfold to_uint32. destruct (trunc x); [by apply wrap_u_range|].
  unfold in_u. lia.
Qed.

Lemma small_mono (a b : Z) : Z.abs a <= Z.abs b -> small b -> small a.
Proof. unfold small. lia. Qed.

(** [of_Z] is injective on the exact domain and never a negative zero. *)
Lemma of_Z_inj (a b : Z) : small a -> small b -> of_Z a = of_Z b -> a = b.
Proof.
  intros Ha Hb E. pose proof (trunc_of_Z a Ha) as H1. pose proof (trunc_of_Z b Hb) as H2.
  congruence.
Qed.

Lemma of_Z_neg_zero (z : Z) : small z -> of_Z z <> neg_zero.
Proof.
  intros H. destruct (decide (z = 0)) as [->|Hn]; [discriminate|].
  unfold small in *. rewrite of_Z_finite by lia. discriminate.
Qed.

