(* ===== verification/Types.v ===== *)
(** * Types: the typeset lattice of [compiler/src/likelier/types.rs]

    The interval component and its transfer, function identities and the
    bounded function set, the object part with its snapshot-preferring join,
    the typeset product with its join and its claim projections, and the
    agreement lattices. *)

From S2P Require Import Prelude OpSem Facts Float64.
From Corelib Require Import SpecFloat.

(** ** The interval component *)

Definition MODELED_PRIMS : Prims :=
  from_bits (Z.lor (Z.lor (Z.lor (Z.lor (Z.lor (bits PRIM_INT32) (bits PRIM_DOUBLE))
    (bits PRIM_STRING)) (bits PRIM_UNDEFINED)) (bits PRIM_NULL)) (bits PRIM_BOOLEAN)).

Inductive Interval :=
  | IEmpty
  | IIn (r : ValueRange)
  | INum
  | IAny.

#[export] Instance Interval_eq_dec : EqDecision Interval.
Proof. solve_decision. Defined.

Definition of_range (l h : Z) : Interval :=
  match hq l h with
  | Some (l, h) => IIn (mkVR l h)
  | None => INum
  end.

Definition of_value (v : Z) : Interval := of_range v v.

(** [v.fract() == 0.0]: an integral finite double (an infinity's fraction is
    a NaN). *)
Definition fract_is_zero (v : num) : bool :=
  match v with
  | S754_zero _ => true
  | S754_finite _ m e => (0 <=? e) || (Zpos m mod 2 ^ (- e) =? 0)
  | _ => false
  end.

(** [v == 0.0 && v.is_sign_negative()]. *)
Definition is_neg_zero (v : num) : bool :=
  match v with S754_zero s => s | _ => false end.

(** [v as i64], where the caller has bounded [v]. *)
Definition as_i64 (v : num) : Z := match trunc v with Some z => z | None => 0 end.

Definition of_double (v : num) : Interval :=
  if is_neg_zero v then INum
  else if fract_is_zero v && SFleb (SFabs v) (of_Z (Z.shiftl 1 53))
  then of_value (as_i64 v)
  else INum.

Definition iv_join (a b : Interval) : Interval :=
  match a, b with
  | IEmpty, x | x, IEmpty => x
  | IAny, _ | _, IAny => IAny
  | INum, _ | _, INum => INum
  | IIn r, IIn s => IIn (hull r s)
  end.

Definition subsumes (a o : Interval) : bool := bool_decide (iv_join a o = a).

(** ** The interval transfer *)

Definition exact_iv (r : ValueRange) : Iv := Some (lo r, hi r, false).

Definition iv_transfer (op : NumOp) (a : Iv) (b : option Iv) (unbounded_b : bool) : Iv :=
  if negb (unary op) && (match b with None => true | _ => false end) && negb unbounded_b
  then None
  else
    let b := match b with Some b => b | None => None end in
    let one : Iv := Some (1, 1, false) in
    match op with
    | Add => iv_add a b
    | Sub => iv_sub a b
    | Mul => iv_mul a b
    | Mod => iv_mod a b
    | Div | Pow => None
    | Inc => iv_add a one
    | Dec => iv_sub a one
    | Neg => iv_neg a
    | Pos | ToNumeric => a
    | Ursh => iv_ursh a b
    | BitAnd => iv_bitand a b
    | BitOr | BitXor => iv_bitorxor a b
    | Lsh => iv_lsh a b
    | Rsh => iv_rsh a b
    | BitNot => iv_bitnot a
    end.

Definition arith_lit (op : NumOp) (a : ValueRange) (b : option ValueRange)
    : option ValueRange :=
  match iv_transfer op (exact_iv a) (exact_iv <$> b) false with
  | Some (l, h, _) => Some (mkVR l h)
  | None => None
  end.

(** The closure [cv] of [arith_interval]: the outer option is "no claim yet". *)
Definition operand_iv (h : Interval) (lit : option ValueRange) : option Iv :=
  match lit with
  | Some r => Some (exact_iv r)
  | None =>
      match h with
      | IEmpty => None
      | IIn r => Some (exact_iv r)
      | INum | IAny => Some None
      end
  end.

Definition arith_interval (op : NumOp) (a : Interval) (a_lit : option ValueRange)
    (b : option Interval) (b_lit : option ValueRange) : Interval :=
  match operand_iv a a_lit with
  | None => IEmpty
  | Some ia =>
      match (match b with Some h => Some (operand_iv h b_lit) | None => None end) with
      | Some None => IEmpty
      | ibo =>
          let ib := match ibo with Some (Some iv) => Some iv | _ => None end in
          let unbounded :=
            if bool_decide (op = Add) && (bool_decide (a = IAny) || bool_decide (b = Some IAny))
            then IAny else INum in
          match iv_transfer op ia ib true with
          | Some (l, h, _) => of_range l h
          | None => unbounded
          end
      end
  end.

(** ** Identities *)

(** [AbsId], [ClassId] and [CtxId] are dense indices. *)
Abbreviation AbsId := nat.
Abbreviation ClassId := nat.
Abbreviation CtxId := nat.
Definition CTX0 : CtxId := 0%nat.

(** [FnId(u32)] and [ScriptId(u32)]. *)
Abbreviation FnId := Z.
Abbreviation ScriptId := Z.

Definition NATIVE_BASE : Z := (2 ^ 32 - 1) - 4096.
Definition FN_ARRAY : Z := (2 ^ 32 - 1) - 64.
Definition TYPED_ARRAY_BASE : Z := (2 ^ 32 - 1) - 63.
Definition ARRAY_CTOR : FnId := FN_ARRAY.

Definition fn_script (s : ScriptId) : FnId := s.
Definition typed_array_ctor (k : TaKind) : FnId := wrap_u 32 (TYPED_ARRAY_BASE + ta_code k).

(** [None]: the [debug_assert!] fails. *)
Definition fn_native (idx : Z) : option FnId :=
  if NATIVE_BASE + idx <? FN_ARRAY then Some (NATIVE_BASE + idx) else None.
Definition is_builtin (f : FnId) : bool := NATIVE_BASE <=? f.
Definition as_script (f : FnId) : option ScriptId := if is_builtin f then None else Some f.
Definition native_index (f : FnId) : option Z :=
  if (NATIVE_BASE <=? f) && (f <? FN_ARRAY) then Some (f - NATIVE_BASE) else None.
Definition typed_array_kind (f : FnId) : option TaKind :=
  if TYPED_ARRAY_BASE <=? f then ta_from_code (wrap_u 8 (f - TYPED_ARRAY_BASE)) else None.

(** ** The bounded function set *)

Record BoundedFnSet := mkFnSet { ids : list FnId; multi : bool }.

#[export] Instance BoundedFnSet_eq_dec : EqDecision BoundedFnSet.
Proof. solve_decision. Defined.

Definition FN_MAX : nat := 8.
Definition fns_default : BoundedFnSet := mkFnSet [] false.
Definition fns_one (f : FnId) : BoundedFnSet := mkFnSet [f] false.
Definition fns_is_empty (s : BoundedFnSet) : bool :=
  negb (multi s) && (match ids s with [] => true | _ => false end).

(** [slice::binary_search] on a strictly sorted slice: the position of [f],
    or the position that keeps the order. *)
Fixpoint binary_search (l : list Z) (f : Z) : nat + nat :=
  match l with
  | [] => inr 0%nat
  | x :: l =>
      if x =? f then inl 0%nat
      else if f <? x then inr 0%nat
      else match binary_search l f with inl i => inl (S i) | inr i => inr (S i) end
  end.

Definition bs_found (l : list Z) (f : Z) : bool :=
  match binary_search l f with inl _ => true | inr _ => false end.

(** [Vec::insert]. *)
Definition vec_insert {A} (i : nat) (x : A) (l : list A) : list A :=
  take i l ++ x :: drop i l.

Definition scripted_ids (l : list FnId) : list FnId :=
  List.filter (fun x => negb (is_builtin x)) l.

(** [insert]: the new set, the new [dropped] list, and whether it grew. *)
Definition fns_insert (s : BoundedFnSet) (f : FnId) (dropped : list FnId)
    : BoundedFnSet * list FnId * bool :=
  if multi s then (s, dropped, false)
  else
    match binary_search (ids s) f with
    | inl _ => (s, dropped, false)
    | inr i =>
        if bool_decide (length (ids s) = FN_MAX)
        then (mkFnSet [] true, dropped ++ scripted_ids (ids s ++ [f]), true)
        else (mkFnSet (vec_insert i f (ids s)) (multi s), dropped, true)
    end.

Definition set_multi (s : BoundedFnSet) (dropped : list FnId)
    : BoundedFnSet * list FnId * bool :=
  if multi s then (s, dropped, false)
  else (mkFnSet [] true, dropped ++ scripted_ids (ids s), true).

Fixpoint fns_insert_all (s : BoundedFnSet) (fs : list FnId) (dropped : list FnId)
    (changed : bool) : BoundedFnSet * list FnId * bool :=
  match fs with
  | [] => (s, dropped, changed)
  | f :: fs =>
      let '(s, dropped, c) := fns_insert s f dropped in
      fns_insert_all s fs dropped (changed || c)
  end.

Definition fns_join_from (s o : BoundedFnSet) (dropped : list FnId)
    : BoundedFnSet * list FnId * bool :=
  if multi o then set_multi s dropped else fns_insert_all s (ids o) dropped false.

Definition scripted (s : BoundedFnSet) : list ScriptId := omap as_script (ids s).

Definition scripted_only (s : BoundedFnSet) (dropped : list FnId)
    : BoundedFnSet * list FnId :=
  if multi s then let '(o, d, _) := set_multi fns_default dropped in (o, d)
  else
    fold_left
      (fun acc f =>
         if negb (is_builtin f)
         then let '(o, d, _) := fns_insert (fst acc) f (snd acc) in (o, d)
         else acc)
      (ids s) (fns_default, dropped).

Definition fns_is_subset_of (s o : BoundedFnSet) : bool :=
  if multi o then true
  else if multi s then false
  else forallb (bs_found (ids o)) (ids s).

(** ** The object part *)

Record AbsLabels := mkAbsLabels { al_class : option ClassId; al_snap : bool; al_array : bool }.

Definition abs_labels_default : AbsLabels := mkAbsLabels None false false.

Inductive ObjType :=
  | OEmpty
  | OOne (a : AbsId)
  | OClassAny (c : ClassId)
  | OAnyOf (r : ClassId)
  | OAnyObject.

#[export] Instance ObjType_eq_dec : EqDecision ObjType.
Proof. solve_decision. Defined.

Definition class_of (a : AbsId) (meta : list AbsLabels) : option ClassId :=
  match meta !! a with Some m => al_class m | None => None end.

Definition is_snap (a : AbsId) (meta : list AbsLabels) : bool :=
  match meta !! a with Some m => al_snap m | None => false end.

Definition join_obj (a b : ObjType) (meta : list AbsLabels) : ObjType :=
  match a, b with
  | OEmpty, x | x, OEmpty => x
  | OAnyObject, _ | _, OAnyObject => OAnyObject
  | OAnyOf r, OAnyOf s => if bool_decide (r = s) then OAnyOf r else OAnyObject
  | OAnyOf _, _ | _, OAnyOf _ => OAnyObject
  | OOne x, OOne y =>
      if bool_decide (x = y) then OOne x
      else if is_snap x meta && negb (is_snap y meta) then OOne x
      else if is_snap y meta && negb (is_snap x meta) then OOne y
      else match class_of x meta, class_of y meta with
           | Some c, Some d => if bool_decide (c = d) then OClassAny c else OAnyObject
           | _, _ => OAnyObject
           end
  | OOne x, OClassAny c | OClassAny c, OOne x =>
      if bool_decide (class_of x meta = Some c) then OClassAny c else OAnyObject
  | OClassAny c, OClassAny d => if bool_decide (c = d) then OClassAny c else OAnyObject
  end.


(** ** The typeset *)

Record TypeSet := mkTypeSet {
  prims : Prims;
  fns : BoundedFnSet;
  obj : ObjType;
  range : Range;
  unknown : bool;
  interval : Interval
}.

#[export] Instance TypeSet_eq_dec : EqDecision TypeSet.
Proof. solve_decision. Defined.

Definition MAX_CELL_CHANGES : Z := 768.

Definition ts_default : TypeSet :=
  mkTypeSet EMPTY fns_default OEmpty R_I32 false IEmpty.

Definition prims_interval (p : Prims) : Interval :=
  if intersects p (p_or PRIM_INT32 PRIM_DOUBLE) then INum else IEmpty.

Definition ts_any : TypeSet :=
  mkTypeSet MODELED_PRIMS (mkFnSet [] true) OAnyObject R_Top true IAny.
Definition ts_unresolved : TypeSet :=
  mkTypeSet EMPTY (mkFnSet [] true) OAnyObject R_Top true IAny.
Definition ts_prim (p : Prims) : TypeSet :=
  mkTypeSet p fns_default OEmpty
    (if intersects p PRIM_DOUBLE then R_Top else R_I32) false (prims_interval p).
Definition unknown_evidence : TypeSet :=
  mkTypeSet EMPTY fns_default OEmpty R_Top true IAny.
Definition prim_interval (p : Prims) (r : Range) (i : Interval) : TypeSet :=
  mkTypeSet p fns_default OEmpty r false i.
Definition fn_one (f : FnId) : TypeSet :=
  mkTypeSet EMPTY (fns_one f) OEmpty R_I32 false IEmpty.
Definition obj_one (a : AbsId) : TypeSet :=
  mkTypeSet EMPTY fns_default (OOne a) R_I32 false IEmpty.

Definition obj_is_empty (o : ObjType) : bool := bool_decide (o = OEmpty).

Definition ts_is_empty (t : TypeSet) : bool :=
  p_is_empty (prims t) && negb (unknown t) && fns_is_empty (fns t) && obj_is_empty (obj t).

Record JoinSink := mkSink { dropped_fns : list FnId; snap_absorbs : list (AbsId * AbsId) }.

Definition sink_default : JoinSink := mkSink [] [].

(** The sink's record of a snap-preference absorption. *)
Definition snap_absorbed (x y : ObjType) (joined : ObjType) : list (AbsId * AbsId) :=
  match x, y with
  | OOne x, OOne y =>
      if bool_decide (x = y) then []
      else match joined with
           | OOne z => [(z, if bool_decide (z = x) then y else x)]
           | _ => []
           end
  | _, _ => []
  end.

(** [TypeSet::join_from]: the new [self], the new sink, whether [self] grew. *)
Definition join_from (t o : TypeSet) (meta : list AbsLabels) (sink : JoinSink)
    : TypeSet * JoinSink * bool :=
  let c0 := negb (subset_of (prims o) (prims t)) in
  let prims' := if c0 then p_or (prims t) (prims o) else prims t in
  let c1 := unknown o && negb (unknown t) in
  let unknown' := if c1 then true else unknown t in
  let '(fns', dropped, c2) := fns_join_from (fns t) (fns o) (dropped_fns sink) in
  let joined := join_obj (obj t) (obj o) meta in
  let absorbs := snap_absorbs sink ++ snap_absorbed (obj t) (obj o) joined in
  let c3 := negb (bool_decide (joined = obj t)) in
  let obj' := if c3 then joined else obj t in
  let c4 := negb (range_le (range o) (range t)) in
  let range' := if c4 then range o else range t in
  let h := iv_join (interval t) (interval o) in
  let c5 := negb (bool_decide (h = interval t)) in
  let interval' := if c5 then h else interval t in
  (mkTypeSet prims' fns' obj' range' unknown' interval', mkSink dropped absorbs,
   c0 || c1 || c2 || c3 || c4 || c5).

(** ** Projections to claims *)

Definition pure_numeric (t : TypeSet) : option Prims :=
  if negb (p_is_empty (prims t)) && subset_of (prims t) (p_or PRIM_INT32 PRIM_DOUBLE)
     && negb (unknown t) && fns_is_empty (fns t) && obj_is_empty (obj t)
  then Some (prims t) else None.

Definition pure_single_prim (t : TypeSet) (p : Prims) : bool :=
  p_eqb (prims t) p && negb (unknown t) && fns_is_empty (fns t) && obj_is_empty (obj t).

Definition fractional_reachable (t : TypeSet) : bool :=
  intersects (prims t) PRIM_DOUBLE && bool_decide (range t = R_Top).

Definition string_reachable (t : TypeSet) : bool := intersects (prims t) PRIM_STRING.

Definition numeric_claim (t : TypeSet) : option Claim :=
  match pure_numeric t with
  | None => None
  | Some p =>
      let claim := of_prims p in
      Some (if intersects p PRIM_DOUBLE && bool_decide (range t = R_Top)
            then with_double_first claim else claim)
  end.

Definition value_claim (t : TypeSet) : option Claim :=
  match pure_numeric t with
  | Some p =>
      let claim := of_prims p in
      Some (if intersects p PRIM_DOUBLE && bool_decide (range t = R_Top)
            then with_double_first claim else claim)
  | None =>
      if p_is_empty (prims t) && negb (unknown t)
         && (negb (obj_is_empty (obj t)) || negb (fns_is_empty (fns t)))
      then Some claim_OBJECT else None
  end.

Definition site_claim (t : TypeSet) : option Claim :=
  match value_claim t with
  | None => None
  | Some claim =>
      Some (if negb (is_object claim) && intersects (prims t) PRIM_DOUBLE
               && bool_decide (range t = R_Top)
            then with_double_first claim else claim)
  end.

Definition object_claim_nullish (t : TypeSet) : option Claim :=
  if subset_of (prims t) (p_or PRIM_NULL PRIM_UNDEFINED) && negb (unknown t)
     && (negb (obj_is_empty (obj t)) || negb (fns_is_empty (fns t)))
  then Some claim_OBJECT else None.

Definition value_claim_full (t : TypeSet) : option Claim :=
  if pure_single_prim t PRIM_STRING then Some (of_prims PRIM_STRING)
  else if pure_single_prim t PRIM_BOOLEAN then Some (of_prims PRIM_BOOLEAN)
  else if pure_single_prim t PRIM_SYMBOL then Some (of_prims PRIM_SYMBOL)
  else value_claim t.

(** ** The operand views *)

Definition opnd (t : TypeSet) : Opnd :=
  mkOpnd (prims t)
    (unknown t || negb (fns_is_empty (fns t)) || negb (obj_is_empty (obj t)))
    (range t).

Definition operand_interval (t : TypeSet) : Interval :=
  if unknown t || intersects (prims t) (p_or PRIM_UNDEFINED PRIM_STRING)
     || negb (fns_is_empty (fns t)) || negb (obj_is_empty (obj t))
  then IAny
  else if intersects (prims t) (p_or PRIM_BOOLEAN PRIM_NULL)
  then iv_join (interval t) (IIn (mkVR 0 1))
  else interval t.

(** [None]: [opsem::result]'s [expect] panics. *)
Definition arith_transfer (op : NumOp) (a : TypeSet) (b : option TypeSet)
    : option (Prims * Range) :=
  result op (opnd a) (opnd <$> b).

(** ** Agreement *)

Section Agreed.
  Context {V : Type} `{EqDecision V}.

Inductive Agreed :=
  | Unset
  | AOne (v : V)
  | Conflict.

Definition agreed_observe (a : Agreed) (v : V) : Agreed :=
  match a with
  | Unset => AOne v
  | AOne cur => if bool_decide (cur = v) then AOne cur else Conflict
  | Conflict => Conflict
  end.

Definition agreed_get (a : Agreed) : option V :=
  match a with AOne v => Some v | _ => None end.

Inductive AgreedSet :=
  | SUnset
  | SSome (vs : list V)
  | SConflict.

Definition agreed_set_observe (cap : nat) (a : AgreedSet) (v : V) : AgreedSet :=
  match a with
  | SUnset => SSome [v]
  | SSome vs =>
      if bool_decide (v ∈ vs) then SSome vs
      else if (length vs <? cap)%nat then SSome (vs ++ [v])
      else SConflict
  | SConflict => SConflict
  end.

Definition agreed_set_conflict (a : AgreedSet) : AgreedSet := SConflict.

Definition agreed_set_get (a : AgreedSet) : option (list V) :=
  match a with SSome vs => Some vs | _ => None end.

End Agreed.
Arguments Agreed : clear implicits.
Arguments AgreedSet : clear implicits.

(** [observe]: [map.entry(key).or_default().observe(value)]. *)
Definition observe {K V} `{Countable K} `{EqDecision V}
    (m : gmap K (Agreed V)) (k : K) (v : V) : gmap K (Agreed V) :=
  <[k := agreed_observe (default Unset (m !! k)) v]> m.
