(* ===== verification/FnSets.v ===== *)
(** * FnSets: identities and the bounded function set

    The four disjoint regions of the function-id space, and the refinement of
    [BoundedFnSet] to a capped finite set: every operation computes the
    finite-set operation it stands for, so the join is associative,
    commutative and idempotent, and the change flag is exact. *)

From Stdlib Require Import Sorted.
From S2P Require Import Prelude OpSem Types.

(** ** The id space *)

(** The four regions: scripts, named natives, Array, typed-array constructors. *)
Inductive FnKind :=
  | KScript (s : Z)
  | KNative (i : Z)
  | KArray
  | KTyped (k : TaKind)
  | KUnused.

Definition fn_kind (f : FnId) : FnKind :=
  match as_script f, native_index f, typed_array_kind f with
  | Some s, None, None => KScript s
  | None, Some i, None => KNative i
  | None, None, Some k => KTyped k
  | None, None, None => if f =? FN_ARRAY then KArray else KUnused
  | _, _, _ => KUnused
  end.

Lemma fn_kind_script (s : Z) : 0 <= s < NATIVE_BASE -> fn_kind (fn_script s) = KScript s.
Proof.
  intros H. unfold fn_kind, fn_script, as_script, native_index, typed_array_kind, is_builtin.
  unfold NATIVE_BASE, FN_ARRAY, TYPED_ARRAY_BASE in *.
  rewrite (proj2 (Z.leb_gt _ s)) by lia. rewrite (proj2 (Z.leb_gt _ s)) by lia. reflexivity.
Qed.

Lemma fn_kind_native (i : Z) :
  0 <= i -> match fn_native i with Some f => fn_kind f = KNative i | None => 4032 <= i end.
Proof.
  intros Hi. unfold fn_native. case_test; [|unfold NATIVE_BASE, FN_ARRAY in *; zify_bool; lia].
  unfold fn_kind, as_script, native_index, typed_array_kind, is_builtin.
  unfold NATIVE_BASE, FN_ARRAY, TYPED_ARRAY_BASE in *. zify_bool.
  rewrite (proj2 (Z.leb_le _ _)) by lia. rewrite (proj2 (Z.ltb_lt _ _)) by lia.
  rewrite (proj2 (Z.leb_gt _ _)) by lia. cbn [andb]. f_equal. lia.
Qed.

Lemma fn_kind_typed (k : TaKind) : fn_kind (typed_array_ctor k) = KTyped k.
Proof. by destruct k; vm_compute. Qed.

Lemma fn_kind_array : fn_kind FN_ARRAY = KArray.
Proof. by vm_compute. Qed.

Lemma as_script_scripted (l : list FnId) :
  omap as_script l = scripted_ids l.
Proof.
  induction l as [|f l IH]; [done|]. cbn. unfold as_script at 1.
  destruct (is_builtin f); cbn; by rewrite ?IH.
Qed.

(** ** Strictly sorted id lists *)

Abbreviation ssorted := (StronglySorted Z.lt).

Lemma ssorted_nodup (l : list Z) : ssorted l -> NoDup l.
Proof.
  induction 1 as [|x l Hs IH Hx]; constructor; [|done].
  intros Hin. rewrite list.Forall_forall in Hx. specialize (Hx _ Hin). lia.
Qed.

Lemma ssorted_unique (l k : list Z) :
  ssorted l -> ssorted k -> (forall x, x ∈ l <-> x ∈ k) -> l = k.
Proof.
  intros Hl. revert k. induction Hl as [|x l Hl IH Hx]; intros k Hk Heq.
  - destruct k as [|y k]; [done|]. specialize (Heq y). set_solver.
  - destruct Hk as [|y k Hk Hy]; [specialize (Heq x); set_solver|].
    rewrite list.Forall_forall in Hx, Hy.
    assert (x = y) as ->.
    { pose proof (proj1 (Heq x) ltac:(set_solver)) as [->|Hin]%elem_of_cons; [done|].
      pose proof (proj2 (Heq y) ltac:(set_solver)) as [->|Hin']%elem_of_cons; [done|].
      specialize (Hx _ Hin'). specialize (Hy _ Hin). lia. }
    f_equal. apply IH; [done|]. intros z. specialize (Heq z). rewrite !elem_of_cons in Heq.
    split; intros Hz.
    + destruct (proj1 Heq (or_intror Hz)) as [->|]; [|done]. specialize (Hx _ Hz). lia.
    + destruct (proj2 Heq (or_intror Hz)) as [->|]; [|done]. specialize (Hy _ Hz). lia.
Qed.

Lemma binary_search_inl (l : list Z) (f : Z) (i : nat) :
  binary_search l f = inl i -> l !! i = Some f.
Proof.
  revert i. induction l as [|x l IH]; intros i; [done|]. cbn [binary_search].
  destruct (Z.eqb_spec x f); [intros [= <-]; simpl; congruence|].
  destruct (f <? x); [done|]. destruct (binary_search l f); [|done].
  intros [= <-]. simpl. auto.
Qed.

Lemma elem_of_vec_insert {A} (i : nat) (x y : A) (l : list A) :
  y ∈ vec_insert i x l <-> y = x \/ y ∈ l.
Proof.
  unfold vec_insert. rewrite <- (take_drop i l) at 3. rewrite !elem_of_app, elem_of_cons. tauto.
Qed.

Lemma length_vec_insert {A} (i : nat) (x : A) (l : list A) :
  length (vec_insert i x l) = S (length l).
Proof.
  unfold vec_insert. rewrite <- (take_drop i l) at 3. rewrite !length_app. simpl. lia.
Qed.

Lemma binary_search_inr (l : list Z) (f : Z) (i : nat) :
  ssorted l -> binary_search l f = inr i -> f ∉ l /\ ssorted (vec_insert i f l).
Proof.
  intros Hs. revert i. induction Hs as [|x l Hs IH Hx]; intros i; cbn [binary_search].
  - intros [= <-]. split; [set_solver|]. cbn. repeat constructor.
  - destruct (Z.eqb_spec x f); [done|]. rewrite list.Forall_forall in Hx.
    destruct (Z.ltb_spec f x) as [Hfx|Hfx].
    + intros [= <-]. split.
      * intros [->|Hin]%elem_of_cons; [lia|]. specialize (Hx _ Hin). lia.
      * cbn. constructor; [constructor; [done|by apply list.Forall_forall]|].
        constructor; [done|]. apply list.Forall_forall. intros y Hy. specialize (Hx _ Hy). lia.
    + destruct (binary_search l f) as [|j] eqn:E; [done|]. intros [= <-].
      destruct (IH j eq_refl) as [Hn Hss]. split; [rewrite elem_of_cons; naive_solver|].
      change (vec_insert (S j) f (x :: l)) with (x :: vec_insert j f l).
      constructor; [done|]. apply list.Forall_forall.
      intros y [->|Hy]%elem_of_vec_insert; [lia|by apply Hx].
Qed.

Lemma bs_found_spec (l : list Z) (f : Z) : ssorted l -> bs_found l f = bool_decide (f ∈ l).
Proof.
  intros Hs. unfold bs_found. destruct (binary_search l f) as [i|i] eqn:E.
  - apply binary_search_inl in E. rewrite bool_decide_true; [done|].
    by eapply list_elem_of_lookup_2.
  - apply binary_search_inr in E as [Hn _]; [|done]. by rewrite bool_decide_false.
Qed.

(** ** The capped finite set a [BoundedFnSet] stands for

    [None] is the saturated set. *)

Definition fset := option (gset Z).

Definition fns_abs (s : BoundedFnSet) : fset :=
  if multi s then None else Some (list_to_set (ids s)).

Definition cap (x : gset Z) : fset := if decide (size x <= FN_MAX)%nat then Some x else None.

Definition fset_union (x y : fset) : fset :=
  match x, y with Some x, Some y => cap (x ∪ y) | _, _ => None end.

(** [fset_le x y]: [y] knows at least the ids of [x]. *)
Definition fset_le (x y : fset) : Prop :=
  match x, y with
  | _, None => True
  | None, Some _ => False
  | Some x, Some y => x ⊆ y
  end.

Record fns_wf (s : BoundedFnSet) : Prop := {
  wf_sorted : ssorted (ids s);
  wf_len : (length (ids s) <= FN_MAX)%nat;
  wf_multi : multi s = true -> ids s = [] }.

Lemma fns_abs_inj (s t : BoundedFnSet) :
  fns_wf s -> fns_wf t -> fns_abs s = fns_abs t -> s = t.
Proof.
  intros [Hs _ Ms] [Ht _ Mt]. destruct s as [l m], t as [k n].
  unfold fns_abs; cbn [ids multi] in *. destruct m, n; intros H; try done.
  - by rewrite Ms, Mt by done.
  - f_equal. apply ssorted_unique; [done..|]. injection H as H.
    intros x. rewrite <- !(elem_of_list_to_set (C := gset Z)). by rewrite H.
Qed.

Lemma size_ids (l : list Z) : ssorted l -> size (list_to_set l : gset Z) = length l.
Proof. intros H. apply size_list_to_set, ssorted_nodup, H. Qed.

Lemma fns_abs_size (s : BoundedFnSet) (x : gset Z) :
  fns_wf s -> fns_abs s = Some x -> size x = length (ids s) /\ (size x <= FN_MAX)%nat.
Proof.
  intros [Hs Hl _] H. unfold fns_abs in H. destruct (multi s); [done|]. injection H as <-.
  rewrite size_ids by done. lia.
Qed.

(** *** [insert] *)

Lemma fns_insert_spec (s : BoundedFnSet) (f : FnId) (d : list FnId) :
  fns_wf s ->
  let '(s', _, c) := fns_insert s f d in
  fns_wf s' /\ fns_abs s' = fset_union (fns_abs s) (Some {[f]}) /\
  c = negb (bool_decide (s' = s)).
Proof.
  intros Hwf. pose proof Hwf as [Hs Hl Hm]. unfold fns_insert.
  destruct (multi s) eqn:Em.
  { rewrite bool_decide_true by done. split_and!; [done| |done].
    unfold fns_abs. by rewrite Em. }
  destruct (binary_search (ids s) f) as [i|i] eqn:E.
  - apply binary_search_inl, list_elem_of_lookup_2 in E.
    rewrite bool_decide_true by done. split_and!; [done| |done].
    unfold fns_abs, fset_union, cap. rewrite Em.
    replace (list_to_set (ids s) ∪ {[f]} : gset Z) with (list_to_set (ids s) : gset Z) by set_solver.
    rewrite size_ids, decide_True by done. done.
  - apply binary_search_inr in E as [Hn Hi]; [|done].
    assert (size (list_to_set (ids s) ∪ {[f]} : gset Z) = S (length (ids s))) as Hsz.
    { rewrite size_union, size_ids, size_singleton by (done || set_solver). lia. }
    unfold fns_abs, fset_union, cap. rewrite Em, Hsz. case_bool_decide as Hmax.
    + rewrite decide_False by lia. split_and!; cbn [multi ids]; [|done|].
      * split; cbn [multi ids]; [constructor|simpl; lia|done].
      * rewrite bool_decide_false; [done|]. intros <-. done.
    + rewrite decide_True by lia. split_and!; cbn [multi ids].
      * split; cbn [multi ids]; [done|rewrite length_vec_insert; lia|congruence].
      * f_equal. apply set_eq. intros x.
        rewrite elem_of_union, !elem_of_list_to_set, elem_of_vec_insert. set_solver.
      * rewrite bool_decide_false; [done|]. intros Heq.
        apply (f_equal (fun s => length (ids s))) in Heq.
        cbn [ids] in Heq. rewrite length_vec_insert in Heq. lia.
Qed.

Lemma set_multi_spec (s : BoundedFnSet) (d : list FnId) :
  fns_wf s ->
  let '(s', _, c) := set_multi s d in
  fns_wf s' /\ fns_abs s' = None /\ c = negb (bool_decide (s' = s)).
Proof.
  intros Hwf. unfold set_multi. destruct (multi s) eqn:Em.
  - rewrite bool_decide_true by done. split_and!; [done| |done]. unfold fns_abs. by rewrite Em.
  - split_and!; [split; cbn; [constructor|lia|done]|done|].
    rewrite bool_decide_false; [done|]. intros <-. done.
Qed.

(** *** The join *)

Lemma cap_Some (x y : gset Z) : cap x = Some y -> x = y /\ (size y <= FN_MAX)%nat.
Proof. unfold cap. case_decide; naive_solver. Qed.

Lemma fset_union_absorb (x : fset) (y z : gset Z) :
  fset_union (fset_union x (Some y)) (Some z) = fset_union x (Some (y ∪ z)).
Proof.
  destruct x as [x|]; [|done]. cbn [fset_union]. unfold cap at 1. case_decide as Hc; cbn [fset_union].
  - by rewrite assoc_L by apply _.
  - unfold cap. rewrite decide_False; [done|].
    pose proof (subseteq_size (x ∪ y) (x ∪ (y ∪ z))
      (union_mono_l _ _ _ (union_subseteq_l _ _))). lia.
Qed.

Lemma fset_union_empty (x : fset) :
  (forall y, x = Some y -> (size y <= FN_MAX)%nat) -> fset_union x (Some ∅) = x.
Proof.
  destruct x as [x|]; [|done]. intros H. cbn [fset_union]. unfold cap.
  rewrite union_empty_r_L, decide_True by auto. done.
Qed.

Lemma fset_union_grow (x : fset) (y : gset Z) : fset_le x (fset_union x (Some y)).
Proof.
  destruct x as [x|]; [|done]. cbn [fset_union]. unfold cap, fset_le. case_decide; set_solver.
Qed.

Lemma fset_le_trans (x y z : fset) : fset_le x y -> fset_le y z -> fset_le x z.
Proof. destruct x, y, z; cbn; set_solver. Qed.

Lemma fset_le_antisym (x y : fset) : fset_le x y -> fset_le y x -> x = y.
Proof. destruct x, y; cbn; try done. intros. f_equal. set_solver. Qed.

Lemma fns_insert_all_spec (fs : list FnId) (s : BoundedFnSet) (d : list FnId) (c0 : bool) :
  fns_wf s ->
  let '(s', _, c) := fns_insert_all s fs d c0 in
  fns_wf s' /\ fns_abs s' = fset_union (fns_abs s) (Some (list_to_set fs)) /\
  c = c0 || negb (bool_decide (s' = s)).
Proof.
  revert s d c0. induction fs as [|f fs IH]; intros s d c0 Hs; cbn [fns_insert_all].
  - split_and!; [done| |by rewrite bool_decide_true, orb_false_r by done].
    cbn [list_to_set]. symmetry. apply fset_union_empty. intros y Hy.
    by apply (fns_abs_size _ _ Hs) in Hy as [_ ?].
  - pose proof (fns_insert_spec s f d Hs) as H1.
    destruct (fns_insert s f d) as [[s1 d1] c1]. destruct H1 as (W1 & A1 & C1).
    pose proof (IH s1 d1 (c0 || c1) W1) as H2.
    destruct (fns_insert_all s1 fs d1 (c0 || c1)) as [[s2 d2] c2]. destruct H2 as (W2 & A2 & C2).
    split_and!; [done|by rewrite A2, A1, fset_union_absorb|].
    subst c2 c1. rewrite <- orb_assoc. f_equal.
    destruct (decide (s1 = s)) as [->|Hne]; [by rewrite bool_decide_true by done|].
    rewrite (bool_decide_false (s1 = s)) by done. symmetry. cbn.
    rewrite bool_decide_false; [done|]. intros ->. apply Hne. apply fns_abs_inj; [done..|].
    apply fset_le_antisym; [|rewrite A1; apply fset_union_grow].
    rewrite A2. apply fset_union_grow.
Qed.

(** [join_from] computes the capped union, and its flag is exact. *)
Lemma fns_join_from_spec (s o : BoundedFnSet) (d : list FnId) :
  fns_wf s -> fns_wf o ->
  let '(s', _, c) := fns_join_from s o d in
  fns_wf s' /\ fns_abs s' = fset_union (fns_abs s) (fns_abs o) /\
  c = negb (bool_decide (s' = s)).
Proof.
  intros Hs Ho. unfold fns_join_from. destruct (multi o) eqn:Em.
  - pose proof (set_multi_spec s d Hs) as H. destruct (set_multi s d) as [[s' d'] c].
    destruct H as (W & A & C). split_and!; [done| |done]. rewrite A.
    unfold fns_abs. rewrite Em. by destruct (if multi s then _ else _).
  - pose proof (fns_insert_all_spec (ids o) s d false Hs) as H.
    destruct (fns_insert_all s (ids o) d false) as [[s' d'] c]. destruct H as (W & A & C).
    split_and!; [done| |done]. rewrite A. unfold fns_abs at 3. by rewrite Em.
Qed.

Definition fns_join (s o : BoundedFnSet) : BoundedFnSet := fst (fst (fns_join_from s o [])).

Lemma fns_join_from_fst (s o : BoundedFnSet) (d d' : list FnId) :
  fns_wf s -> fns_wf o ->
  fst (fst (fns_join_from s o d)) = fst (fst (fns_join_from s o d')).
Proof.
  intros Hs Ho. pose proof (fns_join_from_spec s o d Hs Ho) as H.
  pose proof (fns_join_from_spec s o d' Hs Ho) as H'.
  destruct (fns_join_from s o d) as [[? ?] ?], (fns_join_from s o d') as [[? ?] ?].
  destruct H as (? & ? & _), H' as (? & ? & _). cbn. apply fns_abs_inj; congruence || done.
Qed.

Lemma fns_join_wf (s o : BoundedFnSet) : fns_wf s -> fns_wf o -> fns_wf (fns_join s o).
Proof.
  intros Hs Ho. pose proof (fns_join_from_spec s o [] Hs Ho) as H. unfold fns_join.
  destruct (fns_join_from s o []) as [[? ?] ?]. apply H.
Qed.

Lemma fns_join_abs (s o : BoundedFnSet) :
  fns_wf s -> fns_wf o -> fns_abs (fns_join s o) = fset_union (fns_abs s) (fns_abs o).
Proof.
  intros Hs Ho. pose proof (fns_join_from_spec s o [] Hs Ho) as H. unfold fns_join.
  destruct (fns_join_from s o []) as [[? ?] ?]. apply H.
Qed.

Lemma fset_union_comm (x y : fset) : fset_union x y = fset_union y x.
Proof. destruct x, y; try done. cbn. by rewrite (comm_L (∪)). Qed.

Lemma fset_union_assoc (x y z : fset) :
  fset_union x (fset_union y z) = fset_union (fset_union x y) z.
Proof.
  destruct z as [z|].
  - destruct x as [x|], y as [y|]; try done.
    rewrite fset_union_absorb. change (fset_union (Some y) (Some z)) with (cap (y ∪ z)).
    destruct (cap (y ∪ z)) as [w|] eqn:Ec; [by apply cap_Some in Ec as [<- _]|].
    cbn. unfold cap in *. case_decide as Hc; [done|]. rewrite decide_False; [done|].
    pose proof (subseteq_size (y ∪ z) (x ∪ (y ∪ z)) (union_subseteq_r _ _)). lia.
  - destruct x, y; cbn [fset_union]; try done; unfold cap; by case_decide.
Qed.

Lemma fns_join_semilattice (s t u : BoundedFnSet) :
  fns_wf s -> fns_wf t -> fns_wf u ->
  fns_join s t = fns_join t s /\
  fns_join s (fns_join t u) = fns_join (fns_join s t) u /\
  fns_join s s = s.
Proof.
  intros Hs Ht Hu. split_and!; apply fns_abs_inj; auto using fns_join_wf;
    rewrite ?fns_join_abs by auto using fns_join_wf.
  - apply fset_union_comm.
  - apply fset_union_assoc.
  - destruct (fns_abs s) as [x|] eqn:E; [|done]. cbn. unfold cap.
    rewrite union_idemp_L, decide_True; [done|]. by apply (fns_abs_size _ _ Hs) in E as [_ ?].
Qed.

(** [is_subset_of] decides exactly whether the join would be a no-op. *)
Lemma fns_is_subset_of_spec (s o : BoundedFnSet) :
  fns_wf s -> fns_wf o -> fns_is_subset_of s o = bool_decide (fns_join o s = o).
Proof.
  intros Hs Ho. apply eq_iff_eq_true. rewrite bool_decide_eq_true.
  assert (fns_join o s = o <-> fset_union (fns_abs o) (fns_abs s) = fns_abs o) as ->.
  { rewrite <- fns_join_abs by done. split; [congruence|].
    intros H. apply fns_abs_inj; auto using fns_join_wf. }
  unfold fns_is_subset_of, fns_abs. destruct Hs as [Hs _ _].
  destruct (multi o) eqn:Eo; [by split|].
  destruct (multi s) eqn:Es; [by split|]. cbn [fset_union].
  rewrite forallb_forall.
  transitivity (list_to_set (ids s) ⊆ (list_to_set (ids o) : gset Z)).
  - split.
    + intros H x Hx. rewrite elem_of_list_to_set in *. apply list_elem_of_In in Hx.
      specialize (H _ Hx). rewrite bs_found_spec in H by apply Ho. by apply bool_decide_eq_true in H.
    + intros H x Hx. apply list_elem_of_In in Hx. rewrite bs_found_spec by apply Ho.
      apply bool_decide_eq_true. set_solver.
  - unfold cap. split.
    + intros H. replace (list_to_set (ids o) ∪ list_to_set (ids s) : gset Z)
        with (list_to_set (ids o) : gset Z) by set_solver.
      rewrite size_ids, decide_True by apply Ho. done.
    + case_decide; [|done]. intros [= Heq]. set_solver.
Qed.
