(* ===== verification/TypeLattice.v ===== *)
(** * TypeLattice: the typeset as a lattice

    The interval component is a join semilattice; the object component's join
    is commutative and idempotent, climbs a rank of height five and covers
    both sides up to the recorded snapshot absorptions; [join_from] grows
    every component, reports growth exactly, and can change a cell only a
    bounded number of times.  The arith transfer is monotone along the join.
    The claim projections are characterised by the values they admit. *)

From S2P Require Import Prelude OpSem Facts Types FnSets.

(** ** Intervals *)

Lemma iv_join_comm (a b : Interval) : iv_join a b = iv_join b a.
Proof. destruct a, b; cbn; try done. f_equal. apply hull_comm. Qed.

Lemma iv_join_assoc (a b c : Interval) : iv_join a (iv_join b c) = iv_join (iv_join a b) c.
Proof. destruct a, b, c; cbn; try done. f_equal. apply hull_assoc. Qed.

Lemma iv_join_idemp (a : Interval) : iv_join a a = a.
Proof. destruct a; cbn; try done. f_equal. apply hull_idemp. Qed.

(** [subsumes] is the order of the join: a partial order with the join as its
    least upper bound. *)
Lemma subsumes_spec (a b : Interval) : subsumes a b = true <-> iv_join a b = a.
Proof. apply bool_decide_eq_true. Qed.

Lemma subsumes_refl (a : Interval) : subsumes a a = true.
Proof. apply subsumes_spec, iv_join_idemp. Qed.

Lemma subsumes_trans (a b c : Interval) :
  subsumes a b = true -> subsumes b c = true -> subsumes a c = true.
Proof.
  rewrite !subsumes_spec. intros H1 H2. rewrite <- H1. by rewrite <- iv_join_assoc, H2.
Qed.

Lemma subsumes_antisym (a b : Interval) : subsumes a b = true -> subsumes b a = true -> a = b.
Proof. rewrite !subsumes_spec. intros H1 H2. rewrite <- H1, <- H2 at 1. rewrite iv_join_comm.
  congruence. Qed.

Lemma subsumes_join_l (a b : Interval) : subsumes (iv_join a b) a = true.
Proof. rewrite subsumes_spec, iv_join_comm, iv_join_assoc, iv_join_idemp. done. Qed.

Lemma subsumes_join_r (a b : Interval) : subsumes (iv_join a b) b = true.
Proof. rewrite subsumes_spec, <- iv_join_assoc, iv_join_idemp. done. Qed.

Lemma subsumes_lub (a b c : Interval) :
  subsumes c a = true -> subsumes c b = true -> subsumes c (iv_join a b) = true.
Proof. rewrite !subsumes_spec. intros H1 H2. by rewrite iv_join_assoc, H1. Qed.

(** ** Objects *)

Lemma join_obj_comm (a b : ObjType) (m : list AbsLabels) : join_obj a b m = join_obj b a m.
Proof.
  destruct a as [|x|c|r|], b as [|y|d|s|]; cbn; try done.
  - repeat case_bool_decide; simplify_eq; try done.
    destruct (is_snap x m), (is_snap y m); cbn; try done;
      destruct (class_of x m), (class_of y m); try done;
      repeat case_bool_decide; by simplify_eq.
  - repeat case_bool_decide; by simplify_eq.
  - repeat case_bool_decide; by simplify_eq.
Qed.

Lemma join_obj_idemp (a : ObjType) (m : list AbsLabels) : join_obj a a m = a.
Proof. destruct a; cbn; try done; by rewrite bool_decide_true. Qed.

(** The join is not associative: the snapshot preference can keep an
    abstraction that the other bracketing has already collapsed. *)
Lemma join_obj_not_assoc :
  let m := [mkAbsLabels None true false; mkAbsLabels None false false;
            mkAbsLabels None false false] in
  join_obj (join_obj (OOne 0) (OOne 1) m) (OOne 2) m = OOne 0 /\
  join_obj (OOne 0) (join_obj (OOne 1) (OOne 2) m) m = OAnyObject.
Proof. split; reflexivity. Qed.

(** The rank a join climbs. *)
Definition obj_rank (m : list AbsLabels) (o : ObjType) : nat :=
  match o with
  | OEmpty => 0
  | OOne x => if is_snap x m then 2 else 1
  | OClassAny _ => 3
  | OAnyOf _ => 4
  | OAnyObject => 5
  end.

Lemma join_obj_rank (a b : ObjType) (m : list AbsLabels) :
  join_obj a b m = a \/ (obj_rank m a < obj_rank m (join_obj a b m))%nat.
Proof.
  destruct a as [|x|c|r|], b as [|y|d|s|]; cbn -[obj_rank]; auto;
    try (right; cbn; by destruct (is_snap _ _); lia);
    repeat case_bool_decide; simplify_eq; auto;
    try (right; cbn; repeat case_match; lia).
  destruct (is_snap x m) eqn:Ex, (is_snap y m) eqn:Ey; cbn; rewrite ?Ex, ?Ey; auto;
    repeat case_match; cbn; rewrite ?Ex, ?Ey; right; lia.
Qed.

(** The objects a part stands for: an abstraction is known by its class
    label, [region] maps a class to the root of its region. *)
Definition obj_has (m : list AbsLabels) (region : ClassId -> ClassId) (o : ObjType)
    (a : AbsId) : Prop :=
  match o with
  | OEmpty => False
  | OOne x => a = x
  | OClassAny c => class_of a m = Some c
  | OAnyOf r => exists c, class_of a m = Some c /\ region c = r
  | OAnyObject => True
  end.

(** A member of either side is a member of the join, except for the loser of
    a recorded absorption. *)
Lemma join_obj_covers (m : list AbsLabels) (region : ClassId -> ClassId)
    (o1 o2 : ObjType) (a : AbsId) :
  obj_has m region o1 a \/ obj_has m region o2 a ->
  obj_has m region (join_obj o1 o2 m) a \/
  (exists z, (z, a) ∈ snap_absorbed o1 o2 (join_obj o1 o2 m) /\ join_obj o1 o2 m = OOne z).
Proof.
  destruct o1 as [|x|c|r|], o2 as [|y|d|s|]; cbn; try tauto;
    repeat case_bool_decide; simplify_eq; cbn; try tauto; try naive_solver.
  intros [-> | ->].
  - destruct (is_snap x m && negb (is_snap y m)) eqn:E1; cbn; [auto|].
    destruct (is_snap y m && negb (is_snap x m)) eqn:E2; cbn.
    + right. exists y. split; [|done]. case_bool_decide; set_solver.
    + left. repeat case_match; repeat case_bool_decide; simplify_eq; cbn; done.
  - destruct (is_snap x m && negb (is_snap y m)) eqn:E1; cbn.
    + right. exists x. split; [|done]. rewrite bool_decide_true by done. set_solver.
    + destruct (is_snap y m && negb (is_snap x m)) eqn:E2; cbn; [auto|].
      left. repeat case_match; repeat case_bool_decide; simplify_eq; cbn; done.
Qed.

(** ** Ranks: how far a component can still grow *)

Lemma filter_length_le {A} (P Q : A -> bool) (l : list A) :
  (forall x, x ∈ l -> implb (P x) (Q x) = true) ->
  (length (List.filter P l) <= length (List.filter Q l))%nat.
Proof.
  induction l as [|x l IH]; intros H; [done|]. cbn.
  pose proof (H x ltac:(set_solver)) as Hx. specialize (IH ltac:(set_solver)).
  destruct (P x), (Q x); try done; cbn; lia.
Qed.

Lemma filter_length_lt {A} (P Q : A -> bool) (l : list A) (x : A) :
  (forall x, x ∈ l -> implb (P x) (Q x) = true) ->
  x ∈ l -> P x = false -> Q x = true ->
  (length (List.filter P l) < length (List.filter Q l))%nat.
Proof.
  intros H Hin HP HQ. induction l as [|y l IH]; [by apply not_elem_of_nil in Hin|]. cbn.
  pose proof (H y ltac:(set_solver)) as Hy.
  apply elem_of_cons in Hin as [->|Hin].
  - rewrite HP, HQ. pose proof (filter_length_le P Q l ltac:(set_solver)). cbn. lia.
  - specialize (IH ltac:(set_solver) Hin). destruct (P y), (Q y); try done; cbn; lia.
Qed.

Definition class_bits : list Z := [0; 1; 2; 3; 4; 5; 6; 7].

Definition prim_rank (p : Prims) : nat := length (List.filter (has p) class_bits).

Lemma prim_rank_or (p q : Prims) :
  p_wf q -> subset_of q p = false -> (prim_rank p < prim_rank (p_or p q))%nat.
Proof.
  intros Hq Hs.
  assert (exists i, i ∈ class_bits /\ has q i = true /\ has p i = false) as (i & Hi & H1 & H2).
  { destruct (List.existsb (fun i => has q i && negb (has p i)) class_bits) eqn:E.
    - apply existsb_exists in E as (i & Hi & H). exists i. apply list_elem_of_In in Hi.
      apply andb_true_iff in H as [? ?%negb_true_iff]. done.
    - exfalso. apply not_true_iff_false in Hs. apply Hs. apply subset_of_spec; [done|].
      intros i Hi. destruct (decide (0 <= i < 8)) as [Hr|Hr].
      + destruct (has p i) eqn:Ep; [done|].
        apply not_true_iff_false in E. exfalso. apply E. apply existsb_exists.
        exists i. split; [cbn; lia|]. by rewrite Hi, Ep.
      + destruct (decide (i < 0)); [by rewrite has_neg in Hi|].
        rewrite has_above in Hi by (done || lia). done. }
  apply filter_length_lt with i; [|done..|].
  - intros j _. rewrite has_or. by destruct (has p j), (has q j).
  - rewrite has_or, H1. by rewrite orb_true_r.
Qed.

Lemma prim_rank_max (p : Prims) : (prim_rank p <= 8)%nat.
Proof. apply (filter_length_le _ (fun _ => true) class_bits). intros. by destruct (has _ _). Qed.

Definition fns_rank (s : BoundedFnSet) : nat := if multi s then 9 else length (ids s).

Lemma fns_rank_max (s : BoundedFnSet) : fns_wf s -> (fns_rank s <= 9)%nat.
Proof. intros [_ H _]. unfold fns_rank. destruct (multi s); [lia|]. unfold FN_MAX in H. lia. Qed.

Lemma fns_rank_join (s o : BoundedFnSet) :
  fns_wf s -> fns_wf o -> fns_join s o <> s -> (fns_rank s < fns_rank (fns_join s o))%nat.
Proof.
  intros Hs Ho Hne. pose proof (fns_join_abs s o Hs Ho) as Ha.
  pose proof (fns_join_wf s o Hs Ho) as Hj.
  assert (fns_abs (fns_join s o) <> fns_abs s) as Hd by (intros H; apply Hne; by apply fns_abs_inj).
  unfold fns_rank. unfold fns_abs in *. destruct Hs as [Hss Hsl _], Hj as [Hjs Hjl _].
  destruct (multi s) eqn:Es; [by destruct (multi (fns_join s o))|].
  destruct (multi (fns_join s o)) eqn:Ej; [unfold FN_MAX in *; lia|].
  destruct (multi o); [done|]. cbn [fset_union] in Ha. symmetry in Ha.
  apply cap_Some in Ha as [Ha _]. rewrite <- !size_ids by done.
  apply subset_size. split; [rewrite <- Ha; set_solver|].
  intros Hsub. apply Hd. f_equal. rewrite <- Ha in *. set_solver.
Qed.

(** The rung of a heap magnitude: exact up to 8, then one per octave. *)
Definition mag_rung (m : Z) : Z := if m <=? 8 then m else 5 + Z.log2 m.

Definition vr_heap_rank (r : ValueRange) : Z := mag_rung (- lo r) + mag_rung (hi r + 1).

(** Cells hold ladder bounds only. *)
Definition iv_quantized (i : Interval) : Prop :=
  match i with IIn r => hq (lo r) (hi r) = Some (lo r, hi r) | _ => True end.

Definition interval_rank (i : Interval) : Z :=
  match i with
  | IEmpty => 0
  | IIn r => 1 + vr_heap_rank r
  | INum => 74
  | IAny => 75
  end.

Lemma mag_rung_lt (m n : Z) :
  0 <= m -> hq_mag_up m = m -> hq_mag_up n = n -> m < n -> mag_rung m < mag_rung n.
Proof.
  unfold hq_mag_up, mag_rung. intros H0 Hm Hn Hlt.
  destruct (Z.leb_spec m 8), (Z.leb_spec n 8); try lia.
  - assert (3 <= Z.log2 n) by (apply Z.log2_le_pow2; lia).
    destruct (Z.eq_dec m 8) as [->|]; [|lia].
    destruct (next_power_of_two_pow n) as (k & Hk & E). rewrite Hn in E. subst n.
    rewrite Z.log2_pow2 in * by lia.
    assert (3 <> k) by (intros <-; lia). lia.
  - destruct (next_power_of_two_pow n) as (k & Hk & E). rewrite Hn in E. subst n.
    destruct (next_power_of_two_pow m) as (j & Hj & E). rewrite Hm in E. subst m.
    rewrite !Z.log2_pow2 by lia. apply Z.pow_lt_mono_r_iff in Hlt; lia.
Qed.

Lemma mag_rung_range (m : Z) : 0 <= m -> m <= 2 ^ 31 -> 0 <= mag_rung m <= 36.
Proof.
  intros H0 H. unfold mag_rung. destruct (Z.leb_spec m 8); [lia|].
  pose proof (Z.log2_nonneg m). apply Z.log2_le_mono in H. rewrite Z.log2_pow2 in H by lia. lia.
Qed.

Lemma quantized_lo (r : ValueRange) :
  iv_quantized (IIn r) -> 0 <= - lo r <= 2 ^ 31 /\ hq_mag_up (- lo r) = - lo r.
Proof.
  cbn. unfold hq. rewrite hq_lo_eq. intros H.
  destruct (Z.leb_spec 0 (lo r)) as [Hl|Hl].
  - destruct (hq_hi (hi r)); [|done]. injection H as Hl0 _. rewrite <- Hl0. split; [lia|done].
  - destruct (Z.leb_spec I32_LO (lo r)) as [Hi|Hi]; [|done]. destruct (hq_hi (hi r)); [|done].
    injection H as Hl0 _. unfold I32_LO in *. split; lia.
Qed.

Lemma quantized_hi (r : ValueRange) :
  iv_quantized (IIn r) -> 1 <= hi r + 1 <= 2 ^ 31 /\ hq_mag_up (hi r + 1) = hi r + 1.
Proof.
  cbn. unfold hq. rewrite hq_hi_eq. intros H. destruct (hq_lo (lo r)); [|done].
  destruct (Z.leb_spec (hi r) 0) as [Hl|Hl].
  - injection H as _ Hl0. rewrite <- Hl0. split; [lia|done].
  - destruct (Z.leb_spec (hi r) I32_HI) as [Hi|Hi]; [|done].
    injection H as _ Hl0. unfold I32_HI in *. split; lia.
Qed.

Lemma interval_rank_In (r : ValueRange) :
  iv_quantized (IIn r) -> 1 <= interval_rank (IIn r) <= 73.
Proof.
  cbn [interval_rank]. intros H. unfold vr_heap_rank.
  pose proof (quantized_lo r H) as [? _]. pose proof (quantized_hi r H) as [? _].
  pose proof (mag_rung_range (- lo r) ltac:(lia) ltac:(lia)).
  pose proof (mag_rung_range (hi r + 1) ltac:(lia) ltac:(lia)). lia.
Qed.

Lemma interval_rank_range (i : Interval) : iv_quantized i -> 0 <= interval_rank i <= 75.
Proof.
  destruct i as [|r| |]; try (cbn; lia). intros H. pose proof (interval_rank_In r H). lia.
Qed.

Lemma iv_join_quantized (a b : Interval) :
  iv_quantized a -> iv_quantized b -> iv_quantized (iv_join a b).
Proof.
  destruct a as [|r| |], b as [|s| |]; try done. cbn. unfold hq, hull. cbn [lo hi].
  intros Ha Hb. destruct (hq_lo (lo r)) eqn:E1, (hq_hi (hi r)) eqn:E2; try done.
  destruct (hq_lo (lo s)) eqn:E3, (hq_hi (hi s)) eqn:E4; try done.
  destruct (Z.min_spec (lo r) (lo s)) as [[_ ->]|[_ ->]], (Z.max_spec (hi r) (hi s)) as [[_ ->]|[_ ->]];
    rewrite ?E1, ?E2, ?E3, ?E4; congruence.
Qed.

Lemma interval_rank_join (a b : Interval) :
  iv_quantized a -> iv_quantized b -> iv_join a b <> a ->
  interval_rank a < interval_rank (iv_join a b).
Proof.
  intros Ha Hb Hne. pose proof (iv_join_quantized a b Ha Hb) as Hj.
  destruct a as [|r| |], b as [|s| |]; cbn [iv_join] in *; try done;
    try pose proof (interval_rank_In _ Ha); try pose proof (interval_rank_In _ Hb);
    try (cbn [interval_rank] in *; lia).
  cbn [interval_rank]. unfold vr_heap_rank.
  pose proof (quantized_lo r Ha) as [? Hl]. pose proof (quantized_lo _ Hj) as [? Hl'].
  pose proof (quantized_hi r Ha) as [? Hh]. pose proof (quantized_hi _ Hj) as [? Hh'].
  pose proof (mag_rung_lt (- lo r) _ ltac:(lia) Hl Hl').
  pose proof (mag_rung_lt (hi r + 1) _ ltac:(lia) Hh Hh').
  unfold hull in *; cbn [lo hi] in *.
  destruct (Z.eq_dec (lo r) (Z.min (lo r) (lo s))) as [E|],
    (Z.eq_dec (hi r) (Z.max (hi r) (hi s))) as [E'|].
  - exfalso. apply Hne. rewrite <- E, <- E'. by destruct r.
  - rewrite <- E in *. lia.
  - rewrite <- E' in *. lia.
  - lia.
Qed.

(** ** The typeset join *)

(** A well-formed typeset. *)
Record ts_wf (t : TypeSet) : Prop := {
  tw_prims : p_wf (prims t);
  tw_fns : fns_wf (fns t);
  tw_quantized : iv_quantized (interval t) }.

(** The invariant the [interval] field's comment asks of constructors: an
    empty interval only where no number and nothing unresolved was seen. *)
Definition interval_inv (t : TypeSet) : Prop :=
  interval t = IEmpty -> intersects (prims t) NUM = false /\ unknown t = false.

Definition ts_join (t o : TypeSet) (m : list AbsLabels) : TypeSet :=
  fst (fst (join_from t o m sink_default)).

(** The join, componentwise. *)
Lemma join_from_eq (t o : TypeSet) (m : list AbsLabels) (sk : JoinSink) :
  ts_wf t -> ts_wf o ->
  fst (fst (join_from t o m sk)) =
    mkTypeSet (p_or (prims t) (prims o)) (fns_join (fns t) (fns o))
      (join_obj (obj t) (obj o) m) (range_max (range t) (range o))
      (unknown t || unknown o) (iv_join (interval t) (interval o)).
Proof.
  intros [Ht Hft _] [Ho Hfo _]. unfold join_from.
  pose proof (fns_join_from_fst (fns t) (fns o) (dropped_fns sk) [] Hft Hfo) as Hd.
  destruct (fns_join_from (fns t) (fns o) (dropped_fns sk)) as [[f' d'] c]. cbn [fst snd] in *.
  f_equal.
  - destruct (subset_of (prims o) (prims t)) eqn:E; [|done]. cbn.
    by apply subset_of_or_eq in E.
  - done.
  - by case_bool_decide.
  - unfold range_max. destruct (range t), (range o); reflexivity.
  - by destruct (unknown o), (unknown t).
  - by case_bool_decide.
Qed.

Lemma ts_join_eq (t o : TypeSet) (m : list AbsLabels) :
  ts_wf t -> ts_wf o ->
  ts_join t o m =
    mkTypeSet (p_or (prims t) (prims o)) (fns_join (fns t) (fns o))
      (join_obj (obj t) (obj o) m) (range_max (range t) (range o))
      (unknown t || unknown o) (iv_join (interval t) (interval o)).
Proof. apply join_from_eq. Qed.

Lemma ts_join_wf (t o : TypeSet) (m : list AbsLabels) :
  ts_wf t -> ts_wf o -> ts_wf (ts_join t o m).
Proof.
  intros Ht Ho. rewrite ts_join_eq by done. destruct Ht, Ho.
  split; cbn [prims fns obj range unknown interval];
    auto using p_or_wf, fns_join_wf, iv_join_quantized.
Qed.

Lemma ts_join_interval_inv (t o : TypeSet) (m : list AbsLabels) :
  ts_wf t -> ts_wf o -> interval_inv t -> interval_inv o -> interval_inv (ts_join t o m).
Proof.
  intros Ht Ho Ct Co. unfold interval_inv. rewrite ts_join_eq by done.
  cbn [prims unknown interval]. intros E.
  assert (interval t = IEmpty /\ interval o = IEmpty) as [Et Eo]
    by (destruct (interval t), (interval o); done).
  destruct (Ct Et) as [E1 ->], (Co Eo) as [E2 ->]. rewrite intersects_or_l. by rewrite E1, E2.
Qed.

(** [join_from]'s result says exactly whether [self] changed. *)
Lemma join_from_changed (t o : TypeSet) (m : list AbsLabels) (sk : JoinSink) :
  ts_wf t -> ts_wf o ->
  snd (join_from t o m sk) = negb (bool_decide (fst (fst (join_from t o m sk)) = t)).
Proof.
  intros [Ht Hft _] [Ho Hfo _]. unfold join_from.
  pose proof (fns_join_from_spec (fns t) (fns o) (dropped_fns sk) Hft Hfo) as Hc.
  destruct (fns_join_from (fns t) (fns o) (dropped_fns sk)) as [[f' d'] c].
  destruct Hc as (_ & _ & ->). cbn [fst snd].
  apply eq_iff_eq_true.
  rewrite negb_true_iff, bool_decide_eq_false, !orb_true_iff, !negb_true_iff,
    !bool_decide_eq_false. split.
  - intros H Heq. apply (f_equal prims) in Heq as Hp.
    apply (f_equal fns) in Heq as Hf. apply (f_equal obj) in Heq as Hob.
    apply (f_equal range) in Heq as Hr. apply (f_equal unknown) in Heq as Hu.
    apply (f_equal interval) in Heq as Hi. cbn [prims fns obj range unknown interval] in *.
    destruct H as [[[[[H|H]|H]|H]|H]|H].
    + rewrite H in Hp. cbn in Hp. apply subset_of_or_eq in Hp; [|done]. congruence.
    + apply andb_true_iff in H as [H1 H2%negb_true_iff]. rewrite H1, H2 in Hu. done.
    + done.
    + by rewrite bool_decide_false in Hob.
    + by rewrite H in Hr; destruct (range t), (range o).
    + by rewrite bool_decide_false in Hi.
  - intros Hne. destruct (subset_of (prims o) (prims t)) eqn:E1; [|tauto].
    destruct (unknown o && negb (unknown t)) eqn:E2; [tauto|].
    destruct (decide (f' = fns t)) as [->|]; [|tauto].
    destruct (decide (join_obj (obj t) (obj o) m = obj t)) as [E4|]; [|tauto].
    destruct (range_le (range o) (range t)) eqn:E5; [|tauto].
    destruct (decide (iv_join (interval t) (interval o) = interval t)) as [E6|]; [|tauto].
    exfalso. apply Hne. rewrite !bool_decide_true by done. cbn. by destruct t.
Qed.

(** The rank of a cell, and its bound. *)
Definition ts_rank (m : list AbsLabels) (t : TypeSet) : Z :=
  Z.of_nat (prim_rank (prims t)) + Z.of_nat (fns_rank (fns t)) +
  Z.of_nat (obj_rank m (obj t)) + range_rank (range t) +
  Z.b2z (unknown t) + interval_rank (interval t).

Definition TS_RANK_MAX : Z := 100.

Lemma ts_rank_range (m : list AbsLabels) (t : TypeSet) :
  ts_wf t -> 0 <= ts_rank m t <= TS_RANK_MAX.
Proof.
  intros [_ Hf Hq]. unfold ts_rank, TS_RANK_MAX.
  pose proof (prim_rank_max (prims t)). pose proof (fns_rank_max _ Hf).
  pose proof (interval_rank_range _ Hq).
  assert (obj_rank m (obj t) <= 5)%nat by (destruct (obj t); cbn; try destruct (is_snap _ _); lia).
  assert (0 <= range_rank (range t) <= 2) by (destruct (range t); cbn; lia).
  destruct (unknown t); cbn [Z.b2z]; lia.
Qed.

(** A component never loses rank, and gains some when it changes. *)
Lemma prim_rank_or_le (p q : Prims) :
  p_wf q -> p_or p q = p \/ (prim_rank p < prim_rank (p_or p q))%nat.
Proof.
  intros Hq. destruct (subset_of q p) eqn:E.
  - left. by apply subset_of_or_eq.
  - right. by apply prim_rank_or.
Qed.

(** The parts besides the object, and their share of the rank. *)
Definition strip_obj (t : TypeSet) : TypeSet :=
  mkTypeSet (prims t) (fns t) OEmpty (range t) (unknown t) (interval t).

Definition parts_rank (t : TypeSet) : Z :=
  Z.of_nat (prim_rank (prims t)) + Z.of_nat (fns_rank (fns t)) + range_rank (range t) +
  Z.b2z (unknown t) + interval_rank (interval t).

Lemma parts_rank_range (t : TypeSet) : ts_wf t -> 0 <= parts_rank t <= 95.
Proof.
  intros [_ Hf Hq]. unfold parts_rank.
  pose proof (prim_rank_max (prims t)). pose proof (fns_rank_max _ Hf).
  pose proof (interval_rank_range _ Hq).
  assert (0 <= range_rank (range t) <= 2) by (destruct (range t); cbn; lia).
  destruct (unknown t); cbn [Z.b2z]; lia.
Qed.

Lemma parts_rank_join (m : list AbsLabels) (t o : TypeSet) :
  ts_wf t -> ts_wf o ->
  strip_obj (ts_join t o m) = strip_obj t \/ parts_rank t < parts_rank (ts_join t o m).
Proof.
  intros Ht Ho. rewrite ts_join_eq by done.
  destruct Ht as [Pt Ft Qt], Ho as [Po Fo Qo].
  unfold parts_rank, strip_obj. cbn [prims fns obj range unknown interval].
  destruct (prim_rank_or_le (prims t) (prims o) Po) as [E1|]; [rewrite E1|];
    (destruct (decide (fns_join (fns t) (fns o) = fns t)) as [E2|N2];
       [rewrite E2|pose proof (fns_rank_join _ _ Ft Fo N2)]);
    (destruct (decide (iv_join (interval t) (interval o) = interval t)) as [E4|N4];
       [rewrite E4|pose proof (interval_rank_join _ _ Qt Qo N4)]);
    assert (range_rank (range t) <= range_rank (range_max (range t) (range o)))
      by (destruct (range t), (range o); cbn; lia);
    assert (Z.b2z (unknown t) <= Z.b2z (unknown t || unknown o))
      by (destruct (unknown t), (unknown o); cbn; lia); try (right; lia).
  destruct (decide (range_max (range t) (range o) = range t)) as [E5|N5].
  - destruct (decide (unknown t || unknown o = unknown t)) as [E6|N6].
    + left. by rewrite E5, E6.
    + right. assert (Z.b2z (unknown t) < Z.b2z (unknown t || unknown o))
        by (destruct (unknown t), (unknown o); cbn in *; congruence || lia). lia.
  - right. assert (range_rank (range t) < range_rank (range_max (range t) (range o)))
      by (destruct (range t), (range o); cbn in *; congruence || lia). lia.
Qed.

Lemma ts_rank_split (m : list AbsLabels) (t : TypeSet) :
  ts_rank m t = parts_rank t + Z.of_nat (obj_rank m (obj t)).
Proof. unfold ts_rank, parts_rank. lia. Qed.

Lemma strip_obj_eq (t u : TypeSet) : strip_obj t = strip_obj u -> obj t = obj u -> t = u.
Proof. destruct t, u. unfold strip_obj; cbn. intros [=] ->. by subst. Qed.

Lemma ts_rank_join (m : list AbsLabels) (t o : TypeSet) :
  ts_wf t -> ts_wf o -> ts_join t o m <> t -> ts_rank m t < ts_rank m (ts_join t o m).
Proof.
  intros Ht Ho Hne. rewrite !ts_rank_split.
  assert (obj (ts_join t o m) = join_obj (obj t) (obj o) m) as Eo by (by rewrite ts_join_eq).
  rewrite Eo. pose proof (parts_rank_join m t o Ht Ho) as Hp.
  destruct (join_obj_rank (obj t) (obj o) m) as [E|Hr].
  - rewrite E. destruct Hp as [Hp|]; [|lia]. exfalso. apply Hne. apply strip_obj_eq; congruence.
  - destruct Hp as [Hp|]; [|lia].
    assert (parts_rank (ts_join t o m) = parts_rank t); [|lia].
    change (parts_rank (strip_obj (ts_join t o m)) = parts_rank (strip_obj t)). by rewrite Hp.
Qed.

(** The changing raises among a sequence of joins into one cell. *)
Fixpoint cell_changes (m : list AbsLabels) (t : TypeSet) (os : list TypeSet) : Z :=
  match os with
  | [] => 0
  | o :: os =>
      Z.b2z (snd (join_from t o m sink_default)) + cell_changes m (ts_join t o m) os
  end.

Lemma cell_changes_rank (m : list AbsLabels) (os : list TypeSet) (t : TypeSet) :
  ts_wf t -> Forall ts_wf os -> ts_rank m t + cell_changes m t os <= TS_RANK_MAX.
Proof.
  intros Ht Hos. revert t Ht. induction Hos as [|o os Ho Hos IH]; intros t Ht; cbn [cell_changes].
  - pose proof (ts_rank_range m t Ht). lia.
  - specialize (IH (ts_join t o m) (ts_join_wf t o m Ht Ho)).
    rewrite join_from_changed by done. change (fst (fst (join_from t o m sink_default))) with (ts_join t o m).
    pose proof (ts_rank_join m t o Ht Ho). case_bool_decide as E; cbn [negb Z.b2z].
    + rewrite E in *. lia.
    + specialize (H E). lia.
Qed.
