(* ===== verification/Claims.v ===== *)
(** * Claims: what the typeset's projections promise

    The arith transfer is monotone along the typeset join; each claim
    projection is characterised by the typesets it accepts, and a claim over
    a joined cell covers every arrival that was joined in. *)

From S2P Require Import Prelude OpSem Facts Types FnSets TypeLattice.

(** ** The operand view grows with the typeset *)

Lemma fns_is_empty_abs (s : BoundedFnSet) : fns_wf s -> fns_is_empty s = true <-> fns_abs s = Some ∅.
Proof.
  destruct s as [l m]. intros [Hx _ _]. unfold fns_is_empty, fns_abs; cbn [multi ids] in *.
  destruct m; cbn; [done|]. destruct l; cbn; [done|]. split; [done|].
  intros [= E]. set_solver.
Qed.

Lemma fns_join_empty (s o : BoundedFnSet) :
  fns_wf s -> fns_wf o ->
  fns_is_empty (fns_join s o) = fns_is_empty s && fns_is_empty o.
Proof.
  intros Hs Ho.
  apply eq_iff_eq_true. rewrite andb_true_iff, !fns_is_empty_abs by auto using fns_join_wf.
  rewrite fns_join_abs by done. destruct (fns_abs s) as [x|]; [|naive_solver].
  destruct (fns_abs o) as [y|]; [|naive_solver]. cbn. split.
  - intros E. apply cap_Some in E as [E _]. split; f_equal; set_solver.
  - intros [[= ->] [= ->]]. unfold cap. rewrite union_idemp_L, size_empty. done.
Qed.

Lemma join_obj_empty (a b : ObjType) (m : list AbsLabels) :
  obj_is_empty (join_obj a b m) = obj_is_empty a && obj_is_empty b.
Proof.
  unfold obj_is_empty. destruct a, b; cbn; try done;
    repeat (case_match; simplify_eq; cbn); try done; by rewrite bool_decide_true.
Qed.

Lemma opnd_join_le (t o : TypeSet) (m : list AbsLabels) :
  ts_wf t -> ts_wf o -> opnd_le (opnd t) (opnd (ts_join t o m)).
Proof.
  intros Ht Ho. rewrite ts_join_eq by done. destruct Ht, Ho.
  split; cbn [opnd o_prims o_wild o_range prims fns obj range unknown].
  - by apply subset_of_or_r.
  - rewrite fns_join_empty, join_obj_empty by done.
    destruct (unknown t), (fns_is_empty (fns t)), (obj_is_empty (obj t)), (unknown o); cbn;
      try done; by destruct (fns_is_empty (fns o)), (obj_is_empty (obj o)).
  - by destruct (range t), (range o).
Qed.

(** What an opt-operand becomes when its cell grows. *)
Definition grown (m : list AbsLabels) (b : option TypeSet) (y : TypeSet) : option TypeSet :=
  (fun b => ts_join b y m) <$> b.

Lemma arith_transfer_mono_lemma (op : NumOp) (a x : TypeSet) (b : option TypeSet) (y : TypeSet)
    (m : list AbsLabels) :
  ts_wf a -> ts_wf x -> (forall b', b = Some b' -> ts_wf b') -> ts_wf y ->
  res_le (arith_transfer op a b) (arith_transfer op (ts_join a x m) (grown m b y)).
Proof.
  intros Ha Hx Hb Hy. unfold arith_transfer. apply result_mono_lemma.
  - apply Ha.
  - by apply opnd_join_le.
  - destruct b as [b|]; cbn; [|done]. specialize (Hb b eq_refl). split; [apply Hb|].
    by apply opnd_join_le.
Qed.

(** ** Numeric claims *)

Lemma pure_numeric_spec (t : TypeSet) (p : Prims) :
  pure_numeric t = Some p <->
  p = prims t /\ p_is_empty (prims t) = false /\ subset_of (prims t) NUM = true /\
  unknown t = false /\ fns_is_empty (fns t) = true /\ obj t = OEmpty.
Proof.
  unfold pure_numeric, obj_is_empty. change (p_or PRIM_INT32 PRIM_DOUBLE) with NUM.
  destruct (p_is_empty (prims t)), (subset_of (prims t) NUM), (unknown t), (fns_is_empty (fns t));
    cbn; try naive_solver.
  case_bool_decide; naive_solver.
Qed.

Lemma with_double_first_idemp (c : Claim) : double_first c = true -> with_double_first c = c.
Proof.
  destruct c as [b]. unfold double_first, with_double_first; cbn [claim_bits].
  intros H. f_equal. apply Z.bits_inj'. intros i Hi. rewrite Z.lor_spec.
  destruct (decide (i = 14)) as [->|Hne].
  - change DOUBLE_FIRST_BIT with (2 ^ 14) in *. rewrite Z.pow2_bits_true, orb_true_r by lia.
    symmetry. apply negb_true_iff, Z.eqb_neq in H. destruct (Z.testbit b 14) eqn:E; [done|].
    exfalso. apply H. apply Z.bits_inj'. intros j Hj. rewrite Z.land_spec, Z.bits_0.
    destruct (decide (j = 14)) as [->|]; [by rewrite E|].
    rewrite Z.pow2_bits_false by lia. apply andb_false_r.
  - change DOUBLE_FIRST_BIT with (2 ^ 14). rewrite Z.pow2_bits_false by lia. apply orb_false_r.
Qed.

(** [site_claim] adds nothing to [value_claim]. *)
Lemma site_claim_eq_lemma (t : TypeSet) : site_claim t = value_claim t.
Proof.
  unfold site_claim, value_claim. destruct (pure_numeric t) as [p|] eqn:E.
  - apply pure_numeric_spec in E as (-> & _). f_equal.
    destruct (intersects (prims t) PRIM_DOUBLE && bool_decide (range t = R_Top)) eqn:H.
    + apply andb_true_iff in H as [-> ->]. rewrite andb_true_r.
      destruct (negb _); [|done]. apply with_double_first_idemp, with_double_first_prims.
    + rewrite <- andb_assoc, H, andb_false_r. done.
  - destruct (_ && _); [|done]. reflexivity.
Qed.

(** The word of a numeric claim: the classes, and the hint exactly when the
    cell is fractional-reachable. *)
Lemma is_object_with_double_first (c : Claim) : is_object (with_double_first c) = false.
Proof.
  unfold is_object, with_double_first; cbn [claim_bits]. apply Z.eqb_neq. intros E.
  assert (Z.testbit (Z.land (Z.lor (claim_bits c) DOUBLE_FIRST_BIT) (not_u 16 TA_MASK)) 14 = false)
    as F by (rewrite E; reflexivity).
  rewrite Z.land_spec, Z.lor_spec, testbit_not_u in F by lia.
  change (Z.testbit DOUBLE_FIRST_BIT 14) with true in F.
  change (Z.testbit TA_MASK 14) with false in F. rewrite orb_true_r in F. done.
Qed.

Lemma numeric_claim_word (t : TypeSet) (c : Claim) :
  p_wf (prims t) -> numeric_claim t = Some c ->
  claim_prims c = prims t /\ double_first c = fractional_reachable t /\ is_object c = false.
Proof.
  intros Hp. unfold numeric_claim, fractional_reachable.
  destruct (pure_numeric t) as [p|] eqn:E; [|done].
  apply pure_numeric_spec in E as (-> & _). pose proof (of_prims_flags _ Hp) as [H1 H2].
  destruct (_ && _); intros [= <-].
  - pose proof (with_double_first_prims (of_prims (prims t))) as [-> ->].
    rewrite of_prims_prims, is_object_with_double_first by done. done.
  - by rewrite of_prims_prims.
Qed.

(** ** Every claim covers every arrival *)

(** Which typesets a claim word is right about, the flag [unknown] aside: an
    object claim where no primitive is seen, a primitive claim where nothing
    but its classes is. *)
Definition claim_names (c : Claim) (t : TypeSet) : Prop :=
  if is_object c then prims t = EMPTY
  else fns_is_empty (fns t) = true /\ obj t = OEmpty /\
       subset_of (prims t) (claim_prims c) = true.

Definition claim_covers (c : Claim) (t : TypeSet) : Prop := unknown t = false /\ claim_names c t.

Lemma claim_OBJECT_object : is_object claim_OBJECT = true.
Proof. reflexivity. Qed.

Lemma p_or_empty (a b : Prims) : p_is_empty (p_or a b) = true -> a = EMPTY /\ b = EMPTY.
Proof.
  destruct a as [x], b as [y]. unfold p_is_empty, p_or, EMPTY; cbn [bits].
  intros H%Z.eqb_eq. apply Z.lor_eq_0_iff in H as [-> ->]. done.
Qed.

Lemma value_claim_numeric (t : TypeSet) (p : Prims) :
  pure_numeric t = Some p -> value_claim t = numeric_claim t.
Proof. intros H. unfold value_claim, numeric_claim. by rewrite H. Qed.

(** The cases of [value_claim_full]. *)
Lemma value_claim_full_cases (t : TypeSet) (c : Claim) :
  p_wf (prims t) -> value_claim_full t = Some c ->
  unknown t = false /\
  ((is_object c = true /\ prims t = EMPTY) \/
   (is_object c = false /\ claim_prims c = prims t /\
    fns_is_empty (fns t) = true /\ obj t = OEmpty)).
Proof.
  intros Hp. unfold value_claim_full.
  assert (forall q, p_wf q -> pure_single_prim t q = true ->
    unknown t = false /\
    ((is_object (of_prims q) = true /\ prims t = EMPTY) \/
     (is_object (of_prims q) = false /\ claim_prims (of_prims q) = prims t /\
      fns_is_empty (fns t) = true /\ obj t = OEmpty))) as Hsingle.
  { intros q Hq H. unfold pure_single_prim, obj_is_empty, p_eqb in H. zify_bool.
    split; [done|]. right. rewrite of_prims_prims by done.
    split_and!; [by apply of_prims_flags| |done|done].
    destruct q, (prims t); cbn in *; congruence. }
  destruct (pure_single_prim t PRIM_STRING) eqn:E1.
  { intros [= <-]. by apply Hsingle. }
  destruct (pure_single_prim t PRIM_BOOLEAN) eqn:E2.
  { intros [= <-]. by apply Hsingle. }
  destruct (pure_single_prim t PRIM_SYMBOL) eqn:E3.
  { intros [= <-]. by apply Hsingle. }
  destruct (pure_numeric t) as [p|] eqn:E.
  - rewrite (value_claim_numeric _ _ E). intros H.
    pose proof (numeric_claim_word t c Hp H) as (H1 & H2 & H3).
    apply pure_numeric_spec in E as (_ & _ & _ & Hu & Hf & Ho). auto 6.
  - unfold value_claim. rewrite E. destruct (_ && _) eqn:H; [|done]. intros [= <-]. zify_bool.
    split; [done|]. left. split; [done|]. destruct (prims t); unfold p_is_empty in *; cbn in *.
    zify_bool. by subst.
Qed.

Lemma claim_covers_arrivals_lemma (t o : TypeSet) (m : list AbsLabels) (c : Claim) :
  ts_wf t -> ts_wf o -> value_claim_full (ts_join t o m) = Some c ->
  claim_covers c t /\ claim_covers c o.
Proof.
  intros Ht Ho H. apply value_claim_full_cases in H; [|by apply ts_join_wf].
  rewrite ts_join_eq in H by done. cbn [prims fns obj range unknown interval] in H.
  destruct H as [[Hut Huo]%orb_false_iff [[Hc Hp]|(Hc & Hp & Hf & Hb)]].
  - unfold claim_covers, claim_names. rewrite Hc. assert (p_is_empty (p_or (prims t) (prims o)) = true) as E
      by (by rewrite Hp). apply p_or_empty in E as [-> ->]. done.
  - destruct Ht, Ho. rewrite fns_join_empty in Hf by done. apply andb_true_iff in Hf as [Hf1 Hf2].
    assert (obj_is_empty (join_obj (obj t) (obj o) m) = true) as E by (by rewrite Hb).
    rewrite join_obj_empty in E. apply andb_true_iff in E as [E1 E2].
    unfold obj_is_empty in *. apply bool_decide_eq_true in E1, E2.
    unfold claim_covers, claim_names. rewrite Hc, Hp. split_and!; try done.
    + by apply subset_of_or_r.
    + rewrite p_or_comm. by apply subset_of_or_r.
Qed.

(** ** Agreement is order-independent *)

Section Agreement.
  Context {V : Type} `{EqDecision V}.

Definition agreed_all (vs : list V) : Agreed V := fold_left agreed_observe vs Unset.

(** The reference: nothing, the one value everything equals, or conflict. *)
Definition agreed_ref (vs : list V) : Agreed V :=
  match vs with
  | [] => Unset
  | v :: vs => if forallb (fun w => bool_decide (v = w)) vs then AOne v else Conflict
  end.

Lemma agreed_all_ref (vs : list V) : agreed_all vs = agreed_ref vs.
Proof.
  assert (forall vs : list V, fold_left agreed_observe vs Conflict = Conflict) as Hc
    by (intros l; induction l; cbn; done).
  destruct vs as [|v vs]; [done|]. unfold agreed_all; cbn.
  induction vs as [|w vs IH]; cbn; [done|].
  case_bool_decide; cbn; [done|]. apply Hc.
Qed.

Lemma agreed_perm_lemma (vs ws : list V) : vs ≡ₚ ws -> agreed_all vs = agreed_all ws.
Proof.
  intros Hp. rewrite !agreed_all_ref.
  assert (forall (vs : list V) v, agreed_ref vs = AOne v <-> v ∈ vs /\ forall w, w ∈ vs -> w = v) as H1.
  { intros [|x l] v; cbn.
    - split; [done|]. intros [?%not_elem_of_nil _]. done.
    - destruct (forallb _ l) eqn:E.
      + rewrite forallb_forall in E. split.
        * intros [= ->]. split; [set_solver|]. intros w [->|Hw]%elem_of_cons; [done|].
          apply list_elem_of_In in Hw. specialize (E _ Hw). by apply bool_decide_eq_true in E.
        * intros [_ Hall]. f_equal. apply Hall. set_solver.
      + split; [done|]. intros [Hin Hall]. exfalso. apply not_true_iff_false in E. apply E.
        apply forallb_forall. intros w Hw. apply bool_decide_eq_true.
        rewrite (Hall x), (Hall w); [done|apply elem_of_cons; right; by apply list_elem_of_In|set_solver]. }
  destruct (agreed_ref vs) as [|v|] eqn:E.
  - destruct vs; [|cbn in E; by destruct (forallb _ _)]. apply Permutation_nil in Hp. by subst.
  - symmetry. apply H1 in E as [? ?]. apply H1. setoid_rewrite <- Hp. done.
  - destruct (agreed_ref ws) as [|w|] eqn:E'; [|exfalso|done].
    + destruct ws; [|cbn in E'; by destruct (forallb _ _)].
      symmetry in Hp. apply Permutation_nil in Hp. by subst.
    + apply H1 in E'. setoid_rewrite <- Hp in E'. apply H1 in E'. congruence.
Qed.

(** [AgreedSet]: the distinct members in arrival order, up to the cap. *)
Definition agreed_set_all (cap : nat) (vs : list V) : AgreedSet V :=
  fold_left (agreed_set_observe cap) vs SUnset.

Fixpoint distinct (acc vs : list V) : list V :=
  match vs with
  | [] => acc
  | v :: vs => distinct (if bool_decide (v ∈ acc) then acc else acc ++ [v]) vs
  end.

Lemma distinct_length (vs acc : list V) : (length acc <= length (distinct acc vs))%nat.
Proof.
  revert acc. induction vs as [|v vs IH]; intros acc; cbn; [done|].
  case_bool_decide; [apply IH|]. specialize (IH (acc ++ [v])). rewrite length_app in IH.
  cbn in IH. lia.
Qed.

Lemma agreed_set_spec (cap : nat) (vs : list V) (v : V) :
  (1 <= cap)%nat ->
  agreed_set_all cap (v :: vs) =
    if (length (distinct [v] vs) <=? cap)%nat then SSome (distinct [v] vs) else SConflict.
Proof.
  intros Hcap. unfold agreed_set_all. cbn [fold_left agreed_set_observe].
  assert (forall vs : list V, fold_left (agreed_set_observe cap) vs SConflict = SConflict) as Hc
    by (intros l; induction l; cbn; done).
  assert (length [v] <= cap)%nat as Hl by (cbn; lia). revert Hl.
  generalize [v]. induction vs as [|w vs IH]; intros acc Hl; cbn [fold_left distinct].
  - by rewrite (proj2 (Nat.leb_le _ _)).
  - cbn [agreed_set_observe]. case_bool_decide; [by apply IH|].
    destruct (Nat.ltb_spec (length acc) cap).
    + apply IH. rewrite length_app. cbn. lia.
    + rewrite Hc. symmetry. case_match eqn:E; [|done]. apply Nat.leb_le in E.
      pose proof (distinct_length vs (acc ++ [w])) as Hd. rewrite length_app in Hd. cbn in Hd. lia.
Qed.

End Agreement.
