(* ===== verification/IntervalSound.v ===== *)
(** * IntervalSound: the interval algebra against binary64

    [gamma iv v] is the contract of [opsem.rs]'s [Iv]: [v] is an integer
    inside the bounds, or a negative zero where the flag admits one. Every
    transfer rule of [OpSem.v] is sound for it against [Float64.v]. *)

From S2P Require Import Prelude OpSem Types FnSets TypeLattice.
From S2P Require Import Float64.
From Corelib Require Import SpecFloat.

(** ** The contract *)

Definition gamma (iv : Iv) (v : num) : Prop :=
  match iv with
  | None => True
  | Some (l, h, nz) =>
      (exists z, l <= z <= h /\ v = of_Z z) \/ (nz = true /\ l <= 0 <= h /\ v = neg_zero)
  end.

(** Ordered bounds within [2^53]. *)
Definition iv_wf (iv : Iv) : Prop :=
  match iv with
  | None => True
  | Some (l, h, _) => l <= h /\ - IV_LIM <= l /\ h <= IV_LIM
  end.

(** The one shape [iv_mul] does not flag: a factor that may be [-0] but not
    negative, times the constant [0]. *)
Definition mul_gap (a b : Iv) : Prop :=
  match a, b with
  | Some (al, ah, an), Some (bl, bh, bn) =>
      (an = true /\ al = 0 /\ bl = 0 /\ bh = 0) \/ (bn = true /\ bl = 0 /\ al = 0 /\ ah = 0)
  | _, _ => False
  end.

(** ** Machine arithmetic stays exact *)

Lemma i64_add_small (a b : Z) :
  Z.abs a <= IV_LIM -> Z.abs b <= IV_LIM -> i64_add a b = a + b.
Proof. intros. apply wrap_s_small; unfold in_s, IV_LIM in *; lia. Qed.
Lemma i64_sub_small (a b : Z) :
  Z.abs a <= IV_LIM -> Z.abs b <= IV_LIM -> i64_sub a b = a - b.
Proof. intros. apply wrap_s_small; unfold in_s, IV_LIM in *; lia. Qed.
Lemma i64_neg_small (a : Z) : Z.abs a <= IV_LIM -> i64_neg a = - a.
Proof. intros. apply wrap_s_small; unfold in_s, IV_LIM in *; lia. Qed.

Lemma i64_shl_small (a k : Z) :
  I32_LO <= a <= I32_HI -> 0 <= k <= 31 -> i64_shl a k = a * 2 ^ k.
Proof.
  intros Ha Hk. unfold i64_shl. rewrite Z.shiftl_mul_pow2 by lia.
  assert (2 ^ k <= 2 ^ 31) by (apply Z.pow_le_mono_r; lia).
  assert (0 < 2 ^ k) by (apply Z.pow_pos_nonneg; lia).
  apply wrap_s_small; [lia|]. unfold in_s, I32_LO, I32_HI in *. nia.
Qed.

Lemma iv_ok_spec (l h : Z) (nz : bool) (iv : Iv) :
  iv_ok l h nz = iv ->
  (iv = Some (l, h, nz) /\ l <= h /\ - IV_LIM <= l /\ h <= IV_LIM) \/ iv = None.
Proof.
  unfold iv_ok. rewrite i64_neg_small by (unfold IV_LIM; lia). intros <-.
  destruct (_ && _) eqn:E; [|by right]. zify_bool. left. auto.
Qed.

Lemma iv_ok_wf (l h : Z) (nz : bool) : iv_wf (iv_ok l h nz).
Proof.
  destruct (iv_ok_spec l h nz _ eq_refl) as [(-> & ?)| ->]; simpl; auto.
Qed.

(** Soundness of a checked bound pair follows from soundness of the bounds. *)
Lemma gamma_iv_ok (l h : Z) (nz : bool) (v : num) :
  (l <= h -> - IV_LIM <= l -> h <= IV_LIM -> gamma (Some (l, h, nz)) v) ->
  gamma (iv_ok l h nz) v.
Proof. destruct (iv_ok_spec l h nz _ eq_refl) as [(-> & ? & ? & ?)| ->]; simpl; auto. Qed.

Lemma in_lim (l h z : Z) : - IV_LIM <= l -> h <= IV_LIM -> l <= z <= h -> small z.
Proof. unfold small, LIM, IV_LIM. lia. Qed.

#[export] Hint Resolve in_lim : night.

(** Values of a wf interval: an exact integer or the negative zero. *)
Lemma gamma_cases (l h : Z) (nz : bool) (v : num) :
  iv_wf (Some (l, h, nz)) -> gamma (Some (l, h, nz)) v ->
  (exists z, l <= z <= h /\ small z /\ v = of_Z z) \/ (nz = true /\ l <= 0 <= h /\ v = neg_zero).
Proof.
  intros (H1 & H2 & H3) [(z & Hz & ->)|H]; [left|by right]. exists z. eauto with night.
Qed.

Lemma gamma_int (l h : Z) (nz : bool) (z : Z) (v : num) :
  v = of_Z z -> l <= z <= h -> gamma (Some (l, h, nz)) v.
Proof. intros -> H. left. eauto. Qed.

(** ** Arithmetic rules *)

Lemma add_zero_l (s : bool) (z : Z) :
  small z -> s = true -> f64_add (S754_zero s) (of_Z z) = of_Z z.
Proof.
  intros Hz ->. destruct (decide (z = 0)) as [->|Hn]; [reflexivity|].
  unfold small in *. rewrite of_Z_finite by lia. reflexivity.
Qed.
Lemma add_zero_r (z : Z) : small z -> f64_add (of_Z z) neg_zero = of_Z z.
Proof.
  intros Hz. destruct (decide (z = 0)) as [->|Hn]; [reflexivity|].
  unfold small in *. rewrite of_Z_finite by lia. reflexivity.
Qed.

Lemma iv_add_sound (a b : Iv) (v w : num) :
  iv_wf a -> iv_wf b -> gamma a v -> gamma b w -> gamma (iv_add a b) (f64_add v w).
Proof.
  destruct a as [[[al ah] an]|], b as [[[bl bh] bn]|]; try (intros; exact I).
  intros Wa Wb Ha Hb. pose proof Wa as (?&?&?). pose proof Wb as (?&?&?).
  unfold iv_add. rewrite !i64_add_small by (unfold IV_LIM in *; lia).
  apply gamma_iv_ok. intros _ Hl Hh.
  apply gamma_cases in Ha as [(x & Hx & Sx & ->)|(-> & Hx & ->)]; [| |exact Wa];
  apply gamma_cases in Hb as [(y & Hy & Sy & ->)|(-> & Hy & ->)]; try exact Wb.
  - eapply gamma_int with (z := x + y); [|lia].
    apply f64_add_exact; auto. eapply in_lim; [exact Hl|exact Hh|lia].
  - apply gamma_int with (z := x); [by apply add_zero_r|lia].
  - apply gamma_int with (z := y); [by apply add_zero_l|lia].
  - right. repeat split; lia.
Qed.

Lemma iv_sub_sound (a b : Iv) (v w : num) :
  iv_wf a -> iv_wf b -> gamma a v -> gamma b w -> gamma (iv_sub a b) (f64_sub v w).
Proof.
  destruct a as [[[al ah] an]|], b as [[[bl bh] bn]|]; try (intros; exact I).
  intros Wa Wb Ha Hb. pose proof Wa as (?&?&?). pose proof Wb as (?&?&?).
  unfold iv_sub. rewrite !i64_sub_small by (unfold IV_LIM in *; lia).
  apply gamma_iv_ok. intros _ Hl Hh.
  apply gamma_cases in Ha as [(x & Hx & Sx & ->)|(-> & Hx & ->)]; [| |exact Wa];
  apply gamma_cases in Hb as [(y & Hy & Sy & ->)|(-> & Hy & ->)]; try exact Wb.
  - eapply gamma_int with (z := x - y); [|lia].
    apply f64_sub_exact; auto. eapply in_lim; [exact Hl|exact Hh|lia].
  - apply gamma_int with (z := x); [|lia].
    destruct (decide (x = 0)) as [->|Hn]; [reflexivity|].
    unfold small in *. rewrite of_Z_finite by lia. reflexivity.
  - destruct (decide (y = 0)) as [->|Hn]; [right; repeat split; lia|].
    apply gamma_int with (z := - y); [|lia].
    rewrite <- f64_neg_exact by done. unfold small in *. rewrite of_Z_finite by lia. reflexivity.
  - apply gamma_int with (z := 0); [reflexivity|lia].
Qed.

Lemma iv_neg_sound (a : Iv) (v : num) : iv_wf a -> gamma a v -> gamma (iv_neg a) (f64_neg v).
Proof.
  destruct a as [[[al ah] an]|]; [|done]. intros Wa Ha. pose proof Wa as (?&?&?).
  unfold iv_neg. rewrite !i64_neg_small by (unfold IV_LIM in *; lia).
  apply gamma_iv_ok. intros _ Hl Hh.
  apply gamma_cases in Ha as [(x & Hx & Sx & ->)|(-> & Hx & ->)]; [| |exact Wa].
  - destruct (decide (x = 0)) as [->|Hn].
    + right. repeat split; [|lia|lia]. apply andb_true_iff. rewrite !Z.leb_le. lia.
    + apply gamma_int with (z := - x); [|lia]. by apply f64_neg_exact.
  - apply gamma_int with (z := 0); [reflexivity|lia].
Qed.

Lemma iv_mod_sound (a b : Iv) (v w : num) :
  iv_wf a -> iv_wf b -> gamma a v -> gamma b w -> gamma (iv_mod a b) (f64_rem v w).
Proof.
  destruct a as [[[al ah] an]|], b as [[[bl bh] bn]|]; try (intros; exact I).
  intros Wa Wb Ha Hb. pose proof Wa as (?&?&?). pose proof Wb as (?&?&?).
  unfold iv_mod. destruct (_ || _) eqn:E; [exact I|]. zify_bool. subst an.
  apply andb_false_iff in H6. rewrite !Z.leb_gt in H6.
  apply gamma_cases in Ha as [(x & Hx & Sx & ->)|(? & ? & ?)]; [|done|exact Wa].
  apply gamma_cases in Hb as [(y & Hy & Sy & ->)|(_ & Hy & _)]; [|lia|exact Wb].
  rewrite i64_sub_small by (unfold IV_LIM in *; lia).
  apply gamma_iv_ok. intros _ _ _. apply gamma_int with (z := Z.rem x y).
  - apply f64_rem_exact; auto; lia.
  - assert (y <> 0) as Hy0 by lia.
    destruct (Z.rem_bound_pos x (Z.abs y)) as [G1 G2]; [lia|lia|].
    rewrite Z.rem_abs_r in G1, G2 by done.
    assert (Z.rem x y <= x); [|lia]. rewrite <- Z.rem_abs_r by done.
    apply Z.rem_le; lia.
Qed.

(** A product of bounded factors lies between the extreme corners. *)
Lemma corners_bound (al ah bl bh x y : Z) :
  al <= x <= ah -> bl <= y <= bh ->
  Z.min (Z.min (al * bl) (al * bh)) (Z.min (ah * bl) (ah * bh)) <= x * y
  <= Z.max (Z.max (al * bl) (al * bh)) (Z.max (ah * bl) (ah * bh)).
Proof.
  intros Hx Hy.
  assert (Z.min (x * bl) (x * bh) <= x * y <= Z.max (x * bl) (x * bh)) as H1
    by (destruct (Z_le_gt_dec 0 x); nia).
  assert (Z.min (al * bl) (ah * bl) <= x * bl <= Z.max (al * bl) (ah * bl)) as H2
    by (destruct (Z_le_gt_dec 0 bl); nia).
  assert (Z.min (al * bh) (ah * bh) <= x * bh <= Z.max (al * bh) (ah * bh)) as H3
    by (destruct (Z_le_gt_dec 0 bh); nia).
  lia.
Qed.

Lemma mul_corners_spec (al ah bl bh l h : Z) :
  mul_corners al ah bl bh = Some (l, h) ->
  l <= Z.min (Z.min (al * bl) (al * bh)) (Z.min (ah * bl) (ah * bh))
  /\ Z.max (Z.max (al * bl) (al * bh)) (Z.max (ah * bl) (ah * bh)) <= h.
Proof.
  unfold mul_corners, i64_checked_mul. cbn [fold_left fst snd].
  repeat case_match; intros; simplify_eq; lia.
Qed.

(** The flag of [iv_mul]. *)
Definition mul_nz (al ah : Z) (an : bool) (bl bh : Z) (bn : bool) : bool :=
  ((al <=? 0) && (0 <=? ah) && (bl <? 0)) || ((bl <=? 0) && (0 <=? bh) && (al <? 0))
  || (an && (0 <? bh)) || (bn && (0 <? ah)).

Lemma mul_nz_spec (al ah : Z) (an : bool) (bl bh : Z) (bn : bool) :
  mul_nz al ah an bl bh bn = true <->
  (al <= 0 /\ 0 <= ah /\ bl < 0) \/ (bl <= 0 /\ 0 <= bh /\ al < 0)
  \/ (an = true /\ 0 < bh) \/ (bn = true /\ 0 < ah).
Proof.
  unfold mul_nz. rewrite !orb_true_iff, !andb_true_iff, !Z.leb_le, !Z.ltb_lt. tauto.
Qed.

(** A zero product: [-0] only when flagged. *)
Lemma gamma_zero (l h : Z) (nz s : bool) :
  l <= 0 <= h -> (s = true -> nz = true) -> gamma (Some (l, h, nz)) (S754_zero s).
Proof.
  intros H Hs. destruct s; [right; auto|]. apply gamma_int with (z := 0); [reflexivity|done].
Qed.

Lemma iv_mul_sound (a b : Iv) (v w : num) :
  iv_wf a -> iv_wf b -> ~ mul_gap a b -> gamma a v -> gamma b w ->
  gamma (iv_mul a b) (f64_mul v w).
Proof.
  destruct a as [[[al ah] an]|], b as [[[bl bh] bn]|]; try (intros; exact I).
  intros Wa Wb Hgap Ha Hb. pose proof Wa as (?&?&?). pose proof Wb as (?&?&?).
  unfold iv_mul. cbv zeta.
  change (gamma (match mul_corners al ah bl bh with
                 | Some (l, h) => iv_ok l h (mul_nz al ah an bl bh bn)
                 | None => None end) (f64_mul v w)).
  destruct (mul_corners al ah bl bh) as [[l h]|] eqn:E; [|exact I].
  apply mul_corners_spec in E as [El Eh].
  apply gamma_iv_ok. intros _ Hl Hh. simpl in Hgap.
  assert (forall x y, al <= x <= ah -> bl <= y <= bh -> l <= x * y <= h) as Hb2.
  { intros x y Hx Hy. pose proof (corners_bound _ _ _ _ x y Hx Hy). lia. }
  apply gamma_cases in Ha as [(x & Hx & Sx & ->)|(-> & Hx & ->)]; [| |exact Wa];
  apply gamma_cases in Hb as [(y & Hy & Sy & ->)|(-> & Hy & ->)]; try exact Wb.
  - specialize (Hb2 x y Hx Hy). destruct (decide (x = 0)) as [->|Hx0].
    { change (of_Z 0) with (S754_zero false). rewrite f64_mul_zero_l by done. apply gamma_zero; [lia|].
      rewrite xorb_false_l, Z.ltb_lt, mul_nz_spec. lia. }
    destruct (decide (y = 0)) as [->|Hy0].
    { change (of_Z 0) with (S754_zero false). rewrite f64_mul_zero_r by done. apply gamma_zero; [lia|].
      rewrite xorb_false_r, Z.ltb_lt, mul_nz_spec. lia. }
    apply gamma_int with (z := x * y); [|done]. apply f64_mul_exact; auto; [|nia].
    eapply in_lim; [exact Hl|exact Hh|done].
  - specialize (Hb2 x 0 Hx Hy). unfold neg_zero. rewrite f64_mul_zero_r by done.
    apply gamma_zero; [lia|]. rewrite mul_nz_spec, xorb_true_r, negb_true_iff, Z.ltb_ge.
    intros. destruct (decide (0 < ah)); [tauto|]. assert (ah = 0 /\ x = 0) as [-> ->] by lia.
    destruct (decide (al < 0)); [lia|]. destruct (decide (bl < 0)); [lia|].
    destruct Hgap. right. lia.
  - specialize (Hb2 0 y Hx Hy). unfold neg_zero. rewrite f64_mul_zero_l by done.
    apply gamma_zero; [lia|]. rewrite mul_nz_spec, xorb_true_l, negb_true_iff, Z.ltb_ge.
    intros. destruct (decide (0 < bh)); [tauto|]. assert (bh = 0 /\ y = 0) as [-> ->] by lia.
    destruct (decide (bl < 0)); [lia|]. destruct (decide (al < 0)); [lia|].
    destruct Hgap. left. lia.
  - specialize (Hb2 0 0 Hx Hy). apply (gamma_zero l h _ false); [lia|done].
Qed.

(** ** Bit rules *)

Lemma in_s_shiftr (z : Z) : in_s 32 z <-> Z.shiftr z 31 = 0 \/ Z.shiftr z 31 = -1.
Proof.
  rewrite Z.shiftr_div_pow2 by lia. unfold in_s. change (2 ^ (32 - 1)) with (2 ^ 31). split.
  - intros H. destruct (Z_le_gt_dec 0 z).
    + left. apply Z.div_small. lia.
    + right. pose proof (Z.div_mod z (2 ^ 31) ltac:(lia)). pose proof (Z.mod_pos_bound z (2 ^ 31)).
      nia.
  - pose proof (Z.div_mod z (2 ^ 31) ltac:(lia)). pose proof (Z.mod_pos_bound z (2 ^ 31) ltac:(lia)).
    lia.
Qed.

(** Closure of the int32 domain under a bitwise operator. *)
Lemma in_s_bitop (f : Z -> Z -> Z) (x y : Z) :
  (forall a b, Z.shiftr (f a b) 31 = f (Z.shiftr a 31) (Z.shiftr b 31)) ->
  (forall a b, In a [0; -1] -> In b [0; -1] -> In (f a b) [0; -1]) ->
  in_s 32 x -> in_s 32 y -> in_s 32 (f x y).
Proof.
  intros Hs Hc. rewrite !in_s_shiftr, Hs. intros Hx Hy.
  destruct (Hc (Z.shiftr x 31) (Z.shiftr y 31)) as [E|[E|[]]]; simpl; try (symmetry in E; tauto);
    [destruct Hx; auto|destruct Hy; auto].
Qed.

Ltac bit_closed :=
  intros a b Ha Hb; repeat destruct Ha as [<-|Ha]; try (destruct Ha; fail);
  repeat destruct Hb as [<-|Hb]; try (destruct Hb; fail); cbv; auto.

Lemma in_s_land (x y : Z) : in_s 32 x -> in_s 32 y -> in_s 32 (Z.land x y).
Proof. apply in_s_bitop; [intros; apply Z.shiftr_land|bit_closed]. Qed.
Lemma in_s_lor (x y : Z) : in_s 32 x -> in_s 32 y -> in_s 32 (Z.lor x y).
Proof. apply in_s_bitop; [intros; apply Z.shiftr_lor|bit_closed]. Qed.
Lemma in_s_lxor (x y : Z) : in_s 32 x -> in_s 32 y -> in_s 32 (Z.lxor x y).
Proof. apply in_s_bitop; [intros; apply Z.shiftr_lxor|bit_closed]. Qed.
Lemma in_s_lnot (x : Z) : in_s 32 x -> in_s 32 (Z.lnot x).
Proof. unfold in_s, Z.lnot. lia. Qed.

#[export] Hint Resolve in_s_land in_s_lor in_s_lxor in_s_lnot to_int32_range to_uint32_range
  wrap_s_range : night.

Lemma gamma_i32 (z : Z) : in_s 32 z -> gamma IV_I32 (of_Z z).
Proof.
  intros H. apply gamma_int with (z := z); [done|]. unfold in_s, I32_LO, I32_HI in *. lia.
Qed.
#[export] Hint Resolve gamma_i32 : night.

(** ToInt32 is the identity on an interval inside int32, and reads [-0] as 0. *)
Lemma to_int32_gamma (l h : Z) (nz : bool) (v : num) :
  I32_LO <= l -> h <= I32_HI -> gamma (Some (l, h, nz)) v -> l <= to_int32 v <= h.
Proof.
  intros Hl Hh [(z & Hz & ->)|(_ & H0 & ->)]; unfold I32_LO, I32_HI in *.
  - rewrite to_int32_of_Z by (unfold small, LIM; lia).
    rewrite wrap_s_small; unfold in_s; lia.
  - change (to_int32 neg_zero) with 0. done.
Qed.

Lemma to_uint32_gamma (l h : Z) (nz : bool) (v : num) :
  0 <= l -> h <= I32_HI -> gamma (Some (l, h, nz)) v -> l <= to_uint32 v <= h.
Proof.
  intros Hl Hh [(z & Hz & ->)|(_ & H0 & ->)]; unfold I32_HI in *.
  - rewrite to_uint32_of_Z by (unfold small, LIM; lia).
    rewrite wrap_u_small; unfold in_u; lia.
  - change (to_uint32 neg_zero) with 0. done.
Qed.

Lemma iv_nonneg_i32_spec (a : Iv) (v : num) :
  iv_nonneg_i32 a = true -> gamma a v ->
  exists l h nz, a = Some (l, h, nz) /\ 0 <= l /\ h <= I32_HI /\ l <= to_int32 v <= h.
Proof.
  destruct a as [[[l h] nz]|]; [|done]. simpl. intros H Hv. zify_bool.
  exists l, h, nz. repeat split; auto; eapply to_int32_gamma; eauto; unfold I32_LO; lia.
Qed.

Lemma iv_bitand_sound (a b : Iv) (v w : num) :
  gamma a v -> gamma b w -> gamma (iv_bitand a b) (js_bitand v w).
Proof.
  intros Ha Hb. unfold iv_bitand, js_bitand.
  destruct (iv_nonneg_i32 a) eqn:Ea; destruct (iv_nonneg_i32 b) eqn:Eb;
    [| | |auto with night];
    try (destruct (iv_nonneg_i32_spec _ _ Ea Ha) as (l & h & nz & -> & ? & ? & ?));
    try (destruct (iv_nonneg_i32_spec _ _ Eb Hb) as (l' & h' & nz' & -> & ? & ? & ?));
    (eapply gamma_int; [reflexivity|]); simpl iv_hi;
    try pose proof (land_bound (to_int32 v) (to_int32 w) ltac:(lia));
    try (pose proof (land_bound (to_int32 w) (to_int32 v) ltac:(lia)) as G; rewrite Z.land_comm in G);
    lia.
Qed.

(** Or and xor of values below a power of two stay below it. *)
Lemma bitop_below_pow (f : Z -> Z -> Z) (x y k : Z) :
  (forall i, Z.testbit (f x y) i = true -> Z.testbit x i = true \/ Z.testbit y i = true) ->
  0 <= f x y -> 0 <= k -> 0 <= x < 2 ^ k -> 0 <= y < 2 ^ k -> f x y < 2 ^ k.
Proof.
  intros Hf H0 Hk Hx Hy. destruct (decide (f x y = 0)) as [->|Hn]; [lia|].
  apply Z.log2_lt_pow2; [lia|]. apply Z.nle_gt. intros Hle.
  pose proof (Z.bit_log2 (f x y) ltac:(lia)) as Hb. apply Hf in Hb as [Hb|Hb];
    rewrite (testbit_above k) in Hb by (auto; lia); done.
Qed.

Lemma iv_bitorxor_sound (f : Z -> Z -> Z) (a b : Iv) (v w : num) :
  (forall x y i, Z.testbit (f x y) i = true -> Z.testbit x i = true \/ Z.testbit y i = true) ->
  (forall x y, 0 <= x -> 0 <= y -> 0 <= f x y) ->
  (forall x y, in_s 32 x -> in_s 32 y -> in_s 32 (f x y)) ->
  gamma a v -> gamma b w -> gamma (iv_bitorxor a b) (of_Z (f (to_int32 v) (to_int32 w))).
Proof.
  intros Hf Hn Hs Ha Hb. unfold iv_bitorxor.
  destruct (_ && _) eqn:E; [|auto with night]. zify_bool.
  destruct (iv_nonneg_i32_spec _ _ H Ha) as (l & h & nz & -> & ? & ? & ?).
  destruct (iv_nonneg_i32_spec _ _ H0 Hb) as (l' & h' & nz' & -> & ? & ? & ?).
  cbn [iv_hi]. set (m := Z.max h h').
  eapply gamma_int; [reflexivity|]. split; [apply Hn; lia|].
  pose proof (Hs (to_int32 v) (to_int32 w) (to_int32_range v) (to_int32_range w)) as Hr.
  destruct (next_power_of_two_pow (m + 1)) as (k & Hk & Ek).
  pose proof (next_power_of_two_ge (m + 1)). rewrite Ek in *.
  assert (f (to_int32 v) (to_int32 w) < 2 ^ k).
  { apply bitop_below_pow; [apply Hf|apply Hn; lia|done| |]; unfold m in *; lia. }
  unfold in_s, I32_HI in *. lia.
Qed.

Lemma iv_bitor_sound (a b : Iv) (v w : num) :
  gamma a v -> gamma b w -> gamma (iv_bitorxor a b) (js_bitor v w).
Proof.
  apply iv_bitorxor_sound; [|intros; by apply Z.lor_nonneg|auto with night].
  intros x y i. rewrite Z.lor_spec. apply orb_true_iff.
Qed.

Lemma iv_bitxor_sound (a b : Iv) (v w : num) :
  gamma a v -> gamma b w -> gamma (iv_bitorxor a b) (js_bitxor v w).
Proof.
  apply iv_bitorxor_sound; [|intros; apply Z.lxor_nonneg; tauto|auto with night].
  intros x y i. rewrite Z.lxor_spec. destruct (Z.testbit x i), (Z.testbit y i); auto.
Qed.

Lemma iv_bitnot_sound (a : Iv) (v : num) : gamma a v -> gamma (iv_bitnot a) (js_bitnot v).
Proof.
  intros Ha. unfold iv_bitnot, js_bitnot. destruct a as [[[l h] nz]|]; [|auto with night].
  destruct (_ && _) eqn:E; [|auto with night]. zify_bool.
  pose proof (to_int32_gamma l h nz v ltac:(lia) ltac:(lia) Ha).
  assert (l <= h) by lia. unfold I32_LO, I32_HI in *.
  rewrite !i64_neg_small, !i64_sub_small by (unfold IV_LIM; lia).
  eapply gamma_int; [reflexivity|]. unfold Z.lnot. lia.
Qed.

(** A constant shift count inside [0, 31] is the runtime count. *)
Lemma iv_const_count (b : Iv) (k : Z) (w : num) :
  iv_const b = Some k -> 0 <= k <= 31 -> gamma b w -> shift_count w = k.
Proof.
  destruct b as [[[l h] []]|]; try done. simpl. destruct (Z.eqb_spec l h) as [->|]; [|done].
  intros [= ->] Hk [(z & Hz & ->)|(? & _)]; [|done]. assert (z = k) as -> by lia.
  unfold shift_count. rewrite to_uint32_of_Z by (unfold small, LIM; lia).
  rewrite wrap_u_small by (unfold in_u; lia). apply Z.mod_small. lia.
Qed.

(** Case on the [iv_const] test that guards the three shift rules. *)
Ltac shift_case b Hb :=
  let k := fresh "k" in let E := fresh "E" in let R := fresh "R" in
  destruct (iv_const b) as [k|] eqn:E; [destruct ((0 <=? k) && (k <=? 31)) eqn:R|];
  [zify_bool; rewrite (iv_const_count b k _ E ltac:(lia) Hb)|..].

Lemma shiftr_mono (x y k : Z) : 0 <= k -> x <= y -> Z.shiftr x k <= Z.shiftr y k.
Proof. intros Hk H. rewrite !Z.shiftr_div_pow2 by done. apply Z.div_le_mono; lia. Qed.

Lemma in_s_shiftr_any (x k : Z) : 0 <= k -> in_s 32 x -> in_s 32 (Z.shiftr x k).
Proof.
  unfold in_s. change (2 ^ (32 - 1)) with (2 ^ 31). intros Hk Hx.
  rewrite Z.shiftr_div_pow2 by done. assert (0 < 2 ^ k) by (apply Z.pow_pos_nonneg; lia).
  split; [apply Z.div_le_lower_bound; nia|apply Z.div_lt_upper_bound; nia].
Qed.
#[export] Hint Resolve in_s_shiftr_any : night.

Lemma shift_count_range (w : num) : 0 <= shift_count w.
Proof. apply Z.mod_pos_bound. lia. Qed.
#[export] Hint Resolve shift_count_range : night.

Lemma iv_lsh_sound (a b : Iv) (v w : num) :
  gamma a v -> gamma b w -> gamma (iv_lsh a b) (js_lsh v w).
Proof.
  intros Ha Hb. unfold iv_lsh, js_lsh. shift_case b Hb; [|apply gamma_i32, wrap_s_range; lia..].
  destruct a as [[[l h] nz]|]; [|apply gamma_i32, wrap_s_range; lia].
  destruct (_ && _) eqn:E1; [|apply gamma_i32, wrap_s_range; lia]. zify_bool.
  pose proof (to_int32_gamma l h nz v ltac:(lia) ltac:(lia) Ha) as Hx.
  rewrite !i64_shl_small by lia.
  destruct (_ && _) eqn:E2; [|apply gamma_i32, wrap_s_range; lia]. zify_bool.
  rewrite Z.shiftl_mul_pow2 by lia. assert (0 < 2 ^ k) by (apply Z.pow_pos_nonneg; lia).
  assert (l * 2 ^ k <= to_int32 v * 2 ^ k <= h * 2 ^ k) by nia.
  rewrite wrap_s_small by (unfold in_s, I32_LO, I32_HI in *; lia).
  eapply gamma_int; [reflexivity|done].
Qed.

Lemma iv_rsh_sound (a b : Iv) (v w : num) :
  gamma a v -> gamma b w -> gamma (iv_rsh a b) (js_rsh v w).
Proof.
  intros Ha Hb. unfold iv_rsh, js_rsh. shift_case b Hb; [|auto with night..].
  assert (gamma (Some (i64_shr I32_LO k, i64_shr I32_HI k, false)) (of_Z (Z.shiftr (to_int32 v) k))).
  { pose proof (to_int32_range v) as Hr. eapply gamma_int; [reflexivity|]. unfold in_s in Hr.
    split; apply shiftr_mono; unfold I32_LO, I32_HI; lia. }
  destruct a as [[[l h] nz]|]; [|done]. destruct (_ && _) eqn:E1; [|done]. zify_bool.
  pose proof (to_int32_gamma l h nz v ltac:(lia) ltac:(lia) Ha) as Hx.
  eapply gamma_int; [reflexivity|]. split; apply shiftr_mono; lia.
Qed.

Lemma iv_ursh_sound (a b : Iv) (v w : num) :
  gamma a v -> gamma b w -> gamma (iv_ursh a b) (js_ursh v w).
Proof.
  intros Ha Hb. unfold iv_ursh, js_ursh. pose proof (to_uint32_range v) as Hr. unfold in_u in Hr.
  assert (forall k, 0 <= k ->
    gamma (Some (0, Z.shiftr U32_MAX k, false)) (of_Z (Z.shiftr (to_uint32 v) k))) as Hany.
  { intros k Hk. eapply gamma_int; [reflexivity|]. split; [apply Z.shiftr_nonneg; lia|].
    apply shiftr_mono; unfold U32_MAX; lia. }
  assert (forall k, 0 <= k -> Z.shiftr U32_MAX k <= U32_MAX) as Hmax.
  { intros k Hk. rewrite Z.shiftr_div_pow2 by done.
    apply Z.div_le_upper_bound; [apply Z.pow_pos_nonneg; lia|].
    assert (0 < 2 ^ k) by (apply Z.pow_pos_nonneg; lia). unfold U32_MAX. nia. }
  pose proof (shift_count_range w) as Hc.
  assert (gamma (Some (0, U32_MAX, false)) (of_Z (Z.shiftr (to_uint32 v) (shift_count w)))) as Hall.
  { eapply gamma_int; [reflexivity|]. split; [apply Z.shiftr_nonneg; lia|].
    pose proof (Hmax _ Hc). pose proof (shiftr_mono (to_uint32 v) U32_MAX (shift_count w) Hc).
    unfold U32_MAX in *. lia. }
  destruct (iv_const b) as [k|] eqn:E; [|done].
  destruct ((0 <=? k) && (k <=? 31)) eqn:R; [|done]. zify_bool.
  rewrite (iv_const_count b k _ E ltac:(lia) Hb).
  destruct (iv_nonneg_i32 a) eqn:Ea; [|by apply Hany].
  destruct a as [[[l h] nz]|]; [|done]. simpl in Ea. zify_bool.
  pose proof (to_uint32_gamma l h nz v ltac:(lia) ltac:(lia) Ha).
  eapply gamma_int; [reflexivity|]. split; apply shiftr_mono; lia.
Qed.


(** ** The transfer, and the cell-level arith rule *)

Section Transfer.
  (** [Number::exponentiate] is left to the runtime: neither rule set makes a
      claim about it. *)
  Context (js_pow : num -> num -> num).

Definition js_num_op (op : NumOp) (v w : num) : num :=
  match op with
  | Add => f64_add v w
  | Sub => f64_sub v w
  | Mul => f64_mul v w
  | Div => f64_div v w
  | Mod => f64_rem v w
  | Pow => js_pow v w
  | BitAnd => js_bitand v w
  | BitOr => js_bitor v w
  | BitXor => js_bitxor v w
  | Lsh => js_lsh v w
  | Rsh => js_rsh v w
  | Ursh => js_ursh v w
  | BitNot => js_bitnot v
  | Inc => f64_add v (of_Z 1)
  | Dec => f64_sub v (of_Z 1)
  | Neg => f64_neg v
  | Pos | ToNumeric => v
  end.

Definition second (b : option Iv) : Iv := match b with Some b => b | None => None end.

Lemma gamma_one : gamma (Some (1, 1, false)) (of_Z 1).
Proof. apply gamma_int with (z := 1); [done|lia]. Qed.
Lemma wf_one : iv_wf (Some (1, 1, false)).
Proof. cbn. unfold IV_LIM. lia. Qed.

Lemma iv_transfer_sound_lemma (op : NumOp) (a : Iv) (b : option Iv) (u : bool) (v w : num) :
  iv_wf a -> iv_wf (second b) -> (op = Mul -> ~ mul_gap a (second b)) ->
  gamma a v -> gamma (second b) w ->
  gamma (iv_transfer op a b u) (js_num_op op v w).
Proof.
  intros Wa Wb Hgap Ha Hb. unfold iv_transfer. fold (second b).
  destruct (_ && _); [exact I|].
  destruct op; cbn [js_num_op]; try exact I; try done.
  - by apply iv_add_sound.
  - by apply iv_sub_sound.
  - apply iv_mul_sound; auto.
  - by apply iv_mod_sound.
  - apply iv_add_sound; auto using gamma_one, wf_one.
  - apply iv_sub_sound; auto using gamma_one, wf_one.
  - by apply iv_neg_sound.
  - by apply iv_ursh_sound.
  - by apply iv_bitand_sound.
  - by apply iv_bitor_sound.
  - by apply iv_bitxor_sound.
  - by apply iv_lsh_sound.
  - by apply iv_rsh_sound.
  - by apply iv_bitnot_sound.
Qed.

(** The channel reads a negative zero as zero. *)
Definition collapse (v : num) : num := match v with S754_zero _ => S754_zero false | _ => v end.

Definition in_interval (i : Interval) (v : num) : Prop :=
  match i with
  | IEmpty => False
  | IIn r => exists z, lo r <= z <= hi r /\ collapse v = of_Z z
  | INum | IAny => True
  end.

(** An operand's claim: the literal when the constraint carries one. *)
Definition in_operand (h : Interval) (lit : option ValueRange) (v : num) : Prop :=
  match lit with
  | Some r => in_interval (IIn r) v
  | None => in_interval h v
  end.

Definition lit_wf (lit : option ValueRange) : Prop :=
  match lit with Some r => iv_wf (exact_iv r) | None => True end.

Lemma collapse_op (op : NumOp) (v w : num) :
  op <> Div -> op <> Pow ->
  collapse (js_num_op op (collapse v) (collapse w)) = collapse (js_num_op op v w).
Proof.
  intros Hd Hp. destruct op; try done; clear Hd Hp;
    destruct v as [[]|[]| |[] ? ?], w as [[]|[]| |[] ? ?]; reflexivity.
Qed.

Lemma quantized_wf (r : ValueRange) :
  iv_quantized (IIn r) -> - IV_LIM <= lo r /\ hi r <= IV_LIM.
Proof.
  cbn. intros H. apply hq_spec in H. unfold IV_LIM, I32_LO, I32_HI in *. lia.
Qed.

Lemma operand_iv_sound (h : Interval) (lit : option ValueRange) (v : num) :
  iv_quantized h -> lit_wf lit -> in_operand h lit v ->
  exists i, operand_iv h lit = Some i /\ iv_wf i /\ gamma i (collapse v) /\
            (forall l u nz, i = Some (l, u, nz) -> nz = false).
Proof.
  intros Hq Hw Hin. destruct lit as [r|]; cbn in *.
  - exists (exact_iv r). destruct Hin as (z & Hz & E). split_and!; [done|done| |].
    + apply gamma_int with z; [done|lia].
    + by intros ??? [= _ _ <-].
  - destruct h as [|r| |]; [done| |exists None; done|exists None; done].
    exists (exact_iv r). destruct Hin as (z & Hz & E). split_and!; [done| | |].
    + pose proof (quantized_wf r Hq). cbn. lia.
    + apply gamma_int with z; [done|lia].
    + by intros ??? [= _ _ <-].
Qed.

Lemma of_range_sound (l h : Z) (nz : bool) (v v' : num) :
  gamma (Some (l, h, nz)) v' -> collapse v' = collapse v -> in_interval (of_range l h) v.
Proof.
  intros Hg Ec. unfold of_range. destruct (hq l h) as [[a b]|] eqn:Eq; [|done].
  assert (~ (l < I32_LO \/ I32_HI < h)) as Hr by (rewrite <- hq_None; congruence).
  apply hq_spec in Eq. destruct Hg as [(z & Hz & ->)|(_ & H0 & ->)].
  - exists z. cbn [lo hi]. split; [lia|]. rewrite <- Ec.
    assert (small z) as Hs by (unfold small, LIM, I32_LO, I32_HI in *; lia).
    destruct (decide (z = 0)) as [->|Hn]; [reflexivity|].
    unfold small in Hs. by rewrite of_Z_finite by lia.
  - exists 0. cbn [lo hi]. split; [lia|]. by rewrite <- Ec.
Qed.

Lemma arith_interval_sound_lemma (op : NumOp) (a : Interval) (a_lit : option ValueRange)
    (b : option Interval) (b_lit : option ValueRange) (v w : num) :
  iv_quantized a -> lit_wf a_lit ->
  (forall h, b = Some h -> iv_quantized h) -> lit_wf b_lit ->
  in_operand a a_lit v -> (forall h, b = Some h -> in_operand h b_lit w) ->
  in_interval (arith_interval op a a_lit b b_lit) (js_num_op op v w).
Proof.
  intros Qa La Qb Lb Ha Hb. unfold arith_interval.
  destruct (operand_iv_sound a a_lit v Qa La Ha) as (ia & -> & Wa & Ga & Na).
  set (ibo := match b with Some h => Some (operand_iv h b_lit) | None => None end).
  assert (exists ib, match ibo with
      | Some None => False
      | Some (Some iv) => ib = Some iv
      | None => ib = None end /\
    iv_wf (second ib) /\ gamma (second ib) (collapse w) /\
    (forall l u nz, second ib = Some (l, u, nz) -> nz = false)) as (ib & Eb & Wb & Gb & Nb).
  { subst ibo. destruct b as [h|]; [|by exists None].
    destruct (operand_iv_sound h b_lit w (Qb h eq_refl) Lb (Hb h eq_refl)) as (i & -> & ? & ? & ?).
    by exists (Some i). }
  assert (forall x, in_interval (if bool_decide (op = Add) && x then IAny else INum)
    (js_num_op op v w)) as Hun by (intros x; by destruct (_ && x)).
  destruct ibo as [[iv|]|]; [subst ib|done|subst ib].
  all: (destruct (iv_transfer op ia _ true) as [[[l h] nz]|] eqn:Et; [|apply Hun]);
    eapply of_range_sound; [rewrite <- Et; apply iv_transfer_sound_lemma; try done|].
  all: try (intros _ Hg; unfold mul_gap, second in *; destruct ia as [[[? ?] ?]|]; [|done];
    try (destruct iv as [[[? ?] ?]|]; [|done]); try done;
    rewrite (Na _ _ _ eq_refl), (Nb _ _ _ eq_refl) in Hg; naive_solver).
  all: apply collapse_op; intros ->; cbn in Et; discriminate.
Qed.

End Transfer.

(** ** The rule the [nz] flag of a product misses *)

(** A factor that may be a negative zero with lower bound 0, times the
    constant zero: the product of a member is a negative zero, which the
    computed interval excludes. *)
Lemma iv_mul_gap_lemma :
  let a : Iv := Some (0, 5, true) in
  let b : Iv := Some (0, 0, false) in
  iv_wf a /\ iv_wf b /\ gamma a neg_zero /\ gamma b (of_Z 0) /\
  iv_mul a b = Some (0, 0, false) /\ f64_mul neg_zero (of_Z 0) = neg_zero /\
  ~ gamma (iv_mul a b) (f64_mul neg_zero (of_Z 0)).
Proof.
  cbv zeta.
  assert (iv_wf (Some (0, 5, true)) /\ iv_wf (Some (0, 0, false))) as [W1 W2]
    by (cbn; unfold IV_LIM; lia).
  split; [exact W1|]. split; [exact W2|].
  split; [right; split; [done|split; [lia|done]]|].
  split; [left; exists 0; split; [lia|done]|].
  split; [reflexivity|]. split; [reflexivity|].
  change (~ gamma (Some (0, 0, false)) neg_zero). intros [(z & Hz & E)|(H & _)]; [|done].
  assert (z = 0) as -> by lia. discriminate E.
Qed.
