(* ===== verification/Engine.v ===== *)
(** * Engine: the incremental fixpoint engine of [compiler/src/likelier/engine.rs]

    Cells, constraints, subscriptions, standing links, the worklist and the
    class-region union-find, as one state record; every method that changes
    the state as a state-passing function.  [raise], [link] and [join_ts] call
    each other: they are written against the recursive call and tied by fuel
    ([None]: a panic, or not enough fuel; [EngineSound] shows when the fuel
    suffices). *)

From S2P Require Import Prelude OpSem Facts Types.

(** ** Identities and keys *)

Abbreviation CellId := nat.
Abbreviation ConId := Z.
Abbreviation NameId := Z.
Abbreviation VarId := Z.
Abbreviation FormalIndex := Z.
Abbreviation SourceObjectId := Z.
Abbreviation EnvSlot := Z.
Abbreviation Pc := Z.

Definition SEED : ConId := 2 ^ 32 - 1.

Inductive CellKey :=
  | KVar (script : ScriptId) (var : VarId) (ctx : CtxId)
  | KArg (script : ScriptId) (arg : FormalIndex) (ctx : CtxId)
  | KThis (script : ScriptId) (ctx : CtxId)
  | KRet (script : ScriptId) (ctx : CtxId)
  | KGName (name : NameId)
  | KAliased (scope : SourceObjectId) (slot : EnvSlot)
  | KField (abs : AbsId) (name : NameId)
  | KClassField (class : ClassId) (name : NameId)
  | KClassView (class : ClassId) (name : NameId)
  | KProtoSentinel (abs : AbsId)
  | KThisField (script : ScriptId) (name : NameId)
  | KArrayElemsUnion
  | KTableArgJoin (abs : AbsId) (arg : FormalIndex).

#[export] Instance CellKey_eq_dec : EqDecision CellKey.
Proof. solve_decision. Defined.

(** The hash map's key encoding: any injection will do. *)
Definition cellkey_encode (k : CellKey) : Z * Z * Z * nat :=
  match k with
  | KVar s v c => (0, s, v, c)
  | KArg s a c => (1, s, a, c)
  | KThis s c => (2, s, 0, c)
  | KRet s c => (3, s, 0, c)
  | KGName n => (4, n, 0, 0%nat)
  | KAliased s e => (5, s, e, 0%nat)
  | KField a n => (6, n, 0, a)
  | KClassField c n => (7, n, 0, c)
  | KClassView c n => (8, n, 0, c)
  | KProtoSentinel a => (9, 0, 0, a)
  | KThisField s n => (10, s, n, 0%nat)
  | KArrayElemsUnion => (11, 0, 0, 0%nat)
  | KTableArgJoin a f => (12, f, 0, a)
  end.

Definition cellkey_decode (x : Z * Z * Z * nat) : CellKey :=
  let '(t, a, b, c) := x in
  match t with
  | 0 => KVar a b c
  | 1 => KArg a b c
  | 2 => KThis a c
  | 3 => KRet a c
  | 4 => KGName a
  | 5 => KAliased a b
  | 6 => KField c a
  | 7 => KClassField c a
  | 8 => KClassView c a
  | 9 => KProtoSentinel c
  | 10 => KThisField a b
  | 11 => KArrayElemsUnion
  | _ => KTableArgJoin c a
  end.

#[export] Instance CellKey_countable : Countable CellKey.
Proof. apply (inj_countable' cellkey_encode cellkey_decode). by intros []. Defined.

Inductive CKey :=
  | CVar (v : VarId)
  | CArg (a : FormalIndex)
  | CThis
  | CRet
  | CGName (n : NameId)
  | CAliased (scope : SourceObjectId) (slot : EnvSlot).

#[export] Instance CKey_eq_dec : EqDecision CKey.
Proof. solve_decision. Defined.

Inductive ElemBuiltinKind := EB_Write | EB_Read.

Inductive AllocKind :=
  | AK_Plain
  | AK_Array
  | AK_TypedArray (k : TaKind)
  | AK_Snapshot (o : SourceObjectId).

Inductive Constraint :=
  | CMove (src dst : CKey)
  | CConst (dst : CKey) (ts : TypeSet)
  | CRead (recv : CKey) (name : NameId) (dst : CKey) (pc : Pc) (callee_pos : bool)
  | CWrite (recv : CKey) (name : NameId) (src : CKey) (pc : Pc)
  | CCall (callee : CKey) (this_ : option CKey) (args : list CKey) (ret : CKey) (pc : Pc)
      (construct : bool)
  | CApply (target : CKey) (args : list CKey) (arg1_is_arguments : bool) (ret : CKey) (pc : Pc)
      (form : CallForm)
  | CElemBuiltin (recv : CKey) (arg : option CKey) (ret : CKey) (pc : Pc) (kind : ElemBuiltinKind)
  | CAlloc (dst : CKey) (pc : Pc) (kind : AllocKind)
  | CArith (op : NumOp) (a : CKey) (b : option CKey) (dst : CKey)
      (a_lit b_lit : option ValueRange) (pc : Pc).

Inductive ConstraintKind :=
  | CK_Move | CK_Const | CK_Read | CK_Write | CK_Call | CK_Apply | CK_ElemBuiltin | CK_Alloc
  | CK_Arith.

Definition con_kind (c : Constraint) : ConstraintKind :=
  match c with
  | CMove _ _ => CK_Move
  | CConst _ _ => CK_Const
  | CRead _ _ _ _ _ => CK_Read
  | CWrite _ _ _ _ => CK_Write
  | CCall _ _ _ _ _ _ => CK_Call
  | CApply _ _ _ _ _ _ => CK_Apply
  | CElemBuiltin _ _ _ _ _ => CK_ElemBuiltin
  | CAlloc _ _ _ => CK_Alloc
  | CArith _ _ _ _ _ _ _ => CK_Arith
  end.

(** ** The state *)

Record Cell := mkCell { key : CellKey; ts : TypeSet; changes : Z }.

Abbreviation User := (ConId * CtxId)%type.

Record Engine := mkEngine {
  cells : list Cell;
  cell_ids : gmap CellKey CellId;
  cons : list Constraint;
  con_script : list ScriptId;
  script_cons : gmap ScriptId (list ConId);
  live_ctxs : gmap ScriptId (list CtxId);
  worklist : list User;
  inq : gset User;
  subs : gmap CellId (list User);
  sub_set : gset (CellId * ConId * CtxId);
  links : gmap CellId (list CellId);
  link_set : gset (CellId * CellId);
  abs_labels : list AbsLabels;
  n_evals : Z;
  n_raises : Z;
  region_parent : gmap ClassId ClassId;
  region_members : gmap ClassId (list ClassId);
  array_classes : gset ClassId;
  elems_name : option NameId;
  anyobj_why : gmap ConId Z;
  anyobj_first : list (CellKey * ConId);
  sink : JoinSink
}.

Definition engine_default : Engine :=
  mkEngine [] ∅ [] [] ∅ ∅ [] ∅ ∅ ∅ ∅ ∅ [] 0 0 ∅ ∅ ∅ None ∅ [] sink_default.

(** Field updates. *)
Definition set_cells (e : Engine) (c : list Cell) (m : gmap CellKey CellId) : Engine :=
  mkEngine c m (cons e) (con_script e) (script_cons e) (live_ctxs e) (worklist e) (inq e) (subs e)
    (sub_set e) (links e) (link_set e) (abs_labels e) (n_evals e) (n_raises e) (region_parent e)
    (region_members e) (array_classes e) (elems_name e) (anyobj_why e) (anyobj_first e) (sink e).
Definition set_cons (e : Engine) (c : list Constraint) (s : list ScriptId)
    (m : gmap ScriptId (list ConId)) : Engine :=
  mkEngine (cells e) (cell_ids e) c s m (live_ctxs e) (worklist e) (inq e) (subs e)
    (sub_set e) (links e) (link_set e) (abs_labels e) (n_evals e) (n_raises e) (region_parent e)
    (region_members e) (array_classes e) (elems_name e) (anyobj_why e) (anyobj_first e) (sink e).
Definition set_live (e : Engine) (m : gmap ScriptId (list CtxId)) : Engine :=
  mkEngine (cells e) (cell_ids e) (cons e) (con_script e) (script_cons e) m (worklist e) (inq e)
    (subs e) (sub_set e) (links e) (link_set e) (abs_labels e) (n_evals e) (n_raises e)
    (region_parent e) (region_members e) (array_classes e) (elems_name e) (anyobj_why e)
    (anyobj_first e) (sink e).
Definition set_queue (e : Engine) (w : list User) (q : gset User) (evals : Z) : Engine :=
  mkEngine (cells e) (cell_ids e) (cons e) (con_script e) (script_cons e) (live_ctxs e) w q
    (subs e) (sub_set e) (links e) (link_set e) (abs_labels e) evals (n_raises e)
    (region_parent e) (region_members e) (array_classes e) (elems_name e) (anyobj_why e)
    (anyobj_first e) (sink e).
Definition set_subs (e : Engine) (m : gmap CellId (list User)) (s : gset (CellId * ConId * CtxId))
    : Engine :=
  mkEngine (cells e) (cell_ids e) (cons e) (con_script e) (script_cons e) (live_ctxs e)
    (worklist e) (inq e) m s (links e) (link_set e) (abs_labels e) (n_evals e) (n_raises e)
    (region_parent e) (region_members e) (array_classes e) (elems_name e) (anyobj_why e)
    (anyobj_first e) (sink e).
Definition set_links (e : Engine) (m : gmap CellId (list CellId)) (s : gset (CellId * CellId))
    : Engine :=
  mkEngine (cells e) (cell_ids e) (cons e) (con_script e) (script_cons e) (live_ctxs e)
    (worklist e) (inq e) (subs e) (sub_set e) m s (abs_labels e) (n_evals e) (n_raises e)
    (region_parent e) (region_members e) (array_classes e) (elems_name e) (anyobj_why e)
    (anyobj_first e) (sink e).
Definition set_regions (e : Engine) (p : gmap ClassId ClassId) (m : gmap ClassId (list ClassId))
    : Engine :=
  mkEngine (cells e) (cell_ids e) (cons e) (con_script e) (script_cons e) (live_ctxs e)
    (worklist e) (inq e) (subs e) (sub_set e) (links e) (link_set e) (abs_labels e) (n_evals e)
    (n_raises e) p m (array_classes e) (elems_name e) (anyobj_why e) (anyobj_first e) (sink e).
Definition set_sink (e : Engine) (s : JoinSink) : Engine :=
  mkEngine (cells e) (cell_ids e) (cons e) (con_script e) (script_cons e) (live_ctxs e)
    (worklist e) (inq e) (subs e) (sub_set e) (links e) (link_set e) (abs_labels e) (n_evals e)
    (n_raises e) (region_parent e) (region_members e) (array_classes e) (elems_name e)
    (anyobj_why e) (anyobj_first e) s.
Definition set_stats (e : Engine) (raises : Z) (w : gmap ConId Z) (f : list (CellKey * ConId))
    : Engine :=
  mkEngine (cells e) (cell_ids e) (cons e) (con_script e) (script_cons e) (live_ctxs e)
    (worklist e) (inq e) (subs e) (sub_set e) (links e) (link_set e) (abs_labels e) (n_evals e)
    raises (region_parent e) (region_members e) (array_classes e) (elems_name e) w f (sink e).

(** ** Cells *)

Definition lookup_cell (e : Engine) (k : CellKey) : option CellId := cell_ids e !! k.

Definition cell (e : Engine) (k : CellKey) : Engine * CellId :=
  match cell_ids e !! k with
  | Some id => (e, id)
  | None =>
      let id := length (cells e) in
      (set_cells e (cells e ++ [mkCell k ts_default 0]) (<[k := id]> (cell_ids e)), id)
  end.

(** [self.cells[id].ts]: [None] when the index is out of bounds. *)
Definition ts_of (e : Engine) (id : CellId) : option TypeSet := ts <$> cells e !! id.

Definition set_ts (e : Engine) (id : CellId) (t : TypeSet) : Engine :=
  set_cells e (alter (fun c => mkCell (key c) t (changes c)) id (cells e)) (cell_ids e).

Definition bump_changes (e : Engine) (id : CellId) : Engine :=
  set_cells e (alter (fun c => mkCell (key c) (ts c) (wrap_u 16 (changes c + 1))) id (cells e))
    (cell_ids e).

Definition add_con (e : Engine) (script : ScriptId) (con : Constraint) : Engine * ConId :=
  let id := Z.of_nat (length (cons e)) in
  (set_cons e (cons e ++ [con]) (con_script e ++ [script])
     (<[script := default [] (script_cons e !! script) ++ [id]]> (script_cons e)), id).

(** ** The worklist *)

Definition enqueue (e : Engine) (u : User) : Engine :=
  if bool_decide (u ∈ inq e) then e
  else set_queue e (worklist e ++ [u]) ({[u]} ∪ inq e) (n_evals e).

Definition enqueue_all (e : Engine) (us : list User) : Engine := fold_left enqueue us e.

Definition pop (e : Engine) : option (Engine * User) :=
  match worklist e with
  | [] => None
  | u :: w => Some (set_queue e w (inq e ∖ {[u]}) (n_evals e + 1), u)
  end.

(** Enqueue every constraint of [script] at [ctx], the first time only. *)
Definition instantiate (e : Engine) (script : ScriptId) (ctx : CtxId) : Engine * bool :=
  let ctxs := default [] (live_ctxs e !! script) in
  if bool_decide (ctx ∈ ctxs) then (set_live e (<[script := ctxs]> (live_ctxs e)), false)
  else
    let e := set_live e (<[script := ctxs ++ [ctx]]> (live_ctxs e)) in
    match script_cons e !! script with
    | Some cs => (enqueue_all e ((fun c => (c, ctx)) <$> cs), true)
    | None => (e, true)
    end.

Definition resolve_key (script : ScriptId) (ctx : CtxId) (k : CKey) : CellKey :=
  match k with
  | CVar v => KVar script v ctx
  | CArg a => KArg script a ctx
  | CThis => KThis script ctx
  | CRet => KRet script ctx
  | CGName n => KGName n
  | CAliased s sl => KAliased s sl
  end.

Definition resolve (e : Engine) (script : ScriptId) (ctx : CtxId) (k : CKey) : Engine * CellId :=
  cell e (resolve_key script ctx k).

Definition read (e : Engine) (id : CellId) (user : User) : option (Engine * TypeSet) :=
  let entry := (id, fst user, snd user) in
  let e :=
    if bool_decide (entry ∈ sub_set e) then e
    else set_subs e (<[id := default [] (subs e !! id) ++ [user]]> (subs e))
           ({[entry]} ∪ sub_set e) in
  t ← ts_of e id; Some (e, t).

(** ** Regions *)

Fixpoint root_fuel (fuel : nat) (parent : gmap ClassId ClassId) (cur : ClassId) : ClassId :=
  match fuel with
  | O => cur
  | S fuel =>
      match parent !! cur with
      | Some p => if bool_decide (p = cur) then cur else root_fuel fuel parent p
      | None => cur
      end
  end.

(** A parent is always a smaller class, so [S c] steps reach the root. *)
Definition region_root (e : Engine) (c : ClassId) : ClassId :=
  root_fuel (S c) (region_parent e) c.

Definition array_region_of (e : Engine) (o : ObjType) : option ClassId :=
  match o with
  | OOne a =>
      m ← abs_labels e !! a;
      if al_array m
      then
        match al_class m with
        | Some c => if bool_decide (region_root e c ∈ array_classes e) then Some c else None
        | None => None
        end
      else None
  | OClassAny c => if bool_decide (region_root e c ∈ array_classes e) then Some c else None
  | _ => None
  end.

Definition class_and_arrayness (e : Engine) (o : ObjType) : option ClassId * bool :=
  match o with
  | OOne a =>
      match abs_labels e !! a with
      | Some m => (al_class m, al_array m)
      | None => (None, false)
      end
  | OClassAny c => (Some c, bool_decide (region_root e c ∈ array_classes e))
  | OAnyOf r => (Some r, false)
  | _ => (None, false)
  end.

(** ** Raises, joins and links *)

Section Open.
  Context (raise : Engine -> CellId -> TypeSet -> User -> option Engine).

Definition link_with (e : Engine) (src dst : CellId) : option Engine :=
  if bool_decide (src = dst) || bool_decide ((src, dst) ∈ link_set e) then Some e
  else
    let e := set_links e (<[src := default [] (links e !! src) ++ [dst]]> (links e))
               ({[(src, dst)]} ∪ link_set e) in
    v ← ts_of e src;
    if ts_is_empty v then Some e else raise e dst v (SEED, CTX0).

Definition union_regions_with (e : Engine) (c d : ClassId) : option (Engine * ClassId) :=
  let rc := region_root e c in
  let rd := region_root e d in
  if bool_decide (rc = rd) then Some (e, rc)
  else
    let '(win, lose) := if (rc <? rd)%nat then (rc, rd) else (rd, rc) in
    let parent := <[lose := win]> (region_parent e) in
    let lm := default [lose] (region_members e !! lose) in
    let members := delete lose (region_members e) in
    let members := <[win := default [win] (members !! win) ++ lm]> members in
    let e := set_regions e parent members in
    match elems_name e with
    | Some en =>
        let '(e, from) := cell e (KClassView lose en) in
        let '(e, to) := cell e (KClassView win en) in
        e ← link_with e from to;
        Some (e, win)
    | None => Some (e, win)
    end.

(** The object part a region merge rescues from [AnyObject], when one does. *)
Definition rescue_with (e : Engine) (a b : ObjType) : option (Engine * option ObjType) :=
  match array_region_of e a, array_region_of e b with
  | Some c, Some d =>
      '(e, r) ← union_regions_with e c d; Some (e, Some (OClassAny r))
  | _, _ =>
      if bool_decide (join_obj a b (abs_labels e) = OAnyObject)
      then
        let '(ca, aa) := class_and_arrayness e a in
        let '(cb, ab) := class_and_arrayness e b in
        match ca, cb with
        | Some c, Some d =>
            if negb aa && negb ab
            then '(e, r) ← union_regions_with e c d; Some (e, Some (OAnyOf r))
            else Some (e, None)
        | _, _ => Some (e, None)
        end
      else Some (e, None)
  end.

Definition with_obj (t : TypeSet) (o : ObjType) : TypeSet :=
  mkTypeSet (prims t) (fns t) o (range t) (unknown t) (interval t).

Definition join_ts_with (e : Engine) (dst src : TypeSet) : option (Engine * TypeSet * bool) :=
  '(e, jo) ← rescue_with e (obj dst) (obj src);
  let '(dst, sk, changed) := join_from dst src (abs_labels e) (sink e) in
  let e := set_sink e sk in
  match jo with
  | Some j =>
      if bool_decide (obj dst = j) then Some (e, dst, changed)
      else Some (e, with_obj dst j, true)
  | None => Some (e, dst, changed)
  end.

(** The no-growth fast path. *)
Definition no_growth (e : Engine) (cur t : TypeSet) : bool :=
  p_eqb (p_or (prims t) (prims cur)) (prims cur)
  && fns_is_subset_of (fns t) (fns cur)
  && (obj_is_empty (obj t)
      || (bool_decide (obj t = obj cur)
          && match array_region_of e (obj t) with None => true | Some _ => false end))
  && range_le (range t) (range cur)
  && subsumes (interval cur) (interval t).

Definition note_anyobj (e : Engine) (was_anyobj : bool) (id : CellId) (why : User) : Engine :=
  match cells e !! id with
  | Some c =>
      if negb was_anyobj && bool_decide (obj (ts c) = OAnyObject)
      then
        set_stats e (n_raises e)
          (<[fst why := default 0 (anyobj_why e !! fst why) + 1]> (anyobj_why e))
          (if (length (anyobj_first e) <? 12)%nat then anyobj_first e ++ [(key c, fst why)]
           else anyobj_first e)
      else e
  | None => e
  end.

Fixpoint raise_all (e : Engine) (ds : list CellId) (v : TypeSet) (why : User) : option Engine :=
  match ds with
  | [] => Some e
  | d :: ds => e ← raise e d v why; raise_all e ds v why
  end.

Definition raise_with (e : Engine) (id : CellId) (t : TypeSet) (why : User) : option Engine :=
  cur ← ts_of e id;
  if no_growth e cur t then Some e
  else
    let was_anyobj := bool_decide (obj cur = OAnyObject) in
    '(e, joined, changed) ← join_ts_with e cur t;
    if negb changed then Some e
    else
      let e := set_ts e id joined in
      let e := note_anyobj e was_anyobj id why in
      let e := bump_changes e id in
      let e := set_stats e (n_raises e + 1) (anyobj_why e) (anyobj_first e) in
      let e := enqueue_all e (default [] (subs e !! id)) in
      match links e !! id with
      | Some ds => v ← ts_of e id; raise_all e ds v why
      | None => Some e
      end.

End Open.

Fixpoint raise (fuel : nat) (e : Engine) (id : CellId) (t : TypeSet) (why : User)
    : option Engine :=
  match fuel with
  | O => None
  | S fuel => raise_with (raise fuel) e id t why
  end.

Definition link (fuel : nat) : Engine -> CellId -> CellId -> option Engine :=
  link_with (raise fuel).
Definition union_regions (fuel : nat) : Engine -> ClassId -> ClassId -> option (Engine * ClassId) :=
  union_regions_with (raise fuel).
Definition join_ts (fuel : nat) : Engine -> TypeSet -> TypeSet -> option (Engine * TypeSet * bool) :=
  join_ts_with (raise fuel).

(** The projection over a script's contexts; the state is not changed. *)
Definition ctx_merge (j t : TypeSet) : TypeSet :=
  mkTypeSet (p_or (prims j) (prims t))
    (if fns_is_empty (fns t) then fns j
     else let '(f, _, _) := fns_join_from (fns j) (fns t) [] in f)
    (if obj_is_empty (obj t) then obj j else obj t)
    (if range_le (range t) (range j) then range j else range t)
    (unknown j || unknown t)
    (iv_join (interval j) (interval t)).

Fixpoint join_over_ctxs_from (e : Engine) (acc : option TypeSet) (ctxs : list CtxId)
    (mk : CtxId -> CellKey) : option TypeSet :=
  match ctxs with
  | [] => acc
  | ctx :: ctxs =>
      let acc :=
        match lookup_cell e (mk ctx) with
        | Some cid =>
            match ts_of e cid with
            | Some t => Some (match acc with None => t | Some j => ctx_merge j t end)
            | None => acc
            end
        | None => acc
        end in
      join_over_ctxs_from e acc ctxs mk
  end.

Definition join_over_ctxs (e : Engine) (ctxs : list CtxId) (mk : CtxId -> CellKey)
    : option TypeSet := join_over_ctxs_from e None ctxs mk.

(** ** Evaluation of the structural constraints *)

Definition read_opt (e : Engine) (sid : ScriptId) (ctx : CtxId) (b : option CKey) (u : User)
    : option (Engine * option TypeSet) :=
  match b with
  | None => Some (e, None)
  | Some k =>
      let '(e, cb) := resolve e sid ctx k in
      '(e, tb) ← read e cb u; Some (e, Some tb)
  end.

Definition eval_core (fuel : nat) (e : Engine) (u : User) : option (Engine * bool) :=
  let '(con, ctx) := u in
  sid ← con_script e !! Z.to_nat con;
  c ← cons e !! Z.to_nat con;
  match c with
  | CMove src dst =>
      let '(e, s) := resolve e sid ctx src in
      let '(e, d) := resolve e sid ctx dst in
      '(e, v) ← read e s u;
      e ← raise fuel e d v u;
      Some (e, true)
  | CConst dst t =>
      let '(e, d) := resolve e sid ctx dst in
      e ← raise fuel e d t u;
      Some (e, true)
  | CArith op a b dst a_lit b_lit _ =>
      let '(e, ca) := resolve e sid ctx a in
      '(e, ta) ← read e ca u;
      '(e, tb) ← read_opt e sid ctx b u;
      '(m, r) ← arith_transfer op ta tb;
      let i := arith_interval op (operand_interval ta) a_lit (operand_interval <$> tb) b_lit in
      if negb (p_is_empty m) || negb (bool_decide (i = IEmpty))
      then
        let '(e, d) := resolve e sid ctx dst in
        e ← raise fuel e d (prim_interval m r i) u;
        Some (e, true)
      else Some (e, true)
  | _ => Some (e, false)
  end.

(** [run]: pop and evaluate until the worklist drains. *)
Fixpoint run (steps : nat) (eval : Engine -> User -> option Engine) (e : Engine)
    : option Engine :=
  match pop e with
  | None => Some e
  | Some (e, u) =>
      match steps with
      | O => None
      | S steps => e ← eval e u; run steps eval e
      end
  end.

(** The driver over structural constraints only. *)
Definition run_core (fuel steps : nat) (e : Engine) : option Engine :=
  run steps (fun e u => fst <$> eval_core fuel e u) e.
