(* ===== verification/EngineSound.v ===== *)
(** * EngineSound: regions, the order of cell values, and the ranks they climb

    The region union-find (roots, acyclicity, merging), the order in which a
    raise delivers a value (primitive classes, functions, objects, range and
    interval), the joins that climb it, and the rank every real change
    climbs.  [EngineRun] and [EngineRaise] build the engine's step on it. *)

From S2P Require Import Prelude OpSem Facts Types FnSets TypeLattice Engine.

(** ** Regions *)

Definition parent_wf (p : gmap ClassId ClassId) : Prop :=
  forall c d, p !! c = Some d -> (d < c)%nat.

Lemma root_fuel_le (n : nat) (p : gmap ClassId ClassId) (c : ClassId) :
  parent_wf p -> (root_fuel n p c <= c)%nat.
Proof.
  intros Hp. revert c. induction n as [|n IH]; intros c; cbn; [done|].
  destruct (p !! c) as [d|] eqn:E; [|done]. case_bool_decide; [done|].
  specialize (IH d). apply Hp in E. lia.
Qed.

(** The walk stops at a class without a parent, and more fuel changes nothing. *)
Lemma root_fuel_stable (n m : nat) (p : gmap ClassId ClassId) (c : ClassId) :
  parent_wf p -> (c < n)%nat -> (c < m)%nat -> root_fuel n p c = root_fuel m p c.
Proof.
  intros Hp. revert m c. induction n as [|n IH]; intros m c Hn Hm; [lia|].
  destruct m as [|m]; [lia|]. cbn. destruct (p !! c) as [d|] eqn:E; [|done].
  apply Hp in E. case_bool_decide; [done|]. apply IH; lia.
Qed.

Lemma root_fuel_root (n : nat) (p : gmap ClassId ClassId) (c : ClassId) :
  parent_wf p -> (c < n)%nat -> p !! root_fuel n p c = None.
Proof.
  intros Hp. revert c. induction n as [|n IH]; intros c Hn; [lia|]. cbn.
  destruct (p !! c) as [d|] eqn:E; [|done]. apply Hp in E as Hd.
  rewrite bool_decide_false by lia. apply IH. lia.
Qed.

Section Roots.
  Context (e : Engine) (Hp : parent_wf (region_parent e)).

Lemma region_root_le (c : ClassId) : (region_root e c <= c)%nat.
Proof. by apply root_fuel_le. Qed.

Lemma region_root_None (c : ClassId) : region_parent e !! region_root e c = None.
Proof. apply root_fuel_root; [done|lia]. Qed.

Lemma region_root_fix (c : ClassId) : region_parent e !! c = None -> region_root e c = c.
Proof. intros H. unfold region_root. cbn. by rewrite H. Qed.

Lemma region_root_idemp (c : ClassId) : region_root e (region_root e c) = region_root e c.
Proof. apply region_root_fix, region_root_None. Qed.

Lemma region_root_step (c d : ClassId) :
  region_parent e !! c = Some d -> region_root e c = region_root e d.
Proof.
  intros H. unfold region_root at 1. cbn [root_fuel]. rewrite H. pose proof (Hp _ _ H).
  rewrite bool_decide_false by lia. apply root_fuel_stable; [done|lia|lia].
Qed.

End Roots.

(** Merging [lose] under [win]: every class of the losing region moves to the
    winner, every other root stays. *)
Lemma region_root_merge (e e' : Engine) (win lose c : ClassId) :
  parent_wf (region_parent e) -> (win < lose)%nat ->
  region_parent e !! win = None -> region_parent e !! lose = None ->
  region_parent e' = <[lose := win]> (region_parent e) ->
  parent_wf (region_parent e') /\
  region_root e' c = if bool_decide (region_root e c = lose) then win else region_root e c.
Proof.
  intros Hp Hlt Hw Hl He'.
  assert (parent_wf (region_parent e')) as Hp'.
  { rewrite He'. intros x y [[-> ->]|[_ H]]%lookup_insert_Some; [done|by apply Hp]. }
  split; [done|]. induction (lt_wf c) as [c _ IH].
  destruct (decide (c = lose)) as [->|Hne].
  - rewrite (region_root_fix e lose Hl), bool_decide_true by done.
    rewrite (region_root_step e' Hp' lose win) by (by rewrite He', lookup_insert_eq).
    apply region_root_fix. rewrite He', lookup_insert_ne by lia. done.
  - destruct (region_parent e !! c) as [d|] eqn:E.
    + rewrite (region_root_step e Hp c d E).
      rewrite (region_root_step e' Hp' c d) by (rewrite He', lookup_insert_ne; done).
      apply IH. by apply Hp.
    + rewrite (region_root_fix e c E), bool_decide_false by done.
      apply region_root_fix. by rewrite He', lookup_insert_ne.
Qed.

(** ** States that differ in the regions and the sink only *)

Record same_core (e e' : Engine) : Prop := {
  sc_cells : cells e' = cells e;
  sc_cell_ids : cell_ids e' = cell_ids e;
  sc_cons : cons e' = cons e;
  sc_con_script : con_script e' = con_script e;
  sc_script_cons : script_cons e' = script_cons e;
  sc_live : live_ctxs e' = live_ctxs e;
  sc_worklist : worklist e' = worklist e;
  sc_inq : inq e' = inq e;
  sc_subs : subs e' = subs e;
  sc_sub_set : sub_set e' = sub_set e;
  sc_links : links e' = links e;
  sc_link_set : link_set e' = link_set e;
  sc_labels : abs_labels e' = abs_labels e;
  sc_arrays : array_classes e' = array_classes e;
  sc_elems : elems_name e' = elems_name e }.

Lemma same_core_refl (e : Engine) : same_core e e.
Proof. by split. Qed.

Lemma same_core_trans (e1 e2 e3 : Engine) :
  same_core e1 e2 -> same_core e2 e3 -> same_core e1 e3.
Proof. intros [] []. split; congruence. Qed.

(** Class labels are below [N]. *)
Definition obj_below (N : nat) (o : ObjType) : Prop :=
  match o with OClassAny c | OAnyOf c => (c < N)%nat | _ => True end.

Record labels_below (N : nat) (e : Engine) : Prop := {
  lb_abs : forall a m c, abs_labels e !! a = Some m -> al_class m = Some c -> (c < N)%nat;
  lb_parent : forall c d, region_parent e !! c = Some d -> (c < N)%nat;
  lb_wf : parent_wf (region_parent e) }.

(** ** Ranks and labels *)

Section Ranks.
  Context (N : nat).

Lemma region_root_below (e : Engine) (c : ClassId) :
  labels_below N e -> (c < N)%nat -> (region_root e c < N)%nat.
Proof. intros H Hc. pose proof (region_root_le e (lb_wf N e H) c). lia. Qed.

(** The object rank with class labels: lowering a label climbs. *)
Definition eng_obj_rank (m : list AbsLabels) (o : ObjType) : nat :=
  match o with
  | OEmpty => 0
  | OOne x => if is_snap x m then 2 else 1
  | OClassAny c => 3 + (N - c)
  | OAnyOf r => 4 + N + (N - r)
  | OAnyObject => 5 + 2 * N
  end.

(** Labels a raise of which can only report real growth. *)
Definition canonical (e : Engine) (o : ObjType) : Prop :=
  match o with
  | OEmpty | OAnyObject => True
  | OOne _ => False
  | OClassAny c => region_parent e !! c = None /\ c ∈ array_classes e
  | OAnyOf c => region_parent e !! c = None
  end.

Lemma join_obj_eng_rank (a b : ObjType) (m : list AbsLabels) :
  obj_below N a -> obj_below N b ->
  (forall x mx c, m !! x = Some mx -> al_class mx = Some c -> (c < N)%nat) ->
  obj_below N (join_obj a b m) /\
  (join_obj a b m = a \/ (eng_obj_rank m a < eng_obj_rank m (join_obj a b m))%nat).
Proof.
  intros Ha Hb Hm.
  assert (forall x c, class_of x m = Some c -> (c < N)%nat) as Hc.
  { intros x c. unfold class_of. destruct (m !! x) as [mx|] eqn:E; [|done]. by apply (Hm x mx). }
  destruct a as [|x|c|r|], b as [|y|d|s|]; cbn -[eng_obj_rank] in *;
    repeat case_bool_decide; simplify_eq; (split; [|auto]); try done;
    try (right; cbn; repeat case_match; lia).
  - destruct (is_snap x m), (is_snap y m); cbn; try done; repeat case_match; cbn; try done;
      case_bool_decide; simplify_eq; cbn; eauto.
  - destruct (is_snap x m) eqn:Ex, (is_snap y m) eqn:Ey; cbn; rewrite ?Ex, ?Ey; auto;
      repeat case_match; cbn; rewrite ?Ex, ?Ey; right; lia.
Qed.

Lemma array_region_spec (e : Engine) (o : ObjType) (c : ClassId) :
  labels_below N e -> obj_below N o -> array_region_of e o = Some c ->
  (c < N)%nat /\ region_root e c ∈ array_classes e /\
  (o = OClassAny c \/ exists x, o = OOne x /\ class_of x (abs_labels e) = Some c).
Proof.
  intros Hl Ho. destruct o as [|x|d| |]; cbn; try done.
  - unfold class_of. destruct (abs_labels e !! x) as [m|] eqn:E; cbn; [|done].
    destruct (al_array m); [|done]. destruct (al_class m) as [d|] eqn:Ed; [|done].
    case_bool_decide; [|done]. intros [= ->]. split_and!; [by eapply lb_abs|done|].
    right. exists x. by rewrite E.
  - case_bool_decide; [|done]. intros [= ->]. auto.
Qed.

Lemma class_below (e : Engine) (o : ObjType) (c : ClassId) (ar : bool) :
  labels_below N e -> obj_below N o -> class_and_arrayness e o = (Some c, ar) ->
  (c < N)%nat /\
  ((exists x, o = OOne x) \/ (o = OClassAny c /\ ar = bool_decide (region_root e c ∈ array_classes e))
   \/ o = OAnyOf c).
Proof.
  intros Hl Ho. destruct o as [|x|d|r|]; cbn; try done.
  - destruct (abs_labels e !! x) as [m|] eqn:E; [|done]. intros [= Ec _].
    split; [by eapply lb_abs|eauto].
  - intros [= -> <-]. auto.
  - intros [= -> _]. auto.
Qed.

Definition eng_rank (m : list AbsLabels) (t : TypeSet) : Z :=
  parts_rank t + Z.of_nat (eng_obj_rank m (obj t)).

Definition ENG_RANK_MAX : Z := 100 + 2 * Z.of_nat N.

Lemma eng_rank_range (m : list AbsLabels) (t : TypeSet) :
  ts_wf t -> 0 <= eng_rank m t <= ENG_RANK_MAX.
Proof.
  intros Ht. pose proof (parts_rank_range t Ht). unfold eng_rank, ENG_RANK_MAX.
  assert (eng_obj_rank m (obj t) <= 5 + 2 * N)%nat
    by (destruct (obj t); cbn; try destruct (is_snap _ _); lia). lia.
Qed.

Lemma with_obj_wf (t : TypeSet) (o : ObjType) : ts_wf t -> ts_wf (with_obj t o).
Proof. intros []. by split. Qed.

Lemma parts_rank_strip (t u : TypeSet) : strip_obj t = strip_obj u -> parts_rank t = parts_rank u.
Proof.
  intros H. change (parts_rank (strip_obj t) = parts_rank (strip_obj u)). by rewrite H.
Qed.

End Ranks.

(** ** The order of cell values

    What a raise delivers: primitive classes, functions, range and interval
    above the arriving ones, and an object part that stands for everything
    the arriving one did.  A class label stands for its region, and an
    abstraction may be represented by the snapshot object the sink records as
    having absorbed it.  The flag [unknown] is not part of what is delivered:
    the fast path of [raise] drops it ([Properties.unknown_dropped]). *)

Record parts_le (t u : TypeSet) : Prop := {
  pl_prims : subset_of (prims t) (prims u) = true;
  pl_fns : fset_le (fns_abs (fns t)) (fns_abs (fns u));
  pl_range : range_le (range t) (range u) = true;
  pl_interval : subsumes (interval u) (interval t) = true }.

(** [z] was preferred to [a], as the sink records. *)
Definition absorbs (e : Engine) (a z : AbsId) : Prop := (z, a) ∈ snap_absorbs (sink e).

(** The abstractions an object part stands for in a state. *)
Definition eng_has (e : Engine) (o : ObjType) (a : AbsId) : Prop :=
  match o with
  | OEmpty => False
  | OOne x => a = x
  | OClassAny c | OAnyOf c =>
      exists d, class_of a (abs_labels e) = Some d /\ region_root e d = region_root e c
  | OAnyObject => True
  end.

Definition obj_le (e : Engine) (o p : ObjType) : Prop :=
  match o with
  | OEmpty => True
  | OOne x => exists z, rtc (absorbs e) x z /\ eng_has e p z
  | OClassAny c =>
      match p with
      | OClassAny d | OAnyOf d => region_root e c = region_root e d
      | OAnyObject => True
      | _ => False
      end
  | OAnyOf c =>
      match p with
      | OAnyOf d => region_root e c = region_root e d
      | OAnyObject => True
      | _ => False
      end
  | OAnyObject => p = OAnyObject
  end.

Definition ts_le (e : Engine) (t u : TypeSet) : Prop := parts_le t u /\ obj_le e (obj t) (obj u).

(** How a cell grows: [unknown] too is never taken back. *)
Definition ts_grow (e : Engine) (t u : TypeSet) : Prop :=
  ts_le e t u /\ (unknown t = true -> unknown u = true).

(** *** The parts *)

Lemma range_le_trans (a b c : Range) :
  range_le a b = true -> range_le b c = true -> range_le a c = true.
Proof. destruct a, b, c; cbn; congruence. Qed.

Lemma fset_le_refl (x : fset) : fset_le x x.
Proof. destruct x; cbn; [reflexivity|done]. Qed.

Lemma parts_le_refl (t : TypeSet) : ts_wf t -> parts_le t t.
Proof.
  intros []. split; [by apply subset_of_refl|apply fset_le_refl|by destruct (range t)|].
  apply subsumes_refl.
Qed.

Lemma parts_le_trans (t u v : TypeSet) :
  ts_wf t -> ts_wf u -> parts_le t u -> parts_le u v -> parts_le t v.
Proof.
  intros Ht Hu [] []. destruct Ht, Hu. split; eauto using subset_of_trans, fset_le_trans,
    range_le_trans, subsumes_trans.
Qed.

Lemma parts_le_strip (t u v : TypeSet) : strip_obj u = strip_obj v -> parts_le t u -> parts_le t v.
Proof. destruct u, v. unfold strip_obj; cbn. intros [=] []. subst. by split. Qed.

Lemma fset_union_le_r (x y : fset) : fset_le y (fset_union x y).
Proof. rewrite fset_union_comm. destruct y as [y|]; [|by destruct x].
  destruct x as [x|]; [|done]. apply (fset_union_grow (Some y)). Qed.
Lemma fset_union_le_l (x y : fset) : fset_le x (fset_union x y).
Proof. rewrite fset_union_comm. apply fset_union_le_r. Qed.

Lemma parts_le_join_l (t o : TypeSet) (m : list AbsLabels) :
  ts_wf t -> ts_wf o -> parts_le t (ts_join t o m).
Proof.
  intros Ht Ho. rewrite ts_join_eq by done. destruct Ht, Ho.
  split; cbn [prims fns obj range unknown interval].
  - by apply subset_of_or_r.
  - rewrite fns_join_abs by done. apply fset_union_le_l.
  - by destruct (range t), (range o).
  - apply subsumes_join_l.
Qed.

Lemma parts_le_join_r (t o : TypeSet) (m : list AbsLabels) :
  ts_wf t -> ts_wf o -> parts_le o (ts_join t o m).
Proof.
  intros Ht Ho. rewrite ts_join_eq by done. destruct Ht, Ho.
  split; cbn [prims fns obj range unknown interval].
  - rewrite p_or_comm. by apply subset_of_or_r.
  - rewrite fns_join_abs by done. apply fset_union_le_r.
  - by destruct (range t), (range o).
  - apply subsumes_join_r.
Qed.

Lemma parts_le_bottom (t : TypeSet) : parts_le ts_default t.
Proof.
  split; [reflexivity| |by destruct (range t)|].
  - cbn. destruct (fns_abs (fns t)); cbn; set_solver.
  - apply subsumes_spec. by destruct (interval t).
Qed.

(** *** The object part *)

Lemma obj_le_refl (e : Engine) (o : ObjType) : obj_le e o o.
Proof. destruct o; cbn; eauto using rtc_refl. Qed.

Lemma obj_le_has (e : Engine) (o p : ObjType) (a : AbsId) :
  obj_le e o p -> eng_has e o a -> exists z, rtc (absorbs e) a z /\ eng_has e p z.
Proof.
  destruct o as [|x|c|c|]; cbn; [done|by intros ? ->|..].
  - intros H (d & Hd & Hr). exists a. split; [apply rtc_refl|].
    destruct p; cbn in *; try done; exists d; split; congruence.
  - intros H (d & Hd & Hr). exists a. split; [apply rtc_refl|].
    destruct p; cbn in *; try done; exists d; split; congruence.
  - intros -> _. exists a. split; [apply rtc_refl|done].
Qed.

Lemma obj_le_trans (e : Engine) (o p q : ObjType) : obj_le e o p -> obj_le e p q -> obj_le e o q.
Proof.
  intros H1 H2. destruct o as [|x|c|c|]; cbn in *.
  - done.
  - destruct H1 as (z & Hz & Hp). destruct (obj_le_has e p q z H2 Hp) as (y & Hy & Hq).
    exists y. split; [by etransitivity|done].
  - destruct p, q; cbn in *; try done; congruence.
  - destruct p, q; cbn in *; try done; congruence.
  - by subst p.
Qed.

(** What moves between two states the order is read in: regions merge,
    absorptions are recorded, labels stay. *)
Record view_le (e e' : Engine) : Prop := {
  vl_labels : abs_labels e' = abs_labels e;
  vl_regions : forall c d, region_root e c = region_root e d -> region_root e' c = region_root e' d;
  vl_sink : snap_absorbs (sink e) ⊆ snap_absorbs (sink e') }.

Lemma view_le_refl (e : Engine) : view_le e e.
Proof. by split. Qed.

Lemma view_le_trans (e1 e2 e3 : Engine) : view_le e1 e2 -> view_le e2 e3 -> view_le e1 e3.
Proof. intros [] []. split; [congruence|auto|by etransitivity]. Qed.

Lemma view_le_same (e e' : Engine) :
  abs_labels e' = abs_labels e -> region_parent e' = region_parent e ->
  snap_absorbs (sink e) ⊆ snap_absorbs (sink e') -> view_le e e'.
Proof. intros Hl Hp Hs. split; [done| |done]. unfold region_root. by rewrite Hp. Qed.

Lemma obj_le_mono (e e' : Engine) (o p : ObjType) : view_le e e' -> obj_le e o p -> obj_le e' o p.
Proof.
  intros [Hl Hr Hs]. destruct o as [|x|c|c|]; cbn; try done.
  - intros (z & Hz & Hp). exists z. split.
    + clear Hp. induction Hz as [|a b z Hab _ IH]; [apply rtc_refl|]. eapply rtc_l; [|done]. by apply Hs.
    + destruct p; cbn in *; try done; destruct Hp as (d & Hd & He); exists d; rewrite Hl; (split; [done|by apply Hr]).
  - destruct p; try done; apply Hr.
  - destruct p; try done; apply Hr.
Qed.

Lemma ts_le_mono (e e' : Engine) (t u : TypeSet) : view_le e e' -> ts_le e t u -> ts_le e' t u.
Proof. intros V [Hp Ho]. split; [done|]. by eapply obj_le_mono. Qed.

Lemma ts_le_refl (e : Engine) (t : TypeSet) : ts_wf t -> ts_le e t t.
Proof. intros H. split; [by apply parts_le_refl|apply obj_le_refl]. Qed.

Lemma ts_le_trans (e : Engine) (t u v : TypeSet) :
  ts_wf t -> ts_wf u -> ts_le e t u -> ts_le e u v -> ts_le e t v.
Proof.
  intros Ht Hu [] []. split; [by eapply parts_le_trans|by eapply obj_le_trans].
Qed.

Lemma ts_le_bottom (e : Engine) (t : TypeSet) : ts_le e ts_default t.
Proof. split; [apply parts_le_bottom|done]. Qed.

Lemma ts_grow_refl (e : Engine) (t : TypeSet) : ts_wf t -> ts_grow e t t.
Proof. intros H. split; [by apply ts_le_refl|done]. Qed.

Lemma ts_grow_mono (e e' : Engine) (t u : TypeSet) : view_le e e' -> ts_grow e t u -> ts_grow e' t u.
Proof. intros V [Hp Ho]. split; [by eapply ts_le_mono|done]. Qed.

Lemma ts_grow_trans (e : Engine) (t u v : TypeSet) :
  ts_wf t -> ts_wf u -> ts_grow e t u -> ts_grow e u v -> ts_grow e t v.
Proof. intros Ht Hu [] []. split; [by eapply ts_le_trans|auto]. Qed.

(** The typeset join is above both sides where its absorption is recorded. *)
Lemma join_obj_le (e : Engine) (o p : ObjType) :
  snap_absorbed o p (join_obj o p (abs_labels e)) ⊆ snap_absorbs (sink e) ->
  obj_le e o (join_obj o p (abs_labels e)) /\ obj_le e p (join_obj o p (abs_labels e)).
Proof.
  assert (forall x, obj_le e (OOne x) (OOne x)) as R1 by (intros; apply obj_le_refl).
  assert (forall x c, class_of x (abs_labels e) = Some c -> obj_le e (OOne x) (OClassAny c)) as R2.
  { intros x c H. exists x. split; [apply rtc_refl|]. by exists c. }
  assert (forall x, obj_le e (OOne x) OAnyObject) as R3 by (intros x; exists x; split; [apply rtc_refl|done]).
  destruct o as [|x|c|r|], p as [|y|d|s|]; cbn [join_obj]; intros H;
    try (split; [done|apply obj_le_refl]); try (split; [apply obj_le_refl|done]);
    repeat case_bool_decide; simplify_eq; try (split; by auto using obj_le_refl).
  destruct (is_snap x _ && negb (is_snap y _)) eqn:E1.
  { cbn in H. rewrite !bool_decide_false, ?bool_decide_true in H by done.
    split; [done|]. exists x. split; [|done]. apply rtc_once. apply H. set_solver. }
  destruct (is_snap y _ && negb (is_snap x _)) eqn:E2.
  { cbn in H. rewrite !bool_decide_false in H by congruence.
    split; [|done]. exists y. split; [|done]. apply rtc_once. apply H. set_solver. }
  destruct (class_of x (abs_labels e)) eqn:Ex, (class_of y (abs_labels e)) eqn:Ey; try by auto.
  case_bool_decide; simplify_eq; auto.
Qed.

Lemma no_growth_le (e : Engine) (cur t : TypeSet) :
  ts_wf cur -> ts_wf t -> no_growth e cur t = true -> ts_le e t cur.
Proof.
  intros [Pc Fc Qc] [Pt Ft Qt]. unfold no_growth. intros H.
  apply andb_true_iff in H as [[[[Hp Hf]%andb_true_iff Ho]%andb_true_iff Hr]%andb_true_iff Hi].
  split; [split; [| |done|done]|].
  - apply subset_of_or_eq; [done|]. rewrite p_or_comm. unfold p_eqb in Hp. zify_bool.
    destruct (p_or (prims t) (prims cur)), (prims cur). cbn in *. congruence.
  - rewrite fns_is_subset_of_spec in Hf by done. apply bool_decide_eq_true in Hf.
    rewrite <- Hf, fns_join_abs by done. apply fset_union_le_r.
  - apply orb_true_iff in Ho as [Ho|Ho].
    + unfold obj_is_empty in Ho. apply bool_decide_eq_true in Ho. by rewrite Ho.
    + apply andb_true_iff in Ho as [Ho%bool_decide_eq_true _]. rewrite Ho. apply obj_le_refl.
Qed.
