(* ===== verification/EngineRun.v ===== *)
(** * EngineRun: well-formed engine states, their potential, and their growth

    The queue, the state invariant of the engine (labels, cells, links, keys
    of a finite universe), the potential that bounds everything a raise can
    still do, what a sequence of raises does to a state, and the update of one
    cell.  [EngineRaise] proves that a raise does it. *)

From S2P Require Import Prelude OpSem Facts Types FnSets TypeLattice Engine EngineSound.

(** ** The queue *)

Record queue_ok (e : Engine) : Prop := {
  qo_nodup : NoDup (worklist e);
  qo_inq : forall u, u ∈ inq e <-> u ∈ worklist e }.

Lemma enqueue_spec (e : Engine) (u : User) :
  queue_ok e ->
  queue_ok (enqueue e u) /\ u ∈ worklist (enqueue e u) /\
  (enqueue e u = e \/ enqueue e u = set_queue e (worklist e ++ [u]) ({[u]} ∪ inq e) (n_evals e)).
Proof.
  intros [Hn Hi]. unfold enqueue. case_bool_decide as Hu.
  - split_and!; [done|by apply Hi|auto].
  - split_and!; [|cbn; set_solver|auto]. split; cbn.
    + apply list.NoDup_app. split_and!; [done| |apply NoDup_singleton].
      intros x Hx ->%list_elem_of_singleton. apply Hu, Hi, Hx.
    + intros x. rewrite elem_of_union, elem_of_singleton, elem_of_app, list_elem_of_singleton, Hi.
      tauto.
Qed.

(** States that differ in the queue and the counters only. *)
Record same_but_queue (e e' : Engine) : Prop := {
  sq_core : same_core (set_queue e [] ∅ 0) (set_queue e' [] ∅ 0);
  sq_parent : region_parent e' = region_parent e;
  sq_sink : sink e' = sink e }.

Lemma same_but_queue_trans (e1 e2 e3 : Engine) :
  same_but_queue e1 e2 -> same_but_queue e2 e3 -> same_but_queue e1 e3.
Proof. intros [] []. split; [by eapply same_core_trans|congruence..]. Qed.

Lemma enqueue_all_spec (us : list User) (e : Engine) :
  queue_ok e ->
  same_but_queue e (enqueue_all e us) /\ queue_ok (enqueue_all e us) /\
  (exists ws, worklist (enqueue_all e us) = worklist e ++ ws /\ ws ⊆ us) /\
  (forall u, u ∈ us -> u ∈ worklist (enqueue_all e us)).
Proof.
  unfold enqueue_all. revert e. induction us as [|u us IH]; intros e Hq; cbn [fold_left].
  - split_and!; [by split|done| |set_solver]. exists []. by rewrite app_nil_r.
  - destruct (enqueue_spec e u Hq) as (Hq1 & Hu & Hcase).
    destruct (IH _ Hq1) as (Hs & Hq2 & (ws & Hw & Hws) & Hin).
    assert (same_but_queue e (enqueue e u) /\
      exists w1, worklist (enqueue e u) = worklist e ++ w1 /\ w1 ⊆ [u]) as (Hs1 & w1 & Hw1 & Hw1s).
    { destruct Hcase as [->| ->]; (split; [by split|]).
      - exists []. rewrite app_nil_r. set_solver.
      - by exists [u]. }
    split_and!; [by eapply same_but_queue_trans|done| |].
    + exists (w1 ++ ws). rewrite app_assoc, <- Hw1. set_solver.
    + intros x [->|Hx]%elem_of_cons; [|by apply Hin]. rewrite Hw. set_solver.
Qed.

(** ** Cell identity *)

Definition ids_ok (e : Engine) : Prop :=
  forall k i, cell_ids e !! k = Some i <-> key <$> cells e !! i = Some k.

Lemma ts_of_lt (e : Engine) (i : nat) : (i < length (cells e))%nat -> exists t, ts_of e i = Some t.
Proof. intros H. unfold ts_of. apply lookup_lt_is_Some in H as [c ->]. by exists (ts c). Qed.

Lemma ts_of_lt_inv (e : Engine) (i : nat) (t : TypeSet) :
  ts_of e i = Some t -> (i < length (cells e))%nat.
Proof. unfold ts_of. intros (c & Hc & _)%fmap_Some. by eapply lookup_lt_Some. Qed.

Lemma ids_ok_lt (e : Engine) (k : CellKey) (i : nat) :
  ids_ok e -> cell_ids e !! k = Some i -> (i < length (cells e))%nat.
Proof.
  intros Hid Hi. apply Hid in Hi. destruct (cells e !! i) eqn:E; [by eapply lookup_lt_Some|done].
Qed.

(** ** Well-formed states and their potential *)

Section Run.
  Context (N : nat) (K : gset CellKey).

Definition cell_wf (c : Cell) : Prop := ts_wf (ts c) /\ obj_below N (obj (ts c)).

(** Classes are below [N]; cell keys, among them every view a region merge
    can create, are in the finite universe [K]. *)
Record eng_wf (e : Engine) : Prop := {
  ew_labels : labels_below N e;
  ew_views : forall en c, elems_name e = Some en -> (c < N)%nat -> KClassView c en ∈ K;
  ew_ids : ids_ok e;
  ew_keys : forall k i, cell_ids e !! k = Some i -> k ∈ K;
  ew_cells : Forall cell_wf (cells e);
  ew_links : forall s ds d, links e !! s = Some ds -> d ∈ ds -> (d < length (cells e))%nat;
  ew_queue : queue_ok e }.

Lemma cells_bounded (e : Engine) : eng_wf e -> (length (cells e) <= size K)%nat.
Proof.
  intros H. assert (NoDup (key <$> cells e)) as Hn.
  { apply list.NoDup_alt. intros i j k Hi Hj. rewrite list_lookup_fmap in Hi, Hj.
    apply (ew_ids e H) in Hi, Hj. congruence. }
  rewrite <- (length_fmap key). rewrite <- (size_list_to_set (C := gset CellKey)) by done.
  apply subseteq_size. intros k Hk. apply elem_of_list_to_set in Hk.
  apply list_elem_of_lookup in Hk as [i Hi]. rewrite list_lookup_fmap in Hi.
  apply (ew_ids e H) in Hi. by eapply ew_keys.
Qed.

Definition slack (m : list AbsLabels) (cs : list Cell) : Z :=
  foldr (fun c acc => ENG_RANK_MAX N - eng_rank N m (ts c) + acc) 0 cs.

(** The potential: merges left, each worth more than all the growth the cells
    of the universe can show between two of them, then the growth left. *)
Definition pot (e : Engine) : Z :=
  (Z.of_nat N - Z.of_nat (size (region_parent e))) * (ENG_RANK_MAX N * Z.of_nat (size K) + 1) +
  slack (abs_labels e) (cells e) +
  ENG_RANK_MAX N * (Z.of_nat (size K) - Z.of_nat (length (cells e))).

Lemma slack_range (m : list AbsLabels) (cs : list Cell) :
  Forall cell_wf cs -> 0 <= slack m cs <= ENG_RANK_MAX N * Z.of_nat (length cs).
Proof.
  unfold slack. induction 1 as [|c cs [Hc _] _ IH]; cbn [foldr length]; [lia|].
  pose proof (eng_rank_range N m (ts c) Hc). lia.
Qed.

Lemma slack_alter (m : list AbsLabels) (cs : list Cell) (i : nat) (c : Cell) (f : Cell -> Cell) :
  cs !! i = Some c ->
  slack m (alter f i cs) = slack m cs + (eng_rank N m (ts c) - eng_rank N m (ts (f c))).
Proof.
  unfold slack. revert i. induction cs as [|x cs IH]; intros [|i]; cbn [lookup list_lookup alter list_alter foldr]; try done.
  - intros [= ->]. lia.
  - intros H. rewrite (IH i H). lia.
Qed.

Lemma slack_app (m : list AbsLabels) (cs ds : list Cell) :
  slack m (cs ++ ds) = slack m cs + slack m ds.
Proof.
  unfold slack. induction cs as [|c cs IH]; cbn [app foldr]; [lia|]. rewrite IH. lia.
Qed.

Lemma parents_bounded (e : Engine) : labels_below N e -> (size (region_parent e) <= N)%nat.
Proof.
  intros H. rewrite <- size_dom. transitivity (size (set_seq 0 N : gset nat)).
  - apply subseteq_size. intros c Hc. apply elem_of_dom in Hc as [d Hd].
    apply elem_of_set_seq. apply (lb_parent N e H) in Hd. lia.
  - rewrite size_set_seq. done.
Qed.

(** The part of the potential that is not merges. *)
Lemma growth_left (e : Engine) :
  eng_wf e ->
  0 <= slack (abs_labels e) (cells e) +
    ENG_RANK_MAX N * (Z.of_nat (size K) - Z.of_nat (length (cells e)))
    <= ENG_RANK_MAX N * Z.of_nat (size K).
Proof.
  intros H. pose proof (slack_range (abs_labels e) _ (ew_cells e H)). pose proof (cells_bounded e H).
  assert (0 <= ENG_RANK_MAX N) by (unfold ENG_RANK_MAX; lia). nia.
Qed.

Lemma pot_nonneg (e : Engine) : eng_wf e -> 0 <= pot e.
Proof.
  intros H. unfold pot. pose proof (growth_left e H). pose proof (parents_bounded e (ew_labels e H)).
  assert (0 <= ENG_RANK_MAX N) by (unfold ENG_RANK_MAX; lia). nia.
Qed.

(** A merge pays for whatever else happens in the same step. *)
Lemma pot_lex (e e' : Engine) :
  eng_wf e -> eng_wf e' -> (size (region_parent e) < size (region_parent e'))%nat -> pot e' < pot e.
Proof.
  intros H H' Hs. unfold pot. pose proof (growth_left e H). pose proof (growth_left e' H').
  assert (0 <= ENG_RANK_MAX N) by (unfold ENG_RANK_MAX; lia). nia.
Qed.

Lemma ts_of_wf (e : Engine) (i : nat) (t : TypeSet) :
  eng_wf e -> ts_of e i = Some t -> ts_wf t /\ obj_below N (obj t).
Proof.
  intros H. unfold ts_of. rewrite fmap_Some. intros (c & Hc & ->).
  pose proof (ew_cells e H) as Hf. rewrite Forall_lookup in Hf. by eapply Hf.
Qed.

(** ** What a sequence of raises does to a state *)

(** Every link out of [s] is satisfied. *)
Definition link_sat (e : Engine) (s : CellId) : Prop :=
  forall t ds d, ts_of e s = Some t -> links e !! s = Some ds -> d ∈ ds ->
  exists u, ts_of e d = Some u /\ ts_le e t u.

Record grows (e e' : Engine) : Prop := {
  g_ids : forall k i, cell_ids e !! k = Some i -> cell_ids e' !! k = Some i;
  g_keys : exists ks, key <$> cells e' = (key <$> cells e) ++ ks;
  g_cells : forall i t, ts_of e i = Some t -> exists t', ts_of e' i = Some t' /\ ts_grow e' t t';
  g_cons : cons e' = cons e /\ con_script e' = con_script e /\ script_cons e' = script_cons e;
  g_live : live_ctxs e' = live_ctxs e;
  g_subs : subs e' = subs e /\ sub_set e' = sub_set e;
  g_arrays : array_classes e' = array_classes e;
  g_elems : elems_name e' = elems_name e;
  g_view : view_le e e';
  g_down : forall c, (region_root e' c <= region_root e c)%nat;
  g_links : forall s ds, links e !! s = Some ds -> exists ds', links e' !! s = Some (ds ++ ds');
  g_link_set : link_set e ⊆ link_set e';
  g_size : region_parent e' = region_parent e \/
    (size (region_parent e) < size (region_parent e'))%nat;
  g_still : region_parent e' = region_parent e ->
    links e' = links e /\ cell_ids e' = cell_ids e /\ length (cells e') = length (cells e);
  g_queue : exists ws, worklist e' = worklist e ++ ws /\
    forall u, u ∈ ws -> exists i us, subs e !! i = Some us /\ u ∈ us;
  g_fire : forall i t us u, ts_of e i = Some t -> ts_of e' i <> Some t ->
    subs e !! i = Some us -> u ∈ us -> u ∈ worklist e';
  g_pot : pot e' <= pot e;
  g_same : pot e' = pot e ->
    (forall i, ts_of e' i = ts_of e i) /\ region_parent e' = region_parent e }.

Lemma grows_refl (e : Engine) : eng_wf e -> grows e e.
Proof.
  intros H. split; try done; eauto using view_le_refl.
  - exists []. by rewrite app_nil_r.
  - intros i t Ht. exists t. split; [done|]. apply ts_grow_refl. by eapply ts_of_wf.
  - intros s ds Hd. exists []. by rewrite app_nil_r.
  - exists []. rewrite app_nil_r. set_solver.
Qed.

Lemma grows_length (e e' : Engine) : grows e e' -> (length (cells e) <= length (cells e'))%nat.
Proof.
  intros H. destruct (g_keys _ _ H) as [ks Hk]. apply (f_equal length) in Hk.
  rewrite length_app, !length_fmap in Hk. lia.
Qed.

(** If no region merged over two steps, none merged over either. *)
Lemma grows_still (e1 e2 e3 : Engine) :
  grows e1 e2 -> grows e2 e3 -> region_parent e3 = region_parent e1 ->
  region_parent e2 = region_parent e1 /\ region_parent e3 = region_parent e2.
Proof.
  intros G1 G2 E. destruct (g_size _ _ G1) as [E1|L1]; [by rewrite E, E1|].
  destruct (g_size _ _ G2) as [E2|L2]; [rewrite <- E2, E in L1; lia|rewrite E in L2; lia].
Qed.

Lemma ts_grow_step (e1 e2 : Engine) (t u v : TypeSet) :
  view_le e1 e2 -> ts_wf t -> ts_wf u -> ts_grow e1 t u -> ts_grow e2 u v -> ts_grow e2 t v.
Proof. intros V Ht Hu H1 H2. eapply ts_grow_trans; eauto using ts_grow_mono. Qed.

Lemma grows_trans (e1 e2 e3 : Engine) :
  eng_wf e1 -> eng_wf e2 -> grows e1 e2 -> grows e2 e3 -> grows e1 e3.
Proof.
  intros W1 W2 G1 G2. destruct (g_subs _ _ G1) as [S1 S1'], (g_subs _ _ G2) as [S2 S2'].
  destruct (g_cons _ _ G1) as (?&?&?), (g_cons _ _ G2) as (?&?&?).
  pose proof (g_pot _ _ G1). pose proof (g_pot _ _ G2). pose proof (grows_length _ _ G1).
  pose proof (grows_length _ _ G2).
  split; try (etransitivity; [apply G2|apply G1]); try (split_and!; congruence); try lia.
  - intros k i Hi. by apply G2, G1.
  - destruct (g_keys _ _ G1) as [ks Hk], (g_keys _ _ G2) as [ks' Hk']. exists (ks ++ ks').
    by rewrite Hk', Hk, app_assoc.
  - intros i t Ht. destruct (g_cells _ _ G1 i t Ht) as (t1 & Ht1 & Hle1).
    destruct (g_cells _ _ G2 i t1 Ht1) as (t2 & Ht2 & Hle2). exists t2. split; [done|].
    apply ts_of_wf in Ht as [? _], Ht1 as [? _]; [|done..].
    apply (ts_grow_step e2 e3 t t1 t2); auto. apply G2.
  - eapply view_le_trans; [apply G1|apply G2].
  - intros s ds Hd. destruct (g_links _ _ G1 s ds Hd) as (d1 & Hd1).
    destruct (g_links _ _ G2 s _ Hd1) as (d2 & Hd2). exists (d1 ++ d2). by rewrite app_assoc.
  - etransitivity; [apply G1|apply G2].
  - destruct (g_size _ _ G1) as [E1|L1], (g_size _ _ G2) as [E2|L2]; rewrite ?E2, ?E1 in *; auto;
      right; rewrite ?E1 in *; lia.
  - intros E. destruct (grows_still _ _ _ G1 G2 E) as [E1 E2].
    destruct (g_still _ _ G1 E1) as (?&?&?), (g_still _ _ G2 E2) as (?&?&?). split_and!; congruence.
  - destruct (g_queue _ _ G1) as (w1 & E1 & U1), (g_queue _ _ G2) as (w2 & E2 & U2).
    exists (w1 ++ w2). rewrite app_assoc, <- E1. split; [done|]. rewrite S1 in U2.
    intros u [Hu|Hu]%elem_of_app; auto.
  - intros i t us u Ht Hne Hs Hu. destruct (decide (ts_of e2 i = Some t)) as [E|E].
    + eapply (g_fire _ _ G2 i t us); [done|done|congruence|done].
    + pose proof (g_fire _ _ G1 i t us u Ht E Hs Hu). destruct (g_queue _ _ G2) as (w2 & -> & _).
      set_solver.
  - intros Heq. destruct (g_same _ _ G1) as [A1 B1]; [lia|]. destruct (g_same _ _ G2) as [A2 B2]; [lia|].
    split; [intros; by rewrite A2, A1|congruence].
Qed.

(** Links satisfied before, or out of a cell that changed, are satisfied after. *)
Definition relinks (e e' : Engine) : Prop :=
  forall s, link_sat e s \/ ts_of e' s <> ts_of e s -> link_sat e' s.

Lemma relinks_trans (e1 e2 e3 : Engine) : relinks e1 e2 -> relinks e2 e3 -> relinks e1 e3.
Proof.
  intros R1 R2 s [Hs|Hne]; [apply R2; left; apply R1; by left|].
  destruct (decide (ts_of e3 s = ts_of e2 s)) as [E|E]; [|apply R2; by right].
  apply R2. left. apply R1. right. congruence.
Qed.

Lemma link_sat_frame (e e' : Engine) (s : CellId) :
  eng_wf e -> view_le e e' -> links e' = links e ->
  (forall i t, ts_of e i = Some t -> exists t', ts_of e' i = Some t' /\ ts_grow e' t t') ->
  ts_of e' s = ts_of e s -> link_sat e s -> link_sat e' s.
Proof.
  intros We V Hl Hg Hs Hsat t ds d Ht Hds Hd. rewrite Hs in Ht. rewrite Hl in Hds.
  destruct (Hsat t ds d Ht Hds Hd) as (u & Hu & Hle). destruct (Hg d u Hu) as (u' & Hu' & [Hle' _]).
  exists u'. split; [done|]. apply ts_of_wf in Ht as [? _], Hu as [? _]; [|done..].
  eapply ts_le_trans; eauto using ts_le_mono.
Qed.

Lemma relinks_still (e e' : Engine) :
  eng_wf e -> grows e e' -> region_parent e' = region_parent e ->
  (forall i, ts_of e' i = ts_of e i) -> relinks e e'.
Proof.
  intros W G E Hts s [Hs|Hs]; [|by rewrite Hts in Hs].
  apply (link_sat_frame e e'); auto; [apply G|by apply (g_still _ _ G)|apply G].
Qed.

(** *** The update of one cell *)

(** [raise_with] between the join and the links. *)
Definition settle (e : Engine) (was_anyobj : bool) (id : CellId) (t : TypeSet) (why : User)
    : Engine :=
  let e := set_ts e id t in
  let e := note_anyobj e was_anyobj id why in
  let e := bump_changes e id in
  let e := set_stats e (n_raises e + 1) (anyobj_why e) (anyobj_first e) in
  enqueue_all e (default [] (subs e !! id)).

Lemma note_anyobj_core (e : Engine) (w : bool) (id : CellId) (why : User) :
  same_core e (note_anyobj e w id why) /\
  region_parent (note_anyobj e w id why) = region_parent e /\
  sink (note_anyobj e w id why) = sink e.
Proof. unfold note_anyobj. repeat case_match; by repeat split. Qed.

Record settled (e e' : Engine) (id : CellId) (t : TypeSet) : Prop := {
  se_ts : forall i, ts_of e' i = if decide (i = id) then (fun _ => t) <$> ts_of e id else ts_of e i;
  se_cells : forall m c, cells e !! id = Some c ->
    slack m (cells e') = slack m (cells e) + (eng_rank N m (ts c) - eng_rank N m t);
  se_wf : Forall cell_wf (cells e) -> cell_wf (mkCell KArrayElemsUnion t 0) ->
    Forall cell_wf (cells e');
  se_keys : key <$> cells e' = key <$> cells e;
  se_parent : region_parent e' = region_parent e;
  se_other : same_core (set_queue (set_cells e [] ∅) [] ∅ 0) (set_queue (set_cells e' [] ∅) [] ∅ 0);
  se_ids : cell_ids e' = cell_ids e;
  se_sink : sink e' = sink e;
  se_queue : queue_ok e';
  se_work : exists ws, worklist e' = worklist e ++ ws /\ ws ⊆ default [] (subs e !! id);
  se_fire : forall us u, subs e !! id = Some us -> u ∈ us -> u ∈ worklist e' }.

Lemma settle_spec (e : Engine) (w : bool) (id : CellId) (t : TypeSet) (why : User) :
  queue_ok e -> settled e (settle e w id t why) id t.
Proof.
  intros Hq. unfold settle.
  destruct (note_anyobj_core (set_ts e id t) w id why) as (Hn1 & Hr & Hsk).
  remember (note_anyobj (set_ts e id t) w id why) as e1 eqn:He1. clear He1.
  set (e2 := set_stats _ _ _ _).
  assert (queue_ok e2) as Hq2.
  { assert (worklist e1 = worklist e) as Ew by apply Hn1.
    assert (inq e1 = inq e) as Ei by apply Hn1.
    destruct Hq as [Hn Hi]. split; cbn; rewrite ?Ew, ?Ei; done. }
  destruct (enqueue_all_spec (default [] (subs e2 !! id)) e2 Hq2) as (Hs & Hq3 & Hw & Hin).
  remember (enqueue_all e2 (default [] (subs e2 !! id))) as e3 eqn:He3. clear He3.
  destruct Hs as [Hs Hpar Hsk3]. destruct Hn1, Hs. cbn in * |-.
  assert (cells e3 = alter (fun c => mkCell (key c) (ts c) (wrap_u 16 (changes c + 1))) id
    (alter (fun c => mkCell (key c) t (changes c)) id (cells e))) as Hc by congruence.
  assert (subs e3 = subs e) as Hsubs by congruence.
  split.
  - intros i. unfold ts_of. rewrite Hc. case_decide as Hi; [subst i|].
    + rewrite !list_lookup_alter_eq. by destruct (cells e !! id).
    + by rewrite !list_lookup_alter_ne by congruence.
  - intros m c Hcell. rewrite Hc.
    erewrite slack_alter by (rewrite list_lookup_alter_eq, Hcell; reflexivity).
    erewrite slack_alter by exact Hcell. cbn. lia.
  - intros Hf Ht. rewrite Hc. apply Forall_alter; [apply Forall_alter; [done|]|].
    + intros c _ _. exact Ht.
    + intros c Hcl [H1 H2]. done.
  - rewrite Hc. apply list_eq. intros i. rewrite !list_lookup_fmap.
    destruct (decide (i = id)) as [->|Hi].
    + rewrite !list_lookup_alter_eq. by destruct (cells e !! id).
    + by rewrite !list_lookup_alter_ne by congruence.
  - congruence.
  - split; cbn; congruence.
  - congruence.
  - cbn in *. congruence.
  - done.
  - destruct Hw as (ws & Hw & Hsub). exists ws. split; [congruence|].
    assert (subs e1 = subs e) as <- by done. done.
  - intros us u Hus Hu. apply Hin.
    assert (subs e1 = subs e) as -> by done. by rewrite Hus.
Qed.

End Run.
