(* ===== verification/EngineRaise.v ===== *)
(** * EngineRaise: a raise settles, element views included

    A raise terminates with fuel bounded by the potential, keeps the state
    well formed, only grows cells, delivers the value it was given and
    re-fires every subscriber of a cell that changed; a raise that merges no
    region also restores every standing link.  A merge of two regions installs
    the link between their element views and so raises again in the middle of
    the outer raise: each such raise is paid for by the merge. *)

From S2P Require Import Prelude OpSem Facts Types FnSets TypeLattice Engine EngineSound EngineRun.

Definition fresh (ks : list CellKey) : list Cell := (fun k => mkCell k ts_default 0) <$> ks.

Lemma ts_default_wf : ts_wf ts_default.
Proof. split; cbn; [vm_compute; intuition congruence|split; cbn; [constructor|unfold FN_MAX; lia|done]|done]. Qed.

Lemma ts_of_app (e e1 : Engine) (ks : list CellKey) (i : nat) (t : TypeSet) :
  cells e1 = cells e ++ fresh ks -> ts_of e i = Some t -> ts_of e1 i = Some t.
Proof.
  unfold ts_of. intros -> H. rewrite lookup_app_l; [done|].
  destruct (cells e !! i) eqn:E; [by eapply lookup_lt_Some|done].
Qed.

(** A cell that was not there holds bottom. *)
Lemma ts_of_app_new (e e1 : Engine) (ks : list CellKey) (i : nat) (t : TypeSet) :
  cells e1 = cells e ++ fresh ks -> ts_of e1 i = Some t -> ts_of e i = Some t \/ t = ts_default.
Proof.
  unfold ts_of. intros ->. destruct (decide (i < length (cells e))%nat) as [Hl|Hl].
  - rewrite lookup_app_l by done. auto.
  - rewrite lookup_app_r by lia. unfold fresh. rewrite list_lookup_fmap.
    destruct (ks !! _); [|done]. cbn. intros [= <-]. auto.
Qed.

(** What looking a cell up, or making it, does. *)
Record made (e e1 : Engine) (k : CellKey) (i : CellId) : Prop := {
  mk_shape : exists ks ids, e1 = set_cells e (cells e ++ fresh ks) ids /\ (forall k', k' ∈ ks -> k' = k);
  mk_id : cell_ids e1 !! k = Some i;
  mk_ext : forall k' j, cell_ids e !! k' = Some j -> cell_ids e1 !! k' = Some j;
  mk_only : forall k' j, cell_ids e1 !! k' = Some j -> k' = k \/ cell_ids e !! k' = Some j;
  mk_ok : ids_ok e -> ids_ok e1 }.

Lemma cell_made (e : Engine) (k : CellKey) : made e (fst (cell e k)) k (snd (cell e k)).
Proof.
  unfold cell. destruct (cell_ids e !! k) as [i|] eqn:E; cbn [fst snd].
  - split; auto. exists [], (cell_ids e). cbn. rewrite app_nil_r. split; [by destruct e|set_solver].
  - split; cbn.
    + exists [k], (<[k := length (cells e)]> (cell_ids e)). split; [done|set_solver].
    + by rewrite lookup_insert_eq.
    + intros k' j Hj. rewrite lookup_insert_ne; [done|congruence].
    + intros k' j. rewrite lookup_insert_Some. naive_solver.
    + intros Hid k' j. cbn. rewrite lookup_insert_Some. split.
      * intros [[<- <-]|[Hne Hj]].
        -- by rewrite lookup_app_r, Nat.sub_diag by lia.
        -- pose proof (ids_ok_lt _ _ _ Hid Hj). apply Hid in Hj. by rewrite lookup_app_l.
      * intros Hj. destruct (decide (j < length (cells e))%nat) as [Hl|Hl].
        -- rewrite lookup_app_l in Hj by done. apply Hid in Hj. right. split; [congruence|done].
        -- rewrite lookup_app_r in Hj by lia.
           destruct (j - length (cells e))%nat as [|n] eqn:En; [|by destruct n].
           cbn in Hj. injection Hj as <-. left. split; [done|lia].
Qed.

Section Raise.
  Context (N : nat) (K : gset CellKey).
#[local] Abbreviation eng_wf := (eng_wf N K).
#[local] Abbreviation grows := (grows N K).
#[local] Abbreviation pot := (pot N K).

Lemma made_wf (e e1 : Engine) (k : CellKey) (i : CellId) :
  eng_wf e -> k ∈ K -> made e e1 k i -> eng_wf e1 /\ (i < length (cells e1))%nat.
Proof.
  intros [Wl Wv Wi Wk Wc Wlk Wq] Hk [(ks & ids & E & Hks) Hid Hext Honly Hok]. specialize (Hok Wi).
  assert (cells e1 = cells e ++ fresh ks /\ elems_name e1 = elems_name e /\ links e1 = links e /\
    abs_labels e1 = abs_labels e /\ region_parent e1 = region_parent e /\ worklist e1 = worklist e /\
    inq e1 = inq e) as (Ec & Ee & El & Ea & Ep & Ew & Eq) by (by rewrite E).
  split; [|by eapply ids_ok_lt]. split.
  - destruct Wl. split; rewrite ?Ea, ?Ep; done.
  - by rewrite Ee.
  - done.
  - intros k' j [->|Hj]%Honly; [done|by eapply Wk].
  - rewrite Ec. apply Forall_app. split; [done|]. apply Forall_fmap, list.Forall_forall.
    intros x _. split; [apply ts_default_wf|done].
  - intros s ds d. rewrite El, Ec, length_app. intros H1 H2. specialize (Wlk s ds d H1 H2). lia.
  - destruct Wq. split; rewrite ?Ew, ?Eq; done.
Qed.

(** *** Specifications *)

Record raised (e e' : Engine) (id : CellId) (t : TypeSet) : Prop := {
  ra_wf : eng_wf e';
  ra_grows : grows e e';
  ra_links : region_parent e' = region_parent e -> relinks e e';
  ra_le : exists cur u, ts_of e id = Some cur /\ ts_of e' id = Some u /\ ts_le e' t u /\
    (unknown t = true -> unknown u = true \/ no_growth e cur t = true);
  ra_quiet : pot e' = pot e ->
    worklist e' = worklist e \/
    (~ canonical e (obj t) /\ (exists u, ts_of e' id = Some u /\ canonical e' (obj u)) /\
     exists ws, worklist e' = worklist e ++ ws /\ ws ⊆ default [] (subs e !! id)) }.

(** Fuel: twice the potential, and one more step for a label a region rescue
    can report without growth. *)
Definition fuel_ok (n : nat) (e : Engine) (t : TypeSet) : Prop :=
  2 * pot e + 1 <= Z.of_nat n /\ (canonical e (obj t) \/ 2 * pot e + 2 <= Z.of_nat n).

Definition raise_spec (n : nat)
    (rr : Engine -> CellId -> TypeSet -> User -> option Engine) : Prop :=
  forall e id t why,
    eng_wf e -> (id < length (cells e))%nat -> ts_wf t -> obj_below N (obj t) -> fuel_ok n e t ->
    exists e', rr e id t why = Some e' /\ raised e e' id t.

Lemma canonical_frame (e e' : Engine) (o : ObjType) :
  region_parent e' = region_parent e -> array_classes e' = array_classes e ->
  canonical e o -> canonical e' o.
Proof. intros H1 H2. destruct o; cbn; rewrite ?H1, ?H2; done. Qed.

Lemma fuel_ok_next (n : nat) (e e' : Engine) (t : TypeSet) :
  grows e e' -> fuel_ok n e t -> fuel_ok n e' t.
Proof.
  intros G [H1 H2]. pose proof (g_pot _ _ _ _ G). unfold fuel_ok.
  destruct (decide (pot e' = pot e)) as [E|E].
  - rewrite E. split; [done|]. destruct H2 as [H2|H2]; [left|auto].
    eapply canonical_frame; [apply (g_same _ _ _ _ G E)|apply (g_arrays _ _ _ _ G)|done].
  - split; [lia|right; lia].
Qed.

Lemma raise_all_ok (n : nat) (rr : Engine -> CellId -> TypeSet -> User -> option Engine)
    (why : User) (v : TypeSet) :
  raise_spec n rr -> ts_wf v -> obj_below N (obj v) ->
  forall ds e, eng_wf e -> (forall d, d ∈ ds -> (d < length (cells e))%nat) -> fuel_ok n e v ->
  exists e', raise_all rr e ds v why = Some e' /\ eng_wf e' /\ grows e e' /\
    (region_parent e' = region_parent e -> relinks e e') /\
    (forall d, d ∈ ds -> exists u, ts_of e' d = Some u /\ ts_le e' v u) /\
    (canonical e (obj v) -> pot e' = pot e -> worklist e' = worklist e).
Proof.
  intros Hrr Wv Bv. induction ds as [|d ds IH]; intros e We Hd Hf; cbn [raise_all].
  - exists e. split_and!; try done; [by apply grows_refl| |].
    + by intros _ s [H|H].
    + intros d Hd'. by apply not_elem_of_nil in Hd'.
  - destruct (Hrr e d v why) as (e1 & E1 & [W1 G1 L1 (cu & u1 & _ & Hu1 & Hle1 & _) Q1]); auto.
    { apply Hd. set_solver. }
    rewrite E1. cbn [mbind option_bind].
    destruct (IH e1) as (e2 & -> & W2 & G2 & L2 & D2 & Q2); auto.
    { intros d' Hd'. pose proof (grows_length _ _ _ _ G1). assert (d' < length (cells e))%nat; [|lia].
      apply Hd. set_solver. }
    { by eapply fuel_ok_next. }
    exists e2. split_and!; try done; [by apply (grows_trans _ _ e e1)| | |].
    + intros E. destruct (grows_still _ _ _ _ _ G1 G2 E). apply (relinks_trans e e1); auto.
    + intros d' [->|Hd']%elem_of_cons; [|by apply D2].
      destruct (g_cells _ _ _ _ G2 d u1 Hu1) as (u2 & Hu2 & [Hle2 _]). exists u2. split; [done|].
      apply (ts_of_wf N K) in Hu1 as [? _]; [|done]. eapply ts_le_trans; eauto.
      eapply ts_le_mono; [apply G2|done].
    + intros Hc Heq. pose proof (g_pot _ _ _ _ G1). pose proof (g_pot _ _ _ _ G2).
      assert (pot e1 = pot e) as Hp1 by lia.
      destruct (Q1 Hp1) as [Hw1|[Hn _]]; [|done]. rewrite <- Hw1. apply Q2; [|lia].
      eapply canonical_frame; [apply (g_same _ _ _ _ G1 Hp1)|apply (g_arrays _ _ _ _ G1)|done].
Qed.

(** *** Merging regions *)

(** The state right after a merge, before anything is raised. *)
Record merged (e e1 : Engine) (win lose : ClassId) : Prop := {
  mg_shape : exists p m ks ids l ls,
    e1 = set_links (set_cells (set_regions e p m) (cells e ++ fresh ks) ids) l ls /\
    p = <[lose := win]> (region_parent e) /\
    (forall k i, cell_ids e !! k = Some i -> ids !! k = Some i) /\
    (forall s ds, links e !! s = Some ds -> exists ds', l !! s = Some (ds ++ ds')) /\
    link_set e ⊆ ls;
  mg_lt : (win < lose)%nat;
  mg_win : region_parent e !! win = None;
  mg_lose : region_parent e !! lose = None }.

Lemma merged_roots (e e1 : Engine) (win lose : ClassId) :
  parent_wf (region_parent e) -> merged e e1 win lose ->
  parent_wf (region_parent e1) /\
  forall x, region_root e1 x = if bool_decide (region_root e x = lose) then win else region_root e x.
Proof.
  intros Hp [(p & m & ks & ids & l & ls & -> & -> & _) Hlt Hw Hl].
  match goal with |- context [region_root ?e1] =>
    pose proof (fun x => region_root_merge e e1 win lose x Hp Hlt Hw Hl eq_refl) as H end.
  split; [apply (H 0%nat)|]. intros x. by destruct (H x).
Qed.

Lemma merged_size (e e1 : Engine) (win lose : ClassId) :
  merged e e1 win lose -> size (region_parent e1) = S (size (region_parent e)).
Proof.
  intros [(p & m & ks & ids & l & ls & -> & -> & _) _ _ Hl]. cbn. by rewrite map_size_insert_None.
Qed.

Lemma merged_grows (e e1 : Engine) (win lose : ClassId) :
  eng_wf e -> eng_wf e1 -> merged e e1 win lose -> grows e e1.
Proof.
  intros W W1 M. pose proof (lb_wf _ _ (ew_labels _ _ _ W)) as Hp.
  destruct (merged_roots e e1 win lose Hp M) as [_ R]. pose proof (merged_size _ _ _ _ M) as Hsz.
  pose proof (region_root_le e Hp) as Hle. pose proof (mg_lt _ _ _ _ M) as Hlt.
  assert (size (region_parent e) < size (region_parent e1))%nat as Hgt by lia.
  pose proof (pot_lex N K e e1 W W1 Hgt) as Hpot.
  assert (view_le e e1) as V.
  { destruct M as [(p & m & ks & ids & l & ls & E & _) _ _ _]. split; [by rewrite E| |by rewrite E].
    intros c d. rewrite !R. by intros ->. }
  destruct M as [(p & m & ks & ids & l & ls & E & Ep & Hids & Hlk & Hls) _ _ _].
  assert (cells e1 = cells e ++ fresh ks) as Ec by (by rewrite E).
  assert (forall i t, ts_of e i = Some t -> ts_of e1 i = Some t) as Hts by (intros i t; by apply ts_of_app with ks).
  split; try (by rewrite E); try done; try lia; auto.
  - exists ks. rewrite Ec, fmap_app. f_equal. unfold fresh. rewrite <- list_fmap_compose.
    clear. induction ks as [|x ks IH]; [done|]. cbn. by f_equal.
  - intros i t Ht. exists t. split; [auto|]. apply ts_grow_refl. apply (ts_of_wf N K e i t W Ht).
  - intros c. rewrite R. specialize (Hle c). case_bool_decide; lia.
  - intros Eq. rewrite Eq in Hgt. lia.
  - exists []. rewrite app_nil_r, E. split; [done|]. set_solver.
  - intros i t us u Ht Hne. specialize (Hts i t Ht). done.
Qed.

Lemma merged_wf (e e1 : Engine) (win lose : ClassId) :
  eng_wf e -> merged e e1 win lose -> (lose < N)%nat -> ids_ok e1 ->
  (forall k i, cell_ids e1 !! k = Some i -> k ∈ K) ->
  (forall s ds d, links e1 !! s = Some ds -> d ∈ ds -> (d < length (cells e1))%nat) -> eng_wf e1.
Proof.
  intros [Wl Wv Wi Wk Wc Wlk Wq] M Hl Hid Hk Hlk. destruct (merged_roots e e1 win lose (lb_wf _ _ Wl) M) as [Hp _].
  pose proof (mg_lt _ _ _ _ M).
  destruct M as [(p & m & ks & ids & l & ls & E & Ep & _) _ _ _].
  split; try done.
  - destruct Wl as [La Lp Lw]. split; [by rewrite E| |done].
    rewrite E. cbn. rewrite Ep. intros x y [[<- <-]|[_ Hxy]]%lookup_insert_Some; [lia|by eapply Lp].
  - rewrite E. exact Wv.
  - rewrite E. cbn. apply Forall_app. split; [done|]. apply Forall_fmap, list.Forall_forall.
    intros x _. split; [apply ts_default_wf|done].
  - rewrite E. by destruct Wq.
Qed.

(** A merge makes the smaller root the root of both. *)
Definition union_win (e : Engine) (c d : ClassId) : ClassId :=
  Nat.min (region_root e c) (region_root e d).
Definition union_lose (e : Engine) (c d : ClassId) : ClassId :=
  Nat.max (region_root e c) (region_root e d).

(** The link a merge installs between the two element views, and what it
    delivers. *)
Definition views_linked (e e' : Engine) (win lose : ClassId) (en : NameId) : Prop :=
  exists from to,
    cell_ids e' !! KClassView lose en = Some from /\ cell_ids e' !! KClassView win en = Some to /\
    (from, to) ∈ link_set e' /\
    ((from, to) ∈ link_set e \/
     forall v, ts_of e from = Some v ->
       ts_is_empty v = true \/ exists u, ts_of e' to = Some u /\ ts_le e' v u).

Record unioned (e e' : Engine) (c d : ClassId) : Prop := {
  un_wf : eng_wf e';
  un_grows : grows e e';
  un_same : region_root e' c = region_root e' d;
  un_case : (region_root e c = region_root e d /\ e' = e) \/
    (region_root e c <> region_root e d /\
     (size (region_parent e) < size (region_parent e'))%nat);
  un_exact : (size (region_parent e') <= S (size (region_parent e)))%nat ->
    forall x, region_root e' x =
      if bool_decide (region_root e x = region_root e c \/ region_root e x = region_root e d)
      then union_win e c d else region_root e x;
  un_views : forall en, elems_name e = Some en -> region_root e c <> region_root e d ->
    views_linked e e' (union_win e c d) (union_lose e c d) en }.

Lemma root_same (e e' : Engine) (c : ClassId) :
  region_parent e' = region_parent e -> region_root e' c = region_root e c.
Proof. intros H. unfold region_root. by rewrite H. Qed.

(** What follows a merge, put together with it. *)
Lemma merged_unioned (e e1 e' : Engine) (c d : ClassId) :
  eng_wf e -> eng_wf e1 -> merged e e1 (union_win e c d) (union_lose e c d) ->
  eng_wf e' -> grows e1 e' ->
  (forall en, elems_name e = Some en -> views_linked e e' (union_win e c d) (union_lose e c d) en) ->
  unioned e e' c d.
Proof.
  intros W W1 M W' G Hv. pose proof (merged_grows _ _ _ _ W W1 M) as G1.
  destruct (merged_roots e e1 _ _ (lb_wf _ _ (ew_labels _ _ _ W)) M) as [_ R].
  pose proof (merged_size _ _ _ _ M) as Hsz. pose proof (mg_lt _ _ _ _ M) as Hlt.
  pose proof (grows_trans _ _ _ _ _ W W1 G1 G) as G2. unfold union_win, union_lose in *.
  split; auto.
  - apply (vl_regions _ _ (g_view _ _ _ _ G)). rewrite !R. repeat case_bool_decide; lia.
  - right. split; [lia|]. destruct (g_size _ _ _ _ G) as [E|L]; [rewrite E|]; lia.
  - intros Hle x. destruct (g_size _ _ _ _ G) as [E|L]; [|lia]. rewrite (root_same _ _ _ E), R.
    unfold union_win. repeat case_bool_decide; lia.
Qed.

Section Open.
  Context (n : nat) (rr : Engine -> CellId -> TypeSet -> User -> option Engine)
    (Hrr : raise_spec n rr).

Lemma union_regions_ok (e : Engine) (c d : ClassId) :
  eng_wf e -> (c < N)%nat -> (d < N)%nat -> 2 * pot e <= Z.of_nat n ->
  exists e', union_regions_with rr e c d = Some (e', union_win e c d) /\ unioned e e' c d.
Proof.
  intros W Hc Hd Hf. unfold union_regions_with.
  pose proof (ew_labels _ _ _ W) as Hl. pose proof (lb_wf N e Hl) as Hp.
  pose proof (region_root_None e Hp c) as Rc. pose proof (region_root_None e Hp d) as Rd.
  case_bool_decide as E.
  { exists e. unfold union_win. rewrite <- E, Nat.min_id. split; [done|].
    split; auto using grows_refl.
    - intros _ x. unfold union_win. rewrite <- E, Nat.min_id. case_bool_decide; intuition congruence.
    - done. }
  pose proof (region_root_below N e c Hl Hc). pose proof (region_root_below N e d Hl Hd).
  assert ((if (region_root e c <? region_root e d)%nat then (region_root e c, region_root e d)
           else (region_root e d, region_root e c)) = (union_win e c d, union_lose e c d)) as ->.
  { unfold union_win, union_lose. destruct (Nat.ltb_spec (region_root e c) (region_root e d)); f_equal; lia. }
  assert (region_parent e !! union_win e c d = None /\ region_parent e !! union_lose e c d = None /\
    (union_win e c d < union_lose e c d)%nat /\ (union_lose e c d < N)%nat) as (Hw & Hlo & Hlt & HN).
  { unfold union_win, union_lose.
    destruct (Nat.le_ge_cases (region_root e c) (region_root e d));
      rewrite ?Nat.min_l, ?Nat.max_r, ?Nat.min_r, ?Nat.max_l by lia; split_and!; auto; lia. }
  cbv zeta. set (e0 := set_regions _ _ _).
  assert (forall s ds d', links e !! s = Some ds -> d' ∈ ds -> (d' < length (cells e))%nat) as Hlk by apply W.
  assert (merged e e0 (union_win e c d) (union_lose e c d)) as M0.
  { split; auto. exists (region_parent e0), (region_members e0), [], (cell_ids e), (links e), (link_set e).
    split_and!; try done.
    - cbn. rewrite app_nil_r. by destruct e.
    - intros s ds Hs. exists []. by rewrite app_nil_r. }
  assert (eng_wf e0) as W0 by (apply (merged_wf e e0 _ _ W M0 HN); apply W).
  change (elems_name e0) with (elems_name e). destruct (elems_name e) as [en|] eqn:Een.
  2: { exists e0. split; [done|]. apply (merged_unioned e e0 e0); auto using grows_refl. congruence. }
  assert (forall x, (x < N)%nat -> KClassView x en ∈ K) as Hviews by (intros x; by apply (ew_views _ _ _ W)).
  pose proof (cell_made e0 (KClassView (union_lose e c d) en)) as C1.
  destruct (cell e0 _) as [e1 from]. cbn [fst snd] in C1.
  destruct (made_wf _ _ _ _ W0 (Hviews _ HN) C1) as [W1 L1].
  pose proof (cell_made e1 (KClassView (union_win e c d) en)) as C2.
  destruct (cell e1 _) as [e2 to]. cbn [fst snd] in C2.
  assert (KClassView (union_win e c d) en ∈ K) as Kw by (apply Hviews; lia).
  destruct (made_wf _ _ _ _ W1 Kw C2) as [W2 L2].
  pose proof (mk_ext _ _ _ _ C2 _ _ (mk_id _ _ _ _ C1)) as Hfrom. pose proof (mk_id _ _ _ _ C2) as Hto.
  destruct C1 as [(ks1 & ids1 & E1 & _) _ X1 _ _], C2 as [(ks2 & ids2 & E2 & _) _ X2 _ _].
  assert (cells e2 = cells e ++ fresh (ks1 ++ ks2)) as Ec2.
  { rewrite E2, E1. cbn. unfold fresh. by rewrite fmap_app, app_assoc. }
  assert (forall l ls, (forall s ds, links e !! s = Some ds -> exists ds', l !! s = Some (ds ++ ds')) ->
    link_set e ⊆ ls -> merged e (set_links e2 l ls) (union_win e c d) (union_lose e c d)) as M2.
  { intros l ls Hll Hls. split; auto.
    exists (region_parent e0), (region_members e0), (ks1 ++ ks2), ids2, l, ls. split_and!; auto.
    - rewrite <- Ec2, E2, E1. reflexivity.
    - intros k i Hk. rewrite E2 in X2. apply X2, X1, Hk. }
  assert (from <> to) as Hne.
  { intros ->. assert (KClassView (union_lose e c d) en = KClassView (union_win e c d) en); [|by simplify_eq; lia].
    apply (ew_ids _ _ _ W2) in Hfrom, Hto. congruence. }
  assert (link_set e2 = link_set e /\ links e2 = links e) as [Els Elk] by (by rewrite E2, E1).
  unfold link_with. rewrite (bool_decide_false (from = to)) by done. cbn [orb].
  case_bool_decide as Hin.
  { (* the link was already there *)
    cbn [mbind option_bind]. exists e2. split; [done|].
    assert (merged e e2 (union_win e c d) (union_lose e c d)) as M.
    { replace e2 with (set_links e2 (links e2) (link_set e2)) by (by destruct e2).
      apply M2; rewrite ?Elk, ?Els; [|done]. intros s ds Hs. exists []. by rewrite app_nil_r. }
    apply (merged_unioned e e2 e2); auto using grows_refl.
    intros en' Hen'. rewrite Een in Hen'. injection Hen' as <-. exists from, to. rewrite Els in Hin |- *. auto. }
  set (e3 := set_links e2 _ _).
  assert (merged e e3 (union_win e c d) (union_lose e c d)) as M3.
  { apply M2; rewrite ?Els, ?Elk; [|set_solver]. intros s ds Hs. destruct (decide (s = from)) as [->|Hsf].
    - rewrite lookup_insert_eq, Hs. by exists [to].
    - rewrite lookup_insert_ne by done. exists []. by rewrite app_nil_r. }
  assert (eng_wf e3) as W3.
  { apply (merged_wf e e3 _ _ W M3 HN); [apply W2|apply W2|].
    intros s ds d' Hs Hd'. change (length (cells e3)) with (length (cells e2)). cbn in Hs.
    apply lookup_insert_Some in Hs as [[<- <-]|[_ Hs]]; [|by eapply (ew_links _ _ _ W2)].
    apply elem_of_app in Hd' as [Hd'| ->%list_elem_of_singleton]; [|done].
    destruct (links e2 !! from) as [ds0|] eqn:Eds; [by eapply (ew_links _ _ _ W2)|by apply not_elem_of_nil in Hd']. }
  destruct (ts_of_lt e2 from) as [v Hv]; [by eapply ids_ok_lt; [apply W2|]|].
  change (ts_of e3 from) with (ts_of e2 from). rewrite Hv. cbn [mbind option_bind].
  assert (forall v', ts_of e from = Some v' -> v' = v) as Hvv.
  { intros v' Hv'. apply (ts_of_app e e2 _ from v' Ec2) in Hv'. congruence. }
  destruct (ts_is_empty v) eqn:Hemp.
  { cbn [mbind option_bind]. exists e3. split; [done|]. apply (merged_unioned e e3 e3); auto using grows_refl.
    intros en' Hen'. rewrite Een in Hen'. injection Hen' as <-. exists from, to. split_and!; auto; [set_solver|].
    right. intros v' ->%Hvv. auto. }
  destruct (ts_of_wf N K e2 from v W2 Hv) as [Wv Bv].
  pose proof (merged_size _ _ _ _ M3) as Hsz.
  pose proof (pot_lex N K e e3 W W3 ltac:(lia)) as Hpot.
  destruct (Hrr e3 to v (SEED, CTX0) W3) as (e4 & -> & HR); auto.
  { split; [lia|right; lia]. }
  cbn [mbind option_bind]. exists e4. split; [done|]. destruct HR as [W4 G4 _ (cu & u & _ & Hu & Hle & _) _].
  apply (merged_unioned e e3 e4); auto. intros en' Hen'. rewrite Een in Hen'. injection Hen' as <-.
  exists from, to. split_and!; [by apply G4|by apply G4|apply G4; set_solver|].
  right. intros v' ->%Hvv. eauto.
Qed.

(** *** Rescues *)

(** What a rescue does to the object part. *)
Record rescued (e e' : Engine) (a b : ObjType) (jo : option ObjType) : Prop := {
  re_wf : eng_wf e';
  re_grows : grows e e';
  re_case : e' = e \/ (size (region_parent e) < size (region_parent e'))%nat;
  re_below : obj_below N (default (join_obj a b (abs_labels e)) jo);
  re_rank : default (join_obj a b (abs_labels e)) jo = a \/
    (eng_obj_rank N (abs_labels e) a
       < eng_obj_rank N (abs_labels e) (default (join_obj a b (abs_labels e)) jo))%nat;
  re_cover : forall j, jo = Some j -> obj_le e' a j /\ obj_le e' b j;
  re_canonical : forall j, jo = Some j -> e' = e -> canonical e j;
  re_spurious : jo = Some a -> join_obj a b (abs_labels e) <> a -> canonical e b -> e' <> e }.

(** A class label, or an abstraction of a class, is covered by the winner's label. *)
Lemma one_covered (e e' : Engine) (x : AbsId) (c w : ClassId) :
  view_le e e' -> class_of x (abs_labels e) = Some c -> region_root e' c = region_root e' w ->
  obj_le e' (OOne x) (OClassAny w) /\ obj_le e' (OOne x) (OAnyOf w).
Proof.
  intros V Hx Hr. split; exists x; (split; [apply rtc_refl|]); exists c; by rewrite (vl_labels _ _ V).
Qed.

Lemma win_region (e e' : Engine) (c d x : ClassId) :
  eng_wf e -> unioned e e' c d -> x = c \/ x = d -> region_root e' x = region_root e' (union_win e c d).
Proof.
  intros W U Hx. pose proof (lb_wf _ _ (ew_labels _ _ _ W)) as Hp.
  pose proof (vl_regions _ _ (g_view _ _ _ _ (un_grows _ _ _ _ U))) as HR.
  pose proof (un_same _ _ _ _ U) as Hs.
  assert (region_root e' c = region_root e' (union_win e c d)) as Hc.
  { unfold union_win. destruct (Nat.min_spec (region_root e c) (region_root e d)) as [[_ ->]|[_ ->]].
    - apply HR. by rewrite region_root_idemp.
    - rewrite Hs. apply HR. by rewrite region_root_idemp. }
  destruct Hx as [->| ->]; congruence.
Qed.

Lemma union_still (e e' : Engine) (c d : ClassId) :
  unioned e e' c d -> e' = e -> region_root e c = region_root e d.
Proof. intros U ->. destruct (un_case _ _ _ _ U) as [[? _]|[_ ?]]; [done|lia]. Qed.

Lemma union_case (e e' : Engine) (c d : ClassId) :
  unioned e e' c d -> e' = e \/ (size (region_parent e) < size (region_parent e'))%nat.
Proof. intros U. destruct (un_case _ _ _ _ U) as [[_ ?]|[_ ?]]; auto. Qed.

Lemma rescue_array (e : Engine) (a b : ObjType) (c d : ClassId) :
  eng_wf e -> 2 * pot e <= Z.of_nat n -> obj_below N a -> obj_below N b ->
  array_region_of e a = Some c -> array_region_of e b = Some d ->
  exists e' jo, rescue_with rr e a b = Some (e', jo) /\ rescued e e' a b jo.
Proof.
  intros W Hf Ha Hb Ea Eb. unfold rescue_with. rewrite Ea, Eb. pose proof (ew_labels _ _ _ W) as Hl.
  destruct (array_region_spec N e a c Hl Ha Ea) as (Hc & Rc & Ca).
  destruct (array_region_spec N e b d Hl Hb Eb) as (Hd & Rd & Cb).
  destruct (union_regions_ok e c d W Hc Hd Hf) as (e' & -> & U). cbn [mbind option_bind].
  eexists e', (Some (OClassAny (union_win e c d))). split; [done|].
  pose proof (region_root_le e (lb_wf N e Hl) c). pose proof (region_root_le e (lb_wf N e Hl) d).
  pose proof (g_view _ _ _ _ (un_grows _ _ _ _ U)) as V.
  pose proof (fun x => win_region e e' c d x W U) as Hwin.
  split; [apply U|apply U|by eapply union_case|..]; cbn [default from_option id].
  - change (union_win e c d < N)%nat. unfold union_win. lia.
  - destruct Ca as [->|(x & -> & _)]; cbn [id eng_obj_rank].
    + destruct (decide (union_win e c d = c)) as [->|]; [auto|]. right. unfold union_win in *. lia.
    + right. destruct (is_snap _ _); unfold union_win; lia.
  - intros j [= <-]. split.
    + destruct Ca as [->|(x & -> & Hx)]; [by apply Hwin; auto|]. eapply one_covered; eauto.
    + destruct Cb as [->|(x & -> & Hx)]; [by apply Hwin; auto|]. eapply one_covered; eauto.
  - intros j [= <-] _. unfold union_win. pose proof (region_root_None e (lb_wf N e Hl)).
    destruct (Nat.min_spec (region_root e c) (region_root e d)) as [[_ ->]|[_ ->]]; by split.
  - intros [= <-] Hne Hcan Heq. apply (union_still _ _ _ _ U) in Heq.
    destruct Cb as [->|(x & -> & _)]; [|done]. cbn in Hcan. destruct Hcan as [Hdn _].
    pose proof (region_root_fix e d Hdn) as Hdr.
    destruct Ca as [[= Hwc]|(x & [= _] & _)].
    assert (union_win e c d = d) as Hw by (unfold union_win; rewrite Heq, Nat.min_id; congruence).
    apply Hne. rewrite Hw. by apply join_obj_idemp.
Qed.

(** The other path: two classed, non-array parts meet in [AnyOf]. *)
Definition rescue_region (e : Engine) (a b : ObjType) : option (Engine * option ObjType) :=
  if bool_decide (join_obj a b (abs_labels e) = OAnyObject)
  then
    let '(ca, aa) := class_and_arrayness e a in
    let '(cb, ab) := class_and_arrayness e b in
    match ca, cb with
    | Some c, Some d =>
        if negb aa && negb ab
        then '(e, r) ← union_regions_with rr e c d; Some (e, Some (OAnyOf r))
        else Some (e, None)
    | _, _ => Some (e, None)
    end
  else Some (e, None).

Lemma rescued_none (e : Engine) (a b : ObjType) :
  eng_wf e -> obj_below N a -> obj_below N b -> rescued e e a b None.
Proof.
  intros W Ha Hb. destruct (join_obj_eng_rank N a b (abs_labels e) Ha Hb (lb_abs N e (ew_labels _ _ _ W))).
  split; try done; auto using grows_refl.
Qed.

Lemma rescue_region_ok (e : Engine) (a b : ObjType) :
  eng_wf e -> 2 * pot e <= Z.of_nat n -> obj_below N a -> obj_below N b ->
  exists e' jo, rescue_region e a b = Some (e', jo) /\ rescued e e' a b jo.
Proof.
  intros W Hf Ha Hb. unfold rescue_region. pose proof (ew_labels _ _ _ W) as Hl.
  case_bool_decide as Hj; [|eauto using rescued_none].
  destruct (class_and_arrayness e a) as [[c|] aa] eqn:Ea,
    (class_and_arrayness e b) as [[d|] ab] eqn:Eb; try by eauto using rescued_none.
  destruct (negb aa && negb ab) eqn:Har; [|eauto using rescued_none].
  apply andb_true_iff in Har as [Haa%negb_true_iff Hab%negb_true_iff]. subst aa ab.
  destruct (class_below N e a c _ Hl Ha Ea) as [Hc Ca], (class_below N e b d _ Hl Hb Eb) as [Hd Cb].
  destruct (union_regions_ok e c d W Hc Hd Hf) as (e' & -> & U). cbn [mbind option_bind].
  eexists e', (Some (OAnyOf (union_win e c d))). split; [done|].
  pose proof (region_root_le e (lb_wf N e Hl) c). pose proof (region_root_le e (lb_wf N e Hl) d).
  pose proof (g_view _ _ _ _ (un_grows _ _ _ _ U)) as V.
  pose proof (fun x => win_region e e' c d x W U) as Hwin.
  assert (forall o x ar, class_and_arrayness e o = (Some x, ar) -> x = c \/ x = d ->
    obj_le e' o (OAnyOf (union_win e c d))) as Hcov.
  { intros o x ar Ho Hx. destruct o as [|y|x'|x'|]; cbn in Ho; try done.
    - eapply one_covered; [done| |by apply Hwin]. unfold class_of.
      destruct (abs_labels e !! y); [|done]. congruence.
    - injection Ho as -> _. by apply Hwin.
    - injection Ho as -> _. by apply Hwin. }
  split; [apply U|apply U|by eapply union_case|..]; cbn [default from_option id].
  - change (union_win e c d < N)%nat. unfold union_win. lia.
  - destruct Ca as [(x & ->)|[[-> _]| ->]]; cbn [id eng_obj_rank].
    + right. destruct (is_snap _ _); unfold union_win; lia.
    + right. unfold union_win. lia.
    + destruct (decide (union_win e c d = c)) as [->|]; [auto|]. right. unfold union_win in *. lia.
  - intros j [= <-]. split; eauto.
  - intros j [= <-] _. unfold union_win. pose proof (region_root_None e (lb_wf N e Hl)).
    destruct (Nat.min_spec (region_root e c) (region_root e d)) as [[_ ->]|[_ ->]]; cbn [canonical]; auto.
  - intros [= <-] Hne Hcan Heq. apply (union_still _ _ _ _ U) in Heq.
    destruct Ca as [(x & [= _])|[[[= _] _]|[= Hwc]]].
    destruct Cb as [(x & ->)|[[-> Hab]| ->]]; cbn in Hcan; [done| |].
    + destruct Hcan as [Hdn Hda]. rewrite (region_root_fix e d Hdn) in Hab.
      by rewrite bool_decide_true in Hab.
    + pose proof (region_root_fix e d Hcan) as Hdr.
      assert (union_win e c d = d) as Hw by (unfold union_win; rewrite Heq, Nat.min_id; congruence).
      apply Hne. rewrite Hw. by apply join_obj_idemp.
Qed.

Lemma rescue_ok (e : Engine) (a b : ObjType) :
  eng_wf e -> 2 * pot e <= Z.of_nat n -> obj_below N a -> obj_below N b ->
  exists e' jo, rescue_with rr e a b = Some (e', jo) /\ rescued e e' a b jo.
Proof.
  intros W Hf Ha Hb.
  destruct (array_region_of e a) as [c|] eqn:Ea; [destruct (array_region_of e b) as [d|] eqn:Eb|].
  - by eapply rescue_array.
  - destruct (rescue_region_ok e a b W Hf Ha Hb) as (e' & jo & H & Hr).
    exists e', jo. split; [|done]. unfold rescue_with. rewrite Ea, Eb. exact H.
  - destruct (rescue_region_ok e a b W Hf Ha Hb) as (e' & jo & H & Hr).
    exists e', jo. split; [|done]. unfold rescue_with. rewrite Ea.
    destruct (array_region_of e b); exact H.
Qed.

(** *** The typeset join of the engine *)

Record joined (e e' : Engine) (dst src t : TypeSet) (changed : bool) : Prop := {
  jo_eng : eng_wf e';
  jo_grows : grows e e';
  jo_case : (exists sk, e' = set_sink e sk) \/
    (size (region_parent e) < size (region_parent e'))%nat;
  jo_wf : ts_wf t;
  jo_below : obj_below N (obj t);
  jo_dst : ts_grow e' dst t;
  jo_src : ts_grow e' src t;
  jo_report : changed = false -> t = dst;
  jo_rank : t = dst \/
    (changed = true /\ eng_rank N (abs_labels e) dst < eng_rank N (abs_labels e) t);
  jo_spurious : changed = true -> t = dst ->
    (size (region_parent e) < size (region_parent e'))%nat \/
    (canonical e (obj t) /\ ~ canonical e (obj src)) }.

Lemma set_sink_wf (e : Engine) (sk : JoinSink) : eng_wf e -> eng_wf (set_sink e sk).
Proof. intros [Wl Wv Wi Wk Wc Wlk Wq]. split; try done; [by destruct Wl|by destruct Wq]. Qed.

Lemma set_sink_grows (e : Engine) (sk : JoinSink) :
  eng_wf e -> snap_absorbs (sink e) ⊆ snap_absorbs sk -> grows e (set_sink e sk).
Proof.
  intros W Hs. assert (view_le e (set_sink e sk)) as V by (by apply view_le_same).
  split; try done; auto.
  - exists []. by rewrite app_nil_r.
  - intros i t Ht. exists t. split; [done|]. apply ts_grow_refl. apply (ts_of_wf N K e i t W Ht).
  - intros s ds Hd. exists []. by rewrite app_nil_r.
  - exists []. rewrite app_nil_r. set_solver.
Qed.

Lemma join_from_absorbs (t o : TypeSet) (m : list AbsLabels) (sk : JoinSink) :
  snap_absorbs (snd (fst (join_from t o m sk))) =
    snap_absorbs sk ++ snap_absorbed (obj t) (obj o) (join_obj (obj t) (obj o) m).
Proof. unfold join_from. by destruct (fns_join_from _ _ _) as [[? ?] ?]. Qed.

Lemma parts_le_obj (t u v : TypeSet) :
  prims u = prims v -> fns u = fns v -> range u = range v -> interval u = interval v ->
  parts_le t u -> parts_le t v.
Proof. intros E1 E2 E3 E4 []. split; congruence. Qed.

(** A typeset join with some object part above both sides' grows both. *)
Lemma join_grow (e : Engine) (dst src : TypeSet) (m : list AbsLabels) (o : ObjType) :
  ts_wf dst -> ts_wf src -> obj_le e (obj dst) o -> obj_le e (obj src) o ->
  ts_grow e dst (with_obj (ts_join dst src m) o) /\ ts_grow e src (with_obj (ts_join dst src m) o).
Proof.
  intros Hd Hs Od Os.
  assert (unknown (ts_join dst src m) = unknown dst || unknown src) as Hu by (by rewrite ts_join_eq).
  split; (split; [split; [|done]|cbn; rewrite Hu; intros ->; auto with bool]).
  - eapply parts_le_obj; [..|by apply (parts_le_join_l dst src m)]; done.
  - eapply parts_le_obj; [..|by apply (parts_le_join_r dst src m)]; done.
Qed.

Lemma with_obj_self (t : TypeSet) : with_obj t (obj t) = t.
Proof. by destruct t. Qed.

Lemma join_ts_ok (e : Engine) (dst src : TypeSet) :
  eng_wf e -> 2 * pot e <= Z.of_nat n -> ts_wf dst -> ts_wf src ->
  obj_below N (obj dst) -> obj_below N (obj src) ->
  exists e' t changed, join_ts_with rr e dst src = Some (e', t, changed) /\
    joined e e' dst src t changed.
Proof.
  intros W Hf Hd Hs Bd Bs. unfold join_ts_with.
  destruct (rescue_ok e (obj dst) (obj src) W Hf Bd Bs) as (e1 & jo & -> & Hr).
  destruct Hr as [W1 G1 Rc Rb Rr Rcov Rcan Rsp]. cbn [mbind option_bind].
  pose proof (vl_labels _ _ (g_view _ _ _ _ G1)) as El. rewrite El.
  pose proof (join_from_absorbs dst src (abs_labels e) (sink e1)) as Hsk.
  pose proof (join_from_eq dst src (abs_labels e) (sink e1) Hd Hs) as Ej.
  pose proof (join_from_changed dst src (abs_labels e) (sink e1) Hd Hs) as Ec.
  set (m := abs_labels e) in *.
  pose proof (ts_join_eq dst src m Hd Hs) as Ets. rewrite <- Ets in Ej.
  destruct (join_from dst src m (sink e1)) as [[t sk] ch]. cbn [fst snd] in *. subst t.
  pose proof (ts_join_wf dst src m Hd Hs) as Hjw.
  assert (obj (ts_join dst src m) = join_obj (obj dst) (obj src) m) as Eo by (by rewrite Ets).
  set (e2 := set_sink e1 sk).
  assert (snap_absorbs (sink e1) ⊆ snap_absorbs sk) as Hsub by (rewrite Hsk; set_solver).
  pose proof (set_sink_wf e1 sk W1) as W2. pose proof (set_sink_grows e1 sk W1 Hsub) as G2.
  pose proof (grows_trans _ _ _ _ _ W W1 G1 G2) as G. fold e2 in W2, G2, G.
  assert ((exists sk, e2 = set_sink e sk) \/ (size (region_parent e) < size (region_parent e2))%nat) as Hcase.
  { destruct Rc as [->|]; [left; by exists sk|by right]. }
  assert (forall o t, t = with_obj (ts_join dst src m) o ->
     (o = obj dst \/ (eng_obj_rank N m (obj dst) < eng_obj_rank N m o)%nat) ->
     t = dst \/ eng_rank N m dst < eng_rank N m t) as Hrank.
  { intros o t -> Ho. unfold eng_rank. cbn [obj with_obj].
    rewrite (parts_rank_strip (with_obj (ts_join dst src m) o) (ts_join dst src m)) by done.
    destruct (parts_rank_join m dst src Hd Hs) as [Hp|Hp].
    - rewrite (parts_rank_strip _ _ Hp). destruct Ho as [->|Ho]; [|right; lia].
      left. apply strip_obj_eq; [exact Hp|done].
    - right. destruct Ho as [->|Ho]; lia. }
  assert (ch = true \/ ts_join dst src m = dst) as Hch
    by (subst ch; case_bool_decide; auto).
  assert (forall t, ch = false -> eng_rank N m dst < eng_rank N m t -> t <> dst) as Hnd
    by (intros t _ H ->; lia).
  destruct jo as [j|]; cbn [default from_option id] in *.
  - destruct (Rcov j eq_refl) as [Cd Cs].
    apply (obj_le_mono _ _ _ _ (g_view _ _ _ _ G2)) in Cd, Cs.
    destruct (join_grow e2 dst src m j Hd Hs Cd Cs) as [Gd Gs].
    destruct (decide (obj (ts_join dst src m) = j)) as [Hj|Hj];
      [rewrite bool_decide_true by done|rewrite bool_decide_false by done].
    + rewrite <- Hj, with_obj_self in Gd, Gs. eexists _, _, _. split; [reflexivity|]. split; try done.
      * by rewrite Hj.
      * intros ->. destruct Hch as [|Hch]; done.
      * destruct (Hrank j (ts_join dst src m)) as [|Hlt]; [by rewrite <- Hj, with_obj_self|done|auto|].
        right. split; [|done]. subst ch. case_bool_decide as Hx; [|done]. rewrite Hx in Hlt. lia.
      * intros -> Heq. rewrite Heq, bool_decide_true in Ec by done. done.
    + eexists _, _, _. split; [reflexivity|]. split; try done.
      * by apply with_obj_wf.
      * destruct (Hrank j (with_obj (ts_join dst src m) j)); auto.
      * intros _ Heq. cbn [obj with_obj]. assert (j = obj dst) as Hjd by (by rewrite <- Heq).
        destruct Rc as [E1|]; [|by left]. right. split; [by apply Rcan|].
        intros Hcan. apply Rsp; [by rewrite Hjd|by rewrite <- Eo, <- Hjd|done|done].
  - assert (obj_le e2 (obj dst) (obj (ts_join dst src m)) /\ obj_le e2 (obj src) (obj (ts_join dst src m)))
      as [Cd Cs].
    { rewrite Eo. assert (abs_labels e2 = m) as <- by done. apply join_obj_le.
      change (sink e2) with sk. rewrite Hsk. change (abs_labels e2) with (abs_labels e1).
      rewrite El. set_solver. }
    destruct (join_grow e2 dst src m _ Hd Hs Cd Cs) as [Gd Gs]. rewrite with_obj_self in Gd, Gs.
    eexists _, _, _. split; [reflexivity|]. split; try done.
    + by rewrite Eo.
    + intros ->. destruct Hch as [|Hch]; done.
    + destruct (Hrank (obj (ts_join dst src m)) (ts_join dst src m)) as [|Hlt];
        [by rewrite with_obj_self|by rewrite Eo|auto|].
      right. split; [|done]. subst ch. case_bool_decide as Hx; [|done]. rewrite Hx in Hlt. lia.
    + intros -> Heq. rewrite Heq, bool_decide_true in Ec by done. done.
Qed.

End Open.

(** *** One raise *)

(** The join that reports no change. *)
Lemma raise_quiet (e e1 : Engine) (id : CellId) (cur t : TypeSet) :
  eng_wf e -> ts_of e id = Some cur -> ts_wf t -> joined e e1 cur t cur false -> raised e e1 id t.
Proof.
  intros We Hcur Wt [W1 G1 Jcase _ _ _ [Js Ju] _ _ _].
  pose proof (ts_of_wf N K e id cur We Hcur) as [Wc _].
  destruct (g_cells _ _ _ _ G1 id cur Hcur) as (u & Hu & [Hle Hun]).
  split; [done|done| | |].
  - intros E. apply (relinks_still N K); [done|done|done|]. destruct Jcase as [[sk ->]|]; [done|].
    rewrite E in *. lia.
  - exists cur, u. split_and!; [done|done| |auto]. by eapply ts_le_trans.
  - intros Hp. left. destruct Jcase as [[sk ->]|L]; [done|].
    pose proof (pot_lex N K e e1 We W1 L). lia.
Qed.

(** The state after the cell is updated, before its links are followed. *)
Record updated (e e2 : Engine) (id : CellId) (t v : TypeSet) : Prop := {
  up_wf : eng_wf e2;
  up_grows : grows e e2;
  up_ts : ts_of e2 id = Some v;
  up_others : region_parent e2 = region_parent e -> forall i, i <> id -> ts_of e2 i = ts_of e i;
  up_val : ts_wf v /\ obj_below N (obj v) /\ ts_grow e2 t v;
  up_pot : pot e2 < pot e \/
    (pot e2 = pot e /\ canonical e2 (obj v) /\ ~ canonical e (obj t) /\
     exists ws, worklist e2 = worklist e ++ ws /\ ws ⊆ default [] (subs e !! id)) }.

(** The fields an update does not touch. *)
Record frame (e e' : Engine) : Prop := {
  fr_cons : cons e' = cons e /\ con_script e' = con_script e /\ script_cons e' = script_cons e;
  fr_live : live_ctxs e' = live_ctxs e;
  fr_subs : subs e' = subs e /\ sub_set e' = sub_set e;
  fr_links : links e' = links e /\ link_set e' = link_set e;
  fr_labels : abs_labels e' = abs_labels e /\ array_classes e' = array_classes e;
  fr_elems : elems_name e' = elems_name e }.

Lemma settled_frame (e e' : Engine) (id : CellId) (t : TypeSet) : settled N e e' id t -> frame e e'.
Proof. intros []. destruct se_other. by split. Qed.

Lemma settled_wf (e e2 : Engine) (id : CellId) (v : TypeSet) :
  eng_wf e -> ts_wf v -> obj_below N (obj v) -> settled N e e2 id v ->
  eng_wf e2 /\ length (cells e2) = length (cells e).
Proof.
  intros [Wl Wv Wi Wk Wc Wlk Wq] Hv Bv S. pose proof (settled_frame _ _ _ _ S) as F.
  pose proof (se_keys _ _ _ _ _ S) as Hkeys.
  assert (length (cells e2) = length (cells e)) as Hlen.
  { apply (f_equal length) in Hkeys. by rewrite !length_fmap in Hkeys. }
  split; [|done]. destruct (fr_labels _ _ F) as [Fl _]. split.
  - destruct Wl as [A B C]. split; rewrite ?Fl, ?(se_parent _ _ _ _ _ S); done.
  - by rewrite (fr_elems _ _ F).
  - intros k i. rewrite (se_ids _ _ _ _ _ S), <- list_lookup_fmap, Hkeys, list_lookup_fmap. apply Wi.
  - rewrite (se_ids _ _ _ _ _ S). done.
  - apply (se_wf _ _ _ _ _ S); [done|]. by split.
  - intros s ds d. rewrite Hlen. destruct (fr_links _ _ F) as [-> _]. apply Wlk.
  - apply S.
Qed.

(** Writing a cell a value above the one it held. *)
Lemma settled_grows (e0 e e2 : Engine) (id : CellId) (cur v : TypeSet) :
  eng_wf e0 -> eng_wf e -> grows e0 e -> eng_wf e2 -> settled N e e2 id v ->
  ts_of e0 id = Some cur -> ts_grow e cur v -> pot e2 <= pot e0 ->
  (pot e2 = pot e0 -> v = cur /\ (forall i, ts_of e i = ts_of e0 i) /\ region_parent e = region_parent e0) ->
  grows e0 e2 /\ ts_of e2 id = Some v.
Proof.
  intros W0 W G W2 S Hcur Hv Hp Hsame. pose proof (settled_frame _ _ _ _ S) as F.
  destruct (g_cells _ _ _ _ G id cur Hcur) as (c1 & Hc1 & _).
  assert (forall i, ts_of e2 i = if decide (i = id) then Some v else ts_of e i) as Hts.
  { intros i. rewrite (se_ts _ _ _ _ _ S), Hc1. done. }
  assert (ts_of e2 id = Some v) as Hid by (by rewrite Hts, decide_True).
  assert (view_le e e2) as V.
  { apply view_le_same; [apply F|apply S|]. by rewrite (se_sink _ _ _ _ _ S). }
  pose proof (se_parent _ _ _ _ _ S) as Hpar.
  destruct (fr_links _ _ F) as [Fl Fs], (fr_subs _ _ F) as [Fu Fus], (fr_cons _ _ F) as (Fc & Fcs & Fsc).
  destruct (g_subs _ _ _ _ G) as [Gu Gus], (g_cons _ _ _ _ G) as (Gc & Gcs & Gsc).
  pose proof (se_keys _ _ _ _ _ S) as Hkeys.
  assert (exists ws, worklist e2 = worklist e ++ ws /\
     forall u, u ∈ ws -> exists us, subs e !! id = Some us /\ u ∈ us) as (ws & Hw & Hws).
  { destruct (se_work _ _ _ _ _ S) as (ws & Hw & Hsub). exists ws. split; [done|]. intros u Hu%Hsub.
    destruct (subs e !! id) as [us|]; [|by apply not_elem_of_nil in Hu]. eauto. }
  split; [|done]. split; try (split_and!; congruence); auto.
  - intros k i Hk. rewrite (se_ids _ _ _ _ _ S). by apply G.
  - rewrite Hkeys. apply G.
  - intros i x Hx. rewrite Hts. destruct (g_cells _ _ _ _ G i x Hx) as (x1 & Hx1 & Hg1).
    case_decide as Hi; [subst i; exists v|exists x1]; (split; [done|]);
      eapply ts_grow_mono; [exact V| |exact V|]; [by simplify_eq|done].
  - rewrite (fr_live _ _ F). apply G.
  - rewrite (proj2 (fr_labels _ _ F)). apply G.
  - rewrite (fr_elems _ _ F). apply G.
  - eapply view_le_trans; [apply G|done].
  - intros c. rewrite (root_same e e2 c Hpar). apply G.
  - rewrite Fl. apply G.
  - rewrite Fs. apply G.
  - rewrite Hpar. apply G.
  - rewrite Hpar, Fl, (se_ids _ _ _ _ _ S). intros E. destruct (g_still _ _ _ _ G E) as (?&?&?).
    split_and!; try done. apply (f_equal length) in Hkeys. rewrite !length_fmap in Hkeys. congruence.
  - destruct (g_queue _ _ _ _ G) as (w1 & E1 & U1). exists (w1 ++ ws). rewrite app_assoc, <- E1.
    split; [done|]. intros u [Hu|Hu]%elem_of_app; [auto|]. destruct (Hws u Hu) as (us & Hus & Hin).
    exists id, us. by rewrite <- Gu.
  - intros i x us u Hx Hne Hus Hu. rewrite Hts in Hne. case_decide as Hi; [subst i|].
    + apply (se_fire _ _ _ _ _ S us); [|done]. by rewrite Gu.
    + rewrite Hw. apply elem_of_app. left. by eapply (g_fire _ _ _ _ G).
  - intros E. destruct (Hsame E) as (-> & Ht & Hr). split; [|congruence].
    intros i. rewrite Hts. case_decide; [by subst|done].
Qed.

Lemma raise_update (e e1 : Engine) (id : CellId) (cur t v : TypeSet) (w : bool) (why : User) :
  eng_wf e -> ts_of e id = Some cur -> ts_wf t -> joined e e1 cur t v true ->
  updated e (settle e1 w id v why) id t v.
Proof.
  intros We Hcur Wt [W1 G1 Jc Jw Jb Jd Js _ Jr Jsp].
  pose proof (settle_spec N e1 w id v why (ew_queue _ _ _ W1)) as S.
  remember (settle e1 w id v why) as e2 eqn:He2. clear He2.
  destruct (settled_wf _ _ _ _ W1 Jw Jb S) as [W2 Hlen].
  pose proof (settled_frame _ _ _ _ S) as F. pose proof (se_parent _ _ _ _ _ S) as Hpar.
  assert (view_le e1 e2) as V.
  { apply view_le_same; [apply F|done|]. by rewrite (se_sink _ _ _ _ _ S). }
  assert (pot e2 < pot e \/ (pot e2 = pot e /\ v = cur /\ (exists sk, e1 = set_sink e sk) /\
    canonical e2 (obj v) /\ ~ canonical e (obj t))) as Hpot.
  { destruct Jc as [[sk ->]|L]; [|left; apply (pot_lex N K e e2 We W2); by rewrite Hpar].
    assert (exists c, cells e !! id = Some c /\ ts c = cur) as (c & Hc & Hct).
    { unfold ts_of in Hcur. apply fmap_Some in Hcur as (c & ? & ->). eauto. }
    assert (pot e2 = pot e + (eng_rank N (abs_labels e) cur - eng_rank N (abs_labels e) v)) as Hp2.
    { unfold EngineRun.pot. destruct (fr_labels _ _ F) as [-> _].
      rewrite Hpar, Hlen, (se_cells _ _ _ _ _ S _ c Hc), Hct.
      cbn [set_sink region_parent cells abs_labels]. lia. }
    destruct Jr as [Heq|[_ Hlt]]; [|left; lia].
    destruct (Jsp eq_refl Heq) as [L|[Hcan Hn]]; [cbn in L; lia|].
    right. rewrite Heq in Hp2. split_and!; [lia|done|eauto| |done].
    eapply canonical_frame; [exact Hpar|apply F|]. exact Hcan. }
  destruct (settled_grows e e1 e2 id cur v We W1 G1 W2 S Hcur Jd) as [G Hid].
  { destruct Hpot as [|[-> _]]; lia. }
  { intros E. destruct Hpot as [|(_ & -> & (sk & ->) & _)]; [lia|]. done. }
  split; try done.
  - intros E i Hi. rewrite (se_ts _ _ _ _ _ S), decide_False by done.
    destruct Jc as [[sk ->]|L]; [done|]. rewrite Hpar in E. rewrite E in L. lia.
  - split_and!; [done|done|]. by eapply ts_grow_mono.
  - destruct Hpot as [|(? & -> & (sk & ->) & ? & ?)]; [by left|right]. split_and!; try done.
    by destruct (se_work _ _ _ _ _ S) as (ws & Hw & Hsub); exists ws.
Qed.

Lemma raise_ok (n : nat) : raise_spec n (raise n).
Proof.
  induction n as [|n IH]; intros e id t why We Hid Wt Bt Hf.
  { destruct Hf as [Hf _]. pose proof (pot_nonneg N K e We). lia. }
  cbn [raise]. unfold raise_with. destruct (ts_of_lt e id Hid) as [cur Hcur]. rewrite Hcur.
  cbn [mbind option_bind]. destruct (ts_of_wf N K e id cur We Hcur) as [Wc Bc].
  destruct (no_growth e cur t) eqn:Hng.
  { exists e. split; [done|]. split; [done|by apply grows_refl| | |auto].
    - by intros _ s [H|H].
    - exists cur, cur. split_and!; auto. by apply no_growth_le. }
  destruct (join_ts_ok n (raise n) IH e cur t We) as (e1 & v & ch & -> & HJ); [|done..|].
  { destruct Hf as [Hf _]. lia. }
  cbn [mbind option_bind]. destruct ch; cbn [negb].
  2: { exists e1. split; [done|]. pose proof (jo_report _ _ _ _ _ _ HJ eq_refl) as ->.
       by eapply raise_quiet. }
  pose proof (raise_update e e1 id cur t v (bool_decide (obj cur = OAnyObject)) why We Hcur Wt HJ)
    as HU. unfold settle in HU. cbv zeta in HU |- *.
  match type of HU with updated _ ?x _ _ _ => remember x as e2 eqn:He2 end.
  clear He2. destruct HU as [W2 G2 Hv T2 (Wv & Bv & [Hle Hun]) P2].
  assert (forall s, region_parent e2 = region_parent e -> s <> id -> link_sat e s -> link_sat e2 s) as Hsat.
  { intros s E Hs. apply (link_sat_frame N K); [done|apply G2|by apply (g_still _ _ _ _ G2)|apply G2|auto]. }
  destruct (links e2 !! id) as [ds|] eqn:Hds.
  - rewrite Hv. cbn [mbind option_bind].
    destruct (raise_all_ok n (raise n) why v IH Wv Bv ds e2 W2) as (e3 & -> & W3 & G3 & L3 & D3 & Q3).
    { intros d Hd. by eapply (ew_links _ _ _ W2). }
    { destruct Hf as [Hf1 Hf2]. split; [destruct P2 as [|(?&?&?)]; [lia|]|].
      - destruct Hf2; [tauto|lia].
      - destruct P2 as [|(?&?&?)]; [right; lia|auto]. }
    exists e3. split; [done|]. pose proof (grows_trans _ _ e e2 e3 We W2 G2 G3) as G.
    destruct (g_cells _ _ _ _ G3 id v Hv) as (u & Hu & [Hvu Hvun]).
    split; [done|done| | |].
    + intros E s Hs. destruct (grows_still _ _ _ _ _ G2 G3 E) as [E2 E3]. specialize (L3 E3).
      destruct (decide (s = id)) as [->|Hne].
      * destruct (decide (ts_of e3 id = ts_of e2 id)) as [E'|E']; [|by apply L3; right].
        intros x ds' d Hx Hds' Hd. rewrite E', Hv in Hx. injection Hx as <-.
        destruct (g_still _ _ _ _ G3 E3) as [Hl _]. rewrite Hl, Hds in Hds'. injection Hds' as <-.
        by apply D3.
      * apply L3. destruct Hs as [Hs|Hs]; [left; by apply Hsat|right].
        intros E'. apply Hs. rewrite E'. by apply T2.
    + exists cur, u. split_and!; [done|done| |auto].
      eapply ts_le_trans; [done|exact Wv| |exact Hvu]. eapply ts_le_mono; [apply G3|done].
    + intros Heq. pose proof (g_pot _ _ _ _ G2). pose proof (g_pot _ _ _ _ G3).
      destruct P2 as [|(Hp2 & Hc2 & Hn & Hw)]; [lia|]. right. split; [done|].
      assert (pot e3 = pot e2) as Hp3 by lia. destruct (g_same _ _ _ _ G3 Hp3) as [Ht3 Hr3].
      split.
      * exists v. rewrite Ht3. split; [done|]. eapply canonical_frame; [done| |done]. apply G3.
      * by rewrite Q3.
  - exists e2. split; [done|]. split; [done|done| | |].
    + intros E s Hs. destruct (decide (s = id)) as [->|Hne].
      * intros x ds' d _ Hds'. congruence.
      * destruct Hs as [Hs|Hs]; [by apply Hsat|]. by rewrite T2 in Hs.
    + exists cur, v. split_and!; auto.
    + intros Heq. destruct P2 as [|(Hp2 & Hc2 & Hn & Hw)]; [lia|]. right. eauto.
Qed.

End Raise.

(** *** Sequences of raises *)

Section Sequence.
  Context (N : nat) (K : gset CellKey) (n : nat).

Fixpoint raises (e : Engine) (l : list (CellId * TypeSet * User)) : option Engine :=
  match l with
  | [] => Some e
  | (id, t, why) :: l => e ← raise n e id t why; raises e l
  end.

Definition arrival_ok (e : Engine) (a : CellId * TypeSet * User) : Prop :=
  (fst (fst a) < length (cells e))%nat /\ ts_wf (snd (fst a)) /\ obj_below N (obj (snd (fst a))).

Lemma raises_ok (l : list (CellId * TypeSet * User)) (e : Engine) :
  eng_wf N K e -> Forall (arrival_ok e) l -> 2 * pot N K e + 2 <= Z.of_nat n ->
  exists e', raises e l = Some e' /\ eng_wf N K e' /\ grows N K e e'.
Proof.
  revert e. induction l as [|[[id t] why] l IH]; intros e W Hl Hn; cbn [raises].
  - exists e. split_and!; [done|done|by apply grows_refl].
  - apply list.Forall_cons in Hl as [(Hid & Ht & Ho) Hl]. cbn in Hid, Ht, Ho.
    destruct (raise_ok N K n e id t why W Hid Ht Ho) as (e1 & -> & [W1 G1 _ _ _]); [split; [lia|right; lia]|].
    pose proof (g_pot _ _ _ _ G1). pose proof (grows_length _ _ _ _ G1).
    destruct (IH e1 W1) as (e' & E' & W' & G'); [|lia|].
    + eapply list.Forall_impl; [exact Hl|]. intros a (? & ? & ?). split_and!; try done. lia.
    + exists e'. split_and!; [done|done|by apply (grows_trans N K e e1 e')].
Qed.

Lemma raises_app (l k : list (CellId * TypeSet * User)) (e : Engine) :
  raises e (l ++ k) = (e ← raises e l; raises e k).
Proof.
  revert e. induction l as [|[[id t] why] l IH]; intros e; cbn [raises app]; [done|].
  destruct (raise n e id t why); cbn; [apply IH|done].
Qed.

(** An arrival among others is below the cell's last value. *)
Lemma raises_deliver (e : Engine) (pre post : list (CellId * TypeSet * User)) (id : CellId)
    (t : TypeSet) (why : User) :
  eng_wf N K e -> Forall (arrival_ok e) (pre ++ (id, t, why) :: post) -> 2 * pot N K e + 2 <= Z.of_nat n ->
  exists e1 cur e' u, raises e pre = Some e1 /\ ts_of e1 id = Some cur /\
    raises e (pre ++ (id, t, why) :: post) = Some e' /\ ts_of e' id = Some u /\ ts_wf u /\
    ts_le e' t u /\ (unknown t = true -> unknown u = true \/ no_growth e1 cur t = true).
Proof.
  intros W Hl Hn. apply Forall_app in Hl as [Hpre Hl]. apply list.Forall_cons in Hl as [Ha Hpost].
  destruct (raises_ok pre e W Hpre Hn) as (e1 & E1 & W1 & G1).
  assert (forall a, arrival_ok e a -> arrival_ok e1 a) as Hok.
  { intros a (? & ? & ?). pose proof (grows_length _ _ _ _ G1). split_and!; try done. lia. }
  pose proof (g_pot _ _ _ _ G1). destruct (Hok _ Ha) as (Hid & Ht & Ho). cbn in Hid, Ht, Ho.
  destruct (raise_ok N K n e1 id t why W1 Hid Ht Ho) as (e2 & E2 & [W2 G2 _ (cur & v & Hcur & Hv & Hle & Hun) _]);
    [split; [lia|right; lia]|].
  pose proof (g_pot _ _ _ _ G2). pose proof (grows_length _ _ _ _ G2).
  destruct (raises_ok post e2 W2) as (e3 & E3 & W3 & G3); [|lia|].
  { eapply list.Forall_impl; [exact Hpost|]. intros a (? & ? & ?)%Hok. split_and!; try done. lia. }
  destruct (g_cells _ _ _ _ G3 id v Hv) as (u & Hu & [Hvu Hvun]).
  destruct (ts_of_wf N K e2 id v W2 Hv) as [Wv _], (ts_of_wf N K e3 id u W3 Hu) as [Wu _].
  exists e1, cur, e3, u. split_and!; try done.
  - rewrite raises_app, E1. cbn. by rewrite E2.
  - eapply ts_le_trans; [exact Ht|exact Wv| |exact Hvu]. eapply ts_le_mono; [apply G3|done].
  - intros H'. destruct (Hun H'); auto.
Qed.

End Sequence.
