(* ===== verification/EngineFix.v ===== *)
(** * EngineFix: the driver over the structural constraints

    Evaluating a constraint is a preparation (cells and subscriptions appear)
    followed by one raise; the worklist drains, because each step lowers the
    total potential, or else the number of queued constraints that can still
    report growth without growing, or else the length of the queue; and in
    the drained state every constraint that was queued is satisfied. *)

From S2P Require Import Prelude OpSem Facts Types FnSets TypeLattice IntervalSound.
From S2P Require Import Engine EngineSound EngineRun EngineRaise.

(** ** Constraints as users see them *)

Definition con_of (e : Engine) (u : User) : option (ScriptId * Constraint) :=
  match con_script e !! Z.to_nat (fst u), cons e !! Z.to_nat (fst u) with
  | Some s, Some c => Some (s, c)
  | _, _ => None
  end.

(** The cells a constraint reads, and the one it raises. *)
Definition con_reads (s : ScriptId) (ctx : CtxId) (c : Constraint) : list CellKey :=
  match c with
  | CMove src _ => [resolve_key s ctx src]
  | CArith _ a b _ _ _ _ =>
      resolve_key s ctx a :: match b with Some b => [resolve_key s ctx b] | None => [] end
  | _ => []
  end.

Definition con_writes (s : ScriptId) (ctx : CtxId) (c : Constraint) : list CellKey :=
  match c with
  | CMove _ dst | CConst dst _ | CArith _ _ _ dst _ _ _ => [resolve_key s ctx dst]
  | _ => []
  end.

(** A constraint the core evaluates without panicking. *)
Definition con_ok (N : nat) (c : Constraint) : Prop :=
  match c with
  | CMove _ _ => True
  | CConst _ t => ts_wf t /\ obj_below N (obj t)
  | CArith op _ b _ _ _ _ => unary op = true \/ b <> None
  | _ => False
  end.

(** ** Cell identity *)

Definition sub_ok (e : Engine) : Prop :=
  forall i u, (i, fst u, snd u) ∈ sub_set e <-> exists us, subs e !! i = Some us /\ u ∈ us.

(** What preparing user [u] does: new bottom cells, new subscriptions of [u]. *)
Record prep (u : User) (e e1 : Engine) : Prop := {
  pr_cells : exists ks, cells e1 = cells e ++ fresh ks;
  pr_ids : forall k i, cell_ids e !! k = Some i -> cell_ids e1 !! k = Some i;
  pr_ids_ok : ids_ok e -> ids_ok e1;
  pr_queue : worklist e1 = worklist e /\ inq e1 = inq e;
  pr_subs_in : forall i us x, subs e1 !! i = Some us -> x ∈ us ->
    x = u \/ exists us0, subs e !! i = Some us0 /\ x ∈ us0;
  pr_subs_le : forall i us, subs e !! i = Some us -> exists us1, subs e1 !! i = Some us1 /\ us ⊆ us1;
  pr_sub_ok : sub_ok e -> sub_ok e1;
  pr_cons : cons e1 = cons e /\ con_script e1 = con_script e /\ script_cons e1 = script_cons e;
  pr_live : live_ctxs e1 = live_ctxs e;
  pr_links : links e1 = links e /\ link_set e1 = link_set e;
  pr_labels : abs_labels e1 = abs_labels e /\ array_classes e1 = array_classes e;
  pr_elems : elems_name e1 = elems_name e;
  pr_parent : region_parent e1 = region_parent e;
  pr_sink : sink e1 = sink e }.

Lemma prep_refl (u : User) (e : Engine) : prep u e e.
Proof. split; eauto. exists []. by rewrite app_nil_r. Qed.

Lemma prep_trans (u : User) (e1 e2 e3 : Engine) : prep u e1 e2 -> prep u e2 e3 -> prep u e1 e3.
Proof.
  intros P Q. destruct (pr_cells _ _ _ P) as [ks Hk], (pr_cells _ _ _ Q) as [ks' Hk'].
  destruct (pr_queue _ _ _ P), (pr_queue _ _ _ Q).
  destruct (pr_cons _ _ _ P) as (?&?&?), (pr_cons _ _ _ Q) as (?&?&?).
  destruct (pr_links _ _ _ P), (pr_links _ _ _ Q), (pr_labels _ _ _ P), (pr_labels _ _ _ Q).
  split; try (split_and!; congruence); try (etransitivity; [apply Q|apply P]).
  - exists (ks ++ ks'). unfold fresh. by rewrite Hk', Hk, fmap_app, app_assoc.
  - intros k i Hi. by apply Q, P.
  - intros H'. by apply Q, P.
  - intros i us x Hus Hx. destruct (pr_subs_in _ _ _ Q i us x Hus Hx) as [->|(us0 & Hus0 & Hx0)]; [auto|].
    by apply (pr_subs_in _ _ _ P i us0).
  - intros i us Hus. destruct (pr_subs_le _ _ _ P i us Hus) as (us1 & H1' & Hs1).
    destruct (pr_subs_le _ _ _ Q i us1 H1') as (us2 & H2' & Hs2). exists us2. split; [done|].
    by transitivity us1.
  - intros H'. by apply Q, P.
Qed.

Lemma cell_spec (u : User) (e : Engine) (k : CellKey) :
  ids_ok e ->
  let '(e1, i) := cell e k in
  prep u e e1 /\ cell_ids e1 !! k = Some i /\
  (exists ks, cells e1 = cells e ++ fresh ks /\ (forall k', k' ∈ ks -> k' = k)) /\
  subs e1 = subs e /\ sub_set e1 = sub_set e.
Proof.
  intros Hid. unfold cell. destruct (cell_ids e !! k) as [i|] eqn:E.
  - split_and!; try done; [apply prep_refl|]. exists []. rewrite app_nil_r. set_solver.
  - assert (exists ks, cells e ++ [mkCell k ts_default 0] = cells e ++ fresh ks /\
      (forall k', k' ∈ ks -> k' = k)) as Hks by (exists [k]; split; [done|set_solver]).
    split_and!; try done; [|by cbn; rewrite lookup_insert_eq].
    split; cbn; try done; eauto.
    + destruct Hks as (ks & ? & _). eauto.
    + intros k' j Hj. rewrite lookup_insert_ne; [done|congruence].
    + intros _ k' j. cbn. rewrite lookup_insert_Some. split.
      * intros [[<- <-]|[Hne Hj]].
        -- by rewrite lookup_app_r, Nat.sub_diag by lia.
        -- apply Hid in Hj. rewrite lookup_app_l; [done|].
           destruct (cells e !! j) eqn:Ej; [by eapply lookup_lt_Some|done].
      * intros Hj. destruct (decide (j < length (cells e))%nat) as [Hl|Hl].
        -- rewrite lookup_app_l in Hj by done. apply Hid in Hj. right. split; [congruence|done].
        -- rewrite lookup_app_r in Hj by lia.
           destruct (j - length (cells e))%nat as [|n] eqn:En; [|by destruct n].
           cbn in Hj. injection Hj as <-. left. split; [done|lia].
Qed.

Lemma read_spec (u : User) (e : Engine) (i : CellId) :
  sub_ok e -> (i < length (cells e))%nat ->
  exists e1 t, read e i u = Some (e1, t) /\ ts_of e1 i = Some t /\ prep u e e1 /\
    cells e1 = cells e /\ cell_ids e1 = cell_ids e /\
    (exists us, subs e1 !! i = Some us /\ u ∈ us) /\
    (forall j us x, subs e1 !! j = Some us -> x ∈ us ->
       (j = i /\ x = u) \/ exists us0, subs e !! j = Some us0 /\ x ∈ us0).
Proof.
  intros Hs Hi. destruct (ts_of_lt e i Hi) as [t Ht]. unfold read.
  case_bool_decide as Hin.
  - rewrite Ht. cbn. exists e, t. split_and!; try done; [apply prep_refl|by apply Hs|eauto].
  - set (e1 := set_subs _ _ _). assert (ts_of e1 i = Some t) as Ht1 by done.
    rewrite Ht1. cbn [mbind option_bind].
    assert (forall j us x, subs e1 !! j = Some us -> x ∈ us ->
       (j = i /\ x = u) \/ exists us0, subs e !! j = Some us0 /\ x ∈ us0) as Hback.
    { intros j us x. cbn. rewrite lookup_insert_Some. intros [[<- <-]|[Hne Hj]] Hx; [|eauto].
      apply elem_of_app in Hx as [Hx| ->%list_elem_of_singleton]; [|auto].
      right. destruct (subs e !! i) as [us|]; [by exists us|by apply not_elem_of_nil in Hx]. }
    assert (exists us, subs e1 !! i = Some us /\ u ∈ us) as Hu.
    { cbn. rewrite lookup_insert_eq. eexists. split; [done|]. set_solver. }
    exists e1, t. split_and!; try done. split; try done.
    + exists []. by rewrite app_nil_r.
    + intros j us x Hj Hx. destruct (Hback j us x Hj Hx) as [[_ ->]|]; auto.
    + intros j us Hj. cbn. destruct (decide (i = j)) as [<-|Hne].
      * rewrite lookup_insert_eq, Hj. eexists. split; [done|]. cbn. set_solver.
      * rewrite lookup_insert_ne by done. eauto.
    + intros _ j x. cbn. rewrite elem_of_union, elem_of_singleton. split.
      * intros [[= -> Hf Hsnd]|Hj].
        -- destruct x, u. cbn in *. subst. exact Hu.
        -- apply Hs in Hj as (us & Hj & Hx). destruct (decide (i = j)) as [<-|Hne].
           ++ rewrite lookup_insert_eq, Hj. eexists. split; [done|]. cbn. set_solver.
           ++ rewrite lookup_insert_ne by done. eauto.
      * intros (us & Hj & Hx). destruct (Hback j us x Hj Hx) as [[-> ->]|Hx']; [auto|].
        right. by apply Hs.
Qed.

(** ** Preparing one constraint *)

Record prep_in (RK WK : list CellKey) (u : User) (e e1 : Engine) : Prop := {
  pi_prep : prep u e e1;
  pi_keys : exists ks, cells e1 = cells e ++ fresh ks /\ (forall k, k ∈ ks -> k ∈ RK ++ WK);
  pi_subs : forall j us x, subs e1 !! j = Some us -> x ∈ us ->
    (x = u /\ exists k, k ∈ RK /\ cell_ids e1 !! k = Some j) \/
    exists us0, subs e !! j = Some us0 /\ x ∈ us0 }.

Lemma prep_in_refl (RK WK : list CellKey) (u : User) (e : Engine) : prep_in RK WK u e e.
Proof.
  split; [apply prep_refl| |eauto]. exists []. rewrite app_nil_r. set_solver.
Qed.

Lemma prep_in_trans (RK WK : list CellKey) (u : User) (e1 e2 e3 : Engine) :
  prep_in RK WK u e1 e2 -> prep_in RK WK u e2 e3 -> prep_in RK WK u e1 e3.
Proof.
  intros [P (ks & Hk & Hin) S] [P' (ks' & Hk' & Hin') S']. split; [by eapply prep_trans| |].
  - exists (ks ++ ks'). unfold fresh in *. rewrite Hk', Hk, fmap_app, app_assoc. set_solver.
  - intros j us x Hj Hx. destruct (S' j us x Hj Hx) as [|(us0 & H0 & Hx0)]; [auto|].
    destruct (S j us0 x H0 Hx0) as [(-> & k & Hkr & Hkj)|]; [left|auto].
    split; [done|]. exists k. split; [done|]. by apply P'.
Qed.

(** The value of a key's cell. *)
Definition value (e : Engine) (k : CellKey) : option TypeSet := cell_ids e !! k ≫= ts_of e.

Lemma resolve_prep (RK WK : list CellKey) (u : User) (e : Engine) (s : ScriptId) (k : CKey) :
  ids_ok e -> sub_ok e -> resolve_key s (snd u) k ∈ RK ++ WK ->
  exists e1 i, resolve e s (snd u) k = (e1, i) /\ prep_in RK WK u e e1 /\ ids_ok e1 /\ sub_ok e1 /\
    cell_ids e1 !! resolve_key s (snd u) k = Some i /\ (i < length (cells e1))%nat.
Proof.
  intros Hid Hs Hin. unfold resolve. pose proof (cell_spec u e (resolve_key s (snd u) k) Hid) as H.
  destruct (cell e (resolve_key s (snd u) k)) as [e1 i].
  destruct H as (P & Hi & (ks & Hks & Hk) & Hsub & Hset). exists e1, i.
  pose proof (pr_ids_ok _ _ _ P Hid) as Hid1.
  split_and!; try done.
  - split; [done| |rewrite Hsub; eauto]. exists ks. split; [done|].
    intros k' ->%Hk. done.
  - by apply P.
  - by eapply ids_ok_lt.
Qed.

Lemma read_prep (RK WK : list CellKey) (u : User) (e : Engine) (k : CellKey) (i : CellId) :
  ids_ok e -> sub_ok e -> k ∈ RK -> cell_ids e !! k = Some i ->
  exists e1 t, read e i u = Some (e1, t) /\ prep_in RK WK u e e1 /\ ids_ok e1 /\ sub_ok e1 /\
    cell_ids e1 = cell_ids e /\ cells e1 = cells e /\ value e1 k = Some t /\
    exists us, subs e1 !! i = Some us /\ u ∈ us.
Proof.
  intros Hid Hs Hk Hi.
  destruct (read_spec u e i Hs (ids_ok_lt e k i Hid Hi)) as (e1 & t & -> & Ht & P & Hc & Hci & Hu & Hb).
  exists e1, t. split_and!; try done; [|by apply P|by apply P|by unfold value; rewrite Hci, Hi].
  split; [done| |].
  - exists []. rewrite app_nil_r. set_solver.
  - intros j us x Hj Hx. destruct (Hb j us x Hj Hx) as [[-> ->]|]; [|auto].
    left. split; [done|]. exists k. by rewrite Hci.
Qed.

Lemma value_prep (u : User) (e e1 : Engine) (k : CellKey) (t : TypeSet) :
  prep u e e1 -> value e k = Some t -> value e1 k = Some t.
Proof.
  intros P. unfold value. destruct (cell_ids e !! k) as [i|] eqn:E; [|done]. cbn. intros Ht.
  rewrite (pr_ids _ _ _ P k i E). cbn. destruct (pr_cells _ _ _ P) as [ks Hks].
  by eapply ts_of_app.
Qed.

(** The reader is subscribed to the cell of [k]. *)
Definition subscribed (e : Engine) (u : User) (k : CellKey) : Prop :=
  exists i us, cell_ids e !! k = Some i /\ subs e !! i = Some us /\ u ∈ us.

Lemma subscribed_prep (u x : User) (e e1 : Engine) (k : CellKey) :
  prep u e e1 -> subscribed e x k -> subscribed e1 x k.
Proof.
  intros P (i & us & Hi & Hus & Hx). destruct (pr_subs_le _ _ _ P i us Hus) as (us1 & H1 & Hs).
  exists i, us1. split_and!; [by apply P|done|by apply Hs].
Qed.

(** ** Satisfied constraints *)

Definition arith_val (op : NumOp) (ta : TypeSet) (tb : option TypeSet)
    (a_lit b_lit : option ValueRange) : option TypeSet :=
  '(m, r) ← arith_transfer op ta tb;
  Some (prim_interval m r
    (arith_interval op (operand_interval ta) a_lit (operand_interval <$> tb) b_lit)).

(** Nothing to raise: no class and no interval. *)
Definition arith_void (t : TypeSet) : bool :=
  p_is_empty (prims t) && bool_decide (interval t = IEmpty).

Definition value_opt (e : Engine) (k : option CellKey) : option (option TypeSet) :=
  match k with None => Some None | Some k => Some <$> value e k end.

(** The constraint holds of the current values. *)
Definition sat (e : Engine) (s : ScriptId) (ctx : CtxId) (c : Constraint) : Prop :=
  match c with
  | CMove src dst => exists a b,
      value e (resolve_key s ctx src) = Some a /\ value e (resolve_key s ctx dst) = Some b /\
      ts_le e a b
  | CConst dst t => exists b, value e (resolve_key s ctx dst) = Some b /\ ts_le e t b
  | CArith op a b dst a_lit b_lit _ => exists ta tb t,
      value e (resolve_key s ctx a) = Some ta /\
      value_opt e (resolve_key s ctx <$> b) = Some tb /\
      arith_val op ta tb a_lit b_lit = Some t /\
      (arith_void t = true \/
       exists d, value e (resolve_key s ctx dst) = Some d /\ ts_le e t d)
  | _ => False
  end.

Definition holds (e : Engine) (u : User) : Prop :=
  exists s c, con_of e u = Some (s, c) /\ sat e s (snd u) c /\
    forall k, k ∈ con_reads s (snd u) c -> subscribed e u k.

(** Cells only grow, and the cells a constraint reads did not change. *)
Lemma sat_mono (N : nat) (e e' : Engine) (s : ScriptId) (ctx : CtxId) (c : Constraint) :
  con_ok N c -> view_le e e' ->
  (forall k t, value e k = Some t -> ts_wf t) ->
  (forall k t, value e k = Some t -> exists t', value e' k = Some t' /\ ts_le e' t t') ->
  (forall k, k ∈ con_reads s ctx c -> value e' k = value e k) ->
  (forall t op ta tb la lb, arith_val op ta tb la lb = Some t -> ts_wf ta ->
     (forall b, tb = Some b -> ts_wf b) -> ts_wf t) ->
  sat e s ctx c -> sat e' s ctx c.
Proof.
  intros Hc V Hw Hg Hr Ha.
  destruct c as [src dst|dst t0| | | | | | |op a b dst la lb pc]; cbn [sat con_reads] in *; try done.
  - intros (a & b & Hsa & Hsb & Hle). destruct (Hg _ _ Hsb) as (b' & Hb' & Hle').
    exists a, b'. rewrite Hr by set_solver. split_and!; [done|done|].
    apply (ts_le_trans e' a b b'); eauto using ts_le_mono.
  - intros (b & Hb & Hle). destruct (Hg _ _ Hb) as (b' & Hb' & Hle').
    exists b'. split; [done|]. apply (ts_le_trans e' t0 b b'); [apply Hc|eauto using ts_le_mono..].
  - intros (ta & tb & t & Hta & Htb & Ht & Hd).
    assert (value_opt e' (resolve_key s ctx <$> b) = Some tb) as Htb'.
    { destruct b as [b|]; cbn in *; [|done]. rewrite Hr by set_solver. done. }
    exists ta, tb, t. rewrite Hr by set_solver. split_and!; [done..|].
    destruct Hd as [|(d & Hd & Hle)]; [auto|right]. destruct (Hg _ _ Hd) as (d' & Hd' & Hle').
    exists d'. split; [done|]. apply (ts_le_trans e' t d d'); [|eauto using ts_le_mono..].
    eapply Ha; [done|eauto|]. intros b0 ->. destruct b; cbn in Htb; [|done].
    apply fmap_Some in Htb as (x & Hx & [= ->]). eauto.
Qed.

(** ** Arithmetic results are well formed *)

Lemma result_wf (op : NumOp) (a : Opnd) (b : option Opnd) (m : Prims) (r : Range) :
  result op a b = Some (m, r) -> p_wf m.
Proof.
  assert (forall x c, p_wf x -> p_wf c -> p_wf (p_or x c)) by (intros; by apply p_or_wf).
  assert (p_wf PRIM_INT32 /\ p_wf PRIM_DOUBLE /\ p_wf PRIM_STRING /\ p_wf NUM /\ p_wf EMPTY)
    as (?&?&?&?&?) by (split_and!; vm_compute; intuition congruence).
  assert (forall o, p_wf (to_number_bits o)) by (intros o; unfold to_number_bits; repeat case_match; auto).
  assert (forall o, p_wf (add_number_bits o)) by (intros o; unfold add_number_bits; repeat case_match; auto).
  assert (forall x y, p_wf (num_part x y)) by (intros; unfold num_part; repeat case_match; auto).
  assert (forall x y, p_wf (num_part_noint x y)) by (intros; unfold num_part_noint; repeat case_match; auto).
  unfold result. destruct op, b; try done; repeat case_match; intros [= <- _]; auto.
Qed.

Lemma of_range_quantized (l h : Z) : iv_quantized (of_range l h).
Proof.
  unfold of_range. destruct (hq l h) as [[a b]|] eqn:E; [|done]. cbn.
  by apply hq_spec in E as (_ & _ & _ & _ & ?).
Qed.

Lemma arith_interval_quantized (op : NumOp) (a : Interval) (la : option ValueRange)
    (b : option Interval) (lb : option ValueRange) :
  iv_quantized (arith_interval op a la b lb).
Proof.
  unfold arith_interval.
  repeat (case_match; try apply of_range_quantized; try exact I).
Qed.

Lemma arith_val_wf (op : NumOp) (ta : TypeSet) (tb : option TypeSet)
    (la lb : option ValueRange) (t : TypeSet) :
  arith_val op ta tb la lb = Some t -> ts_wf t /\ obj t = OEmpty.
Proof.
  unfold arith_val. destruct (arith_transfer op ta tb) as [[m r]|] eqn:E; [|done].
  cbn. intros [= <-]. split; [|done]. unfold arith_transfer in E. apply result_wf in E.
  split; cbn; [done| |apply arith_interval_quantized].
  split; cbn; [constructor|unfold FN_MAX; lia|done].
Qed.

Lemma result_total (op : NumOp) (a : Opnd) (b : option Opnd) :
  (unary op = true \/ b <> None) -> exists x, result op a b = Some x.
Proof.
  intros H. unfold result. destruct b as [b|]; [|destruct H as [H|]; [|done]];
    destruct op; try discriminate H; repeat case_match; eauto.
Qed.

Lemma arith_val_total (op : NumOp) (ta : TypeSet) (tb : option TypeSet)
    (la lb : option ValueRange) :
  (unary op = true \/ tb <> None) -> exists t, arith_val op ta tb la lb = Some t.
Proof.
  intros H. unfold arith_val, arith_transfer.
  destruct (result_total op (opnd ta) (opnd <$> tb)) as [[m r] ->]; [|by eexists].
  destruct H; [auto|right]. by destruct tb.
Qed.

(** ** One evaluation: preparation, then at most one raise *)

Definition target (e : Engine) (s : ScriptId) (ctx : CtxId) (c : Constraint) (d : CellId)
    (t : TypeSet) : Prop :=
  match c with
  | CMove src dst =>
      value e (resolve_key s ctx src) = Some t /\ cell_ids e !! resolve_key s ctx dst = Some d
  | CConst dst t0 => t = t0 /\ cell_ids e !! resolve_key s ctx dst = Some d
  | CArith op a b dst a_lit b_lit _ => exists ta tb,
      value e (resolve_key s ctx a) = Some ta /\
      value_opt e (resolve_key s ctx <$> b) = Some tb /\
      arith_val op ta tb a_lit b_lit = Some t /\
      cell_ids e !! resolve_key s ctx dst = Some d
  | _ => False
  end.

Record prepared (e e1 : Engine) (u : User) (s : ScriptId) (c : Constraint) : Prop := {
  pd_prep : prep_in (con_reads s (snd u) c) (con_writes s (snd u) c) u e e1;
  pd_ids : ids_ok e1;
  pd_sub : sub_ok e1;
  pd_subscribed : forall k, k ∈ con_reads s (snd u) c -> subscribed e1 u k }.

Definition eval_result (e e1 : Engine) (u : User) (s : ScriptId) (c : Constraint) : Prop :=
  (exists d t, (forall F, eval_core F e u = (e2 ← raise F e1 d t u; Some (e2, true))) /\
     (d < length (cells e1))%nat /\ target e1 s (snd u) c d t) \/
  ((forall F, eval_core F e u = Some (e1, true)) /\ sat e1 s (snd u) c).

Lemma con_of_Some (e : Engine) (u : User) (s : ScriptId) (c : Constraint) :
  con_of e u = Some (s, c) ->
  con_script e !! Z.to_nat (fst u) = Some s /\ cons e !! Z.to_nat (fst u) = Some c.
Proof.
  unfold con_of. destruct (con_script e !! _), (cons e !! _); try done. by intros [= -> ->].
Qed.

Lemma eval_move (e : Engine) (u : User) (s : ScriptId) (src dst : CKey) :
  ids_ok e -> sub_ok e -> con_of e u = Some (s, CMove src dst) ->
  exists e1, prepared e e1 u s (CMove src dst) /\ eval_result e e1 u s (CMove src dst).
Proof.
  intros Hid Hs Hc. apply con_of_Some in Hc as [Hsc Hco]. destruct u as [con ctx]; cbn [fst snd] in *.
  set (RK := [resolve_key s ctx src]). set (WK := [resolve_key s ctx dst]).
  destruct (resolve_prep RK WK (con, ctx) e s src Hid Hs) as (e1 & i & E1 & P1 & I1 & S1 & Hi & Li);
    [set_solver|].
  destruct (resolve_prep RK WK (con, ctx) e1 s dst I1 S1) as (e2 & d & E2 & P2 & I2 & S2 & Hd & Ld);
    [set_solver|]. cbn [snd] in *.
  assert (cell_ids e2 !! resolve_key s ctx src = Some i) as Hi2 by (by apply P2).
  destruct (read_prep RK WK (con, ctx) e2 (resolve_key s ctx src) i I2 S2 ltac:(set_solver) Hi2)
    as (e3 & t & E3 & P3 & I3 & S3 & Hci & Hce & Hv & us & Hus & Hu).
  exists e3. split.
  - split; [|done|done|].
    + by apply (prep_in_trans _ _ _ e e2); [apply (prep_in_trans _ _ _ e e1)|].
    + intros k ->%list_elem_of_singleton. exists i, us. by rewrite Hci.
  - left. exists d, t. rewrite Hce. cbn [target snd]. rewrite Hci. split_and!; try done.
    intros F. unfold eval_core. rewrite Hsc, Hco. cbn [mbind option_bind]. by rewrite E1, E2, E3.
Qed.

Lemma eval_const (e : Engine) (u : User) (s : ScriptId) (dst : CKey) (t : TypeSet) :
  ids_ok e -> sub_ok e -> con_of e u = Some (s, CConst dst t) ->
  exists e1, prepared e e1 u s (CConst dst t) /\ eval_result e e1 u s (CConst dst t).
Proof.
  intros Hid Hs Hc. apply con_of_Some in Hc as [Hsc Hco]. destruct u as [con ctx]; cbn [fst snd] in *.
  destruct (resolve_prep [] [resolve_key s ctx dst] (con, ctx) e s dst Hid Hs)
    as (e1 & d & E1 & P1 & I1 & S1 & Hd & Ld); [set_solver|]. cbn [snd] in *.
  exists e1. split.
  - split; try done. intros k Hk. by apply not_elem_of_nil in Hk.
  - left. exists d, t. split_and!; try done. intros F. unfold eval_core. rewrite Hsc, Hco.
    cbn [mbind option_bind]. by rewrite E1.
Qed.

Lemma read_opt_prep (RK WK : list CellKey) (u : User) (e : Engine) (s : ScriptId) (b : option CKey) :
  ids_ok e -> sub_ok e -> (forall k, b = Some k -> resolve_key s (snd u) k ∈ RK) ->
  exists e1 tb, read_opt e s (snd u) b u = Some (e1, tb) /\ prep_in RK WK u e e1 /\
    ids_ok e1 /\ sub_ok e1 /\ value_opt e1 (resolve_key s (snd u) <$> b) = Some tb /\
    forall k, b = Some k -> subscribed e1 u (resolve_key s (snd u) k).
Proof.
  intros Hid Hs Hb. destruct b as [k|]; cbn [read_opt].
  - specialize (Hb k eq_refl).
    destruct (resolve_prep RK WK u e s k Hid Hs) as (e1 & i & -> & P1 & I1 & S1 & Hi & Li);
      [set_solver|].
    destruct (read_prep RK WK u e1 _ i I1 S1 Hb Hi)
      as (e2 & t & -> & P2 & I2 & S2 & Hci & Hce & Hv & us & Hus & Hu).
    exists e2, (Some t). split_and!; try done.
    + by apply (prep_in_trans _ _ _ e e1).
    + cbn. by rewrite Hv.
    + intros k' [= <-]. exists i, us. by rewrite Hci.
  - exists e, None. split_and!; try done. apply prep_in_refl.
Qed.

Lemma value_opt_prep (u : User) (e e1 : Engine) (k : option CellKey) (t : option TypeSet) :
  prep u e e1 -> value_opt e k = Some t -> value_opt e1 k = Some t.
Proof.
  intros P. destruct k as [k|]; cbn; [|done]. intros (x & Hx & ->)%fmap_Some.
  by rewrite (value_prep u e e1 k x P Hx).
Qed.

Lemma eval_arith (e : Engine) (u : User) (s : ScriptId) (op : NumOp) (a : CKey) (b : option CKey)
    (dst : CKey) (la lb : option ValueRange) (pc : Pc) :
  let c := CArith op a b dst la lb pc in
  ids_ok e -> sub_ok e -> unary op = true \/ b <> None -> con_of e u = Some (s, c) ->
  exists e1, prepared e e1 u s c /\ eval_result e e1 u s c.
Proof.
  intros c Hid Hs Hok Hc. apply con_of_Some in Hc as [Hsc Hco]. subst c.
  destruct u as [con ctx]; cbn [fst snd] in *. set (u := (con, ctx)).
  set (RK := con_reads s ctx (CArith op a b dst la lb pc)).
  set (WK := con_writes s ctx (CArith op a b dst la lb pc)).
  destruct (resolve_prep RK WK u e s a Hid Hs) as (e1 & i & E1 & P1 & I1 & S1 & Hi & Li);
    [cbn; set_solver|].
  destruct (read_prep RK WK u e1 (resolve_key s ctx a) i I1 S1 ltac:(cbn; set_solver) Hi)
    as (e2 & ta & E2 & P2 & I2 & S2 & Hci2 & Hce2 & Hv2 & us & Hus & Hu).
  destruct (read_opt_prep RK WK u e2 s b I2 S2) as (e3 & tb & E3 & P3 & I3 & S3 & Hv3 & Hsub3).
  { intros k ->. cbn. set_solver. }
  cbn [snd u] in *.
  pose proof (prep_in_trans _ _ _ _ _ _ (prep_in_trans _ _ _ _ _ _ P1 P2) P3) as P13.
  assert (value e3 (resolve_key s ctx a) = Some ta) as Hva by (by apply (value_prep u e2); [apply P3|]).
  assert (forall k, k ∈ RK -> subscribed e3 u k) as Hsubs.
  { intros k [->|Hk]%elem_of_cons.
    - apply (subscribed_prep u u e2); [apply P3|]. exists i, us. by rewrite Hci2.
    - destruct b as [b|]; [|by apply not_elem_of_nil in Hk].
      apply list_elem_of_singleton in Hk as ->. by apply Hsub3. }
  destruct (arith_val_total op ta tb la lb) as [t Ht].
  { destruct Hok as [|Hok]; [auto|right]. destruct b as [b|]; [|done]. cbn in Hv3.
    by apply fmap_Some in Hv3 as (x & _ & ->). }
  assert (exists m r, arith_transfer op ta tb = Some (m, r) /\
    t = prim_interval m r (arith_interval op (operand_interval ta) la (operand_interval <$> tb) lb))
    as (m & r & Htr & Et).
  { unfold arith_val in Ht. destruct (arith_transfer op ta tb) as [[m r]|]; [|done].
    injection Ht as <-. eauto. }
  assert (forall F, eval_core F e u =
    if negb (arith_void t)
    then let '(e4, d) := resolve e3 s ctx dst in e5 ← raise F e4 d t u; Some (e5, true)
    else Some (e3, true)) as Heval.
  { intros F. unfold eval_core. cbn [u]. rewrite Hsc, Hco. cbn [mbind option_bind].
    rewrite E1. fold u. rewrite E2. cbn [mbind option_bind].
    rewrite E3. cbn [mbind option_bind]. rewrite Htr. cbn [mbind option_bind].
    unfold arith_void. rewrite negb_andb, Et. reflexivity. }
  destruct (arith_void t) eqn:Hvoid.
  - exists e3. split; [by split|]. right. split; [done|]. cbn [sat snd u].
    exists ta, tb, t. auto 6.
  - destruct (resolve_prep RK WK u e3 s dst I3 S3) as (e4 & d & E4 & P4 & I4 & S4 & Hd & Ld);
      [cbn; set_solver|]. cbn [snd u] in *.
    exists e4. split.
    + split; [by apply (prep_in_trans _ _ _ e e3)|done|done|].
      intros k Hk. apply (subscribed_prep u u e3); [apply P4|by apply Hsubs].
    + left. exists d, t. split_and!; [|done|].
      * intros F. rewrite Heval. cbn [negb]. by rewrite E4.
      * cbn [target snd u]. exists ta, tb. split_and!; [|by apply (value_opt_prep u e3); [apply P4|]|done|done].
        by apply (value_prep u e3); [apply P4|].
Qed.

Lemma eval_shape (N : nat) (e : Engine) (u : User) (s : ScriptId) (c : Constraint) :
  ids_ok e -> sub_ok e -> con_ok N c -> con_of e u = Some (s, c) ->
  exists e1, prepared e e1 u s c /\ eval_result e e1 u s c.
Proof.
  intros Hid Hs Hok Hc. destruct c; try done.
  - by apply eval_move.
  - by apply eval_const.
  - by apply eval_arith.
Qed.

(** ** The driver *)

Section Driver.
  Context (N : nat) (U : gset User) (K : gset CellKey).

(** The invariant of the loop: a fixed finite set of users and of cell keys. *)
Record run_inv (e : Engine) : Prop := {
  ri_wf : eng_wf N K e;
  ri_sub : sub_ok e;
  ri_work : forall u, u ∈ worklist e -> u ∈ U;
  ri_users : forall i us u, subs e !! i = Some us -> u ∈ us -> u ∈ U;
  ri_con : forall u, u ∈ U -> exists s c, con_of e u = Some (s, c) /\ con_ok N c /\
    forall k, k ∈ con_reads s (snd u) c ++ con_writes s (snd u) c -> k ∈ K;
  ri_src : forall i us u s c, subs e !! i = Some us -> u ∈ us -> con_of e u = Some (s, c) ->
    exists k, k ∈ con_reads s (snd u) c /\ cell_ids e !! k = Some i }.

Lemma ri_ids (e : Engine) : run_inv e -> ids_ok e.
Proof. intros R. apply (ri_wf e R). Qed.

(** A bottom cell has the whole rank ahead of it. *)
Lemma slack_fresh (m : list AbsLabels) (ks : list CellKey) :
  slack N m (fresh ks) = ENG_RANK_MAX N * Z.of_nat (length ks).
Proof.
  unfold slack, fresh. induction ks as [|k ks IH]; cbn [fmap list_fmap foldr length]; [lia|].
  rewrite IH. change (eng_rank N m (ts (mkCell k ts_default 0))) with 0. lia.
Qed.

Lemma con_of_frame (e e1 : Engine) (u : User) :
  cons e1 = cons e -> con_script e1 = con_script e -> con_of e1 u = con_of e u.
Proof. unfold con_of. by intros -> ->. Qed.

Lemma prep_inv (e e1 : Engine) (u : User) (s : ScriptId) (c : Constraint) :
  run_inv e -> u ∈ U -> con_of e u = Some (s, c) -> prepared e e1 u s c ->
  run_inv e1 /\ pot N K e1 = pot N K e.
Proof.
  intros R Hu Hc [P I1 S1 Hsub]. destruct (pi_keys _ _ _ _ _ P) as (ks & Hks & Hkin).
  pose proof (pi_prep _ _ _ _ _ P) as Q.
  destruct (pr_cons _ _ _ Q) as (Qc & Qs & Qsc), (pr_queue _ _ _ Q) as [Qw Qi],
    (pr_links _ _ _ Q) as [Ql Qls], (pr_labels _ _ _ Q) as [Qla Qar].
  assert (length (cells e1) = length (cells e) + length ks)%nat as Hlen
    by (rewrite Hks, length_app; unfold fresh; by rewrite length_fmap).
  destruct (ri_con e R u Hu) as (s' & c' & Hc' & Hok & HK). rewrite Hc in Hc'.
  injection Hc' as <- <-.
  assert (forall x, con_of e1 x = con_of e x) as Hcon by (intros x; by apply con_of_frame).
  split; [split; try done|].
  - pose proof (ri_wf e R) as [[La Lp Lw] Wv Wi Wk Wc Wl [Wq Wi']]. split; [|rewrite (pr_elems _ _ _ Q)|..]; try done.
    + split; rewrite ?Qla, ?(pr_parent _ _ _ Q); done.
    + intros k i Hk. apply I1 in Hk. rewrite Hks in Hk.
      destruct (decide (i < length (cells e))%nat) as [Hl|Hl].
      * rewrite lookup_app_l in Hk by done. apply Wi in Hk. by eapply Wk.
      * rewrite lookup_app_r in Hk by lia. unfold fresh in Hk. rewrite list_lookup_fmap in Hk.
        destruct (ks !! _) as [k'|] eqn:Ek; [|done]. cbn in Hk. injection Hk as <-.
        apply HK, Hkin. by eapply list_elem_of_lookup_2.
    + rewrite Hks. apply Forall_app. split; [done|]. apply Forall_fmap, list.Forall_forall.
      intros k _. split; [apply ts_default_wf|done].
    + intros i ds d. rewrite Ql, Hlen. intros H1 H2. specialize (Wl i ds d H1 H2). lia.
    + split; [by rewrite Qw|]. intros x. rewrite Qw, Qi. apply Wi'.
  - rewrite Qw. apply R.
  - intros i us x Hi Hx. destruct (pi_subs _ _ _ _ _ P i us x Hi Hx) as [[-> _]|(us0 & H0 & H1)];
      [done|by eapply (ri_users e R)].
  - intros x Hx. rewrite Hcon. by apply R.
  - intros i us x s0 c0 Hi Hx. rewrite Hcon. intros Hx0.
    destruct (pi_subs _ _ _ _ _ P i us x Hi Hx) as [(-> & k & Hk & Hki)|(us0 & H0 & H1)].
    + rewrite Hc in Hx0. injection Hx0 as <- <-. by exists k.
    + destruct (ri_src e R i us0 x s0 c0 H0 H1 Hx0) as (k & Hk & Hki). exists k.
      split; [done|]. by apply Q.
  - unfold pot. rewrite Qla, (pr_parent _ _ _ Q), Hlen, Hks, slack_app, slack_fresh. lia.
Qed.

Lemma raised_inv (e e2 : Engine) (d : CellId) (t : TypeSet) :
  run_inv e -> raised N K e e2 d t -> run_inv e2 /\ pot N K e2 <= pot N K e.
Proof.
  intros R [W2 G _ _ _]. destruct (g_cons _ _ _ _ G) as (Gc & Gs & _), (g_subs _ _ _ _ G) as [Gu Gus].
  assert (forall x, con_of e2 x = con_of e x) as Hcon by (intros x; by apply con_of_frame).
  split; [split; try done|].
  - intros i u. rewrite Gu, Gus. apply R.
  - destruct (g_queue _ _ _ _ G) as (ws & -> & Hws). intros u [Hu|Hu]%elem_of_app; [by apply R|].
    destruct (Hws u Hu) as (i & us & ? & ?). by eapply (ri_users e R).
  - rewrite Gu. apply R.
  - intros u Hu. rewrite Hcon. by apply R.
  - intros i us u s c. rewrite Gu, Hcon. intros Hi Hu Hc.
    destruct (ri_src e R i us u s c Hi Hu Hc) as (k & Hk & Hki). exists k. split; [done|]. by apply G.
  - apply (g_pot _ _ _ _ G).
Qed.

(** *** Constraints that can report growth without growing *)

#[export] Instance canonical_dec (e : Engine) (o : ObjType) : Decision (canonical e o).
Proof. destruct o; cbn; apply _. Defined.

Definition hot (e : Engine) (u : User) : bool :=
  match con_of e u with
  | Some (s, CMove src _) =>
      match value e (resolve_key s (snd u) src) with
      | Some t => negb (bool_decide (canonical e (obj t)))
      | None => false
      end
  | Some (s, CConst _ t) => negb (bool_decide (canonical e (obj t)))
  | _ => false
  end.

Definition hots (e : Engine) : nat := length (List.filter (hot e) (worklist e)).

(** Hotness reads values and regions only; an absent cell and a bottom one agree. *)
Definition same_view (e e' : Engine) : Prop :=
  (forall u, con_of e' u = con_of e u) /\
  (forall o, canonical e' o <-> canonical e o) /\
  (forall k, value e' k = value e k \/ (value e k = None /\ value e' k = Some ts_default)).

Lemma hot_same_view (e e' : Engine) (u : User) : same_view e e' -> hot e' u = hot e u.
Proof.
  intros (Hc & Hcan & Hv). unfold hot. rewrite Hc. destruct (con_of e u) as [[s c]|]; [|done].
  assert (forall o, bool_decide (canonical e' o) = bool_decide (canonical e o)) as Hb
    by (intros o; by apply bool_decide_ext).
  destruct c as [src dst|dst t| | | | | | |]; try done; [|by rewrite Hb].
  destruct (Hv (resolve_key s (snd u) src)) as [->|[-> ->]].
  - destruct (value e _); [by rewrite Hb|done].
  - by rewrite Hb.
Qed.

Lemma same_view_trans (e1 e2 e3 : Engine) : same_view e1 e2 -> same_view e2 e3 -> same_view e1 e3.
Proof.
  intros (A1 & B1 & C1) (A2 & B2 & C2). split_and!.
  - intros u. by rewrite A2, A1.
  - intros o. by rewrite B2, B1.
  - intros k. destruct (C1 k) as [E1|[E1 E1']], (C2 k) as [E2|[E2 E2']]; try (left; congruence);
      right; split; congruence.
Qed.

Lemma canonical_same (e e' : Engine) (o : ObjType) :
  region_parent e' = region_parent e -> array_classes e' = array_classes e ->
  canonical e' o <-> canonical e o.
Proof. intros H1 H2. split; by apply canonical_frame. Qed.

Lemma prep_same_view (e e1 : Engine) (u : User) :
  ids_ok e -> ids_ok e1 -> prep u e e1 -> same_view e e1.
Proof.
  intros I I1 P. destruct (pr_cons _ _ _ P) as (Pc & Ps & _), (pr_labels _ _ _ P) as [_ Pa].
  destruct (pr_cells _ _ _ P) as [ks Hks]. split_and!.
  - intros x. by apply con_of_frame.
  - intros o. apply canonical_same; [apply P|done].
  - intros k. destruct (value e k) as [t|] eqn:E.
    + left. by apply (value_prep u e).
    + unfold value in *. destruct (cell_ids e1 !! k) as [i|] eqn:E1; [|auto]. cbn.
      destruct (decide (i < length (cells e))%nat) as [Hl|Hl].
      * exfalso. apply I1 in E1. rewrite Hks, lookup_app_l in E1 by done. apply I in E1.
        rewrite E1 in E. cbn in E. destruct (ts_of_lt e i Hl) as [t Ht]. congruence.
      * right. split; [done|]. apply I1 in E1. unfold ts_of. rewrite Hks in E1 |- *.
        rewrite lookup_app_r in E1 |- * by lia. unfold fresh in *. rewrite list_lookup_fmap in E1 |- *.
        destruct (ks !! _); [done|done].
Qed.

Lemma value_grows (e e2 : Engine) (k : CellKey) (t : TypeSet) :
  grows N K e e2 -> value e k = Some t -> exists t', value e2 k = Some t' /\ ts_le e2 t t'.
Proof.
  intros G. unfold value. destruct (cell_ids e !! k) as [i|] eqn:E; [|done].
  rewrite (g_ids _ _ _ _ G k i E). cbn. intros Ht.
  destruct (g_cells _ _ _ _ G i t Ht) as (t' & Ht' & [Hle _]). eauto.
Qed.

Lemma value_same (e e2 : Engine) (k : CellKey) (i : CellId) :
  grows N K e e2 -> cell_ids e !! k = Some i -> ts_of e2 i = ts_of e i -> value e2 k = value e k.
Proof. intros G E H. unfold value. rewrite E, (g_ids _ _ _ _ G k i E). done. Qed.

Lemma value_wf (e : Engine) (k : CellKey) (t : TypeSet) :
  eng_wf N K e -> value e k = Some t -> ts_wf t /\ obj_below N (obj t).
Proof.
  intros W. unfold value. destruct (cell_ids e !! k) as [i|]; [|done]. cbn. by apply (ts_of_wf N K).
Qed.

Lemma raised_same_view (e e2 : Engine) :
  grows N K e e2 -> pot N K e2 = pot N K e -> same_view e e2.
Proof.
  intros G Hp. destruct (g_same _ _ _ _ G Hp) as [Ht Hr]. destruct (g_cons _ _ _ _ G) as (Gc & Gs & _).
  destruct (g_still _ _ _ _ G Hr) as (_ & Hi & _). split_and!.
  - intros u. by apply con_of_frame.
  - intros o. apply canonical_same; [done|apply (g_arrays _ _ _ _ G)].
  - intros k. left. unfold value. rewrite Hi. destruct (cell_ids e !! k); [apply Ht|done].
Qed.

(** *** What an evaluation keeps and establishes *)

Lemma value_ids (e : Engine) (k : CellKey) (i : CellId) :
  ids_ok e -> cell_ids e !! k = Some i -> exists t, value e k = Some t.
Proof.
  intros I Hi. unfold value. rewrite Hi. cbn. apply ts_of_lt. by eapply ids_ok_lt.
Qed.

Lemma arith_val_wf1 (t : TypeSet) (op : NumOp) (ta : TypeSet) (tb : option TypeSet)
    (la lb : option ValueRange) :
  arith_val op ta tb la lb = Some t -> ts_wf ta -> (forall b, tb = Some b -> ts_wf b) -> ts_wf t.
Proof. intros H _ _. by apply arith_val_wf in H as [? _]. Qed.

Lemma prep_view (u : User) (e e1 : Engine) : prep u e e1 -> view_le e e1.
Proof. intros P. apply view_le_same; [apply P|apply P|]. by rewrite (pr_sink _ _ _ P). Qed.

Lemma holds_prep (e e1 : Engine) (u x : User) :
  run_inv e -> x ∈ U -> prep u e e1 -> holds e x -> holds e1 x.
Proof.
  intros R Hx P (s & c & Hc & Hs & Hr). destruct (pr_cons _ _ _ P) as (Pc & Ps & _).
  destruct (ri_con e R x Hx) as (s' & c' & Hc' & Hok & _). rewrite Hc in Hc'. injection Hc' as <- <-.
  exists s, c. split_and!; [by rewrite (con_of_frame e e1)| |].
  - apply (sat_mono N e e1); try done; [by eapply prep_view|..|exact arith_val_wf1].
    + intros k t Hk. by apply (value_wf e k t (ri_wf e R)).
    + intros k t Hk. exists t. split; [by apply (value_prep u e)|].
      apply ts_le_refl. by apply (value_wf e k t (ri_wf e R)).
    + intros k Hk. destruct (Hr k Hk) as (i & us & Hi & _).
      destruct (value_ids e k i (ri_ids e R) Hi) as [t Ht]. rewrite Ht. by apply (value_prep u e).
  - intros k Hk. apply (subscribed_prep u x e); auto.
Qed.

(** A subscribed read either did not change, or re-fired its reader. *)
Lemma reads_changed (e e2 : Engine) (x : User) (ks : list CellKey) :
  ids_ok e -> grows N K e e2 -> (forall k, k ∈ ks -> subscribed e x k) ->
  x ∈ worklist e2 \/ forall k, k ∈ ks -> value e2 k = value e k.
Proof.
  intros I G. induction ks as [|k ks IH]; intros Hs.
  - right. intros k Hk. by apply not_elem_of_nil in Hk.
  - destruct IH as [|IH]; [set_solver|auto|].
    destruct (Hs k ltac:(set_solver)) as (i & us & Hi & Hus & Hx).
    destruct (ts_of_lt e i) as [t Ht]; [by eapply ids_ok_lt|].
    destruct (decide (ts_of e2 i = Some t)) as [E|E].
    + right. intros k' [->|Hk']%elem_of_cons; [|auto]. eapply value_same; [done|done|congruence].
    + left. by eapply g_fire.
Qed.

Lemma subscribed_grows (e e2 : Engine) (x : User) (k : CellKey) :
  grows N K e e2 -> subscribed e x k -> subscribed e2 x k.
Proof.
  intros G (i & us & Hi & Hus & Hx). exists i, us. destruct (g_subs _ _ _ _ G) as [-> _].
  split; [by apply G|done].
Qed.

Lemma holds_grows (e e2 : Engine) (x : User) :
  run_inv e -> x ∈ U -> grows N K e e2 -> holds e x -> x ∈ worklist e2 \/ holds e2 x.
Proof.
  intros R Hx G (s & c & Hc & Hs & Hr). destruct (g_cons _ _ _ _ G) as (Gc & Gs & _).
  destruct (ri_con e R x Hx) as (s' & c' & Hc' & Hok & _). rewrite Hc in Hc'. injection Hc' as <- <-.
  destruct (reads_changed e e2 x _ (ri_ids e R) G Hr) as [|Hsame]; [auto|right].
  exists s, c. split_and!; [by rewrite (con_of_frame e e2)| |].
  - apply (sat_mono N e e2); try done; [apply G|..|exact arith_val_wf1].
    + intros k t Hk. by apply (value_wf e k t (ri_wf e R)).
    + intros k t Hk. by eapply value_grows.
  - intros k Hk. apply (subscribed_grows e); auto.
Qed.

Lemma target_wf (e : Engine) (s : ScriptId) (ctx : CtxId) (c : Constraint) (d : CellId)
    (t : TypeSet) :
  eng_wf N K e -> con_ok N c -> target e s ctx c d t -> ts_wf t /\ obj_below N (obj t).
Proof.
  intros W Hok. destruct c; cbn; try done.
  - intros [Hv _]. by apply (value_wf e _ t W) in Hv.
  - by intros [-> _].
  - intros (ta & tb & _ & _ & Hv & _). apply arith_val_wf in Hv as [? ->]. done.
Qed.

Lemma target_holds (e e2 : Engine) (u : User) (s : ScriptId) (c : Constraint) (d : CellId)
    (t : TypeSet) :
  run_inv e -> con_of e u = Some (s, c) -> con_ok N c ->
  (forall k, k ∈ con_reads s (snd u) c -> subscribed e u k) ->
  target e s (snd u) c d t -> raised N K e e2 d t -> u ∈ worklist e2 \/ holds e2 u.
Proof.
  intros R Hc Hok Hsub Ht [W2 G _ (cur & td & _ & Htd & Hle & _) _].
  destruct (g_cons _ _ _ _ G) as (Gc & Gs & _).
  destruct (reads_changed e e2 u _ (ri_ids e R) G Hsub) as [|Hsame]; [auto|right].
  assert (forall k, cell_ids e !! k = Some d -> value e2 k = Some td) as Hdst.
  { intros k Hk. unfold value. by rewrite (g_ids _ _ _ _ G k d Hk). }
  exists s, c. split_and!; [by rewrite (con_of_frame e e2)| |].
  - destruct c as [src dst|dst t0| | | | | | |op a b dst la lb pc]; cbn [target sat con_reads] in *;
      try done.
    + destruct Ht as [Hv Hd]. exists t, td. rewrite Hsame by set_solver. auto.
    + destruct Ht as [-> Hd]. exists td. auto.
    + destruct Ht as (ta & tb & Hva & Hvb & Hv & Hd). exists ta, tb, t.
      rewrite Hsame by set_solver. split_and!; [done| |done|].
      * destruct b as [b|]; cbn in *; [|done]. by rewrite Hsame by set_solver.
      * right. exists td. auto.
  - intros k Hk. apply (subscribed_grows e); auto.
Qed.

Lemma target_hot (e : Engine) (u : User) (s : ScriptId) (c : Constraint) (d : CellId) (t : TypeSet) :
  con_of e u = Some (s, c) -> target e s (snd u) c d t -> ~ canonical e (obj t) -> hot e u = true.
Proof.
  intros Hc Ht Hn. unfold hot. rewrite Hc.
  destruct c; cbn [target] in *; try done.
  - destruct Ht as [-> _]. by rewrite bool_decide_false.
  - destruct Ht as [-> _]. by rewrite bool_decide_false.
  - destruct Ht as (ta & tb & _ & _ & Hv & _). apply arith_val_wf in Hv as [_ Ho].
    exfalso. apply Hn. by rewrite Ho.
Qed.

(** Readers of a cell whose label is canonical are not hot. *)
Lemma readers_cold (e : Engine) (d : CellId) (us : list User) (td : TypeSet) (x : User) :
  run_inv e -> subs e !! d = Some us -> x ∈ us -> ts_of e d = Some td -> canonical e (obj td) ->
  hot e x = false.
Proof.
  intros R Hus Hx Htd Hcan. unfold hot. destruct (con_of e x) as [[s c]|] eqn:Hc; [|done].
  destruct (ri_src e R d us x s c Hus Hx Hc) as (k & Hk & Hki).
  destruct c as [src dst|dst t| | | | | | |]; try done.
  - apply list_elem_of_singleton in Hk as ->. unfold value. rewrite Hki. cbn. rewrite Htd.
    by rewrite bool_decide_true.
  - by apply not_elem_of_nil in Hk.
Qed.

(** *** One step *)

Record stepped (e e2 : Engine) (u : User) : Prop := {
  sp_inv : run_inv e2;
  sp_pot : pot N K e2 <= pot N K e;
  sp_user : u ∈ worklist e2 \/ holds e2 u;
  sp_holds : forall x, x ∈ U -> holds e x -> x ∈ worklist e2 \/ holds e2 x;
  sp_work : forall x, x ∈ worklist e -> x ∈ worklist e2;
  sp_con : forall x, con_of e2 x = con_of e x;
  sp_quiet : pot N K e2 = pot N K e ->
    same_view e e2 /\
    (worklist e2 = worklist e \/
     (hot e u = true /\ exists ws, worklist e2 = worklist e ++ ws /\
        forall x, x ∈ ws -> hot e2 x = false)) }.

Lemma eval_ok (F : nat) (e : Engine) (u : User) :
  run_inv e -> u ∈ U -> 2 * pot N K e + 2 <= Z.of_nat F ->
  exists e2, eval_core F e u = Some (e2, true) /\ stepped e e2 u.
Proof.
  intros R Hu HF. destruct (ri_con e R u Hu) as (s & c & Hc & Hok & HK).
  destruct (eval_shape N e u s c (ri_ids e R) (ri_sub e R) Hok Hc) as (e1 & Pd & Hres).
  destruct (prep_inv e e1 u s c R Hu Hc Pd) as [R1 Hp1].
  pose proof (pi_prep _ _ _ _ _ (pd_prep _ _ _ _ _ Pd)) as P.
  pose proof (prep_same_view e e1 u (ri_ids e R) (ri_ids e1 R1) P) as V1.
  assert (con_of e1 u = Some (s, c)) as Hc1 by (by rewrite (proj1 V1)).
  destruct (pr_queue _ _ _ P) as [Pw _].
  destruct Hres as [(d & t & Heval & Hd & Ht)|(Heval & Hsat)].
  - destruct (target_wf e1 s (snd u) c d t (ri_wf e1 R1) Hok Ht) as [Wt Bt].
    destruct (raise_ok N K F e1 d t u (ri_wf e1 R1) Hd Wt Bt) as (e2 & Hraise & HR).
    { split; [lia|right; lia]. }
    exists e2. rewrite Heval, Hraise. split; [done|].
    destruct (raised_inv e1 e2 d t R1 HR) as [R2 Hp2].
    pose proof HR as [_ G L _ Q].
    split; [done|lia| | | | |].
    + apply (target_holds e1 e2 u s c d t); try done. apply Pd.
    + intros x Hx Hh. apply (holds_grows e1 e2 x R1 Hx G). by apply (holds_prep e e1 u x).
    + intros x Hx. destruct (g_queue _ _ _ _ G) as (ws & -> & _). rewrite Pw. set_solver.
    + intros x. destruct (g_cons _ _ _ _ G) as (Gc & Gs & _).
      rewrite (con_of_frame e1 e2 x Gc Gs). apply V1.
    + intros Heq. assert (pot N K e2 = pot N K e1) as Hpe by lia.
      pose proof (raised_same_view e1 e2 G Hpe) as V2.
      split; [by eapply same_view_trans|]. rewrite <- Pw.
      destruct (Q Hpe) as [|(Hn & (td & Htd & Hcan) & ws & Hws & Hin)]; [auto|right].
      split; [rewrite <- (hot_same_view e e1 u V1); by eapply target_hot|].
      exists ws. split; [done|]. intros x Hx. specialize (Hin x Hx).
      destruct (subs e1 !! d) as [us|] eqn:Hus; [|by apply not_elem_of_nil in Hin].
      apply (readers_cold e2 d us td); try done. by destruct (g_subs _ _ _ _ G) as [-> _].
  - exists e1. split; [by rewrite Heval|].
    split; [done|lia| | | |apply V1|].
    + right. exists s, c. split_and!; [done|done|]. apply Pd.
    + intros x Hx Hh. right. by apply (holds_prep e e1 u x).
    + by rewrite Pw.
    + intros _. auto.
Qed.

(** *** The loop *)

(** The measure of the loop, and its bound: the number of evaluations. *)
Definition base : Z := Z.of_nat (size U) + 1.

Definition measure (e : Engine) : Z :=
  base * base * pot N K e + base * Z.of_nat (hots e) + Z.of_nat (length (worklist e)).

Lemma worklist_bounded (e : Engine) : run_inv e -> Z.of_nat (length (worklist e)) < base.
Proof.
  intros R. destruct (ew_queue _ _ _ (ri_wf e R)) as [Hn _]. unfold base.
  assert (length (worklist e) <= size U)%nat; [|lia].
  rewrite <- (size_list_to_set (C := gset User)) by done.
  apply subseteq_size. intros u Hu. apply elem_of_list_to_set in Hu. by apply (ri_work e R).
Qed.

Lemma hots_bounded (e : Engine) : (hots e <= length (worklist e))%nat.
Proof. unfold hots. induction (worklist e) as [|x l IH]; cbn; [done|]. destruct (hot e x); cbn; lia. Qed.

Lemma pop_inv (e e0 : Engine) (u : User) :
  run_inv e -> pop e = Some (e0, u) ->
  run_inv e0 /\ u ∈ U /\ worklist e = u :: worklist e0 /\ pot N K e0 = pot N K e /\
  (forall x, hot e0 x = hot e x) /\ (forall x, holds e x <-> holds e0 x).
Proof.
  intros R. unfold pop. destruct (worklist e) as [|u' w] eqn:Ew; [done|]. intros [= <- <-].
  destruct R as [[Wl Wv Wi0 Wk Wc Wlk [Wn Wi]] Rs Rw Ru Rc Rr].
  rewrite Ew in *. apply list.NoDup_cons in Wn as [Hnin Hnd].
  split_and!; try done; [|by apply Rw; set_solver].
  split; try done; [|intros x Hx; apply Rw; cbn in Hx; set_solver].
  split; try done; [by destruct Wl|]. split; [done|]. cbn. intros x.
  rewrite elem_of_difference, elem_of_singleton, Wi, elem_of_cons.
  split; [intros [[->|] ?]; done|]. intros Hx. split; [auto|]. by intros ->.
Qed.

Record drained (e e' : Engine) (Fset : gset User) : Prop := {
  dr_inv : run_inv e';
  dr_empty : worklist e' = [];
  dr_holds : forall u, u ∈ Fset -> holds e' u;
  dr_con : forall x, con_of e' x = con_of e x }.

Lemma measure_step (e e0 e2 : Engine) (u : User) :
  run_inv e -> pop e = Some (e0, u) -> stepped e0 e2 u -> measure e2 < measure e.
Proof.
  intros R Hpop S. destruct (pop_inv e e0 u R Hpop) as (R0 & Hu & Hw & Hp & Hh & _).
  pose proof (worklist_bounded e R) as B. pose proof (worklist_bounded e2 (sp_inv _ _ _ S)) as B2.
  pose proof (hots_bounded e2). pose proof (sp_pot _ _ _ S) as Hp2.
  assert (1 <= base) by (unfold base; lia). unfold measure.
  destruct (decide (pot N K e2 = pot N K e0)) as [E|E].
  - rewrite E, Hp. destruct (sp_quiet _ _ _ S E) as [V Hq].
    assert (hots e = length (List.filter (hot e2) (u :: worklist e0))) as He.
    { unfold hots. rewrite Hw. f_equal. apply filter_ext. intros x.
      by rewrite <- Hh, (hot_same_view _ _ _ V). }
    assert (hot e2 u = hot e0 u) as Hu2 by (by apply hot_same_view).
    rewrite He, Hw. unfold hots. cbn [List.filter length]. rewrite Hu2.
    destruct Hq as [->|(Hhot & ws & Hws2 & Hcold)]; [|rewrite Hws2 in B2 |- *].
    + destruct (hot e0 u); cbn [length]; nia.
    + assert (List.filter (hot e2) ws = []) as Hf.
      { clear -Hcold. induction ws as [|x ws IH]; [done|]. cbn. rewrite (Hcold x) by set_solver.
        apply IH. set_solver. }
      rewrite Hhot, List.filter_app, Hf, app_nil_r. cbn [length].
      rewrite !Nat2Z.inj_succ, Z.mul_succ_r. lia.
  - rewrite Hp in *. nia.
Qed.

(** The worklist drains within [measure] evaluations, and drains to a state
    in which every constraint that was queued or satisfied is satisfied. *)
Lemma run_drains (F : nat) (Fset : gset User) (steps : nat) (e : Engine) :
  Fset ⊆ U -> run_inv e -> 2 * pot N K e + 2 <= Z.of_nat F -> measure e <= Z.of_nat steps ->
  (forall u, u ∈ Fset -> u ∈ worklist e \/ holds e u) ->
  exists e', run_core F steps e = Some e' /\ drained e e' Fset.
Proof.
  intros HF. unfold run_core. revert e. induction steps as [|steps IH]; intros e R Hfuel Hm Hset.
  - assert (worklist e = []) as Hw.
    { destruct (worklist e) eqn:E; [done|]. pose proof (pot_nonneg N K e (ri_wf e R)).
      unfold measure, base in Hm. rewrite E in Hm. cbn [length] in Hm. nia. }
    exists e. cbn [run]. unfold pop. rewrite Hw. split; [done|]. split; try done.
    intros u Hu. destruct (Hset u Hu) as [Hin|]; [|done]. rewrite Hw in Hin.
    by apply not_elem_of_nil in Hin.
  - cbn [run]. destruct (pop e) as [[e0 u]|] eqn:Hpop.
    + destruct (pop_inv e e0 u R Hpop) as (R0 & Hu & Hw & Hp & Hh & Hho).
      destruct (eval_ok F e0 u R0 Hu) as (e2 & -> & S); [lia|]. cbn.
      pose proof (measure_step e e0 e2 u R Hpop S) as Hms.
      destruct (IH e2) as (e' & He' & D).
      * apply S.
      * pose proof (sp_pot _ _ _ S). lia.
      * lia.
      * intros x Hx. destruct (Hset x Hx) as [Hin|Hx'].
        -- rewrite Hw in Hin. apply elem_of_cons in Hin as [->|Hin]; [apply S|].
           left. by apply (sp_work _ _ _ S).
        -- apply (sp_holds _ _ _ S); [by apply HF|by apply Hho].
      * exists e'. split; [exact He'|]. destruct D as [D1 D2 D3 Dc]. split; try done.
        intros x. rewrite Dc, (sp_con _ _ _ S). unfold pop in Hpop.
        destruct (worklist e); [done|]. by injection Hpop as <- _.
    + exists e. split; [done|]. unfold pop in Hpop. destruct (worklist e) eqn:Hw; [|done].
      split; try done.
      intros u Hu. destruct (Hset u Hu) as [Hin|]; [|done]. by apply not_elem_of_nil in Hin.
Qed.

End Driver.
