(* ===== verification/EngineSolve.v ===== *)
(** * EngineSolve: from a loaded program to its solution

    Loading a program (its constraints, then its instantiations) establishes
    the loop invariant, so the solver terminates on every program of
    structural constraints and its solution satisfies each of them at each
    context.  The file ends with the engine's counterexamples: what the fast
    path drops, what a re-entrant raise loses, and the change bound that does
    not hold. *)

From S2P Require Import Prelude OpSem Facts Types FnSets TypeLattice Claims IntervalSound.
From S2P Require Import Engine EngineSound EngineRun EngineRaise EngineFix.

(** ** Loading *)

Definition add_cons (e : Engine) (prog : list (ScriptId * Constraint)) : Engine :=
  fold_left (fun e sc => fst (add_con e (fst sc) (snd sc))) prog e.

Definition instantiate_all (e : Engine) (insts : list (ScriptId * CtxId)) : Engine :=
  fold_left (fun e sc => fst (instantiate e (fst sc) (snd sc))) insts e.

(** An empty engine over the labels the heap layer assigned, with the name of
    the elements' field, as [Solver::new] leaves it. *)
Definition engine_over (labels : list AbsLabels) (arrays : gset ClassId) (elems : NameId) : Engine :=
  mkEngine [] ∅ [] [] ∅ ∅ [] ∅ ∅ ∅ ∅ ∅ labels 0 0 ∅ ∅ arrays (Some elems) ∅ [] sink_default.

Definition load (labels : list AbsLabels) (arrays : gset ClassId) (elems : NameId)
    (prog : list (ScriptId * Constraint)) (insts : list (ScriptId * CtxId)) : Engine :=
  instantiate_all (add_cons (engine_over labels arrays elems) prog) insts.

Record loaded (labels : list AbsLabels) (elems : NameId) (prog : list (ScriptId * Constraint)) (e : Engine)
    : Prop := {
  ld_cells : cells e = [] /\ cell_ids e = ∅ /\ subs e = ∅ /\ sub_set e = ∅ /\ links e = ∅;
  ld_labels : abs_labels e = labels /\ region_parent e = ∅ /\ elems_name e = Some elems;
  ld_cons : cons e = snd <$> prog /\ con_script e = fst <$> prog;
  ld_script : forall s i, i ∈ default [] (script_cons e !! s) <->
    exists n, i = Z.of_nat n /\ fst <$> prog !! n = Some s;
  ld_queue : queue_ok e }.

Lemma add_con_loaded (labels : list AbsLabels) (elems : NameId) (prog : list (ScriptId * Constraint)) (e : Engine)
    (s : ScriptId) (c : Constraint) :
  loaded labels elems prog e -> loaded labels elems (prog ++ [(s, c)]) (fst (add_con e s c)).
Proof.
  intros [Hc Hl [Hk Hs] Hsc [Hn Hi]]. unfold add_con; cbn [fst]. split; try done.
  - cbn. by rewrite Hk, Hs, !fmap_app.
  - intros s' i. cbn. assert (length (cons e) = length prog) as Hlen by (by rewrite Hk, length_fmap).
    rewrite Hlen. destruct (decide (s = s')) as [<-|Hne].
    + rewrite lookup_insert_eq. cbn [default]. cbn. rewrite elem_of_app, list_elem_of_singleton, Hsc. split.
      * intros [(n & -> & Hp)| ->].
        -- exists n. split; [done|]. rewrite lookup_app_l; [done|].
           destruct (prog !! n) eqn:E; [by eapply lookup_lt_Some|done].
        -- exists (length prog). by rewrite lookup_app_r, Nat.sub_diag by lia.
      * intros (n & -> & Hp). destruct (decide (n < length prog)%nat) as [Hlt|Hlt].
        -- left. exists n. by rewrite lookup_app_l in Hp by done.
        -- right. rewrite lookup_app_r in Hp by lia.
           destruct (n - length prog)%nat as [|m] eqn:E; [f_equal; lia|by destruct m].
    + rewrite lookup_insert_ne by done. rewrite Hsc. split; intros (n & -> & Hp); exists n.
      * split; [done|]. rewrite lookup_app_l; [done|].
        destruct (prog !! n) eqn:E; [by eapply lookup_lt_Some|done].
      * split; [done|]. destruct (decide (n < length prog)%nat) as [Hlt|Hlt].
        -- by rewrite lookup_app_l in Hp by done.
        -- rewrite lookup_app_r in Hp by lia.
           destruct (n - length prog)%nat as [|m]; [|by destruct m]. cbn in Hp. congruence.
Qed.

Lemma add_cons_loaded (labels : list AbsLabels) (arrays : gset ClassId) (elems : NameId)
    (prog : list (ScriptId * Constraint)) :
  loaded labels elems prog (add_cons (engine_over labels arrays elems) prog) /\
  worklist (add_cons (engine_over labels arrays elems) prog) = [] /\
  live_ctxs (add_cons (engine_over labels arrays elems) prog) = ∅.
Proof.
  unfold add_cons.
  assert (forall prog0 e, loaded labels elems prog0 e /\ worklist e = [] /\ live_ctxs e = ∅ ->
    let e' := fold_left (fun e sc => fst (add_con e (fst sc) (snd sc))) prog e in
    loaded labels elems (prog0 ++ prog) e' /\ worklist e' = [] /\ live_ctxs e' = ∅) as H.
  { induction prog as [|[s c] prog IH]; intros prog0 e (Hl & Hw & Hv); cbn [fold_left fst snd].
    - by rewrite app_nil_r.
    - specialize (IH (prog0 ++ [(s, c)]) (fst (add_con e s c))). rewrite <- app_assoc in IH.
      apply IH. split_and!; [by apply add_con_loaded|done|done]. }
  apply (H []). split_and!; try done. split; try done.
  - intros s i. cbn. rewrite lookup_empty. cbn. split; [by intros ?%not_elem_of_nil|].
    intros (n & _ & Hn). by rewrite lookup_nil in Hn.
  - split; [constructor|]. cbn. set_solver.
Qed.

(** Instantiation queues every constraint of the script at the context. *)
Definition live_queued (e : Engine) : Prop :=
  forall s ctx, ctx ∈ default [] (live_ctxs e !! s) ->
  forall i, i ∈ default [] (script_cons e !! s) -> (i, ctx) ∈ worklist e.

Lemma instantiate_loaded (labels : list AbsLabels) (elems : NameId) (prog : list (ScriptId * Constraint))
    (e : Engine) (s : ScriptId) (ctx : CtxId) (P : User -> Prop) :
  loaded labels elems prog e -> live_queued e -> (forall u, u ∈ worklist e -> P u) ->
  (forall i, i ∈ default [] (script_cons e !! s) -> P (i, ctx)) ->
  let e' := fst (instantiate e s ctx) in
  loaded labels elems prog e' /\ live_queued e' /\ (forall u, u ∈ worklist e' -> P u) /\
  ctx ∈ default [] (live_ctxs e' !! s) /\
  (forall s' c', c' ∈ default [] (live_ctxs e !! s') -> c' ∈ default [] (live_ctxs e' !! s')).
Proof.
  intros L Q HP Hs. unfold instantiate. case_bool_decide as Hin; cbn [fst].
  - split_and!; [|intros s' c' Hc'; apply Q|done|by cbn; rewrite lookup_insert_eq|].
    + destruct L as [? ? ? ? [? ?]]. by split.
    + cbn in Hc'. destruct (decide (s = s')) as [<-|]; [by rewrite lookup_insert_eq in Hc'|].
      by rewrite lookup_insert_ne in Hc'.
    + intros s' c' Hc'. cbn. destruct (decide (s = s')) as [<-|]; [by rewrite lookup_insert_eq|].
      by rewrite lookup_insert_ne.
  - set (ctxs := default [] (live_ctxs e !! s)) in *.
    set (e1 := set_live e (<[s := ctxs ++ [ctx]]> (live_ctxs e))).
    set (cs := default [] (script_cons e !! s)) in *.
    assert (forall A (f : list ConId -> A) (z : A), z = f [] ->
      match script_cons e !! s with Some cs => f cs | None => z end = f cs) as Hm.
    { intros A f z ->. subst cs. by destruct (script_cons e !! s). }
    rewrite (Hm _ (fun cs => (enqueue_all e1 ((fun c => (c, ctx)) <$> cs), true))) by done.
    cbn [fst]. clear Hm.
    assert (queue_ok e1) as Hq by (destruct L as [? ? ? ? [? ?]]; by split).
    destruct (enqueue_all_spec ((fun c => (c, ctx)) <$> cs) e1 Hq) as ([Hc Hp] & Hq' & (ws & Hw & Hws) & Hin').
    remember (enqueue_all e1 ((fun c => (c, ctx)) <$> cs)) as e2 eqn:He2. clear He2.
    destruct Hc. cbn in * |-.
    assert (forall s' c', c' ∈ default [] (live_ctxs e2 !! s') <->
      c' ∈ default [] (live_ctxs e !! s') \/ (s' = s /\ c' = ctx)) as Hlive.
    { intros s' c'. rewrite sc_live. destruct (decide (s = s')) as [<-|Hne].
      - rewrite lookup_insert_eq. cbn. rewrite elem_of_app, list_elem_of_singleton. tauto.
      - rewrite lookup_insert_ne by done. naive_solver. }
    split_and!.
    + destruct L as [(?&?&?&?&?) (?&?&?) [? ?] Hsc _].
      split; try done; try (split_and!; congruence). intros s' i. rewrite sc_script_cons. apply Hsc.
    + intros s' c' Hc' i Hi. rewrite sc_script_cons in Hi. rewrite Hw.
      apply Hlive in Hc' as [Hc'|[-> ->]].
      * apply elem_of_app. left. by apply (Q s').
      * rewrite <- Hw. apply Hin'. apply list_elem_of_fmap. eauto.
    + intros u. rewrite Hw. intros [Hu|Hu]%elem_of_app; [by apply HP|].
      apply Hws, list_elem_of_fmap in Hu as (i & -> & Hi). by apply Hs.
    + apply Hlive. auto.
    + intros s' c' Hc'. apply Hlive. auto.
Qed.

Lemma load_spec (labels : list AbsLabels) (arrays : gset ClassId) (elems : NameId)
    (prog : list (ScriptId * Constraint)) (insts : list (ScriptId * CtxId)) :
  let e := load labels arrays elems prog insts in
  loaded labels elems prog e /\
  (forall u, u ∈ worklist e ->
     exists n s, fst u = Z.of_nat n /\ fst <$> prog !! n = Some s /\ (s, snd u) ∈ insts) /\
  (forall n s ctx, fst <$> prog !! n = Some s -> (s, ctx) ∈ insts ->
     (Z.of_nat n, ctx) ∈ worklist e).
Proof.
  cbv zeta. unfold load. destruct (add_cons_loaded labels arrays elems prog) as (L & Hw & Hv).
  remember (add_cons (engine_over labels arrays elems) prog) as e0 eqn:He0. clear He0.
  set (P := fun u : User => exists n s, fst u = Z.of_nat n /\ fst <$> prog !! n = Some s /\ (s, snd u) ∈ insts).
  assert (forall e, loaded labels elems prog e -> live_queued e ->
    (forall u, u ∈ worklist e -> P u) ->
    forall todo, todo ⊆ insts ->
    let e' := instantiate_all e todo in
    loaded labels elems prog e' /\ live_queued e' /\ (forall u, u ∈ worklist e' -> P u) /\
    (forall s c, c ∈ default [] (live_ctxs e !! s) -> c ∈ default [] (live_ctxs e' !! s)) /\
    (forall s c, (s, c) ∈ todo -> c ∈ default [] (live_ctxs e' !! s))) as H.
  { intros e L' Q' HP todo. revert e L' Q' HP. unfold instantiate_all.
    induction todo as [|[s c] todo IH]; intros e L' Q' HP Hsub; cbn [fold_left fst snd].
    - split_and!; try done. intros s c Hin. by apply not_elem_of_nil in Hin.
    - destruct (instantiate_loaded labels elems prog e s c P L' Q' HP) as (L1 & Q1 & P1 & In1 & Mono1).
      { intros i Hi. apply (ld_script _ _ _ _ L') in Hi as (n & -> & Hn). exists n, s.
        split_and!; [done|done|]. apply Hsub. set_solver. }
      destruct (IH (fst (instantiate e s c)) L1 Q1 P1) as (L2 & Q2 & P2 & Mono2 & In2); [set_solver|].
      split_and!; try done.
      + intros s' c' H'. apply Mono2, Mono1, H'.
      + intros s' c' [[= -> ->]|Hin]%elem_of_cons; [by apply Mono2|by apply In2]. }
  destruct (H e0 L) with (todo := insts) as (L' & Q' & P' & _ & In'); try done.
  - intros s c. rewrite Hv, lookup_empty. by intros ?%not_elem_of_nil.
  - rewrite Hw. by intros u ?%not_elem_of_nil.
  - split_and!; try done. intros n s ctx Hn Hin. apply (Q' s); [by apply In'|].
    apply (ld_script _ _ _ _ L'). eauto.
Qed.

(** ** The loaded state satisfies the loop invariant *)

Definition prog_users (prog : list (ScriptId * Constraint)) (insts : list (ScriptId * CtxId))
    : gset User :=
  list_to_set ((fun x => (Z.of_nat (fst x), snd x)) <$> list_prod (seq 0 (length prog)) (snd <$> insts)).

(** The pairs that get queued: a constraint at a context of its own script. *)
Definition fired_users (prog : list (ScriptId * Constraint)) (insts : list (ScriptId * CtxId))
    : gset User :=
  filter (fun u => match fst <$> prog !! Z.to_nat (fst u) with
                   | Some s => bool_decide ((s, snd u) ∈ insts)
                   | None => false end = true)
    (prog_users prog insts).

(** The element views a region merge can make. *)
Definition view_keys (N : nat) (elems : NameId) : gset CellKey :=
  list_to_set ((fun c => KClassView c elems) <$> seq 0 N).

Lemma elem_of_view_keys (N : nat) (elems : NameId) (c : ClassId) :
  (c < N)%nat -> KClassView c elems ∈ view_keys N elems.
Proof.
  intros H. apply elem_of_list_to_set, list_elem_of_fmap. exists c. split; [done|].
  apply list_elem_of_In, in_seq. lia.
Qed.

Definition prog_keys (N : nat) (elems : NameId) (prog : list (ScriptId * Constraint))
    (insts : list (ScriptId * CtxId)) : gset CellKey :=
  view_keys N elems ∪ list_to_set (p ← prog; i ← insts;
    con_reads (fst p) (snd i) (snd p) ++ con_writes (fst p) (snd i) (snd p)).

Lemma elem_of_prog_users (prog : list (ScriptId * Constraint)) (insts : list (ScriptId * CtxId))
    (n : nat) (ctx : CtxId) :
  (n < length prog)%nat -> ctx ∈ insts.*2 -> (Z.of_nat n, ctx) ∈ prog_users prog insts.
Proof.
  intros Hn Hc. apply elem_of_list_to_set, list_elem_of_fmap. exists (n, ctx). split; [done|].
  apply list_elem_of_In, in_prod; [apply in_seq; lia|by apply list_elem_of_In].
Qed.

Lemma load_inv (N : nat) (labels : list AbsLabels) (arrays : gset ClassId) (elems : NameId)
    (prog : list (ScriptId * Constraint)) (insts : list (ScriptId * CtxId)) :
  (forall a m c, labels !! a = Some m -> al_class m = Some c -> (c < N)%nat) ->
  Forall (fun p => con_ok N (snd p)) prog ->
  run_inv N (prog_users prog insts) (prog_keys N elems prog insts) (load labels arrays elems prog insts).
Proof.
  intros Hlab Hprog. destruct (load_spec labels arrays elems prog insts) as (L & Hw & _).
  remember (load labels arrays elems prog insts) as e eqn:He. clear He.
  destruct L as [(Lc & Li & Ls & Lss & Ll) (Lla & Lp & Le) [Lk Lks] _ Lq].
  assert (forall u s, fst <$> prog !! Z.to_nat (fst u) = Some s ->
    exists c, con_of e u = Some (s, c) /\ prog !! Z.to_nat (fst u) = Some (s, c)) as Hcon.
  { intros u s Hs. unfold con_of. rewrite Lks, Lk, !list_lookup_fmap.
    destruct (prog !! Z.to_nat (fst u)) as [[s' c]|]; [|done]. cbn in *. injection Hs as ->. eauto. }
  split.
  - split; [|rewrite Le| |by rewrite Li|by rewrite Lc|by rewrite Ll|done].
    + split; [by rewrite Lla|by rewrite Lp|]. intros c d. by rewrite Lp.
    + intros en c [= <-] Hc. apply elem_of_union_l. by apply elem_of_view_keys.
    + intros k i. by rewrite Li, Lc, lookup_empty, lookup_nil.
  - intros i u. rewrite Ls, Lss. split; [set_solver|]. intros (us & Hus & _). by rewrite lookup_empty in Hus.
  - intros u Hu. destruct (Hw u Hu) as (n & s & Hn & Hp & Hin). destruct u as [c ctx]; cbn in *. subst c.
    apply elem_of_prog_users; [|apply list_elem_of_fmap; by exists (s, ctx)].
    destruct (prog !! n) eqn:E; [by eapply lookup_lt_Some|done].
  - intros i us u Hi. by rewrite Ls, lookup_empty in Hi.
  - intros u Hu. apply elem_of_list_to_set, list_elem_of_fmap in Hu as ([n ctx] & -> & Hin).
    apply list_elem_of_In, in_prod_iff in Hin as [Hn Hc]. apply in_seq in Hn.
    destruct (lookup_lt_is_Some_2 prog n) as [[s c] Hpn]; [lia|].
    destruct (Hcon (Z.of_nat n, ctx) s) as (c' & Hc' & Hp'); [cbn; by rewrite Nat2Z.id, Hpn|].
    cbn in Hp'. rewrite Nat2Z.id, Hpn in Hp'. injection Hp' as <-. exists s, c. split_and!; [done| |].
    + rewrite Forall_lookup in Hprog. exact (Hprog n (s, c) Hpn).
    + intros k Hk. apply elem_of_union_r, elem_of_list_to_set, list_elem_of_bind. exists (s, c). split.
      * apply list_elem_of_In, list_elem_of_fmap in Hc as ([s' ctx'] & Hctx & Hin). cbn in *. subst.
        apply list_elem_of_bind. exists (s', ctx'). done.
      * by eapply list_elem_of_lookup_2.
  - intros i us u s c Hi. by rewrite Ls, lookup_empty in Hi.
Qed.

(** The solver's result on a program of structural constraints. *)
Lemma solver_fixpoint (N : nat) (labels : list AbsLabels) (arrays : gset ClassId) (elems : NameId)
    (prog : list (ScriptId * Constraint)) (insts : list (ScriptId * CtxId)) :
  (forall a m c, labels !! a = Some m -> al_class m = Some c -> (c < N)%nat) ->
  Forall (fun p => con_ok N (snd p)) prog ->
  exists F0 S0, forall F steps, (F0 <= F)%nat -> (S0 <= steps)%nat ->
  exists e', run_core F steps (load labels arrays elems prog insts) = Some e' /\ worklist e' = [] /\
    forall n s c ctx, prog !! n = Some (s, c) -> (s, ctx) ∈ insts -> sat e' s ctx c.
Proof.
  intros Hlab Hprog. pose proof (load_inv N labels arrays elems prog insts Hlab Hprog) as R.
  destruct (load_spec labels arrays elems prog insts) as (L & Hw & Hq).
  set (U := prog_users prog insts) in *. set (K := prog_keys N elems prog insts) in *.
  set (e := load labels arrays elems prog insts) in *.
  exists (Z.to_nat (2 * pot N K e + 2)), (Z.to_nat (measure N U K e)). intros F steps HF HS.
  assert (fired_users prog insts ⊆ U) as HsubU by (intros u Hu; apply elem_of_filter in Hu as [_ Hu]; exact Hu).
  destruct (run_drains N U K F (fired_users prog insts) steps e HsubU R) as (e' & Hrun & D);
    [lia|lia| |].
  - intros [c ctx] Hu. left. apply elem_of_filter in Hu as [Hs Hu]. cbn in Hs.
    apply elem_of_list_to_set, list_elem_of_fmap in Hu as ([n ctx'] & [= -> <-] & _).
    rewrite Nat2Z.id in Hs. destruct (fst <$> prog !! n) as [s|] eqn:E; [|done].
    apply (Hq n s); [done|]. by apply bool_decide_eq_true in Hs.
  - exists e'. split; [done|]. split; [apply D|]. intros n s c ctx Hn Hin.
    assert ((Z.of_nat n, ctx) ∈ fired_users prog insts) as Hfu.
    { apply elem_of_filter. cbn. rewrite Nat2Z.id, Hn. cbn. split; [by rewrite bool_decide_true|].
      apply elem_of_prog_users; [by eapply lookup_lt_Some|]. apply list_elem_of_fmap. by exists (s, ctx). }
    destruct (dr_holds _ _ _ _ _ _ D _ Hfu) as (s' & c' & Hc' & Hsat & _).
    assert (con_of e' (Z.of_nat n, ctx) = Some (s, c)) as Hcon.
    { rewrite (dr_con _ _ _ _ _ _ D). destruct (ld_cons _ _ _ _ L) as [Lk Lks].
      unfold con_of. cbn. by rewrite Lks, Lk, Nat2Z.id, !list_lookup_fmap, Hn. }
    rewrite Hcon in Hc'. by injection Hc' as <- <-.
Qed.

(** ** What a claim read off a cell says of the values below it *)

Lemma claim_names_le (e : Engine) (t u : TypeSet) (c : Claim) :
  ts_wf t -> ts_wf u -> ts_le e t u -> value_claim_full u = Some c ->
  claim_names c t /\ unknown u = false.
Proof.
  intros [Pt Ft _] [Pu Fu _] [[Lp Lf _ _] Lo] Hc. apply value_claim_full_cases in Hc; [|done].
  destruct Hc as [Hu Hcase]. split; [|done]. unfold claim_names.
  destruct Hcase as [[-> Hp]|(-> & Hp & Hf & Ho)].
  - rewrite Hp in Lp. apply subset_of_or_eq in Lp; [|done].
    assert (p_is_empty (p_or EMPTY (prims t)) = true) as E by (by rewrite Lp).
    by apply p_or_empty in E as [_ ->].
  - rewrite Hp. split_and!; [| |done].
    + apply fns_is_empty_abs in Hf; [|done]. apply fns_is_empty_abs; [done|]. rewrite Hf in Lf.
      destruct (fns_abs (fns t)) as [x|]; cbn in Lf; [|done]. f_equal. set_solver.
    + rewrite Ho in Lo. destruct (obj t); cbn in Lo; naive_solver.
Qed.

(** ** What the engine loses *)

Definition class_any (c : ClassId) : TypeSet :=
  mkTypeSet EMPTY fns_default (OClassAny c) R_I32 false IEmpty.

(** Two array classes, 1 and 2, with element views: class 1's elements hold
    arrays of class 1, class 2's elements hold a string. *)
Definition nested_arrays : option Engine :=
  let e := mkEngine [] ∅ [] [] ∅ ∅ [] ∅ ∅ ∅ ∅ ∅ [] 0 0 ∅ ∅ {[1%nat; 2%nat]} (Some 7) ∅ []
             sink_default in
  let '(e, v1) := cell e (KClassView 1 7) in
  let '(e, v2) := cell e (KClassView 2 7) in
  e ← raise 20 e v1 (class_any 1) (SEED, CTX0);
  raise 20 e v2 (ts_prim PRIM_STRING) (SEED, CTX0).

(** An array of class 2 is then stored into an array of class 1. *)
Definition nested_store : option Engine :=
  e ← nested_arrays; raise 20 e 0 (class_any 2) (SEED, CTX0).

(** The result of [undefined + 1], an addition the cell holds. *)
Definition undefined_plus_one : option TypeSet :=
  arith_val Add (ts_prim PRIM_UNDEFINED) (Some (ts_prim PRIM_INT32)) None None.

(** Raising array classes [n, n - 1, ..., 1] into one cell. *)
Fixpoint raise_down (n : nat) (e : Engine) (id : CellId) : option Engine :=
  match n with
  | O => Some e
  | S m => e ← raise 5 e id (class_any n) (SEED, CTX0); raise_down m e id
  end.

Definition many_arrays (n : nat) : option (list Z) :=
  let e := engine_over [] (list_to_set (seq 0 (S n))) 7 in
  let '(e, id) := cell e (KGName 0) in
  (fun e => changes <$> cells e) <$> raise_down n e id.

(** *** Every such raise changes the cell *)

(** A state of that run: cell 0 holds [c0], the rest are bottom views. *)
Record bottom_views (c0 : Cell) (e : Engine) : Prop := {
  bv_cell : cells e !! 0%nat = Some c0;
  bv_ids : forall c en i, cell_ids e !! KClassView c en = Some i -> i <> 0%nat /\ ts_of e i = Some ts_default;
  bv_links : links e !! 0%nat = None;
  bv_subs : subs e = ∅;
  bv_elems : elems_name e = Some 7 }.

Definition same_regions (e e1 : Engine) : Prop :=
  region_parent e1 = region_parent e /\ array_classes e1 = array_classes e.

Lemma bottom_cell (c0 : Cell) (e : Engine) (c : ClassId) :
  bottom_views c0 e ->
  let '(e1, i) := cell e (KClassView c 7) in
  bottom_views c0 e1 /\ same_regions e e1 /\ i <> 0%nat /\ ts_of e1 i = Some ts_default.
Proof.
  intros [Hc Hi Hl Hs He]. unfold cell. destruct (cell_ids e !! _) as [i|] eqn:E.
  { destruct (Hi _ _ _ E). split_and!; [by split|by split|done|done]. }
  assert (0 < length (cells e))%nat as Hpos by (by eapply lookup_lt_Some).
  set (e1 := set_cells e _ _).
  assert (forall j t, ts_of e j = Some t -> ts_of e1 j = Some t) as Hts by (intros j t; by apply (ts_of_app _ _ [KClassView c 7])).
  assert (ts_of e1 (length (cells e)) = Some ts_default) as Hnew.
  { unfold ts_of. cbn. by rewrite lookup_app_r, Nat.sub_diag by lia. }
  split_and!; [|by split|lia|done]. split; try done.
  - cbn. by rewrite lookup_app_l.
  - intros c' en j Hj0. cbn in Hj0. apply lookup_insert_Some in Hj0 as [[_ <-]|[_ Hj]]; [split; [lia|done]|].
    destruct (Hi _ _ _ Hj). auto.
Qed.

Lemma bottom_link (rr : Engine -> CellId -> TypeSet -> User -> option Engine) (c0 : Cell) (e : Engine)
    (from to : CellId) :
  bottom_views c0 e -> from <> 0%nat -> ts_of e from = Some ts_default ->
  exists e1, link_with rr e from to = Some e1 /\ bottom_views c0 e1 /\ same_regions e e1.
Proof.
  intros [Hc Hi Hl Hs He] Hf Ht. unfold link_with. destruct (_ || _).
  { exists e. split_and!; [done|by split|by split]. }
  set (e1 := set_links _ _ _). change (ts_of e1 from) with (ts_of e from). rewrite Ht.
  exists e1. split_and!; [done| |by split]. split; try done. cbn. by rewrite lookup_insert_ne.
Qed.

(** Merging the class below into the one the cell holds. *)
Lemma bottom_union (rr : Engine -> CellId -> TypeSet -> User -> option Engine) (c0 : Cell) (e : Engine)
    (k : nat) :
  bottom_views c0 e -> (forall x, (x <= S k)%nat -> region_parent e !! x = None) ->
  exists e1, union_regions_with rr e (S k) k = Some (e1, k) /\ bottom_views c0 e1 /\
    array_classes e1 = array_classes e /\ (forall x, (x <= k)%nat -> region_parent e1 !! x = None).
Proof.
  intros B Hp. unfold union_regions_with. rewrite !region_root_fix by (apply Hp; lia).
  rewrite bool_decide_false by lia. destruct (Nat.ltb_spec (S k) k) as [|_]; [lia|].
  cbv zeta. set (e0 := set_regions _ _ _).
  assert (bottom_views c0 e0) as B0 by (destruct B; by split).
  change (elems_name e0) with (elems_name e). rewrite (bv_elems _ _ B).
  pose proof (bottom_cell c0 e0 (S k) B0) as C1. destruct (cell e0 _) as [e1 from].
  destruct C1 as (B1 & [P1 A1] & Hf & Hd).
  pose proof (bottom_cell c0 e1 k B1) as C2. destruct (cell e1 (KClassView k 7)) as [e2 to] eqn:E2.
  destruct C2 as (B2 & [P2 A2] & _ & _).
  assert (ts_of e2 from = Some ts_default) as Hd2.
  { unfold cell in E2. destruct (cell_ids e1 !! _); [by injection E2 as <- <-|].
    injection E2 as <- <-. by apply (ts_of_app e1 _ [KClassView k 7]). }
  destruct (bottom_link rr c0 e2 from to B2 Hf Hd2) as (e3 & -> & B3 & [P3 A3]). cbn [mbind option_bind].
  exists e3. split_and!; [done|done|by rewrite A3, A2, A1|]. intros x Hx. rewrite P3, P2, P1. cbn.
  rewrite lookup_insert_ne by lia. apply Hp. lia.
Qed.

(** The state with class [k] in cell 0 after [j] changes. *)
Record fallen (k : nat) (j : Z) (e : Engine) : Prop := {
  fa_views : bottom_views (mkCell (KGName 0) (class_any k) j) e;
  fa_roots : forall x, (x <= k)%nat -> region_parent e !! x = None;
  fa_arrays : forall x, (x <= k)%nat -> x ∈ array_classes e }.

(** What follows the join, in a state without subscribers or links of cell 0. *)
Lemma bottom_settle (c0 : Cell) (e : Engine) (w : bool) (t : TypeSet) (why : User) :
  bottom_views c0 e ->
  let e' := settle e w 0 t why in
  bottom_views (mkCell (key c0) t (wrap_u 16 (changes c0 + 1))) e' /\ same_regions e e'.
Proof.
  intros [Hc Hi Hl Hs He]. unfold settle. cbv zeta.
  destruct (note_anyobj_core (set_ts e 0 t) w 0 why) as (Hn & Hr & _).
  remember (note_anyobj (set_ts e 0 t) w 0 why) as e1 eqn:E1. clear E1.
  cbn [set_stats bump_changes set_cells subs]. rewrite (sc_subs _ _ Hn). cbn [set_ts set_cells subs].
  rewrite Hs, lookup_empty. cbn [default enqueue_all fold_left].
  assert (forall i, i <> 0%nat -> cells e1 !! i = cells e !! i) as Hother.
  { intros i Hne. rewrite (sc_cells _ _ Hn). cbn. by rewrite list_lookup_alter_ne by congruence. }
  split; [|split; [exact Hr|apply (sc_arrays _ _ Hn)]]. split; cbn.
  - rewrite (sc_cells _ _ Hn). cbn. by rewrite !list_lookup_alter_eq, Hc.
  - intros c en i. rewrite (sc_cell_ids _ _ Hn). intros Hci. destruct (Hi _ _ _ Hci) as [Hne Ht].
    split; [done|]. unfold ts_of in *. cbn. rewrite list_lookup_alter_ne by congruence. by rewrite Hother.
  - by rewrite (sc_links _ _ Hn).
  - by rewrite (sc_subs _ _ Hn).
  - by rewrite (sc_elems _ _ Hn).
Qed.

Lemma fallen_step (rr : Engine -> CellId -> TypeSet -> User -> option Engine) (k : nat) (j : Z)
    (e : Engine) (why : User) :
  fallen (S k) j e -> 0 <= j < 2 ^ 16 - 1 ->
  exists e', raise_with rr e 0 (class_any k) why = Some e' /\ fallen k (j + 1) e'.
Proof.
  intros [B Hp Ha] Hj. unfold raise_with.
  assert (ts_of e 0 = Some (class_any (S k))) as Ht by (unfold ts_of; by rewrite (bv_cell _ _ B)).
  rewrite Ht. cbn [mbind option_bind].
  assert (no_growth e (class_any (S k)) (class_any k) = false) as ->.
  { unfold no_growth. cbn [obj class_any]. unfold obj_is_empty. rewrite !bool_decide_false by (done || (intros [=]; lia)).
    by rewrite andb_false_r. }
  assert (forall x, (x <= S k)%nat -> array_region_of e (OClassAny x) = Some x) as Har.
  { intros x Hx. cbn [array_region_of]. rewrite region_root_fix by auto. by rewrite bool_decide_true by auto. }
  destruct (bottom_union rr _ e k B Hp) as (e1 & Hu & B1 & A1 & P1).
  assert (exists sk, join_ts_with rr e (class_any (S k)) (class_any k) =
    Some (set_sink e1 sk, class_any k, true)) as [sk ->].
  { unfold join_ts_with, rescue_with. cbn [obj class_any]. rewrite !Har, Hu by lia. cbn [mbind option_bind].
    assert (join_obj (OClassAny (S k)) (OClassAny k) (abs_labels e1) = OAnyObject) as Ejo
      by (cbn; by rewrite bool_decide_false by lia).
    unfold join_from. cbn [obj class_any prims fns range unknown interval]. rewrite Ejo. cbn.
    eexists. reflexivity. }
  cbn [mbind option_bind negb].
  assert (bottom_views (mkCell (KGName 0) (class_any (S k)) j) (set_sink e1 sk)) as B2 by (destruct B1; by split).
  destruct (bottom_settle _ _ (bool_decide (obj (class_any (S k)) = OAnyObject)) (class_any k) why B2) as [B3 [P3 A3]].
  unfold settle in B3, P3, A3. cbv zeta in B3, P3, A3 |- *.
  match type of B3 with bottom_views _ ?x => remember x as e3 eqn:E3 end. clear E3.
  rewrite (bv_links _ _ B3). exists e3. split; [done|]. cbn [key changes] in B3.
  rewrite wrap_u_small in B3 by (unfold in_u; lia). split; [done| |].
  - intros x Hx. rewrite P3. by apply P1.
  - intros x Hx. rewrite A3. cbn. rewrite A1. apply Ha. lia.
Qed.

Lemma first_raise (n : nat) (why : User) :
  let '(e, id) := cell (engine_over [] (list_to_set (seq 0 (S n))) 7) (KGName 0) in
  id = 0%nat /\ exists e', raise 5 e id (class_any n) why = Some e' /\ fallen n 1 e'.
Proof.
  set (e0 := engine_over _ _ _). assert (cell e0 (KGName 0) =
    (set_cells e0 [mkCell (KGName 0) ts_default 0] (<[KGName 0 := 0%nat]> ∅), 0%nat)) as -> by done.
  split; [done|]. set (e := set_cells _ _ _). change (raise 5) with (raise_with (raise 4)). unfold raise_with.
  change (ts_of e 0) with (Some ts_default). cbn [mbind option_bind].
  assert (no_growth e ts_default (class_any n) = false) as ->.
  { unfold no_growth. cbn [obj class_any ts_default]. unfold obj_is_empty. rewrite !bool_decide_false by done.
    by rewrite andb_false_r. }
  assert (exists sk, join_ts_with (raise 4) e ts_default (class_any n) =
    Some (set_sink e sk, class_any n, true)) as [sk ->].
  { unfold join_ts_with, rescue_with. cbn [obj class_any ts_default array_region_of join_obj].
    rewrite (bool_decide_false (OClassAny n = OAnyObject)) by done.
    eexists. reflexivity. }
  cbn [mbind option_bind negb].
  assert (bottom_views (mkCell (KGName 0) ts_default 0) (set_sink e sk)) as B2.
  { split; try done. intros c en i. cbn. rewrite lookup_insert_ne by done. by rewrite lookup_empty. }
  destruct (bottom_settle _ _ (bool_decide (obj ts_default = OAnyObject)) (class_any n) why B2) as [B3 [P3 A3]].
  unfold settle in B3, P3, A3. cbv zeta in B3, P3, A3 |- *.
  match type of B3 with bottom_views _ ?x => remember x as e3 eqn:E3 end. clear E3.
  rewrite (bv_links _ _ B3). exists e3. split; [done|]. split; [done| |].
  - intros x Hx. rewrite P3. cbn. by rewrite lookup_empty.
  - intros x Hx. rewrite A3. cbn [set_sink array_classes e e0 set_cells engine_over].
    apply elem_of_list_to_set, list_elem_of_In, in_seq. lia.
Qed.

Lemma raise_down_falls (m : nat) (j : Z) (e : Engine) :
  fallen (S m) j e -> 0 <= j -> j + Z.of_nat m < 2 ^ 16 ->
  exists e' k, raise_down m e 0 = Some e' /\ fallen k (j + Z.of_nat m) e'.
Proof.
  revert j e. induction m as [|m IH]; intros j e H Hj Hm; cbn [raise_down].
  - exists e, 1%nat. split; [done|]. by rewrite Z.add_0_r.
  - destruct (fallen_step (raise 4) (S m) j e (SEED, CTX0) H) as (e1 & E1 & H1); [lia|].
    change (raise 5 e 0 (class_any (S m)) (SEED, CTX0)) with
      (raise_with (raise 4) e 0 (class_any (S m)) (SEED, CTX0)). rewrite E1. cbn [mbind option_bind].
    destruct (IH (j + 1) e1 H1) as (e' & k & E' & H'); [lia..|]. exists e', k. split; [done|].
    replace (j + Z.of_nat (S m)) with (j + 1 + Z.of_nat m) by lia. done.
Qed.

(** [n] array classes raised in descending order change one cell [n] times. *)
Lemma many_arrays_changes (n : nat) :
  Z.of_nat n < 2 ^ 16 -> exists cs, many_arrays n = Some cs /\ cs !! 0%nat = Some (Z.of_nat n).
Proof.
  intros Hn. unfold many_arrays. pose proof (first_raise n (SEED, CTX0)) as F.
  destruct (cell _ (KGName 0)) as [e id] eqn:E. destruct F as (-> & e1 & E1 & H1).
  destruct n as [|m].
  - cbn [raise_down]. injection E as <-. eexists. split; [reflexivity|]. reflexivity.
  - cbn [raise_down]. rewrite E1. cbn [mbind option_bind].
    destruct (raise_down_falls m 1 e1 H1) as (e' & k & -> & [B _ _]); [lia..|].
    eexists. split; [reflexivity|]. rewrite list_lookup_fmap, (bv_cell _ _ B). cbn. f_equal. lia.
Qed.
