(* ===== verification/Mem.v ===== *)
(** * Mem: guest memory and fallible reads

    [snapshot/src/mem.rs] and the two implementations of its trait: a byte
    slice ([SliceMem]) and the running instance's own linear memory
    ([LiveMem] of [snapshot/src/ffi.rs]). A Rust [Result] whose evaluation can
    also panic is a [res]; loops the code writes with [while] carry fuel, and
    running out of it is an outcome of its own, so that no theorem can take it
    for a result. Address arithmetic on [u32] wraps (the release profile has
    no overflow checks). *)

From S2P Require Import Prelude.

(** Every [bail!] of the snapshot reader, one constructor per call. *)
Inductive Error :=
  | EAddressOverflow (addr len : Z)
  | EOutOfBounds (addr len : Z)
  | ENullRead (len : Z)
  | ELayoutAbi (abi : Z)
  | ELayoutFields (n : Z)
  | ERegistrationAbi (abi : Z)
  | ERoots (n : Z)
  | ETableTruncated (pos : Z)
  | ENameNotUtf8
  | EDigestTruncated (pos : Z)
  | EDigestKinds
  | ESelfHostedLazy (addr : Z)
  | ELazyScript (addr : Z)
  | EScriptNotInDigest (addr : Z)
  | EGcThingCount (addr : Z)
  | EBodyScopeIndex
  | EScopeNotInDigest (addr : Z)
  | EStringNotLinear (addr : Z)
  | ETryNoteKind (raw : Z).

(** Why a run panics: a slice or vector index out of range, an object of
    another variant, an absent value unwrapped, a failed assertion, or the
    object ids running out. *)
Inductive PanicReason := PSlice | PVariant | PUnwrap | PAssert | PIdSpace | PCapacity.

Inductive res (A : Type) :=
  | Ok (a : A)
  | Err (e : Error)
  | Panic (p : PanicReason)
  | OutOfFuel.
Arguments Ok {A} a.
Arguments Err {A} e.
Arguments Panic {A} p.
Arguments OutOfFuel {A}.

#[export] Instance res_ret : MRet res := fun A a => Ok a.
#[export] Instance res_bind : MBind res := fun A B f m =>
  match m with
  | Ok a => f a
  | Err e => Err e
  | Panic p => Panic p
  | OutOfFuel => OutOfFuel
  end.

(** The run ends in a value or an error. *)
Definition returns {A} (r : res A) : Prop :=
  match r with Ok _ | Err _ => True | _ => False end.

Lemma bind_Ok {A B} (m : res A) (f : A -> res B) (b : B) :
  m ≫= f = Ok b <-> exists a, m = Ok a /\ f a = Ok b.
Proof.
  destruct m; cbn; split; try discriminate; try (intros (a & [=] & _)).
  - intros H. eauto.
  - intros (a' & [= ->] & H). exact H.
Qed.

Lemma bind_returns {A B} (m : res A) (f : A -> res B) :
  returns m -> (forall a, m = Ok a -> returns (f a)) -> returns (m ≫= f).
Proof. destruct m; cbn; auto. Qed.

(** Runs one after the other: [Ok] results are threaded, anything else ends. *)
Fixpoint rep_nat {A} (n : nat) (f : A -> res A) (a : A) : res A :=
  match n with O => Ok a | S n => f a ≫= rep_nat n f end.

(** The same with a binary counter, so that a count of [u32] evaluates. *)
Fixpoint rep_pos {A} (p : positive) (f : A -> res A) (a : A) : res A :=
  match p with
  | xH => f a
  | xO p => rep_pos p f a ≫= rep_pos p f
  | xI p => (f a ≫= rep_pos p f) ≫= rep_pos p f
  end.

(** [for _ in 0..count]. *)
Definition times {A} (count : Z) (f : A -> res A) (a : A) : res A :=
  match count with Zpos p => rep_pos p f a | _ => Ok a end.

Lemma rep_nat_add {A} (n m : nat) (f : A -> res A) (a : A) :
  rep_nat (n + m) f a = rep_nat n f a ≫= rep_nat m f.
Proof.
  revert a. induction n as [|n IH]; intros a; cbn [rep_nat Nat.add]; [done|].
  destruct (f a) as [b| | |]; cbn; [apply IH|done..].
Qed.

Lemma rep_pos_nat {A} (p : positive) (f : A -> res A) (a : A) :
  rep_pos p f a = rep_nat (Pos.to_nat p) f a.
Proof.
  assert (forall p, forall a, rep_pos p f a = rep_nat (Pos.to_nat p) f a) as H; [|apply H].
  clear p a. intros p. induction p as [p IH|p IH|]; intros a; cbn [rep_pos].
  - rewrite Pos2Nat.inj_xI. cbn [rep_nat]. replace (2 * Pos.to_nat p)%nat with (Pos.to_nat p + Pos.to_nat p)%nat by lia.
    destruct (f a) as [b| | |]; cbn; [|done..].
    rewrite rep_nat_add, IH. destruct (rep_nat _ f b) as [c| | |]; cbn; [apply IH|done..].
  - rewrite Pos2Nat.inj_xO. replace (2 * Pos.to_nat p)%nat with (Pos.to_nat p + Pos.to_nat p)%nat by lia.
    rewrite rep_nat_add, IH. destruct (rep_nat _ f a) as [c| | |]; cbn; [apply IH|done..].
  - change (Pos.to_nat 1) with 1%nat. cbn. by destruct (f a).
Qed.

Lemma times_nat {A} (n : Z) (f : A -> res A) (a : A) : times n f a = rep_nat (Z.to_nat n) f a.
Proof. destruct n as [|p|p]; cbn; [done|apply rep_pos_nat|done]. Qed.

(** ** Machine words *)

Definition u32_add (a b : Z) : Z := wrap_u 32 (a + b).
Definition u32_mul (a b : Z) : Z := wrap_u 32 (a * b).
Definition u32_sub (a b : Z) : Z := wrap_u 32 (a - b).
Definition as_u8 (a : Z) : Z := wrap_u 8 a.
Definition as_u16 (a : Z) : Z := wrap_u 16 a.
Definition as_u32 (a : Z) : Z := wrap_u 32 a.

Lemma u32_add_small (a b : Z) : 0 <= a + b < 2 ^ 32 -> u32_add a b = a + b.
Proof. apply wrap_u_small. Qed.

Definition is_byte (b : Z) : Prop := in_u 8 b.

(** [from_le_bytes]. *)
Fixpoint le_bytes (bs : list Z) : Z :=
  match bs with
  | [] => 0
  | b :: bs => b + 256 * le_bytes bs
  end.

(** [to_le_bytes] of an [n]-byte word. *)
Fixpoint to_le (n : nat) (v : Z) : list Z :=
  match n with
  | O => []
  | S n => v mod 256 :: to_le n (v / 256)
  end.

Lemma le_bytes_range (bs : list Z) :
  Forall is_byte bs -> 0 <= le_bytes bs < 256 ^ Z.of_nat (length bs).
Proof.
  induction 1 as [|b bs Hb _ IH]; cbn [le_bytes length]; [cbn; lia|].
  unfold is_byte, in_u in Hb. rewrite Nat2Z.inj_succ, Z.pow_succ_r by lia. nia.
Qed.

Lemma to_le_length (n : nat) (v : Z) : length (to_le n v) = n.
Proof. revert v. induction n; intros; cbn; auto. Qed.

Lemma to_le_bytes (n : nat) (v : Z) : Forall is_byte (to_le n v).
Proof.
  revert v. induction n; intros; cbn; constructor; auto.
  unfold is_byte, in_u. pose proof (Z.mod_pos_bound v 256). lia.
Qed.

Lemma le_bytes_to_le (n : nat) (v : Z) :
  0 <= v < 256 ^ Z.of_nat n -> le_bytes (to_le n v) = v.
Proof.
  revert v. induction n as [|n IH]; intros v Hv; cbn [to_le le_bytes]; [cbn in Hv; lia|].
  rewrite Nat2Z.inj_succ, Z.pow_succ_r in Hv by lia.
  rewrite IH; [pose proof (Z.div_mod v 256); lia|].
  split; [apply Z.div_pos; lia|apply Z.div_lt_upper_bound; lia].
Qed.

(** [to_le] is the only byte string of its word. *)
Lemma to_le_le_bytes (bs : list Z) :
  Forall is_byte bs -> to_le (length bs) (le_bytes bs) = bs.
Proof.
  induction 1 as [|b bs Hb _ IH]; cbn [to_le le_bytes length]; [done|].
  unfold is_byte, in_u in Hb.
  replace ((b + 256 * le_bytes bs) mod 256) with b
    by (rewrite Z.mul_comm, Z.mod_add, Z.mod_small; lia).
  replace ((b + 256 * le_bytes bs) / 256) with (le_bytes bs)
    by (rewrite Z.mul_comm, Z.div_add, Z.div_small; lia).
  by rewrite IH.
Qed.

(** [&b[start..end]]. *)
Definition slice (b : list Z) (start end_ : Z) : res (list Z) :=
  if (start <=? end_) && (end_ <=? Z.of_nat (length b))
  then Ok (take (Z.to_nat (end_ - start)) (drop (Z.to_nat start) b))
  else Panic PSlice.

(** ** The trait *)

Class MemAccess (M : Type) := read_bytes : M -> Z -> Z -> res (list Z).

Section Reads.
Context {M : Type} `{MemAccess M}.

Definition read_u8 (m : M) (addr : Z) : res Z :=
  b ← read_bytes m addr 1; match b with b0 :: _ => Ok b0 | _ => Panic PSlice end.

Definition read_u16 (m : M) (addr : Z) : res Z :=
  b ← read_bytes m addr 2;
  match b with b0 :: b1 :: _ => Ok (le_bytes [b0; b1]) | _ => Panic PSlice end.

Definition read_u32 (m : M) (addr : Z) : res Z :=
  b ← read_bytes m addr 4;
  match b with
  | b0 :: b1 :: b2 :: b3 :: _ => Ok (le_bytes [b0; b1; b2; b3])
  | _ => Panic PSlice
  end.

Definition read_u64 (m : M) (addr : Z) : res Z :=
  b ← read_bytes m addr 8;
  match b with
  | b0 :: b1 :: b2 :: b3 :: b4 :: b5 :: b6 :: b7 :: _ =>
      Ok (le_bytes [b0; b1; b2; b3; b4; b5; b6; b7])
  | _ => Panic PSlice
  end.
End Reads.

(** What a reader of the trait relies on: a read returns the requested number
    of bytes or an error, and only succeeds inside the memory. *)
Class MemLaws (M : Type) `{MemAccess M} := {
  mem_size : M -> Z;
  rb_returns : forall m a n, in_u 32 a -> in_u 32 n -> returns (read_bytes m a n);
  rb_ok : forall m a n bs, in_u 32 a -> in_u 32 n -> read_bytes m a n = Ok bs ->
    Z.of_nat (length bs) = n /\ Forall is_byte bs /\ a + n <= mem_size m }.

(** ** The implementations *)

(** [SliceMem]: bytes of a snapshot image. *)
Record SliceMem := mkSliceMem {
  slice_bytes : list Z;
  slice_are_bytes : Forall is_byte slice_bytes }.

(** [usize] is 64 bits wide on the host, so [checked_add] of two [u32]s is
    exact; the test is kept as the code has it. *)
Definition slice_read_bytes (m : SliceMem) (addr len : Z) : res (list Z) :=
  let start := addr in
  let end_ := start + len in
  if 2 ^ 64 <=? end_ then Err (EAddressOverflow addr len)
  else if Z.of_nat (length (slice_bytes m)) <? end_ then Err (EOutOfBounds addr len)
  else slice (slice_bytes m) start end_.

#[export] Instance slice_mem : MemAccess SliceMem := slice_read_bytes.

(** [LiveMem]: the instance's linear memory below [limit]. *)
Record LiveMem := mkLiveMem { limit : Z; live : Z -> Z; live_bytes : forall a, is_byte (live a) }.

Definition live_read_bytes (m : LiveMem) (addr len : Z) : res (list Z) :=
  if addr =? 0 then Err (ENullRead len)
  else
    let end_ := addr + len in
    if limit m <? end_ then Err (EOutOfBounds addr len)
    else Ok (live m <$> seqZ addr len).

#[export] Instance live_mem : MemAccess LiveMem := live_read_bytes.

Lemma slice_spec (b : list Z) (start end_ : Z) :
  0 <= start <= end_ -> end_ <= Z.of_nat (length b) ->
  exists bs, slice b start end_ = Ok bs /\ Z.of_nat (length bs) = end_ - start /\
    bs ⊆ b.
Proof.
  intros Hs He. unfold slice.
  rewrite (proj2 (Z.leb_le start end_)), (proj2 (Z.leb_le end_ _)) by lia.
  eexists. split; [reflexivity|]. split.
  - rewrite length_take, length_drop. lia.
  - intros x Hx. by eapply subseteq_drop, subseteq_take.
Qed.

#[export] Program Instance slice_mem_laws : MemLaws SliceMem := {|
  mem_size m := Z.of_nat (length (slice_bytes m)) |}.
Next Obligation.
  intros m a n [Ha _] [Hn _]. unfold read_bytes, slice_mem, slice_read_bytes.
  destruct (2 ^ 64 <=? a + n); [exact I|]. destruct (Z.ltb_spec (Z.of_nat (length (slice_bytes m))) (a + n)); [exact I|].
  destruct (slice_spec (slice_bytes m) a (a + n)) as (bs & -> & _); [lia|lia|exact I].
Qed.
Next Obligation.
  intros m a n bs [Ha _] [Hn _]. unfold read_bytes, slice_mem, slice_read_bytes.
  destruct (2 ^ 64 <=? a + n); [discriminate|].
  destruct (Z.ltb_spec (Z.of_nat (length (slice_bytes m))) (a + n)); [discriminate|].
  destruct (slice_spec (slice_bytes m) a (a + n)) as (bs' & -> & Hl & Hs); [lia|lia|].
  intros [= ->]. split_and!; [lia| |lia]. apply list.Forall_forall. intros x Hx.
  pose proof (slice_are_bytes m) as Hb. rewrite list.Forall_forall in Hb. by apply Hb, Hs.
Qed.

#[export] Program Instance live_mem_laws : MemLaws LiveMem := {| mem_size := limit |}.
Next Obligation.
  intros m a n _ _. unfold read_bytes, live_mem, live_read_bytes.
  destruct (a =? 0); [exact I|]. by destruct (limit m <? a + n).
Qed.
Next Obligation.
  intros m a n bs [Ha _] [Hn _]. unfold read_bytes, live_mem, live_read_bytes.
  destruct (a =? 0); [discriminate|]. destruct (Z.ltb_spec (limit m) (a + n)); [discriminate|].
  intros [= <-]. split_and!; [rewrite length_fmap, length_seqZ; lia| |lia].
  apply Forall_fmap, list.Forall_forall. intros x _. apply live_bytes.
Qed.

(** ** Word reads under the laws *)

Section ReadSpecs.
Context {M : Type} `{MemLaws M}.

(** A word read returns a word of its width that lies in memory, or fails. *)
Definition reads (r : res Z) (m : M) (addr n : Z) : Prop :=
  returns r /\ forall v, r = Ok v -> in_u (8 * n) v /\ addr + n <= mem_size m.

(** Every word read is the little-endian word of the bytes read. *)
Lemma word_read_spec (m : M) (a : Z) (n : nat) (k : list Z -> res Z) :
  (n <= 8)%nat -> in_u 32 a ->
  (forall bs, length bs = n -> k bs = Ok (le_bytes bs)) ->
  reads (read_bytes m a (Z.of_nat n) ≫= k) m a (Z.of_nat n).
Proof.
  intros Hn Ha Hk. assert (in_u 32 (Z.of_nat n)) as Hn' by (unfold in_u; lia).
  pose proof (rb_returns m a (Z.of_nat n) Ha Hn') as Hr.
  pose proof (fun bs => rb_ok m a (Z.of_nat n) bs Ha Hn') as Ho.
  destruct (read_bytes m a (Z.of_nat n)) as [bs|e|p|]; cbn [returns] in Hr; try done.
  destruct (Ho bs eq_refl) as (Hl & Hb & Hs). cbn [mbind res_bind].
  rewrite Hk by lia. split; [exact I|]. intros v [= <-]. split; [|lia].
  apply le_bytes_range in Hb. unfold in_u. rewrite Hl in Hb.
  replace 256 with (2 ^ 8) in Hb by reflexivity. by rewrite <- Z.pow_mul_r in Hb by lia.
Qed.

Lemma read_u8_spec (m : M) (a : Z) : in_u 32 a -> reads (read_u8 m a) m a 1.
Proof.
  intros Ha. apply (word_read_spec m a 1); [lia|done|].
  intros [|b0 [|]] [=]. cbn [le_bytes]. f_equal. lia.
Qed.
Lemma read_u16_spec (m : M) (a : Z) : in_u 32 a -> reads (read_u16 m a) m a 2.
Proof. intros Ha. apply (word_read_spec m a 2); [lia|done|]. by intros [|? [|? [|]]] [=]. Qed.
Lemma read_u32_spec (m : M) (a : Z) : in_u 32 a -> reads (read_u32 m a) m a 4.
Proof.
  intros Ha. apply (word_read_spec m a 4); [lia|done|]. by intros [|? [|? [|? [|? [|]]]]] [=].
Qed.
Lemma read_u64_spec (m : M) (a : Z) : in_u 32 a -> reads (read_u64 m a) m a 8.
Proof.
  intros Ha. apply (word_read_spec m a 8); [lia|done|].
  by intros [|? [|? [|? [|? [|? [|? [|? [|? [|]]]]]]]]] [=].
Qed.
End ReadSpecs.
