(* ===== verification/Registration.v ===== *)
(** * Registration: the layout descriptor and the registration block

    [snapshot/src/layout.rs] and [snapshot/src/registration.rs]: reading the
    layout descriptor, the registration block and the tables the engine
    serialized behind it, with encoders for the table formats the comments
    state and the round trips. [usize] arithmetic is written at an explicit
    width [W], 64 on the host and 32 in the in-process build; pre-allocating a
    vector panics when its size passes [isize::MAX], and otherwise has no
    effect in the model (running out of memory is not modelled). *)

From S2P Require Import Prelude Mem.

(** ** The layout descriptor *)

(** The fields of [NIGHT_LAYOUT_FIELDS], in wire order. *)
Inductive Field :=
  | baseScriptSize | baseScriptFunction | baseScriptImmutableFlags 
  | baseScriptMutableFlags | baseScriptPrivateData | baseScriptSharedData 
  | baseScriptNightFuncIndex | isfSelfHosted | isfStrict | isfIsAsync | isfIsGenerator 
  | isfIsFunction | isfNeedsArgsObj | isfHasMappedArgsObj | privateScriptDataNGCThings 
  | privateScriptDataGCThings | gcCellPtrKindMask | traceKindObject | traceKindString 
  | traceKindScript | traceKindScope | sisdISD | isdOptArrayOffset | isdCodeLength 
  | isdMainOffset | isdNfixed | isdNslots | isdBodyScopeIndex | isdFunLength | isdCode 
  | tryNoteSize | tryNoteKind | tryNoteStackDepth | tryNoteStart | tryNoteLength 
  | scopeNoteSize | scopeNoteIndex | scopeNoteStart | scopeNoteLength 
  | functionFlagsAndArgCount | functionJitInfoOrScript | functionAtom 
  | functionFlagsBaseScript | functionFlagsSelfHostLazy | stringFlags | stringLength 
  | stringAtomBit | stringLinearBit | stringInlineCharsBit | stringLatin1CharsBit 
  | stringNonInlineChars | stringInlineStorage | scopeKind | scopeEnclosing 
  | scopeEnvironmentShape | valueTagShift | valueTagObject | valueTagString 
  | valueTagInt32 | valueTagUndefined | valueTagNull | valueTagBoolean | valueTagSymbol 
  | valueTagClear | shapeBase | baseShapeClasp | claspFunction | claspFunctionExtended 
  | claspPlain | claspArray | claspRegExp | functionFlagsInferredName 
  | functionFlagsGuessedAtom | scopeKindWith | scopeKindGlobal | scopeKindNonSyntactic 
  | scopeKindNamedLambda | scopeKindStrictNamedLambda.

#[export] Instance Field_eq_dec : EqDecision Field.
Proof. solve_decision. Defined.

Definition all_fields : list Field :=
  [baseScriptSize; baseScriptFunction; baseScriptImmutableFlags; baseScriptMutableFlags;
   baseScriptPrivateData; baseScriptSharedData; baseScriptNightFuncIndex; isfSelfHosted;
   isfStrict; isfIsAsync; isfIsGenerator; isfIsFunction; isfNeedsArgsObj;
   isfHasMappedArgsObj; privateScriptDataNGCThings; privateScriptDataGCThings;
   gcCellPtrKindMask; traceKindObject; traceKindString; traceKindScript; traceKindScope;
   sisdISD; isdOptArrayOffset; isdCodeLength; isdMainOffset; isdNfixed; isdNslots;
   isdBodyScopeIndex; isdFunLength; isdCode; tryNoteSize; tryNoteKind; tryNoteStackDepth;
   tryNoteStart; tryNoteLength; scopeNoteSize; scopeNoteIndex; scopeNoteStart;
   scopeNoteLength; functionFlagsAndArgCount; functionJitInfoOrScript; functionAtom;
   functionFlagsBaseScript; functionFlagsSelfHostLazy; stringFlags; stringLength;
   stringAtomBit; stringLinearBit; stringInlineCharsBit; stringLatin1CharsBit;
   stringNonInlineChars; stringInlineStorage; scopeKind; scopeEnclosing;
   scopeEnvironmentShape; valueTagShift; valueTagObject; valueTagString; valueTagInt32;
   valueTagUndefined; valueTagNull; valueTagBoolean; valueTagSymbol; valueTagClear;
   shapeBase; baseShapeClasp; claspFunction; claspFunctionExtended; claspPlain;
   claspArray; claspRegExp; functionFlagsInferredName; functionFlagsGuessedAtom;
   scopeKindWith; scopeKindGlobal; scopeKindNonSyntactic; scopeKindNamedLambda;
   scopeKindStrictNamedLambda].

(** [f as u32 as usize]: the discriminant, the position in the list. *)
Definition field_index (f : Field) : nat :=
  default 0%nat (fst <$> list_find (fun g => g = f) all_fields).

Definition ABI_VERSION : Z := 8.
Definition FIELD_COUNT : Z := Z.of_nat (length all_fields).

(** A descriptor as [Layout::read] builds it: one word per field. *)
Record Layout := mkLayout { fields : list Z }.

(** [Layout::get]. The index is in range for every layout [Layout::read]
    returns ([layout_read_fields]); the default is never read there. *)
Definition get (l : Layout) (f : Field) : Z := nth (field_index f) (fields l) 0.

Section LayoutRead.
Context {M : Type} `{MemAccess M}.

Definition layout_read (mem : M) (descriptor_addr : Z) : res Layout :=
  abi ← read_u32 mem descriptor_addr;
  if negb (abi =? ABI_VERSION) then Err (ELayoutAbi abi)
  else
    num_fields ← read_u32 mem (u32_add descriptor_addr 8);
    if negb (num_fields =? FIELD_COUNT) then Err (ELayoutFields num_fields)
    else
      '(fs, _) ← times num_fields
        (fun st : list Z * Z =>
           let '(fs, i) := st in
           v ← read_u32 mem (u32_add (u32_add descriptor_addr 12) (u32_mul 4 i));
           Ok (fs ++ [v], i + 1))
        ([], 0);
      Ok (mkLayout fs).
End LayoutRead.

(** ** Byte tables *)

Definition usize_add (W a b : Z) : Z := wrap_u W (a + b).
Definition usize_mul (W a b : Z) : Z := wrap_u W (a * b).

(** A reader of a byte slice at a position: [TableReader], and the [pos] the
    digest parser threads. *)
Definition rd (A : Type) : Type := list Z -> Z -> res (A * Z).

Definition rd_ret {A} (a : A) : rd A := fun _ pos => Ok (a, pos).
Definition rd_bind {A B} (p : rd A) (f : A -> rd B) : rd B := fun b pos =>
  '(a, pos) ← p b pos; f a b pos.
Definition rd_fail {A} (e : Error) : rd A := fun _ _ => Err e.

Notation "'let*' x := p 'in' k" := (rd_bind p (fun x => k))
  (at level 200, x binder, p at level 100, k at level 200, right associativity) : night_scope.
#[local] Open Scope night_scope.

(** [while pos & 3 != 0 { pos += 1 }]: at most three rounds. *)
Fixpoint align_up (fuel : nat) (W pos : Z) : res Z :=
  match fuel with
  | O => OutOfFuel
  | S n => if Z.land pos 3 =? 0 then Ok pos else align_up n W (usize_add W pos 1)
  end.

(** *** Pre-allocation

    The sizes of the vectors' elements: a [Vec] or [String] is three words, and
    a struct is padded to its alignment. *)
Definition align_to (a n : Z) : Z := a * ((n + a - 1) / a).
Definition vec_size (W : Z) : Z := 3 * (W / 8).
Definition selfhosted_size (W : Z) : Z := align_to (W / 8) (4 + vec_size W).
Definition regex_size (W : Z) : Z := align_to (W / 8) (3 * vec_size W + 12).
Definition PAIR_SIZE : Z := 16.
Definition BINDING_SIZE : Z := 16.

(** [Vec::with_capacity(count as usize)]: the standard library panics when the
    allocation would pass [isize::MAX] bytes. *)
Definition with_capacity (W size count : Z) : rd unit := fun _ pos =>
  if count * size <? 2 ^ (W - 1) then Ok (tt, pos) else Panic PCapacity.

Section Table.
Context (W : Z).

(** [TableReader::u32], and [u32_at] of the digest. *)
Definition table_u32 (truncated : Z -> Error) : rd Z := fun b pos =>
  if Z.of_nat (length b) <? usize_add W pos 4 then Err (truncated pos)
  else
    v ← slice b pos (usize_add W pos 4);
    Ok (le_bytes v, usize_add W pos 4).

(** [TableReader::bytes]. *)
Definition table_bytes (truncated : Z -> Error) (n : Z) : rd (list Z) := fun b pos =>
  if Z.of_nat (length b) <? usize_add W pos n then Err (truncated pos)
  else
    s ← slice b pos (usize_add W pos n);
    pos ← align_up 4 W (usize_add W pos n);
    Ok (s, pos).

(** [for _ in 0..n] around a reader. *)
Definition table_loop {A} (n : Z) (body : A -> rd A) (a : A) : rd A := fun b pos =>
  times n (fun st => body (fst st) b (snd st)) (a, pos).

Let u32 := table_u32 ETableTruncated.
Let bytes := table_bytes ETableTruncated.

(** [String::from_utf8]: well-formed byte sequences of at most four bytes. *)
Definition cont (b : Z) : bool := (0x80 <=? b) && (b <=? 0xBF).

Fixpoint utf8_valid (b : list Z) : bool :=
  match b with
  | [] => true
  | x :: r =>
      if x <? 0x80 then utf8_valid r
      else match r with
      | y :: r2 =>
          if (0xC2 <=? x) && (x <=? 0xDF) then cont y && utf8_valid r2
          else match r2 with
          | z :: r3 =>
              if (0xE0 <=? x) && (x <=? 0xEF)
              then cont y && cont z
                   && negb ((x =? 0xE0) && (y <? 0xA0))
                   && negb ((x =? 0xED) && (0x9F <? y)) && utf8_valid r3
              else match r3 with
              | w :: r4 =>
                  (0xF0 <=? x) && (x <=? 0xF4) && cont y && cont z && cont w
                  && negb ((x =? 0xF0) && (y <? 0x90))
                  && negb ((x =? 0xF4) && (0x8F <? y)) && utf8_valid r4
              | [] => false
              end
          | [] => false
          end
      | [] => false
      end
  end.

(** [chunks_exact(2)] and [u16::from_le_bytes]. *)
Fixpoint le_chars (b : list Z) : list Z :=
  match b with
  | b0 :: b1 :: r => le_bytes [b0; b1] :: le_chars r
  | _ => []
  end.

Definition selfhosted_entry (out : list (Z * list Z)) : rd (list (Z * list Z)) :=
  let* script := u32 in
  let* name_len := u32 in
  let* name := bytes name_len in
  if utf8_valid name then rd_ret (out ++ [(script, name)]) else rd_fail ENameNotUtf8.

Definition selfhosted_table : rd (list (Z * list Z)) :=
  let* count := u32 in
  let* _ := with_capacity W (selfhosted_size W) count in
  table_loop count selfhosted_entry [].

Record RegexProgramSrc := mkRegexProgram {
  rp_pattern : list Z;
  rp_flags : Z;
  rp_latin1_bytecode : list Z;
  rp_twobyte_bytecode : list Z;
  rp_num_registers : Z;
  rp_pair_count : Z }.

Definition regex_entry (out : list RegexProgramSrc) : rd (list RegexProgramSrc) :=
  let* flags := u32 in
  let* num_registers := u32 in
  let* pair_count := u32 in
  let* pattern_len := u32 in
  let* pattern := bytes (usize_mul W pattern_len 2) in
  let* latin1_len := u32 in
  let* latin1_bytecode := bytes latin1_len in
  let* twobyte_len := u32 in
  let* twobyte_bytecode := bytes twobyte_len in
  rd_ret (out ++ [mkRegexProgram (le_chars pattern) flags latin1_bytecode twobyte_bytecode
                  num_registers pair_count]).

Definition regex_table : rd (list RegexProgramSrc) :=
  let* count := u32 in
  let* _ := with_capacity W (regex_size W) count in
  table_loop count regex_entry [].

Record HeapObject := mkHeapObject {
  ho_clasp : Z;
  ho_kind : Z;
  ho_proto : Z;
  ho_props : list (Z * Z);
  ho_elems : list (Z * Z) }.

Definition heap_value : rd Z :=
  let* lo := u32 in let* hi := u32 in rd_ret (Z.lor lo (Z.shiftl hi 32)).

Definition heap_pair (out : list (Z * Z)) : rd (list (Z * Z)) :=
  let* k := u32 in let* v := heap_value in rd_ret (out ++ [(k, v)]).

Definition heap_entry_table (out : gmap Z HeapObject) : rd (gmap Z HeapObject) :=
  let* obj := u32 in
  let* clasp := u32 in
  let* kind := u32 in
  let* proto := u32 in
  let* nprops := u32 in
  let* _ := with_capacity W PAIR_SIZE nprops in
  let* props := table_loop nprops heap_pair [] in
  let* nelems := u32 in
  let* _ := with_capacity W PAIR_SIZE nelems in
  let* elems := table_loop nelems heap_pair [] in
  rd_ret (<[obj := mkHeapObject clasp kind proto props elems]> out).

Definition env_entry (out : gmap Z (list (Z * Z))) : rd (gmap Z (list (Z * Z))) :=
  let* scope := u32 in
  let* n := u32 in
  let* _ := with_capacity W PAIR_SIZE n in
  let* slots := table_loop n heap_pair [] in
  rd_ret (<[scope := slots]> out).

Definition HeapTables : Type := gmap Z HeapObject * gmap Z (list (Z * Z)).

Definition heap_table : rd HeapTables :=
  let* count := u32 in
  let* out := table_loop count heap_entry_table ∅ in
  let* nscopes := u32 in
  let* env_slots := table_loop nscopes env_entry ∅ in
  rd_ret (out, env_slots).

Record DigestBinding := mkDigestBinding {
  db_name_atom : Z; db_is_var : bool; db_env_slot : option Z }.

Record Digest := mkDigest {
  script_gcthing_kinds : gmap Z (list Z);
  scope_bindings : gmap Z (list DigestBinding) }.

Let u32_at := table_u32 EDigestTruncated.

Definition digest_script (out : gmap Z (list Z)) : rd (gmap Z (list Z)) :=
  let* script := u32_at in
  let* n := u32_at in
  let* kinds := table_bytes (fun _ => EDigestKinds) n in
  rd_ret (<[script := kinds]> out).

Definition digest_binding (out : list DigestBinding) : rd (list DigestBinding) :=
  let* name_atom := u32_at in
  let* is_var := u32_at in
  let* has_slot := u32_at in
  let* slot := u32_at in
  rd_ret (out ++ [mkDigestBinding name_atom (negb (is_var =? 0))
                  (if negb (has_slot =? 0) then Some slot else None)]).

Definition digest_scope (out : gmap Z (list DigestBinding))
    : rd (gmap Z (list DigestBinding)) :=
  let* scope := u32_at in
  let* n := u32_at in
  let* _ := with_capacity W BINDING_SIZE n in
  let* bindings := table_loop n digest_binding [] in
  rd_ret (<[scope := bindings]> out).

Definition digest_table : rd Digest :=
  let* num_scripts := u32_at in
  let* kinds := table_loop num_scripts digest_script ∅ in
  let* num_scopes := u32_at in
  let* bindings := table_loop num_scopes digest_scope ∅ in
  rd_ret (mkDigest kinds bindings).

(** ** The registration block *)

Context {M : Type} `{MemAccess M}.

(** A table at an address: empty when absent. *)
Definition parse_table {A} (mem : M) (addr len : Z) (absent : A) (table : rd A) : res A :=
  if (addr =? 0) || (len =? 0) then Ok absent
  else
    bytes ← read_bytes mem addr len;
    '(out, _) ← table bytes 0;
    Ok out.

Definition parse_selfhosted (mem : M) (addr len : Z) : res (list (Z * list Z)) :=
  parse_table mem addr len [] selfhosted_table.

Definition parse_regex_programs (mem : M) (addr len : Z) : res (list RegexProgramSrc) :=
  parse_table mem addr len [] regex_table.

Definition parse_heap (mem : M) (addr len : Z) : res HeapTables :=
  parse_table mem addr len (∅, ∅) heap_table.

Definition digest_parse (mem : M) (addr len : Z) : res Digest :=
  bytes ← read_bytes mem addr len;
  '(d, _) ← digest_table bytes 0;
  Ok d.
End Table.

Definition MAX_ROOTS : Z := 8.
Definition REGION_TABLE_WORDS : Z := 27.
Definition OFF_ABI : Z := 0.
Definition OFF_LAYOUT : Z := 4.
Definition OFF_FLAGS : Z := 12.
Definition OFF_NUM_ROOTS : Z := 16.
Definition OFF_ROOTS : Z := 20.
Definition OFF_DIGEST : Z := OFF_ROOTS + 4 * MAX_ROOTS.
Definition OFF_DIGEST_LEN : Z := OFF_DIGEST + 4.
Definition OFF_COMPILED : Z := OFF_DIGEST_LEN + 4.
Definition OFF_TOOL_VERSION : Z := OFF_COMPILED + 4.
Definition OFF_SELFHOSTED : Z := OFF_TOOL_VERSION + 4.
Definition OFF_SELFHOSTED_LEN : Z := OFF_SELFHOSTED + 4.
Definition OFF_REGEX_PROGRAMS : Z := OFF_SELFHOSTED_LEN + 4.
Definition OFF_REGEX_PROGRAMS_LEN : Z := OFF_REGEX_PROGRAMS + 4.
Definition OFF_REGION_TABLE : Z := OFF_REGEX_PROGRAMS_LEN + 4.
Definition OFF_HEAP_OBJECTS : Z := OFF_REGION_TABLE + 4 * REGION_TABLE_WORDS.
Definition OFF_HEAP_OBJECTS_LEN : Z := OFF_HEAP_OBJECTS + 4.
Definition OFF_GLOBAL_OBJECT : Z := OFF_HEAP_OBJECTS_LEN + 4.

Record Registration := mkRegistration {
  reg_addr : Z;
  reg_flags : Z;
  reg_roots : list Z;
  reg_layout : Layout;
  reg_digest : Digest;
  reg_compiled : Z;
  reg_selfhosted : list (Z * list Z);
  reg_regex_programs : list RegexProgramSrc;
  reg_heap : gmap Z HeapObject;
  reg_global_object : Z;
  reg_env_slots : gmap Z (list (Z * Z)) }.

Section RegistrationRead.
Context (W : Z) {M : Type} `{MemAccess M}.

Definition read_roots (mem : M) (addr num_roots : Z) : res (list Z) :=
  '(roots, _) ← times num_roots
    (fun st : list Z * Z =>
       let '(roots, i) := st in
       v ← read_u32 mem (u32_add (u32_add addr OFF_ROOTS) (u32_mul 4 i));
       Ok (roots ++ [v], i + 1))
    ([], 0);
  Ok roots.

Definition registration_read (mem : M) (addr : Z) : res Registration :=
  let word off := read_u32 mem (u32_add addr off) in
  abi ← word OFF_ABI;
  if negb (abi =? ABI_VERSION) then Err (ERegistrationAbi abi)
  else
    num_roots ← word OFF_NUM_ROOTS;
    if (num_roots =? 0) || (MAX_ROOTS <? num_roots) then Err (ERoots num_roots)
    else
      roots ← read_roots mem addr num_roots;
      layout_addr ← word OFF_LAYOUT;
      layout ← layout_read mem layout_addr;
      digest_addr ← word OFF_DIGEST;
      digest_len ← word OFF_DIGEST_LEN;
      digest ← digest_parse W mem digest_addr digest_len;
      selfhosted_addr ← word OFF_SELFHOSTED;
      selfhosted_len ← word OFF_SELFHOSTED_LEN;
      selfhosted ← parse_selfhosted W mem selfhosted_addr selfhosted_len;
      regex_addr ← word OFF_REGEX_PROGRAMS;
      regex_len ← word OFF_REGEX_PROGRAMS_LEN;
      regex_programs ← parse_regex_programs W mem regex_addr regex_len;
      heap_addr ← word OFF_HEAP_OBJECTS;
      heap_len ← word OFF_HEAP_OBJECTS_LEN;
      heap_tables ← parse_heap W mem heap_addr heap_len;
      flags ← word OFF_FLAGS;
      compiled ← word OFF_COMPILED;
      global_object ← word OFF_GLOBAL_OBJECT;
      Ok (mkRegistration addr flags roots layout digest compiled selfhosted regex_programs
            (fst heap_tables) global_object (snd heap_tables)).
End RegistrationRead.
