(* ===== verification/RegistrationSound.v ===== *)
(** * RegistrationSound: the table readers

    Two closure properties of the byte-table readers, each proved once per
    combinator: [rd_ok] (a reader returns, never moves back or past the padded
    end, and does not see bytes behind its input) and [encodes] (a reader run
    on an encoding consumes exactly it and returns the encoded value). Every
    table format of the registration block gets its encoder, and with it a
    round trip and the rejection of truncated input. *)

From S2P Require Import Prelude Mem Registration.
#[local] Open Scope night_scope.

(** ** Positions *)

(** The position after padding to four. *)
Definition padded (n : Z) : Z := 4 * ((n + 3) / 4).

Lemma padded_spec (n : Z) : n <= padded n < n + 4 /\ padded n mod 4 = 0.
Proof.
  unfold padded. rewrite Z.mul_comm, Z.mod_mul by lia.
  pose proof (Z.div_mod (n + 3) 4). pose proof (Z.mod_pos_bound (n + 3) 4). lia.
Qed.

Lemma padded_unique (n m : Z) : n <= m < n + 4 -> m mod 4 = 0 -> padded n = m.
Proof.
  intros Hm H. destruct (padded_spec n) as [Hp Hq].
  pose proof (Z.div_mod (padded n) 4). pose proof (Z.div_mod m 4). lia.
Qed.

Lemma padded_le (n m : Z) : n <= m -> m mod 4 = 0 -> padded n <= m.
Proof.
  intros Hn Hm. destruct (padded_spec n) as [Hp Hq].
  pose proof (Z.div_mod (padded n) 4). pose proof (Z.div_mod m 4). lia.
Qed.

Lemma land_3 (n : Z) : Z.land n 3 = n mod 4.
Proof. apply (Z.land_ones n 2). lia. Qed.

Lemma align_up_spec (pos : Z) (n : nat) :
  0 <= pos -> padded pos <= 2 ^ 40 -> padded pos - pos < Z.of_nat n ->
  align_up n 64 pos = Ok (padded pos).
Proof.
  revert pos. induction n as [|n IH]; intros pos Hpos Hmax Hn.
  { pose proof (padded_spec pos). lia. }
  cbn [align_up]. rewrite land_3. destruct (padded_spec pos) as [H1 H2].
  destruct (Z.eqb_spec (pos mod 4) 0) as [E|E].
  { f_equal. symmetry. apply padded_unique; [lia|done]. }
  assert (padded pos <> pos) as Hne by (intros E'; rewrite E' in H2; done).
  unfold usize_add. rewrite wrap_u_small by (unfold in_u; lia).
  assert (padded (pos + 1) = padded pos) as Hp by (apply padded_unique; [lia|done]).
  rewrite IH; [by rewrite Hp|lia..].
Qed.

(** ** Readers that behave *)

(** The byte strings and positions a table reader runs on. *)
Record rd_pre (b : list Z) (pos : Z) : Prop := {
  rp_bytes : Forall is_byte b;
  rp_len : len b < 2 ^ 32;
  rp_pos : 0 <= pos <= padded (len b);
  rp_aligned : pos mod 4 = 0 }.

Record rd_ok {A} (p : rd A) (Q : A -> Prop) : Prop := {
  ok_returns : forall b pos, rd_pre b pos -> returns (p b pos);
  ok_step : forall b pos a pos', rd_pre b pos -> p b pos = Ok (a, pos') ->
    pos <= pos' /\ rd_pre b pos' /\ Q a;
  ok_ext : forall b suf pos a pos', rd_pre b pos -> rd_pre (b ++ suf) pos ->
    p b pos = Ok (a, pos') -> p (b ++ suf) pos = Ok (a, pos') }.

Lemma rd_pre_app (b suf : list Z) (pos : Z) :
  rd_pre b pos -> Forall is_byte suf -> len (b ++ suf) < 2 ^ 32 -> rd_pre (b ++ suf) pos.
Proof.
  intros [H1 H2 H3 H4] Hs Hl. split; [by apply Forall_app|done| |done].
  destruct (padded_spec (len (b ++ suf))) as [Hp Hq].
  assert (padded (len b) <= padded (len (b ++ suf))); [|lia].
  apply padded_le; [|done]. unfold len in *. rewrite length_app in *. lia.
Qed.

Lemma rd_ok_weaken {A} (p : rd A) (Q R : A -> Prop) :
  rd_ok p Q -> (forall a, Q a -> R a) -> rd_ok p R.
Proof.
  intros [H1 H2 H3] HQ. split; [done| |done].
  intros b pos a pos' Hp Ha. destruct (H2 b pos a pos' Hp Ha) as (? & ? & ?). auto.
Qed.

Lemma rd_ok_ret {A} (a : A) (Q : A -> Prop) : Q a -> rd_ok (rd_ret a) Q.
Proof.
  intros HQ. split; unfold rd_ret; [done| |congruence].
  intros b pos a' pos' Hp [= <- <-]. split; [lia|auto].
Qed.

Lemma rd_ok_fail {A} (e : Error) (Q : A -> Prop) : rd_ok (rd_fail e) Q.
Proof. split; unfold rd_fail; [done|discriminate|discriminate]. Qed.

Lemma rd_ok_bind {A B} (p : rd A) (f : A -> rd B) (Q : A -> Prop) (R : B -> Prop) :
  rd_ok p Q -> (forall a, Q a -> rd_ok (f a) R) -> rd_ok (rd_bind p f) R.
Proof.
  intros [H1 H2 H3] Hf. unfold rd_bind. split.
  - intros b pos Hp. apply bind_returns; [by apply H1|]. intros [a pos'] Ha.
    destruct (H2 b pos a pos' Hp Ha) as (_ & Hp' & HQ). by apply (ok_returns _ _ (Hf a HQ)).
  - intros b pos c pos2 Hp Hb. apply bind_Ok in Hb as ([a pos'] & Ha & Hc).
    destruct (H2 b pos a pos' Hp Ha) as (Hle & Hp' & HQ).
    destruct (ok_step _ _ (Hf a HQ) b pos' c pos2 Hp' Hc) as (? & ? & ?). split; [lia|auto].
  - intros b suf pos c pos2 Hp Hps Hb. apply bind_Ok in Hb as ([a pos'] & Ha & Hc).
    destruct (H2 b pos a pos' Hp Ha) as (Hle & Hp' & HQ).
    apply bind_Ok. exists (a, pos'). split; [by apply H3|].
    apply (ok_ext _ _ (Hf a HQ)); [done| |done]. apply rd_pre_app; [done| |apply Hps].
    destruct Hps as [Hb _ _ _]. by apply Forall_app in Hb as [_ ?].
Qed.

Lemma rd_ok_loop {A} (n : Z) (body : A -> rd A) (Q : A -> Prop) (a : A) :
  (forall a, Q a -> rd_ok (body a) Q) -> Q a -> rd_ok (table_loop n body a) Q.
Proof.
  intros Hb Ha. unfold table_loop.
  assert (forall k a, Q a -> rd_ok (fun b pos =>
    rep_nat k (fun st : A * Z => body st.1 b st.2) (a, pos)) Q) as H.
  { clear a Ha. intros k. induction k as [|k IH]; intros a Ha.
    - exact (rd_ok_ret a Q Ha).
    - pose proof (rd_ok_bind (body a)
        (fun a => fun b pos => rep_nat k (fun st : A * Z => body st.1 b st.2) (a, pos)) Q Q
        (Hb a Ha) IH) as [H1 H2 H3].
      assert (forall b pos, rep_nat (S k) (fun st : A * Z => body st.1 b st.2) (a, pos) =
        rd_bind (body a) (fun a => fun b pos =>
          rep_nat k (fun st : A * Z => body st.1 b st.2) (a, pos)) b pos) as E.
      { intros b pos. cbn [rep_nat]. unfold rd_bind. cbn [fst snd].
        destruct (body a b pos) as [[? ?]| | |]; reflexivity. }
      split; intros *; rewrite !E; eauto. }
  specialize (H (Z.to_nat n) a Ha). destruct H as [H1 H2 H3].
  split; intros *; rewrite !times_nat; eauto.
Qed.

Lemma slice_app (b suf : list Z) (s e : Z) (r : list Z) :
  0 <= s -> slice b s e = Ok r -> slice (b ++ suf) s e = Ok r.
Proof.
  intros Hs. unfold slice. destruct (Z.leb_spec s e); [|discriminate].
  destruct (Z.leb_spec e (Z.of_nat (length b))); [|discriminate]. intros [= <-].
  rewrite (proj2 (Z.leb_le e (Z.of_nat (length (b ++ suf))))) by (rewrite length_app; lia).
  cbn. f_equal. rewrite drop_app_le by lia. rewrite take_app_le; [done|]. rewrite length_drop. lia.
Qed.

(** A bounded slice of a byte string. *)
Lemma slice_in (b : list Z) (pos n : Z) :
  Forall is_byte b -> 0 <= pos -> 0 <= n -> pos + n <= len b ->
  exists r, slice b pos (pos + n) = Ok r /\ len r = n /\ Forall is_byte r.
Proof.
  intros Hb Hp Hn Hl. destruct (slice_spec b pos (pos + n)) as (r & E & Hr & Hs); [lia|exact Hl|].
  exists r. split_and!; [done|unfold len; lia|].
  rewrite list.Forall_forall in *. intros x Hx. by apply Hb, Hs.
Qed.

Section Readers.
Context (err : Z -> Error).

Lemma rd_ok_u32 : rd_ok (table_u32 64 err) (in_u 32).
Proof.
  assert (forall b pos, rd_pre b pos -> usize_add 64 pos 4 = pos + 4) as Hadd.
  { intros b pos [_ Hl Hp _]. apply wrap_u_small. pose proof (padded_spec (len b)). unfold in_u. lia. }
  assert (forall b pos, rd_pre b pos -> pos + 4 <= len b ->
    exists v, table_u32 64 err b pos = Ok (le_bytes v, pos + 4) /\
      slice b pos (pos + 4) = Ok v /\ in_u 32 (le_bytes v)) as Hin.
  { intros b pos Hpre Hl. unfold table_u32. rewrite (Hadd b pos Hpre).
    destruct (slice_in b pos 4) as (v & Hv & Hlv & Hbv); [apply Hpre|apply Hpre|lia|done|].
    rewrite (proj2 (Z.ltb_ge (Z.of_nat (length b)) _)) by exact Hl. rewrite Hv. exists v.
    split_and!; [done|done|]. apply le_bytes_range in Hbv. unfold in_u. unfold len in Hlv.
    rewrite Hlv in Hbv. exact Hbv. }
  assert (forall b pos, rd_pre b pos -> len b < pos + 4 -> table_u32 64 err b pos = Err (err pos)) as Hout.
  { intros b pos Hpre Hl. unfold table_u32. rewrite (Hadd b pos Hpre).
    by rewrite (proj2 (Z.ltb_lt (Z.of_nat (length b)) _)). }
  split.
  - intros b pos Hp. destruct (Z.le_gt_cases (pos + 4) (len b)) as [Hl|Hl].
    + by destruct (Hin b pos Hp Hl) as (v & -> & _).
    + by rewrite Hout.
  - intros b pos a pos' Hp Ha. destruct (Z.le_gt_cases (pos + 4) (len b)) as [Hl|Hl].
    + destruct (Hin b pos Hp Hl) as (v & E & _ & Hv). rewrite E in Ha. injection Ha as <- <-.
      split; [lia|]. split; [|done]. destruct Hp as [H1 H2 H3 H4].
      split; [done|done|pose proof (padded_spec (len b)); lia|].
      rewrite <- Z.add_mod_idemp_l, H4 by lia. done.
    + rewrite Hout in Ha by done. discriminate.
  - intros b suf pos a pos' Hp Hps Ha. destruct (Z.le_gt_cases (pos + 4) (len b)) as [Hl|Hl].
    + destruct (Hin b pos Hp Hl) as (v & E & Hv & _). rewrite E in Ha. injection Ha as <- <-.
      assert (pos + 4 <= len (b ++ suf)) as Hl' by (unfold len in *; rewrite length_app; lia).
      destruct (Hin (b ++ suf) pos Hps Hl') as (v' & E' & Hv' & _). rewrite E'.
      apply (slice_app b suf) in Hv; [|apply Hp]. by rewrite Hv' in Hv; injection Hv as ->.
    + rewrite Hout in Ha by done. discriminate.
Qed.

(** Reading [n] bytes and the padding. *)
Lemma table_bytes_spec (b : list Z) (pos n : Z) :
  rd_pre b pos -> 0 <= n <= 2 ^ 34 ->
  (len b < pos + n /\ table_bytes 64 err n b pos = Err (err pos)) \/
  (pos + n <= len b /\ exists s, table_bytes 64 err n b pos = Ok (s, padded (pos + n)) /\
     slice b pos (pos + n) = Ok s /\ len s = n /\ Forall is_byte s).
Proof.
  intros Hpre Hn. destruct (padded_spec (len b)) as [Hp Hq]. pose proof (rp_pos _ _ Hpre).
  pose proof (rp_len _ _ Hpre). unfold table_bytes.
  assert (usize_add 64 pos n = pos + n) as -> by (apply wrap_u_small; unfold in_u; lia).
  destruct (Z.le_gt_cases (pos + n) (len b)) as [Hl|Hl].
  - right. split; [done|]. destruct (slice_in b pos n) as (s & Hs & Hls & Hbs); [apply Hpre|lia|lia|done|].
    exists s. rewrite (proj2 (Z.ltb_ge (Z.of_nat (length b)) _)) by exact Hl. rewrite Hs.
    cbn [mbind res_bind]. pose proof (padded_spec (pos + n)).
    rewrite align_up_spec by lia. done.
  - left. split; [lia|]. by rewrite (proj2 (Z.ltb_lt (Z.of_nat (length b)) _)).
Qed.

Lemma rd_ok_bytes (n : Z) :
  0 <= n <= 2 ^ 34 -> rd_ok (table_bytes 64 err n) (fun s => Forall is_byte s /\ len s = n).
Proof.
  intros Hn. split.
  - intros b pos Hp. by destruct (table_bytes_spec b pos n Hp Hn) as [[_ ->]|(_ & s & -> & _)].
  - intros b pos a pos' Hp Ha.
    destruct (table_bytes_spec b pos n Hp Hn) as [[_ E]|(Hl & s & E & _ & Hs & Hb)];
      rewrite E in Ha; [discriminate|]. injection Ha as <- <-.
    destruct (padded_spec (pos + n)) as [P1 P2]. split; [lia|]. split; [|done].
    destruct Hp as [H1 H2 H3 H4]. split; [done|done| |done]. split; [lia|].
    apply padded_le; [|apply padded_spec]. pose proof (padded_spec (len b)). lia.
  - intros b suf pos a pos' Hp Hps Ha.
    destruct (table_bytes_spec b pos n Hp Hn) as [[_ E]|(Hl & s & E & Hs & _)];
      rewrite E in Ha; [discriminate|]. injection Ha as <- <-.
    destruct (table_bytes_spec (b ++ suf) pos n Hps Hn) as [[Hl' E']|(_ & s' & E' & Hs' & _)].
    + exfalso. unfold len in *. rewrite length_app in Hl'. lia.
    + apply (slice_app b suf) in Hs; [|apply Hp]. rewrite Hs' in Hs. injection Hs as ->. exact E'.
Qed.
End Readers.

(** ** Encodings *)

(** The reader run at an encoding, wherever it lies, yields the value and the
    position behind it. *)
Record encodes {A} (p : rd A) (e : list Z) (v : A) : Prop := {
  en_bytes : Forall is_byte e;
  en_aligned : len e mod 4 = 0;
  en_parse : forall pre suf, rd_pre (pre ++ e ++ suf) (len pre) ->
    p (pre ++ e ++ suf) (len pre) = Ok (v, len pre + len e) }.

Lemma encodes_ret {A} (a : A) : encodes (rd_ret a) [] a.
Proof. split; [constructor|done|]. intros pre suf _. unfold rd_ret. do 2 f_equal. change (len []) with 0. lia. Qed.

Lemma encodes_bind {A B} (p : rd A) (f : A -> rd B) (e1 e2 : list Z) (a : A) (c : B) :
  encodes p e1 a -> encodes (f a) e2 c -> encodes (rd_bind p f) (e1 ++ e2) c.
Proof.
  intros [B1 A1 P1] [B2 A2 P2]. split; [by apply Forall_app| |].
  { rewrite len_app, <- Z.add_mod_idemp_l, A1 by lia. exact A2. }
  intros pre suf Hp. unfold rd_bind. rewrite <- !(assoc_L (++)) in *. rewrite P1 by done.
  cbn [mbind res_bind]. replace (len pre + len e1) with (len (pre ++ e1)) by apply len_app.
  rewrite (assoc_L (++) pre e1), P2; [do 2 f_equal; rewrite !len_app; lia|].
  rewrite <- (assoc_L (++) pre e1). destruct Hp as [H1 H2 H3 H4].
  pose proof (len_nonneg e1). pose proof (len_nonneg e2). pose proof (len_nonneg suf).
  pose proof (len_nonneg pre). rewrite !len_app in *.
  split; [done|rewrite !len_app; done| |].
  - rewrite !len_app. pose proof (padded_spec (len pre + (len e1 + (len e2 + len suf)))). lia.
  - rewrite <- Z.add_mod_idemp_l, H4 by lia. exact A1.
Qed.

Lemma encodes_eq {A} (p : rd A) (e e' : list Z) (v v' : A) :
  e = e' -> v = v' -> encodes p e v -> encodes p e' v'.
Proof. by intros -> ->. Qed.

Lemma encodes_u32 (err : Z -> Error) (v : Z) : in_u 32 v -> encodes (table_u32 64 err) (to_le 4 v) v.
Proof.
  intros Hv. split; [apply to_le_bytes|done|]. intros pre suf Hp.
  pose proof (rp_len _ _ Hp) as Hl. rewrite !len_app in Hl.
  change (len (to_le 4 v)) with 4 in *. pose proof (len_nonneg suf). pose proof (len_nonneg pre).
  unfold table_u32. replace (usize_add 64 (len pre) 4) with (len pre + 4)
    by (symmetry; apply wrap_u_small; unfold in_u; lia).
  rewrite (proj2 (Z.ltb_ge _ _))
    by (fold (len (pre ++ to_le 4 v ++ suf)); rewrite !len_app; change (len (to_le 4 v)) with 4; lia).
  unfold slice. rewrite (proj2 (Z.leb_le (len pre) (len pre + 4))) by lia.
  rewrite (proj2 (Z.leb_le (len pre + 4) _))
    by (fold (len (pre ++ to_le 4 v ++ suf)); rewrite !len_app; change (len (to_le 4 v)) with 4; lia).
  cbn [andb mbind res_bind]. replace (Z.to_nat (len pre + 4 - len pre)) with 4%nat by lia.
  unfold len. rewrite Nat2Z.id, drop_app_length, (take_app_length' (to_le 4 v) suf 4) by done.
  by rewrite le_bytes_to_le.
Qed.

(** [n] bytes and zero padding to four. *)
Definition enc_bytes (s : list Z) : list Z :=
  s ++ replicate (Z.to_nat (padded (len s) - len s)) 0.

Lemma len_enc_bytes (s : list Z) : len (enc_bytes s) = padded (len s).
Proof.
  unfold enc_bytes. rewrite len_app. unfold len at 2. rewrite length_replicate.
  pose proof (padded_spec (len s)). lia.
Qed.

Lemma encodes_bytes (err : Z -> Error) (s : list Z) (n : Z) :
  Forall is_byte s -> len s = n -> n <= 2 ^ 34 -> encodes (table_bytes 64 err n) (enc_bytes s) s.
Proof.
  intros Hs <- Hn. split.
  - apply Forall_app. split; [done|]. apply Forall_replicate. split; lia.
  - rewrite len_enc_bytes. apply padded_spec.
  - intros pre suf Hp. destruct (padded_spec (len s)) as [P1 P2]. pose proof (len_nonneg s).
    pose proof (len_nonneg pre). pose proof (len_nonneg suf).
    destruct (table_bytes_spec err _ _ (len s) Hp) as [[Hl _]|(_ & s' & -> & Hs' & _)]; [lia| |].
    { exfalso. rewrite !len_app, len_enc_bytes in Hl. lia. }
    assert (padded (len pre + len s) = len pre + len (enc_bytes s)) as ->.
    { rewrite len_enc_bytes. apply padded_unique; [lia|].
      rewrite <- Z.add_mod_idemp_l, (rp_aligned _ _ Hp) by lia. done. }
    unfold slice in Hs'. destruct (_ && _); [|done]. injection Hs' as <-. do 2 f_equal.
    replace (Z.to_nat (len pre + len s - len pre)) with (length s) by (unfold len; lia).
    unfold len. rewrite Nat2Z.id, drop_app_length. unfold enc_bytes.
    by rewrite <- (assoc_L (++)), take_app_length.
Qed.

(** A table of [length l] entries, folded into the accumulator. *)
Lemma encodes_loop {A X} (body : A -> rd A) (enc : X -> list Z) (step : A -> X -> A)
    (l : list X) (n : Z) (a : A) :
  n = Z.of_nat (length l) ->
  (forall x a, x ∈ l -> encodes (body a) (enc x) (step a x)) ->
  encodes (table_loop n body a) (mjoin (enc <$> l)) (fold_left step l a).
Proof.
  intros -> Hl. unfold table_loop.
  assert (encodes (fun b pos => rep_nat (length l) (fun st : A * Z => body st.1 b st.2) (a, pos))
            (mjoin (enc <$> l)) (fold_left step l a)) as [H1 H2 H3].
  { revert a. induction l as [|x l IH]; intros a.
    - exact (encodes_ret a).
    - pose proof (encodes_bind (body a)
        (fun a => fun b pos => rep_nat (length l) (fun st : A * Z => body st.1 b st.2) (a, pos))
        (enc x) (mjoin (enc <$> l)) (step a x) (fold_left step l (step a x))) as [H1 H2 H3].
      + apply Hl. left.
      + apply IH. intros y b Hy. apply Hl. by right.
      + split; [exact H1|exact H2|]. intros pre suf Hp.
        change (mjoin (enc <$> x :: l)) with (enc x ++ mjoin (enc <$> l)) in *.
        cbn [fold_left]. rewrite <- (H3 pre suf Hp). cbn [length rep_nat]. unfold rd_bind. cbn [fst snd].
        by destruct (body a _ (len pre)) as [[? ?]| | |]. }
  split; [done|done|]. intros pre suf Hp. rewrite times_nat, Nat2Z.id. by apply H3.
Qed.

Lemma fold_left_snoc {X} (l out : list X) : fold_left (fun out x => out ++ [x]) l out = out ++ l.
Proof.
  revert out. induction l as [|x l IH]; intros out; cbn; [by rewrite app_nil_r|].
  by rewrite IH, <- (assoc_L (++)).
Qed.

(** A prefix that misses at least a word of an encoding is rejected. *)
Lemma truncated_rejected {A} (p : rd A) (Q : A -> Prop) (e : list Z) (v : A) (n : nat) :
  rd_ok p Q -> encodes p e v -> len e < 2 ^ 32 -> Z.of_nat n + 4 <= len e ->
  exists err, p (take n e) 0 = Err err.
Proof.
  intros Hok Hen Hl Hn. pose proof (en_bytes _ _ _ Hen) as Hb.
  assert (rd_pre e 0) as Hpre.
  { split; [done|done|pose proof (padded_spec (len e)); pose proof (len_nonneg e); lia|done]. }
  assert (len (take n e) = Z.of_nat n) as Hln by (unfold len in *; rewrite length_take; lia).
  assert (rd_pre (take n e) 0) as Hpre'.
  { split; [by apply Forall_take|lia|pose proof (padded_spec (len (take n e))); lia|done]. }
  pose proof (ok_returns _ _ Hok _ _ Hpre') as Hr.
  destruct (p (take n e) 0) as [[a pos]|err| |] eqn:E; try done; [|eauto]. exfalso.
  destruct (ok_step _ _ Hok _ _ _ _ Hpre' E) as (_ & Hp & _).
  assert (p (take n e ++ drop n e) 0 = Ok (a, pos)) as E'.
  { apply (ok_ext _ _ Hok); [done|by rewrite take_drop|done]. }
  rewrite take_drop in E'. pose proof (en_parse _ _ _ Hen [] []) as H.
  cbn [app] in H. rewrite app_nil_r in H. change (len []) with 0 in H.
  rewrite H in E' by done. injection E' as <- <-.
  pose proof (rp_pos _ _ Hp). pose proof (padded_spec (len (take n e))). lia.
Qed.

(** ** The formats of the registration block *)

(** A 32-bit count of elements of at most 88 bytes never overflows 63 bits. *)
Lemma with_capacity_64 (size n pos : Z) (b : list Z) :
  0 <= size <= 88 -> in_u 32 n -> with_capacity 64 size n b pos = Ok (tt, pos).
Proof.
  intros Hs Hn. unfold with_capacity. rewrite (proj2 (Z.ltb_lt _ _)); [done|]. unfold in_u in Hn. nia.
Qed.

Definition any {A} (a : A) : Prop := True.

Lemma rd_ok_capacity (size n : Z) : 0 <= size <= 88 -> in_u 32 n -> rd_ok (with_capacity 64 size n) any.
Proof.
  intros Hs Hn. split; intros b *; rewrite ?with_capacity_64 by done; [done| |].
  - intros Hp [= <- <-]. by split; [lia|].
  - by intros _ _ [= <- <-].
Qed.

Lemma encodes_capacity {A} (size n : Z) (p : rd A) (e : list Z) (v : A) :
  0 <= size <= 88 -> in_u 32 n -> encodes p e v ->
  encodes (rd_bind (with_capacity 64 size n) (fun _ => p)) e v.
Proof.
  intros Hs Hn [H1 H2 H3]. split; [done|done|]. intros pre suf Hp. unfold rd_bind.
  rewrite with_capacity_64 by done. by apply H3.
Qed.

Ltac size_bound := (split; [by vm_compute|by vm_compute]).

(** The value of a reader is used only through what its type guarantees. *)
Ltac rd_step :=
  first
    [ eapply rd_ok_bind; [apply rd_ok_u32|intros ? ?]
    | eapply rd_ok_bind; [apply rd_ok_capacity; [size_bound|assumption]|intros _ _]
    | eapply rd_ok_bind; [apply rd_ok_bytes; unfold usize_mul, in_u, wrap_u in *; lia|intros ? [? ?]]
    | apply rd_ok_ret; exact I
    | apply rd_ok_fail ].

Lemma usize_mul_2 (n : Z) : in_u 32 n -> usize_mul 64 n 2 = n * 2.
Proof. intros H. apply wrap_u_small. unfold in_u in *. lia. Qed.

Lemma selfhosted_table_ok : rd_ok (selfhosted_table 64) any.
Proof.
  unfold selfhosted_table. do 2 rd_step. apply rd_ok_loop; [|exact I]. intros out _.
  unfold selfhosted_entry. do 3 rd_step. destruct (utf8_valid _); rd_step.
Qed.

Lemma regex_table_ok : rd_ok (regex_table 64) any.
Proof.
  unfold regex_table. do 2 rd_step. apply rd_ok_loop; [|exact I]. intros out _.
  unfold regex_entry. do 4 rd_step. rewrite usize_mul_2 by done. repeat rd_step.
Qed.

(** What the walker relies on in a parsed table: addresses are words. *)
Definition keys_u32 (l : list (Z * Z)) : Prop := Forall (fun p => in_u 32 (fst p)) l.

Definition heap_words (t : gmap Z HeapObject) : Prop :=
  map_Forall (fun _ e => in_u 32 (ho_proto e) /\ keys_u32 (ho_props e)) t.

Definition binding_words (t : gmap Z (list DigestBinding)) : Prop :=
  map_Forall (fun _ bs => Forall (fun b => in_u 32 (db_name_atom b)) bs) t.

Lemma heap_pairs_ok (n : Z) : rd_ok (table_loop n (heap_pair 64) []) keys_u32.
Proof.
  apply rd_ok_loop; [|constructor]. intros out Hout. unfold heap_pair. rd_step.
  eapply (rd_ok_bind _ _ any).
  - unfold heap_value. repeat rd_step.
  - intros v _. apply rd_ok_ret. apply Forall_app. split; [done|]. by apply Forall_singleton.
Qed.

Lemma heap_table_ok : rd_ok (heap_table 64) (fun t => heap_words (fst t)).
Proof.
  unfold heap_table. rd_step. eapply (rd_ok_bind _ _ heap_words).
  { apply rd_ok_loop; [|apply map_Forall_empty]. intros out Hout. unfold heap_entry_table.
    do 6 rd_step. eapply rd_ok_bind; [apply heap_pairs_ok|]. intros props Hprops. do 2 rd_step.
    eapply rd_ok_bind; [apply heap_pairs_ok|]. intros elems _. apply rd_ok_ret.
    by apply map_Forall_insert_2. }
  intros out Hout. rd_step. eapply (rd_ok_bind _ _ any); [|intros env _; by apply rd_ok_ret].
  apply rd_ok_loop; [|exact I]. intros env _. unfold env_entry. do 3 rd_step.
  eapply rd_ok_bind; [apply heap_pairs_ok|]. intros slots _. rd_step.
Qed.

Lemma digest_table_ok : rd_ok (digest_table 64) (fun d => binding_words (scope_bindings d)).
Proof.
  unfold digest_table. rd_step. eapply (rd_ok_bind _ _ any).
  { apply rd_ok_loop; [|exact I]. intros out _. unfold digest_script. repeat rd_step. }
  intros kinds _. rd_step. eapply (rd_ok_bind _ _ binding_words); [|intros b Hb; by apply rd_ok_ret].
  apply rd_ok_loop; [|apply map_Forall_empty]. intros out Hout. unfold digest_scope. do 3 rd_step.
  eapply (rd_ok_bind _ _ (Forall (fun b => in_u 32 (db_name_atom b)))).
  - apply rd_ok_loop; [|constructor]. intros bs Hbs. unfold digest_binding. do 4 rd_step.
    apply rd_ok_ret. apply Forall_app. split; [done|]. by apply Forall_singleton.
  - intros bs Hbs. apply rd_ok_ret. by apply map_Forall_insert_2.
Qed.

(** *** Encoders *)

Definition u32_bytes (v : Z) : list Z := to_le 4 v.

Definition enc_counted (s : list Z) : list Z := u32_bytes (len s) ++ enc_bytes s.

Definition enc_list {X} (enc : X -> list Z) (l : list X) : list Z :=
  u32_bytes (Z.of_nat (length l)) ++ mjoin (enc <$> l).

Definition enc_selfhosted (l : list (Z * list Z)) : list Z :=
  enc_list (fun e => u32_bytes (fst e) ++ enc_counted (snd e)) l.

Definition enc_chars (cs : list Z) : list Z := mjoin (to_le 2 <$> cs).

Definition enc_regex_program (r : RegexProgramSrc) : list Z :=
  u32_bytes (rp_flags r) ++ u32_bytes (rp_num_registers r) ++ u32_bytes (rp_pair_count r)
  ++ u32_bytes (Z.of_nat (length (rp_pattern r))) ++ enc_bytes (enc_chars (rp_pattern r))
  ++ enc_counted (rp_latin1_bytecode r) ++ enc_counted (rp_twobyte_bytecode r).

Definition enc_regex (l : list RegexProgramSrc) : list Z := enc_list enc_regex_program l.

Definition enc_pair (p : Z * Z) : list Z :=
  u32_bytes (fst p) ++ u32_bytes (snd p mod 2 ^ 32) ++ u32_bytes (snd p / 2 ^ 32).

Definition enc_heap_object (o : Z * HeapObject) : list Z :=
  u32_bytes (fst o) ++ u32_bytes (ho_clasp (snd o)) ++ u32_bytes (ho_kind (snd o))
  ++ u32_bytes (ho_proto (snd o)) ++ enc_list enc_pair (ho_props (snd o))
  ++ enc_list enc_pair (ho_elems (snd o)).

Definition enc_heap (objs : list (Z * HeapObject)) (envs : list (Z * list (Z * Z))) : list Z :=
  enc_list enc_heap_object objs
  ++ enc_list (fun e => u32_bytes (fst e) ++ enc_list enc_pair (snd e)) envs.

Definition enc_binding (b : DigestBinding) : list Z :=
  u32_bytes (db_name_atom b) ++ u32_bytes (Z.b2z (db_is_var b))
  ++ u32_bytes (match db_env_slot b with Some _ => 1 | None => 0 end)
  ++ u32_bytes (default 0 (db_env_slot b)).

Definition enc_digest (scripts : list (Z * list Z)) (scopes : list (Z * list DigestBinding))
    : list Z :=
  enc_list (fun e => u32_bytes (fst e) ++ enc_counted (snd e)) scripts
  ++ enc_list (fun e => u32_bytes (fst e) ++ enc_list enc_binding (snd e)) scopes.

(** The map a sequence of insertions builds: the last entry of a key wins. *)
Definition inserts {V} (l : list (Z * V)) : gmap Z V :=
  fold_left (fun m e => <[fst e := snd e]> m) l ∅.

(** *** What the tables can hold *)

Definition short {X} (l : list X) : Prop := Z.of_nat (length l) < 2 ^ 32.
Definition byte_table (s : list Z) : Prop := Forall is_byte s /\ short s.
Definition pair_wf (p : Z * Z) : Prop := in_u 32 (fst p) /\ in_u 64 (snd p).
Definition pairs_wf (l : list (Z * Z)) : Prop := short l /\ Forall pair_wf l.

Definition selfhosted_wf (l : list (Z * list Z)) : Prop :=
  short l /\ Forall (fun e => in_u 32 (fst e) /\ byte_table (snd e) /\ utf8_valid (snd e) = true) l.

Definition regex_wf (r : RegexProgramSrc) : Prop :=
  in_u 32 (rp_flags r) /\ in_u 32 (rp_num_registers r) /\ in_u 32 (rp_pair_count r) /\
  short (rp_pattern r) /\ Forall (in_u 16) (rp_pattern r) /\
  byte_table (rp_latin1_bytecode r) /\ byte_table (rp_twobyte_bytecode r).

Definition heap_object_wf (o : Z * HeapObject) : Prop :=
  in_u 32 (fst o) /\ in_u 32 (ho_clasp (snd o)) /\ in_u 32 (ho_kind (snd o)) /\
  in_u 32 (ho_proto (snd o)) /\ pairs_wf (ho_props (snd o)) /\ pairs_wf (ho_elems (snd o)).

Definition heap_wf (objs : list (Z * HeapObject)) (envs : list (Z * list (Z * Z))) : Prop :=
  short objs /\ Forall heap_object_wf objs /\ short envs /\
  Forall (fun e => in_u 32 (fst e) /\ pairs_wf (snd e)) envs.

Definition binding_wf (b : DigestBinding) : Prop :=
  in_u 32 (db_name_atom b) /\ forall s, db_env_slot b = Some s -> in_u 32 s.

Definition digest_wf (scripts : list (Z * list Z)) (scopes : list (Z * list DigestBinding)) : Prop :=
  short scripts /\ Forall (fun e => in_u 32 (fst e) /\ byte_table (snd e)) scripts /\
  short scopes /\
  Forall (fun e => in_u 32 (fst e) /\ short (snd e) /\ Forall binding_wf (snd e)) scopes.

(** *** Round trips *)

Lemma encodes_list {A X} (err : Z -> Error) (body : A -> rd A) (enc : X -> list Z)
    (step : A -> X -> A) (size : Z) (l : list X) (a : A) :
  0 <= size <= 88 -> short l -> (forall x a, x ∈ l -> encodes (body a) (enc x) (step a x)) ->
  encodes (rd_bind (table_u32 64 err) (fun n =>
      rd_bind (with_capacity 64 size n) (fun _ => table_loop n body a)))
    (enc_list enc l) (fold_left step l a).
Proof.
  intros Hz Hs Hl. assert (in_u 32 (Z.of_nat (length l))) as Hn by (unfold in_u, short in *; lia).
  eapply encodes_bind; [by apply encodes_u32|]. apply encodes_capacity; [done|done|]. by apply encodes_loop.
Qed.

Lemma encodes_counted {A} (err err' : Z -> Error) (s e : list Z) (k : list Z -> rd A) (v : A) :
  byte_table s -> encodes (k s) e v ->
  encodes (rd_bind (table_u32 64 err) (fun n => rd_bind (table_bytes 64 err' n) k))
    (enc_counted s ++ e) v.
Proof.
  intros [Hb Hs] Hk. unfold short in Hs. pose proof (len_nonneg s) as Hn. unfold enc_counted.
  rewrite <- (assoc_L (++)). eapply encodes_bind; [apply encodes_u32; unfold in_u, len in *; lia|].
  eapply encodes_bind; [apply encodes_bytes; [done|done|unfold len in *; lia]|done].
Qed.

Lemma encodes_snoc {A} (l : list A) (x : A) (e : list Z) :
  e = [] -> encodes (rd_ret (l ++ [x])) e (l ++ [x]).
Proof. intros ->. apply encodes_ret. Qed.

Lemma selfhosted_encodes (l : list (Z * list Z)) :
  selfhosted_wf l -> encodes (selfhosted_table 64) (enc_selfhosted l) l.
Proof.
  intros [Hs Hl]. rewrite list.Forall_forall in Hl.
  eapply encodes_eq; [reflexivity|exact (fold_left_snoc l [])|].
  apply encodes_list; [size_bound|done|]. intros [script name] out (Hu & Hb & Hv)%Hl. cbn [fst snd] in *.
  unfold selfhosted_entry. eapply encodes_bind; [by apply encodes_u32|].
  rewrite <- (app_nil_r (enc_counted name)). apply encodes_counted; [done|].
  rewrite Hv. apply encodes_ret.
Qed.

Lemma le_chars_enc (cs : list Z) : Forall (in_u 16) cs -> le_chars (enc_chars cs) = cs.
Proof.
  induction 1 as [|c cs Hc _ IH]; [done|].
  change (enc_chars (c :: cs)) with (to_le 2 c ++ enc_chars cs).
  cbn [to_le app le_chars]. rewrite IH. f_equal. exact (le_bytes_to_le 2 c Hc).
Qed.

Lemma len_enc_chars (cs : list Z) : len (enc_chars cs) = Z.of_nat (length cs) * 2.
Proof.
  induction cs as [|c cs IH]; [done|]. change (enc_chars (c :: cs)) with (to_le 2 c ++ enc_chars cs).
  rewrite len_app, IH. change (len (to_le 2 c)) with 2. cbn [length]. lia.
Qed.

Lemma enc_chars_bytes (cs : list Z) : Forall is_byte (enc_chars cs).
Proof.
  induction cs as [|c cs IH]; [constructor|].
  change (enc_chars (c :: cs)) with (to_le 2 c ++ enc_chars cs).
  apply Forall_app. split; [apply to_le_bytes|done].
Qed.

Lemma regex_encodes (l : list RegexProgramSrc) :
  short l -> Forall regex_wf l -> encodes (regex_table 64) (enc_regex l) l.
Proof.
  intros Hs Hl. rewrite list.Forall_forall in Hl.
  eapply encodes_eq; [reflexivity|exact (fold_left_snoc l [])|].
  apply encodes_list; [size_bound|done|]. intros r out (H1 & H2 & H3 & H4 & H5 & H6 & H7)%Hl.
  unfold regex_entry, enc_regex_program, short in *.
  do 3 (eapply encodes_bind; [by apply encodes_u32|]).
  eapply encodes_bind; [apply encodes_u32; unfold in_u; lia|].
  rewrite usize_mul_2 by (unfold in_u; lia).
  eapply encodes_bind; [apply encodes_bytes; [apply enc_chars_bytes|apply len_enc_chars|lia]|].
  apply encodes_counted; [done|]. rewrite <- (app_nil_r (enc_counted (rp_twobyte_bytecode r))).
  apply encodes_counted; [done|]. rewrite le_chars_enc by done. destruct r. apply encodes_ret.
Qed.

Lemma join_halves (v : Z) :
  in_u 64 v -> Z.lor (v mod 2 ^ 32) (Z.shiftl (v / 2 ^ 32) 32) = v.
Proof.
  intros [H1 H2]. rewrite <- Z.land_ones, <- Z.shiftr_div_pow2 by lia.
  apply Z.bits_inj'. intros i Hi.
  rewrite Z.lor_spec, Z.land_spec, Z.shiftl_spec, Z.testbit_ones_nonneg by lia.
  destruct (Z.ltb_spec i 32).
  - rewrite (Z.testbit_neg_r _ (i - 32)) by lia. by rewrite andb_true_r, orb_false_r.
  - rewrite Z.shiftr_spec by lia. rewrite andb_false_r. cbn. f_equal. lia.
Qed.

Lemma pair_encodes (p : Z * Z) (out : list (Z * Z)) :
  pair_wf p -> encodes (heap_pair 64 out) (enc_pair p) (out ++ [p]).
Proof.
  intros [H1 H2]. destruct p as [k v]. cbn [fst snd] in *. unfold heap_pair, enc_pair. cbn [fst snd].
  eapply encodes_bind; [by apply encodes_u32|].
  rewrite <- (app_nil_r (_ ++ u32_bytes (v / 2 ^ 32))). eapply encodes_bind; [|apply encodes_ret].
  unfold heap_value. rewrite <- (join_halves v H2) at 3. unfold in_u in H2.
  eapply encodes_bind; [apply encodes_u32; unfold in_u; pose proof (Z.mod_pos_bound v (2 ^ 32)); lia|].
  rewrite <- (app_nil_r (u32_bytes (v / 2 ^ 32))).
  eapply encodes_bind; [apply encodes_u32|apply encodes_ret].
  split; [apply Z.div_pos; lia|apply Z.div_lt_upper_bound; lia].
Qed.

Lemma pairs_encodes {A} (l : list (Z * Z)) (e : list Z) (k : list (Z * Z) -> rd A) (v : A) :
  pairs_wf l -> encodes (k l) e v ->
  encodes (rd_bind (table_u32 64 ETableTruncated) (fun n =>
    rd_bind (with_capacity 64 PAIR_SIZE n) (fun _ =>
    rd_bind (table_loop n (heap_pair 64) []) k))) (enc_list enc_pair l ++ e) v.
Proof.
  intros [Hs Hl] Hk. rewrite list.Forall_forall in Hl. unfold short, enc_list in *.
  assert (in_u 32 (Z.of_nat (length l))) as Hn by (unfold in_u; lia).
  rewrite <- (assoc_L (++)). eapply encodes_bind; [by apply encodes_u32|].
  apply encodes_capacity; [size_bound|done|].
  eapply encodes_bind; [|exact Hk].
  eapply encodes_eq; [reflexivity|exact (fold_left_snoc l [])|].
  apply encodes_loop; [done|]. intros p out Hp. apply pair_encodes. by apply Hl.
Qed.

Lemma encodes_list_k {A B X} (err : Z -> Error) (body : A -> rd A) (enc : X -> list Z)
    (step : A -> X -> A) (l : list X) (a : A) (e : list Z) (k : A -> rd B) (v : B) :
  short l -> (forall x a, x ∈ l -> encodes (body a) (enc x) (step a x)) ->
  encodes (k (fold_left step l a)) e v ->
  encodes (rd_bind (table_u32 64 err) (fun n => rd_bind (table_loop n body a) k))
    (enc_list enc l ++ e) v.
Proof.
  intros Hs Hl Hk. unfold enc_list, short in *. rewrite <- (assoc_L (++)).
  eapply encodes_bind; [apply encodes_u32; unfold in_u; lia|].
  eapply encodes_bind; [by apply encodes_loop|exact Hk].
Qed.

Lemma heap_encodes (objs : list (Z * HeapObject)) (envs : list (Z * list (Z * Z))) :
  heap_wf objs envs ->
  encodes (heap_table 64) (enc_heap objs envs) (inserts objs, inserts envs).
Proof.
  intros (H1 & H2 & H3 & H4). rewrite list.Forall_forall in H2; rewrite list.Forall_forall in H4.
  unfold heap_table, enc_heap.
  apply (encodes_list_k _ _ enc_heap_object (fun m e => <[fst e := snd e]> m)); [done| |].
  - intros o m (O1 & O2 & O3 & O4 & O5 & O6)%H2. unfold heap_entry_table, enc_heap_object.
    do 4 (eapply encodes_bind; [by apply encodes_u32|]).
    apply pairs_encodes; [done|]. rewrite <- (app_nil_r (enc_list enc_pair (ho_elems o.2))).
    apply pairs_encodes; [done|]. destruct o as [a []]. apply encodes_ret.
  - rewrite <- (app_nil_r (enc_list _ envs)).
    apply (encodes_list_k _ _ _ (fun m e => <[fst e := snd e]> m)); [done| |apply encodes_ret].
    intros s m (S1 & S2)%H4. unfold env_entry. eapply encodes_bind; [by apply encodes_u32|].
    rewrite <- (app_nil_r (enc_list enc_pair (snd s))).
    apply pairs_encodes; [done|]. apply encodes_ret.
Qed.

Lemma binding_encodes (b : DigestBinding) (out : list DigestBinding) :
  binding_wf b -> encodes (digest_binding 64 out) (enc_binding b) (out ++ [b]).
Proof.
  intros [H1 H2]. unfold digest_binding, enc_binding.
  eapply encodes_bind; [by apply encodes_u32|].
  eapply encodes_bind; [apply encodes_u32; destruct (db_is_var b); unfold in_u; cbn; lia|].
  eapply encodes_bind; [apply encodes_u32; destruct (db_env_slot b); unfold in_u; lia|].
  rewrite <- (app_nil_r (u32_bytes (default 0 (db_env_slot b)))).
  eapply encodes_bind; [apply encodes_u32|].
  - destruct (db_env_slot b); cbn; [auto|unfold in_u; lia].
  - destruct b as [a [] [s|]]; cbn; apply encodes_ret.
Qed.

Lemma digest_encodes (scripts : list (Z * list Z)) (scopes : list (Z * list DigestBinding)) :
  digest_wf scripts scopes ->
  encodes (digest_table 64) (enc_digest scripts scopes)
    (mkDigest (inserts scripts) (inserts scopes)).
Proof.
  intros (H1 & H2 & H3 & H4). rewrite list.Forall_forall in H2; rewrite list.Forall_forall in H4.
  unfold digest_table, enc_digest.
  apply (encodes_list_k _ _ _ (fun m e => <[fst e := snd e]> m)); [done| |].
  - intros s m (S1 & S2)%H2. unfold digest_script. eapply encodes_bind; [by apply encodes_u32|].
    rewrite <- (app_nil_r (enc_counted (snd s))). apply encodes_counted; [done|]. apply encodes_ret.
  - rewrite <- (app_nil_r (enc_list _ scopes)).
    apply (encodes_list_k _ _ _ (fun m e => <[fst e := snd e]> m)); [done| |apply encodes_ret].
    intros s m (S1 & S2 & S3)%H4. rewrite list.Forall_forall in S3.
    unfold digest_scope. eapply encodes_bind; [by apply encodes_u32|].
    rewrite <- (app_nil_r (enc_list enc_binding (snd s))).
    assert (in_u 32 (Z.of_nat (length (snd s)))) as Hn by (unfold in_u, short in *; lia).
    unfold enc_list. rewrite <- (assoc_L (++)). eapply encodes_bind; [by apply encodes_u32|].
    apply encodes_capacity; [size_bound|done|]. eapply encodes_bind.
    + eapply (encodes_loop _ _ (fun out b => out ++ [b])); [done|]. intros b out Hb. apply binding_encodes. by apply S3.
    + rewrite fold_left_snoc. cbn [app]. apply encodes_ret.
Qed.

(** ** Tables in memory *)

Section Tables.
Context {M : Type} `{MemLaws M}.

Lemma rd_pre_start (b : list Z) : Forall is_byte b -> len b < 2 ^ 32 -> rd_pre b 0.
Proof.
  intros Hb Hl. split; [done|done| |done]. pose proof (padded_spec (len b)).
  pose proof (len_nonneg b). lia.
Qed.

Lemma table_returns {A} (p : rd A) (Q : A -> Prop) (mem : M) (addr n : Z) :
  rd_ok p Q -> in_u 32 addr -> in_u 32 n ->
  returns (bytes ← read_bytes mem addr n; '(out, _) ← p bytes 0; Ok out).
Proof.
  intros Hp Ha Hn. apply bind_returns; [by apply rb_returns|]. intros bs Hbs.
  destruct (rb_ok mem addr n bs Ha Hn Hbs) as (Hl & Hb & _).
  apply bind_returns; [|by intros [] _]. apply (ok_returns _ _ Hp). apply rd_pre_start; [done|].
  unfold len. rewrite Hl. apply Hn.
Qed.

Lemma table_post {A} (p : rd A) (Q : A -> Prop) (mem : M) (addr n : Z) (v : A) :
  rd_ok p Q -> in_u 32 addr -> in_u 32 n ->
  (bytes ← read_bytes mem addr n; '(out, _) ← p bytes 0; Ok out) = Ok v -> Q v.
Proof.
  intros Hp Ha Hn Hv. apply bind_Ok in Hv as (bs & Hbs & Hv).
  destruct (rb_ok mem addr n bs Ha Hn Hbs) as (Hl & Hb & _).
  apply bind_Ok in Hv as ([out pos] & Hout & [= ->]).
  apply (ok_step _ _ Hp bs 0 v pos) in Hout as (_ & _ & ?); [done|].
  apply rd_pre_start; [done|]. unfold len. rewrite Hl. apply Hn.
Qed.

(** The encoding, read back. *)
Lemma table_parse {A} (p : rd A) (mem : M) (addr : Z) (e : list Z) (v : A) :
  encodes p e v -> len e < 2 ^ 32 -> read_bytes mem addr (len e) = Ok e ->
  (bytes ← read_bytes mem addr (len e); '(out, _) ← p bytes 0; Ok out) = Ok v.
Proof.
  intros Hen Hl Hr. rewrite Hr. cbn [mbind res_bind].
  pose proof (en_parse _ _ _ Hen [] []) as Hp. cbn [app] in Hp. rewrite app_nil_r in Hp.
  change (len []) with 0 in Hp. rewrite Hp; [done|]. apply rd_pre_start; [apply Hen|done].
Qed.

(** An encoding at the start of the table, whatever follows it. *)
Lemma table_prefix {A} (p : rd A) (mem : M) (addr n : Z) (e suf : list Z) (v w : A) :
  encodes p e w -> in_u 32 addr -> in_u 32 n -> read_bytes mem addr n = Ok (e ++ suf) ->
  (bytes ← read_bytes mem addr n; '(out, _) ← p bytes 0; Ok out) = Ok v -> v = w.
Proof.
  intros Hen Ha Hn Hr. destruct (rb_ok mem addr n _ Ha Hn Hr) as (Hl & Hb & _).
  rewrite Hr. cbn [mbind res_bind]. pose proof (en_parse _ _ _ Hen [] suf) as Hp. cbn [app] in Hp.
  change (len []) with 0 in Hp. rewrite Hp; [by intros [= ->]|].
  apply rd_pre_start; [done|]. unfold len. rewrite Hl. apply Hn.
Qed.

(** A table cut short by a word or more, read back. *)
Lemma table_cut {A} (p : rd A) (Q : A -> Prop) (mem : M) (addr : Z) (e : list Z) (v : A) (n : nat) :
  rd_ok p Q -> encodes p e v -> len e < 2 ^ 32 -> Z.of_nat n + 4 <= len e ->
  read_bytes mem addr (Z.of_nat n) = Ok (take n e) ->
  exists err, (bytes ← read_bytes mem addr (Z.of_nat n); '(out, _) ← p bytes 0; Ok out) = Err err.
Proof.
  intros Hok Hen Hl Hn Hr. rewrite Hr. cbn [mbind res_bind].
  destruct (truncated_rejected p Q e v n Hok Hen Hl Hn) as [err ->]. by exists err.
Qed.

Lemma parse_table_returns {A} (p : rd A) (Q : A -> Prop) (mem : M) (addr n : Z) (absent : A) :
  rd_ok p Q -> in_u 32 addr -> in_u 32 n -> returns (parse_table mem addr n absent p).
Proof.
  intros Hp Ha Hn. unfold parse_table. destruct (_ || _); [exact I|]. by eapply table_returns.
Qed.

Lemma parse_table_at {A} (p : rd A) (mem : M) (addr : Z) (absent : A) (n : Z) :
  addr <> 0 -> n <> 0 ->
  parse_table mem addr n absent p = (bytes ← read_bytes mem addr n; '(out, _) ← p bytes 0; Ok out).
Proof.
  intros Ha Hn. unfold parse_table. apply Z.eqb_neq in Ha as ->. by apply Z.eqb_neq in Hn as ->.
Qed.

(** ** The registration block *)

Lemma u32_add_range (a b : Z) : in_u 32 (u32_add a b).
Proof. apply wrap_u_range. lia. Qed.

Lemma read_u32_returns (mem : M) (a : Z) : in_u 32 a -> returns (read_u32 mem a).
Proof. intros Ha. apply (read_u32_spec mem a Ha). Qed.

Lemma read_u32_range (mem : M) (a v : Z) : in_u 32 a -> read_u32 mem a = Ok v -> in_u 32 v.
Proof. intros Ha Hv. by apply (read_u32_spec mem a Ha) in Hv as [? _]. Qed.

(** A counted run of word reads collects the words in order. *)
Lemma word_loop_spec (read : Z -> res Z) (n : nat) :
  (forall i, returns (read i)) ->
  let loop := rep_nat n (fun st : list Z * Z =>
    let '(ws, i) := st in v ← read i; Ok (ws ++ [v], i + 1)) in
  forall ws i, returns (loop (ws, i)) /\
    forall ws' i', loop (ws, i) = Ok (ws', i') ->
      exists vs, ws' = ws ++ vs /\ length vs = n /\
        forall k v, vs !! k = Some v -> read (i + Z.of_nat k) = Ok v.
Proof.
  intros Hr. cbv zeta. induction n as [|n IH]; intros ws i; cbn [rep_nat].
  { split; [exact I|]. intros ws' i' [= <- <-]. exists []. rewrite app_nil_r. done. }
  specialize (Hr i). destruct (read i) as [v|e| |] eqn:E; try done; cbn [mbind res_bind].
  destruct (IH (ws ++ [v]) (i + 1)) as [IH1 IH2]. split; [exact IH1|].
  intros ws' i' Hl. destruct (IH2 ws' i' Hl) as (vs & -> & <- & Hv).
  exists (v :: vs). split_and!; [by rewrite <- (assoc_L (++))|done|].
  intros [|k] w; cbn.
  - intros [= <-]. by rewrite Z.add_0_r.
  - intros Hw. rewrite <- (Hv k w Hw). f_equal. lia.
Qed.

Lemma layout_read_spec (mem : M) (addr : Z) :
  in_u 32 addr ->
  returns (layout_read mem addr) /\
  forall l, layout_read mem addr = Ok l ->
    Z.of_nat (length (fields l)) = FIELD_COUNT /\
    read_u32 mem addr = Ok ABI_VERSION /\
    read_u32 mem (u32_add addr 8) = Ok FIELD_COUNT /\
    forall f, read_u32 mem (u32_add (u32_add addr 12) (u32_mul 4 (Z.of_nat (field_index f))))
      = Ok (get l f).
Proof.
  intros Ha. unfold layout_read.
  pose proof (read_u32_returns mem addr Ha) as R1.
  destruct (read_u32 mem addr) as [abi| | |]; try done; cbn [mbind res_bind].
  destruct (Z.eqb_spec abi ABI_VERSION) as [->|]; cbn [negb]; [|done].
  pose proof (read_u32_returns mem _ (u32_add_range addr 8)) as R2.
  destruct (read_u32 mem (u32_add addr 8)) as [n| | |]; try done; cbn [mbind res_bind].
  destruct (Z.eqb_spec n FIELD_COUNT) as [->|]; cbn [negb]; [|done].
  rewrite times_nat.
  destruct (word_loop_spec
    (fun i => read_u32 mem (u32_add (u32_add addr 12) (u32_mul 4 i))) (Z.to_nat FIELD_COUNT)
    (fun i => read_u32_returns mem _ (u32_add_range _ _)) [] 0) as [W1 W2]. cbv zeta in *.
  match goal with |- context [rep_nat ?n ?f ?s] => destruct (rep_nat n f s) as [[fs i]| | |] end;
    try done. cbn [mbind res_bind].
  split; [exact I|]. intros l [= <-].
  destruct (W2 fs i eq_refl) as (vs & -> & Hl & Hv). cbn [app fields].
  assert (length vs = 78%nat) as Hl78 by (rewrite Hl; reflexivity).
  split_and!; [rewrite Hl78; reflexivity|done|done|]. intros f.
  assert (field_index f < length vs)%nat as Hf.
  { rewrite Hl78. destruct f; vm_compute; lia. }
  apply lookup_lt_is_Some in Hf as [v Hf]. specialize (Hv _ _ Hf). rewrite Z.add_0_l in Hv.
  rewrite Hv. f_equal. unfold get. cbn [fields].
  symmetry. apply nth_lookup_Some with (d := 0) in Hf. exact Hf.
Qed.

Lemma read_roots_spec (mem : M) (addr n : Z) :
  0 <= n ->
  returns (read_roots mem addr n) /\
  forall roots, read_roots mem addr n = Ok roots ->
    Z.of_nat (length roots) = n /\
    forall k v, roots !! k = Some v ->
      read_u32 mem (u32_add (u32_add addr OFF_ROOTS) (u32_mul 4 (Z.of_nat k))) = Ok v.
Proof.
  intros Hn. unfold read_roots. rewrite times_nat.
  destruct (word_loop_spec
    (fun i => read_u32 mem (u32_add (u32_add addr OFF_ROOTS) (u32_mul 4 i))) (Z.to_nat n)
    (fun i => read_u32_returns mem _ (u32_add_range _ _)) [] 0) as [W1 W2]. cbv zeta in *.
  match goal with |- context [rep_nat ?n ?f ?s] => destruct (rep_nat n f s) as [[ws i]| | |] end;
    try done. cbn [mbind res_bind].
  split; [exact I|]. intros roots [= <-].
  destruct (W2 ws i eq_refl) as (vs & -> & Hl & Hv). cbn [app].
  split; [lia|]. intros k v Hk. specialize (Hv k v Hk). by rewrite Z.add_0_l in Hv.
Qed.

(** What the engine's serializers write for each table. *)
Definition digest_written (e : list Z) (d : Digest) : Prop :=
  exists scripts scopes, digest_wf scripts scopes /\ e = enc_digest scripts scopes /\
    d = mkDigest (inserts scripts) (inserts scopes).
Definition selfhosted_written (e : list Z) (l : list (Z * list Z)) : Prop := selfhosted_wf l /\ e = enc_selfhosted l.
Definition regex_written (e : list Z) (l : list RegexProgramSrc) : Prop :=
  short l /\ Forall regex_wf l /\ e = enc_regex l.
Definition heap_written (e : list Z) (t : HeapTables) : Prop :=
  exists objs envs, heap_wf objs envs /\ e = enc_heap objs envs /\ t = (inserts objs, inserts envs).

(** The bytes at an address, and the value they encode if they start with an
    encoding. *)
Definition bytes_hold {A} (written : list Z -> A -> Prop) (mem : M) (a n : Z) (v : A) : Prop :=
  exists bytes, read_bytes mem a n = Ok bytes /\ forall e suf w, bytes = e ++ suf -> written e w -> v = w.

(** A table whose address and length are two words of the block. *)
Definition table_holds {A} (written : list Z -> A -> Prop) (absent : A) (mem : M) (addr off off_len : Z) (v : A) : Prop :=
  exists a n, read_u32 mem (u32_add addr off) = Ok a /\ read_u32 mem (u32_add addr off_len) = Ok n /\
    if (a =? 0) || (n =? 0) then v = absent else bytes_hold written mem a n v.

(** What a successful read of the block says about memory. *)
Record registration_at (mem : M) (addr : Z) (r : Registration) : Prop := {
  ra_abi : read_u32 mem (u32_add addr OFF_ABI) = Ok ABI_VERSION;
  ra_count : 1 <= Z.of_nat (length (reg_roots r)) <= MAX_ROOTS;
  ra_count_word : read_u32 mem (u32_add addr OFF_NUM_ROOTS) = Ok (Z.of_nat (length (reg_roots r)));
  ra_roots : forall k v, reg_roots r !! k = Some v ->
    read_u32 mem (u32_add (u32_add addr OFF_ROOTS) (u32_mul 4 (Z.of_nat k))) = Ok v;
  ra_layout : Z.of_nat (length (fields (reg_layout r))) = FIELD_COUNT;
  ra_layout_words : exists la, read_u32 mem (u32_add addr OFF_LAYOUT) = Ok la /\
    read_u32 mem la = Ok ABI_VERSION /\ read_u32 mem (u32_add la 8) = Ok FIELD_COUNT /\
    forall f, read_u32 mem (u32_add (u32_add la 12) (u32_mul 4 (Z.of_nat (field_index f)))) = Ok (get (reg_layout r) f);
  ra_digest : exists a n, read_u32 mem (u32_add addr OFF_DIGEST) = Ok a /\
    read_u32 mem (u32_add addr OFF_DIGEST_LEN) = Ok n /\ bytes_hold digest_written mem a n (reg_digest r);
  ra_selfhosted : table_holds selfhosted_written [] mem addr OFF_SELFHOSTED OFF_SELFHOSTED_LEN (reg_selfhosted r);
  ra_regex : table_holds regex_written [] mem addr OFF_REGEX_PROGRAMS OFF_REGEX_PROGRAMS_LEN (reg_regex_programs r);
  ra_heap : table_holds heap_written (∅, ∅) mem addr OFF_HEAP_OBJECTS OFF_HEAP_OBJECTS_LEN (reg_heap r, reg_env_slots r);
  ra_compiled : read_u32 mem (u32_add addr OFF_COMPILED) = Ok (reg_compiled r);
  ra_flags : read_u32 mem (u32_add addr OFF_FLAGS) = Ok (reg_flags r);
  ra_global : read_u32 mem (u32_add addr OFF_GLOBAL_OBJECT) = Ok (reg_global_object r);
  ra_self : reg_addr r = addr;
  ra_words : Forall (in_u 32) (reg_roots r) /\ in_u 32 (reg_global_object r) /\
    heap_words (reg_heap r) /\ binding_words (scope_bindings (reg_digest r)) }.

Lemma bytes_hold_parse {A} (p : rd A) (written : list Z -> A -> Prop) (mem : M) (a n : Z) (v : A) :
  (forall e w, written e w -> encodes p e w) -> in_u 32 a -> in_u 32 n ->
  (bytes ← read_bytes mem a n; '(out, _) ← p bytes 0; Ok out) = Ok v -> bytes_hold written mem a n v.
Proof.
  intros Hw Ha Hn Hv. pose proof Hv as (bs & Hbs & _)%bind_Ok. exists bs. split; [done|].
  intros e suf w -> Hwr. eapply table_prefix; [by apply Hw| | |done|done]; done.
Qed.

Lemma table_holds_parse {A} (p : rd A) (written : list Z -> A -> Prop) (absent : A) (mem : M) (addr off off_len a n : Z) (v : A) :
  (forall e w, written e w -> encodes p e w) -> in_u 32 a -> in_u 32 n ->
  read_u32 mem (u32_add addr off) = Ok a -> read_u32 mem (u32_add addr off_len) = Ok n ->
  parse_table mem a n absent p = Ok v -> table_holds written absent mem addr off off_len v.
Proof.
  intros Hw Ha Hn Ea En Hv. exists a, n. split_and!; [done|done|]. unfold parse_table in Hv.
  destruct (_ || _); [by injection Hv|]. by eapply bytes_hold_parse.
Qed.

(** One word of the block: an error, or a word to go on with. *)
Lemma word_step {A} (P : res A -> Prop) (mem : M) (a b : Z) (f : Z -> res A) :
  (forall e, P (Err e)) ->
  (forall v, in_u 32 v -> read_u32 mem (u32_add a b) = Ok v -> P (f v)) ->
  P (read_u32 mem (u32_add a b) ≫= f).
Proof.
  intros He Hf. pose proof (u32_add_range a b) as Ha.
  pose proof (read_u32_returns mem _ Ha). pose proof (fun v => read_u32_range mem _ v Ha).
  destruct (read_u32 mem (u32_add a b)); try done; cbn; auto.
Qed.

Lemma table_step {A B} (P : res B -> Prop) (r : res A) (f : A -> res B) :
  returns r -> (forall e, P (Err e)) -> (forall v, r = Ok v -> P (f v)) -> P (r ≫= f).
Proof. intros Hr He Hf. destruct r; try done; cbn; auto. Qed.

Lemma read_words (mem : M) (addr : Z) (roots : list Z) (hp : HeapTables) (dig : Digest) (dn da ha hn global : Z) :
  (forall k v, roots !! k = Some v ->
    read_u32 mem (u32_add (u32_add addr OFF_ROOTS) (u32_mul 4 (Z.of_nat k))) = Ok v) ->
  in_u 32 da -> in_u 32 dn -> in_u 32 ha -> in_u 32 hn -> in_u 32 global ->
  digest_parse 64 mem da dn = Ok dig -> parse_heap 64 mem ha hn = Ok hp ->
  Forall (in_u 32) roots /\ in_u 32 global /\ heap_words (fst hp) /\ binding_words (scope_bindings dig).
Proof.
  intros Hk Hda Hdn Hha Hhn Hg Hdig Hhp. split_and!; [|done| |].
  - apply list.Forall_forall. intros x Hx%list_elem_of_lookup_1. destruct Hx as [k Hx].
    eapply read_u32_range; [|exact (Hk k x Hx)]. apply u32_add_range.
  - unfold parse_heap, parse_table in Hhp. destruct (_ || _) in Hhp.
    + injection Hhp as <-. apply map_Forall_empty.
    + by eapply table_post in Hhp; [|apply heap_table_ok| |].
  - by eapply table_post in Hdig; [|apply digest_table_ok| |].
Qed.

Lemma registration_read_spec (mem : M) (addr : Z) :
  in_u 32 addr ->
  returns (registration_read 64 mem addr) /\
  forall r, registration_read 64 mem addr = Ok r -> registration_at mem addr r.
Proof.
  intros Ha. set (P := fun x : res Registration => returns x /\
    forall r, x = Ok r -> registration_at mem addr r).
  change (P (registration_read 64 mem addr)).
  assert (forall e, P (Err e)) as He by (split; [exact I|discriminate]).
  unfold registration_read. cbv zeta.
  apply (word_step P); [done|]. intros abi _ Habi.
  destruct (Z.eqb_spec abi ABI_VERSION) as [->|]; cbn [negb]; [|done].
  apply (word_step P); [done|]. intros n Hn Hnum.
  destruct (Z.eqb_spec n 0) as [|Hn0]; [done|]. destruct (Z.ltb_spec MAX_ROOTS n) as [|Hn8]; [done|].
  cbn [orb]. destruct (read_roots_spec mem addr n) as [R1 R2]; [apply Hn|].
  apply (table_step P); [done|done|]. intros roots Hroots.
  apply (word_step P); [done|]. intros la Hla Ela.
  destruct (layout_read_spec mem la Hla) as [L1 L2].
  apply (table_step P); [done|done|]. intros lay Hlay.
  apply (word_step P); [done|]. intros da Hda Eda. apply (word_step P); [done|]. intros dn Hdn Edn.
  apply (table_step P); [by eapply table_returns; [apply digest_table_ok| |]|done|]. intros dig Hdig.
  apply (word_step P); [done|]. intros sa Hsa Esa. apply (word_step P); [done|]. intros sn Hsn Esn.
  apply (table_step P); [by eapply parse_table_returns; [apply selfhosted_table_ok| |]|done|]. intros sh Hsh.
  apply (word_step P); [done|]. intros xa Hxa Exa. apply (word_step P); [done|]. intros xn Hxn Exn.
  apply (table_step P); [by eapply parse_table_returns; [apply regex_table_ok| |]|done|]. intros rx Hrx.
  apply (word_step P); [done|]. intros ha Hha Eha. apply (word_step P); [done|]. intros hn Hhn Ehn.
  apply (table_step P); [by eapply parse_table_returns; [apply heap_table_ok| |]|done|]. intros hp Hhp.
  apply (word_step P); [done|]. intros flags _ Hflags.
  apply (word_step P); [done|]. intros compiled _ Hcomp.
  apply (word_step P); [done|]. intros global Hgu Hglob.
  split; [exact I|]. intros r [= <-].
  destruct (R2 roots Hroots) as [Hlen Hk]. destruct (L2 lay Hlay) as (Hf & Labi & Lcount & Lw).
  unfold in_u in Hn. split; cbn [reg_roots reg_layout reg_compiled reg_flags reg_global_object reg_addr
    reg_digest reg_selfhosted reg_regex_programs reg_heap reg_env_slots];
    [exact Habi|lia|by rewrite Hlen|exact Hk|exact Hf| | | | | |exact Hcomp|exact Hflags|exact Hglob|done|].
  - by exists la.
  - exists da, dn. split_and!; [done|done|]. eapply bytes_hold_parse; [|done|done|exact Hdig].
    intros e w (scripts & scopes & Hwf & -> & ->). by apply digest_encodes.
  - eapply table_holds_parse; [|exact Hsa|exact Hsn|done|done|exact Hsh].
    intros e w [Hwf ->]. by apply selfhosted_encodes.
  - eapply table_holds_parse; [|exact Hxa|exact Hxn|done|done|exact Hrx].
    intros e w (Hs & Hwf & ->). by apply regex_encodes.
  - rewrite <- surjective_pairing. eapply table_holds_parse; [|exact Hha|exact Hhn|done|done|exact Hhp].
    intros e w (objs & envs & Hwf & -> & ->). by apply heap_encodes.
  - by apply (read_words mem addr roots hp dig dn da ha hn global).
Qed.
End Tables.

(** ** The 32-bit build

    With [usize] at 32 bits the position arithmetic wraps: a name length close
    to [2 ^ 32] passes the truncation test and the slice panics. *)

Definition wrapping_table : list Z :=
  u32_bytes 1 ++ u32_bytes 0x1000 ++ u32_bytes (2 ^ 32 - 8).

Lemma wrapping_table_panics :
  selfhosted_table 32 wrapping_table 0 = Panic PSlice /\
  selfhosted_table 64 wrapping_table 0 = Err (ETableTruncated 12).
Proof. split; vm_compute; reflexivity. Qed.

(** ** The parsers on encoded tables *)

Lemma len_enc_list {X} (enc : X -> list Z) (l : list X) : 4 <= len (enc_list enc l).
Proof.
  unfold enc_list, u32_bytes. rewrite len_app. pose proof (len_nonneg (mjoin (enc <$> l))).
  unfold len at 1. rewrite to_le_length. lia.
Qed.

Lemma len_enc_heap objs envs : 4 <= len (enc_heap objs envs).
Proof.
  unfold enc_heap. rewrite len_app. pose proof (len_enc_list enc_heap_object objs).
  pose proof (len_nonneg (enc_list (fun e => u32_bytes (fst e) ++ enc_list enc_pair (snd e)) envs)). lia.
Qed.

(** A table at an address reads back, and a cut one does not. *)
Record table_at {M : Type} `{MemAccess M} {A} (parse : M -> Z -> Z -> res A) (e : list Z) (v : A) : Prop := {
  ta_whole : forall mem addr, addr <> 0 -> read_bytes mem addr (len e) = Ok e ->
    parse mem addr (len e) = Ok v;
  ta_cut : forall mem addr n, addr <> 0 -> 0 < n -> n + 4 <= len e ->
    read_bytes mem addr n = Ok (take (Z.to_nat n) e) ->
    exists err, parse mem addr n = Err err }.

Lemma table_at_intro {M : Type} `{MemLaws M} {A} (absent : A) (p : rd A) (Q : A -> Prop) (e : list Z) (v : A) :
  rd_ok p Q -> encodes p e v -> 4 <= len e < 2 ^ 32 ->
  table_at (M := M) (fun mem addr n => parse_table mem addr n absent p) e v.
Proof.
  intros Hok Hen Hl. split.
  - intros mem addr Ha Hr. rewrite parse_table_at by lia. apply table_parse; [done|lia|done].
  - intros mem addr n Ha Hn Hc Hr. rewrite parse_table_at by lia.
    rewrite <- (Z2Nat.id n) in * by lia. rewrite Nat2Z.id in Hr.
    eapply table_cut; [done|done|lia|lia|done].
Qed.

Lemma digest_at_intro {M : Type} `{MemLaws M} (e : list Z) (v : Digest) :
  encodes (digest_table 64) e v -> len e < 2 ^ 32 ->
  table_at (M := M) (fun mem addr n => digest_parse 64 mem addr n) e v.
Proof.
  intros Hen Hl. split.
  - intros mem addr Ha Hr. by apply table_parse.
  - intros mem addr n Ha Hn Hc Hr. unfold digest_parse. rewrite <- (Z2Nat.id n) in * by lia.
    rewrite Nat2Z.id in Hr. eapply table_cut; [apply digest_table_ok|done|lia|lia|done].
Qed.
