(* ===== verification/Source.v ===== *)
(** * Source: the object graph the compiler works on

    [compiler/src/source.rs] and the script records of
    [compiler/src/bytecode.rs]: source objects, the id space of their vector,
    and the static scope an aliased-variable access names. A double is its
    bit pattern, a [JsString] its code units, and a [&mut] access to an object
    is an update of the vector. *)

From S2P Require Import Prelude Mem.

(** ** Scripts *)

Inductive TryNoteKind :=
  | TN_Catch | TN_Finally | TN_ForIn | TN_Destructuring | TN_ForOf | TN_ForOfIterClose | TN_Loop.

Record TryNote := mkTryNote {
  tn_kind : TryNoteKind; tn_stack_depth : Z; tn_start : Z; tn_length : Z }.

Record ScopeNote := mkScopeNote { sn_gcthing_index : Z; sn_start : Z; sn_length : Z }.

Definition SourceObjectId : Type := Z.

Record Script := mkScript {
  sc_bytecode : list Z;
  sc_addr : Z;
  sc_gcthings : list SourceObjectId;
  sc_resume_offsets : list Z;
  sc_try_notes : list TryNote;
  sc_scope_notes : list ScopeNote;
  sc_body_scope : option SourceObjectId;
  sc_nargs : Z;
  sc_is_generator_or_async : bool;
  sc_is_class_ctor : bool;
  sc_strict : bool;
  sc_has_mapped_args : bool }.

(** ** Objects *)

Inductive ObjectKind := K_Other | K_Plain | K_Array | K_Function | K_TypedArray (code : Z).

Record ObjectData := mkObjectData {
  od_non_native : bool;
  od_kind : ObjectKind;
  od_slots_exact : bool;
  od_script : option SourceObjectId;
  od_name : option SourceObjectId;
  od_proto : option SourceObjectId;
  od_builtin_id : option Z;
  od_properties : list (SourceObjectId * SourceObjectId);
  od_elements : list (Z * SourceObjectId) }.

Record ScopeData := mkScopeData {
  sd_kind : Z;
  sd_has_environment : bool;
  sd_enclosing : option SourceObjectId;
  sd_bindings : list (SourceObjectId * bool * option Z);
  sd_env_slot_values : list (Z * SourceObjectId);
  sd_is_named_lambda : bool;
  sd_env_nfixed : option Z }.

Inductive Primitive :=
  | P_Undefined
  | P_Null
  | P_Boolean (b : bool)
  | P_Int32 (i : Z)
  | P_Double (bits : Z).

Inductive SourceObject :=
  | SObject (o : ObjectData)
  | SScript (s : Script)
  | SString (chars : list Z)
  | SPrimitive (p : Primitive)
  | SScope (s : ScopeData)
  | SSymbol.

Record Source := mkSource {
  src_objects : list SourceObject;
  src_global_object : option SourceObjectId }.

Definition SOURCE_OTHER : Z := 2 ^ 32 - 1.
Definition is_other (id : SourceObjectId) : bool := id =? SOURCE_OTHER.

(** [Source::object]: indexing panics out of range. *)
Definition object (s : Source) (id : SourceObjectId) : res SourceObject :=
  match src_objects s !! Z.to_nat id with
  | Some o => Ok o
  | None => Panic PSlice
  end.

Definition fn_script (s : Source) (id : SourceObjectId) : res (option Z) :=
  if is_other id then Ok None
  else
    o ← object s id;
    match o with
    | SObject d =>
        match od_kind d with
        | K_Function => Ok (od_script d)
        | _ => Ok None
        end
    | _ => Ok None
    end.

(** [Source::object_mut] followed by an update through the reference. *)
Definition object_mut (s : Source) (id : SourceObjectId)
    (f : SourceObject -> res SourceObject) : res Source :=
  o ← object s id;
  o' ← f o;
  Ok (mkSource (<[Z.to_nat id := o']> (src_objects s)) (src_global_object s)).

(** [Source::push]: the new object's id; [u32::try_from] of the length. *)
Definition push (s : Source) (o : SourceObject) : res (Source * SourceObjectId) :=
  let id := Z.of_nat (length (src_objects s)) in
  if 2 ^ 32 <=? id then Panic PIdSpace
  else Ok (mkSource (src_objects s ++ [o]) (src_global_object s), id).

Definition as_object_mut (f : ObjectData -> ObjectData) (o : SourceObject) : res SourceObject :=
  match o with SObject d => Ok (SObject (f d)) | _ => Panic PVariant end.

Definition as_scope_mut (f : ScopeData -> ScopeData) (o : SourceObject) : res SourceObject :=
  match o with SScope d => Ok (SScope (f d)) | _ => Panic PVariant end.

Definition as_script_mut (f : Script -> Script) (o : SourceObject) : res SourceObject :=
  match o with SScript d => Ok (SScript (f d)) | _ => Panic PVariant end.

(** ** Aliased variables *)

(** The innermost scope note covering [pc], with its length. *)
Definition note_step (script : Script) (pc : Z) (st : option SourceObjectId * Z) (n : ScopeNote)
    : option SourceObjectId * Z :=
  let '(cur, best_len) := st in
  if sn_gcthing_index n =? 2 ^ 32 - 1 then (cur, best_len)
  else if (sn_start n <=? pc) && (pc <? u32_add (sn_start n) (sn_length n))
          && (sn_length n <? best_len)
  then
    match sc_gcthings script !! Z.to_nat (sn_gcthing_index n) with
    | Some gc => if negb (is_other gc) then (Some gc, sn_length n) else (cur, best_len)
    | None => (cur, best_len)
    end
  else (cur, best_len).

Definition covering_scope (script : Script) (pc : Z) : option SourceObjectId :=
  fst (fold_left (note_step script pc) (sc_scope_notes script) (None, 2 ^ 32 - 1)).

(** The loop over enclosing scopes; [None] ends it. *)
Fixpoint scope_walk (fuel : nat) (source : Source) (cur : SourceObjectId) (remaining : Z)
    : res (option SourceObjectId) :=
  match fuel with
  | O => OutOfFuel
  | S fuel =>
      o ← object source cur;
      match o with
      | SScope d =>
          if sd_has_environment d && (remaining =? 0) then Ok (Some cur)
          else
            let remaining := if sd_has_environment d then remaining - 1 else remaining in
            match sd_enclosing d with
            | None => Ok None
            | Some e => scope_walk fuel source e remaining
            end
      | _ => Ok None
      end
  end.

Definition aliased_scope_at (fuel : nat) (source : Source) (script : Script) (pc hops : Z)
    : res (option SourceObjectId) :=
  match (match covering_scope script pc with
         | Some s => Some s
         | None => sc_body_scope script
         end) with
  | None => Ok None
  | Some cur => scope_walk fuel source cur hops
  end.

(** ** Scope chains *)

(** The chain of enclosing scopes from an id: every id with its
    has-environment flag, up to a scope with no encloser. *)
Inductive scope_chain (s : Source) : SourceObjectId -> list (SourceObjectId * bool) -> Prop :=
  | chain_last id d :
      object s id = Ok (SScope d) -> sd_enclosing d = None ->
      scope_chain s id [(id, sd_has_environment d)]
  | chain_next id d e l :
      object s id = Ok (SScope d) -> sd_enclosing d = Some e -> scope_chain s e l ->
      scope_chain s id ((id, sd_has_environment d) :: l).

(** The environment scopes of a chain. *)
Definition env_scopes (l : list (SourceObjectId * bool)) : list SourceObjectId :=
  fst <$> List.filter snd l.

Lemma scope_walk_spec (s : Source) (id : SourceObjectId) (l : list (SourceObjectId * bool))
    (hops fuel : nat) :
  scope_chain s id l -> (length l <= fuel)%nat ->
  scope_walk fuel s id (Z.of_nat hops) = Ok (env_scopes l !! hops).
Proof.
  intros Hc. revert hops fuel. induction Hc as [id d Ho He|id d e l Ho He Hc IH];
    intros hops [|fuel] Hf; cbn [length] in Hf; try lia; cbn [scope_walk];
    rewrite Ho; cbn [mbind res_bind]; rewrite He; unfold env_scopes;
    cbn [List.filter snd].
  - destruct (sd_has_environment d); cbn [andb fmap list_fmap fst]; [|done].
    destruct hops; [done|]. rewrite (proj2 (Z.eqb_neq _ _)) by lia. done.
  - destruct (sd_has_environment d); cbn [andb fmap list_fmap fst].
    + destruct hops as [|hops]; [done|]. rewrite (proj2 (Z.eqb_neq _ _)) by lia.
      replace (Z.of_nat (S hops) - 1) with (Z.of_nat hops) by lia. rewrite IH by lia. done.
    + rewrite IH by lia. done.
Qed.

(** A covering note is one of the script's notes at [pc], of minimal length. *)
Lemma covering_scope_spec (script : Script) (pc : Z) (id : SourceObjectId) :
  covering_scope script pc = Some id ->
  exists n, n ∈ sc_scope_notes script /\
    sn_start n <= pc < u32_add (sn_start n) (sn_length n) /\
    sc_gcthings script !! Z.to_nat (sn_gcthing_index n) = Some id /\ id <> SOURCE_OTHER /\
    forall m gc, m ∈ sc_scope_notes script -> sn_gcthing_index m <> 2 ^ 32 - 1 ->
      sn_start m <= pc < u32_add (sn_start m) (sn_length m) ->
      sc_gcthings script !! Z.to_nat (sn_gcthing_index m) = Some gc -> gc <> SOURCE_OTHER ->
      sn_length n <= sn_length m.
Proof.
  unfold covering_scope.
  assert (forall ns st,
    let '(cur, best) := fold_left (note_step script pc) ns st in
    ((cur, best) = st \/ exists n gc, n ∈ ns /\ cur = Some gc /\ best = sn_length n /\
       sn_start n <= pc < u32_add (sn_start n) (sn_length n) /\
       sc_gcthings script !! Z.to_nat (sn_gcthing_index n) = Some gc /\ gc <> SOURCE_OTHER) /\
    best <= snd st /\
    forall m gc, m ∈ ns -> sn_gcthing_index m <> 2 ^ 32 - 1 ->
      sn_start m <= pc < u32_add (sn_start m) (sn_length m) ->
      sc_gcthings script !! Z.to_nat (sn_gcthing_index m) = Some gc -> gc <> SOURCE_OTHER ->
      best <= sn_length m) as H.
  { intros ns. induction ns as [|n ns IH]; intros [c b]; cbn [fold_left].
    { split_and!; [by left|cbn; lia|]. intros m gc Hm. by apply elem_of_nil in Hm. }
    specialize (IH (note_step script pc (c, b) n)).
    destruct (fold_left _ ns (note_step script pc (c, b) n)) as [cur best].
    destruct IH as (I1 & I2 & I3).
    assert (snd (note_step script pc (c, b) n) <= b /\
      (note_step script pc (c, b) n = (c, b) \/ exists gc,
         note_step script pc (c, b) n = (Some gc, sn_length n) /\
         sn_start n <= pc < u32_add (sn_start n) (sn_length n) /\
         sc_gcthings script !! Z.to_nat (sn_gcthing_index n) = Some gc /\ gc <> SOURCE_OTHER) /\
      forall gc, sn_gcthing_index n <> 2 ^ 32 - 1 ->
        sn_start n <= pc < u32_add (sn_start n) (sn_length n) ->
        sc_gcthings script !! Z.to_nat (sn_gcthing_index n) = Some gc -> gc <> SOURCE_OTHER ->
        snd (note_step script pc (c, b) n) <= sn_length n) as (S1 & S2 & S3).
    { unfold note_step, is_other.
      destruct (Z.eqb_spec (sn_gcthing_index n) (2 ^ 32 - 1)); [split_and!; [cbn; lia|by left|done]|].
      destruct (Z.leb_spec (sn_start n) pc); cbn [andb];
        [|split_and!; [cbn; lia|by left|intros; lia]].
      destruct (Z.ltb_spec pc (u32_add (sn_start n) (sn_length n))); cbn [andb];
        [|split_and!; [cbn; lia|by left|intros; lia]].
      destruct (Z.ltb_spec (sn_length n) b); [|split_and!; [cbn; lia|by left|intros; cbn; lia]].
      destruct (sc_gcthings script !! Z.to_nat (sn_gcthing_index n)) as [gc|];
        [|split_and!; [cbn; lia|by left|intros; congruence]].
      destruct (Z.eqb_spec gc SOURCE_OTHER); cbn [negb];
        [split_and!; [cbn; lia|by left|intros; congruence]|].
      split_and!; [cbn; lia|right; exists gc; done|intros; cbn; lia]. }
    split_and!.
    - destruct I1 as [I1|(m & gc & Hm & I1)].
      + destruct S2 as [S2|(gc & S2 & S2')]; [left; by rewrite I1|].
        right. rewrite S2 in I1. injection I1 as -> ->. exists n, gc. split_and!; try done; [left|apply S2'..].
      + right. exists m, gc. split; [by right|done].
    - cbn in *. lia.
    - intros m gc [->|Hm]%elem_of_cons H1 H2 H3 H4; [specialize (S3 gc H1 H2 H3 H4); lia|eauto]. }
  specialize (H (sc_scope_notes script) (None, 2 ^ 32 - 1)).
  destruct (fold_left _ _ _) as [cur best]. cbn [fst]. intros ->.
  destruct H as ([[=]|(n & gc & Hn & [= <-] & -> & H1 & H2 & H3)] & _ & Hmin).
  exists n. split_and!; try done; lia.
Qed.
