(* ===== verification/Walker.v ===== *)
(** * Walker: the script-graph walker

    [snapshot/src/walker.rs]: from the registered roots, every cell reachable
    through the registration's tables gets one source object, ids are assigned
    on first sight and composite cells are filled from a worklist. Every
    method is a function of the walker's state into [res]; the fuel bounds the
    [while] loops. *)

From S2P Require Import Prelude Mem Registration Source.

Record Walker := mkWalker {
  w_source : Source;
  w_dedup : gmap Z Z;
  w_worklist : list (Z * Z * Z);
  w_script_addr : gmap Z Z;
  w_object_addr : gmap Z Z }.

(** A step of the walker: [&mut self] and [Result]. *)
Definition wm (A : Type) : Type := Walker -> res (A * Walker).
Definition w_ret {A} (a : A) : wm A := fun w => Ok (a, w).
Definition w_bind {A B} (p : wm A) (f : A -> wm B) : wm B := fun w =>
  '(a, w) ← p w; f a w.
Definition w_lift {A} (r : res A) : wm A := fun w => a ← r; Ok (a, w).
Definition w_err {A} (e : Error) : wm A := fun _ => Err e.
Definition w_get : wm Walker := fun w => Ok (w, w).

Declare Scope walker_scope.
Notation "'let*' x := p 'in' k" := (w_bind p (fun x => k))
  (at level 200, x binder, p at level 100, k at level 200, right associativity) : walker_scope.
Notation "'do*' p 'in' k" := (w_bind p (fun _ => k))
  (at level 200, p at level 100, k at level 200, right associativity) : walker_scope.
#[local] Open Scope walker_scope.

(** [for x in l]. *)
Fixpoint w_for {X} (l : list X) (body : X -> wm unit) : wm unit :=
  match l with
  | [] => w_ret tt
  | x :: l => do* body x in w_for l body
  end.

Section Walk.
Context {M : Type} `{MemAccess M} (mem : M) (reg : Registration).

Let lay (f : Field) : Z := get (reg_layout reg) f.
Let kind_object : Z := as_u8 (lay traceKindObject).
Let kind_script : Z := as_u8 (lay traceKindScript).
Let kind_string : Z := as_u8 (lay traceKindString).
Let kind_scope : Z := as_u8 (lay traceKindScope).

Definition set_source (w : Walker) (s : Source) : Walker :=
  mkWalker s (w_dedup w) (w_worklist w) (w_script_addr w) (w_object_addr w).

Definition w_push (o : SourceObject) : wm Z := fun w =>
  '(s, id) ← push (w_source w) o; Ok (id, set_source w s).

(** [self.source.object_mut(id).as_*_mut()...]. *)
Definition w_update (id : Z) (f : SourceObject -> res SourceObject) : wm unit := fun w =>
  s ← object_mut (w_source w) id f; Ok (tt, set_source w s).

Definition w_work (addr kind id : Z) : wm unit := fun w =>
  Ok (tt, mkWalker (w_source w) (w_dedup w) ((addr, kind, id) :: w_worklist w)
            (w_script_addr w) (w_object_addr w)).

Definition w_dedup_insert (addr id : Z) : wm unit := fun w =>
  Ok (tt, mkWalker (w_source w) (<[addr := id]> (w_dedup w)) (w_worklist w)
            (w_script_addr w) (w_object_addr w)).

Definition w_script_addr_insert (id addr : Z) : wm unit := fun w =>
  Ok (tt, mkWalker (w_source w) (w_dedup w) (w_worklist w)
            (<[id := addr]> (w_script_addr w)) (w_object_addr w)).

Definition w_object_addr_insert (id addr : Z) : wm unit := fun w =>
  Ok (tt, mkWalker (w_source w) (w_dedup w) (w_worklist w) (w_script_addr w)
            (<[id := addr]> (w_object_addr w))).

(** ** Cell readers *)

Definition clasp (obj : Z) : res Z :=
  shape ← read_u32 mem (u32_add obj (lay shapeBase));
  base ← read_u32 mem shape;
  read_u32 mem (u32_add base (lay baseShapeClasp)).

Definition fun_flags_and_argc (fun_ : Z) : res Z :=
  read_u32 mem (u32_add fun_ (lay functionFlagsAndArgCount)).

Definition heap_entry (addr clasp : Z) : option HeapObject :=
  match reg_heap reg !! addr with
  | Some e => if ho_clasp e =? clasp then Some e else None
  | None => None
  end.

Definition isd (script : Z) : res Z :=
  shared ← read_u32 mem (u32_add script (lay baseScriptSharedData));
  if shared =? 0 then Err (ELazyScript script)
  else read_u32 mem (u32_add shared (lay sisdISD)).

Definition read_script (addr : Z) : wm Z :=
  let* isd := w_lift (isd addr) in
  let* code_len := w_lift (read_u32 mem (u32_add isd (lay isdCodeLength))) in
  let* bytecode := w_lift (read_bytes mem (u32_add isd (lay isdCode)) code_len) in
  let* fun_ := w_lift (read_u32 mem (u32_add addr (lay baseScriptFunction))) in
  let* nargs := w_lift (if negb (fun_ =? 0)
                        then fa ← fun_flags_and_argc fun_; Ok (as_u16 (Z.shiftr fa 16))
                        else Ok 0) in
  let* is_class_ctor := w_lift (if negb (fun_ =? 0)
                                then fa ← fun_flags_and_argc fun_; Ok (Z.land fa 0x7 =? 3)
                                else Ok false) in
  let* iflags := w_lift (read_u32 mem (u32_add addr (lay baseScriptImmutableFlags))) in
  let bit m := negb (Z.land iflags m =? 0) in
  w_push (SScript (mkScript bytecode addr [] [] [] [] None nargs
    (bit (Z.lor (lay isfIsGenerator) (lay isfIsAsync))) is_class_ctor (bit (lay isfStrict))
    (bit (lay isfNeedsArgsObj) && bit (lay isfHasMappedArgsObj)))).

Definition read_scope_shallow (addr : Z) : wm Z :=
  let* kind := w_lift (read_u8 mem (u32_add addr (lay scopeKind))) in
  let* env_shape := w_lift (read_u32 mem (u32_add addr (lay scopeEnvironmentShape))) in
  let always_env := existsb (fun f => as_u8 (lay f) =? kind)
                      [scopeKindWith; scopeKindGlobal; scopeKindNonSyntactic] in
  let* env_nfixed := w_lift (if negb (env_shape =? 0)
                             then flags ← read_u32 mem (u32_add env_shape 4);
                                  Ok (Some (Z.land (Z.shiftr flags 6) 0x1f))
                             else Ok None) in
  w_push (SScope (mkScopeData kind (always_env || negb (env_shape =? 0)) None [] [] false
                    env_nfixed)).

Definition read_string (addr : Z) : wm Z :=
  let* flags := w_lift (read_u32 mem (u32_add addr (lay stringFlags))) in
  if Z.land flags (lay stringLinearBit) =? 0 then w_err (EStringNotLinear addr)
  else
    let* len := w_lift (read_u32 mem (u32_add addr (lay stringLength))) in
    let latin1 := negb (Z.land flags (lay stringLatin1CharsBit) =? 0) in
    let inline := negb (Z.land flags (lay stringInlineCharsBit) =? 0) in
    let* chars_addr := w_lift (if inline then Ok (u32_add addr (lay stringInlineStorage))
                               else read_u32 mem (u32_add addr (lay stringNonInlineChars))) in
    let* chars := w_lift (if latin1 then read_bytes mem chars_addr len
                          else bytes ← read_bytes mem chars_addr (u32_mul len 2);
                               Ok (le_chars bytes)) in
    w_push (SString chars).

(** ** First sight *)

Definition empty_object : ObjectData :=
  mkObjectData false K_Other false None None None None [] [].

Definition add (addr kind : Z) : wm Z :=
  let is_ k := k =? kind in
  if negb (is_ kind_object || is_ kind_script || is_ kind_string || is_ kind_scope)
  then w_ret SOURCE_OTHER
  else
    let* w := w_get in
    match w_dedup w !! addr with
    | Some id => w_ret id
    | None =>
        let* id :=
          (if is_ kind_object
           then let* id := w_push (SObject empty_object) in
                do* w_work addr kind id in w_ret id
           else if is_ kind_script
           then let* id := read_script addr in
                do* w_work addr kind id in
                do* w_script_addr_insert id addr in w_ret id
           else if is_ kind_string then read_string addr
           else let* id := read_scope_shallow addr in
                do* w_work addr kind id in w_ret id) in
        do* w_dedup_insert addr id in w_ret id
    end.

(** [u64 >> u32]: the shift count is masked in the release profile. *)
Definition value_tag (bits : Z) : Z := as_u32 (Z.shiftr bits (lay valueTagShift mod 64)).

Definition as_i32 (payload : Z) : Z := wrap_s 32 payload.

Definition read_value (bits : Z) : wm Z :=
  let tag := value_tag bits in
  let payload := as_u32 bits in
  if tag =? lay valueTagObject then
    match reg_heap reg !! payload with
    | None => w_ret SOURCE_OTHER
    | Some _ => add payload kind_object
    end
  else if tag =? lay valueTagString then
    let* flags := w_lift (read_u32 mem (u32_add payload (lay stringFlags))) in
    if Z.land flags (lay stringLinearBit) =? 0 then w_ret SOURCE_OTHER
    else add payload kind_string
  else if tag =? lay valueTagInt32 then w_push (SPrimitive (P_Int32 (as_i32 payload)))
  else if tag =? lay valueTagUndefined then w_push (SPrimitive P_Undefined)
  else if tag =? lay valueTagNull then w_push (SPrimitive P_Null)
  else if tag =? lay valueTagBoolean then w_push (SPrimitive (P_Boolean (negb (payload =? 0))))
  else if tag =? lay valueTagSymbol then
    let* w := w_get in
    match w_dedup w !! payload with
    | Some id => w_ret id
    | None =>
        let* id := w_push SSymbol in
        do* w_dedup_insert payload id in w_ret id
    end
  else if tag <? lay valueTagClear then w_push (SPrimitive (P_Double bits))
  else w_ret SOURCE_OTHER.

(** ** Filling objects *)

Definition set_slots_exact (b : bool) (d : ObjectData) : ObjectData :=
  mkObjectData (od_non_native d) (od_kind d) b (od_script d) (od_name d) (od_proto d)
    (od_builtin_id d) (od_properties d) (od_elements d).
Definition set_proto (p : Z) (d : ObjectData) : ObjectData :=
  mkObjectData (od_non_native d) (od_kind d) (od_slots_exact d) (od_script d) (od_name d)
    (Some p) (od_builtin_id d) (od_properties d) (od_elements d).
Definition push_property (p : Z * Z) (d : ObjectData) : ObjectData :=
  mkObjectData (od_non_native d) (od_kind d) (od_slots_exact d) (od_script d) (od_name d)
    (od_proto d) (od_builtin_id d) (od_properties d ++ [p]) (od_elements d).
Definition push_element (e : Z * Z) (d : ObjectData) : ObjectData :=
  mkObjectData (od_non_native d) (od_kind d) (od_slots_exact d) (od_script d) (od_name d)
    (od_proto d) (od_builtin_id d) (od_properties d) (od_elements d ++ [e]).
Definition set_kind (k : ObjectKind) (d : ObjectData) : ObjectData :=
  mkObjectData (od_non_native d) k (od_slots_exact d) (od_script d) (od_name d)
    (od_proto d) (od_builtin_id d) (od_properties d) (od_elements d).
Definition set_script (s : Z) (d : ObjectData) : ObjectData :=
  mkObjectData (od_non_native d) (od_kind d) (od_slots_exact d) (Some s) (od_name d)
    (od_proto d) (od_builtin_id d) (od_properties d) (od_elements d).
Definition set_name (n : Z) (d : ObjectData) : ObjectData :=
  mkObjectData (od_non_native d) (od_kind d) (od_slots_exact d) (od_script d) (Some n)
    (od_proto d) (od_builtin_id d) (od_properties d) (od_elements d).
Definition set_non_native (d : ObjectData) : ObjectData :=
  mkObjectData true (od_kind d) (od_slots_exact d) (od_script d) (od_name d)
    (od_proto d) (od_builtin_id d) (od_properties d) (od_elements d).

Definition visit_heap_entry (addr id clasp : Z) : wm bool :=
  match heap_entry addr clasp with
  | None => w_ret false
  | Some entry =>
      do* w_update id (as_object_mut
            (set_slots_exact (negb (Z.land (ho_kind entry) 0x100 =? 0)))) in
      do* w_object_addr_insert id addr in
      let proto := ho_proto entry in
      do* (if negb (proto =? 0) && bool_decide (is_Some (reg_heap reg !! proto)) then
             let* pid := add proto kind_object in
             if negb (pid =? SOURCE_OTHER) then w_update id (as_object_mut (set_proto pid))
             else w_ret tt
           else w_ret tt) in
      do* w_for (ho_props entry) (fun p =>
            let* nid := add (fst p) kind_string in
            let* vid := read_value (snd p) in
            w_update id (as_object_mut (push_property (nid, vid)))) in
      do* w_for (ho_elems entry) (fun e =>
            let* vid := read_value (snd e) in
            w_update id (as_object_mut (push_element (fst e, vid)))) in
      w_ret true
  end.

Definition object_kind (addr clasp : Z) : ObjectKind :=
  if (clasp =? lay claspFunction) || (clasp =? lay claspFunctionExtended) then K_Function
  else if clasp =? lay claspPlain then K_Plain
  else if clasp =? lay claspArray then K_Array
  else
    match heap_entry addr clasp with
    | Some e =>
        if Z.land (ho_kind e) 0xf =? 4
        then K_TypedArray (as_u8 (Z.land (Z.shiftr (ho_kind e) 4) 0xf))
        else K_Plain
    | None => K_Other
    end.

(** The function part of [visit_object]: script and explicit name. *)
Definition visit_function (addr id : Z) : wm unit :=
  let* fa := w_lift (fun_flags_and_argc addr) in
  let flags := Z.land fa 0xffff in
  if negb (Z.land flags (lay functionFlagsSelfHostLazy) =? 0) then w_err (ESelfHostedLazy addr)
  else
    let* script := w_lift (read_u32 mem (u32_add addr (lay functionJitInfoOrScript))) in
    do* (if negb (Z.land flags (lay functionFlagsBaseScript) =? 0)
            && bool_decide (is_Some (script_gcthing_kinds (reg_digest reg) !! script))
         then
           let* sid := add script kind_script in
           w_update id (as_object_mut (set_script sid))
         else w_ret tt) in
    if Z.land flags (Z.lor (lay functionFlagsInferredName) (lay functionFlagsGuessedAtom)) =? 0
    then
      let* slot := w_lift (read_u64 mem (u32_add addr (lay functionAtom))) in
      if value_tag slot =? lay valueTagString then
        let* nid := add (as_u32 slot) kind_string in
        w_update id (as_object_mut (set_name nid))
      else w_ret tt
    else w_ret tt.

Definition visit_object (addr id : Z) : wm unit :=
  let* clasp := w_lift (clasp addr) in
  let is_function := (clasp =? lay claspFunction) || (clasp =? lay claspFunctionExtended) in
  do* w_update id (as_object_mut (set_kind (object_kind addr clasp))) in
  do* (if is_function then visit_function addr id else w_ret tt) in
  let* transcribed := visit_heap_entry addr id clasp in
  if negb is_function && negb transcribed then w_update id (as_object_mut set_non_native)
  else w_ret tt.

(** ** Filling scripts *)

(** [4 * index as u32] of a two-bit index. *)
Definition isd_optional_spans (isd : Z) : res (Z * Z * Z * Z) :=
  flags ← read_u8 mem (u32_sub (u32_add isd (lay isdCode)) 1);
  let resume_end := Z.land flags 3 in
  let scope_end := Z.land (Z.shiftr flags 2) 3 in
  let try_end := Z.land (Z.shiftr flags 4) 3 in
  opt_base ← read_u32 mem (u32_add isd (lay isdOptArrayOffset));
  let get index :=
    if index =? 0 then Ok opt_base
    else read_u32 mem (u32_sub (u32_add isd opt_base) (u32_mul 4 index)) in
  r ← get resume_end;
  s ← get scope_end;
  t ← get try_end;
  Ok (opt_base, r, s, t).

Fixpoint resume_loop (fuel : nat) (isd off resume_end : Z) (resume : list Z) : res (list Z) :=
  match fuel with
  | O => OutOfFuel
  | S n =>
      if off <? resume_end then
        pc ← read_u32 mem (u32_add isd off);
        resume_loop n isd (u32_add off 4) resume_end (resume ++ [pc])
      else Ok resume
  end.

Definition try_note_kind (raw : Z) : res TryNoteKind :=
  match raw with
  | 0 => Ok TN_Catch
  | 1 => Ok TN_Finally
  | 2 => Ok TN_ForIn
  | 3 => Ok TN_Destructuring
  | 4 => Ok TN_ForOf
  | 5 => Ok TN_ForOfIterClose
  | 6 => Ok TN_Loop
  | _ => Err (ETryNoteKind raw)
  end.

Definition upd_resume (r : list Z) (s : Script) : Script :=
  mkScript (sc_bytecode s) (sc_addr s) (sc_gcthings s) r (sc_try_notes s) (sc_scope_notes s)
    (sc_body_scope s) (sc_nargs s) (sc_is_generator_or_async s) (sc_is_class_ctor s)
    (sc_strict s) (sc_has_mapped_args s).
Definition push_gcthing (t : Z) (s : Script) : Script :=
  mkScript (sc_bytecode s) (sc_addr s) (sc_gcthings s ++ [t]) (sc_resume_offsets s)
    (sc_try_notes s) (sc_scope_notes s) (sc_body_scope s) (sc_nargs s)
    (sc_is_generator_or_async s) (sc_is_class_ctor s) (sc_strict s) (sc_has_mapped_args s).
Definition push_try_note (t : TryNote) (s : Script) : Script :=
  mkScript (sc_bytecode s) (sc_addr s) (sc_gcthings s) (sc_resume_offsets s)
    (sc_try_notes s ++ [t]) (sc_scope_notes s) (sc_body_scope s) (sc_nargs s)
    (sc_is_generator_or_async s) (sc_is_class_ctor s) (sc_strict s) (sc_has_mapped_args s).
Definition push_scope_note (t : ScopeNote) (s : Script) : Script :=
  mkScript (sc_bytecode s) (sc_addr s) (sc_gcthings s) (sc_resume_offsets s) (sc_try_notes s)
    (sc_scope_notes s ++ [t]) (sc_body_scope s) (sc_nargs s)
    (sc_is_generator_or_async s) (sc_is_class_ctor s) (sc_strict s) (sc_has_mapped_args s).
Definition upd_body_scope (b : Z) (s : Script) : Script :=
  mkScript (sc_bytecode s) (sc_addr s) (sc_gcthings s) (sc_resume_offsets s) (sc_try_notes s)
    (sc_scope_notes s) (Some b) (sc_nargs s) (sc_is_generator_or_async s)
    (sc_is_class_ctor s) (sc_strict s) (sc_has_mapped_args s).

Fixpoint try_notes_loop (fuel : nat) (id isd off end_ : Z) : wm unit :=
  match fuel with
  | O => fun _ => OutOfFuel
  | S n =>
      if off <? end_ then
        let* kind_raw := w_lift (read_u32 mem (u32_add isd off)) in
        let* kind := w_lift (try_note_kind kind_raw) in
        let* depth := w_lift (read_u32 mem (u32_add (u32_add isd off) 4)) in
        let* start := w_lift (read_u32 mem (u32_add (u32_add isd off) 8)) in
        let* length := w_lift (read_u32 mem (u32_add (u32_add isd off) 12)) in
        do* w_update id (as_script_mut (push_try_note (mkTryNote kind depth start length))) in
        try_notes_loop n id isd (u32_add off 16) end_
      else w_ret tt
  end.

Fixpoint scope_notes_loop (fuel : nat) (id isd off end_ : Z) : wm unit :=
  match fuel with
  | O => fun _ => OutOfFuel
  | S n =>
      if off <? end_ then
        let* gcthing_index := w_lift (read_u32 mem (u32_add isd off)) in
        let* start := w_lift (read_u32 mem (u32_add (u32_add isd off) 4)) in
        let* length := w_lift (read_u32 mem (u32_add (u32_add isd off) 8)) in
        do* w_update id (as_script_mut
              (push_scope_note (mkScopeNote gcthing_index start length))) in
        scope_notes_loop n id isd (u32_add off 16) end_
      else w_ret tt
  end.

(** The addresses of a script's gcthings, with the kind bits masked off. *)
Fixpoint thing_addrs (things_base i : Z) (n : nat) : res (list Z) :=
  match n with
  | O => Ok []
  | S n =>
      word ← read_u32 mem (u32_add things_base (u32_mul 4 i));
      rest ← thing_addrs things_base (i + 1) n;
      Ok (Z.land word (not_u 32 (lay gcCellPtrKindMask)) :: rest)
  end.

Definition visit_script (fuel : nat) (addr id : Z) : wm unit :=
  let* isd := w_lift (isd addr) in
  let* spans := w_lift (isd_optional_spans isd) in
  let '(resume_start, resume_end, scope_notes_end, try_notes_end) := spans in
  let* resume := w_lift (resume_loop fuel isd resume_start resume_end []) in
  do* w_update id (as_script_mut (upd_resume resume)) in
  let* psd := w_lift (read_u32 mem (u32_add addr (lay baseScriptPrivateData))) in
  match script_gcthing_kinds (reg_digest reg) !! addr with
  | None => w_err (EScriptNotInDigest addr)
  | Some kinds =>
      let* ngcthings := w_lift (if negb (psd =? 0)
                                then read_u32 mem (u32_add psd (lay privateScriptDataNGCThings))
                                else Ok 0) in
      if negb (ngcthings =? Z.of_nat (length kinds)) then w_err (EGcThingCount addr)
      else
        let things_base := u32_add psd (lay privateScriptDataGCThings) in
        let* things := w_lift (thing_addrs things_base 0 (length kinds)) in
        do* w_for (zip things kinds) (fun tk =>
              let* tid := (if snd tk =? 0xff then w_ret SOURCE_OTHER
                           else add (fst tk) (snd tk)) in
              w_update id (as_script_mut (push_gcthing tid))) in
        do* try_notes_loop fuel id isd scope_notes_end try_notes_end in
        do* scope_notes_loop fuel id isd resume_end scope_notes_end in
        let* body_index := w_lift (read_u32 mem (u32_add isd (lay isdBodyScopeIndex))) in
        match things !! Z.to_nat body_index with
        | None => w_err EBodyScopeIndex
        | Some body_addr =>
            let* bid := add body_addr kind_scope in
            w_update id (as_script_mut (upd_body_scope bid))
        end
  end.

(** ** Filling scopes *)

Definition set_enclosing (e : Z) (s : ScopeData) : ScopeData :=
  mkScopeData (sd_kind s) (sd_has_environment s) (Some e) (sd_bindings s)
    (sd_env_slot_values s) (sd_is_named_lambda s) (sd_env_nfixed s).
Definition push_binding (b : Z * bool * option Z) (s : ScopeData) : ScopeData :=
  mkScopeData (sd_kind s) (sd_has_environment s) (sd_enclosing s) (sd_bindings s ++ [b])
    (sd_env_slot_values s) (sd_is_named_lambda s) (sd_env_nfixed s).
Definition push_env_slot (v : Z * Z) (s : ScopeData) : ScopeData :=
  mkScopeData (sd_kind s) (sd_has_environment s) (sd_enclosing s) (sd_bindings s)
    (sd_env_slot_values s ++ [v]) (sd_is_named_lambda s) (sd_env_nfixed s).
Definition set_named_lambda (s : ScopeData) : ScopeData :=
  mkScopeData (sd_kind s) (sd_has_environment s) (sd_enclosing s) (sd_bindings s)
    (sd_env_slot_values s) true (sd_env_nfixed s).

Definition visit_scope (addr id : Z) : wm unit :=
  let* enclosing := w_lift (read_u32 mem (u32_add addr (lay scopeEnclosing))) in
  do* (if negb (enclosing =? 0) then
         let* eid := add enclosing kind_scope in
         w_update id (as_scope_mut (set_enclosing eid))
       else w_ret tt) in
  match scope_bindings (reg_digest reg) !! addr with
  | None => w_err (EScopeNotInDigest addr)
  | Some bindings =>
      do* w_for bindings (fun b =>
            if db_name_atom b =? 0 then w_ret tt
            else
              let* nid := add (db_name_atom b) kind_string in
              w_update id (as_scope_mut (push_binding (nid, db_is_var b, db_env_slot b)))) in
      do* match reg_env_slots reg !! addr with
          | None => w_ret tt
          | Some slots =>
              w_for slots (fun sv =>
                let* vid := read_value (snd sv) in
                if vid =? SOURCE_OTHER then w_ret tt
                else w_update id (as_scope_mut (push_env_slot (fst sv, vid))))
          end in
      let* kind := w_lift (read_u8 mem (u32_add addr (lay scopeKind))) in
      if (as_u8 (lay scopeKindNamedLambda) =? kind)
         || (as_u8 (lay scopeKindStrictNamedLambda) =? kind)
      then w_update id (as_scope_mut set_named_lambda)
      else w_ret tt
  end.

(** ** The worklist *)

Definition pop_work : wm (option (Z * Z * Z)) := fun w =>
  match w_worklist w with
  | [] => Ok (None, w)
  | e :: l => Ok (Some e, mkWalker (w_source w) (w_dedup w) l (w_script_addr w) (w_object_addr w))
  end.

Definition visit (fuel : nat) (addr kind id : Z) : wm unit :=
  if kind_object =? kind then visit_object addr id
  else if kind_script =? kind then visit_script fuel addr id
  else if kind_scope =? kind then visit_scope addr id
  else w_ret tt.

Fixpoint drain (steps fuel : nat) : wm unit :=
  match steps with
  | O => fun _ => OutOfFuel
  | S n =>
      let* e := pop_work in
      match e with
      | None => w_ret tt
      | Some (addr, kind, id) => do* visit fuel addr kind id in drain n fuel
      end
  end.

Record WalkOutput := mkWalkOutput {
  wo_source : Source;
  wo_root_ids : list SourceObjectId;
  wo_script_addr : gmap Z Z;
  wo_object_addr : gmap Z Z }.

Definition walk_start : Walker := mkWalker (mkSource [] None) ∅ [] ∅ ∅.

Fixpoint walk_roots (steps fuel : nat) (roots : list Z) : wm (list SourceObjectId) :=
  match roots with
  | [] => w_ret []
  | root :: roots =>
      let* id := add root kind_script in
      do* drain steps fuel in
      let* ids := walk_roots steps fuel roots in
      w_ret (id :: ids)
  end.

Definition set_global (w : Walker) (id : Z) : Walker :=
  set_source w (mkSource (src_objects (w_source w)) (Some id)).

Definition walk (steps fuel : nat) : res WalkOutput :=
  '(root_ids, w) ← walk_roots steps fuel (reg_roots reg) walk_start;
  '(_, w) ←
    (if negb (reg_global_object reg =? 0) then
       '(id, w) ← add (reg_global_object reg) kind_object w;
       '(_, w) ← drain steps fuel w;
       Ok (tt, if negb (id =? SOURCE_OTHER) then set_global w id else w)
     else Ok (tt, w));
  Ok (mkWalkOutput (w_source w) root_ids (w_script_addr w) (w_object_addr w)).
End Walk.
