(* ===== verification/WalkerSound.v ===== *)
(** * WalkerSound: the walk ends in a well-formed graph

    An invariant of the walker's state (ids name objects, worklist entries
    name objects of the kind they will be filled as, cells and ids correspond
    one to one, every reference is in range), an order on states along which
    every method moves, and a measure that bounds the worklist loop. The one
    panic a walk can end in is the 32-bit id space running out. *)

From S2P Require Import Prelude Mem Registration RegistrationSound Source Walker.
#[local] Open Scope walker_scope.

(** What a later step never changes of an object. *)
Inductive Variant := VObject | VScript (addr : Z) | VString | VPrimitive | VScope | VSymbol.

Definition variant (o : SourceObject) : Variant :=
  match o with
  | SObject _ => VObject
  | SScript s => VScript (sc_addr s)
  | SString _ => VString
  | SPrimitive _ => VPrimitive
  | SScope _ => VScope
  | SSymbol => VSymbol
  end.

Definition opt_ids (o : option Z) : list Z := match o with Some i => [i] | None => [] end.

(** Every id an object holds. *)
Definition obj_refs (o : SourceObject) : list Z :=
  match o with
  | SObject d =>
      opt_ids (od_script d) ++ opt_ids (od_name d) ++ opt_ids (od_proto d)
      ++ (fst <$> od_properties d) ++ (snd <$> od_properties d) ++ (snd <$> od_elements d)
  | SScript s => sc_gcthings s ++ opt_ids (sc_body_scope s)
  | SScope d =>
      opt_ids (sd_enclosing d) ++ ((fun b => fst (fst b)) <$> sd_bindings d)
      ++ (snd <$> sd_env_slot_values d)
  | _ => []
  end.

(** An id of the first [n] objects, or the marker of an absent one. *)
Definition id_ok (n : nat) (id : Z) : Prop := id = SOURCE_OTHER \/ 0 <= id < Z.of_nat n.

Definition objs (w : Walker) : list SourceObject := src_objects (w_source w).

Definition has_variant (w : Walker) (id : Z) (v : Variant) : Prop :=
  exists o, objs w !! Z.to_nat id = Some o /\ variant o = v /\ 0 <= id.

(** The addresses of a registration are 32-bit words. *)
Record reg_words (reg : Registration) : Prop := {
  rw_roots : Forall (in_u 32) (reg_roots reg);
  rw_global : in_u 32 (reg_global_object reg);
  rw_heap : forall a e, reg_heap reg !! a = Some e ->
    in_u 32 (ho_proto e) /\ Forall (fun p => in_u 32 (fst p)) (ho_props e);
  rw_bindings : forall a bs, scope_bindings (reg_digest reg) !! a = Some bs ->
    Forall (fun b => in_u 32 (db_name_atom b)) bs }.

Section Sound.
Context {M : Type} `{MemLaws M} (mem : M) (reg : Registration) (fuel : nat).
Hypothesis Hmem : mem_size mem <= 2 ^ 32 - 16.
Hypothesis Hreg : reg_words reg.
Hypothesis Hfuel : 2 ^ 32 < Z.of_nat fuel.

Let lay (f : Field) : Z := get (reg_layout reg) f.
Let kind_object : Z := as_u8 (lay traceKindObject).
Let kind_script : Z := as_u8 (lay traceKindScript).
Let kind_string : Z := as_u8 (lay traceKindString).
Let kind_scope : Z := as_u8 (lay traceKindScope).

(** A worklist entry will be filled as what it is. *)
Definition work_ok (w : Walker) (e : Z * Z * Z) : Prop :=
  let '(addr, kind, id) := e in
  in_u 32 addr /\
  has_variant w id (if kind_object =? kind then VObject
                    else if kind_script =? kind then VScript addr else VScope).

Record inv (w : Walker) : Prop := {
  iv_refs : forall i o, objs w !! i = Some o -> Forall (id_ok (length (objs w))) (obj_refs o);
  iv_dedup : forall a id, w_dedup w !! a = Some id ->
    in_u 32 a /\ 0 <= id < Z.of_nat (length (objs w));
  iv_inj : forall a b id, w_dedup w !! a = Some id -> w_dedup w !! b = Some id -> a = b;
  iv_work : Forall (work_ok w) (w_worklist w);
  iv_script : forall id a, w_script_addr w !! id = Some a ->
    has_variant w id (VScript a) /\ w_dedup w !! a = Some id }.

(** Worklist entries left plus cells not yet seen. *)
Definition mu (w : Walker) : Z :=
  Z.of_nat (length (w_worklist w)) + (2 ^ 32 - Z.of_nat (size (w_dedup w))).

Record ext (w w' : Walker) : Prop := {
  ex_len : (length (objs w) <= length (objs w'))%nat;
  ex_var : forall id v, has_variant w id v -> has_variant w' id v;
  ex_dedup : w_dedup w ⊆ w_dedup w';
  ex_mu : mu w' <= mu w;
  ex_global : src_global_object (w_source w') = src_global_object (w_source w) }.

Lemma ext_refl (w : Walker) : ext w w.
Proof. split; auto; lia. Qed.

Lemma ext_trans (w1 w2 w3 : Walker) : ext w1 w2 -> ext w2 w3 -> ext w1 w3.
Proof. intros [] []. split; auto; [lia|by etransitivity|lia|congruence]. Qed.

Lemma id_ok_mono (n m : nat) (id : Z) : (n <= m)%nat -> id_ok n id -> id_ok m id.
Proof. intros Hn [->|Hi]; [by left|right; lia]. Qed.

(** The outcome of a step: a state further along, an error, or the id space
    exhausted. *)
Definition ok {A} (w : Walker) (r : res (A * Walker)) (Q : A -> Walker -> Prop) : Prop :=
  match r with
  | Ok (a, w') => inv w' /\ ext w w' /\ Q a w'
  | Err _ | Panic PIdSpace => True
  | _ => False
  end.

Definition holds {A} (p : wm A) (Q : A -> Walker -> Prop) (w : Walker) : Prop :=
  inv w -> ok w (p w) Q.

Lemma ok_bind {A B} (p : wm A) (f : A -> wm B) (w : Walker) (Q : A -> Walker -> Prop)
    (R : B -> Walker -> Prop) :
  ok w (p w) Q -> (forall a w', inv w' -> ext w w' -> Q a w' -> ok w' (f a w') R) ->
  ok w (w_bind p f w) R.
Proof.
  unfold w_bind. destruct (p w) as [[a w']|e|[]|]; cbn; try done. intros (Hi & He & HQ) Hf.
  specialize (Hf a w' Hi He HQ). destruct (f a w') as [[b w'']|e|[]|]; cbn in *; try done.
  destruct Hf as (Hi' & He' & HR). split_and!; [done|by eapply ext_trans|done].
Qed.

Lemma ok_weaken {A} (w : Walker) (r : res (A * Walker)) (Q R : A -> Walker -> Prop) :
  ok w r Q -> (forall a w', inv w' -> ext w w' -> Q a w' -> R a w') -> ok w r R.
Proof.
  destruct r as [[a w']|e|[]|]; cbn; try done. intros (Hi & He & HQ) HR. split_and!; auto.
Qed.

Lemma ok_ret {A} (a : A) (w : Walker) (Q : A -> Walker -> Prop) :
  inv w -> Q a w -> ok w (w_ret a w) Q.
Proof. intros Hi HQ. cbn. split_and!; [done|apply ext_refl|done]. Qed.

(** A read: the state is unchanged. *)
Lemma ok_lift {A B} (r : res A) (f : A -> wm B) (w : Walker) (R : B -> Walker -> Prop) :
  inv w -> returns r -> (forall a, r = Ok a -> ok w (f a w) R) ->
  ok w (w_bind (w_lift r) f w) R.
Proof. intros Hi Hr Hf. unfold w_bind, w_lift. destruct r as [a|e|p|]; cbn; try done. by apply Hf. Qed.

Lemma ok_for {X} (l : list X) (body : X -> wm unit) (w : Walker) (P : Walker -> Prop) :
  (forall w w', ext w w' -> P w -> P w') -> inv w -> P w ->
  (forall x w, x ∈ l -> inv w -> P w -> ok w (body x w) (fun _ _ => True)) ->
  ok w (w_for l body w) (fun _ _ => True).
Proof.
  intros HP. revert w. induction l as [|x l IH]; intros w Hi Hw Hb; cbn [w_for].
  - by apply ok_ret.
  - eapply ok_bind; [by apply Hb; [left|..]|]. intros _ w' Hi' He _. apply IH; [done|eauto|].
    intros y w2 Hy. apply Hb. by right.
Qed.

Lemma has_variant_ext (w w' : Walker) (id : Z) (v : Variant) :
  ext w w' -> has_variant w id v -> has_variant w' id v.
Proof. intros [_ Hv _ _ _]. apply Hv. Qed.

Lemma has_variant_lt (w : Walker) (id : Z) (v : Variant) :
  has_variant w id v -> 0 <= id < Z.of_nat (length (objs w)).
Proof. intros (o & Ho & _ & Hid). apply lookup_lt_Some in Ho. lia. Qed.

Lemma work_ok_ext (w w' : Walker) (e : Z * Z * Z) : ext w w' -> work_ok w e -> work_ok w' e.
Proof. intros He. destruct e as [[a k] id]. intros [Ha Hv]. split; [done|by eapply has_variant_ext]. Qed.

(** ** Primitive steps *)

(** Pushing an object: its id is fresh and in range. *)
Lemma push_ok (o : SourceObject) (w : Walker) :
  inv w -> obj_refs o = [] ->
  ok w (w_push o w) (fun id w' =>
    has_variant w' id (variant o) /\ id = Z.of_nat (length (objs w)) /\
    w_dedup w' = w_dedup w /\ w_worklist w' = w_worklist w).
Proof.
  intros Hi Ho. unfold w_push, push. destruct (Z.leb_spec (2 ^ 32) (Z.of_nat (length (src_objects (w_source w))))).
  { exact I. }
  cbn [mbind res_bind ok]. set (w' := set_source w _).
  assert (objs w' = objs w ++ [o]) as Eo by reflexivity.
  assert (forall id v, has_variant w id v -> has_variant w' id v) as Hv.
  { intros id v (x & Hx & Hxv). exists x. split; [|done]. rewrite Eo. by apply lookup_app_l_Some. }
  assert (ext w w') as He.
  { split; [rewrite Eo, length_app; lia|done|reflexivity|reflexivity|reflexivity]. }
  split_and!; [|done| |done|done|done].
  - split.
    + intros i x Hx. rewrite Eo in Hx. apply lookup_app_Some in Hx as [Hx|[_ Hx]].
      * eapply list.Forall_impl; [by eapply (iv_refs w Hi)|]. intros id. apply id_ok_mono, He.
      * apply list_lookup_singleton_Some in Hx as [_ <-]. rewrite Ho. constructor.
    + intros a id Ha. destruct (iv_dedup w Hi a id Ha). rewrite Eo, length_app. split; [done|cbn; lia].
    + exact (iv_inj w Hi).
    + eapply list.Forall_impl; [exact (iv_work w Hi)|]. intros e. by apply work_ok_ext.
    + intros id a Ha. destruct (iv_script w Hi id a Ha). auto.
  - exists o. rewrite Eo, Nat2Z.id. split_and!; [|done|lia].
    by rewrite lookup_app_r, Nat.sub_diag by reflexivity.
Qed.

(** Updating an object in place. *)
Lemma update_ok (id : Z) (f : SourceObject -> res SourceObject) (v : Variant) (w : Walker) :
  inv w -> has_variant w id v ->
  (forall o, variant o = v -> exists o', f o = Ok o' /\ variant o' = v /\
     (Forall (id_ok (length (objs w))) (obj_refs o) -> Forall (id_ok (length (objs w))) (obj_refs o'))) ->
  ok w (w_update id f w) (fun _ w' => True).
Proof.
  intros Hi (o & Ho & Hov & Hid) Hf. destruct (Hf o Hov) as (o' & Ho' & Hv' & Hr').
  unfold w_update, object_mut, object. unfold objs in Ho. rewrite Ho. cbn [mbind res_bind].
  rewrite Ho'. cbn [mbind res_bind ok]. set (w' := set_source w _).
  assert (objs w' = <[Z.to_nat id := o']> (objs w)) as Eo by reflexivity.
  assert (forall i x, has_variant w i x -> has_variant w' i x) as Hv.
  { intros i x (y & Hy & Hyx & Hi0). unfold has_variant. rewrite Eo.
    destruct (decide (Z.to_nat i = Z.to_nat id)) as [E|E].
    - exists o'. assert (y = o) as -> by (unfold objs in Hy; congruence).
      split_and!; [|congruence|done]. rewrite E. apply list_lookup_insert_eq.
      by eapply lookup_lt_Some.
    - exists y. rewrite list_lookup_insert_ne by done. done. }
  assert (length (objs w') = length (objs w)) as Hlen by (rewrite Eo; apply length_insert).
  assert (ext w w') as He by (split; [lia|done|reflexivity|reflexivity|reflexivity]).
  split_and!; [|done|done]. split.
  - intros i x Hx. rewrite Hlen. rewrite Eo in Hx.
    apply list_lookup_insert_Some in Hx as [(<- & <- & _)|[_ Hx]]; [|by eapply (iv_refs w Hi)].
    apply Hr'. by eapply (iv_refs w Hi).
  - intros a i Ha. rewrite Hlen. by apply (iv_dedup w Hi).
  - exact (iv_inj w Hi).
  - eapply list.Forall_impl; [exact (iv_work w Hi)|]. intros e. by apply work_ok_ext.
  - intros i a Ha. destruct (iv_script w Hi i a Ha). auto.
Qed.

(** ** First sight *)

(** A reader that pushes one object and touches nothing else. *)
Definition fresh (p : wm Z) (v : Variant) : Prop :=
  forall w, inv w -> ok w (p w) (fun id w' =>
    has_variant w' id v /\ id = Z.of_nat (length (objs w)) /\
    w_dedup w' = w_dedup w /\ w_worklist w' = w_worklist w).

Lemma fresh_push (o : SourceObject) : obj_refs o = [] -> fresh (w_push o) (variant o).
Proof. intros Ho w Hi. by apply push_ok. Qed.

Lemma fresh_lift {A} (r : res A) (k : A -> wm Z) (v : Variant) :
  returns r -> (forall a, r = Ok a -> fresh (k a) v) -> fresh (w_bind (w_lift r) k) v.
Proof. intros Hr Hk w Hi. apply ok_lift; [done|done|]. intros a Ha. by apply Hk. Qed.

Lemma fresh_err (e : Error) (v : Variant) : fresh (w_err e) v.
Proof. intros w Hi. exact I. Qed.

Lemma u32_add_u32 (a b : Z) : in_u 32 (u32_add a b).
Proof. apply wrap_u_range. lia. Qed.
Lemma u32_sub_u32 (a b : Z) : in_u 32 (u32_sub a b).
Proof. apply wrap_u_range. lia. Qed.
Lemma u32_mul_u32 (a b : Z) : in_u 32 (u32_mul a b).
Proof. apply wrap_u_range. lia. Qed.
Lemma as_u32_u32 (a : Z) : in_u 32 (as_u32 a).
Proof. apply wrap_u_range. lia. Qed.

(** A read of the code: at a wrapped address, or at a word just read. *)
Ltac addr_u32 :=
  first [ apply u32_add_u32 | apply u32_sub_u32 | apply u32_mul_u32 | apply as_u32_u32
        | eassumption ].

Ltac word_of_read :=
  repeat match goal with
  | H : read_u32 _ _ = Ok ?v |- _ =>
      lazymatch goal with
      | _ : in_u 32 v |- _ => fail
      | _ => assert (in_u 32 v) by (eapply (read_u32_range mem); [|exact H]; addr_u32)
      end
  end.

Lemma read_u8_returns (a : Z) : in_u 32 a -> returns (read_u8 mem a).
Proof. intros Ha. apply (read_u8_spec mem a Ha). Qed.
Lemma read_u64_returns (a : Z) : in_u 32 a -> returns (read_u64 mem a).
Proof. intros Ha. apply (read_u64_spec mem a Ha). Qed.

Ltac read_returns :=
  word_of_read;
  first [ apply read_u32_returns; addr_u32 | apply read_u8_returns; addr_u32
        | apply read_u64_returns; addr_u32 | apply rb_returns; addr_u32 | exact I ].

Lemma isd_returns (a : Z) : returns (isd mem reg a).
Proof.
  unfold isd. apply bind_returns; [read_returns|]. intros sh _.
  destruct (sh =? 0); [exact I|read_returns].
Qed.

Lemma isd_u32 (a v : Z) : isd mem reg a = Ok v -> in_u 32 v.
Proof.
  unfold isd. intros Hv. apply bind_Ok in Hv as (sh & _ & Hv).
  destruct (sh =? 0); [discriminate|]. by word_of_read.
Qed.

Lemma fun_flags_returns (a : Z) : returns (fun_flags_and_argc mem reg a).
Proof. unfold fun_flags_and_argc. read_returns. Qed.

Ltac fresh_read := apply fresh_lift; [read_returns|intros ? ?].

Lemma read_script_fresh (addr : Z) : fresh (read_script mem reg addr) (VScript addr).
Proof.
  unfold read_script. apply fresh_lift; [apply isd_returns|]. intros i Hi%isd_u32.
  do 3 fresh_read.
  apply fresh_lift. { destruct (negb _); [|exact I]. apply bind_returns; [apply fun_flags_returns|done]. }
  intros nargs _.
  apply fresh_lift. { destruct (negb _); [|exact I]. apply bind_returns; [apply fun_flags_returns|done]. }
  intros ctor _. fresh_read. by apply fresh_push.
Qed.

Lemma read_scope_fresh (addr : Z) : fresh (read_scope_shallow mem reg addr) VScope.
Proof.
  unfold read_scope_shallow. do 2 fresh_read.
  apply fresh_lift. { destruct (negb _); [|exact I]. apply bind_returns; [read_returns|done]. }
  intros nf _. by apply fresh_push.
Qed.

Lemma read_string_fresh (addr : Z) : fresh (read_string mem reg addr) VString.
Proof.
  unfold read_string. fresh_read. destruct (_ =? 0); [apply fresh_err|].
  fresh_read. rename a0 into n. word_of_read.
  apply (fresh_lift (if negb _ then _ else _)); [destruct (negb _); [exact I|read_returns]|].
  intros ca Hca. assert (in_u 32 ca) as Hcu.
  { destruct (negb _); [injection Hca as <-; apply u32_add_u32|by word_of_read]. }
  apply fresh_lift; [|intros chars _; by apply fresh_push].
  match goal with |- returns (if ?c then _ else _) => destruct c end; [by apply rb_returns|].
  apply bind_returns; [apply rb_returns; [done|apply u32_mul_u32]|done].
Qed.

(** The state after a first sight: the id is recorded for the address, with
    at most one worklist entry and, for a script, its address. *)
Definition registered (w : Walker) (addr id : Z) (wk : list (Z * Z * Z)) (script : bool) : Walker :=
  mkWalker (w_source w) (<[addr := id]> (w_dedup w)) (wk ++ w_worklist w)
    (if script then <[id := addr]> (w_script_addr w) else w_script_addr w) (w_object_addr w).

Lemma registered_ok (w : Walker) (addr id : Z) (wk : list (Z * Z * Z)) (script : bool) (v : Variant) :
  inv w -> in_u 32 addr -> w_dedup w !! addr = None -> has_variant w id v ->
  (forall a, w_dedup w !! a <> Some id) -> (length wk <= 1)%nat -> Forall (work_ok w) wk ->
  (script = true -> v = VScript addr) ->
  inv (registered w addr id wk script) /\ ext w (registered w addr id wk script).
Proof.
  intros Hi Ha Hnew Hv Hid Hwk Hwo Hs. set (w' := registered w addr id wk script).
  assert (objs w' = objs w) as Eo by reflexivity.
  assert (forall i x, has_variant w i x -> has_variant w' i x) as Hv' by done.
  assert (ext w w') as He.
  { split; [done|done|by apply insert_subseteq| |done]. unfold mu. cbn [w' registered w_worklist w_dedup].
    rewrite map_size_insert_None by done. rewrite length_app. lia. }
  split; [|done]. pose proof (has_variant_lt w id v Hv). split.
  - exact (iv_refs w Hi).
  - intros a i Hai. cbn [w' registered w_dedup] in Hai. rewrite Eo.
    apply lookup_insert_Some in Hai as [[<- <-]|[_ Hai]]; [done|by apply (iv_dedup w Hi)].
  - intros a b i Hai Hbi. cbn [w' registered w_dedup] in Hai, Hbi.
    apply lookup_insert_Some in Hai as [[<- <-]|[_ Hai]];
      apply lookup_insert_Some in Hbi as [[Eb Ei]|[_ Hbi]]; [done| | |].
    + by destruct (Hid b).
    + subst. by destruct (Hid a).
    + by apply (iv_inj w Hi a b i).
  - cbn [w' registered w_worklist]. apply Forall_app. split; [done|exact (iv_work w Hi)].
  - intros i a Hia. cbn [w' registered w_script_addr w_dedup] in *.
    assert (w_script_addr w !! i = Some a -> has_variant w i (VScript a) /\
      (<[addr := id]> (w_dedup w)) !! a = Some i) as Hold.
    { intros Hw. destruct (iv_script w Hi i a Hw) as [Hs1 Hs2]. split; [done|].
      rewrite lookup_insert_ne; [done|]. intros ->. congruence. }
    destruct script; [|by apply Hold].
    apply lookup_insert_Some in Hia as [[<- <-]|[_ Hia]]; [|by apply Hold].
    split; [by rewrite <- Hs|]. apply lookup_insert_eq.
Qed.

(** A reader followed by its registration. *)
Lemma sight_ok (p : wm Z) (v : Variant) (addr : Z) (w : Walker)
    (wk : Z -> list (Z * Z * Z)) (script : bool) :
  fresh p v -> inv w -> in_u 32 addr -> w_dedup w !! addr = None ->
  (forall id, length (wk id) <= 1)%nat ->
  (forall id w', has_variant w' id v -> Forall (work_ok w') (wk id)) ->
  (script = true -> v = VScript addr) ->
  ok w ('(id, w1) ← p w; Ok (id, registered w1 addr id (wk id) script))
    (fun id w' => id_ok (length (objs w')) id).
Proof.
  intros Hp Hi Ha Hnew Hwk Hwo Hs. specialize (Hp w Hi).
  destruct (p w) as [[id w1]|e|[]|]; cbn in Hp; try done.
  destruct Hp as (Hi1 & He1 & Hv & Hid & Hd & Hw). cbn [mbind res_bind ok].
  destruct (registered_ok w1 addr id (wk id) script v) as [Hi2 He2]; auto.
  - by rewrite Hd.
  - intros a Had. rewrite Hd in Had. apply (iv_dedup w Hi) in Had. lia.
  - split_and!; [done|by eapply ext_trans|].
    right. exact (has_variant_lt w1 id v Hv).
Qed.

Lemma add_ok (addr kind : Z) (w : Walker) :
  in_u 32 addr -> inv w ->
  ok w (add mem reg addr kind w) (fun id w' => id_ok (length (objs w')) id).
Proof.
  intros Ha Hi. unfold add.
  change (as_u8 (get (reg_layout reg) traceKindObject)) with kind_object.
  change (as_u8 (get (reg_layout reg) traceKindScript)) with kind_script.
  change (as_u8 (get (reg_layout reg) traceKindString)) with kind_string.
  change (as_u8 (get (reg_layout reg) traceKindScope)) with kind_scope.
  destruct (negb _) eqn:Ek; [apply ok_ret; [done|by left]|].
  unfold w_bind at 1, w_get. cbn [mbind res_bind].
  destruct (w_dedup w !! addr) as [id|] eqn:Ed.
  { apply ok_ret; [done|]. right. by apply (iv_dedup w Hi) in Ed as [_ ?]. }
  destruct (kind_object =? kind) eqn:Eo.
  - replace (w_bind _ _ w) with
      ('(id, w1) ← w_push (SObject empty_object) w;
       Ok (id, registered w1 addr id [(addr, kind, id)] false)).
    2:{ unfold w_bind. destruct (w_push _ w) as [[? ?]|e|p|]; reflexivity. }
    apply (sight_ok _ VObject _ _ (fun id => [(addr, kind, id)]));
      [by apply (fresh_push (SObject empty_object))|done|done|done|cbn; lia| |done].
    intros id w' Hv. apply Forall_singleton. split; [done|]. by rewrite Eo.
  - destruct (kind_script =? kind) eqn:Es; [|destruct (kind_string =? kind) eqn:Et].
    + replace (w_bind _ _ w) with
        ('(id, w1) ← read_script mem reg addr w;
         Ok (id, registered w1 addr id [(addr, kind, id)] true)).
      2:{ unfold w_bind. destruct (read_script _ _ _ w) as [[? ?]|e|p|]; reflexivity. }
      apply (sight_ok _ (VScript addr) _ _ (fun id => [(addr, kind, id)]));
        [apply read_script_fresh|done|done|done|cbn; lia| |done].
      intros id w' Hv. apply Forall_singleton. split; [done|]. by rewrite Eo, Es.
    + replace (w_bind _ _ w) with
        ('(id, w1) ← read_string mem reg addr w; Ok (id, registered w1 addr id [] false)).
      2:{ unfold w_bind. destruct (read_string _ _ _ w) as [[? ?]|e|p|]; reflexivity. }
      apply (sight_ok _ VString _ _ (fun id => []));
        [apply read_string_fresh|done|done|done|cbn; lia|constructor|done].
    + replace (w_bind _ _ w) with
        ('(id, w1) ← read_scope_shallow mem reg addr w;
         Ok (id, registered w1 addr id [(addr, kind, id)] false)).
      2:{ unfold w_bind. destruct (read_scope_shallow _ _ _ w) as [[? ?]|e|p|]; reflexivity. }
      apply (sight_ok _ VScope _ _ (fun id => [(addr, kind, id)]));
        [apply read_scope_fresh|done|done|done|cbn; lia| |done].
      intros id w' Hv. apply Forall_singleton. split; [done|]. by rewrite Eo, Es.
Qed.

Lemma read_value_ok (bits : Z) (w : Walker) :
  inv w -> ok w (read_value mem reg bits w) (fun id w' => id_ok (length (objs w')) id).
Proof.
  intros Hi.
  assert (forall w, inv w -> ok w (w_ret SOURCE_OTHER w) (fun id w' => id_ok (length (objs w')) id))
    as Hother by (intros w2 Hi2; apply ok_ret; [done|by left]).
  assert (forall p, ok w (w_push (SPrimitive p) w) (fun id w' => id_ok (length (objs w')) id))
    as Hprim.
  { intros p. eapply ok_weaken; [by apply push_ok|]. intros id w' _ _ (Hv & _). right.
    by apply has_variant_lt in Hv. }
  unfold read_value.
  destruct (_ =? _). { destruct (reg_heap reg !! _); [apply add_ok; [apply as_u32_u32|done]|by apply Hother]. }
  destruct (_ =? _).
  { apply ok_lift; [done|read_returns|]. intros flags _. destruct (_ =? 0); [by apply Hother|].
    apply add_ok; [apply as_u32_u32|done]. }
  destruct (_ =? _); [apply Hprim|]. destruct (_ =? _); [apply Hprim|].
  destruct (_ =? _); [apply Hprim|]. destruct (_ =? _); [apply Hprim|].
  destruct (_ =? _).
  { unfold w_bind at 1, w_get. cbn [mbind res_bind].
    destruct (w_dedup w !! as_u32 bits) as [id|] eqn:Ed.
    { apply ok_ret; [done|]. right. by apply (iv_dedup w Hi) in Ed as [_ ?]. }
    replace (w_bind _ _ w) with
      ('(id, w1) ← w_push SSymbol w; Ok (id, registered w1 (as_u32 bits) id [] false)).
    2:{ unfold w_bind. destruct (w_push _ w) as [[? ?]|e|p|]; reflexivity. }
    apply (sight_ok _ VSymbol _ _ (fun id => []));
      [by apply (fresh_push SSymbol)|done|apply as_u32_u32|done|cbn; lia|constructor|done]. }
  destruct (_ <? _); [apply Hprim|by apply Hother].
Qed.

(** ** Updates through the reference *)

Lemma update_object_ok (id : Z) (f : ObjectData -> ObjectData) (w : Walker) :
  inv w -> has_variant w id VObject ->
  (forall d, Forall (id_ok (length (objs w))) (obj_refs (SObject d)) ->
     Forall (id_ok (length (objs w))) (obj_refs (SObject (f d)))) ->
  ok w (w_update id (as_object_mut f) w) (fun _ _ => True).
Proof.
  intros Hi Hv Hf. eapply update_ok; [done|exact Hv|]. intros [] [=]. eexists. split_and!; [reflexivity|done|auto].
Qed.

Lemma update_script_ok (id a : Z) (f : Script -> Script) (w : Walker) :
  inv w -> has_variant w id (VScript a) -> (forall d, sc_addr (f d) = sc_addr d) ->
  (forall d, Forall (id_ok (length (objs w))) (obj_refs (SScript d)) ->
     Forall (id_ok (length (objs w))) (obj_refs (SScript (f d)))) ->
  ok w (w_update id (as_script_mut f) w) (fun _ _ => True).
Proof.
  intros Hi Hv Ha Hf. eapply update_ok; [done|exact Hv|]. intros [] [= <-].
  eexists. split_and!; [reflexivity|cbn; by rewrite Ha|auto].
Qed.

Lemma update_scope_ok (id : Z) (f : ScopeData -> ScopeData) (w : Walker) :
  inv w -> has_variant w id VScope ->
  (forall d, Forall (id_ok (length (objs w))) (obj_refs (SScope d)) ->
     Forall (id_ok (length (objs w))) (obj_refs (SScope (f d)))) ->
  ok w (w_update id (as_scope_mut f) w) (fun _ _ => True).
Proof.
  intros Hi Hv Hf. eapply update_ok; [done|exact Hv|]. intros [] [=]. eexists. split_and!; [reflexivity|done|auto].
Qed.

(** The references after an update are the old ones and the new id. *)
Ltac refs_grow :=
  let d := fresh "d" in intros d; destruct d; unfold obj_refs; cbn;
  rewrite ?fmap_app; cbn [fmap list_fmap fst snd opt_ids app];
  repeat first [ rewrite list.Forall_app | rewrite list.Forall_cons | rewrite list.Forall_nil ];
  intuition.

Lemma id_ok_ext (w w' : Walker) (id : Z) :
  ext w w' -> id_ok (length (objs w)) id -> id_ok (length (objs w')) id.
Proof. intros He. apply id_ok_mono, He. Qed.

(** One object field filled from an id just obtained. *)
Lemma then_update_object (p : wm Z) (f : Z -> ObjectData -> ObjectData) (id : Z) (w : Walker) :
  inv w -> has_variant w id VObject ->
  ok w (p w) (fun i w' => id_ok (length (objs w')) i) ->
  (forall n i d, id_ok n i -> Forall (id_ok n) (obj_refs (SObject d)) ->
     Forall (id_ok n) (obj_refs (SObject (f i d)))) ->
  ok w (w_bind p (fun i => w_update id (as_object_mut (f i))) w) (fun _ _ => True).
Proof.
  intros Hi Hv Hp Hf. eapply ok_bind; [exact Hp|]. intros i w' Hi' He Hid.
  apply update_object_ok; [done|by eapply has_variant_ext|]. intros d. by apply Hf.
Qed.

Lemma visit_heap_entry_ok (addr id c : Z) (w : Walker) :
  inv w -> has_variant w id VObject ->
  ok w (visit_heap_entry mem reg addr id c w) (fun _ _ => True).
Proof.
  intros Hi Hv. unfold visit_heap_entry, heap_entry.
  destruct (reg_heap reg !! addr) as [e|] eqn:Ee; [|by apply ok_ret].
  destruct (_ =? _); [|by apply ok_ret].
  destruct (rw_heap reg Hreg addr e Ee) as [Hproto Hprops]. rewrite list.Forall_forall in Hprops.
  eapply ok_bind; [apply update_object_ok; [done|done|refs_grow]|]. intros _ w1 Hi1 He1 _.
  eapply (ok_bind (w_object_addr_insert id addr) _ _ (fun _ _ => True)).
  { cbn. split_and!; [|split; [done|done|reflexivity|reflexivity|reflexivity]|done]. destruct Hi1 as [I1 I2 I3 I4 I5]. by split. }
  intros _ w2 Hi2 He2 _.
  assert (has_variant w2 id VObject) as Hv2 by (apply (has_variant_ext w1 w2); [done|]; by apply (has_variant_ext w w1)).
  eapply (ok_bind _ _ _ (fun _ _ => True)).
  { destruct (_ && _); [|by apply ok_ret]. eapply ok_bind; [by apply add_ok|].
    intros pid w3 Hi3 He3 Hpid. destruct (negb _); [|by apply ok_ret].
    apply update_object_ok; [done|by eapply has_variant_ext|refs_grow]. }
  intros _ w3 Hi3 He3 _. assert (has_variant w3 id VObject) as Hv3 by (by eapply has_variant_ext).
  eapply ok_bind.
  { apply (ok_for _ _ _ (fun w => has_variant w id VObject)); [|done|done|].
    - intros ? ? He. by apply has_variant_ext.
    - intros p w4 Hp Hi4 Hv4. eapply ok_bind; [apply add_ok; [by apply Hprops|done]|].
      intros nid w5 Hi5 He5 Hnid. eapply ok_bind; [by apply read_value_ok|].
      intros vid w6 Hi6 He6 Hvid. pose proof (id_ok_ext w5 w6 nid He6 Hnid).
      apply update_object_ok; [done| |refs_grow].
      apply (has_variant_ext w5 w6); [done|]. by apply (has_variant_ext w4 w5). }
  intros _ w4 Hi4 He4 _. eapply ok_bind; [|intros _ w5 Hi5 _ _; by apply ok_ret].
  apply (ok_for _ _ _ (fun w => has_variant w id VObject)); [|done|by eapply has_variant_ext|].
  - intros ? ? He. by apply has_variant_ext.
  - intros p w5 Hp Hi5 Hv5. apply (then_update_object _ (fun vid => push_element (fst p, vid)));
      [done|done|by apply read_value_ok|].
    intros n i d Hni. revert d. refs_grow.
Qed.

Lemma visit_function_ok (addr id : Z) (w : Walker) :
  inv w -> has_variant w id VObject ->
  ok w (visit_function mem reg addr id w) (fun _ _ => True).
Proof.
  intros Hi Hv. unfold visit_function. apply ok_lift; [done|apply fun_flags_returns|]. intros fa _.
  cbv zeta. destruct (negb _); [exact I|].
  apply ok_lift; [done|read_returns|]. intros script Hscript.
  assert (in_u 32 script) by (word_of_read; done).
  eapply (ok_bind _ _ _ (fun _ _ => True)).
  { destruct (_ && _); [|by apply ok_ret].
    apply (then_update_object _ (fun sid => set_script sid)); [done|done|by apply add_ok|].
    intros n i d Hni. revert d. refs_grow. }
  intros _ w1 Hi1 He1 _. assert (has_variant w1 id VObject) as Hv1 by (by eapply has_variant_ext).
  destruct (_ =? 0); [|by apply ok_ret].
  apply ok_lift; [done|read_returns|]. intros slot _.
  destruct (_ =? _); [|by apply ok_ret].
  apply (then_update_object _ (fun nid => set_name nid)); [done|done| |].
  - apply add_ok; [apply as_u32_u32|done].
  - intros n i d Hni. revert d. refs_grow.
Qed.

Lemma clasp_returns (a : Z) : returns (clasp mem reg a).
Proof.
  unfold clasp. apply bind_returns; [read_returns|]. intros sh Hsh.
  apply bind_returns; [read_returns|]. intros b Hb. read_returns.
Qed.

Lemma visit_object_ok (addr id : Z) (w : Walker) :
  inv w -> has_variant w id VObject ->
  ok w (visit_object mem reg addr id w) (fun _ _ => True).
Proof.
  intros Hi Hv. unfold visit_object. apply ok_lift; [done|apply clasp_returns|]. intros c _.
  cbv zeta. eapply ok_bind; [apply update_object_ok; [done|done|refs_grow]|].
  intros _ w1 Hi1 He1 _. assert (has_variant w1 id VObject) as Hv1 by (by eapply has_variant_ext).
  eapply (ok_bind _ _ _ (fun _ _ => True)).
  { destruct (_ || _); [by apply visit_function_ok|by apply ok_ret]. }
  intros _ w2 Hi2 He2 _. assert (has_variant w2 id VObject) as Hv2 by (by eapply has_variant_ext).
  eapply ok_bind; [by apply visit_heap_entry_ok|]. intros t w3 Hi3 He3 _.
  destruct (_ && _); [|by apply ok_ret].
  apply update_object_ok; [done|by eapply has_variant_ext|refs_grow].
Qed.

(** ** Loops over guest memory *)

Lemma read_u32_bound (a v : Z) :
  in_u 32 a -> read_u32 mem a = Ok v -> in_u 32 v /\ a + 4 <= 2 ^ 32 - 16.
Proof.
  intros Ha Hv. destruct (read_u32_spec mem a Ha) as [_ Hr]. destruct (Hr v Hv) as [? ?].
  split; [done|lia].
Qed.

Lemma u32_add_assoc (a b c : Z) : u32_add a (u32_add b c) = u32_add (u32_add a b) c.
Proof.
  unfold u32_add, wrap_u. rewrite Z.add_mod_idemp_r, Z.add_mod_idemp_l by done. f_equal. lia.
Qed.

Lemma u32_add_exact (a b : Z) : 0 <= a -> 0 <= b -> a + b < 2 ^ 32 -> u32_add a b = a + b.
Proof. intros. apply wrap_u_small. unfold in_u. lia. Qed.

Lemma resume_loop_returns (n : nat) (i off end_ : Z) (acc : list Z) :
  2 ^ 32 - u32_add i off < Z.of_nat n -> returns (resume_loop mem n i off end_ acc).
Proof.
  revert off acc. induction n as [|n IH]; intros off acc Hn.
  { pose proof (u32_add_u32 i off) as [? ?]. lia. }
  cbn [resume_loop]. destruct (off <? end_); [|exact I].
  pose proof (u32_add_u32 i off) as Ha.
  apply bind_returns; [by apply read_u32_returns|]. intros pc Hpc.
  destruct (read_u32_bound _ _ Ha Hpc) as [_ Hb].
  apply IH. rewrite u32_add_assoc. unfold in_u in Ha. rewrite u32_add_exact; lia.
Qed.

Lemma try_note_kind_returns (raw : Z) : returns (try_note_kind raw).
Proof.
  unfold try_note_kind. destruct raw as [|p|p]; try exact I.
  do 3 (destruct p as [p|p|]; try exact I).
Qed.

(** The words of a note: read at an offset of an address just read. *)
Lemma word_at (a k v : Z) :
  in_u 32 a -> 0 <= k <= 12 -> a + k < 2 ^ 32 -> read_u32 mem (u32_add a k) = Ok v ->
  a + k + 4 <= 2 ^ 32 - 16.
Proof.
  intros Ha Hk Hs Hv. unfold in_u in Ha. rewrite u32_add_exact in Hv by lia.
  apply read_u32_bound in Hv; [lia|unfold in_u; lia].
Qed.

Lemma try_notes_loop_ok (n : nat) (id a i off end_ : Z) (w : Walker) :
  inv w -> has_variant w id (VScript a) -> 2 ^ 32 - u32_add i off < Z.of_nat n ->
  ok w (try_notes_loop mem n id i off end_ w) (fun _ _ => True).
Proof.
  revert off w. induction n as [|n IH]; intros off w Hi Hv Hn.
  { pose proof (u32_add_u32 i off) as [? ?]. lia. }
  cbn [try_notes_loop]. destruct (off <? end_); [|by apply ok_ret].
  pose proof (u32_add_u32 i off) as Ha.
  apply ok_lift; [done|by apply read_u32_returns|]. intros kr Hkr.
  apply ok_lift; [done|apply try_note_kind_returns|]. intros k _.
  apply ok_lift; [done|read_returns|]. intros depth _.
  apply ok_lift; [done|read_returns|]. intros start _.
  apply ok_lift; [done|read_returns|]. intros len_ _.
  destruct (read_u32_bound _ _ Ha Hkr) as [_ Hb].
  eapply ok_bind; [eapply update_script_ok; [done|exact Hv|done|refs_grow]|].
  intros _ w1 Hi1 He1 _. apply IH; [done|by eapply has_variant_ext|].
  rewrite u32_add_assoc. unfold in_u in Ha. rewrite u32_add_exact; lia.
Qed.

Lemma scope_notes_loop_ok (n : nat) (id a i off end_ : Z) (w : Walker) :
  inv w -> has_variant w id (VScript a) -> 2 ^ 32 - u32_add i off < Z.of_nat n ->
  ok w (scope_notes_loop mem n id i off end_ w) (fun _ _ => True).
Proof.
  revert off w. induction n as [|n IH]; intros off w Hi Hv Hn.
  { pose proof (u32_add_u32 i off) as [? ?]. lia. }
  cbn [scope_notes_loop]. destruct (off <? end_); [|by apply ok_ret].
  pose proof (u32_add_u32 i off) as Ha.
  apply ok_lift; [done|by apply read_u32_returns|]. intros gi Hgi.
  apply ok_lift; [done|read_returns|]. intros start _.
  apply ok_lift; [done|read_returns|]. intros len_ _.
  destruct (read_u32_bound _ _ Ha Hgi) as [_ Hb].
  eapply ok_bind; [eapply update_script_ok; [done|exact Hv|done|refs_grow]|].
  intros _ w1 Hi1 He1 _. apply IH; [done|by eapply has_variant_ext|].
  rewrite u32_add_assoc. unfold in_u in Ha. rewrite u32_add_exact; lia.
Qed.

Lemma isd_spans_returns (i : Z) : returns (isd_optional_spans mem reg i).
Proof.
  unfold isd_optional_spans. apply bind_returns; [read_returns|]. intros flags _.
  apply bind_returns; [read_returns|]. intros opt _. cbv zeta.
  do 3 (apply bind_returns; [destruct (_ =? 0); [exact I|read_returns]|]; intros ? _). exact I.
Qed.

Lemma thing_addrs_spec (n : nat) (base i : Z) :
  returns (thing_addrs mem reg base i n) /\
  forall l, thing_addrs mem reg base i n = Ok l -> Forall (in_u 32) l.
Proof.
  revert i. induction n as [|n IH]; intros i; cbn [thing_addrs].
  { split; [exact I|]. intros l [= <-]. constructor. }
  pose proof (u32_add_u32 base (u32_mul 4 i)) as Ha.
  pose proof (read_u32_returns mem _ Ha) as Hr. pose proof (fun v => read_u32_range mem _ v Ha) as Hu.
  destruct (read_u32 mem _) as [word| | |]; try done; cbn [mbind res_bind].
  destruct (IH (i + 1)) as [IH1 IH2].
  destruct (thing_addrs mem reg base (i + 1) n) as [rest| | |]; try done; cbn [mbind res_bind].
  split; [exact I|]. intros l [= <-]. constructor; [|by apply IH2].
  destruct (Hu word eq_refl) as [Hw1 Hw2].
  pose proof (land_bound word (not_u 32 (get (reg_layout reg) gcCellPtrKindMask)) Hw1).
  unfold in_u. lia.
Qed.

(** The fuel covers every loop over 32-bit addresses. *)
Lemma fuel_covers (i off : Z) : 2 ^ 32 - u32_add i off < Z.of_nat fuel.
Proof. pose proof (u32_add_u32 i off) as [? ?]. lia. Qed.

Lemma visit_script_ok (addr id a : Z) (w : Walker) :
  inv w -> has_variant w id (VScript a) ->
  ok w (visit_script mem reg fuel addr id w) (fun _ _ => True).
Proof.
  intros Hi Hv. unfold visit_script. apply ok_lift; [done|apply isd_returns|]. intros i _.
  apply ok_lift; [done|apply isd_spans_returns|]. intros [[[rs re] se] te] _. cbv beta iota.
  apply ok_lift; [done|apply resume_loop_returns, fuel_covers|]. intros resume _.
  eapply ok_bind; [eapply update_script_ok; [done|exact Hv|done|refs_grow]|].
  intros _ w1 Hi1 He1 _. pose proof (has_variant_ext w w1 id _ He1 Hv) as Hv1.
  apply ok_lift; [done|read_returns|]. intros psd _.
  destruct (script_gcthing_kinds (reg_digest reg) !! addr) as [kinds|]; [|exact I].
  apply ok_lift; [done|destruct (negb _); [read_returns|exact I]|]. intros ng _.
  destruct (negb _); [exact I|]. cbv zeta.
  destruct (thing_addrs_spec (length kinds) (u32_add psd (get (reg_layout reg) privateScriptDataGCThings)) 0)
    as [Ht1 Ht2].
  apply ok_lift; [done|done|]. intros things Hthings. specialize (Ht2 things Hthings).
  rewrite list.Forall_forall in Ht2.
  eapply ok_bind.
  { apply (ok_for _ _ _ (fun w => has_variant w id (VScript a))); [|done|done|].
    - intros ? ? He. by apply has_variant_ext.
    - intros [t k] w2 Htk Hi2 Hv2. cbn [fst snd].
      eapply (ok_bind _ _ _ (fun tid w' => id_ok (length (objs w')) tid)).
      { destruct (k =? 0xff); [apply ok_ret; [done|by left]|]. apply add_ok; [|done].
        apply Ht2. by apply elem_of_zip_l in Htk. }
      intros tid w3 Hi3 He3 Htid. pose proof (has_variant_ext w2 w3 id _ He3 Hv2).
      eapply update_script_ok; [done|eassumption|done|refs_grow]. }
  intros _ w2 Hi2 He2 _. pose proof (has_variant_ext w1 w2 id _ He2 Hv1) as Hv2.
  eapply ok_bind; [eapply try_notes_loop_ok; [done|exact Hv2|apply fuel_covers]|].
  intros _ w3 Hi3 He3 _. pose proof (has_variant_ext w2 w3 id _ He3 Hv2) as Hv3.
  eapply ok_bind; [eapply scope_notes_loop_ok; [done|exact Hv3|apply fuel_covers]|].
  intros _ w4 Hi4 He4 _. pose proof (has_variant_ext w3 w4 id _ He4 Hv3) as Hv4.
  apply ok_lift; [done|read_returns|]. intros bi _.
  destruct (things !! Z.to_nat bi) as [ba|] eqn:Eb; [|exact I].
  eapply ok_bind; [apply add_ok; [apply Ht2; by eapply list_elem_of_lookup_2|done]|].
  intros bid w5 Hi5 He5 Hbid.
  eapply update_script_ok; [done|by eapply has_variant_ext|done|refs_grow].
Qed.

Lemma visit_scope_ok (addr id : Z) (w : Walker) :
  inv w -> has_variant w id VScope ->
  ok w (visit_scope mem reg addr id w) (fun _ _ => True).
Proof.
  intros Hi Hv. unfold visit_scope. apply ok_lift; [done|read_returns|]. intros en Hen.
  assert (in_u 32 en) by (word_of_read; done).
  eapply (ok_bind _ _ _ (fun _ _ => True)).
  { destruct (negb _); [|by apply ok_ret]. eapply ok_bind; [by apply add_ok|].
    intros eid w1 Hi1 He1 Heid. apply update_scope_ok; [done|by eapply has_variant_ext|refs_grow]. }
  intros _ w1 Hi1 He1 _. pose proof (has_variant_ext w w1 id _ He1 Hv) as Hv1.
  destruct (scope_bindings (reg_digest reg) !! addr) as [bs|] eqn:Eb; [|exact I].
  pose proof (rw_bindings reg Hreg addr bs Eb) as Hbs. rewrite list.Forall_forall in Hbs.
  eapply ok_bind.
  { apply (ok_for _ _ _ (fun w => has_variant w id VScope)); [|done|done|].
    - intros ? ? He. by apply has_variant_ext.
    - intros b w2 Hb Hi2 Hv2. destruct (_ =? 0); [by apply ok_ret|].
      eapply ok_bind; [apply add_ok; [by apply Hbs|done]|]. intros nid w3 Hi3 He3 Hnid.
      apply update_scope_ok; [done|by eapply has_variant_ext|refs_grow]. }
  intros _ w2 Hi2 He2 _. pose proof (has_variant_ext w1 w2 id _ He2 Hv1) as Hv2.
  eapply (ok_bind _ _ _ (fun _ _ => True)).
  { destruct (reg_env_slots reg !! addr) as [slots|]; [|by apply ok_ret].
    apply (ok_for _ _ _ (fun w => has_variant w id VScope)); [|done|done|].
    - intros ? ? He. by apply has_variant_ext.
    - intros sv w3 _ Hi3 Hv3. eapply ok_bind; [by apply read_value_ok|].
      intros vid w4 Hi4 He4 Hvid. destruct (_ =? _); [by apply ok_ret|].
      apply update_scope_ok; [done|by eapply has_variant_ext|refs_grow]. }
  intros _ w3 Hi3 He3 _. pose proof (has_variant_ext w2 w3 id _ He3 Hv2) as Hv3.
  apply ok_lift; [done|read_returns|]. intros k _.
  destruct (_ || _); [|by apply ok_ret]. apply update_scope_ok; [done|done|refs_grow].
Qed.

(** ** The worklist loop *)

Lemma visit_ok (addr kind id : Z) (w : Walker) :
  inv w -> work_ok w (addr, kind, id) ->
  ok w (visit mem reg fuel addr kind id w) (fun _ _ => True).
Proof.
  intros Hi [Ha Hv]. unfold visit.
  change (as_u8 (get (reg_layout reg) traceKindObject)) with kind_object.
  change (as_u8 (get (reg_layout reg) traceKindScript)) with kind_script.
  change (as_u8 (get (reg_layout reg) traceKindScope)) with kind_scope.
  destruct (kind_object =? kind); [by apply visit_object_ok|].
  destruct (kind_script =? kind); [by eapply visit_script_ok|].
  destruct (kind_scope =? kind); [by apply visit_scope_ok|by apply ok_ret].
Qed.

Lemma size_words (m : gmap Z Z) (n : Z) :
  0 <= n -> (forall a i, m !! a = Some i -> 0 <= a < n) -> Z.of_nat (size m) <= n.
Proof.
  intros Hn Hm. rewrite <- size_dom.
  assert (dom m ⊆ (list_to_set (seqZ 0 n) : gset Z)) as Hs.
  { intros a Ha. apply elem_of_dom in Ha as [i Hi]. apply Hm in Hi.
    apply elem_of_list_to_set, elem_of_seqZ. lia. }
  apply subseteq_size in Hs. rewrite size_list_to_set in Hs by apply NoDup_seqZ.
  rewrite length_seqZ in Hs. lia.
Qed.

Lemma mu_nonneg (w : Walker) : inv w -> Z.of_nat (length (w_worklist w)) <= mu w.
Proof.
  intros Hi. unfold mu. pose proof (size_words (w_dedup w) (2 ^ 32)).
  assert (Z.of_nat (size (w_dedup w)) <= 2 ^ 32); [|lia]. apply size_words; [lia|].
  intros a i Ha. by apply (iv_dedup w Hi) in Ha as [? _].
Qed.

Lemma drain_ok (steps : nat) (w : Walker) :
  inv w -> mu w < Z.of_nat steps ->
  ok w (drain mem reg steps fuel w) (fun _ w' => w_worklist w' = []).
Proof.
  revert w. induction steps as [|n IH]; intros w Hi Hn.
  { pose proof (mu_nonneg w Hi). lia. }
  cbn [drain]. unfold w_bind at 1, pop_work. destruct (w_worklist w) as [|[[addr kind] id] wl] eqn:Ew.
  { cbn. split_and!; [done|apply ext_refl|done]. }
  cbn [mbind res_bind]. pose proof (iv_work w Hi) as Hw. rewrite Ew in Hw.
  apply list.Forall_cons in Hw as [Hwo Hwl].
  set (w1 := mkWalker _ _ wl _ _).
  assert (inv w1) as Hi1 by (destruct Hi as [I1 I2 I3 I4 I5]; by split).
  assert (mu w1 = mu w - 1) as Hmu by (unfold mu; cbn [w1 w_worklist w_dedup]; rewrite Ew; cbn [length]; lia).
  assert (ext w w1) as He1 by (split; [done|done|reflexivity|lia|reflexivity]).
  pose proof (visit_ok addr kind id w1 Hi1 Hwo) as Hvis. unfold w_bind.
  destruct (visit mem reg fuel addr kind id w1) as [[[] w2]|e|[]|]; cbn in Hvis; try done.
  destruct Hvis as (Hi2 & He2 & _). cbn [mbind res_bind].
  specialize (IH w2 Hi2). pose proof (ex_mu _ _ He2).
  specialize (IH ltac:(lia)). unfold ok in *.
  destruct (drain mem reg n fuel w2) as [[[] w3]|e|[]|]; try done.
  destruct IH as (Hi3 & He3 & Hw3). split_and!; [done| |done].
  eapply ext_trans; [exact He1|]. by eapply ext_trans.
Qed.

Definition max_steps : nat := S (Z.to_nat (2 ^ 32)).

Lemma walk_roots_ok (steps : nat) (roots : list Z) (w : Walker) :
  inv w -> w_worklist w = [] -> Forall (in_u 32) roots -> 2 ^ 32 + 1 < Z.of_nat steps ->
  ok w (walk_roots mem reg steps fuel roots w) (fun ids w' =>
    w_worklist w' = [] /\ length ids = length roots /\ Forall (id_ok (length (objs w'))) ids).
Proof.
  revert w. induction roots as [|r roots IH]; intros w Hi Hw Hr Hs; cbn [walk_roots].
  { apply ok_ret; [done|]. done. }
  apply list.Forall_cons in Hr as [Hr1 Hr2].
  eapply ok_bind; [by apply add_ok|]. intros id w1 Hi1 He1 Hid.
  assert (mu w <= 2 ^ 32) as Hmu by (unfold mu; rewrite Hw; cbn; lia).
  eapply ok_bind; [apply drain_ok; [done|pose proof (ex_mu _ _ He1); lia]|].
  intros [] w2 Hi2 He2 Hw2. cbv beta in Hw2.
  eapply ok_bind; [by apply IH|]. intros ids w3 Hi3 He3 (Hw3 & Hl & Hids).
  apply ok_ret; [done|]. split_and!; [done|cbn; lia|]. constructor; [|done].
  eapply id_ok_ext; [exact He3|]. by eapply id_ok_ext.
Qed.

(** A finished walk: every id held anywhere names an object, cells and
    object ids correspond one to one, and a script id's recorded address is
    the address of that script. *)
Record graph_ok (out : WalkOutput) : Prop := {
  go_refs : forall i o, src_objects (wo_source out) !! i = Some o ->
    Forall (id_ok (length (src_objects (wo_source out)))) (obj_refs o);
  go_roots : length (wo_root_ids out) = length (reg_roots reg) /\
    Forall (id_ok (length (src_objects (wo_source out)))) (wo_root_ids out);
  go_global : forall g, src_global_object (wo_source out) = Some g ->
    0 <= g < Z.of_nat (length (src_objects (wo_source out)));
  go_script : forall id a, wo_script_addr out !! id = Some a ->
    exists s, src_objects (wo_source out) !! Z.to_nat id = Some (SScript s) /\ sc_addr s = a;
  go_script_inj : forall i j a, wo_script_addr out !! i = Some a ->
    wo_script_addr out !! j = Some a -> i = j }.

Lemma start_inv : inv walk_start.
Proof.
  split; [| | |constructor|]; intros *; cbn;
    rewrite ?lookup_empty, ?(lookup_nil (A := SourceObject)); discriminate.
Qed.

Lemma graph_of_inv (w : Walker) (ids : list Z) :
  inv w -> length ids = length (reg_roots reg) -> Forall (id_ok (length (objs w))) ids ->
  (forall g, src_global_object (w_source w) = Some g -> 0 <= g < Z.of_nat (length (objs w))) ->
  graph_ok (mkWalkOutput (w_source w) ids (w_script_addr w) (w_object_addr w)).
Proof.
  intros Hi Hl Hids Hg. split; cbn [wo_source wo_root_ids wo_script_addr].
  - apply (iv_refs w Hi).
  - done.
  - exact Hg.
  - intros id a Ha. destruct (iv_script w Hi id a Ha) as [(o & Ho & Hv & _) _].
    destruct o; try discriminate Hv. injection Hv as Hv. eauto.
  - intros i j a Hia Hja. destruct (iv_script w Hi i a Hia) as [_ Hd1].
    destruct (iv_script w Hi j a Hja) as [_ Hd2]. congruence.
Qed.

Lemma walk_ok (steps : nat) :
  2 ^ 32 + 1 < Z.of_nat steps ->
  match walk mem reg steps fuel with
  | Ok out => graph_ok out
  | Err _ | Panic PIdSpace => True
  | _ => False
  end.
Proof.
  intros Hs. unfold walk.
  pose proof (walk_roots_ok steps (reg_roots reg) walk_start start_inv eq_refl (rw_roots reg Hreg) Hs) as Hr.
  destruct (walk_roots _ _ _ _ _ _) as [[ids w]|e|[]|]; cbn [ok] in Hr; try done.
  destruct Hr as (Hi & He & Hw & Hl & Hids). cbn [mbind res_bind].
  assert (src_global_object (w_source w) = None) as Hg by (rewrite (ex_global _ _ He); done).
  destruct (negb (reg_global_object reg =? 0)).
  2:{ cbn [mbind res_bind]. apply graph_of_inv; [done|done|done|]. by rewrite Hg. }
  pose proof (add_ok (reg_global_object reg) kind_object w (rw_global reg Hreg) Hi) as Ha.
  change (as_u8 (get (reg_layout reg) traceKindObject)) with kind_object.
  destruct (add mem reg (reg_global_object reg) kind_object w) as [[id w1]|e|[]|]; cbn [ok] in Ha; try done.
  destruct Ha as (Hi1 & He1 & Hid). cbn [mbind res_bind].
  pose proof (drain_ok steps w1 Hi1) as Hd.
  assert (mu w1 < Z.of_nat steps) as Hmu.
  { pose proof (ex_mu _ _ He1). unfold mu at 2 in H1. rewrite Hw in H1. cbn [length] in H1. lia. }
  specialize (Hd Hmu). destruct (drain _ _ _ _ w1) as [[[] w2]|e|[]|]; cbn [ok] in Hd; try done.
  destruct Hd as (Hi2 & He2 & Hw2). cbn [mbind res_bind].
  assert (Forall (id_ok (length (objs w2))) ids) as Hids2.
  { eapply list.Forall_impl; [exact Hids|]. intros i Hii. eapply id_ok_ext; [exact He2|]. by eapply id_ok_ext. }
  assert (src_global_object (w_source w2) = None) as Hg2
    by (rewrite (ex_global _ _ He2), (ex_global _ _ He1); done).
  destruct (Z.eqb_spec id SOURCE_OTHER) as [E|E]; cbn [negb].
  { apply graph_of_inv; [done|done|done|]. by rewrite Hg2. }
  assert (inv (set_global w2 id)) as Hi3 by (destruct Hi2 as [I1 I2 I3 I4 I5]; by split).
  apply (graph_of_inv (set_global w2 id)); [done|done|done|].
  intros g [= <-]. change (objs (set_global w2 id)) with (objs w2).
  destruct (id_ok_ext w1 w2 id He2 Hid); [done|lia].
Qed.
End Sound.

(** ** From the registration block to the graph *)

Lemma registration_words {M : Type} `{MemLaws M} (mem : M) (addr : Z) (r : Registration) :
  registration_at mem addr r -> reg_words r.
Proof.
  intros Hr. destruct (ra_words mem addr r Hr) as (Hroots & Hg & Hh & Hb). split; [done|done| |].
  - intros a e E. exact (map_Forall_lookup_1 _ _ _ _ Hh E).
  - intros a bs E. exact (map_Forall_lookup_1 _ _ _ _ Hb E).
Qed.
