(* ===== verification/Bytecode.v ===== *)
(** * Bytecode: the opcode visitor

    [compiler/src/bytecode.rs]: the parser of a script's bytecode, the
    dispatch of every opcode to its visitor method with its decoded operands,
    and the try notes surfaced at the offsets they start at. The opcodes are
    the arms of the dispatch, in its order; the engine's table behind them
    (byte values, lengths, stack uses), which the build generates from the
    engine's header, is the parameter [OpTable]. *)

From S2P Require Import Prelude Mem Source.

(** ** The parser *)

Record BytecodeParser := mkParser {
  bp_pc : Z;
  bp_data : list Z;
  bp_try_notes : list TryNote;
  bp_try_note_idx : nat;
  bp_resume_offsets : list Z }.

(** [sort_by_key(|n| n.start)]: the stable sort. *)
Fixpoint insert_note (n : TryNote) (l : list TryNote) : list TryNote :=
  match l with
  | [] => [n]
  | m :: l => if tn_start n <=? tn_start m then n :: m :: l else m :: insert_note n l
  end.

Definition sort_notes (l : list TryNote) : list TryNote := foldr insert_note [] l.

(** [Script::parser]. *)
Definition parser (s : Script) : BytecodeParser :=
  mkParser 0 (sc_bytecode s) (sort_notes (sc_try_notes s)) 0 (sc_resume_offsets s).

Definition remaining (p : BytecodeParser) : nat := length (bp_data p).

(** A read that may run out of bytes. *)
Definition bread (A : Type) : Type := BytecodeParser -> option (A * BytecodeParser).
Definition bread_bind {A B} (r : bread A) (f : A -> bread B) : bread B := fun p =>
  match r p with Some (a, p) => f a p | None => None end.
Definition bread_ret {A} (a : A) : bread A := fun p => Some (a, p).

Declare Scope bytecode_scope.
Notation "'let?' x := r 'in' k" := (bread_bind r (fun x => k))
  (at level 200, x binder, r at level 100, k at level 200, right associativity) : bytecode_scope.
#[local] Open Scope bytecode_scope.

Definition read_byte : bread Z := fun p =>
  match bp_data p with
  | [] => None
  | byte :: data =>
      Some (byte, mkParser (u32_add (bp_pc p) 1) data (bp_try_notes p) (bp_try_note_idx p)
                    (bp_resume_offsets p))
  end.

Definition next_uint8 : bread Z := read_byte.

Definition next_uint16 : bread Z :=
  let? a := read_byte in let? b := read_byte in
  bread_ret (Z.lor a (Z.shiftl b 8)).

Definition peek_uint16 (p : BytecodeParser) : option Z :=
  match bp_data p with b0 :: b1 :: _ => Some (le_bytes [b0; b1]) | _ => None end.

Definition next_uint24 : bread Z :=
  let? a := read_byte in let? b := read_byte in let? c := read_byte in
  bread_ret (Z.lor (Z.lor a (Z.shiftl b 8)) (Z.shiftl c 16)).

Definition next_uint32 : bread Z :=
  let? a := read_byte in let? b := read_byte in let? c := read_byte in let? d := read_byte in
  bread_ret (Z.lor (Z.lor (Z.lor a (Z.shiftl b 8)) (Z.shiftl c 16)) (Z.shiftl d 24)).

Definition next_uint64 : bread Z :=
  let? a := next_uint32 in let? b := next_uint32 in
  bread_ret (Z.lor a (Z.shiftl b 32)).

Definition next_int8 : bread Z := let? b := read_byte in bread_ret (wrap_s 8 b).
Definition next_int32 : bread Z := let? v := next_uint32 in bread_ret (wrap_s 32 v).

Definition advance (len : Z) : bread unit := fun p =>
  if Z.of_nat (length (bp_data p)) <? len then None
  else Some (tt, mkParser (u32_add (bp_pc p) len) (drop (Z.to_nat len) (bp_data p))
                   (bp_try_notes p) (bp_try_note_idx p) (bp_resume_offsets p)).

Definition try_note_at_pc (p : BytecodeParser) : option (TryNote * BytecodeParser) :=
  match bp_try_notes p !! bp_try_note_idx p with
  | Some n =>
      if tn_start n <=? bp_pc p
      then Some (n, mkParser (bp_pc p) (bp_data p) (bp_try_notes p) (S (bp_try_note_idx p))
                      (bp_resume_offsets p))
      else None
  | None => None
  end.

(** ** Opcodes and visitor methods *)

(** The arms of the dispatch, in source order. *)
Inductive JSOp :=
  | J_Undefined | J_Null | J_False | J_True | J_Int32 | J_Zero | J_One | J_Int8 | J_Uint16
  | J_Uint24 | J_Double | J_BigInt | J_String | J_Symbol | J_Void | J_Typeof | J_TypeofExpr
  | J_TypeofEq | J_Pos | J_Neg | J_BitNot | J_Not | J_BitOr | J_BitXor | J_BitAnd | J_Eq
  | J_Ne | J_StrictEq | J_StrictNe | J_StrictConstantEq | J_StrictConstantNe | J_Lt | J_Gt
  | J_Le | J_Ge | J_Instanceof | J_In | J_Lsh | J_Rsh | J_Ursh | J_Add | J_Sub | J_Inc
  | J_Dec | J_Mul | J_Div | J_Mod | J_Pow | J_NopIsAssignOp | J_ToPropertyKey | J_ToNumeric
  | J_ToString | J_IsNullOrUndefined | J_GlobalThis | J_NonSyntacticGlobalThis
  | J_NewTarget | J_DynamicImport | J_ImportMeta | J_NewInit | J_NewObject | J_Object
  | J_ObjWithProto | J_InitProp | J_InitHiddenProp | J_InitLockedProp | J_InitElem
  | J_InitHiddenElem | J_InitLockedElem | J_InitPropGetter | J_InitHiddenPropGetter
  | J_InitElemGetter | J_InitHiddenElemGetter | J_InitPropSetter | J_InitHiddenPropSetter
  | J_InitElemSetter | J_InitHiddenElemSetter | J_GetProp | J_GetElem | J_SetProp
  | J_StrictSetProp | J_SetElem | J_StrictSetElem | J_DelProp | J_StrictDelProp | J_DelElem
  | J_StrictDelElem | J_HasOwn | J_CheckPrivateField | J_NewPrivateName | J_SuperBase
  | J_GetPropSuper | J_GetElemSuper | J_SetPropSuper | J_StrictSetPropSuper
  | J_SetElemSuper | J_StrictSetElemSuper | J_Iter | J_MoreIter | J_IsNoIter | J_EndIter
  | J_CloseIter | J_OptimizeGetIterator | J_CheckIsObj | J_CheckObjCoercible
  | J_ToAsyncIter | J_MutateProto | J_NewArray | J_InitElemArray | J_InitElemInc | J_Hole
  | J_RegExp | J_Lambda | J_SetFunName | J_InitHomeObject | J_CheckClassHeritage
  | J_FunWithProto | J_BuiltinObject | J_Call | J_CallContent | J_CallIter
  | J_CallContentIter | J_CallIgnoresRv | J_SpreadCall | J_OptimizeSpreadCall | J_Eval
  | J_SpreadEval | J_StrictEval | J_StrictSpreadEval | J_ImplicitThis | J_CallSiteObj
  | J_IsConstructing | J_New | J_NewContent | J_SuperCall | J_SpreadNew | J_SpreadSuperCall
  | J_SuperFun | J_CheckThisReinit | J_Generator | J_InitialYield | J_AfterYield
  | J_FinalYieldRval | J_Yield | J_IsGenClosing | J_AsyncAwait | J_AsyncResolve
  | J_AsyncReject | J_Await | J_CanSkipAwait | J_MaybeExtractAwaitValue | J_ResumeKind
  | J_CheckResumeKind | J_Resume | J_JumpTarget | J_LoopHead | J_Goto | J_JumpIfFalse
  | J_JumpIfTrue | J_And | J_Or | J_Coalesce | J_Case | J_Default | J_TableSwitch
  | J_Return | J_GetRval | J_SetRval | J_RetRval | J_CheckReturn | J_Throw
  | J_ThrowWithStack | J_CreateSuppressedError | J_ThrowMsg | J_ThrowSetConst | J_Try
  | J_TryDestructuring | J_Exception | J_ExceptionAndStack | J_Finally | J_Uninitialized
  | J_InitLexical | J_InitGLexical | J_InitAliasedLexical | J_CheckLexical
  | J_CheckAliasedLexical | J_CheckThis | J_BindUnqualifiedGName | J_BindUnqualifiedName
  | J_BindName | J_GetName | J_GetGName | J_GetArg | J_GetFrameArg | J_GetLocal
  | J_ArgumentsLength | J_GetActualArg | J_GetAliasedVar | J_GetAliasedDebugVar
  | J_GetImport | J_GetBoundName | J_GetIntrinsic | J_Callee | J_EnvCallee | J_SetName
  | J_StrictSetName | J_SetGName | J_StrictSetGName | J_SetArg | J_SetLocal
  | J_SetAliasedVar | J_SetIntrinsic | J_PushLexicalEnv | J_PopLexicalEnv
  | J_DebugLeaveLexicalEnv | J_RecreateLexicalEnv | J_FreshenLexicalEnv
  | J_PushClassBodyEnv | J_PushVarEnv | J_EnterWith | J_LeaveWith | J_AddDisposable
  | J_TakeDisposeCapability | J_BindVar | J_GlobalOrEvalDeclInstantiation | J_DelName
  | J_Arguments | J_Rest | J_FunctionThis | J_Pop | J_PopN | J_Dup | J_Dup2 | J_DupAt
  | J_Swap | J_Pick | J_Unpick | J_Nop | J_Lineno | J_NopDestructuring | J_ForceInterpreter
  | J_DebugCheckSelfHosted | J_Debugger.

(** A visitor method with its arguments. *)
Inductive OpCall :=
  | V_undefined | V_null | V_false_ | V_true_ | V_int32 (value : Z) | V_zero | V_one
  | V_int8 (value : Z) | V_uint16 (value : Z) | V_uint24 (value : Z) | V_double (value : Z)
  | V_bigint (bigint_index : Z) | V_string (atom_index : Z) | V_symbol (code : Z) | V_void
  | V_typeof_ | V_typeof_expr | V_typeof_eq (operand : Z) | V_pos | V_neg | V_bit_not
  | V_not_ | V_bit_or | V_bit_xor | V_bit_and | V_eq | V_ne | V_strict_eq | V_strict_ne
  | V_strict_constant_eq (operand : Z) | V_strict_constant_ne (operand : Z) | V_lt | V_gt
  | V_le | V_ge | V_instanceof | V_in_ | V_lsh | V_rsh | V_ursh | V_add | V_sub | V_inc
  | V_dec | V_mul | V_div | V_mod_ | V_pow | V_nop_is_assign_op | V_to_property_key
  | V_to_numeric | V_to_string | V_is_null_or_undefined | V_global_this
  | V_non_syntactic_global_this | V_new_target | V_dynamic_import | V_import_meta
  | V_new_init (property_count : Z) | V_new_object (shape_index : Z)
  | V_object (object_index : Z) | V_obj_with_proto | V_init_prop (name_index : Z)
  | V_init_hidden_prop (name_index : Z) | V_init_locked_prop (name_index : Z) | V_init_elem
  | V_init_hidden_elem | V_init_locked_elem | V_init_prop_getter (name_index : Z)
  | V_init_hidden_prop_getter (name_index : Z) | V_init_elem_getter
  | V_init_hidden_elem_getter | V_init_prop_setter (name_index : Z)
  | V_init_hidden_prop_setter (name_index : Z) | V_init_elem_setter
  | V_init_hidden_elem_setter | V_get_prop (name_index : Z) | V_get_elem
  | V_set_prop (name_index : Z) | V_strict_set_prop (name_index : Z) | V_set_elem
  | V_strict_set_elem | V_del_prop (name_index : Z) | V_strict_del_prop (name_index : Z)
  | V_del_elem | V_strict_del_elem | V_has_own
  | V_check_private_field (throw_condition : Z) (msg_kind : Z)
  | V_new_private_name (name_index : Z) | V_super_base | V_get_prop_super (name_index : Z)
  | V_get_elem_super | V_set_prop_super (name_index : Z)
  | V_strict_set_prop_super (name_index : Z) | V_set_elem_super | V_strict_set_elem_super
  | V_iter | V_more_iter | V_is_no_iter | V_end_iter | V_close_iter (kind : Z)
  | V_optimize_get_iterator | V_check_is_obj (kind : Z) | V_check_obj_coercible
  | V_to_async_iter | V_mutate_proto | V_new_array (length : Z)
  | V_init_elem_array (index : Z) | V_init_elem_inc | V_hole | V_reg_exp (regexp_index : Z)
  | V_lambda (func_index : Z) | V_set_fun_name (prefix_kind : Z) | V_init_home_object
  | V_check_class_heritage | V_fun_with_proto (func_index : Z)
  | V_builtin_object (kind : Z) | V_call (argc : Z) | V_call_content (argc : Z)
  | V_call_iter (argc : Z) | V_call_content_iter (argc : Z) | V_call_ignores_rv (argc : Z)
  | V_spread_call | V_optimize_spread_call | V_eval (argc : Z) | V_spread_eval
  | V_strict_eval (argc : Z) | V_strict_spread_eval | V_implicit_this
  | V_call_site_obj (object_index : Z) | V_is_constructing | V_new_ (argc : Z)
  | V_new_content (argc : Z) | V_super_call (argc : Z) | V_spread_new | V_spread_super_call
  | V_super_fun | V_check_this_reinit | V_generator | V_initial_yield (resume_index : Z)
  | V_after_yield (ic_index : Z) | V_final_yield_rval | V_yield_ (resume_index : Z)
  | V_is_gen_closing | V_async_await | V_async_resolve | V_async_reject
  | V_await_ (resume_index : Z) | V_can_skip_await | V_maybe_extract_await_value
  | V_resume_kind (resume_kind : Z) | V_check_resume_kind | V_resume
  | V_jump_target (ic_index : Z) | V_loop_head (ic_index : Z) (depth_hint : Z)
  | V_goto_ (offset : Z) | V_jump_if_false (forward_offset : Z)
  | V_jump_if_true (offset : Z) | V_and_ (forward_offset : Z) | V_or_ (forward_offset : Z)
  | V_coalesce (forward_offset : Z) | V_case_ (forward_offset : Z)
  | V_default_ (forward_offset : Z)
  | V_table_switch (default_offset low high : Z) (offsets : list Z) | V_return_
  | V_get_rval | V_set_rval | V_ret_rval | V_check_return | V_throw_ | V_throw_with_stack
  | V_create_suppressed_error | V_throw_msg (msg_number : Z)
  | V_throw_set_const (name_index : Z) | V_try_ | V_try_destructuring | V_exception
  | V_exception_and_stack | V_finally | V_uninitialized | V_init_lexical (localno : Z)
  | V_init_g_lexical (name_index : Z) | V_init_aliased_lexical (hops : Z) (slot : Z)
  | V_check_lexical (localno : Z) | V_check_aliased_lexical (hops : Z) (slot : Z)
  | V_check_this | V_bind_unqualified_g_name (name_index : Z)
  | V_bind_unqualified_name (name_index : Z) | V_bind_name (name_index : Z)
  | V_get_name (name_index : Z) | V_get_g_name (name_index : Z) | V_get_arg (argno : Z)
  | V_get_frame_arg (argno : Z) | V_get_local (localno : Z) | V_arguments_length
  | V_get_actual_arg | V_get_aliased_var (hops : Z) (slot : Z)
  | V_get_aliased_debug_var (hops : Z) (slot : Z) | V_get_import (name_index : Z)
  | V_get_bound_name (name_index : Z) | V_get_intrinsic (name_index : Z) | V_callee
  | V_env_callee (num_hops : Z) | V_set_name (name_index : Z)
  | V_strict_set_name (name_index : Z) | V_set_g_name (name_index : Z)
  | V_strict_set_g_name (name_index : Z) | V_set_arg (argno : Z)
  | V_set_local (localno : Z) | V_set_aliased_var (hops : Z) (slot : Z)
  | V_set_intrinsic (name_index : Z) | V_push_lexical_env (lexical_scope_index : Z)
  | V_pop_lexical_env | V_debug_leave_lexical_env
  | V_recreate_lexical_env (lexical_scope_index : Z)
  | V_freshen_lexical_env (lexical_scope_index : Z)
  | V_push_class_body_env (lexical_scope_index : Z) | V_push_var_env (scope_index : Z)
  | V_enter_with (static_with_index : Z) | V_leave_with | V_add_disposable (hint : Z)
  | V_take_dispose_capability | V_bind_var
  | V_global_or_eval_decl_instantiation (last_fun : Z) | V_del_name (name_index : Z)
  | V_arguments | V_rest | V_function_this | V_pop | V_pop_n (n : Z) | V_dup | V_dup2
  | V_dup_at (n : Z) | V_swap | V_pick (n : Z) | V_unpick (n : Z) | V_nop
  | V_lineno (lineno : Z) | V_nop_destructuring | V_force_interpreter
  | V_debug_check_self_hosted | V_debugger.

(** The engine's opcode table. *)
Record OpTable := mkOpTable {
  from_byte : Z -> option JSOp;
  op_len : JSOp -> Z;
  op_nuses : JSOp -> option Z;
  op_ndefs : JSOp -> Z }.

(** A parser step that can panic. *)
Definition bp (A : Type) : Type := BytecodeParser -> res (A * BytecodeParser).
Definition bp_bind {A B} (r : bp A) (f : A -> bp B) : bp B := fun p => '(a, p) ← r p; f a p.
Definition bp_ret {A} (a : A) : bp A := fun p => Ok (a, p).
Definition bp_panic {A} (r : PanicReason) : bp A := fun _ => Panic r.

(** [.unwrap()]. *)
Definition unwrap {A} (r : bread A) : bp A := fun p =>
  match r p with Some x => Ok x | None => Panic PUnwrap end.

Notation "'let*' x := r 'in' k" := (bp_bind r (fun x => k))
  (at level 200, x binder, r at level 100, k at level 200, right associativity) : bytecode_scope.

(** The arms: a method, with the operands read before it. *)
Definition arm0 (c : OpCall) : bp OpCall := bp_ret c.
Definition arm1 (r : bread Z) (c : Z -> OpCall) : bp OpCall :=
  let* a := unwrap r in bp_ret (c a).
Definition arm2 (r1 r2 : bread Z) (c : Z -> Z -> OpCall) : bp OpCall :=
  let* a := unwrap r1 in let* b := unwrap r2 in bp_ret (c a b).

Definition table_switch_arm : bp OpCall :=
  let* default_offset := unwrap next_int32 in
  let* low := unwrap next_int32 in
  let* high := unwrap next_int32 in
  let* first_resume_index := unwrap next_uint24 in
  let count := high - low + 1 in
  if count <? 0 then bp_panic PUnwrap
  else fun p =>
    offsets ← slice (bp_resume_offsets p) first_resume_index (first_resume_index + count);
    Ok (V_table_switch default_offset low high offsets, p).

(** The arms from [Undefined] to [SetProp]. *)
Definition visit_values (op : JSOp) : option (bp OpCall) :=
  match op with
  | J_Undefined => Some (arm0 V_undefined)
  | J_Null => Some (arm0 V_null)
  | J_False => Some (arm0 V_false_)
  | J_True => Some (arm0 V_true_)
  | J_Int32 => Some (arm1 next_uint32 V_int32)
  | J_Zero => Some (arm0 V_zero)
  | J_One => Some (arm0 V_one)
  | J_Int8 => Some (arm1 next_uint8 V_int8)
  | J_Uint16 => Some (arm1 next_uint16 V_uint16)
  | J_Uint24 => Some (arm1 next_uint24 V_uint24)
  | J_Double => Some (arm1 next_uint64 V_double)
  | J_BigInt => Some (arm1 next_uint32 V_bigint)
  | J_String => Some (arm1 next_uint32 V_string)
  | J_Symbol => Some (arm1 next_uint8 V_symbol)
  | J_Void => Some (arm0 V_void)
  | J_Typeof => Some (arm0 V_typeof_)
  | J_TypeofExpr => Some (arm0 V_typeof_expr)
  | J_TypeofEq => Some (arm1 next_uint8 V_typeof_eq)
  | J_Pos => Some (arm0 V_pos)
  | J_Neg => Some (arm0 V_neg)
  | J_BitNot => Some (arm0 V_bit_not)
  | J_Not => Some (arm0 V_not_)
  | J_BitOr => Some (arm0 V_bit_or)
  | J_BitXor => Some (arm0 V_bit_xor)
  | J_BitAnd => Some (arm0 V_bit_and)
  | J_Eq => Some (arm0 V_eq)
  | J_Ne => Some (arm0 V_ne)
  | J_StrictEq => Some (arm0 V_strict_eq)
  | J_StrictNe => Some (arm0 V_strict_ne)
  | J_StrictConstantEq => Some (arm1 next_uint16 V_strict_constant_eq)
  | J_StrictConstantNe => Some (arm1 next_uint16 V_strict_constant_ne)
  | J_Lt => Some (arm0 V_lt)
  | J_Gt => Some (arm0 V_gt)
  | J_Le => Some (arm0 V_le)
  | J_Ge => Some (arm0 V_ge)
  | J_Instanceof => Some (arm0 V_instanceof)
  | J_In => Some (arm0 V_in_)
  | J_Lsh => Some (arm0 V_lsh)
  | J_Rsh => Some (arm0 V_rsh)
  | J_Ursh => Some (arm0 V_ursh)
  | J_Add => Some (arm0 V_add)
  | J_Sub => Some (arm0 V_sub)
  | J_Inc => Some (arm0 V_inc)
  | J_Dec => Some (arm0 V_dec)
  | J_Mul => Some (arm0 V_mul)
  | J_Div => Some (arm0 V_div)
  | J_Mod => Some (arm0 V_mod_)
  | J_Pow => Some (arm0 V_pow)
  | J_NopIsAssignOp => Some (arm0 V_nop_is_assign_op)
  | J_ToPropertyKey => Some (arm0 V_to_property_key)
  | J_ToNumeric => Some (arm0 V_to_numeric)
  | J_ToString => Some (arm0 V_to_string)
  | J_IsNullOrUndefined => Some (arm0 V_is_null_or_undefined)
  | J_GlobalThis => Some (arm0 V_global_this)
  | J_NonSyntacticGlobalThis => Some (arm0 V_non_syntactic_global_this)
  | J_NewTarget => Some (arm0 V_new_target)
  | J_DynamicImport => Some (arm0 V_dynamic_import)
  | J_ImportMeta => Some (arm0 V_import_meta)
  | J_NewInit => Some (arm1 next_uint8 V_new_init)
  | J_NewObject => Some (arm1 next_uint32 V_new_object)
  | J_Object => Some (arm1 next_uint32 V_object)
  | J_ObjWithProto => Some (arm0 V_obj_with_proto)
  | J_InitProp => Some (arm1 next_uint32 V_init_prop)
  | J_InitHiddenProp => Some (arm1 next_uint32 V_init_hidden_prop)
  | J_InitLockedProp => Some (arm1 next_uint32 V_init_locked_prop)
  | J_InitElem => Some (arm0 V_init_elem)
  | J_InitHiddenElem => Some (arm0 V_init_hidden_elem)
  | J_InitLockedElem => Some (arm0 V_init_locked_elem)
  | J_InitPropGetter => Some (arm1 next_uint32 V_init_prop_getter)
  | J_InitHiddenPropGetter => Some (arm1 next_uint32 V_init_hidden_prop_getter)
  | J_InitElemGetter => Some (arm0 V_init_elem_getter)
  | J_InitHiddenElemGetter => Some (arm0 V_init_hidden_elem_getter)
  | J_InitPropSetter => Some (arm1 next_uint32 V_init_prop_setter)
  | J_InitHiddenPropSetter => Some (arm1 next_uint32 V_init_hidden_prop_setter)
  | J_InitElemSetter => Some (arm0 V_init_elem_setter)
  | J_InitHiddenElemSetter => Some (arm0 V_init_hidden_elem_setter)
  | J_GetProp => Some (arm1 next_uint32 V_get_prop)
  | J_GetElem => Some (arm0 V_get_elem)
  | J_SetProp => Some (arm1 next_uint32 V_set_prop)
  | _ => None
  end.

(** The arms from [StrictSetProp] to [InitialYield]. *)
Definition visit_objects (op : JSOp) : option (bp OpCall) :=
  match op with
  | J_StrictSetProp => Some (arm1 next_uint32 V_strict_set_prop)
  | J_SetElem => Some (arm0 V_set_elem)
  | J_StrictSetElem => Some (arm0 V_strict_set_elem)
  | J_DelProp => Some (arm1 next_uint32 V_del_prop)
  | J_StrictDelProp => Some (arm1 next_uint32 V_strict_del_prop)
  | J_DelElem => Some (arm0 V_del_elem)
  | J_StrictDelElem => Some (arm0 V_strict_del_elem)
  | J_HasOwn => Some (arm0 V_has_own)
  | J_CheckPrivateField => Some (arm2 next_uint8 next_uint8 V_check_private_field)
  | J_NewPrivateName => Some (arm1 next_uint32 V_new_private_name)
  | J_SuperBase => Some (arm0 V_super_base)
  | J_GetPropSuper => Some (arm1 next_uint32 V_get_prop_super)
  | J_GetElemSuper => Some (arm0 V_get_elem_super)
  | J_SetPropSuper => Some (arm1 next_uint32 V_set_prop_super)
  | J_StrictSetPropSuper => Some (arm1 next_uint32 V_strict_set_prop_super)
  | J_SetElemSuper => Some (arm0 V_set_elem_super)
  | J_StrictSetElemSuper => Some (arm0 V_strict_set_elem_super)
  | J_Iter => Some (arm0 V_iter)
  | J_MoreIter => Some (arm0 V_more_iter)
  | J_IsNoIter => Some (arm0 V_is_no_iter)
  | J_EndIter => Some (arm0 V_end_iter)
  | J_CloseIter => Some (arm1 next_uint8 V_close_iter)
  | J_OptimizeGetIterator => Some (arm0 V_optimize_get_iterator)
  | J_CheckIsObj => Some (arm1 next_uint8 V_check_is_obj)
  | J_CheckObjCoercible => Some (arm0 V_check_obj_coercible)
  | J_ToAsyncIter => Some (arm0 V_to_async_iter)
  | J_MutateProto => Some (arm0 V_mutate_proto)
  | J_NewArray => Some (arm1 next_uint32 V_new_array)
  | J_InitElemArray => Some (arm1 next_uint32 V_init_elem_array)
  | J_InitElemInc => Some (arm0 V_init_elem_inc)
  | J_Hole => Some (arm0 V_hole)
  | J_RegExp => Some (arm1 next_uint32 V_reg_exp)
  | J_Lambda => Some (arm1 next_uint32 V_lambda)
  | J_SetFunName => Some (arm1 next_uint8 V_set_fun_name)
  | J_InitHomeObject => Some (arm0 V_init_home_object)
  | J_CheckClassHeritage => Some (arm0 V_check_class_heritage)
  | J_FunWithProto => Some (arm1 next_uint32 V_fun_with_proto)
  | J_BuiltinObject => Some (arm1 next_uint8 V_builtin_object)
  | J_Call => Some (arm1 next_uint16 V_call)
  | J_CallContent => Some (arm1 next_uint16 V_call_content)
  | J_CallIter => Some (arm1 next_uint16 V_call_iter)
  | J_CallContentIter => Some (arm1 next_uint16 V_call_content_iter)
  | J_CallIgnoresRv => Some (arm1 next_uint16 V_call_ignores_rv)
  | J_SpreadCall => Some (arm0 V_spread_call)
  | J_OptimizeSpreadCall => Some (arm0 V_optimize_spread_call)
  | J_Eval => Some (arm1 next_uint16 V_eval)
  | J_SpreadEval => Some (arm0 V_spread_eval)
  | J_StrictEval => Some (arm1 next_uint16 V_strict_eval)
  | J_StrictSpreadEval => Some (arm0 V_strict_spread_eval)
  | J_ImplicitThis => Some (arm0 V_implicit_this)
  | J_CallSiteObj => Some (arm1 next_uint32 V_call_site_obj)
  | J_IsConstructing => Some (arm0 V_is_constructing)
  | J_New => Some (arm1 next_uint16 V_new_)
  | J_NewContent => Some (arm1 next_uint16 V_new_content)
  | J_SuperCall => Some (arm1 next_uint16 V_super_call)
  | J_SpreadNew => Some (arm0 V_spread_new)
  | J_SpreadSuperCall => Some (arm0 V_spread_super_call)
  | J_SuperFun => Some (arm0 V_super_fun)
  | J_CheckThisReinit => Some (arm0 V_check_this_reinit)
  | J_Generator => Some (arm0 V_generator)
  | J_InitialYield => Some (arm1 next_uint24 V_initial_yield)
  | _ => None
  end.

(** The arms from [AfterYield] to [GetFrameArg]. *)
Definition visit_calls (op : JSOp) : option (bp OpCall) :=
  match op with
  | J_AfterYield => Some (arm1 next_uint32 V_after_yield)
  | J_FinalYieldRval => Some (arm0 V_final_yield_rval)
  | J_Yield => Some (arm1 next_uint24 V_yield_)
  | J_IsGenClosing => Some (arm0 V_is_gen_closing)
  | J_AsyncAwait => Some (arm0 V_async_await)
  | J_AsyncResolve => Some (arm0 V_async_resolve)
  | J_AsyncReject => Some (arm0 V_async_reject)
  | J_Await => Some (arm1 next_uint24 V_await_)
  | J_CanSkipAwait => Some (arm0 V_can_skip_await)
  | J_MaybeExtractAwaitValue => Some (arm0 V_maybe_extract_await_value)
  | J_ResumeKind => Some (arm1 next_uint8 V_resume_kind)
  | J_CheckResumeKind => Some (arm0 V_check_resume_kind)
  | J_Resume => Some (arm0 V_resume)
  | J_JumpTarget => Some (arm1 next_uint32 V_jump_target)
  | J_LoopHead => Some (arm2 next_uint32 next_uint8 V_loop_head)
  | J_Goto => Some (arm1 next_int32 V_goto_)
  | J_JumpIfFalse => Some (arm1 next_int32 V_jump_if_false)
  | J_JumpIfTrue => Some (arm1 next_int32 V_jump_if_true)
  | J_And => Some (arm1 next_int32 V_and_)
  | J_Or => Some (arm1 next_int32 V_or_)
  | J_Coalesce => Some (arm1 next_int32 V_coalesce)
  | J_Case => Some (arm1 next_int32 V_case_)
  | J_Default => Some (arm1 next_int32 V_default_)
  | J_TableSwitch => Some (table_switch_arm)
  | J_Return => Some (arm0 V_return_)
  | J_GetRval => Some (arm0 V_get_rval)
  | J_SetRval => Some (arm0 V_set_rval)
  | J_RetRval => Some (arm0 V_ret_rval)
  | J_CheckReturn => Some (arm0 V_check_return)
  | J_Throw => Some (arm0 V_throw_)
  | J_ThrowWithStack => Some (arm0 V_throw_with_stack)
  | J_CreateSuppressedError => Some (arm0 V_create_suppressed_error)
  | J_ThrowMsg => Some (arm1 next_uint8 V_throw_msg)
  | J_ThrowSetConst => Some (arm1 next_uint32 V_throw_set_const)
  | J_Try => Some (arm0 V_try_)
  | J_TryDestructuring => Some (arm0 V_try_destructuring)
  | J_Exception => Some (arm0 V_exception)
  | J_ExceptionAndStack => Some (arm0 V_exception_and_stack)
  | J_Finally => Some (arm0 V_finally)
  | J_Uninitialized => Some (arm0 V_uninitialized)
  | J_InitLexical => Some (arm1 next_uint24 V_init_lexical)
  | J_InitGLexical => Some (arm1 next_uint32 V_init_g_lexical)
  | J_InitAliasedLexical => Some (arm2 next_uint16 next_uint24 V_init_aliased_lexical)
  | J_CheckLexical => Some (arm1 next_uint24 V_check_lexical)
  | J_CheckAliasedLexical => Some (arm2 next_uint16 next_uint24 V_check_aliased_lexical)
  | J_CheckThis => Some (arm0 V_check_this)
  | J_BindUnqualifiedGName => Some (arm1 next_uint32 V_bind_unqualified_g_name)
  | J_BindUnqualifiedName => Some (arm1 next_uint32 V_bind_unqualified_name)
  | J_BindName => Some (arm1 next_uint32 V_bind_name)
  | J_GetName => Some (arm1 next_uint32 V_get_name)
  | J_GetGName => Some (arm1 next_uint32 V_get_g_name)
  | J_GetArg => Some (arm1 next_uint16 V_get_arg)
  | J_GetFrameArg => Some (arm1 next_uint16 V_get_frame_arg)
  | _ => None
  end.

(** The arms from [GetLocal] to [Debugger]. *)
Definition visit_control (op : JSOp) : option (bp OpCall) :=
  match op with
  | J_GetLocal => Some (arm1 next_uint24 V_get_local)
  | J_ArgumentsLength => Some (arm0 V_arguments_length)
  | J_GetActualArg => Some (arm0 V_get_actual_arg)
  | J_GetAliasedVar => Some (arm2 next_uint16 next_uint24 V_get_aliased_var)
  | J_GetAliasedDebugVar => Some (arm2 next_uint16 next_uint24 V_get_aliased_debug_var)
  | J_GetImport => Some (arm1 next_uint32 V_get_import)
  | J_GetBoundName => Some (arm1 next_uint32 V_get_bound_name)
  | J_GetIntrinsic => Some (arm1 next_uint32 V_get_intrinsic)
  | J_Callee => Some (arm0 V_callee)
  | J_EnvCallee => Some (arm1 next_uint16 V_env_callee)
  | J_SetName => Some (arm1 next_uint32 V_set_name)
  | J_StrictSetName => Some (arm1 next_uint32 V_strict_set_name)
  | J_SetGName => Some (arm1 next_uint32 V_set_g_name)
  | J_StrictSetGName => Some (arm1 next_uint32 V_strict_set_g_name)
  | J_SetArg => Some (arm1 next_uint16 V_set_arg)
  | J_SetLocal => Some (arm1 next_uint24 V_set_local)
  | J_SetAliasedVar => Some (arm2 next_uint16 next_uint24 V_set_aliased_var)
  | J_SetIntrinsic => Some (arm1 next_uint32 V_set_intrinsic)
  | J_PushLexicalEnv => Some (arm1 next_uint32 V_push_lexical_env)
  | J_PopLexicalEnv => Some (arm0 V_pop_lexical_env)
  | J_DebugLeaveLexicalEnv => Some (arm0 V_debug_leave_lexical_env)
  | J_RecreateLexicalEnv => Some (arm1 next_uint32 V_recreate_lexical_env)
  | J_FreshenLexicalEnv => Some (arm1 next_uint32 V_freshen_lexical_env)
  | J_PushClassBodyEnv => Some (arm1 next_uint32 V_push_class_body_env)
  | J_PushVarEnv => Some (arm1 next_uint32 V_push_var_env)
  | J_EnterWith => Some (arm1 next_uint32 V_enter_with)
  | J_LeaveWith => Some (arm0 V_leave_with)
  | J_AddDisposable => Some (arm1 next_uint8 V_add_disposable)
  | J_TakeDisposeCapability => Some (arm0 V_take_dispose_capability)
  | J_BindVar => Some (arm0 V_bind_var)
  | J_GlobalOrEvalDeclInstantiation => Some (arm1 next_uint32 V_global_or_eval_decl_instantiation)
  | J_DelName => Some (arm1 next_uint32 V_del_name)
  | J_Arguments => Some (arm0 V_arguments)
  | J_Rest => Some (arm0 V_rest)
  | J_FunctionThis => Some (arm0 V_function_this)
  | J_Pop => Some (arm0 V_pop)
  | J_PopN => Some (arm1 next_uint16 V_pop_n)
  | J_Dup => Some (arm0 V_dup)
  | J_Dup2 => Some (arm0 V_dup2)
  | J_DupAt => Some (arm1 next_uint24 V_dup_at)
  | J_Swap => Some (arm0 V_swap)
  | J_Pick => Some (arm1 next_uint8 V_pick)
  | J_Unpick => Some (arm1 next_uint8 V_unpick)
  | J_Nop => Some (arm0 V_nop)
  | J_Lineno => Some (arm1 next_uint32 V_lineno)
  | J_NopDestructuring => Some (arm0 V_nop_destructuring)
  | J_ForceInterpreter => Some (arm0 V_force_interpreter)
  | J_DebugCheckSelfHosted => Some (arm0 V_debug_check_self_hosted)
  | J_Debugger => Some (arm0 V_debugger)
  | _ => None
  end.

Definition first_arm (l : list (option (bp OpCall))) : bp OpCall :=
  fold_right (fun a rest => match a with Some r => r | None => rest end) (bp_panic PVariant) l.

(** The whole dispatch; one of the groups has every opcode ([visit_op_total]). *)
Definition visit_op (op : JSOp) : bp OpCall :=
  first_arm [visit_values op; visit_objects op; visit_calls op; visit_control op].

(** ** The visit loop *)

Section Visit.
Context (T : OpTable) {V : Type}.
Context (v_before_op : Z -> JSOp -> Z -> Z -> V -> V).
Context (v_try_note : Z -> TryNote -> V -> V) (v_call : OpCall -> V -> V).

Definition next_op : BytecodeParser -> res (option JSOp * BytecodeParser) := fun p =>
  match read_byte p with
  | None => Ok (None, p)
  | Some (byte, p) =>
      match from_byte T byte with
      | Some op => Ok (Some op, p)
      | None => Panic PUnwrap
      end
  end.

(** The values an op pops: call-like ops take their argument count. *)
Definition uses (op : JSOp) (p : BytecodeParser) : res Z :=
  let argc k := match peek_uint16 p with Some n => Ok (n + k) | None => Panic PUnwrap end in
  match op with
  | J_Call | J_CallContent | J_CallIter | J_CallContentIter | J_CallIgnoresRv | J_Eval
  | J_StrictEval => argc 2
  | J_New | J_NewContent | J_SuperCall => argc 3
  | J_PopN => argc 0
  | _ => match op_nuses T op with Some n => Ok n | None => Panic PUnwrap end
  end.

(** [while let Some(note) = self.try_note_at_pc()]: at most the notes left. *)
Fixpoint notes_loop (fuel : nat) (pc : Z) (p : BytecodeParser) (v : V) : res (BytecodeParser * V) :=
  match fuel with
  | O => OutOfFuel
  | S n =>
      match try_note_at_pc p with
      | Some (note, p) => notes_loop n pc p (v_try_note pc note v)
      | None => Ok (p, v)
      end
  end.

Fixpoint visit_loop (fuel : nat) (pc : Z) (p : BytecodeParser) (v : V) : res V :=
  match fuel with
  | O => OutOfFuel
  | S n =>
      let before := remaining p in
      '(op, p) ← next_op p;
      match op with
      | None => Ok v
      | Some op =>
          nuses ← uses op p;
          let v := v_before_op pc op nuses (op_ndefs T op) v in
          '(c, p) ← visit_op op p;
          let v := v_call c v in
          let consumed := Z.of_nat (before - remaining p) in
          if negb (consumed =? op_len T op) then Panic PAssert
          else
            let pc := u32_add pc consumed in
            '(p, v) ← notes_loop (S (length (bp_try_notes p))) pc p v;
            visit_loop n pc p v
      end
  end.

Definition visit (p : BytecodeParser) (v : V) : res V :=
  visit_loop (S (length (bp_data p))) 0 p v.

(** [BytecodeParser::opcodes]: the ops only, skipping operands by length. *)
Fixpoint opcodes_loop (fuel : nat) (p : BytecodeParser) : res (list JSOp) :=
  match fuel with
  | O => OutOfFuel
  | S n =>
      '(op, p) ← next_op p;
      match op with
      | None => Ok []
      | Some op =>
          match advance (wrap_u 64 (op_len T op - 1)) p with
          | None => Ok []
          | Some (_, p) => ops ← opcodes_loop n p; Ok (op :: ops)
          end
      end
  end.

Definition opcodes (p : BytecodeParser) : res (list JSOp) :=
  opcodes_loop (S (length (bp_data p))) p.
End Visit.

