(* ===== verification/BytecodeSound.v ===== *)
(** * BytecodeSound: the visitor inverts the encoding of a script

    The encoding of a sequence of visitor calls ([encode]), the readers'
    specification ([decodes]), and the visit of an encoding: every call with
    its operands, announced by [before_op], with the try notes at the first
    op boundary at or after their start. A visit never runs out of fuel. *)

From Stdlib Require Import Sorted.
From S2P Require Import Prelude Mem Source Bytecode.
#[local] Open Scope bytecode_scope.

(** ** Readers *)

(** The parser after [n] bytes. *)
Definition skip (n : nat) (p : BytecodeParser) : BytecodeParser :=
  mkParser (u32_add (bp_pc p) (Z.of_nat n)) (drop n (bp_data p)) (bp_try_notes p)
    (bp_try_note_idx p) (bp_resume_offsets p).

Definition pc_ok (p : BytecodeParser) : Prop := in_u 32 (bp_pc p).

Lemma skip_skip (n m : nat) (p : BytecodeParser) : skip m (skip n p) = skip (n + m) p.
Proof.
  unfold skip, u32_add, wrap_u; cbn. rewrite drop_drop, Zplus_mod_idemp_l. do 2 f_equal. lia.
Qed.

Lemma skip_0 (p : BytecodeParser) : pc_ok p -> skip 0 p = p.
Proof.
  intros H. destruct p as [pc d ns i rs]. unfold skip, u32_add; cbn. rewrite drop_0, Z.add_0_r.
  by rewrite wrap_u_small.
Qed.

(** [r] reads the bytes [bs] as [v]. *)
Definition decodes {A} (r : bread A) (bs : list Z) (v : A) : Prop :=
  forall p rest, pc_ok p -> bp_data p = bs ++ rest -> r p = Some (v, skip (length bs) p).

Lemma skip_ok (n : nat) (p : BytecodeParser) : pc_ok (skip n p).
Proof. apply wrap_u_range. lia. Qed.

Lemma skip_data (bs rest : list Z) (p : BytecodeParser) :
  bp_data p = bs ++ rest -> bp_data (skip (length bs) p) = rest.
Proof. intros E. unfold skip; cbn. rewrite E. apply drop_app_length. Qed.

Lemma decodes_ret {A} (a : A) : decodes (bread_ret a) [] a.
Proof. intros p rest Hp _. unfold bread_ret. cbn. by rewrite skip_0. Qed.

Lemma decodes_bind {A B} (r : bread A) (f : A -> bread B) (bs bs' : list Z) (a : A) (b : B) :
  decodes r bs a -> decodes (f a) bs' b -> decodes (bread_bind r f) (bs ++ bs') b.
Proof.
  intros Hr Hf p rest Hp E. rewrite <- app_assoc in E. unfold bread_bind.
  rewrite (Hr _ _ Hp E). rewrite (Hf _ _ (skip_ok _ _) (skip_data _ _ _ E)).
  by rewrite skip_skip, length_app.
Qed.

Lemma read_byte_decodes (b : Z) : decodes read_byte [b] b.
Proof. intros p rest _ E. unfold read_byte, skip. by rewrite E. Qed.

Lemma decodes_byte {B} (f : Z -> bread B) (b : Z) (bs : list Z) (v : B) :
  decodes (f b) bs v -> decodes (bread_bind read_byte f) (b :: bs) v.
Proof. exact (decodes_bind _ _ [b] bs b v (read_byte_decodes b)). Qed.

Lemma next_uint8_decodes (v : Z) : in_u 8 v -> decodes next_uint8 (to_le 1 v) v.
Proof.
  intros H. cbn [to_le]. rewrite Z.mod_small by exact H. apply read_byte_decodes.
Qed.

(** The two ways a word's bytes are joined agree. *)
Ltac join_bytes :=
  unfold in_u in *; repeat rewrite lor_shift; try lia; unfold in_u;
  repeat match goal with |- context [2 ^ ?n] => let k := eval compute in (2 ^ n) in change (2 ^ n) with k end;
  repeat match goal with H : context [2 ^ ?n] |- _ => let k := eval compute in (2 ^ n) in change (2 ^ n) with k in H end;
  Z.div_mod_to_equations; lia.

Lemma next_uint16_decodes (v : Z) : in_u 16 v -> decodes next_uint16 (to_le 2 v) v.
Proof.
  intros H. cbn [to_le].
  replace v with (Z.lor (v mod 256) (Z.shiftl (v / 256 mod 256) 8)) at 3 by join_bytes.
  repeat apply decodes_byte. apply decodes_ret.
Qed.

Lemma next_uint24_decodes (v : Z) : in_u 24 v -> decodes next_uint24 (to_le 3 v) v.
Proof.
  intros H. cbn [to_le].
  replace v with (Z.lor (Z.lor (v mod 256) (Z.shiftl (v / 256 mod 256) 8))
                    (Z.shiftl (v / 256 / 256 mod 256) 16)) at 4 by join_bytes.
  repeat apply decodes_byte. apply decodes_ret.
Qed.

Lemma next_uint32_decodes (v : Z) : in_u 32 v -> decodes next_uint32 (to_le 4 v) v.
Proof.
  intros H. cbn [to_le].
  replace v with (Z.lor (Z.lor (Z.lor (v mod 256) (Z.shiftl (v / 256 mod 256) 8))
                    (Z.shiftl (v / 256 / 256 mod 256) 16))
                    (Z.shiftl (v / 256 / 256 / 256 mod 256) 24)) at 5 by join_bytes.
  repeat apply decodes_byte. apply decodes_ret.
Qed.

Lemma next_uint64_decodes (v : Z) : in_u 64 v -> decodes next_uint64 (to_le 8 v) v.
Proof.
  intros H. assert (in_u 64 v) as H' by done. unfold in_u in H'.
  assert (to_le 8 v = to_le 4 (v mod 2 ^ 32) ++ to_le 4 (v / 2 ^ 32)) as ->.
  { cbn [to_le app]. repeat (f_equal; try (Z.div_mod_to_equations; lia)). }
  replace v with (Z.lor (v mod 2 ^ 32) (Z.shiftl (v / 2 ^ 32) 32)) at 3.
  - eapply decodes_bind; [apply next_uint32_decodes|].
    + apply Z.mod_pos_bound. lia.
    + rewrite <- (app_nil_r (to_le 4 _)). eapply decodes_bind; [apply next_uint32_decodes|apply decodes_ret].
      unfold in_u. Z.div_mod_to_equations; lia.
  - rewrite lor_shift by (unfold in_u; Z.div_mod_to_equations; lia). Z.div_mod_to_equations; lia.
Qed.

Lemma next_int32_decodes (v : Z) : in_s 32 v -> decodes next_int32 (to_le 4 (wrap_u 32 v)) v.
Proof.
  intros H. replace v with (wrap_s 32 (wrap_u 32 v)) at 2.
  - rewrite <- (app_nil_r (to_le 4 _)). eapply decodes_bind; [|apply decodes_ret].
    apply next_uint32_decodes, wrap_u_range. lia.
  - unfold wrap_s, wrap_u. rewrite Zplus_mod_idemp_l. fold (wrap_s 32 v). by apply wrap_s_small.
Qed.

(** ** The encoding of a call *)

(** The opcode that calls a method. *)
Definition op_of (c : OpCall) : JSOp :=
  match c with
  | V_undefined => J_Undefined
  | V_null => J_Null
  | V_false_ => J_False
  | V_true_ => J_True
  | V_int32 _ => J_Int32
  | V_zero => J_Zero
  | V_one => J_One
  | V_int8 _ => J_Int8
  | V_uint16 _ => J_Uint16
  | V_uint24 _ => J_Uint24
  | V_double _ => J_Double
  | V_bigint _ => J_BigInt
  | V_string _ => J_String
  | V_symbol _ => J_Symbol
  | V_void => J_Void
  | V_typeof_ => J_Typeof
  | V_typeof_expr => J_TypeofExpr
  | V_typeof_eq _ => J_TypeofEq
  | V_pos => J_Pos
  | V_neg => J_Neg
  | V_bit_not => J_BitNot
  | V_not_ => J_Not
  | V_bit_or => J_BitOr
  | V_bit_xor => J_BitXor
  | V_bit_and => J_BitAnd
  | V_eq => J_Eq
  | V_ne => J_Ne
  | V_strict_eq => J_StrictEq
  | V_strict_ne => J_StrictNe
  | V_strict_constant_eq _ => J_StrictConstantEq
  | V_strict_constant_ne _ => J_StrictConstantNe
  | V_lt => J_Lt
  | V_gt => J_Gt
  | V_le => J_Le
  | V_ge => J_Ge
  | V_instanceof => J_Instanceof
  | V_in_ => J_In
  | V_lsh => J_Lsh
  | V_rsh => J_Rsh
  | V_ursh => J_Ursh
  | V_add => J_Add
  | V_sub => J_Sub
  | V_inc => J_Inc
  | V_dec => J_Dec
  | V_mul => J_Mul
  | V_div => J_Div
  | V_mod_ => J_Mod
  | V_pow => J_Pow
  | V_nop_is_assign_op => J_NopIsAssignOp
  | V_to_property_key => J_ToPropertyKey
  | V_to_numeric => J_ToNumeric
  | V_to_string => J_ToString
  | V_is_null_or_undefined => J_IsNullOrUndefined
  | V_global_this => J_GlobalThis
  | V_non_syntactic_global_this => J_NonSyntacticGlobalThis
  | V_new_target => J_NewTarget
  | V_dynamic_import => J_DynamicImport
  | V_import_meta => J_ImportMeta
  | V_new_init _ => J_NewInit
  | V_new_object _ => J_NewObject
  | V_object _ => J_Object
  | V_obj_with_proto => J_ObjWithProto
  | V_init_prop _ => J_InitProp
  | V_init_hidden_prop _ => J_InitHiddenProp
  | V_init_locked_prop _ => J_InitLockedProp
  | V_init_elem => J_InitElem
  | V_init_hidden_elem => J_InitHiddenElem
  | V_init_locked_elem => J_InitLockedElem
  | V_init_prop_getter _ => J_InitPropGetter
  | V_init_hidden_prop_getter _ => J_InitHiddenPropGetter
  | V_init_elem_getter => J_InitElemGetter
  | V_init_hidden_elem_getter => J_InitHiddenElemGetter
  | V_init_prop_setter _ => J_InitPropSetter
  | V_init_hidden_prop_setter _ => J_InitHiddenPropSetter
  | V_init_elem_setter => J_InitElemSetter
  | V_init_hidden_elem_setter => J_InitHiddenElemSetter
  | V_get_prop _ => J_GetProp
  | V_get_elem => J_GetElem
  | V_set_prop _ => J_SetProp
  | V_strict_set_prop _ => J_StrictSetProp
  | V_set_elem => J_SetElem
  | V_strict_set_elem => J_StrictSetElem
  | V_del_prop _ => J_DelProp
  | V_strict_del_prop _ => J_StrictDelProp
  | V_del_elem => J_DelElem
  | V_strict_del_elem => J_StrictDelElem
  | V_has_own => J_HasOwn
  | V_check_private_field _ _ => J_CheckPrivateField
  | V_new_private_name _ => J_NewPrivateName
  | V_super_base => J_SuperBase
  | V_get_prop_super _ => J_GetPropSuper
  | V_get_elem_super => J_GetElemSuper
  | V_set_prop_super _ => J_SetPropSuper
  | V_strict_set_prop_super _ => J_StrictSetPropSuper
  | V_set_elem_super => J_SetElemSuper
  | V_strict_set_elem_super => J_StrictSetElemSuper
  | V_iter => J_Iter
  | V_more_iter => J_MoreIter
  | V_is_no_iter => J_IsNoIter
  | V_end_iter => J_EndIter
  | V_close_iter _ => J_CloseIter
  | V_optimize_get_iterator => J_OptimizeGetIterator
  | V_check_is_obj _ => J_CheckIsObj
  | V_check_obj_coercible => J_CheckObjCoercible
  | V_to_async_iter => J_ToAsyncIter
  | V_mutate_proto => J_MutateProto
  | V_new_array _ => J_NewArray
  | V_init_elem_array _ => J_InitElemArray
  | V_init_elem_inc => J_InitElemInc
  | V_hole => J_Hole
  | V_reg_exp _ => J_RegExp
  | V_lambda _ => J_Lambda
  | V_set_fun_name _ => J_SetFunName
  | V_init_home_object => J_InitHomeObject
  | V_check_class_heritage => J_CheckClassHeritage
  | V_fun_with_proto _ => J_FunWithProto
  | V_builtin_object _ => J_BuiltinObject
  | V_call _ => J_Call
  | V_call_content _ => J_CallContent
  | V_call_iter _ => J_CallIter
  | V_call_content_iter _ => J_CallContentIter
  | V_call_ignores_rv _ => J_CallIgnoresRv
  | V_spread_call => J_SpreadCall
  | V_optimize_spread_call => J_OptimizeSpreadCall
  | V_eval _ => J_Eval
  | V_spread_eval => J_SpreadEval
  | V_strict_eval _ => J_StrictEval
  | V_strict_spread_eval => J_StrictSpreadEval
  | V_implicit_this => J_ImplicitThis
  | V_call_site_obj _ => J_CallSiteObj
  | V_is_constructing => J_IsConstructing
  | V_new_ _ => J_New
  | V_new_content _ => J_NewContent
  | V_super_call _ => J_SuperCall
  | V_spread_new => J_SpreadNew
  | V_spread_super_call => J_SpreadSuperCall
  | V_super_fun => J_SuperFun
  | V_check_this_reinit => J_CheckThisReinit
  | V_generator => J_Generator
  | V_initial_yield _ => J_InitialYield
  | V_after_yield _ => J_AfterYield
  | V_final_yield_rval => J_FinalYieldRval
  | V_yield_ _ => J_Yield
  | V_is_gen_closing => J_IsGenClosing
  | V_async_await => J_AsyncAwait
  | V_async_resolve => J_AsyncResolve
  | V_async_reject => J_AsyncReject
  | V_await_ _ => J_Await
  | V_can_skip_await => J_CanSkipAwait
  | V_maybe_extract_await_value => J_MaybeExtractAwaitValue
  | V_resume_kind _ => J_ResumeKind
  | V_check_resume_kind => J_CheckResumeKind
  | V_resume => J_Resume
  | V_jump_target _ => J_JumpTarget
  | V_loop_head _ _ => J_LoopHead
  | V_goto_ _ => J_Goto
  | V_jump_if_false _ => J_JumpIfFalse
  | V_jump_if_true _ => J_JumpIfTrue
  | V_and_ _ => J_And
  | V_or_ _ => J_Or
  | V_coalesce _ => J_Coalesce
  | V_case_ _ => J_Case
  | V_default_ _ => J_Default
  | V_table_switch _ _ _ _ => J_TableSwitch
  | V_return_ => J_Return
  | V_get_rval => J_GetRval
  | V_set_rval => J_SetRval
  | V_ret_rval => J_RetRval
  | V_check_return => J_CheckReturn
  | V_throw_ => J_Throw
  | V_throw_with_stack => J_ThrowWithStack
  | V_create_suppressed_error => J_CreateSuppressedError
  | V_throw_msg _ => J_ThrowMsg
  | V_throw_set_const _ => J_ThrowSetConst
  | V_try_ => J_Try
  | V_try_destructuring => J_TryDestructuring
  | V_exception => J_Exception
  | V_exception_and_stack => J_ExceptionAndStack
  | V_finally => J_Finally
  | V_uninitialized => J_Uninitialized
  | V_init_lexical _ => J_InitLexical
  | V_init_g_lexical _ => J_InitGLexical
  | V_init_aliased_lexical _ _ => J_InitAliasedLexical
  | V_check_lexical _ => J_CheckLexical
  | V_check_aliased_lexical _ _ => J_CheckAliasedLexical
  | V_check_this => J_CheckThis
  | V_bind_unqualified_g_name _ => J_BindUnqualifiedGName
  | V_bind_unqualified_name _ => J_BindUnqualifiedName
  | V_bind_name _ => J_BindName
  | V_get_name _ => J_GetName
  | V_get_g_name _ => J_GetGName
  | V_get_arg _ => J_GetArg
  | V_get_frame_arg _ => J_GetFrameArg
  | V_get_local _ => J_GetLocal
  | V_arguments_length => J_ArgumentsLength
  | V_get_actual_arg => J_GetActualArg
  | V_get_aliased_var _ _ => J_GetAliasedVar
  | V_get_aliased_debug_var _ _ => J_GetAliasedDebugVar
  | V_get_import _ => J_GetImport
  | V_get_bound_name _ => J_GetBoundName
  | V_get_intrinsic _ => J_GetIntrinsic
  | V_callee => J_Callee
  | V_env_callee _ => J_EnvCallee
  | V_set_name _ => J_SetName
  | V_strict_set_name _ => J_StrictSetName
  | V_set_g_name _ => J_SetGName
  | V_strict_set_g_name _ => J_StrictSetGName
  | V_set_arg _ => J_SetArg
  | V_set_local _ => J_SetLocal
  | V_set_aliased_var _ _ => J_SetAliasedVar
  | V_set_intrinsic _ => J_SetIntrinsic
  | V_push_lexical_env _ => J_PushLexicalEnv
  | V_pop_lexical_env => J_PopLexicalEnv
  | V_debug_leave_lexical_env => J_DebugLeaveLexicalEnv
  | V_recreate_lexical_env _ => J_RecreateLexicalEnv
  | V_freshen_lexical_env _ => J_FreshenLexicalEnv
  | V_push_class_body_env _ => J_PushClassBodyEnv
  | V_push_var_env _ => J_PushVarEnv
  | V_enter_with _ => J_EnterWith
  | V_leave_with => J_LeaveWith
  | V_add_disposable _ => J_AddDisposable
  | V_take_dispose_capability => J_TakeDisposeCapability
  | V_bind_var => J_BindVar
  | V_global_or_eval_decl_instantiation _ => J_GlobalOrEvalDeclInstantiation
  | V_del_name _ => J_DelName
  | V_arguments => J_Arguments
  | V_rest => J_Rest
  | V_function_this => J_FunctionThis
  | V_pop => J_Pop
  | V_pop_n _ => J_PopN
  | V_dup => J_Dup
  | V_dup2 => J_Dup2
  | V_dup_at _ => J_DupAt
  | V_swap => J_Swap
  | V_pick _ => J_Pick
  | V_unpick _ => J_Unpick
  | V_nop => J_Nop
  | V_lineno _ => J_Lineno
  | V_nop_destructuring => J_NopDestructuring
  | V_force_interpreter => J_ForceInterpreter
  | V_debug_check_self_hosted => J_DebugCheckSelfHosted
  | V_debugger => J_Debugger
  end.

(** The operands of a call, little-endian; the first resume index of a table
    switch is not an argument of the method and is given apart. *)
Definition operand_bytes (first : Z) (c : OpCall) : list Z :=
  match c with
  | V_int32 a => to_le 4 a
  | V_int8 a => to_le 1 a
  | V_uint16 a => to_le 2 a
  | V_uint24 a => to_le 3 a
  | V_double a => to_le 8 a
  | V_bigint a => to_le 4 a
  | V_string a => to_le 4 a
  | V_symbol a => to_le 1 a
  | V_typeof_eq a => to_le 1 a
  | V_strict_constant_eq a => to_le 2 a
  | V_strict_constant_ne a => to_le 2 a
  | V_new_init a => to_le 1 a
  | V_new_object a => to_le 4 a
  | V_object a => to_le 4 a
  | V_init_prop a => to_le 4 a
  | V_init_hidden_prop a => to_le 4 a
  | V_init_locked_prop a => to_le 4 a
  | V_init_prop_getter a => to_le 4 a
  | V_init_hidden_prop_getter a => to_le 4 a
  | V_init_prop_setter a => to_le 4 a
  | V_init_hidden_prop_setter a => to_le 4 a
  | V_get_prop a => to_le 4 a
  | V_set_prop a => to_le 4 a
  | V_strict_set_prop a => to_le 4 a
  | V_del_prop a => to_le 4 a
  | V_strict_del_prop a => to_le 4 a
  | V_check_private_field a b => to_le 1 a ++ to_le 1 b
  | V_new_private_name a => to_le 4 a
  | V_get_prop_super a => to_le 4 a
  | V_set_prop_super a => to_le 4 a
  | V_strict_set_prop_super a => to_le 4 a
  | V_close_iter a => to_le 1 a
  | V_check_is_obj a => to_le 1 a
  | V_new_array a => to_le 4 a
  | V_init_elem_array a => to_le 4 a
  | V_reg_exp a => to_le 4 a
  | V_lambda a => to_le 4 a
  | V_set_fun_name a => to_le 1 a
  | V_fun_with_proto a => to_le 4 a
  | V_builtin_object a => to_le 1 a
  | V_call a => to_le 2 a
  | V_call_content a => to_le 2 a
  | V_call_iter a => to_le 2 a
  | V_call_content_iter a => to_le 2 a
  | V_call_ignores_rv a => to_le 2 a
  | V_eval a => to_le 2 a
  | V_strict_eval a => to_le 2 a
  | V_call_site_obj a => to_le 4 a
  | V_new_ a => to_le 2 a
  | V_new_content a => to_le 2 a
  | V_super_call a => to_le 2 a
  | V_initial_yield a => to_le 3 a
  | V_after_yield a => to_le 4 a
  | V_yield_ a => to_le 3 a
  | V_await_ a => to_le 3 a
  | V_resume_kind a => to_le 1 a
  | V_jump_target a => to_le 4 a
  | V_loop_head a b => to_le 4 a ++ to_le 1 b
  | V_goto_ a => to_le 4 (wrap_u 32 a)
  | V_jump_if_false a => to_le 4 (wrap_u 32 a)
  | V_jump_if_true a => to_le 4 (wrap_u 32 a)
  | V_and_ a => to_le 4 (wrap_u 32 a)
  | V_or_ a => to_le 4 (wrap_u 32 a)
  | V_coalesce a => to_le 4 (wrap_u 32 a)
  | V_case_ a => to_le 4 (wrap_u 32 a)
  | V_default_ a => to_le 4 (wrap_u 32 a)
  | V_table_switch d l h _ => to_le 4 (wrap_u 32 d) ++ to_le 4 (wrap_u 32 l) ++ to_le 4 (wrap_u 32 h) ++ to_le 3 first
  | V_throw_msg a => to_le 1 a
  | V_throw_set_const a => to_le 4 a
  | V_init_lexical a => to_le 3 a
  | V_init_g_lexical a => to_le 4 a
  | V_init_aliased_lexical a b => to_le 2 a ++ to_le 3 b
  | V_check_lexical a => to_le 3 a
  | V_check_aliased_lexical a b => to_le 2 a ++ to_le 3 b
  | V_bind_unqualified_g_name a => to_le 4 a
  | V_bind_unqualified_name a => to_le 4 a
  | V_bind_name a => to_le 4 a
  | V_get_name a => to_le 4 a
  | V_get_g_name a => to_le 4 a
  | V_get_arg a => to_le 2 a
  | V_get_frame_arg a => to_le 2 a
  | V_get_local a => to_le 3 a
  | V_get_aliased_var a b => to_le 2 a ++ to_le 3 b
  | V_get_aliased_debug_var a b => to_le 2 a ++ to_le 3 b
  | V_get_import a => to_le 4 a
  | V_get_bound_name a => to_le 4 a
  | V_get_intrinsic a => to_le 4 a
  | V_env_callee a => to_le 2 a
  | V_set_name a => to_le 4 a
  | V_strict_set_name a => to_le 4 a
  | V_set_g_name a => to_le 4 a
  | V_strict_set_g_name a => to_le 4 a
  | V_set_arg a => to_le 2 a
  | V_set_local a => to_le 3 a
  | V_set_aliased_var a b => to_le 2 a ++ to_le 3 b
  | V_set_intrinsic a => to_le 4 a
  | V_push_lexical_env a => to_le 4 a
  | V_recreate_lexical_env a => to_le 4 a
  | V_freshen_lexical_env a => to_le 4 a
  | V_push_class_body_env a => to_le 4 a
  | V_push_var_env a => to_le 4 a
  | V_enter_with a => to_le 4 a
  | V_add_disposable a => to_le 1 a
  | V_global_or_eval_decl_instantiation a => to_le 4 a
  | V_del_name a => to_le 4 a
  | V_pop_n a => to_le 2 a
  | V_dup_at a => to_le 3 a
  | V_pick a => to_le 1 a
  | V_unpick a => to_le 1 a
  | V_lineno a => to_le 4 a
  | _ => []
  end.

(** Operands of their widths; a table switch names a segment of the resume
    offsets. *)
Definition call_wf (resume : list Z) (first : Z) (c : OpCall) : Prop :=
  match c with
  | V_int32 a => in_u 32 a
  | V_int8 a => in_u 8 a
  | V_uint16 a => in_u 16 a
  | V_uint24 a => in_u 24 a
  | V_double a => in_u 64 a
  | V_bigint a => in_u 32 a
  | V_string a => in_u 32 a
  | V_symbol a => in_u 8 a
  | V_typeof_eq a => in_u 8 a
  | V_strict_constant_eq a => in_u 16 a
  | V_strict_constant_ne a => in_u 16 a
  | V_new_init a => in_u 8 a
  | V_new_object a => in_u 32 a
  | V_object a => in_u 32 a
  | V_init_prop a => in_u 32 a
  | V_init_hidden_prop a => in_u 32 a
  | V_init_locked_prop a => in_u 32 a
  | V_init_prop_getter a => in_u 32 a
  | V_init_hidden_prop_getter a => in_u 32 a
  | V_init_prop_setter a => in_u 32 a
  | V_init_hidden_prop_setter a => in_u 32 a
  | V_get_prop a => in_u 32 a
  | V_set_prop a => in_u 32 a
  | V_strict_set_prop a => in_u 32 a
  | V_del_prop a => in_u 32 a
  | V_strict_del_prop a => in_u 32 a
  | V_check_private_field a b => in_u 8 a /\ in_u 8 b
  | V_new_private_name a => in_u 32 a
  | V_get_prop_super a => in_u 32 a
  | V_set_prop_super a => in_u 32 a
  | V_strict_set_prop_super a => in_u 32 a
  | V_close_iter a => in_u 8 a
  | V_check_is_obj a => in_u 8 a
  | V_new_array a => in_u 32 a
  | V_init_elem_array a => in_u 32 a
  | V_reg_exp a => in_u 32 a
  | V_lambda a => in_u 32 a
  | V_set_fun_name a => in_u 8 a
  | V_fun_with_proto a => in_u 32 a
  | V_builtin_object a => in_u 8 a
  | V_call a => in_u 16 a
  | V_call_content a => in_u 16 a
  | V_call_iter a => in_u 16 a
  | V_call_content_iter a => in_u 16 a
  | V_call_ignores_rv a => in_u 16 a
  | V_eval a => in_u 16 a
  | V_strict_eval a => in_u 16 a
  | V_call_site_obj a => in_u 32 a
  | V_new_ a => in_u 16 a
  | V_new_content a => in_u 16 a
  | V_super_call a => in_u 16 a
  | V_initial_yield a => in_u 24 a
  | V_after_yield a => in_u 32 a
  | V_yield_ a => in_u 24 a
  | V_await_ a => in_u 24 a
  | V_resume_kind a => in_u 8 a
  | V_jump_target a => in_u 32 a
  | V_loop_head a b => in_u 32 a /\ in_u 8 b
  | V_goto_ a => in_s 32 a
  | V_jump_if_false a => in_s 32 a
  | V_jump_if_true a => in_s 32 a
  | V_and_ a => in_s 32 a
  | V_or_ a => in_s 32 a
  | V_coalesce a => in_s 32 a
  | V_case_ a => in_s 32 a
  | V_default_ a => in_s 32 a
  | V_table_switch d l h os =>
      in_s 32 d /\ in_s 32 l /\ in_s 32 h /\ in_u 24 first /\ 0 <= h - l + 1 /\
      slice resume first (first + (h - l + 1)) = Ok os
  | V_throw_msg a => in_u 8 a
  | V_throw_set_const a => in_u 32 a
  | V_init_lexical a => in_u 24 a
  | V_init_g_lexical a => in_u 32 a
  | V_init_aliased_lexical a b => in_u 16 a /\ in_u 24 b
  | V_check_lexical a => in_u 24 a
  | V_check_aliased_lexical a b => in_u 16 a /\ in_u 24 b
  | V_bind_unqualified_g_name a => in_u 32 a
  | V_bind_unqualified_name a => in_u 32 a
  | V_bind_name a => in_u 32 a
  | V_get_name a => in_u 32 a
  | V_get_g_name a => in_u 32 a
  | V_get_arg a => in_u 16 a
  | V_get_frame_arg a => in_u 16 a
  | V_get_local a => in_u 24 a
  | V_get_aliased_var a b => in_u 16 a /\ in_u 24 b
  | V_get_aliased_debug_var a b => in_u 16 a /\ in_u 24 b
  | V_get_import a => in_u 32 a
  | V_get_bound_name a => in_u 32 a
  | V_get_intrinsic a => in_u 32 a
  | V_env_callee a => in_u 16 a
  | V_set_name a => in_u 32 a
  | V_strict_set_name a => in_u 32 a
  | V_set_g_name a => in_u 32 a
  | V_strict_set_g_name a => in_u 32 a
  | V_set_arg a => in_u 16 a
  | V_set_local a => in_u 24 a
  | V_set_aliased_var a b => in_u 16 a /\ in_u 24 b
  | V_set_intrinsic a => in_u 32 a
  | V_push_lexical_env a => in_u 32 a
  | V_recreate_lexical_env a => in_u 32 a
  | V_freshen_lexical_env a => in_u 32 a
  | V_push_class_body_env a => in_u 32 a
  | V_push_var_env a => in_u 32 a
  | V_enter_with a => in_u 32 a
  | V_add_disposable a => in_u 8 a
  | V_global_or_eval_decl_instantiation a => in_u 32 a
  | V_del_name a => in_u 32 a
  | V_pop_n a => in_u 16 a
  | V_dup_at a => in_u 24 a
  | V_pick a => in_u 8 a
  | V_unpick a => in_u 8 a
  | V_lineno a => in_u 32 a
  | _ => True
  end.

(** The operand width of an opcode, in bytes. *)
Definition operand_width (op : JSOp) : Z :=
  match op with
  | J_Int8 | J_Symbol | J_TypeofEq | J_NewInit | J_CloseIter | J_CheckIsObj | J_SetFunName
  | J_BuiltinObject | J_ResumeKind | J_ThrowMsg | J_AddDisposable | J_Pick | J_Unpick => 1
  | J_Uint16 | J_StrictConstantEq | J_StrictConstantNe | J_CheckPrivateField | J_Call
  | J_CallContent | J_CallIter | J_CallContentIter | J_CallIgnoresRv | J_Eval
  | J_StrictEval | J_New | J_NewContent | J_SuperCall | J_GetArg | J_GetFrameArg
  | J_EnvCallee | J_SetArg | J_PopN => 2
  | J_Uint24 | J_InitialYield | J_Yield | J_Await | J_InitLexical | J_CheckLexical
  | J_GetLocal | J_SetLocal | J_DupAt => 3
  | J_Int32 | J_BigInt | J_String | J_NewObject | J_Object | J_InitProp | J_InitHiddenProp
  | J_InitLockedProp | J_InitPropGetter | J_InitHiddenPropGetter | J_InitPropSetter
  | J_InitHiddenPropSetter | J_GetProp | J_SetProp | J_StrictSetProp | J_DelProp
  | J_StrictDelProp | J_NewPrivateName | J_GetPropSuper | J_SetPropSuper
  | J_StrictSetPropSuper | J_NewArray | J_InitElemArray | J_RegExp | J_Lambda
  | J_FunWithProto | J_CallSiteObj | J_AfterYield | J_JumpTarget | J_Goto | J_JumpIfFalse
  | J_JumpIfTrue | J_And | J_Or | J_Coalesce | J_Case | J_Default | J_ThrowSetConst
  | J_InitGLexical | J_BindUnqualifiedGName | J_BindUnqualifiedName | J_BindName
  | J_GetName | J_GetGName | J_GetImport | J_GetBoundName | J_GetIntrinsic | J_SetName
  | J_StrictSetName | J_SetGName | J_StrictSetGName | J_SetIntrinsic | J_PushLexicalEnv
  | J_RecreateLexicalEnv | J_FreshenLexicalEnv | J_PushClassBodyEnv | J_PushVarEnv
  | J_EnterWith | J_GlobalOrEvalDeclInstantiation | J_DelName | J_Lineno => 4
  | J_LoopHead | J_InitAliasedLexical | J_CheckAliasedLexical | J_GetAliasedVar
  | J_GetAliasedDebugVar | J_SetAliasedVar => 5
  | J_Double => 8
  | J_TableSwitch => 15
  | _ => 0
  end.

Lemma operand_bytes_length (first : Z) (c : OpCall) :
  Z.of_nat (length (operand_bytes first c)) = operand_width (op_of c).
Proof. by destruct c. Qed.

(** [m] dispatches the operand bytes [bs] to the call [c]. *)
Definition runs (m : bp OpCall) (resume bs : list Z) (c : OpCall) : Prop :=
  forall p rest, pc_ok p -> bp_resume_offsets p = resume -> bp_data p = bs ++ rest ->
  m p = Ok (c, skip (length bs) p).

Lemma arm0_runs (resume : list Z) (c : OpCall) : runs (arm0 c) resume [] c.
Proof. intros p rest Hp _ _. unfold arm0, bp_ret. cbn. by rewrite skip_0. Qed.

Lemma arm1_runs (resume bs : list Z) (r : bread Z) (c : Z -> OpCall) (a : Z) :
  decodes r bs a -> runs (arm1 r c) resume bs (c a).
Proof. intros H p rest Hp _ E. unfold arm1, bp_bind, unwrap. by rewrite (H _ _ Hp E). Qed.

Lemma arm2_runs (resume bs bs' : list Z) (r r' : bread Z) (c : Z -> Z -> OpCall) (a b : Z) :
  decodes r bs a -> decodes r' bs' b -> runs (arm2 r r' c) resume (bs ++ bs') (c a b).
Proof.
  intros H H' p rest Hp _ E. rewrite <- app_assoc in E. unfold arm2, bp_bind, unwrap.
  rewrite (H _ _ Hp E). cbn. rewrite (H' _ _ (skip_ok _ _) (skip_data _ _ _ E)). cbn.
  by rewrite skip_skip, length_app.
Qed.

Create HintDb bytecode.
#[export] Hint Resolve next_uint8_decodes next_uint16_decodes next_uint24_decodes
  next_uint32_decodes next_uint64_decodes next_int32_decodes : bytecode.
#[export] Hint Resolve arm0_runs arm1_runs arm2_runs : bytecode.

(** An arm that goes on after an operand. *)
Lemma bind_runs {A} (r : bread A) (f : A -> bp OpCall) (resume bs bs' : list Z) (a : A) (c : OpCall) :
  decodes r bs a -> runs (f a) resume bs' c ->
  runs (bp_bind (unwrap r) f) resume (bs ++ bs') c.
Proof.
  intros H Hf p rest Hp R E. rewrite <- app_assoc in E. unfold bp_bind, unwrap.
  rewrite (H _ _ Hp E). cbn. rewrite (Hf _ _ (skip_ok _ _) R (skip_data _ _ _ E)).
  by rewrite skip_skip, length_app.
Qed.

Lemma table_switch_runs (resume : list Z) (first d l h : Z) (os : list Z) :
  call_wf resume first (V_table_switch d l h os) ->
  runs table_switch_arm resume (operand_bytes first (V_table_switch d l h os)) (V_table_switch d l h os).
Proof.
  intros (Hd & Hl & Hh & Hf & Hc & Hs). unfold table_switch_arm, operand_bytes.
  do 3 (eapply bind_runs; [by eauto with bytecode|]).
  rewrite <- (app_nil_r (to_le 3 first)). eapply bind_runs; [by eauto with bytecode|].
  destruct (Z.ltb_spec (h - l + 1) 0); [lia|].
  intros p rest Hp R _. rewrite R, Hs. cbn. by rewrite skip_0.
Qed.

(** Every call is dispatched back from its own opcode and operands. *)
Lemma visit_op_runs (resume : list Z) (first : Z) (c : OpCall) :
  call_wf resume first c -> runs (visit_op (op_of c)) resume (operand_bytes first c) c.
Proof.
  intros H. destruct c;
    lazy [visit_op op_of visit_values visit_objects visit_calls visit_control first_arm fold_right];
    lazy [call_wf] in H; try (apply table_switch_runs; exact H);
    lazy [operand_bytes]; first [apply arm0_runs | apply arm1_runs | apply arm2_runs];
    intuition eauto with bytecode.
Qed.

(** ** The encoding of a script *)

(** What the visitor relies on in the engine's table: an opcode's byte names
    it, its length counts its operands, and its uses are known unless the
    visitor counts them. *)
Definition variadic (op : JSOp) : bool :=
  match op with
  | J_Call | J_CallContent | J_CallIter | J_CallContentIter | J_CallIgnoresRv | J_Eval
  | J_StrictEval | J_New | J_NewContent | J_SuperCall | J_PopN => true
  | _ => false
  end.

Record table_laws (T : OpTable) (byte_of : JSOp -> Z) : Prop := {
  tl_byte : forall op, from_byte T (byte_of op) = Some op;
  tl_len : forall op, op_len T op = 1 + operand_width op;
  tl_uses : forall op, variadic op = false -> is_Some (op_nuses T op) }.

Definition encode (byte_of : JSOp -> Z) (i : Z * OpCall) : list Z :=
  byte_of (op_of i.2) :: operand_bytes i.1 i.2.

Definition encode_all (byte_of : JSOp -> Z) (cs : list (Z * OpCall)) : list Z :=
  concat (encode byte_of <$> cs).

(** The bytes of a call. *)
Definition call_len (i : Z * OpCall) : Z := 1 + operand_width (op_of i.2).

Lemma encode_length (byte_of : JSOp -> Z) (i : Z * OpCall) :
  Z.of_nat (length (encode byte_of i)) = call_len i.
Proof. unfold encode, call_len. cbn [length]. pose proof (operand_bytes_length i.1 i.2). lia. Qed.

Lemma operand_width_bound (op : JSOp) : 0 <= operand_width op <= 15.
Proof. destruct op; cbn; lia. Qed.

(** The values a call pops. *)
Definition call_uses (T : OpTable) (c : OpCall) : Z :=
  match c with
  | V_call n | V_call_content n | V_call_iter n | V_call_content_iter n | V_call_ignores_rv n
  | V_eval n | V_strict_eval n => n + 2
  | V_new_ n | V_new_content n | V_super_call n => n + 3
  | V_pop_n n => n
  | c => default 0 (op_nuses T (op_of c))
  end.

(** Notes that start after [lo] and not after [hi]. *)
Definition notes_in (lo hi : Z) (ns : list TryNote) : list TryNote :=
  filter (fun n => lo < tn_start n <= hi) ns.

Section Trace.
Context (T : OpTable) {V : Type}.
Context (v_before_op : Z -> JSOp -> Z -> Z -> V -> V).
Context (v_try_note : Z -> TryNote -> V -> V) (v_call : OpCall -> V -> V).

(** What a visit of calls starting at [pc] tells the visitor: each call
    announced at its offset, then the notes that start after [lo], the
    boundary before, up to the boundary after the call. *)
Fixpoint trace (ns : list TryNote) (lo pc : Z) (cs : list (Z * OpCall)) (v : V) : V :=
  match cs with
  | [] => v
  | i :: cs =>
      let v := v_before_op pc (op_of i.2) (call_uses T i.2) (op_ndefs T (op_of i.2)) v in
      let v := v_call i.2 v in
      let pc := pc + call_len i in
      let v := foldl (fun v n => v_try_note pc n v) v (notes_in lo pc ns) in
      trace ns pc pc cs v
  end.
End Trace.

(** ** Sorted notes *)

Definition note_le (n m : TryNote) : Prop := tn_start n <= tn_start m.

Lemma insert_note_sorted (n : TryNote) (l : list TryNote) :
  StronglySorted note_le l -> StronglySorted note_le (insert_note n l).
Proof.
  induction 1 as [|m l Hs IH Hm]; cbn; [repeat constructor|]. destruct (Z.leb_spec (tn_start n) (tn_start m)).
  - constructor; [by constructor|]. constructor; [done|]. eapply list.Forall_impl; [exact Hm|].
    unfold note_le. intros; lia.
  - constructor; [done|]. clear IH Hs. induction l as [|k l IH]; cbn.
    + repeat constructor. unfold note_le; lia.
    + inversion Hm; subst. destruct (tn_start n <=? tn_start k).
      * constructor; [unfold note_le; lia|done].
      * constructor; auto.
Qed.

Lemma sort_notes_sorted (l : list TryNote) : StronglySorted note_le (sort_notes l).
Proof. induction l as [|n l IH]; cbn; [constructor|by apply insert_note_sorted]. Qed.

Lemma insert_note_perm (n : TryNote) (l : list TryNote) : insert_note n l ≡ₚ n :: l.
Proof.
  induction l as [|m l IH]; cbn; [done|]. destruct (tn_start n <=? tn_start m); [done|].
  rewrite IH. apply Permutation_swap.
Qed.

Lemma sort_notes_perm (l : list TryNote) : sort_notes l ≡ₚ l.
Proof. induction l as [|n l IH]; cbn; [done|]. by rewrite insert_note_perm, IH. Qed.

(** Notes of a sorted list above [lo], taken up to [hi]. *)
Lemma notes_in_cons_le (n : TryNote) (l : list TryNote) (lo hi : Z) :
  lo < tn_start n <= hi -> notes_in lo hi (n :: l) = n :: notes_in lo hi l.
Proof. intros H. unfold notes_in. by rewrite filter_cons_True. Qed.

Lemma notes_in_none (l : list TryNote) (lo hi : Z) :
  Forall (fun n => hi < tn_start n) l -> notes_in lo hi l = [].
Proof.
  induction 1 as [|n l Hn _ IH]; [done|]. unfold notes_in in *. rewrite filter_cons_False; [done|lia].
Qed.

(** [i] of the sorted notes start at or before [lo], the rest after it. *)
Definition noted (ns : list TryNote) (i : nat) (lo : Z) : Prop :=
  Forall (fun n => tn_start n <= lo) (take i ns) /\ Forall (fun n => lo < tn_start n) (drop i ns).

Lemma notes_in_noted (ns : list TryNote) (i : nat) (lo hi : Z) :
  noted ns i lo -> notes_in lo hi ns = notes_in lo hi (drop i ns).
Proof.
  intros [H _]. rewrite <- (take_drop i ns) at 1. unfold notes_in. rewrite list.filter_app.
  assert (filter (fun n => lo < tn_start n <= hi) (take i ns) = []) as ->; [|done].
  induction H as [|n l Hn _ IH]; [done|]. rewrite filter_cons_False; [done|lia].
Qed.

Definition at_note (i : nat) (p : BytecodeParser) : BytecodeParser :=
  mkParser (bp_pc p) (bp_data p) (bp_try_notes p) i (bp_resume_offsets p).

Lemma notes_loop_spec {V} (f : Z -> TryNote -> V -> V) (ns : list TryNote) (pc lo : Z) :
  StronglySorted note_le ns ->
  forall fuel p (v : V), bp_try_notes p = ns -> lo <= bp_pc p ->
  noted ns (bp_try_note_idx p) lo -> (length ns - bp_try_note_idx p < fuel)%nat ->
  exists i, notes_loop f fuel pc p v =
      Ok (at_note i p, foldl (fun v n => f pc n v) v (notes_in lo (bp_pc p) ns)) /\
    noted ns i (bp_pc p).
Proof.
  intros Hns fuel p v Ep Hlo Hn Hf. rewrite (notes_in_noted _ _ _ _ Hn). destruct Hn as [Ht Hd].
  remember (drop (bp_try_note_idx p) ns) as l eqn:El.
  assert (StronglySorted note_le l) as Hl.
  { subst l. clear -Hns. generalize (bp_try_note_idx p). induction Hns; intros [|k]; cbn; eauto; by constructor. }
  assert (Forall (fun n => tn_start n <= bp_pc p) (take (bp_try_note_idx p) ns)) as Ht'.
  { eapply list.Forall_impl; [exact Ht|]. cbn. intros; lia. }
  clear Ht Hns. revert fuel p v Ep Hlo Hd Hf El Hl Ht'. induction l as [|n l IH]; intros.
  - assert (length ns <= bp_try_note_idx p)%nat as X.
    { apply (f_equal length) in El. rewrite length_drop in El. cbn in El. lia. }
    destruct fuel as [|fuel]; [lia|].
    exists (bp_try_note_idx p). cbn [notes_loop]. unfold try_note_at_pc.
    rewrite Ep, (lookup_ge_None_2 ns) by done.
    destruct p; cbn in *. split; [done|]. split; [done|]. by rewrite <- El.
  - assert (ns !! bp_try_note_idx p = Some n) as En.
    { pose proof (lookup_drop ns (bp_try_note_idx p) 0) as X. rewrite <- El in X.
      rewrite Nat.add_0_r in X. by rewrite <- X. }
    apply list.Forall_cons in Hd as [Hn Hd].
    inversion Hl as [|? ? Hl' Hle]; subst.
    pose proof (lookup_lt_Some _ _ _ En) as Hlt. destruct fuel as [|fuel]; [lia|].
    cbn [notes_loop]. unfold try_note_at_pc. rewrite En.
    destruct (Z.leb_spec (tn_start n) (bp_pc p)) as [Hp|Hp].
    + rewrite notes_in_cons_le by lia. cbn [foldl].
      edestruct (IH fuel (at_note (S (bp_try_note_idx p)) p) (f pc n v)) as (i & Hi & Hn').
      all: try done; cbn.
      * lia.
      * pose proof (f_equal (drop 1) El) as X. rewrite drop_drop in X. cbn in X. rewrite drop_0 in X.
        rewrite X. f_equal. lia.
      * rewrite (take_S_r _ _ n) by done. apply list.Forall_app. split; [done|]. by constructor.
      * exists i. split; [exact Hi|exact Hn'].
    + exists (bp_try_note_idx p).
      assert (Forall (fun m => bp_pc p < tn_start m) (n :: l)) as Hall.
      { constructor; [done|]. eapply list.Forall_impl; [exact Hle|]. unfold note_le. intros; lia. }
      rewrite notes_in_none by done. destruct p; cbn in *. split; [done|]. split; [done|]. by rewrite <- El.
Qed.

(** ** The visit of an encoding *)

Section VisitSound.
Context (T : OpTable) (byte_of : JSOp -> Z) (HT : table_laws T byte_of) {V : Type}.
Context (v_before_op : Z -> JSOp -> Z -> Z -> V -> V).
Context (v_try_note : Z -> TryNote -> V -> V) (v_call : OpCall -> V -> V).

Lemma peek_operand (a : Z) (rest : list Z) (p : BytecodeParser) :
  in_u 16 a -> bp_data p = to_le 2 a ++ rest -> peek_uint16 p = Some a.
Proof.
  intros H E. unfold peek_uint16. rewrite E. cbn [to_le app]. f_equal.
  apply (le_bytes_to_le 2 a). exact H.
Qed.

Lemma uses_call (resume : list Z) (first : Z) (c : OpCall) (rest : list Z) (p : BytecodeParser) :
  call_wf resume first c -> bp_data p = operand_bytes first c ++ rest ->
  uses T (op_of c) p = Ok (call_uses T c).
Proof.
  intros H E. destruct c; lazy [call_wf operand_bytes] in H, E;
    lazy [uses op_of call_uses]; try (by rewrite (peek_operand _ _ _ H E), ?Z.add_0_r);
    match goal with |- context [op_nuses T ?op] =>
      destruct (tl_uses _ _ HT op eq_refl) as [k ->]; reflexivity end.
Qed.

Lemma next_op_call (op : JSOp) (rest : list Z) (p : BytecodeParser) :
  bp_data p = byte_of op :: rest -> next_op T p = Ok (Some op, skip 1 p).
Proof.
  intros E. unfold next_op, read_byte. rewrite E. rewrite (tl_byte _ _ HT).
  unfold skip. by rewrite E.
Qed.

Lemma encode_cons_length (i : Z * OpCall) (cs : list (Z * OpCall)) :
  Z.of_nat (length (encode_all byte_of (i :: cs))) =
  call_len i + Z.of_nat (length (encode_all byte_of cs)).
Proof.
  unfold encode_all. cbn [fmap list_fmap concat]. rewrite length_app, Nat2Z.inj_add.
  by rewrite encode_length.
Qed.

Lemma call_len_bound (i : Z * OpCall) : 1 <= call_len i <= 16.
Proof. unfold call_len. pose proof (operand_width_bound (op_of i.2)). lia. Qed.

Lemma visit_loop_trace (ns : list TryNote) (resume : list Z) :
  StronglySorted note_le ns ->
  forall (cs : list (Z * OpCall)) (fuel : nat) (lo : Z) (p : BytecodeParser) (v : V),
  Forall (fun i => call_wf resume i.1 i.2) cs ->
  bp_data p = encode_all byte_of cs -> bp_try_notes p = ns -> bp_resume_offsets p = resume ->
  0 <= bp_pc p -> bp_pc p + Z.of_nat (length (bp_data p)) < 2 ^ 32 ->
  lo <= bp_pc p -> noted ns (bp_try_note_idx p) lo -> (length (bp_data p) < fuel)%nat ->
  visit_loop T v_before_op v_try_note v_call fuel (bp_pc p) p v =
  Ok (trace T v_before_op v_try_note v_call ns lo (bp_pc p) cs v).
Proof.
  intros Hns cs. induction cs as [|i cs IH]; intros fuel lo p v Hw Ed En Er Hpc Hb Hlo Hn Hf.
  - destruct fuel as [|fuel]; [lia|]. cbn [visit_loop trace]. unfold next_op, read_byte.
    rewrite Ed. reflexivity.
  - apply list.Forall_cons in Hw as [Hi Hw]. destruct fuel as [|fuel]; [lia|].
    pose proof (encode_cons_length i cs) as Hl. pose proof (call_len_bound i) as Hk.
    assert (bp_data p = encode byte_of i ++ encode_all byte_of cs) as Ed' by exact Ed.
    assert (in_u 32 (bp_pc p)) as Hp by (unfold in_u; lia).
    cbn [visit_loop trace]. rewrite (next_op_call _ _ _ Ed). cbn [mbind res_bind].
    assert (bp_data (skip 1 p) = operand_bytes i.1 i.2 ++ encode_all byte_of cs) as E1.
    { apply (skip_data [byte_of (op_of i.2)]). exact Ed. }
    rewrite (uses_call resume i.1 i.2 _ _ Hi E1). cbn [mbind res_bind].
    rewrite (visit_op_runs resume i.1 i.2 Hi (skip 1 p) _ (skip_ok 1 p) Er E1). cbn [mbind res_bind].
    rewrite skip_skip. change (1 + length (operand_bytes i.1 i.2))%nat with (length (encode byte_of i)).
    remember (skip (length (encode byte_of i)) p) as p' eqn:Ep'.
    assert (bp_data p' = encode_all byte_of cs) as E2 by (subst p'; exact (skip_data _ _ _ Ed')).
    assert (bp_try_notes p' = ns /\ bp_resume_offsets p' = resume /\
            bp_try_note_idx p' = bp_try_note_idx p) as (En' & Er' & Ei) by (by subst p').
    rewrite Ed in Hb.
    assert (bp_pc p' = bp_pc p + call_len i) as E3.
    { subst p'. unfold skip, u32_add; cbn [bp_pc]. rewrite encode_length. apply wrap_u_small. unfold in_u. lia. }
    assert (Z.of_nat (remaining p - remaining p') = call_len i) as ->.
    { unfold remaining. rewrite E2, Ed. lia. }
    rewrite (tl_len T byte_of HT). fold (call_len i). rewrite Z.eqb_refl. cbn [negb].
    assert (u32_add (bp_pc p) (call_len i) = bp_pc p') as ->.
    { rewrite E3. unfold u32_add. apply wrap_u_small. unfold in_u. lia. }
    assert (lo <= bp_pc p') as Hlo' by (rewrite E3; lia).
    assert (length ns - bp_try_note_idx p' < S (length (bp_try_notes p')))%nat as Hfn.
    { rewrite En'. lia. }
    destruct (notes_loop_spec v_try_note ns (bp_pc p') lo Hns _ p'
      (v_call i.2 (v_before_op (bp_pc p) (op_of i.2) (call_uses T i.2) (op_ndefs T (op_of i.2)) v))
      En' Hlo' ltac:(by rewrite Ei) Hfn) as (k & -> & Hk').
    cbn [mbind res_bind]. rewrite <- E3. apply (IH fuel (bp_pc p') (at_note k p')); try done.
    + cbn. rewrite E3. lia.
    + cbn. rewrite E2, E3. lia.
    + cbn. rewrite E2. rewrite Ed in Hf. lia.
Qed.

(** The visit of a script that is an encoding. *)
Lemma visit_trace (s : Script) (cs : list (Z * OpCall)) (v : V) :
  sc_bytecode s = encode_all byte_of cs ->
  Forall (fun i => call_wf (sc_resume_offsets s) i.1 i.2) cs ->
  Forall (fun n => 0 <= tn_start n) (sc_try_notes s) ->
  Z.of_nat (length (sc_bytecode s)) < 2 ^ 32 ->
  visit T v_before_op v_try_note v_call (parser s) v =
  Ok (trace T v_before_op v_try_note v_call (sort_notes (sc_try_notes s)) (-1) 0 cs v).
Proof.
  intros Ed Hw Hn Hb. unfold visit. change 0 with (bp_pc (parser s)) at 1 2.
  apply (visit_loop_trace _ (sc_resume_offsets s)); try done; cbn; try lia.
  - apply sort_notes_sorted.
  - split; [by constructor|]. rewrite sort_notes_perm. eapply list.Forall_impl; [exact Hn|].
    cbn. intros; lia.
Qed.

(** The op iterator sees the same ops. *)
Lemma opcodes_loop_encoding (cs : list (Z * OpCall)) (fuel : nat) (p : BytecodeParser) :
  bp_data p = encode_all byte_of cs -> (length (bp_data p) < fuel)%nat ->
  opcodes_loop T fuel p = Ok ((fun i => op_of i.2) <$> cs).
Proof.
  revert fuel p. induction cs as [|i cs IH]; intros [|fuel] p Ed Hf; try lia; cbn [opcodes_loop].
  - unfold next_op, read_byte. by rewrite Ed.
  - rewrite (next_op_call _ _ _ Ed). cbn [mbind res_bind].
    pose proof (call_len_bound i) as Hk. pose proof (encode_cons_length i cs) as Hl.
    assert (bp_data (skip 1 p) = operand_bytes i.1 i.2 ++ encode_all byte_of cs) as E1.
    { apply (skip_data [byte_of (op_of i.2)]). exact Ed. }
    rewrite (tl_len _ _ HT). fold (call_len i).
    assert (wrap_u 64 (call_len i - 1) = Z.of_nat (length (operand_bytes i.1 i.2))) as ->.
    { rewrite operand_bytes_length. unfold call_len. rewrite wrap_u_small; [lia|].
      pose proof (operand_width_bound (op_of i.2)). unfold in_u. lia. }
    unfold advance. rewrite E1, length_app. destruct (Z.ltb_spec
      (Z.of_nat (length (operand_bytes i.1 i.2) + length (encode_all byte_of cs)))
      (Z.of_nat (length (operand_bytes i.1 i.2)))); [lia|].
    rewrite Nat2Z.id, drop_app_length. cbn [mbind res_bind].
    rewrite IH; [reflexivity|reflexivity|]. cbn. rewrite Ed in Hf. lia.
Qed.
End VisitSound.

(** ** Termination

    Every step of the parser leaves a suffix of the bytes, so the fuel of a
    visit, the bytes and one more, is never exhausted. *)

Definition shrinks {A} (r : bread A) : Prop :=
  forall p a p', r p = Some (a, p') -> (remaining p' <= remaining p)%nat.

Definition bp_shrinks {A} (m : bp A) : Prop :=
  forall p, match m p with
            | Ok (_, p') => (remaining p' <= remaining p)%nat
            | OutOfFuel => False
            | _ => True
            end.

Lemma shrinks_ret {A} (a : A) : shrinks (bread_ret a).
Proof. intros p b p' [= <- <-]. done. Qed.

Lemma shrinks_bind {A B} (r : bread A) (f : A -> bread B) :
  shrinks r -> (forall a, shrinks (f a)) -> shrinks (bread_bind r f).
Proof.
  intros Hr Hf p b p'. unfold bread_bind. destruct (r p) as [[a q]|] eqn:E; [|done].
  intros E'. apply Hr in E. apply Hf in E'. lia.
Qed.

Lemma read_byte_shrinks : shrinks read_byte.
Proof.
  intros p b p'. unfold read_byte, remaining. destruct (bp_data p); [done|]. intros [= <- <-]. cbn. lia.
Qed.

#[export] Hint Resolve shrinks_ret shrinks_bind read_byte_shrinks : bytecode.

Lemma next_uint32_shrinks : shrinks next_uint32.
Proof. unfold next_uint32. auto 10 with bytecode. Qed.

#[export] Hint Resolve next_uint32_shrinks : bytecode.

Lemma readers_shrink :
  shrinks next_uint8 /\ shrinks next_uint16 /\ shrinks next_uint24 /\ shrinks next_uint64 /\
  shrinks next_int32.
Proof.
  unfold next_uint8, next_uint16, next_uint24, next_uint64, next_int32.
  repeat split; auto 10 with bytecode.
Qed.

Lemma unwrap_shrinks {A} (r : bread A) : shrinks r -> bp_shrinks (unwrap r).
Proof.
  intros H p. unfold unwrap. destruct (r p) as [[a p']|] eqn:E; [|done]. by apply H in E.
Qed.

Lemma bp_bind_shrinks {A B} (m : bp A) (f : A -> bp B) :
  bp_shrinks m -> (forall a, bp_shrinks (f a)) -> bp_shrinks (bp_bind m f).
Proof.
  intros Hm Hf p. unfold bp_bind. specialize (Hm p). destruct (m p) as [[a q]|e|r|]; try done.
  cbn. specialize (Hf a q). destruct (f a q) as [[b q']|e|r|]; try done. lia.
Qed.

Lemma bp_ret_shrinks {A} (a : A) : bp_shrinks (bp_ret a).
Proof. intros p. exact (Nat.le_refl _). Qed.

Lemma table_switch_shrinks : bp_shrinks table_switch_arm.
Proof.
  destruct readers_shrink as (_ & _ & H24 & _ & H32). unfold table_switch_arm.
  do 4 (apply bp_bind_shrinks; [apply unwrap_shrinks; assumption|intros ?]).
  cbv zeta. destruct (_ <? 0); intros p; [done|]. unfold slice. destruct (andb _ _); [|done].
  exact (Nat.le_refl _).
Qed.

Lemma visit_op_shrinks (op : JSOp) : bp_shrinks (visit_op op).
Proof.
  destruct readers_shrink as (H8 & H16 & H24 & H64 & H32). pose proof next_uint32_shrinks as HU.
  destruct op;
    lazy [visit_op visit_values visit_objects visit_calls visit_control first_arm fold_right];
    try exact table_switch_shrinks; try exact (bp_ret_shrinks _);
    unfold arm1, arm2; repeat (apply bp_bind_shrinks; [apply unwrap_shrinks; assumption|intros ?]);
    apply bp_ret_shrinks.
Qed.

Section Terminates.
Context (T : OpTable) {V : Type}.
Context (v_before_op : Z -> JSOp -> Z -> Z -> V -> V).
Context (v_try_note : Z -> TryNote -> V -> V) (v_call : OpCall -> V -> V).

Lemma notes_loop_fuel (fuel : nat) (pc : Z) (p : BytecodeParser) (v : V) :
  (length (bp_try_notes p) - bp_try_note_idx p < fuel)%nat ->
  exists p' v', notes_loop v_try_note fuel pc p v = Ok (p', v') /\ remaining p' = remaining p.
Proof.
  revert p v. induction fuel as [|fuel IH]; intros p v Hf; [lia|]. cbn [notes_loop].
  unfold try_note_at_pc. destruct (_ !! _) as [n|] eqn:E; [|by eauto].
  destruct (_ <=? _); [|by eauto]. apply lookup_lt_Some in E.
  edestruct (IH (at_note (S (bp_try_note_idx p)) p)) as (p' & v' & Ev & Er); [cbn; lia|].
  exists p', v'. split; [exact Ev|]. exact Er.
Qed.

Lemma visit_loop_fuel (fuel : nat) (pc : Z) (p : BytecodeParser) (v : V) :
  (remaining p < fuel)%nat -> visit_loop T v_before_op v_try_note v_call fuel pc p v <> OutOfFuel.
Proof.
  revert pc p v. induction fuel as [|fuel IH]; intros pc p v Hf; [lia|]. cbn [visit_loop].
  unfold next_op, read_byte, remaining in *. destruct (bp_data p) as [|b data] eqn:Ed; [done|].
  destruct (from_byte T b) as [op|]; [|done]. cbn [mbind res_bind].
  match goal with |- context [uses T op ?q] => set (q0 := q) end.
  assert (uses T op q0 <> OutOfFuel) as Hu.
  { unfold uses. destruct op; repeat case_match; done. }
  destruct (uses T op q0) as [k|e|r|]; try done. cbn [mbind res_bind].
  pose proof (visit_op_shrinks op q0) as Hs. destruct (visit_op op q0) as [[c q]|e|r|]; try done.
  cbn [mbind res_bind]. destruct (negb _); [done|].
  edestruct (notes_loop_fuel (S (length (bp_try_notes q)))) as (q' & v' & -> & Er); [lia|].
  cbn [mbind res_bind]. apply IH. unfold remaining, q0 in *. cbn in *. lia.
Qed.

Lemma visit_fuel (p : BytecodeParser) (v : V) :
  visit T v_before_op v_try_note v_call p v <> OutOfFuel.
Proof. apply visit_loop_fuel. unfold remaining. lia. Qed.
End Terminates.

(** ** A table

    A numbering of the opcodes by the order of the dispatch, which has the laws
    the theorems assume. *)

Definition all_ops : list JSOp :=
  [J_Undefined; J_Null; J_False; J_True; J_Int32; J_Zero; J_One; J_Int8; J_Uint16; J_Uint24;
   J_Double; J_BigInt; J_String; J_Symbol; J_Void; J_Typeof; J_TypeofExpr; J_TypeofEq; J_Pos;
   J_Neg; J_BitNot; J_Not; J_BitOr; J_BitXor; J_BitAnd; J_Eq; J_Ne; J_StrictEq; J_StrictNe;
   J_StrictConstantEq; J_StrictConstantNe; J_Lt; J_Gt; J_Le; J_Ge; J_Instanceof; J_In; J_Lsh;
   J_Rsh; J_Ursh; J_Add; J_Sub; J_Inc; J_Dec; J_Mul; J_Div; J_Mod; J_Pow; J_NopIsAssignOp;
   J_ToPropertyKey; J_ToNumeric; J_ToString; J_IsNullOrUndefined; J_GlobalThis;
   J_NonSyntacticGlobalThis; J_NewTarget; J_DynamicImport; J_ImportMeta; J_NewInit; J_NewObject;
   J_Object; J_ObjWithProto; J_InitProp; J_InitHiddenProp; J_InitLockedProp; J_InitElem;
   J_InitHiddenElem; J_InitLockedElem; J_InitPropGetter; J_InitHiddenPropGetter;
   J_InitElemGetter; J_InitHiddenElemGetter; J_InitPropSetter; J_InitHiddenPropSetter;
   J_InitElemSetter; J_InitHiddenElemSetter; J_GetProp; J_GetElem; J_SetProp; J_StrictSetProp;
   J_SetElem; J_StrictSetElem; J_DelProp; J_StrictDelProp; J_DelElem; J_StrictDelElem; J_HasOwn;
   J_CheckPrivateField; J_NewPrivateName; J_SuperBase; J_GetPropSuper; J_GetElemSuper;
   J_SetPropSuper; J_StrictSetPropSuper; J_SetElemSuper; J_StrictSetElemSuper; J_Iter;
   J_MoreIter; J_IsNoIter; J_EndIter; J_CloseIter; J_OptimizeGetIterator; J_CheckIsObj;
   J_CheckObjCoercible; J_ToAsyncIter; J_MutateProto; J_NewArray; J_InitElemArray;
   J_InitElemInc; J_Hole; J_RegExp; J_Lambda; J_SetFunName; J_InitHomeObject;
   J_CheckClassHeritage; J_FunWithProto; J_BuiltinObject; J_Call; J_CallContent; J_CallIter;
   J_CallContentIter; J_CallIgnoresRv; J_SpreadCall; J_OptimizeSpreadCall; J_Eval; J_SpreadEval;
   J_StrictEval; J_StrictSpreadEval; J_ImplicitThis; J_CallSiteObj; J_IsConstructing; J_New;
   J_NewContent; J_SuperCall; J_SpreadNew; J_SpreadSuperCall; J_SuperFun; J_CheckThisReinit;
   J_Generator; J_InitialYield; J_AfterYield; J_FinalYieldRval; J_Yield; J_IsGenClosing;
   J_AsyncAwait; J_AsyncResolve; J_AsyncReject; J_Await; J_CanSkipAwait;
   J_MaybeExtractAwaitValue; J_ResumeKind; J_CheckResumeKind; J_Resume; J_JumpTarget;
   J_LoopHead; J_Goto; J_JumpIfFalse; J_JumpIfTrue; J_And; J_Or; J_Coalesce; J_Case; J_Default;
   J_TableSwitch; J_Return; J_GetRval; J_SetRval; J_RetRval; J_CheckReturn; J_Throw;
   J_ThrowWithStack; J_CreateSuppressedError; J_ThrowMsg; J_ThrowSetConst; J_Try;
   J_TryDestructuring; J_Exception; J_ExceptionAndStack; J_Finally; J_Uninitialized;
   J_InitLexical; J_InitGLexical; J_InitAliasedLexical; J_CheckLexical; J_CheckAliasedLexical;
   J_CheckThis; J_BindUnqualifiedGName; J_BindUnqualifiedName; J_BindName; J_GetName;
   J_GetGName; J_GetArg; J_GetFrameArg; J_GetLocal; J_ArgumentsLength; J_GetActualArg;
   J_GetAliasedVar; J_GetAliasedDebugVar; J_GetImport; J_GetBoundName; J_GetIntrinsic; J_Callee;
   J_EnvCallee; J_SetName; J_StrictSetName; J_SetGName; J_StrictSetGName; J_SetArg; J_SetLocal;
   J_SetAliasedVar; J_SetIntrinsic; J_PushLexicalEnv; J_PopLexicalEnv; J_DebugLeaveLexicalEnv;
   J_RecreateLexicalEnv; J_FreshenLexicalEnv; J_PushClassBodyEnv; J_PushVarEnv; J_EnterWith;
   J_LeaveWith; J_AddDisposable; J_TakeDisposeCapability; J_BindVar;
   J_GlobalOrEvalDeclInstantiation; J_DelName; J_Arguments; J_Rest; J_FunctionThis; J_Pop;
   J_PopN; J_Dup; J_Dup2; J_DupAt; J_Swap; J_Pick; J_Unpick; J_Nop; J_Lineno;
   J_NopDestructuring; J_ForceInterpreter; J_DebugCheckSelfHosted; J_Debugger].

Definition op_index (op : JSOp) : Z :=
  match op with
  | J_Undefined => 0 | J_Null => 1 | J_False => 2 | J_True => 3 | J_Int32 => 4 | J_Zero => 5 |
   J_One => 6 | J_Int8 => 7 | J_Uint16 => 8 | J_Uint24 => 9 | J_Double => 10 | J_BigInt => 11 |
   J_String => 12 | J_Symbol => 13 | J_Void => 14 | J_Typeof => 15 | J_TypeofExpr => 16 |
   J_TypeofEq => 17 | J_Pos => 18 | J_Neg => 19 | J_BitNot => 20 | J_Not => 21 | J_BitOr => 22 |
   J_BitXor => 23 | J_BitAnd => 24 | J_Eq => 25 | J_Ne => 26 | J_StrictEq => 27 | J_StrictNe =>
   28 | J_StrictConstantEq => 29 | J_StrictConstantNe => 30 | J_Lt => 31 | J_Gt => 32 | J_Le =>
   33 | J_Ge => 34 | J_Instanceof => 35 | J_In => 36 | J_Lsh => 37 | J_Rsh => 38 | J_Ursh => 39
   | J_Add => 40 | J_Sub => 41 | J_Inc => 42 | J_Dec => 43 | J_Mul => 44 | J_Div => 45 | J_Mod
   => 46 | J_Pow => 47 | J_NopIsAssignOp => 48 | J_ToPropertyKey => 49 | J_ToNumeric => 50 |
   J_ToString => 51 | J_IsNullOrUndefined => 52 | J_GlobalThis => 53 | J_NonSyntacticGlobalThis
   => 54 | J_NewTarget => 55 | J_DynamicImport => 56 | J_ImportMeta => 57 | J_NewInit => 58 |
   J_NewObject => 59 | J_Object => 60 | J_ObjWithProto => 61 | J_InitProp => 62 |
   J_InitHiddenProp => 63 | J_InitLockedProp => 64 | J_InitElem => 65 | J_InitHiddenElem => 66 |
   J_InitLockedElem => 67 | J_InitPropGetter => 68 | J_InitHiddenPropGetter => 69 |
   J_InitElemGetter => 70 | J_InitHiddenElemGetter => 71 | J_InitPropSetter => 72 |
   J_InitHiddenPropSetter => 73 | J_InitElemSetter => 74 | J_InitHiddenElemSetter => 75 |
   J_GetProp => 76 | J_GetElem => 77 | J_SetProp => 78 | J_StrictSetProp => 79 | J_SetElem => 80
   | J_StrictSetElem => 81 | J_DelProp => 82 | J_StrictDelProp => 83 | J_DelElem => 84 |
   J_StrictDelElem => 85 | J_HasOwn => 86 | J_CheckPrivateField => 87 | J_NewPrivateName => 88 |
   J_SuperBase => 89 | J_GetPropSuper => 90 | J_GetElemSuper => 91 | J_SetPropSuper => 92 |
   J_StrictSetPropSuper => 93 | J_SetElemSuper => 94 | J_StrictSetElemSuper => 95 | J_Iter => 96
   | J_MoreIter => 97 | J_IsNoIter => 98 | J_EndIter => 99 | J_CloseIter => 100 |
   J_OptimizeGetIterator => 101 | J_CheckIsObj => 102 | J_CheckObjCoercible => 103 |
   J_ToAsyncIter => 104 | J_MutateProto => 105 | J_NewArray => 106 | J_InitElemArray => 107 |
   J_InitElemInc => 108 | J_Hole => 109 | J_RegExp => 110 | J_Lambda => 111 | J_SetFunName =>
   112 | J_InitHomeObject => 113 | J_CheckClassHeritage => 114 | J_FunWithProto => 115 |
   J_BuiltinObject => 116 | J_Call => 117 | J_CallContent => 118 | J_CallIter => 119 |
   J_CallContentIter => 120 | J_CallIgnoresRv => 121 | J_SpreadCall => 122 |
   J_OptimizeSpreadCall => 123 | J_Eval => 124 | J_SpreadEval => 125 | J_StrictEval => 126 |
   J_StrictSpreadEval => 127 | J_ImplicitThis => 128 | J_CallSiteObj => 129 | J_IsConstructing
   => 130 | J_New => 131 | J_NewContent => 132 | J_SuperCall => 133 | J_SpreadNew => 134 |
   J_SpreadSuperCall => 135 | J_SuperFun => 136 | J_CheckThisReinit => 137 | J_Generator => 138
   | J_InitialYield => 139 | J_AfterYield => 140 | J_FinalYieldRval => 141 | J_Yield => 142 |
   J_IsGenClosing => 143 | J_AsyncAwait => 144 | J_AsyncResolve => 145 | J_AsyncReject => 146 |
   J_Await => 147 | J_CanSkipAwait => 148 | J_MaybeExtractAwaitValue => 149 | J_ResumeKind =>
   150 | J_CheckResumeKind => 151 | J_Resume => 152 | J_JumpTarget => 153 | J_LoopHead => 154 |
   J_Goto => 155 | J_JumpIfFalse => 156 | J_JumpIfTrue => 157 | J_And => 158 | J_Or => 159 |
   J_Coalesce => 160 | J_Case => 161 | J_Default => 162 | J_TableSwitch => 163 | J_Return => 164
   | J_GetRval => 165 | J_SetRval => 166 | J_RetRval => 167 | J_CheckReturn => 168 | J_Throw =>
   169 | J_ThrowWithStack => 170 | J_CreateSuppressedError => 171 | J_ThrowMsg => 172 |
   J_ThrowSetConst => 173 | J_Try => 174 | J_TryDestructuring => 175 | J_Exception => 176 |
   J_ExceptionAndStack => 177 | J_Finally => 178 | J_Uninitialized => 179 | J_InitLexical => 180
   | J_InitGLexical => 181 | J_InitAliasedLexical => 182 | J_CheckLexical => 183 |
   J_CheckAliasedLexical => 184 | J_CheckThis => 185 | J_BindUnqualifiedGName => 186 |
   J_BindUnqualifiedName => 187 | J_BindName => 188 | J_GetName => 189 | J_GetGName => 190 |
   J_GetArg => 191 | J_GetFrameArg => 192 | J_GetLocal => 193 | J_ArgumentsLength => 194 |
   J_GetActualArg => 195 | J_GetAliasedVar => 196 | J_GetAliasedDebugVar => 197 | J_GetImport =>
   198 | J_GetBoundName => 199 | J_GetIntrinsic => 200 | J_Callee => 201 | J_EnvCallee => 202 |
   J_SetName => 203 | J_StrictSetName => 204 | J_SetGName => 205 | J_StrictSetGName => 206 |
   J_SetArg => 207 | J_SetLocal => 208 | J_SetAliasedVar => 209 | J_SetIntrinsic => 210 |
   J_PushLexicalEnv => 211 | J_PopLexicalEnv => 212 | J_DebugLeaveLexicalEnv => 213 |
   J_RecreateLexicalEnv => 214 | J_FreshenLexicalEnv => 215 | J_PushClassBodyEnv => 216 |
   J_PushVarEnv => 217 | J_EnterWith => 218 | J_LeaveWith => 219 | J_AddDisposable => 220 |
   J_TakeDisposeCapability => 221 | J_BindVar => 222 | J_GlobalOrEvalDeclInstantiation => 223 |
   J_DelName => 224 | J_Arguments => 225 | J_Rest => 226 | J_FunctionThis => 227 | J_Pop => 228
   | J_PopN => 229 | J_Dup => 230 | J_Dup2 => 231 | J_DupAt => 232 | J_Swap => 233 | J_Pick =>
   234 | J_Unpick => 235 | J_Nop => 236 | J_Lineno => 237 | J_NopDestructuring => 238 |
   J_ForceInterpreter => 239 | J_DebugCheckSelfHosted => 240 | J_Debugger => 241
  end.

Definition dispatch_table : OpTable :=
  mkOpTable (fun b => all_ops !! Z.to_nat b) (fun op => 1 + operand_width op) (fun _ => Some 1)
    (fun _ => 1).

Lemma dispatch_table_laws : table_laws dispatch_table op_index.
Proof. split; [by intros []|done|by intros; exists 1]. Qed.
