(* ===== verification/Live.v ===== *)
(** * Live: per-offset liveness of a script's frame slots

    [compiler/src/wasm/bbv/live.rs]: the bytecode scan that collects what each
    op reads and writes, the successor relation of the ops, the backward
    dataflow over words of bits, and the queries. One bit per local, then one
    per formal, then one per global binding the script reads; a [Vec<u64>] is
    a list of words and the flat [live_in] vector is indexed as in the code. *)

From S2P Require Import Prelude Mem Source Bytecode.

(** [Pc::branch]. *)
Definition branch (pc off : Z) : Z := wrap_u 32 (pc + off).

Inductive Flow :=
  | FBr (t : Z)
  | FCondBr (t : Z)
  | FSwitch (ts : list Z)
  | FRet
  | FHalt.

Record OpRec := mkOpRec {
  or_pc : Z;
  or_len : Z;
  or_uses : list Z;
  or_defs : list Z }.

(** The state of the scan. *)
Record LiveScan := mkLiveScan {
  ls_pc : Z;
  ls_ops : list OpRec;
  ls_flow : gmap Z Flow;
  ls_handlers : list (Z * Z * Z) }.

Definition set_bit (v : list Z) (bit : Z) : list Z :=
  alter (fun w => Z.lor w (Z.shiftl 1 (bit mod 64))) (Z.to_nat (bit / 64)) v.

(** [self.cur()] is the last record, which [before_op] pushed. *)
Definition on_cur (f : OpRec -> OpRec) (st : LiveScan) : LiveScan :=
  mkLiveScan (ls_pc st) (alter f (pred (length (ls_ops st))) (ls_ops st)) (ls_flow st) (ls_handlers st).

Definition use_bit (bit : Z) : LiveScan -> LiveScan :=
  on_cur (fun o => mkOpRec (or_pc o) (or_len o) (set_bit (or_uses o) bit) (or_defs o)).
Definition def_bit (bit : Z) : LiveScan -> LiveScan :=
  on_cur (fun o => mkOpRec (or_pc o) (or_len o) (or_uses o) (set_bit (or_defs o) bit)).
Definition use_all : LiveScan -> LiveScan :=
  on_cur (fun o => mkOpRec (or_pc o) (or_len o) ((fun _ => 2 ^ 64 - 1) <$> or_uses o) (or_defs o)).
Definition set_flow (f : Flow) (st : LiveScan) : LiveScan :=
  mkLiveScan (ls_pc st) (ls_ops st) (<[ls_pc st := f]> (ls_flow st)) (ls_handlers st).

(** [max_locals] of [wasm/translate.rs]. *)
Definition max_locals_call (c : OpCall) (max : Z) : Z :=
  match c with
  | V_get_local n | V_set_local n | V_init_lexical n => Z.max max (u32_add n 1)
  | _ => max
  end.

Definition max_locals (T : OpTable) (s : Script) : res Z :=
  visit T (fun _ _ _ _ m => m) (fun _ _ m => m) max_locals_call (parser s) 0.

(** The global bindings a script reads, in order of first read. *)
Definition gscan_call (bid_of : Z -> option Z) (c : OpCall) (gbids : list Z) : list Z :=
  match c with
  | V_get_g_name name_index =>
      match bid_of name_index with
      | Some b => if bool_decide (b ∈ gbids) then gbids else gbids ++ [b]
      | None => gbids
      end
  | _ => gbids
  end.

Section Scan.
Context (T : OpTable) (nlocals nargs : Z) (words : nat).
Context (bid_of : Z -> option Z) (gbids : list Z).

Definition position (b : Z) : option nat := fst <$> list_find (eq b) gbids.

Definition use_arg (a : Z) : LiveScan -> LiveScan := use_bit (u32_add nlocals a).
Definition def_arg (a : Z) : LiveScan -> LiveScan := def_bit (u32_add nlocals a).
Definition use_all_args (st : LiveScan) : LiveScan :=
  foldl (fun st a => use_arg (Z.of_nat a) st) st (seq 0 (Z.to_nat nargs)).

Definition live_before_op (pc : Z) (op : JSOp) (u d : Z) (st : LiveScan) : LiveScan :=
  mkLiveScan pc (ls_ops st ++ [mkOpRec pc (op_len T op) (replicate words 0) (replicate words 0)])
    (ls_flow st) (ls_handlers st).

Definition live_try_note (pc : Z) (note : TryNote) (st : LiveScan) : LiveScan :=
  match tn_kind note with
  | TN_Catch | TN_Finally =>
      let end_ := u32_add (tn_start note) (tn_length note) in
      mkLiveScan (ls_pc st) (ls_ops st) (ls_flow st) (ls_handlers st ++ [(tn_start note, end_, end_)])
  | _ => st
  end.

Definition live_call (c : OpCall) (st : LiveScan) : LiveScan :=
  let target off := branch (ls_pc st) off in
  match c with
  | V_get_g_name name_index =>
      match bid_of name_index with
      | Some b =>
          match position b with
          | Some k => use_bit (u32_add (u32_add nlocals nargs) (Z.of_nat k)) st
          | None => st
          end
      | None => st
      end
  | V_get_local l | V_check_lexical l => use_bit l st
  | V_set_local l | V_init_lexical l => def_bit l st
  | V_get_arg a | V_get_frame_arg a => use_arg a st
  | V_set_arg a => def_arg a st
  | V_arguments | V_rest | V_get_actual_arg | V_arguments_length => use_all_args st
  | V_generator | V_initial_yield _ | V_yield_ _ | V_await_ _ | V_resume | V_after_yield _
  | V_eval _ | V_strict_eval _ | V_spread_eval | V_strict_spread_eval | V_debugger
  | V_force_interpreter | V_get_aliased_debug_var _ _ => use_all st
  | V_goto_ off | V_default_ off => set_flow (FBr (target off)) st
  | V_jump_if_false off | V_jump_if_true off | V_and_ off | V_or_ off | V_coalesce off
  | V_case_ off => set_flow (FCondBr (target off)) st
  | V_table_switch default_off _ _ offsets => set_flow (FSwitch (offsets ++ [target default_off])) st
  | V_return_ | V_ret_rval => set_flow FRet st
  | V_throw_ | V_throw_with_stack | V_throw_msg _ | V_throw_set_const _ => set_flow FHalt st
  | _ => st
  end.

End Scan.

(** ** Successors *)

(** [binary_search] of the ascending op offsets. *)
Definition pc_index (pcs : list Z) (pc : Z) : option nat := fst <$> list_find (eq pc) pcs.

(** [partition_point(|&p| p < bound)]. *)
Fixpoint partition_point (f : Z -> bool) (l : list Z) : nat :=
  match l with
  | [] => O
  | x :: l => if f x then S (partition_point f l) else O
  end.

Definition op_succs (pcs : list Z) (flow : gmap Z Flow) (o : OpRec) : list nat :=
  let one pc := option_list (pc_index pcs pc) in
  let next := one (u32_add (or_pc o) (or_len o)) in
  match flow !! or_pc o with
  | None => next
  | Some (FBr t) => one t
  | Some (FCondBr t) => one t ++ next
  | Some (FSwitch ts) => mjoin (one <$> ts)
  | Some FRet | Some FHalt => []
  end.

(** A landing pad is a successor of every op its note covers. *)
Definition handler_succs (pcs : list Z) (succs : list (list nat)) (h : Z * Z * Z)
    : res (list (list nat)) :=
  let '(start, end_, landing) := h in
  match pc_index pcs landing with
  | None => Ok succs
  | Some k =>
      let lo := partition_point (fun p => p <? start) pcs in
      let hi := partition_point (fun p => p <? end_) pcs in
      if (hi <? lo)%nat then Panic PSlice
      else Ok (imap (fun i s => if ((lo <=? i) && (i <? hi))%nat then s ++ [k] else s) succs)
  end.

Fixpoint handlers_succs (pcs : list Z) (succs : list (list nat)) (hs : list (Z * Z * Z))
    : res (list (list nat)) :=
  match hs with
  | [] => Ok succs
  | h :: hs => succs ← handler_succs pcs succs h; handlers_succs pcs succs hs
  end.

(** ** The dataflow *)

Section Flow.
Context (words : nat) (ops : list OpRec) (succs : list (list nat)).

(** The words of an op. *)
Definition row (live_in : list Z) (j : nat) : list Z := take words (drop (j * words) live_in).

Definition live_out (live_in : list Z) (js : list nat) : list Z :=
  foldl (fun out j => zip_with Z.lor out (row live_in j)) (replicate words 0) js.

(** [uses | (out & !defs)], word by word. *)
Definition transfer (o : OpRec) (out : list Z) : list Z :=
  zip_with (fun u w => Z.lor u w) (or_uses o)
    (zip_with (fun w d => Z.land w (not_u 64 d)) out (or_defs o)).

Definition live_step (st : list Z * bool) (i : nat) : list Z * bool :=
  let '(live_in, changed) := st in
  match ops !! i, succs !! i with
  | Some o, Some js =>
      let v := transfer o (live_out live_in js) in
      (list_inserts (i * words) v live_in, changed || negb (bool_decide (row live_in i = v)))
  | _, _ => st
  end.

Definition live_pass (live_in : list Z) : list Z * bool :=
  foldl live_step (live_in, false) (rev (seq 0 (length ops))).

Fixpoint live_loop (fuel : nat) (live_in : list Z) : res (list Z) :=
  match fuel with
  | O => OutOfFuel
  | S fuel =>
      let '(live_in, changed) := live_pass live_in in
      if changed then live_loop fuel live_in else Ok live_in
  end.

End Flow.

(** ** The table *)

Record ScriptLive := mkScriptLive {
  sl_nlocals : Z;
  sl_nargs : Z;
  sl_words : nat;
  sl_pcs : list Z;
  sl_live_in : list Z;
  sl_gbids : list Z }.

(** A pass that changes a word sets a bit: [64] a word and one pass more. *)
Definition live_fuel (words n : nat) : nat := 2 + n * words * 64.

Definition build (T : OpTable) (script : Script) (bid_of : Z -> option Z) : res ScriptLive :=
  nlocals ← max_locals T script;
  let nargs := sc_nargs script in
  gbids ← visit T (fun _ _ _ _ g => g) (fun _ _ g => g) (gscan_call bid_of) (parser script) [];
  let nbits := u32_add (u32_add nlocals nargs) (Z.of_nat (length gbids)) in
  let words := Z.to_nat ((nbits + 63) / 64) in
  s ← visit T (live_before_op T words) live_try_note (live_call nlocals nargs bid_of gbids)
        (parser script) (mkLiveScan 0 [] ∅ []);
  let pcs := or_pc <$> ls_ops s in
  succs ← handlers_succs pcs (op_succs pcs (ls_flow s) <$> ls_ops s) (ls_handlers s);
  live_in ← live_loop words (ls_ops s) succs (live_fuel words (length pcs))
              (replicate (length pcs * words) 0);
  Ok (mkScriptLive nlocals nargs words pcs live_in gbids).

(** The words of [live_in] are there for every op boundary. *)
Definition bit (L : ScriptLive) (pc bit : Z) : bool :=
  match pc_index (sl_pcs L) pc with
  | None => true
  | Some i =>
      let w := Z.to_nat (bit / 64) in
      (sl_words L <=? w)%nat
      || negb (Z.land (nth (i * sl_words L + w) (sl_live_in L) 0) (Z.shiftl 1 (bit mod 64)) =? 0)
  end.

Definition local_live (L : ScriptLive) (pc l : Z) : bool := (sl_nlocals L <=? l) || bit L pc l.
Definition arg_live (L : ScriptLive) (pc a : Z) : bool := bit L pc (u32_add (sl_nlocals L) a).
Definition gcell_live (L : ScriptLive) (pc bid : Z) : bool :=
  match position (sl_gbids L) bid with
  | Some k => bit L pc (u32_add (u32_add (sl_nlocals L) (sl_nargs L)) (Z.of_nat k))
  | None => false
  end.
