(* ===== verification/LiveFlow.v ===== *)
(** * LiveFlow: the dataflow of the liveness table

    The bits of the word lists of [Live], and the backward dataflow over them:
    on every graph the loop ends within its fuel, and a bit of the table it
    ends in is set exactly when some path of the graph reads the slot before
    writing it ([live_at]). *)

From S2P Require Import Prelude Mem Source Bytecode BytecodeSound Live.

(** ** Bits of word lists *)

Definition has (v : list Z) (b : Z) : bool :=
  match v !! Z.to_nat (b / 64) with Some w => Z.testbit w (b mod 64) | None => false end.

Definition word_list (words : nat) (v : list Z) : Prop := length v = words /\ Forall (in_u 64) v.

Lemma word_bits_eq (x y : Z) :
  in_u 64 x -> in_u 64 y -> (forall k, 0 <= k < 64 -> Z.testbit x k = Z.testbit y k) -> x = y.
Proof.
  intros Hx Hy H. rewrite <- (Z.mod_small x (2 ^ 64)), <- (Z.mod_small y (2 ^ 64)) by assumption.
  apply Z.bits_inj'. intros k Hk. destruct (Z.ltb_spec k 64).
  - rewrite !Z.mod_pow2_bits_low by lia. apply H. lia.
  - rewrite !Z.mod_pow2_bits_high by lia. done.
Qed.

Lemma has_ext (words : nat) (v w : list Z) :
  word_list words v -> word_list words w ->
  (forall b, 0 <= b < 64 * Z.of_nat words -> has v b = has w b) -> v = w.
Proof.
  intros [Lv Fv] [Lw Fw] H. apply (list_eq_same_length v w words); [done|done|].
  intros i x y Hi Ex Ey. apply word_bits_eq.
  - rewrite list.Forall_forall in Fv. apply Fv. by eapply list_elem_of_lookup_2.
  - rewrite list.Forall_forall in Fw. apply Fw. by eapply list_elem_of_lookup_2.
  - intros k Hk. specialize (H (64 * Z.of_nat i + k)). unfold has in H.
    rewrite (Z.mul_comm 64), Z.div_add_l, Z.div_small, Z.add_0_r, Nat2Z.id, Ex, Ey in H by lia.
    rewrite Z.add_comm, Z.mod_add, Z.mod_small in H by lia. apply H. lia.
Qed.

Lemma has_range (words : nat) (v : list Z) (b : Z) :
  length v = words -> 0 <= b -> has v b = true -> b < 64 * Z.of_nat words.
Proof.
  intros Hl Hb. unfold has. destruct (v !! _) as [w|] eqn:E; [|done]. intros _.
  apply lookup_lt_Some in E. pose proof (Z.div_mod b 64). pose proof (Z.mod_pos_bound b 64). lia.
Qed.

Lemma has_zip_lor (v w : list Z) (b : Z) :
  length v = length w -> has (zip_with Z.lor v w) b = has v b || has w b.
Proof.
  intros Hl. unfold has. rewrite lookup_zip_with.
  destruct (v !! _) as [x|] eqn:Ex; cbn; destruct (w !! _) as [y|] eqn:Ey; cbn;
    rewrite ?Z.lor_spec; try done.
  - apply lookup_ge_None in Ey. apply lookup_lt_Some in Ex. lia.
  - apply lookup_ge_None in Ex. apply lookup_lt_Some in Ey. lia.
Qed.

Lemma has_transfer (o : OpRec) (out : list Z) (b : Z) (words : nat) :
  length (or_uses o) = words -> length (or_defs o) = words -> length out = words -> 0 <= b ->
  has (transfer o out) b = has (or_uses o) b || (has out b && negb (has (or_defs o) b)).
Proof.
  intros Hu Hd Ho Hb. unfold transfer. rewrite has_zip_lor by (rewrite length_zip_with; lia).
  f_equal. unfold has. rewrite lookup_zip_with.
  destruct (out !! _) as [x|] eqn:Ex; cbn; [|done].
  destruct (or_defs o !! _) as [y|] eqn:Ey; cbn.
  - rewrite Z.land_spec. f_equal. unfold not_u. rewrite Z.lxor_spec, Z.ones_spec_low.
    + by rewrite xorb_true_r.
    + apply Z.mod_pos_bound. lia.
  - apply lookup_ge_None in Ey. apply lookup_lt_Some in Ex. lia.
Qed.

Lemma land_u64 (x y : Z) : in_u 64 x -> in_u 64 (Z.land x y).
Proof. intros [H1 H2]. pose proof (land_bound x y H1). unfold in_u. lia. Qed.

Lemma lor_u64 (x y : Z) : in_u 64 x -> in_u 64 y -> in_u 64 (Z.lor x y).
Proof.
  unfold in_u. intros [Hx1 Hx2] [Hy1 Hy2]. split; [by apply Z.lor_nonneg|].
  destruct (Z.eq_dec (Z.lor x y) 0) as [->|Hn]; [lia|].
  apply Z.log2_lt_pow2; [pose proof (proj2 (Z.lor_nonneg x y)); lia|].
  rewrite Z.log2_lor by done.
  apply Z.max_lub_lt.
  - destruct (Z.eq_dec x 0) as [->|]; [cbn; lia|]. apply Z.log2_lt_pow2; lia.
  - destruct (Z.eq_dec y 0) as [->|]; [cbn; lia|]. apply Z.log2_lt_pow2; lia.
Qed.

Lemma transfer_words (words : nat) (o : OpRec) (out : list Z) :
  word_list words (or_uses o) -> length (or_defs o) = words -> word_list words out ->
  word_list words (transfer o out).
Proof.
  intros [Lu Fu] Ld [Lo Fo]. unfold transfer. split; [rewrite !length_zip_with; lia|].
  apply list.Forall_forall. intros x Hx. apply list_elem_of_lookup_1 in Hx as [i Hx].
  rewrite lookup_zip_with in Hx. rewrite list.Forall_forall in Fu; rewrite list.Forall_forall in Fo.
  destruct (or_uses o !! i) as [u|] eqn:Eu; [|done]. cbn in Hx. rewrite lookup_zip_with in Hx.
  destruct (out !! i) as [w|] eqn:Ew; [|done]. cbn in Hx.
  destruct (or_defs o !! i); [|done]. injection Hx as <-.
  apply lor_u64; [apply Fu; by eapply list_elem_of_lookup_2|].
  apply land_u64, Fo. by eapply list_elem_of_lookup_2.
Qed.

(** ** Counting *)

Lemma count_mono {A} (f g : A -> bool) (l : list A) :
  (forall x, x ∈ l -> f x = true -> g x = true) ->
  (length (List.filter f l) <= length (List.filter g l))%nat /\
  ((exists x, x ∈ l /\ f x = false /\ g x = true) ->
   (length (List.filter f l) < length (List.filter g l))%nat).
Proof.
  induction l as [|a l IH]; intros H; cbn [List.filter].
  - split; [done|]. intros (x & Hx & _). by apply elem_of_nil in Hx.
  - destruct IH as [IH1 IH2]; [intros x Hx; apply H; by right|].
    assert (f a = true -> g a = true) as Ha by (apply H; left).
    destruct (f a) eqn:Ef; [rewrite (Ha eq_refl)|destruct (g a) eqn:Eg]; cbn [length]; split; try lia;
      intros (x & [->|Hx]%elem_of_cons & Hf & Hg); try congruence; try lia;
      assert (length (List.filter f l) < length (List.filter g l))%nat by eauto; lia.
Qed.

Lemma existsb_none {A} (f : A -> bool) (l : list A) :
  (forall a, a ∈ l -> f a = false) -> existsb f l = false.
Proof.
  intros H. apply not_true_iff_false. intros (a & Ha & E)%existsb_exists.
  apply list_elem_of_In in Ha. by rewrite H in E.
Qed.

(** ** Rows of the flat vector *)

Section Dataflow.
Context (words : nat) (ops : list OpRec) (succs : list (list nat)).
Let n := length ops.

Hypothesis Hops : Forall (fun o => word_list words (or_uses o) /\ word_list words (or_defs o)) ops.
Hypothesis Hsuccs : length succs = n /\ Forall (Forall (fun j => (j < n)%nat)) succs.

(** The slot of bit [b] may be read before it is written, from op [i] on. *)
Inductive live_at : nat -> Z -> Prop :=
  | at_use i o b : ops !! i = Some o -> has (or_uses o) b = true -> live_at i b
  | at_step i o js j b :
      ops !! i = Some o -> has (or_defs o) b = false ->
      succs !! i = Some js -> j ∈ js -> live_at j b -> live_at i b.

Definition table_wf (live_in : list Z) : Prop := word_list (n * words) live_in.

Lemma row_wf (live_in : list Z) (j : nat) :
  table_wf live_in -> (j < n)%nat -> word_list words (row words live_in j).
Proof.
  intros [Hl Hf] Hj. split.
  - unfold row. rewrite length_take, length_drop. nia.
  - unfold row. by apply Forall_take, Forall_drop.
Qed.

Lemma row_insert (live_in v : list Z) (i j : nat) :
  table_wf live_in -> length v = words -> (i < n)%nat -> (j < n)%nat ->
  row words (list_inserts (i * words) v live_in) j = if bool_decide (i = j) then v else row words live_in j.
Proof.
  intros [Hl _] Hv Hi Hj. apply (list_eq_same_length _ _ words).
  - case_bool_decide; [done|]. unfold row. rewrite length_take, length_drop. nia.
  - unfold row. rewrite length_take, length_drop, length_inserts. nia.
  - intros k x y Hk Ex Ey. unfold row in Ex. rewrite lookup_take_lt, lookup_drop in Ex by done.
    case_bool_decide as E.
    + subst j. rewrite list_lookup_inserts in Ex by (try lia; nia).
      replace (i * words + k - i * words)%nat with k in Ex by lia. congruence.
    + unfold row in Ey. rewrite lookup_take_lt, lookup_drop in Ey by done.
      destruct (decide (i < j)%nat).
      * rewrite list_lookup_inserts_ge in Ex by nia. congruence.
      * rewrite list_lookup_inserts_lt in Ex by nia. congruence.
Qed.

Lemma live_out_spec (live_in : list Z) (js : list nat) :
  table_wf live_in -> Forall (fun j => (j < n)%nat) js ->
  word_list words (live_out words live_in js) /\
  forall b, has (live_out words live_in js) b = existsb (fun j => has (row words live_in j) b) js.
Proof.
  intros Hl Hjs. unfold live_out.
  assert (forall out, word_list words out ->
    word_list words (foldl (fun out j => zip_with Z.lor out (row words live_in j)) out js) /\
    forall b, has (foldl (fun out j => zip_with Z.lor out (row words live_in j)) out js) b
      = has out b || existsb (fun j => has (row words live_in j) b) js) as H.
  { induction Hjs as [|j js Hj _ IH]; intros out Ho; cbn [foldl existsb].
    - split; [done|]. intros b. by rewrite orb_false_r.
    - destruct (row_wf live_in j Hl Hj) as [Lr Fr]. destruct Ho as [Lo Fo].
      destruct (IH (zip_with Z.lor out (row words live_in j))) as [H1 H2].
      + split; [rewrite length_zip_with; lia|]. apply list.Forall_forall. intros x Hx.
        apply list_elem_of_lookup_1 in Hx as [k Hx]. rewrite lookup_zip_with in Hx.
        rewrite list.Forall_forall in Fo; rewrite list.Forall_forall in Fr.
        destruct (out !! k) as [u|] eqn:Eu; [|done]. cbn in Hx.
        destruct (row words live_in j !! k) as [w|] eqn:Ew; [|done]. injection Hx as <-.
        apply lor_u64; [apply Fo|apply Fr]; by eapply list_elem_of_lookup_2.
      + split; [done|]. intros b. rewrite H2, has_zip_lor by lia. by rewrite orb_assoc. }
  destruct (H (replicate words 0)) as [H1 H2].
  - split; [apply length_replicate|]. apply Forall_replicate. unfold in_u. lia.
  - split; [done|]. intros b. rewrite H2. unfold has at 1.
    destruct (replicate words 0 !! _) as [w|] eqn:E; [|done].
    apply lookup_replicate in E as [-> _]. by rewrite Z.bits_0.
Qed.
Lemma row_insert_own (live_in : list Z) (i : nat) :
  table_wf live_in -> (i < n)%nat -> list_inserts (i * words) (row words live_in i) live_in = live_in.
Proof.
  intros Hw Hi. pose proof (row_wf live_in i Hw Hi) as [Lr _]. destruct Hw as [Hl _].
  apply (list_eq_same_length _ _ (n * words)); [done|by rewrite length_inserts|].
  intros k x y Hk Ex Ey. destruct (decide (i * words <= k < i * words + words)%nat) as [E|E].
  - rewrite list_lookup_inserts in Ex by lia. unfold row in Ex.
    rewrite lookup_take_lt, lookup_drop in Ex by lia.
    replace (i * words + (k - i * words))%nat with k in Ex by lia. congruence.
  - destruct (decide (k < i * words)%nat).
    + rewrite list_lookup_inserts_lt in Ex by lia. congruence.
    + rewrite list_lookup_inserts_ge in Ex by lia. congruence.
Qed.

Lemma table_wf_insert (live_in v : list Z) (i : nat) :
  table_wf live_in -> word_list words v -> (i < n)%nat -> table_wf (list_inserts (i * words) v live_in).
Proof.
  intros [Hl Hf] [Lv Fv] Hi. split; [by rewrite length_inserts|].
  apply list.Forall_forall. intros x Hx. apply list_elem_of_lookup_1 in Hx as [k Hx].
  rewrite list.Forall_forall in Hf; rewrite list.Forall_forall in Fv.
  destruct (decide (i * words <= k < i * words + words)%nat) as [E|E].
  - rewrite list_lookup_inserts in Hx by nia. apply Fv. by eapply list_elem_of_lookup_2.
  - apply Hf. destruct (decide (k < i * words)%nat).
    + rewrite list_lookup_inserts_lt in Hx by lia. by eapply list_elem_of_lookup_2.
    + rewrite list_lookup_inserts_ge in Hx by lia. by eapply list_elem_of_lookup_2.
Qed.

(** ** One op *)

Definition new_row (live_in : list Z) (o : OpRec) (js : list nat) : list Z :=
  transfer o (live_out words live_in js).

Record good (live_in : list Z) : Prop := {
  g_wf : table_wf live_in;
  g_sound : forall i b, (i < n)%nat -> 0 <= b -> has (row words live_in i) b = true -> live_at i b;
  g_grow : forall i o js b, ops !! i = Some o -> succs !! i = Some js -> 0 <= b ->
    has (row words live_in i) b = true -> has (new_row live_in o js) b = true }.

Lemma op_wf (i : nat) (o : OpRec) :
  ops !! i = Some o -> word_list words (or_uses o) /\ word_list words (or_defs o) /\ (i < n)%nat.
Proof.
  intros E. rewrite list.Forall_forall in Hops. destruct (Hops o) as [H1 H2].
  - by eapply list_elem_of_lookup_2.
  - split_and!; [done|done|]. by apply lookup_lt_Some in E.
Qed.

Lemma succs_wf (i : nat) (js : list nat) : succs !! i = Some js -> Forall (fun j => (j < n)%nat) js.
Proof.
  intros E. destruct Hsuccs as [_ H]. rewrite list.Forall_forall in H. apply H. by eapply list_elem_of_lookup_2.
Qed.

Lemma new_row_wf (live_in : list Z) (i : nat) (o : OpRec) (js : list nat) :
  table_wf live_in -> ops !! i = Some o -> succs !! i = Some js -> word_list words (new_row live_in o js).
Proof.
  intros Hw Ho Hj. destruct (op_wf i o Ho) as (H1 & [H2 _] & _).
  apply transfer_words; [done|done|]. apply live_out_spec; [done|]. by eapply succs_wf.
Qed.

Lemma new_row_spec (live_in : list Z) (i : nat) (o : OpRec) (js : list nat) (b : Z) :
  table_wf live_in -> ops !! i = Some o -> succs !! i = Some js -> 0 <= b ->
  has (new_row live_in o js) b = true <->
  has (or_uses o) b = true \/
  (has (or_defs o) b = false /\ exists j, j ∈ js /\ has (row words live_in j) b = true).
Proof.
  intros Hw Ho Hj Hb. destruct (op_wf i o Ho) as ([H1 _] & [H2 _] & _).
  destruct (live_out_spec live_in js Hw (succs_wf i js Hj)) as [[Hlen _] Hout].
  unfold new_row. rewrite (has_transfer o _ b words) by done.
  rewrite Hout, orb_true_iff, andb_true_iff, negb_true_iff, existsb_exists.
  split.
  - intros [H|[(j & K1%list_elem_of_In & K2) K3]]; [by left|right; split; [done|by exists j]].
  - intros [H|[K3 (j & K1 & K2)]]; [by left|right; split; [exists j; by rewrite <- list_elem_of_In|done]].
Qed.

(** The rows after the update of one op. *)
Lemma step_rows (live_in : list Z) (i j : nat) (o : OpRec) (js : list nat) :
  table_wf live_in -> ops !! i = Some o -> succs !! i = Some js -> (j < n)%nat ->
  row words (list_inserts (i * words) (new_row live_in o js) live_in) j =
  if bool_decide (i = j) then new_row live_in o js else row words live_in j.
Proof.
  intros Hw Ho Hj Hlt. destruct (op_wf i o Ho) as (_ & _ & Hi).
  apply row_insert; [done|by eapply new_row_wf|done|done].
Qed.

Lemma step_grows (live_in : list Z) (i j : nat) (o : OpRec) (js : list nat) (b : Z) :
  good live_in -> ops !! i = Some o -> succs !! i = Some js -> (j < n)%nat -> 0 <= b ->
  has (row words live_in j) b = true ->
  has (row words (list_inserts (i * words) (new_row live_in o js) live_in) j) b = true.
Proof.
  intros Hg Ho Hj Hlt Hb H. rewrite (step_rows _ i j o js) by (done || apply Hg).
  case_bool_decide as E; [|done]. subst j. by apply (g_grow _ Hg i).
Qed.

Lemma step_good (live_in : list Z) (i : nat) (o : OpRec) (js : list nat) :
  good live_in -> ops !! i = Some o -> succs !! i = Some js ->
  good (list_inserts (i * words) (new_row live_in o js) live_in).
Proof.
  intros Hg Ho Hj. destruct (op_wf i o Ho) as (_ & _ & Hi). pose proof (g_wf _ Hg) as Hw.
  assert (table_wf (list_inserts (i * words) (new_row live_in o js) live_in)) as Hw'.
  { apply table_wf_insert; [done|by eapply new_row_wf|done]. }
  split; [done| |].
  - intros k b Hk Hb H. rewrite (step_rows _ i k o js) in H by done. case_bool_decide as E.
    + subst k. apply (new_row_spec _ i) in H; [|done..]. destruct H as [H|(Hd & k & Hk' & H)].
      * by eapply at_use.
      * eapply at_step; [done..|]. apply (g_sound _ Hg); [|done|done].
        pose proof (succs_wf i js Hj) as Hs. rewrite list.Forall_forall in Hs. by apply Hs.
    + by apply (g_sound _ Hg).
  - intros k ok jsk b Hok Hjk Hb H. rewrite (step_rows _ i k o js) in H by (done || by apply (op_wf k ok)).
    assert (has (new_row live_in ok jsk) b = true) as H'.
    { case_bool_decide as E; [|by apply (g_grow _ Hg k)]. subst k. congruence. }
    apply (new_row_spec _ k) in H'; [|done..]. apply (new_row_spec _ k); [done..|].
    destruct H' as [H'|(Hd & l & Hl & H')]; [by left|]. right. split; [done|]. exists l. split; [done|].
    apply (step_grows _ i l o js b Hg Ho Hj); [|done|done].
    pose proof (succs_wf k jsk Hjk) as Hs. rewrite list.Forall_forall in Hs. by apply Hs.
Qed.

(** ** A pass and the loop *)

Definition cells : list (nat * Z) := list_prod (seq 0 n) (Z.of_nat <$> seq 0 (64 * words)).
Definition count (live_in : list Z) : nat :=
  length (List.filter (fun c => has (row words live_in (fst c)) (snd c)) cells).

Lemma cells_in (i : nat) (b : Z) : (i < n)%nat -> 0 <= b < 64 * Z.of_nat words -> (i, b) ∈ cells.
Proof.
  intros Hi Hb. apply list_elem_of_In, in_prod; apply list_elem_of_In.
  - apply elem_of_seq. lia.
  - apply list_elem_of_fmap. exists (Z.to_nat b). split; [lia|]. apply elem_of_seq. lia.
Qed.

Lemma count_bound (live_in : list Z) : (count live_in <= n * words * 64)%nat.
Proof.
  unfold count. etransitivity; [apply filter_length_le|]. unfold cells.
  rewrite length_prod, length_fmap, !length_seq. lia.
Qed.

Definition grows (live_in live' : list Z) : Prop :=
  forall j b, (j < n)%nat -> 0 <= b -> has (row words live_in j) b = true -> has (row words live' j) b = true.

Lemma grows_count (live_in live' : list Z) : grows live_in live' -> (count live_in <= count live')%nat.
Proof.
  intros H. apply count_mono. intros [j b] Hj. apply list_elem_of_In, in_prod_iff in Hj as [Hj Hb].
  apply list_elem_of_In, elem_of_seq in Hj. apply list_elem_of_In, list_elem_of_fmap in Hb as (k & -> & _).
  apply H; cbn; lia.
Qed.

Definition fixed_at (live_in : list Z) (i : nat) : Prop :=
  forall o js, ops !! i = Some o -> succs !! i = Some js -> row words live_in i = new_row live_in o js.

Lemma live_step_spec (live_in : list Z) (c : bool) (i : nat) :
  good live_in ->
  let '(live', c') := live_step words ops succs (live_in, c) i in
  good live' /\ grows live_in live' /\
  (c' = false -> c = false /\ live' = live_in /\ fixed_at live_in i) /\
  (c' = true -> c = true \/ (count live_in < count live')%nat).
Proof.
  intros Hg. unfold live_step. destruct (ops !! i) as [o|] eqn:Ho.
  2: { split_and!; [done|by intros ???|intros ->; split_and!; [done|done|intros ?; congruence]|by left]. }
  destruct (succs !! i) as [js|] eqn:Hj.
  2: { split_and!; [done|by intros ???|intros ->; split_and!; [done|done|intros ?; congruence]|by left]. }
  fold (new_row live_in o js). pose proof (op_wf i o Ho) as (_ & _ & Hi).
  assert (grows live_in (list_inserts (i * words) (new_row live_in o js) live_in)) as Hgr.
  { intros j b Hj' Hb. by apply (step_grows live_in i j o js b). }
  split_and!; [by apply step_good|done| |].
  - intros [-> E%negb_false_iff%bool_decide_eq_true]%orb_false_iff. split_and!; [done| |].
    + rewrite <- E. apply row_insert_own; [apply Hg|done].
    + intros o' js' Ho' Hj'. congruence.
  - destruct c; [by left|]. cbn [orb]. intros E%negb_true_iff%bool_decide_eq_false. right.
    unfold count. apply count_mono.
    { intros [j b] Hc. apply list_elem_of_In, in_prod_iff in Hc as [Hc Hb].
      apply list_elem_of_In, elem_of_seq in Hc. apply list_elem_of_In, list_elem_of_fmap in Hb as (k & -> & _).
      apply Hgr; cbn; lia. }
    destruct (decide (Exists (fun b => has (row words live_in i) b = false /\
      has (new_row live_in o js) b = true) (Z.of_nat <$> seq 0 (64 * words)))) as [X|X].
    + apply list.Exists_exists in X as (b & Hb & H1 & H2). apply list_elem_of_fmap in Hb as (k & -> & Hk).
      apply elem_of_seq in Hk. exists (i, Z.of_nat k). split; [apply cells_in; lia|]. cbn.
      rewrite (step_rows _ i i o js) by (done || apply Hg). rewrite bool_decide_true by done. done.
    + exfalso. apply E. apply (has_ext words).
      * apply row_wf; [apply Hg|done].
      * eapply new_row_wf; [apply Hg|done|done].
      * intros b Hb. destruct (has (row words live_in i) b) eqn:E1.
        { symmetry. apply (g_grow _ Hg i o js b Ho Hj); [lia|done]. }
        destruct (has (new_row live_in o js) b) eqn:E2; [|done]. exfalso. apply X.
        apply list.Exists_exists. exists b. split; [|done]. apply list_elem_of_fmap. exists (Z.to_nat b).
        split; [lia|]. apply elem_of_seq. lia.
Qed.

Lemma live_fold_spec (is_ : list nat) (live_in : list Z) (c : bool) :
  good live_in ->
  let '(live', c') := foldl (live_step words ops succs) (live_in, c) is_ in
  good live' /\ grows live_in live' /\
  (c' = false -> c = false /\ live' = live_in /\ forall i, i ∈ is_ -> fixed_at live_in i) /\
  (c' = true -> c = true \/ (count live_in < count live')%nat).
Proof.
  revert live_in c. induction is_ as [|i is_ IH]; intros live_in c Hg; cbn [foldl].
  - split_and!; [done|by intros ???|intros ->; split_and!; [done|done|]|by left].
    intros i Hi. by apply elem_of_nil in Hi.
  - pose proof (live_step_spec live_in c i Hg) as H.
    destruct (live_step words ops succs (live_in, c) i) as [l1 c1]. destruct H as (G1 & R1 & F1 & C1).
    specialize (IH l1 c1 G1). destruct (foldl _ (l1, c1) is_) as [l2 c2].
    destruct IH as (G2 & R2 & F2 & C2). split_and!.
    + done.
    + intros j b Hj Hb H. by apply R2, R1.
    + intros E. destruct (F2 E) as (-> & -> & F3). destruct (F1 eq_refl) as (-> & -> & F4).
      split_and!; [done|done|]. intros k [->|Hk]%elem_of_cons; [done|by apply F3].
    + intros E. pose proof (grows_count _ _ R1). pose proof (grows_count _ _ R2).
      destruct (C2 E) as [->|Hlt]; [|right; lia]. destruct (C1 eq_refl) as [->|Hlt]; [by left|right; lia].
Qed.

Lemma live_loop_spec (fuel : nat) (live_in : list Z) :
  good live_in -> (n * words * 64 - count live_in < fuel)%nat ->
  exists live', live_loop words ops succs fuel live_in = Ok live' /\ good live' /\
    forall i, (i < n)%nat -> fixed_at live' i.
Proof.
  revert live_in. induction fuel as [|fuel IH]; intros live_in Hg Hf; [lia|]. cbn [live_loop].
  unfold live_pass. pose proof (live_fold_spec (rev (seq 0 (length ops))) live_in false Hg) as H.
  destruct (foldl _ (live_in, false) _) as [l c]. destruct H as (G & R & F & C). destruct c.
  - apply IH; [done|]. destruct (C eq_refl) as [|Hlt]; [done|]. pose proof (count_bound l). lia.
  - destruct (F eq_refl) as (_ & -> & F'). exists live_in. split_and!; [done|done|].
    intros i Hi. apply F'. apply list_elem_of_In, in_rev. rewrite rev_involutive.
    apply list_elem_of_In, elem_of_seq. unfold n in Hi. lia.
Qed.

Lemma zero_good : good (replicate (n * words) 0).
Proof.
  assert (table_wf (replicate (n * words) 0)) as Hw.
  { split; [apply length_replicate|]. apply Forall_replicate. unfold in_u. lia. }
  assert (forall i b, has (row words (replicate (n * words) 0) i) b = false) as Hz.
  { intros i b. unfold has, row. destruct (_ !! _) as [w|] eqn:E; [|done].
    apply lookup_take_Some in E as [E _]. rewrite lookup_drop in E. apply lookup_replicate in E as [-> _].
    apply Z.bits_0. }
  split; [done|intros i b _ _; by rewrite Hz|intros i o js b _ _ _; by rewrite Hz].
Qed.

(** The loop ends in the table of the live slots. *)
Lemma live_loop_live (fuel : nat) :
  (n * words * 64 < fuel)%nat ->
  exists live', live_loop words ops succs fuel (replicate (n * words) 0) = Ok live' /\
    length live' = (n * words)%nat /\
    forall i b, (i < n)%nat -> 0 <= b -> has (row words live' i) b = true <-> live_at i b.
Proof.
  intros Hf. destruct (live_loop_spec fuel _ zero_good) as (live' & E & Hg & Hfix); [lia|].
  exists live'. split_and!; [done|apply Hg|]. intros i b Hi Hb. split; [by apply (g_sound _ Hg)|].
  intros H. revert Hi Hb. induction H as [i o b Ho Hu|i o js j b Ho Hd Hj Hjs H IH]; intros Hi Hb.
  - destruct (lookup_lt_is_Some_2 succs i) as [js Hj]; [destruct Hsuccs as [-> _]; done|].
    rewrite (Hfix i Hi o js Ho Hj). apply (new_row_spec _ i); [apply Hg|done|done|done|by left].
  - rewrite (Hfix i Hi o js Ho Hj). apply (new_row_spec _ i); [apply Hg|done|done|done|].
    right. split; [done|]. exists j. split; [done|]. apply IH; [|done].
    pose proof (succs_wf i js Hj) as Hs. rewrite list.Forall_forall in Hs. by apply Hs.
Qed.
End Dataflow.
