(* ===== verification/LiveSound.v ===== *)
(** * LiveSound: the liveness table of a script is exactly its live slots

    For a script that encodes a sequence of calls, the bits the scan collects
    are the slots the calls read and write, the successors are the control
    edges ([edge]), and the queries of the table answer [slot_live]: some path
    of control edges reads the slot before writing it. *)

From S2P Require Import Prelude Mem Source Bytecode BytecodeSound Live LiveFlow.

(** ** The scan of an encoded script *)

Inductive Slot := Local (l : Z) | Formal (a : Z) | Global (b : Z).

#[export] Instance slot_eq_dec : EqDecision Slot.
Proof. solve_decision. Defined.

(** The ops that hand the whole frame to the runtime. *)
Definition hands_frame (c : OpCall) : bool :=
  match c with
  | V_generator | V_initial_yield _ | V_yield_ _ | V_await_ _ | V_resume | V_after_yield _
  | V_eval _ | V_strict_eval _ | V_spread_eval | V_strict_spread_eval | V_debugger
  | V_force_interpreter | V_get_aliased_debug_var _ _ => true
  | _ => false
  end.

Definition reads (bid_of : Z -> option Z) (c : OpCall) (s : Slot) : bool :=
  hands_frame c ||
  match s, c with
  | Local l, (V_get_local k | V_check_lexical k) => k =? l
  | Formal a, (V_get_arg k | V_get_frame_arg k) => k =? a
  | Formal _, (V_arguments | V_rest | V_get_actual_arg | V_arguments_length) => true
  | Global b, V_get_g_name k => bool_decide (bid_of k = Some b)
  | _, _ => false
  end.

Definition writes (c : OpCall) (s : Slot) : bool :=
  match s, c with
  | Local l, (V_set_local k | V_init_lexical k) => k =? l
  | Formal a, V_set_arg k => k =? a
  | _, _ => false
  end.

(** Where a call at [pc] goes, if not only to the next op. *)
Definition call_flow (pc : Z) (c : OpCall) : option Flow :=
  match c with
  | V_goto_ off | V_default_ off => Some (FBr (branch pc off))
  | V_jump_if_false off | V_jump_if_true off | V_and_ off | V_or_ off | V_coalesce off
  | V_case_ off => Some (FCondBr (branch pc off))
  | V_table_switch default_off _ _ offsets => Some (FSwitch (offsets ++ [branch pc default_off]))
  | V_return_ | V_ret_rval => Some FRet
  | V_throw_ | V_throw_with_stack | V_throw_msg _ | V_throw_set_const _ => Some FHalt
  | _ => None
  end.

Lemma on_cur_snoc (f : OpRec -> OpRec) (pc : Z) (ops : list OpRec) (x : OpRec) (fl : gmap Z Flow)
    (hs : list (Z * Z * Z)) :
  on_cur f (mkLiveScan pc (ops ++ [x]) fl hs) = mkLiveScan pc (ops ++ [f x]) fl hs.
Proof.
  unfold on_cur; cbn. f_equal. rewrite length_app. cbn. rewrite Nat.add_1_r. cbn.
  rewrite alter_app_r_alt by lia. by rewrite Nat.sub_diag.
Qed.

Lemma on_cur_one (f : OpRec -> OpRec) (pc : Z) (x : OpRec) (fl : gmap Z Flow) (hs : list (Z * Z * Z)) :
  on_cur f (mkLiveScan pc [x] fl hs) = mkLiveScan pc [f x] fl hs.
Proof. exact (on_cur_snoc f pc [] x fl hs). Qed.

Section ScanSound.
Context (T : OpTable) (nlocals nargs : Z) (words : nat).
Context (bid_of : Z -> option Z) (gbids : list Z).

#[local] Abbreviation call := (live_call nlocals nargs bid_of gbids).

(** What a call makes of its record. *)
Definition call_rec (c : OpCall) (x : OpRec) : OpRec :=
  match ls_ops (call c (mkLiveScan 0 ([] ++ [x]) ∅ [])) with [y] => y | _ => x end.

Lemma use_all_args_snoc (pc : Z) (ops : list OpRec) (x : OpRec) (fl : gmap Z Flow)
    (hs : list (Z * Z * Z)) :
  use_all_args nlocals nargs (mkLiveScan pc (ops ++ [x]) fl hs) =
  mkLiveScan pc (ops ++ [foldl (fun x a => mkOpRec (or_pc x) (or_len x)
    (set_bit (or_uses x) (u32_add nlocals (Z.of_nat a))) (or_defs x)) x (seq 0 (Z.to_nat nargs))]) fl hs.
Proof.
  unfold use_all_args, use_arg, use_bit. revert x. induction (seq 0 (Z.to_nat nargs)) as [|a l IH]; intros x; [done|].
  cbn [foldl]. by rewrite on_cur_snoc, IH.
Qed.

Lemma live_call_spec (c : OpCall) (pc : Z) (ops : list OpRec) (x : OpRec) (fl : gmap Z Flow)
    (hs : list (Z * Z * Z)) :
  call c (mkLiveScan pc (ops ++ [x]) fl hs) =
  mkLiveScan pc (ops ++ [call_rec c x])
    (match call_flow pc c with Some f => <[pc := f]> fl | None => fl end) hs.
Proof.
  unfold call_rec. destruct c; try reflexivity;
    unfold live_call, use_all, use_arg, def_arg, use_bit, def_bit, set_flow;
    rewrite ?use_all_args_snoc, ?on_cur_snoc; try reflexivity.
  destruct (bid_of name_index) as [b|]; [|reflexivity]. destruct (position gbids b); [|reflexivity].
  rewrite ?on_cur_snoc. reflexivity.
Qed.

(** The offsets of a sequence of calls. *)
Fixpoint call_pcs (pc : Z) (cs : list (Z * OpCall)) : list Z :=
  match cs with [] => [] | i :: cs => pc :: call_pcs (pc + call_len i) cs end.

Definition fresh (pc : Z) (op : JSOp) : OpRec :=
  mkOpRec pc (op_len T op) (replicate words 0) (replicate words 0).

Fixpoint recs (pc : Z) (cs : list (Z * OpCall)) : list OpRec :=
  match cs with
  | [] => []
  | i :: cs => call_rec i.2 (fresh pc (op_of i.2)) :: recs (pc + call_len i) cs
  end.

Fixpoint flows (pc : Z) (cs : list (Z * OpCall)) (fl : gmap Z Flow) : gmap Z Flow :=
  match cs with
  | [] => fl
  | i :: cs => flows (pc + call_len i) cs
                 (match call_flow pc i.2 with Some f => <[pc := f]> fl | None => fl end)
  end.

Definition note_handler (n : TryNote) : list (Z * Z * Z) :=
  match tn_kind n with
  | TN_Catch | TN_Finally =>
      let end_ := u32_add (tn_start n) (tn_length n) in [(tn_start n, end_, end_)]
  | _ => []
  end.

Fixpoint handlers_of (ns : list TryNote) (lo pc : Z) (cs : list (Z * OpCall)) : list (Z * Z * Z) :=
  match cs with
  | [] => []
  | i :: cs =>
      let pc := pc + call_len i in
      mjoin (note_handler <$> notes_in lo pc ns) ++ handlers_of ns pc pc cs
  end.

Lemma try_notes_spec (pc : Z) (l : list TryNote) (st : LiveScan) :
  foldl (fun v n => live_try_note pc n v) st l =
  mkLiveScan (ls_pc st) (ls_ops st) (ls_flow st) (ls_handlers st ++ mjoin (note_handler <$> l)).
Proof.
  revert st. induction l as [|n l IH]; intros [q ops fl hs]; cbn; [by rewrite app_nil_r|].
  rewrite IH. unfold live_try_note, note_handler. destruct (tn_kind n); cbn; try done;
    by rewrite <- (assoc_L (++)).
Qed.

Lemma before_op_spec (pc : Z) (op : JSOp) (u d : Z) (st : LiveScan) :
  live_before_op T words pc op u d st =
  mkLiveScan pc (ls_ops st ++ [fresh pc op]) (ls_flow st) (ls_handlers st).
Proof. reflexivity. Qed.

Lemma trace_spec (ns : list TryNote) (lo pc : Z) (cs : list (Z * OpCall)) (st : LiveScan) :
  let fin := trace T (live_before_op T words) live_try_note call ns lo pc cs st in
  ls_ops fin = ls_ops st ++ recs pc cs /\ ls_flow fin = flows pc cs (ls_flow st) /\
  ls_handlers fin = ls_handlers st ++ handlers_of ns lo pc cs.
Proof.
  cbv zeta. revert lo pc st. induction cs as [|i cs IH]; intros lo pc st; cbn [trace recs flows handlers_of].
  - by rewrite !app_nil_r.
  - rewrite before_op_spec, live_call_spec, try_notes_spec. cbn [ls_pc ls_ops ls_flow ls_handlers].
    match goal with |- context [trace _ _ _ _ _ _ _ _ ?s] => destruct (IH (pc + call_len i) (pc + call_len i) s) as (-> & -> & ->) end.
    cbn. by rewrite <- !(assoc_L (++)).
Qed.

(** ** The bits of a slot *)

Definition slot_bit (s : Slot) : option Z :=
  match s with
  | Local l => Some l
  | Formal a => Some (nlocals + a)
  | Global b => (fun k => nlocals + nargs + Z.of_nat k) <$> position gbids b
  end.

(** The slots of the script: its locals, its formals, the bindings it reads. *)
Definition slot_in (s : Slot) : Prop :=
  match s with
  | Local l => 0 <= l < nlocals
  | Formal a => 0 <= a < nargs
  | Global b => b ∈ gbids
  end.

(** The operands of a call name slots of the frame. *)
Definition frame_ok (c : OpCall) : Prop :=
  match c with
  | V_get_local l | V_check_lexical l | V_set_local l | V_init_lexical l => 0 <= l < nlocals
  | V_get_arg a | V_get_frame_arg a | V_set_arg a => 0 <= a < nargs
  | _ => True
  end.

Hypothesis Hsize : 0 <= nlocals /\ 0 <= nargs /\
  nlocals + nargs + Z.of_nat (length gbids) < 2 ^ 32 /\
  nlocals + nargs + Z.of_nat (length gbids) <= 64 * Z.of_nat words.

Lemma position_spec (b : Z) (k : nat) : position gbids b = Some k -> gbids !! k = Some b.
Proof.
  unfold position. destruct (list_find (eq b) gbids) as [[j x]|] eqn:E; [|done]. cbn. intros [= <-].
  by apply list_find_Some in E as (E & -> & _).
Qed.

Lemma position_in (b : Z) : b ∈ gbids -> exists k, position gbids b = Some k /\ (k < length gbids)%nat.
Proof.
  intros Hb. unfold position. destruct (list_find_elem_of (eq b) gbids b Hb eq_refl) as [[j x] E].
  rewrite E. exists j. split; [done|]. apply list_find_Some in E as (E & _). by apply lookup_lt_Some in E.
Qed.

Lemma slot_bit_in (s : Slot) :
  slot_in s -> exists b, slot_bit s = Some b /\ 0 <= b < nlocals + nargs + Z.of_nat (length gbids).
Proof.
  destruct s as [l|a|g]; cbn; intros H.
  - exists l. split; [done|lia].
  - exists (nlocals + a). split; [done|lia].
  - destruct (position_in g H) as (k & -> & Hk). exists (nlocals + nargs + Z.of_nat k). split; [done|lia].
Qed.

Lemma slot_bit_inj (s s' : Slot) (b : Z) :
  slot_in s -> slot_in s' -> slot_bit s = Some b -> slot_bit s' = Some b -> s = s'.
Proof.
  destruct s as [l|a|g], s' as [l'|a'|g']; cbn; intros H H' E E';
    try (destruct (position gbids g) as [k|] eqn:Ek; [|done]);
    try (destruct (position gbids g') as [k'|] eqn:Ek'; [|done]); cbn in *;
    simplify_eq; try lia; try (f_equal; lia).
  apply position_spec in Ek, Ek'. replace k' with k in * by lia. congruence.
Qed.

Lemma has_set_bit (v : list Z) (b b' : Z) :
  length v = words -> 0 <= b < 64 * Z.of_nat words -> 0 <= b' ->
  has (set_bit v b) b' = (b =? b') || has v b'.
Proof.
  intros Hv Hb Hb'. unfold has, set_bit.
  pose proof (Z.div_mod b 64). pose proof (Z.mod_pos_bound b 64).
  pose proof (Z.div_mod b' 64). pose proof (Z.mod_pos_bound b' 64).
  destruct (decide (Z.to_nat (b / 64) = Z.to_nat (b' / 64))) as [E|E].
  - rewrite <- E, list_lookup_alter_eq. destruct (v !! Z.to_nat (b / 64)) as [w|] eqn:Ew.
    + cbn. rewrite Z.lor_spec, orb_comm. f_equal. rewrite Z.shiftl_spec by lia.
      destruct (Z.eqb_spec b b') as [->|Hne].
      * by rewrite Z.sub_diag.
      * assert (b' mod 64 <> b mod 64) by lia.
        destruct (Z.ltb_spec (b' mod 64 - b mod 64) 0); [by rewrite Z.testbit_neg_r by lia|].
        rewrite Z.bits_above_log2; [done|lia|cbn; lia].
    + apply lookup_ge_None in Ew. lia.
  - rewrite list_lookup_alter_ne by done. destruct (Z.eqb_spec b b') as [->|]; [done|]. done.
Qed.

Lemma has_zeros (k : nat) (b : Z) : has (replicate k 0) b = false.
Proof.
  unfold has. destruct (replicate k 0 !! _) as [w|] eqn:E; [|done].
  apply lookup_replicate in E as [-> _]. apply Z.bits_0.
Qed.

Lemma has_ones (b : Z) : 0 <= b < 64 * Z.of_nat words -> has ((fun _ => 2 ^ 64 - 1) <$> replicate words 0) b = true.
Proof.
  intros Hb. unfold has. rewrite list_lookup_fmap.
  pose proof (Z.div_mod b 64). pose proof (Z.mod_pos_bound b 64).
  rewrite lookup_replicate_2 by lia. cbn [fmap option_fmap option_map].
  change (Z.testbit (Z.ones 64) (b mod 64) = true). rewrite Z.ones_spec_low; [done|lia].
Qed.

Lemma has_fold_args (l : list nat) (x : OpRec) (b : Z) :
  length (or_uses x) = words -> 0 <= b ->
  Forall (fun a => nlocals + Z.of_nat a < 64 * Z.of_nat words /\ Z.of_nat a < 2 ^ 32 - nlocals) l ->
  has (or_uses (foldl (fun x a => mkOpRec (or_pc x) (or_len x)
    (set_bit (or_uses x) (u32_add nlocals (Z.of_nat a))) (or_defs x)) x l)) b
  = has (or_uses x) b || existsb (fun a => nlocals + Z.of_nat a =? b) l.
Proof.
  intros Hx Hb Hl. revert x Hx. induction Hl as [|a l [H1 H2] _ IH]; intros x Hx; cbn [foldl existsb].
  - by rewrite orb_false_r.
  - assert (u32_add nlocals (Z.of_nat a) = nlocals + Z.of_nat a) as E.
    { apply u32_add_small. lia. }
    rewrite IH by (cbn; unfold set_bit; by rewrite length_alter). cbn [or_uses]. rewrite E.
    rewrite has_set_bit by lia.
    destruct (_ =? b), (has (or_uses x) b), (existsb _ l); reflexivity.
Qed.

(** One bit set is one slot. *)
Lemma one_bit (s : Slot) (b : Z) :
  slot_in s -> slot_bit s = Some b ->
  forall s' k, slot_in s' -> slot_bit s' = Some k ->
  has (set_bit (replicate words 0) k) b = bool_decide (s' = s).
Proof.
  intros Hs Eb s' k Hs' Ek. destruct (slot_bit_in s Hs) as (b' & Eb' & Hb).
  assert (b' = b) as -> by congruence. destruct (slot_bit_in s' Hs') as (k' & Ek' & Hk).
  assert (k' = k) as -> by congruence.
  rewrite has_set_bit, has_zeros, orb_false_r by (try apply length_replicate; lia).
  destruct (Z.eqb_spec k b) as [->|Hne]; symmetry.
  - apply bool_decide_eq_true. by eapply slot_bit_inj.
  - apply bool_decide_eq_false. intros ->. congruence.
Qed.

Ltac slot_case :=
  match goal with |- bool_decide (_ = ?s) = _ => destruct s end;
  cbn [reads writes hands_frame orb]; try (apply bool_decide_eq_false; congruence);
  match goal with |- _ = (?x =? ?y) =>
    destruct (Z.eqb_spec x y) as [->|]; [by apply bool_decide_eq_true|apply bool_decide_eq_false; congruence] end.

(** The bit of a slot of the script is in a call's use words exactly when the
    call reads the slot. *)
Lemma call_uses_slot (c : OpCall) (pc : Z) (op : JSOp) (s : Slot) (b : Z) :
  frame_ok c -> slot_in s -> slot_bit s = Some b ->
  has (or_uses (call_rec c (fresh pc op))) b = reads bid_of c s.
Proof.
  intros Hc Hs Eb. destruct (slot_bit_in s Hs) as (b' & Eb' & Hb).
  assert (b' = b) as -> by congruence. clear Eb'.
  assert (has (replicate words 0) b = false) as Hz by apply has_zeros.
  assert (length (replicate words 0) = words) as Hlen by apply length_replicate.
  assert (forall s' k, slot_in s' -> slot_bit s' = Some k ->
    has (set_bit (replicate words 0) k) b = bool_decide (s' = s)) as Hone by (by apply one_bit).
  assert (has ((fun _ => 2 ^ 64 - 1) <$> replicate words 0) b = true) as Hall by (apply has_ones; lia).
  assert (forall x, or_uses x = replicate words 0 ->
    has (or_uses (foldl (fun x a => mkOpRec (or_pc x) (or_len x)
      (set_bit (or_uses x) (u32_add nlocals (Z.of_nat a))) (or_defs x)) x (seq 0 (Z.to_nat nargs)))) b
    = match s with Formal _ => true | _ => false end) as Hargs.
  { intros x Ex. rewrite has_fold_args; [|by rewrite Ex|lia|].
    2: { apply list.Forall_forall. intros a Ha%elem_of_seq. lia. }
    rewrite Ex, Hz. cbn [orb]. destruct s as [l|a|g]; cbn in Hs, Eb.
    - injection Eb as <-. apply existsb_none. intros a Ha%elem_of_seq. apply Z.eqb_neq. lia.
    - injection Eb as <-. apply existsb_exists. exists (Z.to_nat a). split; [|apply Z.eqb_eq; lia].
      apply list_elem_of_In, elem_of_seq. lia.
    - destruct (position gbids g); [|done]. cbn in Eb. injection Eb as <-. apply existsb_none. intros a Ha%elem_of_seq.
      apply Z.eqb_neq. lia. }
  destruct c; cbn [frame_ok] in Hc;
    try (change (has (replicate words 0) b = reads bid_of V_void s); rewrite Hz; by destruct s);
    try (change (has ((fun _ => 2 ^ 64 - 1) <$> replicate words 0) b = true); exact Hall);
    unfold call_rec, live_call; rewrite ?use_all_args_snoc; unfold use_arg, use_bit;
    rewrite ?on_cur_snoc; cbn [ls_ops app or_uses fresh].
  all: try (rewrite Hargs; [by destruct s|reflexivity]).
  all: try (match goal with |- has (set_bit _ (u32_add nlocals ?a)) _ = _ =>
    rewrite (u32_add_small nlocals a) by lia;
    rewrite (Hone (Formal a)) by done; by slot_case end).
  all: try (match goal with |- has (set_bit _ ?l) _ = _ =>
    rewrite (Hone (Local l)) by done; by slot_case end).
  destruct (bid_of name_index) as [g|] eqn:Eg.
  2: { change (has (replicate words 0) b = reads bid_of (V_get_g_name name_index) s).
       rewrite Hz. destruct s; cbn; rewrite ?Eg; done. }
  destruct (position gbids g) as [k|] eqn:Ek.
  - unfold use_bit. rewrite on_cur_one. cbn [ls_ops app or_uses fresh].
    pose proof (position_spec g k Ek) as El. pose proof (lookup_lt_Some _ _ _ El) as Hk.
    rewrite (u32_add_small nlocals nargs), u32_add_small by lia.
    rewrite (Hone (Global g)); [|by eapply list_elem_of_lookup_2|cbn; by rewrite Ek].
    destruct s as [l|a|g']; cbn [reads hands_frame orb]; try (apply bool_decide_eq_false; congruence).
    rewrite Eg. apply bool_decide_ext. split; congruence.
  - change (has (replicate words 0) b = reads bid_of (V_get_g_name name_index) s). rewrite Hz.
    destruct s as [l|a|g']; cbn; try done. symmetry. apply bool_decide_eq_false. intros E.
    assert (g' = g) as -> by congruence. destruct (position_in g Hs) as (k & Ek' & _). congruence.
Qed.

Lemma call_defs_slot (c : OpCall) (pc : Z) (op : JSOp) (s : Slot) (b : Z) :
  frame_ok c -> slot_in s -> slot_bit s = Some b ->
  has (or_defs (call_rec c (fresh pc op))) b = writes c s.
Proof.
  intros Hc Hs Eb. destruct (slot_bit_in s Hs) as (b' & Eb' & Hb).
  assert (b' = b) as -> by congruence. clear Eb'.
  assert (has (replicate words 0) b = false) as Hz by apply has_zeros.
  assert (length (replicate words 0) = words) as Hlen by apply length_replicate.
  assert (forall s' k, slot_in s' -> slot_bit s' = Some k ->
    has (set_bit (replicate words 0) k) b = bool_decide (s' = s)) as Hone by (by apply one_bit).
  assert (forall l x, or_defs (foldl (fun x a => mkOpRec (or_pc x) (or_len x)
      (set_bit (or_uses x) (u32_add nlocals (Z.of_nat a))) (or_defs x)) x l) = or_defs x) as Hargs.
  { induction l as [|a l IH]; intros x; cbn; [done|]. by rewrite IH. }
  destruct c; cbn [frame_ok] in Hc;
    try (change (has (replicate words 0) b = writes V_void s); rewrite Hz; by destruct s);
    unfold call_rec, live_call; rewrite ?use_all_args_snoc; unfold def_arg, def_bit;
    rewrite ?on_cur_snoc; cbn [ls_ops app or_defs fresh].
  all: try (rewrite Hargs; cbn [or_defs fresh]; rewrite Hz; by destruct s).
  all: try (match goal with |- has (set_bit _ (u32_add nlocals ?a)) _ = _ =>
    rewrite (u32_add_small nlocals a) by lia;
    rewrite (Hone (Formal a)) by done; by slot_case end).
  all: try (match goal with |- has (set_bit _ ?l) _ = _ =>
    rewrite (Hone (Local l)) by done; by slot_case end).
  destruct (bid_of name_index); [destruct (position gbids _)|]; unfold use_bit;
    rewrite ?on_cur_one; cbn [ls_ops app or_defs fresh]; rewrite Hz; by destruct s.
Qed.
End ScanSound.

(** ** The graph of an encoded script *)

Lemma call_pcs_length (pc : Z) (cs : list (Z * OpCall)) : length (call_pcs pc cs) = length cs.
Proof. revert pc. induction cs as [|i cs IH]; intros pc; cbn; [done|]. by rewrite IH. Qed.

Lemma call_pcs_bound (pc : Z) (cs : list (Z * OpCall)) (i : nat) (p : Z) :
  call_pcs pc cs !! i = Some p -> pc + Z.of_nat i <= p.
Proof.
  revert pc i. induction cs as [|c cs IH]; intros pc [|i] E; cbn in E; try done.
  - injection E as <-. lia.
  - apply IH in E. pose proof (call_len_bound c). lia.
Qed.

(** Offsets are strictly increasing. *)
Lemma call_pcs_lt (pc : Z) (cs : list (Z * OpCall)) (i j : nat) (p q : Z) :
  call_pcs pc cs !! i = Some p -> call_pcs pc cs !! j = Some q -> (i < j)%nat -> p < q.
Proof.
  revert pc i j. induction cs as [|c cs IH]; intros pc [|i] [|j] Ep Eq Hij; cbn in Ep, Eq; try done; try lia.
  - injection Ep as <-. apply call_pcs_bound in Eq. pose proof (call_len_bound c). lia.
  - apply (IH _ i j Ep Eq). lia.
Qed.

Definition total_len (cs : list (Z * OpCall)) : Z := foldr (fun i n => call_len i + n) 0 cs.

Lemma call_pcs_total (pc : Z) (cs : list (Z * OpCall)) (i : nat) (c : Z * OpCall) (p : Z) :
  cs !! i = Some c -> call_pcs pc cs !! i = Some p -> p + call_len c <= pc + total_len cs.
Proof.
  revert pc i. induction cs as [|k cs IH]; intros pc [|i] Ec Ep; cbn in Ec, Ep; try done.
  - injection Ec as ->. injection Ep as <-. unfold total_len. cbn [foldr]. fold (total_len cs).
    assert (0 <= total_len cs); [|lia]. clear. induction cs as [|k cs IH]; cbn; [lia|].
    pose proof (call_len_bound k). fold (total_len cs). lia.
  - specialize (IH _ i Ec Ep). unfold total_len in *. cbn [foldr]. lia.
Qed.

Lemma pc_index_spec (pcs : list Z) (pc : Z) (j : nat) :
  (forall (i j : nat) p, pcs !! i = Some p -> pcs !! j = Some p -> i = j) ->
  pc_index pcs pc = Some j <-> pcs !! j = Some pc.
Proof.
  intros Hinj. unfold pc_index. split.
  - destruct (list_find (eq pc) pcs) as [[k x]|] eqn:E; [|done]. cbn. intros [= <-].
    by apply list_find_Some in E as (E & -> & _).
  - intros E. destruct (list_find_elem_of (eq pc) pcs pc) as [[k x] Ek];
      [by eapply list_elem_of_lookup_2|done|].
    rewrite Ek. cbn. apply list_find_Some in Ek as (Ek & -> & _). f_equal. by eapply Hinj.
Qed.

(** On an increasing list the partition point splits at the bound. *)
Lemma partition_point_spec (pcs : list Z) (bound : Z) (i : nat) (p : Z) :
  (forall (i j : nat) p q, pcs !! i = Some p -> pcs !! j = Some q -> (i < j)%nat -> p < q) ->
  pcs !! i = Some p ->
  (i < partition_point (fun p => (p <? bound)%Z) pcs)%nat <-> p < bound.
Proof.
  revert i. induction pcs as [|x pcs IH]; intros i Hlt E; [done|]. cbn [partition_point].
  destruct (Z.ltb_spec x bound) as [Hx|Hx]; destruct i as [|i]; cbn in E.
  - injection E as ->. lia.
  - rewrite <- (IH i); [lia| |done]. intros a b pa pb Ea Eb Hab. apply (Hlt (S a) (S b)); [done|done|lia].
  - injection E as ->. lia.
  - split; [lia|]. specialize (Hlt 0%nat (S i) x p eq_refl E ltac:(lia)). lia.
Qed.

Lemma partition_point_mono (pcs : list Z) (a b : Z) :
  a <= b -> (partition_point (fun p => (p <? a)%Z) pcs <= partition_point (fun p => (p <? b)%Z) pcs)%nat.
Proof.
  intros Hab. induction pcs as [|x pcs IH]; cbn; [done|].
  destruct (Z.ltb_spec x a), (Z.ltb_spec x b); lia.
Qed.

Definition note_of (n : TryNote) : bool :=
  match tn_kind n with TN_Catch | TN_Finally => true | _ => false end.

(** Where control can go after a call at [p], landing pads aside. *)
Definition targets (p : Z) (i : Z * OpCall) : list Z :=
  match call_flow p i.2 with
  | None => [p + call_len i]
  | Some (FBr t) => [t]
  | Some (FCondBr t) => [t; p + call_len i]
  | Some (FSwitch ts) => ts
  | Some FRet | Some FHalt => []
  end.

(** The control edges of a script: to a target that is an op boundary, and
    from every op a catch or finally note covers to its landing pad. *)
Definition edge (notes : list TryNote) (cs : list (Z * OpCall)) (i j : nat) : Prop :=
  exists c p q, cs !! i = Some c /\ call_pcs 0 cs !! i = Some p /\ call_pcs 0 cs !! j = Some q /\
    (q ∈ targets p c \/
     exists n, n ∈ notes /\ note_of n = true /\ tn_start n <= p < tn_start n + tn_length n /\
       q = tn_start n + tn_length n).

(** The slot may be read, from call [i] on, before it is written. *)
Inductive slot_live (bid_of : Z -> option Z) (notes : list TryNote) (cs : list (Z * OpCall))
    (s : Slot) : nat -> Prop :=
  | sl_read i c : cs !! i = Some c -> reads bid_of c.2 s = true -> slot_live bid_of notes cs s i
  | sl_step i j c :
      cs !! i = Some c -> writes c.2 s = false -> edge notes cs i j ->
      slot_live bid_of notes cs s j -> slot_live bid_of notes cs s i.

(** [handlers_succs] adds exactly the landing pads. *)
Lemma handlers_succs_spec (pcs : list Z) (hs : list (Z * Z * Z)) (succs : list (list nat)) :
  (forall (i j : nat) p q, pcs !! i = Some p -> pcs !! j = Some q -> (i < j)%nat -> p < q) ->
  (forall (i j : nat) p, pcs !! i = Some p -> pcs !! j = Some p -> i = j) ->
  length succs = length pcs ->
  Forall (fun h => h.1.1 <= h.1.2) hs ->
  exists succs', handlers_succs pcs succs hs = Ok succs' /\ length succs' = length pcs /\
    forall i p js', pcs !! i = Some p -> succs' !! i = Some js' ->
    exists js, succs !! i = Some js /\
      forall j, j ∈ js' <-> j ∈ js \/
        exists h, h ∈ hs /\ h.1.1 <= p < h.1.2 /\ pcs !! j = Some h.2.
Proof.
  intros Hlt Hinj. revert succs. induction hs as [|[[start end_] landing] hs IH]; intros succs Hl Hw.
  - exists succs. split_and!; [done|done|]. intros i p js' Hp Ejs. exists js'. split; [done|].
    intros j. split; [by left|]. intros [?|(h & Hh & _)]; [done|by apply elem_of_nil in Hh].
  - apply list.Forall_cons in Hw as [Hse Hw]. cbn in Hse. cbn [handlers_succs handler_succs].
    destruct (pc_index pcs landing) as [k|] eqn:Ek.
    + apply pc_index_spec in Ek; [|done].
      pose proof (partition_point_mono pcs start end_ Hse) as Hm.
      destruct (Nat.ltb_spec (partition_point (fun p => (p <? end_)%Z) pcs) (partition_point (fun p => (p <? start)%Z) pcs)); [lia|].
      cbn [mbind res_bind].
      destruct (IH (imap (fun i s => if ((partition_point (fun p => (p <? start)%Z) pcs <=? i) &&
        (i <? partition_point (fun p => (p <? end_)%Z) pcs))%nat then s ++ [k] else s) succs)) as (succs' & E & Hl' & H');
        [by rewrite length_imap|done|].
      exists succs'. split_and!; [done|done|]. intros i p js' Hp Ejs.
      destruct (H' i p js' Hp Ejs) as (js1 & E1 & Hj). rewrite list_lookup_imap in E1.
      destruct (succs !! i) as [js|] eqn:Ejs0; [|done]. cbn in E1. injection E1 as <-.
      exists js. split; [done|]. intros j. rewrite Hj. clear Hj H' IH.
      pose proof (partition_point_spec pcs start i p Hlt Hp) as P1.
      pose proof (partition_point_spec pcs end_ i p Hlt Hp) as P2.
      destruct (andb _ _) eqn:Ec.
      * apply andb_true_iff in Ec as [E1%Nat.leb_le E2%Nat.ltb_lt]. rewrite elem_of_app, list_elem_of_singleton.
        split.
        -- intros [[Hj| ->]|(h & Hh & Hc)]; [by left| |right; exists h; by rewrite elem_of_cons; auto].
           right. exists (start, end_, landing). split; [left|]. cbn. split; [lia|done].
        -- intros [Hj|(h & [->|Hh]%elem_of_cons & Hc & Hq)]; [by left; left| |right; by exists h].
           left. right. cbn in Hq. by eapply Hinj.
      * split.
        -- intros [Hj|(h & Hh & Hc)]; [by left|right; exists h; by rewrite elem_of_cons; auto].
        -- intros [Hj|(h & [->|Hh]%elem_of_cons & Hc & Hq)]; [by left| |right; by exists h].
           exfalso. cbn in Hc. apply andb_false_iff in Ec as [E1%Nat.leb_gt|E2%Nat.ltb_ge]; lia.
    + cbn [mbind res_bind]. destruct (IH succs Hl Hw) as (succs' & E & Hl' & H'). exists succs'.
      split_and!; [done|done|]. intros i p js' Hp Ejs. destruct (H' i p js' Hp Ejs) as (js & E1 & Hj).
      exists js. split; [done|]. intros j. rewrite Hj. split.
      * intros [?|(h & Hh & Hc)]; [by left|right; exists h; by rewrite elem_of_cons; auto].
      * intros [?|(h & [->|Hh]%elem_of_cons & Hc & Hq)]; [by left| |right; by exists h].
        exfalso. cbn in Hq. apply (pc_index_spec pcs landing j Hinj) in Hq. congruence.
Qed.

(** ** The records of an encoded script *)

Lemma recs_lookup T nlocals nargs words bid_of gbids (pc : Z) (cs : list (Z * OpCall)) (i : nat)
    (c : Z * OpCall) (p : Z) :
  cs !! i = Some c -> call_pcs pc cs !! i = Some p ->
  recs T nlocals nargs words bid_of gbids pc cs !! i =
  Some (call_rec nlocals nargs bid_of gbids c.2 (fresh T words p (op_of c.2))).
Proof.
  revert pc i. induction cs as [|k cs IH]; intros pc [|i] Ec Ep; cbn in Ec, Ep |- *; try done.
  - by injection Ec as ->; injection Ep as ->.
  - by apply IH.
Qed.

Lemma recs_length T nlocals nargs words bid_of gbids (pc : Z) (cs : list (Z * OpCall)) :
  length (recs T nlocals nargs words bid_of gbids pc cs) = length cs.
Proof. revert pc. induction cs as [|k cs IH]; intros pc; cbn; [done|]. by rewrite IH. Qed.

Lemma set_bit_words (words : nat) (v : list Z) (b : Z) :
  word_list words v -> word_list words (set_bit v b).
Proof.
  intros [Hl Hf]. split; [unfold set_bit; by rewrite length_alter|].
  unfold set_bit. apply Forall_alter; [done|]. intros x _ Hx. apply lor_u64; [done|].
  rewrite Z.shiftl_mul_pow2, Z.mul_1_l by (apply Z.mod_pos_bound; lia).
  pose proof (Z.mod_pos_bound b 64). unfold in_u. split; [lia|]. apply Z.pow_lt_mono_r; lia.
Qed.

(** A record keeps its offset, its length and the width of its words. *)
Definition rec_like (words : nat) (x y : OpRec) : Prop :=
  or_pc y = or_pc x /\ or_len y = or_len x /\
  (word_list words (or_uses x) /\ word_list words (or_defs x) ->
   word_list words (or_uses y) /\ word_list words (or_defs y)).

Lemma rec_like_refl words x : rec_like words x x.
Proof. by split_and!. Qed.

Lemma rec_like_args (words : nat) (nlocals : Z) (l : list nat) (x : OpRec) :
  rec_like words x (foldl (fun x a => mkOpRec (or_pc x) (or_len x)
    (set_bit (or_uses x) (u32_add nlocals (Z.of_nat a))) (or_defs x)) x l).
Proof.
  revert x. induction l as [|a l IH]; intros x; cbn [foldl]; [apply rec_like_refl|].
  match goal with |- rec_like _ _ (foldl _ ?y l) => destruct (IH y) as (E1 & E2 & H) end.
  split; [exact E1|]. split; [exact E2|].
  intros [H1 H2]. apply H. cbn. split; [by apply set_bit_words|done].
Qed.

Lemma call_rec_like words nlocals nargs bid_of gbids (c : OpCall) (x : OpRec) :
  rec_like words x (call_rec nlocals nargs bid_of gbids c x).
Proof.
  assert (forall b, rec_like words x (mkOpRec (or_pc x) (or_len x) (set_bit (or_uses x) b) (or_defs x))) as Hu.
  { intros b. split_and!; [done|done|]. intros [? ?]. split; [by apply set_bit_words|done]. }
  assert (forall b, rec_like words x (mkOpRec (or_pc x) (or_len x) (or_uses x) (set_bit (or_defs x) b))) as Hd.
  { intros b. split_and!; [done|done|]. intros [? ?]. split; [done|by apply set_bit_words]. }
  assert (rec_like words x (mkOpRec (or_pc x) (or_len x) ((fun _ => 2 ^ 64 - 1) <$> or_uses x) (or_defs x))) as Ha.
  { split_and!; [done|done|]. intros [[Hl _] ?]. split; [|done]. cbn. split; [by rewrite length_fmap|].
    apply list.Forall_fmap, list.Forall_forall. intros; cbn. unfold in_u. lia. }
  destruct c; try exact (rec_like_refl words x); try exact Ha;
    unfold call_rec, live_call; rewrite ?use_all_args_snoc; unfold use_arg, def_arg, use_bit, def_bit;
    rewrite ?on_cur_snoc; cbn [ls_ops app]; try apply rec_like_args; try apply Hu; try apply Hd.
  destruct (bid_of name_index); [destruct (position gbids _)|]; rewrite ?on_cur_one;
    cbn [ls_ops]; [apply Hu|apply rec_like_refl..].
Qed.

Lemma fresh_like T words p op :
  or_pc (fresh T words p op) = p /\ or_len (fresh T words p op) = op_len T op /\
  word_list words (or_uses (fresh T words p op)) /\ word_list words (or_defs (fresh T words p op)).
Proof.
  assert (word_list words (replicate words 0)).
  { split; [apply length_replicate|]. apply Forall_replicate. unfold in_u. lia. }
  by split_and!.
Qed.

Lemma recs_pcs T nlocals nargs words bid_of gbids (pc : Z) (cs : list (Z * OpCall)) :
  or_pc <$> recs T nlocals nargs words bid_of gbids pc cs = call_pcs pc cs.
Proof.
  revert pc. induction cs as [|k cs IH]; intros pc; cbn; [done|]. rewrite IH. f_equal.
  by destruct (call_rec_like words nlocals nargs bid_of gbids k.2 (fresh T words pc (op_of k.2))) as (-> & _).
Qed.

Lemma flows_lookup (pc : Z) (cs : list (Z * OpCall)) (fl : gmap Z Flow) :
  (forall q, q < pc -> flows pc cs fl !! q = fl !! q) /\
  ((forall q, pc <= q -> fl !! q = None) ->
   forall i c p, cs !! i = Some c -> call_pcs pc cs !! i = Some p ->
     flows pc cs fl !! p = call_flow p c.2).
Proof.
  revert pc fl. induction cs as [|k cs IH]; intros pc fl; cbn [flows call_pcs]; [by split|].
  pose proof (call_len_bound k).
  destruct (IH (pc + call_len k) (match call_flow pc k.2 with Some f => <[pc:=f]> fl | None => fl end)) as [H1 H2].
  split.
  - intros q Hq. rewrite H1 by lia. destruct (call_flow pc k.2); [|done]. by rewrite lookup_insert_ne by lia.
  - intros Hfl [|i] c p Ec Ep; cbn in Ec, Ep.
    + injection Ec as ->. injection Ep as <-. rewrite H1 by lia.
      destruct (call_flow pc c.2); [by rewrite lookup_insert_eq|]. apply Hfl. lia.
    + apply (H2 ltac:(intros q Hq; destruct (call_flow pc k.2); [rewrite lookup_insert_ne by lia|]; apply Hfl; lia) i); done.
Qed.

Lemma handlers_of_spec (ns : list TryNote) (lo pc : Z) (cs : list (Z * OpCall)) (h : Z * Z * Z) :
  lo <= pc ->
  h ∈ handlers_of ns lo pc cs <->
  cs <> [] /\ exists n, n ∈ ns /\ lo < tn_start n <= pc + total_len cs /\ h ∈ note_handler n.
Proof.
  revert lo pc. induction cs as [|k cs IH]; intros lo pc Hlo; cbn [handlers_of].
  - split; [intros H; by apply elem_of_nil in H|by intros [? _]].
  - pose proof (call_len_bound k). assert (0 <= total_len cs) as Ht.
    { clear. induction cs as [|k cs IH]; cbn; [lia|]. pose proof (call_len_bound k). fold (total_len cs). lia. }
    rewrite elem_of_app, IH by lia. unfold total_len at 2. cbn [foldr]. fold (total_len cs).
    rewrite list_elem_of_join. split.
    + intros [(l & Hh & Hl)|[Hne (n & Hn & Hr & Hh)]]; (split; [done|]).
      * apply list_elem_of_fmap in Hl as (n & -> & Hn). apply list_elem_of_filter in Hn as [Hr Hn].
        exists n. split_and!; [done|lia..|done].
      * exists n. split_and!; [done|lia..|done].
    + intros [_ (n & Hn & Hr & Hh)]. destruct (Z.le_gt_cases (tn_start n) (pc + call_len k)) as [Hle|Hgt].
      * left. exists (note_handler n). split; [done|]. apply list_elem_of_fmap. exists n. split; [done|].
        apply list_elem_of_filter. split; [lia|done].
      * right. split; [|exists n; split_and!; [done|lia..|done]]. intros ->. cbn in Hr. lia.
Qed.

(** ** The table of an encoded script *)

(** A visitor that only listens to calls. *)
Lemma trace_calls {V} (T : OpTable) (f : OpCall -> V -> V) (ns : list TryNote) (lo pc : Z)
    (cs : list (Z * OpCall)) (v : V) :
  trace T (fun _ _ _ _ v => v) (fun _ _ v => v) f ns lo pc cs v = foldl (fun v i => f i.2 v) v cs.
Proof.
  revert lo pc v. induction cs as [|i cs IH]; intros lo pc v; cbn [trace foldl]; [done|].
  rewrite IH. f_equal. generalize (notes_in lo (pc + call_len i) ns). intros l.
  generalize (f i.2 v). induction l as [|n l IHl]; intros w; cbn; [done|apply IHl].
Qed.

Definition locals_of (cs : list (Z * OpCall)) : Z := foldl (fun m i => max_locals_call i.2 m) 0 cs.

Definition bindings_of (bid_of : Z -> option Z) (cs : list (Z * OpCall)) : list Z :=
  foldl (fun g i => gscan_call bid_of i.2 g) [] cs.

Lemma locals_of_spec (resume : list Z) (cs : list (Z * OpCall)) (m : Z) :
  Forall (fun i => call_wf resume i.1 i.2) cs -> 0 <= m <= 2 ^ 24 ->
  m <= foldl (fun m i => max_locals_call i.2 m) m cs <= 2 ^ 24 /\
  forall i n, i ∈ cs -> i.2 = V_get_local n \/ i.2 = V_set_local n \/ i.2 = V_init_lexical n ->
    0 <= n < foldl (fun m i => max_locals_call i.2 m) m cs.
Proof.
  intros Hw. revert m. induction Hw as [|k cs Hk _ IH]; intros m Hm; cbn [foldl].
  - split; [lia|]. intros i n Hi. by apply elem_of_nil in Hi.
  - assert (m <= max_locals_call k.2 m <= 2 ^ 24 /\ forall n,
      k.2 = V_get_local n \/ k.2 = V_set_local n \/ k.2 = V_init_lexical n ->
      0 <= n < max_locals_call k.2 m) as [H1 H2].
    { destruct k as [first c]. cbn [snd fst] in *. destruct c; cbn [max_locals_call call_wf] in *;
        try (split; [lia|intros ? [?|[?|?]]; discriminate]);
        unfold u32_add; (rewrite wrap_u_small; [|unfold in_u in *; lia]); unfold in_u in Hk;
        (split; [lia|intros ? [?|[?|?]]; simplify_eq; lia]). }
    destruct (IH (max_locals_call k.2 m)) as [H3 H4]; [lia|]. split; [lia|].
    intros i n [->|Hi]%elem_of_cons Hc; [specialize (H2 n Hc); lia|by apply (H4 i)].
Qed.

Lemma bindings_of_length (bid_of : Z -> option Z) (cs : list (Z * OpCall)) (g : list Z) :
  (length (foldl (fun g i => gscan_call bid_of i.2 g) g cs) <= length g + length cs)%nat.
Proof.
  revert g. induction cs as [|k cs IH]; intros g; cbn [foldl length]; [lia|].
  rewrite IH. destruct k as [f c]. destruct c; cbn [gscan_call snd]; try lia.
  destruct (bid_of name_index); [|lia]. case_bool_decide; [lia|]. rewrite length_app. cbn. lia.
Qed.

Lemma total_len_encode (byte_of : JSOp -> Z) (cs : list (Z * OpCall)) :
  Z.of_nat (length (encode_all byte_of cs)) = total_len cs /\ Z.of_nat (length cs) <= total_len cs.
Proof.
  induction cs as [|i cs [IH1 IH2]]; [done|]. rewrite encode_cons_length.
  unfold total_len in *. cbn [foldr length]. pose proof (call_len_bound i). lia.
Qed.

(** The operands the verifier-checked bytecode guarantees: lexical checks
    and formals in the frame. *)
Definition operands_ok (nlocals nargs : Z) (c : OpCall) : Prop :=
  match c with
  | V_check_lexical l => 0 <= l < nlocals
  | V_get_arg a | V_get_frame_arg a | V_set_arg a => 0 <= a < nargs
  | _ => True
  end.

Record live_script (byte_of : JSOp -> Z) (s : Script) (cs : list (Z * OpCall)) : Prop := {
  lv_encoded : sc_bytecode s = encode_all byte_of cs;
  lv_calls : Forall (fun i => call_wf (sc_resume_offsets s) i.1 i.2) cs;
  lv_notes : Forall (fun n => 0 <= tn_start n /\ 0 <= tn_length n /\ tn_start n + tn_length n < 2 ^ 32)
    (sc_try_notes s);
  lv_size : Z.of_nat (length (sc_bytecode s)) < 2 ^ 31;
  lv_nargs : in_u 16 (sc_nargs s);
  lv_operands : Forall (fun i => operands_ok (locals_of cs) (sc_nargs s) i.2) cs }.

Definition slot_query (L : ScriptLive) (pc : Z) (s : Slot) : bool :=
  match s with
  | Local l => local_live L pc l
  | Formal a => arg_live L pc a
  | Global b => gcell_live L pc b
  end.

Section Table.
Context (T : OpTable) (byte_of : JSOp -> Z) (HT : table_laws T byte_of).
Context (bid_of : Z -> option Z) (s : Script) (cs : list (Z * OpCall)).
Hypothesis Hs : live_script byte_of s cs.

Let nlocals := locals_of cs.
Let nargs := sc_nargs s.
Let gbids := bindings_of bid_of cs.
Let nbits := nlocals + nargs + Z.of_nat (length gbids).
Let words := Z.to_nat ((nbits + 63) / 64).
Let ops := recs T nlocals nargs words bid_of gbids 0 cs.
Let pcs := call_pcs 0 cs.
Let flow := flows 0 cs (∅ : gmap Z Flow).
Let handlers := handlers_of (sort_notes (sc_try_notes s)) (-1) 0 cs.

Lemma visit_calls_only {V} (f : OpCall -> V -> V) (v : V) :
  visit T (fun _ _ _ _ v => v) (fun _ _ v => v) f (parser s) v = Ok (foldl (fun v i => f i.2 v) v cs).
Proof.
  destruct Hs as [H1 H2 H3 H4 H5 H6].
  rewrite (visit_trace T byte_of HT _ _ _ s cs v); [by rewrite trace_calls|done|done| |lia].
  eapply list.Forall_impl; [exact H3|]. cbn. tauto.
Qed.

Lemma script_sizes :
  0 <= nlocals <= 2 ^ 24 /\ 0 <= nargs < 2 ^ 16 /\ Z.of_nat (length gbids) < 2 ^ 31 /\
  nbits < 2 ^ 32 /\ nbits <= 64 * Z.of_nat words /\ total_len cs < 2 ^ 31.
Proof.
  destruct Hs as [H1 H2 H3 H4 H5 H6].
  destruct (locals_of_spec (sc_resume_offsets s) cs 0 H2 ltac:(lia)) as [HA _].
  destruct (total_len_encode byte_of cs) as [HB HC]. rewrite <- H1 in HB.
  pose proof (bindings_of_length bid_of cs []) as HD. cbn in HD. unfold in_u in H5.
  fold (locals_of cs) in HA. fold nlocals in HA. fold (bindings_of bid_of cs) in HD. fold gbids in HD.
  assert (nbits <= 64 * Z.of_nat words).
  { unfold words. rewrite Z2Nat.id by (apply Z.div_pos; unfold nbits, nargs; lia).
    pose proof (Z.div_mod (nbits + 63) 64). pose proof (Z.mod_pos_bound (nbits + 63) 64). lia. }
  unfold nbits, nargs in *. split_and!; lia.
Qed.

Lemma frames_ok : Forall (fun i => frame_ok nlocals nargs i.2) cs.
Proof.
  destruct Hs as [H1 H2 H3 H4 H5 H6].
  destruct (locals_of_spec (sc_resume_offsets s) cs 0 H2 ltac:(lia)) as [_ HB].
  fold (locals_of cs) in HB. apply list.Forall_forall. intros i Hi.
  rewrite list.Forall_forall in H6. specialize (H6 i Hi). specialize (HB i).
  destruct i as [f c]. cbn [snd] in *. destruct c; cbn [frame_ok operands_ok] in *; try done; apply HB; auto.
Qed.

Lemma pcs_inj (i j : nat) (p : Z) : pcs !! i = Some p -> pcs !! j = Some p -> i = j.
Proof.
  intros Ei Ej. destruct (lt_eq_lt_dec i j) as [[H|H]|H]; [|done|].
  - pose proof (call_pcs_lt 0 cs i j p p Ei Ej H). lia.
  - pose proof (call_pcs_lt 0 cs j i p p Ej Ei H). lia.
Qed.

Lemma op_at (i : nat) (o : OpRec) :
  ops !! i = Some o -> exists c p, cs !! i = Some c /\ pcs !! i = Some p /\
    o = call_rec nlocals nargs bid_of gbids c.2 (fresh T words p (op_of c.2)).
Proof.
  intros E. assert (i < length cs)%nat as Hi.
  { rewrite <- (recs_length T nlocals nargs words bid_of gbids 0 cs). by apply lookup_lt_Some in E. }
  destruct (lookup_lt_is_Some_2 cs i Hi) as [c Ec].
  destruct (lookup_lt_is_Some_2 pcs i) as [p Ep]; [unfold pcs; by rewrite call_pcs_length|].
  exists c, p. split_and!; [done|done|]. unfold ops in E.
  rewrite (recs_lookup _ _ _ _ _ _ _ _ _ _ _ Ec Ep) in E. congruence.
Qed.

Lemma op_facts (i : nat) (o : OpRec) (c : Z * OpCall) (p : Z) :
  ops !! i = Some o -> cs !! i = Some c -> pcs !! i = Some p ->
  or_pc o = p /\ or_len o = call_len c /\ word_list words (or_uses o) /\ word_list words (or_defs o).
Proof.
  intros Eo Ec Ep. destruct (op_at i o Eo) as (c' & p' & Ec' & Ep' & ->).
  assert (c' = c) as -> by congruence. assert (p' = p) as -> by congruence.
  destruct (call_rec_like words nlocals nargs bid_of gbids c.2 (fresh T words p (op_of c.2))) as (-> & -> & Hw).
  destruct (fresh_like T words p (op_of c.2)) as (-> & -> & F1 & F2).
  split_and!; [done|by rewrite (tl_len _ _ HT)|by apply Hw..].
Qed.

Lemma elem_one (t : Z) (j : nat) : j ∈ option_list (pc_index pcs t) <-> pcs !! j = Some t.
Proof.
  rewrite <- (pc_index_spec pcs t j pcs_inj). destruct (pc_index pcs t); cbn.
  - rewrite list_elem_of_singleton. split; congruence.
  - split; [intros H; by apply elem_of_nil in H|done].
Qed.

Lemma op_succs_spec (i j : nat) (o : OpRec) (c : Z * OpCall) (p : Z) :
  ops !! i = Some o -> cs !! i = Some c -> pcs !! i = Some p ->
  j ∈ op_succs pcs flow o <-> exists t, t ∈ targets p c /\ pcs !! j = Some t.
Proof.
  intros Eo Ec Ep. destruct (op_facts i o c p Eo Ec Ep) as (Epc & Elen & _).
  destruct script_sizes as (_ & _ & _ & _ & _ & Htot).
  pose proof (call_pcs_total 0 cs i c p Ec Ep) as Hend. pose proof (call_pcs_bound 0 cs i p Ep) as Hp.
  pose proof (call_len_bound c) as Hc.
  unfold op_succs, targets. rewrite Epc, Elen.
  destruct (flows_lookup 0 cs ∅) as [_ Hfl].
  unfold flow. rewrite (Hfl (fun q _ => lookup_empty q) i c p Ec Ep).
  assert (u32_add p (call_len c) = p + call_len c) as ->.
  { apply u32_add_small. lia. }
  destruct (call_flow p c.2) as [[t|t|ts| |]|]; rewrite ?elem_of_app, ?elem_one.
  - split; [intros E; exists t; split; [left|done]|intros (t' & ->%list_elem_of_singleton & E); done].
  - split.
    + intros [E|E]; [exists t|exists (p + call_len c)]; (split; [|done]); [left|right; left].
    + intros (t' & [->| ->%list_elem_of_singleton]%elem_of_cons & E); [by left|by right].
  - rewrite list_elem_of_join. split.
    + intros (l & Hj & Hl). apply list_elem_of_fmap in Hl as (t & -> & Ht).
      exists t. split; [done|by apply elem_one].
    + intros (t & Ht & E). exists (option_list (pc_index pcs t)). split; [by apply elem_one|].
      apply list_elem_of_fmap. by exists t.
  - split; [intros H; by apply elem_of_nil in H|intros (t & H & _); by apply elem_of_nil in H].
  - split; [intros H; by apply elem_of_nil in H|intros (t & H & _); by apply elem_of_nil in H].
  - split; [intros E; exists (p + call_len c); split; [left|done]|].
    intros (t' & ->%list_elem_of_singleton & E); done.
Qed.

Lemma handler_at (h : Z * Z * Z) :
  h ∈ handlers -> h.1.1 <= h.1.2 /\ exists n, n ∈ sc_try_notes s /\ note_of n = true /\
    h = (tn_start n, tn_start n + tn_length n, tn_start n + tn_length n).
Proof.
  intros Hh. apply handlers_of_spec in Hh as (_ & n & Hn & _ & Hh); [|lia].
  rewrite sort_notes_perm in Hn. destruct Hs as [_ _ H3 _ _ _]. rewrite list.Forall_forall in H3.
  specialize (H3 n Hn). unfold note_handler in Hh. unfold note_of.
  assert (u32_add (tn_start n) (tn_length n) = tn_start n + tn_length n) as E.
  { apply u32_add_small. lia. }
  destruct (tn_kind n) eqn:Ek; cbn in Hh; try (by apply elem_of_nil in Hh);
    apply list_elem_of_singleton in Hh as ->; rewrite E; (split; [cbn; lia|]); exists n; by rewrite Ek.
Qed.

(** The successors the table is built on are the control edges. *)
Lemma succs_edges :
  exists succs, handlers_succs pcs (op_succs pcs flow <$> ops) handlers = Ok succs /\
    length succs = length ops /\
    forall i js j, succs !! i = Some js -> j ∈ js <-> edge (sc_try_notes s) cs i j.
Proof.
  assert (length ops = length pcs) as Hl by (unfold ops, pcs; by rewrite recs_length, call_pcs_length).
  destruct (handlers_succs_spec pcs handlers (op_succs pcs flow <$> ops)) as (succs & E & El & H).
  - intros a b p q Ea Eb Hab. exact (call_pcs_lt 0 cs a b p q Ea Eb Hab).
  - exact pcs_inj.
  - by rewrite length_fmap.
  - apply list.Forall_forall. intros h Hh. by apply handler_at.
  - exists succs. split_and!; [done|lia|]. intros i js j Ej.
    destruct (lookup_lt_is_Some_2 pcs i) as [p Ep]; [rewrite <- El; by apply lookup_lt_Some in Ej|].
    destruct (H i p js Ep Ej) as (js0 & Ej0 & Hj). rewrite Hj. clear Hj H E Ej.
    rewrite list_lookup_fmap in Ej0. destruct (ops !! i) as [o|] eqn:Eo; [|done]. injection Ej0 as <-.
    destruct (op_at i o Eo) as (c & p' & Ec & Ep' & _). assert (p' = p) as -> by congruence.
    rewrite (op_succs_spec i j o c p Eo Ec Ep). unfold edge. split.
    + intros [(t & Ht & Et)|(h & Hh & Hr & Eh)].
      * exists c, p, t. split_and!; [done|done|done|by left].
      * destruct (handler_at h Hh) as (_ & n & Hn & Hk & ->). cbn in Hr, Eh.
        exists c, p, (tn_start n + tn_length n). split_and!; [done|done|done|]. right.
        exists n. split_and!; try done; lia.
    + intros (c' & p'' & q & Ec' & Ep'' & Eq & Hq).
      assert (p'' = p) as -> by (fold pcs in Ep''; congruence). assert (c' = c) as -> by congruence.
      fold pcs in Eq. destruct Hq as [Hq|(n & Hn & Hk & Hr & ->)]; [left; by exists q|]. right.
      exists (tn_start n, tn_start n + tn_length n, tn_start n + tn_length n).
      split_and!; [|cbn; lia..|done]. apply handlers_of_spec; [lia|]. split; [by intros ->|].
      exists n. rewrite sort_notes_perm. split; [done|].
      destruct Hs as [_ _ H3 _ _ _]. rewrite list.Forall_forall in H3. specialize (H3 n Hn).
      pose proof (call_pcs_total 0 cs i c p Ec Ep) as Hend. pose proof (call_len_bound c).
      split; [lia|]. unfold note_handler, note_of in *.
      assert (u32_add (tn_start n) (tn_length n) = tn_start n + tn_length n) as ->.
      { apply u32_add_small. lia. }
      destruct (tn_kind n); try done; left.
Qed.

(** A bit is live when its slot is. *)
Lemma live_at_slot (succs : list (list nat)) (sl : Slot) (b : Z) (i : nat) :
  length succs = length ops ->
  (forall i js j, succs !! i = Some js -> j ∈ js <-> edge (sc_try_notes s) cs i j) ->
  slot_in nlocals nargs gbids sl -> slot_bit nlocals nargs gbids sl = Some b ->
  live_at ops succs i b <-> slot_live bid_of (sc_try_notes s) cs sl i.
Proof.
  intros Hl Hedge Hin Eb. destruct script_sizes as (Z1 & Z2 & Z3 & Z4 & Z5 & _).
  assert (0 <= nlocals /\ 0 <= nargs /\ nlocals + nargs + Z.of_nat (length gbids) < 2 ^ 32 /\
    nlocals + nargs + Z.of_nat (length gbids) <= 64 * Z.of_nat words) as Hsz.
  { unfold nbits in *. lia. }
  pose proof frames_ok as Hf. rewrite list.Forall_forall in Hf.
  assert (forall i o c, ops !! i = Some o -> cs !! i = Some c ->
    has (or_uses o) b = reads bid_of c.2 sl /\ has (or_defs o) b = writes c.2 sl) as Hbits.
  { intros k o c Eo Ec. destruct (op_at k o Eo) as (c' & p & Ec' & _ & ->).
    assert (c' = c) as -> by congruence. assert (frame_ok nlocals nargs c.2) by (apply Hf; by eapply list_elem_of_lookup_2).
    split; [by apply call_uses_slot|by apply call_defs_slot]. }
  split.
  - induction 1 as [k o b Eo Hu|k o js j b Eo Hd Ejs Hj _ IH]; destruct (op_at k o Eo) as (c & p & Ec & _ & _);
      destruct (Hbits k o c Eo Ec) as [B1 B2].
    + apply (sl_read _ _ _ _ _ c); [done|congruence].
    + apply (sl_step _ _ _ _ k j c); [done|congruence|by apply (Hedge k js j)|]. by apply IH.
  - induction 1 as [k c Ec Hr|k j c Ec Hw He _ IH];
      (destruct (lookup_lt_is_Some_2 ops k) as [o Eo];
        [unfold ops; rewrite recs_length; by eapply lookup_lt_Some|]);
      destruct (Hbits k o c Eo Ec) as [B1 B2].
    + apply (at_use _ _ _ o); [done|congruence].
    + destruct (lookup_lt_is_Some_2 succs k) as [js Ejs]; [rewrite Hl; by eapply lookup_lt_Some|].
      apply (at_step _ _ k o js j); [done|congruence|done|by apply (Hedge k js j)|done].
Qed.

Lemma land_bit (w k : Z) : 0 <= k -> negb (Z.land w (Z.shiftl 1 k) =? 0) = Z.testbit w k.
Proof.
  intros Hk. destruct (Z.testbit w k) eqn:E.
  - apply negb_true_iff, Z.eqb_neq. intros H. apply (f_equal (fun x => Z.testbit x k)) in H.
    rewrite Z.land_spec, E, Z.shiftl_spec, Z.sub_diag, Z.bits_0 in H by lia. done.
  - apply negb_false_iff, Z.eqb_eq, Z.bits_inj_0. intros j. rewrite Z.land_spec.
    destruct (Z.eq_dec j k) as [->|Hne]; [by rewrite E|].
    destruct (Z.ltb_spec j 0); [by rewrite Z.testbit_neg_r by lia|]. rewrite Z.shiftl_spec by lia.
    destruct (Z.ltb_spec (j - k) 0); [by rewrite (Z.testbit_neg_r 1) by lia; apply andb_false_r|].
    rewrite (Z.bits_above_log2 1); [apply andb_false_r|lia|cbn; lia].
Qed.

Lemma bit_has (L : ScriptLive) (i : nat) (p b : Z) :
  sl_pcs L = pcs -> pcs !! i = Some p -> 0 <= b < 64 * Z.of_nat (sl_words L) ->
  length (sl_live_in L) = (length pcs * sl_words L)%nat ->
  bit L p b = has (row (sl_words L) (sl_live_in L) i) b.
Proof.
  intros Ep Ei Hb Hl. unfold bit. rewrite Ep. rewrite (proj2 (pc_index_spec pcs p i pcs_inj) Ei).
  pose proof (Z.div_mod b 64). pose proof (Z.mod_pos_bound b 64). apply lookup_lt_Some in Ei.
  destruct (Nat.leb_spec (sl_words L) (Z.to_nat (b / 64))); [lia|]. cbn [orb]. rewrite land_bit by lia.
  unfold has, row. rewrite lookup_take_lt, lookup_drop by lia.
  destruct (lookup_lt_is_Some_2 (sl_live_in L) (i * sl_words L + Z.to_nat (b / 64))) as [w Ew]; [nia|].
  rewrite Ew. by rewrite (nth_lookup_Some _ _ _ _ Ew).
Qed.

Lemma build_live :
  exists L, build T s bid_of = Ok L /\
    forall i p sl, pcs !! i = Some p -> slot_in nlocals nargs gbids sl ->
      slot_query L p sl = true <-> slot_live bid_of (sc_try_notes s) cs sl i.
Proof.
  destruct script_sizes as (Z1 & Z2 & Z3 & Z4 & Z5 & _).
  assert (0 <= nlocals /\ 0 <= nargs /\ nlocals + nargs + Z.of_nat (length gbids) < 2 ^ 32 /\
    nlocals + nargs + Z.of_nat (length gbids) <= 64 * Z.of_nat words) as Hsz by (unfold nbits in *; lia).
  unfold build, max_locals. rewrite visit_calls_only. cbn [mbind res_bind]. fold (locals_of cs).
  cbv zeta. rewrite visit_calls_only. cbn [mbind res_bind]. fold (bindings_of bid_of cs).
  change (foldl (fun v i => max_locals_call i.2 v) 0 cs) with nlocals. fold gbids nargs.
  assert (u32_add (u32_add nlocals nargs) (Z.of_nat (length gbids)) = nbits) as ->.
  { rewrite (u32_add_small nlocals nargs), u32_add_small; unfold nbits in *; lia. }
  fold words. destruct Hs as [H1 H2 H3 H4 H5 H6] eqn:EHs. clear EHs.
  rewrite (visit_trace T byte_of HT _ _ _ s cs _ H1 H2); [|eapply list.Forall_impl; [exact H3|cbn; tauto]|lia].
  cbn [mbind res_bind].
  destruct (trace_spec T nlocals nargs words bid_of gbids (sort_notes (sc_try_notes s)) (-1) 0 cs
    (mkLiveScan 0 [] ∅ [])) as (-> & -> & ->).
  cbn [ls_ops ls_flow ls_handlers app]. rewrite recs_pcs. fold ops pcs flow handlers.
  destruct succs_edges as (succs & -> & Hl & Hedge). cbn [mbind res_bind].
  assert (length pcs = length ops) as Hlp by (unfold ops, pcs; by rewrite recs_length, call_pcs_length).
  assert (Forall (fun o => word_list words (or_uses o) /\ word_list words (or_defs o)) ops) as Hops.
  { apply list.Forall_forall. intros o Ho. apply list_elem_of_lookup_1 in Ho as [k Ho].
    destruct (op_at k o Ho) as (c & p & Ec & Ep & _). by apply (op_facts k o c p). }
  assert (length succs = length ops /\ Forall (Forall (fun j => (j < length ops)%nat)) succs) as Hsu.
  { split; [done|]. apply list.Forall_forall. intros js Hjs. apply list_elem_of_lookup_1 in Hjs as [k Hk].
    apply list.Forall_forall. intros j Hj. apply (Hedge k js j Hk) in Hj as (_ & _ & q & _ & _ & Eq & _).
    fold pcs in Eq. apply lookup_lt_Some in Eq. lia. }
  rewrite Hlp.
  destruct (live_loop_live words ops succs Hops Hsu (live_fuel words (length ops))) as (live & -> & Hll & Hlive).
  { unfold live_fuel. lia. }
  cbn [mbind res_bind]. eexists. split; [reflexivity|]. intros i p sl Ep Hin.
  destruct (slot_bit_in nlocals nargs words gbids Hsz sl Hin) as (b & Eb & Hb).
  rewrite <- (live_at_slot succs sl b i Hl Hedge Hin Eb).
  rewrite <- (Hlive i b); [|rewrite <- Hlp; by apply lookup_lt_Some in Ep|lia].
  assert (bit (mkScriptLive nlocals nargs words pcs live gbids) p b = has (row words live i) b) as <-.
  { apply (bit_has (mkScriptLive nlocals nargs words pcs live gbids) i p b); cbn; [done|done|lia|lia]. }
  destruct sl as [l|a|g]; cbn [slot_query local_live arg_live gcell_live slot_in slot_bit sl_nlocals sl_nargs sl_gbids] in *.
  - injection Eb as ->. unfold local_live. cbn [sl_nlocals]. destruct (Z.leb_spec nlocals b); [lia|]. done.
  - injection Eb as <-. unfold arg_live. cbn [sl_nlocals].
    rewrite u32_add_small by lia. done.
  - unfold gcell_live. cbn [sl_gbids sl_nlocals sl_nargs]. destruct (position gbids g) as [k|] eqn:Ek; [|done].
    cbn in Eb. injection Eb as <-.
    apply position_spec in Ek. apply lookup_lt_Some in Ek.
    rewrite (u32_add_small nlocals nargs), u32_add_small by lia. done.
Qed.
End Table.
