(* ===== verification/Cfg.v ===== *)
(** * Cfg: the control-flow graph of a body

    [compiler/src/wasm/bbv/cfg.rs]: the graph over the program points of a
    script and its spliced segments, its dominator tree (reverse postorder,
    then the iteration of Cooper, Harvey and Kennedy) and its loop nest. Block
    indices are naturals, [NONE] is [None] for an immediate dominator or a
    header and [2 ^ 32 - 1] for a reverse-postorder number; an index out of
    range panics as in the code. [Flow] is the enumeration of [Live]. *)

From S2P Require Import Prelude Mem Source Bytecode Live.

Definition NONE : Z := 2 ^ 32 - 1.

(** ** The bytecode walk *)

Record FlowScan := mkFlowScan {
  fs_pc : Z;
  fs_ops : list (Z * Z);
  fs_flow : gmap Z Flow;
  fs_handlers : list Z }.

Section Scan.
Context (T : OpTable) (base : Z).

Definition flow_before_op (pc : Z) (op : JSOp) (u d : Z) (st : FlowScan) : FlowScan :=
  let pc := u32_add base pc in
  mkFlowScan pc (fs_ops st ++ [(pc, op_len T op)]) (fs_flow st) (fs_handlers st).

Definition flow_try_note (pc : Z) (note : TryNote) (st : FlowScan) : FlowScan :=
  match tn_kind note with
  | TN_Catch | TN_Finally =>
      mkFlowScan (fs_pc st) (fs_ops st) (fs_flow st)
        (fs_handlers st ++ [u32_add (u32_add base (tn_start note)) (tn_length note)])
  | _ => st
  end.

Definition flow_set (f : Flow) (st : FlowScan) : FlowScan :=
  mkFlowScan (fs_pc st) (fs_ops st) (<[fs_pc st := f]> (fs_flow st)) (fs_handlers st).

Definition flow_call (c : OpCall) (st : FlowScan) : FlowScan :=
  let target off := branch (fs_pc st) off in
  match c with
  | V_goto_ off | V_default_ off => flow_set (FBr (target off)) st
  | V_jump_if_false off | V_jump_if_true off | V_and_ off | V_or_ off | V_coalesce off
  | V_case_ off => flow_set (FCondBr (target off)) st
  | V_table_switch default_off _ _ offsets =>
      flow_set (FSwitch ((u32_add base <$> offsets) ++ [target default_off])) st
  | V_return_ | V_ret_rval => flow_set FRet st
  | V_throw_ | V_throw_with_stack | V_throw_msg _ | V_throw_set_const _ => flow_set FHalt st
  | _ => st
  end.

Definition flow_scan (script : Script) : res FlowScan :=
  visit T flow_before_op flow_try_note flow_call (parser script) (mkFlowScan 0 [] ∅ []).

End Scan.

(** ** Blocks *)

Record CfgBlock := mkCfgBlock {
  cb_start : Z;
  cb_end : Z;
  cb_succs : list nat;
  cb_preds : list nat }.

(** A spliced segment: the fields the graph reads. *)
Record InlineSeg := mkInlineSeg {
  is_script : Script;
  is_base : Z;
  is_call_pc : Z;
  is_ret_pc : Z }.

(** What the scan of every script instance adds up to. *)
Record Instances := mkInstances {
  in_ops : list (Z * Z);
  in_flow : gmap Z Flow;
  in_leaders : gset Z;
  in_extents : list (Z * Z * option nat);
  in_handlers : list Z }.

(** The leaders an op makes. *)
Definition op_leaders (flow : gmap Z Flow) (op : Z * Z) : list Z :=
  let '(pc, len) := op in
  match flow !! pc with
  | None => []
  | Some (FBr t) | Some (FCondBr t) => [t; u32_add pc len]
  | Some (FSwitch ts) => ts ++ [u32_add pc len]
  | Some FRet | Some FHalt => [u32_add pc len]
  end.

Definition scan_instance (T : OpTable) (script : Script) (base : Z) (seg : option nat)
    (i : Instances) : res Instances :=
  s ← flow_scan T base script;
  let end_ := u32_add base (Z.of_nat (length (sc_bytecode script))) in
  Ok (mkInstances (in_ops i ++ fs_ops s) (fs_flow s ∪ in_flow i)
        (in_leaders i ∪ {[base]} ∪ list_to_set (fs_handlers s)
         ∪ list_to_set (mjoin (op_leaders (fs_flow s) <$> fs_ops s)))
        (in_extents i ++ [(base, end_, seg)]) (in_handlers i ++ fs_handlers s)).

Fixpoint scan_segs (T : OpTable) (n : nat) (segs : list InlineSeg) (i : Instances) : res Instances :=
  match segs with
  | [] => Ok i
  | g :: segs => i ← scan_instance T (is_script g) (is_base g) (Some n) i; scan_segs T (S n) segs i
  end.

(** [sort_unstable] of pairs of words: their order is total. *)
Definition pair_le (a b : Z * Z) : bool :=
  (fst a <? fst b) || ((fst a =? fst b) && (snd a <=? snd b)).

(** The run of ops from one leader to the op before the next: its last op and
    the ops after it. *)
Fixpoint block_run (leaders : gset Z) (op : Z * Z) (ops : list (Z * Z)) : (Z * Z) * list (Z * Z) :=
  match ops with
  | o :: rest => if bool_decide (fst o ∈ leaders) then (op, ops) else block_run leaders o rest
  | [] => (op, [])
  end.

(** The blocks of one instance with their last ops; the ops bound the runs. *)
Fixpoint cut_blocks (fuel : nat) (leaders : gset Z) (ops : list (Z * Z)) : list (Z * Z * (Z * Z)) :=
  match fuel, ops with
  | S n, op :: rest =>
      let '(last, rest) := block_run leaders op rest in
      (fst op, u32_add (fst last) (snd last), last) :: cut_blocks n leaders rest
  | _, _ => []
  end.

Definition instance_ops (ops : list (Z * Z)) (base end_ : Z) : list (Z * Z) :=
  let lo := partition_point (fun p => p <? base) (fst <$> ops) in
  let hi := partition_point (fun p => p <? end_) (fst <$> ops) in
  take (hi - lo) (drop lo ops).

Definition cut_instance (ops : list (Z * Z)) (leaders : gset Z) (i : Z * Z * option nat)
    : list (Z * Z * (Z * Z) * option nat) :=
  let '(base, end_, seg) := i in
  let ops := instance_ops ops base end_ in
  (fun b => (b, seg)) <$> cut_blocks (length ops) leaders ops.

(** The block of a pc: the last span that starts at or before it, if it
    reaches past it. *)
Definition block_of (span : list (Z * Z * nat)) (pc : Z) : option nat :=
  match partition_point (fun s => s <=? pc) ((fun s => fst (fst s)) <$> span) with
  | O => None
  | S i =>
      match span !! i with
      | Some (_, e, b) => if pc <? e then Some b else None
      | None => None
      end
  end.

Definition span_le (a b : Z * Z * nat) : bool :=
  pair_le (fst a) (fst b) && (negb (bool_decide (fst a = fst b)) || (snd a <=? snd b)%nat).

(** [sort_unstable] and [dedup]. *)
Fixpoint dedup (l : list nat) : list nat :=
  match l with
  | x :: (y :: _) as r => if (x =? y)%nat then dedup r else x :: dedup r
  | l => l
  end.
Definition sort_dedup (l : list nat) : list nat := dedup (sort_list Nat.leb l).

(** The segments a call site splices, in order. *)
Definition by_call (segs : list InlineSeg) (pc : Z) : list Z :=
  is_base <$> List.filter (fun g => is_call_pc g =? pc) segs.

Definition block_succs (blk : Z -> option nat) (flow : gmap Z Flow) (segs : list InlineSeg)
    (last : Z * Z) (seg : option nat) : res (list nat) :=
  let '(pc, len) := last in
  let one t := option_list (blk t) in
  own ← match flow !! pc with
        | None => Ok (one (u32_add pc len))
        | Some (FBr t) => Ok (one t)
        | Some (FCondBr t) => Ok (one t ++ one (u32_add pc len))
        | Some (FSwitch ts) => Ok (mjoin (one <$> ts))
        | Some FRet =>
            match seg with
            | None => Ok []
            | Some si =>
                match segs !! si with Some g => Ok (one (is_ret_pc g)) | None => Panic PSlice end
            end
        | Some FHalt => Ok []
        end;
  Ok (sort_dedup (own ++ mjoin (one <$> by_call segs pc))).

Fixpoint all_succs (blk : Z -> option nat) (flow : gmap Z Flow) (segs : list InlineSeg)
    (cuts : list (Z * Z * (Z * Z) * option nat)) : res (list (list nat)) :=
  match cuts with
  | [] => Ok []
  | (_, _, last, seg) :: cuts =>
      s ← block_succs blk flow segs last seg;
      rest ← all_succs blk flow segs cuts;
      Ok (s :: rest)
  end.

(** The entry block's extra successors: the landing pads. *)
Definition entry_handlers (blk : Z -> option nat) (handlers : list Z) (succs0 : list nat) : list nat :=
  sort_dedup (succs0 ++ List.filter (fun b => negb (b =? 0)%nat) (mjoin ((fun h => option_list (blk h)) <$> handlers))).

(** [preds]: one entry per edge, in block order. *)
Definition preds_of (succs : list (list nat)) (s : nat) : list nat :=
  mjoin (imap (fun b js => (fun _ => b) <$> List.filter (Nat.eqb s) js) succs).

Definition graph (T : OpTable) (root : Script) (segs : list InlineSeg)
    : res (list CfgBlock * list (Z * Z * nat)) :=
  i ← scan_instance T root 0 None (mkInstances [] ∅ ∅ [] []);
  i ← scan_segs T 0 segs i;
  let leaders := in_leaders i ∪ list_to_set (is_base <$> segs) ∪ list_to_set (is_ret_pc <$> segs) in
  let ops := sort_list pair_le (in_ops i) in
  let cuts := mjoin (cut_instance ops leaders <$> in_extents i) in
  let span := sort_list span_le (imap (fun b c => (fst (fst (fst c)), snd (fst (fst c)), b)) cuts) in
  let blk := block_of span in
  succs ← all_succs blk (in_flow i) segs cuts;
  match succs with
  | [] => Panic PSlice
  | s0 :: rest =>
      let succs := entry_handlers blk (in_handlers i) s0 :: rest in
      Ok (imap (fun b c => mkCfgBlock (fst (fst (fst c))) (snd (fst (fst c)))
                  (default [] (succs !! b)) (preds_of succs b)) cuts, span)
  end.

(** ** Dominators *)

Definition nth_res {A} (l : list A) (i : nat) : res A :=
  match l !! i with Some x => Ok x | None => Panic PSlice end.

Section Dominators.
Context (succs preds : list (list nat)).
Let n := length succs.

(** The iterative depth-first search: the stack of blocks with the next
    successor to look at, the blocks seen, the postorder so far. *)
Fixpoint dfs (fuel : nat) (stack : list (nat * nat)) (seen : list bool) (post : list nat)
    : res (list nat) :=
  match fuel with
  | O => OutOfFuel
  | S fuel =>
      match stack with
      | [] => Ok post
      | (b, i) :: rest =>
          js ← nth_res succs b;
          match js !! i with
          | Some s =>
              sn ← nth_res seen s;
              if negb sn then dfs fuel ((s, O) :: (b, S i) :: rest) (<[s := true]> seen) post
              else dfs fuel ((b, S i) :: rest) seen post
          | None => dfs fuel rest seen (post ++ [b])
          end
      end
  end.

Definition dfs_fuel : nat := S (foldr (fun js k => (S (length js) + k)%nat) O succs).

Definition reverse_postorder : res (list nat) :=
  match n with
  | O => Panic PSlice
  | S _ => post ← dfs dfs_fuel [(O, O)] (<[O := true]> (replicate n false)) []; Ok (rev post)
  end.

(** [rpo_num]: [NONE] off the order. *)
Definition number (rpo : list nat) : list Z :=
  foldl (fun num p => <[snd p := Z.of_nat (fst p)]> num) (replicate n NONE) (imap pair rpo).

Section Chk.
Context (rpo : list nat) (rpo_num : list Z).

(** [while rpo_num[x] > bound { x = idom[x] }]. *)
Fixpoint climb (fuel : nat) (idom : list (option nat)) (x : nat) (bound : Z) : res nat :=
  match fuel with
  | O => OutOfFuel
  | S fuel =>
      rx ← nth_res rpo_num x;
      if bound <? rx then
        d ← nth_res idom x;
        match d with Some y => climb fuel idom y bound | None => Panic PSlice end
      else Ok x
  end.

(** The walk of both sides up to their common ancestor. *)
Fixpoint intersect (fuel : nat) (idom : list (option nat)) (x y : nat) : res nat :=
  match fuel with
  | O => OutOfFuel
  | S fuel =>
      if (x =? y)%nat then Ok x
      else
        ry ← nth_res rpo_num y;
        x ← climb (S (length rpo)) idom x ry;
        rx ← nth_res rpo_num x;
        y ← climb (S (length rpo)) idom y rx;
        intersect fuel idom x y
  end.

Fixpoint new_idom (idom : list (option nat)) (ps : list nat) (new : option nat) : res (option nat) :=
  match ps with
  | [] => Ok new
  | p :: ps =>
      d ← nth_res idom p;
      match d, new with
      | None, _ => new_idom idom ps new
      | Some _, None => new_idom idom ps (Some p)
      | Some _, Some q =>
          x ← intersect (S (length rpo)) idom p q;
          new_idom idom ps (Some x)
      end
  end.

Definition dom_step (st : list (option nat) * bool) (b : nat) : res (list (option nat) * bool) :=
  let '(idom, changed) := st in
  ps ← nth_res preds b;
  new ← new_idom idom ps None;
  old ← nth_res idom b;
  match new with
  | Some _ => if bool_decide (old = new) then Ok st else Ok (<[b := new]> idom, true)
  | None => Ok st
  end.

Fixpoint dom_pass (bs : list nat) (st : list (option nat) * bool) : res (list (option nat) * bool) :=
  match bs with [] => Ok st | b :: bs => st ← dom_step st b; dom_pass bs st end.

Fixpoint dom_loop (fuel : nat) (idom : list (option nat)) : res (list (option nat)) :=
  match fuel with
  | O => OutOfFuel
  | S fuel =>
      st ← dom_pass (tail rpo) (idom, false);
      let '(idom, changed) := st in
      if changed : bool then dom_loop fuel idom else Ok idom
  end.

(** The depths, in reverse postorder. *)
Fixpoint depths (idom : list (option nat)) (bs : list nat) (depth : list Z) : res (list Z) :=
  match bs with
  | [] => Ok depth
  | b :: bs =>
      d ← nth_res idom b;
      match d with
      | Some y => k ← nth_res depth y; depths idom bs (<[b := u32_add k 1]> depth)
      | None => depths idom bs depth
      end
  end.

End Chk.

(** A pass settles one more edge of every path, and the first pass reaches
    every block: [n + 3] passes are enough. *)
Definition dom_fuel : nat := n + 3.

Definition dominators : res (list (option nat) * list Z) :=
  rpo ← reverse_postorder;
  let rpo_num := number rpo in
  idom ← dom_loop rpo rpo_num dom_fuel (<[O := Some O]> (replicate n None));
  depth ← depths idom (tail rpo) (replicate n 0);
  Ok (idom, depth).

(** The walk up the dominator tree; a step lowers the depth. *)
Fixpoint block_dominates (fuel : nat) (idom : list (option nat)) (depth : list Z) (a b : nat) : res bool :=
  match fuel with
  | O => OutOfFuel
  | S fuel =>
      da ← nth_res depth a;
      db ← nth_res depth b;
      if da <? db then
        d ← nth_res idom b;
        match d with Some y => block_dominates fuel idom depth a y | None => Panic PSlice end
      else Ok (a =? b)%nat
  end.

(** ** Natural loops *)

(** The blocks that reach the back edge without passing the header. *)
Fixpoint loop_body (fuel : nat) (stack inbody body : list nat) : res (list nat) :=
  match fuel with
  | O => OutOfFuel
  | S fuel =>
      match stack with
      | [] => Ok body
      | x :: stack =>
          if bool_decide (x ∈ inbody) then loop_body fuel stack inbody body
          else
            ps ← nth_res preds x;
            loop_body fuel (rev ps ++ stack) (x :: inbody) (body ++ [x])
      end
  end.

Definition body_fuel : nat := 2 + foldr (fun ps k => (length ps + k)%nat) O preds.

Definition body_of (bodies : gmap nat (list nat)) (h : nat) : list nat := default [h] (bodies !! h).

(** One edge of the scan for back edges. *)
Definition loop_edge (idom : list (option nat)) (depth : list Z) (b : nat)
    (bodies : gmap nat (list nat)) (h : nat) : res (gmap nat (list nat)) :=
  dom ← block_dominates (S n) idom depth h b;
  if negb dom then Ok bodies
  else
    body ← loop_body body_fuel [b] (body_of bodies h) (body_of bodies h);
    Ok (<[h := body]> bodies).

Fixpoint loop_edges (idom : list (option nat)) (depth : list Z) (b : nat) (hs : list nat)
    (bodies : gmap nat (list nat)) : res (gmap nat (list nat)) :=
  match hs with
  | [] => Ok bodies
  | h :: hs => bodies ← loop_edge idom depth b bodies h; loop_edges idom depth b hs bodies
  end.

Fixpoint loop_bodies (idom : list (option nat)) (depth : list Z) (bs : list nat)
    (bodies : gmap nat (list nat)) : res (gmap nat (list nat)) :=
  match bs with
  | [] => Ok bodies
  | b :: bs =>
      d ← nth_res idom b;
      match d with
      | None => loop_bodies idom depth bs bodies
      | Some _ =>
          js ← nth_res succs b;
          bodies ← loop_edges idom depth b js bodies;
          loop_bodies idom depth bs bodies
      end
  end.

(** The nest: every block's count of loops, and the deepest header. *)
Definition loop_depths (headers : list nat) (bodies : gmap nat (list nat)) : list Z :=
  foldl (fun depth h => foldl (fun depth b => alter (fun d => wrap_u 16 (d + 1)) b depth) depth
                          (default [] (bodies !! h)))
    (replicate n 0) headers.

Definition loop_headers_of (headers : list nat) (bodies : gmap nat (list nat)) (depth : list Z)
    : list (option nat) :=
  let deeper h cur := default 0 (depth !! cur) <? default 0 (depth !! h) in
  foldl (fun hdr h => foldl (fun hdr b =>
      alter (fun cur => match cur with
                        | None => Some h
                        | Some c => if deeper h c then Some h else Some c
                        end) b hdr) hdr (default [] (bodies !! h)))
    (replicate n None) headers.

Record LoopNest := mkLoopNest {
  ln_members : list (nat * nat);
  ln_hdr : list (option nat);
  ln_depth : list Z;
  ln_headers : list nat }.

Definition loops (idom : list (option nat)) (depth : list Z) : res LoopNest :=
  bodies ← loop_bodies idom depth (seq 0 n) ∅;
  let headers := sort_list Nat.leb (fst <$> map_to_list bodies) in
  let ldepth := loop_depths headers bodies in
  Ok (mkLoopNest (mjoin ((fun hb => pair (fst hb) <$> snd hb) <$> map_to_list bodies))
        (loop_headers_of headers bodies ldepth) ldepth headers).

End Dominators.

(** ** The graph and its queries *)

Record Cfg := mkCfg {
  cfg_blocks : list CfgBlock;
  cfg_span : list (Z * Z * nat);
  cfg_idom : list (option nat);
  cfg_dom_depth : list Z;
  cfg_loops : LoopNest }.

Definition cfg_build (T : OpTable) (root : Script) (segs : list InlineSeg) : res Cfg :=
  '(blocks, span) ← graph T root segs;
  let succs := cb_succs <$> blocks in
  let preds := cb_preds <$> blocks in
  '(idom, depth) ← dominators succs preds;
  nest ← loops succs preds idom depth;
  Ok (mkCfg blocks span idom depth nest).

Definition leaves_loop (c : Cfg) (src dst : Z) : res bool :=
  match block_of (cfg_span c) src with
  | None => Ok false
  | Some bs =>
      h ← nth_res (ln_hdr (cfg_loops c)) bs;
      match h with
      | None => Ok false
      | Some h =>
          match block_of (cfg_span c) dst with
          | Some bd => Ok (negb (bool_decide ((h, bd) ∈ ln_members (cfg_loops c))))
          | None => Ok true
          end
      end
  end.
