(* ===== verification/DomSound.v ===== *)
(** * DomSound: the dominator tree is the dominance relation

    On every graph whose predecessor lists mirror its successor lists: the
    depth-first search orders exactly the reachable blocks, each after one of
    its predecessors; the iteration over immediate dominators ends within its
    fuel; and a block is an ancestor of another in the tree it ends in exactly
    when every path from the entry to the latter passes the former ([dom]). *)

From S2P Require Import Prelude Mem Source Bytecode Live Cfg.

Lemma nth_res_Ok {A} (l : list A) (i : nat) (x : A) : l !! i = Some x -> nth_res l i = Ok x.
Proof. unfold nth_res. by intros ->. Qed.

Section Graph.
Context (succs preds : list (list nat)).
Let n := length succs.

Definition step (a b : nat) : Prop := exists js, succs !! a = Some js /\ b ∈ js.

Record graph_wf : Prop := {
  gw_pos : (0 < n)%nat;
  gw_size : Z.of_nat n < 2 ^ 32;
  gw_succs : forall a b, step a b -> (b < n)%nat;
  gw_preds : length preds = n;
  gw_mirror : forall a b ps, preds !! b = Some ps -> a ∈ ps <-> step a b }.
Hypothesis G : graph_wf.

Inductive reach : nat -> Prop :=
  | reach_entry : reach 0
  | reach_step a b : reach a -> step a b -> reach b.

Lemma reach_lt (b : nat) : reach b -> (b < n)%nat.
Proof. intros [|a c _ H]; [apply G|by eapply gw_succs]. Qed.

(** ** The depth-first search *)

Fixpoint linked (stack : list (nat * nat)) : Prop :=
  match stack with
  | [] => True
  | (y, _) :: rest =>
      match rest with
      | [] => y = 0%nat
      | (x, _) :: _ => step x y
      end /\ linked rest
  end.

Record dfs_inv (stack : list (nat * nat)) (seen : list bool) (post : list nat) : Prop := {
  di_len : length seen = n;
  di_seen : forall v, seen !! v = Some true <-> v ∈ stack.*1 \/ v ∈ post;
  di_nodup : NoDup (stack.*1 ++ post);
  di_linked : linked stack;
  di_after : forall v, v ∈ post -> v <> 0%nat -> exists x, step x v /\
    (x ∈ stack.*1 \/ exists l1 l2, post = l1 ++ v :: l2 /\ x ∈ l2);
  di_open : forall b i js k s, (b, i) ∈ stack -> succs !! b = Some js -> (k < i)%nat ->
    js !! k = Some s -> seen !! s = Some true;
  di_closed : forall v s, v ∈ post -> step v s -> seen !! s = Some true;
  di_reach : forall v, v ∈ stack.*1 \/ v ∈ post -> reach v;
  di_entry : 0%nat ∈ stack.*1 \/ 0%nat ∈ post }.

Lemma dfs_pop (b i : nat) (js : list nat) (rest : list (nat * nat)) (seen : list bool) (post : list nat) :
  dfs_inv ((b, i) :: rest) seen post -> succs !! b = Some js -> js !! i = None ->
  dfs_inv rest seen (post ++ [b]).
Proof.
  intros [H1 H2 H3 H4 H5 H6 H7 H8 H9] Hb Hi. cbn [fmap list_fmap fst app] in *.
  apply list.NoDup_cons in H3 as [Hnb H3]. cbn in H4. destruct H4 as [Hl H4].
  assert (forall v, v ∈ b :: rest.*1 \/ v ∈ post <-> v ∈ rest.*1 \/ v ∈ post ++ [b]) as Hiff.
  { intros v. rewrite elem_of_cons, elem_of_app, list_elem_of_singleton. tauto. }
  split.
  - done.
  - intros v. by rewrite H2, Hiff.
  - rewrite (assoc_L (++)). apply list.NoDup_app. split; [done|]. split.
    + intros x Hx Hxb%list_elem_of_singleton. by subst.
    + apply NoDup_singleton.
  - done.
  - intros v Hv Hv0. apply elem_of_app in Hv as [Hv|Hv%list_elem_of_singleton].
    + destruct (H5 v Hv Hv0) as (x & Hx & Hpos). exists x. split; [done|].
      destruct Hpos as [[->|Hr]%elem_of_cons|(l1 & l2 & -> & Hl2)].
      * apply list_elem_of_split in Hv as (l1 & l2 & ->). right. exists l1, (l2 ++ [b]).
        rewrite <- (assoc_L (++)). split; [done|]. apply elem_of_app. right. left.
      * by left.
      * right. exists l1, (l2 ++ [b]). rewrite <- (assoc_L (++)). split; [done|].
        apply elem_of_app. by left.
    + subst v. destruct rest as [|[x j] rest]; [done|]. exists x. split; [done|]. left. left.
  - intros b' i' js' k s Hin. apply (H6 b' i' js' k s). by right.
  - intros v s Hv Hs. apply elem_of_app in Hv as [Hv|Hv%list_elem_of_singleton]; [by eapply H7|].
    subst v. destruct Hs as (js' & Hjs & Hs). assert (js' = js) as -> by congruence.
    apply list_elem_of_lookup_1 in Hs as [k Hk]. eapply (H6 b i js k s); [left|done| |done].
    apply lookup_ge_None in Hi. apply lookup_lt_Some in Hk. lia.
  - intros v Hv. apply H8. by apply Hiff.
  - apply Hiff. by rewrite elem_of_cons in *.
Qed.

Lemma dfs_look (b i s : nat) (js : list nat) (rest : list (nat * nat)) (seen : list bool) (post : list nat) :
  dfs_inv ((b, i) :: rest) seen post -> succs !! b = Some js -> js !! i = Some s ->
  seen !! s = Some true -> dfs_inv ((b, S i) :: rest) seen post.
Proof.
  intros [H1 H2 H3 H4 H5 H6 H7 H8 H9] Hb Hi Hs. split; try done.
  intros b' i' js' k s' Hin Hb' Hk Hs'. apply elem_of_cons in Hin as [[= -> ->]|Hin].
  - assert (js' = js) as -> by congruence. destruct (decide (k = i)) as [->|]; [congruence|].
    eapply (H6 b i js k s'); [left|done|lia|done].
  - eapply (H6 b' i' js' k s'); [by right|done|done|done].
Qed.

Lemma dfs_push (b i s : nat) (js : list nat) (rest : list (nat * nat)) (seen : list bool) (post : list nat) :
  dfs_inv ((b, i) :: rest) seen post -> succs !! b = Some js -> js !! i = Some s ->
  seen !! s = Some false -> dfs_inv ((s, 0%nat) :: (b, S i) :: rest) (<[s := true]> seen) post.
Proof.
  intros [H1 H2 H3 H4 H5 H6 H7 H8 H9] Hb Hi Hs. cbn [fmap list_fmap fst app] in *.
  assert (s < length seen)%nat as Hlt by by eapply lookup_lt_Some.
  assert (step b s) as Hbs by (exists js; split; [done|by eapply list_elem_of_lookup_2]).
  assert (forall v, seen !! v = Some true -> <[s := true]> seen !! v = Some true) as Hup.
  { intros v Hv. destruct (decide (s = v)) as [->|]; [by rewrite list_lookup_insert_eq|].
    by rewrite list_lookup_insert_ne. }
  split; cbn [fmap list_fmap fst app].
  - by rewrite length_insert.
  - intros v. destruct (decide (s = v)) as [->|Hne].
    + rewrite list_lookup_insert_eq by done. split; [intros _; left; left|done].
    + rewrite list_lookup_insert_ne, H2 by done. rewrite !elem_of_cons.
      split; [tauto|]. intros [[?|?]|?]; [congruence|by left|by right].
  - apply list.NoDup_cons. split; [|done]. intros Hin. assert (seen !! s = Some true); [|congruence].
    apply H2. rewrite app_comm_cons in Hin. apply elem_of_app in Hin. done.
  - cbn. split; [done|]. cbn in H4. destruct rest as [|[x j] rest]; done.
  - intros v Hv Hv0. destruct (H5 v Hv Hv0) as (x & Hx & [Hp|Hp]); exists x; (split; [done|]).
    + left. by right.
    + by right.
  - intros b' i' js' k s' Hin Hb' Hk Hs'. apply elem_of_cons in Hin as [[= -> ->]|Hin]; [lia|].
    apply elem_of_cons in Hin as [[= -> ->]|Hin].
    + assert (js' = js) as -> by congruence. destruct (decide (k = i)) as [->|].
      * assert (s' = s) as -> by congruence. by rewrite list_lookup_insert_eq.
      * apply Hup. eapply (H6 b i js k s'); [left|done|lia|done].
    + apply Hup. eapply (H6 b' i' js' k s'); [by right|done|done|done].
  - intros v w Hv Hw. apply Hup. by eapply H7.
  - intros v [[->|Hv]%elem_of_cons|Hv]; [|apply H8; by left|apply H8; by right].
    eapply reach_step; [|exact Hbs]. apply H8. left. left.
  - destruct H9 as [H9|H9]; [left; by right|by right].
Qed.

(** *** The search ends *)

Fixpoint weigh (ss : list (list nat)) (seen : list bool) : nat :=
  match ss, seen with
  | js :: ss, b :: seen => ((if b then 0 else S (length js)) + weigh ss seen)%nat
  | _, _ => 0%nat
  end.

Definition unseen_weight (seen : list bool) : nat := weigh succs seen.

Definition stack_weight (stack : list (nat * nat)) : nat :=
  foldr (fun x k => (S (length (default [] (succs !! fst x)) - snd x) + k)%nat) 0%nat stack.

Lemma unseen_weight_insert (seen : list bool) (s : nat) (js : list nat) :
  length seen = n -> succs !! s = Some js -> seen !! s = Some false ->
  unseen_weight seen = (S (length js) + unseen_weight (<[s := true]> seen))%nat.
Proof.
  unfold unseen_weight, n. clear G. revert seen s. induction succs as [|js0 l IH]; intros [|b seen] [|s] Hl Hj Hs;
    cbn [length lookup list_lookup] in Hl, Hj, Hs; try done; cbn [weigh insert list_insert].
  - injection Hj as ->. injection Hs as ->. cbn [weigh]. lia.
  - specialize (IH seen s ltac:(lia) Hj Hs). unfold insert in *. cbn [weigh list_insert]. lia.
Qed.

Lemma dfs_spec (fuel : nat) (stack : list (nat * nat)) (seen : list bool) (post : list nat) :
  dfs_inv stack seen post -> (unseen_weight seen + stack_weight stack < fuel)%nat ->
  exists post' seen', dfs succs fuel stack seen post = Ok post' /\ dfs_inv [] seen' post'.
Proof.
  revert stack seen post. induction fuel as [|fuel IH]; intros stack seen post Hi Hf; [lia|].
  cbn [dfs]. destruct stack as [|[b i] rest]; [by exists post, seen|].
  assert (b < n)%nat as Hb by (apply reach_lt, (di_reach _ _ _ Hi); left; left).
  destruct (lookup_lt_is_Some_2 succs b Hb) as [js Hjs].
  rewrite (nth_res_Ok _ _ _ Hjs). cbn [mbind res_bind].
  cbn [stack_weight foldr fst snd] in Hf. rewrite Hjs in Hf. cbn [default from_option id] in Hf.
  fold (stack_weight rest) in Hf.
  destruct (js !! i) as [s|] eqn:Es.
  - assert (i < length js)%nat as Hil by by eapply lookup_lt_Some.
    assert (s < n)%nat as Hs by (apply (gw_succs G b); exists js; split; [done|by eapply list_elem_of_lookup_2]).
    destruct (lookup_lt_is_Some_2 seen s) as [sn Hsn]; [by rewrite (di_len _ _ _ Hi)|].
    rewrite (nth_res_Ok _ _ _ Hsn). cbn [mbind res_bind].
    destruct sn; cbn [negb].
    + apply IH; [by eapply dfs_look|]. cbn [stack_weight foldr fst snd]. rewrite Hjs. cbn [default from_option id].
      fold (stack_weight rest). lia.
    + destruct (lookup_lt_is_Some_2 succs s Hs) as [js' Hjs'].
      pose proof (unseen_weight_insert seen s js' (di_len _ _ _ Hi) Hjs' Hsn).
      apply IH; [by eapply dfs_push|]. cbn [stack_weight foldr fst snd]. rewrite Hjs, Hjs'. cbn [default from_option id].
      fold (stack_weight rest). lia.
  - apply IH; [by eapply dfs_pop|]. lia.
Qed.

Lemma dfs_inv_start : dfs_inv [(0, 0)]%nat (<[0%nat := true]> (replicate n false)) [].
Proof.
  assert (0 < n)%nat as Hn by apply G. split; cbn [fmap list_fmap fst app].
  - by rewrite length_insert, length_replicate.
  - intros v. rewrite list_elem_of_singleton. destruct (decide (v = 0%nat)) as [->|Hne].
    + rewrite list_lookup_insert_eq by (by rewrite length_replicate). split; [by left|done].
    + rewrite list_lookup_insert_ne by done. split.
      * intros [? _]%lookup_replicate. done.
      * intros [?|H]; [done|by apply elem_of_nil in H].
  - apply NoDup_singleton.
  - done.
  - intros v Hv. by apply elem_of_nil in Hv.
  - intros b i js k s [= -> ->]%list_elem_of_singleton. lia.
  - intros v s Hv. by apply elem_of_nil in Hv.
  - intros v [->%list_elem_of_singleton|Hv]; [constructor|by apply elem_of_nil in Hv].
  - left. left.
Qed.

(** The order: the reachable blocks, the entry first, every other one after
    one of its predecessors. *)
Record order_ok (rpo : list nat) : Prop := {
  oo_head : exists bs, rpo = 0%nat :: bs;
  oo_nodup : NoDup rpo;
  oo_reach : forall v, v ∈ rpo <-> reach v;
  oo_before : forall v, v ∈ rpo -> v <> 0%nat ->
    exists x l1 l2, step x v /\ rpo = l1 ++ v :: l2 /\ x ∈ l1 }.

Lemma reverse_postorder_ok : exists rpo, reverse_postorder succs = Ok rpo /\ order_ok rpo.
Proof.
  assert (0 < n)%nat as Hn by apply G. unfold reverse_postorder. fold n.
  destruct n as [|n'] eqn:En; [lia|]. rewrite <- En.
  destruct (lookup_lt_is_Some_2 succs 0) as [js Hjs]; [fold n; lia|].
  assert (unseen_weight (replicate n false) = foldr (fun js k => (S (length js) + k)%nat) 0%nat succs) as Hw.
  { unfold unseen_weight, n. clear. induction succs as [|js l IH]; [done|].
    cbn [length replicate weigh foldr]. by rewrite IH. }
  pose proof (unseen_weight_insert (replicate n false) 0%nat js) as Hi.
  rewrite length_replicate in Hi. specialize (Hi eq_refl Hjs).
  rewrite lookup_replicate_2 in Hi by lia. specialize (Hi eq_refl).
  destruct (dfs_spec (dfs_fuel succs) _ _ _ dfs_inv_start) as (post & seen & -> & Inv).
  { unfold dfs_fuel, stack_weight. cbn [foldr fst snd]. rewrite Hjs. cbn [default from_option id].
    rewrite <- Hw. lia. }
  cbn [mbind res_bind]. exists (rev post). split; [done|].
  destruct Inv as [H1 H2 H3 H4 H5 H6 H7 H8 H9]. cbn [fmap list_fmap app] in *.
  assert (forall v, v ∈ rev post <-> v ∈ post) as Hrev by (intros v; by rewrite !list_elem_of_In, <- in_rev).
  assert (NoDup (rev post)) as Hnd by (apply NoDup_ListNoDup, List.NoDup_rev; by apply NoDup_ListNoDup).
  assert (forall v, v ∈ rev post -> v <> 0%nat ->
    exists x l1 l2, step x v /\ rev post = l1 ++ v :: l2 /\ x ∈ l1) as Hbef.
  { intros v Hv%Hrev Hv0. destruct (H5 v Hv Hv0) as (x & Hx & [Hs|(l1 & l2 & -> & Hl)]);
      [by apply elem_of_nil in Hs|].
    exists x, (rev l2), (rev l1). split; [done|]. split.
    - rewrite rev_app_distr. cbn. by rewrite <- (assoc_L (++)).
    - by rewrite list_elem_of_In, <- in_rev, <- list_elem_of_In. }
  split; [|done| |done].
  - assert (0%nat ∈ rev post) as H0.
    { apply Hrev. destruct H9 as [H9|H9]; [by apply elem_of_nil in H9|done]. }
    destruct (rev post) as [|h bs]; [by apply elem_of_nil in H0|]. exists bs. f_equal.
    destruct (decide (h = 0%nat)) as [|Hh]; [done|]. exfalso.
    destruct (Hbef h ltac:(left) Hh) as (x & l1 & l2 & _ & E & Hx).
    destruct l1 as [|h' l1]; [by apply elem_of_nil in Hx|]. injection E as <- ->.
    apply list.NoDup_cons in Hnd as [Hnd _]. apply Hnd. apply elem_of_app. right. left.
  - intros v. rewrite Hrev. split; [intros Hv; apply H8; by right|].
    induction 1 as [|a b _ IH Hab].
    + destruct H9 as [H9|H9]; [by apply elem_of_nil in H9|done].
    + pose proof (H7 a b IH Hab) as Hb. apply H2 in Hb as [Hb|Hb]; [by apply elem_of_nil in Hb|done].
Qed.

Lemma number_fold (l : list (nat * nat)) (num : list Z) (i b : nat) :
  NoDup (l.*2) -> (i, b) ∈ l -> (b < length num)%nat ->
  foldl (fun num p => <[snd p := Z.of_nat (fst p)]> num) num l !! b = Some (Z.of_nat i).
Proof.
  assert (forall (l : list (nat * nat)) (num : list Z), (forall i, (i, b) ∉ l) ->
    foldl (fun num p => <[snd p := Z.of_nat (fst p)]> num) num l !! b = num !! b) as Hno.
  { clear. intros l. induction l as [|[j c] l IH]; intros num Hni; cbn [foldl fst snd]; [done|].
    rewrite IH by (intros i Hi; apply (Hni i); by right).
    apply list_lookup_insert_ne. intros ->. apply (Hni j). left. }
  revert num. induction l as [|[j c] l IH]; intros num Hnd Hin Hlt; [by apply elem_of_nil in Hin|].
  cbn [fmap list_fmap snd] in Hnd. apply list.NoDup_cons in Hnd as [Hc Hnd].
  cbn [foldl fst snd]. apply elem_of_cons in Hin as [[= -> ->]|Hin].
  - rewrite Hno; [by apply list_lookup_insert_eq|]. intros k Hk. apply Hc. apply list_elem_of_fmap. by exists (k, c).
  - apply IH; [done|done|by rewrite length_insert].
Qed.

(** The numbers are the positions. *)
Lemma number_at (rpo : list nat) (i b : nat) :
  order_ok rpo -> rpo !! i = Some b -> number succs rpo !! b = Some (Z.of_nat i).
Proof.
  intros Ho Hi. unfold number. fold n. apply number_fold.
  - assert ((imap pair rpo).*2 = rpo) as ->; [|by apply Ho].
    clear. assert (forall k, (imap (fun i => pair (k + i)%nat) rpo).*2 = rpo) as H.
    { induction rpo as [|b l IH]; intros k; [done|]. rewrite imap_cons. cbn. f_equal.
      etransitivity; [|apply (IH (S k))]. f_equal. apply imap_ext. intros i x _. cbn. f_equal. lia. }
    exact (H 0%nat).
  - apply list_elem_of_lookup_2 with i. by rewrite list_lookup_imap, Hi.
  - rewrite length_replicate. apply reach_lt, (oo_reach _ Ho). by eapply list_elem_of_lookup_2.
Qed.
End Graph.
