(* ===== verification/DomTreeSound.v ===== *)
(** * DomTreeSound: the iteration over immediate dominators

    The invariants of the Cooper-Harvey-Kennedy iteration in reverse postorder:
    an immediate dominator is a proper ancestor in a tree of predecessors that
    come earlier in the order, no dominator is ever lost, and every pass
    settles paths one edge longer. The iteration ends within its fuel, in the
    tree of the dominance relation. *)

From S2P Require Import Prelude Mem Source Bytecode Live Cfg DomSound.

Section Tree.
Context (succs preds : list (list nat)).
Let n := length succs.
Hypothesis G : graph_wf succs preds.
Context (rpo : list nat).
Hypothesis Ho : order_ok succs rpo.

#[local] Abbreviation edge := (step succs).
#[local] Abbreviation reached := (reach succs).
#[local] Abbreviation num := (number succs rpo).

(** ** Positions in the order *)

Definition rank (b : nat) : nat := default 0%nat (fst <$> list_find (eq b) rpo).

Lemma rank_at (i b : nat) : rpo !! i = Some b -> rank b = i.
Proof.
  intros E. unfold rank. destruct (list_find_elem_of (eq b) rpo b) as [[k x] Ek];
    [by eapply list_elem_of_lookup_2|done|].
  rewrite Ek. cbn. apply list_find_Some in Ek as (Ek & <- & _).
  exact (NoDup_lookup rpo k i b (oo_nodup _ _ Ho) Ek E).
Qed.

Lemma rank_lookup (b : nat) : b ∈ rpo -> rpo !! rank b = Some b.
Proof. intros Hb. apply list_elem_of_lookup_1 in Hb as [i E]. by rewrite (rank_at i b E). Qed.

Lemma rank_inj (a b : nat) : a ∈ rpo -> b ∈ rpo -> rank a = rank b -> a = b.
Proof. intros Ha%rank_lookup Hb%rank_lookup E. rewrite E in Ha. congruence. Qed.

Lemma rank_lt (b : nat) : b ∈ rpo -> (rank b < length rpo)%nat.
Proof. intros Hb%rank_lookup. by eapply lookup_lt_Some. Qed.

Lemma num_at (b : nat) : b ∈ rpo -> num !! b = Some (Z.of_nat (rank b)).
Proof. intros Hb. apply (number_at succs preds G rpo); [done|by apply rank_lookup]. Qed.

Lemma rpo_lt (b : nat) : b ∈ rpo -> (b < n)%nat.
Proof. intros Hb. apply (reach_lt succs preds G), (oo_reach _ _ Ho), Hb. Qed.

Lemma rpo_step (a b : nat) : a ∈ rpo -> edge a b -> b ∈ rpo.
Proof. rewrite !(oo_reach _ _ Ho). intros Ha Hab. by eapply reach_step. Qed.

Lemma entry_in : 0%nat ∈ rpo.
Proof. apply (oo_reach _ _ Ho). constructor. Qed.

(** A predecessor earlier in the order. *)
Definition par (b : nat) : nat :=
  default 0%nat (snd <$> list_find (fun p => p ∈ rpo /\ (rank p < rank b)%nat) (default [] (preds !! b))).

Lemma preds_step (a b : nat) : (b < n)%nat -> a ∈ default [] (preds !! b) <-> edge a b.
Proof.
  intros Hb. destruct (lookup_lt_is_Some_2 preds b) as [ps Eps]; [by rewrite (gw_preds _ _ G)|].
  rewrite Eps. exact (gw_mirror _ _ G a b ps Eps).
Qed.

Lemma par_spec (b : nat) :
  b ∈ rpo -> b <> 0%nat -> par b ∈ rpo /\ edge (par b) b /\ (rank (par b) < rank b)%nat.
Proof.
  intros Hb Hb0. destruct (oo_before _ _ Ho b Hb Hb0) as (x & l1 & l2 & Hx & E & Hl).
  assert (x ∈ rpo) as Hxr by (rewrite E; apply elem_of_app; by left).
  assert (rank x < rank b)%nat as Hlt.
  { apply list_elem_of_lookup_1 in Hl as [i Hi]. pose proof (lookup_lt_Some _ _ _ Hi) as Hil.
    rewrite (rank_at i x) by (rewrite E, lookup_app_l; done).
    rewrite (rank_at (length l1) b); [done|]. rewrite E, lookup_app_r, Nat.sub_diag by lia. done. }
  unfold par. destruct (list_find_elem_of (fun p => p ∈ rpo /\ (rank p < rank b)%nat)
    (default [] (preds !! b)) x) as [[k p] Ek]; [by apply preds_step; [apply rpo_lt|]|done|].
  rewrite Ek. cbn. apply list_find_Some in Ek as (Ek & [H1 H2] & _). split_and!; [done| |done].
  apply preds_step; [by apply rpo_lt|]. by eapply list_elem_of_lookup_2.
Qed.

(** Ancestors in the tree of these predecessors. *)
Inductive tanc (a : nat) : nat -> Prop :=
  | tanc_refl : a ∈ rpo -> tanc a a
  | tanc_up b : b ∈ rpo -> b <> 0%nat -> tanc a (par b) -> tanc a b.

Lemma tanc_in (a b : nat) : tanc a b -> a ∈ rpo /\ b ∈ rpo.
Proof. induction 1; tauto. Qed.

Lemma tanc_rank (a b : nat) : tanc a b -> a = b \/ (rank a < rank b)%nat.
Proof.
  induction 1 as [H|b Hb Hb0 _ IH]; [by left|]. right. destruct (par_spec b Hb Hb0) as (_ & _ & Hlt).
  destruct IH as [->|]; lia.
Qed.

Lemma tanc_trans (a b c : nat) : tanc a b -> tanc b c -> tanc a c.
Proof. intros Hab. induction 1; [done|by apply tanc_up]. Qed.

(** ** Dominance *)

(** Blocks the entry reaches without passing [a]. *)
Inductive avoid (a : nat) : nat -> Prop :=
  | avoid_entry : a <> 0%nat -> avoid a 0
  | avoid_step p b : avoid a p -> edge p b -> b <> a -> avoid a b.

Definition dom (a b : nat) : Prop := ~ avoid a b.

Lemma dom_pred (a p b : nat) : dom a b -> edge p b -> b <> a -> dom a p.
Proof. intros H Hp Hba Hap. apply H. by eapply avoid_step. Qed.

(** Below a proper descendant of [a], the tree avoids [a]. *)
Lemma tanc_avoid (a b x : nat) : tanc a b -> a <> b -> tanc b x -> avoid a b -> avoid a x.
Proof.
  intros Hab Hne Hbx Ha. induction Hbx as [|x Hx Hx0 Hbp IH]; [done|].
  destruct (par_spec x Hx Hx0) as (_ & Hstep & Hlt). eapply avoid_step; [exact IH|exact Hstep|].
  intros ->. destruct (tanc_rank a b Hab) as [|H1]; [done|].
  destruct (tanc_rank b (par a) Hbp) as [E|H2]; [rewrite E in H1|]; lia.
Qed.

Lemma tanc_dom (a b x : nat) : tanc a b -> a <> b -> tanc b x -> dom a x -> dom a b.
Proof. intros Hab Hne Hbx Hd Ha. apply Hd. by eapply tanc_avoid. Qed.

(** ** Ancestors under immediate dominators *)

Definition set (idom : list (option nat)) (b : nat) : Prop := exists c, idom !! b = Some (Some c).

Inductive anc (idom : list (option nat)) (a : nat) : nat -> Prop :=
  | anc_refl : set idom a -> anc idom a a
  | anc_up b c : b <> 0%nat -> idom !! b = Some (Some c) -> anc idom a c -> anc idom a b.

Lemma anc_trans (idom : list (option nat)) (a b c : nat) : anc idom a b -> anc idom b c -> anc idom a c.
Proof. intros Hab. induction 1 as [|c d Hc E _ IH]; [done|by eapply anc_up]. Qed.

Record tree_inv (idom : list (option nat)) : Prop := {
  ti_len : length idom = n;
  ti_entry : idom !! 0%nat = Some (Some 0%nat);
  ti_up : forall b c, b <> 0%nat -> idom !! b = Some (Some c) ->
    b ∈ rpo /\ set idom c /\ tanc c b /\ c <> b;
  ti_dom : forall a b, set idom b -> a ∈ rpo -> dom a b -> anc idom a b }.

Section Inv.
Context (idom : list (option nat)).
Hypothesis I : tree_inv idom.

Lemma set_in (b : nat) : set idom b -> b ∈ rpo.
Proof.
  intros [c E]. destruct (decide (b = 0%nat)) as [->|Hb]; [apply entry_in|].
  by destruct (ti_up _ I b c Hb E).
Qed.

Lemma anc_tanc (a b : nat) : anc idom a b -> tanc a b.
Proof.
  induction 1 as [Ha|b c Hb E Hac IH]; [apply tanc_refl; by apply set_in|].
  apply (ti_up _ I) in E as (_ & _ & Hcb & _); [|done]. by eapply tanc_trans.
Qed.

Lemma anc_set (a b : nat) : anc idom a b -> set idom a /\ set idom b.
Proof. induction 1 as [|b c Hb E _ [IH1 IH2]]; [done|]. split; [done|by exists c]. Qed.

Lemma anc_rank (a b : nat) : anc idom a b -> a = b \/ (rank a < rank b)%nat.
Proof. intros H%anc_tanc. by apply tanc_rank. Qed.

Lemma anc_antisym (a b : nat) : anc idom a b -> anc idom b a -> a = b.
Proof. intros H1%anc_rank H2%anc_rank. destruct H1, H2; first [done|lia]. Qed.

Lemma anc_total (a b x : nat) : anc idom a x -> anc idom b x -> anc idom a b \/ anc idom b a.
Proof.
  intros Ha. induction Ha as [Hs|x c Hx E Hac IH]; intros Hb; [by right|].
  inversion Hb as [|x' c' Hx' E' Hbc]; subst.
  - left. by eapply anc_up.
  - assert (c' = c) as -> by congruence. by apply IH.
Qed.

Lemma anc_entry (a : nat) : anc idom a 0 -> a = 0%nat.
Proof. inversion 1; done. Qed.

Lemma entry_anc (b : nat) : set idom b -> anc idom 0 b.
Proof.
  intros Hb. pose proof (set_in b Hb) as Hr. remember (rank b) as k eqn:Ek. revert b Hb Hr Ek.
  induction (lt_wf k) as [k _ IH]. intros b Hb Hr ->. destruct (decide (b = 0%nat)) as [->|Hne].
  - apply anc_refl. exists 0%nat. apply I.
  - destruct Hb as [c E]. destruct (ti_up _ I b c Hne E) as (_ & Hc & Ht & Hcb).
    eapply anc_up; [done|exact E|]. apply (IH (rank c)); [|done|by apply set_in|done].
    destruct (tanc_rank c b Ht); [done|lia].
Qed.

(** A step up, when there is one. *)
Lemma anc_inv (a b c : nat) : anc idom a b -> a <> b -> idom !! b = Some (Some c) -> b <> 0%nat /\ anc idom a c.
Proof. intros H Hne E. inversion H as [|b' c' Hb E' Hac]; subst; [done|]. split; [done|]. congruence. Qed.

(** ** The common ancestor *)

Lemma set_num (b : nat) : set idom b -> num !! b = Some (Z.of_nat (rank b)).
Proof. intros Hb. by apply num_at, set_in. Qed.

Lemma climb_spec (fuel x : nat) (bound : Z) :
  set idom x -> 0 <= bound -> (rank x < fuel)%nat ->
  exists x', climb num fuel idom x bound = Ok x' /\ anc idom x' x /\ Z.of_nat (rank x') <= bound /\
    forall z, anc idom z x -> Z.of_nat (rank z) <= bound -> anc idom z x'.
Proof.
  revert x. induction fuel as [|fuel IH]; intros x Hx Hb Hf; [lia|]. cbn [climb].
  rewrite (nth_res_Ok _ _ _ (set_num x Hx)). cbn [mbind res_bind].
  destruct (Z.ltb_spec bound (Z.of_nat (rank x))) as [Hlt|Hle].
  - assert (x <> 0%nat) as Hx0.
    { intros ->. rewrite (rank_at 0 0%nat) in Hlt; [lia|]. by destruct (oo_head _ _ Ho) as [bs ->]. }
    destruct Hx as [c E]. rewrite (nth_res_Ok _ _ _ E). cbn [mbind res_bind].
    destruct (ti_up _ I x c Hx0 E) as (Hxr & Hc & Ht & Hcx).
    assert (rank c < rank x)%nat by (destruct (tanc_rank c x Ht); [done|lia]).
    destruct (IH c Hc Hb ltac:(lia)) as (x' & -> & H1 & H2 & H3). exists x'.
    split_and!; [done|by eapply anc_up|done|].
    intros z Hz Hzb. apply H3; [|done].
    destruct (decide (z = x)) as [->|Hne]; [lia|]. by apply (anc_inv z x c Hz Hne).
  - exists x. split_and!; [done|by apply anc_refl|done|done].
Qed.

(** The nearest common ancestor. *)
Definition meets (q : nat) (zs : nat -> Prop) : Prop := set idom q /\ forall z, anc idom z q <-> zs z.

Lemma intersect_spec (fuel x y : nat) :
  set idom x -> set idom y -> (rank y + 1 < fuel)%nat ->
  exists q, intersect rpo num fuel idom x y = Ok q /\ meets q (fun z => anc idom z x /\ anc idom z y).
Proof.
  revert x y. induction fuel as [|fuel IH]; intros x y Hx Hy Hf; [lia|]. cbn [intersect].
  destruct (Nat.eqb_spec x y) as [->|Hne]; [exists y; split; [done|]; split; [done|tauto]|].
  pose proof (rank_lt x (set_in x Hx)). pose proof (rank_lt y (set_in y Hy)).
  rewrite (nth_res_Ok _ _ _ (set_num y Hy)). cbn [mbind res_bind].
  destruct (climb_spec (S (length rpo)) x (Z.of_nat (rank y)) Hx ltac:(lia) ltac:(lia))
    as (x' & -> & X1 & X2 & X3). cbn [mbind res_bind].
  assert (set idom x') as Hx' by (by apply (anc_set x' x)).
  rewrite (nth_res_Ok _ _ _ (set_num x' Hx')). cbn [mbind res_bind].
  destruct (climb_spec (S (length rpo)) y (Z.of_nat (rank x')) Hy ltac:(lia) ltac:(lia))
    as (y' & -> & Y1 & Y2 & Y3). cbn [mbind res_bind].
  assert (set idom y') as Hy' by (by apply (anc_set y' y)).
  assert (exists q, intersect rpo num fuel idom x' y' = Ok q /\
    meets q (fun z => anc idom z x' /\ anc idom z y')) as (q & Eq & Hq & Hqz).
  { destruct (decide (rank y' < rank y)%nat); [apply IH; [done|done|lia]|].
    assert (x' = y') as ->.
    { apply rank_inj; [by apply set_in|by apply set_in|]. lia. }
    destruct fuel as [|fuel]; [lia|]. exists y'. cbn [intersect]. rewrite Nat.eqb_refl.
    split; [done|]. split; [done|tauto]. }
  exists q. split; [done|]. split; [done|]. intros z. rewrite Hqz. split.
  - intros [Hzx Hzy]. split; [exact (anc_trans _ _ _ _ Hzx X1)|exact (anc_trans _ _ _ _ Hzy Y1)].
  - intros [Hzx Hzy].
    assert (anc idom z x') as Hzx'.
    { apply X3; [done|]. destruct (anc_rank z y Hzy) as [->|]; lia. }
    split; [done|]. apply Y3; [done|]. destruct (anc_rank z x' Hzx') as [->|]; lia.
Qed.

Lemma new_idom_spec (ps : list nat) (new : option nat) :
  Forall (fun p => (p < n)%nat) ps -> (forall q, new = Some q -> set idom q) ->
  exists new', new_idom rpo num idom ps new = Ok new' /\
    match new' with
    | Some q => meets q (fun z => (forall q0, new = Some q0 -> anc idom z q0) /\
                                 forall p, p ∈ ps -> set idom p -> anc idom z p)
    | None => new = None /\ forall p, p ∈ ps -> ~ set idom p
    end.
Proof.
  revert new. induction ps as [|p ps IH]; intros new Hp Hnew; cbn [new_idom].
  - exists new. split; [done|]. destruct new as [q|].
    + split; [by apply Hnew|]. intros z. split.
      * intros Hz. split; [by intros ? [= <-]|]. intros p Hp'. by apply elem_of_nil in Hp'.
      * intros [Hz _]. by apply Hz.
    + split; [done|]. intros p Hp'. by apply elem_of_nil in Hp'.
  - apply list.Forall_cons in Hp as [Hpn Hps].
    destruct (lookup_lt_is_Some_2 idom p) as [d Ed]; [by rewrite (ti_len _ I)|].
    rewrite (nth_res_Ok _ _ _ Ed). cbn [mbind res_bind]. destruct d as [d|].
    + assert (set idom p) as Hsp by by exists d. destruct new as [q|].
      * destruct (intersect_spec (S (length rpo)) p q Hsp (Hnew q eq_refl)) as (x & -> & Hx & Hxz).
        { pose proof (rank_lt q (set_in q (Hnew q eq_refl))). lia. }
        cbn [mbind res_bind]. destruct (IH (Some x) Hps) as (new' & -> & H'); [by intros ? [= <-]|].
        exists new'. split; [done|]. destruct new' as [q'|]; [|by destruct H'].
        destruct H' as [Hq' Hz']. split; [done|]. intros z. rewrite Hz'. split.
        -- intros [H1 H2]. specialize (H1 x eq_refl). apply Hxz in H1 as [H1 H3].
           split; [by intros ? [= <-]|]. intros p' [->|Hp']%elem_of_cons Hs; [done|by apply H2].
        -- intros [H1 H2]. split.
           ++ intros ? [= <-]. apply Hxz. split; [apply H2; [left|done]|by apply H1].
           ++ intros p' Hp'. apply H2. by right.
      * destruct (IH (Some p) Hps) as (new' & -> & H'); [by intros ? [= <-]|].
        exists new'. split; [done|]. destruct new' as [q'|]; [|by destruct H'].
        destruct H' as [Hq' Hz']. split; [done|]. intros z. rewrite Hz'. split.
        -- intros [H1 H2]. split; [done|]. intros p' [->|Hp']%elem_of_cons Hs; [by apply H1|by apply H2].
        -- intros [_ H2]. split; [intros ? [= <-]; apply H2; [left|done]|]. intros p' Hp'. apply H2. by right.
    + assert (~ set idom p) as Hsp by (intros [c Hc]; congruence).
      destruct (IH new Hps Hnew) as (new' & -> & H'). exists new'. split; [done|].
      destruct new' as [q'|].
      * destruct H' as [Hq' Hz']. split; [done|]. intros z. rewrite Hz'. split.
        -- intros [H1 H2]. split; [done|]. intros p' [->|Hp']%elem_of_cons Hs; [done|by apply H2].
        -- intros [H1 H2]. split; [done|]. intros p' Hp'. apply H2. by right.
      * destruct H' as [-> H2]. split; [done|]. intros p' [->|Hp']%elem_of_cons; [done|by apply H2].
Qed.

Lemma anc_dec (b x : nat) : set idom x -> anc idom b x \/ ~ anc idom b x.
Proof.
  remember (rank x) as k eqn:Ek. revert x Ek. induction (lt_wf k) as [k _ IH]. intros x -> Hx.
  destruct (decide (b = x)) as [->|Hne]; [left; by apply anc_refl|].
  destruct (decide (x = 0%nat)) as [->|Hx0]; [right; by intros H%anc_entry|].
  destruct Hx as [c E]. destruct (ti_up _ I x c Hx0 E) as (_ & Hc & Ht & Hcx).
  assert (rank c < rank x)%nat as Hlt by (destruct (tanc_rank c x Ht); [done|lia]).
  destruct (IH (rank c) Hlt c eq_refl Hc) as [H|H].
  - left. by eapply anc_up.
  - right. intros H'. apply H. by apply (anc_inv b x c H').
Qed.

(** ** One update *)

Section Update.
Context (b y : nat).
Hypothesis Hb : b ∈ rpo.
Hypothesis Hb0 : b <> 0%nat.
Hypothesis Hpar : set idom (par b).
Hypothesis Hy : meets y (fun z => forall p, edge p b -> set idom p -> anc idom z p).

Let idom' := <[b := Some y]> idom.

Lemma upd_eq : idom' !! b = Some (Some y).
Proof. apply list_lookup_insert_eq. rewrite (ti_len _ I). by apply rpo_lt. Qed.

Lemma upd_ne (x : nat) : x <> b -> idom' !! x = idom !! x.
Proof. intros H. by apply list_lookup_insert_ne. Qed.

Lemma upd_set (x : nat) : set idom x -> set idom' x.
Proof.
  intros [c E]. destruct (decide (x = b)) as [->|Hne]; [exists y; apply upd_eq|].
  exists c. by rewrite upd_ne.
Qed.

Lemma new_tanc : tanc y b /\ y <> b /\ (rank y < rank b)%nat.
Proof.
  destruct Hy as [Hs Hz]. destruct (par_spec b Hb Hb0) as (Hp & Hpb & Hlt).
  assert (anc idom y (par b)) as Ha by (by apply Hz; [apply anc_refl| |]).
  assert (rank y < rank b)%nat as Hr by (destruct (anc_rank y (par b) Ha) as [->|]; lia).
  split_and!; [apply tanc_up; [done|done|by apply anc_tanc]|intros ->; lia|done].
Qed.

Lemma new_not_below : ~ anc idom b y.
Proof. intros H. destruct new_tanc as (_ & Hne & Hlt). destruct (anc_rank b y H) as [->|]; [done|lia]. Qed.

(** Off the blocks below [b] nothing changes. *)
Lemma upd_off (z x : nat) : set idom x -> ~ anc idom b x -> anc idom' z x <-> anc idom z x.
Proof.
  intros Hx Hn. assert (forall w, set idom w -> ~ anc idom b w -> w <> b) as Hne.
  { intros w Hw H ->. apply H. by apply anc_refl. }
  split.
  - intros H. induction H as [Hs|x c Hx0 E _ IH]; [by apply anc_refl|].
    rewrite upd_ne in E by (by apply Hne). eapply anc_up; [done|exact E|].
    apply IH; [by apply (ti_up _ I x c)|]. intros Hc. apply Hn. by eapply anc_up.
  - intros H. induction H as [Hs|x c Hx0 E _ IH]; [apply anc_refl; by apply upd_set|].
    eapply anc_up; [done|rewrite upd_ne; [exact E|by apply Hne]|].
    apply IH; [by apply (ti_up _ I x c)|]. intros Hc. apply Hn. by eapply anc_up.
Qed.

Lemma upd_at (z : nat) : anc idom' z b <-> z = b \/ anc idom z y.
Proof.
  destruct Hy as [Hs _]. rewrite <- (upd_off z y Hs new_not_below). split.
  - inversion 1 as [|x c Hx0 E Hc]; subst; [by left|]. right. rewrite upd_eq in E. congruence.
  - intros [->|H]; [apply anc_refl; by exists y; apply upd_eq|].
    eapply anc_up; [done|apply upd_eq|done].
Qed.

(** Below [b], an ancestor is one below [b] or one of [b]. *)
Lemma upd_below (z x : nat) :
  anc idom b x -> anc idom' z x -> (anc idom z x /\ anc idom b z) \/ anc idom' z b.
Proof.
  intros Hbx H. induction H as [Hs|x c Hx0 E Hc IH].
  - left. split; [apply anc_refl; by apply (anc_set b z)|done].
  - destruct (decide (x = b)) as [->|Hne]; [right; by eapply anc_up|].
    rewrite upd_ne in E by done.
    destruct (anc_inv b x c Hbx ltac:(congruence) E) as [_ Hbc].
    destruct (IH Hbc) as [[H1 H2]|H]; [left|by right]. split; [by eapply anc_up|done].
Qed.

Lemma upd_keep (a x : nat) : anc idom a x -> anc idom b a -> anc idom' a x.
Proof.
  intros H Hba. induction H as [Hs|x c Hx0 E Hac IH]; [apply anc_refl; by apply upd_set|].
  destruct (decide (x = b)) as [->|Hne].
  - assert (a = b) as ->; [|apply anc_refl; by exists y; apply upd_eq].
    apply anc_antisym; [by eapply anc_up|done].
  - eapply anc_up; [done|by rewrite upd_ne|by apply IH].
Qed.

Lemma upd_dom (a : nat) : a ∈ rpo -> dom a b -> anc idom' a b.
Proof.
  intros Ha Hd. apply upd_at. destruct (decide (a = b)) as [|Hne]; [by left|]. right.
  apply Hy. intros p Hp Hs. apply (ti_dom _ I); [done|done|]. by eapply dom_pred.
Qed.

Lemma upd_inv : tree_inv idom'.
Proof.
  destruct new_tanc as (Ht & Hne & _). split.
  - unfold idom'. rewrite length_insert. apply I.
  - rewrite upd_ne by done. apply I.
  - intros x c Hx0 E. destruct (decide (x = b)) as [->|Hxb].
    + rewrite upd_eq in E. injection E as <-. split_and!; [done|apply upd_set, Hy|done|done].
    + rewrite upd_ne in E by done. destruct (ti_up _ I x c Hx0 E) as (H1 & H2 & H3 & H4).
      split_and!; [done|by apply upd_set|done|done].
  - intros a x [c E] Ha Hd. destruct (decide (x = b)) as [->|Hxb]; [by apply upd_dom|].
    rewrite upd_ne in E by done. assert (set idom x) as Hx by by exists c.
    pose proof (ti_dom _ I a x Hx Ha Hd) as Hax.
    destruct (anc_dec b x Hx) as [Hbx|Hbx]; [|by apply upd_off].
    destruct (anc_total a b x Hax Hbx) as [Hab|Hba]; [|by apply upd_keep].
    destruct (decide (a = b)) as [->|Hab0]; [by apply upd_keep|].
    assert (anc idom' a b) as H1.
    { apply upd_dom; [done|]. apply (tanc_dom a b x); [by apply anc_tanc|done|by apply anc_tanc|done]. }
    assert (anc idom' b x) as H2 by (apply upd_keep; [done|apply anc_refl; by apply (anc_set b x)]).
    exact (anc_trans _ _ _ _ H1 H2).
Qed.
End Update.
End Inv.
End Tree.
