(* ===== verification/DomExact.v ===== *)
(** * DomExact: the iteration ends in the dominance relation

    Every pass over the reverse postorder settles the paths one edge longer
    ([settled]): after as many passes as there are blocks an ancestor is a
    dominator, and the pass after that changes nothing. A pass that changes
    nothing leaves a tree whose ancestors are exactly the dominators. *)

From S2P Require Import Prelude Mem Source Bytecode Live Cfg DomSound DomTreeSound.

Section Converge.
Context (succs preds : list (list nat)).
Let n := length succs.
Hypothesis G : graph_wf succs preds.
Context (rpo : list nat).
Hypothesis Ho : order_ok succs rpo.

#[local] Abbreviation edge := (step succs).
#[local] Abbreviation num := (number succs rpo).
#[local] Abbreviation rnk := (rank rpo).
#[local] Abbreviation tinv := (tree_inv succs preds rpo).
#[local] Abbreviation avoids := (avoid succs).
#[local] Abbreviation dominates := (dom succs).

(** ** Paths as lists *)

(** [spath a l b]: [l] is a path from the entry to [b], last block first,
    that does not pass [a]. *)
Inductive spath (a : nat) : list nat -> nat -> Prop :=
  | spath_entry : a <> 0%nat -> spath a [0%nat] 0
  | spath_step l p b : spath a l p -> edge p b -> b <> a -> spath a (b :: l) b.

Lemma spath_avoid (a : nat) (l : list nat) (b : nat) : spath a l b -> avoids a b.
Proof. induction 1; [by constructor|by eapply avoid_step]. Qed.

Lemma avoid_reach (a b : nat) : avoids a b -> b ∈ rpo.
Proof.
  induction 1 as [|p b _ IH Hp _]; [by apply (entry_in succs rpo)|]. by eapply rpo_step.
Qed.

Lemma spath_in (a : nat) (l : list nat) (b x : nat) : spath a l b -> x ∈ l -> x ∈ rpo.
Proof.
  induction 1 as [|l p b Hl IH Hp Hb].
  - intros ->%list_elem_of_singleton. by apply (entry_in succs rpo).
  - intros [->|Hx]%elem_of_cons; [|by apply IH].
    apply (avoid_reach a). by apply (spath_avoid a (b :: l)), spath_step with p.
Qed.

(** The part of a path up to a block on it. *)
Lemma spath_cut (a : nat) (l : list nat) (b c : nat) :
  spath a l b -> c ∈ l -> exists l1 l2, l = l1 ++ l2 /\ spath a l2 c.
Proof.
  induction 1 as [Ha|l p b Hl IH Hp Hb].
  - intros ->%list_elem_of_singleton. exists [], [0%nat]. split; [done|by constructor].
  - intros [->|Hc]%elem_of_cons.
    + exists [], (b :: l). split; [done|by apply spath_step with p].
    + destruct (IH Hc) as (l1 & l2 & -> & H). by exists (b :: l1), l2.
Qed.

Lemma spath_off (a : nat) (l : list nat) (b c : nat) : spath a l b -> c ∉ l -> spath c l b.
Proof.
  induction 1 as [Ha|l p b Hl IH Hp Hb].
  - intros Hc. constructor. intros ->. apply Hc. left.
  - intros [Hc Hcl]%not_elem_of_cons. apply spath_step with p; [by apply IH|done|done].
Qed.

(** A path need not pass a block twice. *)
Lemma avoid_spath (a b : nat) : avoids a b -> exists l, spath a l b /\ NoDup l.
Proof.
  induction 1 as [Ha|p b _ (l & Hl & Hnd) Hp Hb].
  - exists [0%nat]. split; [by constructor|apply NoDup_singleton].
  - destruct (decide (b ∈ l)) as [Hin|Hin].
    + destruct (spath_cut a l p b Hl Hin) as (l1 & l2 & -> & H). exists l2. split; [done|].
      by apply list.NoDup_app in Hnd as (_ & _ & ?).
    + exists (b :: l). split; [by apply spath_step with p|by apply list.NoDup_cons].
Qed.

Lemma simple_length (l : list nat) : NoDup l -> (forall x, x ∈ l -> x ∈ rpo) -> (length l <= n)%nat.
Proof.
  intros Hnd Hin. rewrite <- (length_seq n 0). apply submseteq_length, NoDup_submseteq; [done|].
  intros x Hx. apply elem_of_seq. pose proof (rpo_lt succs preds G rpo Ho x (Hin x Hx)). unfold n. lia.
Qed.

(** ** Steps *)

Definition all_set (idom : list (option nat)) : Prop := forall b, b ∈ rpo -> set idom b.

(** The new immediate dominator of a block. *)
Definition is_new (idom : list (option nat)) (b y : nat) : Prop :=
  meets idom y (fun z => forall p, edge p b -> set idom p -> anc idom z p).

Lemma dom_step_spec (idom : list (option nat)) (ch : bool) (b : nat) :
  tinv idom -> b ∈ rpo -> b <> 0%nat -> set idom (par preds rpo b) ->
  exists y, is_new idom b y /\
    dom_step preds rpo num (idom, ch) b =
      Ok (<[b := Some y]> idom, ch || negb (bool_decide (idom !! b = Some (Some y)))).
Proof.
  intros I Hb Hb0 Hpar. pose proof (rpo_lt succs preds G rpo Ho b Hb) as Hlt.
  destruct (lookup_lt_is_Some_2 preds b) as [ps Eps]; [by rewrite (gw_preds _ _ G)|].
  destruct (lookup_lt_is_Some_2 idom b) as [d Ed]; [by rewrite (ti_len _ _ _ _ I)|].
  assert (forall p, p ∈ ps <-> edge p b) as Hps by (intros p; exact (gw_mirror _ _ G p b ps Eps)).
  destruct (new_idom_spec succs preds G rpo Ho idom I ps None) as (new & En & Hnew).
  { apply list.Forall_forall. intros p Hp. destruct (proj1 (Hps p) Hp) as (js & Ejs & _).
    by eapply lookup_lt_Some. }
  { done. }
  destruct (par_spec succs preds G rpo Ho b Hb Hb0) as (_ & Hpb & _).
  unfold dom_step. rewrite (nth_res_Ok _ _ _ Eps). cbn [mbind res_bind]. rewrite En. cbn [mbind res_bind].
  rewrite (nth_res_Ok _ _ _ Ed). cbn [mbind res_bind]. destruct new as [y|].
  - destruct Hnew as [Hy Hz]. exists y. split.
    + split; [done|]. intros z. rewrite Hz. split.
      * intros [_ H] p Hp. by apply H, Hps.
      * intros H. split; [done|]. intros p Hp%Hps. by apply H.
    + rewrite Ed. destruct (decide (d = Some y)) as [->|Hne].
      * rewrite !bool_decide_true by done. rewrite list_insert_id by done. by rewrite orb_false_r.
      * rewrite !bool_decide_false by congruence. by rewrite orb_true_r.
  - destruct Hnew as [_ Hno]. destruct (Hno (par preds rpo b)); [by apply Hps|done].
Qed.

(** ** Settled paths *)

(** Paths of at most [S m] blocks to the blocks before position [i], of at
    most [m] to the others, are told from ancestors. *)
Definition settled (idom : list (option nat)) (i m : nat) : Prop :=
  forall a l b, spath a l b -> (length l <= if decide (rnk b < i)%nat then S m else m)%nat -> ~ anc idom a b.

Lemma settled_0 (idom : list (option nat)) : settled idom 0 0.
Proof.
  intros a l b Hl Hlen. destruct (decide _); [lia|]. destruct Hl; cbn in Hlen; lia.
Qed.

Section Step.
Context (idom : list (option nat)) (b y i m : nat).
Hypothesis I : tinv idom.
Hypothesis Hb : b ∈ rpo.
Hypothesis Hb0 : b <> 0%nat.
Hypothesis Hs : all_set idom.
Hypothesis Hy : is_new idom b y.
Hypothesis Hi : rnk b = i.
Hypothesis P : settled idom i m.

Let Hpar : set idom (par preds rpo b).
Proof. apply Hs. by apply (par_spec succs preds). Qed.

(** A path to [b], one edge longer than what was settled, is settled. *)
Lemma settled_at (a : nat) (l : list nat) :
  spath a l b -> (length l <= S m)%nat -> ~ anc (<[b := Some y]> idom) a b.
Proof.
  intros Hl Hlen Ha. apply (upd_at succs preds G rpo Ho idom I b y Hb Hb0 Hpar Hy) in Ha.
  inversion Hl as [Ha0|l' p b' Hl' Hp Hba]; [congruence|subst]. destruct Ha as [|Hay]; [done|].
  cbn [length] in Hlen. apply (P a l' p Hl'); [destruct (decide _); lia|].
  apply Hy; [done|done|]. apply Hs. apply (avoid_reach a). by eapply spath_avoid.
Qed.

Lemma settled_step : settled (<[b := Some y]> idom) (S i) m.
Proof.
  intros a l x Hl Hlen Ha. destruct (decide (x = b)) as [->|Hxb].
  { assert (length l <= S m)%nat by (revert Hlen; destruct (decide _); lia). by apply (settled_at a l). }
  assert (x ∈ rpo) as Hx by (apply (avoid_reach a); by eapply spath_avoid).
  assert (rnk x <> i) as Hxi.
  { intros E. apply Hxb. apply (rank_inj succs rpo Ho); [done|done|lia]. }
  assert (length l <= if decide (rnk x < i)%nat then S m else m)%nat as Hlen'.
  { revert Hlen. destruct (decide (rnk x < S i)%nat), (decide (rnk x < i)%nat); lia. }
  destruct (anc_dec succs preds G rpo Ho idom I b x (Hs x Hx)) as [Hbx|Hbx].
  2: { apply (P a l x Hl Hlen'). by apply (upd_off succs preds G rpo Ho idom I b y Hb a x (Hs x Hx) Hbx). }
  assert (i < rnk x)%nat as Hlt.
  { destruct (anc_rank succs preds G rpo Ho idom I b x Hbx) as [->|]; [done|lia]. }
  rewrite decide_False in Hlen' by lia.
  destruct (upd_below idom b y a x Hbx Ha) as [[H1 _]|H].
  { apply (P a l x Hl); [|done]. rewrite decide_False; lia. }
  destruct (decide (b ∈ l)) as [Hin|Hin].
  - destruct (spath_cut a l x b Hl Hin) as (l1 & l2 & -> & Hl2).
    apply (settled_at a l2 Hl2); [|done]. rewrite length_app in Hlen'. lia.
  - apply (P b l x); [by apply (spath_off a)| |done]. rewrite decide_False; lia.
Qed.
End Step.

(** ** Passes *)

Lemma rank_split (pre bs : list nat) (b x : nat) :
  rpo = pre ++ b :: bs -> rnk b = length pre /\ (x ∈ pre <-> x ∈ rpo /\ (rnk x < length pre)%nat).
Proof.
  intros E. split.
  - apply (rank_at succs rpo Ho). by rewrite E, lookup_app_r, Nat.sub_diag.
  - split.
    + intros Hx. assert (x ∈ rpo) as Hr by (rewrite E; apply elem_of_app; by left). split; [done|].
      apply list_elem_of_lookup_1 in Hx as [k Hk]. pose proof (lookup_lt_Some _ _ _ Hk).
      rewrite (rank_at succs rpo Ho k x); [done|]. by rewrite E, lookup_app_l.
    + intros [Hr Hlt].
      assert ((pre ++ b :: bs) !! rnk x = Some x) as Hk by (rewrite <- E; by apply (rank_lookup succs)).
      rewrite lookup_app_l in Hk by done. by eapply list_elem_of_lookup_2.
Qed.

(** Nothing left to change. *)
Definition stable (idom : list (option nat)) (b : nat) : Prop :=
  exists y, idom !! b = Some (Some y) /\ is_new idom b y.

Lemma pass_spec (bs pre : list nat) (idom : list (option nat)) (ch : bool) (m : nat) :
  rpo = pre ++ bs -> pre <> [] -> tinv idom -> (forall x, x ∈ pre -> set idom x) ->
  exists idom' ch', dom_pass preds rpo num bs (idom, ch) = Ok (idom', ch') /\ tinv idom' /\ all_set idom' /\
    (all_set idom -> settled idom (length pre) m -> settled idom' (length rpo) m) /\
    (ch' = false -> ch = false /\ idom' = idom /\ forall b, b ∈ bs -> stable idom b).
Proof.
  revert pre idom ch. induction bs as [|b bs IH]; intros pre idom ch E Hpre I Hset; cbn [dom_pass].
  - rewrite app_nil_r in E. subst pre. exists idom, ch. split_and!; try done.
    by intros ->; split_and!; [| |intros b Hb%elem_of_nil].
  - destruct (rank_split pre bs b (par preds rpo b) E) as [Hrb Hinp].
    assert (b ∈ rpo) as Hb by (rewrite E; apply elem_of_app; right; left).
    assert (b <> 0%nat) as Hb0.
    { intros ->. destruct (oo_head _ _ Ho) as [l Hl]. destruct pre as [|x pre]; [done|].
      assert (rnk 0 = 0)%nat as H0 by (apply (rank_at succs rpo Ho); by rewrite Hl). by rewrite H0 in Hrb. }
    destruct (par_spec succs preds G rpo Ho b Hb Hb0) as (Hp1 & _ & Hp2).
    assert (set idom (par preds rpo b)) as Hpar by (apply Hset, Hinp; split; [done|lia]).
    destruct (dom_step_spec idom ch b I Hb Hb0 Hpar) as (y & Hy & ->). cbn [mbind res_bind].
    pose proof (upd_inv succs preds G rpo Ho idom I b y Hb Hb0 Hpar Hy) as I'.
    pose proof (upd_eq succs preds G rpo Ho idom I b y Hb) as Eb.
    destruct (IH (pre ++ [b]) (<[b := Some y]> idom) (ch || negb (bool_decide (idom !! b = Some (Some y)))))
      as (idom' & ch' & -> & H1 & H2 & H3 & H4).
    + by rewrite <- (assoc_L (++)).
    + by destruct pre.
    + done.
    + intros x [Hx|Hx%list_elem_of_singleton]%elem_of_app; [|subst x; by exists y].
      apply (upd_set succs preds G rpo Ho idom I b y Hb). by apply Hset.
    + exists idom', ch'. split_and!; [done|done|done| |].
      * intros Hall P. apply H3.
        -- intros x Hx. apply (upd_set succs preds G rpo Ho idom I b y Hb). by apply Hall.
        -- rewrite length_app, Nat.add_1_r. by apply settled_step.
      * intros ->. destruct (H4 eq_refl) as ([-> Hn]%orb_false_iff & -> & Hst).
        apply negb_false_iff, bool_decide_eq_true in Hn. rewrite list_insert_id in Hst by done.
        rewrite list_insert_id by done. split_and!; [done|done|].
        intros x [->|Hx]%elem_of_cons; [by exists y|by apply Hst].
Qed.

Lemma rpo_tail : rpo = [0%nat] ++ tail rpo.
Proof. by destruct (oo_head _ _ Ho) as [bs ->]. Qed.

(** The entry has no ancestor but itself. *)
Lemma settled_entry (idom : list (option nat)) (m : nat) : settled idom 0 m -> settled idom 1 m.
Proof.
  intros P a l b Hl Hlen Ha. destruct (decide (b = 0%nat)) as [->|Hb].
  - apply anc_entry in Ha as ->. by inversion Hl.
  - apply (P a l b Hl); [|done]. rewrite decide_False by lia. rewrite decide_False in Hlen; [done|].
    intros Hr. apply Hb. apply (rank_inj succs rpo Ho); [|by apply (entry_in succs)|].
    + apply (avoid_reach a). by eapply spath_avoid.
    + rewrite (rank_at succs rpo Ho 0 0%nat); [lia|]. by rewrite rpo_tail.
Qed.

Lemma settled_all (idom : list (option nat)) (m : nat) :
  settled idom (length rpo) m -> settled idom 0 (S m).
Proof.
  intros P a l b Hl Hlen. apply (P a l b Hl). rewrite decide_False in Hlen by lia.
  rewrite decide_True; [done|]. apply (rank_lt succs rpo Ho). apply (avoid_reach a). by eapply spath_avoid.
Qed.

(** ** The end of the iteration *)

Definition exact (idom : list (option nat)) : Prop :=
  forall a b, a ∈ rpo -> b ∈ rpo -> anc idom a b <-> dominates a b.

Section End_.
Context (idom : list (option nat)).
Hypothesis I : tinv idom.
Hypothesis Hs : all_set idom.

(** A tree that no step changes. *)
Lemma stable_exact : (forall b, b ∈ tail rpo -> stable idom b) -> exact idom.
Proof.
  intros Hst a b Ha Hb. split; [|by apply (ti_dom _ _ _ _ I), Ha; apply Hs].
  intros Hab Hav. induction Hav as [Ha0|p b Hav IH Hp Hba]; [by apply Ha0, (anc_entry idom)|].
  assert (p ∈ rpo) as Hpr by by apply (avoid_reach a). apply IH; [done|].
  assert (b <> 0%nat) as Hb0 by (intros ->; by apply Hba; symmetry; apply (anc_entry idom)).
  assert (b ∈ tail rpo) as Hbt.
  { rewrite rpo_tail in Hb. by apply elem_of_cons in Hb as [|]. }
  destruct (Hst b Hbt) as (y & Ey & Hy). apply Hy; [|done|by apply Hs].
  by apply (anc_inv idom a b y Hab).
Qed.

(** Once every simple path is settled, no step changes the tree. *)
Lemma settled_stable (b : nat) : settled idom 0 n -> b ∈ tail rpo -> stable idom b.
Proof.
  intros P Hbt. assert (b ∈ rpo) as Hb by (rewrite rpo_tail; by right).
  assert (forall a x, anc idom a x -> dominates a x) as Hd.
  { intros a x Hax Hav. destruct (avoid_spath a x Hav) as (l & Hl & Hnd). apply (P a l x Hl); [|done].
    rewrite decide_False by lia. apply simple_length; [done|]. intros c. by apply (spath_in a l x). }
  assert (b <> 0%nat) as Hb0.
  { intros ->. pose proof (oo_nodup _ _ Ho) as Hnd. rewrite rpo_tail in Hnd. by apply list.NoDup_cons in Hnd as []. }
  assert (set idom (par preds rpo b)) as Hpar by (apply Hs, (par_spec succs preds); done).
  destruct (dom_step_spec idom false b I Hb Hb0 Hpar) as (y & Hy & _).
  destruct (Hs b Hb) as [c Ec]. exists y. split; [|done].
  destruct (new_tanc succs preds G rpo Ho idom I b y Hb Hb0 Hpar Hy) as (_ & Hyb & _).
  pose proof (proj1 (proj2 Hy y) (anc_refl _ _ (proj1 Hy))) as Hyp.
  destruct (ti_up _ _ _ _ I b c Hb0 Ec) as (_ & Hsc & Htc & Hcb).
  assert (y = c) as ->; [|done]. apply (anc_antisym succs preds G rpo Ho idom I).
  - assert (anc idom y b) as Hyb'; [|by apply (anc_inv idom y b c)].
    apply (ti_dom _ _ _ _ I); [by apply Hs|by apply (set_in succs preds rpo Ho idom I), Hy|].
    intros Hav. inversion Hav as [|p b' Hap Hp _]; [done|subst].
    apply (Hd y p); [|done]. apply Hyp; [done|]. by apply Hs, (avoid_reach y).
  - apply Hy. intros p Hp Hsp. apply (ti_dom _ _ _ _ I); [done|by apply (set_in succs preds rpo Ho idom I)|].
    apply (dom_pred succs c p b); [|done|congruence]. apply Hd. eapply anc_up; [done|done|by apply anc_refl].
Qed.

Lemma stable_pass (bs : list nat) (ch : bool) :
  (forall b, b ∈ bs -> b ∈ tail rpo /\ stable idom b) ->
  dom_pass preds rpo num bs (idom, ch) = Ok (idom, ch).
Proof.
  induction bs as [|b bs IH]; intros H; cbn [dom_pass]; [done|].
  destruct (H b ltac:(left)) as [Hbt (y & Ey & Hy)].
  assert (b ∈ rpo) as Hb by (rewrite rpo_tail; by right).
  assert (b <> 0%nat) as Hb0.
  { intros ->. pose proof (oo_nodup _ _ Ho) as Hnd. rewrite rpo_tail in Hnd. by apply list.NoDup_cons in Hnd as []. }
  destruct (dom_step_spec idom ch b I Hb Hb0) as (y' & Hy' & ->).
  { apply Hs, (par_spec succs preds); done. }
  assert (y' = y) as ->.
  { apply (anc_antisym succs preds G rpo Ho idom I); [apply Hy, Hy', anc_refl|apply Hy', Hy, anc_refl]; apply Hy || apply Hy'. }
  cbn [mbind res_bind]. rewrite list_insert_id, bool_decide_true, orb_false_r by done.
  apply IH. intros x Hx. apply H. by right.
Qed.
End End_.

(** Enough fuel ends the iteration in the dominance relation. *)
Lemma dom_loop_settled (fuel m : nat) (idom : list (option nat)) :
  tinv idom -> all_set idom -> settled idom 0 m -> (n - m < fuel)%nat ->
  exists idom', dom_loop preds rpo num fuel idom = Ok idom' /\ tinv idom' /\ all_set idom' /\ exact idom'.
Proof.
  revert m idom. induction fuel as [|fuel IH]; intros m idom I Hs P Hf; [lia|]. cbn [dom_loop].
  destruct (decide (n <= m)%nat) as [Hm|Hm].
  - assert (forall b, b ∈ tail rpo -> stable idom b) as Hst.
    { intros b. apply settled_stable; [done|done|]. intros a l x Hl Hlen. apply (P a l x Hl).
      rewrite decide_False in * by lia. lia. }
    rewrite stable_pass; [|done|done|intros b Hb; split; [done|by apply Hst]]. cbn [mbind res_bind].
    exists idom. split_and!; [done|done|done|by apply stable_exact].
  - destruct (pass_spec (tail rpo) [0%nat] idom false m) as (idom' & ch' & -> & H1 & H2 & H3 & H4);
      [apply rpo_tail|done|done|intros x Hx; apply Hs; rewrite rpo_tail; apply elem_of_app; by left|].
    cbn [mbind res_bind]. destruct ch'.
    + apply (IH (S m)); [done|done| |lia]. by apply settled_all, H3; [|apply settled_entry].
    + destruct (H4 eq_refl) as (_ & -> & Hst). exists idom. split_and!; [done|done|done|by apply stable_exact].
Qed.

Definition idom_start : list (option nat) := <[0%nat := Some 0%nat]> (replicate n None).

Lemma tinv_start : tinv idom_start.
Proof.
  pose proof (gw_pos _ _ G) as Hn. fold n in Hn. unfold idom_start. split.
  - by rewrite length_insert, length_replicate.
  - apply list_lookup_insert_eq. by rewrite length_replicate.
  - intros b c Hb. rewrite list_lookup_insert_ne by done. by intros [? _]%lookup_replicate.
  - intros a b [c E] Ha Hd. destruct (decide (b = 0%nat)) as [->|Hb].
    + destruct (decide (a = 0%nat)) as [->|Ha0]; [|by destruct Hd; constructor].
      apply anc_refl. by exists c.
    + rewrite list_lookup_insert_ne in E by done. by apply lookup_replicate in E as [? _].
Qed.

Lemma dom_loop_exact :
  exists idom, dom_loop preds rpo num (dom_fuel succs) idom_start = Ok idom /\
    tinv idom /\ all_set idom /\ exact idom.
Proof.
  unfold dom_fuel. fold n. rewrite Nat.add_comm. cbn [Nat.add dom_loop].
  destruct (pass_spec (tail rpo) [0%nat] idom_start false 0) as (idom & ch & -> & H1 & H2 & _ & H4).
  { apply rpo_tail. }
  { done. }
  { apply tinv_start. }
  { intros x ->%list_elem_of_singleton. exists 0%nat. apply tinv_start. }
  cbn [mbind res_bind]. destruct ch.
  - apply (dom_loop_settled (S (S n)) 0); [done|done| |lia].
    intros a l x Hl Hlen. destruct (decide _); [lia|]. destruct Hl; cbn in Hlen; lia.
  - destruct (H4 eq_refl) as (_ & -> & Hst). exists idom_start.
    split_and!; [done|done|done|by apply stable_exact].
Qed.
End Converge.

(** * the dominator tree and its query

    What [dominators] returns: the immediate dominators of the reachable
    blocks, and depths that grow by one per step of the tree, so that the
    query [block_dominates] answers dominance. *)

Section Depth.
Context (succs preds : list (list nat)).
Let n := length succs.
Hypothesis G : graph_wf succs preds.
Context (rpo : list nat).
Hypothesis Ho : order_ok succs rpo.
Context (idom : list (option nat)).
Hypothesis I : tree_inv succs preds rpo idom.
Hypothesis Hs : all_set rpo idom.

#[local] Abbreviation rnk := (rank rpo).

Lemma idom_rank (b c : nat) : b <> 0%nat -> idom !! b = Some (Some c) -> c ∈ rpo /\ (rnk c < rnk b)%nat.
Proof.
  intros Hb E. destruct (ti_up _ _ _ _ I b c Hb E) as (_ & Hc & Ht & Hcb).
  split; [by apply (set_in succs preds rpo Ho idom I)|].
  by destruct (tanc_rank succs preds G rpo Ho c b Ht).
Qed.

(** The depths of the blocks before position [i]. *)
Record depth_ok (depth : list Z) (i : nat) : Prop := {
  do_len : length depth = n;
  do_entry : depth !! 0%nat = Some 0;
  do_bound : forall b, b ∈ rpo -> (rnk b < i)%nat -> exists k, depth !! b = Some k /\ 0 <= k <= Z.of_nat (rnk b);
  do_up : forall b c, b ∈ rpo -> (rnk b < i)%nat -> b <> 0%nat -> idom !! b = Some (Some c) ->
    exists k, depth !! c = Some k /\ depth !! b = Some (k + 1) }.

Lemma depth_step (depth : list Z) (i b c : nat) :
  depth_ok depth i -> b ∈ rpo -> rnk b = i -> b <> 0%nat -> idom !! b = Some (Some c) ->
  exists k, depth !! c = Some k /\ depth_ok (<[b := u32_add k 1]> depth) (S i).
Proof.
  intros [D1 D2 D3 D4] Hb Hi Hb0 Ec. destruct (idom_rank b c Hb0 Ec) as [Hc Hcb].
  destruct (D3 c Hc ltac:(lia)) as (k & Ek & Hk). exists k. split; [done|].
  pose proof (rpo_lt succs preds G rpo Ho b Hb) as Hbn. pose proof (gw_size _ _ G) as Hsz.
  pose proof (rank_lt succs rpo Ho b Hb) as Hrn.
  pose proof (simple_length succs preds G rpo Ho rpo (oo_nodup _ _ Ho) (fun x H => H)) as Hln.
  assert (u32_add k 1 = k + 1) as E1 by (apply u32_add_small; lia). rewrite E1.
  assert (forall x, x ∈ rpo -> (rnk x < i)%nat -> <[b := k + 1]> depth !! x = depth !! x) as Hne.
  { intros x Hx Hxi. apply list_lookup_insert_ne. intros ->. lia. }
  assert (<[b := k + 1]> depth !! b = Some (k + 1)) as Eb by (apply list_lookup_insert_eq; by rewrite D1).
  assert (forall x, x ∈ rpo -> (rnk x < S i)%nat -> x = b \/ (rnk x < i)%nat) as Hcase.
  { intros x Hx Hxi. destruct (decide (rnk x = i)); [left|right; lia].
    apply (rank_inj succs rpo Ho); [done|done|congruence]. }
  split.
  - by rewrite length_insert.
  - by rewrite list_lookup_insert_ne.
  - intros x Hx Hxi. destruct (Hcase x Hx Hxi) as [->|Hlt].
    + exists (k + 1). split; [done|lia].
    + rewrite Hne by done. by apply D3.
  - intros x d Hx Hxi Hx0 Ed. destruct (Hcase x Hx Hxi) as [->|Hlt].
    + assert (d = c) as -> by congruence. exists k. split; [by rewrite Hne by (done || lia)|done].
    + destruct (D4 x d Hx Hlt Hx0 Ed) as (k' & E2 & E3). exists k'.
      destruct (idom_rank x d Hx0 Ed) as [Hd Hdx]. rewrite !Hne by (done || lia). done.
Qed.

Lemma depths_spec (bs pre : list nat) (depth : list Z) :
  rpo = pre ++ bs -> pre <> [] -> depth_ok depth (length pre) ->
  exists depth', depths idom bs depth = Ok depth' /\ depth_ok depth' (length rpo).
Proof.
  revert pre depth. induction bs as [|b bs IH]; intros pre depth E Hpre D; cbn [depths].
  - rewrite app_nil_r in E. subst pre. by exists depth.
  - destruct (rank_split succs rpo Ho pre bs b b E) as [Hrb _].
    assert (b ∈ rpo) as Hb by (rewrite E; apply elem_of_app; right; left).
    assert (b <> 0%nat) as Hb0.
    { intros ->. destruct (oo_head _ _ Ho) as [l Hl]. destruct pre as [|x pre]; [done|].
      assert (rnk 0 = 0)%nat as H0 by (apply (rank_at succs rpo Ho); by rewrite Hl). by rewrite H0 in Hrb. }
    destruct (Hs b Hb) as [c Ec]. rewrite (nth_res_Ok _ _ _ Ec). cbn [mbind res_bind].
    destruct (depth_step depth (length pre) b c D Hb Hrb Hb0 Ec) as (k & Ek & D').
    rewrite (nth_res_Ok _ _ _ Ek). cbn [mbind res_bind].
    apply (IH (pre ++ [b])); [by rewrite <- (assoc_L (++))|by destruct pre|].
    by rewrite length_app, Nat.add_1_r.
Qed.

Lemma depths_total :
  exists depth, depths idom (tail rpo) (replicate n 0) = Ok depth /\ depth_ok depth (length rpo).
Proof.
  pose proof (gw_pos _ _ G) as Hn. apply (depths_spec (tail rpo) [0%nat]); [by apply (rpo_tail succs)|done|].
  assert (rnk 0 = 0)%nat as H0.
  { apply (rank_at succs rpo Ho). by rewrite (rpo_tail succs rpo Ho). }
  assert (forall b, b ∈ rpo -> (rnk b < 1)%nat -> b = 0%nat) as Hz.
  { intros b Hb Hr. apply (rank_inj succs rpo Ho); [done|by apply (entry_in succs)|rewrite H0; lia]. }
  split.
  - by rewrite length_replicate.
  - by apply lookup_replicate_2.
  - intros b Hb ->%Hz; [|done]. exists 0. split; [by apply lookup_replicate_2|lia].
  - intros b c Hb Hr Hb0. by apply Hz in Hr.
Qed.

(** ** The query *)

Section Query.
Context (depth : list Z).
Hypothesis D : depth_ok depth (length rpo).

Lemma depth_at (b : nat) : b ∈ rpo -> exists k, depth !! b = Some k.
Proof. intros Hb. destruct (do_bound _ _ D b Hb) as (k & Ek & _); [by apply (rank_lt succs)|by exists k]. Qed.

Lemma depth_up (b c : nat) :
  b ∈ rpo -> b <> 0%nat -> idom !! b = Some (Some c) -> exists k, depth !! c = Some k /\ depth !! b = Some (k + 1).
Proof. intros Hb. apply (do_up _ _ D b c Hb). by apply (rank_lt succs). Qed.

Lemma anc_depth (a b : nat) (da db : Z) :
  anc idom a b -> depth !! a = Some da -> depth !! b = Some db -> a = b \/ da < db.
Proof.
  intros H Ea. revert db. induction H as [_|b c Hb0 Ec Hac IH]; intros db Eb; [by left|]. right.
  assert (b ∈ rpo) as Hb by (apply (set_in succs preds rpo Ho idom I); by exists c).
  destruct (depth_up b c Hb Hb0 Ec) as (k & Ek & Ek').
  assert (db = k + 1) as -> by congruence. destruct (IH k Ek) as [->|]; [|lia].
  assert (k = da) by congruence. lia.
Qed.

Lemma block_dominates_anc (fuel a b : nat) :
  a ∈ rpo -> b ∈ rpo -> (rnk b < fuel)%nat ->
  exists r, block_dominates fuel idom depth a b = Ok r /\ (r = true <-> anc idom a b).
Proof.
  intros Ha. revert b. induction fuel as [|fuel IH]; intros b Hb Hf; [lia|]. cbn [block_dominates].
  destruct (depth_at a Ha) as [da Ea], (depth_at b Hb) as [db Eb].
  rewrite (nth_res_Ok _ _ _ Ea), (nth_res_Ok _ _ _ Eb). cbn [mbind res_bind].
  destruct (Z.ltb_spec da db) as [Hlt|Hge].
  - assert (b <> 0%nat) as Hb0.
    { intros ->. rewrite (do_entry _ _ D) in Eb. injection Eb as <-.
      destruct (do_bound _ _ D a Ha) as (k & Ek & Hk); [by apply (rank_lt succs)|]. assert (k = da) by congruence. lia. }
    destruct (Hs b Hb) as [c Ec]. rewrite (nth_res_Ok _ _ _ Ec). cbn [mbind res_bind].
    destruct (idom_rank b c Hb0 Ec) as [Hc Hcb]. destruct (IH c Hc ltac:(lia)) as (r & -> & Hr).
    exists r. split; [done|]. rewrite Hr. split; [by eapply anc_up|].
    intros H. apply (anc_inv idom a b c H); [|done]. intros ->. assert (da = db) by congruence. lia.
  - exists (a =? b)%nat. split; [done|]. rewrite Nat.eqb_eq. split.
    + intros ->. by apply anc_refl, Hs.
    + intros H. destruct (anc_depth a b da db H Ea Eb) as [|]; [done|lia].
Qed.
End Query.
End Depth.

(** ** The whole computation *)

(** [idom] and [depth] hold the dominance relation of the graph. *)
Record dom_tree (succs : list (list nat)) (idom : list (option nat)) (depth : list Z) : Prop := {
  dt_len : length idom = length succs;
  dt_reach : forall b, (exists c, idom !! b = Some (Some c)) <-> reach succs b;
  dt_idom : forall b c, b <> 0%nat -> idom !! b = Some (Some c) ->
    reach succs c /\ c <> b /\ dom succs c b /\
    forall a, reach succs a -> dom succs a b -> a <> b -> dom succs a c;
  dt_query : forall a b, reach succs a -> reach succs b ->
    exists r, block_dominates (S (length succs)) idom depth a b = Ok r /\ (r = true <-> dom succs a b) }.

Lemma dominators_spec (succs preds : list (list nat)) :
  graph_wf succs preds ->
  exists idom depth, dominators succs preds = Ok (idom, depth) /\ dom_tree succs idom depth.
Proof.
  intros G. unfold dominators. destruct (reverse_postorder_ok succs preds G) as (rpo & -> & Ho).
  cbn [mbind res_bind]. destruct (dom_loop_exact succs preds G rpo Ho) as (idom & E & I & Hs & Hx).
  unfold idom_start in E. rewrite E. cbn [mbind res_bind].
  destruct (depths_total succs preds G rpo Ho idom I Hs) as (depth & -> & D). cbn [mbind res_bind].
  exists idom, depth. split; [done|].
  assert (forall b, b ∈ rpo <-> reach succs b) as Hr by (apply (oo_reach _ _ Ho)). split.
  - apply (ti_len _ _ _ _ I).
  - intros b. rewrite <- Hr. split; [apply (set_in succs preds rpo Ho idom I)|apply Hs].
  - intros b c Hb Ec. destruct (ti_up _ _ _ _ I b c Hb Ec) as (Hb' & Hc & _ & Hcb).
    pose proof (set_in succs preds rpo Ho idom I c Hc) as Hc'.
    split_and!; [by apply Hr|done|apply Hx; [done|done|]; by eapply anc_up, anc_refl|].
    intros a Ha%Hr Hd Hab. apply Hx; [done|done|]. apply (anc_inv idom a b c); [by apply Hx|done|done].
  - intros a b Ha%Hr Hb%Hr.
    destruct (block_dominates_anc succs preds G rpo Ho idom I Hs depth D (S (length succs)) a b Ha Hb)
      as (r & E' & Hq); [|exists r; split; [done|]; rewrite Hq; by apply Hx].
    pose proof (rank_lt succs rpo Ho b Hb).
    pose proof (simple_length succs preds G rpo Ho rpo (oo_nodup _ _ Ho) (fun x H => H)). lia.
Qed.
