(* ===== verification/LoopSound.v ===== *)
(** * LoopSound: the natural loops

    The body the backward walk collects for a header is the header and every
    block that reaches one of its back edges without passing it ([in_loop]);
    the nest counts, for every block, the loops around it and names a deepest
    header among them. *)

From S2P Require Import Prelude Mem Source Bytecode Live Cfg DomSound DomTreeSound DomExact.

Section Loops.
Context (succs preds : list (list nat)).
Let n := length succs.
Hypothesis G : graph_wf succs preds.

#[local] Abbreviation edge := (step succs).

(** ** Loops *)

(** Blocks that reach [s] without passing [h] on the way. *)
Inductive tail_to (h s : nat) : nat -> Prop :=
  | tail_src : tail_to h s s
  | tail_step b x : tail_to h s x -> x <> h -> edge b x -> tail_to h s b.

(** A reachable edge to a dominator of its source. *)
Definition back_edge (s h : nat) : Prop := reach succs s /\ edge s h /\ dom succs h s.

Definition in_loop (h b : nat) : Prop := exists s, back_edge s h /\ (b = h \/ tail_to h s b).

(** A loop is entered through its header alone. *)
Lemma in_loop_dom (h b : nat) : in_loop h b -> reach succs b -> dom succs h b.
Proof.
  intros (s & (Hs & _ & Hd) & [->|Ht]) Hb.
  - intros Ha. by inversion Ha.
  - intros Ha. apply Hd. clear Hd Hs Hb. induction Ht as [|b x Ht IH Hx Hbx]; [done|].
    apply IH. by eapply avoid_step.
Qed.

(** ** The backward walk *)

(** The body of [h] for the back edges from the blocks of [S]. *)
Definition body_ok (h : nat) (S : nat -> Prop) (body : list nat) : Prop :=
  NoDup body /\ h ∈ body /\ forall b, b ∈ body <-> b = h \/ exists s, S s /\ tail_to h s b.

(** What the walk has still to push. *)
Fixpoint waiting (k : nat) (l : list (list nat)) (inbody : list nat) : nat :=
  match l with
  | [] => 0%nat
  | ps :: l => ((if decide (k ∈ inbody) then 0 else length ps) + waiting (S k) l inbody)%nat
  end.

Lemma waiting_off (k : nat) (l : list (list nat)) (inbody : list nat) (x : nat) :
  (x < k)%nat -> waiting k l (x :: inbody) = waiting k l inbody.
Proof.
  revert k. induction l as [|ps l IH]; intros k Hx; cbn [waiting]; [done|]. rewrite IH by lia. f_equal.
  apply decide_ext. rewrite elem_of_cons. split; [intros [?|?]; [lia|done]|by right].
Qed.

Lemma waiting_add (k i : nat) (l : list (list nat)) (inbody ps : list nat) :
  l !! i = Some ps -> (k + i)%nat ∉ inbody ->
  waiting k l inbody = (length ps + waiting k l ((k + i)%nat :: inbody))%nat.
Proof.
  revert k i. induction l as [|ps' l IH]; intros k [|i] E Hn; try done; cbn [waiting].
  - injection E as ->. rewrite Nat.add_0_r in *. rewrite waiting_off by lia.
    rewrite decide_False, decide_True by (done || left). lia.
  - rewrite (IH (S k) i E) by (by rewrite Nat.add_succ_comm).
    rewrite Nat.add_succ_comm. rewrite Nat.add_shuffle3. f_equal. f_equal.
    apply decide_ext. rewrite elem_of_cons. split; [by right|intros [?|?]; [lia|done]].
Qed.

Lemma waiting_le (k : nat) (l : list (list nat)) (inbody : list nat) :
  (waiting k l inbody <= foldr (fun ps k => (length ps + k)%nat) 0%nat l)%nat.
Proof.
  revert k. induction l as [|ps l IH]; intros k; cbn [waiting foldr]; [done|].
  specialize (IH (S k)). destruct (decide _); lia.
Qed.

Section Body.
Context (h src : nat) (S : nat -> Prop).

Definition sources (s : nat) : Prop := S s \/ s = src.

Record walk_inv (stack inbody body : list nat) : Prop := {
  wi_same : forall b, b ∈ inbody <-> b ∈ body;
  wi_nodup : NoDup body;
  wi_hdr : h ∈ body;
  wi_sound : forall b, b ∈ body \/ b ∈ stack -> (b < n)%nat /\ (b = h \/ exists s, sources s /\ tail_to h s b);
  wi_closed : forall x p, x ∈ body -> x <> h -> edge p x -> p ∈ body \/ p ∈ stack;
  wi_srcs : forall s, sources s -> s ∈ body \/ s ∈ stack }.

Lemma preds_edge (x p : nat) (ps : list nat) : preds !! x = Some ps -> p ∈ ps <-> edge p x.
Proof. exact (gw_mirror _ _ G p x ps). Qed.

Lemma edge_lt (p x : nat) : edge p x -> (p < n)%nat.
Proof. intros (js & E & _). by eapply lookup_lt_Some. Qed.

Lemma walk_skip (x : nat) (stack inbody body : list nat) :
  walk_inv (x :: stack) inbody body -> x ∈ inbody -> walk_inv stack inbody body.
Proof.
  intros [W1 W2 W3 W4 W5 W6] Hx. split; try done.
  - intros b [Hb|Hb]; apply W4; [by left|right; by right].
  - intros y p Hy Hyh Hp. destruct (W5 y p Hy Hyh Hp) as [|[->|]%elem_of_cons]; [by left|left; by apply W1|by right].
  - intros s Hs. destruct (W6 s Hs) as [|[->|]%elem_of_cons]; [by left|left; by apply W1|by right].
Qed.

Lemma walk_add (x : nat) (ps stack inbody body : list nat) :
  walk_inv (x :: stack) inbody body -> x ∉ inbody -> preds !! x = Some ps ->
  walk_inv (rev ps ++ stack) (x :: inbody) (body ++ [x]).
Proof.
  intros [W1 W2 W3 W4 W5 W6] Hx Ep.
  assert (x <> h) as Hxh by (intros ->; by apply Hx, W1).
  assert (forall p, p ∈ rev ps <-> edge p x) as Hps.
  { intros p. rewrite <- (preds_edge x p ps Ep). by rewrite !list_elem_of_In, <- in_rev. }
  assert (forall b, b ∈ body ++ [x] <-> b ∈ body \/ b = x) as Hbx.
  { intros b. by rewrite elem_of_app, list_elem_of_singleton. }
  destruct (W4 x ltac:(right; left)) as [Hxn Hxt].
  split.
  - intros b. rewrite elem_of_cons, Hbx, W1. tauto.
  - apply list.NoDup_app. split; [done|]. split; [|apply NoDup_singleton].
    intros y Hy ->%list_elem_of_singleton. by apply Hx, W1.
  - apply Hbx. by left.
  - intros b. rewrite Hbx, elem_of_app, Hps. intros [[Hb| ->]|[Hb|Hb]].
    + apply W4. by left.
    + done.
    + split; [by eapply edge_lt|]. right. destruct Hxt as [|(s & Hs & Ht)]; [done|].
      exists s. split; [done|]. by apply tail_step with x.
    + apply W4. right. by right.
  - intros y p Hy Hyh Hp. rewrite Hbx, elem_of_app, Hps. apply Hbx in Hy as [Hy| ->].
    + destruct (W5 y p Hy Hyh Hp) as [|[->|]%elem_of_cons]; tauto.
    + tauto.
  - intros s Hs. rewrite Hbx, elem_of_app. destruct (W6 s Hs) as [|[->|]%elem_of_cons]; tauto.
Qed.

Lemma walk_spec (fuel : nat) (stack inbody body : list nat) :
  walk_inv stack inbody body -> (length stack + waiting 0 preds inbody < fuel)%nat ->
  exists body', loop_body preds fuel stack inbody body = Ok body' /\ body_ok h sources body'.
Proof.
  revert stack inbody body. induction fuel as [|fuel IH]; intros stack inbody body W Hf; [lia|]. cbn [loop_body].
  destruct stack as [|x stack].
  - exists body. split; [done|]. destruct W as [W1 W2 W3 W4 W5 W6]. split_and!; [done|done|].
    intros b. split; [intros Hb; apply W4; by left|]. intros [->|(s & Hs & Ht)]; [done|].
    induction Ht as [|b x Ht IHt Hx Hbx].
    + destruct (W6 s Hs) as [|Hn]; [done|by apply elem_of_nil in Hn].
    + destruct (W5 x b IHt Hx Hbx) as [|Hn]; [done|by apply elem_of_nil in Hn].
  - cbn [length] in Hf. case_bool_decide as Hx.
    + apply IH; [by apply (walk_skip x)|lia].
    + destruct (lookup_lt_is_Some_2 preds x) as [ps Ep].
      { rewrite (gw_preds _ _ G). apply (wi_sound _ _ _ W). right. left. }
      rewrite (nth_res_Ok _ _ _ Ep). cbn [mbind res_bind]. apply IH; [by apply walk_add|].
      rewrite (waiting_add 0 x preds inbody ps Ep Hx) in Hf. cbn [Nat.add] in Hf.
      rewrite length_app, length_rev. lia.
Qed.

(** One more back edge. *)
Lemma body_add (body : list nat) :
  body_ok h S body -> (src < n)%nat -> (forall b, b ∈ body -> (b < n)%nat) ->
  exists body', loop_body preds (body_fuel preds) [src] body body = Ok body' /\ body_ok h sources body'.
Proof.
  intros (B1 & B2 & B3) Hsrc Hlt. apply walk_spec.
  - split; [done|done|done| | |].
    + intros b [Hb| ->%list_elem_of_singleton].
      * split; [by apply Hlt|]. apply B3 in Hb as [|(s & Hs & Ht)]; [by left|]. right. exists s. split; [by left|done].
      * split; [done|]. right. exists src. split; [by right|constructor].
    + intros x p Hx Hxh Hp. left. apply B3 in Hx as [|(s & Hs & Ht)]; [done|].
      apply B3. right. exists s. split; [done|]. by apply tail_step with x.
    + intros s [Hs| ->]; [left|right; left]. apply B3. right. exists s. split; [done|constructor].
  - unfold body_fuel. cbn [length]. pose proof (waiting_le 0 preds body). lia.
Qed.
End Body.

(** ** The scan for back edges *)

Lemma body_ok_ext (h : nat) (S S' : nat -> Prop) (body : list nat) :
  (forall s, S s <-> S' s) -> body_ok h S body -> body_ok h S' body.
Proof.
  intros H (B1 & B2 & B3). split_and!; [done|done|]. intros b. rewrite B3.
  split; intros [?|(s & Hs & Ht)]; try (by left); right; exists s; split; try done; by apply H.
Qed.

Record bodies_ok (E : nat -> nat -> Prop) (bodies : gmap nat (list nat)) : Prop := {
  bo_back : forall s h, E s h -> back_edge s h;
  bo_some : forall h body, bodies !! h = Some body -> (exists s, E s h) /\ body_ok h (fun s => E s h) body;
  bo_none : forall h s, bodies !! h = None -> ~ E s h }.

Lemma bodies_ok_ext (E E' : nat -> nat -> Prop) (bodies : gmap nat (list nat)) :
  (forall s h, E s h <-> E' s h) -> bodies_ok E bodies -> bodies_ok E' bodies.
Proof.
  intros H [B1 B2 B3]. split.
  - intros s h Hs. by apply B1, H.
  - intros h body Eb. destruct (B2 h body Eb) as [(s & Hs) Hb]. split; [exists s; by apply H|].
    eapply body_ok_ext; [|exact Hb]. intros x. apply H.
  - intros h s En Hs%H. by eapply B3.
Qed.

Lemma back_lt (s h b : nat) : back_edge s h -> b = h \/ tail_to h s b -> (b < n)%nat.
Proof.
  intros (Hs & Hsh & _) [->|Ht]; [by apply (gw_succs _ _ G s)|].
  destruct Ht as [|b x _ _ Hbx]; [by apply (reach_lt succs preds G)|by eapply edge_lt].
Qed.

Section Scan.
Context (idom : list (option nat)) (depth : list Z).
Hypothesis T : dom_tree succs idom depth.

Lemma loop_edge_spec (E : nat -> nat -> Prop) (b h : nat) (bodies : gmap nat (list nat)) :
  bodies_ok E bodies -> reach succs b -> edge b h ->
  exists bodies', loop_edge succs preds idom depth b bodies h = Ok bodies' /\
    bodies_ok (fun s k => E s k \/ (s = b /\ k = h /\ back_edge b h)) bodies'.
Proof.
  intros B Hb Hbh. assert (reach succs h) as Hh by by eapply reach_step.
  unfold loop_edge. destruct (dt_query _ _ _ T h b Hh Hb) as (r & -> & Hr). cbn [mbind res_bind].
  destruct r; cbn [negb].
  2: { exists bodies. split; [done|]. eapply bodies_ok_ext; [|exact B]. intros s k.
       split; [by left|]. intros [?|(_ & _ & _ & _ & Hd)]; [done|]. by apply Hr in Hd. }
  assert (back_edge b h) as Hback by (split_and!; [done|done|by apply Hr]).
  assert (body_ok h (fun s => E s h) (body_of bodies h)) as Hbody.
  { unfold body_of. destruct (bodies !! h) as [body|] eqn:Eb; [by apply (bo_some _ _ B h)|].
    cbn [default from_option id]. split_and!; [apply NoDup_singleton|left|]. intros x. rewrite list_elem_of_singleton.
    split; [by left|]. intros [?|(s & Hs & _)]; [done|]. by apply (bo_none _ _ B h s) in Eb. }
  destruct (body_add h b (fun s => E s h) (body_of bodies h) Hbody) as (body' & -> & Hbody').
  - by apply (reach_lt succs preds G).
  - intros x Hx. apply Hbody in Hx as [->|(s & Hs & Ht)].
    + by apply (gw_succs _ _ G b).
    + eapply back_lt; [by apply (bo_back _ _ B)|by right].
  - cbn [mbind res_bind]. eexists. split; [done|]. split.
    + intros s k [Hs|(-> & -> & _)]; [by apply (bo_back _ _ B)|done].
    + intros k body. destruct (decide (k = h)) as [->|Hne].
      * rewrite lookup_insert_eq. intros [= <-]. split; [exists b; by right|].
        eapply body_ok_ext; [|exact Hbody']. intros s. unfold sources. tauto.
      * rewrite lookup_insert_ne by done. intros Ek. destruct (bo_some _ _ B k body Ek) as [(s & Hs) Hk].
        split; [exists s; by left|]. eapply body_ok_ext; [|exact Hk]. intros s'. tauto.
    + intros k s. destruct (decide (k = h)) as [->|Hne]; [by rewrite lookup_insert_eq|].
      rewrite lookup_insert_ne by done. intros Ek [Hs|(_ & ? & _)]; [by eapply (bo_none _ _ B)|done].
Qed.

Lemma loop_edges_spec (hs : list nat) (E : nat -> nat -> Prop) (b : nat) (bodies : gmap nat (list nat)) :
  bodies_ok E bodies -> reach succs b -> (forall h, h ∈ hs -> edge b h) ->
  exists bodies', loop_edges succs preds idom depth b hs bodies = Ok bodies' /\
    bodies_ok (fun s k => E s k \/ (s = b /\ k ∈ hs /\ back_edge b k)) bodies'.
Proof.
  revert E bodies. induction hs as [|h hs IH]; intros E bodies B Hb Hhs; cbn [loop_edges].
  - exists bodies. split; [done|]. eapply bodies_ok_ext; [|exact B]. intros s k.
    split; [by left|]. intros [?|(_ & Hk & _)]; [done|by apply elem_of_nil in Hk].
  - destruct (loop_edge_spec E b h bodies B Hb ltac:(apply Hhs; left)) as (bodies1 & -> & B1).
    cbn [mbind res_bind]. destruct (IH _ bodies1 B1 Hb) as (bodies2 & E2 & B2).
    { intros k Hk. apply Hhs. by right. }
    exists bodies2. split; [done|]. eapply bodies_ok_ext; [|exact B2]. intros s k.
    rewrite elem_of_cons. split; [intros [[?|(? & ? & ?)]|(? & ? & ?)]; subst; tauto|].
    intros [?|(? & [?|?] & ?)]; subst; tauto.
Qed.

Lemma loop_bodies_spec (bs : list nat) (E : nat -> nat -> Prop) (bodies : gmap nat (list nat)) :
  bodies_ok E bodies -> (forall b, b ∈ bs -> (b < n)%nat) ->
  exists bodies', loop_bodies succs preds idom depth bs bodies = Ok bodies' /\
    bodies_ok (fun s k => E s k \/ (s ∈ bs /\ back_edge s k)) bodies'.
Proof.
  revert E bodies. induction bs as [|b bs IH]; intros E bodies B Hbs; cbn [loop_bodies].
  - exists bodies. split; [done|]. eapply bodies_ok_ext; [|exact B]. intros s k.
    split; [by left|]. intros [?|(Hs & _)]; [done|by apply elem_of_nil in Hs].
  - assert (b < n)%nat as Hb by (apply Hbs; left).
    assert (forall x, x ∈ bs -> (x < n)%nat) as Hbs' by (intros x Hx; apply Hbs; by right).
    destruct (lookup_lt_is_Some_2 idom b) as [d Ed]; [by rewrite (dt_len _ _ _ T)|].
    rewrite (nth_res_Ok _ _ _ Ed). cbn [mbind res_bind]. destruct d as [c|].
    + assert (reach succs b) as Hr by (apply (dt_reach _ _ _ T); by exists c).
      destruct (lookup_lt_is_Some_2 succs b Hb) as [js Ej]. rewrite (nth_res_Ok _ _ _ Ej). cbn [mbind res_bind].
      destruct (loop_edges_spec js E b bodies B Hr) as (bodies1 & -> & B1).
      { intros h Hh. by exists js. }
      cbn [mbind res_bind]. destruct (IH _ bodies1 B1 Hbs') as (bodies2 & E2 & B2).
      exists bodies2. split; [done|]. eapply bodies_ok_ext; [|exact B2]. intros s k. rewrite elem_of_cons.
      split; [intros [[?|(-> & _ & ?)]|[? ?]]; tauto|]. intros [?|[[->|Hs] Hk]]; [tauto| |tauto].
      left. right. split; [done|]. split; [|done]. destruct Hk as (_ & (js' & Ej' & Hk) & _). congruence.
    + destruct (IH E bodies B Hbs') as (bodies2 & E2 & B2). exists bodies2. split; [done|].
      eapply bodies_ok_ext; [|exact B2]. intros s k. rewrite elem_of_cons.
      split; [tauto|]. intros [?|[[->|Hs] Hk]]; [tauto| |tauto].
      destruct Hk as (Hr & _). apply (dt_reach _ _ _ T) in Hr as [c Ec]. congruence.
Qed.

Lemma loop_bodies_total :
  exists bodies, loop_bodies succs preds idom depth (seq 0 n) ∅ = Ok bodies /\ bodies_ok back_edge bodies.
Proof.
  destruct (loop_bodies_spec (seq 0 n) (fun _ _ => False) ∅) as (bodies & E & B).
  - split; [by intros s h|intros h body; by rewrite lookup_empty|intros h s _; tauto].
  - intros b Hb%elem_of_seq. lia.
  - exists bodies. split; [done|]. eapply bodies_ok_ext; [|exact B]. intros s k.
    split; [by intros [?|[_ ?]]|]. intros H. right. split; [|done]. apply elem_of_seq.
    pose proof (reach_lt succs preds G s (proj1 H)). unfold n. lia.
Qed.
End Scan.

(** ** The nest *)

Lemma foldl_alter {A} (f : A -> A) (body : list nat) (l : list A) (b : nat) :
  NoDup body ->
  foldl (fun l b => alter f b l) l body !! b = (fun v => if decide (b ∈ body) then f v else v) <$> l !! b.
Proof.
  revert l. induction body as [|x body IH]; intros l Hnd; cbn [foldl].
  - destruct (l !! b); [|done]. cbn. rewrite decide_False; [done|]. intros H. by apply elem_of_nil in H.
  - apply list.NoDup_cons in Hnd as [Hx Hnd]. rewrite IH by done. destruct (decide (x = b)) as [->|Hne].
    + rewrite list_lookup_alter_eq. destruct (l !! b); [|done]. cbn. f_equal.
      by rewrite decide_False, decide_True by (done || left).
    + rewrite list_lookup_alter_ne by done. destruct (l !! b); [|done]. cbn. f_equal.
      apply decide_ext. rewrite elem_of_cons. split; [by right|intros [?|?]; [congruence|done]].
Qed.

Section Fold.
Context {A : Type} (f : nat -> A -> A) (bodies : gmap nat (list nat)).
Hypothesis Hnd : forall h body, bodies !! h = Some body -> NoDup body.

#[local] Abbreviation body h := (default [] (bodies !! h)).

Definition at_block (b : nat) (v : A) (h : nat) : A := if decide (b ∈ body h) then f h v else v.

Lemma foldl_bodies (headers : list nat) (l : list A) (b : nat) :
  foldl (fun l h => foldl (fun l b => alter (f h) b l) l (body h)) l headers !! b =
  (fun v => foldl (at_block b) v headers) <$> l !! b.
Proof.
  revert l. induction headers as [|h headers IH]; intros l; cbn [foldl]; [by destruct (l !! b)|].
  rewrite IH, foldl_alter by (destruct (bodies !! h) eqn:E; [by eapply Hnd|apply NoDup_nil_2]).
  by destruct (l !! b).
Qed.
End Fold.

(** The number of headers whose body holds a block. *)
Definition loops_around (bodies : gmap nat (list nat)) (b : nat) (headers : list nat) : nat :=
  length (filter (fun h => b ∈ default [] (bodies !! h)) headers).

Lemma loop_depths_at (bodies : gmap nat (list nat)) (headers : list nat) (b : nat) :
  (forall h body, bodies !! h = Some body -> NoDup body) -> (b < n)%nat ->
  loop_depths succs headers bodies !! b = Some (wrap_u 16 (Z.of_nat (loops_around bodies b headers))).
Proof.
  intros Hnd Hb. unfold loop_depths. fold n.
  rewrite (foldl_bodies (fun _ d => wrap_u 16 (d + 1)) bodies Hnd), lookup_replicate_2 by done. cbn. f_equal.
  unfold loops_around. assert (forall k, foldl (at_block (fun _ d => wrap_u 16 (d + 1)) bodies b) (wrap_u 16 k) headers =
    wrap_u 16 (k + Z.of_nat (length (filter (fun h => b ∈ default [] (bodies !! h)) headers)))) as H.
  { induction headers as [|h headers IH]; intros k; cbn [foldl]; [by rewrite Z.add_0_r|].
    unfold at_block at 2. rewrite filter_cons. destruct (decide (b ∈ default [] (bodies !! h))) as [Hin|Hin].
    - assert (wrap_u 16 (wrap_u 16 k + 1) = wrap_u 16 (k + 1)) as -> by (unfold wrap_u; by rewrite Zplus_mod_idemp_l).
      rewrite IH. cbn [length]. f_equal. lia.
    - by rewrite IH. }
  exact (H 0).
Qed.

(** The header of a block: one whose depth none of the others exceeds. *)
Lemma loop_headers_at (bodies : gmap nat (list nat)) (headers : list nat) (depth : list Z) (b : nat) :
  (forall h body, bodies !! h = Some body -> NoDup body) -> (b < n)%nat ->
  exists o, loop_headers_of succs headers bodies depth !! b = Some o /\
    match o with
    | None => forall h, h ∈ headers -> b ∉ default [] (bodies !! h)
    | Some h => h ∈ headers /\ b ∈ default [] (bodies !! h) /\
        forall h', h' ∈ headers -> b ∈ default [] (bodies !! h') -> default 0 (depth !! h') <= default 0 (depth !! h)
    end.
Proof.
  intros Hnd Hb. unfold loop_headers_of. fold n. cbn zeta.
  rewrite (foldl_bodies _ bodies Hnd), lookup_replicate_2 by done. cbn [fmap option_fmap option_map].
  eexists. split; [done|]. induction headers as [|h hs IH] using rev_ind; cbn [foldl].
  { intros h Hh. by apply elem_of_nil in Hh. }
  rewrite foldl_app. cbn [foldl]. unfold at_block at 1.
  destruct (decide (b ∈ default [] (bodies !! h))) as [Hin|Hin].
  - destruct (foldl _ None hs) as [c|].
    + destruct IH as (Hc & Hbc & Hmax). destruct (Z.ltb_spec (default 0 (depth !! c)) (default 0 (depth !! h))) as [Hlt|Hge].
      * split_and!; [apply elem_of_app; right; left|done|].
        intros h' [Hh'| ->%list_elem_of_singleton]%elem_of_app Hb'; [|done]. specialize (Hmax h' Hh' Hb'). lia.
      * split_and!; [apply elem_of_app; by left|done|].
        intros h' [Hh'| ->%list_elem_of_singleton]%elem_of_app Hb'; [by apply Hmax|done].
    + split_and!; [apply elem_of_app; right; left|done|].
      intros h' [Hh'| ->%list_elem_of_singleton]%elem_of_app Hb'; [|done]. by apply IH in Hh'.
  - destruct (foldl _ None hs) as [c|].
    + destruct IH as (Hc & Hbc & Hmax). split_and!; [apply elem_of_app; by left|done|].
      intros h' [Hh'| ->%list_elem_of_singleton]%elem_of_app Hb'; [by apply Hmax|done].
    + intros h' [Hh'| ->%list_elem_of_singleton]%elem_of_app; [by apply IH|done].
Qed.

(** What the nest holds. *)
Record nest_ok (nest : LoopNest) : Prop := {
  no_members : forall h b, (h, b) ∈ ln_members nest <-> in_loop h b;
  no_headers : forall h, h ∈ ln_headers nest <-> in_loop h h;
  no_nodup : NoDup (ln_headers nest);
  no_depth : forall b, (b < n)%nat ->
    ln_depth nest !! b =
      Some (wrap_u 16 (Z.of_nat (length (filter (fun h => (h, b) ∈ ln_members nest) (ln_headers nest)))));
  no_hdr : forall b, (b < n)%nat -> exists o, ln_hdr nest !! b = Some o /\
    match o with
    | None => forall h, ~ in_loop h b
    | Some h => in_loop h b /\
        forall h', in_loop h' b -> default 0 (ln_depth nest !! h') <= default 0 (ln_depth nest !! h)
    end }.

Lemma loops_spec (idom : list (option nat)) (depth : list Z) :
  dom_tree succs idom depth -> exists nest, loops succs preds idom depth = Ok nest /\ nest_ok nest.
Proof.
  intros T. unfold loops. fold n.
  destruct (loop_bodies_total idom depth T) as (bodies & -> & [B1 B2 B3]). cbn [mbind res_bind].
  assert (forall h b, in_loop h b <-> b ∈ default [] (bodies !! h)) as Hin.
  { intros h b. destruct (bodies !! h) as [body|] eqn:E; cbn [default from_option id].
    - destruct (B2 h body E) as [(s & Hs) (_ & _ & Hb)]. rewrite Hb. split.
      + intros (s' & Hs' & [->|Ht]); [by left|right; by exists s'].
      + intros [->|(s' & Hs' & Ht)]; [exists s; tauto|exists s'; tauto].
    - split; [|intros H; by apply elem_of_nil in H]. intros (s & Hs & _). by apply (B3 h s) in E. }
  assert (forall h b, b ∈ default [] (bodies !! h) -> is_Some (bodies !! h)) as Hsome.
  { intros h b. destruct (bodies !! h); [done|]. intros H. by apply elem_of_nil in H. }
  assert (forall h body, bodies !! h = Some body -> NoDup body) as Hnd.
  { intros h body E. apply (B2 h body E). }
  set (headers := sort_list Nat.leb (fst <$> map_to_list bodies)).
  assert (forall h, h ∈ headers <-> is_Some (bodies !! h)) as Hhd.
  { intros h. unfold headers. rewrite sort_list_perm, list_elem_of_fmap. split.
    - intros ([k body] & -> & H%elem_of_map_to_list). by exists body.
    - intros [body H%elem_of_map_to_list]. by exists (h, body). }
  assert (forall h b, (h, b) ∈ mjoin ((fun hb => pair (fst hb) <$> snd hb) <$> map_to_list bodies) <->
    b ∈ default [] (bodies !! h)) as Hmem.
  { intros h b. rewrite list_elem_of_join. split.
    - intros (l & Hb & ([k body] & -> & H%elem_of_map_to_list)%list_elem_of_fmap).
      cbn [fst snd] in Hb. apply list_elem_of_fmap in Hb as (x & [= <- <-] & Hx). by rewrite H.
    - intros H. destruct (Hsome h b H) as [body E]. rewrite E in H. cbn in H. exists (pair h <$> body).
      split; [apply list_elem_of_fmap; by exists b|]. apply list_elem_of_fmap. exists (h, body).
      split; [done|by apply elem_of_map_to_list]. }
  eexists. split; [done|]. split; cbn [ln_members ln_hdr ln_depth ln_headers].
  - intros h b. by rewrite Hmem, Hin.
  - intros h. rewrite Hhd, Hin. split; [|apply Hsome]. intros [body E]. rewrite E. by destruct (B2 h body E) as (_ & _ & ? & _).
  - unfold headers. rewrite sort_list_perm. apply NoDup_fst_map_to_list.
  - intros b Hb. rewrite (loop_depths_at bodies headers b Hnd Hb). do 3 f_equal. unfold loops_around. f_equal.
    apply list_filter_iff. intros h. by rewrite Hmem.
  - intros b Hb. destruct (loop_headers_at bodies headers (loop_depths succs headers bodies) b Hnd Hb) as (o & E & H).
    exists o. split; [done|]. destruct o as [h|].
    + destruct H as (H1 & H2 & H3). split; [by apply Hin|]. intros h' Hh'%Hin. apply H3; [|done].
      by apply Hhd, (Hsome h' b).
    + intros h Hh%Hin. apply (H h); [|done]. by apply Hhd, (Hsome h b).
Qed.
End Loops.

(** * the graph a body yields

    Every successor of a block is a block and the predecessor lists mirror the
    successor lists, so the dominators and the loop nest of the graph exist
    and are the relations of [DomExact] and [LoopSound]. *)

(** ** Sorting *)

Lemma dedup_elem (l : list nat) (x : nat) : x ∈ dedup l <-> x ∈ l.
Proof.
  induction l as [|y l IH]; [done|]. cbn [dedup]. destruct l as [|z l]; [done|].
  destruct (Nat.eqb_spec y z) as [->|Hne].
  - rewrite IH, !elem_of_cons. tauto.
  - rewrite !elem_of_cons, IH, elem_of_cons. tauto.
Qed.

Lemma sort_dedup_elem (l : list nat) (x : nat) : x ∈ sort_dedup l <-> x ∈ l.
Proof. unfold sort_dedup. by rewrite dedup_elem, sort_list_elem. Qed.

Lemma List_filter_elem {A} (p : A -> bool) (l : list A) (x : A) : x ∈ List.filter p l <-> x ∈ l /\ p x = true.
Proof. rewrite !list_elem_of_In. apply filter_In. Qed.

(** ** The lookup of a block *)

Lemma block_of_in (span : list (Z * Z * nat)) (pc : Z) (b : nat) :
  block_of span pc = Some b -> exists s e, (s, e, b) ∈ span /\ pc < e.
Proof.
  unfold block_of. destruct (partition_point _ _) as [|i]; [done|].
  destruct (span !! i) as [[[s e] b']|] eqn:E; [|done]. destruct (Z.ltb_spec pc e); [|done].
  intros [= ->]. exists s, e. split; [by eapply list_elem_of_lookup_2|done].
Qed.

Lemma span_block {A} (f : A -> Z) (g : A -> Z) (cuts : list A) (pc : Z) (b : nat) :
  block_of (sort_list span_le (imap (fun b c => (f c, g c, b)) cuts)) pc = Some b ->
  (b < length cuts)%nat.
Proof.
  intros (s & e & H & _)%block_of_in. apply sort_list_elem in H.
  apply list_elem_of_lookup_1 in H as [i Hi]. rewrite list_lookup_imap in Hi.
  destruct (cuts !! i) eqn:Ec; [|done]. cbn in Hi. injection Hi as _ _ <-. by eapply lookup_lt_Some.
Qed.

(** ** Successors *)

Section Succs.
Context (blk : Z -> option nat) (flow : gmap Z Flow) (segs : list InlineSeg).

Lemma one_elem (t : Z) (x : nat) : x ∈ option_list (blk t) -> exists pc, blk pc = Some x.
Proof.
  destruct (blk t) as [b|] eqn:E; cbn; [|by intros ?%elem_of_nil].
  intros ->%list_elem_of_singleton. by exists t.
Qed.

Lemma ones_elem (ts : list Z) (x : nat) :
  x ∈ mjoin ((fun t => option_list (blk t)) <$> ts) -> exists pc, blk pc = Some x.
Proof. intros (l & Hx & (t & -> & _)%list_elem_of_fmap)%list_elem_of_join. by eapply one_elem. Qed.

Lemma block_succs_in (last : Z * Z) (seg : option nat) (l : list nat) (x : nat) :
  block_succs blk flow segs last seg = Ok l -> x ∈ l -> exists pc, blk pc = Some x.
Proof.
  unfold block_succs. destruct last as [pc len]. cbn zeta. intros H Hx. apply bind_Ok in H as (own & Eo & [= <-]).
  apply sort_dedup_elem, elem_of_app in Hx as [Hx|Hx]; [|by eapply ones_elem].
  destruct (flow !! pc) as [[t|t|ts| |]|]; [| | |destruct seg as [si|]; [destruct (segs !! si)|]| |];
    try (injection Eo as <-); try done;
    try (by eapply one_elem); try (by eapply ones_elem); try (by apply elem_of_nil in Hx).
  apply elem_of_app in Hx as [Hx|Hx]; by eapply one_elem.
Qed.

Lemma all_succs_in (cuts : list (Z * Z * (Z * Z) * option nat)) (succs : list (list nat)) :
  all_succs blk flow segs cuts = Ok succs ->
  length succs = length cuts /\ forall js x, js ∈ succs -> x ∈ js -> exists pc, blk pc = Some x.
Proof.
  revert succs. induction cuts as [|[[[a b] last] seg] cuts IH]; intros succs H; cbn [all_succs] in H.
  - injection H as <-. split; [done|]. intros js x Hj. by apply elem_of_nil in Hj.
  - apply bind_Ok in H as (s & Es & H). apply bind_Ok in H as (rest & Er & [= <-]).
    destruct (IH rest Er) as [Hl Hin]. split; [by cbn; rewrite Hl|].
    intros js x [->|Hj]%elem_of_cons Hx; [by eapply block_succs_in|by eapply Hin].
Qed.

Lemma entry_handlers_in (handlers : list Z) (succs0 : list nat) (x : nat) :
  x ∈ entry_handlers blk handlers succs0 -> x ∈ succs0 \/ exists pc, blk pc = Some x.
Proof.
  unfold entry_handlers. rewrite sort_dedup_elem, elem_of_app. intros [?|[Hx _]%List_filter_elem]; [by left|].
  right. by eapply ones_elem.
Qed.
End Succs.

(** ** Predecessors *)

Lemma preds_of_step (succs : list (list nat)) (a s : nat) : a ∈ preds_of succs s <-> step succs a s.
Proof.
  unfold preds_of, step. rewrite list_elem_of_join. split.
  - intros (l & Ha & Hl). apply list_elem_of_lookup_1 in Hl as [i Hi]. rewrite list_lookup_imap in Hi.
    destruct (succs !! i) as [js|] eqn:Ej; [|done]. injection Hi as <-.
    apply list_elem_of_fmap in Ha as (x & -> & Hx). apply List_filter_elem in Hx as [Hx <-%Nat.eqb_eq].
    by exists js.
  - intros (js & Ej & Hs). exists ((fun _ => a) <$> List.filter (Nat.eqb s) js). split.
    + apply list_elem_of_fmap. exists s. split; [done|]. apply List_filter_elem. split; [done|apply Nat.eqb_refl].
    + apply list_elem_of_lookup_2 with a. by rewrite list_lookup_imap, Ej.
Qed.

(** ** The graph *)

Lemma graph_shape (T : OpTable) (root : Script) (segs : list InlineSeg)
    (blocks : list CfgBlock) (span : list (Z * Z * nat)) :
  graph T root segs = Ok (blocks, span) -> Z.of_nat (length blocks) < 2 ^ 32 ->
  graph_wf (cb_succs <$> blocks) (cb_preds <$> blocks).
Proof.
  unfold graph. intros H Hsz. apply bind_Ok in H as (i0 & _ & H). apply bind_Ok in H as (i & _ & H).
  cbn zeta in H. set (cuts := mjoin _) in H. set (span' := sort_list _ _) in H.
  apply bind_Ok in H as (succs & Es & H). destruct (all_succs_in _ _ _ _ _ Es) as [Hlen Hin].
  destruct succs as [|s0 rest]; [done|]. injection H as Hb _.
  set (succs := entry_handlers _ _ _ :: rest) in Hb.
  assert (length blocks = length cuts) as Hbl by (by rewrite <- Hb, length_imap).
  assert (length succs = length cuts) as Hsl by (rewrite <- Hlen; done).
  assert (cb_succs <$> blocks = succs) as Es'.
  { apply list_eq. intros k. rewrite list_lookup_fmap, <- Hb, list_lookup_imap.
    destruct (cuts !! k) as [c|] eqn:Ec; cbn [fmap option_fmap option_map cb_succs].
    - destruct (lookup_lt_is_Some_2 succs k) as [js Ej]; [rewrite Hsl; by eapply lookup_lt_Some|].
      by rewrite Ej.
    - symmetry. apply lookup_ge_None. rewrite Hsl. by apply lookup_ge_None. }
  assert (forall k ps, (cb_preds <$> blocks) !! k = Some ps -> ps = preds_of succs k) as Ep.
  { intros k ps. rewrite list_lookup_fmap, <- Hb, list_lookup_imap.
    destruct (cuts !! k) as [c|]; [|done]. cbn. by intros [= <-]. }
  rewrite Es'. split.
  - rewrite Hsl, <- Hlen. cbn. lia.
  - by rewrite Hsl, <- Hbl.
  - intros a x (js & Ej & Hx). rewrite Hsl.
    assert (exists pc, block_of span' pc = Some x) as (pc & Hpc); [|exact (span_block (fun c => fst (fst (fst c))) (fun c => snd (fst (fst c))) cuts pc x Hpc)].
    destruct a as [|a]; cbn in Ej.
    + injection Ej as <-. apply entry_handlers_in in Hx as [Hx|Hx]; [|done]. apply (Hin s0); [left|done].
    + apply (Hin js); [|done]. right. by eapply list_elem_of_lookup_2.
  - by rewrite length_fmap, Hbl, Hsl.
  - intros a x ps Eps. rewrite (Ep x ps Eps). apply preds_of_step.
Qed.

(** Once the blocks are cut, the rest of the construction never fails. *)
Lemma cfg_build_spec (T : OpTable) (root : Script) (segs : list InlineSeg)
    (blocks : list CfgBlock) (span : list (Z * Z * nat)) :
  graph T root segs = Ok (blocks, span) -> Z.of_nat (length blocks) < 2 ^ 32 ->
  exists c, cfg_build T root segs = Ok c /\ cfg_blocks c = blocks /\ cfg_span c = span /\
    dom_tree (cb_succs <$> blocks) (cfg_idom c) (cfg_dom_depth c) /\
    nest_ok (cb_succs <$> blocks) (cfg_loops c).
Proof.
  intros H Hsz. pose proof (graph_shape T root segs blocks span H Hsz) as G.
  unfold cfg_build. rewrite H. cbn [mbind res_bind].
  destruct (dominators_spec _ _ G) as (idom & depth & -> & Td). cbn [mbind res_bind].
  destruct (loops_spec _ _ G idom depth Td) as (nest & -> & Nd). cbn [mbind res_bind].
  eexists. split; [done|]. done.
Qed.

(** *** Edges out of a loop *)

Lemma block_of_lt (T : OpTable) (root : Script) (segs : list InlineSeg)
    (blocks : list CfgBlock) (span : list (Z * Z * nat)) (pc : Z) (b : nat) :
  graph T root segs = Ok (blocks, span) -> block_of span pc = Some b -> (b < length blocks)%nat.
Proof.
  unfold graph. intros H Hb. apply bind_Ok in H as (i0 & _ & H). apply bind_Ok in H as (i & _ & H).
  cbn zeta in H. apply bind_Ok in H as (succs & _ & H). destruct succs as [|s0 rest]; [done|].
  injection H as <- <-. rewrite length_imap. exact (span_block (fun c => fst (fst (fst c))) (fun c => snd (fst (fst c))) _ pc b Hb).
Qed.

Lemma cfg_build_graph (T : OpTable) (root : Script) (segs : list InlineSeg) (c : Cfg) :
  cfg_build T root segs = Ok c -> graph T root segs = Ok (cfg_blocks c, cfg_span c).
Proof.
  unfold cfg_build. intros H. apply bind_Ok in H as ([blocks span] & -> & H). cbn zeta in H.
  apply bind_Ok in H as ([idom depth] & _ & H). by apply bind_Ok in H as (nest & _ & [= <-]).
Qed.
