(* ===== verification/Contexts.v ===== *)
(** * Contexts: interned names and interned call strings

    [compiler/src/ids.rs]'s name interner and [likelier/calls.rs]'s context
    interner: a context is an index into a table of frames whose parent links
    spell a bounded call string. *)

From S2P Require Import Prelude OpSem Facts Types Engine.

(** ** Names *)

Record Names := mkNames { by_val : gmap (list Z) nat; vals : list (list Z) }.

Definition names_default : Names := mkNames ∅ [].

(** [None]: the table is full and the conversion to [u32] panics. *)
Definition intern (n : Names) (chars : list Z) : option (Names * nat) :=
  match by_val n !! chars with
  | Some id => Some (n, id)
  | None =>
      if Z.of_nat (length (vals n)) <? 2 ^ 32 then
        Some (mkNames (<[chars := length (vals n)]> (by_val n)) (vals n ++ [chars]), length (vals n))
      else None
  end.

Definition name_get (n : Names) (id : nat) : option (list Z) := vals n !! id.
Definition name_lookup (n : Names) (chars : list Z) : option nat := by_val n !! chars.

(** ** Contexts *)

Record CtxFrame := mkCtxFrame { cf_parent : CtxId; cf_callee : option ScriptId; cf_depth : Z }.

Record Ctxs := mkCtxs {
  frames : list CtxFrame;
  ids : gmap (CtxId * (ScriptId * Z) * ScriptId) CtxId;
  depth_cap : Z;
  callee_cap : Z;
  budget : Z }.

Definition CTX_DEPTH_CAP : Z := 8.
Definition CALLEE_CAP : Z := 4.
Definition CTX_BUDGET : Z := 50000.

Definition ctxs_new : Ctxs := mkCtxs [mkCtxFrame CTX0 None 0] ∅ CTX_DEPTH_CAP CALLEE_CAP CTX_BUDGET.

(** The counters [push] and [enter] touch. *)
Record Stats := mkStats {
  ctxs_spent : Z;
  degraded_polymorphic : Z;
  degraded_depth : Z;
  degraded_recursion : Z;
  degraded_budget : Z }.

Definition tick_polymorphic (s : Stats) : Stats :=
  mkStats (ctxs_spent s) (degraded_polymorphic s + 1) (degraded_depth s) (degraded_recursion s) (degraded_budget s).
Definition tick_depth (s : Stats) : Stats :=
  mkStats (ctxs_spent s) (degraded_polymorphic s) (degraded_depth s + 1) (degraded_recursion s) (degraded_budget s).
Definition tick_recursion (s : Stats) : Stats :=
  mkStats (ctxs_spent s) (degraded_polymorphic s) (degraded_depth s) (degraded_recursion s + 1) (degraded_budget s).
Definition tick_budget (s : Stats) : Stats :=
  mkStats (ctxs_spent s) (degraded_polymorphic s) (degraded_depth s) (degraded_recursion s) (degraded_budget s + 1).
Definition tick_spent (s : Stats) : Stats :=
  mkStats (ctxs_spent s + 1) (degraded_polymorphic s) (degraded_depth s) (degraded_recursion s) (degraded_budget s).

(** The walk up the call string for a frame that entered [callee]: [Some None]
    when there is none, [None] out of fuel or out of range. *)
Fixpoint find_entered (fuel : nat) (fs : list CtxFrame) (callee : ScriptId) (cur : CtxId) : option (option CtxId) :=
  if bool_decide (cur = CTX0) then Some None
  else
    match fuel with
    | O => None
    | S fuel =>
        match fs !! cur with
        | None => None
        | Some f =>
            if bool_decide (cf_callee f = Some callee) then Some (Some cur)
            else find_entered fuel fs callee (cf_parent f)
        end
    end.

Definition push (c : Ctxs) (ctx : CtxId) (site : ScriptId * Z) (callee : ScriptId) (stats : Stats)
    : option (Ctxs * Stats * CtxId) :=
  match find_entered (length (frames c)) (frames c) callee ctx, frames c !! ctx with
  | Some (Some cur), _ => Some (c, tick_recursion stats, cur)
  | Some None, Some f =>
      if depth_cap c <=? cf_depth f then Some (c, tick_depth stats, CTX0)
      else if budget c <=? ctxs_spent stats then Some (c, tick_budget stats, CTX0)
      else
        match ids c !! (ctx, site, callee) with
        | Some cx => Some (c, stats, cx)
        | None =>
            let cx := length (frames c) in
            if Z.of_nat cx <? 2 ^ 32 then
              Some (mkCtxs (frames c ++ [mkCtxFrame ctx (Some callee) (cf_depth f + 1)])
                      (<[(ctx, site, callee) := cx]> (ids c)) (depth_cap c) (callee_cap c) (budget c), stats, cx)
            else None
        end
  | _, _ => None
  end.

(** The solver's part that entering a callee reads and writes. *)
Record CallState := mkCallState { cs_ctxs : Ctxs; cs_stats : Stats; cs_engine : Engine }.

Definition enter (st : CallState) (ctx : CtxId) (script : ScriptId) (pc : Z) (f : ScriptId) (poly : bool)
    : option (CallState * CtxId) :=
  let minted :=
    if poly then Some (cs_ctxs st, tick_polymorphic (cs_stats st), CTX0)
    else push (cs_ctxs st) ctx (script, pc) f (cs_stats st) in
  match minted with
  | None => None
  | Some (cs, stats, cx) =>
      let '(e, fresh) := instantiate (cs_engine st) f cx in
      let stats := if fresh && negb (bool_decide (cx = CTX0)) then tick_spent stats else stats in
      Some (mkCallState cs stats e, cx)
  end.

(** [eval_call]'s dispatch over a closed table of functions: the site mints at
    the generic context and binds nothing when the budget refuses. *)
Definition enter_refusing (st : CallState) (script : ScriptId) (pc : Z) (f : ScriptId)
    : option (CallState * option CtxId) :=
  match push (cs_ctxs st) CTX0 (script, pc) f (cs_stats st) with
  | None => None
  | Some (cs, stats, cx) =>
      if bool_decide (cx = CTX0) then Some (mkCallState cs stats (cs_engine st), None)
      else
        let '(e, fresh) := instantiate (cs_engine st) f cx in
        Some (mkCallState cs (if fresh then tick_spent stats else stats) e, Some cx)
  end.

Definition enter_sites (c : Ctxs) (cx : CtxId) : list (ScriptId * Z) :=
  (fun x => snd (fst (fst x))) <$> List.filter (fun x => bool_decide (snd x = cx)) (map_to_list (ids c)).
