(* ===== verification/ContextsSound.v ===== *)
(** * ContextsSound: names are a bijection, contexts are bounded call strings

    The interner's tables are inverse to each other. Every reachable context
    spells a call string without repeated callees, no longer than the depth
    cap; every context was charged to the budget, so the table never outgrows
    it and never panics. *)

From S2P Require Import Prelude OpSem Facts Types Engine Contexts.
Open Scope nat_scope.

(** ** Names *)

Record names_wf (n : Names) : Prop := {
  nw_inverse : forall chars id, by_val n !! chars = Some id <-> vals n !! id = Some chars }.

Lemma names_default_wf : names_wf names_default.
Proof. split. intros chars id. cbn. rewrite lookup_empty. split; [done|]. by rewrite lookup_nil. Qed.

Lemma intern_spec (n n' : Names) (chars : list Z) (id : nat) :
  names_wf n -> intern n chars = Some (n', id) ->
  names_wf n' /\ name_get n' id = Some chars /\ name_lookup n' chars = Some id /\
  vals n `prefix_of` vals n' /\ (forall k, name_lookup n chars = Some k -> n' = n /\ id = k).
Proof.
  intros [Hw]. unfold intern, name_get, name_lookup. destruct (by_val n !! chars) as [k|] eqn:E.
  { intros [= <- <-]. split_and!; [by split|by apply Hw|done|done|]. by intros ? [= <-]. }
  destruct (_ <? _)%Z; [|done]. intros [= <- <-]. cbn [by_val vals]. split_and!; [|by rewrite lookup_app_r, Nat.sub_diag|by rewrite lookup_insert_eq|by apply prefix_app_r|done].
  split. intros c i. cbn [by_val vals]. destruct (decide (chars = c)) as [<-|Hne].
  - rewrite lookup_insert_eq. split; [intros [= <-]; by rewrite lookup_app_r, Nat.sub_diag|].
    intros [Hi|[Hi1 Hi2]]%lookup_app_Some; [apply Hw in Hi; congruence|]. apply list_lookup_singleton_Some in Hi2 as [? _].
    f_equal. lia.
  - rewrite lookup_insert_ne by done. rewrite Hw. split.
    + intros H. by apply lookup_app_l_Some.
    + intros [Hi|[_ Hi]]%lookup_app_Some; [done|]. apply list_lookup_singleton_Some in Hi as [_ ?]. congruence.
Qed.

Lemma intern_all_spec (l : list (list Z)) (n : Names) :
  foldl (fun n c => n ← n; fst <$> intern n c) (Some names_default) l = Some n ->
  names_wf n /\ forall c, c ∈ l -> is_Some (name_lookup n c).
Proof.
  revert n. induction l as [|c l IH] using rev_ind; intros n.
  { cbn. intros [= <-]. split; [apply names_default_wf|]. intros c Hc. by apply elem_of_nil in Hc. }
  rewrite foldl_snoc. intros (n0 & E0 & ([n1 id] & E1 & [= <-])%fmap_Some)%bind_Some.
  destruct (IH _ E0) as [Hw Hl]. destruct (intern_spec _ _ _ _ Hw E1) as (Hw' & _ & H2 & H3 & _). split; [done|].
  intros c' [Hc| ->%list_elem_of_singleton]%elem_of_app; [|by exists id].
  destruct (Hl c' Hc) as [k Hk]. exists k. apply nw_inverse; [done|]. apply (nw_inverse _ Hw) in Hk.
  destruct H3 as [r E]. rewrite E. by apply lookup_app_l_Some.
Qed.

(** ** Call strings *)

(** The callees from a context up to the generic one. *)
Fixpoint call_string (fuel : nat) (fs : list CtxFrame) (cx : CtxId) : list ScriptId :=
  if bool_decide (cx = CTX0) then []
  else
    match fuel, fs !! cx with
    | S fuel, Some f => match cf_callee f with Some s => [s] | None => [] end ++ call_string fuel fs (cf_parent f)
    | _, _ => []
    end.

Record frames_wf (cap : Z) (fs : list CtxFrame) : Prop := {
  fw_generic : fs !! 0 = Some (mkCtxFrame CTX0 None 0);
  fw_frame : forall i f, fs !! i = Some f -> i <> 0 ->
    cf_parent f < i /\ (1 <= cf_depth f <= cap)%Z /\
    (exists p, fs !! cf_parent f = Some p /\ cf_depth f = (cf_depth p + 1)%Z) /\
    exists s, cf_callee f = Some s /\ s ∉ call_string (cf_parent f) fs (cf_parent f) }.

Lemma find_entered_spec (cap : Z) (fs : list CtxFrame) (callee : ScriptId) (fuel : nat) (cur : CtxId) :
  frames_wf cap fs -> cur < length fs -> cur <= fuel ->
  exists r, find_entered fuel fs callee cur = Some r /\
    match r with
    | Some cx => cx <> 0 /\ cx <= cur /\ (exists f, fs !! cx = Some f /\ cf_callee f = Some callee)
    | None => callee ∉ call_string fuel fs cur
    end.
Proof.
  intros Hw. revert cur. induction fuel as [|fuel IH]; intros cur Hl Hf.
  - assert (cur = 0) as -> by lia. exists None. split; [done|]. cbn. apply not_elem_of_nil.
  - cbn [find_entered call_string]. destruct (bool_decide_reflect (cur = CTX0)) as [->|Hne].
    { exists None. split; [done|]. apply not_elem_of_nil. }
    destruct (lookup_lt_is_Some_2 fs cur Hl) as [f E]. rewrite E.
    destruct (fw_frame _ _ Hw cur f E Hne) as (Hp & _ & _ & s & Es & _). rewrite Es.
    destruct (bool_decide_reflect (Some s = Some callee)) as [[= ->]|Hs].
    + exists (Some cur). split; [done|]. split_and!; [done|done|]. by exists f.
    + destruct (IH (cf_parent f)) as (r & -> & Hr); [lia|lia|]. exists r. split; [done|]. destruct r as [cx|].
      * destruct Hr as (H1 & H2 & H3). split_and!; [done|lia|done].
      * cbn [app]. apply not_elem_of_cons. split; [congruence|done].
Qed.

Lemma call_string_fuel (cap : Z) (fs : list CtxFrame) (fuel fuel' : nat) (cx : CtxId) :
  frames_wf cap fs -> cx <= fuel -> cx <= fuel' -> call_string fuel fs cx = call_string fuel' fs cx.
Proof.
  intros Hw. revert fuel fuel'. induction cx as [cx IH] using lt_wf_ind. intros [|fuel] [|fuel'] H1 H2;
    try (assert (cx = 0) as -> by lia; done).
  cbn [call_string]. destruct (bool_decide_reflect (cx = CTX0)) as [|Hne]; [done|].
  destruct (fs !! cx) as [f|] eqn:E; [|done]. destruct (fw_frame _ _ Hw cx f E Hne) as (Hp & _).
  f_equal. apply IH; lia.
Qed.

Lemma call_string_snoc (cap : Z) (fs : list CtxFrame) (f : CtxFrame) (fuel : nat) (cx : CtxId) :
  frames_wf cap fs -> cx < length fs -> call_string fuel (fs ++ [f]) cx = call_string fuel fs cx.
Proof.
  intros Hw. revert cx. induction fuel as [|fuel IH]; intros cx Hl; [done|]. cbn [call_string].
  destruct (bool_decide_reflect (cx = CTX0)) as [|Hne]; [done|]. rewrite lookup_app_l by done.
  destruct (fs !! cx) as [g|] eqn:E; [|done]. destruct (fw_frame _ _ Hw cx g E Hne) as (Hp & _).
  f_equal. apply IH. lia.
Qed.

Lemma find_entered_snoc (cap : Z) (fs : list CtxFrame) (g : CtxFrame) (callee : ScriptId) (fuel fuel' : nat) (cur : CtxId) :
  frames_wf cap fs -> cur < length fs -> cur <= fuel -> cur <= fuel' ->
  find_entered fuel' (fs ++ [g]) callee cur = find_entered fuel fs callee cur.
Proof.
  intros Hw. revert fuel fuel'. induction cur as [cur IH] using lt_wf_ind. intros [|fuel] [|fuel'] Hl H1 H2;
    try (assert (cur = 0) as -> by lia; done).
  cbn [find_entered]. destruct (bool_decide_reflect (cur = CTX0)) as [|Hne]; [done|]. rewrite lookup_app_l by done.
  destruct (fs !! cur) as [f|] eqn:E; [|done]. destruct (fw_frame _ _ Hw cur f E Hne) as (Hp & _).
  destruct (bool_decide _); [done|]. apply IH; lia.
Qed.

(** A context's own call string: no callee twice, as long as its depth. *)
Lemma call_string_props (cap : Z) (fs : list CtxFrame) (cx : CtxId) (f : CtxFrame) :
  frames_wf cap fs -> fs !! cx = Some f ->
  NoDup (call_string cx fs cx) /\ Z.of_nat (length (call_string cx fs cx)) = cf_depth f.
Proof.
  intros Hw. revert f. induction cx as [cx IH] using lt_wf_ind. intros f E. destruct (decide (cx = 0)) as [->|Hne].
  { rewrite (fw_generic _ _ Hw) in E. injection E as <-. split; [constructor|done]. }
  destruct (fw_frame _ _ Hw cx f E Hne) as (Hp & _ & (p & Ep & Ed) & s & Es & Hs).
  destruct (IH (cf_parent f) Hp p Ep) as [I1 I2]. destruct cx as [|cx]; [done|].
  cbn [call_string]. rewrite bool_decide_false by done. rewrite E, Es. cbn [app length].
  rewrite (call_string_fuel cap fs cx (cf_parent f)) by (done || lia). split; [by constructor|lia].
Qed.

(** ** The table *)

Record ctxs_wf (c : Ctxs) : Prop := {
  cx_frames : frames_wf (depth_cap c) (frames c);
  cx_ids : forall p site s cx, ids c !! (p, site, s) = Some cx ->
    cx <> 0 /\ exists d, frames c !! cx = Some (mkCtxFrame p (Some s) d);
  cx_inj : forall k k' cx, ids c !! k = Some cx -> ids c !! k' = Some cx -> k = k';
  cx_fits : (0 <= budget c < 2 ^ 32 - 1)%Z;
  cx_cap : (0 <= depth_cap c)%Z }.

Lemma ctxs_new_wf : ctxs_wf ctxs_new.
Proof.
  split; cbn; try (intros; rewrite lookup_empty in *; congruence); try done.
  split; [done|]. intros [|[|i]] f; cbn; done.
Qed.

Lemma frames_wf_snoc (cap : Z) (fs : list CtxFrame) (ctx : CtxId) (f : CtxFrame) (s : ScriptId) :
  frames_wf cap fs -> fs !! ctx = Some f -> (cf_depth f < cap)%Z -> s ∉ call_string ctx fs ctx ->
  frames_wf cap (fs ++ [mkCtxFrame ctx (Some s) (cf_depth f + 1)]).
Proof.
  intros Hw E Hd Hs. pose proof (lookup_lt_Some _ _ _ E) as Hl. split.
  { apply lookup_app_l_Some, Hw. }
  intros i g [Hi|[Hi1 Hi2]]%lookup_app_Some Hne.
  - destruct (fw_frame _ _ Hw i g Hi Hne) as (H1 & H2 & (p & H3 & H4) & t & H5 & H6). pose proof (lookup_lt_Some _ _ _ Hi).
    split_and!; [done|lia|lia| |].
    + exists p. split; [by apply lookup_app_l_Some|done].
    + exists t. split; [done|]. rewrite (call_string_snoc cap) by (done || lia). done.
  - apply list_lookup_singleton_Some in Hi2 as [Hi2 <-]. cbn [cf_parent cf_depth cf_callee].
    assert (0 <= cf_depth f)%Z.
    { destruct (decide (ctx = 0)) as [->|Hc]; [rewrite (fw_generic _ _ Hw) in E; by injection E as <-|].
      destruct (fw_frame _ _ Hw ctx f E Hc) as (_ & ? & _). lia. }
    split_and!; [lia|lia|lia| |].
    + exists f. split; [by apply lookup_app_l_Some|done].
    + exists s. split; [done|]. rewrite (call_string_snoc cap) by (done || lia). done.
Qed.

(** What a push returns: the generic context, a context of the string that
    entered the callee, or a child of [ctx] that does. *)
Lemma push_spec (c : Ctxs) (ctx : CtxId) (site : ScriptId * Z) (callee : ScriptId) (stats : Stats) :
  ctxs_wf c -> ctx < length (frames c) -> (Z.of_nat (length (frames c)) - 1 <= budget c)%Z ->
  exists c' stats' cx, push c ctx site callee stats = Some (c', stats', cx) /\
    ctxs_wf c' /\ ctxs_spent stats' = ctxs_spent stats /\ budget c' = budget c /\ depth_cap c' = depth_cap c /\
    cx < length (frames c') /\
    (cx = CTX0 \/ exists f, frames c' !! cx = Some f /\ cf_callee f = Some callee) /\
    (c' = c \/ (cx = length (frames c) /\ length (frames c') = S (length (frames c)) /\ (ctxs_spent stats < budget c)%Z)) /\
    exists stats'', push c' ctx site callee stats' = Some (c', stats'', cx).
Proof.
  intros Hw Hl Hb. pose proof Hw as [W1 W2 W3 W4 W5]. unfold push.
  destruct (find_entered_spec _ _ callee (length (frames c)) ctx W1 Hl) as (r & Er & Hr); [lia|]. rewrite Er.
  destruct (lookup_lt_is_Some_2 _ _ Hl) as [f E]. rewrite E. destruct r as [cur|].
  { destruct Hr as (H1 & H2 & H3). do 3 eexists. split; [done|]. split_and!; [done|done|done|done|lia|by right|by left|].
    rewrite Er. by eexists. }
  assert (0 < length (frames c)) by lia.
  destruct (Z.leb_spec (depth_cap c) (cf_depth f)) as [Hd|Hd].
  { do 3 eexists. split; [done|]. split_and!; [done|done|done|done|done|by left|by left|].
    rewrite Er, E, (proj2 (Z.leb_le _ _)) by done. by eexists. }
  destruct (Z.leb_spec (budget c) (ctxs_spent stats)) as [Hs|Hs].
  { do 3 eexists. split; [done|]. split_and!; [done|done|done|done|done|by left|by left|].
    rewrite Er, E, (proj2 (Z.leb_gt _ _)) by done. cbn. rewrite (proj2 (Z.leb_le _ _)) by done. by eexists. }
  destruct (ids c !! (ctx, site, callee)) as [cx|] eqn:Ei.
  { destruct (W2 _ _ _ _ Ei) as (Hne & d & Ef). pose proof (lookup_lt_Some _ _ _ Ef).
    do 3 eexists. split; [done|]. split_and!; [done|done|done|done|done|right; by eexists|by left|].
    rewrite Er, E, (proj2 (Z.leb_gt _ _)), (proj2 (Z.leb_gt _ _)), Ei by done. by eexists. }
  destruct (Z.ltb_spec (Z.of_nat (length (frames c))) (2 ^ 32)); [|lia].
  assert (callee ∉ call_string ctx (frames c) ctx) as Hnot.
  { rewrite (call_string_fuel _ _ _ (length (frames c)) ctx W1) by lia. done. }
  pose proof (frames_wf_snoc _ _ ctx f callee W1 E Hd Hnot) as W1'.
  set (c' := mkCtxs _ _ _ _ _). assert (ctxs_wf c') as Hw'.
  { split; [exact W1'| | |exact W4|exact W5]; cbn [frames ids c'].
    - intros p st s cx. rewrite lookup_insert_Some. intros [[[= <- <- <-] <-]|[_ Hi]].
      + split; [lia|]. exists (cf_depth f + 1)%Z. by rewrite lookup_app_r, Nat.sub_diag.
      + destruct (W2 _ _ _ _ Hi) as (? & d & Hf). split; [done|]. exists d. by apply lookup_app_l_Some.
    - assert (forall k cx, ids c !! k = Some cx -> cx < length (frames c)) as Hlt.
      { intros [[p st] s] cx Hi. destruct (W2 _ _ _ _ Hi) as (_ & d & Hf). by apply lookup_lt_Some in Hf. }
      intros k k' cx. rewrite !lookup_insert_Some. intros [[<- <-]|[_ H1]] [[<- H2]|[_ H2]]; [done| | |by apply (W3 k k' cx)].
      + apply Hlt in H2. lia.
      + subst cx. apply Hlt in H1. lia. }
  do 3 eexists. split; [done|]. split_and!; [done|done|done|done| | | |].
  - cbn. rewrite length_app. cbn. lia.
  - right. eexists. split; [cbn; by rewrite lookup_app_r, Nat.sub_diag|done].
  - right. cbn. rewrite length_app. cbn. split_and!; [done|lia|done].
  - cbn [frames c']. rewrite (find_entered_snoc _ _ _ callee (length (frames c)) _ ctx W1 Hl), Er by
      (rewrite ?length_app; cbn; lia).
    rewrite lookup_app_l, E by done. cbn [depth_cap budget ids c'].
    rewrite (proj2 (Z.leb_gt _ _)), (proj2 (Z.leb_gt _ _)), lookup_insert_eq by done. by eexists.
Qed.

(** ** Runs *)

(** Entries from live contexts: the binding of a call, and of an escaped
    dispatch that binds nothing when the table refuses. *)
Inductive ctx_step : CallState -> CallState -> Prop :=
  | step_enter st ctx script pc f poly st' cx :
      ctx < length (frames (cs_ctxs st)) -> enter st ctx script pc f poly = Some (st', cx) -> ctx_step st st'
  | step_refusing st script pc f st' r :
      enter_refusing st script pc f = Some (st', r) -> ctx_step st st'
  | step_generic st script : ctx_step st (mkCallState (cs_ctxs st) (cs_stats st) (fst (instantiate (cs_engine st) script CTX0))).

Definition initial_calls (e : Engine) : CallState := mkCallState ctxs_new (mkStats 0 0 0 0 0) e.

Record calls_wf (st : CallState) : Prop := {
  ca_ctxs : ctxs_wf (cs_ctxs st);
  ca_budget : budget (cs_ctxs st) = CTX_BUDGET /\ depth_cap (cs_ctxs st) = CTX_DEPTH_CAP;
  (** Every context was charged, none past the budget. *)
  ca_spent : (Z.of_nat (length (frames (cs_ctxs st))) - 1 <= ctxs_spent (cs_stats st))%Z;
  ca_bound : (Z.of_nat (length (frames (cs_ctxs st))) - 1 <= budget (cs_ctxs st))%Z;
  ca_live : forall s cs cx, live_ctxs (cs_engine st) !! s = Some cs -> cx ∈ cs -> cx < length (frames (cs_ctxs st)) }.

Lemma instantiate_live (e : Engine) (f : ScriptId) (cx : CtxId) (s : ScriptId) (cs : list CtxId) (x : CtxId) :
  live_ctxs (fst (instantiate e f cx)) !! s = Some cs -> x ∈ cs ->
  x = cx \/ exists cs', live_ctxs e !! s = Some cs' /\ x ∈ cs'.
Proof.
  assert (forall us e, live_ctxs (enqueue_all e us) = live_ctxs e) as Hq.
  { intros us. unfold enqueue_all. induction us as [|u us IH]; intros e'; [done|]. cbn [fold_left]. rewrite IH.
    unfold enqueue. by destruct (bool_decide _). }
  assert (forall l, live_ctxs e !! f = l -> forall k, x ∈ default [] l ++ k -> x ∈ k \/ exists cs', live_ctxs e !! f = Some cs' /\ x ∈ cs') as Hd.
  { intros [l|] El k [Hx|Hx]%elem_of_app; [right; by exists l|by left|by apply elem_of_nil in Hx|by left]. }
  unfold instantiate. destruct (bool_decide_reflect (cx ∈ default [] (live_ctxs e !! f))) as [Hin|Hin]; cbn [fst].
  - cbn. rewrite lookup_insert_Some. intros [[<- <-]|[_ Hs]] Hx; [|right; by exists cs].
    right. destruct (live_ctxs e !! f) as [l|]; [by exists l|by apply elem_of_nil in Hx].
  - assert (live_ctxs (fst match script_cons (set_live e (<[f:=default [] (live_ctxs e !! f) ++ [cx]]> (live_ctxs e))) !! f with
        | Some cs => (enqueue_all (set_live e (<[f:=default [] (live_ctxs e !! f) ++ [cx]]> (live_ctxs e))) ((fun c => (c, cx)) <$> cs), true)
        | None => (set_live e (<[f:=default [] (live_ctxs e !! f) ++ [cx]]> (live_ctxs e)), true) end) =
      <[f:=default [] (live_ctxs e !! f) ++ [cx]]> (live_ctxs e)) as ->.
    { destruct (script_cons _ !! f); cbn [fst]; [by rewrite Hq|done]. }
    rewrite lookup_insert_Some. intros [[<- <-]|[_ Hs]] Hx; [|right; by exists cs].
    destruct (Hd _ eq_refl _ Hx) as [Hk|Hk]; [left; by apply list_elem_of_singleton in Hk|by right].
Qed.

Lemma instantiate_fresh (e : Engine) (f : ScriptId) (cx : CtxId) :
  cx ∉ default [] (live_ctxs e !! f) -> snd (instantiate e f cx) = true.
Proof.
  intros H. unfold instantiate. rewrite bool_decide_false by done. by destruct (script_cons _ !! f).
Qed.

(** What minting and instantiating keeps. *)
Lemma calls_wf_minted (st : CallState) (c' : Ctxs) (stats stats' : Stats) (cx : CtxId) (f : ScriptId) :
  calls_wf st -> ctxs_wf c' -> ctxs_spent stats = ctxs_spent (cs_stats st) ->
  budget c' = budget (cs_ctxs st) -> depth_cap c' = depth_cap (cs_ctxs st) -> cx < length (frames c') ->
  (c' = cs_ctxs st \/ (cx = length (frames (cs_ctxs st)) /\ length (frames c') = S (length (frames (cs_ctxs st))) /\
    (ctxs_spent (cs_stats st) < budget (cs_ctxs st))%Z)) ->
  (snd (instantiate (cs_engine st) f cx) = true -> cx <> CTX0 -> ctxs_spent stats' = (ctxs_spent stats + 1)%Z) ->
  (ctxs_spent stats <= ctxs_spent stats')%Z ->
  calls_wf (mkCallState c' stats' (fst (instantiate (cs_engine st) f cx))).
Proof.
  intros [C1 [C2 C2'] C3 C4 C5] W Es Eb Ed Hcx Hm Ht Hle. split; cbn [cs_ctxs cs_stats cs_engine].
  - done.
  - by rewrite Eb, Ed.
  - destruct Hm as [->|(-> & El & Hs)]; [lia|]. rewrite Ht; [lia| |].
    + apply instantiate_fresh. intros Hin. destruct (live_ctxs (cs_engine st) !! f) as [l|] eqn:El'; [|by apply elem_of_nil in Hin].
      apply (C5 f l _ El') in Hin. lia.
    + pose proof (lookup_lt_Some _ _ _ (fw_generic _ _ (cx_frames _ C1))). unfold CTX0. lia.
  - rewrite Eb. destruct Hm as [->|(-> & El & Hs)]; lia.
  - intros s cs x H Hx. destruct (instantiate_live _ _ _ _ _ _ H Hx) as [->|(cs' & H' & Hx')]; [done|].
    apply (C5 s cs' x H') in Hx'. destruct Hm as [->|(_ & El & _)]; lia.
Qed.

Lemma enter_total (st : CallState) (ctx : CtxId) (script : ScriptId) (pc : Z) (f : ScriptId) (poly : bool) :
  calls_wf st -> ctx < length (frames (cs_ctxs st)) ->
  exists st' cx, enter st ctx script pc f poly = Some (st', cx) /\ calls_wf st' /\ cx < length (frames (cs_ctxs st')) /\
    (cx = CTX0 \/ exists g, frames (cs_ctxs st') !! cx = Some g /\ cf_callee g = Some f).
Proof.
  intros Hw Hl. pose proof Hw as [C1 C2 C3 C4 C5].
  assert (exists c' stats cx, (if poly then Some (cs_ctxs st, tick_polymorphic (cs_stats st), CTX0)
      else push (cs_ctxs st) ctx (script, pc) f (cs_stats st)) = Some (c', stats, cx) /\
    ctxs_wf c' /\ ctxs_spent stats = ctxs_spent (cs_stats st) /\ budget c' = budget (cs_ctxs st) /\
    depth_cap c' = depth_cap (cs_ctxs st) /\ cx < length (frames c') /\
    (cx = CTX0 \/ exists g, frames c' !! cx = Some g /\ cf_callee g = Some f) /\
    (c' = cs_ctxs st \/ (cx = length (frames (cs_ctxs st)) /\ length (frames c') = S (length (frames (cs_ctxs st))) /\
      (ctxs_spent (cs_stats st) < budget (cs_ctxs st))%Z))) as (c' & stats & cx & Em & P1 & P2 & P3 & P4 & P5 & P6 & P7).
  { destruct poly.
    - do 3 eexists. split; [done|]. split_and!; try done; [unfold CTX0; lia|by left|by left].
    - destruct (push_spec _ _ (script, pc) f (cs_stats st) C1 Hl C4) as (c' & s' & cx & E & H1 & H2 & H3 & H4 & H5 & H6 & H7 & _).
      exists c', s', cx. by split_and!. }
  unfold enter. rewrite Em. destruct (instantiate (cs_engine st) f cx) as [e fresh] eqn:Ei.
  do 2 eexists. split; [done|]. cbn [cs_ctxs]. split_and!; [|done|done].
  replace e with (fst (instantiate (cs_engine st) f cx)) by by rewrite Ei.
  apply (calls_wf_minted st c' stats _ cx f); try done; rewrite ?Ei; cbn [snd].
  - intros -> Hne. cbn [andb]. by rewrite bool_decide_false.
  - destruct (fresh && _); cbn; lia.
Qed.

Lemma enter_refusing_total (st : CallState) (script : ScriptId) (pc : Z) (f : ScriptId) :
  calls_wf st -> exists st' r, enter_refusing st script pc f = Some (st', r) /\ calls_wf st'.
Proof.
  intros Hw. pose proof Hw as [C1 C2 C3 C4 C5].
  pose proof (lookup_lt_Some _ _ _ (fw_generic _ _ (cx_frames _ C1))) as Hl.
  destruct (push_spec _ CTX0 (script, pc) f (cs_stats st) C1 Hl C4) as (c' & s' & cx & E & H1 & H2 & H3 & H4 & H5 & H6 & H7 & _).
  unfold enter_refusing. rewrite E. destruct (bool_decide_reflect (cx = CTX0)) as [->|Hne].
  - do 2 eexists. split; [done|]. destruct H7 as [->|(Hc & _)]; [|unfold CTX0 in Hc; lia].
    split; cbn [cs_ctxs cs_stats cs_engine]; try done. lia.
  - destruct (instantiate (cs_engine st) f cx) as [e fresh] eqn:Ei. do 2 eexists. split; [done|].
    replace e with (fst (instantiate (cs_engine st) f cx)) by by rewrite Ei.
    apply (calls_wf_minted st c' s' _ cx f); try done; rewrite ?Ei; cbn [snd]; [by intros -> _|destruct fresh; cbn; lia].
Qed.

Lemma ctx_step_wf (st st' : CallState) : calls_wf st -> ctx_step st st' -> calls_wf st'.
Proof.
  intros Hw Hs. destruct Hs as [st ctx script pc f poly st' cx Hl E|st script pc f st' r E|st script].
  - destruct (enter_total st ctx script pc f poly Hw Hl) as (st1 & cx1 & E' & H1 & _). by simplify_eq.
  - destruct (enter_refusing_total st script pc f Hw) as (st1 & r1 & E' & H1). by simplify_eq.
  - pose proof Hw as [C1 C2 C3 C4 C5]. pose proof (lookup_lt_Some _ _ _ (fw_generic _ _ (cx_frames _ C1))).
    apply (calls_wf_minted st (cs_ctxs st) (cs_stats st) (cs_stats st) CTX0 script); try done; by left.
Qed.

Lemma ctx_reachable_wf (e : Engine) (st : CallState) :
  live_ctxs e = ∅ -> rtc ctx_step (initial_calls e) st -> calls_wf st.
Proof.
  intros He Hr. assert (calls_wf (initial_calls e)) as H0.
  { split; cbn; [apply ctxs_new_wf|done|done|done|]. intros s cs cx. by rewrite He, lookup_empty. }
  induction Hr as [|x y z Hs _ IH]; [done|]. by apply IH, (ctx_step_wf x).
Qed.
