(* ===== verification/Builtins.v ===== *)
(** * Builtins: what the analysis knows of the natives

    [compiler/src/likelier/builtins.rs]: the result masks and effect classes
    of named natives, the namespaces the walker cannot transcribe, and the
    table that mints a reserved function id per native. Property names are
    UTF-16 code units, as the engine hands them over. *)

From Stdlib Require Import Ascii String.
From stdpp Require Import strings.
From S2P Require Import Prelude OpSem Types.
#[local] Open Scope string_scope.

Inductive NativeKind := NK_Bare | NK_StringMethod | NK_NumberMethod.

#[export] Instance NativeKind_eq_dec : EqDecision NativeKind.
Proof. solve_decision. Defined.

#[export] Instance NativeKind_countable : Countable NativeKind.
Proof.
  apply (inj_countable' (fun k => match k with NK_Bare => 0 | NK_StringMethod => 1 | NK_NumberMethod => 2 end)
    (fun z => match z with 0 => NK_Bare | 1 => NK_StringMethod | _ => NK_NumberMethod end)).
  by intros [].
Defined.

(** ** Result masks *)

Definition NATIVE_RESULTS : list (string * Prims) :=
  [("abs", NUM); ("floor", NUM); ("ceil", NUM); ("round", NUM); ("trunc", NUM); ("sqrt", NUM);
   ("cbrt", NUM); ("pow", NUM); ("exp", NUM); ("expm1", NUM); ("log", NUM); ("log2", NUM); ("log10", NUM);
   ("log1p", NUM); ("sin", NUM); ("cos", NUM); ("tan", NUM); ("asin", NUM); ("acos", NUM); ("atan", NUM);
   ("atan2", NUM); ("sinh", NUM); ("cosh", NUM); ("tanh", NUM); ("asinh", NUM); ("acosh", NUM);
   ("atanh", NUM); ("min", NUM); ("max", NUM); ("random", NUM); ("sign", NUM); ("fround", NUM);
   ("hypot", NUM); ("imul", PRIM_INT32); ("clz32", PRIM_INT32); ("Substring", PRIM_STRING);
   ("ToString", PRIM_STRING); ("IsObject", PRIM_BOOLEAN); ("ToLength", NUM); ("ToInteger", NUM);
   ("Number_isNaN", PRIM_BOOLEAN); ("UnsafeGetStringFromReservedSlot", PRIM_STRING);
   ("UnsafeGetInt32FromReservedSlot", PRIM_INT32); ("RegExpSearcher", PRIM_INT32);
   ("RegExpSearcherLastLimit", PRIM_INT32); ("RegExpHasCaptureGroups", PRIM_BOOLEAN);
   ("RegExpGetSubstitution", PRIM_STRING); ("IsOptimizableRegExpObject", PRIM_BOOLEAN);
   ("SubstringKernel", PRIM_STRING); ("IsCallable", PRIM_BOOLEAN); ("AdvanceStringIndex", NUM);
   ("ThrowIncompatibleMethod", PRIM_UNDEFINED); ("ThrowTypeError", PRIM_UNDEFINED);
   ("print", PRIM_UNDEFINED); ("parseInt", NUM); ("parseFloat", NUM); ("isNaN", PRIM_BOOLEAN);
   ("isFinite", PRIM_BOOLEAN); ("isInteger", PRIM_BOOLEAN); ("isSafeInteger", PRIM_BOOLEAN);
   ("Number", NUM); ("String", PRIM_STRING); ("Boolean", PRIM_BOOLEAN); ("Symbol", PRIM_SYMBOL);
   ("for", PRIM_SYMBOL); ("Date", PRIM_STRING); ("escape", PRIM_STRING); ("unescape", PRIM_STRING);
   ("encodeURI", PRIM_STRING); ("decodeURI", PRIM_STRING); ("encodeURIComponent", PRIM_STRING);
   ("decodeURIComponent", PRIM_STRING); ("charAt", PRIM_STRING); ("charCodeAt", NUM);
   ("codePointAt", (p_or NUM PRIM_UNDEFINED)); ("fromCharCode", PRIM_STRING);
   ("fromCodePoint", PRIM_STRING); ("indexOf", NUM); ("lastIndexOf", NUM); ("search", NUM);
   ("includes", PRIM_BOOLEAN); ("startsWith", PRIM_BOOLEAN); ("endsWith", PRIM_BOOLEAN);
   ("localeCompare", NUM); ("substring", PRIM_STRING); ("substr", PRIM_STRING);
   ("toLowerCase", PRIM_STRING); ("toUpperCase", PRIM_STRING); ("toLocaleLowerCase", PRIM_STRING);
   ("toLocaleUpperCase", PRIM_STRING); ("trim", PRIM_STRING); ("trimStart", PRIM_STRING);
   ("trimEnd", PRIM_STRING); ("repeat", PRIM_STRING); ("padStart", PRIM_STRING); ("padEnd", PRIM_STRING);
   ("normalize", PRIM_STRING); ("replace", PRIM_STRING); ("replaceAll", PRIM_STRING);
   ("join", PRIM_STRING); ("every", PRIM_BOOLEAN); ("some", PRIM_BOOLEAN); ("toFixed", PRIM_STRING);
   ("toPrecision", PRIM_STRING); ("toExponential", PRIM_STRING); ("toString", PRIM_STRING);
   ("toLocaleString", PRIM_STRING); ("hasOwnProperty", PRIM_BOOLEAN); ("isPrototypeOf", PRIM_BOOLEAN);
   ("propertyIsEnumerable", PRIM_BOOLEAN); ("is", PRIM_BOOLEAN); ("isArray", PRIM_BOOLEAN);
   ("isFrozen", PRIM_BOOLEAN); ("isSealed", PRIM_BOOLEAN); ("isExtensible", PRIM_BOOLEAN);
   ("test", PRIM_BOOLEAN); ("stringify", (p_or PRIM_STRING PRIM_UNDEFINED)); ("now", NUM); ("UTC", NUM);
   ("getTime", NUM); ("getFullYear", NUM); ("getMonth", NUM); ("getDate", NUM); ("getDay", NUM);
   ("getHours", NUM); ("getMinutes", NUM); ("getSeconds", NUM); ("getMilliseconds", NUM);
   ("getTimezoneOffset", NUM); ("getYear", NUM); ("getUTCFullYear", NUM); ("getUTCMonth", NUM);
   ("getUTCDate", NUM); ("getUTCDay", NUM); ("getUTCHours", NUM); ("getUTCMinutes", NUM);
   ("getUTCSeconds", NUM); ("getUTCMilliseconds", NUM); ("setTime", NUM); ("setFullYear", NUM);
   ("setMonth", NUM); ("setDate", NUM); ("setHours", NUM); ("setMinutes", NUM); ("setSeconds", NUM);
   ("setMilliseconds", NUM); ("setYear", NUM); ("toDateString", PRIM_STRING);
   ("toTimeString", PRIM_STRING); ("toISOString", PRIM_STRING); ("toUTCString", PRIM_STRING);
   ("toGMTString", PRIM_STRING); ("toLocaleDateString", PRIM_STRING); ("toLocaleTimeString", PRIM_STRING);
   ("toSource", PRIM_STRING); ("trimLeft", PRIM_STRING); ("trimRight", PRIM_STRING);
   ("isWellFormed", PRIM_BOOLEAN); ("toWellFormed", PRIM_STRING)].

Definition STRING_METHOD_RESULTS : list (string * Prims) :=
  [("slice", PRIM_STRING); ("concat", PRIM_STRING); ("at", (p_or PRIM_STRING PRIM_UNDEFINED));
   ("valueOf", PRIM_STRING)].

Definition NUMBER_METHOD_RESULTS : list (string * Prims) :=
  [("valueOf", NUM)].

(** [str::encode_utf16]: the literals are ASCII. *)
Definition utf16 (s : string) : list Z :=
  (fun c => Z.of_nat (nat_of_ascii c)) <$> list_ascii_of_string s.

Definition name_eq (name : list Z) (s : string) : bool := bool_decide (name = utf16 s).

(** The first entry of that name. *)
Definition lookup (table : list (string * Prims)) (name : list Z) : option Prims :=
  snd <$> List.find (fun e => name_eq name (fst e)) table.

Definition any_name (l : list string) (name : list Z) : bool := existsb (name_eq name) l.

Definition integral_native (name : list Z) : bool :=
  any_name ["floor"; "ceil"; "round"; "trunc"; "parseInt"] name.

Definition integral_preserving_native (name : list Z) : bool := any_name ["pow"; "abs"; "min"; "max"] name.

Definition native_result_for (kind : NativeKind) (name : list Z) : option Prims :=
  let overlay :=
    match kind with
    | NK_StringMethod => lookup STRING_METHOD_RESULTS name
    | NK_NumberMethod => lookup NUMBER_METHOD_RESULTS name
    | NK_Bare => None
    end in
  match overlay with Some m => Some m | None => lookup NATIVE_RESULTS name end.

(** ** Effect classes *)

Inductive NativeEffect := NE_Pure | NE_Elems | NE_Top.

#[export] Instance NativeEffect_eq_dec : EqDecision NativeEffect.
Proof. solve_decision. Defined.

Definition ELEMS : list string :=
  ["push"; "pop"; "shift"; "unshift"; "fill"; "copyWithin"; "splice"; "reverse"].

Definition PURE : list string :=
  ["Error"; "TypeError"; "RangeError"; "ReferenceError"; "SyntaxError"; "EvalError"; "URIError"; "RegExp";
   "ArrayBuffer"; "create"; "keys"; "values"; "entries"; "freeze"; "seal"; "getPrototypeOf";
   "getOwnPropertyNames"; "getOwnPropertyDescriptor"; "%ToObject"; "%RegExpMatcher"; "%StringSplitString";
   "%GuardToSetObject"; "%GuardToMapObject"].

Definition native_effect (kind : NativeKind) (name : list Z) (has_result : bool) : NativeEffect :=
  if any_name ELEMS name then NE_Elems
  else if has_result || bool_decide (is_Some (native_result_for kind name)) || any_name PURE name then NE_Pure
  else NE_Top.

(** ** Receiver methods *)

Definition STRING_PROTO_NAMES : list string :=
  ["charAt"; "charCodeAt"; "codePointAt"; "indexOf"; "lastIndexOf"; "search"; "includes"; "startsWith";
   "endsWith"; "localeCompare"; "substring"; "substr"; "toLowerCase"; "toUpperCase"; "toLocaleLowerCase";
   "toLocaleUpperCase"; "trim"; "trimStart"; "trimEnd"; "trimLeft"; "trimRight"; "repeat"; "padStart";
   "padEnd"; "normalize"; "replace"; "replaceAll"; "toString"; "isWellFormed"; "toWellFormed"].

Definition NUMBER_PROTO_NAMES : list string :=
  ["toFixed"; "toPrecision"; "toExponential"; "toString"; "toLocaleString"].

Definition prim_method (kind : NativeKind) (name : list Z) : bool :=
  bool_decide (is_Some (native_result_for kind name)) &&
  match kind with
  | NK_StringMethod =>
      bool_decide (is_Some (lookup STRING_METHOD_RESULTS name)) || any_name STRING_PROTO_NAMES name
  | NK_NumberMethod =>
      bool_decide (is_Some (lookup NUMBER_METHOD_RESULTS name)) || any_name NUMBER_PROTO_NAMES name
  | NK_Bare => false
  end.

(** ** Namespaces *)

Record NsSpec := mkNsSpec {
  ns_global : string;
  ns_ctor : bool;
  ns_methods : list string;
  ns_consts : list (string * Prims) }.

Definition NAMESPACES : list NsSpec :=
  [mkNsSpec "Math" false
      ["abs"; "floor"; "ceil"; "round"; "trunc"; "sqrt"; "cbrt"; "pow"; "exp"; "expm1"; "log"; "log2";
        "log10"; "log1p"; "sin"; "cos"; "tan"; "asin"; "acos"; "atan"; "atan2"; "sinh"; "cosh"; "tanh";
        "asinh"; "acosh"; "atanh"; "min"; "max"; "random"; "sign"; "fround"; "hypot"; "imul"; "clz32"]
      [("E", PRIM_DOUBLE); ("LN10", PRIM_DOUBLE); ("LN2", PRIM_DOUBLE); ("LOG10E", PRIM_DOUBLE);
        ("LOG2E", PRIM_DOUBLE); ("PI", PRIM_DOUBLE); ("SQRT1_2", PRIM_DOUBLE); ("SQRT2", PRIM_DOUBLE)];
   mkNsSpec "JSON" false
      ["stringify"]
      [];
   mkNsSpec "String" true
      ["fromCharCode"; "fromCodePoint"]
      [];
   mkNsSpec "Number" true
      ["isInteger"; "isNaN"; "isFinite"; "isSafeInteger"; "parseInt"; "parseFloat"]
      [("POSITIVE_INFINITY", PRIM_DOUBLE); ("NEGATIVE_INFINITY", PRIM_DOUBLE); ("MAX_VALUE", PRIM_DOUBLE);
        ("MIN_VALUE", PRIM_DOUBLE); ("MAX_SAFE_INTEGER", PRIM_DOUBLE); ("MIN_SAFE_INTEGER", PRIM_DOUBLE);
        ("EPSILON", PRIM_DOUBLE); ("NaN", PRIM_DOUBLE)];
   mkNsSpec "Boolean" true
      []
      [];
   mkNsSpec "Symbol" true
      ["for"]
      [];
   mkNsSpec "Date" true
      ["now"; "UTC"]
      [];
   mkNsSpec "performance" false
      ["now"]
      [];
   mkNsSpec "Object" true
      ["defineProperty"; "create"; "keys"; "values"; "entries"; "assign"; "freeze"; "seal";
        "getPrototypeOf"; "getOwnPropertyNames"; "getOwnPropertyDescriptor"]
      []].

(** ** The table of named natives *)

Record NativeInfo := mkNativeInfo { ni_kind : NativeKind; ni_name : Z; ni_result : option Prims }.

Record Natives := mkNatives {
  nat_by_index : list NativeInfo;
  nat_ids : gmap (NativeKind * Z) FnId }.

Definition natives_default : Natives := mkNatives [] ∅.

(** [None]: the id space is exhausted and the assertion of [FnId::native]
    fails. *)
Definition natives_intern (n : Natives) (kind : NativeKind) (name : Z) (chars : list Z) : option (Natives * FnId) :=
  match nat_ids n !! (kind, name) with
  | Some id => Some (n, id)
  | None =>
      match fn_native (Z.of_nat (length (nat_by_index n))) with
      | None => None
      | Some id =>
          Some (mkNatives (nat_by_index n ++ [mkNativeInfo kind name (native_result_for kind chars)])
                  (<[(kind, name) := id]> (nat_ids n)), id)
      end
  end.

Definition natives_get (n : Natives) (f : FnId) : option NativeInfo :=
  match native_index f with
  | Some i => nat_by_index n !! Z.to_nat i
  | None => None
  end.

(** ** Constructors and inline arms *)

Definition TA_NAMES : list (string * TaKind) :=
  [("Int8Array", Int8); ("Uint8Array", Uint8); ("Uint8ClampedArray", Uint8Clamped); ("Int16Array", Int16);
   ("Uint16Array", Uint16); ("Int32Array", Int32); ("Uint32Array", Uint32); ("Float32Array", Float32);
   ("Float64Array", Float64)].

Definition ta_kind_for_ctor_name (name : list Z) : option TaKind :=
  snd <$> List.find (fun e => name_eq name (fst e)) TA_NAMES.

Definition is_array_ctor_name (name : list Z) : bool := name_eq name "Array".

Definition ARMED : list string :=
  ["max"; "min"; "pow"; "sqrt"; "abs"; "floor"; "ceil"; "trunc"; "fround"; "imul"; "clz32"; "sin"; "cos";
   "parseInt"].

Definition has_translator_arm (name : list Z) : bool := any_name ARMED name.
