(* ===== verification/SolverState.v ===== *)
(** * SolverState: the state of the likely-facts solver

    [compiler/src/likelier/mod.rs]'s [Solver] with the heap model's data of
    [heap.rs] (abstractions, classes, the interning maps), the side tables its
    evaluations fill, and the monad its methods are written in: a state with
    failure, where [None] is a panic or a recursion that ran out of fuel. *)

From Stdlib Require Import String.
From S2P Require Import Prelude OpSem Facts Float64 Types Engine Mem Source Contexts Builtins.

(** ** Heap data ([heap.rs]) *)

Inductive AbsKey :=
  | AK_Snap (o : SourceObjectId)
  | AK_FnObj (s : ScriptId)
  | AK_ProtoOf (c : ClassId)
  | AK_Alloc (script : ScriptId) (pc : Pc) (ctx : CtxId)
  | AK_NativeNs (i : Z).

#[export] Instance AbsKey_eq_dec : EqDecision AbsKey.
Proof. solve_decision. Defined.

#[export] Instance AbsKey_countable : Countable AbsKey.
Proof.
  apply (inj_countable'
    (fun k => match k with
              | AK_Snap o => (0, o, 0, 0%nat)
              | AK_FnObj s => (1, s, 0, 0%nat)
              | AK_ProtoOf c => (2, 0, 0, c)
              | AK_Alloc s p c => (3, s, p, c)
              | AK_NativeNs i => (4, i, 0, 0%nat)
              end)
    (fun x => let '(t, a, b, c) := x in
              match t with
              | 0 => AK_Snap a
              | 1 => AK_FnObj a
              | 2 => AK_ProtoOf c
              | 3 => AK_Alloc a b c
              | _ => AK_NativeNs a
              end)).
  by intros [].
Defined.

Inductive ProtoLink := PL_Abs (a : AbsId) | PL_None.

#[export] Instance ProtoLink_eq_dec : EqDecision ProtoLink.
Proof. solve_decision. Defined.

Record Abstraction := mkAbstraction {
  ab_key : AbsKey;
  ab_class : option ClassId;
  ab_proto : ProtoLink;
  ab_owner_class : option ClassId;
  ab_proto_of : option ClassId;
  ab_ta_kind : option TaKind;
  ab_is_array : bool;
  ab_seeded : bool }.

Definition upd_ab_class (f : option ClassId -> option ClassId) (a : Abstraction) : Abstraction := mkAbstraction
  (ab_key a) (f (ab_class a)) (ab_proto a) (ab_owner_class a) (ab_proto_of a) (ab_ta_kind a) (ab_is_array a)
  (ab_seeded a).
Definition upd_ab_proto (f : ProtoLink -> ProtoLink) (a : Abstraction) : Abstraction := mkAbstraction (ab_key a)
  (ab_class a) (f (ab_proto a)) (ab_owner_class a) (ab_proto_of a) (ab_ta_kind a) (ab_is_array a) (ab_seeded a).
Definition upd_ab_owner_class (f : option ClassId -> option ClassId) (a : Abstraction) : Abstraction := mkAbstraction
  (ab_key a) (ab_class a) (ab_proto a) (f (ab_owner_class a)) (ab_proto_of a) (ab_ta_kind a) (ab_is_array a)
  (ab_seeded a).
Definition upd_ab_proto_of (f : option ClassId -> option ClassId) (a : Abstraction) : Abstraction := mkAbstraction
  (ab_key a) (ab_class a) (ab_proto a) (ab_owner_class a) (f (ab_proto_of a)) (ab_ta_kind a) (ab_is_array a)
  (ab_seeded a).
Definition upd_ab_ta_kind (f : option TaKind -> option TaKind) (a : Abstraction) : Abstraction := mkAbstraction
  (ab_key a) (ab_class a) (ab_proto a) (ab_owner_class a) (ab_proto_of a) (f (ab_ta_kind a)) (ab_is_array a)
  (ab_seeded a).
Definition upd_ab_is_array (f : bool -> bool) (a : Abstraction) : Abstraction := mkAbstraction (ab_key a) (ab_class a)
  (ab_proto a) (ab_owner_class a) (ab_proto_of a) (ab_ta_kind a) (f (ab_is_array a)) (ab_seeded a).
Definition upd_ab_seeded (f : bool -> bool) (a : Abstraction) : Abstraction := mkAbstraction (ab_key a) (ab_class a)
  (ab_proto a) (ab_owner_class a) (ab_proto_of a) (ab_ta_kind a) (ab_is_array a) (f (ab_seeded a)).

Inductive ClassKey :=
  | CK_Proto (o : SourceObjectId)
  | CK_Script (s : ScriptId)
  | CK_Site (site : Site).

#[export] Instance ClassKey_eq_dec : EqDecision ClassKey.
Proof. solve_decision. Defined.

#[export] Instance ClassKey_countable : Countable ClassKey.
Proof.
  apply (inj_countable'
    (fun k => match k with
              | CK_Proto o => (0, o, 0)
              | CK_Script s => (1, s, 0)
              | CK_Site (s, p) => (2, s, p)
              end)
    (fun x => let '(t, a, b) := x in
              match t with 0 => CK_Proto a | 1 => CK_Script a | _ => CK_Site (a, b) end)).
  by intros [| |[]].
Defined.

(** [AbsId::MAX]: the class row's placeholder while its prototype abstraction
    is minted. *)
Definition ABS_MAX : AbsId.
Proof. exact (Z.to_nat (2 ^ 32 - 1)). Qed.

Record ClassInfo := mkClassInfo {
  ci_key : ClassKey;
  ci_ctor : option ScriptId;
  ci_proto_abs : AbsId;
  ci_sources : list AbsId;
  ci_ta_kind : option TaKind;
  ci_is_array : bool }.

Definition upd_ci_proto_abs (f : AbsId -> AbsId) (c : ClassInfo) : ClassInfo := mkClassInfo (ci_key c) (ci_ctor c) (f
  (ci_proto_abs c)) (ci_sources c) (ci_ta_kind c) (ci_is_array c).
Definition upd_ci_sources (f : list AbsId -> list AbsId) (c : ClassInfo) : ClassInfo := mkClassInfo (ci_key c)
  (ci_ctor c) (ci_proto_abs c) (f (ci_sources c)) (ci_ta_kind c) (ci_is_array c).
Definition upd_ci_ta_kind (f : option TaKind -> option TaKind) (c : ClassInfo) : ClassInfo := mkClassInfo (ci_key c)
  (ci_ctor c) (ci_proto_abs c) (ci_sources c) (f (ci_ta_kind c)) (ci_is_array c).
Definition upd_ci_is_array (f : bool -> bool) (c : ClassInfo) : ClassInfo := mkClassInfo (ci_key c) (ci_ctor c)
  (ci_proto_abs c) (ci_sources c) (ci_ta_kind c) (f (ci_is_array c)).

Record Heap := mkHeap {
  h_abs_ids : gmap AbsKey AbsId;
  h_abs : list Abstraction;
  h_class_ids : gmap ClassKey ClassId;
  h_classes : list ClassInfo;
  h_fields_of : gmap AbsId (list NameId);
  h_script_proto : gmap ScriptId SourceObjectId;
  h_proto_owner : gmap SourceObjectId ScriptId;
  h_script_fn_objs : gmap ScriptId (list SourceObjectId);
  h_method_home : gmap ScriptId (Agreed ScriptId);
  h_site_is_proto : gset Site;
  h_dyn_named_writes : gset Site }.

Definition upd_h_abs_ids (f : gmap AbsKey AbsId -> gmap AbsKey AbsId) (h : Heap) : Heap := mkHeap (f (h_abs_ids h))
  (h_abs h) (h_class_ids h) (h_classes h) (h_fields_of h) (h_script_proto h) (h_proto_owner h) (h_script_fn_objs h)
  (h_method_home h) (h_site_is_proto h) (h_dyn_named_writes h).
Definition upd_h_abs (f : list Abstraction -> list Abstraction) (h : Heap) : Heap := mkHeap (h_abs_ids h) (f (h_abs
  h)) (h_class_ids h) (h_classes h) (h_fields_of h) (h_script_proto h) (h_proto_owner h) (h_script_fn_objs h)
  (h_method_home h) (h_site_is_proto h) (h_dyn_named_writes h).
Definition upd_h_class_ids (f : gmap ClassKey ClassId -> gmap ClassKey ClassId) (h : Heap) : Heap := mkHeap (h_abs_ids
  h) (h_abs h) (f (h_class_ids h)) (h_classes h) (h_fields_of h) (h_script_proto h) (h_proto_owner h)
  (h_script_fn_objs h) (h_method_home h) (h_site_is_proto h) (h_dyn_named_writes h).
Definition upd_h_classes (f : list ClassInfo -> list ClassInfo) (h : Heap) : Heap := mkHeap (h_abs_ids h) (h_abs h)
  (h_class_ids h) (f (h_classes h)) (h_fields_of h) (h_script_proto h) (h_proto_owner h) (h_script_fn_objs h)
  (h_method_home h) (h_site_is_proto h) (h_dyn_named_writes h).
Definition upd_h_fields_of (f : gmap AbsId (list NameId) -> gmap AbsId (list NameId)) (h : Heap) : Heap := mkHeap
  (h_abs_ids h) (h_abs h) (h_class_ids h) (h_classes h) (f (h_fields_of h)) (h_script_proto h) (h_proto_owner h)
  (h_script_fn_objs h) (h_method_home h) (h_site_is_proto h) (h_dyn_named_writes h).
Definition upd_h_script_proto (f : gmap ScriptId SourceObjectId -> gmap ScriptId SourceObjectId) (h : Heap) : Heap :=
  mkHeap (h_abs_ids h) (h_abs h) (h_class_ids h) (h_classes h) (h_fields_of h) (f (h_script_proto h)) (h_proto_owner
  h) (h_script_fn_objs h) (h_method_home h) (h_site_is_proto h) (h_dyn_named_writes h).
Definition upd_h_proto_owner (f : gmap SourceObjectId ScriptId -> gmap SourceObjectId ScriptId) (h : Heap) : Heap :=
  mkHeap (h_abs_ids h) (h_abs h) (h_class_ids h) (h_classes h) (h_fields_of h) (h_script_proto h) (f (h_proto_owner
  h)) (h_script_fn_objs h) (h_method_home h) (h_site_is_proto h) (h_dyn_named_writes h).
Definition upd_h_script_fn_objs (f : gmap ScriptId (list SourceObjectId) -> gmap ScriptId (list SourceObjectId)) (h :
  Heap) : Heap := mkHeap (h_abs_ids h) (h_abs h) (h_class_ids h) (h_classes h) (h_fields_of h) (h_script_proto h)
  (h_proto_owner h) (f (h_script_fn_objs h)) (h_method_home h) (h_site_is_proto h) (h_dyn_named_writes h).
Definition upd_h_method_home (f : gmap ScriptId (Agreed ScriptId) -> gmap ScriptId (Agreed ScriptId)) (h : Heap) :
  Heap := mkHeap (h_abs_ids h) (h_abs h) (h_class_ids h) (h_classes h) (h_fields_of h) (h_script_proto h)
  (h_proto_owner h) (h_script_fn_objs h) (f (h_method_home h)) (h_site_is_proto h) (h_dyn_named_writes h).
Definition upd_h_site_is_proto (f : gset Site -> gset Site) (h : Heap) : Heap := mkHeap (h_abs_ids h) (h_abs h)
  (h_class_ids h) (h_classes h) (h_fields_of h) (h_script_proto h) (h_proto_owner h) (h_script_fn_objs h)
  (h_method_home h) (f (h_site_is_proto h)) (h_dyn_named_writes h).
Definition upd_h_dyn_named_writes (f : gset Site -> gset Site) (h : Heap) : Heap := mkHeap (h_abs_ids h) (h_abs h)
  (h_class_ids h) (h_classes h) (h_fields_of h) (h_script_proto h) (h_proto_owner h) (h_script_fn_objs h)
  (h_method_home h) (h_site_is_proto h) (f (h_dyn_named_writes h)).

Definition heap_default : Heap := mkHeap ∅ [] ∅ [] ∅ ∅ ∅ ∅ ∅ ∅ ∅.

Definition class_id (h : Heap) (k : ClassKey) : option ClassId := h_class_ids h !! k.

(** ** The solver's tables ([mod.rs]) *)

Inductive RecvKind := RK_Empty | RK_One | RK_ClassAny | RK_AnyOf | RK_AnyObject.

(** The derived order, from most to least precise. *)
Definition recv_rank (k : RecvKind) : Z :=
  match k with RK_Empty => 0 | RK_One => 1 | RK_ClassAny => 2 | RK_AnyOf => 3 | RK_AnyObject => 4 end.

Record SharedCtorSite := mkSharedCtorSite {
  sc_ctor : ScriptId;
  sc_proto : SourceObjectId;
  sc_init : ScriptId }.

Record WellKnown := mkWellKnown {
  wk_elems : NameId;
  wk_prototype : NameId;
  wk_get : NameId;
  wk_set : NameId;
  wk_define_property : NameId }.

(** The part of [scan.rs]'s output that evaluation consults. *)
Inductive TEvent := TE_Write (n : NameId) | TE_Deleg (pc : Pc) | TE_DelegM (pc : Pc).

Record ScanTables := mkScanTables {
  tb_this_events : gmap ScriptId (list TEvent);
  tb_explicit_ret : gset ScriptId;
  tb_call_str_arg1 : gmap Site NameId }.

Record SiteTables := mkSiteTables {
  st_recv : gmap Site RecvKind;
  st_calls : gmap Site BoundedFnSet;
  st_likely_calls : gmap Site BoundedFnSet;
  st_apply : gmap Site (BoundedFnSet * CallForm);
  st_apply_ctx : gmap (CtxId * Site) BoundedFnSet;
  st_apply_native : gmap Site (Agreed FnId);
  st_read_ts : gmap Site TypeSet;
  st_recv_class : gmap Site (Agreed ClassId);
  st_recv_unresolved : gset Site;
  st_value_class : gmap Site (Agreed ClassId);
  st_recv_labels : gmap Site (AgreedSet ClassId);
  st_recv_ta : gmap Site (Agreed TaKind);
  st_native : gmap Site (Agreed FnId);
  st_ctor_native : gmap Site (Agreed FnId);
  st_ctor_class : gmap Site ClassId }.

Definition upd_st_recv (f : gmap Site RecvKind -> gmap Site RecvKind) (t : SiteTables) : SiteTables := mkSiteTables (f
  (st_recv t)) (st_calls t) (st_likely_calls t) (st_apply t) (st_apply_ctx t) (st_apply_native t) (st_read_ts t)
  (st_recv_class t) (st_recv_unresolved t) (st_value_class t) (st_recv_labels t) (st_recv_ta t) (st_native t)
  (st_ctor_native t) (st_ctor_class t).
Definition upd_st_calls (f : gmap Site BoundedFnSet -> gmap Site BoundedFnSet) (t : SiteTables) : SiteTables :=
  mkSiteTables (st_recv t) (f (st_calls t)) (st_likely_calls t) (st_apply t) (st_apply_ctx t) (st_apply_native t)
  (st_read_ts t) (st_recv_class t) (st_recv_unresolved t) (st_value_class t) (st_recv_labels t) (st_recv_ta t)
  (st_native t) (st_ctor_native t) (st_ctor_class t).
Definition upd_st_likely_calls (f : gmap Site BoundedFnSet -> gmap Site BoundedFnSet) (t : SiteTables) : SiteTables :=
  mkSiteTables (st_recv t) (st_calls t) (f (st_likely_calls t)) (st_apply t) (st_apply_ctx t) (st_apply_native t)
  (st_read_ts t) (st_recv_class t) (st_recv_unresolved t) (st_value_class t) (st_recv_labels t) (st_recv_ta t)
  (st_native t) (st_ctor_native t) (st_ctor_class t).
Definition upd_st_apply (f : gmap Site (BoundedFnSet * CallForm) -> gmap Site (BoundedFnSet * CallForm)) (t :
  SiteTables) : SiteTables := mkSiteTables (st_recv t) (st_calls t) (st_likely_calls t) (f (st_apply t)) (st_apply_ctx
  t) (st_apply_native t) (st_read_ts t) (st_recv_class t) (st_recv_unresolved t) (st_value_class t) (st_recv_labels t)
  (st_recv_ta t) (st_native t) (st_ctor_native t) (st_ctor_class t).
Definition upd_st_apply_ctx (f : gmap (CtxId * Site) BoundedFnSet -> gmap (CtxId * Site) BoundedFnSet) (t :
  SiteTables) : SiteTables := mkSiteTables (st_recv t) (st_calls t) (st_likely_calls t) (st_apply t) (f (st_apply_ctx
  t)) (st_apply_native t) (st_read_ts t) (st_recv_class t) (st_recv_unresolved t) (st_value_class t) (st_recv_labels
  t) (st_recv_ta t) (st_native t) (st_ctor_native t) (st_ctor_class t).
Definition upd_st_apply_native (f : gmap Site (Agreed FnId) -> gmap Site (Agreed FnId)) (t : SiteTables) : SiteTables
  := mkSiteTables (st_recv t) (st_calls t) (st_likely_calls t) (st_apply t) (st_apply_ctx t) (f (st_apply_native t))
  (st_read_ts t) (st_recv_class t) (st_recv_unresolved t) (st_value_class t) (st_recv_labels t) (st_recv_ta t)
  (st_native t) (st_ctor_native t) (st_ctor_class t).
Definition upd_st_read_ts (f : gmap Site TypeSet -> gmap Site TypeSet) (t : SiteTables) : SiteTables := mkSiteTables
  (st_recv t) (st_calls t) (st_likely_calls t) (st_apply t) (st_apply_ctx t) (st_apply_native t) (f (st_read_ts t))
  (st_recv_class t) (st_recv_unresolved t) (st_value_class t) (st_recv_labels t) (st_recv_ta t) (st_native t)
  (st_ctor_native t) (st_ctor_class t).
Definition upd_st_recv_class (f : gmap Site (Agreed ClassId) -> gmap Site (Agreed ClassId)) (t : SiteTables) :
  SiteTables := mkSiteTables (st_recv t) (st_calls t) (st_likely_calls t) (st_apply t) (st_apply_ctx t)
  (st_apply_native t) (st_read_ts t) (f (st_recv_class t)) (st_recv_unresolved t) (st_value_class t) (st_recv_labels
  t) (st_recv_ta t) (st_native t) (st_ctor_native t) (st_ctor_class t).
Definition upd_st_recv_unresolved (f : gset Site -> gset Site) (t : SiteTables) : SiteTables := mkSiteTables (st_recv
  t) (st_calls t) (st_likely_calls t) (st_apply t) (st_apply_ctx t) (st_apply_native t) (st_read_ts t) (st_recv_class
  t) (f (st_recv_unresolved t)) (st_value_class t) (st_recv_labels t) (st_recv_ta t) (st_native t) (st_ctor_native t)
  (st_ctor_class t).
Definition upd_st_value_class (f : gmap Site (Agreed ClassId) -> gmap Site (Agreed ClassId)) (t : SiteTables) :
  SiteTables := mkSiteTables (st_recv t) (st_calls t) (st_likely_calls t) (st_apply t) (st_apply_ctx t)
  (st_apply_native t) (st_read_ts t) (st_recv_class t) (st_recv_unresolved t) (f (st_value_class t)) (st_recv_labels
  t) (st_recv_ta t) (st_native t) (st_ctor_native t) (st_ctor_class t).
Definition upd_st_recv_labels (f : gmap Site (AgreedSet ClassId) -> gmap Site (AgreedSet ClassId)) (t : SiteTables) :
  SiteTables := mkSiteTables (st_recv t) (st_calls t) (st_likely_calls t) (st_apply t) (st_apply_ctx t)
  (st_apply_native t) (st_read_ts t) (st_recv_class t) (st_recv_unresolved t) (st_value_class t) (f (st_recv_labels
  t)) (st_recv_ta t) (st_native t) (st_ctor_native t) (st_ctor_class t).
Definition upd_st_recv_ta (f : gmap Site (Agreed TaKind) -> gmap Site (Agreed TaKind)) (t : SiteTables) : SiteTables
  := mkSiteTables (st_recv t) (st_calls t) (st_likely_calls t) (st_apply t) (st_apply_ctx t) (st_apply_native t)
  (st_read_ts t) (st_recv_class t) (st_recv_unresolved t) (st_value_class t) (st_recv_labels t) (f (st_recv_ta t))
  (st_native t) (st_ctor_native t) (st_ctor_class t).
Definition upd_st_native (f : gmap Site (Agreed FnId) -> gmap Site (Agreed FnId)) (t : SiteTables) : SiteTables :=
  mkSiteTables (st_recv t) (st_calls t) (st_likely_calls t) (st_apply t) (st_apply_ctx t) (st_apply_native t)
  (st_read_ts t) (st_recv_class t) (st_recv_unresolved t) (st_value_class t) (st_recv_labels t) (st_recv_ta t) (f
  (st_native t)) (st_ctor_native t) (st_ctor_class t).
Definition upd_st_ctor_native (f : gmap Site (Agreed FnId) -> gmap Site (Agreed FnId)) (t : SiteTables) : SiteTables
  := mkSiteTables (st_recv t) (st_calls t) (st_likely_calls t) (st_apply t) (st_apply_ctx t) (st_apply_native t)
  (st_read_ts t) (st_recv_class t) (st_recv_unresolved t) (st_value_class t) (st_recv_labels t) (st_recv_ta t)
  (st_native t) (f (st_ctor_native t)) (st_ctor_class t).
Definition upd_st_ctor_class (f : gmap Site ClassId -> gmap Site ClassId) (t : SiteTables) : SiteTables :=
  mkSiteTables (st_recv t) (st_calls t) (st_likely_calls t) (st_apply t) (st_apply_ctx t) (st_apply_native t)
  (st_read_ts t) (st_recv_class t) (st_recv_unresolved t) (st_value_class t) (st_recv_labels t) (st_recv_ta t)
  (st_native t) (st_ctor_native t) (f (st_ctor_class t)).

Record ThisTables := mkThisTables {
  th_pin : gmap ScriptId (Agreed ClassId);
  th_homes : gmap ScriptId (list ClassId);
  th_field_names : gmap ScriptId (list NameId);
  th_delegs : gmap ScriptId (list ScriptId) }.

Definition upd_th_pin (f : gmap ScriptId (Agreed ClassId) -> gmap ScriptId (Agreed ClassId)) (t : ThisTables) :
  ThisTables := mkThisTables (f (th_pin t)) (th_homes t) (th_field_names t) (th_delegs t).
Definition upd_th_homes (f : gmap ScriptId (list ClassId) -> gmap ScriptId (list ClassId)) (t : ThisTables) :
  ThisTables := mkThisTables (th_pin t) (f (th_homes t)) (th_field_names t) (th_delegs t).
Definition upd_th_field_names (f : gmap ScriptId (list NameId) -> gmap ScriptId (list NameId)) (t : ThisTables) :
  ThisTables := mkThisTables (th_pin t) (th_homes t) (f (th_field_names t)) (th_delegs t).
Definition upd_th_delegs (f : gmap ScriptId (list ScriptId) -> gmap ScriptId (list ScriptId)) (t : ThisTables) :
  ThisTables := mkThisTables (th_pin t) (th_homes t) (th_field_names t) (f (th_delegs t)).

Record FnTables := mkFnTables {
  ft_table_members : gmap AbsId (gset FnId);
  ft_class_table_members : gmap ClassId (gset FnId);
  ft_arg_fn_members : gmap (ScriptId * FormalIndex) (gset FnId);
  ft_arg_row_tables : gmap (ScriptId * FormalIndex) (list AbsId);
  ft_elems_callee_vars : gmap (ScriptId * VarId) CKey;
  ft_table_bound : gmap AbsId nat;
  ft_region_calls : gset (ScriptId * VarId) }.

Definition upd_ft_table_members (f : gmap AbsId (gset FnId) -> gmap AbsId (gset FnId)) (t : FnTables) : FnTables :=
  mkFnTables (f (ft_table_members t)) (ft_class_table_members t) (ft_arg_fn_members t) (ft_arg_row_tables t)
  (ft_elems_callee_vars t) (ft_table_bound t) (ft_region_calls t).
Definition upd_ft_class_table_members (f : gmap ClassId (gset FnId) -> gmap ClassId (gset FnId)) (t : FnTables) :
  FnTables := mkFnTables (ft_table_members t) (f (ft_class_table_members t)) (ft_arg_fn_members t) (ft_arg_row_tables
  t) (ft_elems_callee_vars t) (ft_table_bound t) (ft_region_calls t).
Definition upd_ft_arg_fn_members (f : gmap (ScriptId * FormalIndex) (gset FnId) -> gmap (ScriptId * FormalIndex) (gset
  FnId)) (t : FnTables) : FnTables := mkFnTables (ft_table_members t) (ft_class_table_members t) (f (ft_arg_fn_members
  t)) (ft_arg_row_tables t) (ft_elems_callee_vars t) (ft_table_bound t) (ft_region_calls t).
Definition upd_ft_arg_row_tables (f : gmap (ScriptId * FormalIndex) (list AbsId) -> gmap (ScriptId * FormalIndex)
  (list AbsId)) (t : FnTables) : FnTables := mkFnTables (ft_table_members t) (ft_class_table_members t)
  (ft_arg_fn_members t) (f (ft_arg_row_tables t)) (ft_elems_callee_vars t) (ft_table_bound t) (ft_region_calls t).
Definition upd_ft_elems_callee_vars (f : gmap (ScriptId * VarId) CKey -> gmap (ScriptId * VarId) CKey) (t : FnTables)
  : FnTables := mkFnTables (ft_table_members t) (ft_class_table_members t) (ft_arg_fn_members t) (ft_arg_row_tables t)
  (f (ft_elems_callee_vars t)) (ft_table_bound t) (ft_region_calls t).
Definition upd_ft_table_bound (f : gmap AbsId nat -> gmap AbsId nat) (t : FnTables) : FnTables := mkFnTables
  (ft_table_members t) (ft_class_table_members t) (ft_arg_fn_members t) (ft_arg_row_tables t) (ft_elems_callee_vars t)
  (f (ft_table_bound t)) (ft_region_calls t).
Definition upd_ft_region_calls (f : gset (ScriptId * VarId) -> gset (ScriptId * VarId)) (t : FnTables) : FnTables :=
  mkFnTables (ft_table_members t) (ft_class_table_members t) (ft_arg_fn_members t) (ft_arg_row_tables t)
  (ft_elems_callee_vars t) (ft_table_bound t) (f (ft_region_calls t)).

Record SolverStats := mkSolverStats {
  ss_ctx : Stats;
  ss_dropped_writes : Z;
  ss_dropped_this_writes : Z;
  ss_table_members_capped : Z;
  ss_this_homes : Z;
  ss_proto_chain : Z;
  ss_recv_labels : Z }.

Definition upd_ss_ctx (f : Stats -> Stats) (t : SolverStats) : SolverStats := mkSolverStats (f (ss_ctx t))
  (ss_dropped_writes t) (ss_dropped_this_writes t) (ss_table_members_capped t) (ss_this_homes t) (ss_proto_chain t)
  (ss_recv_labels t).
Definition upd_ss_dropped_writes (f : Z -> Z) (t : SolverStats) : SolverStats := mkSolverStats (ss_ctx t) (f
  (ss_dropped_writes t)) (ss_dropped_this_writes t) (ss_table_members_capped t) (ss_this_homes t) (ss_proto_chain t)
  (ss_recv_labels t).
Definition upd_ss_dropped_this_writes (f : Z -> Z) (t : SolverStats) : SolverStats := mkSolverStats (ss_ctx t)
  (ss_dropped_writes t) (f (ss_dropped_this_writes t)) (ss_table_members_capped t) (ss_this_homes t) (ss_proto_chain
  t) (ss_recv_labels t).
Definition upd_ss_table_members_capped (f : Z -> Z) (t : SolverStats) : SolverStats := mkSolverStats (ss_ctx t)
  (ss_dropped_writes t) (ss_dropped_this_writes t) (f (ss_table_members_capped t)) (ss_this_homes t) (ss_proto_chain
  t) (ss_recv_labels t).
Definition upd_ss_this_homes (f : Z -> Z) (t : SolverStats) : SolverStats := mkSolverStats (ss_ctx t)
  (ss_dropped_writes t) (ss_dropped_this_writes t) (ss_table_members_capped t) (f (ss_this_homes t)) (ss_proto_chain
  t) (ss_recv_labels t).
Definition upd_ss_proto_chain (f : Z -> Z) (t : SolverStats) : SolverStats := mkSolverStats (ss_ctx t)
  (ss_dropped_writes t) (ss_dropped_this_writes t) (ss_table_members_capped t) (ss_this_homes t) (f (ss_proto_chain
  t)) (ss_recv_labels t).
Definition upd_ss_recv_labels (f : Z -> Z) (t : SolverStats) : SolverStats := mkSolverStats (ss_ctx t)
  (ss_dropped_writes t) (ss_dropped_this_writes t) (ss_table_members_capped t) (ss_this_homes t) (ss_proto_chain t) (f
  (ss_recv_labels t)).

Record Solver := mkSolver {
  sv_engine : Engine;
  sv_names : Names;
  sv_natives : Natives;
  sv_heap : Heap;
  sv_ctxs : Ctxs;
  sv_stats : SolverStats;
  sv_escaped : gset FnId;
  sv_escape_log : list (FnId * ConId);
  sv_sites : SiteTables;
  sv_shared_ctor_sites : gmap Site SharedCtorSite;
  sv_constructed : gset ScriptId;
  sv_this : ThisTables;
  sv_fn_tables : FnTables;
  sv_accessors : gmap (ClassId * NameId) (option ScriptId * option ScriptId);
  sv_accessor_poisoned : gset (ClassId * NameId) }.

Definition upd_sv_engine (f : Engine -> Engine) (s : Solver) : Solver := mkSolver (f (sv_engine s)) (sv_names s)
  (sv_natives s) (sv_heap s) (sv_ctxs s) (sv_stats s) (sv_escaped s) (sv_escape_log s) (sv_sites s)
  (sv_shared_ctor_sites s) (sv_constructed s) (sv_this s) (sv_fn_tables s) (sv_accessors s) (sv_accessor_poisoned s).
Definition upd_sv_names (f : Names -> Names) (s : Solver) : Solver := mkSolver (sv_engine s) (f (sv_names s))
  (sv_natives s) (sv_heap s) (sv_ctxs s) (sv_stats s) (sv_escaped s) (sv_escape_log s) (sv_sites s)
  (sv_shared_ctor_sites s) (sv_constructed s) (sv_this s) (sv_fn_tables s) (sv_accessors s) (sv_accessor_poisoned s).
Definition upd_sv_natives (f : Natives -> Natives) (s : Solver) : Solver := mkSolver (sv_engine s) (sv_names s) (f
  (sv_natives s)) (sv_heap s) (sv_ctxs s) (sv_stats s) (sv_escaped s) (sv_escape_log s) (sv_sites s)
  (sv_shared_ctor_sites s) (sv_constructed s) (sv_this s) (sv_fn_tables s) (sv_accessors s) (sv_accessor_poisoned s).
Definition upd_sv_heap (f : Heap -> Heap) (s : Solver) : Solver := mkSolver (sv_engine s) (sv_names s) (sv_natives s)
  (f (sv_heap s)) (sv_ctxs s) (sv_stats s) (sv_escaped s) (sv_escape_log s) (sv_sites s) (sv_shared_ctor_sites s)
  (sv_constructed s) (sv_this s) (sv_fn_tables s) (sv_accessors s) (sv_accessor_poisoned s).
Definition upd_sv_ctxs (f : Ctxs -> Ctxs) (s : Solver) : Solver := mkSolver (sv_engine s) (sv_names s) (sv_natives s)
  (sv_heap s) (f (sv_ctxs s)) (sv_stats s) (sv_escaped s) (sv_escape_log s) (sv_sites s) (sv_shared_ctor_sites s)
  (sv_constructed s) (sv_this s) (sv_fn_tables s) (sv_accessors s) (sv_accessor_poisoned s).
Definition upd_sv_stats (f : SolverStats -> SolverStats) (s : Solver) : Solver := mkSolver (sv_engine s) (sv_names s)
  (sv_natives s) (sv_heap s) (sv_ctxs s) (f (sv_stats s)) (sv_escaped s) (sv_escape_log s) (sv_sites s)
  (sv_shared_ctor_sites s) (sv_constructed s) (sv_this s) (sv_fn_tables s) (sv_accessors s) (sv_accessor_poisoned s).
Definition upd_sv_escaped (f : gset FnId -> gset FnId) (s : Solver) : Solver := mkSolver (sv_engine s) (sv_names s)
  (sv_natives s) (sv_heap s) (sv_ctxs s) (sv_stats s) (f (sv_escaped s)) (sv_escape_log s) (sv_sites s)
  (sv_shared_ctor_sites s) (sv_constructed s) (sv_this s) (sv_fn_tables s) (sv_accessors s) (sv_accessor_poisoned s).
Definition upd_sv_escape_log (f : list (FnId * ConId) -> list (FnId * ConId)) (s : Solver) : Solver := mkSolver
  (sv_engine s) (sv_names s) (sv_natives s) (sv_heap s) (sv_ctxs s) (sv_stats s) (sv_escaped s) (f (sv_escape_log s))
  (sv_sites s) (sv_shared_ctor_sites s) (sv_constructed s) (sv_this s) (sv_fn_tables s) (sv_accessors s)
  (sv_accessor_poisoned s).
Definition upd_sv_sites (f : SiteTables -> SiteTables) (s : Solver) : Solver := mkSolver (sv_engine s) (sv_names s)
  (sv_natives s) (sv_heap s) (sv_ctxs s) (sv_stats s) (sv_escaped s) (sv_escape_log s) (f (sv_sites s))
  (sv_shared_ctor_sites s) (sv_constructed s) (sv_this s) (sv_fn_tables s) (sv_accessors s) (sv_accessor_poisoned s).
Definition upd_sv_shared_ctor_sites (f : gmap Site SharedCtorSite -> gmap Site SharedCtorSite) (s : Solver) : Solver
  := mkSolver (sv_engine s) (sv_names s) (sv_natives s) (sv_heap s) (sv_ctxs s) (sv_stats s) (sv_escaped s)
  (sv_escape_log s) (sv_sites s) (f (sv_shared_ctor_sites s)) (sv_constructed s) (sv_this s) (sv_fn_tables s)
  (sv_accessors s) (sv_accessor_poisoned s).
Definition upd_sv_constructed (f : gset ScriptId -> gset ScriptId) (s : Solver) : Solver := mkSolver (sv_engine s)
  (sv_names s) (sv_natives s) (sv_heap s) (sv_ctxs s) (sv_stats s) (sv_escaped s) (sv_escape_log s) (sv_sites s)
  (sv_shared_ctor_sites s) (f (sv_constructed s)) (sv_this s) (sv_fn_tables s) (sv_accessors s) (sv_accessor_poisoned
  s).
Definition upd_sv_this (f : ThisTables -> ThisTables) (s : Solver) : Solver := mkSolver (sv_engine s) (sv_names s)
  (sv_natives s) (sv_heap s) (sv_ctxs s) (sv_stats s) (sv_escaped s) (sv_escape_log s) (sv_sites s)
  (sv_shared_ctor_sites s) (sv_constructed s) (f (sv_this s)) (sv_fn_tables s) (sv_accessors s) (sv_accessor_poisoned
  s).
Definition upd_sv_fn_tables (f : FnTables -> FnTables) (s : Solver) : Solver := mkSolver (sv_engine s) (sv_names s)
  (sv_natives s) (sv_heap s) (sv_ctxs s) (sv_stats s) (sv_escaped s) (sv_escape_log s) (sv_sites s)
  (sv_shared_ctor_sites s) (sv_constructed s) (sv_this s) (f (sv_fn_tables s)) (sv_accessors s) (sv_accessor_poisoned
  s).
Definition upd_sv_accessors (f : gmap (ClassId * NameId) (option ScriptId * option ScriptId) -> gmap (ClassId *
  NameId) (option ScriptId * option ScriptId)) (s : Solver) : Solver := mkSolver (sv_engine s) (sv_names s)
  (sv_natives s) (sv_heap s) (sv_ctxs s) (sv_stats s) (sv_escaped s) (sv_escape_log s) (sv_sites s)
  (sv_shared_ctor_sites s) (sv_constructed s) (sv_this s) (sv_fn_tables s) (f (sv_accessors s)) (sv_accessor_poisoned
  s).
Definition upd_sv_accessor_poisoned (f : gset (ClassId * NameId) -> gset (ClassId * NameId)) (s : Solver) : Solver :=
  mkSolver (sv_engine s) (sv_names s) (sv_natives s) (sv_heap s) (sv_ctxs s) (sv_stats s) (sv_escaped s)
  (sv_escape_log s) (sv_sites s) (sv_shared_ctor_sites s) (sv_constructed s) (sv_this s) (sv_fn_tables s)
  (sv_accessors s) (f (sv_accessor_poisoned s)).

Definition stats_default : SolverStats := mkSolverStats (mkStats 0 0 0 0 0) 0 0 0 0 0 0.
Definition sites_default : SiteTables := mkSiteTables ∅ ∅ ∅ ∅ ∅ ∅ ∅ ∅ ∅ ∅ ∅ ∅ ∅ ∅ ∅.

(** [Solver::new]: the names the analysis recognises are interned first. *)
Definition intern_str (n : Names) (s : string) : option (Names * NameId) :=
  '(n, id) ← intern n (utf16 s); Some (n, Z.of_nat id).

Definition ELEMS_NAME : list Z := [91; 93].

Definition well_known (n : Names) : option (Names * WellKnown) :=
  '(n, elems) ← intern n ELEMS_NAME;
  '(n, prototype) ← intern_str n "prototype";
  '(n, get) ← intern_str n "get";
  '(n, set) ← intern_str n "set";
  '(n, define_property) ← intern_str n "defineProperty";
  Some (n, mkWellKnown (Z.of_nat elems) prototype get set define_property).

Definition engine_new (elems : NameId) : Engine :=
  mkEngine [] ∅ [] [] ∅ ∅ [] ∅ ∅ ∅ ∅ ∅ [] 0 0 ∅ ∅ ∅ (Some elems) ∅ [] sink_default.

Definition solver_new (n : Names) (W : WellKnown) : Solver :=
  mkSolver (engine_new (wk_elems W)) n natives_default heap_default ctxs_new stats_default ∅ [] sites_default
    ∅ ∅ (mkThisTables ∅ ∅ ∅ ∅) (mkFnTables ∅ ∅ ∅ ∅ ∅ ∅ ∅) ∅ ∅.

(** ** The monad *)

Definition M (A : Type) : Type := Solver -> option (Solver * A).

#[export] Instance M_ret : MRet M := fun A a s => Some (s, a).
#[export] Instance M_bind : MBind M := fun A B f m s =>
  match m s with Some (s, a) => f a s | None => None end.

Definition fail {A} : M A := fun _ => None.
Definition gets {A} (f : Solver -> A) : M A := fun s => Some (s, f s).
Definition modify (f : Solver -> Solver) : M unit := fun s => Some (f s, tt).
Definition get_some {A} (o : option A) : M A := fun s => a ← o; Some (s, a).

Definition on_engine {A} (f : Engine -> option (Engine * A)) : M A := fun s =>
  '(e, a) ← f (sv_engine s); Some (upd_sv_engine (fun _ => e) s, a).

Fixpoint for_each {A} (l : list A) (f : A -> M unit) : M unit :=
  match l with
  | [] => mret tt
  | x :: l => f x ;; for_each l f
  end.

(** ** Engine methods *)

Definition m_cell (k : CellKey) : M CellId := on_engine (fun e => Some (cell e k)).
Definition m_resolve (sid : ScriptId) (ctx : CtxId) (k : CKey) : M CellId :=
  on_engine (fun e => Some (resolve e sid ctx k)).
Definition m_read (id : CellId) (user : User) : M TypeSet := on_engine (fun e => read e id user).
Definition m_ts (id : CellId) : M TypeSet := on_engine (fun e => t ← ts_of e id; Some (e, t)).
Definition m_lookup (k : CellKey) : M (option CellId) := gets (fun s => lookup_cell (sv_engine s) k).
Definition m_region_root (c : ClassId) : M ClassId := gets (fun s => region_root (sv_engine s) c).

(** The engine's own recursion depth. *)
Section Fuel.
  Context (fuel : nat).

Definition m_raise (id : CellId) (t : TypeSet) (user : User) : M unit :=
  on_engine (fun e => e ← raise fuel e id t user; Some (e, tt)).
Definition m_link (src dst : CellId) : M unit :=
  on_engine (fun e => e ← link fuel e src dst; Some (e, tt)).
(** [self.engine.join_ts(out, &v)]: the new [out]. *)
Definition m_join_ts (out v : TypeSet) : M TypeSet :=
  on_engine (fun e => '(e, out, _) ← join_ts fuel e out v; Some (e, out)).

End Fuel.

(** [out.join_from(&v, &engine.abs_labels, &mut engine.sink)]. *)
Definition m_join_from (out v : TypeSet) : M TypeSet :=
  on_engine (fun e =>
    let '(out, sk, _) := join_from out v (abs_labels e) (sink e) in Some (set_sink e sk, out)).

Definition set_fns (t : TypeSet) (f : BoundedFnSet) : TypeSet :=
  mkTypeSet (prims t) f (obj t) (range t) (unknown t) (interval t).

Definition m_fns_insert (out : TypeSet) (f : FnId) : M TypeSet :=
  on_engine (fun e =>
    let '(s, d, _) := fns_insert (fns out) f (dropped_fns (sink e)) in
    Some (set_sink e (mkSink d (snap_absorbs (sink e))), set_fns out s)).

Definition m_fns_join (s o : BoundedFnSet) : M BoundedFnSet :=
  on_engine (fun e =>
    let '(s, d, _) := fns_join_from s o (dropped_fns (sink e)) in
    Some (set_sink e (mkSink d (snap_absorbs (sink e))), s)).

(** ** Names and natives *)

Definition m_intern (chars : list Z) : M NameId := fun s =>
  '(n, id) ← intern (sv_names s) chars; Some (upd_sv_names (fun _ => n) s, Z.of_nat id).

Definition m_name (n : NameId) : M (list Z) := fun s =>
  c ← name_get (sv_names s) (Z.to_nat n); Some (s, c).

Definition m_natives_intern (kind : NativeKind) (name : NameId) (chars : list Z) : M FnId := fun s =>
  '(t, id) ← natives_intern (sv_natives s) kind name chars; Some (upd_sv_natives (fun _ => t) s, id).

(** ** Heap cells by id *)

Definition m_abs (a : AbsId) : M Abstraction := fun s => x ← h_abs (sv_heap s) !! a; Some (s, x).
Definition m_class (c : ClassId) : M ClassInfo := fun s => x ← h_classes (sv_heap s) !! c; Some (s, x).

Definition m_heap (f : Heap -> Heap) : M unit := modify (upd_sv_heap f).

(** [self.heap[a].field = v]: indexing panics out of range. *)
Definition m_set_abs (a : AbsId) (f : Abstraction -> Abstraction) : M unit :=
  _ ← m_abs a; m_heap (upd_h_abs (alter f a)).
Definition m_set_class (c : ClassId) (f : ClassInfo -> ClassInfo) : M unit :=
  _ ← m_class c; m_heap (upd_h_classes (alter f c)).

Definition set_labels (e : Engine) (l : list AbsLabels) : Engine :=
  mkEngine (cells e) (cell_ids e) (cons e) (con_script e) (script_cons e) (live_ctxs e) (worklist e)
    (inq e) (subs e) (sub_set e) (links e) (link_set e) l (n_evals e) (n_raises e) (region_parent e)
    (region_members e) (array_classes e) (elems_name e) (anyobj_why e) (anyobj_first e) (sink e).
Definition set_arrays (e : Engine) (c : gset ClassId) : Engine :=
  mkEngine (cells e) (cell_ids e) (cons e) (con_script e) (script_cons e) (live_ctxs e) (worklist e)
    (inq e) (subs e) (sub_set e) (links e) (link_set e) (abs_labels e) (n_evals e) (n_raises e)
    (region_parent e) (region_members e) c (elems_name e) (anyobj_why e) (anyobj_first e) (sink e).

Definition m_set_label (a : AbsId) (f : AbsLabels -> AbsLabels) : M unit :=
  on_engine (fun e => _ ← abs_labels e !! a; Some (set_labels e (alter f a (abs_labels e)), tt)).

Definition m_stats (f : SolverStats -> SolverStats) : M unit := modify (upd_sv_stats f).
Definition m_sites (f : SiteTables -> SiteTables) : M unit := modify (upd_sv_sites f).
Definition m_this (f : ThisTables -> ThisTables) : M unit := modify (upd_sv_this f).
Definition m_tables (f : FnTables -> FnTables) : M unit := modify (upd_sv_fn_tables f).

Definition option_res {A} (r : res A) : option A := match r with Ok a => Some a | _ => None end.
Definition obj_ts (o : ObjType) : TypeSet := with_obj ts_default o.

Fixpoint fold_m {A B} (l : list A) (acc : B) (f : B -> A -> M B) : M B :=
  match l with
  | [] => mret acc
  | x :: l => acc ← f acc x; fold_m l acc f
  end.

(** [Some] for [Ok], and the failure of a table's interner is a panic. *)
Definition on_ctxs {A} (f : Ctxs -> Stats -> option (Ctxs * Stats * A)) : M A := fun s =>
  '(c, st, a) ← f (sv_ctxs s) (ss_ctx (sv_stats s));
  Some (upd_sv_stats (upd_ss_ctx (fun _ => st)) (upd_sv_ctxs (fun _ => c) s), a).
