(* ===== verification/Heap.v ===== *)
(** * Heap: abstractions, classes and field cells

    [compiler/src/likelier/heap.rs], the structure: interning of snapshot
    objects, allocation sites and classes, lazy seeding from the snapshot, the
    standing links between field cells, prototype installs and the homes of
    methods.  [intern_snap] reaches itself through the class bridge and the
    seeding of prototypes: everything on that cycle is written against the
    recursive call and tied by fuel. *)

From S2P Require Import Prelude OpSem Facts Float64 Types Engine Mem Source Contexts Builtins SolverState.

(** ** Snapshot values *)

Inductive SVal :=
  | SV_Fn (s : ScriptId)
  | SV_Obj (o : SourceObjectId)
  | SV_Prim (p : Prims) (i : Interval)
  | SV_NativeFn (n : SourceObjectId).

Definition is_sv_obj (v : SVal) : bool := match v with SV_Obj _ => true | _ => false end.

Definition sval_object (d : ObjectData) (id : SourceObjectId) : option SVal :=
  match od_kind d with
  | K_Function =>
      match od_script d, od_name d with
      | Some s, _ => Some (SV_Fn s)
      | None, Some n => if is_other n then None else Some (SV_NativeFn n)
      | None, None => None
      end
  | K_Plain | K_Array | K_TypedArray _ => if od_non_native d then None else Some (SV_Obj id)
  | K_Other => None
  end.

Definition sval_prim (p : Primitive) : SVal :=
  match p with
  | P_Undefined => SV_Prim PRIM_UNDEFINED IEmpty
  | P_Null => SV_Prim PRIM_NULL IEmpty
  | P_Boolean _ => SV_Prim PRIM_BOOLEAN IEmpty
  | P_Int32 v => SV_Prim PRIM_INT32 (of_value v)
  | P_Double b => SV_Prim PRIM_DOUBLE (of_double (f64_of_bits b))
  end.

(** The outer [None]: the index is out of range. *)
Definition sval (source : Source) (id : SourceObjectId) : option (option SVal) :=
  if is_other id then Some None
  else
    o ← option_res (object source id);
    Some (match o with
          | SObject d => sval_object d id
          | SString _ => Some (SV_Prim PRIM_STRING IEmpty)
          | SSymbol => Some (SV_Prim PRIM_SYMBOL IEmpty)
          | SPrimitive p => Some (sval_prim p)
          | _ => None
          end).

(** The string-keyed properties, with their names' characters. *)
Fixpoint named_props (source : Source) (l : list (SourceObjectId * SourceObjectId))
    : option (list (list Z * SourceObjectId)) :=
  match l with
  | [] => Some []
  | (k, v) :: l =>
      if is_other k then named_props source l
      else
        o ← option_res (object source k);
        rest ← named_props source l;
        Some (match o with SString chars => (chars, v) :: rest | _ => rest end)
  end.

Section Heap.
  Context (source : Source) (W : WellKnown) (fuel : nat).

#[local] Abbreviation raise := (m_raise fuel).
#[local] Abbreviation link := (m_link fuel).

(** ** Minting *)

Definition new_abs (key : AbsKey) : M AbsId :=
  id ← gets (fun s => length (h_abs (sv_heap s)));
  if 2 ^ 32 <=? Z.of_nat id then fail
  else
    m_heap (upd_h_abs (fun l => l ++ [mkAbstraction key None PL_None None None None false false]));;
    on_engine (fun e => Some (set_labels e (abs_labels e ++ [abs_labels_default]), tt));;
    m_heap (upd_h_abs_ids <[key := id]>);;
    mret id.

Definition set_abs_class (a : AbsId) (c : ClassId) : M unit :=
  m_set_abs a (upd_ab_class (fun _ => Some c));;
  m_set_label a (fun l => mkAbsLabels (Some c) (al_snap l) (al_array l)).

Definition new_class (key : ClassKey) (ctor : option ScriptId) : M ClassId :=
  c ← gets (fun s => length (h_classes (sv_heap s)));
  if 2 ^ 32 <=? Z.of_nat c then fail
  else
    m_heap (upd_h_classes (fun l => l ++ [mkClassInfo key ctor ABS_MAX [] None false]));;
    m_heap (upd_h_class_ids <[key := c]>);;
    pa ← new_abs (AK_ProtoOf c);
    m_set_abs pa (upd_ab_proto_of (fun _ => Some c));;
    m_set_abs pa (upd_ab_owner_class (fun _ => Some c));;
    m_set_class c (upd_ci_proto_abs (fun _ => pa));;
    mret c.

Definition site_class (script : ScriptId) (pc : Pc) : M ClassId :=
  let key := CK_Site (script, pc) in
  found ← gets (fun s => h_class_ids (sv_heap s) !! key);
  match found with
  | Some c => mret c
  | None => new_class key None
  end.

Definition intern_alloc (script : ScriptId) (pc : Pc) (ctx : CtxId) (class : option ClassId)
    (is_array : bool) (ta_kind : option TaKind) : M AbsId :=
  let key := AK_Alloc script pc ctx in
  found ← gets (fun s => h_abs_ids (sv_heap s) !! key);
  match found with
  | Some a => mret a
  | None =>
      a ← new_abs key;
      m_set_abs a (upd_ab_is_array (fun _ => is_array));;
      m_set_label a (fun l => mkAbsLabels (al_class l) (al_snap l) is_array);;
      m_set_abs a (upd_ab_ta_kind (fun _ => ta_kind));;
      match class with
      | Some c =>
          set_abs_class a c;;
          ci ← m_class c;
          m_set_abs a (upd_ab_proto (fun _ => PL_Abs (ci_proto_abs ci)))
      | None =>
          c ← site_class script pc;
          set_abs_class a c;;
          (if decide (is_Some ta_kind) then m_set_class c (upd_ci_ta_kind (fun _ => ta_kind)) else mret tt);;
          (if is_array then
             m_set_class c (upd_ci_is_array (fun _ => true));;
             on_engine (fun e => Some (set_arrays e ({[c]} ∪ array_classes e), tt))
           else mret tt)
      end;;
      mret a
  end.

Definition intern_fn_obj (script : ScriptId) : M AbsId :=
  found ← gets (fun s => h_abs_ids (sv_heap s) !! AK_FnObj script);
  match found with
  | Some a => mret a
  | None => new_abs (AK_FnObj script)
  end.

Definition native_id (kind : NativeKind) (name : NameId) : M FnId :=
  chars ← m_name name; m_natives_intern kind name chars.

(** ** Field cells and their standing links *)

Fixpoint field_cell_n (n : nat) (abs : AbsId) (name : NameId) : M CellId :=
  match n with
  | O => fail
  | S n =>
      found ← m_lookup (KField abs name);
      match found with
      | Some c => mret c
      | None =>
          cell ← m_cell (KField abs name);
          m_heap (upd_h_fields_of (fun m => <[abs := default [] (m !! abs) ++ [name]]> m));;
          info ← m_abs abs;
          match ab_proto_of info with
          | Some c =>
              ci ← m_class c;
              for_each (ci_sources ci) (fun src => sc ← field_cell_n n src name; link sc cell)
          | None => mret tt
          end;;
          match ab_owner_class info with
          | Some c =>
              if bool_decide (ab_proto_of info = Some c) then mret tt
              else
                ci ← m_class c;
                dc ← field_cell_n n (ci_proto_abs ci) name;
                link cell dc
          | None => mret tt
          end;;
          match ab_class info with
          | Some c => view ← m_cell (KClassView c name); link cell view
          | None => mret tt
          end;;
          (if bool_decide (name = wk_elems W) && ab_is_array info then
             union ← m_cell KArrayElemsUnion; link cell union
           else mret tt);;
          mret cell
      end
  end.

Definition field_cell : AbsId -> NameId -> M CellId := field_cell_n fuel.

Definition class_field_cell (class : ClassId) (name : NameId) : M CellId :=
  found ← m_lookup (KClassField class name);
  match found with
  | Some c => mret c
  | None =>
      cell ← m_cell (KClassField class name);
      view ← m_cell (KClassView class name);
      link cell view;;
      mret cell
  end.

(** ** Homes *)

Definition MAX_HOMES : nat := 8.

Fixpoint this_home_add_n (n : nat) (sid : ScriptId) (c : ClassId) : M unit :=
  match n with
  | O => fail
  | S n =>
      homes ← gets (fun s => default [] (th_homes (sv_this s) !! sid));
      m_this (upd_th_homes <[sid := homes]>);;
      if bool_decide (c ∈ homes) then mret tt
      else if (MAX_HOMES <=? length homes)%nat then m_stats (upd_ss_this_homes (fun k => k + 1))
      else
        m_this (upd_th_homes <[sid := homes ++ [c]]>);;
        names ← gets (fun s => default [] (th_field_names (sv_this s) !! sid));
        for_each names (fun name =>
          src ← m_cell (KThisField sid name);
          dst ← class_field_cell c name;
          link src dst);;
        delegs ← gets (fun s => default [] (th_delegs (sv_this s) !! sid));
        for_each delegs (fun d => this_home_add_n n d c)
  end.

Definition this_home_add : ScriptId -> ClassId -> M unit := this_home_add_n fuel.

Definition this_deleg_add (f g : ScriptId) : M unit :=
  ds ← gets (fun s => default [] (th_delegs (sv_this s) !! f));
  m_this (upd_th_delegs <[f := ds]>);;
  if bool_decide (g ∈ ds) then mret tt
  else
    m_this (upd_th_delegs <[f := ds ++ [g]]>);;
    homes ← gets (fun s => default [] (th_homes (sv_this s) !! f));
    for_each homes (fun c => this_home_add g c).

Definition this_field_raise (sid : ScriptId) (name : NameId) (v : TypeSet) (user : User) : M unit :=
  let key := KThisField sid name in
  found ← m_lookup key;
  cell ← match found with
         | Some c => mret c
         | None =>
             c ← m_cell key;
             m_this (upd_th_field_names (fun m => <[sid := default [] (m !! sid) ++ [name]]> m));;
             homes ← gets (fun s => default [] (th_homes (sv_this s) !! sid));
             for_each homes (fun home => dst ← class_field_cell home name; link c dst);;
             mret c
         end;
  raise cell v user.

(** A function written into a class's method table. *)
Definition note_method_home (owner : ClassId) (v : TypeSet) : M unit :=
  if multi (fns v) then mret tt
  else
    for_each (scripted (fns v)) (fun m =>
      pin ← gets (fun s => default Unset (th_pin (sv_this s) !! m));
      m_this (upd_th_pin <[m := agreed_observe pin owner]>);;
      (match pin with Unset => this_home_add m owner | _ => mret tt end);;
      this_cell ← m_cell (KThis m CTX0);
      raise this_cell (obj_ts (OClassAny owner)) (SEED, CTX0));;
    ci ← m_class owner;
    match ci_ctor ci with
    | None => mret tt
    | Some ctor =>
        for_each (scripted (fns v)) (fun m => m_heap (upd_h_method_home (fun h => observe h m ctor)))
    end.

(** ** Function tables ([calls.rs]) *)

Definition MAX_TRACKED_FORMALS : Z := 8.
Definition TABLE_MEMBER_CAP : nat := 2048.
Definition formals : list FormalIndex := seqZ 0 MAX_TRACKED_FORMALS.

(** The members in ascending order. *)
Definition sorted_ids (m : gset FnId) : list FnId := sort_list Z.leb (elements m).

Definition install_table_links (a : AbsId) : M unit :=
  linked ← gets (fun s => ft_table_bound (sv_fn_tables s) !! a);
  match linked with
  | None => mret tt
  | Some linked =>
      members ← gets (fun s => sorted_ids (default ∅ (ft_table_members (sv_fn_tables s) !! a)));
      if (length members <=? linked)%nat then mret tt
      else
        for_each (omap as_script members) (fun f =>
          for_each formals (fun arg =>
            j ← m_cell (KTableArgJoin a arg);
            dst ← m_cell (KArg f arg CTX0);
            link j dst));;
        m_tables (upd_ft_table_bound <[a := length members]>)
  end.

Definition add_member (acc : gset FnId * Z) (f : FnId) : gset FnId * Z :=
  let '(m, capped) := acc in
  if (TABLE_MEMBER_CAP <=? size m)%nat
  then (m, if bool_decide (f ∈ m) then capped else capped + 1)
  else ({[f]} ∪ m, capped).

(** The class's list stops at the cap. *)
Fixpoint add_class_members (m : gset FnId) (ids : list FnId) : gset FnId :=
  match ids with
  | [] => m
  | f :: ids => if (TABLE_MEMBER_CAP <=? size m)%nat then m else add_class_members ({[f]} ∪ m) ids
  end.

Definition add_table_members (a : AbsId) (ids : list FnId) : M unit :=
  m ← gets (fun s => default ∅ (ft_table_members (sv_fn_tables s) !! a));
  let '(m, capped) := fold_left add_member ids (m, 0) in
  m_tables (upd_ft_table_members <[a := m]>);;
  m_stats (upd_ss_table_members_capped (fun k => k + capped));;
  info ← m_abs a;
  match ab_class info with
  | Some c =>
      ce ← gets (fun s => default ∅ (ft_class_table_members (sv_fn_tables s) !! c));
      m_tables (upd_ft_class_table_members <[c := add_class_members ce ids]>)
  | None => mret tt
  end;;
  install_table_links a.

(** ** The cycle through the snapshot *)

Section Snap.
  Context (intern_snap : SourceObjectId -> M AbsId).

Definition ts_of_sval (v : SVal) : M TypeSet :=
  match v with
  | SV_Fn s => mret (fn_one (Types.fn_script s))
  | SV_Obj oid => a ← intern_snap oid; mret (obj_one a)
  | SV_Prim p i =>
      let t := ts_prim p in mret (mkTypeSet (prims t) (fns t) (obj t) (range t) (unknown t) i)
  | SV_NativeFn nid =>
      o ← get_some (option_res (object source nid));
      match o with
      | SString chars =>
          if is_array_ctor_name chars then mret (fn_one ARRAY_CTOR)
          else
            match ta_kind_for_ctor_name chars with
            | Some ta => mret (fn_one (typed_array_ctor ta))
            | None =>
                name ← m_intern chars;
                f ← native_id NK_Bare name;
                mret (fn_one f)
            end
      | _ => mret ts_default
      end
  end.

(** One property of a snapshot object into its cell. *)
Definition seed_prop (abs : AbsId) (p : list Z * SourceObjectId) : M unit :=
  let '(name, v) := p in
  v ← get_some (sval source v);
  match v with
  | None => mret tt
  | Some v =>
      t ← ts_of_sval v;
      name ← m_intern name;
      cell ← field_cell abs name;
      raise cell t (SEED, CTX0)
  end.

(** Statics: function- and primitive-valued only, never [prototype]. *)
Definition seed_static (abs : AbsId) (p : list Z * SourceObjectId) : M unit :=
  let '(name, v) := p in
  v ← get_some (sval source v);
  match v with
  | None => mret tt
  | Some v =>
      if is_sv_obj v then mret tt
      else
        name ← m_intern name;
        if bool_decide (name = wk_prototype W) then mret tt
        else
          t ← ts_of_sval v;
          cell ← field_cell abs name;
          raise cell t (SEED, CTX0)
  end.

Definition seed_fn_obj (abs : AbsId) (script : ScriptId) : M unit :=
  oids ← gets (fun s => default [] (h_script_fn_objs (sv_heap s) !! script));
  for_each oids (fun oid =>
    o ← get_some (option_res (object source oid));
    match o with
    | SObject d =>
        if od_non_native d then mret tt
        else
          props ← get_some (named_props source (od_properties d));
          for_each props (seed_static abs)
    | _ => mret tt
    end).

(** The elements' joint type and the functions among them. *)
Fixpoint seed_elems (elems : list SourceObjectId) (t : TypeSet) (fs : list FnId) : M (TypeSet * list FnId) :=
  match elems with
  | [] => mret (t, fs)
  | v :: elems =>
      v ← get_some (sval source v);
      match v with
      | None => seed_elems elems t fs
      | Some v =>
          let fs := match v with SV_Fn s => fs ++ [Types.fn_script s] | _ => fs end in
          x ← ts_of_sval v;
          t ← m_join_from t x;
          seed_elems elems t fs
      end
  end.

Definition seed_snap (abs : AbsId) (oid : SourceObjectId) : M unit :=
  o ← get_some (option_res (object source oid));
  match o with
  | SObject d =>
      if od_non_native d then mret tt
      else
        props ← get_some (named_props source (od_properties d));
        for_each props (seed_prop abs);;
        let elems := snd <$> od_elements d in
        if bool_decide (elems = []) then mret tt
        else
          '(t, fs) ← seed_elems elems ts_default [];
          (if bool_decide (fs = []) then mret tt else add_table_members abs fs);;
          if ts_is_empty t then mret tt
          else
            cell ← field_cell abs (wk_elems W);
            raise cell t (SEED, CTX0)
  | _ => mret tt
  end.

Definition ensure_seeded (abs : AbsId) : M unit :=
  info ← m_abs abs;
  if ab_seeded info then mret tt
  else
    m_set_abs abs (upd_ab_seeded (fun _ => true));;
    match ab_key info with
    | AK_Snap oid => seed_snap abs oid
    | AK_FnObj s => seed_fn_obj abs s
    | _ => mret tt
    end.

(** The table's chain continues where the prototype's does. *)
Definition install_chain (pa src : AbsId) : M unit :=
  pinfo ← m_abs pa;
  if bool_decide (ab_proto pinfo = PL_None) then
    sinfo ← m_abs src;
    match ab_proto sinfo with
    | PL_Abs up =>
        m_set_abs pa (upd_ab_proto (fun _ => PL_Abs up));;
        s ← m_cell (KProtoSentinel pa);
        raise s (ts_prim PRIM_NULL) (SEED, CTX0)
    | PL_None => mret tt
    end
  else mret tt.

Definition fields (h : Heap) (a : AbsId) : list NameId := default [] (h_fields_of h !! a).

Definition link_fields (pa src : AbsId) : M unit :=
  names ← gets (fun s => fields (sv_heap s) pa ++ fields (sv_heap s) src);
  for_each names (fun name =>
    sc ← field_cell src name;
    dc ← field_cell pa name;
    link sc dc).

Definition home_methods (c : ClassId) (src : AbsId) : M unit :=
  names ← gets (fun s => fields (sv_heap s) src);
  for_each names (fun name =>
    cell ← field_cell src name;
    v ← m_ts cell;
    note_method_home c v).

Definition register_proto_source_impl (c : ClassId) (src : AbsId) (own : bool) : M unit :=
  ci ← m_class c;
  if bool_decide (src ∈ ci_sources ci) then mret tt
  else
    m_set_class c (upd_ci_sources (fun l => l ++ [src]));;
    sinfo ← m_abs src;
    match ab_key sinfo with
    | AK_Alloc script pc _ => m_heap (upd_h_site_is_proto (fun x => {[(script, pc)]} ∪ x))
    | _ => mret tt
    end;;
    (if own && bool_decide (ab_owner_class sinfo = None)
     then m_set_abs src (upd_ab_owner_class (fun _ => Some c)) else mret tt);;
    ensure_seeded src;;
    ci ← m_class c;
    let pa := ci_proto_abs ci in
    install_chain pa src;;
    link_fields pa src;;
    if own then home_methods c src else mret tt.

Definition class_for_key (key : ClassKey) (ctor : option ScriptId) (f : ScriptId) : M ClassId :=
  found ← gets (fun s => h_class_ids (sv_heap s) !! key);
  match found with
  | Some c => mret c
  | None =>
      c ← new_class key ctor;
      match key with
      | CK_Proto p => src ← intern_snap p; register_proto_source_impl c src true
      | _ => mret tt
      end;;
      this_home_add f c;;
      mret c
  end.

Definition class_for_fn (f : ScriptId) : M ClassId :=
  proto ← gets (fun s => h_script_proto (sv_heap s) !! f);
  class_for_key (match proto with Some p => CK_Proto p | None => CK_Script f end) (Some f) f.

Definition class_for_ctor_proto (f : ScriptId) (p : SourceObjectId) : M ClassId :=
  class_for_key (CK_Proto p) None f.

Definition intern_snap_with (oid : SourceObjectId) : M AbsId :=
  found ← gets (fun s => h_abs_ids (sv_heap s) !! AK_Snap oid);
  match found with
  | Some a => mret a
  | None =>
      a ← new_abs (AK_Snap oid);
      m_set_label a (fun l => mkAbsLabels (al_class l) true (al_array l));;
      o ← get_some (option_res (object source oid));
      let '(kind, proto) :=
        match o with
        | SObject d => if od_non_native d then (K_Other, None) else (od_kind d, od_proto d)
        | _ => (K_Other, None)
        end in
      let arr := match kind with K_Array => true | _ => false end in
      m_set_abs a (upd_ab_is_array (fun _ => arr));;
      m_set_label a (fun l => mkAbsLabels (al_class l) (al_snap l) arr);;
      match kind with
      | K_TypedArray code =>
          match ta_from_code code with
          | Some tk => m_set_abs a (upd_ab_ta_kind (fun _ => Some tk))
          | None => mret tt
          end
      | _ => mret tt
      end;;
      match proto with
      | Some pid =>
          owner ← gets (fun s => h_proto_owner (sv_heap s) !! pid);
          match owner with
          | Some ctor => c ← class_for_fn ctor; set_abs_class a c
          | None => mret tt
          end;;
          pa ← intern_snap pid;
          m_set_abs a (upd_ab_proto (fun _ => PL_Abs pa))
      | None => mret tt
      end;;
      mret a
  end.

End Snap.

Fixpoint intern_snap_n (n : nat) (oid : SourceObjectId) : M AbsId :=
  match n with
  | O => fail
  | S n => intern_snap_with (intern_snap_n n) oid
  end.

Definition intern_snap : SourceObjectId -> M AbsId := intern_snap_n fuel.

Definition register_proto_source (c : ClassId) (src : AbsId) : M unit :=
  register_proto_source_impl intern_snap c src true.
Definition link_proto_table (c : ClassId) (src : AbsId) : M unit :=
  register_proto_source_impl intern_snap c src false.

Definition seeded_field_cell (abs : AbsId) (name : NameId) : M CellId :=
  ensure_seeded intern_snap abs;; field_cell abs name.

End Heap.
