(* ===== verification/HeapEval.v ===== *)
(** * HeapEval: evaluating the heap constraints

    [compiler/src/likelier/heap.rs], the constraint side: reads through every
    part of a receiver (own cell, class cells, prototype chain, region view),
    writes, allocations, element builtins, the per-site evidence they leave,
    and the final settling of the unresolved receivers. *)

From S2P Require Import Prelude OpSem Facts Types Engine Source Contexts Builtins SolverState Heap.

Definition CHAIN_DEPTH : nat := 8.
Definition REGION_VIEW_CAP : nat := 64.
Definition RECV_LABEL_CAP : nat := 8.

Inductive RegionLabels := RL_Accept | RL_Refuse.

(** [TypeSet::unresolved] without its functions, and without its object. *)
Definition unresolved_no_fns : TypeSet := set_fns ts_unresolved fns_default.
Definition unresolved_witness (f : BoundedFnSet) : TypeSet := set_fns (with_obj ts_unresolved OEmpty) f.

(** [TypeSet::unresolved]'s receiver shape. *)
Definition unresolved_recv (t : TypeSet) : bool := bool_decide (obj t = OAnyObject) && unknown t.

Definition recv_kind (o : ObjType) : RecvKind :=
  match o with
  | OEmpty => RK_Empty
  | OOne _ => RK_One
  | OClassAny _ => RK_ClassAny
  | OAnyOf _ => RK_AnyOf
  | OAnyObject => RK_AnyObject
  end.

Section Eval.
  Context (source : Source) (W : WellKnown) (fuel : nat).

#[local] Abbreviation raise := (m_raise fuel).
#[local] Abbreviation link := (m_link fuel).
#[local] Abbreviation join_ts := (m_join_ts fuel).
#[local] Abbreviation intern_snap := (Heap.intern_snap source W fuel).
#[local] Abbreviation class_for_fn := (Heap.class_for_fn source W fuel intern_snap).
#[local] Abbreviation field_cell := (Heap.field_cell W fuel).
#[local] Abbreviation seeded_field_cell := (Heap.seeded_field_cell source W fuel).
#[local] Abbreviation class_field_cell := (Heap.class_field_cell fuel).

Definition is_elems (name : NameId) : bool := bool_decide (name = wk_elems W).

Definition elems_union : M CellId := m_cell KArrayElemsUnion.

Definition read_join (cell : CellId) (user : User) (out : TypeSet) : M TypeSet :=
  v ← m_read cell user; join_ts out v.

Definition view_class (c : ClassId) (elems : bool) : M ClassId :=
  if elems then m_region_root c else mret c.

(** ** Escapes *)

Definition do_escape (v : TypeSet) (user : User) : M unit :=
  for_each (Types.ids (fns v)) (fun f =>
    match as_script f with
    | None => mret tt
    | Some script =>
        seen ← gets (fun s => bool_decide (f ∈ sv_escaped s));
        if seen : bool then mret tt
        else
          modify (upd_sv_escaped (fun x => {[f]} ∪ x));;
          modify (upd_sv_escape_log (fun l => if (length l <? 20)%nat then l ++ [(f, fst user)] else l));;
          for_each formals (fun i => c ← m_cell (KArg script i CTX0); raise c ts_unresolved (SEED, CTX0));;
          c ← m_cell (KThis script CTX0);
          raise c ts_unresolved (SEED, CTX0)
    end).

(** ** Chains and regions *)

Fixpoint chain_join (depth : nat) (cur : AbsId) (name : NameId) (user : User) (out : TypeSet) : M TypeSet :=
  match depth with
  | O => m_stats (upd_ss_proto_chain (fun k => k + 1));; mret out
  | S depth =>
      info ← m_abs cur;
      match ab_proto info with
      | PL_None =>
          s ← m_cell (KProtoSentinel cur);
          _ ← m_read s user;
          mret out
      | PL_Abs p =>
          f ← seeded_field_cell p name;
          out ← read_join f user out;
          chain_join depth p name user out
      end
  end.

Definition region_members_of (root : ClassId) : M (list ClassId) :=
  gets (fun s => default [root] (region_members (sv_engine s) !! root)).

Definition region_view (r : ClassId) (name : NameId) : M (option CellId) :=
  root ← m_region_root r;
  members ← region_members_of root;
  if (REGION_VIEW_CAP <? length members)%nat then mret None
  else
    view ← m_cell (KClassView root name);
    for_each members (fun m =>
      if bool_decide (m = root) then mret tt
      else
        mv ← m_cell (KClassView m name);
        link mv view;;
        link view mv);;
    mret (Some view).

(** A member's own prototype and its chain. *)
Fixpoint method_chain (depth : nat) (cur : AbsId) (name : NameId) (user : User) (f : BoundedFnSet)
    : M BoundedFnSet :=
  match depth with
  | O => mret f
  | S depth =>
      cell ← seeded_field_cell cur name;
      v ← m_read cell user;
      f ← m_fns_join f (fns v);
      info ← m_abs cur;
      match ab_proto info with
      | PL_Abs p => method_chain depth p name user f
      | PL_None => mret f
      end
  end.

Definition region_methods (r : ClassId) (name : NameId) (user : User) : M BoundedFnSet :=
  root ← m_region_root r;
  members ← region_members_of root;
  if (REGION_VIEW_CAP <? length members)%nat then mret fns_default
  else
    fold_m members fns_default (fun f c =>
      ci ← m_class c; method_chain CHAIN_DEPTH (ci_proto_abs ci) name user f).

Definition accessor_read (c : ClassId) (name : NameId) (user : User) (out : TypeSet) : M TypeSet :=
  acc ← gets (fun s => sv_accessors s !! (c, name));
  match acc with
  | Some (Some g, _) => r ← m_cell (KRet g CTX0); read_join r user out
  | _ => mret out
  end.

Definition accessor_write (c : ClassId) (name : NameId) (v : TypeSet) (user : User) : M unit :=
  acc ← gets (fun s => sv_accessors s !! (c, name));
  match acc with
  | Some (_, Some s) => dst ← m_cell (KArg s 0 CTX0); raise dst v user
  | _ => mret tt
  end.

(** ** Reads *)

Definition PRIM_RECV : Prims := p_or PRIM_STRING (p_or PRIM_INT32 PRIM_DOUBLE).

(** Calls off a known-string or known-numeric receiver. *)
Definition read_prim_methods (rts : TypeSet) (name : NameId) (out : TypeSet) : M TypeSet :=
  chars ← m_name name;
  out ← (if intersects (prims rts) PRIM_STRING && prim_method NK_StringMethod chars
         then f ← native_id NK_StringMethod name; m_fns_insert out f else mret out);
  if intersects (prims rts) (p_or PRIM_INT32 PRIM_DOUBLE) && prim_method NK_NumberMethod chars
  then f ← native_id NK_NumberMethod name; m_fns_insert out f else mret out.

Definition read_fn (name : NameId) (user : User) (out : TypeSet) (f : ScriptId) : M TypeSet :=
  if bool_decide (name = wk_prototype W) then
    c ← class_for_fn f;
    ci ← m_class c;
    m_join_from out (obj_one (ci_proto_abs ci))
  else
    fo ← intern_fn_obj f;
    cell ← seeded_field_cell fo name;
    v ← m_read cell user;
    m_join_from out v.

Definition read_fns (rts : TypeSet) (name : NameId) (user : User) (out : TypeSet) : M TypeSet :=
  if multi (fns rts) then join_ts out unresolved_no_fns
  else fold_m (scripted (fns rts)) out (read_fn name user).

Definition read_one (a : AbsId) (name : NameId) (user : User) (out : TypeSet) : M TypeSet :=
  own ← seeded_field_cell a name;
  out ← read_join own user out;
  info ← m_abs a;
  out ← match ab_class info with
        | Some c =>
            cf ← class_field_cell c name;
            out ← read_join cf user out;
            accessor_read c name user out
        | None => mret out
        end;
  if is_elems name then mret out else chain_join CHAIN_DEPTH a name user out.

Definition read_class (c : ClassId) (name : NameId) (user : User) (out : TypeSet) : M TypeSet :=
  c ← view_class c (is_elems name);
  view ← m_cell (KClassView c name);
  out ← read_join view user out;
  out ← accessor_read c name user out;
  if is_elems name then mret out
  else
    ci ← m_class c;
    f ← seeded_field_cell (ci_proto_abs ci) name;
    v ← m_read f user;
    out ← m_join_from out v;
    chain_join CHAIN_DEPTH (ci_proto_abs ci) name user out.

(** The second component: whether the region's method tables contributed. *)
Definition read_region (r : ClassId) (name : NameId) (callee_pos : bool) (user : User) (out : TypeSet)
    : M (TypeSet * bool) :=
  if is_elems name then
    union ← elems_union;
    out ← read_join union user out;
    mret (out, false)
  else
    f ← (if callee_pos then region_methods r name user else mret fns_default);
    view ← region_view r name;
    out ← match view with
          | Some view => read_join view user out
          | None => mret out
          end;
    out ← join_ts out (unresolved_witness f);
    mret (out, callee_pos && negb (fns_is_empty f)).

Definition read_into (rts : TypeSet) (name : NameId) (callee_pos : bool) (user : User) (out : TypeSet)
    : M (TypeSet * bool) :=
  out ← (if callee_pos && intersects (prims rts) PRIM_RECV
         then read_prim_methods rts name out else mret out);
  out ← read_fns rts name user out;
  match obj rts with
  | OEmpty =>
      if unknown rts then out ← join_ts out (unresolved_witness fns_default); mret (out, false)
      else mret (out, false)
  | OOne a => out ← read_one a name user out; mret (out, false)
  | OClassAny c => out ← read_class c name user out; mret (out, false)
  | OAnyOf r => read_region r name callee_pos user out
  | OAnyObject =>
      if is_elems name then
        union ← elems_union;
        out ← read_join union user out;
        mret (out, false)
      else
        out ← join_ts out unresolved_no_fns;
        mret (out, false)
  end.

(** ** Writes *)

Definition note_dropped (this_recv : bool) : M unit :=
  m_stats (upd_ss_dropped_writes (fun k => k + 1));;
  if this_recv then m_stats (upd_ss_dropped_this_writes (fun k => k + 1)) else mret tt.

(** [F.prototype = x]: a source of the method table and a chain link, never a
    value. *)
Definition install_prototype (f : ScriptId) (v : TypeSet) : M unit :=
  match obj v with
  | OOne x =>
      info ← m_abs x;
      cls ← gets (fun s => match ab_key info with
                           | AK_Snap oid => h_class_ids (sv_heap s) !! CK_Proto oid
                           | _ => None
                           end);
      shared ← gets (fun s => existsb (fun p => sc_ctor (snd p) =? f) (map_to_list (sv_shared_ctor_sites s)));
      match cls with
      | Some c => register_proto_source source W fuel c x
      | None =>
          c ← class_for_fn f;
          if shared : bool then link_proto_table source W fuel c x
          else register_proto_source source W fuel c x
      end
  | _ => mret tt
  end.

Definition write_fn (name : NameId) (v : TypeSet) (user : User) (f : ScriptId) : M unit :=
  if bool_decide (name = wk_prototype W) then install_prototype f v
  else
    fo ← intern_fn_obj f;
    cell ← field_cell fo name;
    raise cell v user.

Definition write_one (a : AbsId) (name : NameId) (v : TypeSet) (user : User) : M unit :=
  own ← seeded_field_cell a name;
  raise own v user;;
  info ← m_abs a;
  match ab_owner_class info with
  | Some owner => note_method_home fuel owner v
  | None => mret tt
  end;;
  info ← m_abs a;
  match ab_class info with
  | Some c => accessor_write c name v user
  | None => mret tt
  end.

Definition write_class (c : ClassId) (name : NameId) (v : TypeSet) (user : User) : M unit :=
  c ← view_class c (is_elems name);
  cf ← class_field_cell c name;
  raise cf v user;;
  accessor_write c name v user.

Definition write_region (r : ClassId) (name : NameId) (v : TypeSet) (this_recv : bool) (user : User) : M unit :=
  view ← region_view r name;
  match view with
  | Some view => raise view v user
  | None => note_dropped this_recv
  end;;
  do_escape v user.

Definition write_any (name : NameId) (v : TypeSet) (this_recv : bool) (user : User) : M unit :=
  (if is_elems name then union ← elems_union; raise union v user else note_dropped this_recv);;
  do_escape v user.

Definition write_into (rts : TypeSet) (name : NameId) (v : TypeSet) (this_recv : bool) (user : User) : M unit :=
  (if multi (fns rts) then do_escape v user
   else for_each (scripted (fns rts)) (write_fn name v user));;
  match obj rts with
  | OEmpty => if unknown rts then note_dropped this_recv;; do_escape v user else mret tt
  | OOne a => write_one a name v user
  | OClassAny c => write_class c name v user
  | OAnyOf r => if is_elems name then write_any name v this_recv user else write_region r name v this_recv user
  | OAnyObject => write_any name v this_recv user
  end.

(** ** Per-site evidence *)

Fixpoint all_ta (first : TaKind) (ms : list ClassId) : M bool :=
  match ms with
  | [] => mret true
  | m :: ms => ci ← m_class m; if bool_decide (ci_ta_kind ci = Some first) then all_ta first ms else mret false
  end.

Definition obj_ta_kind (o : ObjType) : M (option TaKind) :=
  match o with
  | OOne a => info ← m_abs a; mret (ab_ta_kind info)
  | OClassAny c => ci ← m_class c; mret (ci_ta_kind ci)
  | OAnyOf r =>
      root ← m_region_root r;
      members ← gets (fun s => region_members (sv_engine s) !! root);
      match members with
      | Some (m :: ms) =>
          if (length (m :: ms) <=? REGION_VIEW_CAP)%nat then
            ci ← m_class m;
            match ci_ta_kind ci with
            | Some first => ok ← all_ta first ms; mret (if ok : bool then Some first else None)
            | None => mret None
            end
          else mret None
      | _ => mret None
      end
  | _ => mret None
  end.

(** No evidence, an unnamed object, or a class. *)
Definition recv_class (o : ObjType) (unk : bool) (regions : RegionLabels) : M (option (option ClassId)) :=
  match o with
  | OEmpty => mret (if unk then Some None else None)
  | OOne a => info ← m_abs a; mret (Some (ab_class info))
  | OClassAny c => mret (Some (Some c))
  | OAnyOf r => mret (Some (match regions with RL_Accept => Some r | RL_Refuse => None end))
  | OAnyObject => mret (Some None)
  end.

Definition site_class_evidence (t : TypeSet) (regions : RegionLabels) : M (option (option ClassId)) :=
  if bool_decide (obj t = OEmpty) then mret None else recv_class (obj t) (unknown t) regions.

Definition agree_class (e : Agreed ClassId) (c : option ClassId) : Agreed ClassId :=
  match c with Some c => agreed_observe e c | None => Conflict end.

Definition note_read_result (site : Site) (out : TypeSet) : M unit :=
  (if ts_is_empty out then mret tt
   else
     t ← gets (fun s => default ts_default (st_read_ts (sv_sites s) !! site));
     t ← join_ts t out;
     m_sites (upd_st_read_ts <[site := t]>));;
  ev ← site_class_evidence out RL_Accept;
  match ev with
  | Some c => m_sites (upd_st_value_class (fun m => <[site := agree_class (default Unset (m !! site)) c]> m))
  | None => mret tt
  end.

Definition note_labels (site : Site) (label : option ClassId) : M unit :=
  e ← gets (fun s => default SUnset (st_recv_labels (sv_sites s) !! site));
  let e' := match label with
            | None => agreed_set_conflict e
            | Some c => agreed_set_observe RECV_LABEL_CAP e c
            end in
  m_sites (upd_st_recv_labels <[site := e']>);;
  match e, e', label with
  | SConflict, _, _ => mret tt
  | _, SConflict, Some _ => m_stats (upd_ss_recv_labels (fun k => k + 1))
  | _, _, _ => mret tt
  end.

Definition note_site_evidence (sid : ScriptId) (pc : Pc) (name : NameId) (rts : TypeSet)
    (out : option TypeSet) : M unit :=
  let site := (sid, pc) in
  match out with Some out => note_read_result site out | None => mret tt end;;
  ev ← site_class_evidence rts RL_Refuse;
  match ev with
  | Some c =>
      m_sites (upd_st_recv_class (fun m => <[site := agree_class (default Unset (m !! site)) c]> m));;
      if unresolved_recv rts then m_sites (upd_st_recv_unresolved (fun x => {[site]} ∪ x)) else mret tt
  | None => mret tt
  end;;
  lab ← site_class_evidence rts RL_Accept;
  match lab with Some label => note_labels site label | None => mret tt end;;
  if is_elems name then
    ta ← obj_ta_kind (obj rts);
    match ta with
    | Some ta => m_sites (upd_st_recv_ta (fun m => observe m site ta))
    | None => mret tt
    end
  else mret tt.

Definition note_site_recv (script : ScriptId) (pc : Pc) (rts : TypeSet) : M unit :=
  m_sites (upd_st_recv (fun m =>
    let e := default RK_Empty (m !! (script, pc)) in
    let k := recv_kind (obj rts) in
    <[(script, pc) := if recv_rank e <? recv_rank k then k else e]> m)).

(** Functions captured at an elements write. *)
Definition note_table_members (a : AbsId) (src : CKey) (script : ScriptId) (v : TypeSet) : M unit :=
  if multi (fns v) then
    match src with
    | CArg i =>
        feeds ← gets (fun s => default [] (ft_arg_row_tables (sv_fn_tables s) !! (script, i)));
        m_tables (upd_ft_arg_row_tables
          <[(script, i) := if bool_decide (a ∈ feeds) then feeds else feeds ++ [a]]>);;
        ids ← gets (fun s => elements (default ∅ (ft_arg_fn_members (sv_fn_tables s) !! (script, i))));
        if bool_decide (ids = []) then mret tt else add_table_members fuel a ids
    | _ => mret tt
    end
  else
    let ids := List.filter (fun f => negb (is_builtin f)) (Types.ids (fns v)) in
    if bool_decide (ids = []) then mret tt else add_table_members fuel a ids.

(** ** The constraints *)

Definition eval_read (sid : ScriptId) (user : User) (recv : CKey) (name : NameId) (dst : CKey) (pc : Pc)
    (callee_pos : bool) : M unit :=
  let ctx := snd user in
  r ← m_resolve sid ctx recv;
  rts ← m_read r user;
  d ← m_resolve sid ctx dst;
  '(out, region_contributed) ← read_into rts name callee_pos user ts_default;
  match dst with
  | CVar v =>
      (if callee_pos && region_contributed
       then m_tables (upd_ft_region_calls (fun x => {[(sid, v)]} ∪ x)) else mret tt);;
      if is_elems name then m_tables (upd_ft_elems_callee_vars <[(sid, v) := recv]>) else mret tt
  | _ => mret tt
  end;;
  note_site_recv sid pc rts;;
  note_site_evidence sid pc name rts (Some out);;
  raise d out user.

Definition eval_write (sid : ScriptId) (user : User) (recv : CKey) (name : NameId) (src : CKey) (pc : Pc)
    : M unit :=
  let ctx := snd user in
  r ← m_resolve sid ctx recv;
  rts ← m_read r user;
  s ← m_resolve sid ctx src;
  v ← m_read s user;
  (if is_elems name then
     match obj rts with
     | OOne a =>
         note_table_members a src sid v;;
         info ← m_abs a;
         match ab_key info with
         | AK_Alloc script pc _ => m_heap (upd_h_dyn_named_writes (fun x => {[(script, pc)]} ∪ x))
         | _ => mret tt
         end
     | _ => mret tt
     end
   else mret tt);;
  note_site_evidence sid pc name rts None;;
  let this_recv := bool_decide (recv = CThis) && negb (is_elems name) in
  (if this_recv then this_field_raise fuel sid name v user else mret tt);;
  write_into rts name v this_recv user.

Definition alloc_abs (sid : ScriptId) (pc : Pc) (ctx : CtxId) (kind : AllocKind) : M AbsId :=
  match kind with
  | AK_Snapshot oid => intern_snap oid
  | AK_Plain => intern_alloc sid pc ctx None false None
  | AK_Array => intern_alloc sid pc ctx None true None
  | AK_TypedArray k => intern_alloc sid pc ctx None false (Some k)
  end.

Definition eval_elem_builtin (sid : ScriptId) (user : User) (recv : CKey) (arg : option CKey) (ret : CKey)
    (kind : ElemBuiltinKind) : M unit :=
  let ctx := snd user in
  r ← m_resolve sid ctx recv;
  rts ← m_read r user;
  d ← m_resolve sid ctx ret;
  match kind with
  | EB_Write =>
      match arg with
      | Some arg =>
          s ← m_resolve sid ctx arg;
          v ← m_read s user;
          write_into rts (wk_elems W) v false user
      | None => mret tt
      end;;
      raise d (ts_prim PRIM_INT32) user
  | EB_Read =>
      '(out, _) ← read_into rts (wk_elems W) false user (ts_prim PRIM_UNDEFINED);
      raise d out user
  end.

(** The constraint and its script: indexing panics out of range. *)
Definition m_con (con : ConId) : M (ScriptId * Constraint) := fun s =>
  sid ← con_script (sv_engine s) !! Z.to_nat con;
  c ← cons (sv_engine s) !! Z.to_nat con;
  Some (s, (sid, c)).

Definition eval_heap (user : User) : M bool :=
  '(sid, c) ← m_con (fst user);
  match c with
  | CRead recv name dst pc callee_pos => eval_read sid user recv name dst pc callee_pos;; mret true
  | CWrite recv name src pc => eval_write sid user recv name src pc;; mret true
  | CAlloc dst pc kind =>
      abs ← alloc_abs sid pc (snd user) kind;
      d ← m_resolve sid (snd user) dst;
      raise d (obj_one abs) user;;
      mret true
  | CElemBuiltin recv arg ret _ kind => eval_elem_builtin sid user recv arg ret kind;; mret true
  | _ => mret false
  end.

(** ** Settling the unresolved receivers *)

Definition observe_final_recv (agreed : Agreed ClassId) (t : TypeSet) : M (Agreed ClassId) :=
  if unresolved_recv t then mret agreed
  else
    ev ← site_class_evidence t RL_Refuse;
    mret (match ev with None => agreed | Some c => agree_class agreed c end).

(** The receiver of the site's read or write. *)
Definition site_recv_key (e : Engine) (site : Site) : option CKey :=
  head (omap (fun c => match cons e !! Z.to_nat c with
                       | Some (CRead recv _ _ pc _) | Some (CWrite recv _ _ pc) =>
                           if pc =? snd site then Some recv else None
                       | _ => None
                       end) (default [] (script_cons e !! fst site))).

Definition settle_ctx (sid : ScriptId) (recv : CKey) (agreed : Agreed ClassId) (ctx : CtxId)
    : M (Agreed ClassId) :=
  if bool_decide (recv = CThis) then
    found ← m_lookup (KThis sid ctx);
    match found with
    | Some id => t ← m_ts id; observe_final_recv agreed t
    | None => mret agreed
    end
  else
    id ← m_resolve sid ctx recv;
    t ← m_ts id;
    observe_final_recv agreed t.

(** The sites in any order: each only writes its own row. *)
Definition settle_unresolved_recv_sites : M unit :=
  sites ← gets (fun s => elements (st_recv_unresolved (sv_sites s)));
  for_each sites (fun site =>
    recv ← gets (fun s => site_recv_key (sv_engine s) site);
    match recv with
    | None => mret tt
    | Some recv =>
        ctxs ← gets (fun s => default [] (live_ctxs (sv_engine s) !! fst site));
        agreed ← fold_m ctxs Unset (settle_ctx (fst site) recv);
        m_sites (upd_st_recv_class <[site := agreed]>)
    end).

End Eval.
