(* ===== verification/Calls.v ===== *)
(** * Calls: binding calls, constructs and delegations

    [compiler/src/likelier/calls.rs], evaluation: arguments, receivers and
    returns flow between a caller's cells and the callee's rows at the context
    the call enters; natives, builtin constructors, object-returning
    constructors, function tables, accessors and the two opaque dispatches. *)

From S2P Require Import Prelude OpSem Facts Types Engine Source Contexts Builtins SolverState Heap HeapEval.

Record CallAt := mkCallAt { at_script : ScriptId; at_ctx : CtxId; at_user : User; at_ret : CKey }.

(** The single scripted function of an accessor's cell. *)
Definition pick_script (t : TypeSet) : option ScriptId :=
  match Types.ids (fns t) with
  | [f] => if multi (fns t) then None else as_script f
  | _ => None
  end.

(** One side of an accessor pair: the merged side and whether it is news;
    [None] on a conflict. *)
Definition merge_accessor (old new : option ScriptId) : option (option ScriptId * bool) :=
  match old, new with
  | None, Some n => Some (Some n, true)
  | Some o, Some n => if o =? n then Some (Some o, false) else None
  | o, None => Some (o, false)
  end.

(** The one native of a callee set: [None] when the set is still empty. *)
Definition native_verdict (f : BoundedFnSet) : option (option FnId) :=
  if fns_is_empty f && negb (multi f) then None
  else
    Some (match Types.ids f with
          | [x] => if negb (multi f) && bool_decide (is_Some (native_index x)) then Some x else None
          | _ => None
          end).

Definition agree_fn (e : Agreed FnId) (v : option FnId) : Agreed FnId :=
  match v with Some f => agreed_observe e f | None => Conflict end.

Section Calls.
  Context (source : Source) (tables : ScanTables) (W : WellKnown) (fuel : nat).

#[local] Abbreviation raise := (m_raise fuel).
#[local] Abbreviation class_for_fn := (Heap.class_for_fn source W fuel (Heap.intern_snap source W fuel)).
#[local] Abbreviation do_escape := (HeapEval.do_escape fuel).

(** ** Binding *)

Definition note_arg_fn (callee : ScriptId) (arg : FormalIndex) (v : TypeSet) : M unit :=
  if multi (fns v) || bool_decide (Types.ids (fns v) = []) then mret tt
  else
    let ids := List.filter (fun f => negb (is_builtin f)) (Types.ids (fns v)) in
    known ← gets (fun s => default ∅ (ft_arg_fn_members (sv_fn_tables s) !! (callee, arg)));
    (if bool_decide (ids = []) then mret tt
     else m_tables (upd_ft_arg_fn_members <[(callee, arg) := list_to_set ids ∪ known]>));;
    if forallb (fun f => bool_decide (f ∈ known)) ids then mret tt
    else
      feeds ← gets (fun s => default [] (ft_arg_row_tables (sv_fn_tables s) !! (callee, arg)));
      for_each feeds (fun a => add_table_members fuel a ids).

Fixpoint bind_args_from (at_ : CallAt) (f : ScriptId) (cx : CtxId) (i : FormalIndex) (args : list CKey)
    : M unit :=
  match args with
  | [] => mret tt
  | a :: args =>
      src ← m_resolve (at_script at_) (at_ctx at_) a;
      v ← m_read src (at_user at_);
      note_arg_fn f i v;;
      dst ← m_cell (KArg f i cx);
      raise dst v (at_user at_);;
      bind_args_from at_ f cx (i + 1) args
  end.

Definition bind_args (at_ : CallAt) (f : ScriptId) (cx : CtxId) (args : list CKey) (skip : nat) : M unit :=
  bind_args_from at_ f cx 0 (drop skip args).

Definition bind_this_ok (pinned : bool) (v : TypeSet) : bool :=
  negb (pinned && match obj v with OAnyObject | OAnyOf _ => true | _ => false end).

Definition strip_nullish (v : TypeSet) : TypeSet :=
  mkTypeSet (p_sub (prims v) (p_or PRIM_NULL PRIM_UNDEFINED)) (fns v) (obj v) (range v) (unknown v) (interval v).

Definition bind_this (at_ : CallAt) (f : ScriptId) (cx : CtxId) (tk : CKey) (method_recv : bool) : M unit :=
  (if bool_decide (tk = CThis) then this_deleg_add fuel (at_script at_) f else mret tt);;
  src ← m_resolve (at_script at_) (at_ctx at_) tk;
  v ← m_read src (at_user at_);
  let v := if method_recv then strip_nullish v else v in
  if method_recv && ts_is_empty v then mret tt
  else
    pin ← gets (fun s => th_pin (sv_this s) !! f);
    let bound :=
      if bind_this_ok (bool_decide (is_Some pin)) v then v
      else match pin ≫= agreed_get with
           | Some owner => obj_ts (OClassAny owner)
           | None => v
           end in
    dst ← m_cell (KThis f cx);
    raise dst bound (at_user at_).

Definition bind_ret (at_ : CallAt) (f : ScriptId) (cx : CtxId) : M unit :=
  ret_src ← m_cell (KRet f cx);
  v ← m_read ret_src (at_user at_);
  ret_dst ← m_resolve (at_script at_) (at_ctx at_) (at_ret at_);
  raise ret_dst v (at_user at_).

Definition raise_ret (at_ : CallAt) (v : TypeSet) : M unit :=
  ret_dst ← m_resolve (at_script at_) (at_ctx at_) (at_ret at_);
  raise ret_dst v (at_user at_).

Definition raise_unknown_ret (at_ : CallAt) : M unit := raise_ret at_ unknown_evidence.

Definition integral_arg (t : TypeSet) : bool :=
  subset_of (prims t) (p_or PRIM_INT32 PRIM_DOUBLE) && fns_is_empty (fns t)
  && bool_decide (obj t = OEmpty) && range_le (range t) R_I53.

Fixpoint args_integral (at_ : CallAt) (args : list CKey) : M bool :=
  match args with
  | [] => mret true
  | a :: args =>
      cell ← m_resolve (at_script at_) (at_ctx at_) a;
      t ← m_read cell (at_user at_);
      if integral_arg t then args_integral at_ args else mret false
  end.

(** [native_ret] of [heap.rs]: the spec mask, or unknown evidence. *)
Definition native_ret (f : FnId) (integral : bool) : M TypeSet :=
  info ← gets (fun s => natives_get (sv_natives s) f);
  match info with
  | Some i =>
      match ni_result i with
      | Some mask =>
          name ← m_name (ni_name i);
          let t := ts_prim mask in
          mret (if integral_native name || (integral && integral_preserving_native name)
                then mkTypeSet (prims t) (fns t) (obj t) R_I53 (unknown t) (interval t)
                else t)
      | None => mret unknown_evidence
      end
  | None => mret unknown_evidence
  end.

Definition raise_builtin_ret (at_ : CallAt) (f : FnId) (args : list CKey) : M unit :=
  v ← (if bool_decide (is_Some (native_index f)) then ai ← args_integral at_ args; native_ret f ai
       else mret unknown_evidence);
  raise_ret at_ v.

(** ** Entering *)

Definition call_state (s : Solver) : CallState := mkCallState (sv_ctxs s) (ss_ctx (sv_stats s)) (sv_engine s).
Definition put_call_state (st : CallState) (s : Solver) : Solver :=
  upd_sv_engine (fun _ => cs_engine st)
    (upd_sv_stats (upd_ss_ctx (fun _ => cs_stats st)) (upd_sv_ctxs (fun _ => cs_ctxs st) s)).

Definition m_enter (ctx : CtxId) (script : ScriptId) (pc : Pc) (f : ScriptId) (poly : bool) : M CtxId := fun s =>
  '(st, cx) ← enter (call_state s) ctx script pc f poly; Some (put_call_state st s, cx).

(** A context of its own at the generic one, or none. *)
Definition m_enter_refusing (script : ScriptId) (pc : Pc) (f : ScriptId) : M (option CtxId) := fun s =>
  '(st, cx) ← enter_refusing (call_state s) script pc f; Some (put_call_state st s, cx).

(** ** Per-site rows *)

Definition fns_join_scratch (s o : BoundedFnSet) : BoundedFnSet := fst (fst (fns_join_from s o [])).
Definition scripted_part (f : BoundedFnSet) : BoundedFnSet := fst (scripted_only f []).

Definition note_site_calls (script : ScriptId) (pc : Pc) (cts : TypeSet) : M unit :=
  let site := (script, pc) in
  let o := scripted_part (fns cts) in
  let join := fun m : gmap Site BoundedFnSet => <[site := fns_join_scratch (default fns_default (m !! site)) o]> m in
  m_sites (upd_st_calls join);;
  if multi (fns cts) && unknown cts then mret tt else m_sites (upd_st_likely_calls join).

Definition note_verdict (site : Site) (f : BoundedFnSet) (upd : (gmap Site (Agreed FnId) -> gmap Site (Agreed FnId)) -> SiteTables -> SiteTables) : M unit :=
  match native_verdict f with
  | None => mret tt
  | Some v => m_sites (upd (fun m => <[site := agree_fn (default Unset (m !! site)) v]> m))
  end.

Definition note_site_native (script : ScriptId) (pc : Pc) (f : BoundedFnSet) : M unit :=
  note_verdict (script, pc) f upd_st_native.
Definition note_site_ctor_native (script : ScriptId) (pc : Pc) (f : BoundedFnSet) : M unit :=
  note_verdict (script, pc) f upd_st_ctor_native.

Definition note_site_apply (script : ScriptId) (ctx : CtxId) (pc : Pc) (f : BoundedFnSet) (form : CallForm) : M unit :=
  let site := (script, pc) in
  let o := scripted_part f in
  (if bool_decide (ctx = CTX0) then mret tt
   else m_sites (upd_st_apply_ctx (fun m =>
          <[(ctx, site) := fns_join_scratch (default fns_default (m !! (ctx, site))) o]> m)));;
  m_sites (upd_st_apply (fun m =>
    let e := default (fns_default, form) (m !! site) in <[site := (fns_join_scratch (fst e) o, snd e)]> m));;
  note_verdict site f upd_st_apply_native.

(** ** Function tables *)

Fixpoint bind_table_args_from (a : AbsId) (at_ : CallAt) (i : FormalIndex) (args : list CKey) : M unit :=
  match args with
  | [] => mret tt
  | k :: args =>
      src ← m_resolve (at_script at_) (at_ctx at_) k;
      v ← m_read src (at_user at_);
      j ← m_cell (KTableArgJoin a i);
      raise j v (at_user at_);;
      bind_table_args_from a at_ (i + 1) args
  end.

Definition bind_table_args (a : AbsId) (at_ : CallAt) (args : list CKey) : M unit :=
  m_tables (upd_ft_table_bound (fun m => <[a := default 0%nat (m !! a)]> m));;
  install_table_links fuel a;;
  bind_table_args_from a at_ 0 (take (Z.to_nat MAX_TRACKED_FORMALS) args).

(** The receiver a table-read callee came from. *)
Definition callee_table (script : ScriptId) (callee : CKey) : M (option CKey) :=
  match callee with
  | CVar v => gets (fun s => ft_elems_callee_vars (sv_fn_tables s) !! (script, v))
  | _ => mret None
  end.

(** ** Accessors *)

Definition is_define_property (f : FnId) : M bool :=
  gets (fun s => match natives_get (sv_natives s) f with
                 | Some i => bool_decide (ni_kind i = NK_Bare) && (ni_name i =? wk_define_property W)
                 | None => false
                 end).

(** Every same-name read and write, at its live contexts. *)
Definition same_name_users (e : Engine) (name : NameId) : list User :=
  concat (imap (fun i c =>
    match c with
    | CRead _ n _ _ _ | CWrite _ n _ _ =>
        if n =? name then
          (fun cx => (Z.of_nat i, cx)) <$> default [] (con_script e !! i ≫= fun s => live_ctxs e !! s)
        else []
    | _ => []
    end) (cons e)).

Definition accessor_add (c : ClassId) (name : NameId) (getter setter : option ScriptId) : M unit :=
  if bool_decide (getter = None) && bool_decide (setter = None) then mret tt
  else
    poisoned ← gets (fun s => bool_decide ((c, name) ∈ sv_accessor_poisoned s));
    if poisoned : bool then mret tt
    else
      cur ← gets (fun s => default (None, None) (sv_accessors s !! (c, name)));
      match merge_accessor (fst cur) getter, merge_accessor (snd cur) setter with
      | Some (g2, cg), Some (s2, cs) =>
          if negb cg && negb cs then mret tt
          else
            modify (upd_sv_accessors <[(c, name) := (g2, s2)]>);;
            for_each (omap id [getter; setter]) (fun m =>
              this_cell ← m_cell (KThis m CTX0);
              raise this_cell (obj_ts (OClassAny c)) (SEED, CTX0));;
            on_engine (fun e => Some (enqueue_all e (same_name_users e name), tt))
      | _, _ =>
          modify (upd_sv_accessors (delete (c, name)));;
          modify (upd_sv_accessor_poisoned (fun x => {[(c, name)]} ∪ x))
      end.

Definition define_accessors (pc : Pc) (at_ : CallAt) (args : list CKey) (tts : TypeSet) : M unit :=
  match args, tb_call_str_arg1 tables !! (at_script at_, pc), obj tts with
  | [_; _; desc], Some name, OOne t =>
      info ← m_abs t;
      match ab_proto_of info ∪ ab_owner_class info with
      | Some class =>
          dcell ← m_resolve (at_script at_) (at_ctx at_) desc;
          dts ← m_read dcell (at_user at_);
          match obj dts with
          | OOne d =>
              ensure_seeded source W fuel (Heap.intern_snap source W fuel) d;;
              gcell ← field_cell W fuel d (wk_get W);
              g ← m_read gcell (at_user at_);
              scell ← field_cell W fuel d (wk_set W);
              s ← m_read scell (at_user at_);
              accessor_add class name (pick_script g) (pick_script s)
          | _ => mret tt
          end
      | None => mret tt
      end
  | _, _, _ => mret tt
  end.

Definition eval_define_property (pc : Pc) (at_ : CallAt) (args : list CKey) : M TypeSet :=
  tts ← match args with
        | t :: _ => c ← m_resolve (at_script at_) (at_ctx at_) t; m_read c (at_user at_)
        | [] => mret ts_default
        end;
  define_accessors pc at_ args tts;;
  mret (if ts_is_empty tts then unknown_evidence else tts).

(** ** Calls *)

(** A dispatch a region's method tables guessed: every target in a context of
    its own. *)
Definition call_region (at_ : CallAt) (pc : Pc) (cts : TypeSet) (this_ : option CKey) (args : list CKey)
    (construct : bool) : M unit :=
  if multi (fns cts) then raise_unknown_ret at_
  else
    for_each (Types.ids (fns cts)) (fun f =>
      match as_script f with
      | None => raise_builtin_ret at_ f args
      | Some f =>
          cx ← m_enter_refusing (at_script at_) pc f;
          match cx with
          | None => raise_unknown_ret at_
          | Some cx =>
              bind_args at_ f cx args 0;;
              match this_ with
              | Some tk => if construct then mret tt else bind_this at_ f cx tk true
              | None => mret tt
              end;;
              bind_ret at_ f cx
          end
      end).

(** No usable callee: the arguments escape. *)
Definition call_opaque (at_ : CallAt) (callee : CKey) (cts : TypeSet) (args : list CKey) : M unit :=
  (if multi (fns cts) then
     rk ← callee_table (at_script at_) callee;
     match rk with
     | Some rk =>
         rcell ← m_resolve (at_script at_) (at_ctx at_) rk;
         rts ← m_read rcell (at_user at_);
         match obj rts with
         | OOne a =>
             known ← gets (fun s => bool_decide (is_Some (ft_table_members (sv_fn_tables s) !! a)));
             if known : bool then bind_table_args a at_ args else mret tt
         | _ => mret tt
         end
     | None => mret tt
     end
   else mret tt);;
  raise_unknown_ret at_;;
  for_each args (fun a =>
    ac ← m_resolve (at_script at_) (at_ctx at_) a;
    v ← m_read ac (at_user at_);
    do_escape v (at_user at_)).

Definition call_native (at_ : CallAt) (pc : Pc) (f : FnId) (args : list CKey) (construct : bool) : M unit :=
  v ← (if construct then mret unknown_evidence
       else
         dp ← is_define_property f;
         if dp : bool then eval_define_property pc at_ args
         else ai ← args_integral at_ args; native_ret f ai);
  raise_ret at_ v.

(** A builtin constructor: allocation semantics at the site. *)
Definition call_builtin_ctor (at_ : CallAt) (pc : Pc) (f : FnId) : M unit :=
  let '(arr, ta) := if f =? ARRAY_CTOR then (true, None) else (false, typed_array_kind f) in
  abs ← intern_alloc (at_script at_) pc (at_ctx at_) None arr ta;
  raise_ret at_ (obj_one abs).

Definition call_construct (at_ : CallAt) (pc : Pc) (f : ScriptId) (cx : CtxId) : M unit :=
  this_cell ← m_cell (KThis f cx);
  ret_dst ← m_resolve (at_script at_) (at_ctx at_) (at_ret at_);
  modify (upd_sv_constructed (fun x => {[f]} ∪ x));;
  known ← gets (fun s => st_ctor_class (sv_sites s) !! (at_script at_, pc));
  class ← match known with Some c => mret c | None => class_for_fn f end;
  abs ← intern_alloc (at_script at_) pc (at_ctx at_) (Some class) false None;
  let t := obj_one abs in
  raise this_cell t (at_user at_);;
  ret_src ← m_cell (KRet f cx);
  rv ← m_read ret_src (at_user at_);
  if bool_decide (f ∈ tb_explicit_ret tables) then
    let objpart := set_fns (obj_ts (obj rv)) (fns rv) in
    objpart ← (if p_is_empty (prims rv) then mret objpart else m_join_from objpart t);
    raise ret_dst objpart (at_user at_)
  else raise ret_dst t (at_user at_).

Definition call_target (at_ : CallAt) (pc : Pc) (this_ : option CKey) (args : list CKey) (construct poly : bool)
    (f : FnId) : M unit :=
  if bool_decide (is_Some (native_index f)) then call_native at_ pc f args construct
  else
    match as_script f with
    | None => call_builtin_ctor at_ pc f
    | Some f =>
        cx ← m_enter (at_ctx at_) (at_script at_) pc f poly;
        bind_args at_ f cx args 0;;
        if construct then call_construct at_ pc f cx
        else
          match this_ with Some tk => bind_this at_ f cx tk true | None => mret tt end;;
          bind_ret at_ f cx
    end.

Definition eval_call_con (sid : ScriptId) (user : User) (callee : CKey) (this_ : option CKey) (args : list CKey)
    (ret : CKey) (pc : Pc) (construct : bool) : M unit :=
  let at_ := mkCallAt sid (snd user) user ret in
  c ← m_resolve sid (snd user) callee;
  cts ← m_read c user;
  note_site_calls sid pc cts;;
  (if construct then note_site_ctor_native sid pc (fns cts) else note_site_native sid pc (fns cts));;
  region_fed ← match callee with
               | CVar v => gets (fun s => bool_decide ((sid, v) ∈ ft_region_calls (sv_fn_tables s)))
               | _ => mret false
               end;
  if region_fed : bool then call_region at_ pc cts this_ args construct
  else if multi (fns cts) || (fns_is_empty (fns cts) && bool_decide (obj cts = OAnyObject))
  then call_opaque at_ callee cts args
  else if fns_is_empty (fns cts) && match obj cts with OAnyOf _ => true | _ => false end
  then raise_unknown_ret at_
  else
    let targets := Types.ids (fns cts) in
    cap ← gets (fun s => callee_cap (sv_ctxs s));
    let poly := cap <? len (List.filter (fun f => negb (is_builtin f)) targets) in
    for_each targets (call_target at_ pc this_ args construct poly).

(** ** Delegations *)

(** A table's handlers behind [.call], each in a context of its own. *)
Definition apply_table (at_ : CallAt) (pc : Pc) (target : CKey) (args : list CKey) : M unit :=
  rk ← callee_table (at_script at_) target;
  match rk with
  | None => mret tt
  | Some rk =>
      rcell ← m_resolve (at_script at_) (at_ctx at_) rk;
      rts ← m_read rcell (at_user at_);
      members ← gets (fun s => match obj rts with
                               | OOne a => sorted_ids (default ∅ (ft_table_members (sv_fn_tables s) !! a))
                               | OClassAny c => sorted_ids (default ∅ (ft_class_table_members (sv_fn_tables s) !! c))
                               | _ => []
                               end);
      for_each (omap as_script members) (fun f =>
        cx ← m_enter_refusing (at_script at_) pc f;
        match cx with
        | None => mret tt
        | Some cx =>
            match args with recv :: _ => bind_this at_ f cx recv false | [] => mret tt end;;
            bind_args at_ f cx args 1
        end)
  end.

(** [T.apply(x, arguments)]: the caller's own argument rows. *)
Definition forward_formals (at_ : CallAt) (f : ScriptId) (cx : CtxId) : M unit :=
  for_each formals (fun arg =>
    src ← m_cell (KArg (at_script at_) arg (at_ctx at_));
    v ← m_read src (at_user at_);
    dst ← m_cell (KArg f arg cx);
    raise dst v (at_user at_)).

Definition apply_target (at_ : CallAt) (pc : Pc) (args : list CKey) (arg1_is_arguments : bool) (form : CallForm)
    (poly : bool) (f : FnId) : M unit :=
  match as_script f with
  | None => raise_builtin_ret at_ f args
  | Some f =>
      cx ← m_enter (at_ctx at_) (at_script at_) pc f poly;
      match args with recv :: _ => bind_this at_ f cx recv false | [] => mret tt end;;
      match form with
      | CF_Call => bind_args at_ f cx args 1
      | CF_Apply => if arg1_is_arguments then forward_formals at_ f cx else mret tt
      end;;
      bind_ret at_ f cx
  end.

Definition eval_apply_con (sid : ScriptId) (user : User) (target : CKey) (args : list CKey)
    (arg1_is_arguments : bool) (ret : CKey) (pc : Pc) (form : CallForm) : M unit :=
  let at_ := mkCallAt sid (snd user) user ret in
  t ← m_resolve sid (snd user) target;
  tts ← m_read t user;
  note_site_apply sid (snd user) pc (fns tts) form;;
  if multi (fns tts)
     || (fns_is_empty (fns tts) && match obj tts with OAnyObject | OAnyOf _ => true | _ => false end)
  then
    match form with
    | CF_Call => if multi (fns tts) then apply_table at_ pc target args else mret tt
    | CF_Apply => mret tt
    end;;
    raise_unknown_ret at_
  else
    let targets := Types.ids (fns tts) in
    cap ← gets (fun s => callee_cap (sv_ctxs s));
    for_each targets (apply_target at_ pc args arg1_is_arguments form (cap <? len targets)).

Definition eval_call (user : User) : M bool :=
  '(sid, c) ← m_con (fst user);
  match c with
  | CCall callee this_ args ret pc construct =>
      eval_call_con sid user callee this_ args ret pc construct;; mret true
  | CApply target args arg1_is_arguments ret pc form =>
      eval_apply_con sid user target args arg1_is_arguments ret pc form;; mret true
  | _ => mret false
  end.

(** ** The driver ([Solver::solve] of [mod.rs]) *)

Definition eval_solver (user : User) : M unit :=
  done ← on_engine (fun e => eval_core fuel e user);
  if done : bool then mret tt
  else
    done ← eval_heap source W fuel user;
    if done : bool then mret tt else _ ← eval_call user; mret tt.

Fixpoint solve_loop (steps : nat) : M unit := fun s =>
  match pop (sv_engine s) with
  | None => Some (s, tt)
  | Some (e, u) =>
      match steps with
      | O => None
      | S steps => (eval_solver u;; solve_loop steps) (upd_sv_engine (fun _ => e) s)
      end
  end.

Definition instantiate_scripts : M unit :=
  sids ← gets (fun s => sort_list Z.leb ((fun p => fst p) <$> map_to_list (script_cons (sv_engine s))));
  for_each sids (fun sid => on_engine (fun e => Some (fst (instantiate e sid CTX0), tt))).

Definition solve (steps : nat) : M unit := instantiate_scripts;; solve_loop steps.

End Calls.
