(* ===== verification/Seed.v ===== *)
(** * Seed: the snapshot as the solver's initial state

    [compiler/src/likelier/heap.rs], before the fixpoint: the identity maps
    between constructors and prototype objects, the global bindings, the
    natives the walker cannot transcribe, the captured environment slots, and
    the construct sites of shared constructors; [analyze] of [mod.rs] up to
    the emission. *)

From Stdlib Require Import Ascii String.
From S2P Require Import Prelude OpSem Facts Types Engine Mem Source Contexts Builtins SolverState Heap HeapEval Calls.
#[local] Open Scope string_scope.

(** Intrinsic name, and the bare name its result resolves through. *)
Definition INTRINSICS : list (string * string) :=
  [("Substring", "Substring"); ("ToString", "ToString"); ("ToObject", "ToObject"); ("IsObject", "IsObject");
   ("ToLength", "ToLength"); ("Number_isNaN", "Number_isNaN");
   ("UnsafeGetStringFromReservedSlot", "UnsafeGetStringFromReservedSlot"); ("RegExpMatcher", "RegExpMatcher");
   ("RegExpSearcher", "RegExpSearcher"); ("RegExpSearcherLastLimit", "RegExpSearcherLastLimit");
   ("RegExpHasCaptureGroups", "RegExpHasCaptureGroups"); ("RegExpGetSubstitution", "RegExpGetSubstitution");
   ("IsOptimizableRegExpObject", "IsOptimizableRegExpObject"); ("SubstringKernel", "SubstringKernel");
   ("StringSplitString", "StringSplitString"); ("GuardToSetObject", "GuardToSetObject");
   ("ToInteger", "ToInteger"); ("UnsafeGetInt32FromReservedSlot", "UnsafeGetInt32FromReservedSlot");
   ("ThrowIncompatibleMethod", "ThrowIncompatibleMethod"); ("ThrowTypeError", "ThrowTypeError");
   ("IsCallable", "IsCallable"); ("AdvanceStringIndex", "AdvanceStringIndex");
   ("GuardToMapObject", "GuardToMapObject"); ("std_Math_max", "max"); ("std_Math_min", "min")].

Definition BARE_NATIVES : list string :=
  ["parseInt"; "parseFloat"; "isNaN"; "isFinite"; "print"; "Error"; "TypeError"; "RangeError"; "ReferenceError";
   "SyntaxError"; "EvalError"; "URIError"].

(** Go on with a value; the outer [None] is a panic. *)
Definition and_then {A B} (m : option (option A)) (f : A -> option (option B)) : option (option B) :=
  x ← m; match x with Some x => f x | None => Some None end.

(** The callee definition chains are followed this deep. *)
Definition CONCRETE_DEPTH : nat := 9.

Section Seed.
  Context (source : Source) (tables : ScanTables) (W : WellKnown) (fuel : nat).

#[local] Abbreviation raise := (m_raise fuel).
#[local] Abbreviation intern_snap := (Heap.intern_snap source W fuel).
#[local] Abbreviation ts_of_sval := (Heap.ts_of_sval source intern_snap).
#[local] Abbreviation field_cell := (Heap.field_cell W fuel).

Definition m_intern_str (s : string) : M NameId := m_intern (utf16 s).

Definition raise_gname (name : NameId) (t : TypeSet) : M unit :=
  cell ← m_cell (KGName name); raise cell t (SEED, CTX0).

(** ** Natives *)

Definition seed_intrinsic_natives : M unit :=
  for_each INTRINSICS (fun p =>
    mangled ← m_intern (37 :: utf16 (fst p));
    f ← m_natives_intern NK_Bare mangled (utf16 (snd p));
    raise_gname mangled (fn_one f)).

Definition seed_bare_natives (seeded : gset NameId) : M unit :=
  for_each BARE_NATIVES (fun n =>
    name ← m_intern_str n;
    if bool_decide (name ∈ seeded) then mret tt
    else f ← native_id NK_Bare name; raise_gname name (fn_one f)).

Definition seed_namespace (i : nat) (ns : NsSpec) (gname : NameId) : M unit :=
  abs ← new_abs (AK_NativeNs (Z.of_nat i));
  m_set_abs abs (upd_ab_seeded (fun _ => true));;
  for_each (ns_methods ns) (fun m =>
    mname ← m_intern_str m;
    f ← native_id NK_Bare mname;
    cell ← field_cell abs mname;
    raise cell (fn_one f) (SEED, CTX0));;
  for_each (ns_consts ns) (fun c =>
    cname ← m_intern_str (fst c);
    cell ← field_cell abs cname;
    raise cell (ts_prim (snd c)) (SEED, CTX0));;
  t ← (if ns_ctor ns then f ← native_id NK_Bare gname; mret (set_fns (obj_one abs) (fns_one f))
       else mret (obj_one abs));
  raise_gname gname t.

Definition seed_native_namespaces (seeded : gset NameId) : M unit :=
  for_each (imap pair NAMESPACES) (fun p =>
    let '(i, ns) := p in
    gname ← m_intern_str (ns_global ns);
    if bool_decide (gname ∈ seeded) then mret tt else seed_namespace i ns gname).

(** ** Identity maps *)

(** A [prototype] property of script [s]'s function. *)
Definition note_prototype (s : ScriptId) (m : gmap ScriptId (Agreed SourceObjectId))
    (p : list Z * SourceObjectId) : M (gmap ScriptId (Agreed SourceObjectId)) :=
  want ← m_name (wk_prototype W);
  if bool_decide (fst p = want) then
    v ← get_some (sval source (snd p));
    match v with
    | Some (SV_Obj p) =>
        m_heap (upd_h_proto_owner (fun o => match o !! p with Some _ => o | None => <[p := s]> o end));;
        mret (observe m s p)
    | _ => mret m
    end
  else mret m.

Definition note_object (m : gmap ScriptId (Agreed SourceObjectId)) (x : nat * SourceObject)
    : M (gmap ScriptId (Agreed SourceObjectId)) :=
  match snd x with
  | SObject d =>
      if od_non_native d then mret m
      else
        match od_script d with
        | None => mret m
        | Some s =>
            match od_kind d with
            | K_Function =>
                m_heap (upd_h_script_fn_objs (fun o => <[s := (default [] (o !! s) ++ [Z.of_nat (fst x)])%list]> o))
            | _ => mret tt
            end;;
            props ← get_some (named_props source (od_properties d));
            fold_m props m (note_prototype s)
        end
  | _ => mret m
  end.

Definition seed_identities : M unit :=
  m ← fold_m (imap pair (src_objects source)) ∅ note_object;
  m_heap (upd_h_script_proto (fun _ => omap agreed_get m)).

(** ** Bindings and slots *)

Definition seed_global_prop (seeded : gset NameId * gset NameId) (p : list Z * SourceObjectId)
    : M (gset NameId * gset NameId) :=
  v ← get_some (sval source (snd p));
  match v with
  | None => mret seeded
  | Some v =>
      t ← ts_of_sval v;
      name ← m_intern (fst p);
      raise_gname name t;;
      mret ({[name]} ∪ fst seeded, if is_sv_obj v then {[name]} ∪ snd seeded else snd seeded)
  end.

Definition seed_gnames : M unit :=
  match src_global_object source with
  | None => mret tt
  | Some g =>
      o ← get_some (option_res (object source g));
      props ← match o with
              | SObject d => get_some (named_props source (od_properties d))
              | _ => mret []
              end;
      '(seeded, objs) ← fold_m props (∅, ∅) seed_global_prop;
      seed_native_namespaces objs;;
      seed_bare_natives seeded;;
      seed_intrinsic_natives
  end.

Definition scope_slots (x : nat * SourceObject) : list (SourceObjectId * EnvSlot * SourceObjectId) :=
  match snd x with
  | SScope d => (fun p => (Z.of_nat (fst x), fst p, snd p)) <$> sd_env_slot_values d
  | _ => []
  end.

Definition seed_slots : M unit :=
  for_each (concat (imap (fun i o => scope_slots (i, o)) (src_objects source))) (fun x =>
    let '(scope, slot, v) := x in
    v ← get_some (sval source v);
    match v with
    | None => mret tt
    | Some v =>
        t ← ts_of_sval v;
        cell ← m_cell (KAliased scope slot);
        raise cell t (SEED, CTX0)
    end).

Definition seed : M unit :=
  seed_identities;;
  seed_gnames;;
  seed_slots;;
  match src_global_object source with
  | Some g => _ ← intern_snap g; mret tt
  | None => mret tt
  end.

(** ** Shared constructors *)

(** A script whose [this] events are delegations only. *)
Definition deleg_pcs (evs : list TEvent) : option (list Pc) :=
  if existsb (fun e => match e with TE_Write _ => true | _ => false end) evs then None
  else
    let pcs := omap (fun e => match e with TE_Deleg pc => Some pc | _ => None end) evs in
    if bool_decide (pcs = []) then None else Some pcs.

Definition numbered_cons (e : Engine) : list (ScriptId * Constraint) := zip (con_script e) (cons e).

(** Later constraints overwrite earlier ones. *)
Definition read_defs (l : list (ScriptId * Constraint)) : gmap (ScriptId * VarId) (CKey * NameId) :=
  fold_left (fun m x => match x with
                        | (s, CRead recv name (CVar v) _ _) => <[(s, v) := (recv, name)]> m
                        | _ => m
                        end) l ∅.

Definition apply_targets (l : list (ScriptId * Constraint)) : gmap Site CKey :=
  fold_left (fun m x => match x with
                        | (s, CApply target _ _ _ pc _) => <[(s, pc) := target]> m
                        | _ => m
                        end) l ∅.

Definition construct_sites (l : list (ScriptId * Constraint)) : list (Site * CKey) :=
  omap (fun x => match x with
                 | (s, CCall callee _ _ _ pc true) => Some ((s, pc), callee)
                 | _ => None
                 end) l.

(** The name the constructor dispatches its arguments through. *)
Definition shared_init (reads : gmap (ScriptId * VarId) (CKey * NameId)) (targets : gmap Site CKey)
    (f : ScriptId) (pcs : list Pc) : option NameId :=
  head (omap (fun pc =>
    match targets !! (f, pc) with
    | Some (CVar tv) =>
        match reads !! (f, tv) with
        | Some (CThis, n) => Some n
        | _ => None
        end
    | _ => None
    end) pcs).

(** The first own property of that name; the outer [None] is a panic. *)
Fixpoint find_prop (want : list Z) (l : list (SourceObjectId * SourceObjectId)) : option (option SourceObjectId) :=
  match l with
  | [] => Some None
  | (k, v) :: l =>
      if is_other k then find_prop want l
      else
        o ← option_res (object source k);
        match o with
        | SString chars => if bool_decide (chars = want) then Some (Some v) else find_prop want l
        | _ => find_prop want l
        end
  end.

Definition obj_prop (names : Names) (oid : SourceObjectId) (name : NameId) : option (option SourceObjectId) :=
  if is_other oid then Some None
  else
    o ← option_res (object source oid);
    match o with
    | SObject d => want ← name_get names (Z.to_nat name); find_prop want (od_properties d)
    | _ => Some None
    end.

Fixpoint resolve_concrete (depth : nat) (names : Names) (reads : gmap (ScriptId * VarId) (CKey * NameId))
    (script : ScriptId) (key : CKey) : option (option SourceObjectId) :=
  match depth with
  | O => Some None
  | S depth =>
      match key with
      | CGName n =>
          match src_global_object source with
          | Some g => obj_prop names g n
          | None => Some None
          end
      | CVar v =>
          and_then (Some (reads !! (script, v))) (fun def =>
            and_then (resolve_concrete depth names reads script (fst def)) (fun r =>
              obj_prop names r (snd def)))
      | CAliased scope slot =>
          o ← option_res (object source scope);
          Some (match o with
                | SScope d => snd <$> List.find (fun p => Z.eqb (fst p) slot) (sd_env_slot_values d)
                | _ => None
                end)
      | _ => Some None
      end
  end.

(** One construct site against the snapshot. *)
Definition resolve_site (names : Names) (reads : gmap (ScriptId * VarId) (CKey * NameId))
    (inits : gmap ScriptId NameId) (site : Site) (callee : CKey) : option (option SharedCtorSite) :=
  and_then (resolve_concrete CONCRETE_DEPTH names reads (fst site) callee) (fun fo =>
  and_then (option_res (Source.fn_script source fo)) (fun f =>
  and_then (Some (inits !! f)) (fun init_name =>
  and_then (obj_prop names fo (wk_prototype W)) (fun proto =>
  if is_other proto then Some None
  else
    and_then (obj_prop names proto init_name) (fun init_fo =>
    and_then (option_res (Source.fn_script source init_fo)) (fun init =>
    Some (Some (mkSharedCtorSite f proto init)))))))).

Fixpoint resolve_sites (names : Names) (reads : gmap (ScriptId * VarId) (CKey * NameId))
    (inits : gmap ScriptId NameId) (l : list (Site * CKey)) : option (list (Site * SharedCtorSite)) :=
  match l with
  | [] => Some []
  | (site, callee) :: l =>
      r ← resolve_site names reads inits site callee;
      rest ← resolve_sites names reads inits l;
      Some (match r with Some r => (site, r) :: rest | None => rest end)
  end.

(** The prototypes seen behind a constructor script. *)
Definition protos_of (l : list (Site * SharedCtorSite)) (f : ScriptId) : gset SourceObjectId :=
  list_to_set (sc_proto <$> List.filter (fun r => Z.eqb (sc_ctor r) f) (snd <$> l)).

Definition commit_site (resolved : list (Site * SharedCtorSite)) (x : Site * SharedCtorSite) : M unit :=
  let '(site, shared) := x in
  if (size (protos_of resolved (sc_ctor shared)) <? 2)%nat then mret tt
  else
    c ← class_for_ctor_proto source W fuel intern_snap (sc_ctor shared) (sc_proto shared);
    m_sites (upd_st_ctor_class <[site := c]>);;
    modify (upd_sv_shared_ctor_sites <[site := shared]>).

Definition resolve_shared_ctor_sites : M unit :=
  let delegs := omap deleg_pcs (tb_this_events tables) in
  if bool_decide (delegs = ∅) then mret tt
  else
    l ← gets (fun s => numbered_cons (sv_engine s));
    let reads := read_defs l in
    let inits := map_imap (shared_init reads (apply_targets l)) delegs in
    if bool_decide (inits = ∅) then mret tt
    else
      names ← gets sv_names;
      resolved ← get_some (resolve_sites names reads inits (construct_sites l));
      for_each resolved (commit_site resolved).

(** ** The analysis, up to the emission ([analyze] of [mod.rs]) *)

Definition analyze (steps : nat) : M unit :=
  seed;;
  resolve_shared_ctor_sites;;
  solve source tables W fuel steps;;
  settle_unresolved_recv_sites.

End Seed.
