(* ===== verification/EngineExt.v ===== *)
(** * EngineExt: what any engine operation leaves in place

    A partial-correctness companion to [EngineRun], without its typing
    assumptions: cells keep their index and key, subscriptions and links only
    accumulate, the only links an operation adds by itself run between class
    views, and a raise reaches no cell but its target, the targets of links
    and class views. *)

From S2P Require Import Prelude OpSem Facts Types Engine EngineRun EngineFix.

Definition is_view (k : CellKey) : Prop := exists c n, k = KClassView c n.

Definition key_at (e : Engine) (i : CellId) (k : CellKey) : Prop := key <$> cells e !! i = Some k.

(** The adjacency lists and the set of links agree. *)
Definition lk_ok (e : Engine) : Prop :=
  forall x y, y ∈ default [] (links e !! x) <-> (x, y) ∈ link_set e.

Definition eok (e : Engine) : Prop := ids_ok e /\ lk_ok e.

Definition unlinked (e : Engine) (i : CellId) : Prop := forall x, (x, i) ∉ link_set e.

(** From [e] to [e']: new cells have keys in [N] or are views; only the cells
    in [T], views and targets of links may change. *)
Record estep (N : CellKey -> Prop) (T : CellId -> Prop) (e e' : Engine) : Prop := {
  es_ok : eok e';
  es_labels : abs_labels e' = abs_labels e;
  es_elems : elems_name e' = elems_name e;
  es_cons : cons e' = cons e /\ con_script e' = con_script e;
  es_keys : forall i k, key_at e i k -> key_at e' i k;
  es_ids : forall k i, cell_ids e !! k = Some i -> cell_ids e' !! k = Some i;
  es_new : forall k i, cell_ids e' !! k = Some i -> cell_ids e !! k = Some i \/ N k \/ is_view k;
  es_links : link_set e ⊆ link_set e';
  es_newlinks : forall x y, (x, y) ∈ link_set e' -> (x, y) ∈ link_set e \/
    (exists k l, key_at e' x k /\ key_at e' y l /\ is_view k /\ is_view l);
  es_subs : sub_set e ⊆ sub_set e';
  es_frame : forall i k, key_at e i k -> ~ is_view k -> unlinked e i -> ~ T i -> ts_of e' i = ts_of e i }.

Definition none {A} : A -> Prop := fun _ => False.

Lemma estep_refl N T (e : Engine) : eok e -> estep N T e e.
Proof. intros H. split; auto. Qed.

Lemma unlinked_step N T (e e' : Engine) (i : CellId) (k : CellKey) :
  estep N T e e' -> key_at e i k -> ~ is_view k -> unlinked e i -> unlinked e' i.
Proof.
  intros S Hk Hv Hu x Hx. destruct (es_newlinks _ _ _ _ S _ _ Hx) as [H|(k' & l & _ & Hl & _ & V)]; [by apply (Hu x)|].
  apply Hv. pose proof (es_keys _ _ _ _ S _ _ Hk) as Hk'. unfold key_at in *. congruence.
Qed.

Lemma estep_trans N T (e1 e2 e3 : Engine) : estep N T e1 e2 -> estep N T e2 e3 -> estep N T e1 e3.
Proof.
  intros S1 S2. destruct (es_cons _ _ _ _ S1), (es_cons _ _ _ _ S2). split.
  - apply S2.
  - rewrite (es_labels _ _ _ _ S2). apply S1.
  - rewrite (es_elems _ _ _ _ S2). apply S1.
  - split; congruence.
  - intros i k H'. eapply es_keys; [done|]. by eapply es_keys.
  - intros k i H'. eapply es_ids; [done|]. by eapply es_ids.
  - intros k i H'. destruct (es_new _ _ _ _ S2 _ _ H') as [H''|]; [by apply (es_new _ _ _ _ S1)|auto].
  - etransitivity; [apply S1|apply S2].
  - intros x y H'. destruct (es_newlinks _ _ _ _ S2 _ _ H') as [H''|]; [|auto].
    destruct (es_newlinks _ _ _ _ S1 _ _ H'') as [|(k & l & Hk & Hl & V)]; [auto|].
    right. exists k, l. split_and!; [by eapply es_keys..|apply V|apply V].
  - etransitivity; [apply S1|apply S2].
  - intros i k Hk Hv Hu Ht. rewrite (es_frame _ _ _ _ S2 i k); [by eapply es_frame|by eapply es_keys|done| |done].
    by eapply unlinked_step.
Qed.

Lemma estep_weaken (N N' : CellKey -> Prop) (T T' : CellId -> Prop) (e e' : Engine) :
  (forall k, N k -> N' k) -> (forall i, T i -> T' i) -> estep N T e e' -> estep N' T' e e'.
Proof.
  intros HN HT []. split; try done.
  - intros k i H. destruct (es_new0 k i H) as [|[|]]; auto.
  - intros i k H1 H2 H3 H4. eapply es_frame0; eauto.
Qed.

(** A target that has incoming links, or is a view, is covered anyway. *)
Lemma estep_linked N (T : CellId -> Prop) (e e' : Engine) (d : CellId) :
  (exists x, (x, d) ∈ link_set e) \/ (exists k, key_at e d k /\ is_view k) ->
  estep N (fun i => T i \/ i = d) e e' -> estep N T e e'.
Proof.
  intros Hd []. split; try done. intros i k Hk Hv Hu Ht. eapply es_frame0; [done..|].
  intros [| ->]; [done|]. destruct Hd as [[x Hx]|(k' & Hk' & V)]; [by apply (Hu x)|].
  unfold key_at in *. congruence.
Qed.

(** Updates that keep the cells, the links and the labels. *)
Record same_graph (e e' : Engine) : Prop := {
  sg_cells : cells e' = cells e;
  sg_ids : cell_ids e' = cell_ids e;
  sg_links : links e' = links e /\ link_set e' = link_set e;
  sg_subs : sub_set e ⊆ sub_set e';
  sg_labels : abs_labels e' = abs_labels e;
  sg_elems : elems_name e' = elems_name e;
  sg_cons : cons e' = cons e /\ con_script e' = con_script e }.

Lemma same_graph_step N T (e e' : Engine) : eok e -> same_graph e e' -> estep N T e e'.
Proof.
  intros [H1 H2] [Hc Hi [Hl Hs] Hsub Hlab He Hcon].
  split; unfold eok, ids_ok, lk_ok, key_at, ts_of in *; rewrite ?Hc, ?Hi, ?Hl, ?Hs; auto.
Qed.

(** ** Cells *)

Lemma ids_lookup (e : Engine) (k : CellKey) (i : CellId) : eok e -> cell_ids e !! k = Some i <-> key_at e i k.
Proof. intros [H _]. apply H. Qed.

Lemma key_at_lt (e : Engine) (i : CellId) (k : CellKey) : key_at e i k -> (i < length (cells e))%nat.
Proof. unfold key_at. rewrite fmap_Some. intros (c & H & _). by eapply lookup_lt_Some. Qed.

Lemma cell_step (e : Engine) (k : CellKey) :
  eok e ->
  let '(e', i) := cell e k in estep (fun k' => k' = k) none e e' /\ cell_ids e' !! k = Some i.
Proof.
  intros Hok. unfold cell. destruct (cell_ids e !! k) as [i|] eqn:E; [split; [by apply estep_refl|done]|].
  destruct Hok as [Hi Hl]. unfold ids_ok in Hi. cbn. split; [|by rewrite lookup_insert_eq].
  assert (forall i x, key_at e i x -> key_at (set_cells e (cells e ++ [mkCell k ts_default 0])
            (<[k := length (cells e)]> (cell_ids e))) i x) as Hkeys.
  { intros i x H. unfold key_at in *. cbn. rewrite lookup_app_l; [done|]. by eapply key_at_lt. }
  split; cbn; auto.
  - split; [|done]. intros k' i. cbn. destruct (decide (k' = k)) as [-> |Hne].
    + rewrite lookup_insert_eq. split.
      * intros [= <-]. by rewrite lookup_app_r, Nat.sub_diag.
      * rewrite lookup_app. destruct (cells e !! i) as [c|] eqn:Ec.
        -- intros Hk. assert (cell_ids e !! k = Some i); [|congruence]. apply Hi. by rewrite Ec.
        -- apply lookup_ge_None in Ec. destruct (i - length (cells e))%nat eqn:Ed; [|by destruct n].
           intros _. f_equal. lia.
    + rewrite lookup_insert_ne by congruence. rewrite Hi, lookup_app.
      destruct (cells e !! i) as [c|] eqn:Ec; [done|]. apply lookup_ge_None in Ec.
      destruct (i - length (cells e))%nat eqn:Ed; cbn; [|by destruct n]. split; [done|congruence].
  - intros k' i Hk'. rewrite lookup_insert_ne; [done|congruence].
  - intros k' i. destruct (decide (k' = k)) as [-> |Hne]; [auto|]. rewrite lookup_insert_ne by congruence. auto.
  - intros i k' Hk' _ _ _. unfold ts_of. cbn. rewrite lookup_app_l; [done|]. by eapply key_at_lt.
Qed.

Lemma read_graph (e e' : Engine) (id : CellId) (u : User) (t : TypeSet) :
  read e id u = Some (e', t) ->
  same_graph e e' /\ ts_of e id = Some t /\ (id, fst u, snd u) ∈ sub_set e'.
Proof.
  unfold read. case_bool_decide as Hin.
  - destruct (ts_of e id) eqn:E; cbn; [|done]. intros [= <- <-]. split_and!; [by split|done|done].
  - destruct (ts_of _ id) eqn:E; cbn; [|done]. intros [= <- <-].
    split_and!; [split; cbn; (done || set_solver)|done|cbn; set_solver].
Qed.

Lemma enqueue_all_graph (us : list User) (e : Engine) : same_graph e (enqueue_all e us).
Proof.
  unfold enqueue_all. revert e. induction us as [|u us IH]; intros e; cbn [fold_left]; [by split|].
  destruct (IH (enqueue e u)). unfold enqueue in *. case_bool_decide; split; done.
Qed.

Lemma instantiate_graph (e : Engine) (s : ScriptId) (c : CtxId) : same_graph e (fst (instantiate e s c)).
Proof.
  unfold instantiate. case_bool_decide; [by split|]. cbn. destruct (script_cons e !! s); [|by split].
  destruct (enqueue_all_graph ((fun x => (x, c)) <$> l) (set_live e (<[s := default [] (live_ctxs e !! s) ++ [c]]> (live_ctxs e)))).
  split; done.
Qed.

(** ** Links and raises *)

Lemma set_links_step N T (e : Engine) (src dst : CellId) (k l : CellKey) :
  eok e -> key_at e src k -> key_at e dst l -> is_view k -> is_view l ->
  estep N T e (set_links e (<[src := default [] (links e !! src) ++ [dst]]> (links e)) ({[(src, dst)]} ∪ link_set e)).
Proof.
  intros [Hi Hl] Hk Hk' V V'. unfold lk_ok in Hl. split; cbn; auto; [|set_solver|].
  - split; [done|]. intros x y. cbn. destruct (decide (x = src)) as [-> |Hne].
    + rewrite lookup_insert_eq. cbn. rewrite elem_of_app, list_elem_of_singleton, Hl, elem_of_union, elem_of_singleton.
      intuition congruence.
    + rewrite lookup_insert_ne by congruence. rewrite Hl, elem_of_union, elem_of_singleton.
      intuition congruence.
  - intros x y [H|H]%elem_of_union; [|auto]. apply elem_of_singleton in H as [= -> ->].
    right. by exists k, l.
Qed.

Lemma settle_graph (e : Engine) (id : CellId) (t : TypeSet) (w : bool) (why : User) (n : Z) :
  let e1 := note_anyobj (set_ts e id t) w id why in
  let e2 := bump_changes e1 id in
  let e3 := set_stats e2 n (anyobj_why e2) (anyobj_first e2) in
  let e' := enqueue_all e3 (default [] (subs e3 !! id)) in
  eok e -> estep none (fun i => i = id) e e'.
Proof.
  intros e1 e2 e3 e' Hok.
  pose proof (enqueue_all_graph (default [] (subs e3 !! id)) e3) as G. fold e' in G.
  assert (same_graph (set_ts e id t) e1) as G1 by (unfold e1, note_anyobj; repeat case_match; by split).
  assert (cells e' = alter (fun c => mkCell (key c) (ts c) (wrap_u 16 (changes c + 1))) id
            (alter (fun c => mkCell (key c) t (changes c)) id (cells e))) as Hc.
  { rewrite (sg_cells _ _ G). cbn. rewrite (sg_cells _ _ G1). done. }
  assert (forall i, key <$> cells e' !! i = key <$> cells e !! i) as Hk.
  { intros i. rewrite Hc. destruct (decide (i = id)) as [->|]; [|by rewrite !list_lookup_alter_ne by congruence].
    rewrite !list_lookup_alter_eq. by destruct (cells e !! id). }
  destruct (sg_links _ _ G) as [Gl Gs], (sg_links _ _ G1) as [Gl1 Gs1], (sg_cons _ _ G) as [? ?], (sg_cons _ _ G1) as [? ?].
  pose proof (sg_ids _ _ G) as Gi. pose proof (sg_ids _ _ G1) as Gi1. cbn in *.
  assert (cell_ids e' = cell_ids e) as Ei by congruence.
  assert (links e' = links e) as El by congruence. assert (link_set e' = link_set e) as Es by congruence.
  split; rewrite ?Ei, ?Es; auto.
  - destruct Hok as [Hi Hl]. split.
    + intros k i. rewrite Ei, Hk. apply Hi.
    + intros x y. rewrite El, Es. apply Hl.
  - rewrite (sg_labels _ _ G). cbn. by rewrite (sg_labels _ _ G1).
  - rewrite (sg_elems _ _ G). cbn. by rewrite (sg_elems _ _ G1).
  - split; congruence.
  - intros i k. unfold key_at. by rewrite Hk.
  - etransitivity; [|apply G]. cbn. apply G1.
  - intros i k _ _ _ Hne. unfold ts_of. rewrite Hc. by rewrite !list_lookup_alter_ne by congruence.
Qed.

Section Raise.
Context (rr : Engine -> CellId -> TypeSet -> User -> option Engine).
Hypothesis rr_step : forall e id t why e', rr e id t why = Some e' -> eok e -> estep none (fun i => i = id) e e'.

Lemma raise_all_step (why : User) (v : TypeSet) (ds : list CellId) (e e' : Engine) :
  raise_all rr e ds v why = Some e' -> eok e -> (forall d, d ∈ ds -> exists x, (x, d) ∈ link_set e) ->
  estep none none e e'.
Proof.
  revert e. induction ds as [|d ds IH]; intros e; cbn [raise_all].
  - intros [= <-] H _. by apply estep_refl.
  - destruct (rr e d v why) as [e1|] eqn:E; cbn; [|done]. intros H Hok Hd.
    assert (estep none none e e1) as S1.
    { apply (estep_linked _ _ _ _ d); [left; apply Hd; set_solver|].
      eapply estep_weaken; [..|by eapply rr_step]; auto. }
    eapply estep_trans; [done|]. eapply IH; [done|apply S1|].
    intros d' Hd'. destruct (Hd d') as [x Hx]; [set_solver|]. exists x. by apply (es_links _ _ _ _ S1), Hx.
Qed.

Lemma link_views_step (e e' : Engine) (src dst : CellId) (k l : CellKey) :
  link_with rr e src dst = Some e' -> eok e -> key_at e src k -> key_at e dst l -> is_view k -> is_view l ->
  estep none none e e'.
Proof.
  unfold link_with. intros H Hok Hk Hl V V'. destruct (_ || _); [injection H as <-; by apply estep_refl|].
  pose proof (set_links_step none none e src dst k l Hok Hk Hl V V') as S.
  set (e1 := set_links _ _ _) in *. destruct (ts_of e1 src) as [v|]; cbn in H; [|done].
  destruct (ts_is_empty v); [by injection H as <-|].
  eapply estep_trans; [done|]. apply (estep_linked _ _ _ _ dst).
  - right. exists l. split; [by eapply es_keys|done].
  - eapply estep_weaken; [..|eapply rr_step; [done|apply S]]; auto.
Qed.

Lemma union_regions_step (e e' : Engine) (c d r : ClassId) :
  union_regions_with rr e c d = Some (e', r) -> eok e -> estep none none e e'.
Proof.
  unfold union_regions_with. case_bool_decide; [intros [= <- <-] Hok; by apply estep_refl|].
  destruct (if _ : bool then _ else _) as [win lose].
  set (e1 := set_regions _ _ _). intros H' Hok.
  assert (estep none none e e1) as S1 by (apply same_graph_step; [done|by split]).
  destruct (elems_name e1) as [en|]; [|by injection H' as <- <-].
  pose proof (cell_step e1 (KClassView lose en)) as C1. destruct (cell e1 _) as [e2 from].
  destruct (C1 (es_ok _ _ _ _ S1)) as [S2 K2]. clear C1.
  pose proof (cell_step e2 (KClassView win en)) as C2. destruct (cell e2 _) as [e3 to].
  destruct (C2 (es_ok _ _ _ _ S2)) as [S3 K3]. clear C2.
  destruct (link_with rr e3 from to) as [e4|] eqn:E4; cbn in H'; [|done]. injection H' as <- <-.
  assert (forall a b x y, estep (fun k => k = KClassView x y) none a b -> estep none none a b) as Wk.
  { intros a b x y S. destruct S. split; auto. intros k i Hk. destruct (es_new0 k i Hk) as [|[->|]]; auto.
    right. right. by exists x, y. }
  eapply estep_trans; [done|]. eapply estep_trans; [by eapply Wk|]. eapply estep_trans; [by eapply Wk|].
  eapply link_views_step; [done|apply S3| | |by eexists _, _|by eexists _, _].
  - apply ids_lookup; [apply S3|]. by eapply es_ids.
  - apply ids_lookup; [apply S3|done].
Qed.

Lemma rescue_step (e e' : Engine) (a b : ObjType) (o : option ObjType) :
  rescue_with rr e a b = Some (e', o) -> eok e -> estep none none e e'.
Proof.
  unfold rescue_with. intros H Hok.
  assert (forall c d (f : ClassId -> option ObjType), ('(e, r) ← union_regions_with rr e c d; Some (e, f r)) = Some (e', o) ->
    estep none none e e') as HU.
  { intros c d f HU. destruct (union_regions_with rr e c d) as [[e1 r]|] eqn:E; cbn in HU; [|done].
    injection HU as <- <-. by eapply union_regions_step. }
  destruct (array_region_of e a) as [c|], (array_region_of e b) as [d|];
    [by apply (HU c d (fun r => Some (OClassAny r)))|..].
  all: case_bool_decide; [|injection H as <- <-; by apply estep_refl].
  all: destruct (class_and_arrayness e a) as [[c'|] aa], (class_and_arrayness e b) as [[d'|] ab].
  all: try (injection H as <- <-; by apply estep_refl).
  all: destruct (negb aa && negb ab); [by apply (HU c' d' (fun r => Some (OAnyOf r)))|injection H as <- <-; by apply estep_refl].
Qed.

Lemma join_ts_step (e e' : Engine) (dst src t : TypeSet) (ch : bool) :
  join_ts_with rr e dst src = Some (e', t, ch) -> eok e -> estep none none e e'.
Proof.
  unfold join_ts_with. destruct (rescue_with rr e _ _) as [[e1 jo]|] eqn:E; cbn; [|done]. intros H Hok.
  pose proof (rescue_step _ _ _ _ _ E Hok) as S. destruct (join_from _ _ _ _) as [[x sk] c0].
  assert (estep none none e (set_sink e1 sk)) as S'.
  { eapply estep_trans; [done|]. apply same_graph_step; [apply S|by split]. }
  repeat case_match; by simplify_eq.
Qed.

Lemma raise_with_step (e e' : Engine) (id : CellId) (t : TypeSet) (why : User) :
  raise_with rr e id t why = Some e' -> eok e -> estep none (fun i => i = id) e e'.
Proof.
  unfold raise_with. destruct (ts_of e id) as [cur|]; cbn [mbind option_bind]; [|done].
  destruct (no_growth e cur t); [intros [= <-]; apply estep_refl|].
  destruct (join_ts_with rr e cur t) as [[[e1 j] ch]|] eqn:E; cbn [mbind option_bind]; [|done].
  intros H Hok. pose proof (join_ts_step _ _ _ _ _ _ E Hok) as S1.
  apply (estep_weaken none none none (fun i => i = id)) in S1; [|done..].
  destruct (negb ch); [by injection H as <-|]. cbv zeta in H.
  pose proof (settle_graph e1 id j (bool_decide (obj cur = OAnyObject)) why
    (n_raises (bump_changes (note_anyobj (set_ts e1 id j) (bool_decide (obj cur = OAnyObject)) id why) id) + 1)
    (es_ok _ _ _ _ S1)) as S2. cbv zeta in S2.
  match type of S2 with estep _ _ _ ?x => set (e2 := x) in * end.
  pose proof (estep_trans _ _ _ _ _ S1 S2) as S12.
  destruct (links e2 !! id) as [ds|] eqn:Eds; [|by injection H as <-].
  destruct (ts_of e2 id) as [v|]; cbn in H; [|done].
  eapply estep_trans; [done|]. apply (estep_weaken none none none (fun i => i = id)); [done..|].
  eapply raise_all_step; [done|apply S12|]. intros d Hd. exists id.
  apply (proj2 (es_ok _ _ _ _ S12)). by rewrite Eds.
Qed.

End Raise.

Lemma raise_step (n : nat) (e e' : Engine) (id : CellId) (t : TypeSet) (why : User) :
  raise n e id t why = Some e' -> eok e -> estep none (fun i => i = id) e e'.
Proof.
  revert e e' id t why. induction n as [|n IH]; intros e e' id t why; cbn [raise]; [done|].
  apply raise_with_step. eauto.
Qed.

Lemma join_ts_ext (n : nat) (e e' : Engine) (dst src t : TypeSet) (ch : bool) :
  join_ts n e dst src = Some (e', t, ch) -> eok e -> estep none none e e'.
Proof. apply join_ts_step. intros. by eapply raise_step. Qed.

(** A link: the one pair it adds is in the graph afterwards. *)
Record linked_step (src dst : CellId) (e e' : Engine) : Prop := {
  ls_step : exists e1, eok e1 /\ estep none none e1 e' /\
    links e1 = (if bool_decide (src = dst) || bool_decide ((src, dst) ∈ link_set e) then links e
                else <[src := default [] (links e !! src) ++ [dst]]> (links e)) /\
    link_set e1 = (if bool_decide (src = dst) then link_set e else {[(src, dst)]} ∪ link_set e) /\
    cells e1 = cells e /\ cell_ids e1 = cell_ids e /\ abs_labels e1 = abs_labels e /\
    elems_name e1 = elems_name e /\ sub_set e1 = sub_set e /\ cons e1 = cons e /\ con_script e1 = con_script e }.

Lemma link_step (n : nat) (e e' : Engine) (src dst : CellId) :
  link n e src dst = Some e' -> eok e -> linked_step src dst e e'.
Proof.
  unfold link, link_with. intros H Hok. destruct Hok as [Hi Hl]. unfold lk_ok in Hl.
  case_bool_decide as Heq; cbn [orb] in H.
  { injection H as <-. split. exists e. split_and!; [by split|by apply estep_refl|..]; try done.
    - by rewrite bool_decide_true by done.
    - by rewrite bool_decide_true by done. }
  case_bool_decide as Hin; cbn [orb] in H.
  { injection H as <-. split. exists e. split_and!; [by split|by apply estep_refl|..]; try done.
    - by rewrite (bool_decide_true (_ ∈ _)) by done; destruct (bool_decide _).
    - rewrite bool_decide_false by done. set_solver. }
  set (e1 := set_links _ _ _) in *.
  assert (eok e1) as Hok1.
  { split; [done|]. intros x y. cbn. destruct (decide (x = src)) as [-> |Hne].
    + rewrite lookup_insert_eq. cbn. rewrite elem_of_app, list_elem_of_singleton, Hl, elem_of_union, elem_of_singleton.
      intuition congruence.
    + rewrite lookup_insert_ne by congruence. rewrite Hl, elem_of_union, elem_of_singleton.
      intuition congruence. }
  assert (estep none none e1 e') as S.
  { destruct (ts_of e1 src) as [v|]; cbn in H; [|done].
    destruct (ts_is_empty v); [injection H as <-; by apply estep_refl|].
    apply (estep_linked _ _ _ _ dst); [left; exists src; cbn; apply elem_of_union; left; by apply elem_of_singleton|].
    eapply estep_weaken; [..|by eapply raise_step]; auto. }
  split. exists e1. rewrite !bool_decide_false by done. by split_and!.
Qed.

(** ** The structural constraints *)

Lemma resolve_step (e : Engine) (sid : ScriptId) (ctx : CtxId) (k : CKey) :
  eok e -> estep (fun k' => exists c, k' = resolve_key sid ctx c) none e (fst (resolve e sid ctx k)).
Proof.
  intros Hok. unfold resolve. pose proof (cell_step e (resolve_key sid ctx k) Hok) as H.
  destruct (cell e _) as [e' i]. destruct H as [S _]. eapply estep_weaken; [..|exact S]; [|done]. intros ? ->. by eexists.
Qed.

Lemma read_step N T (e e' : Engine) (id : CellId) (u : User) (t : TypeSet) :
  read e id u = Some (e', t) -> eok e -> estep N T e e'.
Proof. intros H Hok. apply same_graph_step; [done|]. by apply (read_graph e e' id u t). Qed.

#[local] Abbreviation script_key := (fun k => exists s x c, k = resolve_key s x c).

(** A core evaluation raises a cell a constraint key names. *)
Lemma eval_core_step (n : nat) (e e' : Engine) (u : User) (b : bool) :
  eval_core n e u = Some (e', b) -> eok e ->
  estep script_key (fun i => exists k, script_key k /\ key_at e' i k) e e'.
Proof.
  unfold eval_core. destruct u as [con ctx].
  destruct (con_script e !! Z.to_nat con) as [sid|]; cbn [mbind option_bind]; [|done].
  destruct (cons e !! Z.to_nat con) as [c|]; cbn [mbind option_bind]; [|done]. intros H Hok.
  assert (forall e1 e2 T k, eok e1 -> resolve e1 sid ctx k = (e2, T) ->
    estep script_key none e1 e2 /\ key_at e2 T (resolve_key sid ctx k)) as HR.
  { intros e1 e2 T k Hok1 E. unfold resolve in E. pose proof (cell_step e1 (resolve_key sid ctx k) Hok1) as HC.
    rewrite E in HC. destruct HC as [S K]. split; [|by apply ids_lookup; [apply S|]].
    eapply estep_weaken; [..|exact S]; [|done]. intros ? ->. by eexists _, _, _. }
  assert (forall e1 e2 d k t, estep script_key none e e1 -> key_at e1 d (resolve_key sid ctx k) ->
    raise n e1 d t (con, ctx) = Some e2 -> estep script_key (fun i => exists k, script_key k /\ key_at e2 i k) e e2) as HF.
  { intros e1 e2 d k t S Hd E. pose proof (raise_step _ _ _ _ _ _ E (es_ok _ _ _ _ S)) as S2.
    eapply estep_trans; [eapply estep_weaken; [..|exact S]; [done|by intros ? []]|].
    eapply estep_weaken; [..|exact S2]; [by intros ? []|]. intros i ->. eexists.
    split; [by eexists _, _, _|]. by eapply es_keys. }
  destruct c as [src dst|dst t| | | | | | |op a b0 dst a_lit b_lit pc];
    try (injection H as <- <-; by apply estep_refl).
  - destruct (resolve e sid ctx src) as [e1 s] eqn:E1. destruct (HR _ _ _ _ Hok E1) as [S1 _].
    destruct (resolve e1 sid ctx dst) as [e2 d] eqn:E2. destruct (HR _ _ _ _ (es_ok _ _ _ _ S1) E2) as [S2 K2].
    destruct (read e2 s (con, ctx)) as [[e3 v]|] eqn:E3; cbn in H; [|done].
    destruct (raise n e3 d v (con, ctx)) as [e4|] eqn:E4; cbn in H; [|done]. injection H as <- <-.
    pose proof (read_step script_key none _ _ _ _ _ E3 (es_ok _ _ _ _ S2)) as S3.
    eapply HF; [|by eapply es_keys|exact E4]. eapply estep_trans; [done|]. by eapply estep_trans.
  - destruct (resolve e sid ctx dst) as [e1 d] eqn:E1. destruct (HR _ _ _ _ Hok E1) as [S1 K1].
    destruct (raise n e1 d t (con, ctx)) as [e4|] eqn:E4; cbn in H; [|done]. injection H as <- <-.
    by eapply HF.
  - destruct (resolve e sid ctx a) as [e1 ca] eqn:E1. destruct (HR _ _ _ _ Hok E1) as [S1 _].
    destruct (read e1 ca (con, ctx)) as [[e2 ta]|] eqn:E2; cbn in H; [|done].
    pose proof (read_step script_key none _ _ _ _ _ E2 (es_ok _ _ _ _ S1)) as S2.
    destruct (read_opt e2 sid ctx b0 (con, ctx)) as [[e3 tb]|] eqn:E3; cbn in H; [|done].
    assert (estep script_key none e e3) as S3.
    { eapply estep_trans; [done|]. eapply estep_trans; [done|]. unfold read_opt in E3.
      destruct b0 as [kb|]; [|injection E3 as <- <-; apply estep_refl, S2].
      destruct (resolve e2 sid ctx kb) as [e2' cb] eqn:Eb. destruct (HR _ _ _ _ (es_ok _ _ _ _ S2) Eb) as [Sb _].
      destruct (read e2' cb (con, ctx)) as [[e2'' x]|] eqn:Er; cbn in E3; [|done]. injection E3 as <- <-.
      eapply estep_trans; [done|]. eapply read_step; [done|apply Sb]. }
    destruct (arith_transfer op ta tb) as [[m r]|]; cbn in H; [|done].
    destruct (_ || _).
    + destruct (resolve e3 sid ctx dst) as [e4 d] eqn:E4. destruct (HR _ _ _ _ (es_ok _ _ _ _ S3) E4) as [S4 K4].
      destruct (raise n e4 d _ (con, ctx)) as [e5|] eqn:E5; cbn in H; [|done]. injection H as <- <-.
      eapply HF; [|done|exact E5]. by eapply estep_trans.
    + injection H as <- <-. eapply estep_weaken; [..|exact S3]; [done|by intros ? []].
Qed.
