(* ===== verification/HeapInv.v ===== *)
(** * HeapInv: the invariant of the heap model and a logic to preserve it

    A solver state is well-formed when the interning maps, the dense vectors,
    the engine's labels and the field lists tell one story and every standing
    link has one of the seven shapes the heap model installs; the method
    tables are complete when every source of a class feeds every name its
    table knows.  Operations are specified by partial triples: from a good
    state, a run that returns ends in a good state, extends the old one, and
    leaves the fields of allocation sites alone except where it may write. *)

From S2P Require Import Prelude OpSem Facts Types Engine EngineRun EngineFix EngineExt Contexts Builtins SolverState Heap.

(** ** Views of a state *)

Abbreviation eng s := (sv_engine s).
Definition abs_at (s : Solver) (a : AbsId) : option Abstraction := h_abs (sv_heap s) !! a.
Definition class_at (s : Solver) (c : ClassId) : option ClassInfo := h_classes (sv_heap s) !! c.
Definition interned (s : Solver) (k : CellKey) (i : CellId) : Prop := cell_ids (eng s) !! k = Some i.
Definition has_key (s : Solver) (a : AbsId) (k : AbsKey) : Prop := ab_key <$> abs_at s a = Some k.
Definition has_abs (s : Solver) (a : AbsId) : Prop := is_Some (abs_at s a).
Definition has_class (s : Solver) (c : ClassId) : Prop := is_Some (class_at s c).
Definition table_of (s : Solver) (c : ClassId) (pa : AbsId) : Prop := ci_proto_abs <$> class_at s c = Some pa.
Definition is_source (s : Solver) (c : ClassId) (src : AbsId) : Prop :=
  exists ci, class_at s c = Some ci /\ src ∈ ci_sources ci.
Definition has_field (s : Solver) (a : AbsId) (n : NameId) : Prop := n ∈ fields (sv_heap s) a.
Definition is_proto (s : Solver) (a : AbsId) : Prop := exists c, has_key s a (AK_ProtoOf c).

Definition is_alloc (k : AbsKey) : bool := match k with AK_Alloc _ _ _ => true | _ => false end.
Definition is_snap_key (k : AbsKey) : bool := match k with AK_Snap _ => true | _ => false end.
Definition is_ns (k : AbsKey) : bool := match k with AK_NativeNs _ => true | _ => false end.
Definition is_field (k : CellKey) : bool := match k with KField _ _ => true | _ => false end.

Definition linked (s : Solver) (k l : CellKey) : Prop :=
  exists i j, interned s k i /\ interned s l j /\ (i = j \/ (i, j) ∈ link_set (eng s)).

(** The value a key's cell holds, when the cell exists. *)
Definition cell_value (s : Solver) (k : CellKey) : option TypeSet := cell_ids (eng s) !! k ≫= ts_of (eng s).

(** ** The invariant *)

(** The shapes of standing links; a prototype abstraction is the only kind of
    object whose fields receive values from other cells. *)
Inductive flows (s : Solver) : CellKey -> CellKey -> Prop :=
  | fl_views c n d m : flows s (KClassView c n) (KClassView d m)
  | fl_table a p n : is_proto s p -> flows s (KField a n) (KField p n)
  | fl_view a c n : flows s (KField a n) (KClassView c n)
  | fl_elems a n : flows s (KField a n) KArrayElemsUnion
  | fl_class c n : flows s (KClassField c n) (KClassView c n)
  | fl_this f c n : flows s (KThisField f n) (KClassField c n)
  | fl_formal a f i : flows s (KTableArgJoin a i) (KArg f i CTX0).

Definition label_of (a : Abstraction) : AbsLabels :=
  mkAbsLabels (ab_class a) (is_snap_key (ab_key a)) (ab_is_array a).

Definition class_of_key (k : AbsKey) : option ClassId := match k with AK_ProtoOf c => Some c | _ => None end.

(** One abstraction among [nc] classes and [na] abstractions. *)
Record abs_ok (na nc : nat) (x : Abstraction) : Prop := {
  ao_class : forall c, ab_class x = Some c -> (c < nc)%nat;
  ao_owner : forall c, ab_owner_class x = Some c -> (c < nc)%nat;
  ao_proto : forall p, ab_proto x = PL_Abs p -> (p < na)%nat;
  ao_proto_of : ab_proto_of x = class_of_key (ab_key x);
  ao_table : forall c, ab_key x = AK_ProtoOf c -> ab_owner_class x = Some c }.

Section Inv.
  Context (W : WellKnown).

Record wf (s : Solver) : Prop := {
  wf_eng : eok (eng s);
  wf_elems : elems_name (eng s) = Some (wk_elems W);
  wf_labels : abs_labels (eng s) = label_of <$> h_abs (sv_heap s);
  wf_abs_ids : forall k a, h_abs_ids (sv_heap s) !! k = Some a -> has_key s a k;
  wf_key_ids : forall k a, is_ns k = false -> has_key s a k -> h_abs_ids (sv_heap s) !! k = Some a;
  wf_class_ids : forall k c, h_class_ids (sv_heap s) !! k = Some c <-> ci_key <$> class_at s c = Some k;
  wf_abs : forall a x, abs_at s a = Some x -> abs_ok (length (h_abs (sv_heap s))) (length (h_classes (sv_heap s))) x;
  wf_table : forall c pa, table_of s c pa -> has_key s pa (AK_ProtoOf c);
  wf_sources : forall c src, is_source s c src -> has_abs s src;
  wf_fields : forall a n, has_field s a n <-> exists i, interned s (KField a n) i;
  wf_field_abs : forall a n, has_field s a n -> has_abs s a;
  wf_flows : forall x y, (x, y) ∈ link_set (eng s) -> exists k l, key_at (eng s) x k /\ key_at (eng s) y l /\ flows s k l }.

(** Every source of every class feeds every name of the class's table, except
    the triples in [X], whose links are being installed. *)
Definition complete (X : ClassId -> AbsId -> NameId -> Prop) (s : Solver) : Prop :=
  forall c pa src n, table_of s c pa -> is_source s c src -> has_field s pa n ->
  X c src n \/ linked s (KField src n) (KField pa n).

(** ** Extension *)

Record abs_ext (x y : Abstraction) : Prop := {
  ae_key : ab_key y = ab_key x;
  ae_class : ab_class y = ab_class x;
  ae_proto_of : ab_proto_of y = ab_proto_of x;
  ae_array : ab_is_array y = ab_is_array x;
  ae_owner : forall c, ab_owner_class x = Some c -> ab_owner_class y = Some c;
  ae_proto : forall p, ab_proto x = PL_Abs p -> ab_proto y = PL_Abs p }.

(** [A]: the allocation-site fields that may change. *)
Record ext (A : AbsId -> NameId -> Prop) (s s' : Solver) : Prop := {
  ex_abs : forall a x, abs_at s a = Some x -> exists y, abs_at s' a = Some y /\ abs_ext x y;
  ex_class : forall c pa, table_of s c pa -> table_of s' c pa;
  ex_source : forall c src, is_source s c src -> is_source s' c src;
  ex_field : forall a n, has_field s a n -> has_field s' a n;
  ex_ids : forall k i, interned s k i -> interned s' k i;
  ex_links : link_set (eng s) ⊆ link_set (eng s');
  ex_subs : sub_set (eng s) ⊆ sub_set (eng s');
  ex_cons : cons (eng s') = cons (eng s) /\ con_script (eng s') = con_script (eng s);
  ex_frame : forall a n k t, has_key s a k -> is_alloc k = true -> ~ A a n ->
    cell_value s (KField a n) = Some t -> cell_value s' (KField a n) = Some t }.

Lemma abs_ext_refl (x : Abstraction) : abs_ext x x.
Proof. by split. Qed.

Lemma abs_ext_trans (x y z : Abstraction) : abs_ext x y -> abs_ext y z -> abs_ext x z.
Proof. intros [] []. split; try congruence; auto. Qed.

Lemma has_key_ext A s s' a k : ext A s s' -> has_key s a k -> has_key s' a k.
Proof.
  intros E. unfold has_key. rewrite fmap_Some. intros (x & Hx & ->).
  destruct (ex_abs _ _ _ E a x Hx) as (y & -> & Hy). cbn. f_equal. apply Hy.
Qed.

Lemma heap_ext_refl A s : ext A s s.
Proof. split; eauto using abs_ext_refl. Qed.

Lemma heap_ext_trans A s1 s2 s3 : ext A s1 s2 -> ext A s2 s3 -> ext A s1 s3.
Proof.
  intros E1 E2. destruct (ex_cons _ _ _ E1), (ex_cons _ _ _ E2). split; eauto using ex_class, ex_source, ex_field, ex_ids.
  - intros a x H'. destruct (ex_abs _ _ _ E1 a x H') as (y & Hy & X1).
    destruct (ex_abs _ _ _ E2 a y Hy) as (z & Hz & X2). exists z. split; [done|]. by eapply abs_ext_trans.
  - etransitivity; [apply E1|apply E2].
  - etransitivity; [apply E1|apply E2].
  - split; congruence.
  - intros a n k t Hk Ha HA Ht. eapply (ex_frame _ _ _ E2); [by eapply has_key_ext|done..|].
    by eapply (ex_frame _ _ _ E1).
Qed.

(** ** Facts that survive an extension *)

Lemma has_abs_ext A s s' a : ext A s s' -> has_abs s a -> has_abs s' a.
Proof. intros E [x Hx]. destruct (ex_abs _ _ _ E a x Hx) as (y & Hy & _). by exists y. Qed.

Lemma has_class_table s c : has_class s c <-> exists pa, table_of s c pa.
Proof.
  unfold has_class, table_of. split.
  - intros [ci ->]. by eexists.
  - intros [pa H]. destruct (class_at s c); [by eexists|done].
Qed.

Lemma has_class_ext A s s' c : ext A s s' -> has_class s c -> has_class s' c.
Proof. rewrite !has_class_table. intros E [pa H]. exists pa. by eapply ex_class. Qed.

Lemma is_proto_ext A s s' a : ext A s s' -> is_proto s a -> is_proto s' a.
Proof. intros E [c H]. exists c. by eapply has_key_ext. Qed.

Lemma flows_ext A s s' k l : ext A s s' -> flows s k l -> flows s' k l.
Proof. intros E []; constructor. by eapply is_proto_ext. Qed.

Lemma linked_ext A s s' k l : ext A s s' -> linked s k l -> linked s' k l.
Proof.
  intros E (i & j & Hi & Hj & H). exists i, j. split_and!; [by eapply ex_ids..|].
  destruct H as [|H]; [by left|right]. by apply (ex_links _ _ _ E), H.
Qed.

Definition good (A : AbsId -> NameId -> Prop) (X : ClassId -> AbsId -> NameId -> Prop) (s s' : Solver) : Prop :=
  wf s' /\ complete X s' /\ ext A s s'.

(** ** Triples *)

(** [X] and [Y]: the links pending before and after. *)
Definition hoare {R} (A : AbsId -> NameId -> Prop) (X Y : ClassId -> AbsId -> NameId -> Prop) (s : Solver)
    (m : M R) (Q : Solver -> R -> Prop) : Prop :=
  wf s -> complete X s -> forall s' r, m s = Some (s', r) -> good A Y s s' /\ Q s' r.

Definition any {R} : Solver -> R -> Prop := fun _ _ => True.

Definition keeps {R} (A : AbsId -> NameId -> Prop) (X : ClassId -> AbsId -> NameId -> Prop) (m : M R) : Prop :=
  forall s, hoare A X X s m any.

Section Rules.
  Context (A : AbsId -> NameId -> Prop) (X : ClassId -> AbsId -> NameId -> Prop).

Lemma hoare_bind {R S} Y Z s (m : M R) (f : R -> M S) Q1 Q :
  hoare A X Y s m Q1 ->
  (forall s1 r, wf s1 -> complete Y s1 -> ext A s s1 -> Q1 s1 r -> hoare A Y Z s1 (f r) Q) ->
  hoare A X Z s (m ≫= f) Q.
Proof.
  intros H1 H2 W0 C0 s' r. unfold mbind, M_bind. destruct (m s) as [[s1 r1]|] eqn:E; [|done]. intros H'.
  destruct (H1 W0 C0 s1 r1 E) as [(W1 & C1 & E1) HQ1].
  destruct (H2 s1 r1 W1 C1 E1 HQ1 W1 C1 s' r H') as [(W2 & C2 & E2) HQ].
  split; [|done]. split_and!; [done..|]. by eapply heap_ext_trans.
Qed.

Lemma hoare_mono {R} Y s (m : M R) (Q Q' : Solver -> R -> Prop) :
  hoare A X Y s m Q -> (forall s' r, wf s' -> ext A s s' -> Q s' r -> Q' s' r) -> hoare A X Y s m Q'.
Proof.
  intros H HQ W0 C0 s' r E. destruct (H W0 C0 s' r E) as [G Hq]. split; [done|].
  apply HQ; [apply G|apply G|done].
Qed.

Lemma hoare_ret {R} s (r : R) (Q : Solver -> R -> Prop) : Q s r -> hoare A X X s (mret r) Q.
Proof. intros H W0 C0 s' r' [= <- <-]. split; [|done]. split_and!; [done..|apply heap_ext_refl]. Qed.

Lemma hoare_gets {R} s (f : Solver -> R) (Q : Solver -> R -> Prop) : Q s (f s) -> hoare A X X s (gets f) Q.
Proof. intros H W0 C0 s' r' [= <- <-]. split; [|done]. split_and!; [done..|apply heap_ext_refl]. Qed.

Lemma hoare_fail {R} Y s (Q : Solver -> R -> Prop) : hoare A X Y s fail Q.
Proof. intros _ _ s' r [=]. Qed.

Lemma hoare_get_some {R} s (o : option R) (Q : Solver -> R -> Prop) :
  (forall r, o = Some r -> Q s r) -> hoare A X X s (get_some o) Q.
Proof.
  intros H W0 C0 s' r. unfold get_some. destruct o as [x|]; cbn; [|done]. intros [= <- <-].
  split; [|by apply H]. split_and!; [done..|apply heap_ext_refl].
Qed.

(** The same engine and the same core of the heap. *)
Record same_core (s s' : Solver) : Prop := {
  sc_eng : eng s' = eng s;
  sc_abs : h_abs (sv_heap s') = h_abs (sv_heap s) /\ h_abs_ids (sv_heap s') = h_abs_ids (sv_heap s);
  sc_classes : h_classes (sv_heap s') = h_classes (sv_heap s) /\ h_class_ids (sv_heap s') = h_class_ids (sv_heap s);
  sc_fields : h_fields_of (sv_heap s') = h_fields_of (sv_heap s) }.

Lemma same_core_good s s' : same_core s s' -> wf s -> complete X s -> good A X s s'.
Proof.
  intros [He [Ha Hi] [Hc Hd] Hf] Hw Hx.
  assert (abs_at s' = abs_at s) as E1 by (unfold abs_at; by rewrite Ha).
  assert (class_at s' = class_at s) as E2 by (unfold class_at; by rewrite Hc).
  assert (interned s' = interned s) as E3 by (unfold interned; by rewrite He).
  assert (fields (sv_heap s') = fields (sv_heap s)) as E4 by (unfold fields; by rewrite Hf).
  assert (has_key s' = has_key s) as E5 by (unfold has_key; by rewrite E1).
  assert (table_of s' = table_of s) as E6 by (unfold table_of; by rewrite E2).
  assert (is_source s' = is_source s) as E7 by (unfold is_source; by rewrite E2).
  assert (has_field s' = has_field s) as E8 by (unfold has_field; by rewrite E4).
  assert (forall k l, flows s k l -> flows s' k l) as Hfl.
  { intros k l []; constructor. unfold is_proto. by rewrite E5. }
  split_and!.
  - destruct Hw. split; rewrite ?He, ?Ha, ?Hi, ?Hc, ?Hd, ?E5, ?E6, ?E7, ?E8, ?E1, ?E2; auto.
    + unfold has_abs. by rewrite E1.
    + by rewrite E3.
    + unfold has_abs. by rewrite E1.
    + intros x y H. destruct (wf_flows0 x y H) as (k & l & ? & ? & ?). exists k, l. auto.
  - unfold complete, linked. by rewrite E6, E7, E8, E3, He.
  - split; rewrite ?E1, ?E6, ?E7, ?E8, ?E3, ?He; eauto using abs_ext_refl.
    intros a n k t _ _ _. unfold cell_value. by rewrite He.
Qed.

Lemma hoare_modify s (f : Solver -> Solver) (Q : Solver -> unit -> Prop) :
  same_core s (f s) -> Q (f s) tt -> hoare A X X s (modify f) Q.
Proof. intros H HQ W0 C0 s' r [= <- <-]. split; [|done]. by apply same_core_good. Qed.

End Rules.

(** ** Engine steps *)

(** Not the field of an allocation site, unless it may be written. *)
Definition raisable (A : AbsId -> NameId -> Prop) (s : Solver) (i : CellId) : Prop :=
  forall a n k, interned s (KField a n) i -> has_key s a k -> is_alloc k = true -> A a n.

(** What any engine operation without a new field cell does. *)
Lemma engine_good A X s e' N T :
  wf s -> complete X s -> estep N T (eng s) e' -> (forall k, N k -> is_field k = false) ->
  (forall i, T i -> raisable A s i) ->
  good A X s (upd_sv_engine (fun _ => e') s).
Proof.
  intros Hw Hx S HN HT. set (s' := upd_sv_engine _ s).
  assert (forall k i, interned s k i -> interned s' k i) as Hids by apply S.
  assert (forall a n i, interned s' (KField a n) i -> interned s (KField a n) i) as Hback.
  { intros a n i H. destruct (es_new _ _ _ _ S _ _ H) as [|[Hn|(c & m & [=])]]; [done|].
    apply HN in Hn. discriminate Hn. }
  assert (ext A s s') as E.
  { split; auto; try apply S.
    - intros a x H. exists x. split; [done|]. apply abs_ext_refl.
    - intros a n k t Hk Ha HA. unfold cell_value. cbn.
      destruct (cell_ids (eng s) !! KField a n) as [i|] eqn:Ei; cbn; [|done].
      pose proof (Hids (KField a n) i Ei : cell_ids e' !! KField a n = Some i) as Hi'. rewrite Hi'. cbn. intros <-.
      eapply (es_frame _ _ _ _ S); [by apply ids_lookup; [apply Hw|]|by intros (? & ? & [=])| |].
      + intros x Hl. destruct (wf_flows s Hw x i Hl) as (k1 & k2 & _ & K2 & F).
        apply (ids_lookup (eng s)) in Ei; [|apply Hw]. unfold key_at in *. rewrite K2 in Ei. injection Ei as ->.
        inversion F as [|? ? ? [c Hp]| | | | |]; subst. unfold has_key in *. rewrite Hk in Hp. injection Hp as ->. done.
      + intros Hti. apply HA. by eapply HT. }
  split_and!; [|intros c pa src n H1 H2 H3; destruct (Hx c pa src n H1 H2 H3); [by left|right; by eapply linked_ext]|done].
  destruct Hw. split; auto; try apply S.
  - cbn. by rewrite (es_elems _ _ _ _ S).
  - cbn. by rewrite (es_labels _ _ _ _ S).
  - intros a n. change (has_field s' a n) with (has_field s a n). rewrite (wf_fields0 a n). split; intros [i Hi]; exists i; auto.
  - intros x y H. destruct (es_newlinks _ _ _ _ S x y H) as [H'|(k & l & ? & ? & (? & ? & ->) & (? & ? & ->))].
    + destruct (wf_flows0 x y H') as (k & l & Hk & Hl & F). exists k, l.
      split_and!; [by eapply es_keys..|]. by eapply flows_ext.
    + eexists _, _. split_and!; [done..|]. constructor.
Qed.

Section EngineRules.
  Context (A : AbsId -> NameId -> Prop) (X : ClassId -> AbsId -> NameId -> Prop).

Lemma hoare_engine {R} s (f : Engine -> option (Engine * R)) N T (Q : Solver -> R -> Prop) :
  (forall e' r, f (eng s) = Some (e', r) -> eok (eng s) -> estep N T (eng s) e' /\ Q (upd_sv_engine (fun _ => e') s) r) ->
  (forall k, N k -> is_field k = false) -> (forall i, T i -> raisable A s i) ->
  hoare A X X s (on_engine f) Q.
Proof.
  intros H HN HT W0 C0 s' r. unfold on_engine. destruct (f (eng s)) as [[e' r']|] eqn:E; cbn; [|done].
  intros [= <- <-]. destruct (H e' r' eq_refl (wf_eng _ W0)) as [S HQ]. split; [|done]. by eapply engine_good.
Qed.

Lemma hoare_graph {R} s (f : Engine -> option (Engine * R)) (Q : Solver -> R -> Prop) :
  (forall e' r, f (eng s) = Some (e', r) -> same_graph (eng s) e' /\ Q (upd_sv_engine (fun _ => e') s) r) ->
  hoare A X X s (on_engine f) Q.
Proof.
  intros H. apply (hoare_engine s f none none); [|by intros ? []..].
  intros e' r E Hok. destruct (H e' r E). split; [by apply same_graph_step|done].
Qed.

Lemma hoare_cell s k : is_field k = false -> hoare A X X s (m_cell k) (fun s' i => interned s' k i).
Proof.
  intros Hk. apply (hoare_engine s _ (fun k' => k' = k) none); [|by intros ? ->|by intros ? []].
  intros e' i [= E] Hok. pose proof (cell_step (eng s) k Hok) as H. by rewrite E in H.
Qed.

Lemma hoare_resolve s sid ctx k : hoare A X X s (m_resolve sid ctx k) (fun s' i => interned s' (resolve_key sid ctx k) i).
Proof. apply (hoare_cell s (resolve_key sid ctx k)). by destruct k. Qed.

Lemma hoare_read s i u :
  hoare A X X s (m_read i u) (fun s' t => ts_of (eng s') i = Some t /\ (i, fst u, snd u) ∈ sub_set (eng s')).
Proof.
  apply hoare_graph. intros e' t E. destruct (read_graph _ _ _ _ _ E) as (G & Ht & Hs). split_and!; try done.
  unfold ts_of in *. cbn. by rewrite (sg_cells _ _ G).
Qed.

Lemma hoare_ts s i : hoare A X X s (m_ts i) (fun s' t => ts_of (eng s') i = Some t).
Proof.
  apply hoare_graph. intros e' t E. destruct (ts_of (eng s) i) eqn:Et; cbn in E; [|done]. injection E as <- <-.
  split; [by split|done].
Qed.

Lemma hoare_raise fuel s i t u : raisable A s i -> hoare A X X s (m_raise fuel i t u) any.
Proof.
  intros H. apply (hoare_engine s _ none (fun j => j = i)); [|by intros ? []|by intros ? ->].
  intros e' r E Hok. destruct (raise fuel (eng s) i t u) eqn:Er; cbn in E; [|done]. injection E as <- <-.
  split; [by eapply raise_step|done].
Qed.

Lemma hoare_join fuel s out v : hoare A X X s (m_join_ts fuel out v) any.
Proof.
  apply (hoare_engine s _ none none); [|by intros ? []..].
  intros e' r E Hok. destruct (join_ts fuel (eng s) out v) as [[[e1 t] b]|] eqn:Er; cbn in E; [|done].
  injection E as <- <-. split; [by eapply join_ts_ext|done].
Qed.

Lemma hoare_sink {R} s (g : Engine -> JoinSink) (r : Engine -> R) :
  hoare A X X s (on_engine (fun e => Some (set_sink e (g e), r e))) any.
Proof. apply hoare_graph. intros e' x [= <- <-]. split; [by split|done]. Qed.

Lemma hoare_join_from s out v : hoare A X X s (m_join_from out v) any.
Proof.
  apply hoare_graph. intros e' x. destruct (join_from _ _ _ _) as [[? ?] ?]. intros [= <- <-]. split; [by split|done].
Qed.

Lemma hoare_fns_insert s out f : hoare A X X s (m_fns_insert out f) any.
Proof.
  apply hoare_graph. intros e' x. destruct (fns_insert _ _ _) as [[? ?] ?]. intros [= <- <-]. split; [by split|done].
Qed.

Lemma hoare_fns_join s f g : hoare A X X s (m_fns_join f g) any.
Proof.
  apply hoare_graph. intros e' x. destruct (fns_join_from _ _ _) as [[? ?] ?]. intros [= <- <-]. split; [by split|done].
Qed.

(** A standing link between cells of the right shape. *)
Lemma hoare_link fuel s i j k l :
  interned s k i -> interned s l j -> flows s k l ->
  hoare A X X s (m_link fuel i j) (fun s' _ => linked s' k l).
Proof.
  intros Hi Hj HF W0 C0 s' r. unfold m_link, on_engine.
  destruct (link fuel (eng s) i j) as [e'|] eqn:E; cbn; [|done]. intros [= <- <-].
  destruct (link_step _ _ _ _ _ E (wf_eng _ W0)) as [(e1 & Hok1 & S & L1 & L2 & L3 & L4 & L5 & L6 & L7 & L8 & L9)].
  set (s1 := upd_sv_engine (fun _ => e1) s).
  assert (link_set (eng s) ⊆ link_set e1) as Hsub by (rewrite L2; case_bool_decide; [done|apply union_subseteq_r]).
  assert (ext A s s1) as E1.
  { split; cbn; rewrite ?L4, ?L7, ?L8, ?L9; auto.
    - intros a x H. exists x. split; [done|]. apply abs_ext_refl.
    - intros k' i' H. unfold interned. cbn. by rewrite L4.
    - intros a n k' t _ _ _. unfold cell_value, ts_of. cbn. by rewrite L3, L4. }
  assert (wf s1) as W1.
  { destruct W0. split; cbn; rewrite ?L4, ?L5, ?L6; auto.
    - intros a n. change (has_field s1 a n) with (has_field s a n). rewrite (wf_fields0 a n). unfold interned. cbn. by rewrite L4.
    - intros x y Hxy. unfold key_at. rewrite L3.
      assert ((x, y) ∈ link_set (eng s) \/ (x, y) = (i, j)) as [H| [= -> ->]].
      { rewrite L2 in Hxy. case_bool_decide; set_solver. }
      + destruct (wf_flows0 x y H) as (k' & l' & ? & ? & ?). exists k', l'. split_and!; [done..|]. by eapply flows_ext.
      + exists k, l. split_and!; [by apply (ids_lookup (eng s))..|]. by eapply flows_ext. }
  assert (complete X s1) as C1.
  { intros c pa src n H1 H2 H3. destruct (C0 c pa src n H1 H2 H3); [by left|right; by eapply linked_ext]. }
  destruct (engine_good A X s1 e' none none W1 C1) as (W2 & C2 & E2); [done|by intros ? []|by intros ? []|].
  split; [split_and!; [done..|]|].
  - eapply heap_ext_trans; [exact E1|exact E2].
  - exists i, j. split_and!.
    + apply (ex_ids _ _ _ E2), (ex_ids _ _ _ E1), Hi.
    + apply (ex_ids _ _ _ E2), (ex_ids _ _ _ E1), Hj.
    + destruct (decide (i = j)) as [->|Hne]; [by left|right]. apply (ex_links _ _ _ E2). cbn.
      rewrite L2, bool_decide_false by done. set_solver.
Qed.

End EngineRules.

End Inv.
