(* ===== verification/HeapKeep.v ===== *)
(** * HeapKeep: the triples of the heap's own state changes

    Minting abstractions and classes, updating one abstraction or class,
    registering a source and interning a field cell; and the same logic
    relative to an older state, in which an abstraction minted since may be
    completed field by field. *)

From S2P Require Import Prelude OpSem Facts Types Engine EngineRun EngineFix Mem Source Contexts Builtins SolverState Heap EngineExt HeapInv.

Lemma alter_last {B} (f : B -> B) (l : list B) (x : B) : alter f (length l) (l ++ [x]) = l ++ [f x].
Proof. induction l as [|y l IH]; cbn; [done|]. f_equal. exact IH. Qed.

Lemma lookup_snoc_Some {B} (l : list B) (x y : B) (i : nat) :
  (l ++ [x]) !! i = Some y <-> l !! i = Some y \/ (i = length l /\ y = x).
Proof.
  rewrite lookup_app. destruct (l !! i) as [z|] eqn:E.
  - split; [intros [= ->]; by left|intros [[= ->]|[-> _]]; [done|]].
    apply lookup_lt_Some in E. lia.
  - apply lookup_ge_None in E. destruct (i - length l)%nat eqn:D; cbn.
    + split; [intros [= ->]; right; split; [lia|done]|intros [[=]|[_ ->]]; done].
    + split; [by destruct n|intros [[=]|[-> _]]; lia].
Qed.

(** Unfold the monad's primitives on a state. *)
Ltac mrun := unfold m_heap, modify, gets, on_engine, get_some, fail, m_abs, m_class, mbind, M_bind, mret, M_ret; cbn.

(** Runs step by step. *)
Lemma bind_run {R S} (m : M R) (f : R -> M S) (s s' : Solver) (b : S) :
  (m ≫= f) s = Some (s', b) -> exists s1 a, m s = Some (s1, a) /\ f a s1 = Some (s', b).
Proof. unfold mbind, M_bind. destruct (m s) as [[s1 a]|]; [eauto|done]. Qed.

Lemma set_abs_run a f s s' r : m_set_abs a f s = Some (s', r) -> s' = upd_sv_heap (upd_h_abs (alter f a)) s.
Proof. unfold m_set_abs, m_abs, mbind, M_bind. destruct (h_abs (sv_heap s) !! a); cbn; [|done]. by intros [= <- <-]. Qed.

Lemma set_class_run c f s s' r : m_set_class c f s = Some (s', r) -> s' = upd_sv_heap (upd_h_classes (alter f c)) s.
Proof. unfold m_set_class, m_class, mbind, M_bind. destruct (h_classes (sv_heap s) !! c); cbn; [|done]. by intros [= <- <-]. Qed.

Lemma heap_upd_upd f g s : upd_sv_heap f (upd_sv_heap g s) = upd_sv_heap (fun h => f (g h)) s.
Proof. done. Qed.

Lemma heap_upd_eng f g s : upd_sv_heap f (upd_sv_engine g s) = upd_sv_engine g (upd_sv_heap f s).
Proof. done. Qed.

Lemma heap_upd_eq f g s : f (sv_heap s) = g (sv_heap s) -> upd_sv_heap f s = upd_sv_heap g s.
Proof. unfold upd_sv_heap. by intros ->. Qed.

(** The check that an id fits its width. *)
Ltac idspace := match goal with |- context [2 ^ 32 <=? ?z] => destruct (2 ^ 32 <=? z); cbn; [done|] end.

Section Rules.
  Context (W : WellKnown) (A : AbsId -> NameId -> Prop).

#[local] Abbreviation wf := (wf W).
#[local] Abbreviation hoare := (hoare W A).

(** ** Loops and control *)

Lemma hoare_for_each {B} X s (l : list B) (f : B -> M unit) (I : Solver -> Prop) :
  I s ->
  (forall x s1, x ∈ l -> wf s1 -> ext A s s1 -> I s1 -> hoare X X s1 (f x) (fun s2 _ => I s2)) ->
  hoare X X s (for_each l f) (fun s' _ => I s').
Proof.
  intros Hs Hf. cut (forall s1, ext A s s1 -> I s1 -> hoare X X s1 (for_each l f) (fun s' _ => I s')).
  { intros H. apply H; [apply heap_ext_refl|done]. }
  clear Hs. induction l as [|x l IH]; intros s1 E1 H1; cbn [for_each]; [by apply hoare_ret|].
  intros W1 C1. revert W1 C1. intros W1. apply (hoare_bind W A X X X s1 _ _ (fun s2 _ => I s2)); [|..].
  - apply Hf; [set_solver|done..].
  - intros s2 [] W2 C2 E2 H2. apply IH; [|by eapply heap_ext_trans|done].
    intros y s3 Hy. apply Hf. set_solver.
  - done.
Qed.

Lemma keeps_for_each {B} X s (l : list B) (f : B -> M unit) :
  (forall x s1, x ∈ l -> wf s1 -> ext A s s1 -> hoare X X s1 (f x) any) -> hoare X X s (for_each l f) any.
Proof.
  intros H. eapply hoare_mono; [apply (hoare_for_each X s l f (fun _ => True)); [done|]|done].
  intros x s1 Hx W1 E1 _. eapply hoare_mono; [by apply H|done].
Qed.

Lemma keeps_fold {B R} X s (l : list B) (acc : R) (f : R -> B -> M R) :
  (forall a x s1, x ∈ l -> wf s1 -> ext A s s1 -> hoare X X s1 (f a x) any) -> hoare X X s (fold_m l acc f) any.
Proof.
  intros Hf. cut (forall s1 acc, ext A s s1 -> hoare X X s1 (fold_m l acc f) any); [intros H; apply H, heap_ext_refl|].
  induction l as [|x l IH]; intros s1 a E1; cbn [fold_m]; [by apply hoare_ret|].
  intros W1. revert W1. intros W1. eapply (hoare_bind W A X X X s1); [apply Hf; [set_solver|done..]| |done].
  intros s2 r W2 C2 E2 _. apply IH; [|by eapply heap_ext_trans]. intros a' y s3 Hy. apply Hf. set_solver.
Qed.

Lemma hoare_eq {R} X Y s (m m' : M R) Q : m s = m' s -> hoare X Y s m' Q -> hoare X Y s m Q.
Proof. intros E H W0 C0 s' r Hm. rewrite E in Hm. by apply H. Qed.

(** A conclusion that follows from the state before. *)
Lemma hoare_pre {R} X Y s (m : M R) Q :
  (wf s -> complete X s -> hoare X Y s m Q) -> hoare X Y s m Q.
Proof. intros H W0 C0. by apply H. Qed.

(** ** One abstraction or class *)

Lemma m_abs_spec X s a : hoare X X s (m_abs a) (fun s' x => abs_at s' a = Some x).
Proof.
  intros W0 C0 s' r. unfold m_abs. destruct (h_abs (sv_heap s) !! a) eqn:E; cbn; [|done]. intros [= <- <-].
  split; [|done]. split_and!; [done..|apply heap_ext_refl].
Qed.

Lemma m_class_spec X s c : hoare X X s (m_class c) (fun s' x => class_at s' c = Some x).
Proof.
  intros W0 C0 s' r. unfold m_class. destruct (h_classes (sv_heap s) !! c) eqn:E; cbn; [|done]. intros [= <- <-].
  split; [|done]. split_and!; [done..|apply heap_ext_refl].
Qed.

(** States whose abstractions changed in [a] only. *)
Lemma set_abs_at s a f b :
  abs_at (upd_sv_heap (upd_h_abs (alter f a)) s) b = (if decide (b = a) then f <$> abs_at s b else abs_at s b).
Proof.
  unfold abs_at. cbn. case_decide as H; [subst; apply list_lookup_alter_eq|by apply list_lookup_alter_ne].
Qed.

Lemma update_good X s s' a x y :
  wf s -> complete X s -> abs_at s a = Some x -> ab_key y = ab_key x ->
  abs_ok (length (h_abs (sv_heap s))) (length (h_classes (sv_heap s))) y ->
  (forall b, abs_at s' b = if decide (b = a) then Some y else abs_at s b) ->
  length (h_abs (sv_heap s')) = length (h_abs (sv_heap s)) ->
  h_abs_ids (sv_heap s') = h_abs_ids (sv_heap s) ->
  h_classes (sv_heap s') = h_classes (sv_heap s) -> h_class_ids (sv_heap s') = h_class_ids (sv_heap s) ->
  h_fields_of (sv_heap s') = h_fields_of (sv_heap s) ->
  same_graph (set_labels (eng s) []) (set_labels (eng s') []) ->
  abs_labels (eng s') = label_of <$> h_abs (sv_heap s') ->
  wf s' /\ complete X s' /\ (forall s0, ext A s0 s -> (~ has_abs s0 a \/ abs_ext x y) -> ext A s0 s').
Proof.
  intros Hw Hc Hx Hkey Hok Hat Hlen Hi Hcl Hci Hf G Hlab.
  assert (forall b k, has_key s' b k <-> has_key s b k) as Hk.
  { intros b k. unfold has_key. rewrite Hat. case_decide as Hb; [subst b|done]. rewrite Hx. cbn. by rewrite Hkey. }
  assert (class_at s' = class_at s) as E2 by (unfold class_at; by rewrite Hcl).
  assert (table_of s' = table_of s) as E3 by (unfold table_of; by rewrite E2).
  assert (is_source s' = is_source s) as E4 by (unfold is_source; by rewrite E2).
  assert (has_field s' = has_field s) as E5 by (unfold has_field, fields; by rewrite Hf).
  destruct G as [Gc Gi [Gl Gs] Gsub _ Ge [Gn Gn']]. cbn in *.
  assert (interned s' = interned s) as E6 by (unfold interned; by rewrite Gi).
  assert (forall b, has_abs s b -> has_abs s' b) as Hab.
  { intros b [z Hz]. unfold has_abs. rewrite Hat. case_decide; [by eexists|]. by exists z. }
  assert (forall k l, flows s k l -> flows s' k l) as Hfl.
  { intros k l []; constructor. destruct H as [c Hc']. exists c. by apply Hk. }
  split_and!.
  - destruct Hw. split; rewrite ?E2, ?E3, ?E4, ?E5, ?Hi, ?Hci, ?Ge; auto.
    + destruct wf_eng. split; unfold ids_ok, lk_ok in *; rewrite ?Gi, ?Gc, ?Gl, ?Gs; done.
    + intros k b H. by apply Hk, wf_abs_ids.
    + intros k b Hn H. by apply wf_key_ids, Hk.
    + intros b z. rewrite Hat, Hlen, Hcl. case_decide; [by intros [= <-]|]. apply wf_abs.
    + intros c pa H. by apply Hk, wf_table.
    + intros c src H. by eapply Hab, wf_sources.
    + by rewrite E6.
    + intros b n H. by eapply Hab, wf_field_abs.
    + rewrite Gs. intros i j H. destruct (wf_flows i j H) as (k & l & K1 & K2 & F). exists k, l.
      unfold key_at in *. rewrite Gc. auto.
  - unfold complete, linked. by rewrite E3, E4, E5, E6, Gs.
  - intros s0 E Hext. destruct (ex_cons _ _ _ E). split.
    + intros b z Hz. destruct (ex_abs _ _ _ E b z Hz) as (z' & Hz' & Ez). rewrite Hat.
      case_decide as Hb; [subst b|by exists z']. exists y. split; [done|].
      destruct Hext as [Hn|Hxy]; [destruct Hn; by exists z|]. rewrite Hx in Hz'. injection Hz' as <-.
      by eapply abs_ext_trans.
    + rewrite E3. apply E.
    + rewrite E4. apply E.
    + rewrite E5. apply E.
    + rewrite E6. apply E.
    + rewrite Gs. apply E.
    + etransitivity; [apply E|apply Gsub].
    + split; congruence.
    + unfold cell_value, ts_of. rewrite Gi, Gc. apply E.
Qed.

(** An update that extends the abstraction. *)
Lemma hoare_set_abs X s a f Q :
  (forall x, abs_at s a = Some x -> abs_ok (length (h_abs (sv_heap s))) (length (h_classes (sv_heap s))) x ->
    abs_ext x (f x) /\ abs_ok (length (h_abs (sv_heap s))) (length (h_classes (sv_heap s))) (f x)) ->
  (forall s', class_at s' = class_at s -> Q s' tt) ->
  hoare X X s (m_set_abs a f) Q.
Proof.
  intros H HQ W0 C0 s' r. unfold m_set_abs, m_abs. unfold mbind, M_bind.
  destruct (h_abs (sv_heap s) !! a) as [x|] eqn:Ex; cbn; [|done]. intros [= <- <-]. split; [|by apply HQ].
  destruct (H x Ex (wf_abs W s W0 a x Ex)) as [Hext Hok].
  destruct (update_good X s (upd_sv_heap (upd_h_abs (alter f a)) s) a x (f x)) as (W1 & C1 & E1); auto.
  - apply Hext.
  - intros b. rewrite set_abs_at. case_decide; [subst b|done]. unfold abs_at. by rewrite Ex.
  - cbn. apply length_alter.
  - by split.
  - cbn. rewrite (wf_labels W s W0). symmetry. apply list_eq. intros b. rewrite !list_lookup_fmap.
    destruct (decide (b = a)) as [->|Hb]; [|by rewrite list_lookup_alter_ne by congruence].
    rewrite list_lookup_alter_eq, Ex. cbn. f_equal. destruct Hext. unfold label_of. congruence.
  - split_and!; [done..|]. apply E1; [apply heap_ext_refl|by right].
Qed.

(** A new source of a class: its links are pending. *)
Definition pending_source (X : ClassId -> AbsId -> NameId -> Prop) (c : ClassId) (src : AbsId)
    : ClassId -> AbsId -> NameId -> Prop := fun c' a n => X c' a n \/ (c' = c /\ a = src).

Lemma set_class_at s c f b :
  class_at (upd_sv_heap (upd_h_classes (alter f c)) s) b = (if decide (b = c) then f <$> class_at s b else class_at s b).
Proof.
  unfold class_at. cbn. case_decide as H; [subst; apply list_lookup_alter_eq|by apply list_lookup_alter_ne].
Qed.

Lemma hoare_set_class X Y s c f Q :
  (forall ci, class_at s c = Some ci -> ci_key (f ci) = ci_key ci /\ ci_proto_abs (f ci) = ci_proto_abs ci /\
    (forall a, a ∈ ci_sources ci -> a ∈ ci_sources (f ci)) /\
    (forall a, a ∈ ci_sources (f ci) -> a ∈ ci_sources ci \/ (has_abs s a /\ forall n, Y c a n))) ->
  (forall c' a n, X c' a n -> Y c' a n) ->
  (forall s', class_at s' c = f <$> class_at s c -> abs_at s' = abs_at s -> Q s' tt) ->
  hoare X Y s (m_set_class c f) Q.
Proof.
  intros H HXY HQ W0 C0 s' r. unfold m_set_class, m_class. unfold mbind, M_bind.
  destruct (h_classes (sv_heap s) !! c) as [ci|] eqn:Ec; cbn; [|done]. intros [= <- <-].
  change (h_classes (sv_heap s) !! c) with (class_at s c) in Ec. destruct (H ci Ec) as (Hk & Hp & Hs & Hn).
  set (s' := upd_sv_heap _ s).
  assert (forall b, class_at s' b = if decide (b = c) then Some (f ci) else class_at s b) as Hat.
  { intros b. unfold s'. rewrite set_class_at. case_decide; [subst b|done]. by rewrite Ec. }
  assert (forall b pa, table_of s' b pa <-> table_of s b pa) as Ht.
  { intros b pa. unfold table_of. rewrite Hat. case_decide; [subst b|done]. rewrite Ec. cbn. by rewrite Hp. }
  assert (forall b src, is_source s b src -> is_source s' b src) as Hsrc.
  { intros b src (cb & Hb & Hin). unfold is_source. rewrite Hat. case_decide; [subst b|by exists cb].
    exists (f ci). split; [done|]. apply Hs. congruence. }
  assert (forall b src, is_source s' b src -> is_source s b src \/ (b = c /\ has_abs s src /\ forall n, Y c src n)) as Hsrc'.
  { intros b src (cb & Hb & Hin). rewrite Hat in Hb. case_decide; [subst b|left; by exists cb].
    injection Hb as <-. destruct (Hn src Hin) as [|]; [left; by exists ci|auto]. }
  split; [|apply HQ; [rewrite Hat, decide_True by done; by rewrite Ec|done]]. split_and!.
  - destruct W0. split; auto.
    + intros k b. rewrite Hat. case_decide; [subst b|done]. cbn. rewrite Hk.
      specialize (wf_class_ids k c). by rewrite Ec in wf_class_ids.
    + cbn. rewrite length_alter. done.
    + intros b pa. rewrite Ht. apply wf_table.
    + intros b src H'. destruct (Hsrc' b src H') as [|(_ & ? & _)]; [by eapply wf_sources|done].
    + intros x y Hl. destruct (wf_flows x y Hl) as (k & l & ? & ? & F). exists k, l. split_and!; [done..|].
      destruct F; by constructor.
  - intros b pa src n H1 H2 H3. apply Ht in H1. destruct (Hsrc' b src H2) as [H2'|(-> & _ & HY)]; [|left; apply HY].
    destruct (C0 b pa src n H1 H2' H3); [left; by apply HXY|by right].
  - split; auto.
    + intros a x Ha. exists x. split; [done|apply abs_ext_refl].
    + intros b pa. apply Ht.
Qed.

(** ** Minting *)

(** A new abstraction, with a new class when it is that class's table. *)
Definition push_heap (x : Abstraction) (oc : option ClassInfo) (h : Heap) : Heap :=
  mkHeap (<[ab_key x := length (h_abs h)]> (h_abs_ids h)) (h_abs h ++ [x])
    (match oc with Some ci => <[ci_key ci := length (h_classes h)]> (h_class_ids h) | None => h_class_ids h end)
    (match oc with Some ci => h_classes h ++ [ci] | None => h_classes h end)
    (h_fields_of h) (h_script_proto h) (h_proto_owner h) (h_script_fn_objs h) (h_method_home h)
    (h_site_is_proto h) (h_dyn_named_writes h).

Definition push_abs (x : Abstraction) (oc : option ClassInfo) (s : Solver) : Solver :=
  upd_sv_engine (fun _ => set_labels (eng s) (abs_labels (eng s) ++ [label_of x])) (upd_sv_heap (push_heap x oc) s).

(** The class minted with the abstraction. *)
Definition class_fresh (s : Solver) (x : Abstraction) (oc : option ClassInfo) : Prop :=
  match oc with
  | None => True
  | Some ci =>
      ab_key x = AK_ProtoOf (length (h_classes (sv_heap s))) /\ ci_proto_abs ci = length (h_abs (sv_heap s)) /\
      ci_sources ci = [] /\ h_class_ids (sv_heap s) !! ci_key ci = None
  end.

Lemma abs_ok_mono na na' nc nc' x : (na <= na')%nat -> (nc <= nc')%nat -> abs_ok na nc x -> abs_ok na' nc' x.
Proof.
  intros Ha Hc []. split; auto.
  - intros c H. specialize (ao_class c H). lia.
  - intros c H. specialize (ao_owner c H). lia.
  - intros p H. specialize (ao_proto p H). lia.
Qed.

Lemma push_good X s x oc :
  wf s -> complete X s -> (is_ns (ab_key x) = false -> h_abs_ids (sv_heap s) !! ab_key x = None) -> class_fresh s x oc ->
  abs_ok (S (length (h_abs (sv_heap s)))) (length (h_classes (sv_heap (push_abs x oc s)))) x ->
  good W A X s (push_abs x oc s) /\ has_key (push_abs x oc s) (length (h_abs (sv_heap s))) (ab_key x) /\
  ~ has_abs s (length (h_abs (sv_heap s))) /\
  abs_at (push_abs x oc s) (length (h_abs (sv_heap s))) = Some x.
Proof.
  intros Hw Hc Hnew Hfresh Hok. set (s' := push_abs x oc s) in *. set (na := length (h_abs (sv_heap s))) in *.
  assert (forall b y, abs_at s' b = Some y <-> abs_at s b = Some y \/ (b = na /\ y = x)) as Hat
    by (intros b y; apply lookup_snoc_Some).
  assert (forall b k, has_key s' b k <-> has_key s b k \/ (b = na /\ k = ab_key x)) as Hk.
  { intros b k. unfold has_key. rewrite !fmap_Some. setoid_rewrite Hat. split.
    - intros (y & [Hy|[-> ->]] & ->); [left; by exists y|by right].
    - intros [(y & Hy & ->)|[-> ->]]; [exists y; auto|exists x; auto]. }
  assert (~ has_abs s na) as Hna.
  { intros [y Hy]. apply lookup_lt_Some in Hy. unfold na in Hy. lia. }
  assert (forall c ci, class_at s' c = Some ci <-> class_at s c = Some ci \/ (c = length (h_classes (sv_heap s)) /\ oc = Some ci)) as Hcl.
  { intros c ci. unfold class_at, s'. cbn. destruct oc as [ci0|]; cbn.
    - rewrite lookup_snoc_Some. naive_solver.
    - naive_solver. }
  assert (forall c pa, table_of s c pa -> table_of s' c pa) as Ht.
  { intros c pa. unfold table_of. rewrite !fmap_Some. intros (ci & Hci & ->). exists ci. rewrite Hcl. auto. }
  assert (forall c pa, table_of s' c pa -> table_of s c pa \/ (ab_key x = AK_ProtoOf c /\ pa = na)) as Ht'.
  { intros c pa. unfold table_of. rewrite !fmap_Some. setoid_rewrite Hcl. intros (ci & [Hci|[-> ->]] & ->); [left; by exists ci|right].
    destruct Hfresh as (? & ? & _). done. }
  assert (forall c src, is_source s' c src <-> is_source s c src) as Hsrc.
  { intros c src. unfold is_source. setoid_rewrite Hcl. split.
    - intros (ci & [Hci|[-> ->]] & Hin); [by exists ci|]. destruct Hfresh as (_ & _ & Hs & _). rewrite Hs in Hin.
      by apply not_elem_of_nil in Hin.
    - intros (ci & Hci & Hin). exists ci. auto. }
  assert (forall a, has_abs s a -> has_abs s' a) as Hab.
  { intros a [y Hy]. exists y. apply Hat. auto. }
  assert (length (h_abs (sv_heap s')) = S na) as Hlen by (cbn; rewrite length_app; cbn; unfold na; lia).
  assert (length (h_classes (sv_heap s)) <= length (h_classes (sv_heap s')))%nat as Hlc.
  { cbn. destruct oc; rewrite ?length_app; cbn; lia. }
  assert (forall k l, flows s k l -> flows s' k l) as Hfl.
  { intros k l []; constructor. destruct H as [c Hc']. exists c. apply Hk. auto. }
  split; [|split; [apply Hk; auto|split; [done|apply Hat; auto]]].
  - split_and!.
    + pose proof Hw as Hw'. destruct Hw. split; auto.
      * cbn. rewrite wf_labels, fmap_app. done.
      * intros k a. cbn. rewrite Hk. destruct (decide (k = ab_key x)) as [->|Hne].
        -- rewrite lookup_insert_eq. intros [= <-]. by right.
        -- rewrite lookup_insert_ne by congruence. intros H. left. by apply wf_abs_ids.
      * intros k a Hns. cbn. rewrite Hk. destruct (decide (k = ab_key x)) as [->|Hne].
        -- rewrite lookup_insert_eq. intros [H|[-> _]]; [|done]. apply wf_key_ids in H; [|done].
           rewrite (Hnew Hns) in H. discriminate H.
        -- rewrite lookup_insert_ne by congruence. intros [H|[_ ->]]; [by apply wf_key_ids|done].
      * intros k c. rewrite fmap_Some. setoid_rewrite Hcl. specialize (wf_class_ids k c). rewrite fmap_Some in wf_class_ids.
        cbn. destruct oc as [ci0|]; [|rewrite wf_class_ids; naive_solver].
        destruct Hfresh as (_ & _ & _ & Hf). destruct (decide (k = ci_key ci0)) as [->|Hne].
        -- rewrite lookup_insert_eq. split; [intros [= <-]; exists ci0; auto|].
           intros (ci & [Hci|[-> _]] & E); [|done]. assert (h_class_ids (sv_heap s) !! ci_key ci0 = Some c); [|congruence].
           apply wf_class_ids. by exists ci.
        -- rewrite lookup_insert_ne by congruence. rewrite wf_class_ids. naive_solver.
      * intros a y. rewrite Hlen, Hat. intros [H|[-> ->]]; [|done]. eapply abs_ok_mono; [..|by apply (wf_abs a)]; lia.
      * intros c pa H. apply Hk. destruct (Ht' c pa H) as [H'|[H' ->]]; [left; by apply wf_table|right; by rewrite H'].
      * intros c src. rewrite Hsrc. intros H. eapply Hab, wf_sources, H.
      * intros a n H. eapply Hab, wf_field_abs, H.
      * intros i j H. destruct (wf_flows i j H) as (k & l & ? & ? & ?). exists k, l. auto.
    + intros c pa src n H1 H2 H3. apply Hsrc in H2. destruct (Ht' c pa H1) as [H1'|[_ ->]].
      * destruct (Hc c pa src n H1' H2 H3); auto.
      * destruct Hna. by eapply (wf_field_abs W).
    + split; auto; try done.
      * intros a y H. exists y. split; [apply Hat; auto|apply abs_ext_refl].
      * intros c src. by rewrite Hsrc.
Qed.

Lemma new_abs_run s key s' a :
  new_abs key s = Some (s', a) ->
  a = length (h_abs (sv_heap s)) /\
  s' = upd_sv_engine (fun _ => set_labels (eng s) (abs_labels (eng s) ++ [abs_labels_default]))
         (upd_sv_heap (fun h => upd_h_abs_ids <[key := a]> (upd_h_abs (fun l => l ++ [mkAbstraction key None PL_None None None None false false]) h)) s).
Proof.
  unfold new_abs. mrun. idspace. intros [= <- <-]. by destruct s as [? ? ? []].
Qed.

(** Keys other than snapshot objects: the default label is right. *)
Lemma new_abs_spec X s key :
  (is_ns key = false -> h_abs_ids (sv_heap s) !! key = None) -> is_snap_key key = false -> class_of_key key = None ->
  hoare X X s (new_abs key) (fun s' a => has_key s' a key /\ ~ has_abs s a /\ class_at s' = class_at s).
Proof.
  intros Hk Hsn Hc W0 C0 s' a E. apply new_abs_run in E as [-> ->].
  set (x := mkAbstraction key None PL_None None None None false false).
  destruct (push_good X s x None W0 C0) as (G & H1 & H2 & _); [done..| |].
  { split; try done; cbn. intros c ->. done. }
  assert (push_abs x None s = upd_sv_engine (fun _ => set_labels (eng s) (abs_labels (eng s) ++ [abs_labels_default]))
         (upd_sv_heap (fun h => upd_h_abs_ids <[key := length (h_abs (sv_heap s))]> (upd_h_abs (fun l => l ++ [x]) h)) s)) as <-.
  { unfold x, push_abs, label_of. cbn. rewrite Hsn. by destruct s as [? ? ? []]. }
  by split_and!.
Qed.

(** Updates of different parts commute; two of one part compose. *)
Lemma upd_abs_comp f g h : upd_h_abs f (upd_h_abs g h) = upd_h_abs (fun l => f (g l)) h.
Proof. done. Qed.

Lemma upd_abs_ids f g h : upd_h_abs f (upd_h_abs_ids g h) = upd_h_abs_ids g (upd_h_abs f h).
Proof. done. Qed.

Lemma upd_classes_abs f g h : upd_h_classes f (upd_h_abs g h) = upd_h_abs g (upd_h_classes f h).
Proof. done. Qed.

Lemma upd_classes_abs_ids f g h : upd_h_classes f (upd_h_abs_ids g h) = upd_h_abs_ids g (upd_h_classes f h).
Proof. done. Qed.

Lemma upd_classes_class_ids f g h : upd_h_classes f (upd_h_class_ids g h) = upd_h_class_ids g (upd_h_classes f h).
Proof. done. Qed.

Lemma upd_classes_comp f g h : upd_h_classes f (upd_h_classes g h) = upd_h_classes (fun l => f (g l)) h.
Proof. done. Qed.

Lemma upd_abs_eq f g h : f (h_abs h) = g (h_abs h) -> upd_h_abs f h = upd_h_abs g h.
Proof. unfold upd_h_abs. by intros ->. Qed.

Lemma upd_classes_eq f g h : f (h_classes h) = g (h_classes h) -> upd_h_classes f h = upd_h_classes g h.
Proof. unfold upd_h_classes. by intros ->. Qed.

Lemma new_class_heap (h : Heap) key ctor :
  let nc := length (h_classes h) in
  let na := length (h_abs h) in
  upd_h_classes (alter (upd_ci_proto_abs (fun _ => na)) nc)
    (upd_h_abs (alter (upd_ab_owner_class (fun _ => Some nc)) na)
      (upd_h_abs (alter (upd_ab_proto_of (fun _ => Some nc)) na)
        (upd_h_abs_ids <[AK_ProtoOf nc := na]>
          (upd_h_abs (fun l => l ++ [mkAbstraction (AK_ProtoOf nc) None PL_None None None None false false])
            (upd_h_class_ids <[key := nc]>
              (upd_h_classes (fun l => l ++ [mkClassInfo key ctor ABS_MAX [] None false]) h)))))) =
  push_heap (mkAbstraction (AK_ProtoOf nc) None PL_None (Some nc) (Some nc) None false false)
    (Some (mkClassInfo key ctor na [] None false)) h.
Proof.
  cbv zeta. rewrite !upd_abs_ids, !upd_abs_comp, upd_classes_abs_ids, upd_classes_abs, upd_classes_class_ids, upd_classes_comp.
  rewrite (upd_classes_eq _ (fun l => l ++ [mkClassInfo key ctor (length (h_abs h)) [] None false]))
    by (rewrite alter_last; reflexivity).
  rewrite (upd_abs_eq _ (fun l => l ++ [mkAbstraction (AK_ProtoOf (length (h_classes h))) None PL_None
    (Some (length (h_classes h))) (Some (length (h_classes h))) None false false])).
  { by destruct h. }
  cbn [h_abs upd_h_abs upd_h_abs_ids upd_h_classes upd_h_class_ids].
  rewrite alter_last, alter_last. reflexivity.
Qed.

Lemma new_class_run s key ctor s' c :
  new_class key ctor s = Some (s', c) ->
  let nc := length (h_classes (sv_heap s)) in
  let na := length (h_abs (sv_heap s)) in
  c = nc /\
  s' = push_abs (mkAbstraction (AK_ProtoOf nc) None PL_None (Some nc) (Some nc) None false false)
         (Some (mkClassInfo key ctor na [] None false)) s.
Proof.
  unfold new_class. intros E. cbv zeta. apply bind_run in E as (s0 & c0 & [= <- <-] & E).
  destruct (_ <=? _); [done|].
  apply bind_run in E as (s1 & [] & [= <-] & E). apply bind_run in E as (s2 & [] & [= <-] & E).
  apply bind_run in E as (s3 & pa & E3 & E). apply new_abs_run in E3 as [-> ->].
  apply bind_run in E as (s4 & [] & E4 & E). apply set_abs_run in E4 as ->.
  apply bind_run in E as (s5 & [] & E5 & E). apply set_abs_run in E5 as ->.
  apply bind_run in E as (s6 & [] & E6 & E). apply set_class_run in E6 as ->.
  injection E as <- <-. split; [done|]. rewrite !heap_upd_eng, !heap_upd_upd. unfold push_abs. f_equal.
  apply heap_upd_eq. exact (new_class_heap (sv_heap s) key ctor).
Qed.

Lemma new_class_spec X s key ctor :
  h_class_ids (sv_heap s) !! key = None ->
  hoare X X s (new_class key ctor) (fun s' c => (exists ci, class_at s' c = Some ci /\ ci_sources ci = []) /\ ~ has_class s c).
Proof.
  intros Hk W0 C0 s' c. set (nc := length (h_classes (sv_heap s))). set (na := length (h_abs (sv_heap s))).
  set (x := mkAbstraction (AK_ProtoOf nc) None PL_None (Some nc) (Some nc) None false false).
  set (ci := mkClassInfo key ctor na [] None false). intros E.
  apply new_class_run in E as [-> ->]. fold nc na x ci.
  assert (h_abs_ids (sv_heap s) !! AK_ProtoOf nc = None) as Hnew.
  { destruct (h_abs_ids (sv_heap s) !! AK_ProtoOf nc) as [a|] eqn:Ea; [|done]. apply (wf_abs_ids W s W0) in Ea.
    unfold has_key in Ea. apply fmap_Some in Ea as (y & Hy & Ky). pose proof (wf_abs W s W0 a y Hy) as Ho.
    symmetry in Ky. pose proof (ao_owner _ _ _ Ho nc (ao_table _ _ _ Ho nc Ky)). unfold nc in *. lia. }
  destruct (push_good X s x (Some ci) W0 C0) as (G & _ & _ & _); [done|done| |].
  { split; try done; cbn.
    - intros c [= <-]. rewrite length_app. cbn. fold nc. lia.
    - congruence. }
  split; [done|]. split.
  - exists ci. split; [|done]. unfold class_at. cbn. by rewrite lookup_app_r, Nat.sub_diag.
  - intros [y Hy]. apply lookup_lt_Some in Hy. unfold nc in Hy. lia.
Qed.

(** ** A new field cell *)

Lemma fresh_field_good X s a name x :
  wf s -> complete X s -> abs_at s a = Some x -> cell_ids (eng s) !! KField a name = None ->
  let '(e', i) := cell (eng s) (KField a name) in
  let s' := upd_sv_heap (upd_h_fields_of (fun m => <[a := default [] (m !! a) ++ [name]]> m)) (upd_sv_engine (fun _ => e') s) in
  good W A (fun c src n => X c src n \/ (ab_proto_of x = Some c /\ n = name)) s s' /\
  interned s' (KField a name) i /\
  (forall b n, has_field s' b n <-> has_field s b n \/ (b = a /\ n = name)).
Proof.
  intros Hw Hc Hx Hnew. pose proof (cell_step (eng s) (KField a name) (wf_eng W s Hw)) as H.
  destruct (cell (eng s) (KField a name)) as [e' i] eqn:Ecell. destruct H as [S Hi]. cbv zeta.
  set (s' := upd_sv_heap _ _).
  assert (forall b n, has_field s' b n <-> has_field s b n \/ (b = a /\ n = name)) as Hf.
  { intros b n. unfold has_field, fields. cbn. destruct (decide (b = a)) as [->|Hb].
    - rewrite lookup_insert_eq. cbn. rewrite elem_of_app, list_elem_of_singleton. naive_solver.
    - rewrite lookup_insert_ne by congruence. naive_solver. }
  assert (forall k j, interned s' k j <-> interned s k j \/ (k = KField a name /\ j = i)) as Hids.
  { intros k j. unfold interned. cbn. unfold cell in Ecell. rewrite Hnew in Ecell. injection Ecell as <- <-. cbn.
    destruct (decide (k = KField a name)) as [->|Hk].
    - rewrite lookup_insert_eq, Hnew. naive_solver.
    - rewrite lookup_insert_ne by congruence. naive_solver. }
  assert (link_set e' = link_set (eng s)) as El.
  { unfold cell in Ecell. rewrite Hnew in Ecell. by injection Ecell as <- <-. }
  assert (ext A s s') as E.
  { split; auto; try apply S.
    - intros b y H. exists y. split; [done|apply abs_ext_refl].
    - intros b n H. apply Hf. auto.
    - intros b n k t Hk Ha _. unfold cell_value. cbn.
      destruct (cell_ids (eng s) !! KField b n) as [j|] eqn:Ej; cbn; [|done].
      pose proof (es_ids _ _ _ _ S _ _ Ej) as Ej'. rewrite Ej'. cbn. intros <-.
      eapply (es_frame _ _ _ _ S); [by apply ids_lookup; [apply Hw|]|by intros (? & ? & [=])| |by intros []].
      intros y Hl. destruct (wf_flows W s Hw y j Hl) as (k1 & k2 & _ & K2 & F).
      apply (ids_lookup (eng s)) in Ej; [|apply Hw]. unfold key_at in *. rewrite K2 in Ej. injection Ej as ->.
      inversion F as [|? ? ? [c Hp]| | | | |]; subst. unfold has_key in *. rewrite Hk in Hp. injection Hp as ->. done. }
  split; [|split; [exact Hi|exact Hf]]. split_and!; [| |done].
  - pose proof Hw as Hw'. destruct Hw. split; auto; try apply S.
    + cbn. by rewrite (es_elems _ _ _ _ S).
    + cbn. by rewrite (es_labels _ _ _ _ S).
    + intros b n. rewrite Hf, wf_fields. setoid_rewrite Hids. naive_solver.
    + intros b n. rewrite Hf. intros [H|[-> ->]]; [by eapply wf_field_abs|by eexists].
    + cbn. rewrite El. intros y j H. destruct (wf_flows y j H) as (k & l & ? & ? & F). exists k, l.
      split_and!; [by eapply es_keys..|]. destruct F; by constructor.
  - intros c pa src n H1 H2. rewrite Hf. intros [H3|[-> ->]].
    + destruct (Hc c pa src n H1 H2 H3); [by left; left|right]. by eapply linked_ext.
    + left. right. split; [|done]. pose proof (wf_table W s Hw c a H1) as Hk. unfold has_key in Hk.
      rewrite Hx in Hk. injection Hk as Hk. rewrite (ao_proto_of _ _ _ (wf_abs W s Hw a x Hx)), Hk. done.
Qed.

(** ** Relative to an older state *)

Record pext (s s' : Solver) : Prop := {
  px_key : forall a k, has_key s a k -> has_key s' a k;
  px_class : forall c pa, table_of s c pa -> table_of s' c pa;
  px_ids : forall k i, interned s k i -> interned s' k i }.

Lemma ext_pext s s' : ext A s s' -> pext s s'.
Proof. intros E. split; [intros; by eapply has_key_ext|apply E|apply E]. Qed.

(** [s0]: the older state the run must extend. *)
Definition since {R} X Y (s0 s : Solver) (m : M R) (Q : Solver -> R -> Prop) : Prop :=
  wf s -> complete X s -> ext A s0 s -> forall s' r, m s = Some (s', r) ->
  wf s' /\ complete Y s' /\ ext A s0 s' /\ pext s s' /\ Q s' r.

Lemma since_hoare {R} X Y s0 s (m : M R) Q : hoare X Y s m Q -> since X Y s0 s m Q.
Proof.
  intros H W0 C0 E0 s' r E. destruct (H W0 C0 s' r E) as [(W1 & C1 & E1) HQ].
  split_and!; [done..|by eapply heap_ext_trans|by apply ext_pext|done].
Qed.

Lemma hoare_since {R} X Y s (m : M R) Q : since X Y s s m Q -> hoare X Y s m Q.
Proof.
  intros H W0 C0 s' r E. destruct (H W0 C0 (heap_ext_refl A s) s' r E) as (? & ? & ? & _ & ?). by split_and!.
Qed.

Lemma since_bind {R S} X Y Z s0 s (m : M R) (f : R -> M S) Q1 Q :
  since X Y s0 s m Q1 ->
  (forall s1 r, wf s1 -> ext A s0 s1 -> pext s s1 -> Q1 s1 r -> since Y Z s0 s1 (f r) Q) ->
  since X Z s0 s (m ≫= f) Q.
Proof.
  intros H1 H2 W0 C0 E0 s' r. unfold mbind, M_bind. destruct (m s) as [[s1 r1]|] eqn:E; [|done]. intros H'.
  destruct (H1 W0 C0 E0 s1 r1 E) as (W1 & C1 & E1 & P1 & HQ1).
  destruct (H2 s1 r1 W1 E1 P1 HQ1 W1 C1 E1 s' r H') as (W2 & C2 & E2 & P2 & HQ).
  destruct P1, P2. split_and!; [done..| |done]. split; auto.
Qed.

(** Completing an abstraction the older state does not have. *)
Lemma since_set_fresh X s0 s a f Q :
  ~ has_abs s0 a ->
  (forall x, abs_at s a = Some x -> abs_ok (length (h_abs (sv_heap s))) (length (h_classes (sv_heap s))) x ->
    ab_key (f x) = ab_key x /\ label_of (f x) = label_of x /\
    abs_ok (length (h_abs (sv_heap s))) (length (h_classes (sv_heap s))) (f x)) ->
  (forall s', Q s' tt) ->
  since X X s0 s (m_set_abs a f) Q.
Proof.
  intros Hn H HQ W0 C0 E0 s' r. unfold m_set_abs, m_abs. unfold mbind, M_bind.
  destruct (h_abs (sv_heap s) !! a) as [x|] eqn:Ex; cbn; [|done]. intros [= <- <-].
  destruct (H x Ex (wf_abs W s W0 a x Ex)) as (Hk & Hl & Hok).
  destruct (update_good X s (upd_sv_heap (upd_h_abs (alter f a)) s) a x (f x)) as (W1 & C1 & E1); auto.
  - intros b. rewrite set_abs_at. case_decide; [subst b|done]. unfold abs_at. by rewrite Ex.
  - cbn. apply length_alter.
  - by split.
  - cbn. rewrite (wf_labels W s W0). symmetry. apply list_eq. intros b. rewrite !list_lookup_fmap.
    destruct (decide (b = a)) as [->|Hb]; [|by rewrite list_lookup_alter_ne by congruence].
    rewrite list_lookup_alter_eq, Ex. cbn. by f_equal.
  - split_and!; [done|done|by apply E1; [|left]| |done]. split; auto.
    intros b k. unfold has_key. rewrite set_abs_at. case_decide; [subst b|done]. unfold abs_at. rewrite Ex. cbn. by rewrite Hk.
Qed.

(** Both halves of the lockstep at once. *)
Lemma since_set_labelled X s0 s a f g Q :
  ~ has_abs s0 a ->
  (forall x, abs_at s a = Some x -> abs_ok (length (h_abs (sv_heap s))) (length (h_classes (sv_heap s))) x ->
    ab_key (f x) = ab_key x /\ label_of (f x) = g (label_of x) /\
    abs_ok (length (h_abs (sv_heap s))) (length (h_classes (sv_heap s))) (f x)) ->
  (forall s', Q s' tt) ->
  since X X s0 s (m_set_abs a f;; m_set_label a g) Q.
Proof.
  intros Hn H HQ W0 C0 E0 s' r. unfold m_set_abs, m_abs, m_set_label, on_engine. unfold mbind, M_bind.
  destruct (h_abs (sv_heap s) !! a) as [x|] eqn:Ex; cbn; [|done].
  destruct (abs_labels (eng s) !! a) as [l|] eqn:El; cbn; [|done]. intros [= <- <-].
  destruct (H x Ex (wf_abs W s W0 a x Ex)) as (Hk & Hl & Hok).
  match goal with |- HeapInv.wf _ ?x /\ _ => set (s' := x) end.
  assert (forall b, abs_at s' b = if decide (b = a) then Some (f x) else abs_at s b) as Hat.
  { intros b. change (abs_at s' b) with (abs_at (upd_sv_heap (upd_h_abs (alter f a)) s) b).
    rewrite set_abs_at. case_decide; [subst b|done]. unfold abs_at. by rewrite Ex. }
  destruct (update_good X s s' a x (f x)) as (W1 & C1 & E1); auto.
  - cbn. apply length_alter.
  - by split.
  - cbn. rewrite (wf_labels W s W0). apply list_eq. intros b. rewrite list_lookup_fmap.
    destruct (decide (b = a)) as [->|Hb].
    + rewrite !list_lookup_alter_eq, list_lookup_fmap, Ex. cbn. by f_equal.
    + rewrite !list_lookup_alter_ne by congruence. by rewrite list_lookup_fmap.
  - split_and!; [done|done|by apply E1; [|left]| |done]. split; auto.
    intros b k. unfold has_key. rewrite Hat. case_decide; [subst b|done]. unfold abs_at. rewrite Ex. cbn. by rewrite Hk.
Qed.

End Rules.

(** * the heap model's operations keep the invariant

    One triple per operation of [Heap]: field cells and their standing links,
    homes, function tables, minting, seeding from the snapshot, prototype
    sources and the classes of constructors.  The operations on the cycle
    through the snapshot are proved against the recursive call and tied by
    induction on the fuel. *)

(** ** Relations every run respects *)

Section Always.
  Context (R : Solver -> Solver -> Prop) `{HR : !PreOrder R}.

Definition always {T} (m : M T) : Prop := forall s s' r, m s = Some (s', r) -> R s s'.

Lemma always_bind {T U} (m : M T) (f : T -> M U) : always m -> (forall x, always (f x)) -> always (m ≫= f).
Proof. intros H1 H2 s s' r H. apply bind_run in H as (s1 & x & Hm & Hf). etransitivity; [by eapply H1|by eapply H2]. Qed.

Lemma always_ret {T} (x : T) : always (mret x).
Proof. intros s s' r [= <- <-]. done. Qed.

Lemma always_gets {T} (f : Solver -> T) : always (gets f).
Proof. intros s s' r [= <- <-]. done. Qed.

Lemma always_abs a : always (m_abs a).
Proof. intros s s' r. unfold m_abs. destruct (h_abs (sv_heap s) !! a); cbn; [|done]. by intros [= <- <-]. Qed.

Lemma always_class c : always (m_class c).
Proof. intros s s' r. unfold m_class. destruct (h_classes (sv_heap s) !! c); cbn; [|done]. by intros [= <- <-]. Qed.

Lemma always_for_each {B} (l : list B) (f : B -> M unit) : (forall x, always (f x)) -> always (for_each l f).
Proof. intros H. induction l as [|x l IH]; cbn; [apply always_ret|]. apply always_bind; [apply H|by intros]. Qed.

Lemma always_engine {T} (f : Engine -> option (Engine * T)) :
  (forall s s', sv_heap s' = sv_heap s -> R s s') -> always (on_engine f).
Proof.
  intros H s s' r. unfold on_engine. destruct (f (eng s)) as [[e x]|]; cbn; [|done]. intros [= <- <-]. by apply H.
Qed.

End Always.

(** Interning field cells named [name] changes nothing else of the heap. *)
Record names_only (name : NameId) (s s' : Solver) : Prop := {
  no_abs : abs_at s' = abs_at s;
  no_class : class_at s' = class_at s;
  no_fields : forall a n, has_field s' a n -> has_field s a n \/ n = name }.

#[export] Instance names_only_pre name : PreOrder (names_only name).
Proof.
  split.
  - intros s. split; auto.
  - intros s1 s2 s3 [A1 B1 F1] [A2 B2 F2]. split; [congruence..|]. intros a n H. destruct (F2 a n H); auto.
Qed.

Lemma names_only_heap name s s' : sv_heap s' = sv_heap s -> names_only name s s'.
Proof. intros E. split; unfold abs_at, class_at, has_field; rewrite E; auto. Qed.

Lemma engine_names {T} name (f : Engine -> option (Engine * T)) : always (names_only name) (on_engine f).
Proof. apply (always_engine _), names_only_heap. Qed.

Lemma field_cell_names W fuel n a name : always (names_only name) (field_cell_n W fuel n a name).
Proof.
  revert a. induction n as [|n IH]; intros a; [by intros ???|]. cbn [field_cell_n].
  assert (forall b, always (names_only name) (m_heap (upd_h_fields_of (fun m => <[b := default [] (m !! b) ++ [name]]> m)))) as Hf.
  { intros b s s' r [= <- <-]. split; [done..|]. intros b' m. unfold has_field, fields. cbn.
    destruct (decide (b' = b)) as [->|Hb]; [|by rewrite lookup_insert_ne by congruence; left].
    rewrite lookup_insert_eq. cbn. rewrite elem_of_app, list_elem_of_singleton. naive_solver. }
  repeat (apply always_bind || apply always_ret || apply always_gets || apply always_abs || apply always_class
    || apply always_for_each || apply IH || apply Hf || apply engine_names || case_match
    || apply _ || match goal with |- forall _, _ => intros ? end).
Qed.

Section Keep.
  Context (source : Source) (W : WellKnown) (fuel : nat) (A : AbsId -> NameId -> Prop).

#[local] Abbreviation wf := (wf W).
#[local] Abbreviation hoare := (hoare W A).

Implicit Types (X Y Z : ClassId -> AbsId -> NameId -> Prop).

(** ** More rules *)

Lemma hoare_bind_gets {R S} X Z s (f : Solver -> R) (k : R -> M S) Q :
  hoare X Z s (k (f s)) Q -> hoare X Z s (gets f ≫= k) Q.
Proof. intros H. by apply hoare_eq with (m' := k (f s)). Qed.

(** Reading an abstraction or a class does not move the state. *)
Lemma hoare_bind_abs {R} X Z s a (k : Abstraction -> M R) Q :
  (forall x, abs_at s a = Some x -> hoare X Z s (k x) Q) -> hoare X Z s (m_abs a ≫= k) Q.
Proof.
  intros H W0 C0 s' r E. apply bind_run in E as (s1 & x & E & Hk). unfold m_abs in E.
  destruct (h_abs (sv_heap s) !! a) as [y|] eqn:Ey; cbn in E; [|done]. injection E as <- <-. by apply (H y Ey W0 C0).
Qed.

Lemma hoare_bind_class {R} X Z s c (k : ClassInfo -> M R) Q :
  (forall x, class_at s c = Some x -> hoare X Z s (k x) Q) -> hoare X Z s (m_class c ≫= k) Q.
Proof.
  intros H W0 C0 s' r E. apply bind_run in E as (s1 & x & E & Hk). unfold m_class in E.
  destruct (h_classes (sv_heap s) !! c) as [y|] eqn:Ey; cbn in E; [|done]. injection E as <- <-. by apply (H y Ey W0 C0).
Qed.

Lemma hoare_jump {R} X Y Z s s1 (m m1 : M R) Q :
  good W A Y s s1 -> m s = m1 s1 -> hoare Y Z s1 m1 Q -> hoare X Z s m Q.
Proof.
  intros (W1 & C1 & E1) Hm H W0 C0 s' r E. rewrite Hm in E. destruct (H W1 C1 s' r E) as [(? & ? & E2) ?].
  split; [|done]. split_and!; [done..|]. by eapply heap_ext_trans.
Qed.

Lemma hoare_weaken {R} X X' Z s (m : M R) Q :
  (forall c a n, X c a n -> X' c a n) -> hoare X' Z s m Q -> hoare X Z s m Q.
Proof.
  intros HX H W0 C0. apply H; [done|]. intros c pa src n H1 H2 H3. destruct (C0 c pa src n H1 H2 H3); auto.
Qed.

(** The pending links of [Y] that [Z] does not have are in place. *)
Lemma hoare_discharge {R} X Y Z s (m : M R) Q :
  hoare X Y s m Q ->
  (forall s' r, wf s' -> ext A s s' -> Q s' r -> forall c pa src n,
     table_of s' c pa -> is_source s' c src -> has_field s' pa n -> Y c src n ->
     Z c src n \/ linked s' (KField src n) (KField pa n)) ->
  hoare X Z s m Q.
Proof.
  intros H HD W0 C0 s' r E. destruct (H W0 C0 s' r E) as [(W1 & C1 & E1) HQ]. split; [|done]. split_and!; [done| |done].
  intros c pa src n H1 H2 H3. destruct (C1 c pa src n H1 H2 H3); [|by right]. by eapply HD.
Qed.

Lemma hoare_any {R} X Y s (m : M R) Q : hoare X Y s m Q -> hoare X Y s m any.
Proof. intros H. eapply hoare_mono; [exact H|done]. Qed.

Lemma hoare_always {R} X Y s (m : M R) Q P :
  always P m -> hoare X Y s m Q -> hoare X Y s m (fun s' r => Q s' r /\ P s s').
Proof. intros HP H W0 C0 s' r E. destruct (H W0 C0 s' r E). split; [done|]. split; [done|]. by eapply HP. Qed.

Lemma hoare_none {R} X Y s (m : M R) Q : m s = None -> hoare X Y s m Q.
Proof. intros H _ _ s' r E. congruence. Qed.

(** ** Cells that may be raised *)

Lemma interned_inj s k l i : wf s -> interned s k i -> interned s l i -> k = l.
Proof.
  intros Hw H1 H2. apply (ids_lookup (eng s)) in H1; [|apply Hw]. apply (ids_lookup (eng s)) in H2; [|apply Hw].
  unfold key_at in *. congruence.
Qed.

Lemma raisable_key s k i : wf s -> interned s k i -> is_field k = false -> raisable A s i.
Proof. intros Hw Hi Hk a n k' H _ _. by rewrite (interned_inj s _ _ _ Hw Hi H) in Hk. Qed.

Lemma raisable_field s a n i k :
  wf s -> interned s (KField a n) i -> has_key s a k -> (is_alloc k = true -> A a n) -> raisable A s i.
Proof.
  intros Hw Hi Hk HA b m k' H Hk' Ha. pose proof (interned_inj s _ _ _ Hw Hi H) as [= <- <-].
  apply HA. unfold has_key in *. congruence.
Qed.

Lemma table_at s c pa : wf s -> table_of s c pa -> has_key s pa (AK_ProtoOf c).
Proof. intros Hw. apply Hw. Qed.

Lemma key_inj s a b k : wf s -> is_ns k = false -> has_key s a k -> has_key s b k -> a = b.
Proof. intros Hw Hk Ha Hb. apply (wf_key_ids W s Hw) in Ha, Hb; [|done..]. congruence. Qed.

Lemma key_abs s a k : has_key s a k -> has_abs s a.
Proof. unfold has_key, has_abs. intros (x & -> & _)%fmap_Some. by eexists. Qed.

(** ** Field cells *)

Definition fresh_pending X (x : Abstraction) name : ClassId -> AbsId -> NameId -> Prop :=
  fun c src n => X c src n \/ (ab_proto_of x = Some c /\ n = name).

(** The links of the class whose table the cell belongs to. *)
Lemma link_sources_spec X s c pa ci name cell n :
  (forall X s b, hoare X X s (field_cell_n W fuel n b name) (fun s' i => interned s' (KField b name) i)) ->
  class_at s c = Some ci -> has_key s pa (AK_ProtoOf c) -> interned s (KField pa name) cell ->
  hoare (fun c' a m => X c' a m \/ (Some c = Some c' /\ m = name)) X s
    (for_each (ci_sources ci) (fun src => sc ← field_cell_n W fuel n src name; m_link fuel sc cell)) any.
Proof.
  intros IH Hc Hk Hcell. set (Y := fun c' a m => _).
  eapply hoare_any, hoare_discharge with (Y := Y) (Q := fun s' _ =>
    names_only name s s' /\ forall src, src ∈ ci_sources ci -> linked s' (KField src name) (KField pa name)).
  - assert (forall l s1, l ⊆ ci_sources ci -> interned s1 (KField pa name) cell -> is_proto s1 pa ->
      hoare Y Y s1 (for_each l (fun src => sc ← field_cell_n W fuel n src name; m_link fuel sc cell))
        (fun s' _ => names_only name s1 s' /\ forall src, src ∈ l -> linked s' (KField src name) (KField pa name))) as H.
    { induction l as [|src l IHl]; intros s1 Hl Hi Hp; cbn [for_each].
      - apply hoare_ret. split; [done|]. by intros src ?%not_elem_of_nil.
      - eapply hoare_bind.
        + eapply (hoare_always _ _ _ _ _ (names_only name)).
          { apply (always_bind _); [apply field_cell_names|]. intros ?. apply engine_names. }
          eapply hoare_bind; [apply IH|]. intros s2 sc W2 C2 E2 Hsc. cbn beta.
          apply (hoare_link W A Y fuel s2 sc cell (KField src name) (KField pa name)); [done|by apply (ex_ids _ _ _ E2)|].
          constructor. by eapply is_proto_ext.
        + cbn beta. intros s2 [] W2 C2 E2 [Hlk Hno]. eapply hoare_mono.
          * apply IHl; [set_solver|by apply (ex_ids _ _ _ E2)|by eapply is_proto_ext].
          * cbn beta. intros s3 _ W3 E3 [Hno3 H3]. split; [by etransitivity|].
            intros src' [->|H']%elem_of_cons; [by eapply linked_ext|by apply H3]. }
    apply H; [done|done|by exists c].
  - cbn beta. intros s' [] W1 E1 [Hno HL] c' pa' src m H1 H2 H3 [|[[= <-] ->]]; [by left|right].
    assert (pa' = pa) as ->.
    { eapply key_inj; [exact W1| |by apply table_at|by eapply has_key_ext]. done. }
    apply HL. destruct H2 as (ci' & Hci' & Hin). rewrite (no_class _ _ _ Hno), Hc in Hci'. by injection Hci' as ->.
Qed.

(** What interning a new field cell does after the cell exists. *)
Definition field_links (n : nat) (name : NameId) (info : Abstraction) (cell : CellId) : M CellId :=
  match ab_proto_of info with
  | Some c => ci ← m_class c; for_each (ci_sources ci) (fun src => sc ← field_cell_n W fuel n src name; m_link fuel sc cell)
  | None => mret tt
  end;;
  match ab_owner_class info with
  | Some c =>
      if bool_decide (ab_proto_of info = Some c) then mret tt
      else ci ← m_class c; dc ← field_cell_n W fuel n (ci_proto_abs ci) name; m_link fuel cell dc
  | None => mret tt
  end;;
  match ab_class info with
  | Some c => view ← m_cell (KClassView c name); m_link fuel cell view
  | None => mret tt
  end;;
  (if bool_decide (name = wk_elems W) && ab_is_array info then
     union ← m_cell KArrayElemsUnion; m_link fuel cell union else mret tt);;
  mret cell.

Lemma field_links_spec X s a name x cell n :
  (forall X s b, hoare X X s (field_cell_n W fuel n b name) (fun s' i => interned s' (KField b name) i)) ->
  abs_at s a = Some x -> interned s (KField a name) cell ->
  hoare (fresh_pending X x name) X s (field_links n name x cell) (fun s' i => interned s' (KField a name) i).
Proof.
  intros IH Hx Hi. apply hoare_pre. intros W0 _. pose proof (wf_abs W s W0 a x Hx) as Hok.
  assert (has_key s a (ab_key x)) as Hk by (unfold has_key; by rewrite Hx).
  unfold field_links. eapply (hoare_bind _ _ _ X).
  { destruct (ab_proto_of x) as [c|] eqn:Hpo.
    - rewrite (ao_proto_of _ _ _ Hok) in Hpo. destruct (ab_key x) eqn:Hkx; try done. injection Hpo as ->.
      destruct (class_at s c) as [ci|] eqn:Hc; [|by apply hoare_none; unfold class_at in Hc; mrun; rewrite Hc].
      apply hoare_eq with (m' := for_each (ci_sources ci) (fun src => sc ← field_cell_n W fuel n src name; m_link fuel sc cell)).
      { unfold class_at in Hc. unfold m_class. unfold mbind at 1, M_bind. by rewrite Hc. }
      eapply hoare_weaken; [|by apply (link_sources_spec X s c a)].
      intros c' b m [H|[H ->]]; [by left|right]. split; [|done]. rewrite (ao_proto_of _ _ _ Hok), Hkx in H. done.
    - eapply hoare_weaken with (X' := X); [|by apply hoare_ret]. intros c b m [|[H _]]; [done|congruence]. }
  intros s1 [] W1 _ E1 _. apply (ex_ids _ _ _ E1) in Hi. eapply (hoare_bind _ _ _ X _ _ _ _ any).
  { destruct (ab_owner_class x) as [c|]; [|by apply hoare_ret]. case_bool_decide; [by apply hoare_ret|].
    eapply hoare_bind; [apply m_class_spec|]. intros s2 ci W2 _ E2 Hc.
    eapply hoare_bind; [apply IH|]. intros s3 dc W3 _ E3 Hdc. eapply hoare_any, hoare_link; [|exact Hdc|].
    - by apply (ex_ids _ _ _ E3), (ex_ids _ _ _ E2).
    - constructor. exists c. eapply has_key_ext; [exact E3|]. apply table_at; [done|]. unfold table_of. by rewrite Hc. }
  intros s2 [] W2 _ E2 _. apply (ex_ids _ _ _ E2) in Hi. eapply (hoare_bind _ _ _ X _ _ _ _ any).
  { destruct (ab_class x) as [c|]; [|by apply hoare_ret].
    eapply hoare_bind; [by apply hoare_cell|]. intros s3 v W3 _ E3 Hv. eapply hoare_any, hoare_link; [|exact Hv|apply fl_view].
    by apply (ex_ids _ _ _ E3). }
  intros s3 [] W3 _ E3 _. apply (ex_ids _ _ _ E3) in Hi. eapply (hoare_bind _ _ _ X _ _ _ _ any).
  { destruct (_ && _); [|by apply hoare_ret].
    eapply hoare_bind; [by apply hoare_cell|]. intros s4 v W4 _ E4 Hv. eapply hoare_any, hoare_link; [|exact Hv|apply fl_elems].
    by apply (ex_ids _ _ _ E4). }
  intros s4 [] W4 _ E4 _. apply (ex_ids _ _ _ E4) in Hi. by apply hoare_ret.
Qed.

Lemma field_cell_n_spec X s a name n :
  hoare X X s (field_cell_n W fuel n a name) (fun s' i => interned s' (KField a name) i).
Proof.
  revert X s a. induction n as [|n IH]; intros X s a; [by apply hoare_none|].
  apply hoare_pre. intros W0 C0. cbn [field_cell_n]. unfold m_lookup. apply hoare_bind_gets.
  destruct (lookup_cell (eng s) (KField a name)) as [i|] eqn:Hnew; [by apply hoare_ret|].
  destruct (abs_at s a) as [x|] eqn:Hx.
  2:{ apply hoare_none. unfold abs_at in Hx. mrun. destruct (cell (eng s) (KField a name)). cbn. by rewrite Hx. }
  pose proof (fresh_field_good W A X s a name x W0 C0 Hx Hnew) as H.
  destruct (cell (eng s) (KField a name)) as [e' cell] eqn:Ecell. cbv zeta in H. set (s' := upd_sv_heap _ _) in H.
  destruct H as (G & Hcell & _). apply (hoare_jump _ _ _ _ s' _ (field_links n name x cell) _ G).
  2:{ by apply field_links_spec. }
  assert (Hx' : h_abs (sv_heap s) !! a = Some x) by exact Hx.
  unfold m_cell, m_heap, modify, on_engine, m_abs. do 3 (unfold mbind at 1, M_bind at 1; cbn). rewrite Ecell. cbn. by rewrite Hx'.
Qed.

End Keep.
