(* ===== verification/HeapOps.v ===== *)
(** * HeapOps: homes, tables, seeding and classes keep the invariant

    The triples of the operations above the field cells, and the cycle
    through the snapshot: seeding an abstraction, registering a prototype
    source, finding a class and interning a snapshot object. *)

From S2P Require Import Prelude OpSem Facts Types Engine EngineRun EngineFix Mem Source Contexts Builtins SolverState Heap EngineExt HeapInv.
From S2P Require Import HeapKeep.

(** Facts of a state hold in its extensions. *)
Ltac carry :=
  cbv beta in *;
  repeat match goal with
  | E : ext _ ?s ?s', H : interned ?s _ _ |- _ => apply (ex_ids _ s s' E) in H
  | E : ext _ ?s ?s', H : has_key ?s _ _ |- _ => apply (has_key_ext _ s s' _ _ E) in H
  | E : ext _ ?s ?s', H : has_abs ?s _ |- _ => apply (has_abs_ext _ s s' _ E) in H
  | E : ext _ ?s ?s', H : has_class ?s _ |- _ => apply (has_class_ext _ s s' _ E) in H
  | E : ext _ ?s ?s', H : is_proto ?s _ |- _ => apply (is_proto_ext _ s s' _ E) in H
  | E : ext _ ?s ?s', H : table_of ?s _ _ |- _ => apply (ex_class _ s s' E) in H
  | E : ext _ ?s ?s', H : linked ?s _ _ |- _ => apply (linked_ext _ s s' _ _ E) in H
  end.

Create HintDb heap discriminated.

(** One operation by its triple, or a compound one by its parts. *)
Ltac hop := solve [eauto 5 with heap nocore].

Ltac hk :=
  cbv beta;
  lazymatch goal with
  | |- HeapInv.hoare _ _ _ _ _ (mret _) _ => by apply hoare_ret
  | |- HeapInv.hoare _ _ _ _ _ fail _ => apply hoare_fail
  | |- HeapInv.hoare _ _ _ _ _ (gets _) _ => by apply hoare_gets
  | |- HeapInv.hoare _ _ _ _ _ (gets _ ≫= _) _ => apply hoare_bind_gets; hk
  | |- HeapInv.hoare _ _ _ _ _ (m_lookup _ ≫= _) _ => apply hoare_bind_gets; hk
  | |- HeapInv.hoare _ _ _ _ _ (m_abs _ ≫= _) _ => apply hoare_bind_abs; intros ? ?; hk
  | |- HeapInv.hoare _ _ _ _ _ (m_class _ ≫= _) _ => apply hoare_bind_class; intros ? ?; hk
  | |- HeapInv.hoare _ _ _ _ _ (_ ≫= _) _ =>
      first
        [ eapply hoare_bind; [hop|cbv beta; intros ? ? ? _ ? ?; carry; hk]
        | eapply (hoare_bind _ _ _ _ _ _ _ _ any); [hk|cbv beta; intros ? ? ? _ ? _; carry; hk] ]
  | |- HeapInv.hoare _ _ _ _ _ (for_each _ _) _ => apply keeps_for_each; intros ? ? ? ? ?; carry; hk
  | |- HeapInv.hoare _ _ _ _ _ (fold_m _ _ _) _ => apply keeps_fold; intros ? ? ? ? ? ?; carry; hk
  | |- HeapInv.hoare _ _ _ _ _ (match ?x with _ => _ end) _ => let E := fresh in destruct x eqn:E; hk
  | |- _ => first [hop | eapply hoare_any; hop | idtac]
  end.

Section Ops.
  Context (source : Source) (W : WellKnown) (fuel : nat) (A : AbsId -> NameId -> Prop).

#[local] Abbreviation wf := (wf W).
#[local] Abbreviation hoare := (hoare W A).

Implicit Types (X Y Z : ClassId -> AbsId -> NameId -> Prop).

(** ** Changes outside the core *)

Lemma core_spec {R} X s (m : M R) : (forall s' r, m s = Some (s', r) -> same_core s s') -> hoare X X s m any.
Proof. intros H W0 C0 s' r E. split; [|done]. apply same_core_good; [by eapply H|done|done]. Qed.

Ltac core := intros; apply core_spec; intros ? ?; mrun; intros [= <- <-]; by split.

Lemma this_spec X s f : hoare X X s (m_this f) any.
Proof. core. Qed.

Lemma stats_spec X s f : hoare X X s (m_stats f) any.
Proof. core. Qed.

Lemma sites_spec X s f : hoare X X s (m_sites f) any.
Proof. core. Qed.

Lemma tables_spec X s f : hoare X X s (m_tables f) any.
Proof. core. Qed.

Lemma method_home_spec X s f : hoare X X s (m_heap (upd_h_method_home f)) any.
Proof. core. Qed.

Lemma site_is_proto_spec X s f : hoare X X s (m_heap (upd_h_site_is_proto f)) any.
Proof. core. Qed.

Lemma dyn_named_spec X s f : hoare X X s (m_heap (upd_h_dyn_named_writes f)) any.
Proof. core. Qed.

Lemma proto_owner_spec X s f : hoare X X s (m_heap (upd_h_proto_owner f)) any.
Proof. core. Qed.

Lemma script_fn_objs_spec X s f : hoare X X s (m_heap (upd_h_script_fn_objs f)) any.
Proof. core. Qed.

Lemma script_proto_spec X s f : hoare X X s (m_heap (upd_h_script_proto f)) any.
Proof. core. Qed.

Lemma m_intern_spec X s chars : hoare X X s (m_intern chars) any.
Proof.
  apply core_spec. intros s' r. unfold m_intern. destruct (intern _ _) as [[n id]|]; cbn; [|done]. intros [= <- <-]. by split.
Qed.

Lemma m_name_spec X s n : hoare X X s (m_name n) any.
Proof.
  apply core_spec. intros s' r. unfold m_name. destruct (name_get _ _) as [c|]; cbn; [|done]. intros [= <- <-]. by split.
Qed.

Lemma natives_spec X s k n c : hoare X X s (m_natives_intern k n c) any.
Proof.
  apply core_spec. intros s' r. unfold m_natives_intern. destruct (natives_intern _ _ _ _) as [[n' id]|]; cbn; [|done].
  intros [= <- <-]. by split.
Qed.

Lemma get_some_spec {R} X s (o : option R) : hoare X X s (get_some o) (fun s' r => o = Some r).
Proof. by apply hoare_get_some. Qed.

(** ** Raises and links by key *)

Lemma raise_spec X s i t u k : wf s -> interned s k i -> is_field k = false -> hoare X X s (m_raise fuel i t u) any.
Proof. intros. by eapply hoare_raise, raisable_key. Qed.

Lemma raise_resolved X s i t u sid ctx k :
  wf s -> interned s (resolve_key sid ctx k) i -> hoare X X s (m_raise fuel i t u) any.
Proof. intros. eapply raise_spec; [done..|by destruct k]. Qed.

Lemma raise_field X s a n k i t u :
  wf s -> interned s (KField a n) i -> has_key s a k -> is_alloc k = false -> hoare X X s (m_raise fuel i t u) any.
Proof. intros. eapply hoare_raise, raisable_field; [done..|]. congruence. Qed.

Lemma link_spec X s i j k l :
  interned s k i -> interned s l j -> flows s k l -> hoare X X s (m_link fuel i j) any.
Proof. intros. by eapply hoare_any, hoare_link. Qed.

(** ** Cells *)

Lemma field_cell_spec X s a n : hoare X X s (field_cell W fuel a n) (fun s' i => interned s' (KField a n) i).
Proof. apply field_cell_n_spec. Qed.

Lemma class_field_cell_spec X s c n :
  hoare X X s (class_field_cell fuel c n) (fun s' i => interned s' (KClassField c n) i).
Proof.
  unfold class_field_cell. apply hoare_bind_gets. destruct (lookup_cell (eng s) (KClassField c n)) eqn:E; [by apply hoare_ret|].
  eapply hoare_bind; [by apply hoare_cell|]. intros s1 i W1 _ E1 Hi.
  eapply hoare_bind; [by apply hoare_cell|]. intros s2 j W2 _ E2 Hj. carry.
  eapply hoare_bind; [eapply link_spec; [exact Hi|exact Hj|apply fl_class]|]. intros s3 [] W3 _ E3 _. carry. by apply hoare_ret.
Qed.

End Ops.

#[export] Hint Resolve hoare_resolve hoare_read hoare_ts hoare_join hoare_join_from hoare_fns_insert hoare_fns_join
  m_abs_spec m_class_spec this_spec stats_spec sites_spec tables_spec method_home_spec site_is_proto_spec dyn_named_spec
  proto_owner_spec script_fn_objs_spec script_proto_spec m_intern_spec m_name_spec natives_spec get_some_spec
  raise_resolved field_cell_spec class_field_cell_spec : heap.
#[export] Hint Extern 1 (HeapInv.hoare _ _ _ _ _ (m_cell _) _) => simple apply hoare_cell; reflexivity : heap.
#[export] Hint Extern 1 (HeapInv.hoare _ _ _ _ _ (m_raise _ _ _ _) _) =>
  eapply raise_spec; [eassumption|eassumption|reflexivity] : heap.
#[export] Hint Extern 2 (HeapInv.hoare _ _ _ _ _ (m_raise _ _ _ _) _) =>
  eapply raise_field; [eassumption|eassumption|eassumption|first [reflexivity|assumption]] : heap.

Section Ops2.
  Context (source : Source) (W : WellKnown) (fuel : nat) (A : AbsId -> NameId -> Prop).

#[local] Abbreviation wf := (wf W).
#[local] Abbreviation hoare := (hoare W A).

Implicit Types (X Y Z : ClassId -> AbsId -> NameId -> Prop).

(** ** Homes *)

Lemma this_home_add_n_spec n X s sid c : hoare X X s (this_home_add_n fuel n sid c) any.
Proof.
  revert X s sid c. induction n as [|n IH]; intros X s sid c; [apply hoare_fail|]. cbn [this_home_add_n].
  apply hoare_bind_gets. eapply hoare_bind; [hop|]. intros s1 [] W1 _ E1 _.
  case_bool_decide; [by apply hoare_ret|]. case_match; [hop|].
  eapply hoare_bind; [hop|]. intros s2 [] W2 _ E2 _. apply hoare_bind_gets.
  eapply (hoare_bind _ _ _ X _ _ _ _ any).
  { hk. eapply link_spec; [eassumption..|constructor]. }
  intros s3 [] W3 _ E3 _. apply hoare_bind_gets. apply keeps_for_each. intros d s4 _ _ _. apply IH.
Qed.

Lemma this_home_add_spec X s sid c : hoare X X s (this_home_add fuel sid c) any.
Proof. apply this_home_add_n_spec. Qed.

#[local] Hint Resolve this_home_add_spec : heap.

Lemma this_deleg_add_spec X s f g : hoare X X s (this_deleg_add fuel f g) any.
Proof. unfold this_deleg_add. hk. Qed.

Lemma this_field_raise_spec X s sid n v u : hoare X X s (this_field_raise fuel sid n v u) any.
Proof.
  unfold this_field_raise. apply hoare_bind_gets. apply hoare_pre. intros W0 C0.
  eapply (hoare_bind _ _ _ X _ _ _ _ (fun s' i => interned s' (KThisField sid n) i)).
  - destruct (lookup_cell (eng s) (KThisField sid n)) eqn:E; [by apply hoare_ret|]. cbn.
    eapply hoare_bind; [hop|]. intros s1 i W1 _ E1 Hi. hk. eapply link_spec; [eassumption..|constructor].
  - intros s1 i W1 _ E1 Hi. hop.
Qed.

Lemma note_method_home_spec X s c v : hoare X X s (note_method_home fuel c v) any.
Proof. unfold note_method_home. hk. Qed.

(** ** Function tables *)

Lemma install_table_links_spec X s a : hoare X X s (install_table_links fuel a) any.
Proof. unfold install_table_links. hk. eapply link_spec; [eassumption..|constructor]. Qed.

#[local] Hint Resolve install_table_links_spec : heap.

Lemma add_table_members_spec X s a ids : hoare X X s (add_table_members fuel a ids) any.
Proof. unfold add_table_members. hk. Qed.

(** ** Minting *)

Lemma class_bound s c : has_class s c <-> (c < length (h_classes (sv_heap s)))%nat.
Proof. unfold has_class, class_at. apply lookup_lt_is_Some. Qed.

Lemma abs_bound s a : has_abs s a <-> (a < length (h_abs (sv_heap s)))%nat.
Proof. unfold has_abs, abs_at. apply lookup_lt_is_Some. Qed.

Lemma found_key s a k : wf s -> h_abs_ids (sv_heap s) !! k = Some a -> has_key s a k.
Proof. intros Hw. apply Hw. Qed.

Lemma found_class s c k : wf s -> h_class_ids (sv_heap s) !! k = Some c -> has_class s c.
Proof. intros Hw H. apply (wf_class_ids W s Hw) in H. apply fmap_Some in H as (ci & Hci & _). by exists ci. Qed.

Lemma table_bound s c ci : wf s -> class_at s c = Some ci -> has_abs s (ci_proto_abs ci).
Proof.
  intros Hw Hc. assert (table_of s c (ci_proto_abs ci)) as H by (unfold table_of; by rewrite Hc).
  by eapply key_abs, (wf_table W s Hw).
Qed.

Lemma intern_fn_obj_spec X s f : hoare X X s (intern_fn_obj f) (fun s' a => has_key s' a (AK_FnObj f)).
Proof.
  apply hoare_pre. intros W0 C0. unfold intern_fn_obj. apply hoare_bind_gets.
  destruct (h_abs_ids (sv_heap s) !! AK_FnObj f) as [a|] eqn:E; [by apply hoare_ret, found_key|].
  eapply hoare_mono; [by apply new_abs_spec|]. by intros s' r _ _ (? & _ & _).
Qed.

Lemma new_class_has X s key ctor :
  h_class_ids (sv_heap s) !! key = None ->
  hoare X X s (new_class key ctor) (fun s' c => has_class s' c).
Proof.
  intros H. eapply hoare_mono; [by apply new_class_spec|]. intros s' c _ _ [(ci & Hci & _) _]. by exists ci.
Qed.

Lemma site_class_spec X s script pc : hoare X X s (site_class script pc) (fun s' c => has_class s' c).
Proof.
  apply hoare_pre. intros W0 C0. unfold site_class. cbv zeta. apply hoare_bind_gets.
  destruct (h_class_ids (sv_heap s) !! CK_Site (script, pc)) as [c|] eqn:E; [by eapply hoare_ret, found_class|].
  by apply new_class_has.
Qed.

(** Class flags: the sources stay. *)
Lemma class_flag_spec X s c f :
  (forall ci, ci_key (f ci) = ci_key ci /\ ci_proto_abs (f ci) = ci_proto_abs ci /\ ci_sources (f ci) = ci_sources ci) ->
  hoare X X s (m_set_class c f) any.
Proof.
  intros H. apply hoare_set_class; [|done|done]. intros ci _. destruct (H ci) as (-> & -> & ->). split_and!; auto.
Qed.

Lemma arrays_spec {R} X s (g : Engine -> gset ClassId) (r : R) :
  hoare X X s (on_engine (fun e => Some (set_arrays e (g e), r))) any.
Proof. apply hoare_graph. intros e' x [= <- <-]. split; [by split|done]. Qed.

(** Completing a fresh abstraction: its class, its flags. *)
Lemma since_class X s0 s a c :
  ~ has_abs s0 a -> has_class s c -> since W A X X s0 s (set_abs_class a c) any.
Proof.
  intros Hn Hc. apply since_set_labelled; [done| |done]. intros x Hx Hok. split_and!; [done..|].
  apply class_bound in Hc. destruct Hok. split; try done. cbn. by intros c' [= <-].
Qed.

Lemma since_proto X s0 s a p :
  ~ has_abs s0 a -> has_abs s p -> since W A X X s0 s (m_set_abs a (upd_ab_proto (fun _ => PL_Abs p))) any.
Proof.
  intros Hn Hp. apply since_set_fresh; [done| |done]. intros x Hx Hok. split_and!; [done..|].
  apply abs_bound in Hp. destruct Hok. split; try done. cbn. by intros c' [= <-].
Qed.

Lemma since_ta X s0 s a k :
  ~ has_abs s0 a -> since W A X X s0 s (m_set_abs a (upd_ab_ta_kind (fun _ => k))) any.
Proof.
  intros Hn. apply since_set_fresh; [done| |done]. intros x Hx Hok. split_and!; [done..|].
  destruct Hok. split; try done.
Qed.

Lemma since_array X s0 s a b {R} (k : M R) Q :
  ~ has_abs s0 a ->
  (forall s1, wf s1 -> ext A s0 s1 -> pext s s1 -> since W A X X s0 s1 k Q) ->
  since W A X X s0 s (m_set_abs a (upd_ab_is_array (fun _ => b));;
    m_set_label a (fun l => mkAbsLabels (al_class l) (al_snap l) b);; k) Q.
Proof.
  intros Hn Hk.
  assert (since W A X X s0 s ((m_set_abs a (upd_ab_is_array (fun _ => b));;
    m_set_label a (fun l => mkAbsLabels (al_class l) (al_snap l) b));; k) Q) as H.
  - eapply (since_bind W A X X X s0 s _ _ any); [|intros s1 [] W1 E1 P1 _; by apply Hk].
    apply since_set_labelled; [done| |done]. intros x Hx Hok. split_and!; [done..|]. destruct Hok. split; try done.
  - intros W0 C0 E0 s' r E. apply (H W0 C0 E0 s' r). revert E. unfold mbind, M_bind.
    destruct (m_set_abs a _ s) as [[s1 []]|]; [|done]. by destruct (m_set_label a _ s1) as [[s2 []]|].
Qed.

Lemma since_ret {R} X s0 s (r : R) (Q : Solver -> R -> Prop) : Q s r -> since W A X X s0 s (mret r) Q.
Proof. intros H W0 C0 E0 s' r' [= <- <-]. split_and!; auto. split; auto. Qed.

Lemma pext_class s s' c : pext s s' -> has_class s c -> has_class s' c.
Proof. rewrite !has_class_table. intros P [pa H]. exists pa. by apply (px_class _ _ P). Qed.

Lemma set_abs_class_classes a c s s' r :
  set_abs_class a c s = Some (s', r) -> h_classes (sv_heap s') = h_classes (sv_heap s).
Proof.
  unfold set_abs_class, m_set_label, on_engine. intros (s1 & [] & ->%set_abs_run & H)%bind_run. revert H.
  cbn. destruct (abs_labels _ !! a); cbn; [|done]. by intros [= <- _].
Qed.

Lemma intern_alloc_spec X s script pc ctx class arr ta :
  hoare X X s (intern_alloc script pc ctx class arr ta) (fun s' a => has_key s' a (AK_Alloc script pc ctx)).
Proof.
  apply hoare_pre. intros W0 C0. unfold intern_alloc. cbv zeta. apply hoare_bind_gets.
  destruct (h_abs_ids (sv_heap s) !! AK_Alloc script pc ctx) as [a|] eqn:E; [by apply hoare_ret, found_key|].
  apply hoare_since. eapply since_bind; [by apply since_hoare, new_abs_spec|].
  intros s1 a W1 E1 P1 (Hk & Hn & _). apply since_array; [done|]. intros s2 W2 E2 P2. apply (px_key _ _ P2) in Hk.
  eapply since_bind; [by apply since_ta|]. intros s3 [] W3 E3 P3 _. apply (px_key _ _ P3) in Hk.
  eapply (since_bind _ _ X X X _ _ _ _ any).
  2:{ intros s4 [] W4 E4 P4 _. apply (px_key _ _ P4) in Hk. by apply since_ret. }
  destruct class as [c|].
  - destruct (class_at s3 c) as [ci|] eqn:Hc.
    + assert (has_class s3 c) as Hc' by by exists ci.
      eapply since_bind; [by apply since_class|]. intros s4 [] W4 E4 P4 _.
      eapply since_bind; [apply since_hoare, m_class_spec|]. cbn beta. intros s5 ci' W5 E5 P5 Hci.
      apply since_proto; [done|]. by eapply table_bound.
    + intros _ _ _ s' r H. apply bind_run in H as (s4 & [] & H4 & H). apply set_abs_class_classes in H4.
      apply bind_run in H as (s5 & ci & H & _). unfold m_class in H. unfold class_at in Hc, H4.
      by rewrite H4, Hc in H.
  - eapply since_bind; [apply since_hoare, site_class_spec|]. cbn beta. intros s4 c W4 E4 P4 Hc.
    eapply since_bind; [by apply since_class|]. intros s5 [] W5 E5 P5 _.
    eapply (since_bind _ _ X X X _ _ _ _ any); [|intros s6 [] W6 E6 P6 _].
    + apply since_hoare. destruct (decide _); [by apply class_flag_spec|by apply hoare_ret].
    + apply since_hoare. destruct arr; [|by apply hoare_ret].
      eapply hoare_bind; [by apply class_flag_spec|]. intros s7 [] W7 _ E7 _. apply arrays_spec.
Qed.

End Ops2.

#[export] Hint Resolve this_home_add_spec this_deleg_add_spec this_field_raise_spec note_method_home_spec
  install_table_links_spec add_table_members_spec intern_fn_obj_spec site_class_spec intern_alloc_spec : heap.

(** * the cycle through the snapshot keeps the invariant

    Seeding, prototype sources, classes and snapshot interning against the
    recursive call, then tied by induction on the fuel. *)

Section Snap.
  Context (source : Source) (W : WellKnown) (fuel : nat) (A : AbsId -> NameId -> Prop).

#[local] Abbreviation wf := (wf W).
#[local] Abbreviation hoare := (hoare W A).

Implicit Types (X Y Z : ClassId -> AbsId -> NameId -> Prop).

(** Marking an abstraction. *)
Lemma set_seeded_spec X s a b : hoare X X s (m_set_abs a (upd_ab_seeded (fun _ => b))) any.
Proof. apply hoare_set_abs; [|done]. intros x _ Hok. split; [by split|]. destruct Hok. split; try done. Qed.

#[local] Hint Resolve set_seeded_spec : heap.

Lemma native_id_spec X s k n : hoare X X s (native_id k n) any.
Proof. unfold native_id. hk. Qed.

#[local] Hint Resolve native_id_spec : heap.

(** ** Against the recursive call *)

Section Rec.
  Context (rec : SourceObjectId -> M AbsId)
          (Hrec : forall X s oid, hoare X X s (rec oid) (fun s' a => has_abs s' a)).

#[local] Hint Resolve Hrec : heap.

Lemma ts_of_sval_rec X s v : hoare X X s (ts_of_sval source rec v) any.
Proof. unfold ts_of_sval. hk. Qed.

#[local] Hint Resolve ts_of_sval_rec : heap.

Lemma seed_prop_rec X s a k p :
  has_key s a k -> is_alloc k = false -> hoare X X s (seed_prop source W fuel rec a p) any.
Proof. intros Hk Ha. unfold seed_prop. hk. Qed.

Lemma seed_static_rec X s a k p :
  has_key s a k -> is_alloc k = false -> hoare X X s (seed_static source W fuel rec a p) any.
Proof. intros Hk Ha. unfold seed_static. hk. Qed.

#[local] Hint Resolve seed_prop_rec seed_static_rec : heap.

Lemma seed_fn_obj_rec X s a k f :
  has_key s a k -> is_alloc k = false -> hoare X X s (seed_fn_obj source W fuel rec a f) any.
Proof. intros Hk Ha. unfold seed_fn_obj. hk. Qed.

Lemma seed_elems_rec X s l t fs : hoare X X s (seed_elems source rec l t fs) any.
Proof.
  revert s t fs. induction l as [|v l IH]; intros s t fs; cbn [seed_elems]; [by apply hoare_ret|]. hk.
Qed.

#[local] Hint Resolve seed_elems_rec : heap.

Lemma seed_snap_rec X s a k oid :
  has_key s a k -> is_alloc k = false -> hoare X X s (seed_snap source W fuel rec a oid) any.
Proof. intros Hk Ha. unfold seed_snap. cbv zeta. hk. Qed.

#[local] Hint Resolve seed_snap_rec seed_fn_obj_rec : heap.

Lemma ensure_seeded_rec X s a : hoare X X s (ensure_seeded source W fuel rec a) any.
Proof.
  unfold ensure_seeded. apply hoare_bind_abs. intros x Hx.
  destruct (ab_seeded x); [by apply hoare_ret|].
  assert (has_key s a (ab_key x)) as Hk by (unfold has_key; by rewrite Hx).
  eapply hoare_bind; [hop|]. intros s2 [] W2 _ E2 _. carry. destruct (ab_key x); try by apply hoare_ret.
  - by eapply seed_snap_rec.
  - by eapply seed_fn_obj_rec.
Qed.

#[local] Hint Resolve ensure_seeded_rec : heap.

(** ** Sources of a method table *)

Lemma install_chain_spec X s pa src : hoare X X s (install_chain fuel pa src) any.
Proof.
  apply hoare_pre. intros W0 C0. unfold install_chain. apply hoare_bind_abs. intros px Hp.
  case_bool_decide as Hnone; [|by apply hoare_ret]. apply hoare_bind_abs. intros sx Hs.
  destruct (ab_proto sx) as [up|] eqn:Hup; [|by apply hoare_ret].
  pose proof (ao_proto _ _ _ (wf_abs W s W0 src sx Hs) up Hup) as Hb.
  eapply (hoare_bind _ _ _ X _ _ _ _ any); [|intros s1 [] W1 _ E1 _; hk].
  apply hoare_set_abs; [|done]. intros x Hx Hok. rewrite Hp in Hx. injection Hx as <-. split.
  - split; try done. cbn. intros p Hp'. congruence.
  - destruct Hok. split; try done. cbn. by intros p [= <-].
Qed.

(** Every name of either side is linked, so the source is complete. *)
Lemma link_names_spec Y s pa src l :
  is_proto s pa ->
  hoare Y Y s (for_each l (fun name => sc ← field_cell W fuel src name; dc ← field_cell W fuel pa name; m_link fuel sc dc))
    (fun s' _ => (forall a n, has_field s' a n -> has_field s a n \/ n ∈ l) /\
       forall n, n ∈ l -> linked s' (KField src n) (KField pa n)).
Proof.
  revert s. induction l as [|n l IH]; intros s Hp; cbn [for_each].
  - apply hoare_ret. split; [by left|]. by intros n ?%not_elem_of_nil.
  - eapply hoare_bind.
    + eapply (hoare_always _ _ _ _ _ _ _ (names_only n)).
      { apply (always_bind _); [apply field_cell_names|intros ?]. apply (always_bind _); [apply field_cell_names|intros ?].
        apply engine_names. }
      eapply hoare_bind; [apply field_cell_spec|]. intros s1 sc W1 _ E1 Hsc.
      eapply hoare_bind; [apply field_cell_spec|]. intros s2 dc W2 _ E2 Hdc. carry.
      eapply hoare_link; [exact Hsc|exact Hdc|by constructor].
    + cbn beta. intros s1 [] W1 _ E1 [HL Hno]. carry. eapply hoare_mono; [by apply IH|].
      cbn beta. intros s2 _ W2 E2 [Hf H]. split.
      * intros a m Hm. destruct (Hf a m Hm) as [Hm'|]; [|right; by right]. destruct (no_fields _ _ _ Hno a m Hm') as [| ->]; [by left|].
        right. by left.
      * intros m [->|Hm]%elem_of_cons; [by eapply linked_ext|by apply H].
Qed.

Lemma link_fields_spec X s c pa src :
  table_of s c pa -> hoare (pending_source X c src) X s (link_fields W fuel pa src) any.
Proof.
  intros Ht. apply hoare_pre. intros W0 C0. unfold link_fields. apply hoare_bind_gets.
  eapply hoare_any, hoare_discharge; [apply link_names_spec; exists c; by apply (wf_table W)|].
  cbn beta. intros s' [] W1 E1 [Hf HL] c' pa' a n H1 H2 H3 [H|[-> ->]]; [by left|right].
  carry. assert (pa' = pa) as -> by (unfold table_of in *; congruence).
  destruct (Hf pa n H3) as [H|H]; [|by apply HL]. apply HL, elem_of_app. by left.
Qed.

Lemma home_methods_spec X s c src : hoare X X s (home_methods W fuel c src) any.
Proof. unfold home_methods. hk. Qed.

Lemma register_rec X s c src own :
  has_abs s src -> hoare X X s (register_proto_source_impl source W fuel rec c src own) any.
Proof.
  intros Hsrc. unfold register_proto_source_impl. apply hoare_bind_class. intros ci Hci.
  case_bool_decide as Hin; [by apply hoare_ret|].
  assert (has_class s c) as Hc by by exists ci.
  assert (table_of s c (ci_proto_abs ci)) as Ht by (unfold table_of; by rewrite Hci).
  eapply (hoare_bind _ _ _ (pending_source X c src) _ _ _ _ any).
  { apply hoare_set_class; [|intros; by left|done]. intros ci' Hci'. split_and!; [done..| |].
    - intros a Ha. cbn. apply elem_of_app. by left.
    - cbn. intros a [Ha| ->%list_elem_of_singleton]%elem_of_app; [by left|right]. split; [done|]. intros n. by right. }
  intros s1 [] W1 _ E1 _. carry. apply hoare_bind_abs. intros x Hx. cbv zeta.
  eapply (hoare_bind _ _ _ (pending_source X c src) _ _ _ _ (fun s' _ => abs_at s' = abs_at s1)).
  { destruct (ab_key x); [by apply hoare_ret..| |by apply hoare_ret]. by apply hoare_modify; [split|]. }
  cbn beta. intros s2 [] W2 _ E2 Hat. carry. rewrite <- Hat in Hx.
  eapply (hoare_bind _ _ _ (pending_source X c src) _ _ _ _ any).
  { destruct (own && bool_decide (ab_owner_class x = None)) eqn:Ho; [|by apply hoare_ret].
    apply andb_true_iff in Ho as [_ Ho%bool_decide_eq_true].
    apply hoare_set_abs; [|done]. intros y Hy Hok. rewrite Hx in Hy. injection Hy as <-. apply class_bound in Hc. split.
    - split; try done. cbn. intros c' Hc'. congruence.
    - destruct Hok. split; try done; cbn.
      + by intros c' [= <-].
      + intros c' Hk. specialize (ao_table c' Hk). congruence. }
  intros s3 [] W3 _ E3 _. carry. eapply hoare_bind; [apply ensure_seeded_rec|]. intros s4 [] W4 _ E4 _. carry.
  apply hoare_bind_class. intros ci' Hci'.
  assert (ci_proto_abs ci' = ci_proto_abs ci) as ->.
  { unfold table_of in Ht. rewrite Hci' in Ht. cbn in Ht. congruence. }
  eapply hoare_bind; [apply install_chain_spec|]. intros s5 [] W5 _ E5 _. carry.
  eapply hoare_bind; [by apply link_fields_spec|]. intros s6 [] W6 _ E6 _.
  destruct own; [apply home_methods_spec|by apply hoare_ret].
Qed.

(** ** Classes *)

Lemma class_for_key_rec X s key ctor f :
  hoare X X s (class_for_key source W fuel rec key ctor f) (fun s' c => has_class s' c).
Proof.
  apply hoare_pre. intros W0 C0. unfold class_for_key. apply hoare_bind_gets.
  destruct (h_class_ids (sv_heap s) !! key) as [c|] eqn:E; [by eapply hoare_ret, found_class|].
  eapply hoare_bind; [by apply new_class_has|]. cbn beta. intros s1 c W1 _ E1 Hc.
  eapply (hoare_bind _ _ _ X _ _ _ _ any).
  { destruct key; try by apply hoare_ret. eapply hoare_bind; [hop|]. intros s2 src W2 _ E2 Hs. by apply register_rec. }
  intros s2 [] W2 _ E2 _. carry. eapply hoare_bind; [hop|]. intros s3 [] W3 _ E3 _. carry. by apply hoare_ret.
Qed.

Lemma class_for_fn_rec X s f : hoare X X s (class_for_fn source W fuel rec f) (fun s' c => has_class s' c).
Proof. unfold class_for_fn. apply hoare_bind_gets. apply class_for_key_rec. Qed.

(** ** One snapshot object *)

Lemma snap_new_spec X s oid :
  wf s -> complete X s -> h_abs_ids (sv_heap s) !! AK_Snap oid = None ->
  forall s1 a, (a ← new_abs (AK_Snap oid); m_set_label a (fun l => mkAbsLabels (al_class l) true (al_array l));; mret a) s = Some (s1, a) ->
  good W A X s s1 /\ has_key s1 a (AK_Snap oid) /\ ~ has_abs s a.
Proof.
  intros W0 C0 Hnew s1 a E. apply bind_run in E as (s2 & b & [-> ->]%new_abs_run & E).
  set (x := mkAbstraction (AK_Snap oid) None PL_None None None None false false).
  destruct (push_good W A X s x None W0 C0) as (G & H1 & H2 & _); [done..| |].
  { split; try done; cbn. }
  assert (s1 = push_abs x None s /\ a = length (h_abs (sv_heap s))) as [-> ->]; [|by split_and!].
  assert (length (abs_labels (eng s)) = length (h_abs (sv_heap s))) as Hlen.
  { rewrite (wf_labels W s W0). apply length_fmap. }
  revert E. unfold m_set_label, on_engine, mbind, M_bind, mret, M_ret. cbn.
  rewrite lookup_app_r, Hlen, Nat.sub_diag by lia. cbn.
  pose proof (alter_last (fun l => mkAbsLabels (al_class l) true (al_array l)) (abs_labels (eng s)) abs_labels_default) as Ha.
  rewrite Hlen in Ha. rewrite Ha. intros [= <- <-].
  split; [|done]. destruct s as [? ? ? []]. done.
Qed.

(** The fresh abstraction of [oid], completed. *)
Definition snap_rest (kind : ObjectKind) (proto : option SourceObjectId) (a : AbsId) : M AbsId :=
  let arr := match kind with K_Array => true | _ => false end in
  m_set_abs a (upd_ab_is_array (fun _ => arr));;
  m_set_label a (fun l => mkAbsLabels (al_class l) (al_snap l) arr);;
  match kind with
  | K_TypedArray code =>
      match ta_from_code code with
      | Some tk => m_set_abs a (upd_ab_ta_kind (fun _ => Some tk))
      | None => mret tt
      end
  | _ => mret tt
  end;;
  match proto with
  | Some pid =>
      owner ← gets (fun s => h_proto_owner (sv_heap s) !! pid);
      match owner with
      | Some ctor => c ← class_for_fn source W fuel rec ctor; set_abs_class a c
      | None => mret tt
      end;;
      pa ← rec pid;
      m_set_abs a (upd_ab_proto (fun _ => PL_Abs pa))
  | None => mret tt
  end;;
  mret a.

Lemma snap_rest_spec X s0 s kind proto a k :
  ~ has_abs s0 a -> has_key s a k -> since W A X X s0 s (snap_rest kind proto a) (fun s' r => has_key s' r k).
Proof.
  intros Hn Hk. apply since_array; [done|]. intros s1 W1 E1 P1. apply (px_key _ _ P1) in Hk.
  eapply (since_bind _ _ X X X _ _ _ _ any).
  { destruct kind; try (by apply since_ret). destruct (ta_from_code _); [by apply since_ta|by apply since_ret]. }
  intros s2 [] W2 E2 P2 _. apply (px_key _ _ P2) in Hk. eapply (since_bind _ _ X X X _ _ _ _ any).
  2:{ intros s3 [] W3 E3 P3 _. apply (px_key _ _ P3) in Hk. by apply since_ret. }
  destruct proto as [pid|]; [|by apply since_ret].
  eapply (since_bind _ _ X X X); [by apply since_hoare, (hoare_gets _ _ _ _ _ any)|]. intros s3 owner W3 E3 P3 _.
  eapply (since_bind _ _ X X X _ _ _ _ any).
  { destruct owner as [ctor|]; [|by apply since_ret].
    eapply since_bind; [by apply since_hoare, class_for_fn_rec|]. intros s4 c W4 E4 P4 Hc. by apply since_class. }
  intros s4 [] W4 E4 P4 _. eapply since_bind; [by apply since_hoare, Hrec|]. intros s5 pa W5 E5 P5 Hp. by apply since_proto.
Qed.

Lemma intern_snap_rec X s oid :
  hoare X X s (intern_snap_with source W fuel rec oid) (fun s' a => has_key s' a (AK_Snap oid)).
Proof.
  apply hoare_pre. intros W0 C0. unfold intern_snap_with. apply hoare_bind_gets.
  destruct (h_abs_ids (sv_heap s) !! AK_Snap oid) as [a|] eqn:E; [apply hoare_ret; by eapply found_key|].
  intros _ _ s' r H. apply bind_run in H as (s1 & a & H1 & H). apply bind_run in H as (s2 & [] & H2 & H).
  destruct (snap_new_spec X s oid W0 C0 E s2 a) as ((W2 & C2 & E2) & Hk & Hn).
  { unfold mbind, M_bind, mret, M_ret in *. rewrite H1. cbv beta iota. by rewrite H2. }
  apply bind_run in H as (s3 & o & Ho & H). unfold get_some in Ho. destruct (option_res _) as [o'|]; [|done].
  injection Ho as <- <-. cbv beta in H.
  destruct (match o' with SObject d => if od_non_native d then _ else _ | _ => _ end) as [kind proto].
  destruct (snap_rest_spec X s s2 kind proto a _ Hn Hk W2 C2 E2 s' r H) as (W3 & C3 & E3 & _ & Hk').
  by split_and!.
Qed.

End Rec.

(** ** Tied *)

Lemma intern_snap_n_spec n X s oid :
  hoare X X s (intern_snap_n source W fuel n oid) (fun s' a => has_key s' a (AK_Snap oid)).
Proof.
  revert X s oid. induction n as [|n IH]; intros X s oid; [apply hoare_fail|]. apply intern_snap_rec.
  intros Y s1 o. eapply hoare_mono; [apply IH|]. cbn beta. intros. eapply key_abs; eassumption.
Qed.

Lemma intern_snap_key X s oid : hoare X X s (intern_snap source W fuel oid) (fun s' a => has_key s' a (AK_Snap oid)).
Proof. apply intern_snap_n_spec. Qed.

Lemma intern_snap_spec X s oid : hoare X X s (intern_snap source W fuel oid) (fun s' a => has_abs s' a).
Proof. eapply hoare_mono; [apply intern_snap_key|]. cbn beta. intros. eapply key_abs; eassumption. Qed.

#[local] Abbreviation rec := (intern_snap source W fuel).

Lemma ts_of_sval_spec X s v : hoare X X s (ts_of_sval source rec v) any.
Proof. apply ts_of_sval_rec, intern_snap_spec. Qed.

Lemma ensure_seeded_spec X s a : hoare X X s (ensure_seeded source W fuel rec a) any.
Proof. apply ensure_seeded_rec, intern_snap_spec. Qed.

Lemma class_for_fn_spec X s f : hoare X X s (class_for_fn source W fuel rec f) (fun s' c => has_class s' c).
Proof. apply class_for_fn_rec, intern_snap_spec. Qed.

Lemma class_for_ctor_proto_spec X s f p :
  hoare X X s (class_for_ctor_proto source W fuel rec f p) (fun s' c => has_class s' c).
Proof. apply class_for_key_rec, intern_snap_spec. Qed.

Lemma register_proto_source_spec X s c a : has_abs s a -> hoare X X s (register_proto_source source W fuel c a) any.
Proof. apply register_rec, intern_snap_spec. Qed.

Lemma link_proto_table_spec X s c a : has_abs s a -> hoare X X s (link_proto_table source W fuel c a) any.
Proof. apply register_rec, intern_snap_spec. Qed.

Lemma seeded_field_cell_spec X s a n :
  hoare X X s (seeded_field_cell source W fuel a n) (fun s' i => interned s' (KField a n) i).
Proof. eapply hoare_bind; [apply ensure_seeded_spec|]. intros s1 [] W1 _ E1 _. apply field_cell_spec. Qed.

End Snap.

#[export] Hint Resolve set_seeded_spec native_id_spec intern_snap_spec ts_of_sval_spec ensure_seeded_spec class_for_fn_spec
  class_for_ctor_proto_spec register_proto_source_spec link_proto_table_spec seeded_field_cell_spec : heap.
