(* ===== verification/SolverKeep.v ===== *)
(** * SolverKeep: evaluating a heap constraint keeps the invariant

    Reads, writes, allocations and element builtins, and the evidence they
    record.  A write through a receiver known as one allocation site is the
    only operation that needs the site's fields writable. *)

From S2P Require Import Prelude OpSem Facts Types Engine EngineRun EngineFix Mem Source Contexts Builtins SolverState Heap HeapEval Calls.
From S2P Require Import Seed EngineExt HeapInv HeapKeep HeapOps.

Section Eval.
  Context (source : Source) (W : WellKnown) (fuel : nat) (A : AbsId -> NameId -> Prop).

#[local] Abbreviation wf := (wf W).
#[local] Abbreviation hoare := (hoare W A).

Implicit Types (X Y Z : ClassId -> AbsId -> NameId -> Prop).

Lemma region_root_spec X s c : hoare X X s (m_region_root c) any.
Proof. by apply hoare_gets. Qed.

Lemma region_members_spec X s c : hoare X X s (region_members_of c) any.
Proof. by apply hoare_gets. Qed.

Lemma escaped_spec X s f : hoare X X s (modify (upd_sv_escaped f)) any.
Proof. by apply hoare_modify; [split|]. Qed.

Lemma escape_log_spec X s f : hoare X X s (modify (upd_sv_escape_log f)) any.
Proof. by apply hoare_modify; [split|]. Qed.

#[local] Hint Resolve region_root_spec region_members_spec escaped_spec escape_log_spec : heap.

Lemma elems_union_spec X s : hoare X X s elems_union (fun s' i => interned s' KArrayElemsUnion i).
Proof. by apply hoare_cell. Qed.

Lemma read_join_spec X s c u out : hoare X X s (read_join fuel c u out) any.
Proof. unfold read_join. hk. Qed.

Lemma view_class_spec X s c b : hoare X X s (view_class c b) any.
Proof. unfold view_class. hk. Qed.

Lemma do_escape_spec X s v u : hoare X X s (do_escape fuel v u) any.
Proof. unfold do_escape. hk. Qed.

#[local] Hint Resolve elems_union_spec read_join_spec view_class_spec do_escape_spec : heap.

Lemma chain_join_spec depth X s cur n u out : hoare X X s (chain_join source W fuel depth cur n u out) any.
Proof.
  revert s cur out. induction depth as [|d IH]; intros s cur out; cbn [chain_join]; hk.
Qed.

Lemma region_view_spec X s r n :
  hoare X X s (region_view fuel r n) (fun s' o => forall i, o = Some i -> exists c, interned s' (KClassView c n) i).
Proof.
  unfold region_view. eapply hoare_bind; [hop|]. intros s1 root W1 _ E1 _. eapply hoare_bind; [hop|].
  intros s2 members W2 _ E2 _. case_match; [by apply hoare_ret|].
  eapply hoare_bind; [hop|]. intros s3 view W3 _ E3 Hv. cbn beta in Hv. eapply (hoare_bind _ _ _ X _ _ _ _ any).
  { hk; (eapply link_spec; [eassumption..|constructor]). }
  intros s4 [] W4 _ E4 _. carry. apply hoare_ret. intros i [= <-]. by exists root.
Qed.

Lemma method_chain_spec depth X s cur n u f : hoare X X s (method_chain source W fuel depth cur n u f) any.
Proof.
  revert s cur f. induction depth as [|d IH]; intros s cur f; cbn [method_chain]; hk.
Qed.

#[local] Hint Resolve chain_join_spec region_view_spec method_chain_spec : heap.

Lemma region_methods_spec X s r n u : hoare X X s (region_methods source W fuel r n u) any.
Proof. unfold region_methods. hk. Qed.

Lemma accessor_read_spec X s c n u out : hoare X X s (accessor_read fuel c n u out) any.
Proof. unfold accessor_read. hk. Qed.

Lemma accessor_write_spec X s c n v u : hoare X X s (accessor_write fuel c n v u) any.
Proof. unfold accessor_write. hk. Qed.

#[local] Hint Resolve region_methods_spec accessor_read_spec accessor_write_spec : heap.

(** ** Reads *)

Lemma read_prim_spec X s t n out : hoare X X s (read_prim_methods t n out) any.
Proof. unfold read_prim_methods. hk. Qed.

Lemma read_fns_spec X s t n u out : hoare X X s (read_fns source W fuel t n u out) any.
Proof. unfold read_fns, read_fn. hk. Qed.

Lemma read_one_spec X s a n u out : hoare X X s (read_one source W fuel a n u out) any.
Proof. unfold read_one. hk. Qed.

Lemma read_class_spec X s c n u out : hoare X X s (read_class source W fuel c n u out) any.
Proof. unfold read_class. hk. Qed.

Lemma read_region_spec X s r n b u out : hoare X X s (read_region source W fuel r n b u out) any.
Proof. unfold read_region. hk. Qed.

#[local] Hint Resolve read_prim_spec read_fns_spec read_one_spec read_class_spec read_region_spec : heap.

Lemma read_into_spec X s t n b u out : hoare X X s (read_into source W fuel t n b u out) any.
Proof. unfold read_into. hk. Qed.

(** ** Writes *)

Lemma note_dropped_spec X s b : hoare X X s (note_dropped b) any.
Proof. unfold note_dropped. hk. Qed.

#[local] Hint Resolve note_dropped_spec : heap.

Lemma install_prototype_spec X s f v : hoare X X s (install_prototype source W fuel f v) any.
Proof.
  unfold install_prototype. destruct (obj v) as [|x| | |]; try by apply hoare_ret.
  apply hoare_bind_abs. intros info Hx. assert (has_abs s x) as Ha by by exists info.
  apply hoare_bind_gets, hoare_bind_gets. destruct (match ab_key info with AK_Snap _ => _ | _ => _ end); hk.
Qed.

#[local] Hint Resolve install_prototype_spec : heap.

Lemma write_fn_spec X s n v u f : hoare X X s (write_fn source W fuel n v u f) any.
Proof. unfold write_fn. hk. Qed.

(** Only here may a field of an allocation site change. *)
Lemma write_one_spec X s a n v u : A a n -> hoare X X s (write_one source W fuel a n v u) any.
Proof.
  intros HA. unfold write_one. eapply hoare_bind; [hop|]. cbn beta. intros s1 own W1 _ E1 Hown.
  eapply hoare_bind.
  { apply hoare_raise. intros b m k Hi Hk Ha. by pose proof (interned_inj W s1 _ _ _ W1 Hown Hi) as [= <- <-]. }
  intros s2 [] W2 _ E2 _. hk.
Qed.

Lemma write_class_spec X s c n v u : hoare X X s (write_class W fuel c n v u) any.
Proof. unfold write_class. hk. Qed.

Lemma write_region_spec X s r n v b u : hoare X X s (write_region fuel r n v b u) any.
Proof.
  unfold write_region. eapply hoare_bind; [hop|]. cbn beta. intros s1 o W1 _ E1 Ho.
  eapply (hoare_bind _ _ _ X _ _ _ _ any); [|intros; hk].
  destruct o as [view|]; [|hk]. destruct (Ho view eq_refl) as [c Hc]. hk.
Qed.

Lemma write_any_spec X s n v b u : hoare X X s (write_any W fuel n v b u) any.
Proof. unfold write_any. hk. Qed.

#[local] Hint Resolve write_fn_spec write_one_spec write_class_spec write_region_spec write_any_spec : heap.

Lemma write_into_spec X s t n v b u :
  (forall a, obj t = OOne a -> A a n) -> hoare X X s (write_into source W fuel t n v b u) any.
Proof. intros HA. unfold write_into. hk. by apply write_one_spec, HA. Qed.

(** ** Evidence *)

Lemma all_ta_spec X s first ms : hoare X X s (all_ta first ms) any.
Proof. revert s. induction ms as [|m ms IH]; intros s; cbn [all_ta]; hk. Qed.

#[local] Hint Resolve all_ta_spec : heap.

Lemma obj_ta_kind_spec X s o : hoare X X s (obj_ta_kind o) any.
Proof. unfold obj_ta_kind. hk. Qed.

Lemma recv_class_spec X s o b r : hoare X X s (recv_class o b r) any.
Proof. unfold recv_class. hk. Qed.

#[local] Hint Resolve obj_ta_kind_spec recv_class_spec : heap.

Lemma site_class_evidence_spec X s t r : hoare X X s (site_class_evidence t r) any.
Proof. unfold site_class_evidence. hk. Qed.

#[local] Hint Resolve site_class_evidence_spec : heap.

Lemma note_read_result_spec X s site out : hoare X X s (note_read_result fuel site out) any.
Proof. unfold note_read_result. hk. Qed.

Lemma note_labels_spec X s site l : hoare X X s (note_labels site l) any.
Proof. unfold note_labels. hk. Qed.

#[local] Hint Resolve note_read_result_spec note_labels_spec : heap.

Lemma note_site_evidence_spec X s sid pc n t out : hoare X X s (note_site_evidence W fuel sid pc n t out) any.
Proof. unfold note_site_evidence. hk. Qed.

Lemma note_site_recv_spec X s script pc t : hoare X X s (note_site_recv script pc t) any.
Proof. unfold note_site_recv. hk. Qed.

Lemma note_table_members_spec X s a src script v : hoare X X s (note_table_members fuel a src script v) any.
Proof. unfold note_table_members. cbv zeta. hk. Qed.

#[local] Hint Resolve write_into_spec note_site_evidence_spec note_site_recv_spec note_table_members_spec read_into_spec : heap.

(** ** The constraints *)

Lemma eval_read_spec X s sid u recv n dst pc b : hoare X X s (eval_read source W fuel sid u recv n dst pc b) any.
Proof. unfold eval_read. cbv zeta. hk. Qed.

(** The receiver's value is the one its cell held before the evaluation. *)
Lemma resolve_value_spec X s sid ctx k :
  hoare X X s (m_resolve sid ctx k) (fun s' i => interned s' (resolve_key sid ctx k) i /\
    forall t, ts_of (eng s') i = Some t -> cell_value s (resolve_key sid ctx k) = Some t \/ t = ts_default).
Proof.
  intros W0 C0 s' i E. destruct (hoare_resolve W A X s sid ctx k W0 C0 s' i E) as [G Hi]. split; [done|]. split; [done|].
  intros t. revert E. unfold m_resolve, on_engine, resolve, cell, cell_value, ts_of.
  destruct (cell_ids (eng s) !! resolve_key sid ctx k) as [j|] eqn:Ek; cbn; intros [= <- <-]; cbn; [by left|].
  rewrite lookup_app_r, Nat.sub_diag by done. intros [= <-]. by right.
Qed.

Lemma read_value_spec X s i u :
  hoare X X s (m_read i u) (fun _ t => ts_of (eng s) i = Some t).
Proof. apply hoare_graph. intros e' t E. destruct (read_graph _ _ _ _ _ E) as (G & Ht & _). done. Qed.

Definition one_writable s sid ctx recv (n : NameId) : Prop :=
  forall t a, cell_value s (resolve_key sid ctx recv) = Some t -> obj t = OOne a -> A a n.

Lemma eval_write_spec X s sid u recv n src pc :
  one_writable s sid (snd u) recv n -> hoare X X s (eval_write source W fuel sid u recv n src pc) any.
Proof.
  intros HA. unfold eval_write. cbv zeta. eapply hoare_bind; [apply resolve_value_spec|]. cbn beta.
  intros s1 r W1 _ E1 [_ Hv]. eapply hoare_bind; [apply read_value_spec|]. cbn beta. intros s2 rts W2 _ E2 Hr.
  assert (forall a, obj rts = OOne a -> A a n) as HA'.
  { intros a Ha. destruct (Hv rts Hr) as [|Hd]; [by eapply HA|]. subst rts. discriminate Ha. }
  clear HA Hv Hr. hk.
Qed.

Lemma alloc_abs_spec X s sid pc ctx k : hoare X X s (alloc_abs source W fuel sid pc ctx k) any.
Proof. unfold alloc_abs. hk. Qed.

Lemma eval_elem_builtin_spec X s sid u recv arg ret k :
  (k = EB_Write -> one_writable s sid (snd u) recv (wk_elems W)) ->
  hoare X X s (eval_elem_builtin source W fuel sid u recv arg ret k) any.
Proof.
  intros HA. unfold eval_elem_builtin. cbv zeta. eapply hoare_bind; [apply resolve_value_spec|]. cbn beta.
  intros s1 r W1 _ E1 [_ Hv]. eapply hoare_bind; [apply read_value_spec|]. cbn beta. intros s2 rts W2 _ E2 Hr.
  assert (k = EB_Write -> forall a, obj rts = OOne a -> A a (wk_elems W)) as HA'.
  { intros -> a Ha. destruct (Hv rts Hr) as [|Hd]; [by eapply HA|]. subst rts. discriminate Ha. }
  clear HA Hv Hr. destruct k; [specialize (HA' eq_refl)|clear HA']; hk.
Qed.

#[local] Hint Resolve alloc_abs_spec eval_read_spec : heap.

(** What evaluating [u] may write in place: the field its receiver names. *)
Definition write_target (s : Solver) (u : User) (a : AbsId) (n : NameId) : Prop :=
  exists sid c recv t,
    con_script (eng s) !! Z.to_nat (fst u) = Some sid /\ cons (eng s) !! Z.to_nat (fst u) = Some c /\
    ((exists src pc, c = CWrite recv n src pc) \/
     (exists arg ret pc, c = CElemBuiltin recv arg ret pc EB_Write /\ n = wk_elems W)) /\
    cell_value s (resolve_key sid (snd u) recv) = Some t /\ obj t = OOne a.

Lemma hoare_bind_con {R} X Z s (u : User) (k : ScriptId * Constraint -> M R) Q :
  (forall sid c, con_script (eng s) !! Z.to_nat (fst u) = Some sid -> cons (eng s) !! Z.to_nat (fst u) = Some c ->
     hoare X Z s (k (sid, c)) Q) ->
  hoare X Z s (m_con (fst u) ≫= k) Q.
Proof.
  intros H W0 C0 s' r E. apply bind_run in E as (s1 & x & E & Hk). unfold m_con in E.
  destruct (con_script (sv_engine s) !! _) as [sid|] eqn:E1; cbn in E; [|done].
  destruct (cons (sv_engine s) !! _) as [c|] eqn:E2; cbn in E; [|done]. injection E as <- <-. by apply (H sid c).
Qed.

Lemma eval_heap_spec X s u :
  (forall a n, write_target s u a n -> A a n) -> hoare X X s (eval_heap source W fuel u) any.
Proof.
  intros HA. unfold eval_heap. apply hoare_bind_con. intros sid c Hs Hc. cbn beta iota.
  destruct c; try by apply hoare_ret.
  - hk.
  - eapply hoare_bind; [apply eval_write_spec|intros; by apply hoare_ret].
    intros t a Ht Ho. apply HA. eexists _, _, _, t. split_and!; eauto.
  - eapply hoare_bind; [apply eval_elem_builtin_spec|intros; by apply hoare_ret].
    intros -> t a Ht Ho. apply HA. eexists _, _, _, t. split_and!; eauto 10.
  - hk.
Qed.

(** ** Settling *)

Lemma observe_final_spec X s e t : hoare X X s (observe_final_recv e t) any.
Proof. unfold observe_final_recv. hk. Qed.

#[local] Hint Resolve observe_final_spec : heap.

Lemma settle_ctx_spec X s sid recv e ctx : hoare X X s (settle_ctx sid recv e ctx) any.
Proof. unfold settle_ctx. hk. Qed.

#[local] Hint Resolve settle_ctx_spec : heap.

Lemma settle_sites_spec X s : hoare X X s settle_unresolved_recv_sites any.
Proof. unfold settle_unresolved_recv_sites. hk. Qed.

End Eval.

#[export] Hint Resolve region_root_spec elems_union_spec read_join_spec do_escape_spec : heap.

(** * calls, the loop and the seeding keep the invariant

    The call constraints, the evaluation of any constraint, the worklist
    loop, the seeding of the snapshot, and the whole analysis. *)

Section Calls.
  Context (source : Source) (tables : ScanTables) (W : WellKnown) (fuel : nat) (A : AbsId -> NameId -> Prop).

#[local] Abbreviation wf := (wf W).
#[local] Abbreviation hoare := (hoare W A).

Implicit Types (X Y Z : ClassId -> AbsId -> NameId -> Prop).

(** ** Entering *)

Lemma graph_core_spec {R} X s (m : M R) :
  (forall s' r, m s = Some (s', r) ->
     exists e', same_graph (eng s) e' /\ same_core (upd_sv_engine (fun _ => e') s) s') ->
  hoare X X s m any.
Proof.
  intros H W0 C0 s' r E. split; [|done]. destruct (H s' r E) as (e' & G & S).
  destruct (engine_good W A X s e' none none W0 C0) as (W1 & C1 & E1); [|by intros ? []|by intros ? []|].
  { apply same_graph_step; [apply W0|done]. }
  destruct (same_core_good W A X _ s' S W1 C1) as (W2 & C2 & E2). split_and!; [done..|]. by eapply heap_ext_trans.
Qed.

Lemma same_graph_refl (e : Engine) : same_graph e e.
Proof. by split. Qed.

Lemma enter_spec X s ctx script pc f poly : hoare X X s (m_enter ctx script pc f poly) any.
Proof.
  apply graph_core_spec. intros s' r. unfold m_enter, enter, call_state. cbn.
  destruct (if poly then _ else _) as [[[cs st] cx]|]; cbn; [|done].
  pose proof (instantiate_graph (eng s) f cx) as G. destruct (instantiate (eng s) f cx) as [e fresh]. cbn.
  intros [= <- <-]. exists e. split; [done|]. by split.
Qed.

Lemma enter_refusing_spec X s script pc f : hoare X X s (m_enter_refusing script pc f) any.
Proof.
  apply graph_core_spec. intros s' r. unfold m_enter_refusing, enter_refusing, call_state. cbn.
  destruct (push _ _ _ _ _) as [[[cs st] cx]|]; cbn; [|done]. case_bool_decide; cbn.
  - intros [= <- <-]. exists (eng s). split; [apply same_graph_refl|]. by split.
  - pose proof (instantiate_graph (eng s) f cx) as G. destruct (instantiate (eng s) f cx) as [e fresh]. cbn.
    intros [= <- <-]. exists e. split; [done|]. by split.
Qed.

#[local] Hint Resolve enter_spec enter_refusing_spec : heap.

(** ** Binding *)

Lemma note_arg_fn_spec X s f i v : hoare X X s (note_arg_fn fuel f i v) any.
Proof. unfold note_arg_fn. cbv zeta. hk. Qed.

#[local] Hint Resolve note_arg_fn_spec : heap.

Lemma bind_args_from_spec X s at_ f cx i args : hoare X X s (bind_args_from fuel at_ f cx i args) any.
Proof. revert s i. induction args as [|a args IH]; intros s i; cbn [bind_args_from]; hk. Qed.

Lemma bind_args_spec X s at_ f cx args n : hoare X X s (bind_args fuel at_ f cx args n) any.
Proof. apply bind_args_from_spec. Qed.

Lemma bind_this_spec X s at_ f cx tk b : hoare X X s (bind_this fuel at_ f cx tk b) any.
Proof. unfold bind_this. cbv zeta. hk. Qed.

Lemma bind_ret_spec X s at_ f cx : hoare X X s (bind_ret fuel at_ f cx) any.
Proof. unfold bind_ret. hk. Qed.

Lemma raise_ret_spec X s at_ v : hoare X X s (raise_ret fuel at_ v) any.
Proof. unfold raise_ret. hk. Qed.

Lemma raise_unknown_spec X s at_ : hoare X X s (raise_unknown_ret fuel at_) any.
Proof. apply raise_ret_spec. Qed.

#[local] Hint Resolve bind_args_spec bind_this_spec bind_ret_spec raise_ret_spec raise_unknown_spec : heap.

Lemma args_integral_spec X s at_ args : hoare X X s (args_integral at_ args) any.
Proof. revert s. induction args as [|a args IH]; intros s; cbn [args_integral]; hk. Qed.

Lemma native_ret_spec X s f b : hoare X X s (native_ret f b) any.
Proof. unfold native_ret. cbv zeta. hk. Qed.

#[local] Hint Resolve args_integral_spec native_ret_spec : heap.

Lemma raise_builtin_ret_spec X s at_ f args : hoare X X s (raise_builtin_ret fuel at_ f args) any.
Proof. unfold raise_builtin_ret. hk. Qed.

#[local] Hint Resolve raise_builtin_ret_spec : heap.

(** ** Rows, tables and accessors *)

Lemma note_site_calls_spec X s script pc t : hoare X X s (note_site_calls script pc t) any.
Proof. unfold note_site_calls. cbv zeta. hk. Qed.

Lemma note_verdict_spec X s site f upd : hoare X X s (note_verdict site f upd) any.
Proof. unfold note_verdict. hk. Qed.

#[local] Hint Resolve note_site_calls_spec note_verdict_spec : heap.

Lemma note_site_apply_spec X s script ctx pc f form : hoare X X s (note_site_apply script ctx pc f form) any.
Proof. unfold note_site_apply. cbv zeta. hk. Qed.

Lemma bind_table_args_from_spec X s a at_ i args : hoare X X s (bind_table_args_from fuel a at_ i args) any.
Proof. revert s i. induction args as [|k args IH]; intros s i; cbn [bind_table_args_from]; hk. Qed.

#[local] Hint Resolve note_site_apply_spec bind_table_args_from_spec : heap.

Lemma bind_table_args_spec X s a at_ args : hoare X X s (bind_table_args fuel a at_ args) any.
Proof. unfold bind_table_args. hk. Qed.

Lemma callee_table_spec X s script k : hoare X X s (callee_table script k) any.
Proof. unfold callee_table. destruct k; first [by apply hoare_gets|by apply hoare_ret]. Qed.

Lemma is_define_property_spec X s f : hoare X X s (is_define_property W f) any.
Proof. by apply hoare_gets. Qed.

Lemma m_enqueue_all_spec {R} X s (g : Engine -> list User) (r : R) :
  hoare X X s (on_engine (fun e => Some (enqueue_all e (g e), r))) any.
Proof. apply hoare_graph. intros e' x [= <- <-]. split; [apply enqueue_all_graph|done]. Qed.

Lemma accessors_spec X s f : hoare X X s (modify (upd_sv_accessors f)) any.
Proof. by apply hoare_modify; [split|]. Qed.

Lemma poisoned_spec X s f : hoare X X s (modify (upd_sv_accessor_poisoned f)) any.
Proof. by apply hoare_modify; [split|]. Qed.

Lemma constructed_spec X s f : hoare X X s (modify (upd_sv_constructed f)) any.
Proof. by apply hoare_modify; [split|]. Qed.

Lemma shared_sites_spec X s f : hoare X X s (modify (upd_sv_shared_ctor_sites f)) any.
Proof. by apply hoare_modify; [split|]. Qed.

#[local] Hint Resolve bind_table_args_spec callee_table_spec is_define_property_spec accessors_spec poisoned_spec
  constructed_spec shared_sites_spec : heap.

Lemma accessor_add_spec X s c n g st : hoare X X s (accessor_add fuel c n g st) any.
Proof. unfold accessor_add. hk. all: apply m_enqueue_all_spec. Qed.

#[local] Hint Resolve accessor_add_spec : heap.

Lemma define_accessors_spec X s pc at_ args t : hoare X X s (define_accessors source tables W fuel pc at_ args t) any.
Proof. unfold define_accessors. hk. Qed.

#[local] Hint Resolve define_accessors_spec : heap.

Lemma eval_define_property_spec X s pc at_ args : hoare X X s (eval_define_property source tables W fuel pc at_ args) any.
Proof. unfold eval_define_property. hk. Qed.

#[local] Hint Resolve eval_define_property_spec : heap.

(** ** Calls *)

Lemma call_region_spec X s at_ pc t this_ args b : hoare X X s (call_region fuel at_ pc t this_ args b) any.
Proof. unfold call_region. hk. Qed.

Lemma call_opaque_spec X s at_ k t args : hoare X X s (call_opaque fuel at_ k t args) any.
Proof. unfold call_opaque. hk. Qed.

Lemma call_native_spec X s at_ pc f args b : hoare X X s (call_native source tables W fuel at_ pc f args b) any.
Proof. unfold call_native. hk. Qed.

Lemma call_builtin_ctor_spec X s at_ pc f : hoare X X s (call_builtin_ctor fuel at_ pc f) any.
Proof. unfold call_builtin_ctor. hk. Qed.

Lemma call_construct_spec X s at_ pc f cx : hoare X X s (call_construct source tables W fuel at_ pc f cx) any.
Proof. unfold call_construct. cbv zeta. hk. Qed.

#[local] Hint Resolve call_region_spec call_opaque_spec call_native_spec call_builtin_ctor_spec call_construct_spec : heap.

Lemma call_target_spec X s at_ pc this_ args b p f :
  hoare X X s (call_target source tables W fuel at_ pc this_ args b p f) any.
Proof. unfold call_target. hk. Qed.

#[local] Hint Resolve call_target_spec : heap.

Lemma eval_call_con_spec X s sid u callee this_ args ret pc b :
  hoare X X s (eval_call_con source tables W fuel sid u callee this_ args ret pc b) any.
Proof. unfold eval_call_con, note_site_ctor_native, note_site_native. cbv zeta. hk. Qed.

Lemma apply_table_spec X s at_ pc k args : hoare X X s (apply_table fuel at_ pc k args) any.
Proof. unfold apply_table. hk. Qed.

Lemma forward_formals_spec X s at_ f cx : hoare X X s (forward_formals fuel at_ f cx) any.
Proof. unfold forward_formals. hk. Qed.

#[local] Hint Resolve eval_call_con_spec apply_table_spec forward_formals_spec : heap.

Lemma apply_target_spec X s at_ pc args b form p f : hoare X X s (apply_target fuel at_ pc args b form p f) any.
Proof. unfold apply_target. hk. Qed.

#[local] Hint Resolve apply_target_spec : heap.

Lemma eval_apply_con_spec X s sid u k args b ret pc form :
  hoare X X s (eval_apply_con fuel sid u k args b ret pc form) any.
Proof. unfold eval_apply_con. cbv zeta. hk. Qed.

#[local] Hint Resolve eval_apply_con_spec : heap.

Lemma eval_call_spec X s u : hoare X X s (eval_call source tables W fuel u) any.
Proof. unfold eval_call. apply hoare_bind_con. intros sid c _ _. hk. Qed.

(** ** Any constraint *)

Lemma eval_core_false n (e e' : Engine) (u : User) : eval_core n e u = Some (e', false) -> e' = e.
Proof.
  unfold eval_core. destruct u as [con ctx].
  destruct (con_script e !! Z.to_nat con) as [sid|]; cbn [mbind option_bind]; [|done].
  destruct (cons e !! Z.to_nat con) as [c|]; cbn [mbind option_bind]; [|done].
  destruct c; try (by intros [= <-]).
  - destruct (resolve e sid ctx src) as [e1 i1]. destruct (resolve e1 sid ctx dst) as [e2 i2].
    destruct (read _ _ _) as [[e3 v]|]; cbn; [|done]. by destruct (raise _ _ _ _ _).
  - destruct (resolve e sid ctx dst) as [e1 i1]. cbn. by destruct (raise _ _ _ _ _).
  - destruct (resolve e sid ctx a) as [e1 i1]. destruct (read _ _ _) as [[e2 v]|]; cbn; [|done].
    destruct (read_opt _ _ _ _ _) as [[e3 v']|]; cbn; [|done]. destruct (arith_transfer _ _ _) as [[m r]|]; cbn; [|done].
    destruct (negb _ || negb _); [|done]. destruct (resolve _ _ _ _) as [e4 i4]. cbn. by destruct (raise _ _ _ _ _).
Qed.

Lemma resolve_key_nonfield sid ctx k : is_field (resolve_key sid ctx k) = false.
Proof. by destruct k. Qed.

Lemma eval_core_spec X s u :
  hoare X X s (on_engine (fun e => eval_core fuel e u)) (fun s' b => b = false -> s' = s).
Proof.
  intros W0 C0 s' b. unfold on_engine. destruct (eval_core fuel (eng s) u) as [[e' b']|] eqn:E; cbn; [|done].
  intros [= <- <-]. pose proof (eval_core_step _ _ _ _ _ E (wf_eng W s W0)) as S. split.
  - eapply (engine_good W A X s e' _ _ W0 C0 S).
    + intros k (sid & x & c & ->). apply resolve_key_nonfield.
    + intros i (k & (sid & x & c & ->) & Hk) a n k' Hi _ _.
      apply (es_ids _ _ _ _ S) in Hi. apply (ids_lookup e') in Hi; [|apply S]. unfold key_at in *. rewrite Hi in Hk.
      injection Hk as Hk. pose proof (resolve_key_nonfield sid x c) as H. by rewrite <- Hk in H.
  - intros ->. apply eval_core_false in E as ->. by destruct s.
Qed.

Lemma eval_solver_spec X s u :
  (forall a n, write_target W s u a n -> A a n) -> hoare X X s (eval_solver source tables W fuel u) any.
Proof.
  intros HA. unfold eval_solver. eapply hoare_bind; [apply eval_core_spec|]. cbn beta. intros s1 b W1 _ E1 Hb.
  destruct b; [by apply hoare_ret|]. specialize (Hb eq_refl) as ->.
  eapply hoare_bind; [by apply eval_heap_spec|]. cbn beta. intros s2 b W2 _ E2 _.
  destruct b; [by apply hoare_ret|]. eapply hoare_bind; [apply eval_call_spec|]. intros s3 b W3 _ E3 _. by apply hoare_ret.
Qed.

End Calls.

(** ** The loop *)

Section Loop.
  Context (source : Source) (tables : ScanTables) (W : WellKnown) (fuel : nat).

(** No field is protected over a whole run. *)
Definition all_fields : AbsId -> NameId -> Prop := fun _ _ => True.

#[local] Abbreviation wf := (wf W).
#[local] Abbreviation hoare := (hoare W all_fields).

Lemma pop_graph (e e' : Engine) u : pop e = Some (e', u) -> same_graph e e'.
Proof. unfold pop. destruct (worklist e); [done|]. intros [= <- <-]. by split. Qed.

Lemma solve_loop_spec steps X s : hoare X X s (solve_loop source tables W fuel steps) any.
Proof.
  revert s. induction steps as [|n IH]; intros s W0 C0 s' r; cbn [solve_loop].
  - destruct (pop (sv_engine s)) as [[e u]|]; [done|]. intros [= <- <-]. split; [|done]. split_and!; [done..|apply heap_ext_refl].
  - destruct (pop (sv_engine s)) as [[e u]|] eqn:E; intros H.
    2:{ injection H as <- <-. split; [|done]. split_and!; [done..|apply heap_ext_refl]. }
    destruct (engine_good W all_fields X s e none none W0 C0) as (W1 & C1 & E1); [|by intros ? []|by intros ? []|].
    { apply same_graph_step; [apply W0|]. by eapply pop_graph. }
    assert (HH : hoare X X (upd_sv_engine (fun _ => e) s) (eval_solver source tables W fuel u;; solve_loop source tables W fuel n) any).
    { eapply hoare_bind; [by apply eval_solver_spec|]. intros s1 [] _ _ _ _. apply IH. }
    destruct (HH W1 C1 s' r H) as [(W2 & C2 & E2) _]. split; [|done]. split_and!; [done..|]. by eapply heap_ext_trans.
Qed.

Lemma instantiate_spec {R} X s sid c (r : R) : hoare X X s (on_engine (fun e => Some (fst (instantiate e sid c), r))) any.
Proof. apply hoare_graph. intros e' x [= <- <-]. split; [apply instantiate_graph|done]. Qed.

Lemma instantiate_scripts_spec X s : hoare X X s instantiate_scripts any.
Proof.
  unfold instantiate_scripts. apply hoare_bind_gets. apply keeps_for_each. intros sid s1 _ _ _. apply instantiate_spec.
Qed.

Lemma solve_spec steps X s : hoare X X s (solve source tables W fuel steps) any.
Proof. unfold solve. eapply hoare_bind; [apply instantiate_scripts_spec|]. intros s1 [] _ _ _ _. apply solve_loop_spec. Qed.

(** ** Seeding *)

#[local] Hint Resolve shared_sites_spec : heap.

Lemma raise_gname_spec X s n t : hoare X X s (raise_gname fuel n t) any.
Proof. unfold raise_gname. hk. Qed.

#[local] Hint Resolve raise_gname_spec : heap.

Lemma seed_intrinsics_spec X s : hoare X X s (seed_intrinsic_natives fuel) any.
Proof. unfold seed_intrinsic_natives. hk. Qed.

Lemma seed_bare_spec X s m : hoare X X s (seed_bare_natives fuel m) any.
Proof. unfold seed_bare_natives, m_intern_str. hk. Qed.

Lemma seed_namespace_spec X s i ns g : hoare X X s (seed_namespace W fuel i ns g) any.
Proof.
  unfold seed_namespace, m_intern_str. eapply hoare_bind; [by apply new_abs_spec|]. cbn beta. intros s1 a W1 _ E1 (Hk & _ & _). hk.
Qed.

#[local] Hint Resolve seed_namespace_spec : heap.

Lemma seed_namespaces_spec X s m : hoare X X s (seed_native_namespaces W fuel m) any.
Proof. unfold seed_native_namespaces, m_intern_str. hk. Qed.

#[local] Hint Resolve seed_intrinsics_spec seed_bare_spec seed_namespaces_spec : heap.

Lemma note_prototype_spec X s f m p : hoare X X s (note_prototype source W f m p) any.
Proof. unfold note_prototype. hk. Qed.

#[local] Hint Resolve note_prototype_spec : heap.

Lemma note_object_spec X s m x : hoare X X s (note_object source W m x) any.
Proof. unfold note_object. hk. Qed.

#[local] Hint Resolve note_object_spec : heap.

Lemma seed_identities_spec X s : hoare X X s (seed_identities source W) any.
Proof. unfold seed_identities. hk. Qed.

Lemma seed_global_prop_spec X s m p : hoare X X s (seed_global_prop source W fuel m p) any.
Proof. unfold seed_global_prop. hk. Qed.

#[local] Hint Resolve seed_global_prop_spec seed_identities_spec : heap.

Lemma seed_gnames_spec X s : hoare X X s (seed_gnames source W fuel) any.
Proof. unfold seed_gnames. hk. Qed.

Lemma seed_slots_spec X s : hoare X X s (seed_slots source W fuel) any.
Proof. unfold seed_slots. hk. Qed.

#[local] Hint Resolve seed_gnames_spec seed_slots_spec : heap.

Lemma seed_spec X s : hoare X X s (seed source W fuel) any.
Proof. unfold seed. hk. Qed.

Lemma commit_site_spec X s l x : hoare X X s (commit_site source W fuel l x) any.
Proof. unfold commit_site. hk. Qed.

#[local] Hint Resolve commit_site_spec : heap.

Lemma resolve_shared_spec X s : hoare X X s (resolve_shared_ctor_sites source tables W fuel) any.
Proof. unfold resolve_shared_ctor_sites. cbv zeta. hk. Qed.

Lemma analyze_spec steps X s : hoare X X s (analyze source tables W fuel steps) any.
Proof.
  unfold analyze. eapply hoare_bind; [apply seed_spec|]. intros s1 [] _ _ _ _.
  eapply hoare_bind; [apply resolve_shared_spec|]. intros s2 [] _ _ _ _.
  eapply hoare_bind; [apply solve_spec|]. intros s3 [] _ _ _ _. apply settle_sites_spec.
Qed.

End Loop.

(** ** Reachable states *)

(** The constraints the scan of the scripts hands to the engine. *)
Definition scanned (l : list (ScriptId * Constraint)) (s : Solver) : Solver :=
  upd_sv_engine (fun e => fold_left (fun e x => fst (add_con e (fst x) (snd x))) l e) s.

Section Reachable.
  Context (source : Source) (tables : ScanTables) (W : WellKnown) (fuel : nat).

(** The states of one analysis: after the scan, the seeding phases run in any
    order any number of times and the worklist is drained one user at a
    time. *)
Inductive reachable : Solver -> Prop :=
  | re_scan n l : reachable (scanned l (solver_new n W))
  | re_seed s s' r : reachable s -> seed source W fuel s = Some (s', r) -> reachable s'
  | re_shared s s' r : reachable s -> resolve_shared_ctor_sites source tables W fuel s = Some (s', r) -> reachable s'
  | re_scripts s s' r : reachable s -> instantiate_scripts s = Some (s', r) -> reachable s'
  | re_step s e u s' r :
      reachable s -> pop (sv_engine s) = Some (e, u) ->
      eval_solver source tables W fuel u (upd_sv_engine (fun _ => e) s) = Some (s', r) -> reachable s'
  | re_settle s s' r : reachable s -> settle_unresolved_recv_sites s = Some (s', r) -> reachable s'.

(** No link is pending. *)
Definition tables_fed (s : Solver) : Prop := complete (fun _ _ _ => False) s.

Lemma solver_new_wf n : wf W (solver_new n W) /\ tables_fed (solver_new n W).
Proof.
  assert (forall a, abs_at (solver_new n W) a = None) as Ha by done.
  assert (forall c, class_at (solver_new n W) c = None) as Hc by done.
  assert (forall k, h_abs_ids (sv_heap (solver_new n W)) !! k = None) as Hi by (intros; apply lookup_empty).
  assert (forall k, h_class_ids (sv_heap (solver_new n W)) !! k = None) as Hj by (intros; apply lookup_empty).
  assert (forall k, cell_ids (eng (solver_new n W)) !! k = None) as Hk by (intros; apply lookup_empty).
  split; [split|].
  - split.
    + intros k i. rewrite Hk. done.
    + intros x y. cbn. rewrite lookup_empty. set_solver.
  - done.
  - done.
  - intros k a. by rewrite Hi.
  - intros k a _. unfold has_key. by rewrite Ha.
  - intros k c. by rewrite Hj, Hc.
  - intros a x. by rewrite Ha.
  - intros c pa. unfold table_of. by rewrite Hc.
  - intros c src (ci & H & _). by rewrite Hc in H.
  - intros a m. unfold has_field, fields, interned. cbn. rewrite lookup_empty. setoid_rewrite lookup_empty. set_solver.
  - intros a m. unfold has_field, fields. cbn. rewrite lookup_empty. set_solver.
  - intros x y. cbn. set_solver.
  - intros c pa src m H. unfold table_of in H. by rewrite Hc in H.
Qed.

Lemma add_con_wf X s e sid c :
  wf W s -> complete X s -> e = fst (add_con (eng s) sid c) ->
  wf W (upd_sv_engine (fun _ => e) s) /\ complete X (upd_sv_engine (fun _ => e) s).
Proof.
  intros Hw Hx ->. split; [|exact Hx]. destruct Hw. split; try assumption.
  intros x y H. destruct (wf_flows x y H) as (k & l & ? & ? & F). exists k, l. split_and!; [done..|]. destruct F; by constructor.
Qed.

Lemma scanned_wf X l s : wf W s -> complete X s -> wf W (scanned l s) /\ complete X (scanned l s).
Proof.
  revert s. induction l as [|[sid c] l IH]; intros s Hw Hx.
  - unfold scanned. cbn. by destruct s.
  - destruct (add_con_wf X s _ sid c Hw Hx eq_refl) as [W1 C1]. exact (IH _ W1 C1).
Qed.

Lemma reachable_wf s : reachable s -> wf W s /\ tables_fed s.
Proof.
  induction 1 as [n l|s s' r _ [W0 C0] E|s s' r _ [W0 C0] E|s s' r _ [W0 C0] E|s e u s' r _ [W0 C0] P E|s s' r _ [W0 C0] E].
  - destruct (solver_new_wf n). by apply scanned_wf.
  - by destruct (seed_spec source W fuel _ s W0 C0 s' r E) as [(? & ? & _) _].
  - by destruct (resolve_shared_spec source tables W fuel _ s W0 C0 s' r E) as [(? & ? & _) _].
  - by destruct (instantiate_scripts_spec W _ s W0 C0 s' r E) as [(? & ? & _) _].
  - destruct (engine_good W all_fields _ s e none none W0 C0) as (W1 & C1 & E1); [|by intros ? []|by intros ? []|].
    { apply same_graph_step; [apply W0|]. by eapply pop_graph. }
    by destruct (eval_solver_spec source tables W fuel all_fields _ _ u (fun _ _ _ => I) W1 C1 s' r E) as [(? & ? & _) _].
  - by destruct (settle_sites_spec W all_fields _ s W0 C0 s' r E) as [(? & ? & _) _].
Qed.

End Reachable.
