(* ===== verification/ReadSubs.v ===== *)
(** * ReadSubs: what a property read subscribes to

    A read ([HeapEval.read_into]) subscribes its constraint to every cell its
    answer was computed from: the statics of the receiver's functions, the
    object's own field and its class's, the return cell of an accessor's
    getter, the class view and the method table's field, the views and methods
    of a region's members, the union of all elements, and the field's cell on
    every prototype along the chain with the sentinel where it ends. *)

From S2P Require Import Prelude OpSem Facts Types Engine EngineRun EngineFix Mem Source Contexts Builtins SolverState Heap HeapEval Calls.
From S2P Require Import Seed EngineExt HeapInv HeapKeep HeapOps SolverKeep.

(** ** The accessor table during a read

    Only the accessor constraint changes the table of accessors: nothing a
    read runs does. *)

Definition same_accessors (s s' : Solver) : Prop := sv_accessors s' = sv_accessors s.

#[export] Instance same_accessors_pre : PreOrder same_accessors.
Proof. split; [done|]. intros s1 s2 s3 H1 H2. unfold same_accessors in *. congruence. Qed.

#[local] Abbreviation keeps_acc := (always same_accessors).

Create HintDb acc.

Lemma acc_engine {T} (f : Engine -> option (Engine * T)) : keeps_acc (on_engine f).
Proof. intros s s' r. unfold on_engine. destruct (f (sv_engine s)) as [[e x]|]; cbn; [|done]. by intros [= <- <-]. Qed.

Lemma acc_modify (f : Solver -> Solver) : (forall s, sv_accessors (f s) = sv_accessors s) -> keeps_acc (modify f).
Proof. intros H s s' r [= <- <-]. apply H. Qed.

Lemma acc_heap f : keeps_acc (m_heap f). Proof. by apply acc_modify. Qed.
Lemma acc_stats f : keeps_acc (m_stats f). Proof. by apply acc_modify. Qed.
Lemma acc_this f : keeps_acc (m_this f). Proof. by apply acc_modify. Qed.
Lemma acc_tables f : keeps_acc (m_tables f). Proof. by apply acc_modify. Qed.
Lemma acc_fail {T} : keeps_acc (fail : M T). Proof. by intros s s' r. Qed.

Lemma acc_get_some {T} (o : option T) : keeps_acc (get_some o).
Proof. intros s s' r. unfold get_some. destruct o; cbn; [|done]. by intros [= <- <-]. Qed.

Lemma acc_intern chars : keeps_acc (m_intern chars).
Proof. intros s s' r. unfold m_intern. destruct (intern _ _) as [[? ?]|]; cbn; [|done]. by intros [= <- <-]. Qed.

Lemma acc_name n : keeps_acc (m_name n).
Proof. intros s s' r. unfold m_name. destruct (name_get _ _); cbn; [|done]. by intros [= <- <-]. Qed.

Lemma acc_natives k n chars : keeps_acc (m_natives_intern k n chars).
Proof.
  intros s s' r. unfold m_natives_intern. destruct (natives_intern _ _ _ _) as [[? ?]|]; cbn; [|done].
  by intros [= <- <-].
Qed.

#[export] Hint Resolve acc_engine acc_heap acc_stats acc_this acc_tables acc_fail acc_get_some acc_intern acc_name
  acc_natives : acc.
#[export] Hint Extern 1 (always _ (m_cell _)) => apply acc_engine : acc.
#[export] Hint Extern 1 (always _ (m_raise _ _ _ _)) => apply acc_engine : acc.
#[export] Hint Extern 1 (always _ (m_link _ _ _)) => apply acc_engine : acc.
#[export] Hint Extern 1 (always _ (m_read _ _)) => apply acc_engine : acc.
#[export] Hint Extern 1 (always _ (m_ts _)) => apply acc_engine : acc.
#[export] Hint Extern 1 (always _ (m_set_label _ _)) => apply acc_engine : acc.

Ltac acc :=
  cbv beta zeta;
  lazymatch goal with
  | |- always _ (mret _) => apply (always_ret _)
  | |- always _ (gets _) => apply (always_gets _)
  | |- always _ (m_lookup _) => apply (always_gets _)
  | |- always _ (m_region_root _) => apply (always_gets _)
  | |- always _ (m_abs _) => apply (always_abs _)
  | |- always _ (m_class _) => apply (always_class _)
  | |- always _ (_ ≫= _) => apply (always_bind _); [acc|intros ?; acc]
  | |- always _ (for_each _ _) => apply (always_for_each _); intros ?; acc
  | |- always _ (match ?x with _ => _ end) => destruct x; acc
  | |- _ => solve [eauto 3 with acc nocore] || idtac
  end.

Lemma acc_fold {B R} (l : list B) (a : R) (f : R -> B -> M R) :
  (forall a x, keeps_acc (f a x)) -> keeps_acc (fold_m l a f).
Proof. intros H. revert a. induction l as [|x l IH]; intros a; cbn [fold_m]; acc. Qed.

#[export] Hint Extern 1 (always _ (m_join_ts _ _ _)) => apply acc_engine : acc.
#[export] Hint Extern 1 (always _ (m_join_from _ _)) => apply acc_engine : acc.
#[export] Hint Extern 1 (always _ (m_fns_insert _ _)) => apply acc_engine : acc.
#[export] Hint Extern 1 (always _ (m_fns_join _ _)) => apply acc_engine : acc.

Lemma acc_set_abs a f : keeps_acc (m_set_abs a f). Proof. unfold m_set_abs. acc. Qed.
Lemma acc_set_class c f : keeps_acc (m_set_class c f). Proof. unfold m_set_class. acc. Qed.
#[export] Hint Resolve acc_set_abs acc_set_class : acc.

Section Accessors.
  Context (source : Source) (W : WellKnown) (fuel : nat).

Lemma acc_new_abs k : keeps_acc (new_abs k). Proof. unfold new_abs. acc. Qed.
#[local] Hint Resolve acc_new_abs : acc.
Lemma acc_new_class k c : keeps_acc (new_class k c). Proof. unfold new_class. acc. Qed.
Lemma acc_set_abs_class a c : keeps_acc (set_abs_class a c). Proof. unfold set_abs_class. acc. Qed.
Lemma acc_intern_fn_obj f : keeps_acc (intern_fn_obj f). Proof. unfold intern_fn_obj. acc. Qed.
Lemma acc_native_id k n : keeps_acc (native_id k n). Proof. unfold native_id. acc. Qed.
#[local] Hint Resolve acc_new_class acc_set_abs_class acc_intern_fn_obj acc_native_id : acc.

Lemma acc_field_cell_n n a name : keeps_acc (field_cell_n W fuel n a name).
Proof. revert a. induction n as [|n IH]; intros a; cbn [field_cell_n]; acc; apply IH. Qed.
Lemma acc_field_cell a name : keeps_acc (field_cell W fuel a name). Proof. apply acc_field_cell_n. Qed.
Lemma acc_class_field_cell c name : keeps_acc (class_field_cell fuel c name). Proof. unfold class_field_cell. acc. Qed.
#[local] Hint Resolve acc_field_cell acc_class_field_cell : acc.

Lemma acc_this_home_add_n n sid c : keeps_acc (this_home_add_n fuel n sid c).
Proof. revert sid. induction n as [|n IH]; intros sid; cbn [this_home_add_n]; acc; apply IH. Qed.
Lemma acc_this_home_add sid c : keeps_acc (this_home_add fuel sid c). Proof. apply acc_this_home_add_n. Qed.
#[local] Hint Resolve acc_this_home_add : acc.

Lemma acc_note_method_home c v : keeps_acc (note_method_home fuel c v). Proof. unfold note_method_home. acc. Qed.
Lemma acc_install_table_links a : keeps_acc (install_table_links fuel a). Proof. unfold install_table_links. acc. Qed.
#[local] Hint Resolve acc_note_method_home acc_install_table_links : acc.
Lemma acc_add_table_members a l : keeps_acc (add_table_members fuel a l). Proof. unfold add_table_members. acc. Qed.
#[local] Hint Resolve acc_add_table_members : acc.

Section Snap.
  Context (rec : SourceObjectId -> M AbsId) (Hrec : forall oid, keeps_acc (rec oid)).

#[local] Hint Resolve Hrec : acc.

Lemma acc_ts_of_sval v : keeps_acc (ts_of_sval source rec v). Proof. unfold ts_of_sval. acc. Qed.
#[local] Hint Resolve acc_ts_of_sval : acc.
Lemma acc_seed_prop a p : keeps_acc (seed_prop source W fuel rec a p). Proof. unfold seed_prop. acc. Qed.
Lemma acc_seed_static a p : keeps_acc (seed_static source W fuel rec a p). Proof. unfold seed_static. acc. Qed.
#[local] Hint Resolve acc_seed_prop acc_seed_static : acc.
Lemma acc_seed_fn_obj a s : keeps_acc (seed_fn_obj source W fuel rec a s). Proof. unfold seed_fn_obj. acc. Qed.
Lemma acc_seed_elems l t fs : keeps_acc (seed_elems source rec l t fs).
Proof. revert t fs. induction l as [|x l IH]; intros t fs; cbn [seed_elems]; acc; apply IH. Qed.
#[local] Hint Resolve acc_seed_fn_obj acc_seed_elems : acc.
Lemma acc_seed_snap a oid : keeps_acc (seed_snap source W fuel rec a oid). Proof. unfold seed_snap. acc. Qed.
#[local] Hint Resolve acc_seed_snap : acc.
Lemma acc_ensure_seeded a : keeps_acc (ensure_seeded source W fuel rec a). Proof. unfold ensure_seeded. acc. Qed.
Lemma acc_install_chain pa src : keeps_acc (install_chain fuel pa src). Proof. unfold install_chain. acc. Qed.
Lemma acc_link_fields pa src : keeps_acc (link_fields W fuel pa src). Proof. unfold link_fields. acc. Qed.
Lemma acc_home_methods c src : keeps_acc (home_methods W fuel c src). Proof. unfold home_methods. acc. Qed.
#[local] Hint Resolve acc_ensure_seeded acc_install_chain acc_link_fields acc_home_methods : acc.
Lemma acc_register c src own : keeps_acc (register_proto_source_impl source W fuel rec c src own).
Proof. unfold register_proto_source_impl. acc. Qed.
#[local] Hint Resolve acc_register : acc.
Lemma acc_class_for_key k c f : keeps_acc (class_for_key source W fuel rec k c f). Proof. unfold class_for_key. acc. Qed.
#[local] Hint Resolve acc_class_for_key : acc.
Lemma acc_class_for_fn f : keeps_acc (class_for_fn source W fuel rec f). Proof. unfold class_for_fn. acc. Qed.
#[local] Hint Resolve acc_class_for_fn : acc.
Lemma acc_intern_snap_with oid : keeps_acc (intern_snap_with source W fuel rec oid).
Proof. unfold intern_snap_with. acc. Qed.
End Snap.

Lemma acc_intern_snap oid : keeps_acc (intern_snap source W fuel oid).
Proof.
  unfold intern_snap. generalize fuel at 2 as n. intros n. revert oid.
  induction n as [|n IH]; intros oid; cbn [intern_snap_n]; [apply acc_fail|by apply acc_intern_snap_with].
Qed.

Lemma acc_seeded a n : keeps_acc (seeded_field_cell source W fuel a n).
Proof. unfold seeded_field_cell. acc. apply acc_ensure_seeded, acc_intern_snap. Qed.
#[local] Hint Resolve acc_seeded : acc.

Lemma acc_read_join i u out : keeps_acc (read_join fuel i u out). Proof. unfold read_join. acc. Qed.
#[local] Hint Resolve acc_read_join : acc.
Lemma acc_chain_join d cur n u out : keeps_acc (chain_join source W fuel d cur n u out).
Proof. revert cur out. induction d as [|d IH]; intros cur out; cbn [chain_join]; acc; apply IH. Qed.
End Accessors.

(** ** What a read is subscribed to *)

Definition subscribed (s : Solver) (k : CellKey) (u : User) : Prop :=
  exists i, interned s k i /\ (i, fst u, snd u) ∈ sub_set (eng s).

(** Every cell along the chain above [cur], to the depth limit or the
    sentinel of its last link. *)
Fixpoint chain_subscribed (s : Solver) (d : nat) (cur : AbsId) (n : NameId) (u : User) : Prop :=
  match d with
  | O => True
  | S d =>
      match ab_proto <$> abs_at s cur with
      | Some (PL_Abs p) => subscribed s (KField p n) u /\ chain_subscribed s d p n u
      | Some PL_None => subscribed s (KProtoSentinel cur) u
      | None => False
      end
  end.

(** The getter's return cell, where the table has a getter. *)
Definition accessor_subscribed (s : Solver) (c : ClassId) (n : NameId) (u : User) : Prop :=
  forall g x, sv_accessors s !! (c, n) = Some (Some g, x) -> subscribed s (KRet g CTX0) u.

(** The statics of the receiver's functions; [prototype] is no static. *)
Definition fns_subscribed (W : WellKnown) (s : Solver) (t : TypeSet) (n : NameId) (u : User) : Prop :=
  multi (fns t) = false -> n <> wk_prototype W ->
  forall f, f ∈ scripted (fns t) -> exists fo, has_key s fo (AK_FnObj f) /\ subscribed s (KField fo n) u.

Definition one_subscribed (W : WellKnown) (s : Solver) (a : AbsId) (n : NameId) (u : User) : Prop :=
  subscribed s (KField a n) u /\
  (forall x c, abs_at s a = Some x -> ab_class x = Some c ->
    subscribed s (KClassField c n) u /\ accessor_subscribed s c n u) /\
  (n <> wk_elems W -> chain_subscribed s CHAIN_DEPTH a n u).

(** [s1]: the state in which the receiver is looked at; elements are read off
    the class's region. *)
Definition class_subscribed (W : WellKnown) (s1 s : Solver) (c : ClassId) (n : NameId) (u : User) : Prop :=
  let v := if is_elems W n then region_root (eng s1) c else c in
  subscribed s (KClassView v n) u /\ accessor_subscribed s v n u /\
  (n <> wk_elems W -> forall pa, table_of s c pa ->
    subscribed s (KField pa n) u /\ chain_subscribed s CHAIN_DEPTH pa n u).

(** The methods a member of a region has by itself and by the chain it had in
    [s1]. *)
Fixpoint methods_subscribed (s1 s : Solver) (d : nat) (cur : AbsId) (n : NameId) (u : User) : Prop :=
  match d with
  | O => True
  | S d =>
      subscribed s (KField cur n) u /\
      match ab_proto <$> abs_at s1 cur with
      | Some (PL_Abs p) => methods_subscribed s1 s d p n u
      | _ => True
      end
  end.

Definition members_in (s : Solver) (r : ClassId) : list ClassId :=
  let root := region_root (eng s) r in default [root] (region_members (eng s) !! root).

(** [s1]: the state in which the methods are looked at, [s2]: the one in which
    the view is. *)
Definition region_subscribed (s1 s2 s : Solver) (r : ClassId) (n : NameId) (callee : bool) (u : User) : Prop :=
  (callee = true -> (length (members_in s1 r) <= REGION_VIEW_CAP)%nat ->
    forall m pa, m ∈ members_in s1 r -> table_of s m pa -> methods_subscribed s1 s CHAIN_DEPTH pa n u) /\
  ((length (members_in s2 r) <= REGION_VIEW_CAP)%nat ->
    let root := region_root (eng s2) r in
    subscribed s (KClassView root n) u /\
    forall m, m ∈ members_in s2 r -> m <> root -> linked s (KClassView m n) (KClassView root n)).

(** The parts of a read in front of the receiver's object. *)
Definition read_front (source : Source) (W : WellKnown) (fuel : nat) (rts : TypeSet) (n : NameId) (callee : bool) (u : User)
    (out : TypeSet) : M TypeSet :=
  out ← (if callee && intersects (prims rts) PRIM_RECV then read_prim_methods rts n out else mret out);
  read_fns source W fuel rts n u out.

Definition front_methods (source : Source) (W : WellKnown) (fuel : nat) (r : ClassId) (n : NameId) (callee : bool) (u : User)
    : M BoundedFnSet := if callee then region_methods source W fuel r n u else mret fns_default.

Definition read_subscribed (source : Source) (W : WellKnown) (fuel : nat) (rts : TypeSet) (n : NameId) (callee : bool)
    (u : User) (s1 s : Solver) : Prop :=
  match obj rts with
  | OEmpty => True
  | OOne a => one_subscribed W s a n u
  | OClassAny c => class_subscribed W s1 s c n u
  | OAnyOf r =>
      if is_elems W n then subscribed s KArrayElemsUnion u
      else exists s2 f, front_methods source W fuel r n callee u s1 = Some (s2, f) /\ region_subscribed s1 s2 s r n callee u
  | OAnyObject => n = wk_elems W -> subscribed s KArrayElemsUnion u
  end.

Section Subs.
  Context (source : Source) (W : WellKnown) (fuel : nat) (A : AbsId -> NameId -> Prop).

#[local] Abbreviation hoare := (hoare W A).

Implicit Types (X : ClassId -> AbsId -> NameId -> Prop).

Lemma subscribed_ext s s' k u : ext A s s' -> subscribed s k u -> subscribed s' k u.
Proof. intros E (i & Hi & H). exists i. split; [by apply (ex_ids _ _ _ E)|by apply (ex_subs _ _ _ E)]. Qed.

Lemma read_subscribes X s i u k : interned s k i -> hoare X X s (m_read i u) (fun s' _ => subscribed s' k u).
Proof.
  intros Hi. eapply hoare_mono; [apply hoare_read|]. cbn beta. intros s' t W1 E [_ H].
  exists i. split; [by apply (ex_ids _ _ _ E)|done].
Qed.

Lemma read_join_subscribes X s i u out k :
  interned s k i -> hoare X X s (read_join fuel i u out) (fun s' _ => subscribed s' k u).
Proof.
  intros Hi. unfold read_join. eapply hoare_bind; [by apply read_subscribes|]. cbn beta. intros s1 v W1 _ E1 H.
  eapply hoare_mono; [apply hoare_join|]. intros s2 _ _ E2 _. by eapply subscribed_ext.
Qed.

(** What every round of a loop leaves, the loop leaves of every element. *)
Lemma hoare_fold_all {B R} X s (l : list B) (acc : R) (f : R -> B -> M R) (P : Solver -> B -> Prop) :
  (forall x s1 s2, ext A s1 s2 -> P s1 x -> P s2 x) ->
  (forall a x s1, x ∈ l -> ext A s s1 -> hoare X X s1 (f a x) (fun s2 _ => P s2 x)) ->
  hoare X X s (fold_m l acc f) (fun s' _ => forall x, x ∈ l -> P s' x).
Proof.
  intros HP. cut (forall s1 acc, ext A s s1 -> (forall a x s1, x ∈ l -> ext A s s1 -> hoare X X s1 (f a x) (fun s2 _ => P s2 x)) ->
    hoare X X s1 (fold_m l acc f) (fun s' _ => forall x, x ∈ l -> P s' x)).
  { intros H. apply H, heap_ext_refl. }
  induction l as [|x l IH]; intros s1 a E1 Hf; cbn [fold_m]; [apply hoare_ret; intros x Hx; by apply elem_of_nil in Hx|].
  eapply hoare_bind; [apply Hf; [set_solver|done]|]. cbn beta. intros s2 r W2 _ E2 H2.
  eapply hoare_mono; [apply IH; [by eapply heap_ext_trans|]|].
  - intros a' y s3 Hy. apply Hf. set_solver.
  - cbn beta. intros s3 r3 W3 E3 H3 y [->|Hy]%elem_of_cons; [by eapply HP|by apply H3].
Qed.

Lemma hoare_each_all {B} X s (l : list B) (f : B -> M unit) (P : Solver -> B -> Prop) :
  (forall x s1 s2, ext A s1 s2 -> P s1 x -> P s2 x) ->
  (forall x s1, x ∈ l -> ext A s s1 -> hoare X X s1 (f x) (fun s2 _ => P s2 x)) ->
  hoare X X s (for_each l f) (fun s' _ => forall x, x ∈ l -> P s' x).
Proof.
  intros HP. cut (forall s1, ext A s s1 -> (forall x s1, x ∈ l -> ext A s s1 -> hoare X X s1 (f x) (fun s2 _ => P s2 x)) ->
    hoare X X s1 (for_each l f) (fun s' _ => forall x, x ∈ l -> P s' x)).
  { intros H. apply H, heap_ext_refl. }
  induction l as [|x l IH]; intros s1 E1 Hf; cbn [for_each]; [apply hoare_ret; intros x Hx; by apply elem_of_nil in Hx|].
  eapply hoare_bind; [apply Hf; [set_solver|done]|]. cbn beta. intros s2 r W2 _ E2 H2.
  eapply hoare_mono; [apply IH; [by eapply heap_ext_trans|]|].
  - intros y s3 Hy. apply Hf. set_solver.
  - cbn beta. intros s3 r3 W3 E3 H3 y [->|Hy]%elem_of_cons; [by eapply HP|by apply H3].
Qed.

Lemma chain_join_subscribes d X s cur n u out :
  hoare X X s (chain_join source W fuel d cur n u out) (fun s' _ => chain_subscribed s' d cur n u).
Proof.
  revert s cur out. induction d as [|d IH]; intros s cur out; cbn [chain_join].
  - eapply hoare_mono; [|by intros]. eapply (hoare_bind _ _ _ X _ _ _ _ any); [hop|]. intros. by apply (hoare_ret _ _ _ _ _ any).
  - apply hoare_bind_abs. intros x Hx. destruct (ab_proto x) as [p|] eqn:Hp.
    + eapply hoare_bind; [hop|]. cbn beta. intros s1 f W1 _ E1 Hf.
      eapply hoare_bind; [by eapply read_join_subscribes|]. cbn beta. intros s2 out2 W2 _ E2 H2.
      eapply hoare_mono; [apply IH|]. cbn beta. intros s3 r W3 E3 H3. cbn [chain_subscribed].
      destruct (ex_abs _ _ _ (heap_ext_trans _ _ _ _ E1 (heap_ext_trans _ _ _ _ E2 E3)) cur x Hx) as (y & -> & Hy). cbn.
      rewrite (ae_proto _ _ Hy p Hp). split; [|done]. by eapply subscribed_ext.
    + eapply hoare_mono; [apply (hoare_always _ _ _ _ _ _ (fun s' _ => subscribed s' (KProtoSentinel cur) u) (names_only n))|].
      * apply (always_bind _); [apply engine_names|intros ?]. apply (always_bind _); [apply engine_names|intros ?].
        apply (always_ret _).
      * eapply hoare_bind; [hop|]. cbn beta. intros s1 i W1 _ E1 Hi.
        eapply hoare_bind; [by eapply read_subscribes|]. cbn beta. intros s2 t W2 _ E2 H. by apply hoare_ret.
      * cbn beta. intros s' r _ _ [H Hno]. cbn [chain_subscribed]. rewrite (no_abs _ _ _ Hno), Hx. cbn. by rewrite Hp.
Qed.

(** The getter's cell, against the table the read started from. *)
Lemma accessor_read_subscribes X s c n u out :
  hoare X X s (accessor_read fuel c n u out)
    (fun s' _ => sv_accessors s' = sv_accessors s /\ accessor_subscribed s' c n u).
Proof.
  unfold accessor_read. apply hoare_bind_gets.
  destruct (sv_accessors s !! (c, n)) as [[[g|] w]|] eqn:E;
    try (apply hoare_ret; split; [done|]; intros g' x; congruence).
  eapply hoare_mono; [eapply (hoare_always _ _ _ _ _ _ (fun s' _ => subscribed s' (KRet g CTX0) u) same_accessors)|].
  - acc. apply acc_read_join.
  - eapply hoare_bind; [hop|]. cbn beta. intros s1 i W1 _ E1 Hi. by apply read_join_subscribes.
  - cbn beta. intros s' r _ _ [H Ha]. split; [done|]. intros g' x. unfold same_accessors in Ha. rewrite Ha, E. by intros [= -> _].
Qed.

Lemma accessor_subscribed_ext s s' c n u :
  ext A s s' -> sv_accessors s' = sv_accessors s -> accessor_subscribed s c n u -> accessor_subscribed s' c n u.
Proof. intros E Ha H g x. rewrite Ha. intros Hg. eapply subscribed_ext; [done|by eapply H]. Qed.

Lemma read_one_subscribes X s a n u out :
  hoare X X s (read_one source W fuel a n u out) (fun s' _ => one_subscribed W s' a n u).
Proof.
  unfold read_one. eapply hoare_bind; [hop|]. cbn beta. intros s1 own W1 _ E1 Hown.
  eapply hoare_bind; [by eapply read_join_subscribes|]. cbn beta. intros s2 out2 W2 _ E2 H2.
  apply hoare_bind_abs. intros x Hx.
  eapply (hoare_bind _ _ _ X _ _ _ _ (fun s' _ => forall c, ab_class x = Some c ->
    subscribed s' (KClassField c n) u /\ accessor_subscribed s' c n u)).
  { destruct (ab_class x) as [c|]; [|by apply hoare_ret].
    eapply hoare_bind; [hop|]. cbn beta. intros s3 cf W3 _ E3 Hcf.
    eapply hoare_bind; [by eapply read_join_subscribes|]. cbn beta. intros s4 o4 W4 _ E4 H4.
    eapply hoare_mono; [apply accessor_read_subscribes|]. intros s5 r W5 E5 [_ H5] c' [= <-].
    split; [by eapply subscribed_ext|done]. }
  cbn beta. intros s3 o3 W3 _ E3 H3. destruct (ex_abs _ _ _ E3 a x Hx) as (y & Hy & Exy).
  assert (forall s', HeapInv.wf W s' -> ext A s3 s' -> sv_accessors s' = sv_accessors s3 ->
    (n <> wk_elems W -> chain_subscribed s' CHAIN_DEPTH a n u) -> one_subscribed W s' a n u) as Hend.
  { intros s' W' E' Ha Hc. split_and!; [|intros z c Hz Hzc|done].
    - eapply subscribed_ext, H2. by eapply heap_ext_trans.
    - destruct (ex_abs _ _ _ E' a y Hy) as (z' & Hz' & Ez). assert (z = z') as -> by congruence.
      assert (ab_class x = Some c) as Hxc by (rewrite <- Hzc, (ae_class _ _ Ez); symmetry; apply Exy).
      destruct (H3 c Hxc). split; [by eapply subscribed_ext|by eapply accessor_subscribed_ext]. }
  unfold is_elems. case_bool_decide as He.
  - apply hoare_ret. apply Hend; [done|apply heap_ext_refl|done|done].
  - eapply hoare_mono; [eapply (hoare_always _ _ _ _ _ _ _ same_accessors); [apply acc_chain_join|apply chain_join_subscribes]|].
    cbn beta. intros s' r W' E' [Hc Ha]. by apply Hend.
Qed.

Lemma read_class_subscribes X s c n u out :
  hoare X X s (read_class source W fuel c n u out) (fun s' _ => class_subscribed W s s' c n u).
Proof.
  unfold read_class, class_subscribed. set (v := if is_elems W n then region_root (eng s) c else c).
  unfold view_class. apply (hoare_eq W A X X s _ (view ← m_cell (KClassView v n);
    out ← read_join fuel view u out; out ← accessor_read fuel v n u out;
    if is_elems W n then mret out
    else ci ← m_class v; f ← seeded_field_cell source W fuel (ci_proto_abs ci) n; v0 ← m_read f u;
      out ← m_join_from out v0; chain_join source W fuel CHAIN_DEPTH (ci_proto_abs ci) n u out)).
  { unfold v. by destruct (is_elems W n). }
  eapply hoare_bind; [hop|]. cbn beta. intros s1 w W1 _ E1 Hv.
  eapply hoare_bind; [by eapply read_join_subscribes|]. cbn beta. intros s2 o2 W2 _ E2 H2.
  eapply hoare_bind; [apply accessor_read_subscribes|]. cbn beta. intros s3 o3 W3 _ E3 [_ H3].
  unfold is_elems in *. case_bool_decide as He.
  { apply hoare_ret. split_and!; [by eapply subscribed_ext|done|done]. }
  subst v. apply hoare_bind_class. intros ci Hci.
  assert (table_of s3 c (ci_proto_abs ci)) as Ht by (unfold table_of; by rewrite Hci).
  eapply hoare_mono; [eapply (hoare_always _ _ _ _ _ _ (fun s' _ => subscribed s' (KField (ci_proto_abs ci) n) u /\
    chain_subscribed s' CHAIN_DEPTH (ci_proto_abs ci) n u) same_accessors)|].
  - acc; [apply acc_seeded|apply acc_chain_join].
  - eapply hoare_bind; [hop|]. cbn beta. intros s4 f W4 _ E4 Hf.
    eapply hoare_bind; [by eapply read_subscribes|]. cbn beta. intros s5 t W5 _ E5 H5.
    eapply hoare_bind; [hop|]. cbn beta. intros s6 o6 W6 _ E6 _.
    eapply hoare_mono; [apply chain_join_subscribes|]. cbn beta. intros s' r W' E' Hc. split; [|done].
    eapply subscribed_ext, H5. by eapply heap_ext_trans.
  - cbn beta. intros s' r W' E' [[H5 Hc] Ha]. split_and!.
    + eapply subscribed_ext, H2. by eapply heap_ext_trans.
    + by eapply accessor_subscribed_ext.
    + intros _ pa Hpa. assert (table_of s' c (ci_proto_abs ci)) as Ht' by (by eapply ex_class).
      assert (pa = ci_proto_abs ci) as -> by (unfold table_of in *; congruence). done.
Qed.

(** *** Regions *)

Lemma methods_subscribed_ext s1 s s' d cur n u :
  ext A s s' -> methods_subscribed s1 s d cur n u -> methods_subscribed s1 s' d cur n u.
Proof.
  intros E. revert cur. induction d as [|d IH]; intros cur; cbn; [done|]. intros [H1 H2].
  split; [by eapply subscribed_ext|]. destruct (ab_proto <$> abs_at s1 cur) as [[]|]; auto.
Qed.

Lemma method_chain_subscribes d X s0 s cur n u f :
  ext A s0 s -> hoare X X s (method_chain source W fuel d cur n u f) (fun s' _ => methods_subscribed s0 s' d cur n u).
Proof.
  revert s cur f. induction d as [|d IH]; intros s cur f E0; cbn [method_chain]; [by apply hoare_ret|].
  eapply hoare_bind; [hop|]. cbn beta. intros s1 c W1 _ E1 Hc.
  eapply hoare_bind; [by eapply read_subscribes|]. cbn beta. intros s2 v W2 _ E2 H2.
  eapply hoare_bind; [hop|]. cbn beta. intros s3 f3 W3 _ E3 _.
  apply hoare_bind_abs. intros x Hx. assert (subscribed s3 (KField cur n) u) as H3 by by eapply subscribed_ext.
  assert (ext A s0 s3) as E03 by eauto using heap_ext_trans.
  assert (forall p, ab_proto <$> abs_at s0 cur = Some (PL_Abs p) -> ab_proto x = PL_Abs p) as Hproto.
  { intros p. rewrite fmap_Some. intros (y & Hy & Hp). destruct (ex_abs _ _ _ E03 cur y Hy) as (z & Hz & Ez).
    assert (z = x) as -> by congruence. by apply (ae_proto _ _ Ez). }
  destruct (ab_proto x) as [p|] eqn:Hp.
  - eapply hoare_mono; [by apply IH|]. cbn beta. intros s' r W' E' H'. cbn [methods_subscribed].
    split; [by eapply subscribed_ext|]. destruct (ab_proto <$> abs_at s0 cur) as [[q|]|] eqn:Eq; try done.
    specialize (Hproto q eq_refl). congruence.
  - apply hoare_ret. cbn [methods_subscribed]. split; [done|].
    destruct (ab_proto <$> abs_at s0 cur) as [[q|]|] eqn:Eq; try done. by specialize (Hproto q eq_refl).
Qed.

Definition region_methods_subscribed (s1 s : Solver) (r : ClassId) (n : NameId) (u : User) : Prop :=
  (length (members_in s1 r) <= REGION_VIEW_CAP)%nat ->
  forall m pa, m ∈ members_in s1 r -> table_of s m pa -> methods_subscribed s1 s CHAIN_DEPTH pa n u.

Lemma region_methods_ext s1 s s' r n u :
  (forall m, m ∈ members_in s1 r -> has_class s m) ->
  ext A s s' -> region_methods_subscribed s1 s r n u -> region_methods_subscribed s1 s' r n u.
Proof.
  intros Hm E H Hl m pa Hin Hpa. destruct (Hm m Hin) as [ci Hci].
  assert (table_of s m (ci_proto_abs ci)) as Ht by (unfold table_of; by rewrite Hci).
  assert (pa = ci_proto_abs ci) as ->.
  { pose proof (ex_class _ _ _ E _ _ Ht) as Ht'. unfold table_of in *. congruence. }
  eapply methods_subscribed_ext; [done|exact (H Hl m _ Hin Ht)].
Qed.

Lemma region_methods_subscribes X s r n u :
  hoare X X s (region_methods source W fuel r n u)
    (fun s' _ => region_methods_subscribed s s' r n u /\
       ((length (members_in s r) <= REGION_VIEW_CAP)%nat -> forall m, m ∈ members_in s r -> has_class s' m)).
Proof.
  unfold region_methods, m_region_root, region_members_of. apply hoare_bind_gets, hoare_bind_gets.
  change (default _ _) with (members_in s r). destruct (Nat.ltb_spec REGION_VIEW_CAP (length (members_in s r))) as [Hc|Hc].
  { apply hoare_ret. split; intros ?; lia. }
  eapply hoare_mono; [apply (hoare_fold_all _ _ _ _ _ (fun s' m => exists pa, table_of s' m pa /\
    methods_subscribed s s' CHAIN_DEPTH pa n u))|].
  - intros m s1 s2 E (pa & Ht & H). exists pa. split; [by eapply ex_class|by eapply methods_subscribed_ext].
  - intros f m s1 Hm E1. apply hoare_bind_class. intros ci Hci.
    eapply hoare_mono; [by apply (method_chain_subscribes _ _ s)|]. cbn beta. intros s2 r2 W2 E2 H2.
    exists (ci_proto_abs ci). split; [|done]. eapply ex_class; [done|]. unfold table_of. by rewrite Hci.
  - cbn beta. intros s' f W' E' H. split.
    + intros _ m pa Hm Hpa. destruct (H m Hm) as (pa' & Ht & Hs). assert (pa = pa') as -> by (unfold table_of in *; congruence).
      done.
    + intros _ m Hm. destruct (H m Hm) as (pa' & Ht & _). rewrite has_class_table. by exists pa'.
Qed.

Definition view_linked (s2 s : Solver) (r : ClassId) (n : NameId) : Prop :=
  let root := region_root (eng s2) r in
  forall m, m ∈ members_in s2 r -> m <> root -> linked s (KClassView m n) (KClassView root n).

Lemma region_view_links X s r n :
  hoare X X s (region_view fuel r n) (fun s' o =>
    match o with
    | Some i => interned s' (KClassView (region_root (eng s) r) n) i /\ view_linked s s' r n
    | None => (REGION_VIEW_CAP < length (members_in s r))%nat
    end).
Proof.
  unfold region_view, m_region_root, region_members_of. apply hoare_bind_gets, hoare_bind_gets.
  change (default _ _) with (members_in s r). set (root := region_root (eng s) r).
  destruct (Nat.ltb_spec REGION_VIEW_CAP (length (members_in s r))) as [Hc|Hc]; [by apply hoare_ret|].
  eapply hoare_bind; [hop|]. cbn beta. intros s1 view W1 _ E1 Hv.
  eapply hoare_bind; [apply (hoare_each_all _ _ _ _ (fun s' m => m <> root -> linked s' (KClassView m n) (KClassView root n)))|].
  - intros m s2 s3 E H Hne. eapply linked_ext; [done|by apply H].
  - intros m s2 Hm E2. case_bool_decide as Hne; [by apply hoare_ret|].
    eapply hoare_bind; [hop|]. cbn beta. intros s3 mv W3 _ E3 Hmv.
    assert (interned s3 (KClassView root n) view) as Hv3 by (apply (ex_ids _ _ _ E3), (ex_ids _ _ _ E2); done).
    eapply hoare_bind; [by apply (hoare_link _ _ _ _ _ _ _ (KClassView m n) (KClassView root n)); [..|constructor]|].
    cbn beta. intros s4 [] W4 _ E4 L4. eapply hoare_mono; [eapply link_spec; [| |apply (fl_views _ root n m n)]|].
    + by apply (ex_ids _ _ _ E4).
    + by apply (ex_ids _ _ _ E4).
    + cbn beta. intros s5 [] W5 E5 _ _. by eapply linked_ext.
  - cbn beta. intros s2 [] W2 _ E2 H2. apply hoare_ret. split; [by apply (ex_ids _ _ _ E2)|]. intros m Hm. by apply H2.
Qed.

Lemma read_region_subscribes X s r n callee u out :
  hoare X X s (read_region source W fuel r n callee u out) (fun s' _ =>
    if is_elems W n then subscribed s' KArrayElemsUnion u
    else exists s2 f, front_methods source W fuel r n callee u s = Some (s2, f) /\ region_subscribed s s2 s' r n callee u).
Proof.
  unfold read_region. destruct (is_elems W n).
  { eapply hoare_bind; [hop|]. cbn beta. intros s1 i W1 _ E1 Hi.
    eapply hoare_bind; [by eapply read_join_subscribes|]. cbn beta. intros s2 o2 W2 _ E2 H2. by apply hoare_ret. }
  fold (front_methods source W fuel r n callee u).
  intros W0 C0 s' res E. apply bind_run in E as (s2 & f & Ef & E).
  assert (hoare X X s (front_methods source W fuel r n callee u) (fun s' _ => callee = true ->
    region_methods_subscribed s s' r n u /\
    ((length (members_in s r) <= REGION_VIEW_CAP)%nat -> forall m, m ∈ members_in s r -> has_class s' m))) as Hfront.
  { unfold front_methods. destruct callee; [|by apply hoare_ret].
    eapply hoare_mono; [apply region_methods_subscribes|]. by intros. }
  destruct (Hfront W0 C0 s2 f Ef) as [(W2 & C2 & E2) Hm].
  assert (hoare X X s2 (view ← region_view fuel r n;
      out0 ← match view with Some view => read_join fuel view u out | None => mret out end;
      out1 ← m_join_ts fuel out0 (unresolved_witness f); mret (out1, callee && negb (fns_is_empty f)))
    (fun s' _ => (length (members_in s2 r) <= REGION_VIEW_CAP)%nat ->
       subscribed s' (KClassView (region_root (eng s2) r) n) u /\ view_linked s2 s' r n)) as Hview.
  { eapply hoare_bind; [apply region_view_links|]. cbn beta. intros s3 o W3 _ E3 H3.
    eapply (hoare_bind _ _ _ X _ _ _ _ (fun s' _ => (length (members_in s2 r) <= REGION_VIEW_CAP)%nat ->
       subscribed s' (KClassView (region_root (eng s2) r) n) u /\ view_linked s2 s' r n)).
    - destruct o as [i|]; [|apply hoare_ret; lia]. destruct H3 as [Hi Hl].
      eapply hoare_mono; [by eapply read_join_subscribes|]. cbn beta. intros s4 r4 W4 E4 H4 _. split; [done|].
      intros m Hm' Hne. eapply linked_ext; [done|by apply Hl].
    - cbn beta. intros s4 o4 W4 _ E4 H4. eapply hoare_bind; [hop|]. cbn beta. intros s5 o5 W5 _ E5 _.
      apply hoare_ret. intros Hl. destruct (H4 Hl) as [H5 H6]. split; [by eapply subscribed_ext|].
      intros m Hm' Hne. eapply linked_ext; [done|by apply H6]. }
  destruct (Hview W2 C2 s' res E) as [(W' & C' & E') Hv]. split; [split_and!; [done..|by eapply heap_ext_trans]|].
  exists s2, f. split; [done|]. split; [|exact Hv].
  intros Hc Hl. destruct (Hm Hc) as [H1 H2]. by apply (region_methods_ext s s2 s' r n u (H2 Hl) E').
Qed.

(** *** The whole read *)

Lemma read_fns_subscribes X s t n u out :
  hoare X X s (read_fns source W fuel t n u out) (fun s' _ => fns_subscribed W s' t n u).
Proof.
  unfold read_fns, fns_subscribed. destruct (multi (fns t)) eqn:Em.
  { eapply hoare_mono; [apply (hoare_any _ _ _ _ _ _ any); hop|done]. }
  eapply hoare_mono; [apply (hoare_fold_all _ _ _ _ _ (fun s' f => n <> wk_prototype W ->
    exists fo, has_key s' fo (AK_FnObj f) /\ subscribed s' (KField fo n) u))|].
  - intros f s1 s2 E H Hn. destruct (H Hn) as (fo & Hk & Hs). exists fo.
    split; [by eapply has_key_ext|by eapply subscribed_ext].
  - intros a f s1 Hf E1. unfold read_fn. case_bool_decide as Hn.
    { eapply hoare_mono; [apply (hoare_any _ _ _ _ _ _ any); hk|done]. }
    eapply hoare_bind; [hop|]. cbn beta. intros s2 fo W2 _ E2 Hk.
    eapply hoare_bind; [hk|]. cbn beta. intros s3 c W3 _ E3 Hc.
    eapply hoare_bind; [by eapply read_subscribes|]. cbn beta. intros s4 v W4 _ E4 H4.
    eapply hoare_mono; [hop|]. cbn beta. intros s5 r W5 E5 _ _. exists fo.
    split; [|by eapply subscribed_ext]. eapply has_key_ext; [|exact Hk]. eauto using heap_ext_trans.
  - cbn beta. intros s' r _ _ H _ Hn f Hf. by apply H.
Qed.

Lemma read_into_subscribes X s t n b u out :
  hoare X X s (read_into source W fuel t n b u out)
    (fun s' _ => fns_subscribed W s' t n u /\
       exists s1 o1, read_front source W fuel t n b u out s = Some (s1, o1) /\
         read_subscribed source W fuel t n b u s1 s').
Proof.
  intros W0 C0 s' res E. unfold read_into in E. apply bind_run in E as (sp & op & Ep & E).
  apply bind_run in E as (s1 & o1 & E1 & E).
  assert (read_front source W fuel t n b u out s = Some (s1, o1)) as Hf.
  { unfold read_front, mbind, M_bind. by rewrite Ep. }
  assert (hoare X X s (read_front source W fuel t n b u out) (fun s' _ => fns_subscribed W s' t n u)) as Hfront.
  { unfold read_front. eapply (hoare_bind _ _ _ X _ _ _ _ any).
    - destruct (_ && _); [apply read_prim_spec|by apply hoare_ret].
    - intros. apply read_fns_subscribes. }
  destruct (Hfront W0 C0 s1 o1 Hf) as [(W1 & C1 & X1) Hfns].
  cut (good W A X s1 s' /\ read_subscribed source W fuel t n b u s1 s').
  { intros [(W2 & C2 & X2) H]. split; [split_and!; [done..|by eapply heap_ext_trans]|]. split; [|by exists s1, o1].
    intros Hm Hn f Hin. destruct (Hfns Hm Hn f Hin) as (fo & Hk & Hs). exists fo.
    split; [by eapply has_key_ext|by eapply subscribed_ext]. }
  unfold read_subscribed. destruct (obj t) as [|a|c|r|].
  - assert (hoare X X s1 (if unknown t then out ← m_join_ts fuel o1 (unresolved_witness fns_default); mret (out, false)
      else mret (o1, false)) any) as H by hk.
    by destruct (H W1 C1 s' res E).
  - apply bind_run in E as (s2 & o2 & E2 & [= <- <-]). exact (read_one_subscribes X s1 a n u o1 W1 C1 s2 o2 E2).
  - apply bind_run in E as (s2 & o2 & E2 & [= <- <-]). exact (read_class_subscribes X s1 c n u o1 W1 C1 s2 o2 E2).
  - exact (read_region_subscribes X s1 r n b u o1 W1 C1 s' res E).
  - unfold is_elems in E. case_bool_decide as He.
    + assert (hoare X X s1 (union ← elems_union; out ← read_join fuel union u o1; mret (out, false))
        (fun s' _ => subscribed s' KArrayElemsUnion u)) as H.
      { eapply hoare_bind; [hop|]. cbn beta. intros s2 i W2 _ E2 Hi.
        eapply hoare_bind; [by eapply read_join_subscribes|]. cbn beta. intros s3 o3 W3 _ E3 H3. by apply hoare_ret. }
      destruct (H W1 C1 s' res E). done.
    + assert (hoare X X s1 (out ← m_join_ts fuel o1 unresolved_no_fns; mret (out, false)) any) as H by hk.
      by destruct (H W1 C1 s' res E).
Qed.

End Subs.
