(* ===== verification/Effects.v ===== *)
(** * Effects: per-script effect summaries

    [compiler/src/likelier/effects.rs]: the walk that classifies every op of a
    script, the fold of its call edges over the solved resolution tables, and
    the fixpoint over the call graph. [Origin]s only feed the reason recorded
    with a saturated summary. *)

From Stdlib Require Import Ascii String.
From stdpp Require Import strings pretty.
From S2P Require Import Prelude Mem OpSem Facts Types Engine Source Bytecode Contexts Builtins.
#[local] Open Scope string_scope.
#[local] Open Scope Z_scope.

Definition FIELD_CAP : nat := 16.
Definition GNAME_CAP : nat := 8.

Inductive FieldRecv := FR_Cls (c : ClassId) | FR_This | FR_Unknown.

#[export] Instance FieldRecv_eq_dec : EqDecision FieldRecv.
Proof. solve_decision. Defined.

Record Origin := mkOrigin { og_op : option JSOp; og_name : option NameId; og_num : option Z }.
Definition origin_default : Origin := mkOrigin None None None.

Record LocalEffects := mkLocalEffects {
  le_sum : EffectSummary;
  le_field_writes : list (FieldRecv * NameId);
  le_calls : list Site;
  le_accessor_reads : list Site;
  le_callee_origin : gmap Pc Origin }.

Definition local_default : LocalEffects := mkLocalEffects effect_default [] [] [] ∅.

(** Field updates of the summary. *)
Definition with_field_writes (s : EffectSummary) (l : list (option (Z * Z) * Z)) : EffectSummary :=
  mkEffectSummary (top s) (top_why s) l (gname_writes s) (elems_write s) (env_write s).
Definition with_gname_writes (s : EffectSummary) (l : list Z) : EffectSummary :=
  mkEffectSummary (top s) (top_why s) (field_writes s) l (elems_write s) (env_write s).
Definition with_elems (s : EffectSummary) (b : bool) : EffectSummary :=
  mkEffectSummary (top s) (top_why s) (field_writes s) (gname_writes s) b (env_write s).
Definition with_env (s : EffectSummary) (b : bool) : EffectSummary :=
  mkEffectSummary (top s) (top_why s) (field_writes s) (gname_writes s) (elems_write s) b.

(** ** The walk *)

Record EffectWalk := mkEffectWalk {
  ew_names : Names;
  ew_cur_pc : Pc;
  ew_stack : list Origin;
  ew_out : LocalEffects }.

Definition with_stack (w : EffectWalk) (s : list Origin) : EffectWalk :=
  mkEffectWalk (ew_names w) (ew_cur_pc w) s (ew_out w).
Definition with_out (w : EffectWalk) (o : LocalEffects) : EffectWalk :=
  mkEffectWalk (ew_names w) (ew_cur_pc w) (ew_stack w) o.
Definition walk_sum (w : EffectWalk) : EffectSummary := le_sum (ew_out w).
Definition with_sum (w : EffectWalk) (s : EffectSummary) : EffectWalk :=
  with_out w (mkLocalEffects s (le_field_writes (ew_out w)) (le_calls (ew_out w))
    (le_accessor_reads (ew_out w)) (le_callee_origin (ew_out w))).

(** A change of the top of the stack, if there is one. *)
Definition patch_top (w : EffectWalk) (f : Origin -> Origin) : EffectWalk :=
  match rev (ew_stack w) with
  | [] => w
  | t :: rest => with_stack w (rev rest ++ [f t])
  end.

Definition pop_push (w : EffectWalk) (op : JSOp) (nuses ndefs : Z) : EffectWalk :=
  let keep := (length (ew_stack w) - Z.to_nat nuses)%nat in
  with_stack w (take keep (ew_stack w) ++ replicate (Z.to_nat ndefs) (mkOrigin (Some op) None None)).

(** The element [k] below the end, if there is one. *)
Definition below (k : nat) (s : list Origin) : option Origin :=
  if (length s <? k)%nat then None else s !! (length s - k)%nat.

Definition sim_stack (w : EffectWalk) (pc : Pc) (op : JSOp) (nuses ndefs : Z) : EffectWalk :=
  let s := ew_stack w in
  match op with
  | J_Dup => with_stack w (s ++ [default origin_default (list.last s)])
  | J_Dup2 =>
      with_stack w (s ++ [default origin_default (below 2 s); default origin_default (list.last s)])
  | J_Swap =>
      match below 2 s, below 1 s with
      | Some a, Some b => with_stack w (take (length s - 2) s ++ [b; a])
      | _, _ => w
      end
  | J_DupAt => with_stack w (s ++ [origin_default])
  | J_Pick | J_Unpick => w
  | J_Call | J_CallContent | J_CallIgnoresRv | J_New | J_NewContent =>
      let callee := default origin_default (below (Z.to_nat nuses) s) in
      let o := ew_out w in
      pop_push (with_out w (mkLocalEffects (le_sum o) (le_field_writes o) (le_calls o) (le_accessor_reads o)
        (<[pc := callee]> (le_callee_origin o)))) op nuses ndefs
  | _ => pop_push w op nuses ndefs
  end.

Definition dup_at (w : EffectWalk) (n : Z) : EffectWalk :=
  let src := default origin_default (below (2 + Z.to_nat n) (ew_stack w)) in
  patch_top w (fun _ => src).

Definition pick (w : EffectWalk) (n : Z) : EffectWalk :=
  let s := ew_stack w in
  match below (1 + Z.to_nat n) s with
  | Some v => with_stack w (delete (length s - (1 + Z.to_nat n))%nat s ++ [v])
  | None => w
  end.

Definition unpick (w : EffectWalk) (n : Z) : EffectWalk :=
  let s := ew_stack w in
  match rev s with
  | [] => w
  | v :: rest =>
      if (length s <? 1 + Z.to_nat n)%nat then w
      else
        let i := (length s - (1 + Z.to_nat n))%nat in
        let s := rev rest in
        with_stack w (vec_insert (Nat.min i (length s)) v s)
  end.

(** The call-like ops the fold resolves. *)
Definition is_folded_call (op : JSOp) : bool :=
  match op with
  | J_Call | J_CallContent | J_CallIgnoresRv | J_New | J_NewContent => true
  | _ => false
  end.

(** What the methods with operands classify. *)
Definition has_method (op : JSOp) : bool :=
  match op with
  | J_SetProp | J_StrictSetProp | J_InitProp | J_InitHiddenProp | J_InitLockedProp | J_SetGName
  | J_StrictSetGName | J_InitGLexical | J_GetProp => true
  | _ => false
  end.

Definition writes_element (op : JSOp) : bool :=
  match op with
  | J_SetElem | J_StrictSetElem | J_InitElem | J_InitHiddenElem | J_InitLockedElem
  | J_InitElemArray | J_InitElemInc => true
  | _ => false
  end.

(** The known-benign set. *)
Definition is_benign (op : JSOp) : bool :=
  match op with
  | J_Undefined | J_Null | J_False | J_True | J_Int32 | J_Zero | J_One | J_Int8 | J_Uint16 | J_Uint24
  | J_Double | J_String | J_Symbol | J_Void | J_Typeof | J_TypeofExpr | J_TypeofEq | J_Pos | J_Neg
  | J_BitNot | J_Not | J_BitOr | J_BitXor | J_BitAnd | J_Eq | J_Ne | J_StrictEq | J_StrictNe
  | J_StrictConstantEq | J_StrictConstantNe | J_Lt | J_Gt | J_Le | J_Ge | J_Instanceof | J_In | J_Lsh
  | J_Rsh | J_Ursh | J_Add | J_Sub | J_Inc | J_Dec | J_Mul | J_Div | J_Mod | J_Pow | J_NopIsAssignOp
  | J_ToPropertyKey | J_ToNumeric | J_ToString | J_IsNullOrUndefined | J_GlobalThis | J_GetElem
  | J_HasOwn | J_CheckIsObj | J_CheckObjCoercible | J_JumpTarget | J_LoopHead | J_Goto
  | J_JumpIfFalse | J_JumpIfTrue | J_And | J_Or | J_Coalesce | J_Case | J_Default | J_TableSwitch
  | J_Return | J_GetRval | J_SetRval | J_RetRval | J_CheckReturn | J_Throw | J_ThrowMsg
  | J_Uninitialized | J_InitLexical | J_CheckLexical | J_CheckAliasedLexical | J_CheckThis
  | J_GetGName | J_GetArg | J_GetFrameArg | J_GetLocal | J_ArgumentsLength | J_GetActualArg
  | J_GetAliasedVar | J_GetIntrinsic | J_Callee | J_SetArg | J_SetLocal | J_FunctionThis | J_Pop
  | J_PopN | J_Dup | J_Dup2 | J_DupAt | J_Swap | J_Pick | J_Unpick | J_Nop | J_Lineno
  | J_NopDestructuring | J_NewInit | J_NewObject | J_NewArray | J_Arguments | J_IsConstructing
  | J_Try | J_Exception | J_Finally | J_Lambda | J_DebugLeaveLexicalEnv | J_BindUnqualifiedGName => true
  | _ => false
  end.

Section Walk.
(** The name an opcode prints as: the generated type's [Debug]. *)
Context (debug_op : JSOp -> string).
Context (sid : ScriptId) (script : Script) (source : Source).
Context (recv_class : gmap Site (Agreed ClassId)) (this_writes : gset Site) (accessor_names : gset NameId).

Definition atom_id (w : EffectWalk) (index : Z) : res (EffectWalk * option NameId) :=
  match sc_gcthings script !! Z.to_nat index with
  | None => Ok (w, None)
  | Some gc =>
      if is_other gc then Ok (w, None)
      else
        o ← object source gc;
        match o with
        | SString chars =>
            match intern (ew_names w) chars with
            | Some (names, id) =>
                Ok (mkEffectWalk names (ew_cur_pc w) (ew_stack w) (ew_out w), Some (Z.of_nat id))
            | None => Panic PIdSpace
            end
        | _ => Ok (w, None)
        end
  end.

Definition patch_top_name (w : EffectWalk) (name_index : Z) : res EffectWalk :=
  '(w, name) ← atom_id w name_index;
  Ok (patch_top w (fun t => mkOrigin (og_op t) name (og_num t))).

Definition patch_top_num (w : EffectWalk) (n : Z) : EffectWalk :=
  patch_top w (fun t => mkOrigin (og_op t) (og_name t) (Some n)).

Definition prop_write (w : EffectWalk) (name_index : Z) : res EffectWalk :=
  if top (walk_sum w) then Ok w
  else
    '(w, name) ← atom_id w name_index;
    match name with
    | None => Ok (with_sum w (saturate (walk_sum w) "prop-name"))
    | Some name =>
        let site := (sid, ew_cur_pc w) in
        let cls :=
          match recv_class !! site ≫= agreed_get with
          | Some c => FR_Cls c
          | None => if bool_decide (site ∈ this_writes) then FR_This else FR_Unknown
          end in
        let o := ew_out w in
        if bool_decide ((cls, name) ∈ le_field_writes o) then Ok w
        else if (FIELD_CAP <=? length (le_field_writes o))%nat
        then Ok (with_sum w (saturate (walk_sum w) "field-cap"))
        else Ok (with_out w (mkLocalEffects (le_sum o) (le_field_writes o ++ [(cls, name)]) (le_calls o)
               (le_accessor_reads o) (le_callee_origin o)))
    end.

Definition gname_write (w : EffectWalk) (name_index : Z) : res EffectWalk :=
  if top (walk_sum w) then Ok w
  else
    '(w, name) ← atom_id w name_index;
    let s := walk_sum w in
    match name with
    | None => Ok (with_sum w (saturate s "gname-name"))
    | Some name =>
        if bool_decide (name ∈ gname_writes s) then Ok w
        else if (GNAME_CAP <=? length (gname_writes s))%nat then Ok (with_sum w (saturate s "gname-cap"))
        else Ok (with_sum w (with_gname_writes s (gname_writes s ++ [name])))
    end.

Definition before_op (pc : Pc) (op : JSOp) (nuses ndefs : Z) (w : EffectWalk) : EffectWalk :=
  let w := mkEffectWalk (ew_names w) pc (ew_stack w) (ew_out w) in
  let w := sim_stack w pc op nuses ndefs in
  let s := walk_sum w in
  if top s then w
  else if has_method op then w
  else if writes_element op then with_sum w (with_elems s true)
  else match op with
       | J_SetAliasedVar => with_sum w (with_env s true)
       | _ =>
           if is_folded_call op then
             let o := ew_out w in
             with_out w (mkLocalEffects (le_sum o) (le_field_writes o) (le_calls o ++ [(sid, pc)])
               (le_accessor_reads o) (le_callee_origin o))
           else if is_benign op then w
           else with_sum w (saturate s (debug_op op))
       end.

Definition get_prop (w : EffectWalk) (name_index : Z) : res EffectWalk :=
  w ← patch_top_name w name_index;
  if top (walk_sum w) then Ok w
  else
    '(w, name) ← atom_id w name_index;
    match name with
    | Some name =>
        if bool_decide (name ∈ accessor_names) then
          let o := ew_out w in
          Ok (with_out w (mkLocalEffects (le_sum o) (le_field_writes o) (le_calls o)
                (le_accessor_reads o ++ [(sid, ew_cur_pc w)]) (le_callee_origin o)))
        else Ok w
    | None => Ok w
    end.

(** The visitor's methods; the others do nothing. *)
Definition effect_call (c : OpCall) (w : EffectWalk) : res EffectWalk :=
  match c with
  | V_set_prop i | V_strict_set_prop i | V_init_prop i | V_init_hidden_prop i | V_init_locked_prop i =>
      prop_write w i
  | V_set_g_name i | V_strict_set_g_name i | V_init_g_lexical i => gname_write w i
  | V_get_prop i => get_prop w i
  | V_get_g_name i | V_get_intrinsic i => patch_top_name w i
  | V_get_arg n | V_get_frame_arg n | V_get_local n => Ok (patch_top_num w n)
  | V_get_aliased_var _ slot => Ok (patch_top_num w slot)
  | V_dup_at n => Ok (dup_at w n)
  | V_pick n => Ok (pick w n)
  | V_unpick n => Ok (unpick w n)
  | _ => Ok w
  end.

(** The local walk of one script. *)
Definition walk_script (T : OpTable) (names : Names) : res EffectWalk :=
  let walk := mkEffectWalk names 0 [] local_default in
  if sc_is_generator_or_async script then Ok (with_sum walk (saturate effect_default "generator"))
  else
    r ← visit T (fun pc op nuses ndefs r => w ← r; Ok (before_op pc op nuses ndefs w)) (fun _ _ r => r)
          (fun c r => r ≫= effect_call c) (parser script) (Ok walk);
    r.
End Walk.

(** ** Diagnostics *)

(** [String::from_utf16_lossy]: an unpaired surrogate is U+FFFD. *)
Definition is_high (u : Z) : bool := (0xD800 <=? u) && (u <? 0xDC00).
Definition is_low (u : Z) : bool := (0xDC00 <=? u) && (u <? 0xE000).

Fixpoint code_points (u : list Z) : list Z :=
  match u with
  | [] => []
  | h :: rest =>
      if is_high h then
        match rest with
        | l :: rest' =>
            if is_low l then (0x10000 + Z.shiftl (h - 0xD800) 10 + (l - 0xDC00)) :: code_points rest'
            else 0xFFFD :: code_points rest
        | [] => [0xFFFD]
        end
      else (if is_low h then 0xFFFD else h) :: code_points rest
  end.

Definition utf8_bytes (c : Z) : list Z :=
  let tail k := Z.lor 0x80 (Z.land (Z.shiftr c k) 0x3F) in
  if c <? 0x80 then [c]
  else if c <? 0x800 then [Z.lor 0xC0 (Z.shiftr c 6); tail 0]
  else if c <? 0x10000 then [Z.lor 0xE0 (Z.shiftr c 12); tail 6; tail 0]
  else [Z.lor 0xF0 (Z.shiftr c 18); tail 12; tail 6; tail 0].

Definition utf16_lossy (u : list Z) : string :=
  string_of_list_ascii ((fun b => ascii_of_nat (Z.to_nat b)) <$> mjoin (utf8_bytes <$> code_points u)).

(** ** Resolution *)

(** [GroupId]: a constructor's group, or a class of its own. *)
Definition CTOR_TAG : Z := Z.shiftl 1 32.
Definition of_ctor (f : ScriptId) : Z := Z.lor CTOR_TAG f.
Definition of_class (c : ClassId) : Z := Z.of_nat c.

(** What the summaries read of the solver's state, the layout plan and the
    facts. *)
Record EffectInputs := mkEffectInputs {
  ei_source : Source;
  ei_engine : Engine;
  ei_names : Names;
  ei_natives : Natives;
  ei_recv_class : gmap Site (Agreed ClassId);
  ei_class_ctor : list (option ScriptId);
  ei_group_range : gmap Z (Z * Z);
  ei_site_calls : gmap Site BoundedFnSet;
  ei_site_native : gmap Site (Agreed FnId);
  ei_site_apply : gmap Site (BoundedFnSet * CallForm);
  ei_site_ctor_native : gmap Site (Agreed FnId);
  ei_accessor_names : gset NameId;
  ei_this_layouts : gmap ScriptId (Z * Z);
  ei_call_sites : gmap Site CallResolution }.

Section Resolve.
Context (debug_op : JSOp -> string) (I : EffectInputs).

Definition origin_str (names : Names) (o : Origin) : res string :=
  match og_op o with
  | None => Ok "?"
  | Some op =>
      let s := debug_op op in
      match og_name o, og_num o with
      | Some n, _ =>
          match name_get names (Z.to_nat n) with
          | Some chars => Ok (s +:+ ":" +:+ utf16_lossy chars)
          | None => Panic PSlice
          end
      | None, Some i => Ok (s +:+ ":" +:+ pretty i)
      | None, None => Ok s
      end
  end.

Definition native_summary (effect : NativeEffect) (sum : EffectSummary) : EffectSummary :=
  match effect with
  | NE_Pure => sum
  | NE_Elems => with_elems sum true
  | NE_Top => saturate sum "native"
  end.

Definition add_dep (deps : list ScriptId) (s : ScriptId) : list ScriptId :=
  if bool_decide (s ∈ deps) then deps else deps ++ [s].

(** The dependencies and the summary under construction. *)
Abbreviation Fold := (list ScriptId * EffectSummary)%type.

Definition fold_fn (names : Names) (f : FnId) (acc : Fold) : res Fold :=
  let '(deps, sum) := acc in
  match as_script f with
  | Some s => Ok (add_dep deps s, sum)
  | None =>
      match natives_get (ei_natives I) f with
      | Some info =>
          match name_get names (Z.to_nat (ni_name info)) with
          | Some chars =>
              Ok (deps, native_summary
                (native_effect (ni_kind info) chars (bool_decide (is_Some (ni_result info)))) sum)
          | None => Panic PSlice
          end
      | None =>
          if (f =? ARRAY_CTOR) || bool_decide (is_Some (typed_array_kind f)) then Ok acc
          else Ok (deps, saturate sum "callable")
      end
  end.

Fixpoint fold_fns (names : Names) (fs : list FnId) (acc : Fold) : res Fold :=
  match fs with
  | [] => Ok acc
  | f :: fs => acc ← fold_fn names f acc; fold_fns names fs acc
  end.

(** The sites of the constraints of one kind, with the script each was
    generated for. *)
Definition con_sites (f : Constraint -> option Pc) : gset Site :=
  list_to_set (omap (fun '(c, s) => pair s <$> f c) (zip (cons (ei_engine I)) (con_script (ei_engine I)))).

Definition this_writes : gset Site :=
  con_sites (fun c => match c with CWrite CThis _ _ pc => Some pc | _ => None end).
Definition elem_sites : gset Site :=
  con_sites (fun c => match c with CElemBuiltin _ _ _ pc _ => Some pc | _ => None end).
Definition alloc_call_sites : gset Site :=
  con_sites (fun c => match c with CAlloc _ pc _ => Some pc | _ => None end).

Definition call_origin (local : LocalEffects) (site : Site) : Origin :=
  default origin_default (le_callee_origin local !! snd site).

(** One call site. *)
Definition fold_call (names : Names) (local : LocalEffects) (site : Site) (acc : Fold) : res Fold :=
  let '(deps, sum) := acc in
  if top sum then Ok acc
  else
    let scripted :=
      match ei_site_calls I !! site with
      | Some f => if multi f || negb (bool_decide (Types.ids f = [])) then Some f else None
      | None => None
      end in
    '(deps, sum) ←
      match scripted with
      | Some fns =>
          if multi fns then Ok (deps, saturate sum ("multi@" +:+ pretty (snd site)))
          else fold_fns names (Types.ids fns) acc
      | None =>
          match ei_site_native I !! site ≫= agreed_get with
          | Some f => fold_fn names f acc
          | None =>
              match ei_site_apply I !! site with
              | Some (fns, _) =>
                  if multi fns || bool_decide (Types.ids fns = [])
                  then Ok (deps, saturate sum ("multi-apply@" +:+ pretty (snd site)))
                  else fold_fns names (Types.ids fns) acc
              | None =>
                  match ei_site_ctor_native I !! site ≫= agreed_get with
                  | Some f => fold_fn names f acc
                  | None =>
                      if bool_decide (site ∈ elem_sites) then Ok acc
                      else if bool_decide (site ∈ alloc_call_sites) then Ok acc
                      else
                        s ← origin_str names (call_origin local site);
                        let why :=
                          if bool_decide (is_Some (ei_site_calls I !! site)) || bool_decide (is_Some (ei_site_native I !! site))
                          then "empty@" else "uncensused@" in
                        Ok (deps, saturate sum (why +:+ pretty (snd site) +:+ "(" +:+ s +:+ ")"))
                  end
              end
          end
      end;
    Ok (deps, if bool_decide (site ∈ elem_sites) then with_elems sum true else sum).

Fixpoint fold_calls (names : Names) (local : LocalEffects) (sites : list Site) (acc : Fold) : res Fold :=
  match sites with
  | [] => Ok acc
  | s :: sites => acc ← fold_call names local s acc; fold_calls names local sites acc
  end.

Definition fold_accessor (acc : Fold) (site : Site) : Fold :=
  let '(deps, sum) := acc in
  if top sum then acc
  else
    match ei_call_sites I !! site with
    | Some (CR_Scripted targets) =>
        if bool_decide (targets = []) then (deps, saturate sum "accessor")
        else (fold_left add_dep targets deps, sum)
    | _ => (deps, saturate sum "accessor")
    end.

(** The planned key range of a receiver. *)
Definition recv_range (sid : ScriptId) (r : FieldRecv) : res (option (Z * Z)) :=
  match r with
  | FR_Cls c =>
      match ei_class_ctor I !! c with
      | Some (Some f) => Ok (ei_group_range I !! of_ctor f)
      | Some None => Ok (ei_group_range I !! of_class c)
      | None => Panic PSlice
      end
  | FR_This => Ok (ei_this_layouts I !! sid)
  | FR_Unknown => Ok None
  end.

Fixpoint map_writes (sid : ScriptId) (l : list (FieldRecv * NameId)) (sum : EffectSummary) : res EffectSummary :=
  match l with
  | [] => Ok sum
  | (r, name) :: l =>
      range ← recv_range sid r;
      map_writes sid l (with_field_writes sum (field_writes sum ++ [(range, name)]))
  end.

(** The script's own summary and the scripts it depends on. *)
Definition resolve_script (names : Names) (sid : ScriptId) (local : LocalEffects) : res (EffectSummary * list ScriptId) :=
  sum ← map_writes sid (le_field_writes local) (le_sum local);
  acc ← fold_calls names local (le_calls local) ([], sum);
  let '(deps, sum) := fold_left fold_accessor (le_accessor_reads local) acc in
  Ok (sum, deps).
End Resolve.

(** ** The summaries *)

(** [for x in src { if !dst.contains(x) { if full { return } dst.push(x) } }]:
    the flag is the early return. *)
Fixpoint join_writes {A} `{EqDecision A} (cap : nat) (dst src : list A) : list A * bool :=
  match src with
  | [] => (dst, false)
  | x :: src =>
      if bool_decide (x ∈ dst) then join_writes cap dst src
      else if (cap <=? length dst)%nat then (dst, true)
      else join_writes cap (dst ++ [x]) src
  end.

Definition join_into (dst src : EffectSummary) : EffectSummary :=
  if top src then saturate dst ("dep:" +:+ default "?" (top_why src))
  else
    let '(fw, hit) := join_writes FIELD_CAP (field_writes dst) (field_writes src) in
    let dst := with_field_writes dst fw in
    if hit : bool then saturate dst "field-cap"
    else
      let '(gw, hit) := join_writes GNAME_CAP (gname_writes dst) (gname_writes src) in
      let dst := with_gname_writes dst gw in
      if hit : bool then saturate dst "gname-cap"
      else with_env (with_elems dst (elems_write dst || elems_write src)) (env_write dst || env_write src).

Fixpoint join_deps (summaries : gmap ScriptId EffectSummary) (deps : list ScriptId) (joined : EffectSummary)
    : EffectSummary :=
  match deps with
  | [] => joined
  | d :: deps =>
      if top joined then joined
      else
        match summaries !! d with
        | None => saturate joined "dep-missing"
        | Some ds => join_deps summaries deps (join_into joined ds)
        end
  end.

Section Transitive.
Context (local : gmap ScriptId EffectSummary) (deps : gmap ScriptId (list ScriptId)).

Definition joined_of (summaries : gmap ScriptId EffectSummary) (sid : ScriptId) : EffectSummary :=
  join_deps summaries (default [] (deps !! sid)) (default effect_default (local !! sid)).

(** [rev]: the scripts that depend on each. *)
Definition rev_deps (sids : list ScriptId) : gmap ScriptId (list ScriptId) :=
  fold_left (fun m sid =>
      fold_left (fun m d => <[d := (default [] (m !! d) ++ [sid])%list]> m) (default [] (deps !! sid)) m)
    sids (∅ : gmap ScriptId (list ScriptId)).

(** The stack, its top first, with the set of its members. *)
Definition push_work (acc : list ScriptId * gset ScriptId) (c : ScriptId) : list ScriptId * gset ScriptId :=
  let '(work, queued) := acc in
  if bool_decide (c ∈ queued) then acc else (c :: work, {[c]} ∪ queued).

Fixpoint effect_loop (fuel : nat) (rev : gmap ScriptId (list ScriptId)) (work : list ScriptId)
    (queued : gset ScriptId) (summaries : gmap ScriptId EffectSummary) : res (gmap ScriptId EffectSummary) :=
  match work with
  | [] => Ok summaries
  | sid :: work =>
      match fuel with
      | O => OutOfFuel
      | S fuel =>
          let queued := queued ∖ {[sid]} in
          let joined := joined_of summaries sid in
          match summaries !! sid with
          | None => Panic PSlice
          | Some cur =>
              if negb (effect_eqb cur joined) then
                let '(work, queued) := fold_left push_work (default [] (rev !! sid)) (work, queued) in
                effect_loop fuel rev work queued (<[sid := joined]> summaries)
              else effect_loop fuel rev work queued summaries
          end
      end
  end.
End Transitive.

(** The ids of the scripts, in order. *)
Definition script_ids (s : Source) : list ScriptId :=
  omap (fun '(i, o) => match o with SScript _ => Some (Z.of_nat i) | _ => None end)
    (imap pair (src_objects s)).

Section Emit.
Context (debug_op : JSOp -> string) (T : OpTable) (I : EffectInputs).

(** The walks of all scripts, one after the other: they share the names. *)
Fixpoint walk_all (sids : list ScriptId) (names : Names) (locals : gmap ScriptId LocalEffects)
    : res (Names * gmap ScriptId LocalEffects) :=
  match sids with
  | [] => Ok (names, locals)
  | sid :: sids =>
      o ← object (ei_source I) sid;
      match o with
      | SScript script =>
          w ← walk_script debug_op sid script (ei_source I) (ei_recv_class I) (this_writes I)
                (ei_accessor_names I) T names;
          walk_all sids (ew_names w) (<[sid := ew_out w]> locals)
      | _ => walk_all sids names locals
      end
  end.

Fixpoint resolve_all (names : Names) (locals : gmap ScriptId LocalEffects) (sids : list ScriptId)
    (sums : gmap ScriptId EffectSummary) (deps : gmap ScriptId (list ScriptId))
    : res (gmap ScriptId EffectSummary * gmap ScriptId (list ScriptId)) :=
  match sids with
  | [] => Ok (sums, deps)
  | sid :: sids =>
      match locals !! sid with
      | None => Panic PUnwrap
      | Some local =>
          '(sum, dep_list) ← resolve_script debug_op I names sid local;
          resolve_all names locals sids (<[sid := sum]> sums) (<[sid := dep_list]> deps)
      end
  end.

Definition emit_effect_summaries (fuel : nat) : res (Names * gmap ScriptId EffectSummary) :=
  let sids := script_ids (ei_source I) in
  '(names, locals) ← walk_all sids (ei_names I) ∅;
  '(local, deps) ← resolve_all names locals sids ∅ ∅;
  sums ← effect_loop local deps fuel (rev_deps deps sids) (rev sids) (list_to_set sids) local;
  Ok (names, sums).
End Emit.
