(* ===== verification/EffectJoin.v ===== *)
(** * EffectJoin: what joining the summaries of the callees computes

    The join of a script's own summary with those of its dependencies: as a
    set it is the union, unless something saturates; its order is copied, pair
    by pair, from the first dependency that has either element. *)

From stdpp Require Import strings.
From S2P Require Import Prelude Mem Facts Effects.

(** ** Which of two elements a list has first *)

Section Before.
Context {A : Type} `{EqDecision A}.

Fixpoint bef (l : list A) (x y : A) : bool :=
  match l with
  | [] => false
  | a :: l => if bool_decide (a = y) then false else if bool_decide (a = x) then true else bef l x y
  end.

Lemma bef_app_l (l k : list A) (x y : A) : x ∈ l \/ y ∈ l -> bef (l ++ k) x y = bef l x y.
Proof.
  induction l as [|a l IH]; intros H; [destruct H as [H|H]; by apply elem_of_nil in H|].
  cbn [bef app]. case_bool_decide as H1; [done|]. case_bool_decide as H2; [done|]. apply IH.
  rewrite !elem_of_cons in H. destruct H as [[->|H]|[->|H]]; (by left) || (by right) || done.
Qed.

Lemma bef_app_r (l k : list A) (x y : A) : x ∉ l -> y ∉ l -> bef (l ++ k) x y = bef k x y.
Proof.
  induction l as [|a l IH]; intros H1 H2; [done|]. rewrite not_elem_of_cons in H1, H2.
  cbn [bef app]. rewrite !bool_decide_false by naive_solver. apply IH; tauto.
Qed.

(** The order of a list without duplicates determines it. *)
Lemma bef_ext (l k : list A) :
  NoDup l -> NoDup k -> (forall x, x ∈ l <-> x ∈ k) -> (forall x y, x ∈ l -> y ∈ l -> bef l x y = bef k x y) -> l = k.
Proof.
  revert k. induction l as [|a l IH]; intros [|b k] Hl Hk Hs Ho; [done| | |].
  - exfalso. by apply (elem_of_nil b), Hs, elem_of_cons; left.
  - exfalso. by apply (elem_of_nil a), Hs, elem_of_cons; left.
  - apply list.NoDup_cons in Hl as [Ha Hl]. apply list.NoDup_cons in Hk as [Hb Hk].
    assert (a = b) as <-.
    { destruct (decide (a = b)) as [|Hne]; [done|exfalso].
      assert (b ∈ a :: l) as Hin by (apply Hs; left). specialize (Ho b a Hin (list_elem_of_here a l)).
      cbn [bef] in Ho. rewrite (bool_decide_true (a = a)) in Ho by done.
      rewrite (bool_decide_false (b = a)), (bool_decide_true (b = b)) in Ho by done. done. }
    f_equal. apply IH; [done|done| |].
    + intros x. specialize (Hs x). rewrite !elem_of_cons in Hs. split; intros Hx.
      * destruct (proj1 Hs (or_intror Hx)) as [->|]; [by destruct Ha|done].
      * destruct (proj2 Hs (or_intror Hx)) as [->|]; [by destruct Hb|done].
    + intros x y Hx Hy. specialize (Ho x y). cbn [bef] in Ho.
      rewrite !(bool_decide_false (a = _)) in Ho by (intros ->; done). apply Ho; by right.
Qed.

(** ** Joining one list into another *)

(** What may be added to [L] within a cap. *)
Definition fits (cap : nat) (L : list A) `{Countable A} (X : gset A) : Prop :=
  X ⊆ list_to_set L \/ (length L + size (X ∖ list_to_set L) <= cap)%nat.

Context `{Countable A}.

(** A list that started as [L] and only grew within the cap. *)
Record grown (cap : nat) (L l : list A) : Prop := {
  gr_prefix : exists r, l = L ++ r /\ NoDup r /\ (forall x, x ∈ r -> x ∉ L) /\ (r = [] \/ (length l <= cap)%nat) }.

Lemma grown_refl (cap : nat) (L : list A) : grown cap L L.
Proof. split. exists []. rewrite app_nil_r. split_and!; [done|constructor|intros x Hx; by apply elem_of_nil in Hx|by left]. Qed.

Lemma grown_fits (cap : nat) (L l : list A) : grown cap L l -> fits cap L (list_to_set l).
Proof.
  intros [(r & -> & Hnd & Hd & Hc)]. destruct Hc as [->|Hc]; [left; rewrite app_nil_r; done|right].
  assert ((list_to_set (L ++ r) : gset A) ∖ list_to_set L = list_to_set r) as ->.
  { apply set_eq. intros x. rewrite elem_of_difference, !elem_of_list_to_set, elem_of_app. specialize (Hd x). tauto. }
  rewrite size_list_to_set by done. rewrite length_app in Hc. done.
Qed.

Lemma fits_mono (cap : nat) (L : list A) (X Y : gset A) : X ⊆ Y -> fits cap L Y -> fits cap L X.
Proof.
  intros Hs [Hf|Hf]; [left; set_solver|right].
  assert (X ∖ list_to_set L ⊆ Y ∖ list_to_set L) as Hsub%subseteq_size by set_solver. lia.
Qed.

(** Appending one new element. *)
Lemma grown_snoc (cap : nat) (L l : list A) (x : A) :
  grown cap L l -> x ∉ l -> (length l < cap)%nat -> grown cap L (l ++ [x]).
Proof.
  intros [(r & -> & Hnd & Hd & _)] Hx Hc. split. exists (r ++ [x]). rewrite app_assoc. split_and!; [done| | |].
  - apply list.NoDup_app. split_and!; [done| |apply NoDup_singleton].
    intros y Hy ->%list_elem_of_singleton. apply Hx, elem_of_app. by right.
  - intros y [Hy| ->%list_elem_of_singleton]%elem_of_app; [by apply Hd|]. intros Hl. apply Hx, elem_of_app. by left.
  - right. rewrite length_app. cbn. lia.
Qed.

Lemma join_writes_spec (cap : nat) (L dst src : list A) :
  grown cap L dst ->
  let '(l, hit) := join_writes cap dst src in
  (hit = false <-> fits cap L (list_to_set dst ∪ list_to_set src)) /\
  (hit = false -> grown cap L l /\ (forall x, x ∈ l <-> x ∈ dst \/ x ∈ src) /\
    forall x y, bef l x y = if bool_decide (x ∈ dst \/ y ∈ dst) then bef dst x y else bef src x y).
Proof.
  revert dst. induction src as [|a src IH]; intros dst Hg; cbn [join_writes].
  { split; [split; [intros _|done]|intros _; split_and!; [done| |]].
    - apply (fits_mono _ _ _ (list_to_set dst)); [set_solver|by apply grown_fits].
    - intros x. rewrite elem_of_nil. tauto.
    - intros x y. case_bool_decide as Hin; [done|]. rewrite <- (app_nil_r dst). apply bef_app_r; tauto. }
  case_bool_decide as Ha.
  { specialize (IH dst Hg). destruct (join_writes cap dst src) as [l hit]. destruct IH as [I1 I2]. split.
    - rewrite I1. replace (list_to_set dst ∪ list_to_set (a :: src) : gset A) with (list_to_set dst ∪ list_to_set src : gset A); [done|].
      set_solver.
    - intros Hh. destruct (I2 Hh) as (J1 & J2 & J3). split_and!; [done| |].
      + intros x. rewrite J2, elem_of_cons. split; [tauto|intros [?|[->|?]]; tauto].
      + intros x y. rewrite J3. case_bool_decide as Hin; [done|]. cbn [bef]. rewrite !bool_decide_false by naive_solver. done. }
  destruct (Nat.leb_spec cap (length dst)) as [Hc|Hc].
  { split; [split; [done|]|done]. intros Hf. exfalso. destruct Hg as [(r & -> & Hnd & Hd & Hr)].
    assert (a ∉ L) as HaL by (intros ?; apply Ha, elem_of_app; by left).
    destruct Hf as [Hf|Hf]; [apply HaL; apply (elem_of_list_to_set (C:=gset A)), Hf; set_solver|].
    assert (size (list_to_set (a :: r) : gset A) = S (length r)) as E.
    { rewrite size_list_to_set; [done|]. constructor; [|done]. intros ?. apply Ha, elem_of_app. by right. }
    assert ((list_to_set (a :: r) : gset A) ⊆ (list_to_set (L ++ r) ∪ list_to_set (a :: src)) ∖ list_to_set L) as Hs%subseteq_size.
    { set_solver. }
    rewrite length_app in Hc. rewrite E in Hs. lia. }
  specialize (IH (dst ++ [a]) (grown_snoc _ _ _ _ Hg Ha Hc)). destruct (join_writes cap (dst ++ [a]) src) as [l hit].
  destruct IH as [I1 I2]. split.
  - rewrite I1. replace (list_to_set (dst ++ [a]) ∪ list_to_set src : gset A) with (list_to_set dst ∪ list_to_set (a :: src) : gset A); [done|].
    set_solver.
  - intros Hh. destruct (I2 Hh) as (J1 & J2 & J3). split_and!; [done| |].
    + intros x. rewrite J2, elem_of_app, !elem_of_cons, elem_of_nil. tauto.
    + intros x y. rewrite J3. destruct (decide (x ∈ dst \/ y ∈ dst)) as [Hin|Hin].
      { rewrite !bool_decide_true by (rewrite ?elem_of_app; tauto). by apply bef_app_l. }
      rewrite (bool_decide_false (x ∈ dst \/ y ∈ dst)) by done. rewrite bef_app_r by tauto. cbn [bef].
      destruct (decide (a = y)) as [->|Hy]; [rewrite !(bool_decide_true (y = y)) by done|rewrite !(bool_decide_false (a = y)) by done].
      { rewrite bool_decide_true; [done|]. right. apply elem_of_app. right. by apply list_elem_of_singleton. }
      destruct (decide (a = x)) as [->|Hx]; [rewrite !(bool_decide_true (x = x)) by done|rewrite !(bool_decide_false (a = x)) by done].
      { rewrite bool_decide_true; [done|]. left. apply elem_of_app. right. by apply list_elem_of_singleton. }
      rewrite bool_decide_false; [done|]. rewrite !elem_of_app, !list_elem_of_singleton. naive_solver.
Qed.
End Before.

(** ** Joining one summary into another *)

Abbreviation Field := (option (Z * Z) * Z)%type.

Definition field_set (s : EffectSummary) : gset Field := list_to_set (field_writes s).
Definition gname_set (s : EffectSummary) : gset Z := list_to_set (gname_writes s).

(** A summary that started as [loc]. *)
Record shaped (loc s : EffectSummary) : Prop := {
  sh_fields : grown FIELD_CAP (field_writes loc) (field_writes s);
  sh_gnames : grown GNAME_CAP (gname_writes loc) (gname_writes s) }.

Lemma shaped_refl (loc : EffectSummary) : shaped loc loc.
Proof. split; apply grown_refl. Qed.

Lemma top_saturate (s : EffectSummary) (w : string) : top (saturate s w) = true.
Proof. unfold saturate. destruct (top s) eqn:E; [done|reflexivity]. Qed.

Definition fits_fields (loc : EffectSummary) (X : gset Field) : Prop := fits FIELD_CAP (field_writes loc) X.
Definition fits_gnames (loc : EffectSummary) (X : gset Z) : Prop := fits GNAME_CAP (gname_writes loc) X.

(** The result of a join that does not saturate. *)
Record joined (dst src r : EffectSummary) : Prop := {
  jn_fields : field_set r = field_set dst ∪ field_set src;
  jn_gnames : gname_set r = gname_set dst ∪ gname_set src;
  jn_elems : elems_write r = elems_write dst || elems_write src;
  jn_env : env_write r = env_write dst || env_write src;
  jn_bef_fields : forall x y, bef (field_writes r) x y =
    if bool_decide (x ∈ field_writes dst \/ y ∈ field_writes dst) then bef (field_writes dst) x y else bef (field_writes src) x y;
  jn_bef_gnames : forall x y, bef (gname_writes r) x y =
    if bool_decide (x ∈ gname_writes dst \/ y ∈ gname_writes dst) then bef (gname_writes dst) x y else bef (gname_writes src) x y }.

Lemma join_into_spec (loc dst src : EffectSummary) :
  shaped loc dst -> top dst = false ->
  (top (join_into dst src) = false <->
    top src = false /\ fits_fields loc (field_set dst ∪ field_set src) /\ fits_gnames loc (gname_set dst ∪ gname_set src)) /\
  (top (join_into dst src) = false -> shaped loc (join_into dst src) /\ joined dst src (join_into dst src)).
Proof.
  intros [S1 S2] Ht. unfold join_into. destruct (top src); [rewrite top_saturate; split; [split; [done|by intros (? & _)]|done]|].
  pose proof (join_writes_spec FIELD_CAP _ _ (field_writes src) S1) as HF.
  destruct (join_writes FIELD_CAP _ _) as [fw hit] eqn:EF. destruct HF as [F1 F2]. cbv zeta. destruct hit.
  { rewrite top_saturate. split; [|done]. split; [done|]. intros (_ & H & _). by apply F1 in H. }
  pose proof (join_writes_spec GNAME_CAP _ _ (gname_writes src) S2) as HG. cbn [gname_writes with_field_writes].
  destruct (join_writes GNAME_CAP _ _) as [gw hit] eqn:EG. destruct HG as [G1 G2]. destruct hit.
  { rewrite top_saturate. split; [|done]. split; [done|]. intros (_ & _ & H). by apply G1 in H. }
  destruct (F2 eq_refl) as (F3 & F4 & F5). destruct (G2 eq_refl) as (G3 & G4 & G5).
  cbn [top with_env with_elems with_gname_writes with_field_writes]. rewrite Ht. split.
  { split; [|done]. intros _. split_and!; [done|by apply F1|by apply G1]. }
  intros _. split; [by split|]. split; cbn [field_writes gname_writes elems_write env_write with_env with_elems with_gname_writes with_field_writes field_set gname_set].
  - apply set_eq. intros x. unfold field_set. cbn [field_writes]. rewrite elem_of_union, !elem_of_list_to_set. apply F4.
  - apply set_eq. intros x. unfold gname_set. cbn [gname_writes]. rewrite elem_of_union, !elem_of_list_to_set. apply G4.
  - done.
  - done.
  - exact F5.
  - exact G5.
Qed.

(** ** Joining the dependencies *)

Section Deps.
Context (v : gmap Z EffectSummary).

(** The sets of a dependency and of a list of them. *)
Definition fields_at (d : Z) : gset Field := from_option field_set ∅ (v !! d).
Definition gnames_at (d : Z) : gset Z := from_option gname_set ∅ (v !! d).
Definition dep_fields (deps : list Z) : gset Field := ⋃ (fields_at <$> deps).
Definition dep_gnames (deps : list Z) : gset Z := ⋃ (gnames_at <$> deps).
Definition flag_at (f : EffectSummary -> bool) (d : Z) : bool := from_option f false (v !! d).

Definition open_at (d : Z) : Prop := exists s, v !! d = Some s /\ top s = false.

(** Where the order of two fields comes from: a constant, or a dependency. *)
Fixpoint dep_source {A} (at_ : Z -> A -> bool) (deps : list Z) (x y : A) : bool + Z :=
  match deps with
  | [] => inl false
  | d :: deps =>
      match at_ d x, at_ d y with
      | true, true => inr d
      | true, false => inl true
      | false, true => inl false
      | false, false => dep_source at_ deps x y
      end
  end.

Definition field_at (d : Z) (x : Field) : bool := bool_decide (x ∈ fields_at d).
Definition gname_at (d : Z) (x : Z) : bool := bool_decide (x ∈ gnames_at d).

Definition eval_source {A} `{EqDecision A} (get : EffectSummary -> list A) (s : bool + Z) (x y : A) : bool :=
  match s with
  | inl b => b
  | inr d => bef (from_option get [] (v !! d)) x y
  end.

Lemma bef_absent_l {A} `{EqDecision A} (l : list A) (x y : A) : x ∉ l -> bef l x y = false.
Proof.
  induction l as [|a l IH]; [done|]. rewrite not_elem_of_cons. intros [H1 H2]. cbn [bef].
  case_bool_decide; [done|]. rewrite bool_decide_false by congruence. by apply IH.
Qed.

Lemma bef_absent_r {A} `{EqDecision A} (l : list A) (x y : A) : x ∈ l -> y ∉ l -> bef l x y = true.
Proof.
  induction l as [|a l IH]; [by intros ?%elem_of_nil|]. rewrite elem_of_cons, not_elem_of_cons. intros H1 [H2 H3]. cbn [bef].
  rewrite bool_decide_false by congruence. case_bool_decide; [done|]. destruct H1; [congruence|auto].
Qed.

(** What a list of dependencies adds, unless it saturates. *)
Record added (acc r : EffectSummary) (deps : list Z) : Prop := {
  ad_fields : field_set r = field_set acc ∪ dep_fields deps;
  ad_gnames : gname_set r = gname_set acc ∪ dep_gnames deps;
  ad_elems : elems_write r = elems_write acc || existsb (flag_at elems_write) deps;
  ad_env : env_write r = env_write acc || existsb (flag_at env_write) deps;
  ad_bef_fields : forall x y, bef (field_writes r) x y =
    if bool_decide (x ∈ field_writes acc \/ y ∈ field_writes acc) then bef (field_writes acc) x y
    else eval_source field_writes (dep_source field_at deps x y) x y;
  ad_bef_gnames : forall x y, bef (gname_writes r) x y =
    if bool_decide (x ∈ gname_writes acc \/ y ∈ gname_writes acc) then bef (gname_writes acc) x y
    else eval_source gname_writes (dep_source gname_at deps x y) x y }.

(** One component's order along the fold. *)
Lemma bef_step {A} `{EqDecision A} (get : EffectSummary -> list A) (at_ : Z -> A -> bool) (deps : list Z) (d : Z)
    (acc src mid r : EffectSummary) (x y : A) :
  v !! d = Some src -> (forall z, at_ d z = bool_decide (z ∈ get src)) -> (forall z, z ∈ get mid <-> z ∈ get acc \/ z ∈ get src) ->
  bef (get mid) x y = (if bool_decide (x ∈ get acc \/ y ∈ get acc) then bef (get acc) x y else bef (get src) x y) ->
  bef (get r) x y = (if bool_decide (x ∈ get mid \/ y ∈ get mid) then bef (get mid) x y
    else eval_source get (dep_source at_ deps x y) x y) ->
  bef (get r) x y = (if bool_decide (x ∈ get acc \/ y ∈ get acc) then bef (get acc) x y
    else eval_source get (dep_source at_ (d :: deps) x y) x y).
Proof.
  intros Ed Hat Hmid E1 E2. rewrite E2, E1. destruct (decide (x ∈ get acc \/ y ∈ get acc)) as [Hin|Hin].
  { rewrite !(bool_decide_true (x ∈ get acc \/ y ∈ get acc)) by done. rewrite bool_decide_true; [done|]. rewrite !Hmid. tauto. }
  rewrite !(bool_decide_false (x ∈ get acc \/ y ∈ get acc)) by done. cbn [dep_source]. rewrite !Hat.
  destruct (decide (x ∈ get src)) as [Hx|Hx]; [rewrite (bool_decide_true (x ∈ get src)) by done|rewrite (bool_decide_false (x ∈ get src)) by done];
    (destruct (decide (y ∈ get src)) as [Hy|Hy]; [rewrite (bool_decide_true (y ∈ get src)) by done|rewrite (bool_decide_false (y ∈ get src)) by done]).
  - rewrite bool_decide_true by (rewrite !Hmid; tauto). cbn [eval_source]. by rewrite Ed.
  - rewrite bool_decide_true by (rewrite !Hmid; tauto). by apply bef_absent_r.
  - rewrite bool_decide_true by (rewrite !Hmid; tauto). by apply bef_absent_l.
  - rewrite bool_decide_false by (rewrite !Hmid; tauto). done.
Qed.
End Deps.

Lemma elem_field_set (s : EffectSummary) (x : Field) : x ∈ field_set s <-> x ∈ field_writes s.
Proof. apply elem_of_list_to_set. Qed.

Lemma elem_gname_set (s : EffectSummary) (x : Z) : x ∈ gname_set s <-> x ∈ gname_writes s.
Proof. apply elem_of_list_to_set. Qed.

(** Nothing a component joins leaves it. *)
Lemma join_deps_top (v : gmap Z EffectSummary) (deps : list Z) (acc : EffectSummary) :
  top acc = true -> join_deps v deps acc = acc.
Proof. intros E. destruct deps; cbn [join_deps]; [done|by rewrite E]. Qed.

Lemma join_deps_spec (v : gmap Z EffectSummary) (loc : EffectSummary) (deps : list Z) (acc : EffectSummary) :
  shaped loc acc ->
  (top (join_deps v deps acc) = false <->
    top acc = false /\ (forall d, d ∈ deps -> open_at v d) /\
    fits_fields loc (field_set acc ∪ dep_fields v deps) /\ fits_gnames loc (gname_set acc ∪ dep_gnames v deps)) /\
  (top (join_deps v deps acc) = false -> shaped loc (join_deps v deps acc) /\ added v acc (join_deps v deps acc) deps).
Proof.
  revert acc. induction deps as [|d deps IH]; intros acc Hs.
  { cbn [join_deps]. split.
    - split; [|by intros (? & _)]. intros E. pose proof Hs as [S1 S2]. split_and!; [done|by intros d Hd%elem_of_nil| |];
        (eapply fits_mono; [|by apply grown_fits]); unfold field_set, gname_set, dep_fields, dep_gnames; cbn; set_solver.
    - intros _. split; [done|]. split; unfold dep_fields, dep_gnames; cbn; try set_solver; try by rewrite orb_false_r.
      + intros x y. case_bool_decide as Hin; [done|]. apply bef_absent_l. tauto.
      + intros x y. case_bool_decide as Hin; [done|]. apply bef_absent_l. tauto. }
  destruct (top acc) eqn:Ea.
  { rewrite join_deps_top by done. rewrite Ea. split; [split; [done|by intros (? & _)]|done]. }
  cbn [join_deps]. rewrite Ea. destruct (v !! d) as [src|] eqn:Ed.
  2:{ rewrite top_saturate. split; [|done]. split; [done|]. intros (_ & H & _).
      destruct (H d (list_elem_of_here d deps)) as (s & E & _). congruence. }
  destruct (join_into_spec loc acc src Hs Ea) as [J1 J2]. set (mid := join_into acc src) in *.
  assert (fields_at v d = field_set src /\ gnames_at v d = gname_set src) as [Ef Eg] by (unfold fields_at, gnames_at; by rewrite Ed).
  assert (forall Q : Prop, (forall d', d' ∈ d :: deps -> open_at v d') /\ Q <->
    top src = false /\ (forall d', d' ∈ deps -> open_at v d') /\ Q) as Hopen.
  { intros Q. split.
    - intros [H HQ]. split_and!; [|intros d' Hd; apply H; by right|done].
      destruct (H d (list_elem_of_here d deps)) as (s & E & Et). congruence.
    - intros (H1 & H2 & HQ). split; [|done]. intros d' [->|Hd]%elem_of_cons; [by exists src|by apply H2]. }
  rewrite Hopen. unfold dep_fields, dep_gnames. cbn [fmap list_fmap union_list]. rewrite Ef, Eg. fold (dep_fields v deps) (dep_gnames v deps).
  destruct (top mid) eqn:Em.
  { rewrite join_deps_top, Em by done. split; [|done]. split; [done|]. intros (_ & H1 & _ & H2 & H3). exfalso.
    assert (true = false) as [=]. apply J1. split_and!; [done| |]; (eapply fits_mono; [|eassumption]); set_solver. }
  destruct (proj1 J1 eq_refl) as (M1 & M2 & M3). destruct (J2 eq_refl) as [Hsm [N1 N2 N3 N4 N5 N6]].
  destruct (IH mid Hsm) as [I1 I2]. rewrite N1, N2 in I1. rewrite <- !(assoc_L (∪)) in I1. split.
  { rewrite I1, Em. tauto. }
  intros Hr. destruct (I2 Hr) as [I3 [A1 A2 A3 A4 A5 A6]]. split; [done|]. split.
  - rewrite A1, N1. unfold dep_fields. cbn [fmap list_fmap union_list]. rewrite Ef. by rewrite <- (assoc_L (∪)).
  - rewrite A2, N2. unfold dep_gnames. cbn [fmap list_fmap union_list]. rewrite Eg. by rewrite <- (assoc_L (∪)).
  - rewrite A3, N3. cbn [existsb]. unfold flag_at at 2. rewrite Ed. cbn [from_option]. by rewrite orb_assoc.
  - rewrite A4, N4. cbn [existsb]. unfold flag_at at 2. rewrite Ed. cbn [from_option]. by rewrite orb_assoc.
  - intros x y. apply (bef_step v field_writes (field_at v) deps d acc src mid); [done| | |apply N5|apply A5].
    + intros z. unfold field_at. apply bool_decide_ext. rewrite Ef. apply elem_field_set.
    + intros z. rewrite <- !elem_field_set, N1, elem_of_union. done.
  - intros x y. apply (bef_step v gname_writes (gname_at v) deps d acc src mid); [done| | |apply N6|apply A6].
    + intros z. unfold gname_at. apply bool_decide_ext. rewrite Eg. apply elem_gname_set.
    + intros z. rewrite <- !elem_gname_set, N2, elem_of_union. done.
Qed.
