(* ===== verification/EffectFix.v ===== *)
(** * EffectFix: the fixpoint over the call graph ends in a solution

    Summaries are compared with the order of their writes, and the order of a
    join is copied from the callees, so a round of updates need not make any
    set grow. The worklist is a stack: while its lower part waits, nothing in
    it changes, and every order above it is copied, pair by pair, from a
    source that has settled. The pairs that disagree with their settled source
    only become fewer, and that bounds the updates between two growths. *)

From stdpp Require Import strings.
From S2P Require Import Prelude Mem Facts Effects EffectJoin.

(** ** Finite closures *)

(** The elements that reach [G0] along a relation on a finite set. *)
Lemma finite_closure {T : Type} `{Countable T} (U : gset T) (E : T -> T -> Prop) `{!RelDecision E} (G0 : gset T) :
  G0 ⊆ U ->
  exists G : gset T, G0 ⊆ G /\ G ⊆ U /\ (forall t t', t ∈ U -> t' ∈ G -> E t t' -> t ∈ G) /\
    forall P : T -> Prop, (forall t, t ∈ G0 -> P t) -> (forall t t', t ∈ U -> E t t' -> P t' -> P t) -> forall t, t ∈ G -> P t.
Proof.
  remember (size (U ∖ G0)) as n eqn:En. revert G0 En. induction n as [n IH] using lt_wf_ind. intros G0 -> Hs.
  destruct (decide (set_Exists (fun t => set_Exists (fun t' => E t t') G0) (U ∖ G0))) as [(t & Ht & t' & Ht' & He)|Hno].
  - apply elem_of_difference in Ht as [Ht Hn].
    destruct (IH (size (U ∖ ({[t]} ∪ G0)))) with (G0 := {[t]} ∪ G0) as (G & G1 & G2 & G3 & G4); [|done|set_solver|].
    { apply subset_size. split; [set_solver|]. intros Hc. apply (elem_of_difference U ({[t]} ∪ G0) t); [|set_solver].
      apply Hc. set_solver. }
    exists G. split_and!; [set_solver|done|done|]. intros P P0 P1. apply G4; [|done].
    intros u [->%elem_of_singleton|Hu]%elem_of_union; [|by apply P0]. by apply (P1 t t'), P0.
  - exists G0. split_and!; [done|done| |by intros P P0 _]. intros t t' Ht Ht' He. destruct (decide (t ∈ G0)) as [|Hn]; [done|].
    exfalso. apply Hno. exists t. split; [set_solver|]. by exists t'.
Qed.

(** ** Order on summaries *)

Definition sle (a b : EffectSummary) : Prop :=
  top b = true \/
  (top a = false /\ top b = false /\ field_set a ⊆ field_set b /\ gname_set a ⊆ gname_set b /\
   (elems_write a = true -> elems_write b = true) /\ (env_write a = true -> env_write b = true)).

Lemma sle_refl (a : EffectSummary) : sle a a.
Proof. destruct (top a) eqn:E; [by left|right]. by split_and!. Qed.

Lemma sle_trans (a b c : EffectSummary) : sle a b -> sle b c -> sle a c.
Proof.
  intros [Hb|(A1 & A2 & A3 & A4 & A5 & A6)] [Hc|(B1 & B2 & B3 & B4 & B5 & B6)]; try by left; try congruence.
  right. split_and!; try done; try (etrans; done); auto.
Qed.

(** The part of a summary joins read, order apart. *)
Definition cls (s : EffectSummary) : option (gset Field * gset Z * bool * bool) :=
  if top s then None else Some (field_set s, gname_set s, elems_write s, env_write s).

Lemma sle_antisym (a b : EffectSummary) : sle a b -> sle b a -> cls a = cls b.
Proof.
  unfold cls. intros [Hb|(A1 & A2 & A3 & A4 & A5 & A6)] [Ha|(B1 & B2 & B3 & B4 & B5 & B6)]; rewrite ?Ha, ?Hb, ?A1, ?A2, ?B1, ?B2; try done; try congruence.
  f_equal. f_equal; [f_equal; [f_equal; set_solver|]|].
  - destruct (elems_write a), (elems_write b); naive_solver.
  - destruct (env_write a), (env_write b); naive_solver.
Qed.

Lemma cls_sle (a b : EffectSummary) : cls a = cls b -> sle a b.
Proof.
  unfold cls, sle. destruct (top a), (top b); try done; [by left|]. intros [= -> -> -> ->]. right. by split_and!.
Qed.

Lemma eqb_spec (a b : EffectSummary) :
  effect_eqb a b = true <-> top a = top b /\ field_writes a = field_writes b /\ gname_writes a = gname_writes b /\
    elems_write a = elems_write b /\ env_write a = env_write b.
Proof.
  unfold effect_eqb. rewrite !andb_true_iff, !eqb_true_iff, !bool_decide_eq_true. tauto.
Qed.

Lemma eqb_refl (a : EffectSummary) : effect_eqb a a = true.
Proof. by apply eqb_spec. Qed.

Lemma eqb_cls (a b : EffectSummary) : effect_eqb a b = true -> cls a = cls b.
Proof.
  intros (E1 & E2 & E3 & E4 & E5)%eqb_spec. unfold cls, field_set, gname_set. by rewrite E1, E2, E3, E4, E5.
Qed.

(** ** Pairs of writes *)

Abbreviation Write_ := (Field + Z)%type.

Definition writes_of (s : EffectSummary) : list Write_ := (inl <$> field_writes s) ++ (inr <$> gname_writes s).

Definition bef_of (s : EffectSummary) (a b : Write_) : bool :=
  match a, b with
  | inl x, inl y => bef (field_writes s) x y
  | inr x, inr y => bef (gname_writes s) x y
  | _, _ => false
  end.

Lemma elem_writes_l (s : EffectSummary) (x : Field) : inl x ∈ writes_of s <-> x ∈ field_writes s.
Proof.
  unfold writes_of. rewrite elem_of_app, !list_elem_of_fmap. split; [intros [(y & [= ->] & ?)|(y & [=] & _)]; done|].
  intros Hx. left. by exists x.
Qed.

Lemma elem_writes_r (s : EffectSummary) (x : Z) : inr x ∈ writes_of s <-> x ∈ gname_writes s.
Proof.
  unfold writes_of. rewrite elem_of_app, !list_elem_of_fmap. split; [intros [(y & [=] & _)|(y & [= ->] & ?)]; done|].
  intros Hx. right. by exists x.
Qed.

Lemma cls_writes (a b : EffectSummary) (e : Write_) :
  cls a = cls b -> top a = false -> e ∈ writes_of a -> e ∈ writes_of b.
Proof.
  unfold cls. intros E Ha. rewrite Ha in E. destruct (top b); [done|]. injection E as E1 E2 _ _.
  destruct e as [x|x]; rewrite ?elem_writes_l, ?elem_writes_r, <- ?elem_field_set, <- ?elem_gname_set, ?E1, ?E2; done.
Qed.

(** Two grown lists with the same elements in the same order. *)
Lemma grown_ext {A} `{Countable A} (cap : nat) (L a b : list A) :
  grown cap L a -> grown cap L b -> (forall x, x ∈ a <-> x ∈ b) -> (forall x y, x ∈ a -> y ∈ a -> bef a x y = bef b x y) -> a = b.
Proof.
  intros [(r & -> & Hr & Hd & _)] [(k & -> & Hk & He & _)] Hs Ho. f_equal. apply bef_ext; [done|done| |].
  - intros x. specialize (Hs x). rewrite !elem_of_app in Hs. specialize (Hd x). specialize (He x). tauto.
  - intros x y Hx Hy. specialize (Ho x y). rewrite !elem_of_app in Ho.
    rewrite !bef_app_r in Ho by auto using Hd. all: try (by apply Hd). apply Ho; by right.
Qed.

Lemma order_ext (loc a b : EffectSummary) :
  shaped loc a -> shaped loc b -> cls a = cls b -> top a = false ->
  (forall e e', e ∈ writes_of a -> e' ∈ writes_of a -> bef_of a e e' = bef_of b e e') -> effect_eqb a b = true.
Proof.
  intros [A1 A2] [B1 B2] E Ha Ho. unfold cls in E. rewrite Ha in E. destruct (top b) eqn:Hb; [done|]. injection E as E1 E2 E3 E4.
  apply eqb_spec. split_and!; [congruence| | |done|done].
  - apply (grown_ext _ _ _ _ A1 B1).
    + intros x. by rewrite <- !elem_field_set, E1.
    + intros x y Hx Hy. apply (Ho (inl x) (inl y)); by apply elem_writes_l.
  - apply (grown_ext _ _ _ _ A2 B2).
    + intros x. by rewrite <- !elem_gname_set, E2.
    + intros x y Hx Hy. apply (Ho (inr x) (inr y)); by apply elem_writes_r.
Qed.

(** ** The equations *)

Section Fix.
Context (local : gmap Z EffectSummary) (deps : gmap Z (list Z)) (sids : list Z).

#[local] Abbreviation loc z := (default effect_default (local !! z)).
#[local] Abbreviation dep z := (default [] (deps !! z)).
#[local] Abbreviation J := (joined_of local deps).
#[local] Abbreviation Map := (gmap Z EffectSummary).

Lemma J_spec (v : Map) (z : Z) :
  (top (J v z) = false <->
    top (loc z) = false /\ (forall d, d ∈ dep z -> open_at v d) /\
    fits_fields (loc z) (field_set (loc z) ∪ dep_fields v (dep z)) /\
    fits_gnames (loc z) (gname_set (loc z) ∪ dep_gnames v (dep z))) /\
  (top (J v z) = false -> shaped (loc z) (J v z) /\ added v (loc z) (J v z) (dep z)).
Proof. apply join_deps_spec, shaped_refl. Qed.

(** [v] is below [w] wherever [w] has a summary. *)
Definition mle (v w : Map) : Prop := forall d s, w !! d = Some s -> exists s', v !! d = Some s' /\ sle s' s.

Lemma open_mle (v w : Map) (d : Z) :
  mle v w -> open_at w d ->
  open_at v d /\ fields_at v d ⊆ fields_at w d /\ gnames_at v d ⊆ gnames_at w d /\
  (flag_at v elems_write d = true -> flag_at w elems_write d = true) /\
  (flag_at v env_write d = true -> flag_at w env_write d = true).
Proof.
  intros Hm (s & E & Et). destruct (Hm d s E) as (s' & E' & [Ht|(H1 & H2 & H3 & H4 & H5 & H6)]); [congruence|].
  unfold open_at, fields_at, gnames_at, flag_at. rewrite E, E'. cbn. split_and!; try done. by exists s'.
Qed.

Lemma union_map_mono {A B} `{Countable B} (f g : A -> gset B) (l : list A) :
  (forall x, x ∈ l -> f x ⊆ g x) -> ⋃ (f <$> l) ⊆ ⋃ (g <$> l).
Proof.
  induction l as [|a l IH]; intros Hs; cbn [fmap list_fmap union_list]; [done|].
  apply union_mono; [apply Hs; left|apply IH; intros x Hx; apply Hs; by right].
Qed.

Lemma existsb_mono {A} (f g : A -> bool) (l : list A) :
  (forall x, x ∈ l -> f x = true -> g x = true) -> existsb f l = true -> existsb g l = true.
Proof.
  intros Hs. rewrite !existsb_exists. intros (x & Hx%list_elem_of_In & Hf). exists x. split; [by apply list_elem_of_In|auto].
Qed.

Lemma J_mono (v w : Map) (z : Z) : mle v w -> sle (J v z) (J w z).
Proof.
  intros Hm. destruct (top (J w z)) eqn:Ew; [by left|right]. destruct (J_spec w z) as [W1 W2].
  destruct (proj1 W1 Ew) as (L & O & F & G). destruct (W2 Ew) as [_ [B1 B2 B3 B4 _ _]].
  assert (dep_fields v (dep z) ⊆ dep_fields w (dep z)) as Sf.
  { apply union_map_mono. intros d Hd. by apply open_mle, O. }
  assert (dep_gnames v (dep z) ⊆ dep_gnames w (dep z)) as Sg.
  { apply union_map_mono. intros d Hd. by apply open_mle, O. }
  assert (top (J v z) = false) as Ev.
  { apply J_spec. split_and!; [done| | |].
    - intros d Hd. by destruct (open_mle v w d Hm (O d Hd)).
    - eapply fits_mono; [|exact F]. set_solver.
    - eapply fits_mono; [|exact G]. set_solver. }
  destruct (proj2 (J_spec v z) Ev) as [_ [A1 A2 A3 A4 _ _]]. split_and!; [done|done| | | |].
  - rewrite A1, B1. set_solver.
  - rewrite A2, B2. set_solver.
  - rewrite A3, B3, !orb_true_iff. intros [?|He]; [by left|right]. eapply existsb_mono; [|exact He].
    intros d Hd. by apply (open_mle v w d Hm (O d Hd)).
  - rewrite A4, B4, !orb_true_iff. intros [?|He]; [by left|right]. eapply existsb_mono; [|exact He].
    intros d Hd. by apply (open_mle v w d Hm (O d Hd)).
Qed.

(** The same summaries up to order. *)
Definition same (v w : Map) : Prop := forall d, cls <$> v !! d = cls <$> w !! d.

Lemma same_mle (v w : Map) : same v w -> mle v w.
Proof.
  intros Hs d s E. specialize (Hs d). rewrite E in Hs. apply fmap_Some in Hs as (s' & E' & Ec).
  exists s'. split; [done|]. by apply cls_sle.
Qed.

Lemma same_sym (v w : Map) : same v w -> same w v.
Proof. intros Hs d. by rewrite (Hs d). Qed.

Lemma J_same (v w : Map) (z : Z) : same v w -> cls (J v z) = cls (J w z).
Proof. intros Hs. apply sle_antisym; apply J_mono, same_mle; [done|by apply same_sym]. Qed.

(** Where the order of two writes of a script comes from. *)
Definition source (v : Map) (z : Z) (a b : Write_) : bool + Z :=
  match a, b with
  | inl x, inl y =>
      if bool_decide (x ∈ field_writes (loc z) \/ y ∈ field_writes (loc z)) then inl (bef (field_writes (loc z)) x y)
      else dep_source (field_at v) (dep z) x y
  | inr x, inr y =>
      if bool_decide (x ∈ gname_writes (loc z) \/ y ∈ gname_writes (loc z)) then inl (bef (gname_writes (loc z)) x y)
      else dep_source (gname_at v) (dep z) x y
  | _, _ => inl false
  end.

Definition source_bef (v : Map) (s : bool + Z) (a b : Write_) : bool :=
  match s with
  | inl c => c
  | inr d => from_option (fun s => bef_of s a b) false (v !! d)
  end.

Lemma J_order (v : Map) (z : Z) (a b : Write_) :
  top (J v z) = false -> bef_of (J v z) a b = source_bef v (source v z a b) a b.
Proof.
  intros Ht. destruct (proj2 (J_spec v z) Ht) as [_ [_ _ _ _ A5 A6]].
  destruct a as [x|x], b as [y|y]; cbn [bef_of source]; [|done|done|].
  - rewrite A5. case_bool_decide; [done|]. unfold eval_source, source_bef. destruct (dep_source _ _ _ _) as [c|d]; [done|].
    by destruct (v !! d).
  - rewrite A6. case_bool_decide; [done|]. unfold eval_source, source_bef. destruct (dep_source _ _ _ _) as [c|d]; [done|].
    by destruct (v !! d).
Qed.

Lemma dep_source_in {A} (at_ : Z -> A -> bool) (l : list Z) (x y : A) (d : Z) :
  dep_source at_ l x y = inr d -> d ∈ l /\ at_ d x = true /\ at_ d y = true.
Proof.
  induction l as [|e l IH]; cbn [dep_source]; [done|].
  destruct (at_ e x) eqn:Ex, (at_ e y) eqn:Ey; try done.
  - intros [= <-]. split_and!; [left|done|done].
  - intros H. destruct (IH H) as (? & ? & ?). split_and!; [by right|done|done].
Qed.

(** A dependency that is a source has both writes. *)
Lemma source_in (v : Map) (z d : Z) (a b : Write_) :
  source v z a b = inr d -> d ∈ dep z /\ exists s, v !! d = Some s /\ a ∈ writes_of s /\ b ∈ writes_of s.
Proof.
  destruct a as [x|x], b as [y|y]; cbn [source]; try done; (case_bool_decide; [done|]); intros Hd%dep_source_in;
    destruct Hd as (Hd & Hx & Hy); (split; [done|]).
  - unfold field_at, fields_at in *. apply bool_decide_eq_true in Hx, Hy. destruct (v !! d) as [s|]; [|set_solver].
    exists s. rewrite !elem_writes_l. cbn in Hx, Hy. by rewrite elem_field_set in Hx, Hy.
  - unfold gname_at, gnames_at in *. apply bool_decide_eq_true in Hx, Hy. destruct (v !! d) as [s|]; [|set_solver].
    exists s. rewrite !elem_writes_r. cbn in Hx, Hy. by rewrite elem_gname_set in Hx, Hy.
Qed.

Lemma dep_source_ext {A} (f g : Z -> A -> bool) (l : list Z) (x y : A) :
  (forall d, d ∈ l -> f d x = g d x /\ f d y = g d y) -> dep_source f l x y = dep_source g l x y.
Proof.
  induction l as [|d l IH]; intros Hs; cbn [dep_source]; [done|]. destruct (Hs d) as [-> ->]; [left|].
  rewrite IH; [done|]. intros e He. apply Hs. by right.
Qed.

Lemma source_same (v w : Map) (z : Z) (a b : Write_) :
  same v w -> top (J v z) = false -> source v z a b = source w z a b.
Proof.
  intros Hs Ht. destruct (proj1 (proj1 (J_spec v z)) Ht) as (_ & O & _).
  assert (forall d, d ∈ dep z -> fields_at v d = fields_at w d /\ gnames_at v d = gnames_at w d) as Hd.
  { intros d Hd. destruct (O d Hd) as (s & E & Et). specialize (Hs d). rewrite E in Hs. symmetry in Hs.
    apply fmap_Some in Hs as (s' & E' & Ec). unfold fields_at, gnames_at. rewrite E, E'. cbn.
    unfold cls in Ec. rewrite Et in Ec. destruct (top s'); [done|]. by injection Ec. }
  destruct a as [x|x], b as [y|y]; cbn [source]; try done; case_bool_decide; try done; apply dep_source_ext;
    intros d Hin; destruct (Hd d Hin) as [E1 E2]; unfold field_at, gname_at; by rewrite ?E1, ?E2.
Qed.

(** ** What a change at one script does to another's join *)

Lemma eqb_trans (a b c : EffectSummary) : effect_eqb a b = true -> effect_eqb b c = true -> effect_eqb a c = true.
Proof. rewrite !eqb_spec. intros (-> & -> & -> & -> & ->). tauto. Qed.

Lemma eqb_sym (a b : EffectSummary) : effect_eqb a b = true -> effect_eqb b a = true.
Proof. rewrite !eqb_spec. intros (-> & -> & -> & -> & ->). tauto. Qed.

Lemma saturate_eqb (a b : EffectSummary) (w w' : string) :
  effect_eqb a b = true -> effect_eqb (saturate a w) (saturate b w') = true.
Proof.
  intros (E1 & E2 & E3 & E4 & E5)%eqb_spec. unfold saturate. rewrite E1. destruct (top b) eqn:Eb; cbn [negb]; apply eqb_spec; cbn; rewrite ?Eb, ?E1; tauto.
Qed.

(** Joins do not tell two summaries apart that are equal or both saturated. *)
Definition settled_agree (v w : Map) (d : Z) : Prop :=
  match v !! d, w !! d with
  | Some s, Some t => (top s = true /\ top t = true) \/ effect_eqb s t = true
  | None, None => True
  | _, _ => False
  end.

Lemma join_into_eqb (a b s t : EffectSummary) :
  effect_eqb a b = true -> (top s = true /\ top t = true) \/ effect_eqb s t = true ->
  effect_eqb (join_into a s) (join_into b t) = true.
Proof.
  intros Hab Hst. unfold join_into. assert (top s = top t) as Et by (destruct Hst as [[-> ->]|(E & _)%eqb_spec]; done).
  rewrite Et. destruct (top t) eqn:Ht; [by apply saturate_eqb|].
  destruct Hst as [[? ?]|(_ & F & G & H1 & H2)%eqb_spec]; [congruence|]. pose proof Hab as (B1 & B2 & B3 & B4 & B5)%eqb_spec.
  rewrite B2, F. destruct (join_writes FIELD_CAP _ _) as [fw hit]. cbv zeta.
  destruct hit; [apply saturate_eqb, eqb_spec; cbn; tauto|]. cbn [gname_writes with_field_writes].
  rewrite B3, G. destruct (join_writes GNAME_CAP _ _) as [gw hit].
  destruct hit; [apply saturate_eqb|]; apply eqb_spec; cbn; rewrite ?H1, ?H2, ?B4, ?B5; tauto.
Qed.

Lemma join_deps_eqb (v w : Map) (l : list Z) (a b : EffectSummary) :
  effect_eqb a b = true -> (forall d, d ∈ l -> settled_agree v w d) -> effect_eqb (join_deps v l a) (join_deps w l b) = true.
Proof.
  revert a b. induction l as [|d l IH]; intros a b Hab Hd; cbn [join_deps]; [done|].
  pose proof Hab as (E & _)%eqb_spec. rewrite E. destruct (top b); [done|].
  pose proof (Hd d (list_elem_of_here d l)) as Ha. unfold settled_agree in Ha.
  destruct (v !! d) as [s|], (w !! d) as [t|]; try done; [|by apply saturate_eqb].
  apply IH; [by apply join_into_eqb|]. intros e He. apply Hd. by right.
Qed.

Lemma J_agree (v w : Map) (z : Z) : (forall d, d ∈ dep z -> settled_agree v w d) -> effect_eqb (J v z) (J w z) = true.
Proof. intros Hd. apply join_deps_eqb; [apply eqb_refl|done]. Qed.

Lemma agree_other (v : Map) (s d : Z) (x : EffectSummary) : d <> s -> settled_agree v (<[s := x]> v) d.
Proof. intros Hne. unfold settled_agree. rewrite lookup_insert_ne by done. destruct (v !! d); [right; apply eqb_refl|done]. Qed.

(** ** Settling in one phase *)

Definition wrong_source (G : gset (Z * Write_ * Write_)) (src : bool + Z) (a b : Write_) : Prop :=
  match src with inl _ => False | inr d => (d, a, b) ∈ G end.

#[local] Instance wrong_source_dec G src a b : Decision (wrong_source G src a b).
Proof. destruct src; cbn; apply _. Defined.

(** While the scripts of [F] wait, no join above them grows, and [G] has the
    pairs that disagree with the settled value of their source. *)
Record phase (F : list Z) (G : gset (Z * Write_ * Write_)) (v : Map) : Prop := {
  ph_cls : forall z s, z ∉ F -> v !! z = Some s -> cls (J v z) = cls s;
  ph_pairs : forall z s a b, z ∉ F -> v !! z = Some s -> top s = false -> a ∈ writes_of s -> b ∈ writes_of s ->
    (wrong_source G (source v z a b) a b -> (z, a, b) ∈ G /\ bef_of s a b = source_bef v (source v z a b) a b) /\
    (~ wrong_source G (source v z a b) a b -> (z, a, b) ∈ G <-> bef_of s a b <> source_bef v (source v z a b) a b) }.

Lemma insert_same (v : Map) (z : Z) (s x : EffectSummary) : v !! z = Some s -> cls x = cls s -> same v (<[z := x]> v).
Proof.
  intros E Ec d. destruct (decide (z = d)) as [<-|Hne]; [|by rewrite lookup_insert_ne].
  rewrite lookup_insert_eq, E. cbn. by rewrite Ec.
Qed.

Lemma cls_top (a b : EffectSummary) : cls a = cls b -> top a = top b.
Proof. unfold cls. destruct (top a), (top b); done. Qed.

(** An update that changes the order only settles pairs. *)
Lemma phase_update (F : list Z) (G : gset (Z * Write_ * Write_)) (v : Map) (z : Z) (cur : EffectSummary) :
  phase F G v -> z ∉ F -> v !! z = Some cur -> top cur = false -> shaped (loc z) cur ->
  effect_eqb cur (J v z) = false ->
  exists G', phase F G' (<[z := J v z]> v) /\ (size G' < size G)%nat.
Proof.
  intros [P1 P2] Hz E Ht Hsh Hne. pose proof (P1 z cur Hz E) as Ec. assert (top (J v z) = false) as Hj.
  { by rewrite (cls_top _ _ Ec). }
  pose proof (insert_same v z cur (J v z) E Ec) as Hsame.
  set (G' := filter (fun t => ~ (t.1.1 = z /\ ~ wrong_source G (source v z t.1.2 t.2) t.1.2 t.2)) G).
  assert (forall y a b, y <> z -> (y, a, b) ∈ G' <-> (y, a, b) ∈ G) as Hother.
  { intros y a b Hy. unfold G'. rewrite elem_of_filter. cbn. tauto. }
  assert (forall a b, (z, a, b) ∈ G' <-> wrong_source G (source v z a b) a b /\ (z, a, b) ∈ G) as Hself.
  { intros a b. unfold G'. rewrite elem_of_filter. cbn. destruct (decide (wrong_source G (source v z a b) a b)); tauto. }
  exists G'. split; [split|].
  - intros y s Hy Ey. rewrite <- (J_same v _ y Hsame). destruct (decide (y = z)) as [->|Hyz].
    + rewrite lookup_insert_eq in Ey. by injection Ey as <-.
    + rewrite lookup_insert_ne in Ey by done. by apply P1.
  - intros y s a b Hy Ey Hs Ha Hb. assert (exists s0, v !! y = Some s0 /\ cls s0 = cls s) as (s0 & E0 & Ec0).
    { destruct (decide (y = z)) as [->|Hyz]; [rewrite lookup_insert_eq in Ey; injection Ey as <-; exists cur; by rewrite Ec|].
      rewrite lookup_insert_ne in Ey by done. by exists s. }
    assert (top s0 = false) as Hs0 by (by rewrite (cls_top _ _ Ec0)).
    assert (top (J v y) = false) as Hjy by (by rewrite (cls_top _ _ (P1 y s0 Hy E0))).
    rewrite <- (source_same v _ y a b Hsame Hjy).
    assert (a ∈ writes_of s0 /\ b ∈ writes_of s0) as [Ha0 Hb0] by (split; by eapply (cls_writes s)).
    pose proof (P2 y s0 a b Hy E0 Hs0 Ha0 Hb0) as [Q1 Q2].
    pose proof (J_order v z a b Hj) as Hord.
    (* the pair at [z], old and new *)
    assert (a ∈ writes_of cur -> b ∈ writes_of cur ->
      (wrong_source G (source v z a b) a b -> (z, a, b) ∈ G' /\ (z, a, b) ∈ G /\ bef_of cur a b = bef_of (J v z) a b) /\
      (~ wrong_source G (source v z a b) a b -> (z, a, b) ∉ G' /\ ((z, a, b) ∈ G <-> bef_of cur a b <> bef_of (J v z) a b))) as HZ.
    { intros Hac Hbc. destruct (P2 z cur a b Hz E Ht Hac Hbc) as [R1 R2]. rewrite Hord, Hself. split; intros Hw.
      - destruct (R1 Hw). tauto.
      - split; [tauto|by apply R2]. }
    assert (forall d, source_bef (<[z := J v z]> v) (inr d) a b = if decide (d = z) then bef_of (J v z) a b else source_bef v (inr d) a b) as Hsb.
    { intros d. cbn [source_bef]. destruct (decide (d = z)) as [->|Hd]; [by rewrite lookup_insert_eq|by rewrite lookup_insert_ne]. }
    destruct (source v y a b) as [c|d] eqn:Esrc.
    { cbn [wrong_source] in *. split; [done|]. intros _. destruct (decide (y = z)) as [->|Hyz].
      - rewrite lookup_insert_eq in Ey. injection Ey as <-. rewrite Hord, Esrc. cbn [source_bef]. rewrite Hself, Esrc. cbn. split; [tauto|]. by intros [].
      - rewrite lookup_insert_ne in Ey by done. assert (s = s0) as -> by congruence. rewrite Hother by done. exact (Q2 (fun h => h)). }
    cbn [wrong_source] in Q1, Q2. destruct (source_in v y d a b Esrc) as (_ & sd & Ed & Had & Hbd). rewrite Hsb. cbn [wrong_source].
    destruct (decide (y = z)) as [->|Hyz].
    + rewrite lookup_insert_eq in Ey. injection Ey as <-. assert (s0 = cur) as -> by congruence.
      rewrite Esrc in Hord, HZ. cbn [wrong_source] in HZ. cbn [source_bef] in Hord. specialize (HZ Ha0 Hb0) as [Z1 Z2].
      destruct (decide (d = z)) as [->|Hd].
      * split; [intros Hg; apply Hself in Hg as [_ Hg]; by destruct (Z1 Hg)|]. intros Hg. split; [done|]. done.
      * rewrite (Hother d) by done. split; [intros Hg; split; [by apply Z1|exact Hord]|]. intros Hg. destruct (Z2 Hg) as [Z3 _]. split; [tauto|]. intros Hn. destruct Hn. exact Hord.
    + rewrite lookup_insert_ne in Ey by done. assert (s = s0) as -> by congruence. rewrite (Hother y) by done.
      destruct (decide (d = z)) as [->|Hd]; [|by rewrite (Hother d)].
      assert (sd = cur) as -> by congruence. specialize (HZ Had Hbd) as [Z1 Z2]. cbn [source_bef] in Q1, Q2. rewrite E in Q1, Q2. cbn in Q1, Q2.
      destruct (decide (wrong_source G (source v z a b) a b)) as [Hw|Hw].
      * destruct (Z1 Hw) as (Z3 & Z4 & <-). split; [intros _; by apply Q1|done].
      * destruct (Z2 Hw) as (Z3 & Z4). split; [done|]. intros _. destruct (decide ((z, a, b) ∈ G)) as [Hg|Hg].
        -- destruct (Q1 Hg) as [Q3 ->]. split; [|done]. intros _. by apply Z4.
        -- rewrite (Q2 Hg). assert (bef_of cur a b = bef_of (J v z) a b) as -> by (destruct (decide (bef_of cur a b = bef_of (J v z) a b)); tauto). done.
  - apply subset_size. split; [unfold G'; set_solver|]. intros Hsub. apply not_true_iff_false in Hne. apply Hne.
    apply (order_ext (loc z)); [done|by apply J_spec|done|done|]. intros a b Ha Hb. rewrite J_order by done.
    destruct (P2 z cur a b Hz E Ht Ha Hb) as [R1 R2]. destruct (decide (wrong_source G (source v z a b) a b)) as [Hw|Hw]; [by apply R1|].
    destruct (decide (bef_of cur a b = source_bef v (source v z a b) a b)) as [|Hd]; [done|exfalso].
    assert ((z, a, b) ∈ G) as Hg by (by apply R2). apply Hsub, Hself in Hg. tauto.
Qed.

(** ** Phases *)

Definition stable (v : Map) (z : Z) : Prop := forall s, v !! z = Some s -> effect_eqb s (J v z) = true.

Lemma bef_eqb (a b : EffectSummary) (x y : Write_) : effect_eqb a b = true -> bef_of a x y = bef_of b x y.
Proof. intros (_ & E1 & E2 & _)%eqb_spec. destruct x, y; cbn; by rewrite ?E1, ?E2. Qed.

Lemma stable_cls (v : Map) (z : Z) (s : EffectSummary) : stable v z -> v !! z = Some s -> cls (J v z) = cls s.
Proof. intros Hs E. symmetry. by apply eqb_cls, Hs. Qed.

Lemma stable_order (v : Map) (z : Z) (s : EffectSummary) (a b : Write_) :
  stable v z -> v !! z = Some s -> top s = false -> bef_of s a b = source_bef v (source v z a b) a b.
Proof.
  intros Hs E Ht. rewrite (bef_eqb s (J v z)) by by apply Hs. apply J_order.
  by rewrite (cls_top _ _ (stable_cls v z s Hs E)).
Qed.

(** When every script that does not wait is stable, no pair is wrong. *)
Lemma phase_fresh (F : list Z) (v : Map) : (forall z, z ∉ F -> stable v z) -> phase F ∅ v.
Proof.
  intros Hs. split; [intros z s Hz E; apply stable_cls; auto|]. intros z s a b Hz E Ht _ _.
  pose proof (stable_order v z s a b (Hs z Hz) E Ht) as Ho. split.
  - destruct (source v z a b); [done|]. cbn. set_solver.
  - intros _. split; [set_solver|done].
Qed.

(** The pairs of writes the scripts hold. *)
Definition all_pairs (v : Map) : gset (Z * Write_ * Write_) :=
  list_to_set (mjoin ((fun x => (fun p => (x.1, p.1, p.2)) <$> list_prod (writes_of x.2) (writes_of x.2)) <$> map_to_list v)).

Lemma elem_all_pairs (v : Map) (z : Z) (a b : Write_) :
  (z, a, b) ∈ all_pairs v <-> exists s, v !! z = Some s /\ a ∈ writes_of s /\ b ∈ writes_of s.
Proof.
  unfold all_pairs. rewrite elem_of_list_to_set, list_elem_of_join. split.
  - intros (l & Hl & ((y & s) & -> & Hs%elem_of_map_to_list)%list_elem_of_fmap).
    apply list_elem_of_fmap in Hl as ((a' & b') & [= -> -> ->] & Hp%list_elem_of_In). cbn in *.
    apply in_prod_iff in Hp as [H1%list_elem_of_In H2%list_elem_of_In]. by exists s.
  - intros (s & E & Ha & Hb). eexists. split; [|apply list_elem_of_fmap; exists (z, s); split; [done|by apply elem_of_map_to_list]].
    apply list_elem_of_fmap. exists (a, b). split; [done|]. apply list_elem_of_In, in_prod_iff. by rewrite <- !list_elem_of_In.
Qed.

(** One unstable script: the pairs that copy a pair it is about to change. *)
Lemma phase_start (F : list Z) (v : Map) (z : Z) (cur : EffectSummary) :
  v !! z = Some cur -> cls (J v z) = cls cur -> (forall y, y ∉ F -> y <> z -> stable v y) -> exists G, phase F G v.
Proof.
  intros E Ec Hst.
  set (G0 := filter (fun t => t.1.1 = z /\ bef_of cur t.1.2 t.2 <> bef_of (J v z) t.1.2 t.2) (all_pairs v)).
  set (E_ := fun t t' : Z * Write_ * Write_ =>
    (t.1.1 ∉ F /\ flag_at v top t.1.1 = false) /\ source v t.1.1 t.1.2 t.2 = inr t'.1.1 /\ t'.1.2 = t.1.2 /\ t'.2 = t.2).
  assert (RelDecision E_) as HdE by (intros t t'; unfold E_; apply _).
  destruct (finite_closure (all_pairs v) E_ G0) as (G & G1 & G2 & G3 & G4).
  { unfold G0. intros t. rewrite elem_of_filter. tauto. }
  assert (forall y s a b d, y ∉ F -> v !! y = Some s -> top s = false -> source v y a b = inr d ->
    E_ (y, a, b) (d, a, b)) as HE.
  { intros y s a b d Hy Ey Ht Hs. unfold E_, flag_at. cbn. rewrite Ey. cbn. done. }
  assert (forall t, t ∈ G -> t ∈ G /\ (t ∈ G0 \/ exists t', t' ∈ G /\ E_ t t')) as Hinv.
  { apply G4; [intros t Ht; split; [by apply G1|by left]|]. intros t t' Hu He [Ht' _]. split; [by eapply G3|right; by exists t']. }
  assert (forall t, t ∈ G -> (z, t.1.2, t.2) ∈ G0 /\ exists s, v !! t.1.1 = Some s /\ bef_of s t.1.2 t.2 = bef_of cur t.1.2 t.2) as Hreach.
  { apply G4.
    - intros [[y a] b] Hin. cbn. pose proof Hin as (Hy & _)%elem_of_filter. cbn in Hy. destruct Hy as [-> _]. split; [done|by exists cur].
    - intros [[y a] b] [[d a'] b'] Hu ([Hy Ht] & Hsrc & Ha & Hb) [H1 (sd & Ed & H2)]. cbn in *. subst a' b'. split; [done|].
      apply elem_all_pairs in Hu as (s & Ey & _ & _). exists s. split; [done|]. destruct (decide (y = z)) as [->|Hyz]; [congruence|].
      unfold flag_at in Ht. rewrite Ey in Ht. cbn in Ht. rewrite (stable_order v y s a b) by auto. rewrite Hsrc. cbn. by rewrite Ed. }
  exists G. split.
  - intros y s Hy Ey. destruct (decide (y = z)) as [->|Hyz]; [congruence|]. apply stable_cls; auto.
  - intros y s a b Hy Ey Ht Ha Hb. assert ((y, a, b) ∈ all_pairs v) as Hu by (apply elem_all_pairs; by exists s).
    assert (top (J v z) = top cur) as Htz by (by apply cls_top).
    split.
    + destruct (source v y a b) as [c|d] eqn:Hsrc; cbn [wrong_source]; [done|]. intros Hd.
      split; [apply (G3 _ (d, a, b)); [done|done|]; by eapply HE|]. destruct (decide (y = z)) as [->|Hyz].
      * assert (s = cur) as -> by congruence. destruct (Hreach _ Hd) as [_ (sd & Ed & H)]. cbn in *. by rewrite Ed.
      * rewrite (stable_order v y s a b) by auto. by rewrite Hsrc.
    + intros Hw. destruct (decide (y = z)) as [->|Hyz].
      * assert (s = cur) as -> by congruence. rewrite <- J_order by congruence. split.
        -- intros Hg. destruct (Hreach _ Hg) as [Hg0 _]. cbn in Hg0. apply elem_of_filter in Hg0 as [[_ H] _]. exact H.
        -- intros Hne. apply G1, elem_of_filter. done.
      * rewrite (stable_order v y s a b) by auto. split; [|done]. intros Hg. exfalso. destruct (Hinv _ Hg) as [_ [Hg0|(t' & Ht' & [_ (Hs & H1 & H2)])]].
        -- apply elem_of_filter in Hg0 as [[Hz _] _]. cbn in Hz. done.
        -- cbn in *. apply Hw. rewrite Hs. cbn. destruct t' as [[d a'] b']. cbn in *. by subst.
Qed.
End Fix.
