(* ===== verification/EffectLoop.v ===== *)
(** * EffectLoop: the worklist of the effect fixpoint terminates

    The state of the loop keeps every summary below its equation and every
    unstable script on the stack. Each step decreases, lexicographically, the
    room left for the sets to grow, the part of the stack that waits below the
    current phase, the pairs whose order is still to settle, the saturated
    summaries with a stale rest, and the stack. *)

From Stdlib Require Import Relation_Operators Wellfounded.Lexicographic_Product.
From stdpp Require Import strings.
From S2P Require Import Prelude Facts Mem Effects EffectJoin EffectFix.

(** ** Five nested measures *)

Definition lt5 : relation (nat * nat * nat * nat * nat) :=
  slexprod _ _ (slexprod _ _ (slexprod _ _ (slexprod _ _ lt lt) lt) lt) lt.

Lemma lt5_wf : well_founded lt5.
Proof. repeat apply wf_slexprod; apply lt_wf. Qed.

Lemma lt5_intro (p f g s w p' f' g' s' w' : nat) :
  (p < p' \/ p = p' /\ (f < f' \/ f = f' /\ (g < g' \/ g = g' /\ (s < s' \/ s = s' /\ w < w'))))%nat ->
  lt5 (p, f, g, s, w) (p', f', g', s', w').
Proof.
  intros [H|[-> [H|[-> [H|[-> [H|[-> H]]]]]]]].
  - by repeat apply left_slex.
  - do 3 apply left_slex. by apply right_slex.
  - do 2 apply left_slex. by apply right_slex.
  - apply left_slex. by apply right_slex.
  - by apply right_slex.
Qed.

Lemma sum_list_lt {A} (f g : A -> nat) (l : list A) (x : A) :
  x ∈ l -> (forall y, y ∈ l -> f y <= g y)%nat -> (f x < g x)%nat -> (sum_list_with f l < sum_list_with g l)%nat.
Proof.
  intros Hx Hle Hlt. induction l as [|a l IH]; [by apply elem_of_nil in Hx|]. cbn [sum_list_with].
  assert (forall y, y ∈ l -> f y <= g y)%nat as Hle' by (intros y Hy; apply Hle; by right).
  assert (sum_list_with f l <= sum_list_with g l)%nat.
  { clear IH Hx Hle. induction l as [|b l IH]; cbn [sum_list_with]; [lia|].
    pose proof (Hle' b (list_elem_of_here b l)). assert (sum_list_with f l <= sum_list_with g l)%nat by (apply IH; intros y Hy; apply Hle'; by right). lia. }
  apply elem_of_cons in Hx as [->|Hx]; [lia|]. pose proof (Hle a (list_elem_of_here a l)). specialize (IH Hx Hle'). lia.
Qed.

Lemma sum_list_eq {A} (f g : A -> nat) (l : list A) :
  (forall y, y ∈ l -> f y = g y) -> sum_list_with f l = sum_list_with g l.
Proof.
  induction l as [|a l IH]; intros Hs; cbn [sum_list_with]; [done|]. rewrite (Hs a) by left. f_equal. apply IH. intros y Hy. apply Hs. by right.
Qed.

(** ** The stack *)

Lemma push_all_spec (cs work : list Z) :
  NoDup work ->
  exists p, fold_left push_work cs (work, list_to_set work) = (p ++ work, list_to_set (p ++ work)) /\
    NoDup (p ++ work) /\ (forall c, c ∈ cs -> c ∈ p ++ work) /\ (forall c, c ∈ p -> c ∈ cs).
Proof.
  revert work. induction cs as [|c cs IH]; intros work Hnd; cbn [fold_left].
  { exists []. split_and!; [done|done| |done]. intros c Hc. by apply elem_of_nil in Hc. }
  unfold push_work at 2. destruct (decide (c ∈ (list_to_set work : gset Z))) as [Hin|Hin].
  - rewrite bool_decide_true by done. destruct (IH work Hnd) as (p & -> & H1 & H2 & H3). exists p. split_and!; [done|done| |].
    + intros d [->|Hd]%elem_of_cons; [|by apply H2]. apply elem_of_app. right. by apply elem_of_list_to_set in Hin.
    + intros d Hd. right. by apply H3.
  - rewrite bool_decide_false by done. rewrite elem_of_list_to_set in Hin.
    destruct (IH (c :: work)) as (p & E & H1 & H2 & H3); [by constructor|]. exists (p ++ [c]).
    rewrite <- !(assoc_L (++)). cbn [app]. split_and!; [exact E|done| |].
    + intros d [->|Hd]%elem_of_cons; [|by apply H2]. apply elem_of_app. right. left.
    + intros d [Hd| ->%list_elem_of_singleton]%elem_of_app; [right; by apply H3|left].
Qed.

Lemma pop_queued (z : Z) (work : list Z) :
  NoDup (z :: work) -> (list_to_set (z :: work) ∖ {[z]} : gset Z) = list_to_set work.
Proof. intros [Hz _]%list.NoDup_cons. cbn. set_solver. Qed.

(** ** The callers *)

Lemma rev_deps_one (ds : list Z) (s : Z) (m : gmap Z (list Z)) (d c : Z) :
  c ∈ default [] (fold_left (fun m d => <[d := (default [] (m !! d) ++ [s])%list]> m) ds m !! d) <->
  c ∈ default [] (m !! d) \/ (c = s /\ d ∈ ds).
Proof.
  revert m. induction ds as [|e ds IH]; intros m; cbn [fold_left].
  { rewrite elem_of_nil. tauto. }
  rewrite IH, elem_of_cons. destruct (decide (d = e)) as [->|Hne].
  - rewrite lookup_insert_eq. change (default [] (Some ?x)) with x. rewrite elem_of_app, list_elem_of_singleton. tauto.
  - rewrite lookup_insert_ne by done. tauto.
Qed.

Lemma rev_deps_spec (deps : gmap Z (list Z)) (sids : list Z) (d c : Z) :
  c ∈ default [] (rev_deps deps sids !! d) <-> c ∈ sids /\ d ∈ default [] (deps !! c).
Proof.
  unfold rev_deps. assert (forall m : gmap Z (list Z), c ∈ default [] (fold_left (fun m sid =>
      fold_left (fun m d => <[d := (default [] (m !! d) ++ [sid])%list]> m) (default [] (deps !! sid)) m) sids m !! d) <->
    c ∈ default [] (m !! d) \/ (c ∈ sids /\ d ∈ default [] (deps !! c))) as H.
  { induction sids as [|s sids IH]; intros m; cbn [fold_left].
    - rewrite elem_of_nil. tauto.
    - rewrite IH, rev_deps_one, elem_of_cons. split; [intros [[?|[-> ?]]|?]; tauto|intros [?|[[->|?] ?]]; tauto]. }
  rewrite H, lookup_empty. cbn. rewrite elem_of_nil. tauto.
Qed.

(** ** Sets and filters *)

Lemma union_elem_in {A} `{Countable A} (f : Z -> gset A) (l : list Z) (z : Z) : z ∈ l -> f z ⊆ ⋃ (f <$> l).
Proof. induction l as [|y l IH]; [by intros ?%elem_of_nil|]. cbn. intros [->|Hz]%elem_of_cons; [set_solver|]. specialize (IH Hz). set_solver. Qed.

Lemma union_elem_out {A} `{Countable A} (f : Z -> gset A) (l : list Z) (X : gset A) :
  (forall z, z ∈ l -> f z ⊆ X) -> ⋃ (f <$> l) ⊆ X.
Proof.
  induction l as [|y l IH]; cbn; [set_solver|]. intros Hs. apply union_subseteq. split; [apply Hs; left|apply IH].
  intros z Hz. apply Hs. by right.
Qed.

Lemma diff_le {A} `{Countable A} (U X Y : gset A) : X ⊆ Y -> (size (U ∖ Y) <= size (U ∖ X))%nat.
Proof. intros Hs. apply subseteq_size. set_solver. Qed.

Lemma diff_lt {A} `{Countable A} (U X Y : gset A) : X ⊆ Y -> Y ⊆ U -> X <> Y -> (size (U ∖ Y) < size (U ∖ X))%nat.
Proof.
  intros Hs Hu Hne. apply subset_size. split; [set_solver|]. intros Hc. apply Hne, set_eq. intros x. split; [apply Hs|].
  intros Hx. destruct (decide (x ∈ X)) as [|Hn]; [done|exfalso].
  assert (x ∈ U ∖ Y) as [_ H']%elem_of_difference; [|done]. apply Hc, elem_of_difference. split; [by apply Hu|done].
Qed.

Lemma flag_room (a b : bool) : (a = true -> b = true) -> (Nat.b2n (negb b) <= Nat.b2n (negb a))%nat /\ (a <> b -> Nat.b2n (negb b) < Nat.b2n (negb a))%nat.
Proof. destruct a, b; cbn; intros Hi; (split; [lia|]); intros Hne; try done; try lia; by specialize (Hi eq_refl). Qed.

Lemma filter_le {A} (f g : A -> bool) (l : list A) :
  (forall y, y ∈ l -> f y = true -> g y = true) -> (length (List.filter f l) <= length (List.filter g l))%nat.
Proof.
  induction l as [|a l IH]; intros Hs; cbn [List.filter]; [done|].
  assert (length (List.filter f l) <= length (List.filter g l))%nat by (apply IH; intros y Hy; apply Hs; by right).
  specialize (Hs a (list_elem_of_here a l)). destruct (f a), (g a); cbn [length]; naive_solver lia.
Qed.

Lemma filter_lt {A} (f g : A -> bool) (l : list A) (x : A) :
  x ∈ l -> (forall y, y ∈ l -> f y = true -> g y = true) -> f x = false -> g x = true ->
  (length (List.filter f l) < length (List.filter g l))%nat.
Proof.
  intros Hx Hs Hf Hg. induction l as [|a l IH]; [by apply elem_of_nil in Hx|]. cbn [List.filter].
  assert (forall y, y ∈ l -> f y = true -> g y = true) as Hs' by (intros y Hy; apply Hs; by right).
  apply elem_of_cons in Hx as [->|Hx].
  - rewrite Hf, Hg. cbn [length]. pose proof (filter_le f g l Hs'). lia.
  - specialize (IH Hx Hs'). specialize (Hs a (list_elem_of_here a l)). destruct (f a), (g a); cbn [length]; naive_solver lia.
Qed.

(** ** The loop *)

Section Loop.
Context (local : gmap Z EffectSummary) (deps : gmap Z (list Z)) (sids : list Z).
Context (Hnd : NoDup sids) (Hdom : forall z, z ∈ sids <-> is_Some (local !! z)).

#[local] Abbreviation loc z := (default effect_default (local !! z)).
#[local] Abbreviation J := (joined_of local deps).
#[local] Abbreviation Map := (gmap Z EffectSummary).

(** All that the scripts may write themselves. *)
Definition some_fields : gset Field := ⋃ ((fun z => field_set (loc z)) <$> sids).
Definition some_gnames : gset Z := ⋃ ((fun z => gname_set (loc z)) <$> sids).

Definition bounded (s : EffectSummary) : Prop :=
  top s = false -> field_set s ⊆ some_fields /\ gname_set s ⊆ some_gnames.

Record loop_inv (work : list Z) (v : Map) : Prop := {
  li_dom : forall z, z ∈ sids <-> is_Some (v !! z);
  li_nodup : NoDup work;
  li_sub : forall z, z ∈ work -> z ∈ sids;
  li_shape : forall z s, v !! z = Some s -> (top s = false -> shaped (loc z) s) /\ bounded s;
  li_below : forall z s, v !! z = Some s -> sle s (J v z);
  li_stable : forall z, z ∈ sids -> z ∉ work -> stable local deps v z }.

Lemma J_bounded (v : Map) (z : Z) :
  z ∈ sids -> (forall y s, v !! y = Some s -> bounded s) -> bounded (J v z).
Proof.
  intros Hz Hb Ht. destruct (J_spec local deps v z) as [W1 W2]. destruct (proj1 W1 Ht) as (_ & O & _).
  destruct (W2 Ht) as [_ [A1 A2 _ _ _ _]]. rewrite A1, A2.
  assert (field_set (loc z) ⊆ some_fields /\ gname_set (loc z) ⊆ some_gnames) as [L1 L2].
  { split; [apply (union_elem_in (fun z => field_set (loc z)))|apply (union_elem_in (fun z => gname_set (loc z)))]; done. }
  split; apply union_subseteq; (split; [done|]); apply union_elem_out; intros d Hd;
    destruct (O d Hd) as (s & E & Es); [unfold fields_at|unfold gnames_at]; rewrite E; cbn; by apply (Hb d s E Es).
Qed.

(** One change of a summary to its join. *)
Lemma inv_update (work p : list Z) (v : Map) (z : Z) :
  loop_inv (z :: work) v -> NoDup (p ++ work) ->
  (forall c, c ∈ sids -> z ∈ default [] (deps !! c) -> c ∈ p ++ work) -> (forall c, c ∈ p -> c ∈ sids) ->
  loop_inv (p ++ work) (<[z := J v z]> v).
Proof.
  intros [I1 I2 I3 I4 I5 I6] Hnd' Hc Hp. assert (z ∈ sids) as Hz by (apply I3; left).
  destruct (proj1 (I1 z) Hz) as [cur Ecur].
  assert (mle v (<[z := J v z]> v)) as Hm.
  { intros d s. destruct (decide (z = d)) as [<-|Hne].
    - rewrite lookup_insert_eq. intros [= <-]. exists cur. split; [done|by apply I5].
    - rewrite lookup_insert_ne by done. intros E. exists s. split; [done|apply sle_refl]. }
  split; [| |intros y [Hy|Hy]%elem_of_app; [by apply Hp|apply I3; by right]| | |]; try done.
  - intros y. rewrite I1. destruct (decide (z = y)) as [<-|Hne]; [rewrite lookup_insert_eq, Ecur; split; by eexists|by rewrite lookup_insert_ne].
  - intros y s. destruct (decide (z = y)) as [<-|Hne]; [rewrite lookup_insert_eq|rewrite lookup_insert_ne by done; apply I4].
    intros [= <-]. split; [|apply J_bounded; [done|intros; by eapply I4]].
    intros Et. by apply J_spec.
  - intros y s. destruct (decide (z = y)) as [<-|Hne].
    + rewrite lookup_insert_eq. intros [= <-]. by apply J_mono.
    + rewrite lookup_insert_ne by done. intros E. eapply sle_trans; [by apply I5|by apply J_mono].
  - intros y Hy Hn s E.
    assert (z ∉ default [] (deps !! y)) as Hzy by (intros Hin; apply Hn, Hc; done).
    assert (effect_eqb (J v y) (J (<[z := J v z]> v) y) = true) as Hj.
    { apply J_agree. intros d Hd. apply agree_other. intros ->. done. }
    destruct (decide (z = y)) as [<-|Hne].
    + rewrite lookup_insert_eq in E. by injection E as <-.
    + rewrite lookup_insert_ne in E by done. eapply eqb_trans; [|exact Hj]. apply (I6 y); [done| |done].
      intros [->|Hin]%elem_of_cons; [done|]. apply Hn, elem_of_app. by right.
Qed.

(** ** The measures *)

Definition room (s : EffectSummary) : nat :=
  if top s then 0%nat
  else (1 + size (some_fields ∖ field_set s) + size (some_gnames ∖ gname_set s) +
        Nat.b2n (negb (elems_write s)) + Nat.b2n (negb (env_write s)))%nat.

Definition total_room (v : Map) : nat := sum_list_with (fun z => from_option room 0%nat (v !! z)) sids.

Definition is_stale (v : Map) (z : Z) : bool := from_option (fun s => negb (effect_eqb s (J v z))) false (v !! z).
Definition stale (v : Map) : nat := length (List.filter (is_stale v) sids).

Lemma room_cls (a b : EffectSummary) : cls a = cls b -> room a = room b.
Proof. unfold cls, room. destruct (top a), (top b); try done. by intros [= -> -> -> ->]. Qed.

Lemma room_grows (a b : EffectSummary) : sle a b -> cls a <> cls b -> bounded b -> (room b < room a)%nat.
Proof.
  intros Hle Hne Hb. destruct Hle as [Hb'|(A1 & A2 & A3 & A4 & A5 & A6)].
  - unfold room, cls in *. rewrite Hb' in *. destruct (top a); [done|lia].
  - destruct (Hb A2) as [B1 B2]. unfold room, cls in *. rewrite A1, A2 in *.
    pose proof (diff_le some_fields _ _ A3). pose proof (diff_le some_gnames _ _ A4).
    destruct (flag_room _ _ A5) as [F1 F2]. destruct (flag_room _ _ A6) as [G1 G2].
    destruct (decide (field_set a = field_set b)) as [Ef|Ef]; [|pose proof (diff_lt some_fields _ _ A3 B1 Ef); lia].
    destruct (decide (gname_set a = gname_set b)) as [Eg|Eg]; [|pose proof (diff_lt some_gnames _ _ A4 B2 Eg); lia].
    destruct (decide (elems_write a = elems_write b)) as [Ee|Ee]; [|specialize (F2 Ee); lia].
    destruct (decide (env_write a = env_write b)) as [Ev|Ev]; [|specialize (G2 Ev); lia]. congruence.
Qed.

Lemma total_room_same (v w : Map) : same v w -> total_room v = total_room w.
Proof.
  intros Hs. apply sum_list_eq. intros y _. specialize (Hs y). destruct (v !! y), (w !! y); try done. cbn in *. apply room_cls. congruence.
Qed.

Lemma total_room_grows (v : Map) (z : Z) (s x : EffectSummary) :
  z ∈ sids -> v !! z = Some s -> (room x < room s)%nat -> (total_room (<[z := x]> v) < total_room v)%nat.
Proof.
  intros Hz E Hlt. unfold total_room. apply (sum_list_lt _ _ _ z); [done| |].
  - intros y _. destruct (decide (z = y)) as [<-|Hne]; [rewrite lookup_insert_eq, E; cbn; lia|by rewrite lookup_insert_ne].
  - by rewrite lookup_insert_eq, E.
Qed.

(** A saturated summary whose rest changes is stale no longer, and no other
    join notices. *)
Lemma stale_update (v : Map) (z : Z) (cur : EffectSummary) :
  z ∈ sids -> v !! z = Some cur -> top cur = true -> top (J v z) = true -> effect_eqb cur (J v z) = false ->
  (stale (<[z := J v z]> v) < stale v)%nat.
Proof.
  intros Hz E Ht Hj Hne. set (w := <[z := J v z]> v).
  assert (forall y, effect_eqb (J v y) (J w y) = true) as Hag.
  { intros y. apply J_agree. intros d _. destruct (decide (d = z)) as [->|Hd]; [|by apply agree_other].
    unfold settled_agree, w. rewrite E, lookup_insert_eq. left. done. }
  apply (filter_lt _ _ _ z); [done| | |].
  - intros y _. unfold is_stale, w. destruct (decide (z = y)) as [<-|Hd].
    + rewrite lookup_insert_eq. cbn [from_option]. fold w. by rewrite Hag.
    + rewrite lookup_insert_ne by done. destruct (v !! y) as [s|]; [|done]. cbn [from_option]. fold w. intros H.
      destruct (effect_eqb s (J v y)) eqn:Es; [|done]. by rewrite (eqb_trans _ _ _ Es (Hag y)) in H.
  - unfold is_stale, w. rewrite lookup_insert_eq. cbn [from_option]. fold w. by rewrite Hag.
  - unfold is_stale. rewrite E. cbn. by rewrite Hne.
Qed.

(** ** Termination *)

Lemma inv_pop (z : Z) (work : list Z) (v : Map) :
  loop_inv (z :: work) v -> stable local deps v z -> loop_inv work v.
Proof.
  intros [I1 I2 I3 I4 I5 I6] Hs. split; try done.
  - by apply list.NoDup_cons in I2 as [_ ?].
  - intros y Hy. apply I3. by right.
  - intros y Hy Hn. destruct (decide (y = z)) as [->|Hne]; [done|]. apply I6; [done|]. by intros [|]%elem_of_cons.
Qed.

(** The rest of a saturated summary is no one's source. *)
Lemma phase_top (F : list Z) (G : gset (Z * Write_ * Write_)) (v : Map) (z : Z) (cur : EffectSummary) :
  phase local deps F G v -> v !! z = Some cur -> top cur = true -> top (J v z) = true ->
  phase local deps F G (<[z := J v z]> v).
Proof.
  intros [P1 P2] E Ht Hj. assert (cls (J v z) = cls cur) as Ec by (unfold cls; by rewrite Ht, Hj).
  pose proof (insert_same v z cur (J v z) E Ec) as Hsame. split.
  - intros y s Hy Ey. rewrite <- (J_same local deps v _ y Hsame). destruct (decide (y = z)) as [->|Hne].
    + rewrite lookup_insert_eq in Ey. injection Ey as <-. unfold cls. by rewrite Hj.
    + rewrite lookup_insert_ne in Ey by done. by apply P1.
  - intros y s a b Hy Ey Hs Ha Hb. destruct (decide (y = z)) as [->|Hne].
    { rewrite lookup_insert_eq in Ey. injection Ey as <-. congruence. }
    rewrite lookup_insert_ne in Ey by done. assert (top (J v y) = false) as Hjy by (by rewrite (cls_top _ _ (P1 y s Hy Ey))).
    rewrite <- (source_same local deps v _ y a b Hsame Hjy).
    assert (source_bef (<[z := J v z]> v) (source local deps v y a b) a b = source_bef v (source local deps v y a b) a b) as ->.
    { destruct (source local deps v y a b) as [c|d] eqn:Hsrc; [done|]. cbn. destruct (decide (d = z)) as [->|Hd]; [|by rewrite lookup_insert_ne].
      destruct (source_in local deps v y z a b Hsrc) as (Hin & _).
      destruct (proj1 (proj1 (J_spec local deps v y)) Hjy) as (_ & O & _). destruct (O z Hin) as (s' & E' & Et'). congruence. }
    by apply P2.
Qed.

Lemma stable_off (work : list Z) (v : Map) : loop_inv work v -> forall z, z ∉ work -> stable local deps v z.
Proof.
  intros Hi z Hz s E. apply (li_stable _ _ Hi z); [|done|done]. apply (li_dom _ _ Hi). by exists s.
Qed.

(** The phase the popped script is updated in. *)
Lemma popped_phase (W F : list Z) (G : gset (Z * Write_ * Write_)) (v : Map) (z : Z) (rest : list Z) (cur : EffectSummary) :
  loop_inv (W ++ F) v -> phase local deps F G v -> W ++ F = z :: rest -> v !! z = Some cur ->
  exists Wx Fx, rest = Wx ++ Fx /\ z ∉ Fx /\
    (cls (J v z) = cls cur -> exists Gx, phase local deps Fx Gx v /\ ((length Fx < length F)%nat \/ (Fx = F /\ Gx = G))).
Proof.
  intros Hi Hp Hw E. pose proof (li_nodup _ _ Hi) as Hn. rewrite Hw in Hn. apply list.NoDup_cons in Hn as [Hz Hn].
  destruct W as [|w W]; cbn in Hw.
  - exists [], rest. subst F. split_and!; [done|done|]. intros Ec.
    destruct (phase_start local deps rest v z cur E Ec) as [Gx Hx].
    { intros y Hy Hne. apply (stable_off _ _ Hi). cbn. by intros [|]%elem_of_cons. }
    exists Gx. split; [done|]. left. cbn. lia.
  - injection Hw as -> <-. exists W, F. split_and!; [done| |].
    + intros Hin. apply Hz, elem_of_app. by right.
    + intros _. exists G. split; [done|by right].
Qed.

Lemma loop_terminates (Q : Map -> Prop) :
  (forall v z, Q v -> z ∈ sids -> Q (<[z := J v z]> v)) ->
  forall W F G v, loop_inv (W ++ F) v -> phase local deps F G v -> Q v ->
  exists n v', (forall fuel, (n <= fuel)%nat ->
    effect_loop local deps fuel (rev_deps deps sids) (W ++ F) (list_to_set (W ++ F)) v = Ok v') /\
    loop_inv [] v' /\ Q v'.
Proof.
  intros HQ. enough (forall m W F G v, m = (total_room v, length F, size G, stale v, length (W ++ F)) ->
    loop_inv (W ++ F) v -> phase local deps F G v -> Q v ->
    exists n v', (forall fuel, (n <= fuel)%nat ->
      effect_loop local deps fuel (rev_deps deps sids) (W ++ F) (list_to_set (W ++ F)) v = Ok v') /\
      loop_inv [] v' /\ Q v') as H by (intros W F G v; by apply (H _ W F G v eq_refl)).
  intros m. induction m as [m IH] using (well_founded_induction lt5_wf). intros W F G v -> Hi Hp Hq.
  destruct (W ++ F) as [|z rest] eqn:Ew.
  { exists 0%nat, v. split_and!; [|done|done]. intros fuel _. by destruct fuel. }
  assert (z ∈ sids) as Hz by (apply (li_sub _ _ Hi); left).
  destruct (proj1 (li_dom _ _ Hi z) Hz) as [cur E]. rewrite <- Ew in Hi.
  destruct (popped_phase W F G v z rest cur Hi Hp Ew E) as (Wx & Fx & -> & HzF & Hph). rewrite Ew in Hi.
  assert (forall fuel, effect_loop local deps (S fuel) (rev_deps deps sids) (z :: Wx ++ Fx) (list_to_set (z :: Wx ++ Fx)) v =
    if negb (effect_eqb cur (J v z)) then
      let '(work, queued) := fold_left push_work (default [] (rev_deps deps sids !! z)) (Wx ++ Fx, list_to_set (Wx ++ Fx)) in
      effect_loop local deps fuel (rev_deps deps sids) work queued (<[z := J v z]> v)
    else effect_loop local deps fuel (rev_deps deps sids) (Wx ++ Fx) (list_to_set (Wx ++ Fx)) v) as Hstep.
  { intros fuel. cbn [effect_loop]. rewrite E. by rewrite (pop_queued z (Wx ++ Fx) (li_nodup _ _ Hi)). }
  assert (NoDup (Wx ++ Fx)) as Hnd' by (pose proof (li_nodup _ _ Hi) as Hn; by apply list.NoDup_cons in Hn as [_ ?]).
  destruct (effect_eqb cur (J v z)) eqn:Eq.
  { (* nothing changed *)
    destruct (Hph (eq_sym (eqb_cls _ _ Eq))) as (Gx & Hpx & Hm).
    destruct (IH (total_room v, length Fx, size Gx, stale v, length (Wx ++ Fx))) with (W := Wx) (F := Fx) (G := Gx) (v := v) as (n & v' & H1 & H2 & H3); [|done| |done|done|].
    - apply lt5_intro. cbn [length]. destruct Hm as [Hm|[-> ->]]; [lia|lia].
    - apply (inv_pop z); [done|]. intros s Es. congruence.
    - exists (S n), v'. split; [|done]. intros [|fuel] Hf; [lia|]. rewrite Hstep. cbn [negb]. apply H1. lia. }
  destruct (push_all_spec (default [] (rev_deps deps sids !! z)) (Wx ++ Fx) Hnd') as (p & Epush & P1 & P2 & P3).
  assert (loop_inv (p ++ Wx ++ Fx) (<[z := J v z]> v)) as Hi'.
  { apply inv_update; [done|done| |].
    - intros c Hc Hin. apply P2, rev_deps_spec. done.
    - intros c Hc. apply P3, rev_deps_spec in Hc as [? _]. done. }
  assert (forall W' F' G', p ++ Wx ++ Fx = W' ++ F' ->
    lt5 (total_room (<[z := J v z]> v), length F', size G', stale (<[z := J v z]> v), length (W' ++ F'))
        (total_room v, length F, size G, stale v, length (z :: Wx ++ Fx)) ->
    phase local deps F' G' (<[z := J v z]> v) ->
    exists n v', (forall fuel, (n <= fuel)%nat ->
      effect_loop local deps fuel (rev_deps deps sids) (z :: Wx ++ Fx) (list_to_set (z :: Wx ++ Fx)) v = Ok v') /\
      loop_inv [] v' /\ Q v') as Hgo.
  { intros W' F' G' EW Hlt Hp'. rewrite EW in Hi', Epush.
    destruct (IH _ Hlt W' F' G' _ eq_refl Hi' Hp' (HQ v z Hq Hz)) as (n & v' & H1 & H2).
    exists (S n), v'. split; [|done]. intros [|fuel] Hf; [lia|]. rewrite Hstep. cbn [negb]. rewrite Epush. apply H1. lia. }
  pose proof (li_below _ _ Hi z cur E) as Hbelow.
  assert (bounded (J v z)) as Hbd by (apply J_bounded; [done|intros y s Hy; by apply (li_shape _ _ Hi y s Hy)]).
  destruct (decide (cls (J v z) = cls cur)) as [Ec|Ec].
  2:{ (* a set grew *)
    apply (Hgo [] (p ++ Wx ++ Fx) ∅); [done| |].
    - apply lt5_intro. left. apply (total_room_grows v z cur); [done|done|]. apply room_grows; [done|congruence|done].
    - apply phase_fresh. apply (stable_off _ _ Hi'). }
  destruct (Hph Ec) as (Gx & Hpx & Hm).
  pose proof (total_room_same _ _ (insert_same v z cur (J v z) E Ec)) as Hroom.
  destruct (top cur) eqn:Et.
  - assert (top (J v z) = true) as Ej by (by rewrite (cls_top _ _ Ec)).
    apply (Hgo (p ++ Wx) Fx Gx); [by rewrite (assoc_L (++))| |by apply (phase_top _ _ _ _ cur)].
    apply lt5_intro. rewrite <- Hroom. pose proof (stale_update v z cur Hz E Et Ej Eq). destruct Hm as [Hm|[-> ->]]; lia.
  - destruct (phase_update local deps Fx Gx v z cur Hpx HzF E Et) as (G' & Hp' & Hlt); [by apply (li_shape _ _ Hi z cur E)|done|].
    apply (Hgo (p ++ Wx) Fx G'); [by rewrite (assoc_L (++))| |done].
    apply lt5_intro. rewrite <- Hroom. destruct Hm as [Hm|[-> ->]]; lia.
Qed.
End Loop.

(** * a summary is the union of what the script can reach

    The loop's result solves the equations, and solves them exactly: a summary
    that is not saturated has the writes of the scripts reachable over the
    call edges and no other; it is saturated only when one of those is, is
    unknown, or reaches more than the caps hold. *)

Section Exact.
Context (local : gmap Z EffectSummary) (deps : gmap Z (list Z)) (sids : list Z).
Context (Hnd : NoDup sids) (Hdom : forall z, z ∈ sids <-> is_Some (local !! z)).

#[local] Abbreviation loc z := (default effect_default (local !! z)).
#[local] Abbreviation J := (joined_of local deps).
#[local] Abbreviation Map := (gmap Z EffectSummary).

(** Over the resolved call edges. *)
Definition calls (a b : Z) : Prop := b ∈ default [] (deps !! a).
Definition reaches : Z -> Z -> Prop := rtc calls.

(** A script that reaches more than a cap holds. *)
Definition overflows (y : Z) : Prop :=
  (exists X : gset Field, (forall x, x ∈ X -> exists t, reaches y t /\ x ∈ field_writes (loc t)) /\ ~ fits_fields (loc y) X) \/
  (exists X : gset Z, (forall x, x ∈ X -> exists t, reaches y t /\ x ∈ gname_writes (loc t)) /\ ~ fits_gnames (loc y) X).

(** Why a summary may be saturated. *)
Definition lost (y : Z) : Prop := top (loc y) = true \/ y ∉ sids \/ overflows y.

Record within (z : Z) (s : EffectSummary) : Prop := {
  wi_top : top s = true -> exists y, reaches z y /\ lost y;
  wi_fields : top s = false -> forall x, x ∈ field_set s -> exists t, reaches z t /\ x ∈ field_writes (loc t);
  wi_gnames : top s = false -> forall x, x ∈ gname_set s -> exists t, reaches z t /\ x ∈ gname_writes (loc t);
  wi_elems : top s = false -> elems_write s = true -> exists t, reaches z t /\ elems_write (loc t) = true;
  wi_env : top s = false -> env_write s = true -> exists t, reaches z t /\ env_write (loc t) = true }.

Definition all_within (v : Map) : Prop :=
  (forall z, z ∈ sids -> is_Some (v !! z)) /\ (forall z s, v !! z = Some s -> within z s).

#[local] Instance fits_dec {A} `{Countable A} (cap : nat) (L : list A) (X : gset A) : Decision (fits cap L X).
Proof. unfold fits. apply _. Defined.

#[local] Instance open_dec (v : Map) (d : Z) : Decision (open_at v d).
Proof.
  unfold open_at. destruct (v !! d) as [s|] eqn:E.
  - destruct (top s) eqn:Et; [right; intros (s' & E' & Et'); congruence|left; by exists s].
  - right. intros (s' & E' & _). congruence.
Defined.

Lemma elem_dep_fields (v : Map) (l : list Z) (x : Field) : x ∈ dep_fields v l <-> exists d, d ∈ l /\ x ∈ fields_at v d.
Proof.
  unfold dep_fields. rewrite elem_of_union_list. split.
  - intros (X & (d & -> & Hd)%list_elem_of_fmap & Hx). by exists d.
  - intros (d & Hd & Hx). exists (fields_at v d). split; [|done]. apply list_elem_of_fmap. by exists d.
Qed.

Lemma elem_dep_gnames (v : Map) (l : list Z) (x : Z) : x ∈ dep_gnames v l <-> exists d, d ∈ l /\ x ∈ gnames_at v d.
Proof.
  unfold dep_gnames. rewrite elem_of_union_list. split.
  - intros (X & (d & -> & Hd)%list_elem_of_fmap & Hx). by exists d.
  - intros (d & Hd & Hx). exists (gnames_at v d). split; [|done]. apply list_elem_of_fmap. by exists d.
Qed.

Lemma reaches_dep (z d t : Z) : d ∈ default [] (deps !! z) -> reaches d t -> reaches z t.
Proof. intros Hd Ht. by apply rtc_l with d. Qed.

(** What the dependencies of a script hold, it reaches. *)
Lemma dep_within (v : Map) (z : Z) :
  all_within v -> (forall d, d ∈ default [] (deps !! z) -> open_at v d) ->
  (forall x, x ∈ field_set (loc z) ∪ dep_fields v (default [] (deps !! z)) -> exists t, reaches z t /\ x ∈ field_writes (loc t)) /\
  (forall x, x ∈ gname_set (loc z) ∪ dep_gnames v (default [] (deps !! z)) -> exists t, reaches z t /\ x ∈ gname_writes (loc t)) /\
  (existsb (flag_at v elems_write) (default [] (deps !! z)) = true -> exists t, reaches z t /\ elems_write (loc t) = true) /\
  (existsb (flag_at v env_write) (default [] (deps !! z)) = true -> exists t, reaches z t /\ env_write (loc t) = true).
Proof.
  intros [_ Hw] O. split_and!.
  - intros x [Hx|(d & Hd & Hx)%elem_dep_fields]%elem_of_union; [exists z; split; [apply rtc_refl|by apply elem_field_set]|].
    destruct (O d Hd) as (s & E & Et). unfold fields_at in Hx. rewrite E in Hx. cbn in Hx.
    destruct (wi_fields _ _ (Hw d s E) Et x Hx) as (t & Ht & Hx'). exists t. split; [by eapply reaches_dep|done].
  - intros x [Hx|(d & Hd & Hx)%elem_dep_gnames]%elem_of_union; [exists z; split; [apply rtc_refl|by apply elem_gname_set]|].
    destruct (O d Hd) as (s & E & Et). unfold gnames_at in Hx. rewrite E in Hx. cbn in Hx.
    destruct (wi_gnames _ _ (Hw d s E) Et x Hx) as (t & Ht & Hx'). exists t. split; [by eapply reaches_dep|done].
  - intros (d & Hd%list_elem_of_In & Hf)%existsb_exists. destruct (O d Hd) as (s & E & Et). unfold flag_at in Hf. rewrite E in Hf.
    destruct (wi_elems _ _ (Hw d s E) Et Hf) as (t & Ht & Hx'). exists t. split; [by eapply reaches_dep|done].
  - intros (d & Hd%list_elem_of_In & Hf)%existsb_exists. destruct (O d Hd) as (s & E & Et). unfold flag_at in Hf. rewrite E in Hf.
    destruct (wi_env _ _ (Hw d s E) Et Hf) as (t & Ht & Hx'). exists t. split; [by eapply reaches_dep|done].
Qed.

Lemma J_within (v : Map) (z : Z) : all_within v -> within z (J v z).
Proof.
  intros Hv. destruct (J_spec local deps v z) as [W1 W2].
  assert (top (J v z) = true -> exists y, reaches z y /\ lost y) as Htop.
  { intros Ht. destruct (top (loc z)) eqn:El; [exists z; split; [apply rtc_refl|by left]|].
    destruct (decide (Forall (open_at v) (default [] (deps !! z)))) as [Ho|Hno].
    2:{ apply not_Forall_Exists in Hno; [|intros d; apply open_dec]. apply list.Exists_exists in Hno as (d & Hd & Hn).
      destruct (v !! d) as [s|] eqn:E.
      - destruct (top s) eqn:Et; [|destruct Hn; by exists s].
        destruct (wi_top _ _ (proj2 Hv d s E) Et) as (y & Hy & Hl). exists y. split; [by eapply reaches_dep|done].
      - exists d. split; [by apply rtc_once|]. right. left. intros Hs. apply (proj1 Hv) in Hs as [s Hs]. congruence. }
    pose proof (proj1 (list.Forall_forall _ _) Ho) as O. destruct (dep_within v z Hv O) as (D1 & D2 & _).
    exists z. split; [apply rtc_refl|]. right. right.
    destruct (decide (fits_fields (loc z) (field_set (loc z) ∪ dep_fields v (default [] (deps !! z))))) as [F|F]; [|left; eexists; split; [exact D1|exact F]].
    destruct (decide (fits_gnames (loc z) (gname_set (loc z) ∪ dep_gnames v (default [] (deps !! z))))) as [G|G]; [|right; eexists; split; [exact D2|exact G]].
    assert (top (J v z) = false) by (apply W1; by split_and!). congruence. }
  destruct (top (J v z)) eqn:Ht; [split; rewrite ?Ht; try done; by intros _; apply Htop|].
  destruct (proj1 W1 eq_refl) as (L & O & _). destruct (W2 eq_refl) as [_ [A1 A2 A3 A4 _ _]].
  destruct (dep_within v z Hv O) as (D1 & D2 & D3 & D4). split; rewrite ?Ht; try done.
  - intros _. by rewrite A1.
  - intros _. by rewrite A2.
  - intros _. rewrite A3, orb_true_iff. intros [Hl|Hd]; [exists z; split; [apply rtc_refl|done]|by apply D3].
  - intros _. rewrite A4, orb_true_iff. intros [Hl|Hd]; [exists z; split; [apply rtc_refl|done]|by apply D4].
Qed.

Lemma all_within_update (v : Map) (z : Z) : all_within v -> all_within (<[z := J v z]> v).
Proof.
  intros Hv. pose proof (J_within v z Hv) as [H1 H2 H3 H4 H5]. split.
  - intros y Hy. destruct (decide (z = y)) as [<-|Hne]; [rewrite lookup_insert_eq; by eexists|rewrite lookup_insert_ne by done; by apply Hv].
  - intros y s. destruct (decide (z = y)) as [<-|Hne].
    + rewrite lookup_insert_eq. intros [= <-]. by split.
    + rewrite lookup_insert_ne by done. intros E. destruct (proj2 Hv y s E). by split.
Qed.

Lemma local_within : all_within local.
Proof.
  split; [intros z; apply Hdom|]. intros z s E. assert (loc z = s) as El by by rewrite E.
  split; intros Ht; rewrite ?El.
  - exists z. split; [apply rtc_refl|]. left. by rewrite El.
  - intros x Hx. exists z. split; [apply rtc_refl|]. rewrite El. by apply elem_field_set.
  - intros x Hx. exists z. split; [apply rtc_refl|]. rewrite El. by apply elem_gname_set.
  - intros H. exists z. split; [apply rtc_refl|]. by rewrite El.
  - intros H. exists z. split; [apply rtc_refl|]. by rewrite El.
Qed.

(** ** The result *)

Lemma initial_inv : loop_inv local deps sids (rev sids) local.
Proof.
  split.
  - apply Hdom.
  - by rewrite <- (NoDup_Permutation_proper _ _ (Permutation_rev sids)).
  - intros z Hz. by rewrite list_elem_of_In, <- in_rev, <- list_elem_of_In in Hz.
  - intros z s E. assert (loc z = s) as El by by rewrite E. rewrite El. split; [intros _; apply shaped_refl|].
    intros _. assert (z ∈ sids) as Hz by (apply Hdom; by exists s).
    split; [rewrite <- El at 1; apply (union_elem_in (fun z => field_set (loc z)))|rewrite <- El at 1; apply (union_elem_in (fun z => gname_set (loc z)))]; done.
  - intros z s E. assert (loc z = s) as El by by rewrite E. destruct (top (J local z)) eqn:Ht; [by left|right].
    destruct (J_spec local deps local z) as [W1 W2]. destruct (proj1 W1 Ht) as (L & _). destruct (W2 Ht) as [_ [A1 A2 A3 A4 _ _]].
    assert (forall b c d : bool, b = true -> c = b || d -> c = true) as B by (intros [] ? []; naive_solver).
    rewrite El in L, A1, A2, A3, A4. split_and!; [done|done|rewrite A1; set_solver|rewrite A2; set_solver| |].
    + intros H. by apply (B _ _ _ H A3).
    + intros H. by apply (B _ _ _ H A4).
  - intros z Hz Hn. destruct Hn. rewrite list_elem_of_In, <- in_rev. by apply list_elem_of_In.
Qed.

Definition solves (v : Map) : Prop := forall z, z ∈ sids -> exists s, v !! z = Some s /\ effect_eqb s (J v z) = true.

Lemma fixpoint_total :
  exists n v, (forall fuel, (n <= fuel)%nat ->
    effect_loop local deps fuel (rev_deps deps sids) (rev sids) (list_to_set sids) local = Ok v) /\
    solves v /\ all_within v /\ (forall z, z ∈ sids <-> is_Some (v !! z)).
Proof.
  destruct (loop_terminates local deps sids all_within (fun v z Hv _ => all_within_update v z Hv) [] (rev sids) ∅ local)
    as (n & v & H1 & H2 & H3).
  - apply initial_inv.
  - apply phase_fresh, (stable_off local deps sids), initial_inv.
  - apply local_within.
  - exists n, v. cbn [app] in H1. assert (list_to_set (rev sids) = (list_to_set sids : gset Z)) as Er.
    { apply set_eq. intros x. by rewrite !elem_of_list_to_set, !list_elem_of_In, <- in_rev. }
    rewrite Er in H1. split_and!; [done| |done|apply H2]. intros z Hz. destruct (proj1 (li_dom _ _ _ _ _ H2 z) Hz) as [s E].
    exists s. split; [done|]. apply (li_stable _ _ _ _ _ H2 z Hz); [|done]. apply not_elem_of_nil.
Qed.

(** More fuel gives the same result. *)
Lemma effect_loop_fuel (fuel fuel' : nat) (rv : gmap Z (list Z)) (work : list Z) (queued : gset Z) (v v' : Map) :
  effect_loop local deps fuel rv work queued v = Ok v' -> (fuel <= fuel')%nat -> effect_loop local deps fuel' rv work queued v = Ok v'.
Proof.
  revert fuel' work queued v. induction fuel as [|fuel IH]; intros [|fuel'] work queued v E Hf; try (by destruct work); try lia.
  destruct work as [|z work]; [done|]. cbn [effect_loop] in *. destruct (v !! z) as [cur|]; [|done].
  destruct (negb _); [|by apply IH; [|lia]]. destruct (fold_left push_work _ _) as [w q]. by apply IH; [|lia].
Qed.

(** A solution is unsaturated only over what it holds. *)
Record covers (s : EffectSummary) (t : Z) : Prop := {
  co_known : t ∈ sids /\ top (loc t) = false;
  co_fields : forall x, x ∈ field_writes (loc t) -> x ∈ field_writes s;
  co_gnames : forall x, x ∈ gname_writes (loc t) -> x ∈ gname_writes s;
  co_elems : elems_write (loc t) = true -> elems_write s = true;
  co_env : env_write (loc t) = true -> env_write s = true }.

Lemma solution_step (v : Map) (z : Z) (s : EffectSummary) :
  solves v -> (forall z, z ∈ sids <-> is_Some (v !! z)) -> v !! z = Some s -> top s = false ->
  covers s z /\ (forall d, calls z d -> exists s', v !! d = Some s' /\ sle s' s) /\
  fits_fields (loc z) (field_set s) /\ fits_gnames (loc z) (gname_set s).
Proof.
  intros Hs Hd E Ht. assert (z ∈ sids) as Hz by (apply Hd; by exists s).
  destruct (Hs z Hz) as (s' & E' & Eq). assert (s' = s) as -> by congruence. clear E'.
  pose proof (eqb_cls _ _ Eq) as Ec. pose proof (cls_top _ _ Ec) as Etop.
  assert (top (J v z) = false) as Hj by congruence. destruct (J_spec local deps v z) as [W1 W2].
  destruct (proj1 W1 Hj) as (L & O & F & G). destruct (W2 Hj) as [_ [A1 A2 A3 A4 _ _]].
  unfold cls in Ec. rewrite Ht, Hj in Ec. injection Ec as Ef Eg Ee Ev. split_and!.
  - split; [done| | | |].
    + intros x Hx. apply elem_field_set. rewrite Ef, A1. apply elem_of_union_l. by apply elem_field_set.
    + intros x Hx. apply elem_gname_set. rewrite Eg, A2. apply elem_of_union_l. by apply elem_gname_set.
    + intros H. by rewrite Ee, A3, H.
    + intros H. by rewrite Ev, A4, H.
  - intros d Hc. destruct (O d Hc) as (sd & Ed & Etd). exists sd. split; [done|]. right. split_and!; [done|done| | | |].
    + rewrite Ef, A1. intros x Hx. apply elem_of_union_r, elem_dep_fields. exists d. unfold fields_at. by rewrite Ed.
    + rewrite Eg, A2. intros x Hx. apply elem_of_union_r, elem_dep_gnames. exists d. unfold gnames_at. by rewrite Ed.
    + intros H. rewrite Ee, A3. apply orb_true_iff. right. apply existsb_exists. exists d. split; [by apply list_elem_of_In|]. unfold flag_at. by rewrite Ed.
    + intros H. rewrite Ev, A4. apply orb_true_iff. right. apply existsb_exists. exists d. split; [by apply list_elem_of_In|]. unfold flag_at. by rewrite Ed.
  - rewrite Ef, A1. done.
  - rewrite Eg, A2. done.
Qed.

Lemma covers_sle (s s' : EffectSummary) (t : Z) : sle s' s -> top s = false -> covers s' t -> covers s t.
Proof.
  intros [?|(_ & _ & S1 & S2 & S3 & S4)] Ht [C1 C2 C3 C4 C5]; [congruence|]. split; [done| | |auto|auto].
  - intros x Hx. apply elem_field_set, S1, elem_field_set. auto.
  - intros x Hx. apply elem_gname_set, S2, elem_gname_set. auto.
Qed.

Lemma solution_covers (v : Map) (z t : Z) (s : EffectSummary) :
  solves v -> (forall z, z ∈ sids <-> is_Some (v !! z)) -> v !! z = Some s -> top s = false -> reaches z t -> covers s t.
Proof.
  intros Hs Hd E Ht Hr. revert s E Ht. induction Hr as [z|z d t Hc Hr IH]; intros s E Ht.
  - by apply (solution_step v z s).
  - destruct (solution_step v z s Hs Hd E Ht) as (_ & Hdep & _). destruct (Hdep d Hc) as (sd & Ed & Hle).
    apply (covers_sle s sd); [done|done|]. apply IH; [done|]. destruct Hle as [?|(? & _)]; [congruence|done].
Qed.
End Exact.
