(* ===== verification/EffectWalkSound.v ===== *)
(** * EffectWalkSound: the walk of a script records every effect of its ops

    Over the encoding of a list of visitor calls, a walk that does not saturate
    leaves a record of each call: of its element or variable writes, of the
    property and global names it writes, of the calls and accessor reads to
    resolve. An op of no known class saturates it. *)

From stdpp Require Import strings.
From S2P Require Import Prelude Mem OpSem Facts Types Engine Source Bytecode BytecodeSound Contexts ContextsSound Effects.
#[local] Open Scope Z_scope.

(** The instructions of an encoding, each with its offset. *)
Fixpoint located (pc : Z) (cs : list (Z * OpCall)) : list (Pc * OpCall) :=
  match cs with
  | [] => []
  | i :: cs => (pc, i.2) :: located (pc + call_len i) cs
  end.

(** The names a call writes, as the index of its atom. *)
Definition prop_index (c : OpCall) : option Z :=
  match c with
  | V_set_prop i | V_strict_set_prop i | V_init_prop i | V_init_hidden_prop i | V_init_locked_prop i => Some i
  | _ => None
  end.

Definition gname_index (c : OpCall) : option Z :=
  match c with
  | V_set_g_name i | V_strict_set_g_name i | V_init_g_lexical i => Some i
  | _ => None
  end.

(** The text of an atom. *)
Definition atom_text (source : Source) (script : Script) (index : Z) : option (list Z) :=
  gc ← sc_gcthings script !! Z.to_nat index;
  if is_other gc then None
  else match object source gc with Ok (SString chars) => Some chars | _ => None end.

Definition names_le (n n' : Names) : Prop := vals n `prefix_of` vals n'.

Lemma names_le_get (n n' : Names) (i : nat) (c : list Z) : names_le n n' -> name_get n i = Some c -> name_get n' i = Some c.
Proof. intros [k E] H. unfold name_get in *. rewrite E. by apply lookup_app_l_Some. Qed.

Lemma names_le_refl (n : Names) : names_le n n.
Proof. unfold names_le. reflexivity. Qed.
#[export] Hint Resolve names_le_refl : core.

Lemma names_le_trans (a b c : Names) : names_le a b -> names_le b c -> names_le a c.
Proof. unfold names_le. intros. by etrans. Qed.

Lemma name_get_inj (n : Names) (i j : nat) (c : list Z) : names_wf n -> name_get n i = Some c -> name_get n j = Some c -> i = j.
Proof. intros [Hw] Hi Hj. apply Hw in Hi, Hj. congruence. Qed.

Definition is_aliased_write (op : JSOp) : bool := match op with J_SetAliasedVar => true | _ => false end.

(** The classes the walk tells apart cover no other op. *)
Definition classified (op : JSOp) : bool :=
  has_method op || writes_element op || is_aliased_write op || is_folded_call op || is_benign op.

Section Walk.
Context (debug_op : JSOp -> string).
Context (sid : ScriptId) (script : Script) (source : Source).
Context (recv_class : gmap Site (Agreed ClassId)) (this_writes : gset Site) (accessor_names : gset NameId).

#[local] Abbreviation before := (before_op debug_op sid).
#[local] Abbreviation call := (effect_call sid script source recv_class this_writes accessor_names).
#[local] Abbreviation text := (atom_text source script).

(** The receiver a write is recorded with. *)
Definition recv_of (site : Site) : FieldRecv :=
  match recv_class !! site ≫= agreed_get with
  | Some c => FR_Cls c
  | None => if bool_decide (site ∈ this_writes) then FR_This else FR_Unknown
  end.

(** Walks only add. *)
Record extends (w w' : EffectWalk) : Prop := {
  ex_wf : names_wf (ew_names w) -> names_wf (ew_names w');
  ex_names : names_wf (ew_names w) -> names_le (ew_names w) (ew_names w');
  ex_top : top (walk_sum w') = false -> top (walk_sum w) = false;
  ex_elems : elems_write (walk_sum w) = true -> elems_write (walk_sum w') = true;
  ex_env : env_write (walk_sum w) = true -> env_write (walk_sum w') = true;
  ex_gnames : gname_writes (walk_sum w) ⊆ gname_writes (walk_sum w');
  ex_fields : le_field_writes (ew_out w) ⊆ le_field_writes (ew_out w');
  ex_calls : le_calls (ew_out w) ⊆ le_calls (ew_out w');
  ex_reads : le_accessor_reads (ew_out w) ⊆ le_accessor_reads (ew_out w') }.

Lemma extends_refl (w : EffectWalk) : extends w w.
Proof. split; auto; done. Qed.

Lemma extends_trans (a b c : EffectWalk) : extends a b -> extends b c -> extends a c.
Proof.
  intros [A1 A2 A3 A4 A5 A6 A7 A8 A9] [B1 B2 B3 B4 B5 B6 B7 B8 B9]. split; auto; try (by etrans).
  intros H. by apply (names_le_trans _ (ew_names b)); auto.
Qed.

(** What the walk has of the call at [pc]. *)
Record recorded (w : EffectWalk) (pc : Pc) (c : OpCall) : Prop := {
  rc_class : classified (op_of c) = true;
  rc_elem : writes_element (op_of c) = true -> elems_write (walk_sum w) = true;
  rc_env : is_aliased_write (op_of c) = true -> env_write (walk_sum w) = true;
  rc_call : is_folded_call (op_of c) = true -> (sid, pc) ∈ le_calls (ew_out w);
  rc_prop : forall i, prop_index c = Some i -> exists chars id, text i = Some chars /\ name_get (ew_names w) id = Some chars /\
    (recv_of (sid, pc), Z.of_nat id) ∈ le_field_writes (ew_out w);
  rc_gname : forall i, gname_index c = Some i -> exists chars id, text i = Some chars /\ name_get (ew_names w) id = Some chars /\
    Z.of_nat id ∈ gname_writes (walk_sum w);
  rc_read : forall i chars, c = V_get_prop i -> text i = Some chars -> exists id, name_get (ew_names w) id = Some chars /\
    (Z.of_nat id ∈ accessor_names -> (sid, pc) ∈ le_accessor_reads (ew_out w)) }.

Lemma recorded_extends (w w' : EffectWalk) (pc : Pc) (c : OpCall) :
  names_wf (ew_names w) -> extends w w' -> recorded w pc c -> recorded w' pc c.
Proof.
  intros Hw [E1 E2 E3 E4 E5 E6 E7 E8 E9] [R1 R2 R3 R4 R5 R6 R7]. specialize (E2 Hw). split; auto.
  - intros i Hi. destruct (R5 i Hi) as (chars & id & H1 & H2 & H3). exists chars, id. split_and!; [done|by eapply names_le_get|auto].
  - intros i Hi. destruct (R6 i Hi) as (chars & id & H1 & H2 & H3). exists chars, id. split_and!; [done|by eapply names_le_get|auto].
  - intros i chars Hc Hi. destruct (R7 i chars Hc Hi) as (id & H1 & H2). exists id. split; [by eapply names_le_get|auto].
Qed.

(** ** The steps *)

(** A change of the simulated stack alone. *)
Lemma extends_same (w w' : EffectWalk) :
  ew_names w' = ew_names w -> walk_sum w' = walk_sum w -> le_field_writes (ew_out w') = le_field_writes (ew_out w) ->
  le_calls (ew_out w') = le_calls (ew_out w) -> le_accessor_reads (ew_out w') = le_accessor_reads (ew_out w) -> extends w w'.
Proof. intros E1 E2 E3 E4 E5. split; rewrite ?E1, ?E2, ?E3, ?E4, ?E5; auto; done. Qed.

Lemma extends_saturate (w : EffectWalk) (why : string) : extends w (with_sum w (saturate (walk_sum w) why)).
Proof. unfold saturate. destruct (top (walk_sum w)) eqn:E; split; cbn; rewrite ?E; auto; done. Qed.

Lemma saturate_top (s : EffectSummary) (why : string) : top (saturate s why) = true.
Proof. unfold saturate. by destruct (top s) eqn:E. Qed.

Lemma patch_top_same (w : EffectWalk) (f : Origin -> Origin) :
  ew_names (patch_top w f) = ew_names w /\ ew_out (patch_top w f) = ew_out w /\ ew_cur_pc (patch_top w f) = ew_cur_pc w.
Proof. unfold patch_top. by destruct (rev (ew_stack w)). Qed.

Lemma sim_stack_same (w : EffectWalk) (pc : Pc) (op : JSOp) (nuses ndefs : Z) :
  let w' := sim_stack w pc op nuses ndefs in
  ew_names w' = ew_names w /\ walk_sum w' = walk_sum w /\ le_field_writes (ew_out w') = le_field_writes (ew_out w) /\
  le_calls (ew_out w') = le_calls (ew_out w) /\ le_accessor_reads (ew_out w') = le_accessor_reads (ew_out w) /\ ew_cur_pc w' = ew_cur_pc w.
Proof. unfold sim_stack. destruct op; try (by split_and!). by destruct (below 2 (ew_stack w)), (below 1 (ew_stack w)). Qed.

Lemma atom_id_spec (w w' : EffectWalk) (i : Z) (o : option NameId) :
  names_wf (ew_names w) -> atom_id script source w i = Ok (w', o) ->
  extends w w' /\ ew_out w' = ew_out w /\ ew_cur_pc w' = ew_cur_pc w /\
  match text i with
  | Some chars => exists id, o = Some (Z.of_nat id) /\ name_get (ew_names w') id = Some chars
  | None => o = None
  end.
Proof.
  intros Hw. unfold atom_id, atom_text. destruct (sc_gcthings script !! Z.to_nat i) as [gc|]; cbn [mbind option_bind].
  2:{ intros [= <- <-]. split; [apply extends_refl|done]. }
  destruct (is_other gc); [intros [= <- <-]; split; [apply extends_refl|done]|].
  destruct (object source gc) as [o'| | |]; cbn [mbind res_bind]; try done.
  destruct o' as [| |chars| | |]; try (intros [= <- <-]; split; [apply extends_refl|done]).
  destruct (intern (ew_names w) chars) as [[n' id]|] eqn:Ei; [|done]. intros [= <- <-].
  destruct (intern_spec _ _ _ _ Hw Ei) as (H1 & H2 & _ & H4 & _). split_and!; [|done|done|by exists id].
  by split.
Qed.

(** Announcing an op records its class. *)
Record announced (w : EffectWalk) (pc : Pc) (op : JSOp) : Prop := {
  an_pc : ew_cur_pc w = pc;
  an_class : top (walk_sum w) = false -> classified op = true;
  an_elem : top (walk_sum w) = false -> writes_element op = true -> elems_write (walk_sum w) = true;
  an_env : top (walk_sum w) = false -> is_aliased_write op = true -> env_write (walk_sum w) = true;
  an_call : top (walk_sum w) = false -> is_folded_call op = true -> (sid, pc) ∈ le_calls (ew_out w) }.

Lemma before_op_announced (w : EffectWalk) (pc : Pc) (op : JSOp) (nuses ndefs : Z) :
  extends w (before pc op nuses ndefs w) /\ announced (before pc op nuses ndefs w) pc op.
Proof.
  unfold before_op. set (w0 := mkEffectWalk (ew_names w) pc (ew_stack w) (ew_out w)).
  destruct (sim_stack_same w0 pc op nuses ndefs) as (E1 & E2 & E3 & E4 & E5 & E6).
  set (w1 := sim_stack w0 pc op nuses ndefs) in *. cbn [ew_names ew_cur_pc] in E1, E6.
  assert (extends w w1) as Hx by by apply extends_same.
  assert (forall w2, ew_cur_pc w2 = pc -> top (walk_sum w2) = true -> announced w2 pc op) as Htop.
  { intros w2 Hp Ht. split; try done; congruence. }
  destruct (top (walk_sum w1)) eqn:Et; [split; [done|by apply Htop]|].
  destruct (has_method op) eqn:Em.
  { split; [done|]. destruct op; try done; (split; [exact E6| | | |]); by intros _. }
  destruct (writes_element op) eqn:Ee.
  { split; [apply (extends_trans _ _ _ Hx); split; cbn; auto; done|]. destruct op; try done; (split; [exact E6| | | |]); by intros _. }
  destruct (is_folded_call op) eqn:Ec.
  { match goal with |- extends _ ?w2 /\ _ => assert (w2 = with_out w1 (mkLocalEffects (le_sum (ew_out w1)) (le_field_writes (ew_out w1))
      (le_calls (ew_out w1) ++ [(sid, pc)]) (le_accessor_reads (ew_out w1)) (le_callee_origin (ew_out w1)))) as -> by by destruct op end.
    split; [apply (extends_trans _ _ _ Hx); split; cbn; auto; try done; set_solver|].
    split; [exact E6| | | |]; intros _; [by destruct op|by destruct op|by destruct op|]. intros _. cbn. set_solver. }
  destruct (is_aliased_write op) eqn:Ea.
  { destruct op; try discriminate Ea. split; [apply (extends_trans _ _ _ Hx); split; cbn; auto; done|]. split; [exact E6| | | |]; by intros _. }
  match goal with |- extends _ ?w2 /\ _ =>
    assert (w2 = if is_benign op then w1 else with_sum w1 (saturate (walk_sum w1) (debug_op op))) as -> by by destruct op end.
  destruct (is_benign op) eqn:Eb.
  - split; [done|]. split; [exact E6|intros _| | |]; try congruence. unfold classified. by rewrite Eb, !orb_true_r.
  - split; [apply (extends_trans _ _ _ Hx), extends_saturate|]. apply Htop; [exact E6|apply saturate_top].
Qed.

(** What a method adds to what its op was announced with. *)
Record noted (w : EffectWalk) (c : OpCall) : Prop := {
  no_prop : forall i, prop_index c = Some i -> exists chars id, text i = Some chars /\ name_get (ew_names w) id = Some chars /\
    (recv_of (sid, ew_cur_pc w), Z.of_nat id) ∈ le_field_writes (ew_out w);
  no_gname : forall i, gname_index c = Some i -> exists chars id, text i = Some chars /\ name_get (ew_names w) id = Some chars /\
    Z.of_nat id ∈ gname_writes (walk_sum w);
  no_read : forall i chars, c = V_get_prop i -> text i = Some chars -> exists id, name_get (ew_names w) id = Some chars /\
    (Z.of_nat id ∈ accessor_names -> (sid, ew_cur_pc w) ∈ le_accessor_reads (ew_out w)) }.

Definition writes_done (w w' : EffectWalk) (P : Prop) : Prop :=
  extends w w' /\ ew_cur_pc w' = ew_cur_pc w /\ (top (walk_sum w') = false -> P).

Lemma prop_write_spec (w w' : EffectWalk) (i : Z) :
  names_wf (ew_names w) -> prop_write sid script source recv_class this_writes w i = Ok w' ->
  writes_done w w' (exists chars id, text i = Some chars /\ name_get (ew_names w') id = Some chars /\
    (recv_of (sid, ew_cur_pc w'), Z.of_nat id) ∈ le_field_writes (ew_out w')).
Proof.
  intros Hw. unfold prop_write, writes_done. destruct (top (walk_sum w)) eqn:Et.
  { intros [= <-]. split_and!; [apply extends_refl|done|congruence]. }
  destruct (atom_id script source w i) as [[w1 o]| | |] eqn:Ea; cbn [mbind res_bind]; try done.
  destruct (atom_id_spec _ _ _ _ Hw Ea) as (X1 & _ & E2 & Ho). destruct o as [name|].
  2:{ intros [= <-]. split_and!; [by apply (extends_trans _ _ _ X1), extends_saturate|done|]. cbn. by rewrite saturate_top. }
  destruct (text i) as [chars|]; [|done]. destruct Ho as (id & [= ->] & Hg). fold (recv_of (sid, ew_cur_pc w1)).
  case_bool_decide as Hin.
  { intros [= <-]. split_and!; [done|done|]. intros _. by exists chars, id. }
  destruct (_ <=? _)%nat; intros [= <-].
  { split_and!; [by apply (extends_trans _ _ _ X1), extends_saturate|done|]. cbn. by rewrite saturate_top. }
  split_and!; [|done|].
  - apply (extends_trans _ _ _ X1). split; cbn; auto; try done. set_solver.
  - intros _. exists chars, id. cbn. split_and!; [done|done|]. set_solver.
Qed.

Lemma gname_write_spec (w w' : EffectWalk) (i : Z) :
  names_wf (ew_names w) -> gname_write script source w i = Ok w' ->
  writes_done w w' (exists chars id, text i = Some chars /\ name_get (ew_names w') id = Some chars /\ Z.of_nat id ∈ gname_writes (walk_sum w')).
Proof.
  intros Hw. unfold gname_write, writes_done. destruct (top (walk_sum w)) eqn:Et.
  { intros [= <-]. split_and!; [apply extends_refl|done|congruence]. }
  destruct (atom_id script source w i) as [[w1 o]| | |] eqn:Ea; cbn [mbind res_bind]; try done.
  destruct (atom_id_spec _ _ _ _ Hw Ea) as (X1 & _ & E2 & Ho). destruct o as [name|].
  2:{ intros [= <-]. split_and!; [by apply (extends_trans _ _ _ X1), extends_saturate|done|]. cbn. by rewrite saturate_top. }
  destruct (text i) as [chars|]; [|done]. destruct Ho as (id & [= ->] & Hg).
  case_bool_decide as Hin.
  { intros [= <-]. split_and!; [done|done|]. intros _. by exists chars, id. }
  destruct (_ <=? _)%nat; intros [= <-].
  { split_and!; [by apply (extends_trans _ _ _ X1), extends_saturate|done|]. cbn. by rewrite saturate_top. }
  split_and!; [|done|].
  - apply (extends_trans _ _ _ X1). split; cbn; auto; try done. set_solver.
  - intros _. exists chars, id. cbn. split_and!; [done|done|]. set_solver.
Qed.

Lemma patch_top_name_spec (w w' : EffectWalk) (i : Z) :
  names_wf (ew_names w) -> patch_top_name script source w i = Ok w' -> extends w w' /\ ew_cur_pc w' = ew_cur_pc w.
Proof.
  intros Hw. unfold patch_top_name. destruct (atom_id script source w i) as [[w1 o]| | |] eqn:Ea; cbn [mbind res_bind]; try done.
  intros [= <-]. destruct (atom_id_spec _ _ _ _ Hw Ea) as (X1 & _ & E2 & _).
  match goal with |- extends w (patch_top w1 ?f) /\ _ => destruct (patch_top_same w1 f) as (H1 & H2 & H3) end.
  split; [|congruence]. apply (extends_trans _ _ _ X1), extends_same; unfold walk_sum; by rewrite ?H1, ?H2.
Qed.

Lemma get_prop_spec (w w' : EffectWalk) (i : Z) :
  names_wf (ew_names w) -> get_prop sid script source accessor_names w i = Ok w' ->
  writes_done w w' (forall chars, text i = Some chars -> exists id, name_get (ew_names w') id = Some chars /\
    (Z.of_nat id ∈ accessor_names -> (sid, ew_cur_pc w') ∈ le_accessor_reads (ew_out w'))).
Proof.
  intros Hw. unfold get_prop, writes_done. destruct (patch_top_name script source w i) as [w1| | |] eqn:Ep; cbn [mbind res_bind]; try done.
  destruct (patch_top_name_spec _ _ _ Hw Ep) as [X1 E1]. destruct (top (walk_sum w1)) eqn:Et.
  { intros [= <-]. split_and!; [done|done|congruence]. }
  destruct (atom_id script source w1 i) as [[w2 o]| | |] eqn:Ea; cbn [mbind res_bind]; try done.
  destruct (atom_id_spec _ _ _ _ (ex_wf _ _ X1 Hw) Ea) as (X2 & _ & E2 & Ho). pose proof (extends_trans _ _ _ X1 X2) as X.
  destruct (text i) as [chars|].
  2:{ subst o. intros [= <-]. split_and!; [done|congruence|done]. }
  destruct Ho as (id & -> & Hg). case_bool_decide as Hin; intros [= <-].
  - split_and!; [apply (extends_trans _ _ _ X); split; cbn; auto; try done; set_solver|cbn; congruence|].
    intros _ ? [= <-]. exists id. split; [done|]. intros _. cbn. set_solver.
  - split_and!; [done|congruence|]. intros _ ? [= <-]. by exists id.
Qed.

Lemma noted_none (w : EffectWalk) (c : OpCall) :
  prop_index c = None -> gname_index c = None -> (forall i, c <> V_get_prop i) -> noted w c.
Proof. intros H1 H2 H3. split; [congruence|congruence|]. intros i chars Hc. by destruct (H3 i). Qed.

Lemma effect_call_spec (w w' : EffectWalk) (c : OpCall) :
  names_wf (ew_names w) -> call c w = Ok w' -> writes_done w w' (noted w' c).
Proof.
  intros Hw E.
  assert (prop_index c = None -> gname_index c = None -> (forall i, c <> V_get_prop i) ->
    extends w w' /\ ew_cur_pc w' = ew_cur_pc w -> writes_done w w' (noted w' c)) as Hnone.
  { intros H1 H2 H3 [? ?]. split_and!; [done|done|]. intros _. by apply noted_none. }
  assert (forall g, w' = patch_top w g -> extends w w' /\ ew_cur_pc w' = ew_cur_pc w) as Hpatch.
  { intros g ->. destruct (patch_top_same w g) as (H1 & H2 & H3). split; [|done]. apply extends_same; unfold walk_sum; by rewrite ?H1, ?H2. }
  assert (forall s, w' = with_stack w s -> extends w w' /\ ew_cur_pc w' = ew_cur_pc w) as Hstack.
  { intros s ->. split; [by apply extends_same|done]. }
  assert (w' = w -> extends w w' /\ ew_cur_pc w' = ew_cur_pc w) as Hid by (intros ->; split; [apply extends_refl|done]).
  destruct c; cbn [effect_call] in E;
    try (injection E as <-; apply Hnone; [done|done|done|by apply Hid]);
    try (destruct (prop_write_spec _ _ _ Hw E) as (X1 & X2 & X3); split_and!; [done|done|]; intros Ht; split; [by intros ? [= <-]; apply X3|done|done]);
    try (destruct (gname_write_spec _ _ _ Hw E) as (X1 & X2 & X3); split_and!; [done|done|]; intros Ht; split; [done|by intros ? [= <-]; apply X3|done]);
    try (destruct (get_prop_spec _ _ _ Hw E) as (X1 & X2 & X3); split_and!; [done|done|]; intros Ht; split; [done|done|by intros ? ? [= <-]; apply X3]);
    try (apply Hnone; [done|done|done|]; by apply (patch_top_name_spec _ _ _ Hw E));
    apply Hnone; try done.
  all: injection E as <-.
  all: try (by eapply Hpatch).
  - unfold pick in *. destruct (below _ _); [by eapply Hstack|by apply Hid].
  - unfold unpick in *. destruct (rev (ew_stack w)) as [|v r]; [by apply Hid|]. destruct (_ <? _)%nat; [by apply Hid|by eapply Hstack].
Qed.

(** One call of the visitor. *)
Lemma step_spec (w w' : EffectWalk) (pc : Pc) (c : OpCall) (nuses ndefs : Z) :
  names_wf (ew_names w) -> call c (before pc (op_of c) nuses ndefs w) = Ok w' ->
  extends w w' /\ (top (walk_sum w') = false -> recorded w' pc c).
Proof.
  intros Hw E. destruct (before_op_announced w pc (op_of c) nuses ndefs) as [X1 [A1 A2 A3 A4 A5]].
  destruct (effect_call_spec _ _ _ (ex_wf _ _ X1 Hw) E) as (X2 & P2 & H2). split; [by apply (extends_trans _ _ _ X1)|].
  intros Ht. pose proof (ex_top _ _ X2 Ht) as Ht1. destruct (H2 Ht) as [N1 N2 N3]. rewrite P2, A1 in N1, N3.
  destruct X2 as [_ _ _ Y1 Y2 _ _ Y3 _]. split; auto.
Qed.

(** ** The walk *)

Context (T : OpTable) (byte_of : JSOp -> Z) (HT : table_laws T byte_of).

#[local] Abbreviation r_before := (fun pc op nuses ndefs r => w ← r; Ok (before pc op nuses ndefs w)).
#[local] Abbreviation r_call := (fun (c : OpCall) r => r ≫= call c).
#[local] Abbreviation r_note := (fun (_ : Z) (_ : TryNote) (r : res EffectWalk) => r).

Lemma trace_error (ns : list TryNote) (cs : list (Z * OpCall)) (lo pc : Z) (r : res EffectWalk) :
  (forall w, r <> Ok w) -> forall w, trace T r_before r_note r_call ns lo pc cs r <> Ok w.
Proof.
  revert lo pc r. induction cs as [|i cs IH]; intros lo pc r Hr; cbn [trace]; [done|]. apply IH.
  assert (forall l r, foldl (fun v n => r_note pc n v) r l = r) as Hf by (intros l; induction l as [|? ? IHl]; intros; cbn; auto).
  rewrite Hf. destruct r as [x| | |]; [by destruct (Hr x)|done..].
Qed.

Lemma trace_recorded (ns : list TryNote) (cs : list (Z * OpCall)) (lo pc : Z) (w w' : EffectWalk) :
  names_wf (ew_names w) -> trace T r_before r_note r_call ns lo pc cs (Ok w) = Ok w' ->
  extends w w' /\ (top (walk_sum w') = false -> forall p c, (p, c) ∈ located pc cs -> recorded w' p c).
Proof.
  revert lo pc w. induction cs as [|i cs IH]; intros lo pc w Hw E; cbn [trace located] in *.
  { injection E as <-. split; [apply extends_refl|]. intros _ p c H. by apply elem_of_nil in H. }
  assert (forall l (r : res EffectWalk), foldl (fun v n => r_note (pc + call_len i) n v) r l = r) as Hf
    by (intros l; induction l as [|? ? IHl]; intros; cbn; auto).
  rewrite Hf in E. cbn [mbind res_bind] in E.
  destruct (call i.2 (before pc (op_of i.2) (call_uses T i.2) (op_ndefs T (op_of i.2)) w)) as [w1| | |] eqn:Es.
  2-4: exfalso; revert E; by apply trace_error.
  destruct (step_spec _ _ _ _ _ _ Hw Es) as [X1 R1]. destruct (IH _ _ _ (ex_wf _ _ X1 Hw) E) as [X2 R2].
  split; [by apply (extends_trans _ _ _ X1)|]. intros Ht p c [[= -> ->]|Hin]%elem_of_cons; [|by apply R2].
  apply (recorded_extends w1); [by apply (ex_wf _ _ X1)|done|]. apply R1. by apply (ex_top _ _ X2).
Qed.

(** A script the encoder wrote. *)
Definition compiled (cs : list (Z * OpCall)) : Prop :=
  sc_bytecode script = encode_all byte_of cs /\
  Forall (fun i => call_wf (sc_resume_offsets script) i.1 i.2) cs /\
  Forall (fun n => 0 <= tn_start n) (sc_try_notes script) /\
  Z.of_nat (length (sc_bytecode script)) < 2 ^ 32.

Lemma walk_script_spec (cs : list (Z * OpCall)) (names : Names) (w : EffectWalk) :
  compiled cs -> names_wf names ->
  walk_script debug_op sid script source recv_class this_writes accessor_names T names = Ok w ->
  names_wf (ew_names w) /\ names_le names (ew_names w) /\
  (top (walk_sum w) = false -> sc_is_generator_or_async script = false /\
    forall p c, (p, c) ∈ located 0 cs -> recorded w p c).
Proof.
  intros (C1 & C2 & C3 & C4) Hw. unfold walk_script. destruct (sc_is_generator_or_async script).
  { intros [= <-]. split_and!; [done|done|]. intros H. cbn in H. by rewrite ?saturate_top in H. }
  rewrite (visit_trace T byte_of HT _ _ _ script cs _ C1 C2 C3 C4). cbn [mbind res_bind]. intros E.
  destruct (trace_recorded (sort_notes (sc_try_notes script)) cs (-1) 0 (mkEffectWalk names 0 [] local_default) w Hw E) as [X R]. split_and!; [by apply (ex_wf _ _ X)|by apply (ex_names _ _ X)|].
  intros Ht. split; [done|by apply R].
Qed.
End Walk.
