(* ===== verification/EffectSound.v ===== *)
(** * EffectSound: resolution keeps every recorded effect

    An unsaturated resolution has each property write with its key range, each
    scripted target of a call or an accessor read among its dependencies, and
    the effect of each native target. *)

From stdpp Require Import strings.
From S2P Require Import Prelude OpSem Facts Types Engine Mem Source Bytecode BytecodeSound Contexts ContextsSound Builtins Effects EffectJoin.
From S2P Require Import EffectFix EffectLoop EffectWalkSound.
#[local] Open Scope Z_scope.

(** What the solver's tables resolve a call site to; [None] when they leave it
    open. *)
Definition call_targets (I : EffectInputs) (site : Site) : option (list FnId) :=
  match ei_site_calls I !! site ≫= (fun f => if multi f || negb (bool_decide (Types.ids f = [])) then Some f else None) with
  | Some f => if multi f then None else Some (Types.ids f)
  | None =>
      match ei_site_native I !! site ≫= agreed_get with
      | Some f => Some [f]
      | None =>
          match ei_site_apply I !! site with
          | Some (f, _) => if multi f || bool_decide (Types.ids f = []) then None else Some (Types.ids f)
          | None =>
              match ei_site_ctor_native I !! site ≫= agreed_get with
              | Some f => Some [f]
              | None => if bool_decide (site ∈ elem_sites I) || bool_decide (site ∈ alloc_call_sites I) then Some [] else None
              end
          end
      end
  end.

Section Resolve.
Context (debug_op : JSOp -> string) (I : EffectInputs).

(** A target whose effect is accounted for. *)
Definition fn_folded (names : Names) (f : FnId) (deps : list ScriptId) (sum : EffectSummary) : Prop :=
  match as_script f with
  | Some s => s ∈ deps
  | None =>
      match natives_get (ei_natives I) f with
      | Some info => exists chars, name_get names (Z.to_nat (ni_name info)) = Some chars /\
          match native_effect (ni_kind info) chars (bool_decide (is_Some (ni_result info))) with
          | NE_Pure => True
          | NE_Elems => elems_write sum = true
          | NE_Top => False
          end
      | None => f = ARRAY_CTOR \/ is_Some (typed_array_kind f)
      end
  end.

(** Folds only add. *)
Record fold_le (a b : list ScriptId * EffectSummary) : Prop := {
  fo_deps : a.1 ⊆ b.1;
  fo_top : top b.2 = false -> top a.2 = false;
  fo_fields : field_writes b.2 = field_writes a.2;
  fo_gnames : gname_writes b.2 = gname_writes a.2;
  fo_elems : elems_write a.2 = true -> elems_write b.2 = true;
  fo_env : env_write b.2 = env_write a.2 }.

Lemma fold_le_refl (a : list ScriptId * EffectSummary) : fold_le a a.
Proof. by split. Qed.

Lemma fold_le_trans (a b c : list ScriptId * EffectSummary) : fold_le a b -> fold_le b c -> fold_le a c.
Proof. intros [A1 A2 A3 A4 A5 A6] [B1 B2 B3 B4 B5 B6]. split; auto; try congruence. by etrans. Qed.

Lemma fn_folded_le (names : Names) (f : FnId) (a b : list ScriptId * EffectSummary) :
  fold_le a b -> fn_folded names f a.1 a.2 -> fn_folded names f b.1 b.2.
Proof.
  intros [A1 _ _ _ A5 _]. unfold fn_folded. destruct (as_script f); [auto|]. destruct (natives_get _ f) as [info|]; [|done].
  intros (chars & E & H). exists chars. split; [done|]. destruct (native_effect _ _ _); auto.
Qed.

Lemma fold_le_saturate (deps : list ScriptId) (s : EffectSummary) (why : string) : fold_le (deps, s) (deps, saturate s why).
Proof. unfold saturate. destruct (top s) eqn:E; split; cbn; rewrite ?E; auto; done. Qed.

Lemma fold_le_elems (deps : list ScriptId) (s : EffectSummary) : fold_le (deps, s) (deps, with_elems s true).
Proof. by split. Qed.

Lemma add_dep_elem (deps : list ScriptId) (s x : ScriptId) : x ∈ add_dep deps s <-> x = s \/ x ∈ deps.
Proof. unfold add_dep. case_bool_decide as H; [|rewrite elem_of_app, list_elem_of_singleton; tauto]. split; [by right|]. intros [->|Hx]; done. Qed.

Lemma fold_le_dep (deps : list ScriptId) (f : ScriptId) (s : EffectSummary) : fold_le (deps, s) (add_dep deps f, s).
Proof. split; try done. cbn. intros x Hx. apply add_dep_elem. by right. Qed.

Lemma fold_fn_spec (names : Names) (f : FnId) (a b : list ScriptId * EffectSummary) :
  fold_fn I names f a = Ok b -> fold_le a b /\ (top b.2 = false -> fn_folded names f b.1 b.2).
Proof.
  destruct a as [deps sum]. unfold fold_fn, fn_folded. destruct (as_script f) as [s|].
  { intros [= <-]. split; [apply fold_le_dep|]. intros _. apply add_dep_elem. by left. }
  destruct (natives_get (ei_natives I) f) as [info|].
  - destruct (name_get names (Z.to_nat (ni_name info))) as [chars|] eqn:En; [|done]. intros [= <-]. cbn.
    destruct (native_effect _ _ _) eqn:Ee; cbn [native_summary].
    + split; [apply fold_le_refl|]. intros _. exists chars. by rewrite Ee.
    + split; [apply fold_le_elems|]. intros _. exists chars. by rewrite Ee.
    + split; [apply fold_le_saturate|]. by rewrite saturate_top.
  - destruct (f =? ARRAY_CTOR) eqn:Ea; cbn [orb].
    { intros [= <-]. split; [apply fold_le_refl|]. intros _. left. lia. }
    case_bool_decide as Ht; intros [= <-].
    + split; [apply fold_le_refl|]. intros _. by right.
    + split; [apply fold_le_saturate|]. cbn. by rewrite saturate_top.
Qed.

Lemma fold_fns_spec (names : Names) (fs : list FnId) (a b : list ScriptId * EffectSummary) :
  fold_fns I names fs a = Ok b -> fold_le a b /\ (top b.2 = false -> forall f, f ∈ fs -> fn_folded names f b.1 b.2).
Proof.
  revert a. induction fs as [|f fs IH]; intros a; cbn [fold_fns].
  { intros [= <-]. split; [apply fold_le_refl|]. intros _ f H. by apply elem_of_nil in H. }
  destruct (fold_fn I names f a) as [c| | |] eqn:Ef; cbn [mbind res_bind]; try done. intros E.
  destruct (fold_fn_spec _ _ _ _ Ef) as [L1 F1], (IH _ E) as [L2 F2]. split; [by apply (fold_le_trans _ c)|].
  intros Ht g [->|Hg]%elem_of_cons; [|by apply F2]. apply (fn_folded_le _ _ c); [done|]. apply F1. by apply (fo_top _ _ L2).
Qed.

(** A site whose targets are accounted for. *)
Definition site_folded (names : Names) (site : Site) (deps : list ScriptId) (sum : EffectSummary) : Prop :=
  (exists fs, call_targets I site = Some fs /\ forall f, f ∈ fs -> fn_folded names f deps sum) /\
  (site ∈ elem_sites I -> elems_write sum = true).

Lemma site_folded_le (names : Names) (site : Site) (a b : list ScriptId * EffectSummary) :
  fold_le a b -> site_folded names site a.1 a.2 -> site_folded names site b.1 b.2.
Proof.
  intros L [(fs & E & H) He]. split; [exists fs; split; [done|]; intros f Hf; apply (fn_folded_le _ _ a); auto|].
  intros Hin. apply (fo_elems _ _ L). auto.
Qed.

Lemma fold_call_spec (names : Names) (local : LocalEffects) (site : Site) (a b : list ScriptId * EffectSummary) :
  fold_call debug_op I names local site a = Ok b -> fold_le a b /\ (top b.2 = false -> site_folded names site b.1 b.2).
Proof.
  destruct a as [deps sum]. unfold fold_call. destruct (top sum) eqn:Et.
  { intros [= <-]. split; [apply fold_le_refl|]. cbn. congruence. }
  match goal with |- (?m ≫= _) = _ -> _ => set (M := m) end.
  intros E. destruct M as [[d s]| | |] eqn:EM; cbn [mbind res_bind] in E; try done. injection E as <-.
  assert (fold_le (deps, sum) (d, s) /\ (top s = false -> exists fs, call_targets I site = Some fs /\ forall f, f ∈ fs -> fn_folded names f d s)) as [L F].
  { subst M. revert EM. unfold call_targets.
    assert (forall fs, fold_fns I names fs (deps, sum) = Ok (d, s) ->
      fold_le (deps, sum) (d, s) /\ (top s = false -> exists fs', Some fs = Some fs' /\ forall f, f ∈ fs' -> fn_folded names f d s)) as Hfs.
    { intros fs E. destruct (fold_fns_spec _ _ _ _ E) as [L F]. split; [done|]. intros H. exists fs. split; [done|]. by apply F. }
    assert (forall f, fold_fn I names f (deps, sum) = Ok (d, s) ->
      fold_le (deps, sum) (d, s) /\ (top s = false -> exists fs', Some [f] = Some fs' /\ forall f, f ∈ fs' -> fn_folded names f d s)) as Hf.
    { intros f E. apply Hfs. cbn [fold_fns]. by rewrite E. }
    assert (forall why P, Ok (deps, saturate sum why) = Ok (d, s) -> fold_le (deps, sum) (d, s) /\ (top s = false -> P)) as Hsat.
    { intros why P [= <- <-]. split; [apply fold_le_saturate|]. by rewrite saturate_top. }
    destruct (ei_site_calls I !! site) as [f|] eqn:Ec; cbn [mbind option_bind].
    1: destruct (multi f || negb (bool_decide (Types.ids f = []))) eqn:Em.
    1: destruct (multi f); [apply Hsat|apply Hfs].
    all: destruct (ei_site_native I !! site ≫= agreed_get) as [g|] eqn:En; [apply Hf|].
    all: destruct (ei_site_apply I !! site) as [[g form]|]; [destruct (multi g || _); [apply Hsat|apply Hfs]|].
    all: destruct (ei_site_ctor_native I !! site ≫= agreed_get) as [g|]; [apply Hf|].
    all: destruct (bool_decide (site ∈ elem_sites I)); cbn [orb]; [intros [= <- <-]; split; [apply fold_le_refl|]; intros _; exists []; split; [done|]; intros ? Hx; by apply elem_of_nil in Hx|].
    all: destruct (bool_decide (site ∈ alloc_call_sites I)); [intros [= <- <-]; split; [apply fold_le_refl|]; intros _; exists []; split; [done|]; intros ? Hx; by apply elem_of_nil in Hx|].
    all: destruct (origin_str debug_op names (call_origin local site)) as [t| | |]; cbn [mbind res_bind]; try done; apply Hsat. }
  case_bool_decide as He.
  - split; [by apply (fold_le_trans _ _ _ L), fold_le_elems|]. cbn. intros Ht. split; [|done]. destruct (F Ht) as (fs & E1 & E2).
    exists fs. split; [done|]. intros f Hf. apply (fn_folded_le _ _ (d, s) (d, with_elems s true)); [apply fold_le_elems|by apply E2].
  - split; [done|]. intros Ht. split; [by apply F|done].
Qed.

Lemma fold_calls_spec (names : Names) (local : LocalEffects) (sites : list Site) (a b : list ScriptId * EffectSummary) :
  fold_calls debug_op I names local sites a = Ok b ->
  fold_le a b /\ (top b.2 = false -> forall site, site ∈ sites -> site_folded names site b.1 b.2).
Proof.
  revert a. induction sites as [|x sites IH]; intros a; cbn [fold_calls].
  { intros [= <-]. split; [apply fold_le_refl|]. intros _ f H. by apply elem_of_nil in H. }
  destruct (fold_call debug_op I names local x a) as [c| | |] eqn:Ef; cbn [mbind res_bind]; try done. intros E.
  destruct (fold_call_spec _ _ _ _ _ Ef) as [L1 F1], (IH _ E) as [L2 F2]. split; [by apply (fold_le_trans _ c)|].
  intros Ht g [->|Hg]%elem_of_cons; [|by apply F2]. apply (site_folded_le _ _ c); [done|]. apply F1. by apply (fo_top _ _ L2).
Qed.

(** An accessor read whose targets are dependencies. *)
Definition read_folded (site : Site) (deps : list ScriptId) : Prop :=
  exists targets, ei_call_sites I !! site = Some (CR_Scripted targets) /\ targets <> [] /\ targets ⊆ deps.

Lemma fold_deps_elem (targets deps : list ScriptId) (x : ScriptId) : x ∈ fold_left add_dep targets deps <-> x ∈ targets \/ x ∈ deps.
Proof.
  revert deps. induction targets as [|t targets IH]; intros deps; cbn [fold_left].
  - split; [by right|]. intros [H|H]; [by apply elem_of_nil in H|done].
  - rewrite IH, add_dep_elem, elem_of_cons. tauto.
Qed.

Lemma fold_accessor_spec (a : list ScriptId * EffectSummary) (site : Site) :
  fold_le a (fold_accessor I a site) /\ (top (fold_accessor I a site).2 = false -> read_folded site (fold_accessor I a site).1).
Proof.
  destruct a as [deps sum]. unfold fold_accessor, read_folded. destruct (top sum) eqn:Et.
  { split; [apply fold_le_refl|]. cbn. congruence. }
  destruct (ei_call_sites I !! site) as [[|targets]|].
  - split; [apply fold_le_saturate|]. cbn. by rewrite saturate_top.
  - case_bool_decide as Hn; [split; [apply fold_le_saturate|]; cbn; by rewrite saturate_top|]. split.
    + split; try done. cbn. intros x Hx. apply fold_deps_elem. by right.
    + intros _. exists targets. split_and!; [done|done|]. cbn. intros x Hx. apply fold_deps_elem. by left.
  - split; [apply fold_le_saturate|]. cbn. by rewrite saturate_top.
Qed.

Lemma fold_accessors_spec (sites : list Site) (a : list ScriptId * EffectSummary) :
  let b := fold_left (fold_accessor I) sites a in
  fold_le a b /\ (top b.2 = false -> forall site, site ∈ sites -> read_folded site b.1).
Proof.
  revert a. induction sites as [|x sites IH]; intros a; cbn [fold_left].
  { split; [apply fold_le_refl|]. intros _ f H. by apply elem_of_nil in H. }
  destruct (fold_accessor_spec a x) as [L1 F1], (IH (fold_accessor I a x)) as [L2 F2]. split; [by eapply fold_le_trans|].
  intros Ht g [->|Hg]%elem_of_cons; [|by apply F2]. destruct (F1 (fo_top _ _ L2 Ht)) as (ts & E & Hne & Hs).
  exists ts. split_and!; [done|done|]. etrans; [done|]. apply (fo_deps _ _ L2).
Qed.

(** ** One script *)

Lemma map_writes_spec (sid : ScriptId) (l : list (FieldRecv * NameId)) (s s' : EffectSummary) :
  map_writes I sid l s = Ok s' ->
  top s' = top s /\ gname_writes s' = gname_writes s /\ elems_write s' = elems_write s /\ env_write s' = env_write s /\
  field_writes s ⊆ field_writes s' /\
  (forall r name, (r, name) ∈ l -> exists range, recv_range I sid r = Ok range /\ (range, name) ∈ field_writes s').
Proof.
  revert s. induction l as [|[r name] l IH]; intros s; cbn [map_writes].
  { intros [= <-]. split_and!; try done. intros r name H. by apply elem_of_nil in H. }
  destruct (recv_range I sid r) as [range| | |] eqn:Er; cbn [mbind res_bind]; try done. intros E.
  destruct (IH _ E) as (H1 & H2 & H3 & H4 & H5 & H6). cbn in *. split_and!; try done; [set_solver|].
  intros r' n [[= -> ->]|Hin]%elem_of_cons; [|by apply H6]. exists range. split; [done|]. apply H5. set_solver.
Qed.

(** A script's record, resolved. *)
Record settled (names : Names) (sid : ScriptId) (local : LocalEffects) (sum : EffectSummary) (deps : list ScriptId) : Prop := {
  se_top : top (le_sum local) = false;
  se_elems : elems_write (le_sum local) = true -> elems_write sum = true;
  se_env : env_write (le_sum local) = true -> env_write sum = true;
  se_gnames : gname_writes sum = gname_writes (le_sum local);
  se_fields : forall r name, (r, name) ∈ le_field_writes local ->
    exists range, recv_range I sid r = Ok range /\ (range, name) ∈ field_writes sum;
  se_calls : forall site, site ∈ le_calls local -> site_folded names site deps sum;
  se_reads : forall site, site ∈ le_accessor_reads local -> read_folded site deps }.

Lemma resolve_script_spec (names : Names) (sid : ScriptId) (local : LocalEffects) (sum : EffectSummary) (deps : list ScriptId) :
  resolve_script debug_op I names sid local = Ok (sum, deps) -> top sum = false -> settled names sid local sum deps.
Proof.
  unfold resolve_script. destruct (map_writes I sid _ _) as [s0| | |] eqn:Em; cbn [mbind res_bind]; try done.
  destruct (fold_calls debug_op I names local _ _) as [a| | |] eqn:Ec; cbn [mbind res_bind]; try done.
  destruct (fold_left (fold_accessor I) (le_accessor_reads local) a) as [d s] eqn:Ea. intros [= -> ->] Ht.
  destruct (map_writes_spec _ _ _ _ Em) as (M1 & M2 & M3 & M4 & _ & M6), (fold_calls_spec _ _ _ _ _ Ec) as [L1 F1].
  pose proof (fold_accessors_spec (le_accessor_reads local) a) as [L2 F2]. rewrite Ea in L2, F2. cbn in F2.
  pose proof (fold_le_trans _ _ _ L1 L2) as [_ T3 T4 T5 T6 T7]. cbn in *. specialize (T3 Ht). split; try congruence; auto.
  - intros H. apply T6. congruence.
  - intros r name Hin. rewrite T4. by apply M6.
  - intros site Hin. apply (site_folded_le _ _ a (deps, sum)); [done|]. apply F1; [|done]. by apply (fo_top _ _ L2).
Qed.
End Resolve.

(** * an unsaturated summary covers every op a script can reach

    The walks, the resolution and the loop, composed: the dependencies contain
    every edge the resolved tables give the bytecode, so the loop's union over
    the dependencies is a union over the scripts a call can reach. *)

(** ** The ids of the scripts *)

Lemma omap_ids_bound (l : list SourceObject) (k : nat) (z : Z) :
  z ∈ omap (fun '(i, o) => match o with SScript _ => Some (Z.of_nat i) | _ => None end) (imap (fun i => pair (k + i)%nat) l) <->
  exists i sc, z = Z.of_nat (k + i) /\ l !! i = Some (SScript sc).
Proof.
  rewrite list_elem_of_omap. split.
  - intros ([j o] & Hin & Hz). apply list_elem_of_lookup in Hin as [i Hi]. rewrite list_lookup_imap in Hi.
    apply fmap_Some in Hi as (o' & Ho & [= -> ->]). destruct o'; try done. injection Hz as <-. by exists i, s.
  - intros (i & sc & -> & Hi). exists ((k + i)%nat, SScript sc). split; [|done]. apply list_elem_of_lookup. exists i.
    by rewrite list_lookup_imap, Hi.
Qed.

Lemma omap_ids_nodup (l : list SourceObject) (k : nat) :
  NoDup (omap (fun '(i, o) => match o with SScript _ => Some (Z.of_nat i) | _ => None end) (imap (fun i => pair (k + i)%nat) l)).
Proof.
  revert k. induction l as [|o l IH]; intros k; [constructor|]. rewrite imap_cons. cbn [omap list_omap].
  rewrite (imap_ext _ (fun i => pair (S k + i)%nat)) by (intros; cbn; f_equal; lia).
  destruct o; try apply IH. constructor; [|apply IH]. rewrite omap_ids_bound. intros (i & sc & E & _). lia.
Qed.

Lemma script_ids_elem (s : Source) (z : Z) :
  z ∈ script_ids s <-> exists i sc, z = Z.of_nat i /\ src_objects s !! i = Some (SScript sc).
Proof. unfold script_ids. apply (omap_ids_bound (src_objects s) 0 z). Qed.

Lemma script_ids_nodup (s : Source) : NoDup (script_ids s).
Proof. apply (omap_ids_nodup (src_objects s) 0). Qed.

Lemma script_ids_object (s : Source) (z : Z) : z ∈ script_ids s <-> 0 <= z /\ exists sc, object s z = Ok (SScript sc).
Proof.
  rewrite script_ids_elem. unfold object. split.
  - intros (i & sc & -> & Hi). rewrite Nat2Z.id, Hi. split; [lia|by exists sc].
  - intros (Hz & sc & E). exists (Z.to_nat z), sc. split; [lia|]. destruct (src_objects s !! Z.to_nat z); congruence.
Qed.

Section Sound.
Context (debug_op : JSOp -> string) (T : OpTable) (I : EffectInputs).

#[local] Abbreviation ids := (script_ids (ei_source I)).
#[local] Abbreviation walk z sc := (walk_script debug_op z sc (ei_source I) (ei_recv_class I) (this_writes I) (ei_accessor_names I) T).

(** ** The phases *)

Lemma resolve_all_spec (names : Names) (locals : gmap Z LocalEffects) (zs : list Z) (sums sums' : gmap Z EffectSummary) (deps deps' : gmap Z (list Z)) :
  resolve_all debug_op I names locals zs sums deps = Ok (sums', deps') -> NoDup zs ->
  (forall z, z ∈ zs -> exists local sum dl, locals !! z = Some local /\ resolve_script debug_op I names z local = Ok (sum, dl) /\
    sums' !! z = Some sum /\ deps' !! z = Some dl) /\
  (forall z, z ∉ zs -> sums' !! z = sums !! z /\ deps' !! z = deps !! z).
Proof.
  revert sums deps. induction zs as [|y zs IH]; intros sums deps; cbn [resolve_all].
  { intros [= <- <-] _. split; [|done]. intros z H. by apply elem_of_nil in H. }
  destruct (locals !! y) as [local|] eqn:El; [|done].
  destruct (resolve_script debug_op I names y local) as [[sum dl]| | |] eqn:Er; cbn [mbind res_bind]; try done.
  intros E [Hy Hn]%list.NoDup_cons. destruct (IH _ _ E Hn) as [H1 H2]. split.
  - intros z [->|Hz]%elem_of_cons; [|by apply H1]. destruct (H2 y Hy) as [-> ->]. exists local, sum, dl.
    by rewrite !lookup_insert_eq.
  - intros z [Hne Hz]%not_elem_of_cons. destruct (H2 z Hz) as [-> ->]. by rewrite !lookup_insert_ne by done.
Qed.

Context (byte_of : JSOp -> Z) (HT : table_laws T byte_of).

(** Every script that is walked is an encoding. *)
Definition all_compiled : Prop :=
  forall z sc, object (ei_source I) z = Ok (SScript sc) -> exists cs, compiled sc byte_of cs.

Lemma walk_all_spec (Hc : all_compiled) (zs : list Z) (names names' : Names) (locals locals' : gmap Z LocalEffects) :
  names_wf names -> NoDup zs -> walk_all debug_op T I zs names locals = Ok (names', locals') ->
  names_wf names' /\ names_le names names' /\
  (forall z local, locals' !! z = Some local -> z ∉ zs -> locals !! z = Some local) /\
  (forall z local, locals' !! z = Some local -> z ∈ zs -> locals !! z = Some local \/
    exists sc n w, object (ei_source I) z = Ok (SScript sc) /\ names_wf n /\ walk z sc n = Ok w /\
      local = ew_out w /\ names_le (ew_names w) names').
Proof.
  intros Hw Hn. revert names locals Hw. induction Hn as [|y zs Hy Hn IH]; intros names locals Hw; cbn [walk_all].
  { intros [= <- <-]. split_and!; [done|done|done|]. intros z local _ H. by apply elem_of_nil in H. }
  destruct (object (ei_source I) y) as [o| | |] eqn:Eo; cbn [mbind res_bind]; try done.
  assert (walk_all debug_op T I zs names locals = Ok (names', locals') -> names_wf names' /\ names_le names names' /\
    (forall z local, locals' !! z = Some local -> z ∉ y :: zs -> locals !! z = Some local) /\
    (forall z local, locals' !! z = Some local -> z ∈ y :: zs -> locals !! z = Some local \/
      exists sc n w, object (ei_source I) z = Ok (SScript sc) /\ names_wf n /\ walk z sc n = Ok w /\
        local = ew_out w /\ names_le (ew_names w) names')) as Hskip.
  { intros E. destruct (IH _ _ Hw E) as (H1 & H2 & H3 & H4). split_and!; [done|done| |].
    - intros z local Ez [_ Hz]%not_elem_of_cons. by apply H3.
    - intros z local Ez [->|Hz]%elem_of_cons; [left; by apply H3|by apply H4]. }
  destruct o as [|sc| | | |]; try exact Hskip. clear Hskip.
  destruct (walk y sc names) as [w| | |] eqn:Ew; cbn [mbind res_bind]; try done. intros E.
  destruct (Hc y sc Eo) as [cs Hcs].
  destruct (walk_script_spec _ _ _ _ _ _ _ _ _ HT cs _ _ Hcs Hw Ew) as (W1 & W2 & _).
  destruct (IH _ _ W1 E) as (H1 & H2 & H3 & H4). split_and!; [done|by eapply names_le_trans| |].
  - intros z local Ez [Hne Hz]%not_elem_of_cons. specialize (H3 z local Ez Hz). by rewrite lookup_insert_ne in H3 by done.
  - intros z local Ez [->|Hz]%elem_of_cons.
    + specialize (H3 y local Ez Hy). rewrite lookup_insert_eq in H3. injection H3 as <-. right. by exists sc, names, w.
    + destruct (H4 z local Ez Hz) as [H|H]; [left|by right]. rewrite lookup_insert_ne in H by (intros ->; done). done.
Qed.

(** ** What a summary says of a call *)

(** The edges the tables give the bytecode. *)
Definition call_edge (names : Names) (a b : ScriptId) : Prop :=
  exists sc cs pc c, object (ei_source I) a = Ok (SScript sc) /\ compiled sc byte_of cs /\ (pc, c) ∈ located 0 cs /\
  ((is_folded_call (op_of c) = true /\ exists fs f, call_targets I (a, pc) = Some fs /\ f ∈ fs /\ as_script f = Some b) \/
   (exists i chars id targets, c = V_get_prop i /\ atom_text (ei_source I) sc i = Some chars /\ name_get names id = Some chars /\
     Z.of_nat id ∈ ei_accessor_names I /\ ei_call_sites I !! (a, pc) = Some (CR_Scripted targets) /\ b ∈ targets)).

Record op_covered (names : Names) (sum : EffectSummary) (t : ScriptId) (sc : Script) (pc : Pc) (c : OpCall) : Prop := {
  oc_class : classified (op_of c) = true;
  oc_elem : writes_element (op_of c) = true -> elems_write sum = true;
  oc_env : is_aliased_write (op_of c) = true -> env_write sum = true;
  oc_prop : forall i, prop_index c = Some i -> exists chars id range,
    atom_text (ei_source I) sc i = Some chars /\ name_get names id = Some chars /\
    recv_range I t (recv_of (ei_recv_class I) (this_writes I) (t, pc)) = Ok range /\ (range, Z.of_nat id) ∈ field_writes sum;
  oc_gname : forall i, gname_index c = Some i -> exists chars id,
    atom_text (ei_source I) sc i = Some chars /\ name_get names id = Some chars /\ Z.of_nat id ∈ gname_writes sum;
  oc_call : is_folded_call (op_of c) = true -> exists fs, call_targets I (t, pc) = Some fs /\
    (forall f, f ∈ fs -> as_script f = None -> fn_folded I names f [] sum) /\
    ((t, pc) ∈ elem_sites I -> elems_write sum = true);
  oc_read : forall i chars id, c = V_get_prop i -> atom_text (ei_source I) sc i = Some chars -> name_get names id = Some chars ->
    Z.of_nat id ∈ ei_accessor_names I -> exists targets, ei_call_sites I !! (t, pc) = Some (CR_Scripted targets) /\ targets <> [] }.

Context (names : Names) (locals : gmap Z LocalEffects) (local : gmap Z EffectSummary) (deps : gmap Z (list Z)).
Context (Hn : names_wf (ei_names I)) (Hc : all_compiled).
Context (Hwalk : walk_all debug_op T I ids (ei_names I) ∅ = Ok (names, locals)).
Context (Hres : resolve_all debug_op I names locals ids ∅ ∅ = Ok (local, deps)).

Lemma local_dom (z : Z) : z ∈ ids <-> is_Some (local !! z).
Proof.
  destruct (resolve_all_spec _ _ _ _ _ _ _ Hres (script_ids_nodup _)) as [H1 H2]. split.
  - intros Hz. destruct (H1 z Hz) as (? & sum & ? & _ & _ & E & _). by exists sum.
  - intros [s E]. destruct (decide (z ∈ ids)) as [|Hz]; [done|]. destruct (H2 z Hz) as [E' _]. by rewrite E', lookup_empty in E.
Qed.

(** A script of the map, from its bytecode to its own summary. *)
Lemma script_settled (z : Z) (sc : Script) (cs : list (Z * OpCall)) :
  z ∈ ids -> top (default effect_default (local !! z)) = false ->
  object (ei_source I) z = Ok (SScript sc) -> compiled sc byte_of cs ->
  names_wf names /\ sc_is_generator_or_async sc = false /\ exists w, names_le (ew_names w) names /\
    settled I names z (ew_out w) (default effect_default (local !! z)) (default [] (deps !! z)) /\
    forall p c, (p, c) ∈ located 0 cs -> recorded z sc (ei_source I) (ei_recv_class I) (this_writes I) (ei_accessor_names I) w p c.
Proof.
  intros Hz Ht Eo Hcs. destruct (resolve_all_spec _ _ _ _ _ _ _ Hres (script_ids_nodup _)) as [H1 _].
  destruct (H1 z Hz) as (l & sum & dl & El & Er & E1 & E2). rewrite E1 in Ht. rewrite E1, E2. cbn in Ht |- *.
  destruct (walk_all_spec Hc _ _ _ _ _ Hn (script_ids_nodup _) Hwalk) as (W1 & _ & _ & W4). split; [done|].
  destruct (W4 z l El Hz) as [E|(sc' & n & w & Eo' & Hwn & Ew & -> & Hle)]; [by rewrite lookup_empty in E|].
  assert (sc' = sc) as -> by congruence.
  destruct (resolve_script_spec debug_op I names z _ _ _ Er Ht) as [S1 S2 S3 S4 S5 S6 S7].
  destruct (walk_script_spec _ _ _ _ _ _ _ _ _ HT cs _ _ Hcs Hwn Ew) as (_ & _ & R). destruct (R S1) as [R1 R2].
  split; [done|]. exists w. by split_and!.
Qed.

#[local] Abbreviation loc z := (default effect_default (local !! z)).

Lemma edge_calls (a b : Z) : a ∈ ids -> top (loc a) = false -> call_edge names a b -> calls deps a b.
Proof.
  intros Ha Ht (sc & cs & pc & c & Eo & Hcs & Hin & H). unfold calls.
  destruct (script_settled a sc cs Ha Ht Eo Hcs) as (Hw & _ & w & Hle & S & R). destruct (R pc c Hin) as [_ _ _ R4 _ _ R7].
  destruct H as [(Hf & fs & f & Et & Hff & Es)|(i & chars & id & targets & -> & Ea & En & Hid & Et & Hb)].
  - destruct (se_calls _ _ _ _ _ _ S _ (R4 Hf)) as [(fs' & Et' & Hall) _]. assert (fs' = fs) as -> by congruence.
    specialize (Hall f Hff). unfold fn_folded in Hall. by rewrite Es in Hall.
  - destruct (R7 i chars eq_refl Ea) as (id' & En' & Hread). assert (id' = id) as ->.
    { apply (name_get_inj names _ _ chars); [done|by eapply names_le_get|done]. }
    destruct (se_reads _ _ _ _ _ _ S _ (Hread Hid)) as (ts & Et' & _ & Hsub). apply Hsub. congruence.
Qed.

Lemma op_covered_spec (t : Z) (sc : Script) (cs : list (Z * OpCall)) (sum : EffectSummary) (pc : Pc) (c : OpCall) :
  covers local ids sum t -> object (ei_source I) t = Ok (SScript sc) -> compiled sc byte_of cs -> (pc, c) ∈ located 0 cs ->
  op_covered names sum t sc pc c.
Proof.
  intros [[Hk Ht] C2 C3 C4 C5] Eo Hcs Hin.
  destruct (script_settled t sc cs Hk Ht Eo Hcs) as (Hw & _ & w & Hle & S & R). destruct (R pc c Hin) as [R1 R2 R3 R4 R5 R6 R7].
  destruct S as [S1 S2 S3 S4 S5 S6 S7]. split; auto.
  - intros i Hi. destruct (R5 i Hi) as (chars & id & A1 & A2 & A3). destruct (S5 _ _ A3) as (range & A4 & A5).
    exists chars, id, range. split_and!; [done|by eapply names_le_get|done|by apply C2].
  - intros i Hi. destruct (R6 i Hi) as (chars & id & A1 & A2 & A3). exists chars, id. split_and!; [done|by eapply names_le_get|].
    apply C3. by rewrite S4.
  - intros Hf. destruct (S6 _ (R4 Hf)) as [(fs & A1 & A2) A3]. exists fs. split_and!; [done| |auto].
    intros f Hff Es. specialize (A2 f Hff). unfold fn_folded in *. rewrite Es in *. destruct (natives_get _ f) as [info|]; [|done].
    destruct A2 as (chars & B1 & B2). exists chars. split; [done|]. destruct (native_effect _ _ _); auto.
  - intros i chars id Hcq Ea En Hid. destruct (R7 i chars Hcq Ea) as (id' & En' & Hread). assert (id' = id) as ->.
    { apply (name_get_inj names _ _ chars); [done|by eapply names_le_get|done]. }
    destruct (S7 _ (Hread Hid)) as (ts & B1 & B2 & _). by exists ts.
Qed.

(** Everything a call can reach is covered. *)
Lemma edges_covered (v : gmap Z EffectSummary) (z t : Z) (s : EffectSummary) :
  solves local deps ids v -> (forall z, z ∈ ids <-> is_Some (v !! z)) -> v !! z = Some s -> top s = false ->
  rtc (call_edge names) z t -> covers local ids s t.
Proof.
  intros Hs Hd E Ht Hr. apply (solution_covers local deps ids v z t s); [done|done|done|done|].
  revert t Hr. apply (rtc_ind_r (reaches deps z)); [apply rtc_refl|]. intros t u _ He IH. apply rtc_r with t; [done|].
  destruct (solution_covers local deps ids v z t s Hs Hd E Ht IH) as [[H1 H2] _ _ _ _]. by apply edge_calls.
Qed.
End Sound.
