(* ===== verification/Image.v ===== *)
(** * Image: the snapshot memory image

    [nightmonkey/src/image.rs]: the main linear memory materialized from a
    module's data segments, its byte-level accessors, and the search for the
    segments to write it back with. The module representation belongs to the
    waffle library: of its memory only the fields the code reads and writes
    appear, and its page size is the parameter [WASM_PAGE]. Offsets are
    positions in the image. *)

From Stdlib Require Import Sorting.Sorted.
From S2P Require Import Prelude Mem.

Record MemorySegment := mkMemorySegment { seg_offset : nat; seg_data : list Z }.

(** The fields of the module's memory the code uses. *)
Record MemoryData := mkMemoryData {
  md_initial_pages : nat;
  md_maximum_pages : option nat;
  md_segments : list MemorySegment }.

(** The [bail!] and [context] messages. *)
Inductive ImageError :=
  | IE_NoMemory
  | IE_SegmentOutOfBounds (end_ : nat)
  | IE_WriteOutOfBounds (addr : Z) (len : nat)
  | IE_ReadOutOfBounds (addr : Z).

Definition MAX_DATA_SEGMENTS : nat := Z.to_nat 10000.
Definition MIN_ACTIVE_SEGMENT_OVERHEAD : nat := 4.

(** [bytes[off..off + data.len()].copy_from_slice(data)], in bounds. *)
Definition splice (bytes : list Z) (off : nat) (data : list Z) : list Z :=
  take off bytes ++ data ++ drop (off + length data) bytes.

(** [bytes[r]]. *)
Definition slice (bytes : list Z) (r : nat * nat) : list Z := take (snd r - fst r) (drop (fst r) bytes).

(** [.iter().position(f)]. *)
Fixpoint position (f : Z -> bool) (l : list Z) : option nat :=
  match l with
  | [] => None
  | b :: l => if f b then Some 0%nat else S <$> position f l
  end.

Section Image.
Context (WASM_PAGE : nat).

Definition copy_segment (acc : ImageError + list Z) (s : MemorySegment) : ImageError + list Z :=
  match acc with
  | inl e => inl e
  | inr bytes =>
      let end_ := (seg_offset s + length (seg_data s))%nat in
      if (length bytes <? end_)%nat then inl (IE_SegmentOutOfBounds end_)
      else inr (splice bytes (seg_offset s) (seg_data s))
  end.

(** The first memory, if any, and the bytes its active segments give it. *)
Definition build_image (memories : list MemoryData) : ImageError + list Z :=
  match memories with
  | [] => inl IE_NoMemory
  | mem :: _ => foldl copy_segment (inr (replicate (md_initial_pages mem * WASM_PAGE) 0)) (md_segments mem)
  end.

(** ** Access *)

(** [end.next_multiple_of(WASM_PAGE)]. *)
Definition next_multiple (n : nat) : nat := ((n + WASM_PAGE - 1) / WASM_PAGE * WASM_PAGE)%nat.

Definition extend_to (bytes : list Z) (end_ : nat) : list Z :=
  let target := next_multiple end_ in
  if (length bytes <? target)%nat then bytes ++ replicate (target - length bytes) 0 else bytes.

Definition write_bytes (bytes : list Z) (addr : Z) (data : list Z) : ImageError + list Z :=
  let start := Z.to_nat addr in
  let end_ := (start + length data)%nat in
  if (length bytes <? end_)%nat then inl (IE_WriteOutOfBounds addr (length data))
  else inr (splice bytes start data).

Definition write_u32 (bytes : list Z) (addr value : Z) : ImageError + list Z := write_bytes bytes addr (to_le 4 value).

Definition read_u32 (bytes : list Z) (addr : Z) : ImageError + Z :=
  let start := Z.to_nat addr in
  let end_ := (start + 4)%nat in
  if (length bytes <? end_)%nat then inl (IE_ReadOutOfBounds addr) else inr (le_bytes (slice bytes (start, end_))).

(** ** The segments of an image *)

(** The runs of non-zero bytes from [start] to the end of the page. *)
Fixpoint page_runs (fuel : nat) (bytes : list Z) (start page_end : nat) : option (list (nat * nat)) :=
  if (start <? page_end)%nat then
    match fuel with
    | O => None
    | S fuel =>
        match position (fun b => negb (b =? 0)) (slice bytes (start, page_end)) with
        | None => Some []
        | Some i =>
            let start := (start + i)%nat in
            let end_ := match position (fun b => b =? 0) (slice bytes (start, page_end)) with
                        | None => page_end
                        | Some zero => (start + zero)%nat
                        end in
            cons (start, end_) <$> page_runs fuel bytes end_ page_end
        end
    end
  else Some [].

Fixpoint runs_from (bytes : list Z) (i n : nat) : option (list (nat * nat)) :=
  match n with
  | O => Some []
  | S n =>
      match page_runs WASM_PAGE bytes (i * WASM_PAGE) ((i + 1) * WASM_PAGE), runs_from bytes (i + 1) n with
      | Some r, Some rs => Some (r ++ rs)
      | _, _ => None
      end
  end.

Definition runs (bytes : list Z) : option (list (nat * nat)) :=
  runs_from bytes 0 (length bytes / WASM_PAGE).
End Image.

(** Ranges whose gap costs no more than a segment become one; [last] is the
    range the loop extends. *)
Fixpoint merge_near (last : nat * nat) (rs : list (nat * nat)) : list (nat * nat) :=
  match rs with
  | [] => [last]
  | r :: rs =>
      if (fst r - snd last <=? MIN_ACTIVE_SEGMENT_OVERHEAD)%nat then merge_near (fst last, snd r) rs
      else last :: merge_near r rs
  end.

(** The gaps between consecutive ranges, each with the index of the first. *)
Fixpoint gaps_from (i : nat) (rs : list (nat * nat)) : list (nat * nat) :=
  match rs with
  | r :: ((r' :: _) as rs') => ((fst r' - snd r)%nat, i) :: gaps_from (S i) rs'
  | _ => []
  end.

Definition gap_le (a b : nat * nat) : bool :=
  (fst a <? fst b)%nat || ((fst a =? fst b)%nat && (snd a <=? snd b)%nat).

(** Range [i] extended over its successor, which goes; [None] is an index out
    of range. *)
Definition merge_at (rs : option (list (nat * nat))) (i : nat) : option (list (nat * nat)) :=
  rs ← rs; r ← rs !! i; r' ← rs !! S i; Some (take i rs ++ (fst r, snd r') :: drop (S (S i)) rs).

(** Down to [cap] ranges, the smallest gaps first. *)
Definition merge_to_cap (cap : nat) (merged : list (nat * nat)) : option (list (nat * nat)) :=
  if (cap <? length merged)%nat then
    let excess := (length merged - cap)%nat in
    let gaps := sort_list gap_le (gaps_from 0 merged) in
    let to_merge := sort_list (fun a b => (b <=? a)%nat) (snd <$> take excess gaps) in
    foldl merge_at (Some merged) to_merge
  else Some merged.

Definition snapshot_memory (WASM_PAGE cap : nat) (bytes : list Z) : option (list MemorySegment) :=
  match runs WASM_PAGE bytes with
  | None => None
  | Some [] => Some []
  | Some (r :: rs) =>
      match merge_to_cap cap (merge_near r rs) with
      | None => None
      | Some merged => Some ((fun r => mkMemorySegment (fst r) (slice bytes r)) <$> merged)
      end
  end.

(** [None] is a panic or a loop out of fuel. The memory with its segments
    replaced and its limits raised to the image. *)
Definition update (WASM_PAGE : nat) (mem : MemoryData) (bytes : list Z) : option MemoryData :=
  match snapshot_memory WASM_PAGE MAX_DATA_SEGMENTS bytes with
  | None => None
  | Some segments =>
      let initial := Nat.max (md_initial_pages mem) (length bytes / WASM_PAGE) in
      Some (mkMemoryData initial
        (match md_maximum_pages mem with
         | Some m => if (m <? initial)%nat then Some initial else Some m
         | None => None
         end) segments)
  end.

(** * the segments of an image restore it

    Ranges in order ([chain]) that cover every byte that is not zero; the
    searches and the merges keep both, so that writing the segments over
    zeros gives the image back. *)

Open Scope nat_scope.

(** Ranges between [lo] and [hi], in order, none empty. *)
Fixpoint chain (lo hi : nat) (rs : list (nat * nat)) : Prop :=
  match rs with
  | [] => lo <= hi
  | r :: rs => lo <= fst r /\ fst r < snd r /\ chain (snd r) hi rs
  end.

Definition covers (rs : list (nat * nat)) (i : nat) : Prop := exists r, r ∈ rs /\ fst r <= i < snd r.

Lemma covers_cons (r : nat * nat) (rs : list (nat * nat)) (i : nat) :
  covers (r :: rs) i <-> fst r <= i < snd r \/ covers rs i.
Proof.
  unfold covers. split.
  - intros (r' & [->|H]%elem_of_cons & Hi); eauto.
  - intros [H|(r' & H & Hi)]; [exists r|exists r']; (split; [|done]); apply elem_of_cons; auto.
Qed.

Lemma covers_app (a b : list (nat * nat)) (i : nat) : covers (a ++ b) i <-> covers a i \/ covers b i.
Proof. induction a as [|r a IH]; cbn [app]; [split; [by right|intros [(r & H & _)|]; [by apply elem_of_nil in H|done]]|].
  rewrite !covers_cons, IH. tauto. Qed.

Lemma chain_le (lo hi : nat) (rs : list (nat * nat)) : chain lo hi rs -> lo <= hi.
Proof. revert lo. induction rs as [|r rs IH]; cbn; [done|]. intros lo (H1 & H2 & H3%IH). lia. Qed.

Lemma chain_weaken (lo lo' hi : nat) (rs : list (nat * nat)) : lo' <= lo -> chain lo hi rs -> chain lo' hi rs.
Proof. destruct rs; cbn; [lia|]. intros ? (? & ? & ?). split_and!; [lia|lia|done]. Qed.

Lemma chain_covers (lo hi : nat) (rs : list (nat * nat)) (i : nat) : chain lo hi rs -> covers rs i -> lo <= i < hi.
Proof.
  revert lo. induction rs as [|r rs IH]; intros lo; cbn; [intros _ (r & H & _); by apply elem_of_nil in H|].
  intros (H1 & H2 & H3) [H|H]%covers_cons; [|apply (IH _ H3) in H; lia]. apply chain_le in H3. lia.
Qed.

Lemma chain_app (lo mid hi : nat) (a b : list (nat * nat)) : chain lo mid a -> chain mid hi b -> chain lo hi (a ++ b).
Proof.
  revert lo. induction a as [|r a IH]; intros lo; cbn [chain app].
  - intros H1 H2. by apply (chain_weaken mid).
  - intros (H1 & H2 & H3) H4. split_and!; [done|done|by apply IH].
Qed.

(** ** Runs *)

Lemma position_Some (f : Z -> bool) (l : list Z) (i : nat) :
  position f l = Some i -> (exists b, l !! i = Some b /\ f b = true) /\ forall j b, j < i -> l !! j = Some b -> f b = false.
Proof.
  revert i. induction l as [|b l IH]; intros i; cbn; [done|]. destruct (f b) eqn:E.
  - intros [= <-]. split; [by exists b|lia].
  - destruct (position f l) as [k|]; cbn; [|done]. intros [= <-]. destruct (IH k eq_refl) as [H1 H2].
    split; [exact H1|]. intros [|j] b' Hj; cbn; [by intros [= <-]|]. apply H2. lia.
Qed.

Lemma position_None (f : Z -> bool) (l : list Z) (i : nat) (b : Z) : position f l = None -> l !! i = Some b -> f b = false.
Proof.
  revert i. induction l as [|c l IH]; intros i; cbn; [done|]. destruct (f c) eqn:E; [done|].
  destruct (position f l) as [k|]; cbn; [done|]. intros _. destruct i as [|i]; cbn; [by intros [= <-]|]. by apply IH.
Qed.

Lemma slice_lookup (bytes : list Z) (a b i : nat) :
  slice bytes (a, b) !! i = if decide (a + i < b) then bytes !! (a + i) else None.
Proof.
  unfold slice. cbn [fst snd]. destruct (decide (a + i < b)).
  - rewrite lookup_take, decide_True by lia. apply lookup_drop.
  - rewrite lookup_take, decide_False by lia. done.
Qed.

Lemma slice_length (bytes : list Z) (a b : nat) : b <= length bytes -> length (slice bytes (a, b)) = b - a.
Proof. intros H. unfold slice. cbn. rewrite length_take, length_drop. lia. Qed.

Definition nonzero_at (bytes : list Z) (i : nat) : Prop := exists b, bytes !! i = Some b /\ b <> 0%Z.

Section Runs.
Context (page : nat) (bytes : list Z).

Lemma page_runs_spec (fuel start page_end : nat) :
  start <= page_end <= length bytes -> page_end - start <= fuel ->
  exists rs, page_runs fuel bytes start page_end = Some rs /\ chain start page_end rs /\
    forall i, start <= i < page_end -> nonzero_at bytes i -> covers rs i.
Proof.
  revert start. induction fuel as [|fuel IH]; intros start Hs Hf; cbn [page_runs].
  - destruct (Nat.ltb_spec start page_end); [lia|]. exists []. split_and!; [done|cbn; lia|lia].
  - destruct (Nat.ltb_spec start page_end) as [Hlt|]; [|exists []; split_and!; [done|cbn; lia|lia]].
    destruct (position _ (slice bytes (start, page_end))) as [k|] eqn:E1; cycle 1.
    { exists []. split_and!; [done|cbn; lia|]. intros i Hi (b & Hb & Hne). exfalso.
      assert (slice bytes (start, page_end) !! (i - start) = Some b) as Hl.
      { rewrite slice_lookup, decide_True by lia. by replace (start + (i - start)) with i by lia. }
      apply (position_None _ _ _ _ E1) in Hl. apply Hne, Z.eqb_eq. by apply negb_false_iff. }
    apply position_Some in E1 as [(b & Hb & Hnz) Hbefore]. rewrite slice_lookup in Hb.
    destruct (decide (start + k < page_end)) as [Hk|]; [|done].
    set (en := match position _ (slice bytes (start + k, page_end)) with Some zero => start + k + zero | None => page_end end).
    assert (start + k < en <= page_end) as Hen.
    { unfold en. destruct (position _ (slice bytes (start + k, page_end))) as [z|] eqn:E2; [|lia].
      apply position_Some in E2 as [(b' & Hb' & Hz) _]. rewrite slice_lookup in Hb'.
      destruct (decide (start + k + z < page_end)); [|done]. destruct z; [|lia].
      rewrite Nat.add_0_r in Hb'. rewrite Hb in Hb'. injection Hb' as <-. by rewrite Hz in Hnz. }
    destruct (IH en ltac:(lia) ltac:(lia)) as (rs & -> & Hc & Hcov). cbn [fmap option_fmap option_map].
    eexists. split; [done|]. split; [cbn; split_and!; [lia|lia|done]|].
    intros i Hi Hn. apply covers_cons. cbn [fst snd]. destruct (decide (i < start + k)) as [Hlo|].
    + destruct Hn as (c & Hc' & Hne). exfalso. assert (slice bytes (start, page_end) !! (i - start) = Some c) as Hl.
      { rewrite slice_lookup, decide_True by lia. by replace (start + (i - start)) with i by lia. }
      apply Hbefore in Hl; [|lia]. apply Hne, Z.eqb_eq. by apply negb_false_iff.
    + destruct (decide (i < en)); [left; lia|right]. apply Hcov; [lia|done].
Qed.

Lemma runs_from_spec (i n : nat) :
  (i + n) * page <= length bytes ->
  exists rs, runs_from page bytes i n = Some rs /\ chain (i * page) ((i + n) * page) rs /\
    forall j, i * page <= j < (i + n) * page -> nonzero_at bytes j -> covers rs j.
Proof.
  revert i. induction n as [|n IH]; intros i Hn; cbn [runs_from].
  { exists []. split_and!; [done|cbn; lia|lia]. }
  destruct (page_runs_spec page (i * page) ((i + 1) * page)) as (r & -> & H1 & H2); [nia|nia|].
  destruct (IH (i + 1)) as (rs & -> & H3 & H4); [nia|]. replace (i + 1 + n) with (i + S n) in * by lia.
  exists (r ++ rs). split_and!; [done|by apply (chain_app _ ((i + 1) * page))|].
  intros j Hj Hz. apply covers_app. destruct (decide (j < (i + 1) * page)); [left; apply H2; [lia|done]|].
  right. apply H4; [lia|done].
Qed.
End Runs.

(** ** Merges *)

Lemma merge_near_spec (lo hi : nat) (last : nat * nat) (rs : list (nat * nat)) :
  chain lo hi (last :: rs) ->
  chain lo hi (merge_near last rs) /\ forall i, covers (last :: rs) i -> covers (merge_near last rs) i.
Proof.
  revert lo last. induction rs as [|r rs IH]; intros lo last; [done|]. intros (H1 & H2 & H3 & H4 & H5). cbn [merge_near].
  destruct (_ <=? _).
  - destruct (IH lo (fst last, snd r)) as [K1 K2]; [cbn; split_and!; [done|lia|done]|]. split; [done|].
    intros i Hi. apply K2. rewrite !covers_cons in *. cbn [fst snd]. destruct Hi as [|[|]]; [left; lia|left; lia|by right].
  - destruct (IH (snd last) r) as [K1 K2]; [cbn; by split_and!|]. split; [cbn; by split_and!|].
    intros i. rewrite !(covers_cons last). intros [|]; [by left|right; by apply K2].
Qed.

Lemma chain_split (lo hi : nat) (a b : list (nat * nat)) :
  chain lo hi (a ++ b) -> exists mid, chain lo mid a /\ chain mid hi b.
Proof.
  revert lo. induction a as [|r a IH]; intros lo; cbn [chain app]; [intros H; exists lo; by split|].
  intros (H1 & H2 & (mid & H3 & H4)%IH). exists mid. by split_and!.
Qed.

Lemma merge_at_spec (lo hi : nat) (rs : list (nat * nat)) (i : nat) :
  chain lo hi rs -> S i < length rs ->
  exists rs', merge_at (Some rs) i = Some rs' /\ length rs' = length rs - 1 /\ chain lo hi rs' /\
    forall j, covers rs j -> covers rs' j.
Proof.
  intros Hc Hi. destruct (lookup_lt_is_Some_2 rs i) as [r Hr]; [lia|].
  destruct (lookup_lt_is_Some_2 rs (S i)) as [r' Hr']; [lia|].
  assert (rs = take i rs ++ r :: r' :: drop (S (S i)) rs) as E.
  { rewrite <- (drop_S _ _ _ Hr'), <- (drop_S _ _ _ Hr). by rewrite take_drop. }
  exists (take i rs ++ (fst r, snd r') :: drop (S (S i)) rs). cbn. rewrite Hr. cbn. rewrite Hr'. cbn.
  split; [done|]. split; [rewrite length_app, length_take; cbn; rewrite length_drop; lia|].
  set (a := take i rs) in *. set (b := drop (S (S i)) rs) in *. clearbody a b. subst rs.
  apply chain_split in Hc as (mid & H1 & H2 & H3 & H4 & H5 & H6). split.
  - apply (chain_app _ mid); [done|]. cbn. split_and!; [done|lia|done].
  - intros j. rewrite !covers_app, !covers_cons. cbn [fst snd]. intros [|[|[|]]]; [by left|right; left; lia..|by right; right].
Qed.

Lemma merge_all_spec (lo hi : nat) (l : list nat) (rs : list (nat * nat)) :
  chain lo hi rs -> StronglySorted (fun x y => y < x) l -> (forall i, i ∈ l -> S i < length rs) ->
  exists rs', foldl merge_at (Some rs) l = Some rs' /\ length rs' = length rs - length l /\ chain lo hi rs' /\
    forall j, covers rs j -> covers rs' j.
Proof.
  revert rs. induction l as [|i l IH]; intros rs Hc Hs Hi; cbn [foldl length].
  { exists rs. split_and!; [done|lia|done|done]. }
  apply StronglySorted_inv in Hs as [Hs Hlt]. destruct (merge_at_spec lo hi rs i Hc) as (rs1 & -> & L1 & C1 & V1).
  { apply Hi. left. }
  destruct (IH rs1 C1 Hs) as (rs2 & -> & L2 & C2 & V2).
  { intros j Hj. rewrite L1. pose proof (proj1 (list.Forall_forall _ _) Hlt j Hj) as Hji. cbv beta in Hji.
    specialize (Hi i ltac:(left)). lia. }
  exists rs2. split_and!; [done|lia|done|auto].
Qed.

Lemma gaps_from_snd (i : nat) (rs : list (nat * nat)) : snd <$> gaps_from i rs = seq i (length rs - 1).
Proof.
  revert i. induction rs as [|r [|r' rs] IH]; intros i; [done|done|]. cbn [gaps_from length fmap list_fmap].
  replace (S (S (length rs)) - 1) with (S (length rs)) by lia. cbn [seq snd]. f_equal.
  specialize (IH (S i)). cbn [length] in IH. replace (S (length rs) - 1) with (length rs) in IH by lia. exact IH.
Qed.

Lemma descending (l : list nat) :
  NoDup l -> StronglySorted (fun x y => (y <=? x) = true) l -> StronglySorted (fun x y => y < x) l.
Proof.
  intros Hn Hs. induction Hs as [|x l Hs IH Hx]; [constructor|]. apply list.NoDup_cons in Hn as [Hx' Hn].
  constructor; [by apply IH|]. apply list.Forall_forall. intros y Hy.
  pose proof (proj1 (list.Forall_forall _ _) Hx y Hy) as H%Nat.leb_le. destruct (decide (x = y)); [by subst|lia].
Qed.

Lemma merge_to_cap_spec (cap lo hi : nat) (rs : list (nat * nat)) :
  0 < cap -> chain lo hi rs ->
  exists rs', merge_to_cap cap rs = Some rs' /\ length rs' <= cap /\ chain lo hi rs' /\
    forall j, covers rs j -> covers rs' j.
Proof.
  intros Hcap Hc. unfold merge_to_cap. destruct (Nat.ltb_spec cap (length rs)) as [Hlt|]; [|exists rs; by split_and!].
  set (gaps := sort_list gap_le (gaps_from 0 rs)). set (l := sort_list _ (snd <$> take (length rs - cap) gaps)).
  assert (snd <$> gaps ≡ₚ seq 0 (length rs - 1)) as Hg.
  { unfold gaps. by rewrite sort_list_perm, gaps_from_snd. }
  assert (NoDup (snd <$> gaps)) as Hnd by (rewrite Hg; apply NoDup_seq).
  assert (length gaps = length rs - 1) as Lg.
  { rewrite <- (length_fmap snd gaps), Hg. apply length_seq. }
  assert (l ≡ₚ take (length rs - cap) (snd <$> gaps)) as Hl by (unfold l; by rewrite sort_list_perm, fmap_take).
  destruct (merge_all_spec lo hi l rs Hc) as (rs' & -> & L' & C' & V').
  - apply descending.
    + rewrite Hl. rewrite <- (take_drop (length rs - cap) (snd <$> gaps)) in Hnd. by apply list.NoDup_app in Hnd as [? _].
    + apply sort_list_sorted; [|intros x y z H1%Nat.leb_le H2%Nat.leb_le; apply Nat.leb_le; lia].
      intros x y. rewrite !Nat.leb_le. lia.
  - intros i Hi. rewrite Hl in Hi. assert (i ∈ snd <$> gaps) as Hi'.
    { rewrite <- (take_drop (length rs - cap)). apply elem_of_app. by left. }
    rewrite Hg in Hi'. apply elem_of_seq in Hi'. lia.
  - exists rs'. split_and!; [done| |done|done]. rewrite L', Hl, length_take, length_fmap, Lg. lia.
Qed.

(** ** Writing segments *)

Lemma splice_length (bytes data : list Z) (off : nat) :
  off + length data <= length bytes -> length (splice bytes off data) = length bytes.
Proof. intros H. unfold splice. rewrite !length_app, length_take, length_drop. lia. Qed.

Lemma splice_lookup (bytes data : list Z) (off i : nat) :
  off + length data <= length bytes ->
  splice bytes off data !! i = if decide (off <= i < off + length data) then data !! (i - off) else bytes !! i.
Proof.
  intros H. unfold splice. destruct (decide (i < off)) as [Hi|Hi].
  - rewrite lookup_app_l by (rewrite length_take; lia). rewrite lookup_take, decide_True, decide_False by lia. done.
  - rewrite lookup_app_r by (rewrite length_take; lia). rewrite length_take, Nat.min_l by lia.
    destruct (decide (i < off + length data)) as [Hj|Hj].
    + rewrite lookup_app_l by lia. by rewrite decide_True by lia.
    + rewrite lookup_app_r by lia. rewrite lookup_drop, decide_False by lia. f_equal. lia.
Qed.

Lemma copy_ranges_spec (bytes : list Z) (lo hi : nat) (rs : list (nat * nat)) (acc : list Z) :
  chain lo hi rs -> hi <= length bytes -> hi <= length acc ->
  exists out, foldl copy_segment (inr acc) ((fun r => mkMemorySegment (fst r) (slice bytes r)) <$> rs) = inr out /\
    length out = length acc /\
    forall i, (covers rs i -> out !! i = bytes !! i) /\ (~ covers rs i -> out !! i = acc !! i).
Proof.
  revert lo acc. induction rs as [|[a b] rs IH]; intros lo acc; cbn [foldl fmap list_fmap].
  { intros _ _ _. exists acc. split_and!; [done|done|]. intros i. split; [|done].
    intros (r & H & _). by apply elem_of_nil in H. }
  intros (H1 & H2 & H3) Hb Ha. pose proof (chain_le _ _ _ H3) as Hle. cbn [fst snd] in *.
  unfold copy_segment at 2. cbn [seg_offset seg_data]. rewrite slice_length by lia.
  destruct (Nat.ltb_spec (length acc) (a + (b - a))); [lia|].
  assert (a + length (slice bytes (a, b)) <= length acc) as Hs by (rewrite slice_length; lia).
  destruct (IH b (splice acc a (slice bytes (a, b))) H3 Hb) as (out & -> & L & V).
  { rewrite splice_length by done. lia. }
  exists out. split_and!; [done|by rewrite L, splice_length|]. intros i. destruct (V i) as [V1 V2]. split.
  - intros [Hi|Hi]%covers_cons; [|by apply V1]. cbn [fst snd] in Hi. rewrite V2, splice_lookup by
      first [done|intros Hc; apply (chain_covers _ _ _ _ H3) in Hc; lia].
    rewrite slice_length, decide_True, slice_lookup, decide_True by lia. f_equal. lia.
  - rewrite covers_cons. cbn [fst snd]. intros Hi. rewrite V2, splice_lookup by first [done|tauto].
    rewrite slice_length by lia. rewrite decide_False; [done|]. intros Hj. apply Hi. left. lia.
Qed.

(** The segments found for an image of whole pages, written over zeros. *)
Lemma snapshot_memory_spec (page cap k : nat) (bytes : list Z) :
  0 < page -> 0 < cap -> length bytes = k * page ->
  exists rs, snapshot_memory page cap bytes = Some ((fun r => mkMemorySegment (fst r) (slice bytes r)) <$> rs) /\
    length rs <= cap /\ chain 0 (length bytes) rs /\ forall i, nonzero_at bytes i -> covers rs i.
Proof.
  intros Hp Hcap Hl. unfold snapshot_memory, runs. rewrite Hl, Nat.div_mul by lia.
  destruct (runs_from_spec page bytes 0 k) as (rs & -> & Hc & Hv); [lia|].
  assert (forall i, nonzero_at bytes i -> covers rs i) as Hv'.
  { intros i Hn. apply Hv; [|done]. destruct Hn as (b & Hb%lookup_lt_Some & _). lia. }
  destruct rs as [|r rs].
  { exists []. split_and!; [done|cbn; lia|cbn; lia|done]. }
  destruct (merge_near_spec _ _ r rs Hc) as [Hc1 Hv1].
  destruct (merge_to_cap_spec cap _ _ _ Hcap Hc1) as (rs' & -> & L & Hc2 & Hv2).
  exists rs'. split_and!; [done|done|exact Hc2|]. intros i Hn. by apply Hv2, Hv1, Hv'.
Qed.

Lemma build_update (page k : nat) (bytes : list Z) (mem : MemoryData) (rest : list MemoryData) :
  0 < page -> length bytes = k * page ->
  exists mem', update page mem bytes = Some mem' /\
    build_image page (mem' :: rest) = inr (bytes ++ replicate ((md_initial_pages mem' - k) * page) 0%Z) /\
    length (md_segments mem') <= MAX_DATA_SEGMENTS /\
    k <= md_initial_pages mem' /\ (forall m, md_maximum_pages mem' = Some m -> md_initial_pages mem' <= m).
Proof.
  intros Hp Hl. unfold update.
  destruct (snapshot_memory_spec page MAX_DATA_SEGMENTS k bytes Hp) as (rs & -> & L & Hc & Hv); [|done|].
  { unfold MAX_DATA_SEGMENTS. lia. }
  rewrite Hl, Nat.div_mul by lia. eexists. split; [done|]. cbn [md_initial_pages md_segments md_maximum_pages].
  split; [|rewrite length_fmap; split_and!; [done|lia|]]; cycle 1.
  { intros m. destruct (md_maximum_pages mem) as [m0|]; [|done]. destruct (Nat.ltb_spec m0 (Nat.max (md_initial_pages mem) k));
    intros [= <-]; lia. }
  unfold build_image. cbn [md_initial_pages md_segments]. set (n := Nat.max (md_initial_pages mem) k).
  destruct (copy_ranges_spec bytes 0 (length bytes) rs (replicate (n * page) 0%Z) Hc) as (out & -> & Lo & V).
  { done. } { rewrite length_replicate, Hl. apply Nat.mul_le_mono_r. lia. }
  f_equal. rewrite length_replicate in Lo. apply list_eq. intros i.
  assert (k * page <= n * page) by (apply Nat.mul_le_mono_r; lia).
  assert (n * page = k * page + (n - k) * page) as En by (rewrite <- Nat.mul_add_distr_r; f_equal; lia).
  destruct (decide (i < length bytes)) as [Hi|Hi].
  - rewrite lookup_app_l by done. destruct (V i) as [V1 V2].
    destruct (bytes !! i) as [b|] eqn:Eb; [|by apply lookup_ge_None in Eb; lia].
    destruct (decide (b = 0%Z)) as [->|Hb].
    + assert (covers rs i \/ ~ covers rs i) as [Hcv|Hcv].
      { clear. induction rs as [|r rs IH]; [right; intros (r & H & _); by apply elem_of_nil in H|].
        rewrite covers_cons. destruct (decide (fst r <= i < snd r)); [by left; left|]. destruct IH; [by left; right|right; tauto]. }
      * by rewrite V1.
      * rewrite V2 by done. apply lookup_replicate_2. lia.
    + rewrite V1; [done|]. apply Hv. by exists b.
  - rewrite lookup_app_r by lia. destruct (V i) as [_ V2]. rewrite V2.
    + destruct (decide (i < n * page)).
      * rewrite !lookup_replicate_2 by lia. done.
      * rewrite !(proj2 (lookup_ge_None _ _)) by (rewrite length_replicate; lia). done.
    + intros Hcv%(chain_covers _ _ _ _ Hc). lia.
Qed.
