(* ===== verification/Strip.v ===== *)
(** * Strip: dropping the debug sections of a module

    [nightmonkey/src/strip.rs]: the walk over the sections of a Wasm binary
    that drops the names and the debug info, and its LEB128 reader. Positions
    and sizes are [usize] on a 64-bit host; their sums wrap, as in the release
    profile. *)

From S2P Require Import Prelude Mem Registration.

(** How a run ends; the errors are the [bail!] calls and the UTF-8 error. *)
Inductive StripError := SE_NotWasm | SE_SectionPastEnd | SE_NamePastSection | SE_NotUtf8 | SE_LebTruncated | SE_LebOversized.

Inductive sres (A : Type) := S_Ok (a : A) | S_Err (e : StripError) | S_Panic | S_NoFuel.
Arguments S_Ok {A} a.
Arguments S_Err {A} e.
Arguments S_Panic {A}.
Arguments S_NoFuel {A}.

Definition sres_bind {A B} (m : sres A) (f : A -> sres B) : sres B :=
  match m with
  | S_Ok a => f a
  | S_Err e => S_Err e
  | S_Panic => S_Panic
  | S_NoFuel => S_NoFuel
  end.

Definition host_add (a b : Z) : Z := wrap_u 64 (a + b).

Definition byte_at (b : list Z) (i : Z) : option Z := b !! Z.to_nat i.
Definition byte_slice (b : list Z) (i j : Z) : list Z := take (Z.to_nat (j - i)) (drop (Z.to_nat i) b).

(** [name] and [.debug], as bytes. *)
Definition NAME : list Z := [110; 97; 109; 101].
Definition DOT_DEBUG : list Z := [46; 100; 101; 98; 117; 103].

Definition dropped (name : list Z) : bool :=
  bool_decide (name = NAME) || bool_decide (take 6 name = DOT_DEBUG).

Fixpoint uleb_loop (fuel : nat) (b : list Z) (i v shift : Z) : sres (Z * Z) :=
  match byte_at b i with
  | None => S_Err SE_LebTruncated
  | Some byte =>
      let i := i + 1 in
      let v := Z.lor v (wrap_u 64 (Z.shiftl (Z.land byte 0x7f) shift)) in
      if Z.land byte 0x80 =? 0 then S_Ok (v, i)
      else
        let shift := shift + 7 in
        if 64 <=? shift then S_Err SE_LebOversized
        else match fuel with O => S_NoFuel | S fuel => uleb_loop fuel b i v shift end
  end.

(** Ten bytes exhaust the shift. *)
Definition uleb (b : list Z) (i : Z) : sres (Z * Z) := uleb_loop 9 b i 0 0.

(** The custom section whose name starts at [next], ending at [i]: whether it
    is dropped. *)
Definition custom_dropped (wasm : list Z) (next i : Z) : sres bool :=
  sres_bind (uleb wasm next) (fun '(n, after) =>
    let end_ := host_add after n in
    if i <? end_ then S_Err SE_NamePastSection
    else if end_ <? after then S_Panic
    else
      let name := byte_slice wasm after end_ in
      if utf8_valid name then S_Ok (dropped name) else S_Err SE_NotUtf8).

Fixpoint strip_loop (fuel : nat) (wasm : list Z) (i : Z) (out : list Z) : sres (list Z) :=
  if i <? len wasm then
    match fuel with
    | O => S_NoFuel
    | S fuel =>
        let start := i in
        match byte_at wasm i with
        | None => S_Panic
        | Some id =>
            sres_bind (uleb wasm (i + 1)) (fun '(size, next) =>
              let i := host_add next size in
              if len wasm <? i then S_Err SE_SectionPastEnd
              else
                sres_bind (if id =? 0 then custom_dropped wasm next i else S_Ok false) (fun drop =>
                  if drop : bool then strip_loop fuel wasm i out
                  else if i <? start then S_Panic
                  else strip_loop fuel wasm i (out ++ byte_slice wasm start i)))
        end
    end
  else S_Ok out.

(** [\0asm]. *)
Definition MAGIC : list Z := [0; 97; 115; 109].

Definition strip (fuel : nat) (wasm : list Z) : sres (list Z) :=
  if negb (bool_decide (take 4 wasm = MAGIC)) || (len wasm <? 8) then S_Err SE_NotWasm
  else strip_loop fuel wasm 8 (take 8 wasm).

(** * the walk keeps exactly the other sections

    The LEB128 reader inverts the encoding; stripping an encoded list of
    sections is encoding the sections it keeps; and a section size close to
    [2^64], which wraps the position, can hold the walk in place for ever. *)

(** ** LEB128 *)

Fixpoint to_uleb (fuel : nat) (n : Z) : list Z :=
  match fuel with
  | O => [n]
  | S fuel => if n <? 128 then [n] else (n mod 128 + 128) :: to_uleb fuel (n / 128)
  end.

(** [b] continues with [l] at [i]. *)
Definition starts_at (b : list Z) (i : Z) (l : list Z) : Prop := 0 <= i /\ exists rest, drop (Z.to_nat i) b = l ++ rest.

Lemma starts_at_cons (b : list Z) (i x : Z) (l : list Z) :
  starts_at b i (x :: l) -> byte_at b i = Some x /\ starts_at b (i + 1) l.
Proof.
  intros [H0 [rest E]]. assert (byte_at b i = Some x) as Hx.
  { unfold byte_at. rewrite <- (Nat.add_0_r (Z.to_nat i)), <- lookup_drop, E. done. }
  split; [done|]. split; [lia|]. exists rest. replace (Z.to_nat (i + 1)) with (Z.to_nat i + 1)%nat by lia.
  by rewrite <- drop_drop, E.
Qed.

Lemma starts_at_app (b : list Z) (i : Z) (l k : list Z) :
  starts_at b i (l ++ k) -> starts_at b i l /\ starts_at b (i + len l) k.
Proof.
  intros [H0 [rest E]]. split; [split; [done|]; exists (k ++ rest); by rewrite app_assoc|].
  split; [unfold len; lia|]. exists rest. unfold len. replace (Z.to_nat (i + Z.of_nat (length l))) with (Z.to_nat i + length l)%nat by lia.
  rewrite <- drop_drop, E, <- app_assoc. apply drop_app_length.
Qed.

Lemma low_bits (r : Z) : 0 <= r < 128 -> Z.land r 127 = r /\ Z.land r 128 = 0.
Proof.
  intros Hr. assert (Z.land r (Z.ones 7) = r) as E by (rewrite Z.land_ones by lia; apply Z.mod_small; lia).
  split; [exact E|]. rewrite <- E, <- Z.land_assoc. apply Z.land_0_r.
Qed.

Lemma continued_bits (r : Z) : 0 <= r < 128 -> Z.land (r + 128) 127 = r /\ Z.land (r + 128) 128 = 128.
Proof.
  intros Hr. destruct (low_bits r Hr) as [H1 H2]. pose proof (Z.add_lor_land r 128) as H3. rewrite H2, Z.add_0_r in H3.
  rewrite <- H3, !Z.land_lor_distr_l, H1, H2. split; [apply Z.lor_0_r|done].
Qed.

Lemma uleb_last (fuel : nat) (b : list Z) (i v n s : Z) :
  0 <= s -> 0 <= n < 128 -> 0 <= v < 2 ^ s -> n * 2 ^ s < 2 ^ 64 -> byte_at b i = Some n ->
  uleb_loop fuel b i v s = S_Ok (v + n * 2 ^ s, i + len [n]).
Proof.
  intros Hs Hn Hv Hb E. destruct (low_bits n Hn) as [L1 L2].
  destruct fuel; cbn [uleb_loop]; rewrite E, L1, L2; cbv iota zeta; rewrite Z.eqb_refl, wrap_u_small, lor_shift
    by (lia || (unfold in_u; rewrite ?Z.shiftl_mul_pow2 by lia; nia)); by rewrite (Z.mul_comm n).
Qed.

Lemma uleb_loop_spec (g fuel : nat) (b : list Z) (i v n s : Z) :
  (fuel <= 9)%nat -> s = 7 * (9 - Z.of_nat fuel) ->
  0 <= n -> 0 <= v < 2 ^ s -> n * 2 ^ s < 2 ^ 64 -> n < 128 ^ Z.of_nat (S g) ->
  starts_at b i (to_uleb g n) -> uleb_loop fuel b i v s = S_Ok (v + n * 2 ^ s, i + len (to_uleb g n)).
Proof.
  revert fuel i v n s. induction g as [|g IH]; intros fuel i v n s Hf Es Hn Hv Hb Hg Hs.
  - cbn [to_uleb] in *. apply starts_at_cons in Hs as [E _]. assert (n < 128) as Hn' by (cbn in Hg; lia).
    apply uleb_last; (lia || done).
  - cbn [to_uleb] in *. destruct (Z.ltb_spec n 128) as [Hn'|Hn'].
    { apply starts_at_cons in Hs as [E _]. apply uleb_last; (lia || done). }
    apply starts_at_cons in Hs as [E Hs]. destruct (continued_bits (n mod 128)) as [L1 L2]; [apply Z.mod_pos_bound; lia|].
    assert (0 <= s) by lia. assert (2 ^ (s + 7) = 2 ^ s * 128) as Ep by (rewrite Z.pow_add_r by lia; lia).
    pose proof (Z.div_mod n 128) as Hdm. pose proof (Z.mod_pos_bound n 128).
    assert (0 < 2 ^ s) by (apply Z.pow_pos_nonneg; lia).
    assert (s + 7 < 64) as Hlt by (apply (Z.pow_lt_mono_r_iff 2); nia).
    destruct fuel as [|fuel]; [lia|]. cbn [uleb_loop]. rewrite E, L1, L2. change (128 =? 0) with false. cbv iota zeta.
    rewrite (proj2 (Z.leb_gt 64 (s + 7))) by lia.
    rewrite wrap_u_small by (unfold in_u; rewrite Z.shiftl_mul_pow2 by lia; nia).
    rewrite lor_shift by (done || lia). rewrite (IH fuel (i + 1) _ (n / 128) (s + 7)); [|lia|lia|apply Z.div_pos; lia|rewrite Ep; nia|rewrite Ep; nia| |done].
    + f_equal. rewrite Ep. unfold len. cbn [length]. f_equal; nia.
    + apply Z.div_lt_upper_bound; [lia|]. rewrite (Nat2Z.inj_succ (S g)), Z.pow_succ_r in Hg by lia. lia.
Qed.

Lemma uleb_spec (b : list Z) (i n : Z) :
  0 <= n < 2 ^ 63 -> starts_at b i (to_uleb 8 n) -> uleb b i = S_Ok (n, i + len (to_uleb 8 n)).
Proof.
  intros Hn Hs. unfold uleb. rewrite (uleb_loop_spec 8 9 b i 0 n 0); try done; try lia.
  f_equal. f_equal. lia.
Qed.

(** ** Sections *)

(** A section: a custom one with its name and payload, or another. *)
Inductive Section_ := Custom (name payload : list Z) | Other (id : Z) (body : list Z).

Definition sec_id (s : Section_) : Z := match s with Custom _ _ => 0 | Other id _ => id end.
Definition sec_body (s : Section_) : list Z :=
  match s with Custom name payload => to_uleb 8 (len name) ++ name ++ payload | Other _ body => body end.

Definition encode_section (s : Section_) : list Z := sec_id s :: to_uleb 8 (len (sec_body s)) ++ sec_body s.

Definition section_ok (s : Section_) : Prop :=
  match s with Custom name _ => utf8_valid name = true | Other id _ => id <> 0 end.

Definition kept (s : Section_) : bool := match s with Custom name _ => negb (dropped name) | Other _ _ => true end.

(** [flat_map]. *)
Definition encode_sections (l : list Section_) : list Z := concat (encode_section <$> l).

Lemma starts_at_len (b l : list Z) (i : Z) : starts_at b i l -> i <= len b -> i + len l <= len b.
Proof.
  intros [H0 [rest E]] Hi. unfold len in *. assert (length (drop (Z.to_nat i) b) = length (l ++ rest)) as L by by rewrite E.
  rewrite length_drop, length_app in L. lia.
Qed.

Lemma starts_at_slice (b l : list Z) (i : Z) : starts_at b i l -> byte_slice b i (i + len l) = l.
Proof.
  intros [H0 [rest E]]. unfold byte_slice. rewrite E. replace (Z.to_nat (i + len l - i)) with (length l) by (unfold len; lia).
  apply take_app_length.
Qed.

Lemma to_uleb_len (g : nat) (n : Z) : 1 <= len (to_uleb g n).
Proof. destruct g; cbn; [done|]. destruct (n <? 128); unfold len; cbn [length]; lia. Qed.

Lemma host_add_small (a b : Z) : 0 <= a + b < 2 ^ 63 -> host_add a b = a + b.
Proof. intros H. apply wrap_u_small. unfold in_u. lia. Qed.

Lemma custom_dropped_spec (wasm name payload : list Z) (next i : Z) :
  len wasm < 2 ^ 63 -> next <= len wasm -> starts_at wasm next (to_uleb 8 (len name) ++ name ++ payload) ->
  i = next + len (to_uleb 8 (len name) ++ name ++ payload) -> utf8_valid name = true ->
  custom_dropped wasm next i = S_Ok (dropped name).
Proof.
  intros Hl Hn Hs -> Hu. pose proof (starts_at_len _ _ _ Hs Hn) as Hlen. rewrite !len_app in *.
  pose proof (len_nonneg name). pose proof (len_nonneg payload). pose proof (to_uleb_len 8 (len name)).
  destruct (starts_at_app _ _ _ _ Hs) as [Ha Hb]. pose proof (proj1 Ha) as Hn0. apply starts_at_app in Hb as [Hb _].
  unfold custom_dropped. rewrite (uleb_spec wasm next (len name)) by (done || lia). cbn [sres_bind].
  rewrite host_add_small by lia.
  destruct (Z.ltb_spec (next + (len (to_uleb 8 (len name)) + (len name + len payload))) (next + len (to_uleb 8 (len name)) + len name)); [lia|].
  destruct (Z.ltb_spec (next + len (to_uleb 8 (len name)) + len name) (next + len (to_uleb 8 (len name)))); [lia|].
  by rewrite (starts_at_slice _ _ _ Hb), Hu.
Qed.

Lemma strip_loop_spec (l : list Section_) (fuel : nat) (wasm out : list Z) (i : Z) :
  len wasm < 2 ^ 63 -> Forall section_ok l -> (length l <= fuel)%nat ->
  0 <= i -> drop (Z.to_nat i) wasm = encode_sections l -> i <= len wasm ->
  strip_loop fuel wasm i out = S_Ok (out ++ encode_sections (List.filter kept l)).
Proof.
  intros Hl. revert fuel i out. induction l as [|s l IH]; intros fuel i out Hok Hf Hi E Hle.
  - assert (len wasm <= i) by (apply (f_equal length) in E; rewrite length_drop in E; unfold len; cbn in E; lia).
    cbn [List.filter]. unfold encode_sections. cbn [fmap list_fmap concat]. rewrite app_nil_r.
    destruct fuel; cbn [strip_loop]; destruct (Z.ltb_spec i (len wasm)); (lia || done).
  - apply list.Forall_cons in Hok as [Hs Hok]. destruct fuel as [|fuel]; [cbn in Hf; lia|].
    assert (starts_at wasm i (encode_section s ++ encode_sections l)) as Hat.
    { split; [done|]. exists []. by rewrite E, app_nil_r. }
    pose proof (starts_at_len _ _ _ Hat Hle) as Hlen. rewrite len_app in Hlen. pose proof (len_nonneg (encode_sections l)).
    apply starts_at_app in Hat as [Hsec Hrest]. pose proof (starts_at_slice _ _ _ Hsec) as Hslice.
    unfold encode_section in Hsec. apply starts_at_cons in Hsec as [Eid Hsec].
    assert (len (encode_section s) = 1 + (len (to_uleb 8 (len (sec_body s))) + len (sec_body s))) as Elen.
    { unfold encode_section. change (sec_id s :: ?x) with ([sec_id s] ++ x). rewrite !len_app. done. }
    pose proof (to_uleb_len 8 (len (sec_body s))). pose proof (len_nonneg (sec_body s)).
    destruct (starts_at_app _ _ _ _ Hsec) as [Hu Hb].
    cbn [strip_loop]. destruct (Z.ltb_spec i (len wasm)); [|lia]. rewrite Eid, (uleb_spec wasm (i + 1) (len (sec_body s))) by (done || lia).
    cbn [sres_bind]. rewrite host_add_small by lia.
    set (j := i + 1 + len (to_uleb 8 (len (sec_body s))) + len (sec_body s)).
    assert (j = i + len (encode_section s)) as Ej by lia.
    destruct (Z.ltb_spec (len wasm) j); [lia|].
    assert ((if sec_id s =? 0 then custom_dropped wasm (i + 1 + len (to_uleb 8 (len (sec_body s)))) j else S_Ok false)
      = S_Ok (negb (kept s))) as ->.
    { destruct s as [name payload|id body]; cbn [sec_id sec_body kept section_ok] in *.
      - rewrite negb_involutive, Z.eqb_refl. apply (custom_dropped_spec _ _ payload); [done|lia|done|done|done].
      - by rewrite (proj2 (Z.eqb_neq id 0)). }
    cbn [sres_bind]. assert (drop (Z.to_nat j) wasm = encode_sections l) as Edrop.
    { destruct Hrest as [_ [rest Er]]. rewrite Ej. replace (Z.to_nat (i + len (encode_section s))) with
        (Z.to_nat i + length (encode_section s))%nat by (unfold len; lia).
      rewrite <- drop_drop, E. unfold encode_sections. cbn [fmap list_fmap concat]. apply drop_app_length. }
    cbn [List.filter]. cbn [length] in Hf. destruct (kept s); cbn [negb].
    + destruct (Z.ltb_spec j i); [lia|]. rewrite IH by (done || lia). rewrite Ej, Hslice, <- app_assoc. done.
    + by rewrite IH by (done || lia).
Qed.

Lemma section_nonempty (s : Section_) : (1 <= length (encode_section s))%nat.
Proof. cbn. lia. Qed.

Lemma encode_sections_length (l : list Section_) : (length l <= length (encode_sections l))%nat.
Proof.
  unfold encode_sections. induction l as [|s l IH]; cbn [fmap list_fmap concat length]; [lia|].
  rewrite length_app. pose proof (section_nonempty s). lia.
Qed.

Lemma strip_spec (header : list Z) (l : list Section_) (fuel : nat) :
  length header = 8%nat -> take 4 header = MAGIC -> Forall section_ok l ->
  len (header ++ encode_sections l) < 2 ^ 63 -> (length (encode_sections l) <= fuel)%nat ->
  strip fuel (header ++ encode_sections l) = S_Ok (header ++ encode_sections (List.filter kept l)).
Proof.
  intros H8 Hm Hok Hl Hf. unfold strip. rewrite take_app_le, Hm by lia. rewrite bool_decide_true by done. cbn [negb orb].
  rewrite len_app in *. unfold len at 1. rewrite H8. pose proof (len_nonneg (encode_sections l)).
  destruct (Z.ltb_spec (Z.of_nat 8 + len (encode_sections l)) 8); [lia|].
  rewrite (take_app_length' header) by done.
  apply strip_loop_spec; try done.
  - rewrite len_app. lia.
  - pose proof (encode_sections_length l). lia.
  - change (Z.to_nat 8) with 8%nat. rewrite <- H8. apply drop_app_length.
  - rewrite len_app. unfold len at 1. rewrite H8. lia.
Qed.

(** ** A size that wraps the position *)

Definition STUCK : list Z := MAGIC ++ [1; 0; 0; 0] ++ [1; 0xf5; 0xff; 0xff; 0xff; 0xff; 0xff; 0xff; 0xff; 0xff; 0x01].

Lemma stuck_loop (fuel : nat) (out : list Z) : strip_loop fuel STUCK 8 out = S_NoFuel.
Proof.
  revert out. induction fuel as [|fuel IH]; intros out; [done|].
  transitivity (strip_loop fuel STUCK 8 (out ++ [])); [reflexivity|apply IH].
Qed.
