(* ===== verification/Ctx.v ===== *)
(** * Ctx: the context lattice of the lowering

    [compiler/src/wasm/bbv/ctx.rs] and [compiler/src/view.rs]: what the
    lowering has proven about a frame slot ([SlotCtx]), the versioning context
    over all the slots of the frames in scope ([Ctx]) with its implication and
    joins, the operands of the abstract stack and the type predicates the
    lowerings consult. Slot and binding indices are [Z] or [nat] positions;
    [Prov] is a 16-bit word that the derived equality ignores. *)

From S2P Require Import Prelude OpSem Facts.

(** ** Types and ranges *)

(** [TypeDesc] of view.rs. *)
Record TypeDesc := mkTypeDesc { td_prims : Prims; td_outside : bool }.

Inductive RangeBucket := RB_I32 | RB_I53 | RB_Top.

#[export] Instance RangeBucket_eq_dec : EqDecision RangeBucket.
Proof. solve_decision. Defined.

Definition rb_implies (a w : RangeBucket) : bool :=
  match a, w with
  | RB_I32, _ | RB_I53, RB_I53 | RB_I53, RB_Top | RB_Top, RB_Top => true
  | _, _ => false
  end.

(** [Prov]: provenance bits. *)
Definition Prov : Type := Z.
Definition prov_or (a b : Prov) : Prov := Z.lor a b.
Definition prov_class (p : Prov) : Z :=
  Z.b2z (negb (Z.land p 0x00ff =? 0)) + 2 * Z.b2z (negb (Z.land p 0xff00 =? 0)).

(** The frame slot a value was read from. *)
Inductive SlotRef := SR_This | SR_Arg (a : Z) | SR_Local (l : Z) | SR_GCell (bid : Z).

#[export] Instance SlotRef_eq_dec : EqDecision SlotRef.
Proof. solve_decision. Defined.

(** ** Slots *)

Record SlotCtx := mkSlotCtx {
  sc_prims : Prims;
  sc_outside : bool;
  sc_range : RangeBucket;
  sc_cls : option (Z * Z);
  sc_cls_shallow : bool;
  sc_cls_slots : bool;
  sc_likely_cls : option (Z * Z);
  sc_ta : option TaKind;
  sc_src : option SlotRef;
  sc_iv : option ValueRange;
  sc_iv_grow : Z;
  sc_prov : Prov }.

#[export] Instance SlotCtx_eq_dec : EqDecision SlotCtx.
Proof. solve_decision. Defined.

(** A slot with only a type and a range. *)
Definition typed_slot (p : Prims) (outside : bool) (r : RangeBucket) : SlotCtx :=
  mkSlotCtx p outside r None false false None None None None 0 0.

Definition TOP : SlotCtx := typed_slot ALL_PRIMS true RB_Top.

(** The derived [PartialEq]: provenance is invisible to it. *)
Definition sans_prov (s : SlotCtx) : SlotCtx :=
  mkSlotCtx (sc_prims s) (sc_outside s) (sc_range s) (sc_cls s) (sc_cls_shallow s) (sc_cls_slots s)
    (sc_likely_cls s) (sc_ta s) (sc_src s) (sc_iv s) (sc_iv_grow s) 0.
Definition slot_eqb (a b : SlotCtx) : bool := bool_decide (sans_prov a = sans_prov b).

Definition is_top (s : SlotCtx) : bool := slot_eqb s TOP.

Definition with_prov (s : SlotCtx) (p : Prov) : SlotCtx :=
  mkSlotCtx (sc_prims s) (sc_outside s) (sc_range s) (sc_cls s) (sc_cls_shallow s) (sc_cls_slots s)
    (sc_likely_cls s) (sc_ta s) (sc_src s) (sc_iv s) (sc_iv_grow s) (prov_or (sc_prov s) p).

Definition is_top_sans_iv (s : SlotCtx) : bool :=
  slot_eqb (mkSlotCtx (sc_prims s) (sc_outside s) (sc_range s) (sc_cls s) (sc_cls_shallow s)
              (sc_cls_slots s) None None (sc_src s) None 0 (sc_prov s)) TOP.

Definition is_exact_int32 (ty : TypeDesc) : bool :=
  p_eqb (td_prims ty) PRIM_INT32 && negb (td_outside ty).

Definition slot_of (ty : TypeDesc) (range : RangeBucket) : SlotCtx :=
  if p_is_empty (td_prims ty) && negb (td_outside ty) then TOP
  else typed_slot (td_prims ty) (td_outside ty) (if is_exact_int32 ty then RB_I32 else range).

Definition to_ty (s : SlotCtx) : TypeDesc := mkTypeDesc (sc_prims s) (sc_outside s).

Definition iv_implies (s w : option ValueRange) : bool :=
  match s, w with
  | _, None => true
  | Some s, Some w => (lo w <=? lo s) && (hi s <=? hi w)
  | None, Some _ => false
  end.

Definition cls_implies (s w : option (Z * Z)) : bool :=
  match s, w with
  | _, None => true
  | Some (slo, shi), Some (wlo, whi) => (wlo <=? slo) && (shi <=? whi)
  | None, Some _ => false
  end.

Definition ta_implies (s w : option TaKind) : bool :=
  match w with None => true | Some _ => bool_decide (s = w) end.

Definition slot_implies_sans_iv (s w : SlotCtx) : bool :=
  subset_of (sc_prims s) (sc_prims w)
  && (sc_outside w || negb (sc_outside s))
  && rb_implies (sc_range s) (sc_range w)
  && cls_implies (sc_cls s) (sc_cls w)
  && (negb (sc_cls_shallow w) || sc_cls_shallow s)
  && (negb (sc_cls_slots w) || sc_cls_slots s)
  && ta_implies (sc_ta s) (sc_ta w).

Definition slot_implies (s w : SlotCtx) : bool :=
  slot_implies_sans_iv s w && iv_implies (sc_iv s) (sc_iv w).

Definition slot_is_numeric (s : SlotCtx) : bool :=
  negb (p_is_empty (sc_prims s)) && subset_of (sc_prims s) (p_or PRIM_INT32 PRIM_DOUBLE)
  && negb (sc_outside s).

(** [Option::or]. *)
Definition opt_or {A} (a b : option A) : option A := match a with Some _ => a | None => b end.

Definition cls_meet (a b : option (Z * Z)) : option (Z * Z) :=
  match a, b with
  | None, c | c, None => c
  | Some (alo, ahi), Some (blo, bhi) =>
      let l := Z.max alo blo in
      let h := Z.min ahi bhi in
      if l <=? h then Some (l, h) else b
  end.

Definition iv_meet (a b : option ValueRange) : option ValueRange :=
  match a, b with
  | None, c | c, None => c
  | Some x, Some y =>
      let l := Z.max (lo x) (lo y) in
      let h := Z.min (hi x) (hi y) in
      if l <=? h then Some (mkVR l h) else b
  end.

Definition slot_meet (s w : SlotCtx) : option SlotCtx :=
  let prims := p_and (sc_prims s) (sc_prims w) in
  let outside := sc_outside s && sc_outside w in
  if p_is_empty prims && negb outside then None
  else
    Some (mkSlotCtx prims outside
      (if rb_implies (sc_range s) (sc_range w) then sc_range s else sc_range w)
      (cls_meet (sc_cls s) (sc_cls w))
      (sc_cls_shallow s || sc_cls_shallow w) (sc_cls_slots s || sc_cls_slots w)
      (opt_or (sc_likely_cls s) (sc_likely_cls w)) (opt_or (sc_ta s) (sc_ta w))
      (opt_or (sc_src s) (sc_src w)) (iv_meet (sc_iv s) (sc_iv w))
      (Z.max (sc_iv_grow s) (sc_iv_grow w)) (prov_or (sc_prov s) (sc_prov w))).

Definition cls_join (a b : option (Z * Z)) : option (Z * Z) :=
  match a, b with
  | Some (alo, ahi), Some (blo, bhi) => Some (Z.min alo blo, Z.max ahi bhi)
  | _, _ => None
  end.

Definition agree {A} `{EqDecision A} (a b : option A) : option A := if bool_decide (a = b) then a else None.

(** [self.join(w)]: [w] is the stored side. *)
Definition slot_join (s w : SlotCtx) : SlotCtx :=
  let '(iv, iv_grow) := iv_join_tolerant (sc_iv s) (sc_iv w) (sc_iv_grow w) in
  mkSlotCtx (p_or (sc_prims s) (sc_prims w)) (sc_outside s || sc_outside w)
    (if rb_implies (sc_range s) (sc_range w) then sc_range w else sc_range s)
    (cls_join (sc_cls s) (sc_cls w))
    (sc_cls_shallow s && sc_cls_shallow w) (sc_cls_slots s && sc_cls_slots w)
    (cls_join (sc_likely_cls s) (sc_likely_cls w)) (agree (sc_ta s) (sc_ta w))
    (agree (sc_src s) (sc_src w)) iv iv_grow (prov_or (sc_prov s) (sc_prov w)).

Definition OBJ_ONLY_SLOT : SlotCtx := typed_slot EMPTY true RB_Top.
Definition INT32_SLOT : SlotCtx :=
  mkSlotCtx PRIM_INT32 false RB_I32 None false false None None None (Some (mkVR I32_LO I32_HI)) 0 0.
Definition NUMERIC_SLOT : SlotCtx := typed_slot (p_or PRIM_INT32 PRIM_DOUBLE) false RB_Top.
Definition DOUBLE_SLOT : SlotCtx := typed_slot PRIM_DOUBLE false RB_Top.
Definition STR_SLOT : SlotCtx := typed_slot PRIM_STRING false RB_Top.
Definition BOOL_SLOT : SlotCtx := typed_slot PRIM_BOOLEAN false RB_Top.
Definition SYM_SLOT : SlotCtx := typed_slot PRIM_SYMBOL false RB_Top.

(** ** Entry claims *)

Inductive ClaimShape := CS_Obj | CS_Int32 | CS_Double | CS_Number | CS_Str | CS_Bool | CS_Sym | CS_Ta (k : TaKind).

Definition claim_shape (claim : Claim) : option ClaimShape :=
  if is_object claim then
    Some (match ta_kind claim with Some k => CS_Ta k | None => CS_Obj end)
  else
    let m := claim_prims claim in
    if double_first claim && p_eqb m (p_or PRIM_INT32 PRIM_DOUBLE) then Some CS_Number
    else if p_eqb m PRIM_INT32 || p_eqb m (p_or PRIM_INT32 PRIM_DOUBLE) then Some CS_Int32
    else if p_eqb m PRIM_DOUBLE then Some CS_Double
    else if p_eqb m PRIM_STRING then Some CS_Str
    else if p_eqb m PRIM_BOOLEAN then Some CS_Bool
    else if p_eqb m PRIM_SYMBOL then Some CS_Sym
    else None.

Definition set_ta (s : SlotCtx) (k : option TaKind) : SlotCtx :=
  mkSlotCtx (sc_prims s) (sc_outside s) (sc_range s) (sc_cls s) (sc_cls_shallow s) (sc_cls_slots s)
    (sc_likely_cls s) k (sc_src s) (sc_iv s) (sc_iv_grow s) (sc_prov s).

Definition claim_slot_ctx (shape : ClaimShape) : SlotCtx :=
  match shape with
  | CS_Obj => OBJ_ONLY_SLOT
  | CS_Int32 => INT32_SLOT
  | CS_Double => DOUBLE_SLOT
  | CS_Number => NUMERIC_SLOT
  | CS_Str => STR_SLOT
  | CS_Bool => BOOL_SLOT
  | CS_Sym => SYM_SLOT
  | CS_Ta k => set_ta OBJ_ONLY_SLOT (Some k)
  end.

(** ** Contexts *)

(** [while last is TOP { pop }]. *)
Fixpoint trim (l : list SlotCtx) : list SlotCtx :=
  match l with
  | [] => []
  | s :: l => match trim l with
              | [] => if is_top s then [] else [s]
              | l => s :: l
              end
  end.

(** A slot beyond the vector is [TOP]. *)
Definition slot_at (l : list SlotCtx) (i : nat) : SlotCtx := default TOP (l !! i).

Record CallerFrame := mkCallerFrame { cf_locals : list SlotCtx; cf_args : list SlotCtx }.

Definition frame_canon (f : CallerFrame) : CallerFrame :=
  mkCallerFrame (trim (cf_locals f)) (trim (cf_args f)).
Definition frame_is_empty (f : CallerFrame) : bool :=
  match cf_locals f, cf_args f with [], [] => true | _, _ => false end.
Definition frame_at (l : list CallerFrame) (i : nat) : CallerFrame := default (mkCallerFrame [] []) (l !! i).

Fixpoint trim_frames (l : list CallerFrame) : list CallerFrame :=
  match l with
  | [] => []
  | f :: l => match trim_frames l with
              | [] => if frame_is_empty f then [] else [f]
              | l => f :: l
              end
  end.

Inductive Track := T_Opt | T_Side | T_Dirty.

#[export] Instance Track_eq_dec : EqDecision Track.
Proof. solve_decision. Defined.

(** The order of declaration. *)
Definition track_rank (t : Track) : Z := match t with T_Opt => 0 | T_Side => 1 | T_Dirty => 2 end.
Definition track_step (t to : Track) : Track := if track_rank to <=? track_rank t then t else to.

Record Ctx := mkCtx {
  c_locals : list SlotCtx;
  c_stack : list SlotCtx;
  c_args : list SlotCtx;
  c_caller_locals : list SlotCtx;
  c_caller_args : list SlotCtx;
  c_outer : list CallerFrame;
  c_tokens : list (Z * Z);
  c_carried : list Z;
  c_gcells : list (Z * SlotCtx);
  c_track : Track }.

Definition ctx_default : Ctx := mkCtx [] [] [] [] [] [] [] [] [] T_Opt.

(** The binding's entry. *)
Definition gcell_find (l : list (Z * SlotCtx)) (bid : Z) : option SlotCtx :=
  snd <$> List.find (fun x => fst x =? bid) l.

Definition gcells_implies (f : SlotCtx -> SlotCtx -> bool) (a b : list (Z * SlotCtx)) : bool :=
  forallb (fun '(bid, w) => match gcell_find a bid with Some s => f s w | None => false end) b.

Definition gcells_join (a b : list (Z * SlotCtx)) : list (Z * SlotCtx) :=
  omap (fun '(bid, s) =>
    match gcell_find b bid with
    | Some w => let j := slot_join s w in if is_top j then None else Some (bid, j)
    | None => None
    end) a.

Definition gcells_canon (v : list (Z * SlotCtx)) : list (Z * SlotCtx) :=
  sort_list (fun a b => fst a <=? fst b) (List.filter (fun x => negb (is_top (snd x))) v).

Definition ctx_canon (c : Ctx) : Ctx :=
  mkCtx (trim (c_locals c)) (trim (c_stack c)) (trim (c_args c)) (trim (c_caller_locals c))
    (trim (c_caller_args c)) (trim_frames (frame_canon <$> c_outer c)) (c_tokens c) (c_carried c)
    (gcells_canon (c_gcells c)) (c_track c).

(** The comparisons and joins run over the longer of the two vectors. *)
Definition slots_le (f : SlotCtx -> SlotCtx -> bool) (a b : list SlotCtx) : bool :=
  forallb (fun i => f (slot_at a i) (slot_at b i)) (seq 0 (Nat.max (length a) (length b))).
Definition frames_le (f : SlotCtx -> SlotCtx -> bool) (a b : list CallerFrame) : bool :=
  forallb (fun i => slots_le f (cf_locals (frame_at a i)) (cf_locals (frame_at b i))
                    && slots_le f (cf_args (frame_at a i)) (cf_args (frame_at b i)))
    (seq 0 (Nat.max (length a) (length b))).
Definition slots_zip (f : SlotCtx -> SlotCtx -> SlotCtx) (a b : list SlotCtx) : list SlotCtx :=
  (fun i => f (slot_at a i) (slot_at b i)) <$> seq 0 (Nat.max (length a) (length b)).
Definition frames_zip (f : SlotCtx -> SlotCtx -> SlotCtx) (a b : list CallerFrame) : list CallerFrame :=
  (fun i => mkCallerFrame (slots_zip f (cf_locals (frame_at a i)) (cf_locals (frame_at b i)))
                          (slots_zip f (cf_args (frame_at a i)) (cf_args (frame_at b i))))
    <$> seq 0 (Nat.max (length a) (length b)).

(** [implies] and [implies_sans_iv]: the slot test [f] at every slot. *)
Definition ctx_le (f : SlotCtx -> SlotCtx -> bool) (c w : Ctx) : bool :=
  bool_decide (c_tokens c = c_tokens w) && bool_decide (c_track c = c_track w)
  && slots_le f (c_locals c) (c_locals w) && slots_le f (c_stack c) (c_stack w)
  && slots_le f (c_args c) (c_args w) && slots_le f (c_caller_locals c) (c_caller_locals w)
  && slots_le f (c_caller_args c) (c_caller_args w) && frames_le f (c_outer c) (c_outer w)
  && gcells_implies f (c_gcells c) (c_gcells w).
Definition ctx_implies : Ctx -> Ctx -> bool := ctx_le slot_implies.
Definition ctx_implies_sans_iv : Ctx -> Ctx -> bool := ctx_le slot_implies_sans_iv.

(** The interval of the arrival joined into a stored slot. *)
Definition slot_join_iv (c a : SlotCtx) : SlotCtx :=
  let '(iv, iv_grow) := iv_join_tolerant (sc_iv a) (sc_iv c) (sc_iv_grow c) in
  mkSlotCtx (sc_prims c) (sc_outside c) (sc_range c) (sc_cls c) (sc_cls_shallow c) (sc_cls_slots c)
    (sc_likely_cls c) (sc_ta c) (sc_src c) iv iv_grow (sc_prov c).

Definition ctx_join_iv_only (c arr : Ctx) : Ctx :=
  let f := slots_zip slot_join_iv in
  ctx_canon (mkCtx (f (c_locals c) (c_locals arr)) (f (c_stack c) (c_stack arr))
    (f (c_args c) (c_args arr)) (f (c_caller_locals c) (c_caller_locals arr))
    (f (c_caller_args c) (c_caller_args arr)) (frames_zip slot_join_iv (c_outer c) (c_outer arr))
    (c_tokens c) (c_carried c) (c_gcells c) (c_track c)).

(** [self.join(w)]. *)
Definition ctx_join (c w : Ctx) : Ctx :=
  let f := slots_zip slot_join in
  ctx_canon (mkCtx (f (c_locals c) (c_locals w)) (f (c_stack c) (c_stack w)) (f (c_args c) (c_args w))
    (f (c_caller_locals c) (c_caller_locals w)) (f (c_caller_args c) (c_caller_args w))
    (frames_zip slot_join (c_outer c) (c_outer w)) (c_tokens c) (c_carried w)
    (gcells_join (c_gcells c) (c_gcells w)) (c_track c)).

Definition gen_collapsed (c : Ctx) : Ctx :=
  mkCtx (c_locals c) (c_stack c) (c_args c) (c_caller_locals c) (c_caller_args c) (c_outer c)
    [] [] (c_gcells c) T_Opt.
Definition facts_only (c : Ctx) : Ctx :=
  mkCtx (c_locals c) (c_stack c) (c_args c) (c_caller_locals c) (c_caller_args c) (c_outer c)
    [] [] (c_gcells c) T_Opt.
Definition facts_free (c : Ctx) : Ctx :=
  mkCtx [] [] [] [] [] [] (c_tokens c) (c_carried c) [] (c_track c).
Definition stripped (c : Ctx) : Ctx :=
  mkCtx [] [] [] [] [] [] (c_tokens c) [] [] (c_track c).

(** The derived [PartialEq]. *)
Definition slots_eqb (a b : list SlotCtx) : bool := bool_decide (sans_prov <$> a = sans_prov <$> b).
Definition frame_eqb (a b : CallerFrame) : bool :=
  slots_eqb (cf_locals a) (cf_locals b) && slots_eqb (cf_args a) (cf_args b).
Fixpoint frames_eqb (a b : list CallerFrame) : bool :=
  match a, b with
  | [], [] => true
  | x :: a, y :: b => frame_eqb x y && frames_eqb a b
  | _, _ => false
  end.
Definition gcells_eqb (a b : list (Z * SlotCtx)) : bool :=
  bool_decide (prod_map id sans_prov <$> a = prod_map id sans_prov <$> b).
Definition ctx_eqb (c w : Ctx) : bool :=
  slots_eqb (c_locals c) (c_locals w) && slots_eqb (c_stack c) (c_stack w)
  && slots_eqb (c_args c) (c_args w) && slots_eqb (c_caller_locals c) (c_caller_locals w)
  && slots_eqb (c_caller_args c) (c_caller_args w) && frames_eqb (c_outer c) (c_outer w)
  && bool_decide (c_tokens c = c_tokens w) && bool_decide (c_carried c = c_carried w)
  && gcells_eqb (c_gcells c) (c_gcells w) && bool_decide (c_track c = c_track w).
