(* ===== verification/Operand.v ===== *)
(** * Operand: the abstract operand stack

    [compiler/src/wasm/bbv/ctx.rs], second half: the representations of an
    operand, the facts it carries, its projection to a slot, and the type
    predicates the lowerings consult. The emitted value an operand names is a
    handle of the code builder and stays abstract. *)

From S2P Require Import Prelude OpSem Facts Ctx.

Inductive Repr := Rp_Boxed | Rp_I32 | Rp_F64 | Rp_Bool | Rp_I64 | Rp_StrPtr | Rp_ObjPtr.

#[export] Instance Repr_eq_dec : EqDecision Repr.
Proof. solve_decision. Defined.

(** ** Type predicates *)

Definition is_exact_double (ty : TypeDesc) : bool := p_eqb (td_prims ty) PRIM_DOUBLE && negb (td_outside ty).
Definition is_exact_bool (ty : TypeDesc) : bool := p_eqb (td_prims ty) PRIM_BOOLEAN && negb (td_outside ty).
Definition is_symbol_only (ty : TypeDesc) : bool := p_eqb (td_prims ty) PRIM_SYMBOL && negb (td_outside ty).
Definition is_string_only (ty : TypeDesc) : bool := p_eqb (td_prims ty) PRIM_STRING && negb (td_outside ty).

Definition is_numeric (ty : TypeDesc) : bool :=
  negb (p_is_empty (td_prims ty)) && subset_of (td_prims ty) (p_or PRIM_INT32 PRIM_DOUBLE)
  && negb (td_outside ty).

Definition may_be_double (ty : TypeDesc) : bool := intersects (td_prims ty) PRIM_DOUBLE || td_outside ty.
Definition may_be_string (ty : TypeDesc) : bool := intersects (td_prims ty) PRIM_STRING || td_outside ty.
Definition may_be_bigint (ty : TypeDesc) : bool := intersects (td_prims ty) PRIM_BIGINT || td_outside ty.

Definition is_identity_only (ty : TypeDesc) : bool :=
  (negb (p_is_empty (td_prims ty)) || td_outside ty)
  && subset_of (td_prims ty) (p_or (p_or (p_or PRIM_NULL PRIM_UNDEFINED) PRIM_BOOLEAN) PRIM_SYMBOL).

Definition strict_bits_eq_sound (a b : TypeDesc) : bool :=
  is_identity_only a
  || is_identity_only b
  || (negb (may_be_double a) && negb (may_be_double b)
      && negb (may_be_string a && may_be_string b)
      && negb (may_be_bigint a && may_be_bigint b)).

Definition is_non_gc (ty : TypeDesc) : bool :=
  negb (p_is_empty (td_prims ty))
  && subset_of (td_prims ty)
       (p_or (p_or (p_or (p_or PRIM_INT32 PRIM_DOUBLE) PRIM_UNDEFINED) PRIM_NULL) PRIM_BOOLEAN)
  && negb (td_outside ty).

Definition is_object_only (ty : TypeDesc) : bool := p_is_empty (td_prims ty) && td_outside ty.

Definition is_nullish_const (ty : TypeDesc) : bool :=
  negb (td_outside ty) && negb (p_is_empty (td_prims ty))
  && subset_of (td_prims ty) (p_or PRIM_NULL PRIM_UNDEFINED).

Definition prim_desc (p : Prims) : TypeDesc := mkTypeDesc p false.
Definition bottom_ty : TypeDesc := mkTypeDesc ALL_PRIMS true.
Definition obj_only_ty : TypeDesc := mkTypeDesc EMPTY true.

(** The interval of a typed-array load. *)
Definition ta_kind_iv (k : TaKind) : Iv :=
  match ta_proven_range k with Some (l, h) => iv_ok l h false | None => None end.

Definition iv_clamp_i32 (riv : Iv) : Iv :=
  match riv with
  | None => None
  | Some (l, h, nz) =>
      let l := Z.max l I32_LO in
      let h := Z.min h I32_HI in
      if l <=? h then Some (l, h, nz) else None
  end.

Definition derived_range (ty : TypeDesc) (range : RangeBucket) : RangeBucket :=
  if is_exact_int32 ty then RB_I32 else range.

(** ** Operands *)

Section Operand.
Context {V : Type}.

Record Operand := mkOperand {
  op_val : V;
  op_repr : Repr;
  op_ty : TypeDesc;
  op_range : RangeBucket;
  op_cls : option (Z * Z);
  op_cls_shallow : bool;
  op_cls_slots : bool;
  op_likely_cls : option (Z * Z);
  op_ta : option TaKind;
  op_src : option SlotRef;
  op_own_iv : Iv;
  op_fresh : bool;
  op_prov : Prov }.

Definition ranged (val : V) (repr : Repr) (ty : TypeDesc) (range : RangeBucket) : Operand :=
  mkOperand val repr ty (derived_range ty range) None false false None None None None false 0.
Definition plain (val : V) (repr : Repr) (ty : TypeDesc) : Operand :=
  mkOperand val repr ty (derived_range ty RB_Top) None false false None None None None false 0.

Definition with_iv (o : Operand) (iv : Iv) : Operand :=
  mkOperand (op_val o) (op_repr o) (op_ty o) (op_range o) (op_cls o) (op_cls_shallow o) (op_cls_slots o)
    (op_likely_cls o) (op_ta o) (op_src o) iv (op_fresh o) (op_prov o).

Definition from_slot (val : V) (slot : SlotCtx) (src : SlotRef) : Operand :=
  mkOperand val Rp_Boxed (to_ty slot) (sc_range slot) (sc_cls slot) (sc_cls_shallow slot) (sc_cls_slots slot)
    (sc_likely_cls slot) (sc_ta slot) (Some src)
    ((fun r => (lo r, hi r, false)) <$> sc_iv slot) false (sc_prov slot).

(** What the operand's representation proves when no richer interval rides
    it. *)
Definition op_iv (o : Operand) : Iv :=
  match op_own_iv o with
  | Some iv => Some iv
  | None =>
      match op_repr o with
      | Rp_I32 => IV_I32
      | Rp_I64 =>
          if bool_decide (op_range o = RB_I32) then IV_I32
          else Some (- 2 ^ 53, 2 ^ 53, false)
      | _ => if is_exact_int32 (op_ty o) then IV_I32 else None
      end
  end.

Definition op_slot (o : Operand) : SlotCtx :=
  let s := slot_of (op_ty o) (op_range o) in
  mkSlotCtx (sc_prims s) (sc_outside s) (sc_range s) (op_cls o) (op_cls_shallow o) (op_cls_slots o)
    (op_likely_cls o) (op_ta o) (op_src o) (iv_clean (op_iv o)) 0 (op_prov o).

Definition slot_cell (o : Operand) : SlotCtx :=
  let s := op_slot o in
  mkSlotCtx (sc_prims s) (sc_outside s) (sc_range s) (sc_cls s) (sc_cls_shallow s) (sc_cls_slots s)
    (sc_likely_cls s) (sc_ta s) None (sc_iv s) (sc_iv_grow s) (sc_prov s).

(** The representation a slot's facts license for a block parameter, and the
    operand a version's block rebuilds from one. *)
Definition slot_repr (slot : SlotCtx) : Repr :=
  if p_eqb (sc_prims slot) PRIM_INT32 && negb (sc_outside slot) then Rp_I32
  else if p_eqb (sc_prims slot) PRIM_BOOLEAN && negb (sc_outside slot) then Rp_Bool
  else if slot_is_numeric slot && negb (bool_decide (sc_range slot = RB_Top)) then Rp_I64
  else if slot_is_numeric slot then Rp_F64
  else if p_eqb (sc_prims slot) PRIM_STRING && negb (sc_outside slot) then Rp_StrPtr
  else if p_is_empty (sc_prims slot) && sc_outside slot then Rp_ObjPtr
  else Rp_Boxed.

Definition entry_operand (val : V) (slot : SlotCtx) : Operand :=
  let o := ranged val (slot_repr slot) (to_ty slot) (sc_range slot) in
  mkOperand (op_val o) (op_repr o) (op_ty o) (op_range o) (sc_cls slot) (sc_cls_shallow slot) (sc_cls_slots slot)
    (op_likely_cls o) (sc_ta slot) (sc_src slot) ((fun r => (lo r, hi r, false)) <$> sc_iv slot) (op_fresh o)
    (sc_prov slot).

Definition set_op_ty (o : Operand) (ty : TypeDesc) : Operand :=
  mkOperand (op_val o) (op_repr o) ty (op_range o) (op_cls o) (op_cls_shallow o) (op_cls_slots o)
    (op_likely_cls o) (op_ta o) (op_src o) (op_own_iv o) (op_fresh o) (op_prov o).

(** An unboxed representation proves its own mask: intersect, never widen. *)
Definition refine_by_repr (o : Operand) : Operand :=
  let narrow mask :=
    let narrowed := p_and (td_prims (op_ty o)) mask in
    set_op_ty o (prim_desc (if p_eqb narrowed EMPTY then mask else narrowed)) in
  match op_repr o with
  | Rp_I32 => narrow PRIM_INT32
  | Rp_F64 | Rp_I64 => narrow (p_or PRIM_INT32 PRIM_DOUBLE)
  | Rp_Bool => narrow PRIM_BOOLEAN
  | Rp_StrPtr => narrow PRIM_STRING
  | Rp_ObjPtr => set_op_ty o obj_only_ty
  | Rp_Boxed => o
  end.

Definition store_value_numeric (o : Operand) : bool :=
  match op_repr o with Rp_I32 | Rp_F64 | Rp_I64 => true | _ => is_numeric (op_ty o) end.

Definition int32_wrap_operand_ok (o : Operand) : bool :=
  is_exact_int32 (op_ty o) || bool_decide (op_repr o = Rp_I64).

Definition raw_frac_operand (o : Operand) : bool :=
  bool_decide (op_repr o = Rp_F64) && is_numeric (op_ty o) && negb (is_exact_int32 (op_ty o)).

Definition i64_arith_operand_ok (o : Operand) : bool :=
  match op_repr o with
  | Rp_I64 | Rp_I32 => true
  | Rp_Boxed | Rp_F64 => is_exact_int32 (op_ty o)
  | Rp_Bool | Rp_StrPtr | Rp_ObjPtr => false
  end.

Definition f64_result_prims (a b : Operand) : Prims :=
  f64_track_result (is_exact_double (op_ty a)) (is_exact_double (op_ty b)).

(** ** A block's frame *)

(** The facts of the frame's locals and arguments inside a block. *)
Record FrameFacts := mkFrameFacts { ff_locals : list SlotCtx; ff_args : list SlotCtx }.

Definition enter_frame (nlocals nformals : nat) (c : Ctx) : FrameFacts :=
  mkFrameFacts (slot_at (c_locals c) <$> seq 0 nlocals) (slot_at (c_args c) <$> seq 0 (1 + nformals)).

(** The stack operands of a version's block, from its parameters. *)
Definition enter_stack (depth : nat) (val : nat -> V) (c : Ctx) : list Operand :=
  (fun i => entry_operand (val i) (slot_at (c_stack c) i)) <$> seq 0 depth.

Definition meet_at (l : list SlotCtx) (i : nat) (fact : SlotCtx) : list SlotCtx :=
  match l !! i with
  | Some cell => match slot_meet cell fact with Some m => <[i := m]> l | None => l end
  | None => l
  end.

(** A guard that passed on [o] proves [fact] of the slot [o] was read from. *)
Definition refine_src (has_mapped_args : bool) (o : Operand) (fact : SlotCtx) (f : FrameFacts) : FrameFacts :=
  let src := if bool_decide (is_Some (sc_cls fact)) || bool_decide (is_Some (sc_ta fact)) then op_src o else None in
  match src with
  | Some SR_This => mkFrameFacts (ff_locals f) (meet_at (ff_args f) 0 fact)
  | Some (SR_Arg i) =>
      if has_mapped_args then f else mkFrameFacts (ff_locals f) (meet_at (ff_args f) (1 + Z.to_nat i) fact)
  | Some (SR_Local i) => mkFrameFacts (meet_at (ff_locals f) (Z.to_nat i) fact) (ff_args f)
  | Some (SR_GCell _) | None => f
  end.
End Operand.
Arguments Operand : clear implicits.
