(* ===== verification/Predict.v ===== *)
(** * Predict: one fact context per program point

    [compiler/src/wasm/bbv/predict.rs]: the table of predictions, the join of
    an arrival into its program point with the re-arm signal it returns, the
    carried sets, and the escape hatch that widens everything away. Program
    points are [Z]. *)

From S2P Require Import Prelude OpSem Facts Ctx.

#[export] Instance Track_countable : Countable Track.
Proof.
  refine (inj_countable' (fun t => match t with T_Opt => 0 | T_Side => 1 | T_Dirty => 2 end)%nat
    (fun k => match k with O => T_Opt | 1 => T_Side | _ => T_Dirty end)%nat _). by intros [].
Defined.

Record Predictions := mkPredictions {
  p_at : gmap Z Ctx;
  p_depth : gmap Z Z;
  p_carried : gmap (Z * Track) (list Z);
  p_back : gmap Z Ctx }.

Definition predictions_default : Predictions := mkPredictions ∅ ∅ ∅ ∅.

(** ** Consultation *)

Definition pred_at (p : Predictions) (pc : Z) : option Ctx := p_at p !! pc.
Definition pred_carried (p : Predictions) (pc : Z) (track : Track) : option (list Z) := p_carried p !! (pc, track).
Definition pred_back_at (p : Predictions) (pc : Z) : option Ctx := p_back p !! pc.

(** ** The prediction pass *)

(** [set], and the map insertions of the other methods. *)
Definition set_at (p : Predictions) (pc : Z) (c : Ctx) : Predictions :=
  mkPredictions (<[pc := c]> (p_at p)) (p_depth p) (p_carried p) (p_back p).

Definition join_back (p : Predictions) (pc : Z) (arrival : Ctx) : Predictions :=
  mkPredictions (p_at p) (p_depth p) (p_carried p)
    (<[pc := match p_back p !! pc with
             | None => arrival
             | Some cur => if ctx_implies arrival cur then cur else ctx_join arrival cur
             end]> (p_back p)).

(** The part of a context the widening test looks at. *)
Definition has_facts (c : Ctx) : bool :=
  negb (bool_decide (c_locals c = [])) || negb (bool_decide (c_stack c = []))
  || negb (bool_decide (c_args c = [])) || negb (bool_decide (c_caller_locals c = []))
  || negb (bool_decide (c_caller_args c = [])) || negb (bool_decide (c_gcells c = [])).

(** The weaker of a stored prediction and an arrival it does not cover. *)
Definition weaken (cur arrival : Ctx) : Ctx :=
  if ctx_implies_sans_iv arrival cur then ctx_join_iv_only cur arrival else ctx_join arrival cur.

(** The step at the arrival's own depth. *)
Definition join_at (p : Predictions) (pc : Z) (arrival : Ctx) : Predictions * bool :=
  match p_at p !! pc with
  | None => (set_at p pc arrival, true)
  | Some cur =>
      if ctx_implies arrival cur then (p, false)
      else
        let j := weaken cur arrival in
        if ctx_eqb j cur then (p, false) else (set_at p pc j, true)
  end.

Definition join_arrival (p : Predictions) (pc depth : Z) (arrival : Ctx) : Predictions * bool :=
  match p_depth p !! pc with
  | None =>
      join_at (mkPredictions (p_at p) (<[pc := depth]> (p_depth p)) (p_carried p) (p_back p)) pc arrival
  | Some d =>
      if negb (d =? depth) then
        let moved := match p_at p !! pc with Some c => has_facts c | None => false end in
        (set_at p pc ctx_default, moved)
      else join_at p pc arrival
  end.

(** [entry(..).or_insert(..)]: the first arrival decides. *)
Definition carried_join (p : Predictions) (pc : Z) (track : Track) (arr : list Z)
    : Predictions * (list Z * bool) :=
  match p_carried p !! (pc, track) with
  | Some e => (p, (e, false))
  | None => (mkPredictions (p_at p) (p_depth p) (<[(pc, track) := arr]> (p_carried p)) (p_back p), (arr, false))
  end.

Definition widen_all (p : Predictions) : Predictions :=
  mkPredictions (facts_free <$> p_at p) (p_depth p) (p_carried p) (p_back p).

(** [or_into]: the provenance of every arrival slot, over the shorter of the
    two vectors. *)
Fixpoint or_into (cur arr : list SlotCtx) : list SlotCtx * bool :=
  match cur, arr with
  | c :: cur, a :: arr =>
      let m := prov_or (sc_prov c) (sc_prov a) in
      let '(cur, changed) := or_into cur arr in
      (with_prov c (sc_prov a) :: cur, negb (m =? sc_prov c) || changed)
  | cur, _ => (cur, false)
  end.

Definition or_prov (p : Predictions) (pc : Z) (arrival : Ctx) : Predictions * bool :=
  match p_at p !! pc with
  | None => (p, false)
  | Some cur =>
      let '(locals, c1) := or_into (c_locals cur) (c_locals arrival) in
      let '(stack, c2) := or_into (c_stack cur) (c_stack arrival) in
      let '(args, c3) := or_into (c_args cur) (c_args arrival) in
      let '(caller_locals, c4) := or_into (c_caller_locals cur) (c_caller_locals arrival) in
      let '(caller_args, c5) := or_into (c_caller_args cur) (c_caller_args arrival) in
      (set_at p pc (mkCtx locals stack args caller_locals caller_args (c_outer cur) (c_tokens cur)
                      (c_carried cur) (c_gcells cur) (c_track cur)),
       c1 || c2 || c3 || c4 || c5)
  end.
