(* ===== verification/SlotSound.v ===== *)
(** * SlotSound: the lattice of slot facts

    Implication is a preorder, the join an upper bound of both sides and the
    meet what both sides claim; the facts are read as sets of boxed values,
    along which implication is inclusion. Every change of a stored slot under
    a join lowers its height. *)

From Stdlib Require Import SpecFloat.
From S2P Require Import Prelude OpSem Facts Float64 Ctx.

(** ** Well-formed slots *)

Definition cls_wf (c : option (Z * Z)) : Prop :=
  match c with Some (l, h) => in_u 16 l /\ in_u 16 h | None => True end.

Record slot_wf (s : SlotCtx) : Prop := {
  sw_prims : p_wf (sc_prims s);
  sw_cls : cls_wf (sc_cls s);
  sw_likely : cls_wf (sc_likely_cls s);
  sw_grow : 0 <= sc_iv_grow s }.

Lemma TOP_wf : slot_wf TOP.
Proof. split; cbn; [unfold p_wf, in_u; cbn; lia|done|done|lia]. Qed.

Lemma cls_join_wf (a b : option (Z * Z)) : cls_wf a -> cls_wf b -> cls_wf (cls_join a b).
Proof. destruct a as [[]|], b as [[]|]; cbn; unfold in_u; try done. lia. Qed.

Lemma iv_join_tolerant_grow (n st : option ValueRange) (g : Z) : 0 <= g -> 0 <= snd (iv_join_tolerant n st g).
Proof.
  intros Hg. destruct n, st; cbn; try done. destruct (vr_eqb _ _); [done|].
  destruct (IV_WIDEN_JOINS <=? g); cbn; lia.
Qed.

Lemma slot_join_wf (s w : SlotCtx) : slot_wf s -> slot_wf w -> slot_wf (slot_join s w).
Proof.
  intros [A1 A2 A3 A4] [B1 B2 B3 B4]. unfold slot_join.
  pose proof (iv_join_tolerant_grow (sc_iv s) (sc_iv w) (sc_iv_grow w) B4).
  destruct (iv_join_tolerant _ _ _) as [iv g]. split; cbn.
  - by apply p_or_wf.
  - by apply cls_join_wf.
  - by apply cls_join_wf.
  - done.
Qed.

Lemma slot_join_iv_wf (c a : SlotCtx) : slot_wf c -> slot_wf (slot_join_iv c a).
Proof.
  intros [A1 A2 A3 A4]. unfold slot_join_iv.
  pose proof (iv_join_tolerant_grow (sc_iv a) (sc_iv c) (sc_iv_grow c) A4).
  destruct (iv_join_tolerant _ _ _) as [iv g]. by split.
Qed.

(** ** Equality up to provenance *)

Definition slot_equiv (a b : SlotCtx) : Prop := sans_prov a = sans_prov b.

#[export] Instance slot_equiv_equiv : Equivalence slot_equiv.
Proof. unfold slot_equiv. split; [done|by intros a b|by intros a b c -> ->]. Qed.

Lemma slot_eqb_equiv (a b : SlotCtx) : slot_eqb a b = true <-> slot_equiv a b.
Proof. unfold slot_eqb. by rewrite bool_decide_eq_true. Qed.

Lemma slot_equiv_fields (a b : SlotCtx) :
  slot_equiv a b ->
  sc_prims a = sc_prims b /\ sc_outside a = sc_outside b /\ sc_range a = sc_range b /\ sc_cls a = sc_cls b /\
  sc_cls_shallow a = sc_cls_shallow b /\ sc_cls_slots a = sc_cls_slots b /\ sc_likely_cls a = sc_likely_cls b /\
  sc_ta a = sc_ta b /\ sc_src a = sc_src b /\ sc_iv a = sc_iv b /\ sc_iv_grow a = sc_iv_grow b.
Proof. destruct a, b. unfold slot_equiv, sans_prov. cbn. intros [= -> -> -> -> -> -> -> -> -> -> ->]. done. Qed.

#[export] Instance slot_implies_sans_iv_proper : Proper (slot_equiv ==> slot_equiv ==> (=)) slot_implies_sans_iv.
Proof.
  intros a b H%slot_equiv_fields c d H'%slot_equiv_fields. unfold slot_implies_sans_iv.
  by destruct H as (-> & -> & -> & -> & -> & -> & _ & -> & _), H' as (-> & -> & -> & -> & -> & -> & _ & -> & _).
Qed.

#[export] Instance slot_implies_proper : Proper (slot_equiv ==> slot_equiv ==> (=)) slot_implies.
Proof.
  intros a b H c d H'. unfold slot_implies.
  rewrite (slot_implies_sans_iv_proper a b H c d H'). f_equal.
  apply slot_equiv_fields in H. apply slot_equiv_fields in H'. by destruct H as (_ & _ & _ & _ & _ & _ & _ & _ & _ & -> & _),
    H' as (_ & _ & _ & _ & _ & _ & _ & _ & _ & -> & _).
Qed.

(** ** Implication *)

Lemma rb_implies_refl (a : RangeBucket) : rb_implies a a = true.
Proof. by destruct a. Qed.
Lemma rb_implies_trans (a b c : RangeBucket) : rb_implies a b = true -> rb_implies b c = true -> rb_implies a c = true.
Proof. by destruct a, b, c. Qed.
Lemma rb_implies_total (a b : RangeBucket) : rb_implies a b = false -> rb_implies b a = true.
Proof. by destruct a, b. Qed.

Lemma iv_implies_spec (a b : option ValueRange) :
  iv_implies a b = true <-> match b with None => True | Some w => exists s, a = Some s /\ vr_incl s w end.
Proof.
  destruct a as [a|], b as [b|]; cbn; unfold vr_incl.
  - rewrite andb_true_iff, !Z.leb_le. split; [intros ?; by exists a|by intros (s & [= <-] & ?)].
  - done.
  - split; [done|by intros (s & ? & _)].
  - done.
Qed.

Lemma cls_implies_spec (a b : option (Z * Z)) :
  cls_implies a b = true <->
  match b with None => True | Some w => exists s, a = Some s /\ fst w <= fst s /\ snd s <= snd w end.
Proof.
  destruct a as [[al ah]|], b as [[bl bh]|]; cbn.
  - rewrite andb_true_iff, !Z.leb_le. split; [intros ?; by exists (al, ah)|by intros (s & [= <-] & ?)].
  - done.
  - split; [done|by intros (s & ? & _)].
  - done.
Qed.

Lemma ta_implies_spec (a b : option TaKind) : ta_implies a b = true <-> (b = None \/ a = b).
Proof.
  destruct b as [k|]; cbn; [rewrite bool_decide_eq_true|by split; [left|]].
  split; [by right|by intros [|]].
Qed.

(** The claims of [s] one by one. *)
Lemma slot_implies_sans_iv_spec (s w : SlotCtx) :
  slot_implies_sans_iv s w = true <->
  subset_of (sc_prims s) (sc_prims w) = true /\ (sc_outside s = true -> sc_outside w = true) /\
  rb_implies (sc_range s) (sc_range w) = true /\ cls_implies (sc_cls s) (sc_cls w) = true /\
  (sc_cls_shallow w = true -> sc_cls_shallow s = true) /\ (sc_cls_slots w = true -> sc_cls_slots s = true) /\
  ta_implies (sc_ta s) (sc_ta w) = true.
Proof.
  unfold slot_implies_sans_iv. rewrite !andb_true_iff.
  destruct (sc_outside s), (sc_outside w), (sc_cls_shallow s), (sc_cls_shallow w), (sc_cls_slots s), (sc_cls_slots w);
    cbn; intuition congruence.
Qed.

Lemma slot_implies_spec (s w : SlotCtx) :
  slot_implies s w = true <-> slot_implies_sans_iv s w = true /\ iv_implies (sc_iv s) (sc_iv w) = true.
Proof. unfold slot_implies. apply andb_true_iff. Qed.

Lemma slot_implies_sans_iv_refl (s : SlotCtx) : slot_wf s -> slot_implies_sans_iv s s = true.
Proof.
  intros [Hp _ _ _]. apply slot_implies_sans_iv_spec. split_and!; try done.
  - by apply subset_of_refl.
  - apply rb_implies_refl.
  - apply cls_implies_spec. destruct (sc_cls s) as [c|]; [exists c; split; [done|lia]|done].
  - apply ta_implies_spec. by right.
Qed.

Lemma iv_implies_refl (a : option ValueRange) : iv_implies a a = true.
Proof. apply iv_implies_spec. destruct a as [a|]; [exists a; split; [done|unfold vr_incl; lia]|done]. Qed.

Lemma slot_implies_refl (s : SlotCtx) : slot_wf s -> slot_implies s s = true.
Proof.
  intros Hs. apply slot_implies_spec. split; [by apply slot_implies_sans_iv_refl|apply iv_implies_refl].
Qed.

Lemma iv_implies_trans (a b c : option ValueRange) :
  iv_implies a b = true -> iv_implies b c = true -> iv_implies a c = true.
Proof.
  rewrite !iv_implies_spec. destruct c as [c|]; [|done]. intros H (s & -> & H2).
  destruct H as (s' & -> & H1). exists s'. split; [done|]. unfold vr_incl in *. lia.
Qed.

Lemma cls_implies_trans (a b c : option (Z * Z)) :
  cls_implies a b = true -> cls_implies b c = true -> cls_implies a c = true.
Proof.
  rewrite !cls_implies_spec. destruct c as [c|]; [|done]. intros H (s & -> & H2).
  destruct H as (s' & -> & H1). exists s'. split; [done|]. lia.
Qed.

Lemma slot_implies_sans_iv_trans (a b c : SlotCtx) :
  slot_wf a -> slot_wf b ->
  slot_implies_sans_iv a b = true -> slot_implies_sans_iv b c = true -> slot_implies_sans_iv a c = true.
Proof.
  intros [Ha _ _ _] [Hb _ _ _]. rewrite !slot_implies_sans_iv_spec.
  intros (A1 & A2 & A3 & A4 & A5 & A6 & A7) (B1 & B2 & B3 & B4 & B5 & B6 & B7). split_and!; [| | | |tauto|tauto|].
  - exact (subset_of_trans _ _ _ Ha Hb A1 B1).
  - tauto.
  - exact (rb_implies_trans _ _ _ A3 B3).
  - exact (cls_implies_trans _ _ _ A4 B4).
  - rewrite ta_implies_spec in *. destruct B7 as [?|E]; [by left|]. rewrite E in A7. tauto.
Qed.

Lemma slot_implies_trans (a b c : SlotCtx) :
  slot_wf a -> slot_wf b -> slot_implies a b = true -> slot_implies b c = true -> slot_implies a c = true.
Proof.
  intros Ha Hb. rewrite !slot_implies_spec. intros [A1 A2] [B1 B2]. split.
  - exact (slot_implies_sans_iv_trans _ _ _ Ha Hb A1 B1).
  - exact (iv_implies_trans _ _ _ A2 B2).
Qed.

Lemma slot_implies_TOP (s : SlotCtx) : slot_wf s -> slot_implies s TOP = true.
Proof.
  intros [Hp _ _ _]. apply slot_implies_spec. split; [|by destruct (sc_iv s)].
  apply slot_implies_sans_iv_spec. cbn. split_and!; try done; [|by destruct (sc_range s)|by destruct (sc_cls s) as [[]|]].
  apply subset_of_spec; [done|]. intros i Hi. unfold has. cbn [bits ALL_PRIMS].
  destruct (decide (0 <= i < 8)) as [Hr|Hr].
  - assert (i = 0 \/ i = 1 \/ i = 2 \/ i = 3 \/ i = 4 \/ i = 5 \/ i = 6 \/ i = 7) as Hc by lia.
    by destruct Hc as [->|[->|[->|[->|[->|[->|[->| ->]]]]]]].
  - destruct (decide (i < 0)); [rewrite has_neg in Hi by lia|rewrite has_above in Hi by (done || lia)]; done.
Qed.

(** ** Join *)

Lemma subset_of_or_l (a b : Prims) : p_wf b -> subset_of b (p_or a b) = true.
Proof. intros Hb. rewrite p_or_comm. by apply subset_of_or_r. Qed.

Lemma iv_join_tolerant_ub (n st : option ValueRange) (g : Z) :
  iv_implies n (fst (iv_join_tolerant n st g)) = true /\ iv_implies st (fst (iv_join_tolerant n st g)) = true.
Proof.
  rewrite !iv_implies_spec. destruct n as [n|], st as [st|]; cbn; try done.
  destruct (vr_eqb (hull n st) st) eqn:E; cbn.
  - unfold vr_eqb in E. apply andb_true_iff in E as [E1%Z.eqb_eq E2%Z.eqb_eq].
    split; [exists n|exists st]; (split; [done|]); unfold vr_incl; [|lia].
    destruct (hull_incl_l n st). lia.
  - destruct (IV_WIDEN_JOINS <=? g); cbn.
    + destruct (iv_join_recorded n st) as [u|] eqn:Eu; [|done].
      apply iv_join_recorded_incl in Eu as [H1 H2]. split; [by exists n|by exists st].
    + split; [exists n; split; [done|apply hull_incl_l]|exists st; split; [done|apply hull_incl_r]].
Qed.

Lemma cls_join_ub (a b : option (Z * Z)) :
  cls_implies a (cls_join a b) = true /\ cls_implies b (cls_join a b) = true.
Proof.
  rewrite !cls_implies_spec. destruct a as [[al ah]|], b as [[bl bh]|]; cbn; try done.
  split; [exists (al, ah)|exists (bl, bh)]; cbn; (split; [done|lia]).
Qed.

Lemma slot_join_fields (s w : SlotCtx) :
  let j := slot_join s w in
  sc_prims j = p_or (sc_prims s) (sc_prims w) /\ sc_outside j = sc_outside s || sc_outside w /\
  sc_range j = (if rb_implies (sc_range s) (sc_range w) then sc_range w else sc_range s) /\
  sc_cls j = cls_join (sc_cls s) (sc_cls w) /\ sc_cls_shallow j = sc_cls_shallow s && sc_cls_shallow w /\
  sc_cls_slots j = sc_cls_slots s && sc_cls_slots w /\
  sc_likely_cls j = cls_join (sc_likely_cls s) (sc_likely_cls w) /\
  sc_ta j = agree (sc_ta s) (sc_ta w) /\ sc_src j = agree (sc_src s) (sc_src w) /\
  (sc_iv j, sc_iv_grow j) = iv_join_tolerant (sc_iv s) (sc_iv w) (sc_iv_grow w).
Proof. unfold slot_join. by destruct (iv_join_tolerant _ _ _) as [iv g]. Qed.

Lemma slot_join_ub (s w : SlotCtx) :
  slot_wf s -> slot_wf w -> slot_implies s (slot_join s w) = true /\ slot_implies w (slot_join s w) = true.
Proof.
  intros [Hs _ _ _] [Hw _ _ _]. destruct (slot_join_fields s w) as (J1 & J2 & J3 & J4 & J5 & J6 & _ & J8 & _ & J10).
  pose proof (iv_join_tolerant_ub (sc_iv s) (sc_iv w) (sc_iv_grow w)) as [I1 I2]. rewrite <- J10 in I1, I2.
  pose proof (cls_join_ub (sc_cls s) (sc_cls w)) as [C1 C2].
  rewrite !slot_implies_spec, !slot_implies_sans_iv_spec, J1, J2, J3, J4, J5, J6, J8.
  unfold agree. rewrite !ta_implies_spec, orb_true_iff, !andb_true_iff.
  split_and!; try done; try tauto.
  - by apply subset_of_or_r.
  - destruct (rb_implies (sc_range s) (sc_range w)) eqn:E; [done|apply rb_implies_refl].
  - case_bool_decide; [by right|by left].
  - by apply subset_of_or_l.
  - destruct (rb_implies (sc_range s) (sc_range w)) eqn:E; [apply rb_implies_refl|by apply rb_implies_total].
  - case_bool_decide as E; [right; by rewrite E|by left].
Qed.

(** *** The join is the least upper bound, the interval aside *)

Lemma subset_of_or_least (a b c : Prims) :
  p_wf a -> p_wf b -> subset_of a c = true -> subset_of b c = true -> subset_of (p_or a b) c = true.
Proof.
  intros Ha Hb. rewrite !subset_of_spec by (done || by apply p_or_wf). intros H1 H2 i.
  rewrite has_or. intros [?|?]%orb_true_iff; auto.
Qed.

Lemma cls_join_least (a b c : option (Z * Z)) :
  cls_implies a c = true -> cls_implies b c = true -> cls_implies (cls_join a b) c = true.
Proof.
  rewrite !cls_implies_spec. destruct c as [[cl ch]|]; [|done].
  intros ([al ah] & -> & H1) ([bl bh] & -> & H2). cbn in *. eexists. split; [done|]. cbn. lia.
Qed.

Lemma slot_join_least (s w u : SlotCtx) :
  slot_wf s -> slot_wf w -> slot_implies_sans_iv s u = true -> slot_implies_sans_iv w u = true ->
  slot_implies_sans_iv (slot_join s w) u = true.
Proof.
  intros [Hs _ _ _] [Hw _ _ _]. destruct (slot_join_fields s w) as (J1 & J2 & J3 & J4 & J5 & J6 & _ & J8 & _ & _).
  rewrite !slot_implies_sans_iv_spec, J1, J2, J3, J4, J5, J6, J8.
  intros (A1 & A2 & A3 & A4 & A5 & A6 & A7) (B1 & B2 & B3 & B4 & B5 & B6 & B7).
  rewrite orb_true_iff, !andb_true_iff. split_and!; try tauto.
  - by apply subset_of_or_least.
  - by destruct (rb_implies (sc_range s) (sc_range w)).
  - by apply cls_join_least.
  - rewrite ta_implies_spec in *. unfold agree. destruct (sc_ta u) as [k|]; [|by left]. right.
    destruct A7 as [?|A7], B7 as [?|B7]; try done. rewrite A7, B7. by rewrite bool_decide_true.
Qed.

(** The joined interval is the hull until the stored side has been widened
    [IV_WIDEN_JOINS] times. *)
Lemma slot_join_hull (s w : SlotCtx) (a b : ValueRange) :
  sc_iv s = Some a -> sc_iv w = Some b -> sc_iv_grow w < IV_WIDEN_JOINS -> sc_iv (slot_join s w) = Some (hull a b).
Proof.
  intros Ea Eb Hg. pose proof (slot_join_fields s w) as (_ & _ & _ & _ & _ & _ & _ & _ & _ & E).
  rewrite Ea, Eb in E. cbn in E. destruct (vr_eqb (hull a b) b) eqn:Ev.
  - injection E as -> _. unfold vr_eqb in Ev. apply andb_true_iff in Ev as [E1%Z.eqb_eq E2%Z.eqb_eq].
    destruct (hull a b), b; cbn in *. by subst.
  - apply Z.leb_gt in Hg. rewrite Hg in E. by injection E as -> _.
Qed.

(** The interval-only step: the stored slot and an arrival it covers up to
    the interval. *)
Lemma slot_join_iv_ub (c a : SlotCtx) :
  slot_wf c -> slot_implies c (slot_join_iv c a) = true /\
  (slot_implies_sans_iv a c = true -> slot_implies a (slot_join_iv c a) = true).
Proof.
  intros Hc. pose proof (iv_join_tolerant_ub (sc_iv a) (sc_iv c) (sc_iv_grow c)) as [I1 I2].
  unfold slot_join_iv. destruct (iv_join_tolerant _ _ _) as [iv g]. cbn [fst] in I1, I2.
  rewrite !slot_implies_spec. cbn [sc_iv].
  assert (forall x, slot_implies_sans_iv x (mkSlotCtx (sc_prims c) (sc_outside c) (sc_range c) (sc_cls c)
    (sc_cls_shallow c) (sc_cls_slots c) (sc_likely_cls c) (sc_ta c) (sc_src c) iv g (sc_prov c)) =
    slot_implies_sans_iv x c) as E by (intros x; by destruct c).
  rewrite !E. split; [|done]. split; [by apply slot_implies_sans_iv_refl|done].
Qed.

(** ** Heights *)

(** The classes a mask still excludes. *)
Definition prims_left (p : Prims) : nat :=
  length (filter (fun i => has p i = false) [0; 1; 2; 3; 4; 5; 6; 7]).

Definition cls_height (c : option (Z * Z)) : nat :=
  match c with Some (l, h) => S (Z.to_nat l + Z.to_nat (0xffff - h)) | None => 0%nat end.

Definition iv_height (iv : option ValueRange) (g : Z) : nat :=
  (iv_budget (iv, g) + match iv with None => if (g =? 0)%Z then 0 else 1 | Some _ => 1 end)%nat.

Definition range_height (r : RangeBucket) : nat := match r with RB_I32 => 2 | RB_I53 => 1 | RB_Top => 0 end%nat.

Definition opt_height {A} (o : option A) : nat := match o with Some _ => 1 | None => 0 end%nat.

Definition slot_height (s : SlotCtx) : nat :=
  (prims_left (sc_prims s) + (if sc_outside s then 0 else 1) + range_height (sc_range s)
   + cls_height (sc_cls s) + (if sc_cls_shallow s then 1 else 0) + (if sc_cls_slots s then 1 else 0)
   + cls_height (sc_likely_cls s) + opt_height (sc_ta s) + opt_height (sc_src s)
   + iv_height (sc_iv s) (sc_iv_grow s))%nat.

Lemma filter_len_le {A} (P Q : A -> Prop) `{!forall x, Decision (P x), !forall x, Decision (Q x)} (l : list A) :
  (forall x, P x -> Q x) ->
  (length (filter P l) <= length (filter Q l))%nat /\
  (length (filter P l) = length (filter Q l) -> forall x, x ∈ l -> Q x -> P x).
Proof.
  intros HPQ. induction l as [|x l [IH1 IH2]]; [split; [done|]; intros _ x Hx; by apply elem_of_nil in Hx|].
  rewrite !filter_cons. destruct (decide (P x)) as [HP|HP], (decide (Q x)) as [HQ|HQ]; cbn [length].
  - split; [lia|]. intros E y [->|Hy]%elem_of_cons; [done|]. apply IH2; [lia|done].
  - by destruct HQ; apply HPQ.
  - split; [lia|]. lia.
  - split; [done|]. intros E y [->|Hy]%elem_of_cons; [done|]. by apply IH2.
Qed.

Lemma prims_left_or (a b : Prims) :
  p_wf a -> p_wf b ->
  (prims_left (p_or a b) <= prims_left b)%nat /\ (prims_left (p_or a b) = prims_left b -> p_or a b = b).
Proof.
  intros Ha Hb. destruct (filter_len_le (fun i => has (p_or a b) i = false) (fun i => has b i = false)
    [0; 1; 2; 3; 4; 5; 6; 7]) as [H1 H2].
  { intros i. rewrite has_or. by destruct (has a i), (has b i). }
  split; [exact H1|]. intros E. specialize (H2 E). apply prims_ext. intros i Hi.
  destruct (decide (i < 8)) as [Hi8|Hi8].
  - assert (i ∈ [0; 1; 2; 3; 4; 5; 6; 7]) as Hin.
    { assert (i = 0 \/ i = 1 \/ i = 2 \/ i = 3 \/ i = 4 \/ i = 5 \/ i = 6 \/ i = 7) as Hc by lia.
      rewrite !elem_of_cons. tauto. }
    specialize (H2 i Hin). rewrite has_or in *. destruct (has a i), (has b i); try done. by discriminate H2.
  - rewrite !has_above; [done|done|lia|by apply p_or_wf|lia].
Qed.

Lemma cls_height_join (a b : option (Z * Z)) :
  cls_wf a -> cls_wf b ->
  (cls_height (cls_join a b) <= cls_height b)%nat /\ (cls_height (cls_join a b) = cls_height b -> cls_join a b = b).
Proof.
  destruct a as [[al ah]|], b as [[bl bh]|]; cbn; unfold in_u; try (intros; split; [lia|done]).
  intros [? ?] [? ?]. split; [lia|]. intros E. do 2 f_equal; lia.
Qed.

Lemma opt_height_agree {A} `{EqDecision A} (a b : option A) :
  (opt_height (agree a b) <= opt_height b)%nat /\ (opt_height (agree a b) = opt_height b -> agree a b = b).
Proof.
  unfold agree. case_bool_decide as E; [by rewrite E|]. split; [cbn; destruct b; cbn; lia|].
  by destruct b.
Qed.

Lemma iv_height_join (n st : option ValueRange) (g : Z) :
  let r := iv_join_tolerant n st g in
  (iv_height (fst r) (snd r) <= iv_height st g)%nat /\
  (iv_height (fst r) (snd r) = iv_height st g -> r = (st, g)).
Proof.
  cbn zeta. pose proof (iv_join_step_budget (st, g) n) as Hb.
  unfold iv_join_step in Hb. cbn [fst snd] in Hb. unfold iv_height.
  destruct (iv_join_tolerant n st g) as [iv' g'] eqn:E. cbn [fst snd] in *.
  destruct (decide (st = iv')) as [->|Hne].
  - destruct iv' as [r|].
    + assert (g' = g) as ->; [|split; [lia|done]].
      destruct n as [n|]; cbn in E; [|by injection E]. destruct (vr_eqb (hull n r) r) eqn:Eq; [by injection E|].
      destruct (IV_WIDEN_JOINS <=? g); [by injection E|]. injection E as E _. rewrite E in Eq.
      unfold vr_eqb in Eq. by rewrite !Z.eqb_refl in Eq.
    + assert (g' = 0) as ->.
      { destruct n; cbn in E; by injection E. }
      rewrite Z.eqb_refl. cbn. destruct (Z.eqb_spec g 0) as [->|]; [split; [lia|done]|split; lia].
  - destruct st as [st|].
    + destruct iv' as [r|]; [split; lia|]. destruct (g' =? 0)%Z; split; lia.
    + by destruct n; injection E.
Qed.

Definition SLOT_HEIGHT : nat := Z.to_nat 262171.

Lemma cls_height_max (c : option (Z * Z)) : cls_wf c -> (cls_height c <= Z.to_nat 131071)%nat.
Proof. destruct c as [[l h]|]; cbn; unfold in_u; [|lia]. intros [? ?]. lia. Qed.

Lemma iv_height_max (iv : option ValueRange) (g : Z) : 0 <= g -> (iv_height iv g <= 13)%nat.
Proof.
  intros Hg. unfold iv_height, iv_budget, IV_WIDEN_JOINS. cbn [fst snd]. destruct iv as [r|].
  - pose proof (vr_rungs_max r). destruct (Z.leb_spec 3 g); lia.
  - destruct (g =? 0)%Z; lia.
Qed.

Lemma slot_height_max (s : SlotCtx) : slot_wf s -> (slot_height s <= SLOT_HEIGHT)%nat.
Proof.
  intros [_ H2 H3 H4]. unfold slot_height, SLOT_HEIGHT.
  pose proof (cls_height_max _ H2). pose proof (cls_height_max _ H3). pose proof (iv_height_max (sc_iv s) _ H4).
  assert (prims_left (sc_prims s) <= 8)%nat by apply length_filter.
  assert (opt_height (sc_ta s) <= 1)%nat by (destruct (sc_ta s); cbn; lia).
  assert (opt_height (sc_src s) <= 1)%nat by (destruct (sc_src s); cbn; lia).
  assert (range_height (sc_range s) <= 2)%nat by (destruct (sc_range s); cbn; lia).
  destruct (sc_outside s), (sc_cls_shallow s), (sc_cls_slots s); lia.
Qed.

Lemma range_height_join (a b : RangeBucket) :
  let r := if rb_implies a b then b else a in
  (range_height r <= range_height b)%nat /\ (range_height r = range_height b -> r = b).
Proof. by destruct a, b; cbn; split; (lia || done). Qed.

(** A join never raises the stored slot's height, and keeps it only when it
    changes nothing but provenance. *)
Lemma slot_height_join (a c : SlotCtx) :
  slot_wf a -> slot_wf c ->
  (slot_height (slot_join a c) <= slot_height c)%nat /\
  (slot_height (slot_join a c) = slot_height c -> slot_equiv (slot_join a c) c).
Proof.
  intros [A1 A2 A3 A4] [C1 C2 C3 C4]. destruct (prims_left_or _ _ A1 C1) as [P1 P2].
  destruct (cls_height_join _ _ A2 C2) as [K1 K2]. destruct (cls_height_join _ _ A3 C3) as [L1 L2].
  destruct (opt_height_agree (sc_ta a) (sc_ta c)) as [T1 T2].
  destruct (opt_height_agree (sc_src a) (sc_src c)) as [S1 S2].
  destruct (range_height_join (sc_range a) (sc_range c)) as [R1 R2].
  destruct (iv_height_join (sc_iv a) (sc_iv c) (sc_iv_grow c)) as [I1 I2].
  unfold slot_join, slot_height, slot_equiv, sans_prov.
  destruct (iv_join_tolerant _ _ _) as [iv g]. cbn [fst snd] in *.
  cbn [sc_prims sc_outside sc_range sc_cls sc_cls_shallow sc_cls_slots sc_likely_cls sc_ta sc_src sc_iv sc_iv_grow].
  destruct (sc_outside a), (sc_outside c), (sc_cls_shallow a), (sc_cls_shallow c), (sc_cls_slots a), (sc_cls_slots c);
    cbn [orb andb]; (split; [lia|intros E]); try lia;
    rewrite P2, K2, L2, T2, S2, R2 by lia; specialize (I2 ltac:(lia)); by injection I2 as -> ->.
Qed.

Lemma slot_height_join_iv (c a : SlotCtx) :
  (slot_height (slot_join_iv c a) <= slot_height c)%nat /\
  (slot_height (slot_join_iv c a) = slot_height c -> slot_equiv (slot_join_iv c a) c).
Proof.
  destruct (iv_height_join (sc_iv a) (sc_iv c) (sc_iv_grow c)) as [I1 I2].
  unfold slot_join_iv, slot_height, slot_equiv, sans_prov.
  destruct (iv_join_tolerant _ _ _) as [iv g]. cbn [fst snd] in *.
  cbn [sc_prims sc_outside sc_range sc_cls sc_cls_shallow sc_cls_slots sc_likely_cls sc_ta sc_src sc_iv sc_iv_grow].
  split; [lia|]. intros E. specialize (I2 ltac:(lia)). by injection I2 as -> ->.
Qed.
