(* ===== verification/SlotMeaning.v ===== *)
(** * SlotMeaning: slot facts and type predicates as sets of values

    Boxed JavaScript values with their tags, the heap facts a class claim is
    about, and the set of values a slot fact admits ([slot_holds]). Along
    these sets implication entails inclusion, the join is an upper bound and
    the meet of sides that do not contradict each other the intersection; and a raw comparison of boxed bits is strict equality on
    the types the lowering admits it for. *)

From Corelib Require Import SpecFloat.
From S2P Require Import Prelude OpSem Facts Types FnSets TypeLattice Float64 IntervalSound Ctx SlotSound Operand.

(** ** Values *)

(** A boxed value: the tag and the payload; strings, bigints, symbols and
    objects are pointers. *)
Inductive JSVal :=
  | J_Int32 (z : Z)
  | J_Double (x : num)
  | J_String (p : Z)
  | J_Undefined
  | J_Null
  | J_Boolean (b : bool)
  | J_BigInt (p : Z)
  | J_Symbol (p : Z)
  | J_Object (p : Z).

(** What the pointers lead to: the contents of strings and bigints, the class
    word of an object and its kind of typed array. *)
Record JSHeap := mkJSHeap {
  jh_string : Z -> list Z;
  jh_bigint : Z -> Z;
  jh_class : Z -> option Z;
  jh_shallow : Z -> bool;
  jh_slots : Z -> bool;
  jh_ta : Z -> option TaKind }.

(** The bit of a primitive's class. *)
Definition class_bit (v : JSVal) : option Z :=
  match v with
  | J_Int32 _ => Some 0 | J_Double _ => Some 1 | J_String _ => Some 2 | J_Undefined => Some 3
  | J_Null => Some 4 | J_Boolean _ => Some 5 | J_BigInt _ => Some 6 | J_Symbol _ => Some 7
  | J_Object _ => None
  end.

Definition ty_holds (ty : TypeDesc) (v : JSVal) : Prop :=
  match class_bit v with Some i => has (td_prims ty) i = true | None => td_outside ty = true end.

(** The number a value is. *)
Definition number_of (v : JSVal) : option num :=
  match v with J_Int32 z => Some (of_Z z) | J_Double x => Some x | _ => None end.

Definition range_holds (r : RangeBucket) (v : JSVal) : Prop :=
  match r with
  | RB_Top => True
  | RB_I53 => exists z, number_of v = Some (of_Z z) /\ - 2 ^ 53 <= z <= 2 ^ 53
  | RB_I32 => exists z, number_of v = Some (of_Z z) /\ I32_LO <= z <= I32_HI
  end.

Section Meaning.
Context (H : JSHeap).

Definition cls_holds (c : option (Z * Z)) (v : JSVal) : Prop :=
  match c with
  | None => True
  | Some (l, h) => exists p k, v = J_Object p /\ jh_class H p = Some k /\ l <= k <= h
  end.

Definition ptr_holds (f : Z -> bool) (b : bool) (v : JSVal) : Prop :=
  b = true -> forall p, v = J_Object p -> f p = true.

Definition ta_holds (t : option TaKind) (v : JSVal) : Prop :=
  match t with None => True | Some k => exists p, v = J_Object p /\ jh_ta H p = Some k end.

Definition iv_holds (iv : option ValueRange) (v : JSVal) : Prop :=
  match iv with
  | None => True
  | Some r => exists z, number_of v = Some (of_Z z) /\ lo r <= z <= hi r
  end.

(** The values a slot fact admits. *)
Record slot_holds (s : SlotCtx) (v : JSVal) : Prop := {
  sh_ty : ty_holds (to_ty s) v;
  sh_range : range_holds (sc_range s) v;
  sh_cls : cls_holds (sc_cls s) v;
  sh_shallow : ptr_holds (jh_shallow H) (sc_cls_shallow s) v;
  sh_slots : ptr_holds (jh_slots H) (sc_cls_slots s) v;
  sh_ta : ta_holds (sc_ta s) v;
  sh_iv : iv_holds (sc_iv s) v }.

Lemma ty_holds_mono (p q : Prims) (a b : bool) (v : JSVal) :
  (forall i, has p i = true -> has q i = true) -> (a = true -> b = true) ->
  ty_holds (mkTypeDesc p a) v -> ty_holds (mkTypeDesc q b) v.
Proof. unfold ty_holds. intros H1 H2. destruct (class_bit v); cbn; auto. Qed.

Lemma range_holds_mono (a b : RangeBucket) (v : JSVal) : rb_implies a b = true -> range_holds a v -> range_holds b v.
Proof.
  destruct a, b; cbn; try done; intros _ (z & E & Hz); exists z; (split; [done|]); unfold I32_LO, I32_HI in *; lia.
Qed.

Lemma cls_holds_mono (a b : option (Z * Z)) (v : JSVal) : cls_implies a b = true -> cls_holds a v -> cls_holds b v.
Proof.
  rewrite cls_implies_spec. destruct b as [[bl bh]|]; [|done]. intros ([al ah] & -> & H1).
  intros (p & k & E & Ek & Hk). exists p, k. cbn in *. split_and!; [done|done|lia|lia].
Qed.

Lemma iv_holds_mono (a b : option ValueRange) (v : JSVal) : iv_implies a b = true -> iv_holds a v -> iv_holds b v.
Proof.
  rewrite iv_implies_spec. destruct b as [r|]; [|done]. intros (s & -> & H1) (z & E & Hz).
  exists z. split; [done|]. unfold vr_incl in H1. lia.
Qed.

Lemma ta_holds_mono (a b : option TaKind) (v : JSVal) : ta_implies a b = true -> ta_holds a v -> ta_holds b v.
Proof. rewrite ta_implies_spec. by intros [->| ->]. Qed.

(** Implication is inclusion. *)
Lemma slot_implies_sound (s w : SlotCtx) (v : JSVal) :
  slot_wf s -> slot_implies s w = true -> slot_holds s v -> slot_holds w v.
Proof.
  intros Hs [Hi Hiv]%slot_implies_spec [S1 S2 S3 S4 S5 S6 S7].
  apply slot_implies_sans_iv_spec in Hi as (H1 & H2 & H3 & H4 & H5 & H6 & H7). split.
  - apply (ty_holds_mono (sc_prims s) (sc_prims w) (sc_outside s) (sc_outside w)); [|done|done].
    by apply subset_of_spec; [apply Hs|].
  - by eapply range_holds_mono.
  - by eapply cls_holds_mono.
  - intros Hw. apply S4. by apply H5.
  - intros Hw. apply S5. by apply H6.
  - by eapply ta_holds_mono.
  - by eapply iv_holds_mono.
Qed.

Lemma slot_join_sound (s w : SlotCtx) (v : JSVal) :
  slot_wf s -> slot_wf w -> slot_holds s v \/ slot_holds w v -> slot_holds (slot_join s w) v.
Proof.
  intros Hs Hw Hv. destruct (slot_join_ub s w Hs Hw) as [H1 H2].
  destruct Hv; [by apply (slot_implies_sound s)|by apply (slot_implies_sound w)].
Qed.

Lemma cls_meet_holds (a b : option (Z * Z)) (v : JSVal) : cls_holds a v -> cls_holds b v -> cls_holds (cls_meet a b) v.
Proof.
  destruct a as [[al ah]|], b as [[bl bh]|]; cbn; try done.
  intros (p & k & -> & Ek & Hk) (p' & k' & [= <-] & Ek' & Hk'). assert (k' = k) as -> by congruence.
  destruct (Z.leb_spec (Z.max al bl) (Z.min ah bh)); exists p, k; split_and!; (done || lia).
Qed.

(** Bounds within the exact integers, as the recorded form keeps them. *)
Definition iv_small (iv : option ValueRange) : Prop :=
  match iv with Some r => - LIM <= lo r /\ hi r <= LIM | None => True end.

Lemma iv_meet_holds (a b : option ValueRange) (v : JSVal) :
  iv_small a -> iv_small b -> iv_holds a v -> iv_holds b v -> iv_holds (iv_meet a b) v.
Proof.
  destruct a as [a|], b as [b|]; cbn; try done. intros Sa Sb (z & E & Hz) (z' & E' & Hz').
  assert (z' = z) as -> by (apply of_Z_inj; [unfold small; lia|unfold small; lia|congruence]).
  destruct (Z.leb_spec (Z.max (lo a) (lo b)) (Z.min (hi a) (hi b))); exists z; cbn; split; (done || lia).
Qed.

(** What holds of a value on both claims holds on their meet, which exists. *)
Lemma slot_meet_sound (s w : SlotCtx) (v : JSVal) :
  iv_small (sc_iv s) -> iv_small (sc_iv w) -> slot_holds s v -> slot_holds w v ->
  exists m, slot_meet s w = Some m /\ slot_holds m v.
Proof.
  intros Ss Sw [S1 S2 S3 S4 S5 S6 S7] [W1 W2 W3 W4 W5 W6 W7].
  assert (ty_holds (mkTypeDesc (p_and (sc_prims s) (sc_prims w)) (sc_outside s && sc_outside w)) v) as Ht.
  { unfold ty_holds, to_ty in *. destruct (class_bit v); cbn in *; [by rewrite has_and, S1, W1|by rewrite S1, W1]. }
  unfold slot_meet. destruct (p_is_empty _ && negb _) eqn:Ee.
  { exfalso. apply andb_true_iff in Ee as [Ep%Z.eqb_eq Eo%negb_true_iff]. unfold ty_holds in Ht.
    destruct (class_bit v); cbn in Ht; [|congruence]. unfold has in Ht. by rewrite Ep, Z.bits_0 in Ht. }
  eexists. split; [done|]. split; cbn.
  - exact Ht.
  - by destruct (rb_implies _ _).
  - by apply cls_meet_holds.
  - intros [?|?]%orb_true_iff; [by apply S4|by apply W4].
  - intros [?|?]%orb_true_iff; [by apply S5|by apply W5].
  - by destruct (sc_ta s).
  - by apply iv_meet_holds.
Qed.

(** *** The meet is the intersection of compatible claims *)

(** Two ranges of class words, or of integers, with a word in common; an
    absent claim is compatible with every other. *)
Definition cls_meets (a b : option (Z * Z)) : bool :=
  match a, b with
  | Some (al, ah), Some (bl, bh) => Z.max al bl <=? Z.min ah bh
  | _, _ => true
  end.

Definition iv_meets (a b : option ValueRange) : bool :=
  match a, b with Some x, Some y => Z.max (lo x) (lo y) <=? Z.min (hi x) (hi y) | _, _ => true end.

Definition ta_meets (a b : option TaKind) : bool :=
  match a, b with Some x, Some y => bool_decide (x = y) | _, _ => true end.

(** No part of one side contradicts the same part of the other. *)
Definition slot_meets (s w : SlotCtx) : bool :=
  cls_meets (sc_cls s) (sc_cls w) && ta_meets (sc_ta s) (sc_ta w) && iv_meets (sc_iv s) (sc_iv w).

Lemma range_meet_exact (a b : RangeBucket) (v : JSVal) :
  range_holds (if rb_implies a b then a else b) v -> range_holds a v /\ range_holds b v.
Proof.
  destruct (rb_implies a b) eqn:E; intros Hv; (split; [|]); try done; eapply range_holds_mono; [|done| |done]; try done.
  by apply rb_implies_total.
Qed.

Lemma cls_meet_exact (a b : option (Z * Z)) (v : JSVal) :
  cls_meets a b = true -> cls_holds (cls_meet a b) v -> cls_holds a v /\ cls_holds b v.
Proof.
  destruct a as [[al ah]|], b as [[bl bh]|]; cbn; try done. intros ->.
  intros (p & k & -> & Ek & Hk). split; exists p, k; split_and!; (done || lia).
Qed.

Lemma iv_meet_exact (a b : option ValueRange) (v : JSVal) :
  iv_meets a b = true -> iv_holds (iv_meet a b) v -> iv_holds a v /\ iv_holds b v.
Proof.
  destruct a as [a|], b as [b|]; cbn; try done. intros ->. cbn.
  intros (z & E & Hz). split; exists z; (split; [done|lia]).
Qed.

Lemma ta_meet_exact (a b : option TaKind) (v : JSVal) :
  ta_meets a b = true -> ta_holds (opt_or a b) v -> ta_holds a v /\ ta_holds b v.
Proof. destruct a as [a|], b as [b|]; cbn; try done. by intros ->%bool_decide_eq_true. Qed.

Lemma ty_meet_exact (s w : SlotCtx) (v : JSVal) :
  ty_holds (mkTypeDesc (p_and (sc_prims s) (sc_prims w)) (sc_outside s && sc_outside w)) v ->
  ty_holds (to_ty s) v /\ ty_holds (to_ty w) v.
Proof. unfold ty_holds, to_ty. destruct (class_bit v); cbn; rewrite ?has_and; by intros [? ?]%andb_true_iff. Qed.

(** A value of the meet is one of both sides. *)
Lemma slot_meet_exact (s w m : SlotCtx) (v : JSVal) :
  slot_meet s w = Some m -> slot_meets s w = true -> slot_holds m v -> slot_holds s v /\ slot_holds w v.
Proof.
  unfold slot_meet, slot_meets. case_match; [done|]. intros [= <-] [[Mc Mt]%andb_true_iff Mi]%andb_true_iff.
  intros [V1 V2 V3 V4 V5 V6 V7]. cbn in *.
  apply ty_meet_exact in V1 as []. apply range_meet_exact in V2 as []. apply cls_meet_exact in V3 as []; [|done].
  apply ta_meet_exact in V6 as []; [|done]. apply iv_meet_exact in V7 as []; [|done].
  unfold ptr_holds in *. split; (split; [done|done|done| | |done|done]); intros Hb.
  - apply V4. by rewrite Hb.
  - apply V5. by rewrite Hb.
  - apply V4. by rewrite Hb, orb_true_r.
  - apply V5. by rewrite Hb, orb_true_r.
Qed.

(** Contradictory sides have no value in common. *)
Lemma slot_meets_common (s w : SlotCtx) (v : JSVal) :
  iv_small (sc_iv s) -> iv_small (sc_iv w) -> slot_holds s v -> slot_holds w v -> slot_meets s w = true.
Proof.
  intros Ss Sw [_ _ S3 _ _ S6 S7] [_ _ W3 _ _ W6 W7]. unfold slot_meets. rewrite !andb_true_iff. split_and!.
  - destruct (sc_cls s) as [[al ah]|], (sc_cls w) as [[bl bh]|]; cbn in *; try done.
    destruct S3 as (p & k & -> & Ek & Hk), W3 as (p' & k' & [= <-] & Ek' & Hk'). apply Z.leb_le.
    assert (k' = k) by congruence. lia.
  - destruct (sc_ta s), (sc_ta w); cbn in *; try done. apply bool_decide_eq_true.
    destruct S6 as (p & -> & Ek), W6 as (p' & [= <-] & Ek'). congruence.
  - destruct (sc_iv s) as [a|], (sc_iv w) as [b|]; cbn in *; try done. apply Z.leb_le.
    destruct S7 as (z & E & Hz), W7 as (z' & E' & Hz').
    assert (z' = z) by (apply of_Z_inj; [unfold small; lia|unfold small; lia|congruence]). lia.
Qed.

(** Where the class words or the integers contradict each other, the meet
    keeps the claim of the right side; where the kinds of typed array do, the
    one of the left. *)
Lemma slot_meet_contradiction (s w m : SlotCtx) :
  slot_meet s w = Some m ->
  (cls_meets (sc_cls s) (sc_cls w) = false -> sc_cls m = sc_cls w) /\
  (iv_meets (sc_iv s) (sc_iv w) = false -> sc_iv m = sc_iv w) /\
  (ta_meets (sc_ta s) (sc_ta w) = false -> sc_ta m = sc_ta s).
Proof.
  unfold slot_meet. case_match; [done|]. intros [= <-]. cbn. split_and!.
  - destruct (sc_cls s) as [[al ah]|], (sc_cls w) as [[bl bh]|]; cbn; try done. by intros ->.
  - destruct (sc_iv s), (sc_iv w); cbn; try done. by intros ->.
  - by destruct (sc_ta s), (sc_ta w).
Qed.
End Meaning.

(** ** Comparing boxed bits *)

(** [===] on boxed values. *)
Definition strict_eq (H : JSHeap) (v w : JSVal) : bool :=
  match number_of v, number_of w with
  | Some x, Some y => SFeqb x y
  | None, None =>
      match v, w with
      | J_String p, J_String q => bool_decide (jh_string H p = jh_string H q)
      | J_BigInt p, J_BigInt q => jh_bigint H p =? jh_bigint H q
      | J_Undefined, J_Undefined | J_Null, J_Null => true
      | J_Boolean a, J_Boolean b => Bool.eqb a b
      | J_Symbol p, J_Symbol q | J_Object p, J_Object q => p =? q
      | _, _ => false
      end
  | _, _ => false
  end.

#[export] Instance spec_float_eq_dec : EqDecision spec_float.
Proof. solve_decision. Defined.
#[export] Instance JSVal_eq_dec : EqDecision JSVal.
Proof. solve_decision. Defined.

(** One comparison of the boxed words. *)
Definition bits_eq (v w : JSVal) : bool := bool_decide (v = w).

(** The word of an int32 holds an int32. *)
Definition val_wf (v : JSVal) : Prop := match v with J_Int32 z => I32_LO <= z <= I32_HI | _ => True end.

Lemma has_intersects (p : Prims) (i : Z) (c : Prims) :
  has c i = true -> has p i = true -> intersects p c = true.
Proof. intros H1 H2. apply intersects_spec. by exists i. Qed.

(** A type of identities admits only values with one word each. *)
Lemma identity_only_value (ty : TypeDesc) (v : JSVal) :
  p_wf (td_prims ty) -> is_identity_only ty = true -> ty_holds ty v ->
  match v with J_Undefined | J_Null | J_Boolean _ | J_Symbol _ | J_Object _ => True | _ => False end.
Proof.
  intros Hp [_ Hs]%andb_true_iff Hv. unfold ty_holds in Hv. rewrite subset_of_spec in Hs by done.
  destruct v; cbn [class_bit] in Hv; try done; apply Hs in Hv; discriminate Hv.
Qed.

Lemma bool_decide_eqb (a b : Z) (f : Z -> JSVal) :
  (forall x y, f x = f y -> x = y) -> bool_decide (f a = f b) = (a =? b).
Proof.
  intros Hf. destruct (Z.eqb_spec a b) as [->|Hne]; [by apply bool_decide_true|].
  apply bool_decide_false. intros E. by apply Hf in E.
Qed.

Lemma identity_eq (H : JSHeap) (v w : JSVal) :
  match v with J_Undefined | J_Null | J_Boolean _ | J_Symbol _ | J_Object _ => True | _ => False end ->
  bits_eq v w = strict_eq H v w /\ bits_eq w v = strict_eq H w v.
Proof.
  destruct v, w; cbn; try done; intros _; unfold bits_eq, strict_eq; cbn;
    try (by split; apply bool_decide_eq_false; congruence);
    try (by split; apply bool_decide_eq_true; congruence).
  - by destruct b, b0.
  - split; apply bool_decide_eqb; congruence.
  - split; apply bool_decide_eqb; congruence.
Qed.

(** The exact integers are a positive zero or finite. *)
Definition shape (x : num) : Prop := x = S754_zero false \/ exists s m e, x = S754_finite s m e.

Lemma of_Z_shape (z : Z) : small z -> shape (of_Z z).
Proof.
  intros Hz. destruct (decide (z = 0)) as [->|Hne]; [by left|]. right.
  rewrite of_Z_finite by (unfold small in Hz; lia). by repeat eexists.
Qed.

Lemma SFeqb_shape (x y : num) : shape x -> shape y -> SFeqb x y = true -> x = y.
Proof.
  unfold SFeqb. intros [->|(s & m & e & ->)] [->|(s' & m' & e' & ->)]; cbn; try done.
  - by destruct s'.
  - by destruct s.
  - destruct s, s'; try done; destruct (Z.compare_spec e e') as [->|?|?]; try done;
      destruct (Pos.compare_cont Eq m m') eqn:E; try done; intros _;
      apply Pos.compare_eq in E; by subst.
Qed.

Lemma SFeqb_of_Z (a b : Z) : I32_LO <= a <= I32_HI -> I32_LO <= b <= I32_HI -> SFeqb (of_Z a) (of_Z b) = (a =? b).
Proof.
  intros Ha Hb. assert (small a) as Sa by (unfold small, LIM, I32_LO, I32_HI in *; lia).
  assert (small b) as Sb by (unfold small, LIM, I32_LO, I32_HI in *; lia).
  destruct (Z.eqb_spec a b) as [->|Hne].
  - destruct (of_Z_shape b Sb) as [-> |(s & m & e & ->)]; [done|]. unfold SFeqb, SFcompare.
    rewrite Z.compare_refl, Pos.compare_cont_refl. by destruct s.
  - destruct (SFeqb (of_Z a) (of_Z b)) eqn:E; [|done]. exfalso. apply Hne, of_Z_inj; [done|done|].
    by apply SFeqb_shape; [apply of_Z_shape|apply of_Z_shape|].
Qed.

(** The comparison of words is strict equality wherever the lowering uses it. *)
Lemma strict_bits (H : JSHeap) (a b : TypeDesc) (v w : JSVal) :
  p_wf (td_prims a) -> p_wf (td_prims b) -> strict_bits_eq_sound a b = true ->
  ty_holds a v -> ty_holds b w -> val_wf v -> val_wf w -> bits_eq v w = strict_eq H v w.
Proof.
  intros Ha Hb Hs Hv Hw Wv Ww. unfold strict_bits_eq_sound in Hs.
  apply orb_true_iff in Hs as [[Hi|Hi]%orb_true_iff|Hs].
  - exact (proj1 (identity_eq H v w (identity_only_value a v Ha Hi Hv))).
  - exact (proj2 (identity_eq H w v (identity_only_value b w Hb Hi Hw))).
  - apply andb_true_iff in Hs as [[[Da Db]%andb_true_iff Hstr]%andb_true_iff Hbig].
    rewrite negb_true_iff in *. unfold may_be_double, may_be_string, may_be_bigint in *.
    apply orb_false_iff in Da as [Da Oa]. apply orb_false_iff in Db as [Db Ob].
    rewrite Oa, Ob in *. unfold ty_holds in Hv, Hw.
    destruct v, w; cbn [class_bit] in Hv, Hw; try congruence;
      try (by apply (has_intersects _ _ PRIM_DOUBLE) in Hv; [congruence|]);
      try (by apply (has_intersects _ _ PRIM_DOUBLE) in Hw; [congruence|]);
      try (by apply bool_decide_eq_false; congruence);
      try (by apply bool_decide_eq_true; congruence).
    + unfold bits_eq, strict_eq. cbn [number_of]. rewrite SFeqb_of_Z by done. apply bool_decide_eqb. congruence.
    + apply (has_intersects _ _ PRIM_STRING) in Hv, Hw; try done. by rewrite Hv, Hw in Hstr.
    + unfold bits_eq, strict_eq. cbn. by destruct b0, b1.
    + apply (has_intersects _ _ PRIM_BIGINT) in Hv, Hw; try done. by rewrite Hv, Hw in Hbig.
    + unfold bits_eq, strict_eq. cbn. apply bool_decide_eqb. congruence.
Qed.
