(* ===== verification/OperandSound.v ===== *)
(** * OperandSound: operands as sets of values

    The values an operand admits, by its representation, its type and its
    interval; recording an operand in a slot, reading one back and refining
    it by its representation keep them, and the admission predicates of the
    arithmetic lowerings hold only of the numbers they promise. *)

From Corelib Require Import SpecFloat.
From S2P Require Import Prelude OpSem Facts Types FnSets TypeLattice Float64 IntervalSound Ctx SlotSound Operand SlotMeaning.

(** ** The type predicates *)

Lemma prims_only_bit (p : Prims) (b : bool) (q : Prims) (v : JSVal) :
  p_wf p -> subset_of p q = true -> b = false -> ty_holds (mkTypeDesc p b) v ->
  exists i, class_bit v = Some i /\ has q i = true.
Proof.
  intros Hp Hs -> Hv. rewrite subset_of_spec in Hs by done. unfold ty_holds in Hv. cbn in Hv.
  destruct (class_bit v) as [i|]; [|done]. exists i. by auto.
Qed.

Lemma p_eqb_subset (p q : Prims) : p_wf q -> p_eqb p q = true -> p_wf p /\ subset_of p q = true.
Proof.
  destruct p as [p], q as [q]. intros Hq Hpq%Z.eqb_eq. cbn in Hpq. subst p. split; [done|]. by apply subset_of_spec.
Qed.

Lemma exact_bit (ty : TypeDesc) (q : Prims) (v : JSVal) :
  p_wf q -> p_eqb (td_prims ty) q && negb (td_outside ty) = true -> ty_holds ty v ->
  exists i, class_bit v = Some i /\ has q i = true.
Proof.
  intros Hq [H1 H2]%andb_true_iff Hv. apply negb_true_iff in H2. destruct (p_eqb_subset _ _ Hq H1) as [Hp Hs].
  destruct ty as [p b]. by apply (prims_only_bit p b q v).
Qed.

Lemma exact_int32_value (ty : TypeDesc) (v : JSVal) : is_exact_int32 ty = true -> ty_holds ty v -> exists z, v = J_Int32 z.
Proof.
  intros H1 Hv. destruct (exact_bit ty PRIM_INT32 v ltac:(done) H1 Hv) as (i & E & Hi).
  destruct v; cbn in E; try done; injection E as <-; try done. by eexists.
Qed.

Lemma numeric_value (ty : TypeDesc) (v : JSVal) :
  p_wf (td_prims ty) -> is_numeric ty = true -> ty_holds ty v -> is_Some (number_of v).
Proof.
  intros Hp [[_ Hs]%andb_true_iff Ho%negb_true_iff]%andb_true_iff Hv. destruct ty as [p b].
  destruct (prims_only_bit p b _ v Hp Hs Ho Hv) as (i & E & Hi).
  destruct v; cbn in E; try done; injection E as <-; done.
Qed.

(** ** Operands *)

Definition repr_holds (r : Repr) (v : JSVal) : Prop :=
  match r with
  | Rp_Boxed => True
  | Rp_I32 => exists z, v = J_Int32 z
  | Rp_F64 => is_Some (number_of v)
  | Rp_Bool => exists b, v = J_Boolean b
  | Rp_I64 => exists z, number_of v = Some (of_Z z) /\ - 2 ^ 53 <= z <= 2 ^ 53
  | Rp_StrPtr => exists p, v = J_String p
  | Rp_ObjPtr => exists p, v = J_Object p
  end.

Definition own_iv_holds (iv : Iv) (v : JSVal) : Prop :=
  match iv with None => True | Some _ => exists x, number_of v = Some x /\ gamma iv x end.

Section Operand.
Context (H : JSHeap) {V : Type}.

(** The values an operand admits. *)
Record op_holds (o : Operand V) (v : JSVal) : Prop := {
  oh_wf : p_wf (td_prims (op_ty o));
  oh_val : val_wf v;
  oh_repr : repr_holds (op_repr o) v;
  oh_ty : ty_holds (op_ty o) v;
  oh_range : range_holds (op_range o) v;
  oh_cls : cls_holds H (op_cls o) v;
  oh_shallow : ptr_holds (jh_shallow H) (op_cls_shallow o) v;
  oh_slots : ptr_holds (jh_slots H) (op_cls_slots o) v;
  oh_ta : ta_holds H (op_ta o) v;
  oh_iv : own_iv_holds (op_own_iv o) v }.

Lemma int32_range (z : Z) : val_wf (J_Int32 z) -> range_holds RB_I32 (J_Int32 z).
Proof. intros Hz. by exists z. Qed.

Lemma op_iv_holds (o : Operand V) (v : JSVal) : op_holds o v -> own_iv_holds (op_iv o) v.
Proof.
  intros [O1 O2 O3 O4 O5 _ _ _ _ O6]. unfold op_iv. destruct (op_own_iv o) as [iv|]; [done|].
  assert (forall z, v = J_Int32 z -> own_iv_holds IV_I32 v) as Hi.
  { intros z ->. exists (of_Z z). split; [done|]. left. by exists z. }
  destruct (op_repr o); cbn [repr_holds] in O3;
    try (destruct (is_exact_int32 (op_ty o)) eqn:E; [|done];
         destruct (exact_int32_value _ _ E O4) as [z Ez]; by apply (Hi z)).
  - destruct O3 as [z ->]. by apply (Hi z).
  - destruct (bool_decide_reflect (op_range o = RB_I32)) as [E|_].
    + rewrite E in O5. destruct O5 as (z & Ez & Hz). exists (of_Z z). split; [done|]. left. by exists z.
    + destruct O3 as (z & Ez & Hz). exists (of_Z z). split; [done|]. left. by exists z.
Qed.

Lemma iv_clean_holds (iv : Iv) (v : JSVal) : own_iv_holds iv v -> iv_holds (iv_clean iv) v.
Proof.
  destruct iv as [[[l h] []]|]; cbn; try done. intros (x & E & [(z & Hz & ->)|[? _]]); [|done]. by exists z.
Qed.

(** Recording an operand in a slot. *)
Lemma op_slot_holds (o : Operand V) (v : JSVal) : op_holds o v -> slot_holds H (op_slot o) v.
Proof.
  intros Ho. pose proof (iv_clean_holds _ _ (op_iv_holds o v Ho)) as Hiv. destruct Ho as [O1 O2 O3 O4 O5 O6 O7 O8 O9 O10].
  assert (p_is_empty (td_prims (op_ty o)) && negb (td_outside (op_ty o)) = false) as Hne.
  { apply not_true_iff_false. intros [Ee%Z.eqb_eq Eo%negb_true_iff]%andb_true_iff. unfold ty_holds in O4.
    destruct (class_bit v); [|congruence]. unfold has in O4. by rewrite Ee, Z.bits_0 in O4. }
  unfold op_slot, slot_of. rewrite Hne. split; cbn; try done.
  destruct (is_exact_int32 (op_ty o)) eqn:E; [|done].
  destruct (exact_int32_value _ _ E O4) as [z ->]. by apply int32_range.
Qed.

(** Reading a slot back. *)
Lemma from_slot_holds (val : V) (s : SlotCtx) (src : SlotRef) (v : JSVal) :
  slot_wf s -> val_wf v -> slot_holds H s v -> op_holds (from_slot val s src) v.
Proof.
  intros Hs Hv [S1 S2 S3 S4 S5 S6 S7]. split; cbn; try done; [apply Hs|].
  destruct (sc_iv s) as [r|]; [|done]. destruct S7 as (z & E & Hz). exists (of_Z z). split; [done|]. left. by exists z.
Qed.

(** The representation a slot licenses holds of the slot's values. *)
Lemma slot_repr_holds (s : SlotCtx) (v : JSVal) : slot_wf s -> slot_holds H s v -> repr_holds (slot_repr s) v.
Proof.
  intros Hs [S1 S2 _ _ _ _ _]. unfold slot_repr.
  destruct (p_eqb _ PRIM_INT32 && _) eqn:E1; [by apply (exact_int32_value (to_ty s))|].
  destruct (p_eqb _ PRIM_BOOLEAN && _) eqn:E2.
  { destruct (exact_bit (to_ty s) PRIM_BOOLEAN v ltac:(done) E2 S1) as (i & E & Hi).
    destruct v; cbn in E; try done; injection E as <-; try done. by eexists. }
  destruct (slot_is_numeric s) eqn:E3; cbn [andb].
  { pose proof (numeric_value (to_ty s) v (sw_prims s Hs) E3 S1) as Hn.
    destruct (bool_decide_reflect (sc_range s = RB_Top)) as [|Hr]; [done|]. cbn.
    destruct (sc_range s); [| |done]; destruct S2 as (z & Ez & Hz); exists z; (split; [done|]);
      unfold I32_LO, I32_HI in *; lia. }
  destruct (p_eqb _ PRIM_STRING && _) eqn:E4.
  { destruct (exact_bit (to_ty s) PRIM_STRING v ltac:(done) E4 S1) as (i & E & Hi).
    destruct v; cbn in E; try done; injection E as <-; try done. by eexists. }
  destruct (p_is_empty _ && _) eqn:E5; [|done]. apply andb_true_iff in E5 as [Ee%Z.eqb_eq _].
  unfold ty_holds in S1. destruct v; cbn [class_bit to_ty td_prims] in S1;
    try (unfold has in S1; by rewrite Ee, Z.bits_0 in S1). by eexists.
Qed.

(** The operand a block rebuilds from a parameter. *)
Lemma entry_operand_holds (val : V) (s : SlotCtx) (v : JSVal) :
  slot_wf s -> val_wf v -> slot_holds H s v -> op_holds (entry_operand val s) v.
Proof.
  intros Hs Hv Hh. pose proof (slot_repr_holds s v Hs Hh) as Hr.
  pose proof (oh_iv _ _ (from_slot_holds val s SR_This v Hs Hv Hh)) as Hi. destruct Hh as [S1 S2 S3 S4 S5 S6 S7].
  split; cbn; try done; [apply Hs|]. unfold derived_range. destruct (is_exact_int32 (to_ty s)) eqn:E; [|done].
  destruct (exact_int32_value _ _ E S1) as [z ->]. by apply int32_range.
Qed.

Lemma narrowed_holds (p q : Prims) (b : bool) (v : JSVal) (i : Z) :
  class_bit v = Some i -> has q i = true -> ty_holds (mkTypeDesc p b) v ->
  ty_holds (prim_desc (if p_eqb (p_and p q) EMPTY then q else p_and p q)) v.
Proof.
  unfold ty_holds. intros E Hq. rewrite E. cbn. intros Hp. destruct (p_eqb _ _); [done|]. by rewrite has_and, Hp, Hq.
Qed.

Lemma p_and_wf (p q : Prims) : p_wf p -> p_wf (p_and p q).
Proof.
  unfold p_wf, in_u, p_and. cbn [bits]. intros Hp. split; [apply Z.land_nonneg; lia|].
  assert (Z.land (bits p) (Z.ones 8) = bits p) as E by (rewrite Z.land_ones by lia; apply Z.mod_small; lia).
  rewrite <- E, <- Z.land_assoc, (Z.land_comm (Z.ones 8)), Z.land_assoc, Z.land_ones by lia.
  apply Z.mod_pos_bound. lia.
Qed.

Lemma narrowed_wf (p q : Prims) : p_wf p -> p_wf q -> p_wf (if p_eqb (p_and p q) EMPTY then q else p_and p q).
Proof. intros Hp Hq. destruct (p_eqb _ _); [done|]. by apply p_and_wf. Qed.

(** A representation proves its own mask. *)
Lemma refine_by_repr_holds (o : Operand V) (v : JSVal) : op_holds o v -> op_holds (refine_by_repr o) v.
Proof.
  intros [O1 O2 O3 O4 O5 O6 O7 O8 O9 O10]. destruct o as [val r [p b] rg cl sh sl lk ta src iv fr pv]. cbn in *.
  assert (forall q, p_wf q -> (exists i, class_bit v = Some i /\ has q i = true) ->
    op_holds (set_op_ty (mkOperand val r (mkTypeDesc p b) rg cl sh sl lk ta src iv fr pv)
      (prim_desc (if p_eqb (p_and p q) EMPTY then q else p_and p q))) v) as Hn.
  { intros q Hq (i & E & Hi). split; cbn [op_ty op_repr op_range op_cls op_cls_shallow op_cls_slots op_ta op_own_iv set_op_ty];
      try done; [by apply narrowed_wf|by apply (narrowed_holds p q b v i)]. }
  unfold refine_by_repr. cbn [op_repr op_ty td_prims]. destruct r; cbn [repr_holds] in O3.
  - done.
  - apply Hn; [done|]. destruct O3 as [z ->]. by exists 0.
  - apply Hn; [done|]. destruct O3 as [x E]. destruct v; try done; [by exists 0|by exists 1].
  - apply Hn; [done|]. destruct O3 as [x ->]. by exists 5.
  - apply Hn; [done|]. destruct O3 as (x & E & _). destruct v; try done; [by exists 0|by exists 1].
  - apply Hn; [done|]. destruct O3 as [x ->]. by exists 2.
  - destruct O3 as [x ->]. split; cbn; try done. by exists x.
Qed.

(** What the admission predicates promise. *)
Lemma i64_operand_value (o : Operand V) (v : JSVal) :
  op_holds o v -> i64_arith_operand_ok o = true ->
  exists z, number_of v = Some (of_Z z) /\ - 2 ^ 53 <= z <= 2 ^ 53.
Proof.
  intros [O1 O2 O3 O4 _ _ _ _ _ _] Hok.
  assert (forall z, v = J_Int32 z -> exists z, number_of v = Some (of_Z z) /\ - 2 ^ 53 <= z <= 2 ^ 53) as Hi.
  { intros z ->. exists z. cbn in O2. split; [done|]. unfold I32_LO, I32_HI in O2. lia. }
  unfold i64_arith_operand_ok in Hok. destruct (op_repr o); cbn [repr_holds] in O3; try done.
  - destruct (exact_int32_value _ _ Hok O4) as [z ->]. by eapply Hi.
  - destruct O3 as [z ->]. by eapply Hi.
  - destruct (exact_int32_value _ _ Hok O4) as [z ->]. by eapply Hi.
Qed.

Lemma wrap_operand_value (o : Operand V) (v : JSVal) :
  op_holds o v -> int32_wrap_operand_ok o = true ->
  exists z, number_of v = Some (of_Z z) /\ - 2 ^ 53 <= z <= 2 ^ 53.
Proof.
  intros [O1 O2 O3 O4 _ _ _ _ _ _] [Hok|Hok%bool_decide_eq_true]%orb_true_iff; [|by rewrite Hok in O3].
  destruct (exact_int32_value _ _ Hok O4) as [z ->]. exists z. cbn in O2. split; [done|].
  unfold I32_LO, I32_HI in O2. lia.
Qed.

Lemma numeric_operand_value (o : Operand V) (v : JSVal) :
  op_holds o v -> store_value_numeric o = true -> is_Some (number_of v).
Proof.
  intros [O1 O2 O3 O4 _ _ _ _ _ _] Hok. unfold store_value_numeric in Hok.
  destruct (op_repr o); cbn [repr_holds] in O3; try (by apply (numeric_value (op_ty o))).
  - by destruct O3 as [z ->].
  - done.
  - by destruct O3 as (z & -> & _).
Qed.
End Operand.
