(* ===== verification/CtxSound.v ===== *)
(** * CtxSound: contexts over all the slots in scope

    A context is read slot by slot ([fact]): canonical trimming does not
    change it, implication is slot-wise implication and the joins are
    slot-wise joins. The join of two contexts is implied by both, and every
    change of a stored context lowers its height. *)

From Stdlib Require Import Sorting.Sorted.
From S2P Require Import Prelude OpSem Facts Ctx SlotSound.

(** ** Vectors *)

Lemma slot_at_lookup (l : list SlotCtx) (i : nat) (s : SlotCtx) : l !! i = Some s -> slot_at l i = s.
Proof. unfold slot_at. by intros ->. Qed.

Lemma slot_at_ge (l : list SlotCtx) (i : nat) : (length l <= i)%nat -> slot_at l i = TOP.
Proof. intros H. unfold slot_at. by rewrite lookup_ge_None_2. Qed.

Lemma is_top_equiv (s : SlotCtx) : is_top s = true <-> slot_equiv s TOP.
Proof. apply slot_eqb_equiv. Qed.

(** Popping trailing tops leaves a prefix, and what it pops is [TOP]. *)
Lemma trim_split (l : list SlotCtx) :
  exists tops, l = trim l ++ tops /\ Forall (fun s => slot_equiv s TOP) tops.
Proof.
  induction l as [|s l (tops & E & Ht)]; [by exists []|]. cbn [trim].
  destruct (trim l) as [|x k] eqn:Ek.
  - destruct (is_top s) eqn:Es.
    + exists (s :: l). split; [done|]. rewrite E. apply list.Forall_cons. split; [by apply is_top_equiv|done].
    + exists l. split; [done|]. by rewrite E.
  - exists tops. split; [by rewrite E at 1|done].
Qed.

Lemma slot_at_trim (l : list SlotCtx) (i : nat) : slot_equiv (slot_at (trim l) i) (slot_at l i).
Proof.
  destruct (trim_split l) as (tops & E & Ht). rewrite E at 2.
  destruct (decide (i < length (trim l))%nat) as [Hi|Hi].
  - unfold slot_at. by rewrite lookup_app_l.
  - rewrite slot_at_ge by lia. unfold slot_at. rewrite lookup_app_r by lia.
    destruct (tops !! _) as [s|] eqn:Es; [|done]. symmetry.
    rewrite list.Forall_forall in Ht. apply Ht. by eapply list_elem_of_lookup_2.
Qed.

(** The last slot kept is not [TOP]. *)
Lemma trim_last (l : list SlotCtx) (s : SlotCtx) : list.last (trim l) = Some s -> ~ slot_equiv s TOP.
Proof.
  induction l as [|x l IH]; [done|]. cbn [trim]. destruct (trim l) as [|y k] eqn:Ek.
  - destruct (is_top x) eqn:Ex; [done|]. intros [= <-] H. apply is_top_equiv in H. congruence.
  - by rewrite last_cons_cons.
Qed.

Lemma trim_length (l : list SlotCtx) (n : nat) :
  (forall i, (n <= i)%nat -> slot_equiv (slot_at l i) TOP) -> (length (trim l) <= n)%nat.
Proof.
  intros H. destruct (list.last (trim l)) as [s|] eqn:E.
  - pose proof (trim_last l s E) as Hs. rewrite last_lookup in E.
    destruct (decide (length (trim l) <= n)%nat) as [|Hn]; [done|]. exfalso. apply Hs.
    rewrite <- (slot_at_lookup _ _ _ E). rewrite slot_at_trim. apply H. lia.
  - apply last_None in E. rewrite E. cbn. lia.
Qed.

Lemma slots_le_spec (f : SlotCtx -> SlotCtx -> bool) (a b : list SlotCtx) :
  f TOP TOP = true -> slots_le f a b = true <-> forall i, f (slot_at a i) (slot_at b i) = true.
Proof.
  intros Hf. unfold slots_le. rewrite forallb_forall. split; [|intros H i _; apply H].
  intros H i. destruct (decide (i < Nat.max (length a) (length b))%nat).
  - apply H. apply in_seq. lia.
  - by rewrite !slot_at_ge by lia.
Qed.

Lemma slots_zip_lookup (f : SlotCtx -> SlotCtx -> SlotCtx) (a b : list SlotCtx) (i : nat) :
  slots_zip f a b !! i =
    if decide (i < Nat.max (length a) (length b))%nat then Some (f (slot_at a i) (slot_at b i)) else None.
Proof.
  unfold slots_zip. rewrite list_lookup_fmap. destruct (decide _) as [Hi|Hi].
  - by rewrite lookup_seq_lt.
  - rewrite lookup_ge_None_2; [done|]. rewrite length_seq. lia.
Qed.

Lemma slot_at_zip (f : SlotCtx -> SlotCtx -> SlotCtx) (a b : list SlotCtx) (i : nat) :
  f TOP TOP = TOP -> slot_at (slots_zip f a b) i = f (slot_at a i) (slot_at b i).
Proof.
  intros Hf. unfold slot_at at 1. rewrite slots_zip_lookup. destruct (decide _); [done|].
  by rewrite !slot_at_ge by lia.
Qed.

(** ** Frames *)

Lemma frame_at_ge (l : list CallerFrame) (i : nat) :
  (length l <= i)%nat -> frame_at l i = mkCallerFrame [] [].
Proof. intros H. unfold frame_at. by rewrite lookup_ge_None_2. Qed.

Lemma trim_frames_split (l : list CallerFrame) :
  exists empties, l = trim_frames l ++ empties /\ Forall (fun f => f = mkCallerFrame [] []) empties.
Proof.
  induction l as [|s l (tops & E & Ht)]; [by exists []|]. cbn [trim_frames].
  destruct (trim_frames l) as [|x k] eqn:Ek.
  - destruct (frame_is_empty s) eqn:Es.
    + exists (s :: l). split; [done|]. rewrite E. apply list.Forall_cons. split; [|done].
      by destruct s as [[] []].
    + exists l. split; [done|]. by rewrite E.
  - exists tops. split; [by rewrite E at 1|done].
Qed.

Lemma frame_at_trim (l : list CallerFrame) (i : nat) : frame_at (trim_frames l) i = frame_at l i.
Proof.
  destruct (trim_frames_split l) as (tops & E & Ht). rewrite E at 2.
  destruct (decide (i < length (trim_frames l))%nat) as [Hi|Hi].
  - unfold frame_at. by rewrite lookup_app_l.
  - rewrite frame_at_ge by lia. unfold frame_at. rewrite lookup_app_r by lia.
    destruct (tops !! _) as [s|] eqn:Es; [|done]. symmetry.
    rewrite list.Forall_forall in Ht. apply Ht. by eapply list_elem_of_lookup_2.
Qed.

Lemma frame_at_fmap (g : CallerFrame -> CallerFrame) (l : list CallerFrame) (i : nat) :
  g (mkCallerFrame [] []) = mkCallerFrame [] [] -> frame_at (g <$> l) i = g (frame_at l i).
Proof. intros H. unfold frame_at. rewrite list_lookup_fmap. by destruct (l !! i). Qed.

Lemma frame_at_zip (f : SlotCtx -> SlotCtx -> SlotCtx) (a b : list CallerFrame) (i : nat) :
  frame_at (frames_zip f a b) i =
    mkCallerFrame (slots_zip f (cf_locals (frame_at a i)) (cf_locals (frame_at b i)))
                  (slots_zip f (cf_args (frame_at a i)) (cf_args (frame_at b i))).
Proof.
  unfold frames_zip, frame_at at 1. rewrite list_lookup_fmap.
  destruct (decide (i < Nat.max (length a) (length b))%nat) as [Hi|Hi].
  - by rewrite lookup_seq_lt.
  - rewrite lookup_ge_None_2 by (rewrite length_seq; lia). cbn. by rewrite !frame_at_ge by lia.
Qed.

(** ** Facts *)

(** The vectors of a context, the callers' frames outward. *)
Inductive Vec := V_Locals | V_Stack | V_Args | V_CallerLocals | V_CallerArgs | V_OuterLocals (i : nat) | V_OuterArgs (i : nat).

Definition vec (c : Ctx) (k : Vec) : list SlotCtx :=
  match k with
  | V_Locals => c_locals c
  | V_Stack => c_stack c
  | V_Args => c_args c
  | V_CallerLocals => c_caller_locals c
  | V_CallerArgs => c_caller_args c
  | V_OuterLocals i => cf_locals (frame_at (c_outer c) i)
  | V_OuterArgs i => cf_args (frame_at (c_outer c) i)
  end.

(** What a context says of one slot. *)
Definition fact (c : Ctx) (k : Vec) (i : nat) : SlotCtx := slot_at (vec c k) i.

Lemma vec_canon (c : Ctx) (k : Vec) : vec (ctx_canon c) k = trim (vec c k).
Proof.
  destruct k as [| | | | |i|i]; cbn; try done; by rewrite frame_at_trim, frame_at_fmap.
Qed.

Lemma fact_canon (c : Ctx) (k : Vec) (i : nat) : slot_equiv (fact (ctx_canon c) k i) (fact c k i).
Proof. unfold fact. rewrite vec_canon. apply slot_at_trim. Qed.

(** A slot-wise combination of two contexts. *)
Definition ctx_zip (f : SlotCtx -> SlotCtx -> SlotCtx) (c w : Ctx) (tok : list (Z * Z)) (car : list Z)
    (g : list (Z * SlotCtx)) (t : Track) : Ctx :=
  mkCtx (slots_zip f (c_locals c) (c_locals w)) (slots_zip f (c_stack c) (c_stack w))
    (slots_zip f (c_args c) (c_args w)) (slots_zip f (c_caller_locals c) (c_caller_locals w))
    (slots_zip f (c_caller_args c) (c_caller_args w)) (frames_zip f (c_outer c) (c_outer w)) tok car g t.

Lemma vec_zip (f : SlotCtx -> SlotCtx -> SlotCtx) (c w : Ctx) tok car g t (k : Vec) :
  vec (ctx_zip f c w tok car g t) k = slots_zip f (vec c k) (vec w k).
Proof. destruct k as [| | | | |i|i]; cbn; try done; by rewrite frame_at_zip. Qed.

Lemma ctx_join_zip (c w : Ctx) :
  ctx_join c w = ctx_canon (ctx_zip slot_join c w (c_tokens c) (c_carried w) (gcells_join (c_gcells c) (c_gcells w)) (c_track c)).
Proof. done. Qed.

Lemma ctx_join_iv_only_zip (c a : Ctx) :
  ctx_join_iv_only c a = ctx_canon (ctx_zip slot_join_iv c a (c_tokens c) (c_carried c) (c_gcells c) (c_track c)).
Proof. done. Qed.

Lemma slot_join_TOP_TOP : slot_join TOP TOP = TOP.
Proof. reflexivity. Qed.
Lemma slot_join_iv_TOP_TOP : slot_join_iv TOP TOP = TOP.
Proof. reflexivity. Qed.

Lemma fact_join (c w : Ctx) (k : Vec) (i : nat) :
  slot_equiv (fact (ctx_join c w) k i) (slot_join (fact c k i) (fact w k i)).
Proof.
  rewrite ctx_join_zip, fact_canon. unfold fact.
  by rewrite vec_zip, slot_at_zip by apply slot_join_TOP_TOP.
Qed.

Lemma fact_join_iv (c a : Ctx) (k : Vec) (i : nat) :
  slot_equiv (fact (ctx_join_iv_only c a) k i) (slot_join_iv (fact c k i) (fact a k i)).
Proof.
  rewrite ctx_join_iv_only_zip, fact_canon. unfold fact.
  by rewrite vec_zip, slot_at_zip by apply slot_join_iv_TOP_TOP.
Qed.

(** Implication, slot by slot. *)
Lemma ctx_le_spec (f : SlotCtx -> SlotCtx -> bool) (c w : Ctx) :
  f TOP TOP = true ->
  ctx_le f c w = true <->
    c_tokens c = c_tokens w /\ c_track c = c_track w /\
    (forall k i, f (fact c k i) (fact w k i) = true) /\ gcells_implies f (c_gcells c) (c_gcells w) = true.
Proof.
  intros Hf. unfold ctx_le. rewrite !andb_true_iff, !bool_decide_eq_true, !(slots_le_spec f) by done.
  assert (frames_le f (c_outer c) (c_outer w) = true <->
    forall i, (forall j, f (fact c (V_OuterLocals i) j) (fact w (V_OuterLocals i) j) = true) /\
              (forall j, f (fact c (V_OuterArgs i) j) (fact w (V_OuterArgs i) j) = true)) as ->.
  { unfold frames_le. rewrite forallb_forall. split.
    - intros H i. destruct (decide (i < Nat.max (length (c_outer c)) (length (c_outer w)))%nat) as [Hi|Hi].
      + specialize (H i). rewrite andb_true_iff, !(slots_le_spec f) in H by done. apply H, in_seq. lia.
      + unfold fact. cbn [vec]. rewrite !frame_at_ge by lia. done.
    - intros H i _. rewrite andb_true_iff, !(slots_le_spec f) by done. apply H. }
  split.
  - intros ((((((((H1 & H2) & H3) & H4) & H5) & H6) & H7) & H8) & H9). split_and!; [done|done| |done].
    intros [| | | | |i|i] j; [apply H3|apply H4|apply H5|apply H6|apply H7|apply (proj1 (H8 i))|apply (proj2 (H8 i))].
  - intros (H1 & H2 & H3 & H4).
    split_and!; [done|done|exact (H3 V_Locals)|exact (H3 V_Stack)|exact (H3 V_Args)|exact (H3 V_CallerLocals)
      |exact (H3 V_CallerArgs)| |done].
    intros i. split; intros j; [exact (H3 (V_OuterLocals i) j)|exact (H3 (V_OuterArgs i) j)].
Qed.

(** ** Binding facts *)

(** Sorted by binding, no binding twice. *)
Definition keyed (l : list (Z * SlotCtx)) : Prop := StronglySorted (fun x y => fst x < fst y) l.

Record gcells_wf (l : list (Z * SlotCtx)) : Prop := {
  gw_keyed : keyed l;
  gw_slots : forall b s, (b, s) ∈ l -> slot_wf s;
  gw_no_top : forall b s, (b, s) ∈ l -> is_top s = false }.

Lemma keyed_cons (x : Z * SlotCtx) (l : list (Z * SlotCtx)) :
  keyed (x :: l) <-> (forall y, y ∈ l -> fst x < fst y) /\ keyed l.
Proof.
  unfold keyed. split.
  - intros H. apply StronglySorted_inv in H as [H1 H2]. split; [|done]. by apply list.Forall_forall.
  - intros [H1 H2]. apply SSorted_cons; [done|]. by apply list.Forall_forall.
Qed.

Lemma gcell_find_in (l : list (Z * SlotCtx)) (b : Z) (s : SlotCtx) : gcell_find l b = Some s -> (b, s) ∈ l.
Proof.
  unfold gcell_find. destruct (List.find _ l) as [[b' s']|] eqn:E; [|done]. cbn. intros [= ->].
  apply find_some in E as [H1 H2%Z.eqb_eq]. cbn in H2. subst. by apply list_elem_of_In.
Qed.

Lemma gcell_find_keyed (l : list (Z * SlotCtx)) (b : Z) (s : SlotCtx) :
  keyed l -> gcell_find l b = Some s <-> (b, s) ∈ l.
Proof.
  intros Hk. split; [apply gcell_find_in|]. unfold gcell_find. induction l as [|[b' s'] l IH]; intros Hin.
  - by apply elem_of_nil in Hin.
  - apply keyed_cons in Hk as [H1 H2]. cbn [List.find fst]. apply elem_of_cons in Hin as [[= -> ->]|Hin].
    + by rewrite Z.eqb_refl.
    + destruct (Z.eqb_spec b' b) as [->|_]; [specialize (H1 _ Hin); cbn in H1; lia|by apply IH].
Qed.

Lemma gcells_implies_spec (f : SlotCtx -> SlotCtx -> bool) (a b : list (Z * SlotCtx)) :
  gcells_implies f a b = true <-> forall bid w, (bid, w) ∈ b -> exists s, gcell_find a bid = Some s /\ f s w = true.
Proof.
  unfold gcells_implies. rewrite forallb_forall. split.
  - intros H bid w Hin. specialize (H (bid, w) (proj1 (list_elem_of_In _ _) Hin)). cbn in H.
    destruct (gcell_find a bid) as [s|]; [by exists s|done].
  - intros H [bid w] Hin. destruct (H bid w) as (s & -> & Hs); [by apply list_elem_of_In|done].
Qed.

Lemma keyed_insert (x : Z * SlotCtx) (l : list (Z * SlotCtx)) :
  keyed l -> (forall y, y ∈ l -> fst y <> fst x) ->
  keyed (insert_sorted (fun a b => fst a <=? fst b) x l).
Proof.
  induction l as [|y l IH]; intros Hl Hx; cbn [insert_sorted]; [by apply keyed_cons; split; [intros y Hy%elem_of_nil|]|].
  apply keyed_cons in Hl as [H1 H2]. destruct (Z.leb_spec (fst x) (fst y)) as [Hle|Hlt].
  - assert (fst y <> fst x) by (apply Hx; left). apply keyed_cons. split; [|by apply keyed_cons].
    intros z [->|Hz]%elem_of_cons; [lia|]. specialize (H1 z Hz). lia.
  - apply keyed_cons. split.
    + intros z Hz. rewrite insert_sorted_perm in Hz. apply elem_of_cons in Hz as [->|Hz]; [lia|by apply H1].
    + apply IH; [done|]. intros z Hz. apply Hx. by right.
Qed.

Lemma keyed_sort (l : list (Z * SlotCtx)) :
  NoDup (l.*1) -> keyed (sort_list (fun a b => fst a <=? fst b) l).
Proof.
  induction l as [|x l IH]; intros Hnd; [constructor|]. cbn in Hnd. apply list.NoDup_cons in Hnd as [Hx Hnd].
  unfold sort_list. cbn [foldr]. fold (sort_list (fun a b : Z * SlotCtx => fst a <=? fst b) l).
  apply keyed_insert; [by apply IH|]. intros y Hy%sort_list_elem E. apply Hx. apply list_elem_of_fmap. by exists y.
Qed.

Lemma keyed_NoDup (l : list (Z * SlotCtx)) : keyed l -> NoDup (l.*1).
Proof.
  induction l as [|x l IH]; intros Hk; [constructor|]. apply keyed_cons in Hk as [H1 H2].
  cbn. apply list.NoDup_cons. split; [|by apply IH]. intros (y & E & Hy)%list_elem_of_fmap.
  specialize (H1 y Hy). lia.
Qed.

(** Two keyed lists with the same entries are one. *)
Lemma keyed_ext (l k : list (Z * SlotCtx)) : keyed l -> keyed k -> (forall x, x ∈ l <-> x ∈ k) -> l = k.
Proof.
  revert k. induction l as [|x l IH]; intros [|y k] Hl Hk E; [done| | |].
  - exfalso. apply (elem_of_nil y). apply E. left.
  - exfalso. apply (elem_of_nil x). apply E. left.
  - apply keyed_cons in Hl as [L1 L2], Hk as [K1 K2].
    assert (x = y) as ->.
    { assert (x ∈ y :: k) as [|Hx]%elem_of_cons by (apply E; left); [done|].
      assert (y ∈ x :: l) as [|Hy]%elem_of_cons by (apply E; left); [done|].
      specialize (K1 x Hx). specialize (L1 y Hy). lia. }
    f_equal. apply IH; [done|done|]. intros z. specialize (E z). rewrite !elem_of_cons in E. split; intros Hz.
    + destruct E as [E _]. destruct E as [->|]; [by right| |done]. specialize (L1 y Hz). lia.
    + destruct E as [_ E]. destruct E as [->|]; [by right| |done]. specialize (K1 y Hz). lia.
Qed.

Lemma gcells_canon_elem (l : list (Z * SlotCtx)) (x : Z * SlotCtx) :
  x ∈ gcells_canon l <-> x ∈ l /\ is_top (snd x) = false.
Proof.
  unfold gcells_canon. rewrite sort_list_elem, list_elem_of_In, filter_In, <- list_elem_of_In.
  by rewrite negb_true_iff.
Qed.

Lemma gcells_canon_keyed (l : list (Z * SlotCtx)) : NoDup (l.*1) -> keyed (gcells_canon l).
Proof.
  intros Hnd. apply keyed_sort. induction l as [|x l IH]; [constructor|]. cbn in Hnd.
  apply list.NoDup_cons in Hnd as [Hx Hnd]. cbn [List.filter]. destruct (negb _); [|by apply IH].
  cbn. apply list.NoDup_cons. split; [|by apply IH]. intros (y & E & Hy)%list_elem_of_fmap. apply Hx.
  apply list_elem_of_fmap. exists y. split; [done|]. apply list_elem_of_In, filter_In in Hy as [Hy _].
  by apply list_elem_of_In.
Qed.

Lemma gcells_canon_id (l : list (Z * SlotCtx)) : gcells_wf l -> gcells_canon l = l.
Proof.
  intros [H1 H2 H3]. apply keyed_ext; [by apply gcells_canon_keyed, keyed_NoDup|done|].
  intros [b s]. rewrite gcells_canon_elem. cbn. split; [tauto|]. intros H. split; [done|by eapply H3].
Qed.

Lemma gcells_join_elem (a c : list (Z * SlotCtx)) (b : Z) (j : SlotCtx) :
  (b, j) ∈ gcells_join a c <->
  exists s w, (b, s) ∈ a /\ gcell_find c b = Some w /\ j = slot_join s w /\ is_top j = false.
Proof.
  unfold gcells_join. rewrite list_elem_of_omap. split.
  - intros ([b' s] & Hin & E). destruct (gcell_find c b') as [w|] eqn:Ef; [|done].
    destruct (is_top (slot_join s w)) eqn:Et; [done|]. injection E as -> <-. by exists s, w.
  - intros (s & w & Hin & Ef & -> & Et). exists (b, s). split; [done|]. by rewrite Ef, Et.
Qed.

Lemma gcells_join_NoDup (a c : list (Z * SlotCtx)) : keyed a -> NoDup ((gcells_join a c).*1).
Proof.
  intros Ha. apply keyed_NoDup. induction a as [|[b s] a IH]; [constructor|].
  apply keyed_cons in Ha as [H1 H2]. unfold gcells_join. cbn [omap list_omap]. fold (gcells_join a c).
  destruct (gcell_find c b) as [w|]; [|by apply IH]. cbn zeta. destruct (is_top _); [by apply IH|].
  apply keyed_cons. split; [|by apply IH]. intros [b' j] (s' & w' & Hin & _)%gcells_join_elem.
  exact (H1 (b', s') Hin).
Qed.

(** The entries of the joined binding facts. *)
Lemma gcells_joined_elem (a c : list (Z * SlotCtx)) (b : Z) (j : SlotCtx) :
  keyed c ->
  (b, j) ∈ gcells_canon (gcells_join a c) <->
  exists s w, (b, s) ∈ a /\ (b, w) ∈ c /\ j = slot_join s w /\ is_top j = false.
Proof.
  intros Hc. rewrite gcells_canon_elem, gcells_join_elem. cbn [snd]. split.
  - intros ((s & w & H1 & H2 & -> & H3) & _). exists s, w. split_and!; [done|by apply gcell_find_in|done|done].
  - intros (s & w & H1 & H2 & -> & H3). split; [|done]. exists s, w.
    split_and!; [done|by apply gcell_find_keyed|done|done].
Qed.

(** ** Well-formed contexts *)

Record ctx_wf (c : Ctx) : Prop := {
  cw_facts : forall k i, slot_wf (fact c k i);
  cw_gcells : gcells_wf (c_gcells c) }.

Lemma slot_wf_equiv (a b : SlotCtx) : slot_equiv a b -> slot_wf a -> slot_wf b.
Proof.
  intros H%slot_equiv_fields [A1 A2 A3 A4].
  destruct H as (E1 & _ & _ & E2 & _ & _ & E3 & _ & _ & _ & E4). by split; rewrite <- ?E1, <- ?E2, <- ?E3, <- ?E4.
Qed.

Lemma ctx_join_wf (c w : Ctx) : ctx_wf c -> ctx_wf w -> ctx_wf (ctx_join c w).
Proof.
  intros [C1 [C2 C3 C4]] [W1 [W2 W3 W4]]. split.
  - intros k i. eapply slot_wf_equiv; [symmetry; apply fact_join|]. by apply slot_join_wf.
  - cbn. split.
    + by apply gcells_canon_keyed, gcells_join_NoDup.
    + intros b j (s & w' & H1 & H2 & -> & _)%gcells_joined_elem; [|done].
      apply slot_join_wf; [by eapply C3|by eapply W3].
    + intros b j (s & w' & _ & _ & _ & H)%gcells_joined_elem; done.
Qed.

Lemma ctx_join_iv_only_wf (c a : Ctx) : ctx_wf c -> ctx_wf (ctx_join_iv_only c a).
Proof.
  intros [C1 C2]. split.
  - intros k i. eapply slot_wf_equiv; [symmetry; apply fact_join_iv|]. by apply slot_join_iv_wf.
  - change (gcells_wf (gcells_canon (c_gcells c))). by rewrite gcells_canon_id.
Qed.

Lemma TOP_implies_TOP : slot_implies TOP TOP = true.
Proof. reflexivity. Qed.
Lemma TOP_implies_sans_iv_TOP : slot_implies_sans_iv TOP TOP = true.
Proof. reflexivity. Qed.

Lemma ctx_implies_refl (c : Ctx) : ctx_wf c -> ctx_implies c c = true.
Proof.
  intros [C1 [C2 C3 C4]]. apply ctx_le_spec; [done|]. split_and!; [done|done| |].
  - intros k i. by apply slot_implies_refl.
  - apply gcells_implies_spec. intros b w Hin. exists w. split; [by apply gcell_find_keyed|].
    apply slot_implies_refl. by eapply C3.
Qed.

Lemma ctx_implies_trans (a b c : Ctx) :
  ctx_wf a -> ctx_wf b -> ctx_implies a b = true -> ctx_implies b c = true -> ctx_implies a c = true.
Proof.
  intros [A1 [A2 A3 A4]] [B1 [B2 B3 B4]] (H1 & H2 & H3 & H4)%ctx_le_spec (K1 & K2 & K3 & K4)%ctx_le_spec; [|done|done].
  apply ctx_le_spec; [done|]. split_and!; [congruence|congruence| |].
  - intros k i. by apply (slot_implies_trans _ (fact b k i)).
  - rewrite gcells_implies_spec in *. intros bid w Hin. destruct (K4 bid w Hin) as (s & Es & Hs).
    apply gcell_find_in in Es. destruct (H4 bid s Es) as (s' & Es' & Hs'). exists s'. split; [done|].
    apply (slot_implies_trans _ s); [apply (A3 bid); by apply gcell_find_in|by eapply B3|done|done].
Qed.

(** Both sides imply the join. *)
Lemma ctx_join_ub (c w : Ctx) :
  ctx_wf c -> ctx_wf w -> c_tokens c = c_tokens w -> c_track c = c_track w ->
  ctx_implies c (ctx_join c w) = true /\ ctx_implies w (ctx_join c w) = true.
Proof.
  intros [C1 [C2 C3 C4]] [W1 [W2 W3 W4]] Et Ek.
  split; (apply ctx_le_spec; [done|]; split_and!; [done|done| |]).
  - intros k i. erewrite slot_implies_proper; [|reflexivity|apply fact_join]. by apply slot_join_ub.
  - apply gcells_implies_spec. intros b j (s & w' & H1 & H2 & -> & _)%gcells_joined_elem; [|done].
    exists s. split; [by apply gcell_find_keyed|]. apply slot_join_ub; [by eapply C3|by eapply W3].
  - intros k i. erewrite slot_implies_proper; [|reflexivity|apply fact_join]. by apply slot_join_ub.
  - apply gcells_implies_spec. intros b j (s & w' & H1 & H2 & -> & _)%gcells_joined_elem; [|done].
    exists w'. split; [by apply gcell_find_keyed|]. apply slot_join_ub; [by eapply C3|by eapply W3].
Qed.

(** The interval-only step is implied by the stored context, and by an arrival
    that disagrees on intervals of slots alone. *)
Lemma ctx_join_iv_only_ub (c a : Ctx) :
  ctx_wf c -> ctx_wf a ->
  ctx_implies c (ctx_join_iv_only c a) = true /\
  (ctx_implies_sans_iv a c = true -> gcells_implies slot_implies (c_gcells a) (c_gcells c) = true ->
   ctx_implies a (ctx_join_iv_only c a) = true).
Proof.
  intros [C1 C2] [A1 A2]. assert (c_gcells (ctx_join_iv_only c a) = c_gcells c) as Eg by exact (gcells_canon_id _ C2).
  split.
  - apply ctx_le_spec; [done|]. split_and!; [done|done| |].
    + intros k i. erewrite slot_implies_proper; [|reflexivity|apply fact_join_iv]. by apply slot_join_iv_ub.
    + rewrite Eg. apply gcells_implies_spec. intros b w Hin. exists w. split; [by apply gcell_find_keyed; [apply C2|]|].
      apply slot_implies_refl. by eapply C2.
  - intros (H1 & H2 & H3 & _)%ctx_le_spec Hg; [|done]. apply ctx_le_spec; [done|]. split_and!; [done|done| |by rewrite Eg].
    intros k i. erewrite slot_implies_proper; [|reflexivity|apply fact_join_iv]. by apply slot_join_iv_ub.
Qed.
