(* ===== verification/CtxHeight.v ===== *)
(** * CtxHeight: the height of a context

    A context's height sums its slots' heights; a join into a stored context
    never raises it, and keeps it only when the stored context stays equal to
    the result up to provenance. *)

From S2P Require Import Prelude OpSem Facts Ctx SlotSound CtxSound Predict.

(** Positional comparison of two lists by the heights of their entries. *)
Lemma sum_dom {A} (h : A -> nat) (R : A -> A -> Prop) (j c : list A) :
  (length j <= length c)%nat ->
  (forall i x y, j !! i = Some x -> c !! i = Some y -> (h x <= h y)%nat /\ (h x = h y -> R x y)) ->
  (sum_list_with (fun x => S (h x)) j <= sum_list_with (fun x => S (h x)) c)%nat /\
  (sum_list_with (fun x => S (h x)) j = sum_list_with (fun x => S (h x)) c -> Forall2 R j c).
Proof.
  revert c. induction j as [|x j IH]; intros [|y c] Hl H; cbn [sum_list_with length] in *; try lia.
  - split; [done|]. intros _. constructor.
  - destruct (H 0%nat x y eq_refl eq_refl) as [H1 H2].
    destruct (IH c ltac:(lia) (fun i => H (S i))) as [H3 H4]. split; [lia|].
    intros E. constructor; [apply H2; lia|apply H4; lia].
Qed.

Definition vec_height (l : list SlotCtx) : nat := sum_list_with (fun s => S (slot_height s)) l.
Definition frame_height (f : CallerFrame) : nat := (vec_height (cf_locals f) + vec_height (cf_args f))%nat.
Definition gcells_height (l : list (Z * SlotCtx)) : nat := sum_list_with (fun x => S (slot_height (snd x))) l.

Definition ctx_height (c : Ctx) : nat :=
  (vec_height (c_locals c) + vec_height (c_stack c) + vec_height (c_args c) + vec_height (c_caller_locals c)
   + vec_height (c_caller_args c) + sum_list_with (fun f => S (frame_height f)) (c_outer c)
   + gcells_height (c_gcells c))%nat.

Lemma trim_prefix (l : list SlotCtx) (i : nat) (s : SlotCtx) : trim l !! i = Some s -> l !! i = Some s.
Proof.
  intros H. destruct (trim_split l) as (tops & E & _). rewrite E. rewrite lookup_app_l; [done|].
  by eapply lookup_lt_Some.
Qed.

Lemma trim_frames_prefix (l : list CallerFrame) (i : nat) (f : CallerFrame) :
  trim_frames l !! i = Some f -> l !! i = Some f.
Proof.
  intros H. destruct (trim_frames_split l) as (tops & E & _). rewrite E. rewrite lookup_app_l; [done|].
  by eapply lookup_lt_Some.
Qed.

Lemma trim_frames_length (l : list CallerFrame) (n : nat) :
  (forall i, (n <= i)%nat -> frame_at l i = mkCallerFrame [] []) -> (length (trim_frames l) <= n)%nat.
Proof.
  intros H. assert (forall f, list.last (trim_frames l) = Some f -> f <> mkCallerFrame [] []) as Hlast.
  { clear H. induction l as [|x l IH]; intros f; [done|]. cbn [trim_frames]. destruct (trim_frames l) as [|y k] eqn:Ek.
    - destruct (frame_is_empty x) eqn:Ex; [done|]. by intros [= <-] ->.
    - rewrite last_cons_cons. apply IH. }
  destruct (list.last (trim_frames l)) as [f|] eqn:E; [|apply last_None in E; rewrite E; cbn; lia].
  rewrite last_lookup in E. destruct (decide (length (trim_frames l) <= n)%nat) as [|Hn]; [done|]. exfalso.
  apply (Hlast f); [done|]. apply trim_frames_prefix in E.
  specialize (H (pred (length (trim_frames l))) ltac:(lia)). unfold frame_at in H. by rewrite E in H.
Qed.

Section Step.
(** A slot step: the arrival's slot and the stored slot. *)
Context (g : SlotCtx -> SlotCtx -> SlotCtx).
Hypothesis g_top : forall a, slot_wf a -> slot_equiv (g a TOP) TOP.
Hypothesis g_height : forall a c, slot_wf a -> slot_wf c ->
  (slot_height (g a c) <= slot_height c)%nat /\ (slot_height (g a c) = slot_height c -> slot_equiv (g a c) c).
Hypothesis g_top_top : g TOP TOP = TOP.

#[local] Abbreviation wf_at l := (forall i, slot_wf (slot_at l i)).

Lemma zip_at (a c : list SlotCtx) (i : nat) : slot_at (slots_zip g a c) i = g (slot_at a i) (slot_at c i).
Proof. by apply slot_at_zip. Qed.

Lemma vec_step (a c : list SlotCtx) :
  wf_at a -> wf_at c ->
  (vec_height (trim (slots_zip g a c)) <= vec_height c)%nat /\
  (vec_height (trim (slots_zip g a c)) = vec_height c -> Forall2 slot_equiv (trim (slots_zip g a c)) c).
Proof.
  intros Ha Hc. apply sum_dom.
  - apply trim_length. intros i Hi. rewrite zip_at, (slot_at_ge c) by lia. apply g_top, Ha.
  - intros i x y Hx%trim_prefix Hy. apply slot_at_lookup in Hx, Hy. subst x y. rewrite zip_at. by apply g_height.
Qed.

Lemma vec_step_nil (a : list SlotCtx) : wf_at a -> trim (slots_zip g a []) = [].
Proof.
  intros Ha. apply length_zero_iff_nil.
  assert (length (trim (slots_zip g a [])) <= 0)%nat; [|lia]. apply trim_length. intros i _.
  rewrite zip_at, (slot_at_ge []) by (cbn; lia). apply g_top, Ha.
Qed.

#[local] Abbreviation frames_wf l := (forall i, wf_at (cf_locals (frame_at l i)) /\ wf_at (cf_args (frame_at l i))).

Lemma frame_step_at (a c : list CallerFrame) (i : nat) :
  frame_at (frame_canon <$> frames_zip g a c) i =
    mkCallerFrame (trim (slots_zip g (cf_locals (frame_at a i)) (cf_locals (frame_at c i))))
                  (trim (slots_zip g (cf_args (frame_at a i)) (cf_args (frame_at c i)))).
Proof. rewrite frame_at_fmap by done. by rewrite frame_at_zip. Qed.

Definition frame_equiv (f f' : CallerFrame) : Prop :=
  Forall2 slot_equiv (cf_locals f) (cf_locals f') /\ Forall2 slot_equiv (cf_args f) (cf_args f').

Lemma frames_step (a c : list CallerFrame) :
  frames_wf a -> frames_wf c ->
  let j := trim_frames (frame_canon <$> frames_zip g a c) in
  (sum_list_with (fun f => S (frame_height f)) j <= sum_list_with (fun f => S (frame_height f)) c)%nat /\
  (sum_list_with (fun f => S (frame_height f)) j = sum_list_with (fun f => S (frame_height f)) c ->
   Forall2 frame_equiv j c).
Proof.
  intros Ha Hc j. apply sum_dom.
  - apply trim_frames_length. intros i Hi. rewrite frame_step_at, (frame_at_ge c) by lia. cbn [cf_locals cf_args].
    by rewrite !vec_step_nil by apply Ha.
  - intros i x y Hx%trim_frames_prefix Hy.
    assert (x = frame_at (frame_canon <$> frames_zip g a c) i) as -> by (unfold frame_at; by rewrite Hx).
    assert (y = frame_at c i) as -> by (unfold frame_at; by rewrite Hy). rewrite frame_step_at.
    unfold frame_height, frame_equiv. cbn [cf_locals cf_args].
    destruct (vec_step (cf_locals (frame_at a i)) (cf_locals (frame_at c i))) as [L1 L2]; [apply Ha|apply Hc|].
    destruct (vec_step (cf_args (frame_at a i)) (cf_args (frame_at c i))) as [A1 A2]; [apply Ha|apply Hc|].
    split; [lia|]. intros E. split; [apply L2; lia|apply A2; lia].
Qed.
End Step.

(** The joined binding facts, read off the stored ones. *)
Lemma gcells_joined_omap (a c : list (Z * SlotCtx)) :
  keyed a -> keyed c ->
  gcells_canon (gcells_join a c) =
    omap (fun '(bid, w) => match gcell_find a bid with
                           | Some s => let j := slot_join s w in if is_top j then None else Some (bid, j)
                           | None => None
                           end) c.
Proof.
  intros Ha Hc. apply keyed_ext; [by apply gcells_canon_keyed, gcells_join_NoDup| |].
  - clear Ha. induction c as [|[b w] c IH]; [constructor|]. apply keyed_cons in Hc as [H1 H2]. cbn [omap list_omap].
    destruct (gcell_find a b) as [s|]; [|by apply IH]. cbn zeta. destruct (is_top _); [by apply IH|].
    apply keyed_cons. split; [|by apply IH]. intros [b' j] ([b'' w'] & Hin & E)%list_elem_of_omap.
    destruct (gcell_find a b'') as [s'|]; [|done]. cbn zeta in E. destruct (is_top _); [done|]. injection E as <- _.
    exact (H1 _ Hin).
  - intros [b j]. rewrite gcells_joined_elem by done. rewrite list_elem_of_omap. split.
    + intros (s & w & H1 & H2 & -> & H3). exists (b, w). split; [done|].
      rewrite (proj2 (gcell_find_keyed a b s Ha) H1). cbn zeta. by rewrite H3.
    + intros ([b' w] & Hin & E). destruct (gcell_find a b') as [s|] eqn:Ef; [|done]. cbn zeta in E.
      destruct (is_top _) eqn:Et; [done|]. injection E as <- <-. exists s, w.
      split_and!; [by apply gcell_find_in|done|done|done].
Qed.

Definition gcell_equiv (x y : Z * SlotCtx) : Prop := fst x = fst y /\ slot_equiv (snd x) (snd y).

Lemma gcells_step (a c : list (Z * SlotCtx)) :
  gcells_wf a -> gcells_wf c ->
  (gcells_height (gcells_canon (gcells_join a c)) <= gcells_height c)%nat /\
  (gcells_height (gcells_canon (gcells_join a c)) = gcells_height c ->
   Forall2 gcell_equiv (gcells_canon (gcells_join a c)) c).
Proof.
  intros [A1 A2 A3] [C1 C2 C3]. rewrite gcells_joined_omap by done. clear C1 C3.
  induction c as [|[b w] c IH]; [split; [done|constructor]|].
  destruct IH as [I1 I2]; [intros b' s Hs; apply (C2 b'); by right|].
  cbn [omap list_omap]. unfold gcells_height in *. cbn [sum_list_with snd].
  destruct (gcell_find a b) as [s|] eqn:Ef; [|split; lia]. cbn zeta.
  apply gcell_find_in in Ef. destruct (is_top (slot_join s w)); [split; lia|]. cbn [sum_list_with snd].
  destruct (slot_height_join s w) as [H1 H2]; [by eapply A2|apply (C2 b); left|].
  split; [lia|]. intros E. constructor; [split; [done|apply H2; lia]|apply I2; lia].
Qed.

(** ** The whole context *)

Lemma slot_join_TOP_r (s : SlotCtx) : slot_wf s -> slot_equiv (slot_join s TOP) TOP.
Proof.
  intros Hs. pose proof (slot_implies_TOP s Hs) as Ht. destruct Hs as [Hp _ _ _].
  apply slot_implies_spec in Ht as [Ht _]. apply slot_implies_sans_iv_spec in Ht as (H1 & _).
  cbn [sc_prims TOP typed_slot] in H1. rewrite subset_of_or_eq, p_or_comm in H1 by done.
  unfold slot_join, slot_equiv, sans_prov, TOP, typed_slot, agree. cbn.
  rewrite H1. destruct (sc_iv s), (sc_range s), (sc_cls s) as [[]|], (sc_likely_cls s) as [[]|], (sc_outside s),
    (sc_cls_shallow s), (sc_cls_slots s); cbn; repeat case_bool_decide; congruence.
Qed.

Lemma slot_join_iv_TOP (a : SlotCtx) : slot_equiv (slot_join_iv TOP a) TOP.
Proof. unfold slot_join_iv, slot_equiv, sans_prov. cbn. by destruct (sc_iv a). Qed.

Lemma slots_zip_flip (f : SlotCtx -> SlotCtx -> SlotCtx) (a b : list SlotCtx) :
  slots_zip f a b = slots_zip (fun x y => f y x) b a.
Proof. unfold slots_zip. by rewrite Nat.max_comm. Qed.

Lemma frames_zip_flip (f : SlotCtx -> SlotCtx -> SlotCtx) (a b : list CallerFrame) :
  frames_zip f a b = frames_zip (fun x y => f y x) b a.
Proof.
  unfold frames_zip. rewrite Nat.max_comm. apply list_fmap_ext. intros i x _. f_equal; apply slots_zip_flip.
Qed.

Lemma Forall2_slots_eqb (a b : list SlotCtx) : Forall2 slot_equiv a b -> slots_eqb a b = true.
Proof.
  intros H. unfold slots_eqb. apply bool_decide_eq_true. induction H as [|x y a b Hxy _ IH]; [done|].
  cbn. by rewrite Hxy, IH.
Qed.

Lemma Forall2_frames_eqb (a b : list CallerFrame) : Forall2 frame_equiv a b -> frames_eqb a b = true.
Proof.
  induction 1 as [|x y a b [H1 H2] _ IH]; [done|]. cbn. unfold frame_eqb.
  by rewrite !Forall2_slots_eqb, IH.
Qed.

Lemma Forall2_gcells_eqb (a b : list (Z * SlotCtx)) : Forall2 gcell_equiv a b -> gcells_eqb a b = true.
Proof.
  intros H. unfold gcells_eqb. apply bool_decide_eq_true. induction H as [|[x s] [y w] a b [H1 H2] _ IH]; [done|].
  cbn in *. subst y. unfold slot_equiv in H2. f_equal; [|done]. by rewrite H2.
Qed.

Lemma gcell_equiv_refl (l : list (Z * SlotCtx)) : Forall2 gcell_equiv l l.
Proof. induction l as [|x l IH]; constructor; [by split|done]. Qed.

(** Contexts as [facts_only] leaves them. *)
Definition bare (c : Ctx) : Prop := c_tokens c = [] /\ c_carried c = [] /\ c_track c = T_Opt.

Lemma facts_only_bare (c : Ctx) : bare (facts_only c).
Proof. done. Qed.

(** A context whose slots step by [g] from the stored ones. *)
Lemma ctx_step_height (g : SlotCtx -> SlotCtx -> SlotCtx) (a c : Ctx) tok car gc t (gs : list (Z * SlotCtx)) :
  (forall s, slot_wf s -> slot_equiv (g s TOP) TOP) ->
  (forall s w, slot_wf s -> slot_wf w ->
    (slot_height (g s w) <= slot_height w)%nat /\ (slot_height (g s w) = slot_height w -> slot_equiv (g s w) w)) ->
  g TOP TOP = TOP -> ctx_wf a -> ctx_wf c ->
  tok = c_tokens c -> car = c_carried c -> t = c_track c ->
  gs = gcells_canon gc ->
  (gcells_height gs <= gcells_height (c_gcells c))%nat /\
    (gcells_height gs = gcells_height (c_gcells c) -> Forall2 gcell_equiv gs (c_gcells c)) ->
  let j := ctx_canon (ctx_zip g a c tok car gc t) in
  (ctx_height j <= ctx_height c)%nat /\ (ctx_height j = ctx_height c -> ctx_eqb j c = true).
Proof.
  intros G1 G2 G3 [A1 A2] [C1 C2] -> -> -> -> [B1 B2] j. subst j.
  unfold ctx_height, ctx_eqb. cbn [ctx_canon ctx_zip c_locals c_stack c_args c_caller_locals c_caller_args c_outer
    c_tokens c_carried c_gcells c_track].
  destruct (vec_step g G1 G2 G3 (c_locals a) (c_locals c) (A1 V_Locals) (C1 V_Locals)) as [K1 K2].
  destruct (vec_step g G1 G2 G3 (c_stack a) (c_stack c) (A1 V_Stack) (C1 V_Stack)) as [L1 L2].
  destruct (vec_step g G1 G2 G3 (c_args a) (c_args c) (A1 V_Args) (C1 V_Args)) as [M1 M2].
  destruct (vec_step g G1 G2 G3 (c_caller_locals a) (c_caller_locals c) (A1 V_CallerLocals) (C1 V_CallerLocals)) as [N1 N2].
  destruct (vec_step g G1 G2 G3 (c_caller_args a) (c_caller_args c) (A1 V_CallerArgs) (C1 V_CallerArgs)) as [O1 O2].
  destruct (frames_step g G1 G2 G3 (c_outer a) (c_outer c)) as [P1 P2].
  { intros i. exact (conj (A1 (V_OuterLocals i)) (A1 (V_OuterArgs i))). }
  { intros i. exact (conj (C1 (V_OuterLocals i)) (C1 (V_OuterArgs i))). }
  split; [lia|]. intros E.
  rewrite !Forall2_slots_eqb, Forall2_frames_eqb, Forall2_gcells_eqb, !bool_decide_true
    by first [done|apply K2; lia|apply L2; lia|apply M2; lia|apply N2; lia|apply O2; lia|apply P2; lia|apply B2; lia].
  done.
Qed.

(** A join of the intervals alone. *)
Lemma join_iv_height (cur arr : Ctx) :
  ctx_wf cur -> ctx_wf arr ->
  (ctx_height (ctx_join_iv_only cur arr) <= ctx_height cur)%nat /\
  (ctx_height (ctx_join_iv_only cur arr) = ctx_height cur -> ctx_eqb (ctx_join_iv_only cur arr) cur = true).
Proof.
  intros Hc Ha. rewrite ctx_join_iv_only_zip. unfold ctx_zip.
  rewrite !(slots_zip_flip slot_join_iv), (frames_zip_flip slot_join_iv).
  apply (ctx_step_height (fun a c => slot_join_iv c a) arr cur _ _ (c_gcells cur) _ (c_gcells cur));
    [intros s _; apply slot_join_iv_TOP|intros s w _ _; apply slot_height_join_iv|done|done|done|done|done|done
    |by rewrite gcells_canon_id by apply Hc|split; [done|intros _; apply gcell_equiv_refl]].
Qed.

(** One step of a prediction. *)
Lemma weaken_height (cur arr : Ctx) :
  ctx_wf cur -> ctx_wf arr -> bare cur -> bare arr ->
  (ctx_height (weaken cur arr) <= ctx_height cur)%nat /\
  (ctx_height (weaken cur arr) = ctx_height cur -> ctx_eqb (weaken cur arr) cur = true).
Proof.
  intros Hc Ha (B1 & B2 & B3) (D1 & D2 & D3). unfold weaken. destruct (ctx_implies_sans_iv arr cur).
  - by apply join_iv_height.
  - rewrite ctx_join_zip.
    apply (ctx_step_height slot_join arr cur _ _ (gcells_join (c_gcells arr) (c_gcells cur)) _
      (gcells_canon (gcells_join (c_gcells arr) (c_gcells cur))));
      [apply slot_join_TOP_r|intros s w; apply slot_height_join|done|done|done|by rewrite B1, D1|done|by rewrite B3, D3|done
      |apply gcells_step; [apply Ha|apply Hc]].
Qed.

(** *** The height of a context of a given size *)

Definition ctx_slots (c : Ctx) : nat :=
  (length (c_locals c) + length (c_stack c) + length (c_args c) + length (c_caller_locals c)
   + length (c_caller_args c)
   + sum_list_with (fun f => S (length (cf_locals f) + length (cf_args f))) (c_outer c)
   + length (c_gcells c))%nat.

Lemma vec_height_max (l : list SlotCtx) :
  (forall i, slot_wf (slot_at l i)) -> (vec_height l <= length l * S SLOT_HEIGHT)%nat.
Proof.
  unfold vec_height. induction l as [|s l IH]; intros H; cbn [sum_list_with length]; [lia|].
  pose proof (slot_height_max s (H 0%nat)). specialize (IH (fun i => H (S i))). lia.
Qed.

Lemma ctx_height_max (c : Ctx) : ctx_wf c -> (ctx_height c <= ctx_slots c * S SLOT_HEIGHT)%nat.
Proof.
  intros [H1 [_ H2 _]]. unfold ctx_height, ctx_slots.
  pose proof (vec_height_max _ (H1 V_Locals)). pose proof (vec_height_max _ (H1 V_Stack)).
  pose proof (vec_height_max _ (H1 V_Args)). pose proof (vec_height_max _ (H1 V_CallerLocals)).
  pose proof (vec_height_max _ (H1 V_CallerArgs)).
  assert (sum_list_with (fun f => S (frame_height f)) (c_outer c) <=
    sum_list_with (fun f => S (length (cf_locals f) + length (cf_args f))) (c_outer c) * S SLOT_HEIGHT)%nat.
  { assert (forall i, (forall j, slot_wf (slot_at (cf_locals (frame_at (c_outer c) i)) j)) /\
                      (forall j, slot_wf (slot_at (cf_args (frame_at (c_outer c) i)) j))) as Hf.
    { intros i. exact (conj (H1 (V_OuterLocals i)) (H1 (V_OuterArgs i))). }
    revert Hf. generalize (c_outer c). intros l. induction l as [|f l IH]; intros Hf; cbn [sum_list_with]; [lia|].
    pose proof (vec_height_max _ (proj1 (Hf 0%nat))) as K1. pose proof (vec_height_max _ (proj2 (Hf 0%nat))) as K2.
    cbn [frame_at lookup list_lookup default from_option id] in K1, K2.
    specialize (IH (fun i => Hf (S i))). unfold frame_height at 1. lia. }
  assert (gcells_height (c_gcells c) <= length (c_gcells c) * S SLOT_HEIGHT)%nat.
  { revert H2. unfold gcells_height. generalize (c_gcells c). intros l.
    induction l as [|[b s] l IH]; intros Hl; cbn [sum_list_with length snd]; [lia|].
    pose proof (slot_height_max s (Hl b s ltac:(left))).
    specialize (IH (fun b' s' H => Hl b' s' (list_elem_of_further _ _ _ H))). lia. }
  cbn [vec] in *. rewrite !Nat.mul_add_distr_r. lia.
Qed.
