(* ===== verification/PredictSound.v ===== *)
(** * PredictSound: the consultation contract and the settling of predictions

    Operations on the table of predictions as a sequence of steps: whatever
    was delivered at a program point implies what the point predicts from
    then on, unless a [set] overwrites the prediction with something stronger;
    predictions only weaken otherwise; and the number of moves the joins report
    at a point is bounded by the heights of its first arrival and of what is
    set there. *)

From Stdlib Require Import Sorting.Sorted.
From S2P Require Import Prelude OpSem Facts Ctx SlotSound CtxSound CtxHeight Predict.

(** ** Equality up to provenance *)

Lemma slots_eqb_at (a b : list SlotCtx) (i : nat) : slots_eqb a b = true -> slot_equiv (slot_at a i) (slot_at b i).
Proof.
  intros H%bool_decide_eq_true. assert ((sans_prov <$> a) !! i = (sans_prov <$> b) !! i) as E by by rewrite H.
  rewrite !list_lookup_fmap in E. unfold slot_at, slot_equiv.
  destruct (a !! i), (b !! i); cbn in *; congruence.
Qed.

Lemma frames_eqb_at (a b : list CallerFrame) (i : nat) :
  frames_eqb a b = true ->
  slots_eqb (cf_locals (frame_at a i)) (cf_locals (frame_at b i)) = true /\
  slots_eqb (cf_args (frame_at a i)) (cf_args (frame_at b i)) = true.
Proof.
  revert b i. induction a as [|x a IH]; intros [|y b] i H; cbn in H; try done.
  apply andb_true_iff in H as [H1 H2]. destruct i as [|i]; [by apply andb_true_iff in H1|]. by apply (IH b i).
Qed.

Lemma gcells_eqb_in (a b : list (Z * SlotCtx)) (x : Z) (w : SlotCtx) :
  gcells_eqb a b = true -> (x, w) ∈ b -> exists w', (x, w') ∈ a /\ slot_equiv w' w.
Proof.
  intros H%bool_decide_eq_true Hin.
  assert ((x, sans_prov w) ∈ prod_map id sans_prov <$> a) as ([x' w'] & E & Ha)%list_elem_of_fmap.
  { rewrite H. apply list_elem_of_fmap. by exists (x, w). }
  unfold prod_map in E. cbn in E. apply pair_eq in E as [Ex E]. unfold id in Ex. subst x'. exists w'. split; [done|exact (eq_sym E)].
Qed.

Lemma ctx_eqb_facts (a b : Ctx) (k : Vec) (i : nat) : ctx_eqb a b = true -> slot_equiv (fact a k i) (fact b k i).
Proof.
  unfold ctx_eqb. rewrite !andb_true_iff. intros (((((((((H1 & H2) & H3) & H4) & H5) & H6) & _) & _) & _) & _).
  unfold fact. destruct k as [| | | | |j|j]; cbn [vec]; apply slots_eqb_at; try done; by apply frames_eqb_at.
Qed.

Lemma ctx_eqb_implies (x a b : Ctx) : ctx_eqb a b = true -> ctx_implies x a = true -> ctx_implies x b = true.
Proof.
  intros E (H1 & H2 & H3 & H4)%ctx_le_spec; [|done]. apply ctx_le_spec; [done|].
  assert (forall k i, slot_equiv (fact a k i) (fact b k i)) as Hf by (intros k i; by apply ctx_eqb_facts).
  unfold ctx_eqb in E. rewrite !andb_true_iff, !bool_decide_eq_true in E.
  destruct E as (((((((((_ & _) & _) & _) & _) & _) & Et) & _) & Eg) & Ek). split_and!; [congruence|congruence| |].
  - intros k i. erewrite <- slot_implies_proper; [apply (H3 k i)|reflexivity|apply Hf].
  - rewrite gcells_implies_spec in *. intros bid w Hin. destruct (gcells_eqb_in _ _ bid w Eg Hin) as (w' & Hin' & Ew).
    destruct (H4 bid w' Hin') as (s & Es & Hs). exists s. split; [done|].
    erewrite <- slot_implies_proper; [exact Hs|reflexivity|exact Ew].
Qed.

Lemma ctx_default_wf : ctx_wf ctx_default.
Proof.
  split.
  - intros k i. unfold fact. assert (vec ctx_default k = []) as -> by (by destruct k). apply TOP_wf.
  - split; [constructor| |]; intros b s H; by apply elem_of_nil in H.
Qed.

Lemma implies_default (c : Ctx) : ctx_wf c -> bare c -> ctx_implies c ctx_default = true.
Proof.
  intros [H1 H2] (B1 & B2 & B3). apply ctx_le_spec; [done|]. split_and!; [done|done| |].
  - intros k i. unfold fact at 2. assert (vec ctx_default k = []) as -> by (by destruct k). by apply slot_implies_TOP.
  - apply gcells_implies_spec. intros b w H. by apply elem_of_nil in H.
Qed.

(** ** Sequences of operations *)

Inductive PredOp :=
  | PO_Arrive (pc depth : Z) (ctx_in : Ctx)
  | PO_Back (pc : Z) (ctx_in : Ctx)
  | PO_Set (pc : Z) (ctx_in : Ctx)
  | PO_Carried (pc : Z) (track : Track) (arr : list Z)
  | PO_OrProv (pc : Z) (ctx_in : Ctx)
  | PO_WidenAll.

Definition pred_step (p : Predictions) (o : PredOp) : Predictions * bool :=
  match o with
  | PO_Arrive pc depth a => join_arrival p pc depth (facts_only a)
  | PO_Back pc a => (join_back p pc (facts_only a), false)
  | PO_Set pc a => (set_at p pc (facts_only a), false)
  | PO_Carried pc t arr => (fst (carried_join p pc t arr), false)
  | PO_OrProv pc a => (fst (or_prov p pc a), false)
  | PO_WidenAll => (widen_all p, false)
  end.

Definition pred_run (p : Predictions) (ops : list PredOp) : Predictions :=
  foldl (fun p o => fst (pred_step p o)) p ops.

Definition arrives_at (pc : Z) (o : PredOp) : bool := match o with PO_Arrive pc' _ _ => pc =? pc' | _ => false end.

(** An operation that overwrites the prediction of [pc]. *)
Definition sets_at (pc : Z) (o : PredOp) : bool := match o with PO_Set pc' _ => pc =? pc' | _ => false end.

(** What the caller of [set] intends: to widen the prediction it replaces. *)
Definition set_widens (pc : Z) (p : Predictions) (o : PredOp) : Prop :=
  match o with
  | PO_Set pc' a => pc = pc' -> forall c, p_at p !! pc = Some c -> ctx_implies c (facts_only a) = true
  | _ => True
  end.

Fixpoint sets_widen (pc : Z) (p : Predictions) (ops : list PredOp) : Prop :=
  match ops with
  | [] => True
  | o :: ops => set_widens pc p o /\ sets_widen pc (fst (pred_step p o)) ops
  end.

(** The facts an operation delivers to a point: an arrival's, or what is set. *)
Definition delivers (pc : Z) (a : Ctx) (o : PredOp) : Prop :=
  (exists d, o = PO_Arrive pc d a) \/ o = PO_Set pc a.

(** How often the arrivals at [pc] report a move. *)
Fixpoint moves (pc : Z) (p : Predictions) (ops : list PredOp) : nat :=
  match ops with
  | [] => 0
  | o :: ops =>
      let '(p', moved) := pred_step p o in
      ((if arrives_at pc o && moved then 1 else 0) + moves pc p' ops)%nat
  end.

Section Contract.
(** The interval a binding's fact carries: the one its analysis claim
    proves, the same wherever the binding is tracked. *)
Context (bind_iv : Z -> option ValueRange).

Definition bind_ok (c : Ctx) : Prop := forall b s, (b, s) ∈ c_gcells c -> sc_iv s = bind_iv b.

Record pred_ctx (c : Ctx) : Prop := {
  pc_wf : ctx_wf c;
  pc_bare : bare c;
  pc_bind : bind_ok c }.

Lemma pred_ctx_default : pred_ctx ctx_default.
Proof. split; [apply ctx_default_wf|done|]. intros b s H. by apply elem_of_nil in H. Qed.

Lemma vr_eqb_hull (r : ValueRange) : vr_eqb (hull r r) r = true.
Proof. unfold vr_eqb, hull. cbn. rewrite Z.min_id, Z.max_id, !Z.eqb_refl. done. Qed.

Lemma weaken_ok (cur arr : Ctx) :
  pred_ctx cur -> pred_ctx arr ->
  pred_ctx (weaken cur arr) /\ ctx_implies cur (weaken cur arr) = true /\ ctx_implies arr (weaken cur arr) = true.
Proof.
  intros [C1 C2 C3] [A1 A2 A3]. pose proof C2 as (B1 & B2 & B3). pose proof A2 as (D1 & D2 & D3).
  unfold weaken. destruct (ctx_implies_sans_iv arr cur) eqn:E.
  - destruct (ctx_join_iv_only_ub cur arr C1 A1) as [U1 U2]. split_and!; [|done|].
    + split; [by apply ctx_join_iv_only_wf|done|]. intros b s.
      change (c_gcells (ctx_join_iv_only cur arr)) with (gcells_canon (c_gcells cur)).
      rewrite gcells_canon_id by apply C1. apply C3.
    + apply U2; [done|]. apply ctx_le_spec in E as (_ & _ & _ & Hg); [|done].
      rewrite gcells_implies_spec in *. intros b w Hin. destruct (Hg b w Hin) as (s & Es & Hs). exists s.
      split; [done|]. apply slot_implies_spec. split; [done|].
      rewrite (C3 b w Hin), (A3 b s) by (by apply gcell_find_in). apply iv_implies_refl.
  - destruct (ctx_join_ub arr cur A1 C1) as [U1 U2]; [by rewrite B1, D1|by rewrite B3, D3|].
    split_and!; [|done|done]. split; [by apply ctx_join_wf|by split_and!|].
    intros b j (s & w & H1 & H2 & -> & _)%gcells_joined_elem; [|apply C1].
    destruct (slot_join_fields s w) as (_ & _ & _ & _ & _ & _ & _ & _ & _ & E').
    rewrite (A3 b s H1), (C3 b w H2) in E'. destruct (bind_iv b) as [r|]; cbn in E'.
    + rewrite vr_eqb_hull in E'. by injection E'.
    + by injection E'.
Qed.

(** ** Steps *)

Definition preds_ok (p : Predictions) : Prop := forall pc c, p_at p !! pc = Some c -> pred_ctx c.

(** What a step may do to the table. *)
Record at_step (p p' : Predictions) : Prop := {
  as_ok : preds_ok p';
  as_weaker : forall pc' c, p_at p !! pc' = Some c ->
    exists c', p_at p' !! pc' = Some c' /\ ctx_implies c c' = true }.

Lemma at_step_refl (p p' : Predictions) : preds_ok p -> p_at p' = p_at p -> at_step p p'.
Proof.
  intros Hp E. split.
  - intros pc' c. rewrite E. apply Hp.
  - intros pc' c Hc. exists c. rewrite E. split; [done|]. apply ctx_implies_refl. by eapply Hp.
Qed.

Lemma at_step_set (p : Predictions) (pc : Z) (c' : Ctx) :
  preds_ok p -> pred_ctx c' -> (forall c, p_at p !! pc = Some c -> ctx_implies c c' = true) ->
  at_step p (set_at p pc c').
Proof.
  intros Hp Hc H. split.
  - intros pc' c. cbn. rewrite lookup_insert_Some. intros [[_ <-]|[_ E]]; [done|by eapply Hp].
  - intros pc' c E. cbn. destruct (decide (pc' = pc)) as [->|Hne].
    + exists c'. rewrite lookup_insert_eq. split; [done|by apply H].
    + exists c. rewrite lookup_insert_ne by done. split; [done|]. apply ctx_implies_refl. by eapply Hp.
Qed.

Definition height_at (p : Predictions) (pc : Z) : option nat := ctx_height <$> p_at p !! pc.

(** The room left for moves at a point whose arrivals have height at most
    [H]. *)
Definition room (H : nat) (p : Predictions) (pc : Z) : nat :=
  match p_at p !! pc with Some c => ctx_height c | None => S H end.

Definition b2n (b : bool) : nat := if b then 1%nat else 0%nat.

Lemma join_at_spec (p : Predictions) (pc : Z) (arr : Ctx) (H : nat) :
  preds_ok p -> pred_ctx arr -> (ctx_height arr <= H)%nat ->
  let '(p', moved) := join_at p pc arr in
  at_step p p' /\ (exists c, p_at p' !! pc = Some c /\ ctx_implies arr c = true) /\
  (b2n moved + room H p' pc <= room H p pc)%nat /\ (forall pc', pc' <> pc -> p_at p' !! pc' = p_at p !! pc').
Proof.
  intros Hp Ha HH. unfold join_at. destruct (p_at p !! pc) as [cur|] eqn:E.
  - pose proof (Hp pc cur E) as Hc. destruct (ctx_implies arr cur) eqn:Ei.
    { split_and!; [by apply at_step_refl|by exists cur|cbn; lia|done]. }
    destruct (weaken_ok cur arr Hc Ha) as (W1 & W2 & W3). cbn zeta.
    destruct (ctx_eqb (weaken cur arr) cur) eqn:Eq.
    { exfalso. by rewrite (ctx_eqb_implies arr _ _ Eq W3) in Ei. }
    split_and!.
    + apply at_step_set; [done|done|]. intros c. rewrite E. by intros [= <-].
    + exists (weaken cur arr). split; [apply lookup_insert_eq|done].
    + unfold room. cbn. rewrite lookup_insert_eq, E. cbn.
      destruct (weaken_height cur arr) as [L1 L2]; [apply Hc|apply Ha|apply Hc|apply Ha|].
      destruct (decide (ctx_height (weaken cur arr) = ctx_height cur)) as [Eh|]; [by rewrite (L2 Eh) in Eq|lia].
    + intros pc' Hne. cbn. by rewrite lookup_insert_ne.
  - split_and!.
    + apply at_step_set; [done|done|]. intros c. by rewrite E.
    + exists arr. split; [apply lookup_insert_eq|]. apply ctx_implies_refl, Ha.
    + unfold room. cbn. rewrite lookup_insert_eq, E. cbn. lia.
    + intros pc' Hne. cbn. by rewrite lookup_insert_ne.
Qed.

Lemma vec_height_pos (l : list SlotCtx) : l <> [] -> (0 < vec_height l)%nat.
Proof. destruct l; [done|]. intros _. unfold vec_height. cbn. lia. Qed.

Lemma has_facts_height (c : Ctx) : has_facts c = true -> (0 < ctx_height c)%nat.
Proof.
  unfold has_facts, ctx_height. rewrite !orb_true_iff, !negb_true_iff, !bool_decide_eq_false.
  intros [[[[[H|H]|H]|H]|H]|H]; try (apply vec_height_pos in H; lia).
  destruct (c_gcells c); [done|]. unfold gcells_height. cbn. lia.
Qed.

Lemma join_arrival_spec (p : Predictions) (pc depth : Z) (arr : Ctx) (H : nat) :
  preds_ok p -> pred_ctx arr -> (ctx_height arr <= H)%nat ->
  let '(p', moved) := join_arrival p pc depth arr in
  at_step p p' /\ (exists c, p_at p' !! pc = Some c /\ ctx_implies arr c = true) /\
  (b2n moved + room H p' pc <= room H p pc)%nat /\ (forall pc', pc' <> pc -> p_at p' !! pc' = p_at p !! pc').
Proof.
  intros Hp Ha HH. unfold join_arrival. destruct (p_depth p !! pc) as [d|].
  - destruct (negb (d =? depth)); [|by apply join_at_spec]. cbn zeta. split_and!.
    + apply at_step_set; [done|apply pred_ctx_default|]. intros c Ec. apply implies_default; by eapply Hp.
    + exists ctx_default. split; [apply lookup_insert_eq|]. apply implies_default; apply Ha.
    + unfold room. cbn [p_at set_at]. rewrite lookup_insert_eq. change (ctx_height ctx_default) with 0%nat.
      destruct (p_at p !! pc) as [c|]; [|cbn; lia].
      destruct (has_facts c) eqn:Ef; cbn; [|lia]. apply has_facts_height in Ef. lia.
    + intros pc' Hne. cbn. by rewrite lookup_insert_ne.
  - set (q := mkPredictions _ _ _ _). pose proof (join_at_spec q pc arr H Hp Ha HH) as J.
    destruct (join_at q pc arr) as [p' moved]. destruct J as ([J1 J2] & J3 & J4 & J5).
    split_and!; [by split|done|exact J4|exact J5].
Qed.

(** *** Widening and provenance *)

Lemma facts_free_bare (c : Ctx) : bare c -> facts_free c = ctx_default.
Proof. intros (E1 & E2 & E3). unfold facts_free, ctx_default. by rewrite E1, E2, E3. Qed.

Lemma widen_all_step (p : Predictions) : preds_ok p -> at_step p (widen_all p).
Proof.
  intros Hp. split.
  - intros pc' c. cbn. rewrite lookup_fmap, fmap_Some. intros (c0 & E & ->).
    rewrite facts_free_bare by (by eapply Hp). apply pred_ctx_default.
  - intros pc' c E. exists (facts_free c). cbn. rewrite lookup_fmap, E. split; [done|].
    rewrite facts_free_bare by (by eapply Hp). apply implies_default; by eapply Hp.
Qed.

Lemma or_into_equiv (cur arr : list SlotCtx) : Forall2 slot_equiv cur (fst (or_into cur arr)).
Proof.
  revert arr. induction cur as [|c cur IH]; intros [|a arr]; cbn [or_into fst];
    [apply Forall2_nil_2|apply Forall2_nil_2|reflexivity|].
  specialize (IH arr). destruct (or_into cur arr). cbn in *. by constructor.
Qed.

Lemma frame_equiv_refl (l : list CallerFrame) : Forall2 frame_equiv l l.
Proof. induction l as [|x l IH]; constructor; [by split|done]. Qed.

Lemma vec_height_equiv (a b : list SlotCtx) : Forall2 slot_equiv a b -> vec_height a = vec_height b.
Proof.
  unfold vec_height. induction 1 as [|x y a b Hxy _ IH]; [done|]. cbn [sum_list_with]. rewrite IH. f_equal. f_equal.
  apply slot_equiv_fields in Hxy. unfold slot_height.
  by destruct Hxy as (-> & -> & -> & -> & -> & -> & -> & -> & -> & -> & ->).
Qed.

Lemma or_prov_equiv (p : Predictions) (pc : Z) (arr cur : Ctx) :
  p_at p !! pc = Some cur ->
  exists c, fst (or_prov p pc arr) = set_at p pc c /\ ctx_eqb cur c = true /\ ctx_height c = ctx_height cur /\
    (bare cur -> bare c) /\ c_gcells c = c_gcells cur.
Proof.
  intros E. unfold or_prov. rewrite E.
  pose proof (or_into_equiv (c_locals cur) (c_locals arr)) as F1.
  pose proof (or_into_equiv (c_stack cur) (c_stack arr)) as F2.
  pose proof (or_into_equiv (c_args cur) (c_args arr)) as F3.
  pose proof (or_into_equiv (c_caller_locals cur) (c_caller_locals arr)) as F4.
  pose proof (or_into_equiv (c_caller_args cur) (c_caller_args arr)) as F5.
  destruct (or_into (c_locals cur) _) as [l1 b1], (or_into (c_stack cur) _) as [l2 b2],
    (or_into (c_args cur) _) as [l3 b3], (or_into (c_caller_locals cur) _) as [l4 b4],
    (or_into (c_caller_args cur) _) as [l5 b5]. cbn [fst] in *.
  eexists. split_and!; [done| | |done|done].
  - unfold ctx_eqb. cbn. rewrite !Forall2_slots_eqb, Forall2_frames_eqb, Forall2_gcells_eqb, !bool_decide_true by
      first [done|apply gcell_equiv_refl|apply frame_equiv_refl]. done.
  - unfold ctx_height. cbn [c_locals c_stack c_args c_caller_locals c_caller_args c_outer c_gcells].
    by rewrite <- (vec_height_equiv _ _ F1), <- (vec_height_equiv _ _ F2),
      <- (vec_height_equiv _ _ F3), <- (vec_height_equiv _ _ F4), <- (vec_height_equiv _ _ F5).
Qed.

Lemma pred_ctx_eqb (cur c : Ctx) :
  pred_ctx cur -> ctx_eqb cur c = true -> bare c -> c_gcells c = c_gcells cur -> pred_ctx c.
Proof.
  intros [[W1 W2] B K] E Hb Hg. split; [|done|].
  - split; [|by rewrite Hg]. intros k i. apply (slot_wf_equiv (fact cur k i)); [|done]. by apply ctx_eqb_facts.
  - unfold bind_ok. by rewrite Hg.
Qed.

Lemma or_prov_spec (p : Predictions) (pc : Z) (arr : Ctx) (H : nat) :
  preds_ok p ->
  let p' := fst (or_prov p pc arr) in
  at_step p p' /\ (forall pc', room H p' pc' = room H p pc').
Proof.
  intros Hp. destruct (p_at p !! pc) as [cur|] eqn:E; cbn zeta.
  - destruct (or_prov_equiv p pc arr cur E) as (c & -> & Eq & Eh & Hb & Hg). pose proof (Hp pc cur E) as Hc.
    split.
    + apply at_step_set; [done|apply (pred_ctx_eqb cur); [done|done|apply Hb, Hc|done]|].
      intros c0. rewrite E. intros [= <-]. apply (ctx_eqb_implies cur cur); [done|]. apply ctx_implies_refl, Hc.
    + intros pc'. unfold room. cbn. destruct (decide (pc' = pc)) as [-> |Hne]; [by rewrite lookup_insert_eq, E|].
      by rewrite lookup_insert_ne.
  - assert (fst (or_prov p pc arr) = p) as -> by (unfold or_prov; by rewrite E). split; [by apply at_step_refl|done].
Qed.

(** The contexts delivered by a sequence are well formed and give a binding its
    one interval. *)
Definition op_ok (o : PredOp) : Prop :=
  match o with PO_Arrive _ _ a | PO_Set _ a => ctx_wf a /\ bind_ok a | _ => True end.

Lemma facts_only_ok (a : Ctx) : ctx_wf a /\ bind_ok a -> pred_ctx (facts_only a).
Proof.
  intros [[W1 W2] K]. split; [|done|exact K]. split; [|done]. intros k i. exact (W1 k i).
Qed.

(** The contexts delivered at [pc] have height at most [H]. *)
Definition op_height (H : nat) (pc : Z) (o : PredOp) : Prop :=
  match o with
  | PO_Arrive pc' _ a | PO_Set pc' a => pc = pc' -> (ctx_height (facts_only a) <= H)%nat
  | _ => True
  end.

(** One operation: predictions stay well formed, a point's prediction only
    weakens where no set strengthens it, what is delivered is covered
    afterwards, and the room at every point shrinks with each move reported
    there, except that a set makes new room. *)
Record op_step (p p' : Predictions) (moved : bool) (o : PredOp) : Prop := {
  os_ok : preds_ok p';
  os_weaker : forall pc c, set_widens pc p o -> p_at p !! pc = Some c ->
    exists c', p_at p' !! pc = Some c' /\ ctx_implies c c' = true;
  os_covers : forall pc a, delivers pc a o ->
    exists c, p_at p' !! pc = Some c /\ ctx_implies (facts_only a) c = true;
  os_room : forall H pc, op_height H pc o ->
    ((if arrives_at pc o && moved then 1 else 0) + room H p' pc
       <= room H p pc + (if sets_at pc o then H else 0))%nat }.

Lemma at_step_op (p p' : Predictions) (o : PredOp) :
  at_step p p' -> (forall pc a, ~ delivers pc a o) -> (forall pc, arrives_at pc o = false) ->
  (forall H pc, room H p' pc <= room H p pc)%nat -> op_step p p' false o.
Proof.
  intros [A1 A2] Hd Ha Hr. split; [done|by intros pc c _; apply A2|by intros pc a Ho%Hd|].
  intros H pc _. rewrite Ha. cbn. specialize (Hr H pc). lia.
Qed.

Lemma pred_step_spec (p : Predictions) (o : PredOp) :
  preds_ok p -> op_ok o -> op_step p (fst (pred_step p o)) (snd (pred_step p o)) o.
Proof.
  intros Hp Ho. destruct o as [pc d a|pc a|pc a|pc t l|pc a|]; cbn [pred_step fst snd].
  - assert (forall H, (ctx_height (facts_only a) <= H)%nat -> _) as J
      by exact (fun H HH => join_arrival_spec p pc d (facts_only a) H Hp (facts_only_ok a Ho) HH).
    destruct (join_arrival p pc d (facts_only a)) as [p' moved]. destruct (J _ (le_n _)) as ([J1 J1'] & J2 & _ & J4).
    cbn [fst snd]. split; [done|by intros pc' c _; apply J1'| |].
    + intros pc' a' [(d' & [= <- <- <-])|[=]]. done.
    + intros H pc' HH. cbn [arrives_at sets_at op_height] in *. rewrite Nat.add_0_r.
      destruct (Z.eqb_spec pc' pc) as [->|Hne]; cbn [andb]; [by apply J, HH|]. unfold room. by rewrite J4.
  - apply at_step_op; [by apply at_step_refl|by intros pc' a' [(d' & [=])|[=]]|done|done].
  - pose proof (facts_only_ok a Ho) as Ha. split.
    + intros pc' c. cbn. rewrite lookup_insert_Some. intros [[_ <-]|[_ E]]; [done|by eapply Hp].
    + intros pc' c Hw E. cbn. destruct (decide (pc' = pc)) as [->|Hne].
      * exists (facts_only a). rewrite lookup_insert_eq. split; [done|]. by apply Hw.
      * exists c. rewrite lookup_insert_ne by done. split; [done|]. apply ctx_implies_refl. by eapply Hp.
    + intros pc' a' [(d' & [=])|[= <- <-]]. exists (facts_only a). cbn. rewrite lookup_insert_eq.
      split; [done|]. apply ctx_implies_refl, Ha.
    + intros H pc' HH. cbn [arrives_at sets_at op_height andb] in *. unfold room. cbn.
      destruct (Z.eqb_spec pc' pc) as [->|Hne]; [|by rewrite lookup_insert_ne; [lia|done]].
      rewrite lookup_insert_eq. specialize (HH eq_refl). lia.
  - unfold carried_join. destruct (p_carried p !! (pc, t)); cbn [fst];
      (apply at_step_op; [by apply at_step_refl|by intros pc' a' [(d' & [=])|[=]]|done|done]).
  - apply at_step_op; [by apply (or_prov_spec p pc a 0%nat Hp)|by intros pc' a' [(d' & [=])|[=]]|done|].
    intros H pc'. by rewrite (proj2 (or_prov_spec p pc a H Hp)).
  - apply at_step_op; [by apply widen_all_step|by intros pc' a' [(d' & [=])|[=]]|done|].
    intros H pc'. unfold room. cbn [p_at widen_all].
    rewrite lookup_fmap. destruct (p_at p !! pc') as [c|] eqn:E; cbn [fmap option_fmap option_map]; [|lia].
    rewrite facts_free_bare by (by eapply Hp). change (ctx_height ctx_default) with 0%nat. lia.
Qed.

Lemma pred_run_weaker (ops : list PredOp) (p : Predictions) :
  preds_ok p -> Forall op_ok ops ->
  preds_ok (pred_run p ops) /\
  (forall pc c, sets_widen pc p ops -> p_at p !! pc = Some c ->
     exists c', p_at (pred_run p ops) !! pc = Some c' /\ ctx_implies c c' = true).
Proof.
  revert p. induction ops as [|o ops IH]; intros p Hp Hops.
  { split; [done|]. intros pc c _ E. exists c. split; [done|]. apply ctx_implies_refl. by eapply Hp. }
  apply list.Forall_cons in Hops as [Ho Hops]. cbn [pred_run foldl].
  pose proof (pred_step_spec p o Hp Ho) as [J1 J2 _ _]. destruct (IH _ J1 Hops) as [I1 I2]. split; [exact I1|].
  intros pc c [Hw Hws] E. destruct (J2 pc c Hw E) as (c1 & E1 & L1). destruct (I2 pc c1 Hws E1) as (c2 & E2 & L2).
  exists c2. split; [exact E2|]. apply (ctx_implies_trans c c1 c2); [by eapply Hp|by eapply J1|done|done].
Qed.

Lemma preds_ok_default : preds_ok predictions_default.
Proof. intros pc c. cbn. by rewrite lookup_empty. Qed.

(** Whatever was delivered at a program point implies what it predicts in the
    end, when every later set there widens the prediction it replaces. *)
Lemma pred_run_covers (pre post : list PredOp) (p : Predictions) (pc : Z) (o : PredOp) (a : Ctx) :
  preds_ok p -> Forall op_ok (pre ++ o :: post) -> delivers pc a o ->
  sets_widen pc (pred_run p (pre ++ [o])) post ->
  exists c, pred_at (pred_run p (pre ++ o :: post)) pc = Some c /\ ctx_implies (facts_only a) c = true.
Proof.
  intros Hp [H1 [H2 H3]%list.Forall_cons]%list.Forall_app Ho Hs. unfold pred_run in *. rewrite foldl_app in *.
  destruct (pred_run_weaker pre p Hp H1) as [Hp1 _]. unfold pred_run in Hp1. cbn [foldl] in *.
  set (q := foldl _ p pre) in *.
  pose proof (pred_step_spec q o Hp1 H2) as [J1 _ J2 _].
  destruct (J2 pc a Ho) as (c1 & E1 & L1).
  destruct (pred_run_weaker post _ J1 H3) as [_ W]. destruct (W pc c1 Hs E1) as (c2 & E2 & L2).
  exists c2. split; [exact E2|].
  apply (ctx_implies_trans (facts_only a) c1 c2); [|by eapply J1|done|done].
  apply facts_only_ok. destruct Ho as [(d & ->)| ->]; exact H2.
Qed.

Lemma moves_room (ops : list PredOp) (p : Predictions) (pc : Z) (H : nat) :
  preds_ok p -> Forall op_ok ops -> Forall (op_height H pc) ops ->
  (moves pc p ops <= room H p pc + H * length (List.filter (sets_at pc) ops))%nat.
Proof.
  revert p. induction ops as [|o ops IH]; intros p Hp Hops HH; [cbn; lia|].
  apply list.Forall_cons in Hops as [Ho Hops]. apply list.Forall_cons in HH as [HHo HH]. cbn [moves].
  pose proof (pred_step_spec p o Hp Ho) as [J1 _ _ J]. destruct (pred_step p o) as [p' moved].
  cbn [fst snd] in *. specialize (J H pc HHo). specialize (IH p' J1 Hops HH). cbn [List.filter].
  destruct (sets_at pc o); cbn [length]; lia.
Qed.
End Contract.
