(* ===== verification/Versions.v ===== *)
(** * Versions: version identities and the walk that discovers them

    [compiler/src/wasm/bbv/version.rs]: the version table, token classes and
    the tokens of an edge, [theta], the re-arming of versions whose prediction
    moved, the two on-ramps, and the drain of the workqueue; the rounds of
    [predict.rs] and the ladder of [mod.rs] around them. The lowering of one
    version is a parameter ([walk]): the sequence of the edges it asks for,
    with what the guard planner answers for each. Program points are [Z], as
    are the [u32] loop indices and the [u64] tokens; version ids and token
    classes are [nat]. *)

From S2P Require Import Prelude Mem OpSem Facts Ctx Predict.
#[local] Open Scope Z_scope.

(** ** Identities *)

Record Ver := mkVer { v_pc : Z; v_class : nat; v_track : Track; v_depth : Z }.

#[export] Instance Ver_eq_dec : EqDecision Ver.
Proof. solve_decision. Defined.

#[export] Instance Ver_countable : Countable Ver.
Proof.
  refine (inj_countable' (fun v => (v_pc v, v_class v, v_track v, v_depth v))
    (fun '(p, c, t, d) => mkVer p c t d) _). by intros [].
Defined.

Abbreviation VerId := nat (only parsing).
Abbreviation Tokens := (list (Z * Z)) (only parsing).

Record VerTable := mkVerTable {
  vt_ids : gmap Ver VerId;
  vt_vers : list Ver;
  vt_ctx : list (option Ctx);
  vt_pred : Predictions;
  vt_at_pc : gmap Z (list VerId) }.

Definition vertable_default : VerTable := mkVerTable ∅ [] [] predictions_default ∅.

(** [None]: the conversion of the length to [u32] panics. *)
Definition ver_intern (t : VerTable) (v : Ver) : option (VerTable * VerId) :=
  match vt_ids t !! v with
  | Some id => Some (t, id)
  | None =>
      let id := length (vt_vers t) in
      if Z.of_nat id <? 2 ^ 32 then
        Some (mkVerTable (<[v := id]> (vt_ids t)) (vt_vers t ++ [v]) (vt_ctx t ++ [None]) (vt_pred t)
                (<[v_pc v := default [] (vt_at_pc t !! v_pc v) ++ [id]]> (vt_at_pc t)), id)
      else None
  end.

Definition ver_of (t : VerTable) (id : VerId) : option Ver := vt_vers t !! id.
(** [ctx()]: a version whose context was not computed panics. *)
Definition ver_ctx (t : VerTable) (id : VerId) : option Ctx := mjoin (vt_ctx t !! id).

Definition with_pred (t : VerTable) (p : Predictions) : VerTable :=
  mkVerTable (vt_ids t) (vt_vers t) (vt_ctx t) p (vt_at_pc t).
Definition set_ctx (t : VerTable) (id : VerId) (c : Ctx) : VerTable :=
  mkVerTable (vt_ids t) (vt_vers t) (<[id := Some c]> (vt_ctx t)) (vt_pred t) (vt_at_pc t).

Definition strip_all (t : VerTable) : VerTable :=
  mkVerTable (vt_ids t) (vt_vers t) (option_map stripped <$> vt_ctx t) (widen_all (vt_pred t)) (vt_at_pc t).

(** ** Tokens *)

Definition TOK_PEEL : Z := 2 ^ 64 - 1 - 2.
Definition TOK_CYCLE : Z := 2 ^ 64 - 1 - 3.
Definition TOK_OPT : Z := 2 ^ 64 - 1 - 4.
Definition TOK_RECOVER : Z := 2 ^ 64 - 1 - 5.
Definition TOK_RECOVER_PEEL : Z := 2 ^ 64 - 1 - 6.

(** A spliced callee, in the pc space of the body, with the loops of its
    script in the script's own. *)
Record Splice := mkSplice { sg_base : Z; sg_end : Z; sg_call_pc : Z; sg_loops : list (Z * Z) }.

Definition seg_loops (s : Splice) : list (Z * Z) := (fun '(h, e) => (sg_base s + h, sg_base s + e)) <$> sg_loops s.

(** [position]. *)
Fixpoint position {A} (f : A -> bool) (l : list A) : option nat :=
  match l with
  | [] => None
  | x :: l => if f x then Some 0%nat else S <$> position f l
  end.

Definition seg_of (segs : list Splice) (pc : Z) : option nat :=
  position (fun s => (sg_base s <=? pc) && (pc <? sg_end s)) segs.

(** The call sites around [pc], innermost first; the site of a splice lies
    before its base, so a step per splice is enough fuel. *)
Fixpoint sites_loop (fuel : nat) (segs : list Splice) (cur : option nat) : list Z :=
  match fuel, cur ≫= (fun i => segs !! i) with
  | S fuel, Some s => sg_call_pc s :: sites_loop fuel segs (seg_of segs (sg_call_pc s))
  | _, _ => []
  end.

Definition seg_sites (fanout_off : bool) (segs : list Splice) (pc : Z) : list Z :=
  if fanout_off then [] else sites_loop (length segs) segs (seg_of segs pc).

Definition in_loop (pc : Z) (sites : list Z) (h e : Z) : bool :=
  ((h <=? pc) && (pc <? e)) || existsb (fun s => (h <=? s) && (s <? e)) sites.

Definition tok_find (toks : Tokens) (idx : Z) : option Z := snd <$> List.find (fun x => fst x =? idx) toks.
Definition has_tok (toks : Tokens) (idx t : Z) : bool := existsb (fun x => (fst x =? idx) && (snd x =? t)) toks.
Definition cycle_tok (t : Z) : bool := t =? TOK_CYCLE.

(** What an edge reads of the emission point: its pc and track, and the tokens
    and track of the version under emission. *)
Record Here := mkHere { h_pc : Z; h_track : Track; h_tokens : Tokens; h_ver_track : Track }.

Section Tokens.
Context (fanout_off : bool) (loops : list (Z * Z)) (segs : list Splice) (w : Here) (succ : Z).

Let succ_site := seg_sites fanout_off segs succ.
Let cur_site := seg_sites fanout_off segs (h_pc w).
Let peel := negb (bool_decide (h_track w = T_Opt)).

(** The token of loop [idx], if the edge carries one. *)
Definition out_token (idx h e : Z) : option Z :=
  if negb (in_loop succ succ_site (h + 1) e) then
    if (succ =? h) && bool_decide (h_track w = T_Opt) && in_loop (h_pc w) cur_site h e
       && has_tok (h_tokens w) idx TOK_RECOVER
    then Some TOK_RECOVER else None
  else Some (
    if negb (in_loop (h_pc w) cur_site h e) then TOK_PEEL
    else if h_pc w =? h then
      if negb (bool_decide (h_ver_track w = T_Opt)) then TOK_CYCLE
      else if has_tok (h_tokens w) idx TOK_RECOVER then TOK_RECOVER
      else TOK_OPT
    else
      match tok_find (h_tokens w) idx with
      | Some t =>
          if peel && ((t =? TOK_RECOVER) || (t =? TOK_RECOVER_PEEL)) then TOK_RECOVER_PEEL
          else if peel && negb (cycle_tok t) then TOK_PEEL
          else t
      | None => if peel then TOK_PEEL else TOK_OPT
      end).

Definition out_tokens_for (gen_only : bool) : Tokens :=
  if gen_only then []
  else omap (fun '(i, (h, e)) => pair (Z.of_nat i) <$> out_token (Z.of_nat i) h e) (imap pair loops).
End Tokens.

Definition edge_track (loops : list (Z * Z)) (w : Here) (succ : Z) : Track :=
  match h_track w with
  | T_Opt =>
      match position (fun l => fst l =? succ) loops with
      | None => T_Opt
      | Some li => if has_tok (h_tokens w) (Z.of_nat li) TOK_CYCLE then T_Dirty else T_Opt
      end
  | t => t
  end.

(** ** The walk's state *)

Inductive EmitMode := EM_Code | EM_ContextOnly.

#[export] Instance EmitMode_eq_dec : EqDecision EmitMode.
Proof. solve_decision. Defined.

(** What a walk does not change: the mode, the rung, whether contexts are
    being stripped, whether the splices are frozen; the instruments, and
    whether [debug_assert!] is compiled in. *)
Record Config := mkConfig {
  cf_mode : EmitMode;
  cf_gen_only : bool;
  cf_fanout_off : bool;
  cf_stripping : bool;
  cf_frozen : bool;
  cf_census : bool;
  cf_peel : bool;
  cf_debug : bool;
  cf_bytecode_len : Z }.

Record Bbv := mkBbv {
  b_vers : VerTable;
  b_classes : gmap Tokens nat;
  b_loops : list (Z * Z);
  b_segs : list Splice;
  b_blocks : gset VerId;
  b_processed : gset VerId;
  b_queue : list VerId;
  b_changed : bool;
  b_prov_changed : bool;
  b_overflow : bool }.

(** The values a walk has counted, and what the last walk of each version
    spent; only the drain reads them. *)
Record Budget := mkBudget { bg_values : Z; bg_spent : gmap VerId Z }.

Definition with_vers (b : Bbv) (t : VerTable) : Bbv :=
  mkBbv t (b_classes b) (b_loops b) (b_segs b) (b_blocks b) (b_processed b) (b_queue b) (b_changed b)
    (b_prov_changed b) (b_overflow b).
Definition with_classes (b : Bbv) (c : gmap Tokens nat) : Bbv :=
  mkBbv (b_vers b) c (b_loops b) (b_segs b) (b_blocks b) (b_processed b) (b_queue b) (b_changed b)
    (b_prov_changed b) (b_overflow b).
Definition with_splices (b : Bbv) (loops : list (Z * Z)) (segs : list Splice) : Bbv :=
  mkBbv (b_vers b) (b_classes b) loops segs (b_blocks b) (b_processed b) (b_queue b) (b_changed b)
    (b_prov_changed b) (b_overflow b).
Definition with_queue (b : Bbv) (blocks processed : gset VerId) (queue : list VerId) : Bbv :=
  mkBbv (b_vers b) (b_classes b) (b_loops b) (b_segs b) blocks processed queue (b_changed b)
    (b_prov_changed b) (b_overflow b).
Definition with_flags (b : Bbv) (changed prov overflow : bool) : Bbv :=
  mkBbv (b_vers b) (b_classes b) (b_loops b) (b_segs b) (b_blocks b) (b_processed b) (b_queue b) changed
    prov overflow.
Definition note_changed (b : Bbv) : Bbv := with_flags b true (b_prov_changed b) (b_overflow b).
Definition note_overflow (b : Bbv) : Bbv := with_flags b (b_changed b) (b_prov_changed b) true.

Section Walk.
Context (cf : Config).

Definition tok_class (b : Bbv) (toks : Tokens) : option (Bbv * nat) :=
  match b_classes b !! toks with
  | Some c => Some (b, c)
  | None =>
      let c := size (b_classes b) in
      if Z.of_nat c <? 2 ^ 32 then Some (with_classes b (<[toks := c]> (b_classes b)), c) else None
  end.

Definition key_depth (b : Bbv) (n : nat) : Bbv * Z :=
  if Z.of_nat n <? 2 ^ 16 then (b, Z.of_nat n) else (note_overflow b, 2 ^ 16 - 1).

Definition rearm (b : Bbv) (v : VerId) : Bbv :=
  if bool_decide (cf_mode cf = EM_ContextOnly) && bool_decide (v ∈ b_blocks b) && bool_decide (v ∈ b_processed b)
  then with_queue b (b_blocks b) (b_processed b ∖ {[v]}) (v :: b_queue b)
  else b.

(** The emission context of an identity. *)
Definition emission (facts : Ctx) (toks : Tokens) (carried : list Z) (t : Track) : Ctx :=
  ctx_canon (mkCtx (c_locals facts) (c_stack facts) (c_args facts) (c_caller_locals facts) (c_caller_args facts)
    (c_outer facts) toks carried (c_gcells facts) t).

Definition refresh (facts : Ctx) (b : Bbv) (v : VerId) : Bbv :=
  match ver_ctx (b_vers b) v with
  | None => b
  | Some cur =>
      if negb (bool_decide (c_track cur = T_Opt)) then b
      else
        let want := emission facts (c_tokens cur) (c_carried cur) (c_track cur) in
        let b := if ctx_eqb cur want then b else with_vers b (set_ctx (b_vers b) v want) in
        rearm b v
  end.

Definition rearm_pc (b : Bbv) (pc : Z) : Bbv :=
  if bool_decide (cf_mode cf = EM_ContextOnly) then
    match vt_at_pc (b_vers b) !! pc with
    | None => b
    | Some vs => fold_left (refresh (default ctx_default (pred_at (vt_pred (b_vers b)) pc))) vs b
    end
  else b.

Definition with_pred_b (b : Bbv) (p : Predictions) : Bbv := with_vers b (with_pred (b_vers b) p).

(** The context an arrival is keyed and joined with. *)
Definition theta_ctx (c : Ctx) : Ctx :=
  let c := if cf_gen_only cf then gen_collapsed c else if cf_stripping cf then stripped c else c in
  let c :=
    match c_track c with
    | T_Side => mkCtx (c_locals c) (c_stack c) (c_args c) (c_caller_locals c) (c_caller_args c) (c_outer c)
                  (c_tokens c) (c_carried c) (c_gcells c) T_Dirty
    | _ => c
    end in
  match c_track c with T_Dirty => facts_free c | _ => c end.

(** The prediction step. *)
Definition theta_join (b : Bbv) (pc cur_pc depth : Z) (c : Ctx) : Bbv :=
  if bool_decide (c_track c = T_Opt) && bool_decide (cf_mode cf = EM_ContextOnly) then
    let p := vt_pred (b_vers b) in
    let back := existsb (fun '(h, e) => (pc =? h) && (h <=? cur_pc) && (cur_pc <? e)) (b_loops b) in
    let p := if cf_peel cf && back then join_back p pc (facts_only c) else p in
    let '(p, moved) := join_arrival p pc depth (facts_only c) in
    let b := with_pred_b b p in
    if moved : bool then rearm_pc (note_changed b) pc else b
  else b.

(** The derivation of the identity's emission context. *)
Definition theta_emit (b : Bbv) (pc : Z) (v : VerId) (c : Ctx) : res Bbv :=
  let facts :=
    if bool_decide (c_track c = T_Opt) then default ctx_default (pred_at (vt_pred (b_vers b)) pc) else ctx_default in
  let '(p, (carried, grew)) := carried_join (vt_pred (b_vers b)) pc (c_track c) (c_carried c) in
  let b := with_pred_b b p in
  let b := if grew : bool then rearm_pc (note_changed b) pc else b in
  let want := emission facts (c_tokens c) carried (c_track c) in
  if negb (match ver_ctx (b_vers b) v with Some cur => ctx_eqb cur want | None => false end) then
    if cf_debug cf && bool_decide (cf_mode cf = EM_Code) then Panic PAssert
    else Ok (rearm (note_changed (with_vers b (set_ctx (b_vers b) v want))) v)
  else if cf_debug cf && bool_decide (cf_mode cf = EM_Code) && bool_decide (c_track c = T_Opt)
          && negb (match pred_at (vt_pred (b_vers b)) pc with Some p => ctx_implies (facts_only c) p | None => false end)
  then Panic PAssert
  else Ok b.

Definition theta (b : Bbv) (pc cur_pc : Z) (stack_len : nat) (ctx_in : Ctx) : res (Bbv * VerId) :=
  let c := theta_ctx ctx_in in
  match tok_class b (c_tokens c) with
  | None => Panic PIdSpace
  | Some (b, class) =>
      let '(b, depth) := key_depth b stack_len in
      match ver_intern (b_vers b) (mkVer pc class (c_track c) depth) with
      | None => Panic PIdSpace
      | Some (t, v) =>
          let b := theta_join (with_vers b t) pc cur_pc depth c in
          b ← theta_emit b pc v c;
          if cf_census cf && bool_decide (c_track c = T_Opt) then
            let '(p, moved) := or_prov (vt_pred (b_vers b)) pc c in
            Ok (with_flags (with_pred_b b p) (b_changed b) (b_prov_changed b || moved) (b_overflow b), v)
          else Ok (b, v)
      end
  end.

(** [ensure_version_block]: only the queue is read back. *)
Definition ensure_block (b : Bbv) (v : VerId) : res Bbv :=
  if bool_decide (v ∈ b_blocks b) then Ok b
  else
    match ver_ctx (b_vers b) v with
    | None => Panic PUnwrap
    | Some _ => Ok (with_queue b ({[v]} ∪ b_blocks b) (b_processed b) (v :: b_queue b))
    end.

(** ** The continuation seam *)

(** What the guard planner answers for a proof of [opt_ctx]: a decline, or
    the number of guards and the intervals the edge would deliver. *)
Abbreviation Plan := (Ctx -> option (nat * Ctx)).

(** One continuation of the version under emission. *)
Record Cont := mkCont {
  ct_cur_pc : Z;
  ct_track : Track;
  ct_succ : Z;
  ct_facts : Ctx;
  ct_stack : nat;
  ct_ssa_seg : option nat;
  ct_ret_pc : option Z;
  ct_plan : Plan }.

(** The walk of a version, as what it asks the table for. *)
Inductive Move :=
  | M_Cont (c : Cont)
  | M_Resume (c : Cont)
  | M_Splice (s : Splice)
  | M_Done (spent : Z)
  | M_Refuse.

Definition arrival_ctx (b : Bbv) (w : Here) (succ : Z) (facts : Ctx) (t : Track) : Ctx :=
  ctx_canon (mkCtx (c_locals facts) (c_stack facts) (c_args facts) (c_caller_locals facts) (c_caller_args facts)
    (c_outer facts) (out_tokens_for (cf_fanout_off cf) (b_loops b) (b_segs b) w succ (cf_gen_only cf))
    (c_carried facts) (c_gcells facts) t).

Definition cont_normal (b : Bbv) (w : Here) (c : Cont) : res (Bbv * VerId) :=
  '(b, v) ← theta b (ct_succ c) (h_pc w) (ct_stack c)
    (arrival_ctx b w (ct_succ c) (ct_facts c) (edge_track (b_loops b) w (ct_succ c)));
  b ← ensure_block b v;
  Ok (b, v).

Definition resume (b : Bbv) (w : Here) (c : Cont) : res (Bbv * VerId) :=
  '(b, v) ← theta b (ct_succ c) (h_pc w) (ct_stack c) (arrival_ctx b w (ct_succ c) (ct_facts c) (h_track w));
  b ← ensure_block b v;
  Ok (b, v).

(** The Opt version at [pc] with these tokens, its context seeded from the
    prediction: [None] when the closed map does not have it. *)
Definition seed_opt (b : Bbv) (pc : Z) (class : nat) (depth : Z) (opt_ctx : Ctx) : res (Bbv * option VerId) :=
  match ver_intern (b_vers b) (mkVer pc class T_Opt depth) with
  | None => Panic PIdSpace
  | Some (t, v) =>
      let b := with_vers b t in
      if negb (match ver_ctx t v with Some cur => ctx_eqb cur opt_ctx | None => false end) then
        match cf_mode cf with
        | EM_Code => Ok (b, None)
        | EM_ContextOnly => Ok (note_changed (with_vers b (set_ctx t v opt_ctx)), Some v)
        end
      else Ok (b, Some v)
  end.

(** The proof at the pre-header or the funnel, against the version [v] at the
    header [h]: the planned guards, and the intervals they deliver. *)
Definition enter_onramp (b : Bbv) (c : Cont) (h : Z) (funnel : bool) (v : VerId) (opt_ctx : Ctx) : res (Bbv * option VerId) :=
  if negb (bool_decide (seg_of (b_segs b) h = ct_ssa_seg c)) then Ok (b, None)
  else
    match ct_plan c opt_ctx with
    | None => Ok (b, None)
    | Some (_, arr) =>
        if cf_stripping cf then b ← ensure_block b v; Ok (b, Some v)
        else
          match ver_ctx (b_vers b) v with
          | None => Panic PUnwrap
          | Some cur =>
              let j := ctx_join_iv_only cur arr in
              if ctx_eqb j cur then b ← ensure_block b v; Ok (b, Some v)
              else if negb funnel then Ok (b, None)
              else
                match cf_mode cf with
                | EM_Code => Ok (b, None)
                | EM_ContextOnly =>
                    let b := with_pred_b b (set_at (vt_pred (b_vers b)) h (facts_only j)) in
                    b ← ensure_block (rearm_pc (note_changed b) h) v;
                    Ok (b, Some v)
                end
          end
    end.

Definition try_onramp (b : Bbv) (w : Here) (c : Cont) : res (Bbv * option VerId) :=
  match List.find (fun l => fst l =? ct_succ c) (b_loops b) with
  | None => Ok (b, None)
  | Some (h, e) =>
      if cf_gen_only cf || bool_decide (h_track w = T_Opt) || (h_pc w =? h) then Ok (b, None)
      else
        let funnel := in_loop (h_pc w) (seg_sites (cf_fanout_off cf) (b_segs b) (h_pc w)) h e in
        match position (fun l => bool_decide (l = (h, e))) (b_loops b) with
        | None => Ok (b, None)
        | Some lidx =>
            if funnel && negb (bool_decide (tok_find (h_tokens w) (Z.of_nat lidx) = Some TOK_PEEL)) then Ok (b, None)
            else if negb (Z.of_nat (ct_stack c) <? 2 ^ 16) then Ok (b, None)
            else
              let depth := Z.of_nat (ct_stack c) in
              let toks_out := out_tokens_for (cf_fanout_off cf) (b_loops b) (b_segs b) w h (cf_gen_only cf) in
              if negb (forallb (fun x => snd x =? TOK_CYCLE) toks_out) then Ok (b, None)
              else
                match tok_class b toks_out with
                | None => Panic PIdSpace
                | Some (b, class) =>
                    match pred_at (vt_pred (b_vers b)) h, pred_carried (vt_pred (b_vers b)) h T_Opt with
                    | Some facts, Some hcarried =>
                        let opt_ctx := emission facts toks_out hcarried T_Opt in
                        '(b, ov) ← seed_opt b h class depth opt_ctx;
                        match ov with
                        | None => Ok (b, None)
                        | Some v => enter_onramp b c h funnel v opt_ctx
                        end
                    | _, _ => Ok (b, None)
                    end
                end
        end
  end.

Definition RET_ONRAMP_BYTES_PER_GUARD : Z := 8.

Definition ret_onramp_admits (b : Bbv) (succ : Z) (gaps : nat) : bool :=
  if bool_decide (gaps = 0%nat) then true
  else
    let seg_end :=
      match seg_of (b_segs b) succ ≫= (fun i => b_segs b !! i) with Some s => sg_end s | None => cf_bytecode_len cf end in
    let ends := omap (fun '(h, e) => if (h <=? succ) && (succ <? e) then Some e else None) (b_loops b) in
    let stop := match ends with [] => seg_end | e :: es => fold_left Z.min es e end in
    Z.of_nat gaps <=? Z.max 0 (stop - succ) / RET_ONRAMP_BYTES_PER_GUARD.

Definition try_call_return_onramp (b : Bbv) (w : Here) (c : Cont) : res (Bbv * option VerId) :=
  if cf_gen_only cf || negb (bool_decide (ct_ret_pc c = Some (ct_succ c))) then Ok (b, None)
  else if cf_debug cf && negb (bool_decide (h_track w = T_Dirty)) then Panic PAssert
  else
    let w := mkHere (h_pc w) (h_ver_track w) (h_tokens w) (h_ver_track w) in
    let toks := out_tokens_for (cf_fanout_off cf) (b_loops b) (b_segs b) w (ct_succ c) (cf_gen_only cf) in
    if negb (bool_decide (edge_track (b_loops b) w (ct_succ c) = T_Opt)) then Ok (b, None)
    else if negb (Z.of_nat (ct_stack c) <? 2 ^ 16) then Ok (b, None)
    else if negb (bool_decide (seg_of (b_segs b) (ct_succ c) = ct_ssa_seg c)) then Ok (b, None)
    else
      match pred_at (vt_pred (b_vers b)) (ct_succ c), pred_carried (vt_pred (b_vers b)) (ct_succ c) T_Opt with
      | Some facts, Some hcarried =>
          let opt_ctx := emission facts toks hcarried T_Opt in
          if negb (forallb is_top_sans_iv (c_caller_locals opt_ctx)) || negb (forallb is_top_sans_iv (c_caller_args opt_ctx))
          then Ok (b, None)
          else
            match tok_class b toks with
            | None => Panic PIdSpace
            | Some (b, class) =>
                '(b, ov) ← seed_opt b (ct_succ c) class (Z.of_nat (ct_stack c)) opt_ctx;
                match ov with
                | None => Ok (b, None)
                | Some v =>
                    match ct_plan c opt_ctx with
                    | None => Ok (b, None)
                    | Some (gaps, _) =>
                        if negb (ret_onramp_admits b (ct_succ c) gaps) then Ok (b, None)
                        else b ← ensure_block b v; Ok (b, Some v)
                    end
                end
            end
      | _, _ => Ok (b, None)
      end.

(** The version the edge bails to, and the one a proof enters first. *)
Definition cont (b : Bbv) (w : Here) (c : Cont) : res (Bbv * (VerId * option VerId)) :=
  '(b, normal) ← cont_normal b w c;
  '(b, r) ← try_onramp b w c;
  match r with
  | Some v => Ok (b, (normal, Some v))
  | None => '(b, r) ← try_call_return_onramp b w c; Ok (b, (normal, r))
  end.

(** ** The drain *)

(** What the walk is told of each move. *)
Abbreviation Reply := (option (VerId * option VerId)) (only parsing).

(** The lowering: the next move of a walk, of a version or ([None]) of the
    prologue, from the table, the splices and the replies so far. *)
Context (walk : option VerId -> VerTable -> list Splice -> list Reply -> Move).

Definition MAX_BODY_VALUES : Z := 400000.

Inductive Verdict := VD_Drained | VD_Overflowed | VD_Refused.

Fixpoint run_moves (fuel : nat) (who : option VerId) (toks : Tokens) (vt : Track) (replies : list Reply) (b : Bbv)
    : res (Bbv * option Z) :=
  match walk who (b_vers b) (b_segs b) replies with
  | M_Done spent => Ok (b, Some spent)
  | M_Refuse => Ok (b, None)
  | M_Cont c =>
      match fuel with
      | O => OutOfFuel
      | S fuel =>
          '(b, r) ← cont b (mkHere (ct_cur_pc c) (ct_track c) toks vt) c;
          run_moves fuel who toks vt (replies ++ [Some r]) b
      end
  | M_Resume c =>
      match fuel with
      | O => OutOfFuel
      | S fuel =>
          '(b, v) ← resume b (mkHere (ct_cur_pc c) (ct_track c) toks vt) c;
          run_moves fuel who toks vt (replies ++ [Some (v, None)]) b
      end
  | M_Splice s =>
      match fuel with
      | O => OutOfFuel
      | S fuel =>
          if cf_frozen cf then run_moves fuel who toks vt (replies ++ [None]) b
          else
            run_moves fuel who toks vt (replies ++ [None])
              (with_splices b (b_loops b ++ seg_loops s) (b_segs b ++ [s]))
      end
  end.

(** [run_version]: a re-armed version gives back what its last walk spent. *)
Definition run_version (fuel : nat) (key : VerId) (b : Bbv) (bg : Budget) : res (Bbv * option Budget) :=
  let base :=
    if bool_decide (cf_mode cf = EM_ContextOnly) then bg_values bg - default 0 (bg_spent bg !! key) else bg_values bg in
  match ver_of (b_vers b) key, ver_ctx (b_vers b) key with
  | Some ver, Some ctx =>
      '(b, r) ← run_moves fuel (Some key) (c_tokens ctx) (v_track ver) [] b;
      Ok (b, option_map (fun spent => mkBudget (base + spent)
                (if bool_decide (cf_mode cf = EM_ContextOnly) then <[key := spent]> (bg_spent bg) else bg_spent bg)) r)
  | _, _ => Panic PSlice
  end.

Fixpoint drain (fuel : nat) (b : Bbv) (bg : Budget) : res (Bbv * Budget * Verdict) :=
  match b_queue b with
  | [] => Ok (b, bg, VD_Drained)
  | key :: queue =>
      match fuel with
      | O => OutOfFuel
      | S fuel =>
          if bool_decide (key ∈ b_processed b) then drain fuel (with_queue b (b_blocks b) (b_processed b) queue) bg
          else
            let b := with_queue b (b_blocks b) ({[key]} ∪ b_processed b) queue in
            if MAX_BODY_VALUES <? bg_values bg then Ok (b, bg, VD_Overflowed)
            else
              '(b, r) ← run_version fuel key b bg;
              match r with
              | None => Ok (b, bg, VD_Refused)
              | Some bg => if b_overflow b then Ok (b, bg, VD_Refused) else drain fuel b bg
              end
      end
  end.

(** [emit]: the prologue's edges, then the queue. *)
Definition emit (fuel : nat) (b : Bbv) : res (Bbv * Budget * Verdict) :=
  '(b, r) ← run_moves fuel None [] T_Opt [] b;
  match r with
  | None => Ok (b, mkBudget 0 ∅, VD_Refused)
  | Some spent => drain fuel b (mkBudget spent ∅)
  end.
End Walk.
