(* ===== verification/VersionRounds.v ===== *)
(** * VersionRounds: the prediction rounds and the closure ladder

    [predict.rs]'s [run] walks the program until a walk moves nothing, strips
    every context once the rounds overrun a cap, and [mod.rs] walks once more
    to emit, checks that the emitting walk moved nothing, and retries or steps
    down to a weaker rung when it did. *)

From S2P Require Import Prelude Mem OpSem Facts Ctx Predict Versions.
#[local] Open Scope Z_scope.

Definition CTXONLY_MAX_ROUNDS : Z := 48.
Definition STRIP_MAX_ROUNDS : Z := 4.
Definition CLOSURE_MAX_TRIES : Z := 3.

(** What is carried from walk to walk. *)
Record State := mkState {
  st_vers : VerTable;
  st_classes : gmap (list (Z * Z)) nat;
  st_splices : option (list Splice);
  st_stripping : bool;
  st_rounds : Z;
  st_prov_rounds : Z }.

Definition state_default : State := mkState vertable_default ∅ None false 0 0.

Definition rounds_cap (t : VerTable) : Z :=
  let len := Z.of_nat (length (vt_vers t)) in
  Z.max CTXONLY_MAX_ROUNDS ((if len <? 2 ^ 32 then len else 2 ^ 32 - 1) / 4).

(** The script, the instruments and the build. *)
Record Body := mkBody {
  bd_root_loops : list (Z * Z);
  bd_bytecode_len : Z;
  bd_census : bool;
  bd_peel : bool;
  bd_debug : bool }.

Record Rung := mkRung { rg_fanout_off : bool; rg_gen_only : bool }.

Section Rounds.
Context (bd : Body) (walk : Config -> option nat -> VerTable -> list Splice -> list (option (nat * option nat)) -> Move).

Definition config_of (mode : EmitMode) (rg : Rung) (st : State) : Config :=
  mkConfig mode (rg_gen_only rg) (rg_fanout_off rg) (st_stripping st) (bool_decide (is_Some (st_splices st)))
    (bd_census bd) (bd_peel bd) (bd_debug bd) (bd_bytecode_len bd).

(** [Bbv::new], with the table and the splices of the last walk. *)
Definition bbv_new (st : State) : Bbv :=
  let segs := default [] (st_splices st) in
  mkBbv (st_vers st) (st_classes st) (bd_root_loops bd ++ mjoin (seg_loops <$> segs)) segs ∅ ∅ [] false false false.

Definition after_walk (b : Bbv) (st : State) : State :=
  mkState (b_vers b) (b_classes b) (Some (b_segs b)) (st_stripping st) (st_rounds st) (st_prov_rounds st).

(** What follows a walk: [None] ends the rounds. *)
Definition next_round (prov_changed changed : bool) (st : State) : State * bool :=
  if negb changed then
    if bd_census bd && prov_changed && (st_prov_rounds st <? 32) then
      (mkState (st_vers st) (st_classes st) (st_splices st) (st_stripping st) (st_rounds st) (st_prov_rounds st + 1), true)
    else (st, false)
  else
    let st := mkState (st_vers st) (st_classes st) (st_splices st) (st_stripping st) (st_rounds st + 1) (st_prov_rounds st) in
    let cap := rounds_cap (st_vers st) in
    if (cap <=? st_rounds st) && negb (st_stripping st) then
      (mkState (strip_all (st_vers st)) (st_classes st) (st_splices st) true (st_rounds st) (st_prov_rounds st), true)
    else (st, negb (cap + STRIP_MAX_ROUNDS <=? st_rounds st)).

(** [predict::run]: [None] for a refusal. *)
Fixpoint predict_run (rounds fuel : nat) (rg : Rung) (st : State) : res (option State) :=
  match rounds with
  | O => OutOfFuel
  | S rounds =>
      let cf := config_of EM_ContextOnly rg st in
      '(b, bg, verdict) ← emit cf (walk cf) fuel (bbv_new st);
      match verdict with
      | VD_Refused => Ok None
      | _ =>
          let '(st, again) := next_round (b_prov_changed b) (b_changed b) (after_walk b st) in
          if again : bool then predict_run rounds fuel rg st else Ok (Some st)
      end
  end.

(** One rung: the prediction, then the emitting walk and its closure check. *)
Inductive Closure :=
  | CL_Skipped
  | CL_Descend
  | CL_Body (b : Bbv) (bg : Budget) (v : Verdict).

Fixpoint close (tries rounds fuel : nat) (closure_tries : Z) (rg : Rung) (st : State) : res Closure :=
  match tries with
  | O => OutOfFuel
  | S tries =>
      r ← predict_run rounds fuel rg st;
      match r with
      | None => Ok CL_Skipped
      | Some st =>
          let cf := config_of EM_Code rg st in
          '(b, bg, verdict) ← emit cf (walk cf) fuel (bbv_new st);
          if b_changed b && negb (rg_gen_only rg) then
            if CLOSURE_MAX_TRIES <=? closure_tries then Ok CL_Descend
            else
              let closure_tries := closure_tries + 1 in
              let st := after_walk b st in
              let st :=
                if closure_tries =? CLOSURE_MAX_TRIES
                then mkState (strip_all (st_vers st)) (st_classes st) (st_splices st) true (st_rounds st) (st_prov_rounds st)
                else st in
              close tries rounds fuel closure_tries rg st
          else Ok (CL_Body b bg verdict)
      end
  end.

(** The versions the fanout dimensions account for. *)
Definition fanout_versions (b : Bbv) : nat :=
  length (List.filter (fun v =>
    match ver_ctx (b_vers b) v, ver_of (b_vers b) v with
    | Some c, Some ver =>
        negb (bool_decide (c_caller_locals c = [])) || negb (bool_decide (c_caller_args c = []))
        || ((bd_bytecode_len bd <=? v_pc ver) && negb (bool_decide (c_tokens c = [])))
    | _, _ => false
    end) (elements (b_blocks b))).

Definition rungs (generator : bool) : list Rung :=
  if generator then [mkRung true true] else [mkRung false false; mkRung true false; mkRung true true].

Inductive Outcome := OC_Skipped | OC_Exhausted | OC_Body (rg : Rung) (b : Bbv).

Fixpoint ladder (tries rounds fuel : nat) (skip_fanout : bool) (rgs : list Rung) : res Outcome :=
  match rgs with
  | [] => Ok OC_Exhausted
  | rg :: rgs =>
      if rg_fanout_off rg && negb (rg_gen_only rg) && skip_fanout then ladder tries rounds fuel skip_fanout rgs
      else
        c ← close tries rounds fuel 0 rg state_default;
        match c with
        | CL_Skipped => Ok OC_Skipped
        | CL_Descend => ladder tries rounds fuel skip_fanout rgs
        | CL_Body _ _ VD_Refused => Ok OC_Skipped
        | CL_Body b bg _ =>
            if MAX_BODY_VALUES <? bg_values bg then
              if rg_gen_only rg then Ok OC_Skipped
              else
                let skip_fanout :=
                  if rg_fanout_off rg then skip_fanout
                  else bool_decide (fanout_versions b = 0%nat) || (MAX_BODY_VALUES * 3 / 2 <? bg_values bg) in
                ladder tries rounds fuel skip_fanout rgs
            else Ok (OC_Body rg b)
        end
  end.

Definition translate_script (tries rounds fuel : nat) (generator : bool) : res Outcome :=
  ladder tries rounds fuel false (rungs generator).
End Rounds.
