(* ===== verification/VersionTable.v ===== *)
(** * VersionTable: what a step does to the version table

    The interner is a bijection with a context slot per identity; a re-arm of
    a program point refreshes exactly the optimised identities there. *)

From S2P Require Import Prelude Mem OpSem Facts Ctx SlotSound CtxSound CtxHeight Predict PredictSound Versions.

(** ** Equality of contexts *)

Lemma slots_eqb_refl (l : list SlotCtx) : slots_eqb l l = true.
Proof. by apply bool_decide_eq_true. Qed.

Lemma frames_eqb_refl (l : list CallerFrame) : frames_eqb l l = true.
Proof. induction l as [|f l IH]; [done|]. cbn. unfold frame_eqb. by rewrite !slots_eqb_refl, IH. Qed.

Lemma ctx_eqb_refl (c : Ctx) : ctx_eqb c c = true.
Proof.
  unfold ctx_eqb, gcells_eqb. rewrite !slots_eqb_refl, frames_eqb_refl. cbn. by rewrite !bool_decide_true.
Qed.

Lemma ctx_eqb_fields (a b : Ctx) :
  ctx_eqb a b = true -> c_tokens a = c_tokens b /\ c_carried a = c_carried b /\ c_track a = c_track b /\
  frames_eqb (c_outer a) (c_outer b) = true.
Proof. unfold ctx_eqb. rewrite !andb_true_iff, !bool_decide_eq_true. tauto. Qed.

Lemma frames_eqb_nil (l : list CallerFrame) : frames_eqb l [] = true -> l = [].
Proof. by destruct l. Qed.

(** ** Canonical outer frames *)

Lemma trim_idemp (l : list SlotCtx) : trim (trim l) = trim l.
Proof.
  assert (forall l, list.last l <> None -> (forall s, list.last l = Some s -> ~ slot_equiv s TOP) -> trim l = l) as Hid.
  { clear l. intros l Hne Hlast. destruct (trim_split l) as (tops & E & Ht). destruct tops as [|t tops] using rev_ind.
    - by rewrite app_nil_r in E.
    - exfalso. assert (list.last l = Some t) as El by (rewrite E, app_assoc; apply last_snoc).
      apply (Hlast t El). apply list.Forall_app in Ht as [_ Ht]. by apply list.Forall_cons in Ht as [Ht _]. }
  destruct (trim l) as [|x k] eqn:E; [done|]. rewrite <- E. apply Hid; [|apply trim_last].
  rewrite E, <- head_reverse. destruct (reverse (x :: k)) eqn:Er; [|done].
  apply (f_equal length) in Er. by rewrite length_reverse in Er.
Qed.

Lemma frame_canon_idemp (f : CallerFrame) : frame_canon (frame_canon f) = frame_canon f.
Proof. unfold frame_canon. cbn. by rewrite !trim_idemp. Qed.

Definition outer_canon (l : list CallerFrame) : Prop := trim_frames (frame_canon <$> l) = l.

Lemma trim_frames_canon (l : list CallerFrame) : outer_canon (trim_frames (frame_canon <$> l)).
Proof.
  unfold outer_canon. induction l as [|f l IH]; [done|]. cbn [fmap list_fmap trim_frames].
  change (list_fmap _ _ frame_canon l) with (frame_canon <$> l).
  destruct (trim_frames (frame_canon <$> l)) as [|g k] eqn:E.
  - destruct (frame_is_empty (frame_canon f)) eqn:Ee; [done|]. cbn. by rewrite frame_canon_idemp, Ee.
  - cbn [fmap list_fmap trim_frames] in *. rewrite IH. by rewrite frame_canon_idemp.
Qed.

(** ** The interner *)

Record ids_ok (t : VerTable) : Prop := {
  io_ids : forall v i, vt_ids t !! v = Some i <-> vt_vers t !! i = Some v;
  io_len : length (vt_ctx t) = length (vt_vers t);
  io_small : (Z.of_nat (length (vt_vers t)) <= 2 ^ 32)%Z;
  io_at : forall i v, vt_vers t !! i = Some v -> i ∈ default [] (vt_at_pc t !! v_pc v);
  io_at' : forall pc i, i ∈ default [] (vt_at_pc t !! pc) -> exists v, vt_vers t !! i = Some v /\ v_pc v = pc }.

Lemma vertable_default_ids : ids_ok vertable_default.
Proof.
  split; cbn; try done.
  intros pc i. rewrite lookup_empty. cbn. intros H. by apply elem_of_nil in H.
Qed.

Lemma ver_ctx_lt (t : VerTable) (i : nat) (c : Ctx) : ids_ok t -> ver_ctx t i = Some c -> (i < length (vt_vers t))%nat.
Proof.
  intros Ht. unfold ver_ctx. intros H. rewrite <- (io_len _ Ht). apply lookup_lt_is_Some. destruct (vt_ctx t !! i) as [o|]; [by exists o|done].
Qed.

(** A new identity has no context, an old one is found again. *)
Lemma ver_intern_spec (t t' : VerTable) (v : Ver) (i : nat) :
  ids_ok t -> ver_intern t v = Some (t', i) ->
  ids_ok t' /\ vt_vers t' !! i = Some v /\ vt_pred t' = vt_pred t /\
  (forall j, ver_ctx t' j = ver_ctx t j) /\ (forall j w, vt_vers t !! j = Some w -> vt_vers t' !! j = Some w) /\
  (forall j w, vt_vers t' !! j = Some w -> vt_vers t !! j = Some w \/ (j = i /\ w = v /\ ver_ctx t j = None)) /\
  (is_Some (ver_ctx t' i) -> t' = t).
Proof.
  intros Ht. unfold ver_intern. destruct (vt_ids t !! v) as [k|] eqn:E.
  { intros [= <- <-]. apply (io_ids _ Ht) in E. split_and!; auto. }
  destruct (Z.ltb_spec (Z.of_nat (length (vt_vers t))) (2 ^ 32)) as [Hlt|]; [|done]. intros [= <- <-]. set (n := length (vt_vers t)).
  assert (vt_ctx t !! n = None) as Ec by (apply lookup_ge_None; rewrite (io_len _ Ht); done).
  assert (forall j, mjoin ((vt_ctx t ++ [None]) !! j) = mjoin (vt_ctx t !! j)) as Hc.
  { intros j. destruct (decide (j < n)%nat); [rewrite lookup_app_l by (rewrite (io_len _ Ht); lia); done|].
    rewrite lookup_app_r by (rewrite (io_len _ Ht); lia). rewrite (proj2 (lookup_ge_None (vt_ctx t) j)) by (rewrite (io_len _ Ht); lia).
    by destruct (_ - _)%nat as [|[|]]. }
  assert (forall j w, (vt_vers t ++ [v]) !! j = Some w <-> vt_vers t !! j = Some w \/ (j = n /\ w = v)) as Hv.
  { intros j w. rewrite lookup_app_Some, list_lookup_singleton_Some. fold n. split.
    - intros [H|(H1 & H2 & <-)]; [by left|right; split; [lia|done]].
    - intros [H|[-> ->]]; [by left|right]. split; [lia|]. split; [lia|done]. }
  split_and!.
  - split; cbn.
    + intros w j. rewrite Hv. destruct (decide (v = w)) as [<-|Hne].
      * rewrite lookup_insert_eq. split; [intros [= <-]; by right|]. intros [H|[-> _]]; [|done]. apply (io_ids _ Ht) in H. congruence.
      * rewrite lookup_insert_ne by done. rewrite (io_ids _ Ht). split; [by left|]. intros [H|[_ ->]]; done.
    + rewrite !length_app, (io_len _ Ht). done.
    + rewrite length_app. cbn [length]. lia.
    + intros j w. rewrite Hv. intros [H|[-> ->]]; [|rewrite lookup_insert_eq; cbn; set_solver]. apply (io_at _ Ht) in H.
      destruct (decide (v_pc v = v_pc w)) as [E'|Hne]; [rewrite E', lookup_insert_eq; cbn; set_solver|by rewrite lookup_insert_ne].
    + intros pc j. destruct (decide (v_pc v = pc)) as [<-|Hne].
      * rewrite lookup_insert_eq. cbn. intros [H| ->%list_elem_of_singleton]%elem_of_app; [|exists v; split; [by apply Hv; right|done]].
        destruct (io_at' _ Ht _ _ H) as (w & H1 & H2). exists w. split; [apply Hv; by left|done].
      * rewrite lookup_insert_ne by done. intros H. destruct (io_at' _ Ht _ _ H) as (w & H1 & H2). exists w. split; [apply Hv; by left|done].
  - cbn. apply Hv. by right.
  - done.
  - exact Hc.
  - intros j w H. cbn. apply Hv. by left.
  - intros j w H. cbn in H. apply Hv in H as [H|[-> ->]]; [by left|right]. unfold ver_ctx. by rewrite Ec.
  - unfold ver_ctx. cbn. rewrite Hc, Ec. intros [? H]. done.
Qed.

Lemma set_ctx_ids (t : VerTable) (i : nat) (c : Ctx) : ids_ok t -> ids_ok (set_ctx t i c).
Proof. intros [H1 H2 H3 H4 H5]. split; cbn; auto. by rewrite length_insert. Qed.

Lemma ver_ctx_set (t : VerTable) (i j : nat) (c : Ctx) :
  ids_ok t -> (i < length (vt_vers t))%nat -> ver_ctx (set_ctx t i c) j = if decide (i = j) then Some c else ver_ctx t j.
Proof.
  intros Ht Hi. unfold ver_ctx, set_ctx. cbn. destruct (decide (i = j)) as [<-|Hne].
  - rewrite list_lookup_insert_eq by (by rewrite (io_len _ Ht)). done.
  - by rewrite list_lookup_insert_ne.
Qed.

Lemma with_pred_ids (t : VerTable) (p : Predictions) : ids_ok t -> ids_ok (with_pred t p).
Proof. intros [H1 H2 H3 H4 H5]. by split. Qed.

Lemma strip_all_ids (t : VerTable) : ids_ok t -> ids_ok (strip_all t).
Proof. intros [H1 H2 H3 H4 H5]. split; cbn; auto. by rewrite length_fmap. Qed.

Lemma ver_ctx_strip (t : VerTable) (i : nat) : ver_ctx (strip_all t) i = stripped <$> ver_ctx t i.
Proof. unfold ver_ctx, strip_all. cbn. rewrite list_lookup_fmap. by destruct (vt_ctx t !! i). Qed.

(** ** Refreshing a program point *)

(** A walk state with another queue. *)
Definition requeued (b b' : Bbv) : Prop :=
  b_classes b' = b_classes b /\ b_loops b' = b_loops b /\ b_segs b' = b_segs b /\ b_blocks b' = b_blocks b /\
  b_changed b' = b_changed b /\ b_prov_changed b' = b_prov_changed b /\ b_overflow b' = b_overflow b /\
  b_processed b' ⊆ b_processed b /\ (forall x, x ∈ b_queue b' -> x ∈ b_queue b \/ x ∈ b_blocks b) /\
  (forall x, x ∈ b_processed b -> x ∉ b_processed b' -> x ∈ b_queue b') /\ (forall x, x ∈ b_queue b -> x ∈ b_queue b').

Lemma requeued_refl (b : Bbv) : requeued b b.
Proof. split_and!; try done. intros x H. by left. Qed.

Lemma requeued_trans (a b c : Bbv) : requeued a b -> requeued b c -> requeued a c.
Proof.
  intros (A1 & A2 & A3 & A4 & A5 & A6 & A7 & A8 & A9 & A10 & A11) (B1 & B2 & B3 & B4 & B5 & B6 & B7 & B8 & B9 & B10 & B11).
  split_and!; try congruence; [by etrans| | |auto].
  - intros x Hx. rewrite A4 in B9. destruct (B9 x Hx); auto.
  - intros x H1 H2. destruct (decide (x ∈ b_processed b)); auto.
Qed.

Lemma rearm_same (cf : Config) (b : Bbv) (v : nat) : requeued b (rearm cf b v) /\ b_vers (rearm cf b v) = b_vers b.
Proof.
  unfold rearm. destruct (_ && _) eqn:E; [|split; [apply requeued_refl|done]].
  apply andb_true_iff in E as [[_ Hb%bool_decide_eq_true]%andb_true_iff _]. split; [|done]. unfold requeued. cbn. split_and!; try done.
  - set_solver.
  - intros x [->|H]%elem_of_cons; [by right|by left].
  - intros x H1 H2. apply elem_of_cons. left. destruct (decide (x = v)) as [|Hne]; [done|]. destruct H2.
    apply elem_of_difference. split; [done|]. by rewrite elem_of_singleton.
  - intros x H. apply elem_of_cons. by right.
Qed.

(** The context a refresh leaves. *)
Definition refreshed (facts cur : Ctx) : Ctx :=
  if bool_decide (c_track cur = T_Opt) then
    let want := emission facts (c_tokens cur) (c_carried cur) (c_track cur) in
    if ctx_eqb cur want then cur else want
  else cur.

Lemma refreshed_fields (facts c : Ctx) :
  c_tokens (refreshed facts c) = c_tokens c /\ c_carried (refreshed facts c) = c_carried c /\ c_track (refreshed facts c) = c_track c.
Proof. unfold refreshed. case_bool_decide; [|done]. cbn zeta. by destruct (ctx_eqb c _). Qed.

Lemma refreshed_idemp (facts c : Ctx) : refreshed facts (refreshed facts c) = refreshed facts c.
Proof.
  pose proof (refreshed_fields facts c) as (E1 & E2 & E3). unfold refreshed at 1. rewrite E1, E2, E3. case_bool_decide as H; [|done].
  cbn zeta. unfold refreshed. rewrite bool_decide_true by done. cbn zeta.
  destruct (ctx_eqb c _) eqn:E; [by rewrite E|by rewrite ctx_eqb_refl].
Qed.

Lemma refreshed_eqb (facts c : Ctx) :
  c_track c = T_Opt -> ctx_eqb (refreshed facts c) (emission facts (c_tokens c) (c_carried c) T_Opt) = true.
Proof.
  intros H. unfold refreshed. rewrite bool_decide_true, H by done. cbn zeta. destruct (ctx_eqb c _) eqn:E; [done|apply ctx_eqb_refl].
Qed.

Section Refresh.
Context (cf : Config).

Lemma refresh_spec (facts : Ctx) (b : Bbv) (v : nat) :
  ids_ok (b_vers b) ->
  let b' := refresh cf facts b v in
  requeued b b' /\ ids_ok (b_vers b') /\ vt_vers (b_vers b') = vt_vers (b_vers b) /\ vt_pred (b_vers b') = vt_pred (b_vers b) /\
  (forall i, ver_ctx (b_vers b') i = if decide (v = i) then refreshed facts <$> ver_ctx (b_vers b) i else ver_ctx (b_vers b) i).
Proof.
  intros Hb. unfold refresh, refreshed. destruct (ver_ctx (b_vers b) v) as [cur|] eqn:E.
  2:{ split_and!; try done; [apply requeued_refl|]. intros i. by destruct (decide (v = i)) as [<-|]; [rewrite E|]. }
  destruct (bool_decide (c_track cur = T_Opt)) eqn:Et; cbn [negb].
  2:{ split_and!; try done; [apply requeued_refl|]. intros i. destruct (decide (v = i)) as [<-|]; [|done]. rewrite E. cbn. by rewrite Et. }
  cbn zeta. destruct (ctx_eqb cur _) eqn:Eq.
  - destruct (rearm_same cf b v) as [H1 H2]. rewrite H2. split_and!; try done. intros i. destruct (decide (v = i)) as [<-|]; [|done].
    rewrite E. cbn. by rewrite Et, Eq.
  - match goal with |- context [rearm cf ?b1 v] => set (b1' := b1); destruct (rearm_same cf b1' v) as [H1 H2] end. rewrite H2.
    split_and!; [exact (requeued_trans b b1' _ (requeued_refl b) H1)|by apply set_ctx_ids|done|done|].
    intros i. subst b1'. cbn [b_vers with_vers]. rewrite ver_ctx_set by (done || by eapply ver_ctx_lt).
    destruct (decide (v = i)) as [<-|]; [|done]. rewrite E. cbn. by rewrite Et, Eq.
Qed.

Lemma refresh_all_spec (facts : Ctx) (vs : list nat) (b : Bbv) :
  ids_ok (b_vers b) ->
  let b' := fold_left (refresh cf facts) vs b in
  requeued b b' /\ ids_ok (b_vers b') /\ vt_vers (b_vers b') = vt_vers (b_vers b) /\ vt_pred (b_vers b') = vt_pred (b_vers b) /\
  (forall i, ver_ctx (b_vers b') i = if decide (i ∈ vs) then refreshed facts <$> ver_ctx (b_vers b) i else ver_ctx (b_vers b) i).
Proof.
  revert b. induction vs as [|v vs IH]; intros b Hb; cbn [fold_left].
  - split_and!; try done. apply requeued_refl.
  - destruct (refresh_spec facts b v Hb) as (R1 & R2 & R3 & R4 & R5). destruct (IH _ R2) as (I1 & I2 & I3 & I4 & I5).
    split_and!; [by eapply requeued_trans|done|congruence|congruence|]. intros i. rewrite I5, R5.
    destruct (decide (v = i)) as [->|Hne].
    + rewrite (decide_True (P := i ∈ i :: vs)) by left. destruct (decide (i ∈ vs)); [|done].
      destruct (ver_ctx (b_vers b) i); [|done]. cbn. by rewrite refreshed_idemp.
    + destruct (decide (i ∈ vs)) as [Hi|Hi]; [by rewrite decide_True by (by right)|].
      rewrite decide_False; [done|]. intros [->|]%elem_of_cons; done.
Qed.

Lemma rearm_pc_spec (b : Bbv) (pc : Z) :
  cf_mode cf = EM_ContextOnly -> ids_ok (b_vers b) ->
  let b' := rearm_pc cf b pc in
  let facts := default ctx_default (pred_at (vt_pred (b_vers b)) pc) in
  requeued b b' /\ ids_ok (b_vers b') /\ vt_vers (b_vers b') = vt_vers (b_vers b) /\ vt_pred (b_vers b') = vt_pred (b_vers b) /\
  (forall i v, vt_vers (b_vers b) !! i = Some v ->
    ver_ctx (b_vers b') i = if decide (v_pc v = pc) then refreshed facts <$> ver_ctx (b_vers b) i else ver_ctx (b_vers b) i).
Proof.
  intros Hm Hb. unfold rearm_pc. rewrite bool_decide_true by done. cbn zeta.
  assert (forall i v, vt_vers (b_vers b) !! i = Some v -> (i ∈ default [] (vt_at_pc (b_vers b) !! pc) <-> v_pc v = pc)) as Hat.
  { intros i v E. split; [|intros <-; by apply io_at]. intros H. destruct (io_at' _ Hb _ _ H) as (w & Ew & <-). congruence. }
  destruct (vt_at_pc (b_vers b) !! pc) as [vs|] eqn:Ea; cbn [default] in Hat.
  - destruct (refresh_all_spec (default ctx_default (pred_at (vt_pred (b_vers b)) pc)) vs b Hb) as (R1 & R2 & R3 & R4 & R5).
    split_and!; try done. intros i v E. rewrite R5. specialize (Hat i v E). cbn in Hat. destruct (decide (i ∈ vs)), (decide (v_pc v = pc)); tauto.
  - split_and!; try done; [apply requeued_refl|]. intros i v E. specialize (Hat i v E). cbn in Hat.
    rewrite decide_False; [done|]. intros H. apply Hat in H. by apply elem_of_nil in H.
Qed.
End Refresh.
