(* ===== verification/VersionInv.v ===== *)
(** * VersionInv: the invariant of the version table

    Token classes are numbered apart; a version's context carries its own
    class and track; an optimised version's context has the outer frames of
    the prediction at its program point, unless that was wiped. Every step of
    a walk, in either mode, keeps it. *)

From S2P Require Import Prelude Mem OpSem Facts Ctx SlotSound CtxSound CtxHeight Predict PredictSound Versions VersionTable.

Section Inv.
Context (bind_iv : Z -> option ValueRange).

Record table_ok (classes : gmap (list (Z * Z)) nat) (t : VerTable) : Prop := {
  to_ids : ids_ok t;
  to_class : forall toks c, classes !! toks = Some c -> (c < size classes)%nat;
  to_inj : forall a b c, classes !! a = Some c -> classes !! b = Some c -> a = b;
  to_vclass : forall i v, vt_vers t !! i = Some v -> (v_class v < size classes)%nat;
  to_ctx : forall i v c, vt_vers t !! i = Some v -> ver_ctx t i = Some c ->
    classes !! c_tokens c = Some (v_class v) /\ c_track c = v_track v /\ is_Some (p_carried (vt_pred t) !! (v_pc v, v_track v));
  to_wf : forall i c, ver_ctx t i = Some c -> ctx_wf c /\ bind_ok bind_iv c;
  to_outer : forall i v c p, vt_vers t !! i = Some v -> v_track v = T_Opt -> ver_ctx t i = Some c ->
    p_at (vt_pred t) !! v_pc v = Some p -> frames_eqb (c_outer c) (c_outer p) = true \/ p = ctx_default;
  to_depth : forall pc, is_Some (p_at (vt_pred t) !! pc) <-> is_Some (p_depth (vt_pred t) !! pc);
  to_pred : forall pc p, p_at (vt_pred t) !! pc = Some p -> pred_ctx bind_iv p /\ outer_canon (c_outer p) }.

Definition inv (b : Bbv) : Prop := table_ok (b_classes b) (b_vers b).

Lemma table_ok_preds (cl : gmap (list (Z * Z)) nat) (t : VerTable) : table_ok cl t -> preds_ok bind_iv (vt_pred t).
Proof. intros H pc c E. by destruct (to_pred _ _ H pc c E). Qed.

Lemma table_ok_default : table_ok ∅ vertable_default.
Proof.
  assert (forall i, ver_ctx vertable_default i = None) as Hn by by destruct i.
  split; [apply vertable_default_ids|..].
  - intros toks c H. by rewrite lookup_empty in H.
  - intros a b c H. by rewrite lookup_empty in H.
  - by intros [] v H.
  - intros [] v c H; done.
  - intros i c. by rewrite Hn.
  - intros [] v c p H; done.
  - intros pc. cbn. by rewrite !lookup_empty.
  - intros pc p H. cbn in H. by rewrite lookup_empty in H.
Qed.

(** ** Token classes *)

Lemma tok_class_spec (b b' : Bbv) (toks : list (Z * Z)) (c : nat) :
  inv b -> tok_class b toks = Some (b', c) ->
  inv b' /\ b_classes b' !! toks = Some c /\ b' = with_classes b (b_classes b') /\ b_classes b ⊆ b_classes b' /\
  (b' = b \/ (b_classes b !! toks = None /\ forall i v, vt_vers (b_vers b) !! i = Some v -> v_class v <> c)).
Proof.
  intros Hb. unfold tok_class. destruct (b_classes b !! toks) as [k|] eqn:E.
  { intros [= <- <-]. split_and!; [done|done|by destruct b|done|by left]. }
  destruct (_ <? _); [|done]. intros [= <- <-]. cbn. split_and!; [|apply lookup_insert_eq|done|by apply insert_subseteq|].
  - pose proof Hb as [H0 H1 H2 H3 H4 Hwf H5 H6 H7]. split; try done; cbn.
    + intros t c. rewrite map_size_insert_None by done. destruct (decide (toks = t)) as [<-|Hne].
      * rewrite lookup_insert_eq. intros [= <-]. lia.
      * rewrite lookup_insert_ne by done. intros H%H1. lia.
    + intros s t c. destruct (decide (toks = s)) as [<-|Hs], (decide (toks = t)) as [<-|Ht]; rewrite ?lookup_insert_eq, ?lookup_insert_ne by done.
      * done.
      * intros [= <-] H%H1. lia.
      * intros H%H1 [= <-]. lia.
      * apply H2.
    + intros i v H%H3. rewrite map_size_insert_None by done. lia.
    + intros i v c Hi Hc. destruct (H4 i v c Hi Hc) as (K1 & K2 & K3). split_and!; [|done|done].
      rewrite lookup_insert_ne; [done|]. intros ->. congruence.
  - right. split; [done|]. intros i v Hi%(to_vclass _ _ Hb). lia.
Qed.

(** ** Identities *)

Lemma ver_intern_ok (cl : gmap (list (Z * Z)) nat) (t t' : VerTable) (v : Ver) (i : nat) :
  table_ok cl t -> (v_class v < size cl)%nat -> ver_intern t v = Some (t', i) ->
  table_ok cl t' /\ vt_vers t' !! i = Some v /\ vt_pred t' = vt_pred t /\ (forall j, ver_ctx t' j = ver_ctx t j) /\
  (forall j w, vt_vers t !! j = Some w -> vt_vers t' !! j = Some w) /\ (is_Some (ver_ctx t' i) -> t' = t).
Proof.
  intros Ht Hv E. pose proof Ht as [H0 H1 H2 H3 H4 Hwf H5 H6 H7].
  destruct (ver_intern_spec t t' v i H0 E) as (I1 & I2 & I3 & I4 & I5 & I6 & I7). split_and!; try done.
  split; rewrite ?I3; try done.
  - intros j w Hj. destruct (I6 j w Hj) as [H|(-> & -> & _)]; [by apply (H3 j)|done].
  - intros j w c Hj. rewrite I4. intros Hc. destruct (I6 j w Hj) as [H|(-> & -> & Hn)]; [by apply (H4 j)|congruence].
  - intros j c. rewrite I4. apply Hwf.
  - intros j w c p Hj Ho. rewrite I4. intros Hc. destruct (I6 j w Hj) as [H|(-> & -> & Hn)]; [by apply (H5 j)|congruence].
Qed.

(** ** Contexts *)

Lemma emission_outer (facts : Ctx) (toks : list (Z * Z)) (car : list Z) (t : Track) :
  c_outer (emission facts toks car t) = trim_frames (frame_canon <$> c_outer facts).
Proof. done. Qed.

Lemma ctx_canon_wf (c : Ctx) : ctx_wf c -> ctx_wf (ctx_canon c) /\ c_gcells (ctx_canon c) = c_gcells c.
Proof.
  intros [W1 W2]. assert (c_gcells (ctx_canon c) = c_gcells c) as E by by apply gcells_canon_id. split; [|done].
  split; [|by rewrite E]. intros k i. apply (slot_wf_equiv (fact c k i)); [symmetry; apply fact_canon|done].
Qed.

Lemma emission_wf (facts : Ctx) (toks : list (Z * Z)) (car : list Z) (t : Track) :
  ctx_wf facts -> bind_ok bind_iv facts -> ctx_wf (emission facts toks car t) /\ bind_ok bind_iv (emission facts toks car t).
Proof.
  intros [W1 W2] K. unfold emission. set (c := mkCtx _ _ _ _ _ _ _ _ _ _).
  assert (ctx_wf c) as Hc by (split; [intros k i; exact (W1 k i)|done]).
  destruct (ctx_canon_wf c Hc) as [H1 H2]. split; [done|]. unfold bind_ok. by rewrite H2.
Qed.

Lemma facts_wf (t : VerTable) (o : bool) (pc : Z) :
  (forall p, p_at (vt_pred t) !! pc = Some p -> pred_ctx bind_iv p) ->
  let facts := if o then default ctx_default (pred_at (vt_pred t) pc) else ctx_default in ctx_wf facts /\ bind_ok bind_iv facts.
Proof.
  intros H. pose proof (pred_ctx_default bind_iv) as [D1 _ D3]. destruct o; [|done]. unfold pred_at.
  destruct (p_at (vt_pred t) !! pc) as [p|]; [|done]. destruct (H p eq_refl) as [P1 _ P3]. done.
Qed.

Lemma refreshed_wf (facts c : Ctx) :
  ctx_wf facts -> bind_ok bind_iv facts -> ctx_wf c -> bind_ok bind_iv c -> ctx_wf (refreshed facts c) /\ bind_ok bind_iv (refreshed facts c).
Proof.
  intros F1 F2 C1 C2. unfold refreshed. destruct (bool_decide _); [|done]. cbn zeta. destruct (ctx_eqb c _); [done|]. by apply emission_wf.
Qed.

(** Storing the emission context of an identity. *)
Lemma set_ctx_ok (cl : gmap (list (Z * Z)) nat) (t : VerTable) (i : nat) (v : Ver) (toks : list (Z * Z)) (car : list Z) :
  table_ok cl t -> vt_vers t !! i = Some v -> cl !! toks = Some (v_class v) -> is_Some (p_carried (vt_pred t) !! (v_pc v, v_track v)) ->
  let facts := if bool_decide (v_track v = T_Opt) then default ctx_default (pred_at (vt_pred t) (v_pc v)) else ctx_default in
  table_ok cl (set_ctx t i (emission facts toks car (v_track v))).
Proof.
  intros Ht Hv Hc Hp facts. pose proof Ht as [H0 H1 H2 H3 H4 Hwf H5 H6 H7].
  assert (i < length (vt_vers t))%nat as Hi by by eapply lookup_lt_Some.
  split; cbn; try done; [by apply set_ctx_ids| | |].
  - intros j w c Hj. rewrite ver_ctx_set by done. destruct (decide (i = j)) as [<-|Hne]; [|by apply (H4 j)].
    intros [= <-]. assert (w = v) as -> by congruence. by split_and!.
  - intros j c. rewrite ver_ctx_set by done. destruct (decide (i = j)) as [<-|Hne]; [|by apply Hwf]. intros [= <-].
    destruct (facts_wf t (bool_decide (v_track v = T_Opt)) (v_pc v)) as [F1 F2]; [intros p Ep; by apply (H7 _ _ Ep)|].
    by apply emission_wf.
  - intros j w c p Hj Ho. rewrite ver_ctx_set by done. destruct (decide (i = j)) as [<-|Hne]; [|by apply (H5 j)].
    intros [= <-] Ep. assert (w = v) as -> by congruence. left. rewrite emission_outer. subst facts.
    rewrite bool_decide_true by done. unfold pred_at. rewrite Ep. cbn.
    destruct (H7 _ _ Ep) as [_ Hcan]. rewrite Hcan. apply frames_eqb_refl.
Qed.

(** ** Predictions *)

(** Another prediction at one point, with the contexts there refreshed from
    it or the point wiped. *)
Lemma pred_update_ok (cl : gmap (list (Z * Z)) nat) (t t' : VerTable) (p' : Predictions) (pc : Z) :
  table_ok cl t -> ids_ok t' -> vt_vers t' = vt_vers t -> vt_pred t' = p' ->
  p_carried p' = p_carried (vt_pred t) ->
  (forall q, q <> pc -> p_at p' !! q = p_at (vt_pred t) !! q) ->
  (forall q, is_Some (p_at p' !! q) <-> is_Some (p_depth p' !! q)) ->
  (forall c, p_at p' !! pc = Some c -> pred_ctx bind_iv c /\ outer_canon (c_outer c)) ->
  (forall i v, vt_vers t !! i = Some v ->
    ver_ctx t' i = ver_ctx t i /\ (v_pc v = pc -> forall c, p_at p' !! pc = Some c -> p_at (vt_pred t) !! pc = Some c \/ c = ctx_default) \/
    v_pc v = pc /\ ver_ctx t' i = refreshed (default ctx_default (p_at p' !! pc)) <$> ver_ctx t i) ->
  table_ok cl t'.
Proof.
  intros Ht Hids Hvers Hp Hcar Hother Hdepth Hpred Hctx. pose proof Ht as [H0 H1 H2 H3 H4 Hwf H5 H6 H7].
  split; rewrite ?Hp, ?Hvers; try done.
  - intros i v c Hi Hc. rewrite Hcar. destruct (Hctx i v Hi) as [[E _]|[_ E]]; rewrite E in Hc; [by apply (H4 i)|].
    destruct (ver_ctx t i) as [c0|] eqn:E0; [|done]. injection Hc as <-.
    destruct (refreshed_fields (default ctx_default (p_at p' !! pc)) c0) as (-> & _ & ->). by apply (H4 i).
  - intros i c Hc. assert (is_Some (vt_vers t !! i)) as [v Hi].
    { rewrite <- Hvers. apply lookup_lt_is_Some. by eapply ver_ctx_lt. }
    destruct (Hctx i v Hi) as [[E _]|[Epc E]]; rewrite E in Hc; [by apply Hwf in Hc|].
    destruct (ver_ctx t i) as [c0|] eqn:E0; [|done]. injection Hc as <-. destruct (Hwf i c0 E0) as [C1 C2].
    pose proof (pred_ctx_default bind_iv) as [D1 _ D3].
    destruct (p_at p' !! pc) as [q|] eqn:Eq; cbn; [destruct (Hpred q eq_refl) as [[Q1 _ Q3] _]|]; by apply refreshed_wf.
  - intros i v c p Hi Ho Hc Ep. destruct (Hctx i v Hi) as [[E Hw]|[Epc E]]; rewrite E in Hc.
    + destruct (decide (v_pc v = pc)) as [Hpc|Hne].
      * rewrite Hpc in Ep. destruct (Hw Hpc p Ep) as [H|H]; [|by right]. apply (H5 i v); [done|done|done|by rewrite Hpc].
      * apply (H5 i v); [done|done|done|]. by rewrite <- Hother.
    + destruct (ver_ctx t i) as [c0|] eqn:E0; [|done]. injection Hc as <-. left. rewrite Epc in Ep. rewrite Ep. cbn.
      destruct (H4 i v c0 Hi E0) as (_ & Et & _). destruct (ctx_eqb_fields _ _ (refreshed_eqb p c0 ltac:(congruence))) as (_ & _ & _ & F).
      rewrite emission_outer in F. by rewrite (proj2 (Hpred p Ep)) in F.
  - intros q p Ep. destruct (decide (q = pc)) as [->|Hne]; [by apply Hpred|]. rewrite Hother in Ep by done. by apply (H7 q).
Qed.

Lemma join_at_at (p : Predictions) (pc : Z) (arr : Ctx) :
  p_carried (fst (join_at p pc arr)) = p_carried p /\ p_depth (fst (join_at p pc arr)) = p_depth p /\
  (snd (join_at p pc arr) = false -> fst (join_at p pc arr) = p) /\
  (outer_canon (c_outer arr) -> (forall c, p_at p !! pc = Some c -> outer_canon (c_outer c)) ->
   forall c, p_at (fst (join_at p pc arr)) !! pc = Some c -> outer_canon (c_outer c)) /\
  is_Some (p_at (fst (join_at p pc arr)) !! pc) /\
  (forall q, q <> pc -> p_at (fst (join_at p pc arr)) !! q = p_at p !! q).
Proof.
  unfold join_at. destruct (p_at p !! pc) as [cur|] eqn:E.
  - destruct (ctx_implies arr cur). { cbn. rewrite E. split_and!; eauto. }
    destruct (ctx_eqb (weaken cur arr) cur); cbn. { rewrite E. split_and!; eauto. }
    split_and!; try done; [|rewrite lookup_insert_eq; by eexists|intros q Hq; by rewrite lookup_insert_ne].
    intros _ _ c. rewrite lookup_insert_eq. intros [= <-]. unfold weaken. destruct (ctx_implies_sans_iv arr cur); apply trim_frames_canon.
  - cbn. split_and!; try done; [|rewrite lookup_insert_eq; by eexists|intros q Hq; by rewrite lookup_insert_ne].
    intros H _ c. rewrite lookup_insert_eq. by intros [= <-].
Qed.

(** What an arrival does to the table of predictions, told by its signal. *)
Lemma join_arrival_at (p : Predictions) (pc depth : Z) (arr : Ctx) :
  let '(p', moved) := join_arrival p pc depth arr in
  (forall q, is_Some (p_at p !! q) <-> is_Some (p_depth p !! q)) ->
  p_carried p' = p_carried p /\ (forall q, q <> pc -> p_at p' !! q = p_at p !! q) /\
  (forall q, is_Some (p_at p' !! q) <-> is_Some (p_depth p' !! q)) /\
  (outer_canon (c_outer arr) -> (forall c, p_at p !! pc = Some c -> outer_canon (c_outer c)) ->
   forall c, p_at p' !! pc = Some c -> outer_canon (c_outer c)) /\
  (moved = false -> p' = p \/ (p' = set_at p pc ctx_default /\ exists c, p_at p !! pc = Some c /\ has_facts c = false)).
Proof.
  destruct (join_arrival p pc depth arr) as [p' moved] eqn:E. intros Hd. unfold join_arrival in E.
  assert (forall d0 P mv, join_at (mkPredictions (p_at p) d0 (p_carried p) (p_back p)) pc arr = (P, mv) ->
    is_Some (d0 !! pc) -> (forall q, q <> pc -> is_Some (p_at p !! q) <-> is_Some (d0 !! q)) ->
    p_carried P = p_carried p /\ (forall q, q <> pc -> p_at P !! q = p_at p !! q) /\
    (forall q, is_Some (p_at P !! q) <-> is_Some (p_depth P !! q)) /\
    (outer_canon (c_outer arr) -> (forall c, p_at p !! pc = Some c -> outer_canon (c_outer c)) ->
     forall c, p_at P !! pc = Some c -> outer_canon (c_outer c)) /\
    (mv = false -> P = mkPredictions (p_at p) d0 (p_carried p) (p_back p) /\ is_Some (p_at p !! pc))) as Hj.
  { intros d0 P mv E0 Hd0 Hdo. pose proof (join_at_at (mkPredictions (p_at p) d0 (p_carried p) (p_back p)) pc arr) as (J1 & J2 & J3 & J4 & J5 & J6).
    rewrite E0 in J1, J2, J3, J4, J5, J6. cbn in *. split_and!; try done.
    - intros q. rewrite J2. cbn. destruct (decide (q = pc)) as [->|Hne]; [by split|]. rewrite J6 by done. by apply Hdo.
    - intros ->. split; [by apply J3|]. rewrite (J3 eq_refl) in J5. exact J5. }
  destruct (p_depth p !! pc) as [d|] eqn:Ed.
  - destruct (negb (d =? depth)).
    + injection E as <- <-. cbn. split_and!; try done.
      * intros q Hq. by rewrite lookup_insert_ne.
      * intros q. destruct (decide (pc = q)) as [<-|Hne]; [rewrite lookup_insert_eq, Ed; split; by eexists|by rewrite lookup_insert_ne].
      * intros _ _ c. rewrite lookup_insert_eq. by intros [= <-].
      * intros Hm. right. split; [done|]. assert (is_Some (p_at p !! pc)) as [c Ec] by (apply Hd; by exists d). exists c. by rewrite Ec in *.
    + destruct (Hj (p_depth p) p' moved) as (K1 & K2 & K3 & K4 & K5); [by destruct p|by exists d|by intros q _|].
      split_and!; try done. intros Hm. left. destruct (K5 Hm) as [-> _]. by destruct p.
  - destruct (Hj (<[pc := depth]> (p_depth p)) p' moved E) as (K1 & K2 & K3 & K4 & K5).
    { rewrite lookup_insert_eq. by eexists. }
    { intros q Hq. by rewrite lookup_insert_ne. }
    split_and!; try done. intros Hm. destruct (K5 Hm) as [_ H]. apply Hd in H as [? H]. congruence.
Qed.

(** ** [theta] *)

(** Arrivals are well formed, canonical, and give a binding its interval. *)
Definition arr_ok (c : Ctx) : Prop := ctx_wf c /\ bind_ok bind_iv c /\ outer_canon (c_outer c).

Lemma arr_ok_free (toks : list (Z * Z)) (car : list Z) (t : Track) : arr_ok (mkCtx [] [] [] [] [] [] toks car [] t).
Proof.
  destruct (pred_ctx_default bind_iv) as [[W1 W2] _ K]. split_and!; [|exact K|done]. split; [|exact W2]. intros k i. exact (W1 k i).
Qed.

Lemma theta_ctx_ok (cf : Config) (c : Ctx) : arr_ok c -> arr_ok (theta_ctx cf c).
Proof.
  intros Hc. unfold theta_ctx.
  assert (arr_ok (if cf_gen_only cf then gen_collapsed c else if cf_stripping cf then stripped c else c)) as H.
  { destruct (cf_gen_only cf); [|destruct (cf_stripping cf); [apply arr_ok_free|done]].
    destruct Hc as ([W1 W2] & K & O). split_and!; [|done|done]. split; [|done]. intros k i. exact (W1 k i). }
  destruct (if cf_gen_only cf then _ else _) as [l s a cl ca o tk cr g t]. destruct t; cbn; [exact H|apply arr_ok_free|apply arr_ok_free].
Qed.

Lemma arr_ok_pred (c : Ctx) : arr_ok c -> pred_ctx bind_iv (facts_only c) /\ outer_canon (c_outer (facts_only c)).
Proof. intros (H1 & H2 & H3). split; [by apply facts_only_ok|done]. Qed.

Section Steps.
Context (cf : Config).
Hypothesis Hcensus : cf_census cf = false.
Hypothesis Hpeel : cf_peel cf = false.

(** The table of another state with the same identities. *)
Record keeps (b b' : Bbv) : Prop := {
  kp_vers : forall i v, vt_vers (b_vers b) !! i = Some v -> vt_vers (b_vers b') !! i = Some v;
  kp_classes : b_classes b ⊆ b_classes b';
  kp_loops : b_loops b' = b_loops b;
  kp_segs : b_segs b' = b_segs b;
  kp_blocks : b_blocks b ⊆ b_blocks b';
  kp_changed : b_changed b = true -> b_changed b' = true }.

Lemma keeps_refl (b : Bbv) : keeps b b.
Proof. by split. Qed.

Lemma keeps_trans (a b c : Bbv) : keeps a b -> keeps b c -> keeps a c.
Proof. intros [A1 A2 A3 A4 A5 A6] [B1 B2 B3 B4 B5 B6]. split; try congruence; auto; by etrans. Qed.

Lemma keeps_queue (b b' : Bbv) :
  requeued b b' -> vt_vers (b_vers b') = vt_vers (b_vers b) -> keeps b b'.
Proof. intros (E1 & E2 & E3 & E4 & E5 & _) E. split; rewrite ?E, ?E1, ?E4, ?E5; done. Qed.

(** The prediction step of an arrival at [pc]. *)
Lemma theta_join_ok (b : Bbv) (pc cur_pc depth : Z) (c : Ctx) :
  inv b -> arr_ok c ->
  let b' := theta_join cf b pc cur_pc depth c in
  inv b' /\ keeps b b' /\ vt_vers (b_vers b') = vt_vers (b_vers b) /\ b_classes b' = b_classes b /\
  p_carried (vt_pred (b_vers b')) = p_carried (vt_pred (b_vers b)) /\
  (c_track c = T_Opt -> cf_mode cf = EM_ContextOnly ->
    exists p, pred_at (vt_pred (b_vers b')) pc = Some p /\ ctx_implies (facts_only c) p = true).
Proof.
  intros Hb Hc. unfold theta_join. destruct (bool_decide (c_track c = T_Opt) && _) eqn:Eo.
  2:{ split_and!; try done. intros H1 H2. by rewrite !bool_decide_true in Eo. }
  apply andb_true_iff in Eo as [Et%bool_decide_eq_true Em%bool_decide_eq_true].
  rewrite Hpeel. cbn [andb]. pose proof (arr_ok_pred c Hc) as [A1 A2].
  pose proof (join_arrival_spec bind_iv (vt_pred (b_vers b)) pc depth (facts_only c) _ (table_ok_preds _ _ Hb) A1 (le_n _)) as J.
  pose proof (join_arrival_at (vt_pred (b_vers b)) pc depth (facts_only c)) as K.
  destruct (join_arrival (vt_pred (b_vers b)) pc depth (facts_only c)) as [p' moved].
  destruct J as ([J1 _] & J2 & _ & _). destruct (K (to_depth _ _ Hb)) as (K1 & K2 & K3 & K4 & K5). clear K.
  set (t1 := with_pred (b_vers b) p').
  assert (ids_ok t1) as Hids by (apply with_pred_ids, Hb).
  assert (forall c0, p_at p' !! pc = Some c0 -> pred_ctx bind_iv c0 /\ outer_canon (c_outer c0)) as Hp'.
  { intros c0 E0. split; [by apply (J1 pc)|]. apply K4; [done| |done]. intros c1 E1. by apply (to_pred _ _ Hb pc). }
  destruct moved.
  - destruct (rearm_pc_spec cf (note_changed (with_pred_b b p')) pc Em Hids) as (R1 & R2 & R3 & R4 & R5).
    set (b' := rearm_pc cf (note_changed (with_pred_b b p')) pc) in *. cbn [b_vers note_changed with_flags with_pred_b with_vers] in R3, R4, R5.
    pose proof R1 as (Q1 & _). cbn in Q1. split_and!; [|..|done|done| |].
    + unfold inv. rewrite Q1. apply (pred_update_ok (b_classes b) (b_vers b) (b_vers b') p' pc); try done.
      intros i v Hi. destruct (decide (v_pc v = pc)) as [Hpc|Hne].
      * right. split; [done|]. rewrite (R5 i v Hi), decide_True by done. done.
      * left. split; [|done]. by rewrite (R5 i v Hi), decide_False by done.
    + apply (keeps_trans _ (note_changed (with_pred_b b p'))); [by split|by apply keeps_queue].
    + rewrite R4. exact K1.
    + intros _ _. rewrite R4. exact J2.
  - split_and!; try done. unfold inv. cbn. apply (pred_update_ok (b_classes b) (b_vers b) t1 p' pc); try done.
    intros i v Hi. left. split; [done|]. intros _ c0 E0. destruct (K5 eq_refl) as [->|[-> _]]; [by left|right].
    cbn in E0. rewrite lookup_insert_eq in E0. congruence.
Qed.

Lemma carried_ok (cl : gmap (list (Z * Z)) nat) (t : VerTable) (pc : Z) (track : Track) (arr : list Z) :
  table_ok cl t ->
  let '(p, (carried, grew)) := carried_join (vt_pred t) pc track arr in
  table_ok cl (with_pred t p) /\ p_at p = p_at (vt_pred t) /\ p_carried p !! (pc, track) = Some carried /\ grew = false /\
  (is_Some (p_carried (vt_pred t) !! (pc, track)) -> p = vt_pred t).
Proof.
  intros Ht. unfold carried_join. destruct (p_carried (vt_pred t) !! (pc, track)) as [e|] eqn:E.
  { split_and!; try done. by destruct t. }
  pose proof Ht as [H0 H1 H2 H3 H4 Hwf H5 H6 H7]. split_and!; try done; try (by apply lookup_insert_eq); try (by intros [? ?]).
  split; try done; [by apply with_pred_ids|]. intros i v c Hi Hc. destruct (H4 i v c Hi Hc) as (K1 & K2 & K3). split_and!; [done|done|].
  cbn. destruct (decide ((pc, track) = (v_pc v, v_track v))) as [<-|Hne]; [rewrite lookup_insert_eq; by eexists|by rewrite lookup_insert_ne].
Qed.

(** The derivation of an identity's context. *)
Lemma theta_emit_ok (b b' : Bbv) (pc : Z) (i : nat) (v : Ver) (c : Ctx) :
  inv b -> vt_vers (b_vers b) !! i = Some v -> v_pc v = pc -> v_track v = c_track c ->
  b_classes b !! c_tokens c = Some (v_class v) -> theta_emit cf b pc i c = Ok b' ->
  inv b' /\ keeps b b' /\ is_Some (ver_ctx (b_vers b') i) /\ p_at (vt_pred (b_vers b')) = p_at (vt_pred (b_vers b)).
Proof.
  intros Hb Hv Hpc Htr Hcl. unfold theta_emit.
  pose proof (carried_ok (b_classes b) (b_vers b) pc (c_track c) (c_carried c) Hb) as K.
  destruct (carried_join (vt_pred (b_vers b)) pc (c_track c) (c_carried c)) as [p [carried grew]]. destruct K as (K1 & K2 & K3 & -> & _).
  set (b1 := with_pred_b b p). cbn zeta. intros E.
  assert (keeps b b1) as Hk1 by by split.
  destruct (negb match ver_ctx (b_vers b1) i with Some cur => _ | None => false end) eqn:En.
  - destruct (cf_debug cf && _); [done|]. injection E as <-. match goal with |- context [rearm cf ?b2 i] => set (b2' := b2) end.
    destruct (rearm_same cf b2' i) as [R1 R2]. pose proof R1 as (Q1 & _).
    assert (inv b2') as Hi2.
    { unfold inv. cbn. pose proof (set_ctx_ok (b_classes b) (with_pred (b_vers b) p) i v (c_tokens c) carried K1 Hv Hcl) as S.
      rewrite Hpc, Htr in S. cbn [vt_pred with_pred] in S. unfold pred_at in S |- *. rewrite K2 in S. apply S. by eexists. }
    split_and!.
    + unfold inv. by rewrite Q1, R2.
    + apply (keeps_trans _ b1); [done|]. apply (keeps_trans _ b2'); [by split|]. apply keeps_queue; [exact R1|by rewrite R2].
    + rewrite R2. cbn. rewrite ver_ctx_set; [rewrite decide_True by done; by eexists|by apply with_pred_ids, Hb|by eapply lookup_lt_Some].
    + rewrite R2. exact K2.
  - destruct (_ && _); [done|]. injection E as <-. split_and!; [exact K1|done| |exact K2].
    apply negb_false_iff in En. destruct (ver_ctx (b_vers b1) i); [by eexists|done].
Qed.

Lemma key_depth_spec (b b' : Bbv) (n : nat) (d : Z) :
  key_depth b n = (b', d) -> b_vers b' = b_vers b /\ b_classes b' = b_classes b /\ keeps b b' /\ 0 <= d < 2 ^ 16.
Proof. unfold key_depth. destruct (Z.ltb_spec (Z.of_nat n) (2 ^ 16)); intros [= <- <-]; (split_and!; [done|done|by split|lia|lia]). Qed.

Lemma theta_ok (b b' : Bbv) (pc cur_pc : Z) (n i : nat) (c : Ctx) :
  inv b -> arr_ok c -> theta cf b pc cur_pc n c = Ok (b', i) ->
  inv b' /\ keeps b b' /\ is_Some (ver_ctx (b_vers b') i).
Proof.
  intros Hb Hc. unfold theta. destruct (tok_class b (c_tokens (theta_ctx cf c))) as [[b1 class]|] eqn:Ec; [|done].
  destruct (tok_class_spec _ _ _ _ Hb Ec) as (T1 & T2 & T3 & T4 & _).
  destruct (key_depth b1 n) as [b2 depth] eqn:Ed. destruct (key_depth_spec _ _ _ _ Ed) as (D1 & D2 & D3 & _).
  assert (inv b2) as Hb2 by (unfold inv; by rewrite D1, D2).
  destruct (ver_intern (b_vers b2) _) as [[t v]|] eqn:Ev; [|done].
  assert (class < size (b_classes b2))%nat as Hcl by (apply (to_class _ _ Hb2 (c_tokens (theta_ctx cf c))); by rewrite D2).
  destruct (ver_intern_ok (b_classes b2) (b_vers b2) t (mkVer pc class (c_track (theta_ctx cf c)) depth) v Hb2 Hcl Ev) as (I1 & I2 & I3 & I4 & I5 & _).
  set (b3 := with_vers b2 t) in *. assert (inv b3) as Hb3 by exact I1.
  assert (keeps b b3) as Hk3.
  { apply (keeps_trans _ b1); [rewrite T3; by split|]. apply (keeps_trans _ b2); [done|by split]. }
  destruct (theta_join_ok b3 pc cur_pc depth _ Hb3 (theta_ctx_ok cf c Hc)) as (J1 & J2 & J3 & J4 & _).
  set (b4 := theta_join cf b3 pc cur_pc depth (theta_ctx cf c)) in *.
  destruct (theta_emit cf b4 pc v (theta_ctx cf c)) as [b5| | |] eqn:Ee; cbn [mbind res_bind]; try done.
  rewrite Hcensus. cbn [andb]. intros [= <- <-].
  assert (vt_vers (b_vers b4) !! v = Some (mkVer pc class (c_track (theta_ctx cf c)) depth)) as Hv4 by (rewrite J3; exact I2).
  assert (b_classes b4 !! c_tokens (theta_ctx cf c) = Some class) as Hc4 by (rewrite J4; cbn; by rewrite D2).
  destruct (theta_emit_ok b4 b5 pc v _ _ J1 Hv4 eq_refl eq_refl Hc4 Ee) as (E1 & E2 & E3 & _).
  split_and!; [done| |done]. apply (keeps_trans _ b3); [done|]. by apply (keeps_trans _ b4).
Qed.

Lemma ensure_ok (b b' : Bbv) (i : nat) : inv b -> ensure_block b i = Ok b' -> inv b' /\ keeps b b' /\ b_vers b' = b_vers b.
Proof.
  intros Hb. unfold ensure_block. case_bool_decide; [intros [= <-]; split_and!; [done|apply keeps_refl|done]|].
  destruct (ver_ctx (b_vers b) i); [|done]. intros [= <-]. split_and!; [done| |done]. split; try done. cbn. set_solver.
Qed.

(** ** The continuation seam *)

(** What a lowering hands the seam. *)
Definition cont_ok (c : Cont) : Prop :=
  ctx_wf (ct_facts c) /\ bind_ok bind_iv (ct_facts c) /\
  forall oc n arr, ct_plan c oc = Some (n, arr) -> ctx_wf arr.

Lemma arrival_ok (b : Bbv) (w : Here) (succ : Z) (facts : Ctx) (t : Track) :
  ctx_wf facts -> bind_ok bind_iv facts -> arr_ok (arrival_ctx cf b w succ facts t).
Proof.
  intros W K. unfold arrival_ctx.
  destruct (emission_wf facts (out_tokens_for (cf_fanout_off cf) (b_loops b) (b_segs b) w succ (cf_gen_only cf)) (c_carried facts) t W K) as [H1 H2].
  split_and!; [exact H1|exact H2|apply trim_frames_canon].
Qed.

Lemma seed_opt_ok (b b' : Bbv) (pc : Z) (class : nat) (depth : Z) (toks : list (Z * Z)) (facts : Ctx) (car : list Z) (r : option nat) :
  inv b -> b_classes b !! toks = Some class -> pred_at (vt_pred (b_vers b)) pc = Some facts ->
  pred_carried (vt_pred (b_vers b)) pc T_Opt = Some car ->
  seed_opt cf b pc class depth (emission facts toks car T_Opt) = Ok (b', r) ->
  inv b' /\ keeps b b' /\ vt_pred (b_vers b') = vt_pred (b_vers b) /\
  (forall i, r = Some i -> exists c, ver_ctx (b_vers b') i = Some c /\ ctx_eqb c (emission facts toks car T_Opt) = true /\
    vt_vers (b_vers b') !! i = Some (mkVer pc class T_Opt depth)).
Proof.
  intros Hb Hcl Hf Hcar. unfold seed_opt. destruct (ver_intern (b_vers b) _) as [[t v]|] eqn:Ev; [|done].
  assert (class < size (b_classes b))%nat as Hlt by by apply (to_class _ _ Hb toks).
  destruct (ver_intern_ok (b_classes b) (b_vers b) t (mkVer pc class T_Opt depth) v Hb Hlt Ev) as (I1 & I2 & I3 & I4 & I5 & _).
  set (b1 := with_vers b t). assert (keeps b b1) as Hk1 by by split.
  destruct (negb _) eqn:En.
  - destruct (cf_mode cf); intros [= <- <-].
    + split_and!; [exact I1|exact Hk1|exact I3|done].
    + pose proof (set_ctx_ok (b_classes b) t v (mkVer pc class T_Opt depth) toks car I1 I2 Hcl) as S.
      cbn [v_pc v_track] in S. rewrite I3, Hf in S. cbn [default] in S. specialize (S ltac:(by eexists)). split_and!; [exact S| |exact I3|].
      * apply (keeps_trans _ b1); [exact Hk1|by split].
      * intros i [= <-]. exists (emission facts toks car T_Opt). cbn.
        rewrite ver_ctx_set, decide_True by first [done|apply I1|by eapply lookup_lt_Some].
        split_and!; [done|apply ctx_eqb_refl|done].
  - intros [= <- <-]. apply negb_false_iff in En. split_and!; [exact I1|exact Hk1|exact I3|]. intros i [= <-]. cbn.
    destruct (ver_ctx t v) as [c|]; [|done]. by exists c.
Qed.

(** The funnel's join into the header's prediction. *)
Lemma funnel_ok (b : Bbv) (h : Z) (i : nat) (cur arr : Ctx) :
  cf_mode cf = EM_ContextOnly -> inv b -> is_Some (pred_at (vt_pred (b_vers b)) h) -> ver_ctx (b_vers b) i = Some cur ->
  let b' := rearm_pc cf (note_changed (with_pred_b b (set_at (vt_pred (b_vers b)) h (facts_only (ctx_join_iv_only cur arr))))) h in
  inv b' /\ keeps b b'.
Proof.
  intros Hm Hb Hh Hc. set (p' := set_at _ _ _). destruct (to_wf _ _ Hb i cur Hc) as [W K].
  assert (ids_ok (with_pred (b_vers b) p')) as Hids by (apply with_pred_ids, Hb).
  destruct (rearm_pc_spec cf (note_changed (with_pred_b b p')) h Hm Hids) as (R1 & R2 & R3 & R4 & R5).
  set (b' := rearm_pc cf (note_changed (with_pred_b b p')) h) in *. cbn [b_vers note_changed with_flags with_pred_b with_vers] in R3, R4, R5.
  pose proof R1 as (Q1 & _). cbn in Q1. cbn zeta. split.
  - unfold inv. rewrite Q1. apply (pred_update_ok (b_classes b) (b_vers b) (b_vers b') p' h); try done.
    + intros q Hq. cbn. by rewrite lookup_insert_ne.
    + intros q. cbn. destruct (decide (h = q)) as [<-|Hne]; [|rewrite lookup_insert_ne by done; apply (to_depth _ _ Hb)].
      rewrite lookup_insert_eq. split; [intros _; by apply (to_depth _ _ Hb)|by eexists].
    + intros c. cbn. rewrite lookup_insert_eq. intros [= <-]. split; [|apply trim_frames_canon]. apply facts_only_ok. split.
      * by apply ctx_join_iv_only_wf.
      * unfold bind_ok. change (c_gcells (ctx_join_iv_only cur arr)) with (gcells_canon (c_gcells cur)). by rewrite gcells_canon_id by apply W.
    + intros j v Hj. destruct (decide (v_pc v = h)) as [Hpc|Hne].
      * right. split; [done|]. by rewrite (R5 j v Hj), decide_True by done.
      * left. split; [|done]. by rewrite (R5 j v Hj), decide_False by done.
  - apply (keeps_trans _ (note_changed (with_pred_b b p'))); [by split|by apply keeps_queue].
Qed.

Lemma keeps_class (b b' : Bbv) (toks : list (Z * Z)) (c : nat) : inv b -> tok_class b toks = Some (b', c) -> keeps b b' /\ b_vers b' = b_vers b.
Proof. intros Hb E. destruct (tok_class_spec _ _ _ _ Hb E) as (_ & _ & E' & S & _). rewrite E'. split; [by split|done]. Qed.

Lemma enter_onramp_ok (b b' : Bbv) (c : Cont) (h : Z) (funnel : bool) (v : nat) (oc : Ctx) (r : option nat) :
  inv b -> is_Some (pred_at (vt_pred (b_vers b)) h) -> enter_onramp cf b c h funnel v oc = Ok (b', r) -> inv b' /\ keeps b b'.
Proof.
  intros Hb Hh. unfold enter_onramp. destruct (negb _); [intros [= <- <-]; by split; [|apply keeps_refl]|].
  destruct (ct_plan c _) as [[gaps arr]|]; [|intros [= <- <-]; by split; [|apply keeps_refl]].
  assert (forall b3 r3, inv b3 -> keeps b b3 -> (b4 ← ensure_block b3 v; Ok (b4, Some v)) = Ok (b', r3) -> inv b' /\ keeps b b') as Hens.
  { intros b3 r3 H1 H2 E. destruct (ensure_block b3 v) as [b4| | |] eqn:E4; cbn [mbind res_bind] in E; try done. injection E as <- _.
    destruct (ensure_ok _ _ _ H1 E4) as (H3 & H4 & _). split; [done|by apply (keeps_trans _ b3)]. }
  destruct (cf_stripping cf); [by apply Hens; [|apply keeps_refl]|].
  destruct (ver_ctx (b_vers b) v) as [cur|] eqn:Ecur; [|done]. destruct (ctx_eqb _ cur); [by apply Hens; [|apply keeps_refl]|].
  destruct (negb _); [intros [= <- <-]; by split; [|apply keeps_refl]|].
  destruct (cf_mode cf) eqn:Em; [intros [= <- <-]; by split; [|apply keeps_refl]|].
  destruct (funnel_ok b h v cur arr Em Hb Hh Ecur) as [F1 F2]. by apply Hens.
Qed.

Lemma try_onramp_ok (b b' : Bbv) (w : Here) (c : Cont) (r : option nat) :
  inv b -> try_onramp cf b w c = Ok (b', r) -> inv b' /\ keeps b b'.
Proof.
  intros Hb. unfold try_onramp. destruct (List.find _ _) as [[h e]|]; [|intros [= <- <-]; by split; [|apply keeps_refl]].
  destruct (_ || _ || _); [intros [= <- <-]; by split; [|apply keeps_refl]|].
  destruct (position _ _) as [lidx|]; [|intros [= <- <-]; by split; [|apply keeps_refl]].
  destruct (_ && _); [intros [= <- <-]; by split; [|apply keeps_refl]|].
  destruct (negb _); [intros [= <- <-]; by split; [|apply keeps_refl]|].
  destruct (negb _); [intros [= <- <-]; by split; [|apply keeps_refl]|].
  set (toks := out_tokens_for _ _ _ _ _ _). destruct (tok_class b toks) as [[b1 class]|] eqn:Ec; [|done].
  destruct (tok_class_spec _ _ _ _ Hb Ec) as (T1 & T2 & _). destruct (keeps_class _ _ _ _ Hb Ec) as [K1 _].
  destruct (pred_at (vt_pred (b_vers b1)) h) as [facts|] eqn:Ef; [|intros [= <- <-]; done].
  destruct (pred_carried (vt_pred (b_vers b1)) h T_Opt) as [car|] eqn:Ek; [|intros [= <- <-]; done].
  destruct (seed_opt cf b1 h class _ _) as [[b2 ov]| | |] eqn:Es; cbn [mbind res_bind]; try done.
  destruct (seed_opt_ok _ _ _ _ _ _ _ _ _ T1 T2 Ef Ek Es) as (S1 & S2 & S3 & S4).
  assert (keeps b b2) as K2 by by apply (keeps_trans _ b1).
  destruct ov as [v|]; [|intros [= <- <-]; done]. intros E.
  destruct (enter_onramp_ok _ _ _ _ _ _ _ _ S1 ltac:(rewrite S3, Ef; by eexists) E) as [E1 E2]. split; [done|by apply (keeps_trans _ b2)].
Qed.

Lemma try_call_return_ok (b b' : Bbv) (w : Here) (c : Cont) (r : option nat) :
  inv b -> try_call_return_onramp cf b w c = Ok (b', r) -> inv b' /\ keeps b b'.
Proof.
  intros Hb. unfold try_call_return_onramp. destruct (_ || _); [intros [= <- <-]; by split; [|apply keeps_refl]|].
  destruct (_ && _); [done|]. set (toks := out_tokens_for _ _ _ _ _ _).
  destruct (negb _); [intros [= <- <-]; by split; [|apply keeps_refl]|].
  destruct (negb _); [intros [= <- <-]; by split; [|apply keeps_refl]|].
  destruct (negb _); [intros [= <- <-]; by split; [|apply keeps_refl]|].
  destruct (pred_at (vt_pred (b_vers b)) _) as [facts|] eqn:Ef; [|intros [= <- <-]; by split; [|apply keeps_refl]].
  destruct (pred_carried (vt_pred (b_vers b)) _ T_Opt) as [car|] eqn:Ek; [|intros [= <- <-]; by split; [|apply keeps_refl]].
  destruct (_ || _); [intros [= <- <-]; by split; [|apply keeps_refl]|].
  destruct (tok_class b toks) as [[b1 class]|] eqn:Ec; [|done].
  destruct (tok_class_spec _ _ _ _ Hb Ec) as (T1 & T2 & _). destruct (keeps_class _ _ _ _ Hb Ec) as [K1 Ev1].
  destruct (seed_opt cf b1 _ class _ _) as [[b2 ov]| | |] eqn:Es; cbn [mbind res_bind]; try done.
  rewrite <- Ev1 in Ef, Ek. destruct (seed_opt_ok _ _ _ _ _ _ _ _ _ T1 T2 Ef Ek Es) as (S1 & S2 & S3 & S4).
  assert (keeps b b2) as K2 by by apply (keeps_trans _ b1).
  destruct ov as [v|]; [|intros [= <- <-]; done]. destruct (ct_plan c _) as [[gaps arr]|]; [|intros [= <- <-]; done].
  destruct (negb _); [intros [= <- <-]; done|].
  destruct (ensure_block b2 v) as [b3| | |] eqn:E3; cbn [mbind res_bind]; try done. intros [= <- _].
  destruct (ensure_ok _ _ _ S1 E3) as (H3 & H4 & _). split; [done|by apply (keeps_trans _ b2)].
Qed.

Lemma cont_normal_ok (b b' : Bbv) (w : Here) (c : Cont) (v : nat) :
  inv b -> cont_ok c -> cont_normal cf b w c = Ok (b', v) \/ resume cf b w c = Ok (b', v) -> inv b' /\ keeps b b'.
Proof.
  intros Hb (C1 & C2 & _). assert (forall t, (b1 ← theta cf b (ct_succ c) (h_pc w) (ct_stack c) (arrival_ctx cf b w (ct_succ c) (ct_facts c) t);
    let '(b1, v1) := b1 in b2 ← ensure_block b1 v1; Ok (b2, v1)) = Ok (b', v) -> inv b' /\ keeps b b') as H.
  { intros t. destruct (theta cf b _ _ _ _) as [[b1 v1]| | |] eqn:Et; cbn [mbind res_bind]; try done.
    destruct (theta_ok _ _ _ _ _ _ _ Hb (arrival_ok b w (ct_succ c) (ct_facts c) t C1 C2) Et) as (T1 & T2 & _).
    destruct (ensure_block b1 v1) as [b2| | |] eqn:E2; cbn [mbind res_bind]; try done. intros [= <- _].
    destruct (ensure_ok _ _ _ T1 E2) as (H3 & H4 & _). split; [done|by apply (keeps_trans _ b1)]. }
  intros [E|E]; eapply H; exact E.
Qed.

Lemma cont_seam_ok (b b' : Bbv) (w : Here) (c : Cont) (r : nat * option nat) :
  inv b -> cont_ok c -> cont cf b w c = Ok (b', r) -> inv b' /\ keeps b b'.
Proof.
  intros Hb Hc. unfold cont. destruct (cont_normal cf b w c) as [[b1 v]| | |] eqn:E1; cbn [mbind res_bind]; try done.
  destruct (cont_normal_ok b b1 w c v Hb Hc) as [N1 N2]; [by left|].
  destruct (try_onramp cf b1 w c) as [[b2 ov]| | |] eqn:E2; cbn [mbind res_bind]; try done.
  destruct (try_onramp_ok b1 b2 w c ov N1 E2) as [O1 O2]. assert (keeps b b2) as K2 by by apply (keeps_trans _ b1).
  destruct ov; [intros [= <- _]; done|].
  destruct (try_call_return_onramp cf b2 w c) as [[b3 r3]| | |] eqn:E3; cbn [mbind res_bind]; try done. intros [= <- _].
  destruct (try_call_return_ok b2 b3 w c r3 O1 E3) as [P1 P2]. split; [done|by apply (keeps_trans _ b2)].
Qed.
End Steps.
End Inv.
