(* ===== verification/VersionFrozen.v ===== *)
(** * VersionFrozen: a walk that moved nothing is repeated by the emitting walk

    A [ContextOnly] step that leaves [changed] unset left the version table as
    it was, and the same step under [Code], over any table of classes that
    holds the ones the step reached, answers the same. *)

From S2P Require Import Prelude Mem OpSem Facts Ctx SlotSound CtxSound CtxHeight Predict PredictSound Versions VersionTable VersionInv.

Definition as_code (cf : Config) : Config :=
  mkConfig EM_Code (cf_gen_only cf) (cf_fanout_off cf) (cf_stripping cf) (cf_frozen cf) (cf_census cf) (cf_peel cf)
    (cf_debug cf) (cf_bytecode_len cf).

Lemma with_pred_b_id (b : Bbv) : with_pred_b b (vt_pred (b_vers b)) = b.
Proof. by destruct b as [[]]. Qed.

Lemma with_vers_id (b : Bbv) : with_vers b (b_vers b) = b.
Proof. by destruct b. Qed.

(** The table as it was, and no version taken back into the queue. *)
Definition still (b b1 : Bbv) : Prop := b_vers b1 = b_vers b /\ b_processed b1 = b_processed b.

Lemma still_trans (a b c : Bbv) : still a b -> still b c -> still a c.
Proof. intros [A1 A2] [B1 B2]. split; congruence. Qed.

Lemma tok_class_mirror (b b1 : Bbv) (toks : list (Z * Z)) (c : nat) (F : gmap (list (Z * Z)) nat) :
  tok_class b toks = Some (b1, c) -> b_classes b1 ⊆ F ->
  tok_class (with_classes b F) toks = Some (with_classes b1 F, c) /\ still b b1 /\ b_changed b1 = b_changed b.
Proof.
  unfold tok_class. destruct (b_classes b !! toks) as [k|] eqn:E.
  - intros [= <- <-] HF. cbn. by rewrite (lookup_weaken _ _ _ _ E HF).
  - destruct (_ <? _); [|done]. intros [= <- <-] HF. cbn in *.
    by rewrite (lookup_weaken _ _ toks (size (b_classes b)) (lookup_insert_eq _ _ _) HF).
Qed.

Lemma key_depth_mirror (b b1 : Bbv) (n : nat) (d : Z) (F : gmap (list (Z * Z)) nat) :
  key_depth b n = (b1, d) -> key_depth (with_classes b F) n = (with_classes b1 F, d) /\ still b b1.
Proof. unfold key_depth. destruct (_ <? _); by intros [= <- <-]. Qed.

Lemma ensure_mirror (b b1 : Bbv) (i : nat) (F : gmap (list (Z * Z)) nat) :
  ensure_block b i = Ok b1 -> ensure_block (with_classes b F) i = Ok (with_classes b1 F).
Proof.
  unfold ensure_block. cbn. case_bool_decide; [by intros [= <-]|]. destruct (ver_ctx _ _); [|done]. by intros [= <-].
Qed.

Section Frozen.
Context (bind_iv : Z -> option ValueRange) (cf : Config).
Hypothesis Hcensus : cf_census cf = false.
Hypothesis Hpeel : cf_peel cf = false.
Hypothesis Hmode : cf_mode cf = EM_ContextOnly.

#[local] Abbreviation inv := (inv bind_iv).
#[local] Abbreviation arr_ok := (arr_ok bind_iv).
#[local] Abbreviation cont_ok := (cont_ok bind_iv).

Lemma rearm_pc_changed (b : Bbv) (pc : Z) : ids_ok (b_vers b) -> b_changed (rearm_pc cf b pc) = b_changed b.
Proof. intros H. by destruct (rearm_pc_spec cf b pc Hmode H) as ((_ & _ & _ & _ & E & _) & _). Qed.

Lemma theta_join_still (b : Bbv) (pc cur_pc depth : Z) (c : Ctx) :
  inv b -> let b' := theta_join cf b pc cur_pc depth c in b_changed b' = false ->
  b' = b \/ (c_track c = T_Opt /\ b' = with_pred_b b (set_at (vt_pred (b_vers b)) pc ctx_default) /\
             exists c0, p_at (vt_pred (b_vers b)) !! pc = Some c0 /\ has_facts c0 = false).
Proof.
  intros Hb. cbn zeta. unfold theta_join. destruct (bool_decide _ && _) eqn:Eo; [|by left].
  apply andb_true_iff in Eo as [Et%bool_decide_eq_true _]. rewrite Hpeel. cbn [andb].
  pose proof (join_arrival_at (vt_pred (b_vers b)) pc depth (facts_only c)) as K.
  destruct (join_arrival (vt_pred (b_vers b)) pc depth (facts_only c)) as [p' moved].
  destruct (K (to_depth _ _ _ Hb)) as (_ & _ & _ & _ & K5). destruct moved.
  { intros H. rewrite rearm_pc_changed in H; [done|]. apply with_pred_ids, Hb. }
  intros _. destruct (K5 eq_refl) as [->|[-> H]]; [left; apply with_pred_b_id|by right].
Qed.

(** The silent wipe at a depth clash wipes nothing a version there has. *)
Lemma wipe_quiet (b : Bbv) (pc : Z) (i : nat) (v : Ver) (cur c0 : Ctx) :
  inv b -> vt_vers (b_vers b) !! i = Some v -> v_pc v = pc -> v_track v = T_Opt -> ver_ctx (b_vers b) i = Some cur ->
  c_outer cur = [] -> p_at (vt_pred (b_vers b)) !! pc = Some c0 -> has_facts c0 = false ->
  with_pred_b b (set_at (vt_pred (b_vers b)) pc ctx_default) = b.
Proof.
  intros Hb Hi Hpc Ht Hcur Hout E0 Hf. enough (c0 = ctx_default) as ->.
  { transitivity (with_pred_b b (vt_pred (b_vers b))); [|apply with_pred_b_id]. f_equal. unfold set_at. rewrite insert_id by done.
    by destruct (vt_pred (b_vers b)). }
  destruct (to_outer _ _ _ Hb i v cur c0 Hi) as [H|H]; [done|done|by rewrite Hpc| |done].
  rewrite Hout in H. assert (c_outer c0 = []) as Ho by by destruct (c_outer c0).
  destruct (to_pred _ _ _ Hb pc c0 E0) as [[_ Hbare _] _]. unfold has_facts in Hf. rewrite !orb_false_iff, !negb_false_iff, !bool_decide_eq_true in Hf.
  destruct Hf as (((((H1 & H2) & H3) & H4) & H5) & H6). destruct Hbare as (B1 & B2 & B3). destruct c0; cbn in *; by subst.
Qed.

(** The emission step that notes nothing stores nothing. *)
Lemma theta_emit_still (b b' : Bbv) (pc : Z) (i : nat) (v : Ver) (c : Ctx) :
  inv b -> vt_vers (b_vers b) !! i = Some v -> v_pc v = pc -> v_track v = c_track c ->
  theta_emit cf b pc i c = Ok b' -> b_changed b' = false ->
  b' = b /\ exists cur car, ver_ctx (b_vers b) i = Some cur /\ p_carried (vt_pred (b_vers b)) !! (pc, c_track c) = Some car /\
    ctx_eqb cur (emission (if bool_decide (c_track c = T_Opt) then default ctx_default (pred_at (vt_pred (b_vers b)) pc) else ctx_default)
      (c_tokens c) car (c_track c)) = true.
Proof.
  intros Hb Hv Hpc Ht. unfold theta_emit.
  pose proof (carried_ok bind_iv (b_classes b) (b_vers b) pc (c_track c) (c_carried c) Hb) as K.
  destruct (carried_join (vt_pred (b_vers b)) pc (c_track c) (c_carried c)) as [p [car grew]]. destruct K as (K1 & K2 & K3 & -> & K5).
  cbn zeta. destruct (negb _) eqn:En.
  { rewrite Hmode. rewrite andb_false_r. intros [= <-] Hch.
    match type of Hch with context [rearm cf ?x i] => destruct (rearm_same cf x i) as ((_ & _ & _ & _ & E & _) & _) end. by rewrite E in Hch. }
  rewrite Hmode, andb_false_r. intros [= <-] _. apply negb_false_iff in En. unfold ver_ctx in En. cbn in En. fold (ver_ctx (b_vers b) i) in En.
  destruct (ver_ctx (b_vers b) i) as [cur|] eqn:Ecur; [|done].
  destruct (to_ctx _ _ _ Hb i v cur Hv Ecur) as (_ & _ & Hcar). rewrite Hpc, Ht in Hcar. specialize (K5 Hcar) as ->.
  split; [apply with_pred_b_id|]. by exists cur, car.
Qed.

(** What the emitting walk makes of an identity whose context is settled. *)
Lemma theta_emit_code (b : Bbv) (pc : Z) (i : nat) (c cur : Ctx) (car : list Z) :
  ver_ctx (b_vers b) i = Some cur -> p_carried (vt_pred (b_vers b)) !! (pc, c_track c) = Some car ->
  ctx_eqb cur (emission (if bool_decide (c_track c = T_Opt) then default ctx_default (pred_at (vt_pred (b_vers b)) pc) else ctx_default)
    (c_tokens c) car (c_track c)) = true ->
  (c_track c = T_Opt -> exists p, pred_at (vt_pred (b_vers b)) pc = Some p /\ ctx_implies (facts_only c) p = true) ->
  theta_emit (as_code cf) b pc i c = Ok b.
Proof.
  intros H1 H2 H3 H4. unfold theta_emit, carried_join. rewrite H2. cbn zeta. rewrite with_pred_b_id, H1, H3. cbn [negb].
  destruct (decide (c_track c = T_Opt)) as [Ht|Ht].
  - destruct (H4 Ht) as (p & -> & ->). by rewrite andb_false_r.
  - rewrite (bool_decide_false (c_track c = T_Opt)) by done. by rewrite andb_false_r.
Qed.

Lemma theta_mirror (b b1 : Bbv) (pc cur_pc : Z) (n i : nat) (c : Ctx) (F : gmap (list (Z * Z)) nat) :
  inv b -> arr_ok c -> theta cf b pc cur_pc n c = Ok (b1, i) -> b_changed b1 = false -> b_classes b1 ⊆ F ->
  still b b1 /\ theta (as_code cf) (with_classes b F) pc cur_pc n c = Ok (with_classes b1 F, i).
Proof.
  intros Hb Hc. unfold theta. change (theta_ctx (as_code cf)) with (theta_ctx cf).
  pose proof (theta_ctx_ok bind_iv cf c Hc) as Hc'. set (a := theta_ctx cf c) in *.
  destruct (tok_class b (c_tokens a)) as [[b2 class]|] eqn:Ec; [|done].
  destruct (tok_class_spec _ _ _ _ _ Hb Ec) as (T1 & T2 & T3 & T4 & T5).
  destruct (key_depth b2 n) as [b3 depth] eqn:Ed. destruct (key_depth_spec _ _ _ _ Ed) as (D1 & D2 & D3 & _).
  assert (inv b3) as Hb3 by (unfold VersionInv.inv; by rewrite D1, D2).
  destruct (ver_intern (b_vers b3) _) as [[t v]|] eqn:Ev; [|done].
  assert (class < size (b_classes b3))%nat as Hcl by (apply (to_class _ _ _ Hb3 (c_tokens a)); by rewrite D2).
  destruct (ver_intern_ok bind_iv (b_classes b3) (b_vers b3) t (mkVer pc class (c_track a) depth) v Hb3 Hcl Ev) as (I1 & I2 & I3 & I4 & I5 & I6).
  set (b4 := with_vers b3 t) in *. assert (inv b4) as Hb4 by exact I1.
  destruct (theta_join_ok bind_iv cf Hpeel b4 pc cur_pc depth a Hb4 Hc') as (J1 & J2 & J3 & J4 & J5 & J6).
  pose proof (theta_join_still b4 pc cur_pc depth a Hb4) as J7. cbn zeta in J7.
  set (b5 := theta_join cf b4 pc cur_pc depth a) in *. cbn [as_code cf_census]. rewrite Hcensus. cbn [andb].
  destruct (theta_emit cf b5 pc v a) as [b6| | |] eqn:Ee; cbn [mbind res_bind]; try done. intros [= <- <-] Hch HF.
  assert (vt_vers (b_vers b5) !! v = Some (mkVer pc class (c_track a) depth)) as Hv5 by by rewrite J3.
  destruct (theta_emit_still b5 b6 pc v _ a J1 Hv5 eq_refl eq_refl Ee Hch) as [-> (cur & car & E1 & E2 & E3)].
  assert (b5 = b4) as E5.
  { destruct (J7 Hch) as [H|(Ht & H & c0 & E0 & Hf)]; [done|]. rewrite H in E1, E3 |- *.
    apply (wipe_quiet b4 pc v _ cur c0 Hb4 I2); try done. rewrite Ht in E3. rewrite bool_decide_true in E3 by done.
    apply ctx_eqb_fields in E3 as (_ & _ & _ & E3). unfold pred_at in E3. cbn in E3. rewrite lookup_insert_eq in E3. cbn in E3.
    by apply frames_eqb_nil. }
  clear J7. rewrite E5 in *. assert (t = b_vers b3) as -> by (apply I6; by exists cur).
  destruct (tok_class_mirror b b2 (c_tokens a) class F Ec) as (M1 & M2 & _).
  { rewrite <- D2. exact HF. }
  destruct (key_depth_mirror b2 b3 n depth F Ed) as [M3 M3'].
  destruct M2, M3'. split; [split; cbn; congruence|]. cbn [c_tokens]. fold a. rewrite M1, M3. cbn [b_vers with_classes]. rewrite Ev. cbn [fst snd].
  assert (theta_join (as_code cf) (with_vers (with_classes b3 F) (b_vers b3)) pc cur_pc depth a = with_classes b3 F) as ->.
  { unfold theta_join. cbn [cf_mode as_code]. rewrite andb_false_r. apply (with_vers_id (with_classes b3 F)). }
  rewrite (theta_emit_code (with_classes b3 F) pc v a cur car); [|exact E1|exact E2|exact E3|].
  - cbn [mbind res_bind]. subst b4. by rewrite with_vers_id.
  - intros Ht. exact (J6 Ht Hmode).
Qed.

(** ** The on-ramps *)

Lemma ensure_same (b b1 : Bbv) (i : nat) :
  ensure_block b i = Ok b1 -> still b b1 /\ b_classes b1 = b_classes b /\ b_changed b1 = b_changed b.
Proof. unfold ensure_block. case_bool_decide; [by intros [= <-]|]. destruct (ver_ctx _ _); [|done]. by intros [= <-]. Qed.

Lemma seed_opt_mirror (b b1 : Bbv) (pc : Z) (class : nat) (depth : Z) (oc : Ctx) (r : option nat) (F : gmap (list (Z * Z)) nat) :
  inv b -> (class < size (b_classes b))%nat -> seed_opt cf b pc class depth oc = Ok (b1, r) -> b_changed b1 = false ->
  b1 = b /\ seed_opt (as_code cf) (with_classes b F) pc class depth oc = Ok (with_classes b F, r).
Proof.
  intros Hb Hcl. unfold seed_opt. cbn [with_classes b_vers]. destruct (ver_intern (b_vers b) _) as [[t v]|] eqn:Ev; [|done].
  destruct (ver_intern_ok bind_iv (b_classes b) (b_vers b) t (mkVer pc class T_Opt depth) v Hb Hcl Ev) as (_ & _ & _ & _ & _ & I6).
  destruct (negb _) eqn:En; [rewrite Hmode; by intros [= <- <-]|]. intros [= <- <-] _. apply negb_false_iff in En.
  destruct (ver_ctx t v) as [c|]; [|done]. rewrite (I6 ltac:(by eexists)). split; [apply with_vers_id|].
  by do 2 f_equal.
Qed.

Lemma enter_mirror (b b1 : Bbv) (c : Cont) (h : Z) (funnel : bool) (v : nat) (oc : Ctx) (r : option nat) (F : gmap (list (Z * Z)) nat) :
  inv b -> enter_onramp cf b c h funnel v oc = Ok (b1, r) -> b_changed b1 = false ->
  still b b1 /\ b_classes b1 = b_classes b /\
  enter_onramp (as_code cf) (with_classes b F) c h funnel v oc = Ok (with_classes b1 F, r).
Proof.
  intros Hb. unfold enter_onramp. cbn [with_classes b_segs b_vers as_code cf_stripping cf_mode].
  destruct (negb _); [by intros [= <- <-]|]. destruct (ct_plan c oc) as [[gaps arr]|]; [|by intros [= <- <-]].
  assert (forall r0, (b4 ← ensure_block b v; Ok (b4, Some v)) = Ok (b1, r0) -> still b b1 /\ b_classes b1 = b_classes b /\
    (b4 ← ensure_block (with_classes b F) v; Ok (b4, Some v)) = Ok (with_classes b1 F, r0)) as Hens.
  { intros r0 E'. destruct (ensure_block b v) as [b4| | |] eqn:E4; cbn [mbind res_bind] in E'; try done. injection E' as <- <-.
    destruct (ensure_same _ _ _ E4) as (N1 & N2 & _). split_and!; [done|done|]. by rewrite (ensure_mirror _ _ _ F E4). }
  destruct (cf_stripping cf); [intros E _; by apply Hens|]. destruct (ver_ctx (b_vers b) v) as [cur|]; [|done].
  destruct (ctx_eqb _ cur); [intros E _; by apply Hens|]. destruct (negb _); [by intros [= <- <-]|]. clear Hens. rewrite Hmode. cbv beta iota zeta.
  destruct (ensure_block _ v) as [b4| | |] eqn:E4; cbn [mbind res_bind]; try done. intros [= <- _] Hch.
  destruct (ensure_same _ _ _ E4) as (_ & _ & N3). rewrite N3, rearm_pc_changed in Hch; [done|]. apply with_pred_ids, Hb.
Qed.

Lemma try_onramp_mirror (b b1 : Bbv) (w : Here) (c : Cont) (r : option nat) (F : gmap (list (Z * Z)) nat) :
  inv b -> try_onramp cf b w c = Ok (b1, r) -> b_changed b1 = false -> b_classes b1 ⊆ F ->
  still b b1 /\ try_onramp (as_code cf) (with_classes b F) w c = Ok (with_classes b1 F, r).
Proof.
  intros Hb. unfold try_onramp. cbn [with_classes b_loops b_segs as_code cf_gen_only cf_fanout_off].
  destruct (List.find _ _) as [[h e]|]; [|by intros [= <- <-]].
  destruct (_ || _ || _); [by intros [= <- <-]|]. destruct (position _ _) as [lidx|]; [|by intros [= <- <-]].
  destruct (_ && _); [by intros [= <- <-]|]. destruct (negb _); [by intros [= <- <-]|]. destruct (negb _); [by intros [= <- <-]|].
  set (toks := out_tokens_for _ _ _ _ _ _). destruct (tok_class b toks) as [[b2 class]|] eqn:Ec; [|done].
  destruct (tok_class_spec _ _ _ _ _ Hb Ec) as (T1 & T2 & _). pose proof (to_class _ _ _ T1 _ _ T2) as Hcl.
  assert (b_classes b2 ⊆ F -> tok_class (with_classes b F) toks = Some (with_classes b2 F, class) /\ still b b2 /\ b_changed b2 = b_changed b) as M
    by (intros; by eapply tok_class_mirror).
  destruct (pred_at (vt_pred (b_vers b2)) h) as [facts|] eqn:Ef.
  2:{ intros [= <- <-] _ HF. destruct (M HF) as (-> & Hv & _). cbn [with_classes b_vers]. by rewrite Ef. }
  destruct (pred_carried (vt_pred (b_vers b2)) h T_Opt) as [car|] eqn:Ek.
  2:{ intros [= <- <-] _ HF. destruct (M HF) as (-> & Hv & _). cbn [with_classes b_vers]. by rewrite Ef, Ek. }
  set (oc := emission facts toks car T_Opt).
  destruct (seed_opt cf b2 h class _ oc) as [[b3 ov]| | |] eqn:Es; cbn [mbind res_bind]; try done.
  destruct (seed_opt_ok _ cf _ _ _ _ _ _ _ _ _ T1 T2 Ef Ek Es) as (S1 & S2 & S3 & S4). intros E Hch HF.
  assert (b_changed b3 = false) as Hch3.
  { destruct ov as [v|]; [|by injection E as <- <-]. apply not_true_is_false. intros H.
    destruct (enter_onramp_ok bind_iv cf Hcensus Hpeel _ _ _ _ _ _ _ _ S1 ltac:(rewrite S3, Ef; by eexists) E) as [_ K]. apply (kp_changed _ _ K) in H. congruence. }
  destruct (seed_opt_mirror b2 b3 h class _ oc ov F T1 Hcl Es Hch3) as [-> S].
  destruct ov as [v|].
  - destruct (enter_mirror b2 b1 c h _ v oc r F T1 E Hch) as (N1 & N2 & N3). rewrite N2 in HF. destruct (M HF) as (-> & Hv & _).
    cbn [with_classes b_vers]. rewrite Ef, Ek. fold oc. rewrite S. cbn [mbind res_bind]. split; [by eapply still_trans|exact N3].
  - injection E as <- <-. destruct (M HF) as (-> & Hv & _). cbn [with_classes b_vers]. rewrite Ef, Ek. fold oc. by rewrite S.
Qed.

Lemma try_call_return_mirror (b b1 : Bbv) (w : Here) (c : Cont) (r : option nat) (F : gmap (list (Z * Z)) nat) :
  inv b -> try_call_return_onramp cf b w c = Ok (b1, r) -> b_changed b1 = false -> b_classes b1 ⊆ F ->
  still b b1 /\ try_call_return_onramp (as_code cf) (with_classes b F) w c = Ok (with_classes b1 F, r).
Proof.
  intros Hb. unfold try_call_return_onramp. cbn [with_classes b_loops b_segs b_vers as_code cf_gen_only cf_fanout_off cf_debug].
  destruct (_ || _); [by intros [= <- <-]|]. destruct (_ && _); [done|]. set (toks := out_tokens_for _ _ _ _ _ _).
  destruct (negb _); [by intros [= <- <-]|]. destruct (negb _); [by intros [= <- <-]|]. destruct (negb _); [by intros [= <- <-]|].
  destruct (pred_at (vt_pred (b_vers b)) _) as [facts|] eqn:Ef; [|by intros [= <- <-]].
  destruct (pred_carried (vt_pred (b_vers b)) _ T_Opt) as [car|] eqn:Ek; [|by intros [= <- <-]].
  set (oc := emission facts toks car T_Opt). destruct (_ || _); [by intros [= <- <-]|].
  destruct (tok_class b toks) as [[b2 class]|] eqn:Ec; [|done].
  destruct (tok_class_spec _ _ _ _ _ Hb Ec) as (T1 & T2 & _). pose proof (to_class _ _ _ T1 _ _ T2) as Hcl.
  destruct (seed_opt cf b2 _ class _ oc) as [[b3 ov]| | |] eqn:Es; cbn [mbind res_bind]; try done. intros E Hch HF.
  assert (forall gaps, ret_onramp_admits (as_code cf) (with_classes b2 F) (ct_succ c) gaps = ret_onramp_admits cf b2 (ct_succ c) gaps) as Hadm by done.
  assert (b_changed b3 = false /\ b_classes b1 = b_classes b3) as [Hch3 Hcls].
  { destruct ov as [v|]; [|by injection E as <- <-]. destruct (ct_plan c oc) as [[gaps arr]|]; [|by injection E as <- <-].
    destruct (negb _); [by injection E as <- <-|]. destruct (ensure_block b3 v) as [b4| | |] eqn:E4; cbn [mbind res_bind] in E; try done.
    injection E as <- <-. destruct (ensure_same _ _ _ E4) as (N1 & N2 & N3). split; congruence. }
  destruct (seed_opt_mirror b2 b3 _ class _ oc ov F T1 Hcl Es Hch3) as [-> S]. rewrite Hcls in HF.
  destruct (tok_class_mirror _ _ _ _ _ Ec HF) as (-> & Hv & _). rewrite S. cbn [mbind res_bind].
  destruct ov as [v|]; [|by injection E as <- <-]. destruct (ct_plan c oc) as [[gaps arr]|]; [|by injection E as <- <-].
  rewrite Hadm. destruct (negb _); [by injection E as <- <-|].
  destruct (ensure_block b2 v) as [b4| | |] eqn:E4; cbn [mbind res_bind] in E; try done. injection E as <- <-.
  destruct (ensure_same _ _ _ E4) as (N1 & _). split; [by eapply still_trans|]. by rewrite (ensure_mirror _ _ _ F E4).
Qed.

(** ** The seam *)

Lemma theta_seam_mirror (b b1 : Bbv) (w : Here) (c : Cont) (t : Track) (v : nat) (F : gmap (list (Z * Z)) nat) :
  let seam cf b := '(b, v) ← theta cf b (ct_succ c) (h_pc w) (ct_stack c) (arrival_ctx cf b w (ct_succ c) (ct_facts c) t);
                   b ← ensure_block b v; Ok (b, v) in
  inv b -> cont_ok c -> seam cf b = Ok (b1, v) -> b_changed b1 = false -> b_classes b1 ⊆ F ->
  still b b1 /\ seam (as_code cf) (with_classes b F) = Ok (with_classes b1 F, v).
Proof.
  intros seam Hb (C1 & C2 & _). subst seam. cbv beta.
  change (arrival_ctx (as_code cf) (with_classes b F)) with (arrival_ctx cf b).
  set (a := arrival_ctx cf b w (ct_succ c) (ct_facts c) t). pose proof (arrival_ok bind_iv cf b w (ct_succ c) (ct_facts c) t C1 C2) as Ha.
  destruct (theta cf b _ _ _ a) as [[b2 v2]| | |] eqn:Et; cbn [mbind res_bind]; try done.
  destruct (ensure_block b2 v2) as [b3| | |] eqn:E3; cbn [mbind res_bind]; try done. intros [= <- <-] Hch HF.
  destruct (ensure_same _ _ _ E3) as (N1 & N2 & N3). rewrite N2 in HF. rewrite N3 in Hch.
  destruct (theta_mirror b b2 _ _ _ v2 a F Hb Ha Et Hch HF) as [T1 ->]. cbn [mbind res_bind]. rewrite (ensure_mirror _ _ _ F E3).
  split; [by eapply still_trans|done].
Qed.

Lemma cont_mirror (b b1 : Bbv) (w : Here) (c : Cont) (r : nat * option nat) (F : gmap (list (Z * Z)) nat) :
  inv b -> cont_ok c -> cont cf b w c = Ok (b1, r) -> b_changed b1 = false -> b_classes b1 ⊆ F ->
  still b b1 /\ cont (as_code cf) (with_classes b F) w c = Ok (with_classes b1 F, r).
Proof.
  intros Hb Hc. unfold cont. destruct (cont_normal cf b w c) as [[b2 v]| | |] eqn:E1; cbn [mbind res_bind]; try done.
  destruct (cont_normal_ok bind_iv cf Hcensus Hpeel b b2 w c v Hb Hc (or_introl E1)) as [N1 N2].
  destruct (try_onramp cf b2 w c) as [[b3 ov]| | |] eqn:E2; cbn [mbind res_bind]; try done.
  destruct (try_onramp_ok bind_iv cf Hcensus Hpeel b2 b3 w c ov N1 E2) as [O1 O2]. intros E Hch HF.
  assert (b_changed b3 = false /\ b_classes b3 ⊆ b_classes b1) as [Hch3 HF3].
  { destruct ov as [v'|]; [by injection E as <- _|].
    destruct (try_call_return_onramp cf b3 w c) as [[b4 r4]| | |] eqn:E3; cbn [mbind res_bind] in E; try done. injection E as <- _.
    destruct (try_call_return_ok bind_iv cf Hcensus Hpeel b3 b4 w c r4 O1 E3) as [_ [_ P2 _ _ _ P6]]. split; [|done].
    apply not_true_is_false. intros H. apply P6 in H. congruence. }
  assert (b_changed b2 = false) as Hch2 by (apply not_true_is_false; intros H; apply (kp_changed _ _ O2) in H; congruence).
  pose proof (kp_classes _ _ O2) as HF2.
  destruct (theta_seam_mirror b b2 w c (edge_track (b_loops b) w (ct_succ c)) v F Hb Hc E1 Hch2) as [S1 S2]; [etrans; [exact HF2|etrans; [exact HF3|exact HF]]|].
  unfold cont_normal. cbn [with_classes b_loops] in S2 |- *. rewrite S2. cbn [mbind res_bind].
  destruct (try_onramp_mirror b2 b3 w c ov F N1 E2 Hch3) as [S3 ->]; [etrans; [exact HF3|exact HF]|]. cbn [mbind res_bind].
  destruct ov as [v'|]; [injection E as <- <-; split; [by eapply still_trans|done]|].
  destruct (try_call_return_onramp cf b3 w c) as [[b4 r4]| | |] eqn:E3; cbn [mbind res_bind] in E; try done. injection E as <- <-.
  destruct (try_call_return_mirror b3 b4 w c r4 F O1 E3 Hch HF) as [S4 ->].
  split; [|done]. eapply still_trans; [done|]. by eapply still_trans.
Qed.
End Frozen.

(** ** What an arrival's version carries *)

(** The context a version is left with is the emission of what its identity
    reads, in either mode. *)
Lemma theta_emit_context (bind_iv : Z -> option ValueRange) (cf : Config) (b b' : Bbv) (pc : Z) (i : nat) (v : Ver) (c : Ctx) :
  inv bind_iv b -> vt_vers (b_vers b) !! i = Some v -> v_pc v = pc -> v_track v = c_track c ->
  theta_emit cf b pc i c = Ok b' ->
  vt_vers (b_vers b') = vt_vers (b_vers b) /\ b_classes b' = b_classes b /\
  exists x car, ver_ctx (b_vers b') i = Some x /\ p_carried (vt_pred (b_vers b')) !! (pc, c_track c) = Some car /\
    ctx_eqb x (emission (if bool_decide (c_track c = T_Opt) then default ctx_default (pred_at (vt_pred (b_vers b)) pc) else ctx_default)
      (c_tokens c) car (c_track c)) = true.
Proof.
  intros Hb Hv Hpc Ht. unfold theta_emit.
  pose proof (carried_ok bind_iv (b_classes b) (b_vers b) pc (c_track c) (c_carried c) Hb) as K.
  destruct (carried_join (vt_pred (b_vers b)) pc (c_track c) (c_carried c)) as [p [car grew]]. destruct K as (K1 & K2 & K3 & -> & K5).
  cbn zeta. destruct (negb _) eqn:En.
  - destruct (cf_debug cf && _); [done|]. intros [= <-].
    match goal with |- context [rearm cf ?x i] => destruct (rearm_same cf x i) as ((R1 & _) & R2) end. rewrite R1, R2. cbn [note_changed with_flags with_vers with_pred_b b_vers b_classes].
    split_and!; [done|done|]. eexists _, car. split_and!; [|exact K3|apply ctx_eqb_refl].
    rewrite ver_ctx_set; [by rewrite decide_True|by apply with_pred_ids, Hb|by eapply lookup_lt_Some].
  - destruct (cf_debug cf && _ && _ && _); [done|]. intros [= <-]. split_and!; [done|done|].
    apply negb_false_iff in En. destruct (ver_ctx (b_vers (with_pred_b b p)) i) as [x|] eqn:Ex; [|done].
    exists x, car. by split_and!.
Qed.

(** A [ContextOnly] arrival is covered by the version it is given. *)
Lemma theta_covers (bind_iv : Z -> option ValueRange) (cf : Config) (b b' : Bbv) (pc cur_pc : Z) (n i : nat) (c : Ctx) :
  cf_census cf = false -> cf_peel cf = false -> cf_mode cf = EM_ContextOnly ->
  inv bind_iv b -> arr_ok bind_iv c -> theta cf b pc cur_pc n c = Ok (b', i) ->
  let a := theta_ctx cf c in
  exists v x, vt_vers (b_vers b') !! i = Some v /\ v_pc v = pc /\ v_track v = c_track a /\
    b_classes b' !! c_tokens a = Some (v_class v) /\ ver_ctx (b_vers b') i = Some x /\
    c_tokens x = c_tokens a /\ c_track x = c_track a /\ pred_carried (vt_pred (b_vers b')) pc (c_track a) = Some (c_carried x) /\
    (c_track a = T_Opt -> exists p, ctx_wf p /\ ctx_implies (facts_only a) p = true /\
      ctx_eqb x (emission p (c_tokens a) (c_carried x) T_Opt) = true).
Proof.
  intros Hcensus Hpeel Hmode Hb Hc. unfold theta. pose proof (theta_ctx_ok bind_iv cf c Hc) as Hc'. set (a := theta_ctx cf c) in *.
  destruct (tok_class b (c_tokens a)) as [[b2 class]|] eqn:Ec; [|done].
  destruct (tok_class_spec _ _ _ _ _ Hb Ec) as (T1 & T2 & _).
  destruct (key_depth b2 n) as [b3 depth] eqn:Ed. destruct (key_depth_spec _ _ _ _ Ed) as (D1 & D2 & _).
  assert (inv bind_iv b3) as Hb3 by (unfold VersionInv.inv; by rewrite D1, D2).
  destruct (ver_intern (b_vers b3) _) as [[t v]|] eqn:Ev; [|done].
  assert (class < size (b_classes b3))%nat as Hcl by (apply (to_class _ _ _ Hb3 (c_tokens a)); by rewrite D2).
  destruct (ver_intern_ok bind_iv (b_classes b3) (b_vers b3) t (mkVer pc class (c_track a) depth) v Hb3 Hcl Ev) as (I1 & I2 & _).
  set (b4 := with_vers b3 t) in *. assert (inv bind_iv b4) as Hb4 by exact I1.
  destruct (theta_join_ok bind_iv cf Hpeel b4 pc cur_pc depth a Hb4 Hc') as (J1 & _ & J3 & J4 & _ & J6).
  set (b5 := theta_join cf b4 pc cur_pc depth a) in *. rewrite Hcensus. cbn [andb].
  destruct (theta_emit cf b5 pc v a) as [b6| | |] eqn:Ee; cbn [mbind res_bind]; try done. intros [= <- <-].
  assert (vt_vers (b_vers b5) !! v = Some (mkVer pc class (c_track a) depth)) as Hv5 by by rewrite J3.
  destruct (theta_emit_context bind_iv cf b5 b6 pc v _ a J1 Hv5 eq_refl eq_refl Ee) as (E1 & E2 & x & car & E3 & E4 & E5).
  destruct (ctx_eqb_fields _ _ E5) as (F1 & F2 & F3 & _). cbn in F1, F2, F3.
  eexists _, x. split_and!; [by rewrite E1|done|done|rewrite E2, J4; cbn; by rewrite D2|done|done|done|by rewrite F2|].
  intros Ht. destruct (J6 Ht Hmode) as (p & P1 & P2). exists p. rewrite bool_decide_true in E5 by done. rewrite P1, Ht in E5. cbn in E5.
  split_and!; [|done|by rewrite F2]. by destruct (to_pred _ _ _ J1 pc p P1) as [[W _ _] _].
Qed.
