(* ===== verification/VersionWalk.v ===== *)
(** * VersionWalk: the walks keep the table, and the emitting walk repeats them

    The drain of a walk whose lowering hands the seam well-formed facts keeps
    the invariant; a [ContextOnly] walk that moved nothing is repeated by the
    emitting walk over its table. *)

From S2P Require Import Prelude Mem OpSem Facts Ctx CtxSound CtxHeight Predict PredictSound Versions VersionTable VersionInv VersionFrozen.

(** What a walk only adds to. *)
Record adds (cf : Config) (b b' : Bbv) : Prop := {
  gr_classes : b_classes b ⊆ b_classes b';
  gr_changed : b_changed b' = false -> b_changed b = false;
  gr_splices : cf_frozen cf = true -> b_loops b' = b_loops b /\ b_segs b' = b_segs b }.

Lemma adds_refl (cf : Config) (b : Bbv) : adds cf b b.
Proof. by split. Qed.

Lemma adds_trans (cf : Config) (a b c : Bbv) : adds cf a b -> adds cf b c -> adds cf a c.
Proof.
  intros [A1 A2 A3] [B1 B2 B3]. split; [by etrans|auto|]. intros H. destruct (A3 H), (B3 H). split; congruence.
Qed.

Lemma keeps_grows (cf : Config) (b b' : Bbv) : keeps b b' -> adds cf b b'.
Proof.
  intros [_ K2 K3 K4 _ K6]. split; [done| |done]. intros H. apply not_true_is_false. intros E. apply K6 in E. congruence.
Qed.

Section Walk.
Context (bind_iv : Z -> option ValueRange).

#[local] Abbreviation inv := (inv bind_iv).

(** The lowering hands the seam well-formed facts when the contexts it reads
    are well formed. *)
Definition walk_ok (walk : option nat -> VerTable -> list Splice -> list (option (nat * option nat)) -> Move) : Prop :=
  forall who t segs replies c,
    (forall i x, ver_ctx t i = Some x -> ctx_wf x /\ bind_ok bind_iv x) ->
    walk who t segs replies = M_Cont c \/ walk who t segs replies = M_Resume c -> cont_ok bind_iv c.

Context (cf : Config) (walk : option nat -> VerTable -> list Splice -> list (option (nat * option nat)) -> Move).
Hypothesis Hcensus : cf_census cf = false.
Hypothesis Hpeel : cf_peel cf = false.
Hypothesis Hwalk : walk_ok walk.

Lemma move_ok (b : Bbv) (who : option nat) (replies : list (option (nat * option nat))) (c : Cont) :
  inv b -> walk who (b_vers b) (b_segs b) replies = M_Cont c \/ walk who (b_vers b) (b_segs b) replies = M_Resume c -> cont_ok bind_iv c.
Proof. intros Hb. apply Hwalk. intros i x. apply (to_wf _ _ _ Hb). Qed.

Lemma run_moves_ok (fuel : nat) (who : option nat) (toks : list (Z * Z)) (vt : Track) (replies : list (option (nat * option nat)))
    (b b' : Bbv) (r : option Z) :
  inv b -> run_moves cf walk fuel who toks vt replies b = Ok (b', r) -> inv b' /\ adds cf b b'.
Proof.
  revert replies b. induction fuel as [|fuel IH]; intros replies b Hb; cbn [run_moves]; destruct (walk who (b_vers b) (b_segs b) replies) as [c|c|s|spent|] eqn:Ew; try done;
    try (intros [= <- <-]; by split; [|apply adds_refl]).
  - destruct (cont cf b _ c) as [[b1 r1]| | |] eqn:Ec; cbn [mbind res_bind]; try done. intros E.
    destruct (cont_seam_ok bind_iv cf Hcensus Hpeel _ _ _ _ _ Hb (move_ok _ _ _ _ Hb (or_introl Ew)) Ec) as [C1 C2].
    destruct (IH _ _ C1 E) as [I1 I2]. split; [done|]. eapply adds_trans; [by apply keeps_grows|done].
  - destruct (resume cf b _ c) as [[b1 r1]| | |] eqn:Ec; cbn [mbind res_bind]; try done. intros E.
    destruct (cont_normal_ok bind_iv cf Hcensus Hpeel _ _ _ _ _ Hb (move_ok _ _ _ _ Hb (or_intror Ew)) (or_intror Ec)) as [C1 C2].
    destruct (IH _ _ C1 E) as [I1 I2]. split; [done|]. eapply adds_trans; [by apply keeps_grows|done].
  - destruct (cf_frozen cf) eqn:Ef; intros E; [by apply IH in E|]. apply IH in E as [I1 I2]; [|exact Hb]. split; [done|].
    eapply adds_trans; [|exact I2]. split; [done|done|by rewrite Ef].
Qed.

Lemma run_version_ok (fuel key : nat) (b b' : Bbv) (bg : Budget) (r : option Budget) :
  inv b -> run_version cf walk fuel key b bg = Ok (b', r) -> inv b' /\ adds cf b b'.
Proof.
  intros Hb. unfold run_version. destruct (ver_of _ key) as [ver|]; [|done]. destruct (ver_ctx _ key) as [ctx|]; [|done].
  destruct (run_moves _ _ _ _ _ _ _ _) as [[b1 r1]| | |] eqn:Er; cbn [mbind res_bind]; try done. intros [= <- _]. by eapply run_moves_ok.
Qed.

Lemma drain_inv (fuel : nat) (b b' : Bbv) (bg bg' : Budget) (v : Verdict) :
  inv b -> drain cf walk fuel b bg = Ok (b', bg', v) -> inv b' /\ adds cf b b'.
Proof.
  revert b bg. induction fuel as [|fuel IH]; intros b bg Hb; cbn [drain]; destruct (b_queue b) as [|key queue]; try done;
    try (intros [= <- _ _]; by split; [|apply adds_refl]).
  assert (forall bl p q, adds cf b (with_queue b bl p q)) as Hg by (intros; by split).
  case_bool_decide; [intros E; apply IH in E as [I1 I2]; [|exact Hb]; split; [done|]; by eapply adds_trans|].
  set (b1 := with_queue b _ _ _). destruct (_ <? _); [intros [= <- _ _]; by split|].
  destruct (run_version cf walk fuel key b1 bg) as [[b2 r2]| | |] eqn:Er; cbn [mbind res_bind]; try done.
  destruct (run_version_ok _ _ _ _ _ _ (Hb : inv b1) Er) as [R1 R2].
  assert (adds cf b b2) as G2 by by eapply adds_trans.
  destruct r2 as [bg2|]; [|intros [= <- _ _]; done]. destruct (b_overflow b2); [intros [= <- _ _]; done|].
  intros E. apply IH in E as [I1 I2]; [|done]. split; [done|by eapply adds_trans].
Qed.

Lemma emit_ok (fuel : nat) (b b' : Bbv) (bg' : Budget) (v : Verdict) :
  inv b -> emit cf walk fuel b = Ok (b', bg', v) -> inv b' /\ adds cf b b'.
Proof.
  intros Hb. unfold emit. destruct (run_moves _ _ _ _ _ _ _ _) as [[b1 r1]| | |] eqn:Er; cbn [mbind res_bind]; try done.
  destruct (run_moves_ok _ _ _ _ _ _ _ _ Hb Er) as [R1 R2]. destruct r1 as [spent|]; [|intros [= <- _ _]; done].
  intros E. apply drain_inv in E as [D1 D2]; [|done]. split; [done|by eapply adds_trans].
Qed.
End Walk.

(** ** The repetition *)

Section Repeat.
Context (bind_iv : Z -> option ValueRange).
Context (cf : Config) (walk : option nat -> VerTable -> list Splice -> list (option (nat * option nat)) -> Move).
Hypothesis Hcensus : cf_census cf = false.
Hypothesis Hpeel : cf_peel cf = false.
Hypothesis Hmode : cf_mode cf = EM_ContextOnly.
Hypothesis Hfrozen : cf_frozen cf = true.
Hypothesis Hwalk : walk_ok bind_iv walk.

#[local] Abbreviation inv := (inv bind_iv).

Lemma run_moves_mirror (fuel : nat) (who : option nat) (toks : list (Z * Z)) (vt : Track) (replies : list (option (nat * option nat)))
    (b b1 : Bbv) (r : option Z) (F : gmap (list (Z * Z)) nat) :
  inv b -> run_moves cf walk fuel who toks vt replies b = Ok (b1, r) -> b_changed b1 = false -> b_classes b1 ⊆ F ->
  still b b1 /\ run_moves (as_code cf) walk fuel who toks vt replies (with_classes b F) = Ok (with_classes b1 F, r).
Proof.
  revert replies b. induction fuel as [|fuel IH]; intros replies b Hb; cbn [run_moves]; cbn [with_classes b_vers b_segs as_code cf_frozen]; destruct (walk who (b_vers b) (b_segs b) replies) as [c|c|s|spent|] eqn:Ew; try done;
    try (by intros [= <- <-]).
  - destruct (cont cf b _ c) as [[b2 r2]| | |] eqn:Ec; cbn [mbind res_bind]; try done. intros E Hch HF.
    pose proof (move_ok bind_iv walk Hwalk _ _ _ _ Hb (or_introl Ew)) as Hc.
    destruct (cont_seam_ok bind_iv cf Hcensus Hpeel _ _ _ _ _ Hb Hc Ec) as [C1 _].
    destruct (run_moves_ok bind_iv cf walk Hcensus Hpeel Hwalk _ _ _ _ _ _ _ _ C1 E) as [_ [G1 G2 _]].
    destruct (cont_mirror bind_iv cf Hcensus Hpeel Hmode b b2 _ c r2 F Hb Hc Ec (G2 Hch)) as [S1 ->]; [by etrans|]. cbn [mbind res_bind].
    destruct (IH _ _ C1 E Hch HF) as [S2 ->]. split; [by eapply still_trans|done].
  - destruct (resume cf b _ c) as [[b2 r2]| | |] eqn:Ec; cbn [mbind res_bind]; try done. intros E Hch HF.
    pose proof (move_ok bind_iv walk Hwalk _ _ _ _ Hb (or_intror Ew)) as Hc.
    destruct (cont_normal_ok bind_iv cf Hcensus Hpeel _ _ _ _ _ Hb Hc (or_intror Ec)) as [C1 _].
    destruct (run_moves_ok bind_iv cf walk Hcensus Hpeel Hwalk _ _ _ _ _ _ _ _ C1 E) as [_ [G1 G2 _]].
    destruct (theta_seam_mirror bind_iv cf Hcensus Hpeel Hmode b b2 _ c _ r2 F Hb Hc Ec (G2 Hch)) as [S1 S1']; [by etrans|].
    unfold resume. rewrite S1'. cbn [mbind res_bind]. destruct (IH _ _ C1 E Hch HF) as [S2 ->]. split; [by eapply still_trans|done].
  - rewrite Hfrozen. by apply IH.
Qed.

(** What the drain reads of the counts agrees, and only versions walked in
    this drain have one. *)
Definition counts_ok (b : Bbv) (bg bg' : Budget) : Prop :=
  bg_values bg' = bg_values bg /\ forall k, is_Some (bg_spent bg !! k) -> k ∈ b_processed b.

Lemma run_version_mirror (fuel key : nat) (b b1 : Bbv) (bg bg' : Budget) (r : option Budget) (F : gmap (list (Z * Z)) nat) :
  inv b -> run_version cf walk fuel key b bg = Ok (b1, r) -> b_changed b1 = false -> b_classes b1 ⊆ F ->
  counts_ok b bg bg' -> bg_spent bg !! key = None -> key ∈ b_processed b ->
  still b b1 /\ exists r', run_version (as_code cf) walk fuel key (with_classes b F) bg' = Ok (with_classes b1 F, r') /\
    match r, r' with Some x, Some x' => counts_ok b1 x x' | None, None => True | _, _ => False end.
Proof.
  intros Hb. unfold run_version. cbn [with_classes b_vers as_code cf_mode]. destruct (ver_of _ key) as [ver|]; [|done]. destruct (ver_ctx _ key) as [ctx|]; [|done].
  destruct (run_moves cf _ _ _ _ _ _ _) as [[b2 r2]| | |] eqn:Er; cbn [mbind res_bind]; try done. intros [= <- <-] Hch HF [H1 H2] Hk Hp.
  destruct (run_moves_mirror _ _ _ _ _ _ _ _ F Hb Er Hch HF) as [S ->]. cbn [mbind res_bind]. split; [done|]. eexists. split; [done|].
  rewrite Hmode, (bool_decide_true (EM_ContextOnly = EM_ContextOnly)), (bool_decide_false (EM_Code = EM_ContextOnly)), Hk by done. destruct r2 as [spent|]; [|done]. cbn. split; cbn.
  - rewrite H1. cbn. lia.
  - destruct S as [_ ->]. intros k. destruct (decide (key = k)) as [<-|Hne]; [done|]. rewrite lookup_insert_ne by done. apply H2.
Qed.

Lemma drain_mirror (fuel : nat) (b b1 : Bbv) (bg bg' bg1 : Budget) (v : Verdict) (F : gmap (list (Z * Z)) nat) :
  inv b -> drain cf walk fuel b bg = Ok (b1, bg1, v) -> b_changed b1 = false -> b_classes b1 ⊆ F -> counts_ok b bg bg' ->
  b_vers b1 = b_vers b /\ exists bg1', drain (as_code cf) walk fuel (with_classes b F) bg' = Ok (with_classes b1 F, bg1', v).
Proof.
  revert b bg bg'. induction fuel as [|fuel IH]; intros b bg bg' Hb; cbn [drain]; cbn [with_classes b_queue b_processed b_blocks]; destruct (b_queue b) as [|key queue]; try done;
    try (intros [= <- <- <-] _ _ _; split; [done|by eexists]).
  case_bool_decide as Hkey.
  { intros E Hch HF Hbg. destruct (IH _ _ bg' (Hb : inv (with_queue b _ _ queue)) E Hch HF Hbg) as [I1 [bg2 I2]]. split; [exact I1|]. exists bg2. exact I2. }
  set (b0 := with_queue b (b_blocks b) ({[key]} ∪ b_processed b) queue). intros E Hch HF Hbg. destruct Hbg as [H1 H2]. rewrite H1.
  change (with_queue (with_classes b F) (b_blocks b) ({[key]} ∪ b_processed b) queue) with (with_classes b0 F).
  destruct (_ <? _); [injection E as <- <- <-; split; [done|by eexists]|].
  destruct (run_version cf walk fuel key b0 bg) as [[b2 r2]| | |] eqn:Er; cbn [mbind res_bind] in E; try done.
  destruct (run_version_ok bind_iv cf walk Hcensus Hpeel Hwalk _ _ _ _ _ _ (Hb : inv b0) Er) as [R1 R2].
  assert (adds cf b2 b1) as [G1 G2 _].
  { destruct r2; [|injection E as <- _ _; apply adds_refl]. destruct (b_overflow b2); [injection E as <- _ _; apply adds_refl|]. by eapply drain_inv. }
  assert (counts_ok b0 bg bg') as Hbg0 by (split; [done|intros k Hk; apply elem_of_union_r; auto]).
  assert (bg_spent bg !! key = None) as Hnone.
  { destruct (bg_spent bg !! key) eqn:Es; [|done]. destruct Hkey. apply H2. by eexists. }
  destruct (run_version_mirror _ _ _ _ _ bg' _ F (Hb : inv b0) Er (G2 Hch)) as [S [r' [Er' Hr]]]; [by etrans|done|done|set_solver|].
  rewrite Er'. cbn [mbind res_bind with_classes b_overflow]. destruct S as [S _].
  destruct r2 as [bg2|], r' as [bg2'|]; try done.
  - destruct (b_overflow b2); [injection E as <- <- <-; split; [exact S|by eexists]|].
    destruct (IH _ _ bg2' R1 E Hch HF Hr) as [I1 I2]. split; [etrans; [exact I1|exact S]|exact I2].
  - injection E as <- <- <-. split; [exact S|by eexists].
Qed.

Lemma emit_mirror (fuel : nat) (b b1 : Bbv) (bg1 : Budget) (v : Verdict) (F : gmap (list (Z * Z)) nat) :
  inv b -> emit cf walk fuel b = Ok (b1, bg1, v) -> b_changed b1 = false -> b_classes b1 ⊆ F ->
  b_vers b1 = b_vers b /\ exists bg1', emit (as_code cf) walk fuel (with_classes b F) = Ok (with_classes b1 F, bg1', v).
Proof.
  intros Hb. unfold emit. destruct (run_moves cf _ _ _ _ _ _ b) as [[b2 r2]| | |] eqn:Er; cbn [mbind res_bind]; try done. intros E Hch HF.
  destruct (run_moves_ok bind_iv cf walk Hcensus Hpeel Hwalk _ _ _ _ _ _ _ _ Hb Er) as [R1 R2].
  assert (adds cf b2 b1) as [G1 G2 _].
  { destruct r2; [|injection E as <- _ _; apply adds_refl]. by eapply drain_inv. }
  destruct (run_moves_mirror _ _ _ _ _ _ _ _ F Hb Er (G2 Hch)) as [[S _] ->]; [by etrans|]. cbn [mbind res_bind].
  destruct r2 as [spent|]; [|injection E as <- <- <-; split; [done|by eexists]].
  destruct (drain_mirror _ _ _ _ (mkBudget spent ∅) _ _ F R1 E Hch HF) as [D1 D2]; [split; [done|intros k [x Hx]; cbn in Hx; by rewrite lookup_empty in Hx]|].
  split; [congruence|exact D2].
Qed.
End Repeat.
