(* ===== verification/VersionConsult.v ===== *)
(** * VersionConsult: the rounds keep the table, and the emitting walk consults it

    The invariant along the prediction rounds, and what a round that moved
    nothing says of the emitting walk that follows it. *)

From S2P Require Import Prelude Mem OpSem Facts Ctx CtxSound CtxHeight Predict PredictSound Versions VersionRounds VersionTable VersionInv VersionFrozen VersionWalk.
#[local] Open Scope Z_scope.

Section Consult.
Context (bind_iv : Z -> option ValueRange).

#[local] Abbreviation inv := (inv bind_iv).
#[local] Abbreviation table_ok := (table_ok bind_iv).

(** ** Stripping *)

Lemma stripped_ok (c : Ctx) : ctx_wf (stripped c) /\ bind_ok bind_iv (stripped c).
Proof. destruct (arr_ok_free bind_iv (c_tokens c) [] (c_track c)) as (H1 & H2 & _). done. Qed.

Lemma strip_all_ok (cl : gmap (list (Z * Z)) nat) (t : VerTable) : table_ok cl t -> table_ok cl (strip_all t).
Proof.
  intros [H0 H1 H2 H3 H4 Hwf H5 H6 H7].
  split; try done; [by apply strip_all_ids|..].
  - intros i v c Hi. rewrite ver_ctx_strip. destruct (ver_ctx t i) as [c0|] eqn:E; [|done]. intros [= <-]. apply (H4 i v c0 Hi E).
  - intros i c. rewrite ver_ctx_strip. destruct (ver_ctx t i) as [c0|] eqn:E; [|done]. intros [= <-]. apply stripped_ok.
  - intros i v c p _ _. rewrite ver_ctx_strip. destruct (ver_ctx t i) as [c0|] eqn:E; [|done]. intros [= <-]. cbn.
    rewrite lookup_fmap. destruct (p_at (vt_pred t) !! v_pc v) as [q|]; [|done]. intros [= <-]. by left.
  - intros pc. cbn. rewrite lookup_fmap, fmap_is_Some. apply H6.
  - intros pc p. cbn. rewrite lookup_fmap. destruct (p_at (vt_pred t) !! pc) as [q|] eqn:E; [|done]. intros [= <-].
    destruct (H7 pc q E) as [[_ P2 _] _]. rewrite facts_free_bare by done. split; [apply pred_ctx_default|done].
Qed.

(** ** The rounds *)

Definition st_ok (st : State) : Prop := table_ok (st_classes st) (st_vers st).

Lemma st_ok_default : st_ok state_default.
Proof. apply table_ok_default. Qed.

Lemma next_round_ok (bd : Body) (prov changed : bool) (st : State) : st_ok st -> st_ok (fst (next_round bd prov changed st)).
Proof.
  intros H. unfold next_round. destruct changed; cbn [negb].
  - destruct (_ && _); [by apply strip_all_ok|done].
  - by destruct (_ && _).
Qed.

Lemma next_round_splices (bd : Body) (prov changed : bool) (st : State) :
  st_splices (fst (next_round bd prov changed st)) = st_splices st.
Proof. unfold next_round. destruct changed; cbn [negb]; by destruct (_ && _). Qed.

Context (bd : Body) (walk : Config -> option nat -> VerTable -> list Splice -> list (option (nat * option nat)) -> Move).
Hypothesis Hcensus : bd_census bd = false.
Hypothesis Hpeel : bd_peel bd = false.
Hypothesis Hwalk : forall cf, walk_ok bind_iv (walk cf).

(** The lowering does not ask which mode it is walked in. *)
Hypothesis Hblind : forall cf, walk (as_code cf) = walk cf.

(** The first move of the prologue is an edge, unless the walk refuses. *)
Hypothesis Hfirst : forall cf t segs,
  (exists c, walk cf None t segs [] = M_Cont c \/ walk cf None t segs [] = M_Resume c) \/ walk cf None t segs [] = M_Refuse.

Lemma walk_state_ok (mode : EmitMode) (rg : Rung) (fuel : nat) (st : State) (b : Bbv) (bg : Budget) (v : Verdict) :
  st_ok st -> let cf := config_of bd mode rg st in emit cf (walk cf) fuel (bbv_new bd st) = Ok (b, bg, v) ->
  st_ok (after_walk b st) /\ adds cf (bbv_new bd st) b.
Proof. intros H cf E. by eapply (emit_ok bind_iv cf (walk cf) Hcensus Hpeel (Hwalk cf)); [|exact E]. Qed.

(** The version an edge enters is in the table. *)
Lemma seam_vers (cf : Config) (b b' : Bbv) (w : Here) (c : Cont) (t : Track) (v : nat) :
  cf_census cf = false -> cf_peel cf = false -> inv b -> cont_ok bind_iv c ->
  ('(b, v) ← theta cf b (ct_succ c) (h_pc w) (ct_stack c) (arrival_ctx cf b w (ct_succ c) (ct_facts c) t);
   b ← ensure_block b v; Ok (b, v)) = Ok (b', v) -> is_Some (vt_vers (b_vers b') !! v).
Proof.
  intros H1 H2 Hb (C1 & C2 & _). destruct (theta cf b _ _ _ _) as [[b1 v1]| | |] eqn:Et; cbn [mbind res_bind]; try done.
  destruct (theta_ok bind_iv cf H1 H2 _ _ _ _ _ _ _ Hb (arrival_ok bind_iv cf b w (ct_succ c) (ct_facts c) t C1 C2) Et) as (T1 & _ & [x T3]).
  destruct (ensure_block b1 v1) as [b2| | |] eqn:E2; cbn [mbind res_bind]; try done. intros [= <- <-].
  destruct (ensure_same _ _ _ E2) as ([-> _] & _). apply lookup_lt_is_Some. by eapply ver_ctx_lt, T3; apply (to_ids _ _ _ T1).
Qed.

Lemma cont_vers (cf : Config) (b b' : Bbv) (w : Here) (c : Cont) (r : nat * option nat) :
  cf_census cf = false -> cf_peel cf = false -> inv b -> cont_ok bind_iv c -> cont cf b w c = Ok (b', r) ->
  is_Some (vt_vers (b_vers b') !! fst r).
Proof.
  intros H1 H2 Hb Hc. unfold cont. destruct (cont_normal cf b w c) as [[b1 v]| | |] eqn:E1; cbn [mbind res_bind]; try done.
  destruct (cont_normal_ok bind_iv cf H1 H2 b b1 w c v Hb Hc (or_introl E1)) as [N1 N2].
  destruct (seam_vers cf b b1 w c _ v H1 H2 Hb Hc E1) as [x Hx].
  destruct (try_onramp cf b1 w c) as [[b2 ov]| | |] eqn:E2; cbn [mbind res_bind]; try done.
  destruct (try_onramp_ok bind_iv cf H1 H2 b1 b2 w c ov N1 E2) as [O1 O2]. apply (kp_vers _ _ O2) in Hx.
  destruct ov; [intros [= <- <-]; by eexists|].
  destruct (try_call_return_onramp cf b2 w c) as [[b3 r3]| | |] eqn:E3; cbn [mbind res_bind]; try done. intros [= <- <-].
  destruct (try_call_return_ok bind_iv cf H1 H2 b2 b3 w c r3 O1 E3) as [_ O3]. apply (kp_vers _ _ O3) in Hx. by eexists.
Qed.

(** A walk from the empty table moves. *)
Lemma first_walk_moves (rg : Rung) (fuel : nat) (st : State) (b : Bbv) (bg : Budget) (v : Verdict) :
  st_ok st -> vt_vers (st_vers st) = [] -> let cf := config_of bd EM_ContextOnly rg st in
  emit cf (walk cf) fuel (bbv_new bd st) = Ok (b, bg, v) -> v = VD_Refused \/ b_changed b = true.
Proof.
  intros Hst Hnil cf. unfold emit. pose proof (Hst : inv (bbv_new bd st)) as Hb0. set (b0 := bbv_new bd st) in *.
  destruct (run_moves cf (walk cf) fuel None [] T_Opt [] b0) as [[b1 r1]| | |] eqn:Er; cbn [mbind res_bind]; try done.
  intros E. destruct r1 as [spent|]; [|injection E as _ _ <-; by left]. right.
  destruct (run_moves_ok bind_iv cf (walk cf) Hcensus Hpeel (Hwalk cf) _ _ _ _ _ _ _ _ Hb0 Er) as [R1 _].
  destruct (drain_inv bind_iv cf (walk cf) Hcensus Hpeel (Hwalk cf) _ _ _ _ _ _ R1 E) as [_ [_ G _]].
  enough (b_changed b1 = true) as H by (apply not_false_is_true; intros Hf; apply G in Hf; congruence). clear E G.
  assert (forall b2 x, inv b2 -> adds cf b2 b1 -> is_Some (vt_vers (b_vers b2) !! x) -> (b_changed b2 = false -> still b0 b2) ->
    b_changed b1 = true) as Hdone.
  { intros b2 x _ [_ G _] [y Hx] Hs. apply not_false_is_true. intros Hf. destruct (Hs (G Hf)) as [E _]. rewrite E in Hx.
    change (vt_vers (st_vers st) !! x = Some y) in Hx. by rewrite Hnil in Hx. }
  pose proof (Hfirst cf (b_vers b0) (b_segs b0)) as Hf. destruct fuel as [|fuel].
  { cbn [run_moves] in Er. destruct Hf as [[c [Hw|Hw]]|Hw]; by rewrite Hw in Er. }
  cbn [run_moves] in Er. destruct Hf as [[c [Hw|Hw]]|Hw]; rewrite Hw in Er; [..|done].
  - destruct (cont cf b0 _ c) as [[b2 r2]| | |] eqn:Ec; cbn [mbind res_bind] in Er; try done.
    pose proof (move_ok bind_iv (walk cf) (Hwalk cf) _ _ _ _ Hb0 (or_introl Hw)) as Hc.
    destruct (cont_seam_ok bind_iv cf Hcensus Hpeel _ _ _ _ _ Hb0 Hc Ec) as [C1 C2].
    destruct (run_moves_ok bind_iv cf (walk cf) Hcensus Hpeel (Hwalk cf) _ _ _ _ _ _ _ _ C1 Er) as [_ G].
    apply (Hdone b2 (fst r2)); try done.
    + exact (cont_vers cf b0 b2 _ c r2 Hcensus Hpeel Hb0 Hc Ec).
    + intros Hch. by destruct (cont_mirror bind_iv cf Hcensus Hpeel eq_refl b0 b2 _ c r2 _ Hb0 Hc Ec Hch (reflexivity _)).
  - destruct (resume cf b0 _ c) as [[b2 r2]| | |] eqn:Ec; cbn [mbind res_bind] in Er; try done.
    pose proof (move_ok bind_iv (walk cf) (Hwalk cf) _ _ _ _ Hb0 (or_intror Hw)) as Hc.
    destruct (cont_normal_ok bind_iv cf Hcensus Hpeel _ _ _ _ _ Hb0 Hc (or_intror Ec)) as [C1 C2].
    destruct (run_moves_ok bind_iv cf (walk cf) Hcensus Hpeel (Hwalk cf) _ _ _ _ _ _ _ _ C1 Er) as [_ G].
    apply (Hdone b2 r2); try done.
    + exact (seam_vers cf b0 b2 _ c _ r2 Hcensus Hpeel Hb0 Hc Ec).
    + intros Hch. by destruct (theta_seam_mirror bind_iv cf Hcensus Hpeel eq_refl b0 b2 _ c _ r2 _ Hb0 Hc Ec Hch (reflexivity _)).
Qed.

(** ** The prediction, and the walk that consults it *)

(** Where the rounds may start: from nothing, or with recorded splices. *)
Definition start_ok (st : State) : Prop := st_ok st /\ (vt_vers (st_vers st) = [] \/ is_Some (st_splices st)).

(** The rounds gave up on a fixpoint after widening every context away. *)
Definition stripped_out (st : State) : Prop :=
  st_stripping st = true /\ rounds_cap (st_vers st) + STRIP_MAX_ROUNDS <= st_rounds st.

(** The emitting walk of a state moves nothing. *)
Definition consults (fuel : nat) (rg : Rung) (st : State) : Prop :=
  let cf := config_of bd EM_Code rg st in
  exists b bg v, emit cf (walk cf) fuel (bbv_new bd st) = Ok (b, bg, v) /\ b_changed b = false /\ b_vers b = st_vers st.

(** A frozen walk that moved nothing is repeated by the emitting walk. *)
Lemma walk_repeated (rg : Rung) (fuel : nat) (st : State) (b : Bbv) (bg : Budget) (v : Verdict) :
  st_ok st -> is_Some (st_splices st) -> let cf := config_of bd EM_ContextOnly rg st in
  emit cf (walk cf) fuel (bbv_new bd st) = Ok (b, bg, v) -> b_changed b = false -> consults fuel rg (after_walk b st).
Proof.
  intros Hst Hs cf E Hch.
  assert (cf_frozen cf = true) as Hfr by by apply bool_decide_eq_true.
  destruct (emit_ok bind_iv cf (walk cf) Hcensus Hpeel (Hwalk cf) _ _ _ _ _ (Hst : inv (bbv_new bd st)) E) as [_ [_ _ G]].
  destruct (G Hfr) as [G1 G2].
  destruct (emit_mirror bind_iv cf (walk cf) Hcensus Hpeel eq_refl Hfr (Hwalk cf) fuel _ b bg v (b_classes b) (Hst : inv (bbv_new bd st)) E Hch (reflexivity _))
    as [M1 [bg' M2]].
  assert (config_of bd EM_Code rg (after_walk b st) = as_code cf) as Ecf.
  { unfold as_code. rewrite Hfr. unfold config_of. cbn. f_equal. }
  assert (bbv_new bd (after_walk b st) = with_classes (bbv_new bd st) (b_classes b)) as Eb.
  { unfold bbv_new, with_classes, after_walk. cbn. rewrite G2, M1. done. }
  unfold consults. rewrite Ecf, Eb, Hblind. eexists _, bg', v. split; [exact M2|]. done.
Qed.

Lemma predict_run_spec (rounds fuel : nat) (rg : Rung) (st st' : State) :
  start_ok st -> predict_run bd walk rounds fuel rg st = Ok (Some st') ->
  (st_ok st' /\ is_Some (st_splices st')) /\ (stripped_out st' \/ consults fuel rg st').
Proof.
  revert st. induction rounds as [|rounds IH]; intros st [Hst Hs]; [done|]. cbn [predict_run].
  set (cf := config_of bd EM_ContextOnly rg st).
  destruct (emit cf (walk cf) fuel (bbv_new bd st)) as [[[b bg] v]| | |] eqn:Ee; cbn [mbind res_bind]; try done.
  destruct (walk_state_ok EM_ContextOnly rg fuel st b bg v Hst Ee) as [W1 _].
  pose proof (next_round_ok bd (b_prov_changed b) (b_changed b) _ W1) as N1.
  pose proof (next_round_splices bd (b_prov_changed b) (b_changed b) (after_walk b st)) as N2.
  intros E. assert (v <> VD_Refused /\ (let '(st, again) := next_round bd (b_prov_changed b) (b_changed b) (after_walk b st) in
    if again : bool then predict_run bd walk rounds fuel rg st else Ok (Some st)) = Ok (Some st')) as [Hv E'] by by destruct v.
  clear E. destruct (next_round bd _ _ _) as [st1 again] eqn:En. cbn [fst] in N1, N2.
  assert (is_Some (st_splices st1)) as Hs1 by (rewrite N2; by eexists).
  destruct again; [exact (IH st1 (conj N1 (or_intror Hs1)) E')|]. injection E' as <-. split; [done|].
  unfold next_round in En. destruct (b_changed b) eqn:Hch; cbn [negb] in En.
  - left. destruct (_ && _) eqn:Ec in En; [by injection En|]. injection En as <- En.
    apply negb_false_iff, Z.leb_le in En. cbn in Ec, En. split; [|exact En]. cbn.
    apply andb_false_iff in Ec as [Ec|Ec]; [|by apply negb_false_iff in Ec]. apply Z.leb_gt in Ec. unfold STRIP_MAX_ROUNDS in En. lia.
  - right. rewrite Hcensus in En. cbn [andb] in En. injection En as <-. apply (walk_repeated rg fuel st b bg v Hst); [|exact Ee|done].
    destruct Hs as [Hs|Hs]; [|done]. exfalso. destruct (first_walk_moves rg fuel st b bg v Hst Hs Ee); congruence.
Qed.

(** The closure check passes on a consulted table. *)
Lemma consults_close (tries rounds fuel : nat) (n : Z) (rg : Rung) (st st' : State) :
  predict_run bd walk rounds fuel rg st = Ok (Some st') -> consults fuel rg st' ->
  exists b bg v, close bd walk (S tries) rounds fuel n rg st = Ok (CL_Body b bg v) /\ b_changed b = false /\ b_vers b = st_vers st'.
Proof.
  intros E (b & bg & v & H1 & H2 & H3). exists b, bg, v. split; [|done]. cbn [close]. rewrite E. cbn [mbind res_bind].
  rewrite H1. cbn [mbind res_bind]. by rewrite H2.
Qed.
End Consult.
