(* ===== verification/VersionMeasure.v ===== *)
(** * VersionMeasure: what every step of a walk uses up

    The measure of a walk's state, in this order: the version ids at points
    without a prediction; the heights of the predictions; the ids whose
    context is not the emission of the prediction they read; the ids without
    a block. A step lowers it, or leaves both it and the queue as they were. *)

From Stdlib Require Import Wellfounded.Lexicographic_Product Relation_Operators Wf_nat.
From S2P Require Import Prelude Mem OpSem Facts Ctx SlotSound CtxSound CtxHeight Predict PredictSound Versions VersionTable VersionInv.

(** ** Sums over the ids *)

(** The id space of a version is [u32]. *)
Definition IDS : nat := Z.to_nat (2 ^ 32).

Definition total (f : nat -> nat) : nat := sum_list_with f (seq 0 IDS).
Definition missing (f : nat -> bool) : nat := total (fun i => if f i then 0 else 1)%nat.

Lemma sum_le (f g : nat -> nat) (l : list nat) : (forall i, (f i <= g i)%nat) -> (sum_list_with f l <= sum_list_with g l)%nat.
Proof. intros H. induction l as [|x l IH]; [done|]. cbn [sum_list_with]. specialize (H x). lia. Qed.

Lemma sum_lt (f g : nat -> nat) (l : list nat) (i : nat) :
  (forall i, (f i <= g i)%nat) -> i ∈ l -> (f i < g i)%nat -> (sum_list_with f l < sum_list_with g l)%nat.
Proof.
  intros H Hi Hlt. induction l as [|x l IH]; [by apply elem_of_nil in Hi|]. cbn [sum_list_with]. pose proof (sum_le f g l H). pose proof (H x).
  apply elem_of_cons in Hi as [->|Hi]; [lia|]. specialize (IH Hi). lia.
Qed.

Lemma total_ext (f g : nat -> nat) : (forall i, f i = g i) -> total f = total g.
Proof. intros H. apply Nat.le_antisymm; apply sum_le; intros i; rewrite H; done. Qed.

Lemma total_lt (f g : nat -> nat) (i : nat) : (forall i, (f i <= g i)%nat) -> (i < IDS)%nat -> (f i < g i)%nat -> (total f < total g)%nat.
Proof. intros H Hi Hlt. apply (sum_lt f g _ i H); [|done]. apply elem_of_seq. lia. Qed.

Lemma missing_ext (f g : nat -> bool) : (forall i, f i = g i) -> missing f = missing g.
Proof. intros H. apply total_ext. intros i. by rewrite H. Qed.

Lemma missing_lt (f g : nat -> bool) (i : nat) :
  (forall i, g i = true -> f i = true) -> (i < IDS)%nat -> f i = true -> g i = false -> (missing f < missing g)%nat.
Proof.
  intros H Hi Hf Hg. apply (total_lt _ _ i); [|done|by rewrite Hf, Hg; lia]. intros j. specialize (H j).
  destruct (g j); [by rewrite H|]. destruct (f j); lia.
Qed.

(** ** The measure *)

Definition facts_of (t : VerTable) (v : Ver) : Ctx :=
  if bool_decide (v_track v = T_Opt) then default ctx_default (pred_at (vt_pred t) (v_pc v)) else ctx_default.

Definition covered (t : VerTable) (i : nat) : bool :=
  match vt_vers t !! i with Some v => bool_decide (is_Some (p_at (vt_pred t) !! v_pc v)) | None => false end.

Definition height_of (t : VerTable) (i : nat) : nat :=
  match vt_vers t !! i with
  | Some v => match p_at (vt_pred t) !! v_pc v with Some c => ctx_height c | None => 0 end
  | None => 0
  end.

(** The context is the emission context of the identity. *)
Definition settled (t : VerTable) (i : nat) : bool :=
  match vt_vers t !! i, ver_ctx t i with
  | Some v, Some c =>
      match p_carried (vt_pred t) !! (v_pc v, v_track v) with
      | Some car => ctx_eqb c (emission (facts_of t v) (c_tokens c) car (v_track v))
      | None => false
      end
  | _, _ => false
  end.

Definition Measure : Type := nat * (nat * (nat * nat)).

Definition measure (b : Bbv) : Measure :=
  (missing (covered (b_vers b)), (total (height_of (b_vers b)),
    (missing (settled (b_vers b)), missing (fun i => bool_decide (i ∈ b_blocks b))))).

Definition mlt : Measure -> Measure -> Prop := slexprod _ _ lt (slexprod _ _ lt (slexprod _ _ lt lt)).

Lemma mlt_wf : well_founded mlt.
Proof. repeat (apply wf_slexprod; [exact lt_wf|]). exact lt_wf. Qed.

Lemma mlt_trans (x y z : Measure) : mlt x y -> mlt y z -> mlt x z.
Proof.
  assert (forall A B (R : A -> A -> Prop) (S : B -> B -> Prop), (forall a b c, R a b -> R b c -> R a c) -> (forall a b c, S a b -> S b c -> S a c) ->
    forall a b c, slexprod A B R S a b -> slexprod A B R S b c -> slexprod A B R S a c) as H.
  { intros A B R S HR HS a b c H1. inversion H1; subst; intros H2; inversion H2; subst; try (apply left_slex; by eauto); apply right_slex; by eauto. }
  unfold mlt. apply H; [lia|]. apply H; [lia|]. apply H; lia.
Qed.

(** What a step does. *)
Definition progress (b b' : Bbv) : Prop := mlt (measure b') (measure b) \/ (measure b' = measure b /\ b_queue b' = b_queue b).

Lemma progress_refl (b b' : Bbv) : b_vers b' = b_vers b -> b_blocks b' = b_blocks b -> b_queue b' = b_queue b -> progress b b'.
Proof. intros E1 E2 E3. right. unfold measure. by rewrite E1, E2. Qed.

Lemma progress_trans (a b c : Bbv) : progress a b -> progress b c -> progress a c.
Proof.
  intros [H1|[H1 Q1]] [H2|[H2 Q2]].
  - left. by eapply mlt_trans.
  - left. by rewrite H2.
  - left. by rewrite <- H1.
  - right. split; congruence.
Qed.

(** ** Equal contexts have equal heights *)

Lemma slot_equiv_height (s t : SlotCtx) : slot_equiv s t -> slot_height s = slot_height t.
Proof.
  intros H. apply slot_equiv_fields in H. unfold slot_height. by destruct H as (-> & -> & -> & -> & -> & -> & -> & -> & -> & -> & ->).
Qed.

Lemma slots_eqb_height (a b : list SlotCtx) : slots_eqb a b = true -> vec_height a = vec_height b.
Proof.
  unfold slots_eqb, vec_height. intros E%bool_decide_eq_true. revert b E. induction a as [|x a IH]; intros [|y b]; try done.
  intros E. pose proof (f_equal head E) as E1. pose proof (f_equal tail E) as E2. cbn [head tail fmap list_fmap] in E1, E2.
  cbn [sum_list_with]. rewrite (IH b E2). f_equal. f_equal. apply slot_equiv_height. unfold slot_equiv.
  exact (f_equal (fun o => match o with Some p => p | None => sans_prov TOP end) E1).
Qed.

Lemma frames_eqb_height (a b : list CallerFrame) :
  frames_eqb a b = true -> sum_list_with (fun f => S (frame_height f)) a = sum_list_with (fun f => S (frame_height f)) b.
Proof.
  revert b. induction a as [|x a IH]; intros [|y b]; cbn; try done. intros [E1 E2]%andb_true_iff. rewrite (IH b E2). f_equal. f_equal.
  unfold frame_eqb in E1. apply andb_true_iff in E1 as [E1 E3]. unfold frame_height. by rewrite (slots_eqb_height _ _ E1), (slots_eqb_height _ _ E3).
Qed.

Lemma gcells_eqb_height (a b : list (Z * SlotCtx)) : gcells_eqb a b = true -> gcells_height a = gcells_height b.
Proof.
  unfold gcells_eqb, gcells_height. intros E%bool_decide_eq_true. revert b E. induction a as [|x a IH]; intros [|y b]; try done.
  intros E. pose proof (f_equal head E) as E1. pose proof (f_equal tail E) as E2. cbn [head tail fmap list_fmap] in E1, E2.
  cbn [sum_list_with]. rewrite (IH b E2). f_equal. f_equal. apply slot_equiv_height. unfold slot_equiv.
  exact (f_equal (fun o => match o with Some p => snd p | None => sans_prov TOP end) E1).
Qed.

Lemma ctx_eqb_height (a b : Ctx) : ctx_eqb a b = true -> ctx_height a = ctx_height b.
Proof.
  unfold ctx_eqb. rewrite !andb_true_iff. intros (((((((((H1 & H2) & H3) & H4) & H5) & H6) & _) & _) & H7) & _). unfold ctx_height.
  by rewrite (slots_eqb_height _ _ H1), (slots_eqb_height _ _ H2), (slots_eqb_height _ _ H3), (slots_eqb_height _ _ H4), (slots_eqb_height _ _ H5),
    (frames_eqb_height _ _ H6), (gcells_eqb_height _ _ H7).
Qed.

(** Canonical form drops slots. *)
Lemma trim_height (l : list SlotCtx) : (vec_height (trim l) <= vec_height l)%nat.
Proof.
  destruct (trim_split l) as (tops & E & _). rewrite E at 2. unfold vec_height.
  assert (forall (A : Type) (f : A -> nat) (a b : list A), sum_list_with f (a ++ b) = sum_list_with f a + sum_list_with f b)%nat as H.
  { intros A f a b. induction a as [|x a IH]; cbn; [done|]. rewrite IH. lia. }
  rewrite H. lia.
Qed.

Lemma trim_frames_height (l : list CallerFrame) :
  (sum_list_with (fun f => S (frame_height f)) (trim_frames (frame_canon <$> l)) <= sum_list_with (fun f => S (frame_height f)) l)%nat.
Proof.
  induction l as [|f l IH]; [done|]. cbn [fmap list_fmap trim_frames sum_list_with].
  change (list_fmap _ _ frame_canon l) with (frame_canon <$> l).
  assert (frame_height (frame_canon f) <= frame_height f)%nat as Hf.
  { unfold frame_height. cbn [frame_canon cf_locals cf_args]. pose proof (trim_height (cf_locals f)). pose proof (trim_height (cf_args f)). lia. }
  destruct (trim_frames (frame_canon <$> l)) as [|g k]; [|cbn [sum_list_with] in *; lia]. destruct (frame_is_empty _); cbn [sum_list_with] in *; lia.
Qed.

Lemma emission_height (facts : Ctx) (toks : list (Z * Z)) (car : list Z) (t : Track) :
  ctx_wf facts -> (ctx_height (emission facts toks car t) <= ctx_height facts)%nat.
Proof.
  intros [_ W]. unfold emission, ctx_height. cbn [ctx_canon c_locals c_stack c_args c_caller_locals c_caller_args c_outer c_gcells].
  rewrite gcells_canon_id by done. pose proof (trim_frames_height (c_outer facts)).
  pose proof (trim_height (c_locals facts)). pose proof (trim_height (c_stack facts)). pose proof (trim_height (c_args facts)).
  pose proof (trim_height (c_caller_locals facts)). pose proof (trim_height (c_caller_args facts)). lia.
Qed.

Lemma no_facts_height (c : Ctx) : bare c -> has_facts c = false -> ctx_height c = 0%nat -> c = ctx_default.
Proof.
  intros (B1 & B2 & B3) Hf Hh. unfold has_facts in Hf. rewrite !orb_false_iff, !negb_false_iff, !bool_decide_eq_true in Hf.
  destruct Hf as (((((H1 & H2) & H3) & H4) & H5) & H6). destruct c as [l s a cl ca o tk cr g t]. cbn [c_locals c_stack c_args c_caller_locals c_caller_args c_outer c_tokens c_carried c_gcells c_track] in *. subst.
  destruct o as [|f o]; [done|]. unfold ctx_height in Hh. cbn [sum_list_with c_locals c_stack c_args c_caller_locals c_caller_args c_outer c_gcells] in Hh. lia.
Qed.

(** ** Shapes of a step *)

Lemma lt_uncovered (b b' : Bbv) : (missing (covered (b_vers b')) < missing (covered (b_vers b)))%nat -> progress b b'.
Proof. intros H. left. by apply left_slex. Qed.

Lemma lt_height (b b' : Bbv) :
  missing (covered (b_vers b')) = missing (covered (b_vers b)) ->
  (total (height_of (b_vers b')) < total (height_of (b_vers b)))%nat -> progress b b'.
Proof. intros E H. left. unfold measure. rewrite E. apply right_slex. by apply left_slex. Qed.

Lemma lt_unsettled (b b' : Bbv) :
  missing (covered (b_vers b')) = missing (covered (b_vers b)) -> total (height_of (b_vers b')) = total (height_of (b_vers b)) ->
  (missing (settled (b_vers b')) < missing (settled (b_vers b)))%nat -> progress b b'.
Proof. intros E1 E2 H. left. unfold measure. rewrite E1, E2. do 2 apply right_slex. by apply left_slex. Qed.

Lemma lt_unblocked (b b' : Bbv) (i : nat) :
  b_vers b' = b_vers b -> (i < IDS)%nat -> i ∉ b_blocks b -> b_blocks b' = {[i]} ∪ b_blocks b -> progress b b'.
Proof.
  intros E Hi Hn Hb. left. unfold measure. rewrite E. do 3 apply right_slex. rewrite Hb. apply (missing_lt _ _ i); [|done|..].
  - intros j. rewrite !bool_decide_eq_true. set_solver.
  - rewrite bool_decide_eq_true. set_solver.
  - by rewrite bool_decide_eq_false.
Qed.

Lemma id_lt (t : VerTable) (i : nat) (v : Ver) : ids_ok t -> vt_vers t !! i = Some v -> (i < IDS)%nat.
Proof. intros H E%lookup_lt_Some. pose proof (io_small _ H). unfold IDS. lia. Qed.

(** The prediction at the point of a version is set, or lowered. *)
Lemma pred_progress (b b' : Bbv) (pc : Z) (i : nat) (v : Ver) :
  ids_ok (b_vers b) -> vt_vers (b_vers b) !! i = Some v -> v_pc v = pc -> vt_vers (b_vers b') = vt_vers (b_vers b) ->
  let p := vt_pred (b_vers b) in let p' := vt_pred (b_vers b') in
  (forall q, q <> pc -> p_at p' !! q = p_at p !! q) ->
  match p_at p !! pc, p_at p' !! pc with
  | None, Some _ => True
  | Some c, Some c' => (ctx_height c' < ctx_height c)%nat
  | _, None => False
  end -> progress b b'.
Proof.
  intros Hids Hi Hpc Hv p p' Hq Hm. pose proof (id_lt _ _ _ Hids Hi) as Hlt.
  assert (forall j, covered (b_vers b) j = true -> covered (b_vers b') j = true) as Hcov.
  { intros j. unfold covered. rewrite Hv. destruct (vt_vers (b_vers b) !! j) as [w|]; [|done]. rewrite !bool_decide_eq_true.
    fold p p'. destruct (decide (v_pc w = pc)) as [->|Hne]; [|by rewrite Hq]. by destruct (p_at p' !! pc), (p_at p !! pc). }
  destruct (p_at p !! pc) as [c|] eqn:E, (p_at p' !! pc) as [c'|] eqn:E'; try done.
  - apply lt_height.
    + apply missing_ext. intros j. apply eq_true_iff_eq. split; [|by apply Hcov]. unfold covered. rewrite Hv.
      destruct (vt_vers (b_vers b) !! j) as [w|]; [|done]. rewrite !bool_decide_eq_true. fold p p'.
      destruct (decide (v_pc w = pc)) as [->|Hne]; [rewrite E; by eexists|by rewrite Hq].
    + assert (forall j w, vt_vers (b_vers b) !! j = Some w -> height_of (b_vers b') j = if decide (v_pc w = pc) then ctx_height c' else height_of (b_vers b) j) as Hh.
      { intros j w Hj. unfold height_of. rewrite Hv, Hj. fold p p'. destruct (decide (v_pc w = pc)) as [->|Hne]; [by rewrite E'|by rewrite Hq]. }
      assert (forall j w, vt_vers (b_vers b) !! j = Some w -> v_pc w = pc -> height_of (b_vers b) j = ctx_height c) as Hh'.
      { intros j w Hj <-. unfold height_of. rewrite Hj. fold p. by rewrite E. }
      apply (total_lt _ _ i); [|done|].
      * intros j. destruct (vt_vers (b_vers b) !! j) as [w|] eqn:Ej; [|unfold height_of; by rewrite Hv, Ej].
        rewrite (Hh j w Ej). destruct (decide (v_pc w = pc)) as [Hw|]; [rewrite (Hh' j w Ej Hw); lia|lia].
      * rewrite (Hh i v Hi), decide_True, (Hh' i v Hi Hpc) by done. done.
  - apply lt_uncovered. apply (missing_lt _ _ i); [exact Hcov|done|..]; unfold covered; rewrite ?Hv, Hi, Hpc; fold p p'.
    + rewrite E'. apply bool_decide_eq_true. by eexists.
    + rewrite E. apply bool_decide_eq_false. by intros [? ?].
Qed.

(** A new identity. *)
Lemma intern_progress (b : Bbv) (t : VerTable) (v : Ver) (i : nat) :
  ids_ok (b_vers b) -> ver_intern (b_vers b) v = Some (t, i) -> progress b (with_vers b t).
Proof.
  intros Hids E. destruct (ver_intern_spec _ _ _ _ Hids E) as (I1 & I2 & I3 & I4 & I5 & I6 & I7).
  destruct (vt_vers (b_vers b) !! i) as [w|] eqn:Ei.
  { assert (w = v) as -> by (apply I5 in Ei; congruence).
    assert (t = b_vers b) as -> by (unfold ver_intern in E; apply (io_ids _ Hids) in Ei; rewrite Ei in E; by injection E).
    by apply progress_refl. }
  assert (forall j, j <> i -> vt_vers t !! j = vt_vers (b_vers b) !! j) as Hj.
  { intros j Hne. destruct (vt_vers t !! j) as [w|] eqn:Ej.
    - destruct (I6 j w Ej) as [->|(-> & _)]; done.
    - destruct (vt_vers (b_vers b) !! j) as [w|] eqn:Ej'; [|done]. apply I5 in Ej'. congruence. }
  assert (covered (b_vers b) i = false) as Hci by (unfold covered; by rewrite Ei).
  assert (forall j, j <> i -> covered t j = covered (b_vers b) j) as Hcj by (intros j Hne; unfold covered; by rewrite Hj, I3 by done).
  destruct (covered t i) eqn:Ec.
  - apply lt_uncovered. apply (missing_lt _ _ i); [|by eapply id_lt|exact Ec|exact Hci].
    intros j. destruct (decide (j = i)) as [->|Hne]; [by rewrite Hci|cbn; by rewrite Hcj].
  - right. split; [|done]. unfold measure. cbn [b_vers b_blocks with_vers].
    assert (missing (covered t) = missing (covered (b_vers b))) as ->.
    { apply missing_ext. intros j. destruct (decide (j = i)) as [->|Hne]; [congruence|by apply Hcj]. }
    assert (total (height_of t) = total (height_of (b_vers b))) as ->.
    { apply total_ext. intros j. unfold height_of. destruct (decide (j = i)) as [->|Hne]; [|by rewrite Hj, I3].
      unfold covered in Ec. rewrite I2 in Ec |- *. rewrite Ei. apply bool_decide_eq_false in Ec.
      destruct (p_at (vt_pred t) !! v_pc v); [|done]. destruct Ec. by eexists. }
    assert (missing (settled t) = missing (settled (b_vers b))) as ->; [|done].
    apply missing_ext. intros j. unfold settled, facts_of. rewrite I4, I3. destruct (decide (j = i)) as [->|Hne]; [|by rewrite Hj].
    rewrite I2, Ei. destruct (ver_ctx (b_vers b) i) eqn:Ex; [|done]. apply ver_ctx_lt in Ex; [|done]. apply lookup_ge_None in Ei. lia.
Qed.

(** The context of an identity becomes its emission context. *)
Lemma settle_progress (b b' : Bbv) (i : nat) (v : Ver) (toks : list (Z * Z)) (car : list Z) :
  ids_ok (b_vers b) -> vt_vers (b_vers b) !! i = Some v -> settled (b_vers b) i = false ->
  let t := b_vers b in let t' := b_vers b' in
  vt_vers t' = vt_vers t -> p_at (vt_pred t') = p_at (vt_pred t) -> p_carried (vt_pred t) ⊆ p_carried (vt_pred t') ->
  (forall j, j <> i -> ver_ctx t' j = ver_ctx t j) -> p_carried (vt_pred t') !! (v_pc v, v_track v) = Some car ->
  ver_ctx t' i = Some (emission (facts_of t v) toks car (v_track v)) -> progress b b'.
Proof.
  intros Hids Hi Hset t t' Hv Hat Hcar Hctx Hc Hnew.
  assert (facts_of t' = facts_of t) as Hf by (unfold facts_of, pred_at; by rewrite Hat).
  apply lt_unsettled.
  - apply missing_ext. intros j. unfold covered. fold t t'. by rewrite Hv, Hat.
  - apply total_ext. intros j. unfold height_of. fold t t'. by rewrite Hv, Hat.
  - apply (missing_lt _ _ i); [|by eapply id_lt| |done].
    + intros j. unfold settled. fold t t'. rewrite Hv, Hf. destruct (decide (j = i)) as [->|Hne]; [unfold settled in Hset; fold t in Hset; by rewrite Hset|].
      rewrite Hctx by done. destruct (vt_vers t !! j) as [w|]; [|done]. destruct (ver_ctx t j) as [c|]; [|done].
      destruct (p_carried (vt_pred t) !! _) as [k|] eqn:Ek; [|done]. by rewrite (lookup_weaken _ _ _ _ Ek Hcar).
    + unfold settled. fold t t'. rewrite Hv. unfold t at 1. rewrite Hi, Hnew, Hc, Hf. apply ctx_eqb_refl.
Qed.
