(* ===== verification/VersionProgress.v ===== *)
(** * VersionProgress: the steps of a walk, by the measure

    Every call of the continuation seam lowers the measure or leaves it and
    the queue, in either mode, and returns: no step loops. *)

From S2P Require Import Prelude Mem OpSem Facts Ctx SlotSound CtxSound CtxHeight Predict PredictSound Versions VersionTable VersionInv VersionFrozen VersionMeasure.

Section Progress.
Context (bind_iv : Z -> option ValueRange) (cf : Config).
Hypothesis Hcensus : cf_census cf = false.
Hypothesis Hpeel : cf_peel cf = false.

#[local] Abbreviation inv := (inv bind_iv).
#[local] Abbreviation arr_ok := (arr_ok bind_iv).
#[local] Abbreviation cont_ok := (cont_ok bind_iv).

Lemma theta_join_progress (b : Bbv) (pc cur_pc depth : Z) (c : Ctx) (i : nat) (v : Ver) :
  inv b -> arr_ok c -> vt_vers (b_vers b) !! i = Some v -> v_pc v = pc -> progress b (theta_join cf b pc cur_pc depth c).
Proof.
  intros Hb Hc Hi Hpc. unfold theta_join. destruct (bool_decide _ && _) eqn:Eo; [|by apply progress_refl].
  apply andb_true_iff in Eo as [_ Em%bool_decide_eq_true]. rewrite Hpeel. cbn [andb]. pose proof (arr_ok_pred bind_iv c Hc) as [A1 A2].
  pose proof (join_arrival_spec bind_iv (vt_pred (b_vers b)) pc depth (facts_only c) _ (table_ok_preds _ _ _ Hb) A1 (le_n _)) as J.
  pose proof (join_arrival_at (vt_pred (b_vers b)) pc depth (facts_only c)) as K.
  destruct (join_arrival (vt_pred (b_vers b)) pc depth (facts_only c)) as [p' moved].
  destruct J as (_ & (c1 & E1 & _) & J3 & J4). destruct (K (to_depth _ _ _ Hb)) as (_ & _ & _ & _ & K5). clear K.
  unfold room in J3. rewrite E1 in J3. pose proof (to_ids _ _ _ Hb) as Hids.
  assert (forall b', vt_vers (b_vers b') = vt_vers (b_vers b) -> vt_pred (b_vers b') = p' ->
    (moved = true \/ p_at (vt_pred (b_vers b)) !! pc = None \/ exists c0, p_at (vt_pred (b_vers b)) !! pc = Some c0 /\ ctx_height c1 < ctx_height c0)%nat ->
    progress b b') as Hp.
  { intros b' Hv Hp Hm. apply (pred_progress b b' pc i v Hids Hi Hpc Hv); rewrite ?Hp; [exact J4|]. rewrite E1.
    destruct (p_at (vt_pred (b_vers b)) !! pc) as [c0|] eqn:E0; [|done].
    destruct Hm as [->|[?|(c0' & [= <-] & Hm)]]; [cbn in J3; lia|done|done]. }
  destruct moved.
  - destruct (rearm_pc_spec cf (note_changed (with_pred_b b p')) pc Em (with_pred_ids _ _ Hids)) as (_ & _ & R3 & R4 & _).
    apply Hp; [exact R3|exact R4|by left].
  - destruct (K5 eq_refl) as [->|(-> & c0 & E0 & Hf)]; [by apply progress_refl; [rewrite with_pred_b_id|..]|].
    cbn in E1. rewrite lookup_insert_eq in E1. injection E1 as <-.
    destruct (decide (ctx_height c0 = 0)%nat) as [Hz|Hz].
    + destruct (to_pred _ _ _ Hb pc c0 E0) as [[_ Hbare _] _]. pose proof (no_facts_height c0 Hbare Hf Hz) as ->.
      apply progress_refl; [|done|done]. transitivity (b_vers (with_pred_b b (vt_pred (b_vers b)))); [|by rewrite with_pred_b_id].
      f_equal. f_equal. unfold set_at. rewrite insert_id by done. by destruct (vt_pred (b_vers b)).
    + apply Hp; [done|done|]. right; right. exists c0. split; [done|]. change (ctx_height ctx_default) with 0%nat. lia.
Qed.

(** A context that is not what its identity emits is not settled. *)
Lemma mismatch_unsettled (b : Bbv) (i : nat) (v : Ver) (toks : list (Z * Z)) (car : list Z) :
  inv b -> vt_vers (b_vers b) !! i = Some v -> b_classes b !! toks = Some (v_class v) ->
  (forall k, p_carried (vt_pred (b_vers b)) !! (v_pc v, v_track v) = Some k -> k = car) ->
  match ver_ctx (b_vers b) i with Some cur => ctx_eqb cur (emission (facts_of (b_vers b) v) toks car (v_track v)) | None => false end = false ->
  settled (b_vers b) i = false.
Proof.
  intros Hb Hi Hcl Hcar. unfold settled. rewrite Hi. destruct (ver_ctx (b_vers b) i) as [cur|] eqn:Ec; [|done].
  destruct (to_ctx _ _ _ Hb i v cur Hi Ec) as (H1 & H2 & [k Hk]). rewrite Hk, (Hcar k Hk). by rewrite (to_inj _ _ _ Hb _ _ _ H1 Hcl).
Qed.

Lemma theta_emit_progress (b b' : Bbv) (pc : Z) (i : nat) (v : Ver) (c : Ctx) :
  inv b -> vt_vers (b_vers b) !! i = Some v -> v_pc v = pc -> v_track v = c_track c -> b_classes b !! c_tokens c = Some (v_class v) ->
  theta_emit cf b pc i c = Ok b' -> progress b b'.
Proof.
  intros Hb Hi Hpc Ht Hcl. pose proof (to_ids _ _ _ Hb) as Hids. unfold theta_emit.
  pose proof (carried_ok bind_iv (b_classes b) (b_vers b) pc (c_track c) (c_carried c) Hb) as K.
  assert (p_carried (vt_pred (b_vers b)) ⊆ p_carried (fst (carried_join (vt_pred (b_vers b)) pc (c_track c) (c_carried c)))) as Hsub.
  { unfold carried_join. destruct (p_carried _ !! _) eqn:E; [done|]. by apply insert_subseteq. }
  destruct (carried_join (vt_pred (b_vers b)) pc (c_track c) (c_carried c)) as [p [car grew]]. destruct K as (K1 & K2 & K3 & -> & K5). cbn [fst] in Hsub.
  cbn zeta. set (b1 := with_pred_b b p).
  assert ((if bool_decide (c_track c = T_Opt) then default ctx_default (pred_at (vt_pred (b_vers b)) pc) else ctx_default) = facts_of (b_vers b) v) as Ef
    by (unfold facts_of; by rewrite Ht, Hpc).
  rewrite Ef, <- Ht. change (ver_ctx (b_vers b1) i) with (ver_ctx (b_vers b) i).
  destruct (negb _) eqn:En.
  - apply negb_true_iff in En. destruct (cf_debug cf && _); [done|]. intros [= <-].
    match goal with |- progress b (rearm cf ?x i) => set (b2 := x); destruct (rearm_same cf b2 i) as [_ R] end.
    assert (settled (b_vers b) i = false) as Hset.
    { apply (mismatch_unsettled b i v (c_tokens c) car Hb Hi Hcl); [|exact En]. intros k Hk. rewrite Hpc, Ht in Hk.
      rewrite (lookup_weaken _ _ _ _ Hk Hsub) in K3. congruence. }
    assert (i < length (vt_vers (with_pred (b_vers b) p)))%nat as Hlt by (by eapply lookup_lt_Some).
    apply (settle_progress b _ i v (c_tokens c) car Hids Hi Hset); rewrite R.
    + done.
    + exact K2.
    + exact Hsub.
    + intros j Hne. cbn. rewrite ver_ctx_set by first [apply with_pred_ids, Hids|done]. by rewrite decide_False by congruence.
    + cbn. rewrite Hpc, Ht. exact K3.
    + cbn. rewrite ver_ctx_set by first [apply with_pred_ids, Hids|done]. by rewrite decide_True.
  - apply negb_false_iff in En. destruct (_ && _); [done|]. intros [= <-]. apply progress_refl; [|done|done].
    destruct (ver_ctx (b_vers b) i) as [cur|] eqn:Ec; [|done]. destruct (to_ctx _ _ _ Hb i v cur Hi Ec) as (_ & _ & Hk).
    rewrite Hpc, Ht in Hk. subst b1. rewrite (K5 Hk). by rewrite with_pred_b_id.
Qed.

Lemma theta_progress (b b' : Bbv) (pc cur_pc : Z) (n i : nat) (c : Ctx) :
  inv b -> arr_ok c -> theta cf b pc cur_pc n c = Ok (b', i) -> progress b b'.
Proof.
  intros Hb Hc. unfold theta. pose proof (theta_ctx_ok bind_iv cf c Hc) as Hc'. set (a := theta_ctx cf c) in *.
  destruct (tok_class b (c_tokens a)) as [[b2 class]|] eqn:Ec; [|done].
  destruct (tok_class_spec _ _ _ _ _ Hb Ec) as (T1 & T2 & T3 & _).
  destruct (key_depth b2 n) as [b3 depth] eqn:Ed. destruct (key_depth_spec _ _ _ _ Ed) as (D1 & D2 & _).
  assert (inv b3) as Hb3 by (unfold VersionInv.inv; by rewrite D1, D2).
  assert (progress b b3) as P3.
  { apply progress_refl; [rewrite D1, T3; done|..]; unfold key_depth in Ed; destruct (_ <? _)%Z; injection Ed as <- _; cbn; by rewrite T3. }
  destruct (ver_intern (b_vers b3) _) as [[t v]|] eqn:Ev; [|done].
  assert (class < size (b_classes b3))%nat as Hcl by (apply (to_class _ _ _ Hb3 (c_tokens a)); by rewrite D2).
  destruct (ver_intern_ok bind_iv (b_classes b3) (b_vers b3) t (mkVer pc class (c_track a) depth) v Hb3 Hcl Ev) as (I1 & I2 & _).
  set (b4 := with_vers b3 t) in *. assert (inv b4) as Hb4 by exact I1.
  pose proof (intern_progress b3 t _ v (to_ids _ _ _ Hb3) Ev) as P4.
  pose proof (theta_join_progress b4 pc cur_pc depth a v _ Hb4 Hc' I2 eq_refl) as P5.
  destruct (theta_join_ok bind_iv cf Hpeel b4 pc cur_pc depth a Hb4 Hc') as (J1 & J2 & J3 & J4 & _).
  set (b5 := theta_join cf b4 pc cur_pc depth a) in *. rewrite Hcensus. cbn [andb].
  destruct (theta_emit cf b5 pc v a) as [b6| | |] eqn:Ee; cbn [mbind res_bind]; try done. intros [= <- <-].
  assert (vt_vers (b_vers b5) !! v = Some (mkVer pc class (c_track a) depth)) as Hv5 by by rewrite J3.
  assert (b_classes b5 !! c_tokens a = Some class) as Hc5 by (rewrite J4; cbn; by rewrite D2).
  pose proof (theta_emit_progress b5 b6 pc v _ a J1 Hv5 eq_refl eq_refl Hc5 Ee) as P6.
  eapply progress_trans; [exact P3|]. eapply progress_trans; [exact P4|]. by eapply progress_trans.
Qed.

Lemma ensure_progress (b b' : Bbv) (i : nat) : inv b -> ensure_block b i = Ok b' -> progress b b'.
Proof.
  intros Hb. unfold ensure_block. case_bool_decide as Hi; [intros [= <-]; by apply progress_refl|].
  destruct (ver_ctx (b_vers b) i) as [c|] eqn:Ec; [|done]. intros [= <-]. pose proof (to_ids _ _ _ Hb) as Hids.
  pose proof (ver_ctx_lt _ _ _ Hids Ec). pose proof (io_small _ Hids). apply (lt_unblocked _ _ i); [done| |done|done]. unfold IDS. lia.
Qed.

Lemma seed_opt_progress (b b' : Bbv) (pc : Z) (class : nat) (depth : Z) (toks : list (Z * Z)) (facts : Ctx) (car : list Z) (r : option nat) :
  inv b -> b_classes b !! toks = Some class -> pred_at (vt_pred (b_vers b)) pc = Some facts ->
  pred_carried (vt_pred (b_vers b)) pc T_Opt = Some car ->
  seed_opt cf b pc class depth (emission facts toks car T_Opt) = Ok (b', r) -> progress b b'.
Proof.
  intros Hb Hcl Hf Hcar. unfold seed_opt. destruct (ver_intern (b_vers b) _) as [[t v]|] eqn:Ev; [|done].
  assert (class < size (b_classes b))%nat as Hlt by by apply (to_class _ _ _ Hb toks).
  destruct (ver_intern_ok bind_iv (b_classes b) (b_vers b) t (mkVer pc class T_Opt depth) v Hb Hlt Ev) as (I1 & I2 & I3 & _).
  pose proof (intern_progress b t _ v (to_ids _ _ _ Hb) Ev) as P1. set (b1 := with_vers b t) in *.
  destruct (negb _) eqn:En; [|by intros [= <- <-]]. destruct (cf_mode cf); intros [= <- <-]; [done|].
  eapply progress_trans; [exact P1|]. apply negb_true_iff in En. change t with (b_vers b1) in I2, En.
  assert (facts_of (b_vers b1) (mkVer pc class T_Opt depth) = facts) as Ef.
  { unfold facts_of. cbn [v_track v_pc b_vers with_vers b1]. rewrite bool_decide_true, I3, Hf by done. done. }
  assert (forall k, p_carried (vt_pred (b_vers b1)) !! (pc, T_Opt) = Some k <-> k = car) as Hk.
  { intros k. cbn. rewrite I3. unfold pred_carried in Hcar. rewrite Hcar. split; [by intros [= ->]|by intros ->]. }
  assert (v < length (vt_vers t))%nat as Hv by (by eapply lookup_lt_Some).
  apply (settle_progress b1 _ v (mkVer pc class T_Opt depth) toks car (to_ids _ _ _ I1) I2).
  - apply (mismatch_unsettled b1 v _ toks car I1 I2 Hcl); [intros k; apply Hk|]. cbn [v_track]. rewrite Ef. exact En.
  - done.
  - done.
  - done.
  - intros j Hne. cbn. rewrite ver_ctx_set by first [apply I1|done]. by rewrite decide_False by congruence.
  - by apply Hk.
  - cbn. rewrite ver_ctx_set by first [apply I1|done]. rewrite decide_True by done. cbn in Ef. by rewrite Ef.
Qed.

(** The funnel's proof lowers the prediction it weakens. *)
Lemma enter_progress (b b' : Bbv) (c : Cont) (h : Z) (funnel : bool) (v : nat) (class : nat) (depth : Z) (toks : list (Z * Z)) (facts : Ctx)
    (car : list Z) (cur : Ctx) (r : option nat) :
  let oc := emission facts toks car T_Opt in
  inv b -> cont_ok c -> pred_at (vt_pred (b_vers b)) h = Some facts -> vt_vers (b_vers b) !! v = Some (mkVer h class T_Opt depth) ->
  ver_ctx (b_vers b) v = Some cur -> ctx_eqb cur oc = true ->
  enter_onramp cf b c h funnel v oc = Ok (b', r) -> progress b b'.
Proof.
  intros oc Hb (_ & _ & Hplan) Hf Hv Hcur Heq. unfold enter_onramp. destruct (negb _); [intros [= <- <-]; by apply progress_refl|].
  destruct (ct_plan c oc) as [[gaps arr]|] eqn:Ep; [|intros [= <- <-]; by apply progress_refl].
  assert (forall b3 r3, inv b3 -> progress b b3 -> (b4 ← ensure_block b3 v; Ok (b4, Some v)) = Ok (b', r3) -> progress b b') as Hens.
  { intros b3 r3 H1 H2 E. destruct (ensure_block b3 v) as [b4| | |] eqn:E4; cbn [mbind res_bind] in E; try done. injection E as <- _.
    eapply progress_trans; [exact H2|]. by apply (ensure_progress _ _ v). }
  destruct (cf_stripping cf); [apply Hens; [done|by apply progress_refl]|]. rewrite Hcur.
  destruct (ctx_eqb _ cur) eqn:Ej; [apply Hens; [done|by apply progress_refl]|].
  destruct (negb _); [intros [= <- <-]; by apply progress_refl|].
  destruct (cf_mode cf) eqn:Em; [intros [= <- <-]; by apply progress_refl|].
  destruct (funnel_ok bind_iv cf b h v cur arr Em Hb ltac:(by eexists) Hcur) as [F1 F2]. apply Hens; [exact F1|].
  set (p' := set_at (vt_pred (b_vers b)) h (facts_only (ctx_join_iv_only cur arr))) in *.
  destruct (rearm_pc_spec cf (note_changed (with_pred_b b p')) h Em (with_pred_ids _ _ (to_ids _ _ _ Hb))) as (_ & _ & R3 & R4 & _).
  apply (pred_progress b _ h v _ (to_ids _ _ _ Hb) Hv eq_refl R3); rewrite R4; cbn.
  - intros q Hq. by rewrite lookup_insert_ne.
  - unfold pred_at in Hf. rewrite Hf, lookup_insert_eq. change (ctx_height (facts_only ?x)) with (ctx_height x).
    destruct (to_wf _ _ _ Hb v cur Hcur) as [W _]. destruct (join_iv_height cur arr W (Hplan _ _ _ Ep)) as [L1 L2].
    pose proof (ctx_eqb_height _ _ Heq) as E1. destruct (to_pred _ _ _ Hb h facts Hf) as [[Wf _ _] _].
    pose proof (emission_height facts toks car T_Opt Wf) as E2. fold oc in E2.
    destruct (decide (ctx_height (ctx_join_iv_only cur arr) = ctx_height cur)) as [E|E]; [rewrite (L2 E) in Ej; done|lia].
Qed.

Lemma class_progress (b b1 : Bbv) (toks : list (Z * Z)) (class : nat) : tok_class b toks = Some (b1, class) -> progress b b1.
Proof. unfold tok_class. destruct (_ !! _); [intros [= <- _]|destruct (_ <? _)%Z; [|done]; intros [= <- _]]; by apply progress_refl. Qed.

Lemma try_onramp_progress (b b' : Bbv) (w : Here) (c : Cont) (r : option nat) :
  inv b -> cont_ok c -> try_onramp cf b w c = Ok (b', r) -> progress b b'.
Proof.
  intros Hb Hc. unfold try_onramp. destruct (List.find _ _) as [[h e]|]; [|intros [= <- <-]; by apply progress_refl].
  destruct (_ || _ || _); [intros [= <- <-]; by apply progress_refl|].
  destruct (position _ _) as [lidx|]; [|intros [= <- <-]; by apply progress_refl].
  destruct (_ && _); [intros [= <- <-]; by apply progress_refl|].
  destruct (negb _); [intros [= <- <-]; by apply progress_refl|].
  destruct (negb _); [intros [= <- <-]; by apply progress_refl|].
  set (toks := out_tokens_for _ _ _ _ _ _). destruct (tok_class b toks) as [[b1 class]|] eqn:Ec; [|done].
  destruct (tok_class_spec _ _ _ _ _ Hb Ec) as (T1 & T2 & _). pose proof (class_progress _ _ _ _ Ec) as P1.
  destruct (pred_at (vt_pred (b_vers b1)) h) as [facts|] eqn:Ef; [|by intros [= <- <-]].
  destruct (pred_carried (vt_pred (b_vers b1)) h T_Opt) as [car|] eqn:Ek; [|by intros [= <- <-]].
  destruct (seed_opt cf b1 h class _ _) as [[b2 ov]| | |] eqn:Es; cbn [mbind res_bind]; try done.
  destruct (seed_opt_ok bind_iv cf _ _ _ _ _ _ _ _ _ T1 T2 Ef Ek Es) as (S1 & S2 & S3 & S4).
  pose proof (seed_opt_progress _ _ _ _ _ _ _ _ _ T1 T2 Ef Ek Es) as P2. pose proof (progress_trans _ _ _ P1 P2) as P.
  destruct ov as [v|]; [|by intros [= <- <-]]. intros E. destruct (S4 v eq_refl) as (cur & C1 & C2 & C3).
  eapply progress_trans; [exact P|]. eapply (enter_progress b2 b'); [done|done|by rewrite S3|exact C3|exact C1|exact C2|exact E].
Qed.

Lemma try_call_return_progress (b b' : Bbv) (w : Here) (c : Cont) (r : option nat) :
  inv b -> try_call_return_onramp cf b w c = Ok (b', r) -> progress b b'.
Proof.
  intros Hb. unfold try_call_return_onramp. destruct (_ || _); [intros [= <- <-]; by apply progress_refl|].
  destruct (_ && _); [done|]. set (toks := out_tokens_for _ _ _ _ _ _).
  destruct (negb _); [intros [= <- <-]; by apply progress_refl|].
  destruct (negb _); [intros [= <- <-]; by apply progress_refl|].
  destruct (negb _); [intros [= <- <-]; by apply progress_refl|].
  destruct (pred_at (vt_pred (b_vers b)) _) as [facts|] eqn:Ef; [|intros [= <- <-]; by apply progress_refl].
  destruct (pred_carried (vt_pred (b_vers b)) _ T_Opt) as [car|] eqn:Ek; [|intros [= <- <-]; by apply progress_refl].
  destruct (_ || _); [intros [= <- <-]; by apply progress_refl|].
  destruct (tok_class b toks) as [[b1 class]|] eqn:Ec; [|done].
  destruct (tok_class_spec _ _ _ _ _ Hb Ec) as (T1 & T2 & T3 & _). pose proof (class_progress _ _ _ _ Ec) as P1.
  destruct (seed_opt cf b1 _ class _ _) as [[b2 ov]| | |] eqn:Es; cbn [mbind res_bind]; try done.
  assert (b_vers b1 = b_vers b) as Ev1 by by rewrite T3. rewrite <- Ev1 in Ef, Ek.
  destruct (seed_opt_ok bind_iv cf _ _ _ _ _ _ _ _ _ T1 T2 Ef Ek Es) as (S1 & _).
  pose proof (progress_trans _ _ _ P1 (seed_opt_progress _ _ _ _ _ _ _ _ _ T1 T2 Ef Ek Es)) as P.
  destruct ov as [v|]; [|by intros [= <- <-]]. destruct (ct_plan c _) as [[gaps arr]|]; [|by intros [= <- <-]].
  destruct (negb _); [by intros [= <- <-]|].
  destruct (ensure_block b2 v) as [b3| | |] eqn:E3; cbn [mbind res_bind]; try done. intros [= <- _].
  eapply progress_trans; [exact P|]. by apply (ensure_progress _ _ v).
Qed.

Lemma seam_progress (b b' : Bbv) (w : Here) (c : Cont) (t : Track) (v : nat) :
  inv b -> cont_ok c ->
  ('(b, v) ← theta cf b (ct_succ c) (h_pc w) (ct_stack c) (arrival_ctx cf b w (ct_succ c) (ct_facts c) t);
   b ← ensure_block b v; Ok (b, v)) = Ok (b', v) -> progress b b'.
Proof.
  intros Hb (C1 & C2 & _). destruct (theta cf b _ _ _ _) as [[b1 v1]| | |] eqn:Et; cbn [mbind res_bind]; try done.
  pose proof (arrival_ok bind_iv cf b w (ct_succ c) (ct_facts c) t C1 C2) as Ha.
  pose proof (theta_progress _ _ _ _ _ _ _ Hb Ha Et) as P. destruct (theta_ok bind_iv cf Hcensus Hpeel _ _ _ _ _ _ _ Hb Ha Et) as (T1 & _).
  destruct (ensure_block b1 v1) as [b2| | |] eqn:E2; cbn [mbind res_bind]; try done. intros [= <- _].
  eapply progress_trans; [exact P|]. by apply (ensure_progress _ _ v1).
Qed.

Lemma cont_progress (b b' : Bbv) (w : Here) (c : Cont) (r : nat * option nat) :
  inv b -> cont_ok c -> cont cf b w c = Ok (b', r) -> progress b b'.
Proof.
  intros Hb Hc. unfold cont. destruct (cont_normal cf b w c) as [[b1 v]| | |] eqn:E1; cbn [mbind res_bind]; try done.
  destruct (cont_normal_ok bind_iv cf Hcensus Hpeel b b1 w c v Hb Hc (or_introl E1)) as [N1 _]. pose proof (seam_progress _ _ _ _ _ _ Hb Hc E1) as P1.
  destruct (try_onramp cf b1 w c) as [[b2 ov]| | |] eqn:E2; cbn [mbind res_bind]; try done.
  destruct (try_onramp_ok bind_iv cf Hcensus Hpeel b1 b2 w c ov N1 E2) as [O1 _]. pose proof (progress_trans _ _ _ P1 (try_onramp_progress _ _ _ _ _ N1 Hc E2)) as P2.
  destruct ov; [by intros [= <- _]|].
  destruct (try_call_return_onramp cf b2 w c) as [[b3 r3]| | |] eqn:E3; cbn [mbind res_bind]; try done. intros [= <- _].
  eapply progress_trans; [exact P2|]. by eapply try_call_return_progress.
Qed.
End Progress.

(** ** Every step returns *)

Lemma theta_returns (cf : Config) (b : Bbv) (pc cur_pc : Z) (n : nat) (c : Ctx) : theta cf b pc cur_pc n c <> OutOfFuel.
Proof.
  unfold theta. destruct (tok_class _ _) as [[]|]; [|done]. destruct (key_depth _ _). destruct (ver_intern _ _) as [[]|]; [|done].
  unfold theta_emit. destruct (carried_join _ _ _ _) as [? [? ?]]. destruct (negb _).
  - destruct (cf_debug cf && _); cbn [mbind res_bind]; [done|]. destruct (cf_census cf && _); [|done]. by destruct (or_prov _ _ _).
  - match goal with |- context [if ?x then Panic PAssert else _] => destruct x end; cbn [mbind res_bind]; [done|].
    destruct (cf_census cf && _); [|done]. by destruct (or_prov _ _ _).
Qed.

Lemma ensure_returns (b : Bbv) (i : nat) : ensure_block b i <> OutOfFuel.
Proof. unfold ensure_block. case_bool_decide; [done|]. by destruct (ver_ctx _ _). Qed.

Lemma ensured_returns {A} (b : Bbv) (i : nat) (x : A) : (b ← ensure_block b i; Ok (b, x)) <> OutOfFuel.
Proof. pose proof (ensure_returns b i). by destruct (ensure_block b i). Qed.

Lemma seam_returns (cf : Config) (b : Bbv) (w : Here) (c : Cont) : cont_normal cf b w c <> OutOfFuel /\ resume cf b w c <> OutOfFuel.
Proof.
  unfold cont_normal, resume. split.
  all: match goal with |- context [theta ?a ?b ?c ?d ?e ?f] => pose proof (theta_returns a b c d e f); destruct (theta a b c d e f) as [[]| | |] end.
  all: cbn [mbind res_bind]; try done; apply ensured_returns.
Qed.

Lemma seed_opt_returns (cf : Config) (b : Bbv) (pc : Z) (class : nat) (depth : Z) (oc : Ctx) : seed_opt cf b pc class depth oc <> OutOfFuel.
Proof. unfold seed_opt. destruct (ver_intern _ _) as [[]|]; [|done]. destruct (negb _); [|done]. by destruct (cf_mode cf). Qed.

Lemma enter_returns (cf : Config) (b : Bbv) (c : Cont) (h : Z) (funnel : bool) (v : nat) (oc : Ctx) : enter_onramp cf b c h funnel v oc <> OutOfFuel.
Proof.
  unfold enter_onramp. destruct (negb _); [done|]. destruct (ct_plan c oc) as [[]|]; [|done]. destruct (cf_stripping cf); [apply ensured_returns|].
  destruct (ver_ctx _ _); [|done]. destruct (ctx_eqb _ _); [apply ensured_returns|]. destruct (negb _); [done|]. destruct (cf_mode cf); [done|].
  apply ensured_returns.
Qed.

Lemma try_onramp_returns (cf : Config) (b : Bbv) (w : Here) (c : Cont) : try_onramp cf b w c <> OutOfFuel.
Proof.
  unfold try_onramp. destruct (List.find _ _) as [[h e]|]; [|done]. destruct (_ || _ || _); [done|]. destruct (position _ _); [|done].
  destruct (_ && _); [done|]. destruct (negb _); [done|]. destruct (negb _); [done|]. destruct (tok_class _ _) as [[b1 class]|]; [|done].
  destruct (pred_at _ _); [|done]. destruct (pred_carried _ _ _); [|done]. set (oc := emission _ _ _ _).
  pose proof (seed_opt_returns cf b1 h class (Z.of_nat (ct_stack c)) oc) as S. destruct (seed_opt _ _ _ _ _ _) as [[b2 [v|]]| | |]; cbn [mbind res_bind]; try done.
  apply enter_returns.
Qed.

Lemma try_call_return_returns (cf : Config) (b : Bbv) (w : Here) (c : Cont) : try_call_return_onramp cf b w c <> OutOfFuel.
Proof.
  unfold try_call_return_onramp. destruct (_ || _); [done|]. destruct (_ && _); [done|]. destruct (negb _); [done|]. destruct (negb _); [done|].
  destruct (negb _); [done|]. destruct (pred_at _ _); [|done]. destruct (pred_carried _ _ _); [|done]. destruct (_ || _); [done|].
  destruct (tok_class _ _) as [[b1 class]|]; [|done]. set (oc := emission _ _ _ _).
  pose proof (seed_opt_returns cf b1 (ct_succ c) class (Z.of_nat (ct_stack c)) oc) as S. destruct (seed_opt _ _ _ _ _ _) as [[b2 [v|]]| | |]; cbn [mbind res_bind]; try done.
  destruct (ct_plan c oc) as [[]|]; [|done]. destruct (negb _); [done|]. apply ensured_returns.
Qed.

Lemma cont_returns (cf : Config) (b : Bbv) (w : Here) (c : Cont) : cont cf b w c <> OutOfFuel.
Proof.
  unfold cont. destruct (seam_returns cf b w c) as [S _]. destruct (cont_normal cf b w c) as [[b1 v]| | |]; cbn [mbind res_bind]; try done.
  pose proof (try_onramp_returns cf b1 w c). destruct (try_onramp cf b1 w c) as [[b2 [v'|]]| | |]; cbn [mbind res_bind]; try done.
  pose proof (try_call_return_returns cf b2 w c). by destruct (try_call_return_onramp cf b2 w c) as [[b3 r3]| | |].
Qed.
