(* ===== verification/VersionTerm.v ===== *)
(** * VersionTerm: the walks, the rounds and the ladder end

    A lowering that asks for boundedly many edges makes the drain of the
    queue end, by the measure; the rounds end by their cap, the closure
    retries by theirs, the ladder by its rungs. *)

From Stdlib Require Import Wellfounded.Lexicographic_Product Relation_Operators Wf_nat.
From S2P Require Import Prelude Mem OpSem Facts Ctx CtxSound CtxHeight Predict PredictSound Versions VersionRounds VersionTable VersionInv VersionFrozen VersionWalk VersionConsult VersionMeasure VersionProgress.
#[local] Open Scope Z_scope.

(** ** Enough fuel *)

(** From some fuel on the answer is [r], and it is an answer. *)
Definition settles {A} (g : nat -> res A) (r : res A) : Prop :=
  r <> OutOfFuel /\ exists f0, forall f, (f0 <= f)%nat -> g f = r.

Definition ends {A} (g : nat -> res A) : Prop := exists r, settles g r.

Lemma settles_const {A} (r : res A) : r <> OutOfFuel -> settles (fun _ => r) r.
Proof. intros H. split; [done|]. by exists 0%nat. Qed.

Lemma settles_ext {A} (g h : nat -> res A) (r : res A) : (forall f, g f = h f) -> settles g r -> settles h r.
Proof. intros H [H1 [f0 H2]]. split; [done|]. exists f0. intros f Hf. rewrite <- H. by apply H2. Qed.

Lemma ends_const {A} (g : nat -> res A) (r : res A) : (forall f, g f = r) -> r <> OutOfFuel -> ends g.
Proof. intros H Hr. exists r. apply (settles_ext (fun _ => r)); [done|]. by apply settles_const. Qed.

(** A step that costs one unit. *)
Lemma ends_S {A} (g h : nat -> res A) : (forall f, g (S f) = h f) -> ends h -> ends g.
Proof.
  intros H [r [H1 [f0 H2]]]. exists r. split; [done|]. exists (S f0). intros [|f] Hf; [lia|]. rewrite H. apply H2. lia.
Qed.

Lemma ends_bind {A B} (g : nat -> res A) (h : nat -> A -> res B) :
  ends g -> (forall x, settles g (Ok x) -> ends (fun f => h f x)) -> ends (fun f => g f ≫= h f).
Proof.
  intros [r Hr] Hh. pose proof Hr as [H1 [f0 H2]]. destruct r as [x| | |].
  - destruct (Hh x Hr) as [s [K1 [f1 K2]]]. exists s. split; [done|]. exists (f0 + f1)%nat. intros f Hf. rewrite H2 by lia. cbn. apply K2. lia.
  - exists (Err e). split; [done|]. exists f0. intros f Hf. by rewrite H2.
  - exists (Panic p). split; [done|]. exists f0. intros f Hf. by rewrite H2.
  - done.
Qed.

Lemma ends_ext {A} (g h : nat -> res A) : (forall f, g f = h f) -> ends g -> ends h.
Proof. intros H [r Hr]. exists r. by eapply settles_ext. Qed.

Section Walk.
Context (bind_iv : Z -> option ValueRange).
Context (cf : Config) (walk : option nat -> VerTable -> list Splice -> list (option (nat * option nat)) -> Move) (m : nat).
Hypothesis Hcensus : cf_census cf = false.
Hypothesis Hpeel : cf_peel cf = false.
Hypothesis Hwalk : walk_ok bind_iv walk.

(** A lowering is done after [m] edges. *)
Definition bounded (walk : option nat -> VerTable -> list Splice -> list (option (nat * option nat)) -> Move) (m : nat) : Prop :=
  forall who t segs replies, (m <= length replies)%nat ->
    match walk who t segs replies with M_Done _ | M_Refuse => True | _ => False end.

Hypothesis Hm : bounded walk m.

#[local] Abbreviation inv := (inv bind_iv).

Lemma run_moves_progress (fuel : nat) (who : option nat) (toks : list (Z * Z)) (vt : Track) (replies : list (option (nat * option nat)))
    (b b' : Bbv) (r : option Z) :
  inv b -> run_moves cf walk fuel who toks vt replies b = Ok (b', r) -> progress b b'.
Proof.
  revert replies b. induction fuel as [|fuel IH]; intros replies b Hb; cbn [run_moves]; destruct (walk who (b_vers b) (b_segs b) replies) as [c|c|s|spent|] eqn:Ew; try done;
    try (intros [= <- <-]; by apply progress_refl).
  - destruct (cont cf b _ c) as [[b1 r1]| | |] eqn:Ec; cbn [mbind res_bind]; try done. intros E.
    pose proof (move_ok bind_iv walk Hwalk _ _ _ _ Hb (or_introl Ew)) as Hc.
    destruct (cont_seam_ok bind_iv cf Hcensus Hpeel _ _ _ _ _ Hb Hc Ec) as [C1 _].
    eapply progress_trans; [exact (cont_progress bind_iv cf Hcensus Hpeel _ _ _ _ _ Hb Hc Ec)|by eapply IH].
  - destruct (resume cf b _ c) as [[b1 r1]| | |] eqn:Ec; cbn [mbind res_bind]; try done. intros E.
    pose proof (move_ok bind_iv walk Hwalk _ _ _ _ Hb (or_intror Ew)) as Hc.
    destruct (cont_normal_ok bind_iv cf Hcensus Hpeel _ _ _ _ _ Hb Hc (or_intror Ec)) as [C1 _].
    eapply progress_trans; [exact (seam_progress bind_iv cf Hcensus Hpeel _ _ _ _ _ _ Hb Hc Ec)|by eapply IH].
  - destruct (cf_frozen cf); intros E; [by apply IH in E|]. apply IH in E; [|exact Hb]. eapply progress_trans; [|exact E]. by apply progress_refl.
Qed.

Lemma run_moves_ends (who : option nat) (toks : list (Z * Z)) (vt : Track) (replies : list (option (nat * option nat))) (b : Bbv) :
  ends (fun f => run_moves cf walk f who toks vt replies b).
Proof.
  remember (m - length replies)%nat as k eqn:Ek. revert replies b Ek. induction k as [k IH] using lt_wf_ind. intros replies b Ek.
  pose proof (Hm who (b_vers b) (b_segs b) replies) as Hdone.
  assert (forall x : option (nat * option nat), (match walk who (b_vers b) (b_segs b) replies with M_Done _ | M_Refuse => True | _ => False end -> False) ->
    (m - length (replies ++ [x]) < k)%nat) as Hk.
  { intros x H. rewrite length_app. cbn [length]. destruct (decide (m <= length replies)%nat) as [Hle|]; [by destruct H; apply Hdone|lia]. }
  destruct (walk who (b_vers b) (b_segs b) replies) as [c|c|s|spent|] eqn:Ew.
  - eapply ends_S; [intros f; cbn [run_moves]; rewrite Ew; reflexivity|]. apply ends_bind; [apply (ends_const _ _ (fun _ => eq_refl)), cont_returns|].
    intros [b1 r1] _. eapply IH; [|reflexivity]. by apply Hk.
  - eapply ends_S; [intros f; cbn [run_moves]; rewrite Ew; reflexivity|]. apply ends_bind; [apply (ends_const _ _ (fun _ => eq_refl)), seam_returns|].
    intros [b1 r1] _. eapply IH; [|reflexivity]. by apply Hk.
  - eapply ends_S; [intros f; cbn [run_moves]; rewrite Ew; reflexivity|]. destruct (cf_frozen cf); (eapply IH; [|reflexivity]; by apply Hk).
  - apply (ends_const _ (Ok (b, Some spent))); [|done]. intros [|f]; cbn [run_moves]; by rewrite Ew.
  - apply (ends_const _ (Ok (b, None))); [|done]. intros [|f]; cbn [run_moves]; by rewrite Ew.
Qed.

Lemma run_version_ends (key : nat) (b : Bbv) (bg : Budget) : ends (fun f => run_version cf walk f key b bg).
Proof.
  unfold run_version. destruct (ver_of _ key) as [ver|]; [|by apply (ends_const _ (Panic PSlice))].
  destruct (ver_ctx _ key) as [ctx|]; [|by apply (ends_const _ (Panic PSlice))].
  apply ends_bind; [apply run_moves_ends|]. intros [b1 r1] _. by eapply ends_const.
Qed.

Lemma run_version_progress (fuel key : nat) (b b' : Bbv) (bg : Budget) (r : option Budget) :
  inv b -> run_version cf walk fuel key b bg = Ok (b', r) -> progress b b'.
Proof.
  intros Hb. unfold run_version. destruct (ver_of _ key) as [ver|]; [|done]. destruct (ver_ctx _ key) as [ctx|]; [|done].
  destruct (run_moves _ _ _ _ _ _ _ _) as [[b1 r1]| | |] eqn:Er; cbn [mbind res_bind]; try done. intros [= <- _]. by eapply run_moves_progress.
Qed.

(** The measure with the length of the queue behind it. *)
Definition qlt : Measure * nat -> Measure * nat -> Prop := slexprod _ _ mlt lt.

Lemma drain_ends (b : Bbv) (bg : Budget) : inv b -> ends (fun f => drain cf walk f b bg).
Proof.
  remember (measure b, length (b_queue b)) as k eqn:Ek. revert b bg Ek.
  induction k as [k IH] using (well_founded_induction (wf_slexprod _ _ _ _ mlt_wf lt_wf : well_founded qlt)). intros b bg -> Hb.
  destruct (b_queue b) as [|key queue] eqn:Eq.
  { apply (ends_const _ (Ok (b, bg, VD_Drained))); [|done]. intros [|f]; cbn [drain]; by rewrite Eq. }
  eapply ends_S; [intros f; cbn [drain]; rewrite Eq; reflexivity|]. case_bool_decide.
  { eapply IH; [|reflexivity|exact Hb]. apply right_slex. cbn. lia. }
  set (b1 := with_queue b _ _ _). destruct (_ <? _); [by eapply ends_const|].
  apply ends_bind; [apply run_version_ends|]. intros [b2 r2] [_ [f0 Hf]]. specialize (Hf f0 (le_n _)).
  destruct r2 as [bg2|]; [|by eapply ends_const]. destruct (b_overflow b2); [by eapply ends_const|].
  destruct (run_version_ok bind_iv cf walk Hcensus Hpeel Hwalk _ _ _ _ _ _ (Hb : inv b1) Hf) as [R1 _].
  eapply IH; [|reflexivity|exact R1]. destruct (run_version_progress _ _ _ _ _ _ (Hb : inv b1) Hf) as [P|[P1 P2]].
  - by apply left_slex.
  - rewrite P1. change (measure b1) with (measure b). apply right_slex. rewrite P2. cbn. lia.
Qed.

Lemma emit_ends (b : Bbv) : inv b -> ends (fun f => emit cf walk f b).
Proof.
  intros Hb. unfold emit. apply ends_bind; [apply run_moves_ends|]. intros [b1 r1] [_ [f0 Hf]]. specialize (Hf f0 (le_n _)).
  destruct r1 as [spent|]; [|by eapply ends_const]. apply drain_ends. by eapply (run_moves_ok bind_iv cf walk Hcensus Hpeel Hwalk).
Qed.
End Walk.

Section Rounds.
Context (bind_iv : Z -> option ValueRange).
Context (bd : Body) (walk : Config -> option nat -> VerTable -> list Splice -> list (option (nat * option nat)) -> Move) (m : nat).
Hypothesis Hcensus : bd_census bd = false.
Hypothesis Hpeel : bd_peel bd = false.
Hypothesis Hwalk : forall cf, walk_ok bind_iv (walk cf).
Hypothesis Hm : forall cf, bounded (walk cf) m.

(** More rounds than any cap allows. *)
Definition ROUNDS : Z := 2 ^ 30 + 3.

Lemma rounds_cap_lt (t : VerTable) : rounds_cap t + STRIP_MAX_ROUNDS <= ROUNDS.
Proof.
  unfold rounds_cap, ROUNDS, STRIP_MAX_ROUNDS, CTXONLY_MAX_ROUNDS. cbn zeta. set (n := Z.of_nat (length (vt_vers t))).
  assert ((if n <? 2 ^ 32 then n else 2 ^ 32 - 1) / 4 < 2 ^ 30) as H.
  { apply Z.div_lt_upper_bound; [lia|]. destruct (Z.ltb_spec n (2 ^ 32)); lia. }
  revert H. generalize ((if n <? 2 ^ 32 then n else 2 ^ 32 - 1) / 4). intros k H. lia.
Qed.

Definition rounds_left (st : State) : nat := Z.to_nat (ROUNDS - st_rounds st) + (if st_stripping st then 0 else 1).

Definition st_good (st : State) : Prop := st_ok bind_iv st /\ 0 <= st_rounds st.

Lemma rounds_left_bound (st : State) : st_good st -> (rounds_left st <= Z.to_nat (ROUNDS + 1))%nat.
Proof. intros [_ H]. unfold rounds_left, ROUNDS in *. destruct (st_stripping st); lia. Qed.

Lemma next_round_left (prov changed : bool) (st : State) :
  0 <= st_rounds st -> let '(st', again) := next_round bd prov changed st in
  0 <= st_rounds st' /\ (again = true -> (rounds_left st' < rounds_left st)%nat).
Proof.
  intros Hr. unfold next_round. rewrite Hcensus. destruct changed; cbn [negb andb]; [|done].
  pose proof (rounds_cap_lt (st_vers st)) as Hc. set (cap := rounds_cap (st_vers st)) in *. cbn [st_vers st_rounds st_stripping st_classes st_splices st_prov_rounds].
  fold cap. unfold rounds_left. destruct ((cap <=? st_rounds st + 1) && negb (st_stripping st)) eqn:E; cbn [st_vers st_rounds st_stripping].
  - apply andb_true_iff in E as [_ E%negb_true_iff]. rewrite E. split; [lia|]. intros _. lia.
  - split; [lia|]. rewrite negb_true_iff, Z.leb_gt. intros H. destruct (st_stripping st); lia.
Qed.

Lemma walk_state_good (mode : EmitMode) (rg : Rung) (fuel : nat) (st : State) (b : Bbv) (bg : Budget) (v : Verdict) :
  st_good st -> let cf := config_of bd mode rg st in emit cf (walk cf) fuel (bbv_new bd st) = Ok (b, bg, v) -> st_good (after_walk b st).
Proof.
  intros [H1 H2] cf E. split; [|exact H2].
  exact (proj1 (emit_ok bind_iv cf (walk cf) Hcensus Hpeel (Hwalk cf) fuel (bbv_new bd st) b bg v H1 E)).
Qed.

Lemma walk_emit_ends (mode : EmitMode) (rg : Rung) (st : State) :
  st_good st -> let cf := config_of bd mode rg st in ends (fun f => emit cf (walk cf) f (bbv_new bd st)).
Proof. intros [H1 _] cf. exact (emit_ends bind_iv cf (walk cf) m Hcensus Hpeel (Hwalk cf) (Hm cf) (bbv_new bd st) H1). Qed.

Lemma predict_run_good (rounds fuel : nat) (rg : Rung) (st st' : State) :
  st_good st -> predict_run bd walk rounds fuel rg st = Ok (Some st') -> st_good st'.
Proof.
  revert st. induction rounds as [|rounds IH]; intros st Hst; [done|]. cbn [predict_run].
  destruct (emit _ _ _ _) as [[[b bg] v]| | |] eqn:Ee; cbn [mbind res_bind]; try done.
  pose proof (walk_state_good _ _ _ _ _ _ _ Hst Ee) as W. pose proof (next_round_left (b_prov_changed b) (b_changed b) _ (proj2 W)) as N.
  pose proof (next_round_ok bind_iv bd (b_prov_changed b) (b_changed b) _ (proj1 W)) as N'.
  destruct (next_round bd _ _ _) as [st1 again]. destruct N as [N _]. cbn [fst] in N'.
  assert ((if again : bool then predict_run bd walk rounds fuel rg st1 else Ok (Some st1)) = Ok (Some st') -> st_good st') as H.
  { destruct again; [apply IH; by split|]. intros [= <-]. by split. }
  destruct v; try done; apply H.
Qed.

Lemma predict_run_ends (rounds : nat) (rg : Rung) (st : State) :
  st_good st -> (rounds_left st < rounds)%nat -> ends (fun f => predict_run bd walk rounds f rg st).
Proof.
  revert st. induction rounds as [|rounds IH]; intros st Hst Hr; [lia|]. cbn [predict_run].
  apply ends_bind; [by apply walk_emit_ends|]. intros [[b bg] v] [_ [f0 Hf]]. specialize (Hf f0 (le_n _)).
  pose proof (walk_state_good _ _ _ _ _ _ _ Hst Hf) as W. pose proof (next_round_left (b_prov_changed b) (b_changed b) _ (proj2 W)) as N.
  pose proof (next_round_ok bind_iv bd (b_prov_changed b) (b_changed b) _ (proj1 W)) as N'.
  change (rounds_left (after_walk b st)) with (rounds_left st) in N.
  destruct (next_round bd _ _ _) as [st1 again]. destruct N as [N1 N2]. cbn [fst] in N'.
  assert (ends (fun f => if again : bool then predict_run bd walk rounds f rg st1 else Ok (Some st1))) as H.
  { destruct again; [apply IH; [by split|specialize (N2 eq_refl); lia]|by eapply ends_const]. }
  destruct v; [exact H|exact H|by eapply ends_const].
Qed.

Lemma strip_state_good (st : State) :
  st_good st -> st_good (mkState (strip_all (st_vers st)) (st_classes st) (st_splices st) true (st_rounds st) (st_prov_rounds st)).
Proof. intros [H1 H2]. split; [by apply strip_all_ok|done]. Qed.

Lemma close_ends (tries rounds : nat) (n : Z) (rg : Rung) (st : State) :
  st_good st -> (Z.to_nat (ROUNDS + 1) < rounds)%nat -> (Z.to_nat (CLOSURE_MAX_TRIES - n) < tries)%nat ->
  ends (fun f => close bd walk tries rounds f n rg st).
Proof.
  revert n st. induction tries as [|tries IH]; intros n st Hst Hr Ht; [lia|]. cbn [close].
  apply ends_bind; [apply predict_run_ends; [done|]; pose proof (rounds_left_bound st Hst); lia|].
  intros [st1|] [_ [f0 Hf]]; [|by eapply ends_const]. specialize (Hf f0 (le_n _)). pose proof (predict_run_good _ _ _ _ _ Hst Hf) as G1. clear f0 Hf.
  apply ends_bind; [by apply walk_emit_ends|]. intros [[b bg] v] [_ [f0 Hf]]. specialize (Hf f0 (le_n _)).
  pose proof (walk_state_good _ _ _ _ _ _ _ G1 Hf) as W. destruct (_ && _); [|by eapply ends_const].
  destruct (Z.leb_spec CLOSURE_MAX_TRIES n); [by eapply ends_const|].
  apply IH; [|done|unfold CLOSURE_MAX_TRIES in *; lia]. destruct (_ =? _); [by apply strip_state_good|done].
Qed.

Lemma ladder_ends (tries rounds : nat) (skip : bool) (rgs : list Rung) :
  (Z.to_nat (ROUNDS + 1) < rounds)%nat -> (Z.to_nat CLOSURE_MAX_TRIES < tries)%nat ->
  ends (fun f => ladder bd walk tries rounds f skip rgs).
Proof.
  intros Hr Ht. revert skip. induction rgs as [|rg rgs IH]; intros skip; cbn [ladder]; [by eapply ends_const|].
  destruct (_ && _); [apply IH|].
  apply ends_bind; [apply close_ends; [split; [apply st_ok_default|done]|done|]; unfold CLOSURE_MAX_TRIES in *; lia|].
  intros c _. destruct c as [| |b bg v]; [by eapply ends_const|apply IH|]. destruct v; try (by eapply ends_const).
  all: destruct (_ <? _); [|by eapply ends_const]; destruct (rg_gen_only rg); [by eapply ends_const|apply IH].
Qed.
End Rounds.
