(* ===== verification/Properties.v ===== *)
(** * Properties: the theorems of the development

    One theorem per property of the code, in order of importance, each with a
    witness at a concrete input where it has hypotheses. The lemmas they rest
    on are in the component files. *)

From S2P Require Import Prelude OpSem Facts Float64 Types FnSets TypeLattice Claims IntervalSound.
From S2P Require Import Engine EngineSound EngineRun EngineRaise EngineFix EngineSolve.

(** ** The solver *)

(** C1: on every program of structural constraints (moves, constants,
    arithmetic) instantiated at any list of contexts, over any labels and
    array classes and with the element views [Solver::new] turns on, the
    worklist driver of [engine.rs] terminates with enough fuel and steps, with
    an empty worklist, and in the state it stops in every constraint is
    satisfied at every context of its script: each destination is above its
    source in the primitive classes, the function set, the range and the
    interval, and its object part stands for every object the source's does,
    up to the region of a class label and the absorptions the sink records.
    The flag [unknown] is not claimed, since the engine drops it
    ([unknown_dropped]). *)
Theorem solver_reaches_fixpoint (N : nat) (labels : list AbsLabels) (arrays : gset ClassId)
    (elems : NameId) (prog : list (ScriptId * Constraint)) (insts : list (ScriptId * CtxId)) :
  (forall a m c, labels !! a = Some m -> al_class m = Some c -> (c < N)%nat) ->
  Forall (fun p => con_ok N (snd p)) prog ->
  exists F0 S0, forall F steps, (F0 <= F)%nat -> (S0 <= steps)%nat ->
  exists e', run_core F steps (load labels arrays elems prog insts) = Some e' /\ worklist e' = [] /\
    forall n s c ctx, prog !! n = Some (s, c) -> (s, ctx) ∈ insts -> sat e' s ctx c.
Proof. apply solver_fixpoint. Qed.

(** The cyclic graph of the engine's own tests, with an array of each of two
    classes flowing into the cycle: their regions merge while it runs. *)
Definition cycle_prog : list (ScriptId * Constraint) :=
  [(1, CConst (CVar 0) (ts_prim PRIM_INT32)); (1, CMove (CVar 0) (CVar 1));
   (1, CMove (CVar 1) (CVar 2)); (1, CMove (CVar 2) (CVar 1)); (1, CMove (CVar 2) (CVar 3));
   (1, CConst (CVar 2) (ts_prim PRIM_DOUBLE)); (1, CConst (CVar 1) (class_any 1));
   (1, CConst (CVar 2) (class_any 2));
   (1, CArith Add (CVar 3) (Some (CVar 0)) (CVar 4) None None 0)].

Lemma fns_default_wf : fns_wf fns_default.
Proof. split; cbn; [constructor|unfold FN_MAX; lia|done]. Qed.

Lemma ts_prim_wf (p : Prims) : p_wf p -> ts_wf (ts_prim p).
Proof.
  intros Hp. split; [exact Hp|apply fns_default_wf|].
  unfold ts_prim, prims_interval. cbn. destruct (intersects p _); exact I.
Qed.

Lemma class_any_wf (c : ClassId) : ts_wf (class_any c).
Proof. split; [vm_compute; intuition congruence|apply fns_default_wf|exact I]. Qed.

Lemma solver_reaches_fixpoint_witness :
  exists F0 S0, forall F steps, (F0 <= F)%nat -> (S0 <= steps)%nat ->
  exists e', run_core F steps (load [] {[1%nat; 2%nat]} 7 cycle_prog [(1, 0%nat)]) = Some e' /\
    worklist e' = [] /\
    forall n s c ctx, cycle_prog !! n = Some (s, c) -> (s, ctx) ∈ [(1, 0%nat)] -> sat e' s ctx c.
Proof.
  apply (solver_reaches_fixpoint 3).
  - intros a m c H. rewrite lookup_nil in H. discriminate H.
  - unfold cycle_prog. rewrite !list.Forall_cons. cbn [snd con_ok].
    split_and!; try exact I; try (right; discriminate); try apply Forall_nil_2; try apply class_any_wf;
      try (cbn; lia); apply ts_prim_wf; vm_compute; intuition congruence.
Defined.

(** C10: raising a lattice value into a cell of a well-formed engine (classes
    below [N], cell keys and the views of those classes within [K], element
    views on or off), with the fuel the engine's potential bounds, always
    succeeds and delivers: the cell ends above the value in every part of the
    typeset, [unknown] included unless the fast path took the raise; no cell
    shrinks; every user of a cell that changed is queued; a raise that merged
    no region keeps every satisfied link satisfied; and the well-formedness of
    the engine is preserved and its potential does not rise. *)
Theorem raise_delivers (N : nat) (K : gset CellKey) (n : nat) (e : Engine) (id : CellId) (t : TypeSet)
    (why : User) :
  eng_wf N K e -> (id < length (cells e))%nat -> ts_wf t -> obj_below N (obj t) ->
  2 * pot N K e + 2 <= Z.of_nat n ->
  exists e', raise n e id t why = Some e' /\ eng_wf N K e' /\
    (exists cur u, ts_of e id = Some cur /\ ts_of e' id = Some u /\ ts_le e' t u /\
       (unknown t = true -> unknown u = true \/ no_growth e cur t = true)) /\
    (forall i v, ts_of e i = Some v -> exists v', ts_of e' i = Some v' /\ ts_grow e' v v') /\
    (forall i v us u, ts_of e i = Some v -> ts_of e' i <> Some v -> subs e !! i = Some us -> u ∈ us ->
       u ∈ worklist e') /\
    (region_parent e' = region_parent e -> forall s, link_sat e s -> link_sat e' s) /\
    pot N K e' <= pot N K e.
Proof.
  intros Hwf Hid Ht Ho Hn.
  destruct (raise_ok N K n e id t why Hwf Hid Ht Ho) as (e' & -> & [W G L D _]); [split; [lia|right; lia]|].
  exists e'. split_and!; try done; try apply G. intros E s Hs. apply (L E). by left.
Qed.

(** Two linked cells, the first holding an array of class 1 and read by user
    (3, 0); classes 1 and 2 are array classes and element views are on. *)
Definition two_cells : Engine :=
  mkEngine [mkCell (KGName 0) (class_any 1) 0; mkCell (KGName 1) (class_any 1) 0]
    (<[KGName 0 := 0%nat]> {[KGName 1 := 1%nat]}) [] [] ∅ ∅ [] ∅
    {[0%nat := [(3, 0%nat)]]} ∅ {[0%nat := [1%nat]]} ∅ [] 0 0 ∅ ∅ {[1%nat; 2%nat]} (Some 7) ∅ []
    sink_default.

Definition two_keys : gset CellKey := {[KGName 0; KGName 1]} ∪ view_keys 3 7.

Lemma two_cells_wf : eng_wf 3 two_keys two_cells.
Proof.
  split.
  - split; cbn; intros *; rewrite ?lookup_nil, ?lookup_empty; discriminate.
  - intros en c Hen Hc. cbn in Hen. injection Hen as <-. apply elem_of_union_r. by apply elem_of_view_keys.
  - intros k i. cbn. rewrite lookup_insert_Some, lookup_singleton_Some. split.
    + by intros [[<- <-]|[_ [<- <-]]].
    + destruct i as [|[|i]]; cbn; [intros [= <-]; auto|intros [= <-]; right; split; [discriminate|done]|discriminate].
  - intros k i. cbn. rewrite lookup_insert_Some, lookup_singleton_Some. unfold two_keys.
    intros [[<- _]|[_ [<- _]]]; set_solver.
  - assert (cell_wf 3 (mkCell (KGName 0) (class_any 1) 0)) as H by (split; [apply class_any_wf|cbn; lia]).
    cbn. apply list.Forall_cons; split; [exact H|]. apply list.Forall_cons; split; [exact H|]. apply Forall_nil_2.
  - intros s ds d Hs Hd. cbn in Hs. apply lookup_singleton_Some in Hs as [_ <-].
    apply list_elem_of_singleton in Hd as ->. cbn. lia.
  - split; cbn; [constructor|set_solver].
Qed.

Lemma raise_delivers_witness :
  exists e', raise 5000 two_cells 0 (class_any 2) (SEED, CTX0) = Some e' /\
    (exists u, ts_of e' 0 = Some u /\ ts_le e' (class_any 2) u) /\ pot 3 two_keys e' <= 2499.
Proof.
  destruct (raise_delivers 3 two_keys 5000 two_cells 0 (class_any 2) (SEED, CTX0))
    as (e' & H & _ & (cur & u & _ & Hu & Hle & _) & _ & _ & _ & Hp).
  - apply two_cells_wf.
  - cbn. lia.
  - apply class_any_wf.
  - cbn. lia.
  - vm_compute. discriminate.
  - exists e'. split; [exact H|]. split; [exists u; split; assumption|].
    etransitivity; [exact Hp|]. vm_compute. discriminate.
Defined.

(** C28: a raise is not closed under its own re-entrancy. An array of class 2
    stored into an array of class 1 whose elements are themselves arrays of
    class 1 unions the two classes' regions; the union links the element views
    and raises the string held by class 2's elements into class 1's view, and
    the outer raise then writes back the copy it took before that. The link
    from view 1 to view 0 is recorded, nothing is left on the worklist that
    would deliver it, and view 0 lacks the string class that view 1 holds. *)
Theorem raise_overwrites_reentrant_raise :
  exists e, nested_store = Some e /\ worklist e = [] /\
    links e !! 1%nat = Some [0%nat] /\
    (exists t u, ts_of e 1 = Some t /\ ts_of e 0 = Some u /\
       intersects (prims t) PRIM_STRING = true /\ intersects (prims u) PRIM_STRING = false) /\
    ~ link_sat e 1.
Proof.
  assert (exists e, nested_store = Some e /\ worklist e = [] /\
    links e !! 1%nat = Some [0%nat] /\
    (exists t u, ts_of e 1 = Some t /\ ts_of e 0 = Some u /\
       intersects (prims t) PRIM_STRING = true /\ intersects (prims u) PRIM_STRING = false /\
       subset_of (prims t) (prims u) = false))
    as (e & He & Hw & Hl & t & u & Ht & Hu & Hi & Hn & Hs).
  { eexists. split; [vm_compute; reflexivity|]. split; [vm_compute; reflexivity|].
    split; [vm_compute; reflexivity|]. eexists _, _. split_and!; vm_compute; reflexivity. }
  exists e. split; [exact He|]. split; [exact Hw|]. split; [exact Hl|].
  split; [exists t, u; split_and!; assumption|].
  clear He. intros H. destruct (H t [0%nat] 0%nat Ht Hl) as (u' & Hu' & [[Lp _ _ _] _]);
    [by apply list_elem_of_singleton|].
  congruence.
Qed.

(** ** Cell values *)

(** C19: on well-formed cells [TypeSet::join_from] is the componentwise join,
    returns [true] exactly when the cell changes, keeps the cell well-formed,
    and keeps the interval empty only for cells without numbers. *)
Theorem join_from_exact (t o : TypeSet) (m : list AbsLabels) (sk : JoinSink) :
  ts_wf t -> ts_wf o ->
  let '(t', _, changed) := join_from t o m sk in
  t' = mkTypeSet (p_or (prims t) (prims o)) (fns_join (fns t) (fns o))
         (join_obj (obj t) (obj o) m) (range_max (range t) (range o))
         (unknown t || unknown o) (iv_join (interval t) (interval o)) /\
  (changed = true <-> t' <> t) /\ ts_wf t' /\
  (interval_inv t -> interval_inv o -> interval_inv t').
Proof.
  intros Ht Ho. pose proof (join_from_eq t o m sk Ht Ho) as E.
  pose proof (join_from_changed t o m sk Ht Ho) as C.
  pose proof (ts_join_wf t o m Ht Ho) as W. pose proof (ts_join_interval_inv t o m Ht Ho) as V.
  rewrite (ts_join_eq t o m Ht Ho), <- E in W, V.
  destruct (join_from t o m sk) as [[t' sk'] c]. cbn [fst snd] in *.
  split_and!; [exact E| |exact W|exact V]. rewrite C. case_bool_decide; cbn; intuition congruence.
Qed.

Lemma join_from_exact_witness :
  exists t', join_from (ts_prim PRIM_INT32) (ts_prim PRIM_DOUBLE) [] sink_default
    = (t', sink_default, true) /\ ts_wf t'.
Proof.
  pose proof (join_from_exact (ts_prim PRIM_INT32) (ts_prim PRIM_DOUBLE) [] sink_default) as H.
  vm_compute join_from in H. eexists. split; [vm_compute; reflexivity|]. apply H;
    apply ts_prim_wf; vm_compute; intuition congruence.
Defined.

(** A cell that starts well-formed and only receives joins with fixed
    labels changes at most 100 times, whatever arrives and in whatever order:
    far below [MAX_CELL_CHANGES]. *)
Theorem cell_change_bound (m : list AbsLabels) (t : TypeSet) (os : list TypeSet) :
  ts_wf t -> Forall ts_wf os ->
  cell_changes m t os <= 100 /\ 100 <= MAX_CELL_CHANGES.
Proof.
  intros Ht Hos. pose proof (cell_changes_rank m os t Ht Hos).
  pose proof (ts_rank_range m t Ht). unfold TS_RANK_MAX, MAX_CELL_CHANGES in *. lia.
Qed.

Lemma cell_change_bound_witness :
  cell_changes [] ts_default [ts_prim PRIM_INT32; ts_prim PRIM_INT32; ts_prim PRIM_DOUBLE] = 2 /\
  2 <= 100.
Proof.
  split; [vm_compute; reflexivity|].
  destruct (cell_change_bound [] ts_default
    [ts_prim PRIM_INT32; ts_prim PRIM_INT32; ts_prim PRIM_DOUBLE]) as [H _];
    [split; [vm_compute; intuition congruence|split; cbn; [constructor|lia|done]|exact I]| |].
  - rewrite !list.Forall_cons. split_and!; try apply ts_prim_wf;
      try (vm_compute; intuition congruence). apply Forall_nil_2.
  - vm_compute in H. exact H.
Defined.

(** C37: the change bound is not a bound of the engine: with array classes in
    play a cell's label descends the region forest, and for every [n] that
    fits the counter, [n] array classes raised in descending order change one
    cell [n] times, so past [MAX_CELL_CHANGES], which the debug build asserts,
    as soon as there are more than 768 of them. *)
Theorem change_bound_exceeded (n : nat) :
  MAX_CELL_CHANGES < Z.of_nat n < 2 ^ 16 ->
  exists cs, many_arrays n = Some cs /\ exists c, cs !! 0%nat = Some c /\ c = Z.of_nat n /\
    MAX_CELL_CHANGES < c.
Proof.
  intros [Hlo Hhi]. destruct (many_arrays_changes n Hhi) as (cs & H & Hc).
  exists cs. split; [exact H|]. exists (Z.of_nat n). split_and!; [exact Hc|reflexivity|exact Hlo].
Qed.

Lemma change_bound_exceeded_witness :
  exists cs, many_arrays 769 = Some cs /\ exists c, cs !! 0%nat = Some c /\ MAX_CELL_CHANGES < c.
Proof.
  destruct (change_bound_exceeded 769) as (cs & H & c & Hc & _ & Hlt); [split; vm_compute; reflexivity|].
  exists cs. split; [exact H|]. exists c. split; assumption.
Defined.

(** C20: [BoundedFnSet] refines a set of function ids capped at eight: insert,
    join and the subset test are insertion, union and the order of the capped
    set, the changed flags are exact, and the representation stays sorted,
    duplicate-free and within the cap. *)
Theorem fns_refines_capped_set (s o : BoundedFnSet) (f : FnId) (d : list FnId) :
  fns_wf s -> fns_wf o ->
  (let '(s', _, c) := fns_insert s f d in
   fns_wf s' /\ fns_abs s' = fset_union (fns_abs s) (Some {[f]}) /\
   c = negb (bool_decide (s' = s))) /\
  (let '(s', _, c) := fns_join_from s o d in
   fns_wf s' /\ fns_abs s' = fset_union (fns_abs s) (fns_abs o) /\
   c = negb (bool_decide (s' = s))) /\
  (fns_is_subset_of s o = true <-> fset_union (fns_abs o) (fns_abs s) = fns_abs o).
Proof.
  intros Hs Ho. split_and!; [by apply fns_insert_spec|by apply fns_join_from_spec|].
  rewrite (fns_is_subset_of_spec s o Hs Ho), bool_decide_eq_true.
  rewrite <- (fns_join_abs o s Ho Hs). split; [congruence|]. intros E.
  apply fns_abs_inj; [by apply fns_join_wf|done|done].
Qed.

Lemma fns_refines_capped_set_witness :
  fns_abs (fst (fst (fns_insert (fns_one 3) 5 []))) = Some {[3; 5]}.
Proof.
  destruct (fns_refines_capped_set (fns_one 3) (fns_one 5) 5 []) as [H _].
  - split; cbn; [repeat constructor|unfold FN_MAX; lia|done].
  - split; cbn; [repeat constructor|unfold FN_MAX; lia|done].
  - vm_compute fns_insert in H. destruct H as (_ & H & _). cbn [fst fns_insert].
    etransitivity; [|etransitivity; [exact H|]]; [reflexivity|]. vm_compute. reflexivity.
Defined.

(** The bounded function sets are a join semilattice, so the order in
    which callees arrive at a call site does not change its resolution. *)
Theorem fns_join_laws (s t u : BoundedFnSet) :
  fns_wf s -> fns_wf t -> fns_wf u ->
  fns_join s t = fns_join t s /\
  fns_join s (fns_join t u) = fns_join (fns_join s t) u /\
  fns_join s s = s.
Proof. apply fns_join_semilattice. Qed.

Lemma fns_join_laws_witness :
  fns_join (fns_one 3) (fns_one 5) = fns_join (fns_one 5) (fns_one 3).
Proof.
  apply (fns_join_laws (fns_one 3) (fns_one 5) fns_default);
    split; cbn; try (repeat constructor); try (unfold FN_MAX; lia); done.
Defined.

(** C38: the object part of a join keeps every object either side had, except
    that two allocation sites of which one is a snapshot object collapse to
    the snapshot one, and then the loser is recorded as absorbed. *)
Theorem join_obj_keeps_objects (m : list AbsLabels) (region : ClassId -> ClassId)
    (o1 o2 : ObjType) (a : AbsId) :
  obj_has m region o1 a \/ obj_has m region o2 a ->
  obj_has m region (join_obj o1 o2 m) a \/
  (exists z, (z, a) ∈ snap_absorbed o1 o2 (join_obj o1 o2 m) /\ join_obj o1 o2 m = OOne z).
Proof. apply join_obj_covers. Qed.

Lemma join_obj_keeps_objects_witness :
  let m := [mkAbsLabels (Some 4%nat) false false; mkAbsLabels (Some 4%nat) false false] in
  obj_has m id (join_obj (OOne 0) (OOne 1) m) 1 \/
  (exists z, (z, 1%nat) ∈ snap_absorbed (OOne 0) (OOne 1) (join_obj (OOne 0) (OOne 1) m) /\
     join_obj (OOne 0) (OOne 1) m = OOne z).
Proof. intros m. apply (join_obj_keeps_objects m id). right. reflexivity. Defined.

(** The object join is not associative: a snapshot object and two unknown
    sites join to the snapshot object in one order and to [AnyObject] in the
    other, so the label a cell ends with depends on the arrival order. *)
Theorem join_obj_order_dependent :
  exists m a b c, join_obj (join_obj a b m) c m <> join_obj a (join_obj b c m) m.
Proof.
  pose proof join_obj_not_assoc as [H1 H2].
  eexists _, _, _, _. rewrite H1, H2. discriminate.
Qed.

(** The fast path of [raise] ignores [unknown]: raising unknown evidence
    into a cell holding [undefined + 1] is reported as no growth although the
    join would set the flag, and the cell keeps a pure numeric claim. *)
Theorem unknown_dropped :
  exists t, undefined_plus_one = Some t /\
    no_growth (engine_over [] ∅ 7) t unknown_evidence = true /\
    unknown (ts_join t unknown_evidence []) = true /\
    pure_numeric t = Some NUM /\ pure_numeric (ts_join t unknown_evidence []) = None.
Proof.
  eexists. split; [vm_compute; reflexivity|]. split_and!; vm_compute; reflexivity.
Qed.

(** ** Arithmetic *)

(** C12: the interval transfer is sound for IEEE double arithmetic: on
    operand values in the operand intervals (a literal operand in its literal
    interval), the result of the JavaScript operator lies in the interval the
    solver computes, for every operator; [**] is an arbitrary function. *)
Theorem arith_interval_sound (js_pow : num -> num -> num) (op : NumOp)
    (a : Interval) (a_lit : option ValueRange)
    (b : option Interval) (b_lit : option ValueRange) (v w : num) :
  iv_quantized a -> lit_wf a_lit ->
  (forall h, b = Some h -> iv_quantized h) -> lit_wf b_lit ->
  in_operand a a_lit v -> (forall h, b = Some h -> in_operand h b_lit w) ->
  in_interval (arith_interval op a a_lit b b_lit) (js_num_op js_pow op v w).
Proof. apply arith_interval_sound_lemma. Qed.

Lemma arith_interval_sound_witness :
  arith_interval Mul (IIn (mkVR 0 7)) None (Some (IIn (mkVR 0 15))) None = IIn (mkVR 0 127) /\
  in_interval (IIn (mkVR 0 127)) (f64_mul (of_Z 7) (of_Z 9)).
Proof.
  split; [vm_compute; reflexivity|].
  apply (arith_interval_sound f64_add Mul (IIn (mkVR 0 7)) None (Some (IIn (mkVR 0 15))) None
           (of_Z 7) (of_Z 9)).
  - vm_compute. reflexivity.
  - exact I.
  - intros h [= <-]. vm_compute. reflexivity.
  - exact I.
  - exists 7. cbn. split; [lia|reflexivity].
  - intros h [= <-]. exists 9. cbn. split; [lia|reflexivity].
Defined.

(** C27: the interval rules with a negative-zero flag that the value facts
    share are sound for IEEE double arithmetic, with the exception of the
    products of [mul_gap]. *)
Theorem iv_transfer_sound (js_pow : num -> num -> num) (op : NumOp) (a : Iv) (b : option Iv)
    (u : bool) (v w : num) :
  iv_wf a -> iv_wf (second b) -> (op = Mul -> ~ mul_gap a (second b)) ->
  gamma a v -> gamma (second b) w ->
  gamma (iv_transfer op a b u) (js_num_op js_pow op v w).
Proof. apply iv_transfer_sound_lemma. Qed.

Lemma iv_transfer_sound_witness :
  iv_transfer Neg (Some (0, 5, false)) None false = Some (-5, 0, true) /\
  gamma (Some (-5, 0, true)) (f64_neg (of_Z 0)).
Proof.
  split; [vm_compute; reflexivity|].
  apply (iv_transfer_sound f64_add Neg (Some (0, 5, false)) None false (of_Z 0) (of_Z 0)).
  - cbn. unfold IV_LIM. lia.
  - exact I.
  - discriminate.
  - left. exists 0. split; [lia|reflexivity].
  - exact I.
Defined.

(** The exception is real: -0 times 0 is -0, the interval of the product
    claims there is no -0. *)
Theorem iv_mul_misses_neg_zero :
  exists a b, iv_wf a /\ iv_wf b /\ gamma a neg_zero /\ gamma b (of_Z 0) /\
  f64_mul neg_zero (of_Z 0) = neg_zero /\ ~ gamma (iv_mul a b) (f64_mul neg_zero (of_Z 0)).
Proof.
  destruct iv_mul_gap_lemma as (Ha & Hb & Ga & Gb & _ & Hm & Hn).
  eexists _, _. split_and!; [exact Ha|exact Hb|exact Ga|exact Gb|exact Hm|exact Hn].
Qed.

(** C33: the arithmetic transfer is monotone along joins of its operands, which
    is what makes re-evaluating a constraint safe: growing an operand cell
    never shrinks the result's classes or range. *)
Theorem arith_transfer_monotone (op : NumOp) (a x : TypeSet) (b : option TypeSet) (y : TypeSet)
    (m : list AbsLabels) :
  ts_wf a -> ts_wf x -> (forall b', b = Some b' -> ts_wf b') -> ts_wf y ->
  res_le (arith_transfer op a b) (arith_transfer op (ts_join a x m) (grown m b y)).
Proof. apply arith_transfer_mono_lemma. Qed.

Lemma arith_transfer_monotone_witness :
  arith_transfer Add (ts_prim PRIM_INT32) (Some (ts_prim PRIM_INT32)) = Some (PRIM_INT32, R_I53) /\
  res_le (Some (PRIM_INT32, R_I53))
    (arith_transfer Add (ts_join (ts_prim PRIM_INT32) (ts_prim PRIM_STRING) [])
       (Some (ts_join (ts_prim PRIM_INT32) (ts_prim PRIM_DOUBLE) []))).
Proof.
  split; [vm_compute; reflexivity|].
  apply (arith_transfer_monotone Add (ts_prim PRIM_INT32) (ts_prim PRIM_STRING)
           (Some (ts_prim PRIM_INT32)) (ts_prim PRIM_DOUBLE) []).
  - apply ts_prim_wf. vm_compute. intuition congruence.
  - apply ts_prim_wf. vm_compute. intuition congruence.
  - intros b' [= <-]. apply ts_prim_wf. vm_compute. intuition congruence.
  - apply ts_prim_wf. vm_compute. intuition congruence.
Defined.

(** C32: the shared result-class table agrees with the likely-level transfer
    the unit tests state independently, on every operand and every operator
    they route to it (the tests sample this; here it is every case). *)
Theorem result_matches_oracle (op : NumOp) (a : OracleTs) (b : option OracleTs) :
  oracle_routed op = true ->
  result op (likely_opnd a) (likely_opnd <$> b) = oracle_arith_transfer op a b.
Proof. apply result_oracle_eq. Qed.

Lemma result_matches_oracle_witness :
  oracle_arith_transfer Add (mkOracleTs PRIM_STRING false false R_I32)
    (Some (mkOracleTs PRIM_INT32 false false R_I32)) = Some (PRIM_STRING, R_Top).
Proof.
  rewrite <- (result_matches_oracle Add (mkOracleTs PRIM_STRING false false R_I32)
    (Some (mkOracleTs PRIM_INT32 false false R_I32)) eq_refl). vm_compute. reflexivity.
Defined.

(** A stored interval survives arbitrarily many arrivals with at most
    twelve changes: three exact joins, the widening rungs, and the loss. *)
Theorem recorded_interval_bound (ns : list (option ValueRange)) (s : option ValueRange) :
  (iv_changes (s, 0%Z) ns <= 12)%nat /\
  (forall n st u, iv_join_recorded n st = Some u -> vr_incl n u /\ vr_incl st u).
Proof.
  split; [|apply iv_join_recorded_incl].
  etransitivity; [apply iv_changes_budget|]. unfold iv_budget, IV_WIDEN_JOINS.
  destruct s; cbn; lia.
Qed.

(** The widening ladder of cell intervals: [hq] is an outward rounding
    within int32 that is idempotent, and it gives up exactly when a bound
    leaves int32. *)
Theorem hq_ladder (l h : Z) :
  (hq l h = None <-> l < I32_LO \/ I32_HI < h) /\
  (forall a b, hq l h = Some (a, b) ->
     a <= l /\ h <= b /\ I32_LO <= a <= 0 /\ 0 <= b <= I32_HI /\ hq a b = Some (a, b)).
Proof. split; [apply hq_None|intros a b; apply hq_spec]. Qed.

(** An operand with no interval makes the interval of a bitwise result
    empty although its class mask is not, so the two halves of a cell disagree
    on which values can occur: [ts_default & ts_default] is an int32 with no
    integers. *)
Theorem empty_interval_int_mask :
  arith_val BitAnd ts_default (Some ts_default) None None
    = Some (prim_interval PRIM_INT32 R_I32 IEmpty) /\
  ~ interval_inv (prim_interval PRIM_INT32 R_I32 IEmpty).
Proof.
  split; [vm_compute; reflexivity|]. intros H. destruct (H eq_refl) as [E _].
  vm_compute in E. discriminate E.
Qed.

(** ** Claims *)

(** C21: a claim the analysis emits for a cell covers everything that was
    raised into it, with raises into other cells before and after: an object
    claim only where no primitive arrived, a primitive claim where no function
    and no object arrived and naming a superset of the classes of every
    arrival; and no unknown evidence arrived, except on a raise the fast path
    took, which drops it ([unknown_dropped]). *)
Theorem claim_covers_arrivals (N : nat) (K : gset CellKey) (n : nat) (e : Engine)
    (pre post : list (CellId * TypeSet * User)) (id : CellId) (t : TypeSet) (why : User) :
  eng_wf N K e -> Forall (arrival_ok N e) (pre ++ (id, t, why) :: post) ->
  2 * pot N K e + 2 <= Z.of_nat n ->
  exists e1 cur e' u, raises n e pre = Some e1 /\ ts_of e1 id = Some cur /\
    raises n e (pre ++ (id, t, why) :: post) = Some e' /\ ts_of e' id = Some u /\
    forall c, value_claim_full u = Some c ->
      claim_names c t /\ (unknown t = true -> no_growth e1 cur t = true).
Proof.
  intros W Hl Hn. destruct (raises_deliver N K n e pre post id t why W Hl Hn)
    as (e1 & cur & e' & u & H1 & Hcur & H' & Hu & Wu & Hle & Hun).
  exists e1, cur, e', u. split_and!; try assumption. intros c Hc.
  apply Forall_app in Hl as [_ Hl]. apply list.Forall_cons in Hl as [(_ & Wt & _) _].
  destruct (claim_names_le e' t u c Wt Wu Hle Hc) as [Hnames Hf]. split; [exact Hnames|].
  intros Ht. destruct (Hun Ht); [congruence|assumption].
Qed.

(** A cell with two numbers in it, between raises into the other cell. *)
Definition number_raises : list (CellId * TypeSet * User) :=
  [(0%nat, class_any 2, (SEED, CTX0)); (2%nat, ts_prim PRIM_INT32, (SEED, CTX0));
   (2%nat, ts_prim PRIM_DOUBLE, (SEED, CTX0))].

Definition three_cells : Engine := fst (cell two_cells (KGName 2)).

Definition three_keys : gset CellKey := {[KGName 2]} ∪ two_keys.

Lemma claim_covers_arrivals_witness :
  exists e1 cur e' u, raises 6000 three_cells (take 1 number_raises) = Some e1 /\ ts_of e1 2 = Some cur /\
    raises 6000 three_cells number_raises = Some e' /\ ts_of e' 2 = Some u /\
    forall c, value_claim_full u = Some c -> claim_names c (ts_prim PRIM_INT32).
Proof.
  destruct (claim_covers_arrivals 3 three_keys 6000 three_cells (take 1 number_raises)
    (drop 2 number_raises) 2 (ts_prim PRIM_INT32) (SEED, CTX0)) as (e1 & cur & e' & u & H1 & H2 & H3 & H4 & H5).
  - assert (eng_wf 3 three_keys two_cells) as W.
    { destruct two_cells_wf as [A B C D E F G]. split; try assumption.
      - intros en c Hen Hc. apply elem_of_union_r. exact (B en c Hen Hc).
      - intros k i Hk. apply elem_of_union_r. exact (D k i Hk). }
    assert (KGName 2 ∈ three_keys) as Hk by (apply elem_of_union_l, elem_of_singleton; reflexivity).
    destruct (made_wf 3 three_keys two_cells _ (KGName 2) _ W Hk (cell_made two_cells (KGName 2))) as [W3 _].
    exact W3.
  - assert (forall i t why, (i < 3)%nat -> ts_wf t -> obj_below 3 (obj t) ->
      arrival_ok 3 three_cells (i, t, why)) as H.
    { intros i t why Hi Ht Ho. split; [|split; assumption]. vm_compute length. exact Hi. }
    cbn [app take drop number_raises]. rewrite !list.Forall_cons.
    split_and!; [apply H|apply H|apply H|apply Forall_nil_2]; try lia; try exact I;
      try exact (class_any_wf _); try (cbn; lia); apply ts_prim_wf; vm_compute; intuition congruence.
  - vm_compute. discriminate.
  - exists e1, cur, e', u. split_and!; [exact H1|exact H2|exact H3|exact H4|]. intros c Hc. apply (H5 c Hc).
Defined.

(** The numeric claim word carries exactly the cell's classes and sets the
    double-first bit exactly when fractional values reach it, and
    [site_claim]'s own double-first step never adds anything to
    [value_claim]. *)
Theorem numeric_claim_exact (t : TypeSet) (c : Claim) :
  p_wf (prims t) -> numeric_claim t = Some c ->
  claim_prims c = prims t /\ double_first c = fractional_reachable t /\ is_object c = false /\
  site_claim t = value_claim t.
Proof.
  intros Hp Hc. destruct (numeric_claim_word t c Hp Hc) as (? & ? & ?).
  split_and!; [assumption|assumption|assumption|apply site_claim_eq_lemma].
Qed.

Lemma numeric_claim_exact_witness :
  double_first (with_double_first (of_prims PRIM_DOUBLE)) = true /\
  is_object (with_double_first (of_prims PRIM_DOUBLE)) = false.
Proof.
  destruct (numeric_claim_exact (ts_prim PRIM_DOUBLE) (with_double_first (of_prims PRIM_DOUBLE)))
    as (_ & H1 & H2 & _).
  - vm_compute. intuition congruence.
  - vm_compute. reflexivity.
  - split; [rewrite H1; vm_compute; reflexivity|exact H2].
Defined.

(** The claim word round trips: a primitive mask survives [of_prims], and
    a typed-array kind survives [object_of_ta], whose other accessors read no
    primitive class and no double-first bit. *)
Theorem claim_word_roundtrip (p : Prims) (k : TaKind) :
  p_wf p ->
  claim_prims (of_prims p) = p /\ is_object (of_prims p) = false /\
  claim_prims (with_double_first (of_prims p)) = p /\
  is_object (object_of_ta k) = true /\ ta_kind (object_of_ta k) = Some k /\
  sans_ta (object_of_ta k) = claim_OBJECT /\ claim_prims (object_of_ta k) = EMPTY /\
  double_first (object_of_ta k) = false.
Proof.
  intros Hp. destruct (of_prims_flags p Hp) as [H1 H2].
  destruct (with_double_first_prims (of_prims p)) as [H3 _].
  split_and!; [by apply of_prims_prims|done|by rewrite H3, of_prims_prims|apply object_of_ta_roundtrip_lemma..].
Qed.

Lemma claim_word_roundtrip_witness : ta_kind (object_of_ta Float32) = Some Float32.
Proof.
  destruct (claim_word_roundtrip NUM Float32) as (_ & _ & _ & _ & H & _);
    [vm_compute; intuition congruence|exact H].
Defined.

(** The three families of function ids are disjoint: a script index below
    the native base, a native index that fits, a typed-array kind and the
    array constructor are each recognised by their own accessor and by no
    other, and [fn_native] refuses the indices that would collide. *)
Theorem fn_id_partition (s i : Z) (k : TaKind) :
  0 <= s < NATIVE_BASE -> 0 <= i ->
  fn_kind (fn_script s) = KScript s /\
  match fn_native i with Some f => fn_kind f = KNative i | None => 4032 <= i end /\
  fn_kind (typed_array_ctor k) = KTyped k /\ fn_kind FN_ARRAY = KArray.
Proof.
  intros Hs Hi. split_and!; [by apply fn_kind_script|by apply fn_kind_native|
    apply fn_kind_typed|apply fn_kind_array].
Qed.

Lemma fn_id_partition_witness : fn_kind (fn_script 12) = KScript 12 /\ fn_native 5000 = None.
Proof.
  destruct (fn_id_partition 12 5000 Int8) as (H & _); [unfold NATIVE_BASE; lia|lia|].
  split; [exact H|vm_compute; reflexivity].
Defined.

(** C31: uniting two regions of a well-formed engine is the union of a
    union-find structure, with its consequences: it succeeds with the fuel the
    potential bounds and returns the smaller root; the engine stays
    well-formed; classes that shared a region still do, the two regions become
    one, and no root rises; when no further region is merged behind the new
    views' link, the members of both regions find the smaller root and every
    other class keeps its root; and with element views on, the losing region's
    elements view is linked into the winner's and what it held is delivered
    there. *)
Theorem region_union (N : nat) (K : gset CellKey) (n : nat) (e : Engine) (c d : ClassId) :
  eng_wf N K e -> (c < N)%nat -> (d < N)%nat -> 2 * pot N K e <= Z.of_nat n ->
  exists e', union_regions n e c d = Some (e', Nat.min (region_root e c) (region_root e d)) /\
    eng_wf N K e' /\
    (forall x y, region_root e x = region_root e y -> region_root e' x = region_root e' y) /\
    region_root e' c = region_root e' d /\
    (forall x, (region_root e' x <= region_root e x)%nat) /\
    ((size (region_parent e') <= S (size (region_parent e)))%nat -> forall x, region_root e' x =
      if bool_decide (region_root e x = region_root e c \/ region_root e x = region_root e d)
      then Nat.min (region_root e c) (region_root e d) else region_root e x) /\
    (forall en, elems_name e = Some en -> region_root e c <> region_root e d ->
      views_linked e e' (Nat.min (region_root e c) (region_root e d))
        (Nat.max (region_root e c) (region_root e d)) en).
Proof.
  intros W Hc Hd Hn. destruct (union_regions_ok N K n (raise n) (raise_ok N K n) e c d W Hc Hd Hn)
    as (e' & H & U). exists e'. split; [exact H|]. pose proof (un_grows _ _ _ _ _ _ U) as G.
  exact (conj (un_wf _ _ _ _ _ _ U) (conj (vl_regions _ _ (g_view _ _ _ _ G))
    (conj (un_same _ _ _ _ _ _ U) (conj (g_down _ _ _ _ G)
      (conj (un_exact _ _ _ _ _ _ U) (un_views _ _ _ _ _ _ U)))))).
Qed.

Lemma region_union_witness :
  exists e', union_regions 5000 two_cells 2%nat 1%nat = Some (e', 1%nat) /\
    region_root e' 2%nat = region_root e' 1%nat /\ views_linked two_cells e' 1 2 7.
Proof.
  destruct (region_union 3 two_keys 5000 two_cells 2 1) as (e' & H & _ & _ & R & _ & _ & V).
  - apply two_cells_wf.
  - lia.
  - lia.
  - vm_compute. discriminate.
  - exists e'. split; [exact H|]. split; [exact R|]. apply V; [reflexivity|vm_compute; discriminate].
Defined.

(** Agreement cells depend on the set of observations only: [Agreed] is
    order-independent and holds a value exactly when every observation is that
    value, and [AgreedSet] holds the distinct observations in order of first
    arrival until there are more than its cap. *)
Theorem agreement_spec (vs ws : list Z) (cap : nat) (v : Z) :
  (vs ≡ₚ ws -> agreed_all vs = agreed_all ws) /\
  agreed_all vs = agreed_ref vs /\
  ((1 <= cap)%nat -> agreed_set_all cap (v :: vs) =
     if (length (distinct [v] vs) <=? cap)%nat then SSome (distinct [v] vs) else SConflict).
Proof.
  split_and!; [apply agreed_perm_lemma|apply agreed_all_ref|apply agreed_set_spec].
Qed.

Lemma agreement_spec_witness : agreed_set_all 2 [7; 8; 7] = SSome [7; 8].
Proof.
  destruct (agreement_spec [8; 7] [8; 7] 2 7) as (_ & _ & H). rewrite H by lia. reflexivity.
Defined.
