(* ===== verification/SnapshotProperties.v ===== *)
(** * SnapshotProperties: what the snapshot reader and the bytecode visitor do

    The properties of the registration block and its tables, the walk of the
    guest heap, scope resolution and the bytecode visitor. *)

From S2P Require Import Prelude Mem Registration RegistrationSound Source Walker WalkerSound.
From S2P Require Import Bytecode BytecodeSound.

(** ** A snapshot image

    One script (at 640) of two bytecode bytes, whose only gcthing is the
    global scope (at 736): the registration block at 16, the layout descriptor
    at 256, the digest at 592. *)

Definition image_fields : list Z :=
  (fun f =>
    match f with
    | traceKindObject => 1 | traceKindString => 2 | traceKindScript => 3 | traceKindScope => 4
    | baseScriptFunction => 8 | baseScriptImmutableFlags => 12 | baseScriptPrivateData => 16
    | baseScriptSharedData => 20 | isdOptArrayOffset => 4 | isdBodyScopeIndex => 8 | isdCode => 16
    | privateScriptDataGCThings => 4 | gcCellPtrKindMask => 7 | scopeEnclosing => 4
    | scopeEnvironmentShape => 8 | scopeKindGlobal => 1 | scopeKindNamedLambda => 7
    | scopeKindStrictNamedLambda => 8 | scopeKindWith => 9 | scopeKindNonSyntactic => 10
    | isfStrict => 1 | isfIsAsync => 2 | isfIsGenerator => 4 | isfNeedsArgsObj => 8
    | isfHasMappedArgsObj => 16 | _ => 0
    end) <$> all_fields.

(** Well-formedness of concrete tables, by evaluation of its leaves. *)
Ltac concrete_wf :=
  repeat match goal with
    | |- _ /\ _ => split
    | |- Forall _ _ => constructor
    | |- in_u _ _ => split
    | |- _ <= _ => vm_compute; congruence
    | |- _ < _ => vm_compute; reflexivity
    | |- _ = true => vm_compute; reflexivity
    | |- short _ => vm_compute; reflexivity
    | |- forall _, _ = Some _ -> _ => intros ? [=]; subst
    | |- _ => progress hnf
    end.

(** Words at byte addresses. *)
Definition words_at (size : nat) (blocks : list (Z * list Z)) : list Z :=
  foldl (fun ws b => list_inserts (Z.to_nat (fst b / 4)) (snd b) ws) (replicate size 0) blocks.

Definition image_words : list Z :=
  words_at 188
    [(16, [8; 256; 0; 0; 1; 640]); (68, [592; 28]); (256, [8; 0; 78] ++ image_fields);
     (592, [1; 640; 1; 4; 1; 736; 0]); (640, [0; 0; 0; 1; 720; 672]); (672, [688]);
     (688, [2; 16; 0; 0; 0xbeef]); (720, [1; 740]); (736, [1; 0; 0])].

Lemma image_are_bytes (ws : list Z) : Forall is_byte (mjoin (to_le 4 <$> ws)).
Proof.
  induction ws as [|w ws IH]; [constructor|]. apply list.Forall_app. split; [apply to_le_bytes|exact IH].
Qed.

Definition image : SliceMem := mkSliceMem (mjoin (to_le 4 <$> image_words)) (image_are_bytes image_words).

Definition image_reg : option Registration :=
  match registration_read 64 image 16 with Ok r => Some r | _ => None end.

(** ** The registration block *)

(** C18: on the 64-bit host, at every 32-bit address of every memory that
    obeys the access laws, reading the registration block ends in a value or an
    error: it does not panic, the capacity check of every pre-allocation
    included, and its loops end. A value it returns is what the block holds:
    the ABI word; one to eight roots in order; the word of each layout field,
    behind a descriptor with the right version and count; the flags, the table
    of compiled addresses and the global object. A digest, a table of
    self-hosted names, of regex programs or of heap objects whose bytes are
    what the engine's serializer writes is read back as exactly what was
    written, whatever follows it, and an absent table as an empty one; every
    address of the tables is a 32-bit word. *)
Theorem registration_read_total {M : Type} `{MemLaws M} (mem : M) (addr : Z) :
  in_u 32 addr ->
  returns (registration_read 64 mem addr) /\
  forall r, registration_read 64 mem addr = Ok r -> registration_at mem addr r.
Proof. exact (registration_read_spec mem addr). Qed.

Lemma registration_read_total_witness :
  exists r, registration_read 64 image 16 = Ok r /\ reg_roots r = [640] /\ registration_at image 16 r.
Proof.
  destruct (registration_read_total image 16) as [_ H]; [unfold in_u; lia|].
  destruct image_reg as [r|] eqn:E; [|vm_compute in E; discriminate E].
  assert (registration_read 64 image 16 = Ok r) as R.
  { unfold image_reg in E. destruct (registration_read 64 image 16); congruence. }
  exists r. split; [exact R|]. split; [|exact (H r R)].
  vm_compute in E. injection E as <-. reflexivity.
Defined.

(** C30: the tables of self-hosted scripts and of regex programs read back
    exactly what the engine's serializer wrote, names and patterns included;
    a table cut short by a word or more is rejected with an error. *)
Theorem extras_tables_roundtrip {M : Type} `{MemLaws M}
    (names : list (Z * list Z)) (programs : list RegexProgramSrc) :
  selfhosted_wf names -> len (enc_selfhosted names) < 2 ^ 32 ->
  short programs -> Forall regex_wf programs -> len (enc_regex programs) < 2 ^ 32 ->
  table_at (M := M) (parse_selfhosted 64) (enc_selfhosted names) names /\
  table_at (M := M) (parse_regex_programs 64) (enc_regex programs) programs.
Proof.
  intros Hn Ln Hs Hp Lp. split; (eapply table_at_intro; [|by eauto using selfhosted_encodes, regex_encodes|]).
  - apply selfhosted_table_ok.
  - split; [apply len_enc_list|done].
  - apply regex_table_ok.
  - split; [apply len_enc_list|done].
Qed.

Definition sample_names : list (Z * list Z) := [(4096, [0x61; 0x2e; 0x62]); (8192, [])].
Definition sample_program : RegexProgramSrc := mkRegexProgram [0x61; 0x3bb] 4 [1; 2; 3] [] 2 1.

(** An encoding in memory at address 4. *)
Lemma in_memory_bytes (e : list Z) : Forall is_byte ([0; 0; 0; 0] ++ ((fun b => b mod 256) <$> e)).
Proof.
  apply list.Forall_app. split; [repeat constructor; unfold is_byte, in_u; lia|].
  apply list.Forall_fmap, list.Forall_forall. intros b _. apply Z.mod_pos_bound. lia.
Qed.
Definition in_memory (e : list Z) : SliceMem := mkSliceMem _ (in_memory_bytes e).

Lemma extras_tables_roundtrip_witness :
  parse_selfhosted 64 (in_memory (enc_selfhosted sample_names)) 4 (len (enc_selfhosted sample_names))
    = Ok sample_names /\
  parse_regex_programs 64 (in_memory (enc_regex [sample_program])) 4 (len (enc_regex [sample_program]))
    = Ok [sample_program].
Proof.
  destruct (extras_tables_roundtrip (M := SliceMem) sample_names [sample_program]) as [H1 H2].
  - concrete_wf.
  - vm_compute; reflexivity.
  - vm_compute; reflexivity.
  - concrete_wf.
  - vm_compute; reflexivity.
  - split; [apply (ta_whole _ _ _ H1)|apply (ta_whole _ _ _ H2)]; try lia; vm_compute; reflexivity.
Defined.

(** C29: the heap tables and the digest read back as the maps of the entries
    the serializer wrote, the last entry of an address winning, with every
    object, property, element, environment slot and binding intact; a table
    cut short by a word or more is rejected with an error. *)
Theorem heap_tables_roundtrip {M : Type} `{MemLaws M}
    (objs : list (Z * HeapObject)) (envs : list (Z * list (Z * Z)))
    (scripts : list (Z * list Z)) (scopes : list (Z * list DigestBinding)) :
  heap_wf objs envs -> len (enc_heap objs envs) < 2 ^ 32 ->
  digest_wf scripts scopes -> len (enc_digest scripts scopes) < 2 ^ 32 ->
  table_at (M := M) (parse_heap 64) (enc_heap objs envs) (inserts objs, inserts envs) /\
  table_at (M := M) (digest_parse 64) (enc_digest scripts scopes)
    (mkDigest (inserts scripts) (inserts scopes)).
Proof.
  intros Hh Lh Hd Ld. split.
  - eapply table_at_intro; [apply heap_table_ok|by apply heap_encodes|]. split; [apply len_enc_heap|done].
  - apply digest_at_intro; [by apply digest_encodes|done].
Qed.

Definition sample_heap : list (Z * HeapObject) :=
  [(4096, mkHeapObject 12 1 0 [(16, 2 ^ 40 + 5)] [(3, 7)]); (4096, mkHeapObject 13 4 4096 [] [])].
Definition sample_scopes : list (Z * list DigestBinding) :=
  [(736, [mkDigestBinding 88 true None; mkDigestBinding 92 false (Some 2)])].

Lemma heap_tables_roundtrip_witness :
  let e := enc_heap sample_heap [(736, [(2, 9)])] in
  let d := enc_digest [(640, [4; 255])] sample_scopes in
  parse_heap 64 (in_memory e) 4 (len e)
    = Ok (inserts sample_heap, inserts [(736, [(2, 9)])]) /\
  inserts sample_heap !! 4096 = Some (mkHeapObject 13 4 4096 [] []) /\
  digest_parse 64 (in_memory d) 4 (len d) = Ok (mkDigest (inserts [(640, [4; 255])]) (inserts sample_scopes)).
Proof.
  intros e d.
  destruct (heap_tables_roundtrip (M := SliceMem) sample_heap [(736, [(2, 9)])] [(640, [4; 255])]
    sample_scopes) as [H1 H2].
  - concrete_wf.
  - vm_compute; reflexivity.
  - concrete_wf.
  - vm_compute; reflexivity.
  - split; [apply (ta_whole _ _ _ H1 (in_memory e) 4); [lia|vm_compute; reflexivity]|].
    split; [vm_compute; reflexivity|].
    apply (ta_whole _ _ _ H2 (in_memory d) 4); [lia|vm_compute; reflexivity].
Defined.

(** On the 32-bit build the position arithmetic of the table reader
    wraps: a name length close to [2 ^ 32] passes the truncation test and the
    slice that follows panics, where a 64-bit build reports the truncation. *)
Theorem wrapped_length_panics :
  selfhosted_table 32 wrapping_table 0 = Panic PSlice /\
  selfhosted_table 64 wrapping_table 0 = Err (ETableTruncated 12).
Proof. exact wrapping_table_panics. Qed.

(** On the 32-bit build a count of 2^27 pairs of an atom and a value
    passes no check before the vector for them is allocated, and the
    allocation panics; on the 64-bit build the missing entries are reported. *)
Theorem unchecked_count_panics :
  let object := u32_bytes 1 ++ u32_bytes 640 ++ u32_bytes 0 ++ u32_bytes 1 ++ u32_bytes 0 ++ u32_bytes (2 ^ 27) in
  heap_table 32 object 0 = Panic PCapacity /\ heap_table 64 object 0 = Err (ETableTruncated 24).
Proof. split; vm_compute; reflexivity. Qed.

(** ** The walk *)

(** C11: walking the heap from any registration block read out of memory
    terminates, with fuel that does not depend on the image, in a graph that
    is well formed, in an error, or because the object ids ran out; never in an
    index out of range, an object of the wrong variant or a failed unwrap. In
    a well-formed graph every reference is an object of the graph or the
    absent marker, there is one root id per root, and the script addresses
    name scripts of the graph, one each. *)
Theorem walk_well_formed {M : Type} `{MemLaws M} (mem : M) (addr : Z) (steps fuel : nat) :
  in_u 32 addr -> mem_size mem <= 2 ^ 32 - 16 ->
  2 ^ 32 < Z.of_nat fuel -> 2 ^ 32 + 1 < Z.of_nat steps ->
  match registration_read 64 mem addr with
  | Ok reg =>
      match walk mem reg steps fuel with
      | Ok out => graph_ok reg out
      | Err _ | Panic PIdSpace => True
      | _ => False
      end
  | Err _ => True
  | _ => False
  end.
Proof.
  intros Ha Hm Hf Hs. destruct (registration_read_spec mem addr Ha) as [Hr Hreg].
  destruct (registration_read 64 mem addr) as [reg|e|p|]; try done.
  apply (walk_ok mem reg fuel Hm (registration_words mem addr reg (Hreg reg eq_refl)) Hf steps Hs).
Qed.

Lemma walk_well_formed_witness :
  let n := Z.to_nat (2 ^ 33) in
  match image_reg with
  | Some reg =>
      match walk image reg n n with
      | Ok out => graph_ok reg out
      | Err _ | Panic PIdSpace => True
      | _ => False
      end
  | None => False
  end.
Proof.
  intros n. assert (2 ^ 32 < Z.of_nat n) as Hn by (unfold n; lia).
  assert (2 ^ 32 + 1 < Z.of_nat n) as Hn' by (unfold n; lia).
  pose proof (walk_well_formed image 16 n n) as H. unfold image_reg.
  assert (exists reg, registration_read 64 image 16 = Ok reg) as [reg E].
  { destruct image_reg as [r|] eqn:E; [|vm_compute in E; discriminate E].
    exists r. unfold image_reg in E. destruct (registration_read 64 image 16); congruence. }
  rewrite E in *. apply H; try assumption; [unfold in_u; lia|].
  vm_compute. congruence.
Defined.

(** The same image, walked with a fuel that is enough for it: two objects. *)
Example image_walk :
  match image_reg with
  | Some reg =>
      match walk image reg 10 10 with
      | Ok out => wo_root_ids out = [0] /\ length (src_objects (wo_source out)) = 2%nat
      | _ => False
      end
  | None => False
  end.
Proof. vm_compute. split; reflexivity. Qed.

(** ** Aliased variables *)

(** The scope an aliased variable access names is the environment scope
    [hops] levels out in the chain of enclosing scopes of the scope in force,
    none when the chain is shorter; the scope in force is the one of a
    shortest scope note that covers the offset and names a scope, the body
    scope when there is none. *)
Theorem aliased_scope_spec (s : Source) (script : Script) (pc : Z) (hops fuel : nat)
    (id : SourceObjectId) (chain : list (SourceObjectId * bool)) :
  (match covering_scope script pc with Some c => Some c | None => sc_body_scope script end) = Some id ->
  scope_chain s id chain -> (length chain <= fuel)%nat ->
  aliased_scope_at fuel s script pc (Z.of_nat hops) = Ok (env_scopes chain !! hops) /\
  forall c, covering_scope script pc = Some c ->
    exists n, n ∈ sc_scope_notes script /\
      sn_start n <= pc < u32_add (sn_start n) (sn_length n) /\
      sc_gcthings script !! Z.to_nat (sn_gcthing_index n) = Some c /\ c <> SOURCE_OTHER /\
      forall m gc, m ∈ sc_scope_notes script -> sn_gcthing_index m <> 2 ^ 32 - 1 ->
        sn_start m <= pc < u32_add (sn_start m) (sn_length m) ->
        sc_gcthings script !! Z.to_nat (sn_gcthing_index m) = Some gc -> gc <> SOURCE_OTHER ->
        sn_length n <= sn_length m.
Proof.
  intros Hid Hc Hf. split; [|apply covering_scope_spec].
  unfold aliased_scope_at. rewrite Hid. by apply scope_walk_spec.
Qed.

(** Three nested scopes, the middle one without an environment. *)
Definition nested_scopes : Source :=
  let scope env enclosing := SScope (mkScopeData 0 env enclosing [] [] false None) in
  mkSource [scope true None; scope false (Some 0); scope true (Some 1)] None.

Definition noted_script : Script :=
  mkScript [] 0 [2; 0] [] [] [mkScopeNote 1 0 100; mkScopeNote 0 10 20] (Some 0) 0 false false false false.

Lemma aliased_scope_spec_witness : aliased_scope_at 5 nested_scopes noted_script 15 1 = Ok (Some 0).
Proof.
  destruct (aliased_scope_spec nested_scopes noted_script 15 1 5 2 [(2, true); (1, false); (0, true)])
    as [H _].
  - vm_compute. reflexivity.
  - apply (chain_next _ 2 (mkScopeData 0 true (Some 1) [] [] false None) 1); try reflexivity.
    apply (chain_next _ 1 (mkScopeData 0 false (Some 0) [] [] false None) 0); try reflexivity.
    apply (chain_last _ 0 (mkScopeData 0 true None [] [] false None)); reflexivity.
  - cbn. lia.
  - exact H.
Defined.

(** ** The bytecode visitor *)

(** C13: visiting the bytecode of a script that encodes a sequence of calls
    makes exactly those calls, in order, each announced at its offset with its
    opcode and the values it pops and pushes, and surfaces the try notes in
    start order, each at the first op boundary at or after its start; no
    operand width, order or sign is lost, whatever the opcode. *)
Theorem visit_encoding (T : OpTable) (byte_of : JSOp -> Z) {V : Type}
    (v_before_op : Z -> JSOp -> Z -> Z -> V -> V) (v_try_note : Z -> TryNote -> V -> V)
    (v_call : OpCall -> V -> V) (s : Script) (cs : list (Z * OpCall)) (v : V) :
  table_laws T byte_of ->
  sc_bytecode s = encode_all byte_of cs ->
  Forall (fun i => call_wf (sc_resume_offsets s) i.1 i.2) cs ->
  Forall (fun n => 0 <= tn_start n) (sc_try_notes s) ->
  Z.of_nat (length (sc_bytecode s)) < 2 ^ 32 ->
  Bytecode.visit T v_before_op v_try_note v_call (parser s) v =
  Ok (trace T v_before_op v_try_note v_call (sort_notes (sc_try_notes s)) (-1) 0 cs v).
Proof. intros HT. by apply visit_trace. Qed.

(** A log of what the visitor is told. *)
Inductive Event := EOp (pc : Z) (op : JSOp) (nuses : Z) | ENote (pc : Z) (start : Z) | ECall (c : OpCall).
Definition log_op (pc : Z) (op : JSOp) (nuses ndefs : Z) (l : list Event) : list Event := l ++ [EOp pc op nuses].
Definition log_note (pc : Z) (n : TryNote) (l : list Event) : list Event := l ++ [ENote pc (tn_start n)].
Definition log_call (c : OpCall) (l : list Event) : list Event := l ++ [ECall c].

Definition sample_calls : list (Z * OpCall) :=
  [(0, V_int32 70000); (0, V_goto_ (-5)); (0, V_call 3);
   (1, V_table_switch 20 0 1 [40; 50]); (0, V_pop)].
Definition sample_script : Script :=
  mkScript (encode_all op_index sample_calls) 0 [] [30; 40; 50]
    [mkTryNote TN_Loop 0 13 4; mkTryNote TN_Catch 0 6 1; mkTryNote TN_Finally 1 10 9]
    [] None 0 false false false false.

Lemma visit_encoding_witness :
  Bytecode.visit dispatch_table log_op log_note log_call (parser sample_script) [] =
  Ok [EOp 0 J_Int32 1; ECall (V_int32 70000); EOp 5 J_Goto 1; ECall (V_goto_ (-5));
      ENote 10 6; ENote 10 10; EOp 10 J_Call 5; ECall (V_call 3); ENote 13 13;
      EOp 13 J_TableSwitch 1; ECall (V_table_switch 20 0 1 [40; 50]); EOp 29 J_Pop 1; ECall V_pop].
Proof.
  rewrite (visit_encoding dispatch_table op_index log_op log_note log_call sample_script sample_calls []).
  - vm_compute. reflexivity.
  - exact dispatch_table_laws.
  - reflexivity.
  - concrete_wf; reflexivity.
  - concrete_wf.
  - vm_compute. reflexivity.
Defined.



(** A visit of arbitrary bytes terminates: the fuel of the byte count is
    never exhausted, whatever the table says. *)
Theorem visit_terminates (T : OpTable) {V : Type}
    (v_before_op : Z -> JSOp -> Z -> Z -> V -> V) (v_try_note : Z -> TryNote -> V -> V)
    (v_call : OpCall -> V -> V) (s : Script) (v : V) :
  Bytecode.visit T v_before_op v_try_note v_call (parser s) v <> OutOfFuel.
Proof. apply visit_fuel. Qed.
