(* ===== verification/LoweringProperties.v ===== *)
(** * LoweringProperties: the analyses the lowering runs on bytecode

    The properties of the liveness table and of the control-flow graph. *)

From S2P Require Import Prelude Mem Source Bytecode BytecodeSound Live LiveFlow LiveSound.
From S2P Require Import Cfg DomSound DomTreeSound DomExact LoopSound.

(** C4: the liveness table of every script whose bytecode encodes a sequence
    of calls is built (the dataflow loop ends within its fuel and no index is
    out of range), and its queries are exact at every op boundary: a local, a
    formal or a global binding the script reads is reported live exactly when
    some path of control edges, landing pads of the catch and finally notes
    included, reaches a call that reads it without passing one that writes it. *)
Theorem liveness_exact (T : OpTable) (byte_of : JSOp -> Z) (bid_of : Z -> option Z) (s : Script)
    (cs : list (Z * OpCall)) :
  table_laws T byte_of -> live_script byte_of s cs ->
  exists L, build T s bid_of = Ok L /\
    forall i pc slot, call_pcs 0 cs !! i = Some pc ->
      slot_in (locals_of cs) (sc_nargs s) (bindings_of bid_of cs) slot ->
      slot_query L pc slot = true <-> slot_live bid_of (sc_try_notes s) cs slot i.
Proof. intros HT Hs. exact (build_live T byte_of HT bid_of s cs Hs). Qed.

(** A loop: read local 0, write it, go back. *)
Definition loop_calls : list (Z * OpCall) :=
  [(0, V_get_local 0); (0, V_set_local 0); (0, V_pop); (0, V_goto_ (-9))].
Definition loop_script : Script :=
  mkScript (encode_all op_index loop_calls) 0 [] [] [] [] None 1 false false false false.

Lemma loop_script_ok : live_script op_index loop_script loop_calls.
Proof.
  split.
  - reflexivity.
  - repeat (apply list.Forall_cons; split); try exact (list.Forall_nil_2 _);
      cbn [call_wf fst snd]; unfold in_u, in_s; try exact I; lia.
  - exact (list.Forall_nil_2 _).
  - vm_compute. reflexivity.
  - unfold in_u. cbn [sc_nargs loop_script]. lia.
  - repeat (apply list.Forall_cons; split); try exact (list.Forall_nil_2 _); exact I.
Qed.

Lemma liveness_exact_witness :
  slot_live (fun _ => None) [] loop_calls (Local 0) 2 /\
  ~ slot_live (fun _ => None) [] loop_calls (Local 0) 1.
Proof.
  destruct (liveness_exact dispatch_table op_index (fun _ => None) loop_script loop_calls
    dispatch_table_laws loop_script_ok) as (L & E & H).
  vm_compute in E. injection E as <-.
  split.
  - apply (H 2%nat 8 (Local 0)); [reflexivity|vm_compute; split; congruence|vm_compute; reflexivity].
  - intros H1. apply (H 1%nat 4 (Local 0)) in H1; [|reflexivity|vm_compute; split; congruence].
    vm_compute in H1. discriminate H1.
Defined.

(** ** The control-flow graph *)

(** C3: whenever the blocks of a body can be cut, the control-flow graph is
    built - the iteration of Cooper, Harvey and Kennedy ends within its fuel
    and no block index is out of range - and its dominator tree is the
    dominance relation of the graph: the blocks with an immediate dominator
    are those some path from the entry reaches; the immediate dominator of a
    block is its strict dominator that every other one dominates; and the
    query [block_dominates] holds between reachable blocks exactly when every
    path to the second passes the first. *)
Theorem cfg_dominators (T : OpTable) (root : Script) (segs : list InlineSeg)
    (blocks : list CfgBlock) (span : list (Z * Z * nat)) :
  graph T root segs = Ok (blocks, span) -> Z.of_nat (length blocks) < 2 ^ 32 ->
  exists c, cfg_build T root segs = Ok c /\ cfg_blocks c = blocks /\
    let succs := cb_succs <$> blocks in
    (forall b, (exists d, cfg_idom c !! b = Some (Some d)) <-> reach succs b) /\
    (forall b d, b <> 0%nat -> cfg_idom c !! b = Some (Some d) ->
       reach succs d /\ d <> b /\ dom succs d b /\
       forall a, reach succs a -> dom succs a b -> a <> b -> dom succs a d) /\
    (forall a b, reach succs a -> reach succs b ->
       exists r, block_dominates (S (length succs)) (cfg_idom c) (cfg_dom_depth c) a b = Ok r /\
         (r = true <-> dom succs a b)).
Proof.
  intros H Hsz. destruct (cfg_build_spec T root segs blocks span H Hsz) as (c & E & Eb & _ & D & _).
  exists c. split; [done|]. split; [done|]. split; [apply (dt_reach _ _ _ D)|].
  split; [apply (dt_idom _ _ _ D)|apply (dt_query _ _ _ D)].
Qed.

(** A loop with a test at its head: blocks 0 (the test), 1 (the body) and 2
    (the return). *)
Definition while_calls : list (Z * OpCall) :=
  [(0, V_get_local 0); (0, V_jump_if_false 15); (0, V_set_local 0); (0, V_pop); (0, V_goto_ (-14)); (0, V_ret_rval)].
Definition while_script : Script :=
  mkScript (encode_all op_index while_calls) 0 [] [] [] [] None 1 false false false false.
Definition while_graph : list CfgBlock * list (Z * Z * nat) :=
  ([mkCfgBlock 0 9 [1; 2]%nat [1]%nat; mkCfgBlock 9 19 [0]%nat [0]%nat; mkCfgBlock 19 20 [] [0]%nat],
   [(0, 9, 0%nat); (9, 19, 1%nat); (19, 20, 2%nat)]).

Lemma while_graph_ok : graph dispatch_table while_script [] = Ok while_graph.
Proof. vm_compute. reflexivity. Qed.

Lemma cfg_dominators_witness :
  ~ dom (cb_succs <$> fst while_graph) 1 2 /\ dom (cb_succs <$> fst while_graph) 0 2.
Proof.
  assert (reach (cb_succs <$> fst while_graph) 0) as R0 by constructor.
  assert (reach (cb_succs <$> fst while_graph) 1) as R1.
  { apply reach_step with 0%nat; [exact R0|]. exists [1; 2]%nat. split; [reflexivity|]. left. }
  assert (reach (cb_succs <$> fst while_graph) 2) as R2.
  { apply reach_step with 0%nat; [exact R0|]. exists [1; 2]%nat. split; [reflexivity|]. right. left. }
  destruct (cfg_dominators dispatch_table while_script [] (fst while_graph) (snd while_graph)
    while_graph_ok ltac:(vm_compute; reflexivity)) as (c & E & _ & _ & _ & Q).
  vm_compute in E. injection E as <-. split.
  - destruct (Q 1%nat 2%nat R1 R2) as (r & Er & Hr). vm_compute in Er. injection Er as <-.
    intros Hd. apply Hr in Hd. discriminate Hd.
  - destruct (Q 0%nat 2%nat R0 R2) as (r & Er & Hr). vm_compute in Er. injection Er as <-.
    apply Hr. reflexivity.
Defined.

(** C15: the loop nest of the graph is exact: [loop_members] pairs a header
    with the blocks of its natural loops, the ones that reach the source of a
    reachable edge to a dominator without passing that header; the headers
    are the blocks with such a loop; a block's depth is the number of headers
    whose loop holds it (at sixteen bits); its header is absent exactly when
    no loop holds it and otherwise one of greatest depth among them; and the
    header of a loop dominates every reachable block of the loop. *)
Theorem cfg_loop_nest (T : OpTable) (root : Script) (segs : list InlineSeg)
    (blocks : list CfgBlock) (span : list (Z * Z * nat)) :
  graph T root segs = Ok (blocks, span) -> Z.of_nat (length blocks) < 2 ^ 32 ->
  exists c, cfg_build T root segs = Ok c /\
    let succs := cb_succs <$> blocks in
    let nest := cfg_loops c in
    (forall h b, (h, b) ∈ ln_members nest <-> in_loop succs h b) /\
    (forall h, h ∈ ln_headers nest <-> in_loop succs h h) /\ NoDup (ln_headers nest) /\
    (forall b, (b < length blocks)%nat -> ln_depth nest !! b =
       Some (wrap_u 16 (Z.of_nat (length (filter (fun h => (h, b) ∈ ln_members nest) (ln_headers nest)))))) /\
    (forall b, (b < length blocks)%nat -> exists o, ln_hdr nest !! b = Some o /\
       match o with
       | None => forall h, ~ in_loop succs h b
       | Some h => in_loop succs h b /\
           forall h', in_loop succs h' b -> default 0 (ln_depth nest !! h') <= default 0 (ln_depth nest !! h)
       end) /\
    (forall h b, in_loop succs h b -> reach succs b -> dom succs h b).
Proof.
  intros H Hsz. destruct (cfg_build_spec T root segs blocks span H Hsz) as (c & E & _ & _ & _ & N).
  exists c. split; [done|]. cbn zeta. pose proof (no_depth _ _ N) as Hd. pose proof (no_hdr _ _ N) as Hh.
  rewrite length_fmap in Hd, Hh. split_and!; [apply N|apply N|apply N|exact Hd|exact Hh|].
  intros h b. apply in_loop_dom.
Qed.

Lemma cfg_loop_nest_witness :
  in_loop (cb_succs <$> fst while_graph) 0 1 /\ ~ in_loop (cb_succs <$> fst while_graph) 0 2.
Proof.
  destruct (cfg_loop_nest dispatch_table while_script [] (fst while_graph) (snd while_graph)
    while_graph_ok ltac:(vm_compute; reflexivity)) as (c & E & M & _).
  vm_compute in E. injection E as <-. split.
  - apply M. cbn [cfg_loops ln_members]. right. left.
  - intros H. apply M in H. cbn [cfg_loops ln_members] in H.
    repeat (apply elem_of_cons in H as [H|H]; [discriminate H|]). by apply elem_of_nil in H.
Defined.

(** The query [leaves_loop] on a built graph answers without an index
    out of range, and holds exactly when the block of the source is in a loop
    and the destination is outside the loop of the header the source's block
    names. *)
Theorem leaves_loop_exact (T : OpTable) (root : Script) (segs : list InlineSeg) (c : Cfg) (src dst : Z) :
  cfg_build T root segs = Ok c -> Z.of_nat (length (cfg_blocks c)) < 2 ^ 32 ->
  exists r, leaves_loop c src dst = Ok r /\
    (r = true <-> exists bs h, block_of (cfg_span c) src = Some bs /\
       ln_hdr (cfg_loops c) !! bs = Some (Some h) /\ in_loop (cb_succs <$> cfg_blocks c) h bs /\
       forall bd, block_of (cfg_span c) dst = Some bd -> ~ in_loop (cb_succs <$> cfg_blocks c) h bd).
Proof.
  intros E Hsz. pose proof (cfg_build_graph T root segs c E) as Hg.
  destruct (cfg_build_spec T root segs _ _ Hg Hsz) as (c' & E' & _ & _ & _ & N).
  assert (c' = c) as -> by congruence. unfold leaves_loop.
  destruct (block_of (cfg_span c) src) as [bs|] eqn:Es.
  2: { exists false. split; [done|]. split; [done|]. by intros (? & ? & ? & _). }
  pose proof (block_of_lt T root segs _ _ src bs Hg Es) as Hlt.
  destruct (no_hdr _ _ N bs) as (o & Eo & Ho); [by rewrite length_fmap|].
  rewrite (nth_res_Ok _ _ _ Eo). cbn [mbind res_bind]. destruct o as [h|].
  2: { exists false. split; [done|]. split; [done|]. intros (bs' & h & [= <-] & Eh & _). congruence. }
  destruct (block_of (cfg_span c) dst) as [bd|]; eexists; (split; [done|]).
  - rewrite negb_true_iff, bool_decide_eq_false, (no_members _ _ N). split.
    + intros Hn. exists bs, h. split_and!; [done|done|apply Ho|]. by intros ? [= <-].
    + intros (bs' & h' & [= <-] & Eh & _ & Hn). assert (h' = h) as -> by congruence. by apply Hn.
  - split; [intros _|done]. exists bs, h. split_and!; [done|done|apply Ho|done].
Qed.

Lemma leaves_loop_exact_witness :
  exists c, cfg_build dispatch_table while_script [] = Ok c /\
    leaves_loop c 4 19 = Ok true /\ leaves_loop c 14 0 = Ok false /\
    exists bs h, block_of (cfg_span c) 4 = Some bs /\ in_loop (cb_succs <$> cfg_blocks c) h bs.
Proof.
  destruct (cfg_build dispatch_table while_script []) as [c| | |] eqn:E; try (vm_compute in E; discriminate E).
  exists c. split; [reflexivity|]. pose proof E as E0. vm_compute in E0. injection E0 as E0.
  assert (Z.of_nat (length (cfg_blocks c)) < 2 ^ 32) as Hsz by (rewrite <- E0; vm_compute; reflexivity).
  destruct (leaves_loop_exact dispatch_table while_script [] c 4 19 E Hsz) as (r & Er & Hr).
  assert (r = true) as -> by (rewrite <- E0 in Er; vm_compute in Er; congruence).
  split; [exact Er|]. split; [rewrite <- E0; vm_compute; reflexivity|].
  destruct (proj1 Hr eq_refl) as (bs & h & H1 & _ & H2 & _). exists bs, h. split; [exact H1|exact H2].
Defined.
