(* ===== verification/ContextProperties.v ===== *)
(** * ContextProperties: small contexts for the concrete instances

    A slot that holds an int32 in [0, 7], the contexts with one known local,
    and a heap with nothing in it. *)

From Corelib Require Import SpecFloat.
From S2P Require Import Prelude OpSem Facts Float64 Types FnSets TypeLattice IntervalSound Ctx Operand Predict SlotSound SlotMeaning OperandSound.
From S2P Require Import CtxSound CtxHeight PredictSound.
#[local] Open Scope Z_scope.

(** A heap of empty strings, for the concrete instances. *)
Definition heap0 : JSHeap :=
  mkJSHeap (fun _ => []) (fun _ => 0) (fun _ => None) (fun _ => false) (fun _ => false) (fun _ => None).

(** A slot that holds an int32 in [0, 7], and its values. *)
Definition small_slot : SlotCtx :=
  mkSlotCtx PRIM_INT32 false RB_I32 None false false None None None (Some (mkVR 0 7)) 0 0.

Lemma small_slot_wf : slot_wf small_slot.
Proof. split; cbn; try done; unfold p_wf, in_u; cbn; lia. Qed.

Lemma INT32_SLOT_wf : slot_wf INT32_SLOT.
Proof. split; cbn; try done; unfold p_wf, in_u; cbn; lia. Qed.

Lemma small_slot_holds (z : Z) : 0 <= z <= 7 -> slot_holds heap0 small_slot (J_Int32 z).
Proof.
  intros Hz. split; cbn; try done; try (by exists z).
  exists z. split; [done|]. unfold I32_LO, I32_HI. lia.
Qed.

(** Two arrivals at one point: an int32 in [0, 7], then any int32. *)
Definition small_ctx : Ctx := mkCtx [small_slot] [] [] [] [] [] [] [] [] T_Opt.
Definition int32_ctx : Ctx := mkCtx [INT32_SLOT] [] [] [] [] [] [] [] [] T_Opt.

Lemma one_slot_ok (s : SlotCtx) :
  slot_wf s -> op_ok (fun _ => None) (PO_Arrive 7 0 (mkCtx [s] [] [] [] [] [] [] [] [] T_Opt)).
Proof.
  intros Hs. split; [split|]; cbn.
  - intros k i. destruct k; try apply TOP_wf. destruct i; [done|apply TOP_wf].
  - split; [constructor| |]; intros b w Hin; by apply elem_of_nil in Hin.
  - intros b w Hin. by apply elem_of_nil in Hin.
Qed.

(** * the theorems about the versioning driver's facts

    Slots, operands, contexts and predictions. *)

(** C24: the facts of a slot as a set of values. Implication is sound for
    inclusion and reads off the join: a side implies the other exactly when
    joining adds nothing to it, the interval aside. The join admits every
    value of either side and is implied by both; up to the interval it is the
    least such claim, and the interval is the hull until the stored side has
    widened its allowance. The meet is the intersection of compatible sides: a
    value is in it exactly when it is in both. Sides that contradict each other
    in a class, an interval or a typed-array kind have no value in common, and
    there the meet keeps the right side's class and interval and the left
    side's kind; without a meet the sides have no value in common either. *)
Theorem slot_facts_sound (H : JSHeap) (s w : SlotCtx) (v : JSVal) :
  slot_wf s -> slot_wf w -> iv_small (sc_iv s) -> iv_small (sc_iv w) ->
  (slot_implies s w = true -> slot_holds H s v -> slot_holds H w v) /\
  (slot_implies_sans_iv s w = true <-> slot_implies_sans_iv (slot_join s w) w = true) /\
  (slot_implies s (slot_join s w) = true /\ slot_implies w (slot_join s w) = true /\
   (forall u, slot_implies_sans_iv s u = true -> slot_implies_sans_iv w u = true ->
     slot_implies_sans_iv (slot_join s w) u = true) /\
   (forall a b, sc_iv s = Some a -> sc_iv w = Some b -> sc_iv_grow w < IV_WIDEN_JOINS ->
     sc_iv (slot_join s w) = Some (hull a b)) /\
   (slot_holds H s v \/ slot_holds H w v -> slot_holds H (slot_join s w) v)) /\
  match slot_meet s w with
  | None => ~ (slot_holds H s v /\ slot_holds H w v)
  | Some m =>
      if slot_meets s w then slot_holds H m v <-> slot_holds H s v /\ slot_holds H w v
      else ~ (slot_holds H s v /\ slot_holds H w v) /\
           (cls_meets (sc_cls s) (sc_cls w) = false -> sc_cls m = sc_cls w) /\
           (iv_meets (sc_iv s) (sc_iv w) = false -> sc_iv m = sc_iv w) /\
           (ta_meets (sc_ta s) (sc_ta w) = false -> sc_ta m = sc_ta s)
  end.
Proof.
  intros Hs Hw Ss Sw. destruct (slot_join_ub s w Hs Hw) as [U1 U2]. split_and!.
  - by apply slot_implies_sound.
  - split; intros E.
    + apply slot_join_least; [done|done|done|by apply slot_implies_sans_iv_refl].
    + apply slot_implies_spec in U1 as [U1 _]. exact (slot_implies_sans_iv_trans _ _ _ Hs (slot_join_wf _ _ Hs Hw) U1 E).
  - exact U1.
  - exact U2.
  - intros u. by apply slot_join_least.
  - intros a b. apply slot_join_hull.
  - by apply slot_join_sound.
  - pose proof (slot_meet_sound H s w v Ss Sw) as Hm. destruct (slot_meet s w) as [m|] eqn:Em.
    + destruct (slot_meets s w) eqn:Ec.
      * split; [by apply slot_meet_exact|]. intros [V1 V2]. by destruct (Hm V1 V2) as (m' & [= <-] & ?).
      * split; [|by apply slot_meet_contradiction]. intros [V1 V2].
        by rewrite (slot_meets_common H s w v Ss Sw V1 V2) in Ec.
    + intros [V1 V2]. by destruct (Hm V1 V2) as (m & [=] & _).
Qed.

Lemma slot_facts_sound_witness :
  slot_implies small_slot INT32_SLOT = true /\ slot_holds heap0 INT32_SLOT (J_Int32 3) /\
  slot_meet INT32_SLOT small_slot = Some small_slot /\ slot_meets INT32_SLOT small_slot = true /\
  (slot_holds heap0 small_slot (J_Int32 9) <->
    slot_holds heap0 INT32_SLOT (J_Int32 9) /\ slot_holds heap0 small_slot (J_Int32 9)).
Proof.
  assert (iv_small (sc_iv small_slot)) as S1 by (cbn; unfold LIM; lia).
  assert (iv_small (sc_iv INT32_SLOT)) as S2 by (cbn; unfold LIM, I32_LO, I32_HI; lia).
  split_and!; [reflexivity| |reflexivity|reflexivity|].
  - refine (proj1 (slot_facts_sound heap0 small_slot INT32_SLOT (J_Int32 3) small_slot_wf INT32_SLOT_wf S1 S2) _ _).
    + reflexivity.
    + apply small_slot_holds. lia.
  - exact (proj2 (proj2 (proj2
      (slot_facts_sound heap0 INT32_SLOT small_slot (J_Int32 9) INT32_SLOT_wf small_slot_wf S2 S1)))).
Defined.

(** Where the lowering admits it, one comparison of the boxed words is
    strict equality. *)
Theorem strict_bits_exact (H : JSHeap) (a b : TypeDesc) (v w : JSVal) :
  p_wf (td_prims a) -> p_wf (td_prims b) -> strict_bits_eq_sound a b = true ->
  ty_holds a v -> ty_holds b w -> val_wf v -> val_wf w -> bits_eq v w = strict_eq H v w.
Proof. apply strict_bits. Qed.

Lemma strict_bits_exact_witness :
  strict_bits_eq_sound (mkTypeDesc (p_or PRIM_UNDEFINED PRIM_NULL) false) bottom_ty = true /\
  bits_eq J_Undefined (J_Double (of_Z 5)) = strict_eq heap0 J_Undefined (J_Double (of_Z 5)).
Proof.
  split; [reflexivity|].
  apply (strict_bits_exact heap0 (mkTypeDesc (p_or PRIM_UNDEFINED PRIM_NULL) false) bottom_ty
    J_Undefined (J_Double (of_Z 5))); try reflexivity; try exact I; vm_compute; split; congruence.
Defined.

(** C26: the value an operand stands for satisfies the slot the operand is
    recorded in, stays admitted when the operand is refined by its
    representation, and an operand read from a frame slot or rebuilt from a
    block parameter admits the values of the slot, in the representation the
    slot's facts license; the admission predicates of integer arithmetic and of numeric
    stores hold only of the numbers they promise. *)
Theorem operand_facts_sound (H : JSHeap) (o : Operand Z) (v : JSVal) (s : SlotCtx) (src : SlotRef) :
  (op_holds H o v ->
    slot_holds H (op_slot o) v /\ op_holds H (refine_by_repr o) v /\
    (i64_arith_operand_ok o || int32_wrap_operand_ok o = true ->
      exists z, number_of v = Some (of_Z z) /\ - 2 ^ 53 <= z <= 2 ^ 53) /\
    (store_value_numeric o = true -> is_Some (number_of v))) /\
  (slot_wf s -> val_wf v -> slot_holds H s v ->
    op_holds H (from_slot 0 s src) v /\ op_holds H (entry_operand 0 s) v /\ repr_holds (slot_repr s) v).
Proof.
  split; [|intros Hs Hv Hh; split_and!;
    [by apply from_slot_holds|by apply entry_operand_holds|by apply (slot_repr_holds H)]]. intros Ho. split_and!.
  - by apply (op_slot_holds H).
  - by apply (refine_by_repr_holds H).
  - intros [Hk|Hk]%orb_true_iff; [by apply (i64_operand_value H o)|by apply (wrap_operand_value H o)].
  - by apply (numeric_operand_value H).
Qed.

(** An [i32] operand with an interval of its own. *)
Definition small_operand : Operand Z :=
  with_iv (plain 0 Rp_I32 (prim_desc PRIM_INT32)) (Some (0, 7, false)).

Lemma small_operand_holds (z : Z) : 0 <= z <= 7 -> op_holds heap0 small_operand (J_Int32 z).
Proof.
  intros Hz. assert (I32_LO <= z <= I32_HI) by (unfold I32_LO, I32_HI; lia).
  split; cbn; try done; try (by exists z).
  exists (of_Z z). split; [done|]. left. by exists z.
Qed.

Lemma operand_facts_sound_witness :
  sc_iv (op_slot small_operand) = Some (mkVR 0 7) /\ slot_holds heap0 (op_slot small_operand) (J_Int32 3).
Proof.
  split; [reflexivity|].
  refine (proj1 (proj1 (operand_facts_sound heap0 small_operand (J_Int32 3) small_slot (SR_Local 0)) _)).
  apply small_operand_holds. lia.
Defined.

(** C16: the consultation contract. From the empty table, after any sequence
    of table operations (arrivals, back-edge joins, [set]s, carried sets,
    provenance, widenings), the facts of every arrival ever delivered and of
    every context ever set at a program point imply its prediction, and so
    does every value those facts admit in any slot, as long as each later
    [set] at that point widens the prediction it replaces, as the funnel's
    on-ramp means to; and a [set] that comes last is the prediction, whatever
    was there. *)
Theorem prediction_contract (H : JSHeap) (bind_iv : Z -> option ValueRange)
    (pre post : list PredOp) (pc : Z) (o : PredOp) (a : Ctx) :
  Forall (op_ok bind_iv) (pre ++ o :: post) -> delivers pc a o ->
  (sets_widen pc (pred_run predictions_default (pre ++ [o])) post ->
   exists c, pred_at (pred_run predictions_default (pre ++ o :: post)) pc = Some c /\
     ctx_implies (facts_only a) c = true /\
     forall k i v, slot_holds H (fact a k i) v -> slot_holds H (fact c k i) v) /\
  (forall f, pred_at (pred_run predictions_default (pre ++ o :: post ++ [PO_Set pc f])) pc = Some (facts_only f)).
Proof.
  intros Hops Ho. split.
  - intros Hs.
    destruct (pred_run_covers bind_iv pre post _ pc o a (preds_ok_default bind_iv) Hops Ho Hs) as (c & E & L).
    exists c. split_and!; [done|done|]. intros k i v.
    apply list.Forall_app in Hops as [_ [Hok _]%list.Forall_cons].
    assert (ctx_wf a) as [W _] by (destruct Ho as [(d & ->)| ->]; apply Hok).
    apply ctx_le_spec in L as (_ & _ & L & _); [|reflexivity].
    apply slot_implies_sound; [apply W|]. apply (L k i).
  - intros f. unfold pred_run. rewrite app_comm_cons, app_assoc, foldl_app. apply lookup_insert_eq.
Qed.

Lemma two_arrivals_ok : Forall (op_ok (fun _ => None)) [PO_Arrive 7 0 small_ctx; PO_Arrive 7 0 int32_ctx].
Proof.
  constructor; [apply one_slot_ok, small_slot_wf|]. constructor; [apply one_slot_ok, INT32_SLOT_wf|constructor].
Qed.

Lemma prediction_contract_witness :
  exists c, pred_at (pred_run predictions_default [PO_Arrive 7 0 small_ctx; PO_Set 7 int32_ctx]) 7 = Some c /\
    slot_holds heap0 (fact c V_Locals 0) (J_Int32 3).
Proof.
  destruct (proj1 (prediction_contract heap0 (fun _ => None) [] [PO_Set 7 int32_ctx] 7 (PO_Arrive 7 0 small_ctx)
    small_ctx ltac:(constructor; [apply one_slot_ok, small_slot_wf|constructor;
      [exact (one_slot_ok INT32_SLOT INT32_SLOT_wf)|constructor]])
    ltac:(left; exists 0; reflexivity))) as (c & E & _ & Hv).
  - split; [|exact I]. intros _ c Hc. vm_compute in Hc. injection Hc as <-. vm_compute. reflexivity.
  - exists c. split; [exact E|]. apply Hv. apply small_slot_holds. lia.
Defined.

(** C22: the prediction settles. However many arrivals a program point takes,
    the ones that report a move are bounded by the slots an arrival tracks, and
    by as many again for each time the prediction is overwritten by a [set]. *)
Theorem prediction_settles (bind_iv : Z -> option ValueRange) (ops : list PredOp) (pc : Z) (n : nat) :
  Forall (op_ok bind_iv) ops ->
  (forall o a, o ∈ ops -> delivers pc a o -> (ctx_slots (facts_only a) <= n)%nat) ->
  (moves pc predictions_default ops
     <= 1 + n * S SLOT_HEIGHT * S (length (List.filter (sets_at pc) ops)))%nat.
Proof.
  intros Hops Hn. etrans; [apply (moves_room bind_iv ops _ pc (n * S SLOT_HEIGHT))|].
  - apply preds_ok_default.
  - done.
  - assert (forall o a, o ∈ ops -> delivers pc a o -> (ctx_height (facts_only a) <= n * S SLOT_HEIGHT)%nat) as Hh.
    { intros o a Hin Hd. assert (ctx_wf (facts_only a)) as W.
      { apply (facts_only_ok bind_iv). pose proof (proj1 (list.Forall_forall _ _) Hops _ Hin) as Hok.
        destruct Hd as [(d & ->)| ->]; exact Hok. }
      eapply Nat.le_trans; [exact (ctx_height_max _ W)|]. apply Nat.mul_le_mono_r. exact (Hn _ _ Hin Hd). }
    apply list.Forall_forall. intros o Hin. destruct o; cbn; try done; intros <-; apply (Hh _ _ Hin);
      [left; by eexists|by right].
  - change (room (n * S SLOT_HEIGHT) predictions_default pc) with (S (n * S SLOT_HEIGHT)). lia.
Qed.

Lemma prediction_settles_witness :
  moves 7 predictions_default [PO_Arrive 7 0 small_ctx; PO_Arrive 7 0 int32_ctx] = 2%nat /\
  (moves 7 predictions_default [PO_Arrive 7 0 small_ctx; PO_Arrive 7 0 int32_ctx] <= 1 + 1 * S SLOT_HEIGHT * 1)%nat.
Proof.
  split; [vm_compute; reflexivity|].
  apply (prediction_settles (fun _ => None)).
  - apply two_arrivals_ok.
  - intros o a Hin Hd. repeat (apply elem_of_cons in Hin as [Hin|Hin];
      [subst o; destruct Hd as [(d & [= <- <-])|[=]]; cbn; lia|]).
    by apply elem_of_nil in Hin.
Defined.

(** A context tracking one caller slot above the current frame and nothing
    else. *)
Definition outer_only : Ctx :=
  mkCtx [] [] [] [] [] [mkCallerFrame [OBJ_ONLY_SLOT] []] [] [] [] T_Opt.

(** The re-arm signal misses outer frames: an arrival at a disagreeing
    depth wipes a prediction that tracks only outer frames and reports that
    nothing moved. *)
Theorem depth_clash_wipes_silently :
  let '(p, first) := join_arrival predictions_default 7 0 outer_only in
  let '(p', moved) := join_arrival p 7 1 outer_only in
  first = true /\ pred_at p 7 = Some outer_only /\ pred_at p' 7 = Some ctx_default /\
  ctx_eqb outer_only ctx_default = false /\ moved = false.
Proof. vm_compute. repeat split. Qed.

(** An arrival whose stack holds the value of local [l], nothing known. *)
Definition from_local (l : Z) : Ctx :=
  mkCtx [] [mkSlotCtx ALL_PRIMS true RB_Top None false false None None (Some (SR_Local l)) None 0 0]
    [] [] [] [] [] [] [] T_Opt.

(** A guard that proves class 5, and a heap where only object 1 has it. *)
Definition class5_fact : SlotCtx :=
  mkSlotCtx EMPTY true RB_Top (Some (5, 5)) true true None None None None 0 0.
Definition heap5 : JSHeap :=
  mkJSHeap (fun _ => []) (fun _ => 0) (fun p => Some (if p =? 1 then 5 else 9)) (fun p => p =? 1) (fun p => p =? 1)
    (fun _ => None).

(** C25: a stack slot's source survives an arrival that disagrees with it.
    One path pushes local 0, another local 1, both with nothing known; the
    second arrival implies the first's prediction, which keeps naming local 0
    as the source. On the second path, where the stacked object is local 1's
    and local 0 holds another object, a class guard that passes on the stacked
    object then claims the class of local 0, which does not have it. *)
Theorem stale_source_refines_wrong_slot :
  let p := fst (pred_step predictions_default (PO_Arrive 7 1 (from_local 0))) in
  let '(p', moved) := pred_step p (PO_Arrive 7 1 (from_local 1)) in
  moved = false /\
  exists c, pred_at p' 7 = Some c /\
    slot_holds heap5 (fact c V_Stack 0) (J_Object 1) /\ slot_holds heap5 (fact c V_Locals 0) (J_Object 0) /\
    slot_holds heap5 class5_fact (J_Object 1) /\
    let o := entry_operand 0 (slot_at (c_stack c) 0) in
    let f := refine_src false o class5_fact (enter_frame 2 0 c) in
    op_src o = Some (SR_Local 0) /\ sc_src (fact (from_local 1) V_Stack 0) = Some (SR_Local 1) /\
    ~ slot_holds heap5 (slot_at (ff_locals f) 0) (J_Object 0).
Proof.
  cbv zeta. destruct (pred_step _ (PO_Arrive 7 1 (from_local 1))) as [p' moved] eqn:E.
  vm_compute in E. injection E as <- <-. split; [reflexivity|]. eexists. split; [reflexivity|].
  split_and!; try reflexivity; try (by split).
  - split; cbn; try done; try (by intros _ q [= <-]). by exists 1, 5.
  - intros [_ _ Hc _ _ _ _]. destruct Hc as (q & k & [= <-] & [= <-] & Hk). lia.
Qed.
