(* ===== verification/ToolProperties.v ===== *)
(** * ToolProperties: the memory image and the section walk of the tool

    The round trip of the memory image through its data segments, what
    stripping keeps of a module, and where the section walk does not end. *)

From S2P Require Import Prelude Mem Registration Image Strip.
Local Open Scope Z_scope.

(** C34: writing an image of whole pages back as data segments and building it
    again gives the image, zero-extended when the memory was larger. Finding
    the segments ends without a panic, there are at most the engine's cap of
    them, and the limits cover the image and stay ordered. *)
Theorem image_roundtrip (page k : nat) (bytes : list Z) (mem : MemoryData) (rest : list MemoryData) :
  (0 < page)%nat -> length bytes = (k * page)%nat ->
  exists mem', update page mem bytes = Some mem' /\
    build_image page (mem' :: rest) = inr (bytes ++ replicate ((md_initial_pages mem' - k) * page) 0) /\
    (length (md_segments mem') <= MAX_DATA_SEGMENTS)%nat /\
    (k <= md_initial_pages mem')%nat /\
    (forall m, md_maximum_pages mem' = Some m -> (md_initial_pages mem' <= m)%nat).
Proof. apply build_update. Qed.

(** Two pages of sixteen bytes, two runs on the first with a gap worth
    keeping, one on the second. *)
Definition two_pages : list Z :=
  [0; 7; 8; 0; 0; 0; 0; 0; 0; 9; 0; 0; 0; 0; 0; 0] ++ [0; 0; 0; 0; 0; 1; 0; 2; 0; 0; 0; 0; 0; 0; 0; 0].

Lemma image_roundtrip_witness :
  update 16 (mkMemoryData 1 (Some 1%nat) []) two_pages = Some (mkMemoryData 2 (Some 2%nat)
    [mkMemorySegment 1 [7; 8]; mkMemorySegment 9 [9]; mkMemorySegment 21 [1; 0; 2]]) /\
  exists mem', update 16 (mkMemoryData 1 (Some 1%nat) []) two_pages = Some mem' /\
    build_image 16 [mem'] = inr (two_pages ++ replicate ((md_initial_pages mem' - 2) * 16) 0) /\
    (length (md_segments mem') <= MAX_DATA_SEGMENTS)%nat /\
    (2 <= md_initial_pages mem')%nat /\
    (forall m, md_maximum_pages mem' = Some m -> (md_initial_pages mem' <= m)%nat).
Proof.
  split; [vm_compute; reflexivity|]. apply (image_roundtrip 16 2); [lia|reflexivity].
Defined.

(** Stripping a module of at most [2^63] bytes keeps its header and, in
    order and unchanged, every section but the custom ones named [name] or
    [.debug...]; the walk ends without an error. *)
Theorem strip_keeps_sections (header : list Z) (l : list Section_) :
  length header = 8%nat -> take 4 header = MAGIC -> Forall section_ok l ->
  len (header ++ encode_sections l) < 2 ^ 63 ->
  exists fuel, forall fuel', (fuel <= fuel')%nat ->
    strip fuel' (header ++ encode_sections l) = S_Ok (header ++ encode_sections (List.filter kept l)).
Proof.
  intros H8 Hm Hok Hl. exists (length (encode_sections l)). intros fuel' Hf. by apply strip_spec.
Qed.

(** A type section, a [.debug_info] section, a [producers] section and the
    names. *)
Definition sample_sections : list Section_ :=
  [Other 1 [1; 2; 3]; Custom (DOT_DEBUG ++ [95; 105; 110; 102; 111]) [5; 6];
   Custom [112; 114; 111; 100] [7]; Custom NAME [8; 8]].

Lemma strip_keeps_sections_witness :
  List.filter kept sample_sections = [Other 1 [1; 2; 3]; Custom [112; 114; 111; 100] [7]] /\
  exists fuel, forall fuel', (fuel <= fuel')%nat ->
    strip fuel' ((MAGIC ++ [1; 0; 0; 0]) ++ encode_sections sample_sections) =
      S_Ok ((MAGIC ++ [1; 0; 0; 0]) ++ encode_sections (List.filter kept sample_sections)).
Proof.
  split; [vm_compute; reflexivity|]. apply strip_keeps_sections; try reflexivity.
  repeat constructor; cbn; done.
Defined.

(** C36: the walk need not end. A section of size [2^64 - 11] wraps the position
    past the test against the length, back to the section's own start, and the
    walk takes the same step for ever: no number of steps answers, where the
    code means to report a section past the end of the module. *)
Theorem strip_diverges :
  (forall fuel, strip fuel STUCK = S_NoFuel) /\
  uleb STUCK 9 = S_Ok (2 ^ 64 - 11, 19) /\ len STUCK = 19 /\ host_add 19 (2 ^ 64 - 11) = 8.
Proof. split; [intros fuel; apply (stuck_loop fuel)|by vm_compute]. Qed.
