(* ===== verification/EffectProperties.v ===== *)
(** * EffectProperties: the effect summaries

    What the driver of the summaries computes, and what an unsaturated summary
    promises of the bytecode. *)

From stdpp Require Import strings.
From S2P Require Import Prelude Mem OpSem Facts Types Engine Source Bytecode BytecodeSound Contexts ContextsSound Builtins Effects EffectJoin EffectFix EffectLoop EffectWalkSound EffectSound.
#[local] Open Scope Z_scope.

(** What a summary may hold, from the scripts [z] reaches. *)
Definition reach_union (local : gmap Z EffectSummary) (deps : gmap Z (list Z)) (z : Z) (s : EffectSummary) : Prop :=
  let own t := default effect_default (local !! t) in
  (forall x, x ∈ field_writes s <-> exists t, reaches deps z t /\ x ∈ field_writes (own t)) /\
  (forall x, x ∈ gname_writes s <-> exists t, reaches deps z t /\ x ∈ gname_writes (own t)) /\
  (elems_write s = true <-> exists t, reaches deps z t /\ elems_write (own t) = true) /\
  (env_write s = true <-> exists t, reaches deps z t /\ env_write (own t) = true).

(** C14: the worklist over the call graph ends, and ends in the least solution:
    from some fuel on the driver returns the same summaries, one for each
    script; an unsaturated summary has the writes of the scripts reachable over
    the resolved call edges, each of them known and unsaturated on its own, and
    no other write; a saturated one reaches a script that is saturated on its
    own, is unknown, or reaches more writes than the caps hold. *)
Theorem effects_fixpoint (debug_op : JSOp -> string) (T : OpTable) (I : EffectInputs) (names : Names)
    (locals : gmap Z LocalEffects) (local : gmap Z EffectSummary) (deps : gmap Z (list Z)) :
  walk_all debug_op T I (script_ids (ei_source I)) (ei_names I) ∅ = Ok (names, locals) ->
  resolve_all debug_op I names locals (script_ids (ei_source I)) ∅ ∅ = Ok (local, deps) ->
  exists n sums,
    (forall fuel, (n <= fuel)%nat -> emit_effect_summaries debug_op T I fuel = Ok (names, sums)) /\
    (forall z, z ∈ script_ids (ei_source I) <-> is_Some (sums !! z)) /\
    (forall z s, sums !! z = Some s ->
      (top s = false -> reach_union local deps z s /\
        forall t, reaches deps z t -> t ∈ script_ids (ei_source I) /\ top (default effect_default (local !! t)) = false) /\
      (top s = true -> exists t, reaches deps z t /\ lost local deps (script_ids (ei_source I)) t)).
Proof.
  intros Hw Hr. destruct (fixpoint_total local deps (script_ids (ei_source I)) (script_ids_nodup _) (local_dom debug_op I names locals local deps Hr))
    as (n & v & H1 & H2 & [_ H3] & H4).
  exists n, v. split_and!; [|done|].
  { intros fuel Hf. unfold emit_effect_summaries. rewrite Hw. cbn [mbind res_bind]. rewrite Hr. cbn [mbind res_bind]. by rewrite H1. }
  intros z s E. destruct (H3 z s E) as [W1 W2 W3 W4 W5]. split; [|done]. intros Ht.
  assert (forall t, reaches deps z t -> covers local (script_ids (ei_source I)) s t) as Hc by (intros t; by apply (solution_covers local deps _ v)).
  split; [|intros t Hrt; apply (co_known _ _ _ _ (Hc t Hrt))]. split_and!.
  - intros x. split; [intros Hx; apply W2; [done|by apply elem_field_set]|]. intros (t & Hrt & Hx). by apply (co_fields _ _ _ _ (Hc t Hrt)).
  - intros x. split; [intros Hx; apply W3; [done|by apply elem_gname_set]|]. intros (t & Hrt & Hx). by apply (co_gnames _ _ _ _ (Hc t Hrt)).
  - split; [by apply W4|]. intros (t & Hrt & Hx). by apply (co_elems _ _ _ _ (Hc t Hrt)).
  - split; [by apply W5|]. intros (t & Hrt & Hx). by apply (co_env _ _ _ _ (Hc t Hrt)).
Qed.

(** Two scripts that call each other: one writes a property, the other a
    captured variable. *)
Definition main_calls : list (Z * OpCall) := [(0, V_call 0); (0, V_set_prop 0); (0, V_ret_rval)].
Definition callee_calls : list (Z * OpCall) := [(0, V_set_aliased_var 0 3); (0, V_call 0); (0, V_ret_rval)].
Definition main_script : Script := mkScript (encode_all op_index main_calls) 0 [2] [] [] [] None 0 false false false false.
Definition callee_script : Script := mkScript (encode_all op_index callee_calls) 0 [] [] [] [] None 0 false false false false.
Definition two_scripts : EffectInputs :=
  mkEffectInputs (mkSource [SScript main_script; SScript callee_script; SString [120]] None) engine_default names_default natives_default
    ∅ [] ∅ {[ (0, 0) := mkFnSet [1] false; (1, 6) := mkFnSet [0] false ]} ∅ ∅ ∅ ∅ ∅ ∅.

#[local] Ltac encoded :=
  split_and!; [reflexivity| |exact (list.Forall_nil_2 _)|vm_compute; reflexivity];
  repeat (apply list.Forall_cons; split); try exact (list.Forall_nil_2 _);
  cbn [call_wf fst snd]; unfold in_u, in_s; try exact I; lia.

Lemma main_compiled : compiled main_script op_index main_calls.
Proof. encoded. Qed.

Lemma callee_compiled : compiled callee_script op_index callee_calls.
Proof. encoded. Qed.

Lemma two_scripts_compiled : all_compiled two_scripts op_index.
Proof.
  intros z sc E. assert (sc = main_script \/ sc = callee_script) as [-> | ->].
  { unfold object in E. cbn in E. destruct (Z.to_nat z) as [|[|[|k]]]; cbn in E; try discriminate E; injection E as <-; auto. }
  - exists main_calls. apply main_compiled.
  - exists callee_calls. apply callee_compiled.
Qed.

Lemma effects_fixpoint_witness :
  exists n sums, (forall fuel, (n <= fuel)%nat -> emit_effect_summaries (fun _ => EmptyString) dispatch_table two_scripts fuel = Ok (mkNames {[[120] := 0%nat]} [[120]], sums)) /\
  forall s, sums !! 0 = Some s -> top s = false -> env_write s = true.
Proof.
  destruct (walk_all (fun _ => EmptyString) dispatch_table two_scripts (script_ids (ei_source two_scripts)) (ei_names two_scripts) ∅)
    as [[names locals]| | |] eqn:Ew; [|vm_compute in Ew; discriminate Ew..].
  destruct (resolve_all (fun _ => EmptyString) two_scripts names locals (script_ids (ei_source two_scripts)) ∅ ∅)
    as [[local deps]| | |] eqn:Er; [|vm_compute in Ew; injection Ew as <- <-; vm_compute in Er; discriminate Er..].
  destruct (effects_fixpoint _ _ _ _ _ _ _ Ew Er) as (n & sums & H1 & H2 & H3).
  vm_compute in Ew. injection Ew as <- <-. vm_compute in Er. injection Er as <- <-.
  exists n, sums. split; [exact H1|]. intros s E Ht. destruct (H3 0 s E) as [H _]. destruct (H Ht) as ((_ & _ & _ & He) & _).
  apply He. exists 1. split; [|reflexivity]. apply rtc_once. apply list_elem_of_here.
Defined.

(** C5: an unsaturated summary covers the bytecode a call can run: from the
    bytes of the scripts to the summaries, every script reachable over the
    targets that the solver's tables give its call sites and accessor reads is
    no generator, and each of its instructions is of a class the walk knows;
    an element or captured-variable write sets the flag, a property write is
    listed under the name of its atom with the key range planned for its
    receiver, a global-name write is listed, a call is resolved and the effect
    of its native targets is included, an accessor read is resolved. *)
Theorem effects_cover (debug_op : JSOp -> string) (T : OpTable) (byte_of : JSOp -> Z) (I : EffectInputs) (names : Names)
    (sums : gmap Z EffectSummary) (fuel : nat) (z t : Z) (s : EffectSummary) :
  table_laws T byte_of -> names_wf (ei_names I) -> all_compiled I byte_of ->
  emit_effect_summaries debug_op T I fuel = Ok (names, sums) ->
  sums !! z = Some s -> top s = false -> rtc (call_edge I byte_of names) z t ->
  exists sc, object (ei_source I) t = Ok (SScript sc) /\ sc_is_generator_or_async sc = false /\
    forall cs pc c, compiled sc byte_of cs -> (pc, c) ∈ located 0 cs -> op_covered I names s t sc pc c.
Proof.
  intros HT Hn Hc. unfold emit_effect_summaries.
  destruct (walk_all _ _ _ _ _ _) as [[nm locals]| | |] eqn:Ew; cbn [mbind res_bind]; try done.
  destruct (resolve_all _ _ _ _ _ _ _) as [[local deps]| | |] eqn:Er; cbn [mbind res_bind]; try done.
  destruct (effect_loop _ _ _ _ _ _ _) as [v| | |] eqn:El; cbn [mbind res_bind]; try done.
  intros [= -> ->] E Ht Hrt.
  destruct (fixpoint_total local deps (script_ids (ei_source I)) (script_ids_nodup _) (local_dom debug_op I names locals local deps Er))
    as (n & v & H1 & H2 & _ & H4).
  assert (v = sums) as ->.
  { pose proof (effect_loop_fuel _ _ _ (fuel + n) _ _ _ _ _ El ltac:(lia)) as E1. rewrite (H1 (fuel + n)%nat ltac:(lia)) in E1. congruence. }
  pose proof (edges_covered debug_op T I byte_of HT names locals local deps Hn Hc Ew Er sums z t s H2 H4 E Ht Hrt) as Hcov.
  destruct (co_known _ _ _ _ Hcov) as [Hk Hkt]. pose proof Hk as (_ & sc & Eo)%script_ids_object.
  destruct (Hc t sc Eo) as [cs0 Hcs0].
  destruct (script_settled debug_op T I byte_of HT names locals local deps Hn Hc Ew Er t sc cs0 Hk Hkt Eo Hcs0) as (_ & Hg & _).
  exists sc. split_and!; [done|done|]. intros cs pc c Hcs Hin.
  by apply (op_covered_spec debug_op T I byte_of HT names locals local deps Hn Hc Ew Er t sc cs s pc c).
Qed.

Lemma effects_cover_witness :
  exists names sums s, emit_effect_summaries (fun _ => EmptyString) dispatch_table two_scripts 10 = Ok (names, sums) /\
  sums !! 0 = Some s /\ top s = false /\ env_write s = true.
Proof.
  destruct (emit_effect_summaries (fun _ => EmptyString) dispatch_table two_scripts 10) as [[names sums]| | |] eqn:Ee;
    [|vm_compute in Ee; discriminate Ee..].
  exists names, sums. destruct (sums !! 0) as [s|] eqn:E; [|vm_compute in Ee; injection Ee as <- <-; vm_compute in E; discriminate E].
  assert (top s = false) as Ht by (vm_compute in Ee; injection Ee as <- <-; vm_compute in E; injection E as <-; reflexivity).
  exists s. split; [reflexivity|]. split; [reflexivity|]. split; [exact Ht|].
  destruct (effects_cover (fun _ => EmptyString) dispatch_table op_index two_scripts names sums 10 0 1 s
    dispatch_table_laws names_default_wf two_scripts_compiled Ee E Ht) as (sc & Eo & _ & Hop).
  - apply rtc_once. exists main_script, main_calls, 0, (V_call 0). split; [reflexivity|].
    split; [exact main_compiled|]. split; [apply list_elem_of_here|]. left. split; [reflexivity|]. exists [1], 1.
    split; [reflexivity|]. split; [apply list_elem_of_here|reflexivity].
  - injection Eo as <-.
    apply (oc_env _ _ _ _ _ _ _ (Hop callee_calls 0 (V_set_aliased_var 0 3) callee_compiled ltac:(apply list_elem_of_here))). reflexivity.
Defined.

(** Natives that call a user function: the comparator of [sort] keeps it
    [Top], the callbacks of these do not. *)
Lemma callback_natives_pure :
  Forall (fun name => forall has_result, native_effect NK_Bare (utf16 name) has_result = NE_Pure)
    ["every"; "some"; "replace"; "replaceAll"; "stringify"]%string /\
  native_effect NK_Bare (utf16 "sort") false = NE_Top.
Proof. split; [|reflexivity]. repeat constructor; intros []; reflexivity. Qed.
