(* ===== verification/VersionProperties.v ===== *)
(** * VersionProperties: what the versioning driver guarantees

    The theorems on version discovery, the prediction rounds and the closure
    ladder, each with a concrete instance: a loop at pc 5 entered with a small
    int32 and re-entered with any int32. *)

From S2P Require Import Prelude Mem OpSem Facts Ctx SlotSound SlotMeaning CtxSound CtxHeight Predict PredictSound ContextProperties Versions VersionRounds VersionTable VersionInv VersionFrozen VersionWalk VersionConsult VersionTerm.
#[local] Open Scope Z_scope.

(** C17: an arrival enters a version that covers it. While the prediction is
    being computed, the version [theta] answers is the one keyed by the
    arrival's program point, token class and track; its context carries the
    arrival's tokens and track; and on the optimised track every value the
    arrival's facts admit in any slot is admitted by that context. The table
    invariant holds again. *)
Theorem version_covers_arrival (H : JSHeap) (bind_iv : Z -> option ValueRange) (cf : Config) (b b' : Bbv)
    (pc cur_pc : Z) (n id : nat) (arrival : Ctx) :
  cf_census cf = false -> cf_peel cf = false -> cf_mode cf = EM_ContextOnly ->
  inv bind_iv b -> arr_ok bind_iv arrival -> theta cf b pc cur_pc n arrival = Ok (b', id) ->
  let a := theta_ctx cf arrival in
  inv bind_iv b' /\
  exists v x, ver_of (b_vers b') id = Some v /\ v_pc v = pc /\ v_track v = c_track a /\
    b_classes b' !! c_tokens a = Some (v_class v) /\
    ver_ctx (b_vers b') id = Some x /\ c_tokens x = c_tokens a /\ c_track x = c_track a /\
    (c_track a = T_Opt -> forall k i val, slot_holds H (fact a k i) val -> slot_holds H (fact x k i) val).
Proof.
  intros H1 H2 H3 Hb Ha E a. split; [by eapply (theta_ok bind_iv cf H1 H2)|].
  destruct (theta_covers bind_iv cf b b' pc cur_pc n id arrival H1 H2 H3 Hb Ha E) as (v & x & V1 & V2 & V3 & V4 & X1 & X2 & X3 & _ & X5).
  exists v, x. split_and!; try done. intros Ht k i val. destruct (X5 Ht) as (p & Wp & L & Eq).
  apply ctx_le_spec in L as (_ & _ & L & _); [|reflexivity].
  destruct (theta_ctx_ok bind_iv cf arrival Ha) as [[W _] _]. apply slot_implies_sound; [apply W|].
  erewrite slot_implies_proper; [exact (L k i)|reflexivity|]. etrans; [by apply ctx_eqb_facts|]. apply (fact_canon (mkCtx _ _ _ _ _ _ _ _ _ _)).
Qed.

(** C7: the emitting walk only consults what the prediction computed. When
    the rounds end without having widened every context away and then
    exhausted their cap, the emitting walk over their table succeeds without
    failing a debug assertion (each of its arrivals implies the prediction at
    its target, each context is the one stored), interns no version and
    changes no context or prediction; the closure check passes at the first
    try. *)
Theorem emission_consults (bind_iv : Z -> option ValueRange) (bd : Body)
    (walk : Config -> option nat -> VerTable -> list Splice -> list (option (nat * option nat)) -> Move)
    (rounds fuel : nat) (rg : Rung) (st : State) :
  bd_census bd = false -> bd_peel bd = false ->
  (forall cf, walk_ok bind_iv (walk cf)) ->
  (forall cf, walk (as_code cf) = walk cf) ->
  (forall cf t segs, (exists c, walk cf None t segs [] = M_Cont c \/ walk cf None t segs [] = M_Resume c)
                     \/ walk cf None t segs [] = M_Refuse) ->
  predict_run bd walk rounds fuel rg state_default = Ok (Some st) ->
  (st_stripping st = true /\ rounds_cap (st_vers st) + STRIP_MAX_ROUNDS <= st_rounds st) \/
  exists b bg v, let cf := config_of bd EM_Code rg st in
    emit cf (walk cf) fuel (bbv_new bd st) = Ok (b, bg, v) /\ b_changed b = false /\ b_vers b = st_vers st /\
    forall tries, close bd walk (S tries) rounds fuel 0 rg state_default = Ok (CL_Body b bg v).
Proof.
  intros H1 H2 H3 H4 H5 E.
  destruct (predict_run_spec bind_iv bd walk H1 H2 H3 H4 H5 rounds fuel rg state_default st) as [_ [Hs|(b & bg & v & C1 & C2 & C3)]];
    [split; [apply st_ok_default|by left]|exact E|by left|right].
  exists b, bg, v. cbv zeta. split_and!; [exact C1|exact C2|exact C3|]. intros tries. cbn [close]. rewrite E. cbn [mbind res_bind].
  rewrite C1. cbn [mbind res_bind]. by rewrite C2.
Qed.

(** C6: translating a script ends. For every lowering that asks for boundedly
    many edges per version, from some fuel on the ladder of rungs, with its
    rounds and retries, gives one answer: the heights of the predictions, the
    settled contexts and the version ids bound each walk, the caps bound the
    rounds and the retries. *)
Theorem translation_ends (bind_iv : Z -> option ValueRange) (bd : Body)
    (walk : Config -> option nat -> VerTable -> list Splice -> list (option (nat * option nat)) -> Move)
    (edges tries rounds : nat) (generator : bool) :
  bd_census bd = false -> bd_peel bd = false ->
  (forall cf, walk_ok bind_iv (walk cf)) -> (forall cf, bounded (walk cf) edges) ->
  (Z.to_nat CLOSURE_MAX_TRIES < tries)%nat -> (Z.to_nat (ROUNDS + 1) < rounds)%nat ->
  exists outcome enough, outcome <> OutOfFuel /\
    forall fuel, (enough <= fuel)%nat -> translate_script bd walk tries rounds fuel generator = outcome.
Proof.
  intros H1 H2 H3 H4 Ht Hr. unfold translate_script.
  destruct (ladder_ends bind_iv bd walk edges H1 H2 H3 H4 tries rounds false (rungs generator) Hr Ht) as (r & Hr1 & f0 & Hf).
  by exists r, f0.
Qed.

(** ** A loop *)

Definition loop_script : Body := mkBody [(5, 9)] 12 false false true.
Definition loop_rung : Rung := mkRung false false.

Definition no_info : list (option (nat * option nat)) := [].

(** The script enters its loop at 5 with a small int32 in local 0 and goes
    back from 7 with any int32. *)
Definition loop_edge_to (cur succ : Z) (t : Track) (c : Ctx) : Cont := mkCont cur t succ c 0 None None (fun _ => None).

Definition loop_walk (cf : Config) (who : option nat) (t : VerTable) (segs : list Splice)
    (replies : list (option (nat * option nat))) : Move :=
  match who, replies with
  | None, [] => M_Cont (loop_edge_to 0 5 T_Opt small_ctx)
  | Some v, [] =>
      match ver_of t v with
      | Some ver => M_Cont (loop_edge_to (v_pc ver) (if v_pc ver =? 5 then 7 else 5) (v_track ver) int32_ctx)
      | None => M_Refuse
      end
  | _, _ => M_Done 1
  end.

Lemma one_slot_arr (s : SlotCtx) :
  slot_wf s -> ctx_wf (mkCtx [s] [] [] [] [] [] [] [] [] T_Opt) /\ bind_ok (fun _ => None) (mkCtx [s] [] [] [] [] [] [] [] [] T_Opt).
Proof. intros Hs. exact (one_slot_ok s Hs). Qed.

Lemma loop_walk_ok (cf : Config) : walk_ok (fun _ => None) (loop_walk cf).
Proof.
  assert (forall cur succ t s, slot_wf s -> cont_ok (fun _ => None) (loop_edge_to cur succ t (mkCtx [s] [] [] [] [] [] [] [] [] T_Opt))) as H.
  { intros cur succ t s Hs. destruct (one_slot_arr s Hs) as [W B]. by split_and!. }
  intros who t segs replies c _ E.
  assert (loop_walk cf who t segs replies = M_Cont c) as E'.
  { destruct E as [E|E]; [done|]. unfold loop_walk in E. destruct who as [v|], replies as [|r replies]; try done. by destruct (ver_of t v). }
  clear E. unfold loop_walk in E'. destruct who as [v|], replies as [|r replies]; try done.
  - destruct (ver_of t v); [|done]. injection E' as <-. apply H, INT32_SLOT_wf.
  - injection E' as <-. apply H, small_slot_wf.
Qed.

Lemma loop_walk_bounded (cf : Config) : bounded (loop_walk cf) 1.
Proof. intros who t segs [|r replies] Hr; [cbn in Hr; lia|]. by destruct who. Qed.

Definition loop_start : Bbv := bbv_new loop_script state_default.
Definition loop_cf : Config := config_of loop_script EM_ContextOnly loop_rung state_default.

Lemma version_covers_arrival_witness :
  match theta loop_cf loop_start 5 0 0 small_ctx with
  | Ok (b, id) => exists x, ver_ctx (b_vers b) id = Some x /\ slot_holds heap0 (fact x V_Locals 0) (J_Int32 3)
  | _ => False
  end.
Proof.
  destruct (theta loop_cf loop_start 5 0 0 small_ctx) as [[b id]| | |] eqn:E; try (vm_compute in E; discriminate).
  destruct (version_covers_arrival heap0 (fun _ => None) loop_cf loop_start b 5 0 0 id small_ctx eq_refl eq_refl eq_refl) as [_ (v & x & _ & _ & _ & _ & X1 & _ & _ & X2)].
  - apply table_ok_default.
  - destruct (one_slot_arr small_slot small_slot_wf) as [W B]. by split_and!.
  - exact E.
  - exists x. split; [exact X1|]. apply X2; [reflexivity|]. apply small_slot_holds. lia.
Defined.

Lemma emission_consults_witness :
  match predict_run loop_script loop_walk 3 9 loop_rung state_default with
  | Ok (Some st) => st_rounds st = 1 /\ exists b bg v, close loop_script loop_walk 1 3 9 0 loop_rung state_default = Ok (CL_Body b bg v) /\ b_vers b = st_vers st
  | _ => False
  end.
Proof.
  destruct (predict_run loop_script loop_walk 3 9 loop_rung state_default) as [[st|]| | |] eqn:E; try (vm_compute in E; discriminate).
  assert (st_rounds st = 1 /\ st_stripping st = false) as [Er Es] by (vm_compute in E; injection E as <-; by split).
  split; [exact Er|].
  destruct (emission_consults (fun _ => None) loop_script loop_walk 3 9 loop_rung st eq_refl eq_refl loop_walk_ok (fun _ => eq_refl)) as [[H _]|(b & bg & v & _ & _ & Hv & Hc)].
  - intros cf t segs. left. exists (loop_edge_to 0 5 T_Opt small_ctx). by left.
  - exact E.
  - congruence.
  - exists b, bg, v. split; [exact (Hc 0%nat)|exact Hv].
Defined.

Lemma translation_ends_witness :
  exists outcome enough, outcome <> OutOfFuel /\
    forall fuel, (enough <= fuel)%nat -> translate_script loop_script loop_walk 4 (S (Z.to_nat (ROUNDS + 1))) fuel false = outcome.
Proof.
  apply (translation_ends (fun _ => None) loop_script loop_walk 1 4 (S (Z.to_nat (ROUNDS + 1))) false eq_refl eq_refl loop_walk_ok loop_walk_bounded).
  - unfold CLOSURE_MAX_TRIES. lia.
  - apply Nat.lt_succ_diag_r.
Defined.
