(* ===== verification/HeapProperties.v ===== *)
(** * HeapProperties: call contexts and the heap of the analysis

    What holds of every reachable state of the context table and of the name
    interner; and of the solver's heap over a whole analysis: the state is
    well-formed and its method tables are fed at every reachable state, the
    heap only grows, an allocation site's field is written only through a
    receiver known as that site, a read subscribes to everything its answer
    came from; and the prototype chain that one order of interning loses. *)

From Stdlib Require Import String.
From S2P Require Import Prelude OpSem Facts Types Engine EngineRun EngineFix Mem Source Contexts ContextsSound Builtins SolverState Heap HeapEval.
From S2P Require Import Calls Seed EngineExt HeapInv HeapKeep HeapOps SolverKeep ReadSubs.
#[local] Open Scope Z_scope.

(** C35: in every state entries can reach from an empty table, each context
    spells a call string that repeats no callee and is as long as its depth,
    at most the cap; every context was charged to the budget, so there are at
    most [CTX_BUDGET] beside the generic one; and the next entry from a live
    context succeeds, in the generic context or in one that entered the
    callee. *)
Theorem contexts_bounded (e : Engine) (st : CallState) (ctx : CtxId) (script : ScriptId) (pc : Z) (f : ScriptId) (poly : bool) :
  live_ctxs e = ∅ -> rtc ctx_step (initial_calls e) st ->
  (forall cx fr, frames (cs_ctxs st) !! cx = Some fr ->
    NoDup (call_string cx (frames (cs_ctxs st)) cx) /\
    Z.of_nat (length (call_string cx (frames (cs_ctxs st)) cx)) = cf_depth fr /\ cf_depth fr <= CTX_DEPTH_CAP) /\
  Z.of_nat (length (frames (cs_ctxs st))) <= 1 + Z.min (ctxs_spent (cs_stats st)) CTX_BUDGET /\
  ((ctx < length (frames (cs_ctxs st)))%nat ->
    exists st' cx, enter st ctx script pc f poly = Some (st', cx) /\
      (cx = CTX0 \/ exists g, frames (cs_ctxs st') !! cx = Some g /\ cf_callee g = Some f)).
Proof.
  intros He Hr. pose proof (ctx_reachable_wf e st He Hr) as Hw. pose proof Hw as [C1 [C2 C2'] C3 C4 _].
  rewrite C2 in C4. split_and!; [|lia|].
  - intros cx fr E. destruct (call_string_props _ _ cx fr (cx_frames _ C1) E) as [H1 H2]. split_and!; [done|done|].
    rewrite <- C2'. destruct (decide (cx = 0%nat)) as [->|Hne].
    + rewrite (fw_generic _ _ (cx_frames _ C1)) in E. injection E as <-. cbn. apply (cx_cap _ C1).
    + destruct (fw_frame _ _ (cx_frames _ C1) cx fr E Hne) as (_ & ? & _). lia.
  - intros Hl. destruct (enter_total st ctx script pc f poly Hw Hl) as (st' & cx & E & _ & _ & H). by exists st', cx.
Qed.

(** Script 1 calls script 2 at 10, which calls 1 back at 20 from its context. *)
Definition mutual_calls : option (CallState * list CtxId) :=
  '(st1, a) ← enter (initial_calls engine_default) CTX0 1 10 2 false;
  '(st2, b) ← enter st1 a 2 20 1 false;
  '(st3, c) ← enter st2 b 1 10 2 false;
  Some (st3, [a; b; c]).

(** The recursion folds back onto the context script 2 was first entered at,
    whose call string is itself under script 1. *)
Lemma mutual_calls_steps : forall st l, mutual_calls = Some (st, l) -> rtc ctx_step (initial_calls engine_default) st.
Proof.
  intros st l. unfold mutual_calls. intros ([st1 a] & E1 & ([st2 b] & E2 & ([st3 c] & E3 & [= <- <-])%bind_Some)%bind_Some)%bind_Some.
  pose proof E1 as E1'. vm_compute in E1'. injection E1' as <- <-.
  pose proof E2 as E2'. vm_compute in E2'. injection E2' as <- <-.
  eapply rtc_l; [eapply step_enter; [|exact E1]; vm_compute; lia|].
  eapply rtc_l; [eapply step_enter; [|exact E2]; vm_compute; lia|].
  apply rtc_once. eapply step_enter; [|exact E3]. vm_compute. lia.
Qed.

Lemma contexts_bounded_witness :
  exists st, mutual_calls = Some (st, [1; 2; 1]%nat) /\ call_string 2 (frames (cs_ctxs st)) 2 = [1; 2] /\
  Z.of_nat (length (frames (cs_ctxs st))) <= 1 + Z.min (ctxs_spent (cs_stats st)) CTX_BUDGET.
Proof.
  destruct mutual_calls as [[st l]|] eqn:E; [|vm_compute in E; done].
  pose proof (mutual_calls_steps st l E) as Hr.
  exists st. split; [|split].
  - f_equal. f_equal. vm_compute in E. by injection E as _ <-.
  - vm_compute in E. injection E as <- _. reflexivity.
  - apply (contexts_bounded engine_default st CTX0 0 0 0 false); [reflexivity|exact Hr].
Defined.

(** Interning is a bijection between the strings seen and a prefix of the
    ids: a run of the interner keeps the tables inverse to each other, earlier
    ids keep their strings, an interned string is found again under its id,
    and interning it again changes nothing. *)
Theorem names_interned (l : list (list Z)) (chars : list Z) (n n' : Names) (id : nat) :
  foldl (fun n c => n ← n; fst <$> intern n c) (Some names_default) l = Some n -> intern n chars = Some (n', id) ->
  (forall c i, name_lookup n' c = Some i <-> name_get n' i = Some c) /\
  name_lookup n' chars = Some id /\
  (forall i c, name_get n i = Some c -> name_get n' i = Some c) /\
  intern n' chars = Some (n', id) /\
  (chars ∈ l -> n' = n).
Proof.
  intros Hn Hi. destruct (intern_all_spec l n Hn) as [Hw Hl].
  destruct (intern_spec _ _ _ _ Hw Hi) as ([Hw'] & H1 & H2 & H3 & H4). split_and!; [done|done| | |].
  - intros i c Hc. destruct H3 as [k E]. unfold name_get in *. rewrite E. by apply lookup_app_l_Some.
  - unfold intern. unfold name_lookup in H2. by rewrite H2.
  - intros Hin. destruct (Hl _ Hin) as [k Hk]. by destruct (H4 k Hk).
Qed.

Lemma names_interned_witness :
  foldl (fun n c => n ← n; fst <$> intern n c) (Some names_default) [[120]; [121]; [120]] = Some (mkNames {[[120] := 0%nat; [121] := 1%nat]} [[120]; [121]]) /\
  intern (mkNames {[[120] := 0%nat; [121] := 1%nat]} [[120]; [121]]) [121] = Some (mkNames {[[120] := 0%nat; [121] := 1%nat]} [[120]; [121]], 1%nat) /\
  name_lookup (mkNames {[[120] := 0%nat; [121] := 1%nat]} [[120]; [121]]) [121] = Some 1%nat.
Proof.
  split; [reflexivity|]. split; [reflexivity|].
  apply (names_interned [[120]; [121]; [120]] [121] (mkNames {[[120] := 0%nat; [121] := 1%nat]} [[120]; [121]])); reflexivity.
Defined.

(** ** The heap model *)

(** ** A concrete analysis *)

(** Objects 1, 2 and 3: [C.prototype] with a method and an instance of [D],
    [D.prototype] below it, and the instance; 4 and 5: the constructors, 9 the
    method. *)
Definition plain_object (p : option Z) (props : list (Z * Z)) : SourceObject :=
  SObject (mkObjectData false K_Plain true None None p None props []).
Definition fn_object (s : Z) (props : list (Z * Z)) : SourceObject :=
  SObject (mkObjectData false K_Function true (Some s) None None None props []).
Definition two_classes : Source :=
  mkSource [SSymbol; plain_object None [(7, 3); (8, 9)]; plain_object (Some 1) []; plain_object (Some 2) [];
            fn_object 100 [(6, 1)]; fn_object 200 [(6, 2)]; SString (utf16 "prototype"%string);
            SString [115]; SString [109]; fn_object 300 []] None.

Definition no_tables : ScanTables := mkScanTables ∅ ∅ ∅.
Definition DEPTH : nat := 40.

(** Two allocation sites, each written into the other. *)
Definition two_writes : list (ScriptId * Constraint) :=
  [(1, CAlloc (CVar 0) 5 AK_Plain); (1, CAlloc (CVar 1) 6 AK_Plain);
   (1, CWrite (CVar 0) 7 (CVar 1) 8); (1, CWrite (CVar 1) 8 (CVar 0) 9)].

(** Both objects of [two_classes] reached, then the method read off the
    instance. *)
Definition snap_reads : list (ScriptId * Constraint) :=
  [(1, CAlloc (CVar 0) 5 (AK_Snapshot 1)); (1, CAlloc (CVar 1) 6 (AK_Snapshot 3)); (1, CRead (CVar 1) 6 (CVar 2) 7 true)].

Definition start_of (l : list (ScriptId * Constraint)) : option (Solver * WellKnown) :=
  '(n, W) ← well_known names_default; Some (scanned l (solver_new n W), W).

Section Steps.
  Context (source : Source) (tables : ScanTables) (W : WellKnown) (fuel : nat).

Fixpoint steps (n : nat) (s : Solver) : option Solver :=
  match n with
  | O => Some s
  | S n => '(e, u) ← pop (sv_engine s); '(s, _) ← eval_solver source tables W fuel u (upd_sv_engine (fun _ => e) s); steps n s
  end.

Lemma steps_reachable n s s' : reachable source tables W fuel s -> steps n s = Some s' -> reachable source tables W fuel s'.
Proof.
  revert s. induction n as [|n IH]; intros s H; cbn [steps]; [by intros [= <-]|].
  destruct (pop (sv_engine s)) as [[e u]|] eqn:P; cbn; [|done].
  destruct (eval_solver source tables W fuel u _) as [[s1 []]|] eqn:E; cbn; [|done]. apply IH. by eapply re_step.
Qed.

End Steps.

Definition runs {A} (o : option A) : bool := match o with Some _ => true | None => false end.

(** The state after the seeding and [n] evaluations. *)
Definition after (source : Source) (l : list (ScriptId * Constraint)) (n : nat) : option (WellKnown * Solver) :=
  '(s, W) ← start_of l;
  '(s, _) ← seed source W DEPTH s;
  '(s, _) ← instantiate_scripts s;
  s ← steps source no_tables W DEPTH n s;
  Some (W, s).

Lemma after_reachable source l n W s :
  after source l n = Some (W, s) -> reachable source no_tables W DEPTH s.
Proof.
  unfold after, start_of. destruct (well_known names_default) as [[nm W']|]; cbn; [|done].
  destruct (seed _ _ _ _) as [[s1 r1]|] eqn:E1; cbn; [|done].
  destruct (instantiate_scripts s1) as [[s2 r2]|] eqn:E2; cbn; [|done].
  destruct (steps _ _ _ _ _ _) as [s3|] eqn:E3; cbn; [|done]. intros [= <- <-].
  eapply steps_reachable; [|exact E3]. eapply re_scripts; [|exact E2]. eapply re_seed; [|exact E1]. apply re_scan.
Qed.

(** ** The invariant *)

(** C2: at every state of an analysis - after the scan, any of the seeding
    phases and any number of evaluations of constraints of every kind - the
    heap is well-formed: the interning maps, the dense vectors and the engine's
    labels describe the same abstractions and classes, every class has a method
    table of its own and every source of one exists, the recorded fields are
    exactly the field cells, and every standing link has one of the seven
    shapes the heap installs between cells of the right kinds. *)
Theorem heap_invariant (source : Source) (tables : ScanTables) (W : WellKnown) (fuel : nat) (s : Solver) :
  reachable source tables W fuel s -> wf W s.
Proof. intros H. by destruct (reachable_wf source tables W fuel s H). Qed.

Lemma heap_invariant_witness :
  match after two_classes two_writes 4 with Some (W, s) => wf W s | None => False end.
Proof.
  assert (runs (after two_classes two_writes 4) = true) as Hrun by (vm_compute; reflexivity).
  revert Hrun. destruct (after two_classes two_writes 4) as [[W s]|] eqn:E; [intros _|discriminate 1].
  exact (heap_invariant _ _ _ _ _ (after_reachable _ _ _ _ _ E)).
Defined.

(** C9: at every reachable state each object registered as a source of a
    class's methods feeds the class's method table: whatever field the table
    knows, the cell of that field on the source is linked to the table's, or
    is the same cell - also for fields first named, and for sources first
    registered, in any order. *)
Theorem method_tables_complete (source : Source) (tables : ScanTables) (W : WellKnown) (fuel : nat) (s : Solver)
    (c : ClassId) (ci : ClassInfo) (src : AbsId) (n : NameId) :
  reachable source tables W fuel s -> class_at s c = Some ci -> src ∈ ci_sources ci -> has_field s (ci_proto_abs ci) n ->
  exists i j, interned s (KField src n) i /\ interned s (KField (ci_proto_abs ci) n) j /\
    (i = j \/ (i, j) ∈ link_set (sv_engine s)).
Proof.
  intros H Hc Hs Hf. destruct (reachable_wf source tables W fuel s H) as [_ C].
  destruct (C c (ci_proto_abs ci) src n) as [[]|HL]; [by unfold table_of; rewrite Hc|by exists ci|done|exact HL].
Qed.

Lemma method_tables_complete_witness :
  match after two_classes snap_reads 3 with
  | Some (_, s) =>
      exists i j, interned s (KField 3 6) i /\ interned s (KField 2 6) j /\ (i = j \/ (i, j) ∈ link_set (sv_engine s))
  | None => False
  end.
Proof.
  assert ((p ← after two_classes snap_reads 3; class_at (snd p) 0) = Some (mkClassInfo (CK_Proto 2) (Some 200) 2 [3%nat] None false)) as Hc
    by (vm_compute; reflexivity).
  assert ((fun p => bool_decide (6 ∈ fields (sv_heap (snd p)) 2%nat)) <$> after two_classes snap_reads 3 = Some true) as Hf
    by (vm_compute; reflexivity).
  revert Hc Hf. destruct (after two_classes snap_reads 3) as [[W s]|] eqn:E; [|discriminate 1]. intros Hc Hf.
  injection Hf as Hf. apply bool_decide_eq_true in Hf.
  refine (method_tables_complete _ _ _ _ s 0 _ 3 6 (after_reachable _ _ _ _ _ E) Hc _ Hf). cbn [ci_sources]. left.
Defined.

(** ** Growth *)

(** C40: an evaluation only adds to the heap: abstractions keep their key,
    their class, their array flag and an installed prototype link, classes
    keep their method table and their sources, and no field, cell, standing
    link or subscription goes away. *)
Theorem heap_grows (source : Source) (tables : ScanTables) (W : WellKnown) (fuel : nat) (s : Solver) (e : Engine)
    (u : User) (s' : Solver) (r : unit) :
  reachable source tables W fuel s -> pop (sv_engine s) = Some (e, u) ->
  eval_solver source tables W fuel u (upd_sv_engine (fun _ => e) s) = Some (s', r) -> ext all_fields s s'.
Proof.
  intros H P E. destruct (reachable_wf source tables W fuel s H) as [W0 C0].
  destruct (engine_good W all_fields _ s e none none W0 C0) as (W1 & C1 & E1); [|by intros ? []|by intros ? []|].
  { apply same_graph_step; [apply W0|]. by eapply pop_graph. }
  destruct (eval_solver_spec source tables W fuel all_fields _ _ u (fun _ _ _ => I) W1 C1 s' r E) as [(_ & _ & E2) _].
  by eapply heap_ext_trans.
Qed.

(** The write of the first site's object into the second's field. *)
Lemma heap_grows_witness :
  match after two_classes two_writes 3 with
  | Some (W, s) =>
      match pop (sv_engine s) with
      | Some (e, u) =>
          match eval_solver two_classes no_tables W DEPTH u (upd_sv_engine (fun _ => e) s) with
          | Some (s', _) => ext all_fields s s'
          | None => False
          end
      | None => False
      end
  | None => False
  end.
Proof.
  assert (runs ('(W, s) ← after two_classes two_writes 3; '(e, u) ← pop (sv_engine s);
    eval_solver two_classes no_tables W DEPTH u (upd_sv_engine (fun _ => e) s)) = true) as Hrun by (vm_compute; reflexivity).
  revert Hrun. destruct (after two_classes two_writes 3) as [[W s]|] eqn:E; cbn [mbind option_bind]; [|discriminate 1].
  destruct (pop (sv_engine s)) as [[e u]|] eqn:P; cbn [mbind option_bind]; [|discriminate 1].
  destruct (eval_solver _ _ _ _ _ _) as [[s' r]|] eqn:Ev; [intros _|discriminate 1].
  exact (heap_grows _ _ _ _ _ _ _ _ _ (after_reachable _ _ _ _ _ E) P Ev).
Defined.

(** C8: the field of an allocation site changes only by a write through a
    receiver known as that very site: if the constraint evaluated is not a
    write of that name - or an element builtin, for the elements - whose
    receiver's value is exactly this site, the value of the field's cell is
    the same afterwards. *)
Theorem alloc_field_isolated (source : Source) (tables : ScanTables) (W : WellKnown) (fuel : nat) (s : Solver) (e : Engine)
    (u : User) (s' : Solver) (r : unit) (a : AbsId) (script : ScriptId) (pc : Pc) (ctx : CtxId) (n : NameId) (t : TypeSet) :
  reachable source tables W fuel s -> pop (sv_engine s) = Some (e, u) ->
  eval_solver source tables W fuel u (upd_sv_engine (fun _ => e) s) = Some (s', r) ->
  has_key s a (AK_Alloc script pc ctx) -> cell_value s (KField a n) = Some t -> ~ write_target W s u a n ->
  cell_value s' (KField a n) = Some t.
Proof.
  intros H P E Hk Ht Hn. destruct (reachable_wf source tables W fuel s H) as [W0 C0].
  set (A := write_target W (upd_sv_engine (fun _ => e) s) u).
  destruct (engine_good W A _ s e none none W0 C0) as (W1 & C1 & E1); [|by intros ? []|by intros ? []|].
  { apply same_graph_step; [apply W0|]. by eapply pop_graph. }
  destruct (eval_solver_spec source tables W fuel A _ _ u (fun _ _ H => H) W1 C1 s' r E) as [(_ & _ & E2) _].
  eapply (ex_frame A s s'); [by eapply heap_ext_trans|exact Hk|done| |exact Ht].
  intros HA. apply Hn. revert HA. unfold A, pop in *. destruct (worklist (sv_engine s)); [done|]. by injection P as <- _.
Qed.

Lemma alloc_field_isolated_witness :
  match after two_classes two_writes 3 with
  | Some (W, s) =>
      match pop (sv_engine s) with
      | Some (e, u) =>
          match eval_solver two_classes no_tables W DEPTH u (upd_sv_engine (fun _ => e) s) with
          | Some (s', _) => cell_value s' (KField 0 7) = Some (obj_one 2)
          | None => False
          end
      | None => False
      end
  | None => False
  end.
Proof.
  assert (('(W, s) ← after two_classes two_writes 3; '(e, u) ← pop (sv_engine s);
    '(s', _) ← eval_solver two_classes no_tables W DEPTH u (upd_sv_engine (fun _ => e) s);
    Some (u, ab_key <$> abs_at s 0, cell_value s (KField 0 7), cons (sv_engine s) !! 3%nat)) =
    Some ((3, CTX0), Some (AK_Alloc 1 5 CTX0), Some (obj_one 2), Some (CWrite (CVar 1) 8 (CVar 0) 9))) as Hrun
    by (vm_compute; reflexivity).
  revert Hrun. destruct (after two_classes two_writes 3) as [[W s]|] eqn:E; cbn [mbind option_bind]; [|discriminate 1].
  destruct (pop (sv_engine s)) as [[e u]|] eqn:P; cbn [mbind option_bind]; [|discriminate 1].
  destruct (eval_solver _ _ _ _ _ _) as [[s' r]|] eqn:Ev; cbn [mbind option_bind]; [|discriminate 1].
  intros Hrun. injection Hrun as -> Hk Ht Hc.
  refine (alloc_field_isolated _ _ _ _ _ _ _ _ _ 0 1 5 CTX0 7 _ (after_reachable _ _ _ _ _ E) P Ev Hk Ht _).
  intros (sid & c & recv & t & _ & Hc' & [(src & pc & ->)|(arg & ret & pc & -> & _)] & _).
  - change (cons (sv_engine s) !! 3%nat = Some (CWrite recv 7 src pc)) in Hc'. congruence.
  - change (cons (sv_engine s) !! 3%nat = Some (CElemBuiltin recv arg ret pc EB_Write)) in Hc'. congruence.
Defined.

(** ** Subscriptions *)

(** C23: a property read leaves its constraint subscribed to every cell the
    answer was computed from. Of the functions the receiver may be: the field
    of each function object, unless there are too many or the field is
    [prototype]. Of one object: its own field, its class's field, and at every
    name but the elements the field's cell on every prototype along the chain,
    up to the depth limit or the sentinel of the last link, which a later
    install raises. Of the instances of a class: the class view, at the
    elements that of its region, and the method table's field and chain. Of
    the instances of a region of at most 64 classes: the view of its root,
    into which the views of all members are linked, and for a callee the
    field along each member's method chain; at the elements, as for any
    object, the union of all elements. And wherever a class's accessors are
    consulted, the return cell of the getter. *)
Theorem read_subscribes_path (source : Source) (tables : ScanTables) (W : WellKnown) (fuel : nat) (s : Solver)
    (rts : TypeSet) (n : NameId) (callee : bool) (u : User) (out : TypeSet) (s' : Solver) (r : TypeSet * bool) :
  reachable source tables W fuel s -> read_into source W fuel rts n callee u out s = Some (s', r) ->
  fns_subscribed W s' rts n u /\
  exists s1 o1, read_front source W fuel rts n callee u out s = Some (s1, o1) /\
    read_subscribed source W fuel rts n callee u s1 s'.
Proof.
  intros H E. destruct (reachable_wf source tables W fuel s H) as [W0 C0].
  by destruct (read_into_subscribes source W fuel all_fields _ s rts n callee u out W0 C0 s' r E) as [_ HQ].
Qed.

Lemma read_subscribes_path_witness :
  match after two_classes snap_reads 2 with
  | Some (W, s) =>
      match read_into two_classes W DEPTH (obj_one 1) 6 true (2, CTX0) ts_default s with
      | Some (s', _) => one_subscribed W s' 1 6 (2, CTX0)
      | None => False
      end
  | None => False
  end.
Proof.
  assert (runs ('(W, s) ← after two_classes snap_reads 2;
    read_into two_classes W DEPTH (obj_one 1) 6 true (2, CTX0) ts_default s) = true) as Hrun by (vm_compute; reflexivity).
  revert Hrun. destruct (after two_classes snap_reads 2) as [[W s]|] eqn:E; cbn [mbind option_bind]; [|discriminate 1].
  destruct (read_into _ _ _ _ _ _ _ _ _) as [[s' r]|] eqn:Er; [intros _|discriminate 1].
  destruct (read_subscribes_path _ _ _ _ _ (obj_one 1) 6 true (2, CTX0) _ _ _ (after_reachable _ _ _ _ _ E) Er)
    as (_ & s1 & o1 & _ & H).
  exact H.
Defined.

(** ** Interning order *)

(** The functions a read of ["m"] off the instances of [D] (the constructor of
    script 200) finds, when the objects of [order] are interned first. *)
Definition method_of (order : list SourceObjectId) : option (list FnId) :=
  '(n, W) ← well_known names_default;
  '(_, t) ← (seed two_classes W DEPTH;;
             for_each order (fun o => _ ← intern_snap two_classes W DEPTH o; mret tt);;
             c ← class_for_fn two_classes W DEPTH (intern_snap two_classes W DEPTH) 200;
             m ← m_intern [109];
             read_into two_classes W DEPTH (obj_ts (OClassAny c)) m true (SEED, CTX0) ts_default) (solver_new n W);
  Some (Types.ids (fns (fst t))).

(** The methods the instances of a class inherit depend on the order in
    which the snapshot is interned.  When [D.prototype] is interned before
    the prototype above it, seeding that one meets an instance of [D] and
    registers [D.prototype] as a source of [D]'s table while its own prototype
    link is not set yet; the table's chain is then never continued, because
    a source already registered returns at once, and the inherited method is
    not found.  Interned from the other end, it is. *)
Theorem prototype_chain_lost :
  method_of [2] = Some [] /\ method_of [2; 1; 3] = Some [] /\ method_of [1; 3] = Some [Types.fn_script 300].
Proof. split_and!; vm_compute; reflexivity. Qed.
